(* ===== verification/_CoqProject ===== *)
-Q . S2P
Prelude.v
Bytes.v
Text.v
Types.v
Address.v
ExpertOps.v
ExpertFacts.v
ExpertCodec.v
Security.v
Mailbox.v
SemDelta.v
SemDeltaFacts.v
SemGraph.v
SemHost.v
SemHostFacts.v
Verifier.v
VerifierClaims.v
VerifierFacts.v
BigInt.v
LimbFacts.v
BigIntFacts.v
Arithmetic.v
RationalFacts.v
EvaluatorFacts.v
ArithmeticFacts.v
Json.v
JsonSchema.v
JsonGrammar.v
JsonLex.v
JsonParser.v
JsonFacts.v
CodeLang.v
CodeMachine.v
CodeRun.v
CodeParser.v
CodeFacts.v
Digests.v
BranchOps.v
Branch.v
BranchFacts.v
Certify.v
CertifyFacts.v
BranchLaws.v
BranchExamples.v
ExpertRecords.v
LedgerEvents.v
LedgerChecks.v
LedgerCodec.v
LedgerCodecFacts.v
LedgerEventFacts.v
Ledger.v
State.v
StateFacts.v
Integrity.v
IntegrityLog.v
Storage.v
Anchor.v
FileLedger.v
Compaction.v
Acknowledged.v
Retention.v
AckAppend.v
AckOpen.v
AckCompact.v
AckTrace.v
AckRecover.v
AckExamples.v
RaftFormat.v
RaftFormatFacts.v
RaftStorage.v
RaftDisk.v
RaftState.v
RaftAppend.v
RaftSnapshot.v
RaftCrash.v
HostQuota.v
Scopes.v
ScopeFacts.v
ScopeBlock.v
Policy.v
