(* ===== verification/Prelude.v ===== *)
(** * PTR: the authority path, verified

    PTR separates proposing from deciding.  Models, Pods and searches propose;
    what becomes a fact goes through a narrow authority path: an agent works on
    a speculative branch that is certified before it is merged, values enter the
    semantic store as deltas, candidates and claims are judged by deterministic
    verifiers, actions pass the effect boundary, facts are appended to a
    hash-chained ledger, and the ledger's log is bound to a protected anchor that
    survives crashes, or replicated by a consensus library over a durable Raft
    storage; every other state is a projection of the ledger.  The runtime holds the
    policy that its operators signed, the scopes in which work runs, rebuilt from the
    ledger or from a compacted snapshot of it, and the quota of bytes that workers
    share.  This library models that path, as it is written in crates/ptr-types,
    ptr-security, ptr-exec, ptr-semdb, ptr-branch, ptr-verifier, ptr-pods (the expert
    records), ptr-ledger, ptr-state and ptr-runtime (policies, scopes and the quota),
    and proves what the rest of the system relies on.

    ** The parts and their files

    - Shared: [Prelude] (this file: results with [?] as [let?], boolean and list
      automation, the rewrite database [blen], ordered maps and sets),
      [Bytes] (little-endian integers, UTF-8, readers and writers), [Text]
      (prefixes, separators, decimal and hexadecimal text with their inverses, and
      scanning a text by position, for the parsers).
    - crates/ptr-types: [Types] has the identities, validity intervals, addresses
      and mesh events with their validation; [Address] the URIs of Pods and
      revisions with their parsers, routes and frame headers; [Digests] says
      what the digests of identities and of semantic snapshots bind.
    - crates/ptr-security: [Security] has [PermissionSet::authorize].
    - crates/ptr-exec, mailbox.rs: [Mailbox] has the shared mailbox, once with
      each operation as one step under its lock, once as the single atomic
      stores that a reader of the metrics may see.
    - crates/ptr-semdb: [SemDelta] and [SemDeltaFacts] have the delta codec;
      [SemGraph] the dependency graph; [SemHost] the store ([prepare_delta],
      [apply_prepared], [export_state], [restore], snapshots); [SemHostFacts]
      what one change does, and histories of several hosts with preparations and
      snapshots that outlive the state they were made from.
    - crates/ptr-branch: [BranchOps] (ops.rs: operations, counters and sets;
      digest.rs), [Branch] (branch.rs: every method of an open
      branch, sealing), [Certify] (certify.rs).  [BranchFacts] has the search
      for changed inputs, the invariant of staging and sealing, [CertifyFacts] the steps of certification and the sealing rules,
      [BranchLaws] the merge through the semantic store, [BranchExamples] the
      digests of plans and seals and a concrete branch.
    - crates/ptr-verifier: [Verifier] (lib.rs and codes.rs: findings, reports,
      the traits as classes, the fabric, action contracts), [VerifierClaims]
      (bound.rs, revision.rs, promotion.rs, fact.rs), [VerifierFacts] (the
      verdicts).
    - crates/ptr-verifier, bigint.rs: [BigInt] (the functions on limbs, Knuth's
      division included, in machine arithmetic, and the integers made of them)
      with [LimbFacts] and [BigIntFacts] (with their decimal text).
    - crates/ptr-verifier, arithmetic.rs: [Arithmetic]; [RationalFacts] (its
      rationals against [Q], expressions, their exact value, the grammar),
      [EvaluatorFacts] (the evaluator accepts exactly the grammar) and
      [ArithmeticFacts] (candidates and verdicts).
    - crates/ptr-verifier, json_schema.rs: [Json] (numbers, documents, equality,
      the parser) and [JsonSchema] (schemas, their compiler, validation, the
      verifier); [JsonGrammar] (numbers against [Q], the grammar of
      documents as a relation), [JsonLex] and [JsonParser] (the parser accepts
      exactly that grammar; the values documents denote, and equality of them) and
      [JsonFacts] (conformance and verdicts).
    - crates/ptr-verifier, code_test.rs: [CodeLang] (lexer, syntax trees, parser),
      [CodeMachine] (the interpreter, and a big-step semantics of the language with
      costs), [CodeRun] (the interpreter computes it), [CodeParser] (accepted
      programs are well scoped) and [CodeFacts] (tasks, the verifier, verdicts).
    - crates/ptr-pods, expert.rs: [ExpertOps] (operations and their rules) with
      [ExpertFacts]; [ExpertCodec] (inputs, the record format, both
      identities, one instance of a class per field) and [ExpertRecords].
    - crates/ptr-state: [State] (what every event projects, keys and values and
      their parsers), [StateFacts] (replay).
    - crates/ptr-ledger, lib.rs: [LedgerEvents] (every event), [LedgerChecks]
      (the bounds), [LedgerCodec] with [LedgerCodecFacts] and [LedgerEventFacts]
      (the codec, one instance of a class per variant), [Ledger] (the trait as a
      class of operations and laws, and the memory ledger that satisfies them).
    - crates/ptr-ledger, integrity.rs: [Integrity] and [IntegrityLog] (records,
      chains, scanning of damaged logs).
    - The file system: [Storage] (see below).
    - crates/ptr-ledger, anchor.rs: [Anchor].
    - crates/ptr-ledger, file.rs: [FileLedger].
    - crates/ptr-ledger, compaction.rs: [Compaction].
    - crates/ptr-ledger, acknowledged.rs: [Acknowledged] (operations, the invariant
      of the disk), [AckAppend], [AckOpen], [AckCompact] (each operation under any
      failure), [AckTrace] (runs), [AckRecover] (reopening succeeds, plans),
      [AckExamples] (a concrete run, and three runs in which acknowledged history
      is lost).
    - crates/ptr-ledger, retention.rs: [Retention].
    - crates/ptr-ledger, raft_storage.rs: [RaftFormat] (the log records and the
      state file, reading a log) and [RaftStorage] ([Core] and every operation with
      its system calls: opening, the setters of the state, appending, snapshots
      received and taken, compaction, fencing, what the consensus library reads;
      with the retention floor of compaction.rs).  [RaftFormatFacts] has the
      formats; [RaftDisk] the files under failures; [RaftState], [RaftAppend] and
      [RaftSnapshot] each operation under any failure; [RaftCrash] restarts, fenced
      writers, the queries and concrete runs.
    - crates/ptr-runtime, host_quota.rs: [HostQuota] (the ledger of charged bytes,
      and its specification by the charges alone).
    - crates/ptr-runtime, scopes.rs: [Scopes] (the registry: committed records,
      replay, compacted parts, cleanup) with [ScopeFacts]; [ScopeBlock] has the scope
      block that compacted.rs writes and reads, and a concrete history.
    - crates/ptr-runtime, policy.rs: [Policy] (payloads, signed bundles, their ledger
      encoding, the trust store and the verification).

    ** How the parts correspond to the code

    Definitions keep the names of the source where they can; methods that share
    a name carry the type's name or a prefix.  [Result] is [result], early
    return is [let?] in pure code and [try*] in programs with effects.  A method
    with [&mut self] returns the value it leaves behind, on errors too.  A [u64]
    is an [N] with the checked operations of the source; the widths of fields
    and the validity of texts, which Rust's types guarantee, are the boolean
    predicates whose names end in [_ok].  A [BTreeMap] is a [gmap] that is
    iterated in key order.  Panics of the encoder are [None] and are shown not
    to happen on values that exist in Rust; so are, in [BigInt],
    [Arithmetic] and [CodeMachine], overflow of checked arithmetic, an index out of range and a
    division by zero, and they are shown not to happen at all.  The format
    [{:?}] of a string, which only occurs in messages, is a parameter.  A score of a
    report is the rational that a finite [f32] denotes.

    SHA-256 is a parameter.  All that is assumed is that a digest has 32 bytes;
    where a theorem is about substitution of data it concludes that the data are
    equal or that the function collides.  The check of an Ed25519 signature and the
    function that fetches a policy are parameters too, of which nothing is assumed.

    Disks: a file has a durable content and a list of pending changes, a name
    has the file it resolves to and those to which a crash may revert it.  Every
    system call asks an oracle whether it proceeds, fails, or is the last thing
    that happens, and how much of it took place.  The oracle is universally
    quantified.  A crash keeps an ordered prefix of the pending changes of a
    file, the last perhaps in part, or extends the file with zeros; renames and
    creations may revert until the directory is synchronized, which is what the
    code does on Unix.  The handle of a log has a position, and writes go there.
    Reordering between pending writes to one file, an extension that is partly
    data and partly zeros, bit rot, and platforms without directory
    synchronization are not modelled.  Advisory
    locks are not modelled: one process at a time holds a ledger.  The Raft storage
    runs over the same disk.  Its handle of the log is the name of the file, and
    every write of it goes to an explicit position; a rename that reports an error
    may have taken effect, so after an error that does not poison the storage the
    state file is only known to be the old one or the new one.  The records of the
    raft crate are reduced to the fields the code reads and writes, and its
    [limit_size] is a parameter.

    Loops that are not structural take fuel.  The fuel of the scan, of the
    legacy reader and of the reader of the Raft log is the length of the input, each round consuming at least one
    byte; of [affected_by] and of the two searches for a changed input the
    pushes that can still happen; of [acyclic] the number of keys; of the
    correction of a quotient digit three, since two corrections reach the base;
    of the gcd on limbs 64 rounds per limb and of the gcd on [u128] 256, since
    two rounds halve the smaller operand; of the decimal chunks two per limb,
    each chunk removing more than 16 bits; of the evaluator one more than the
    nesting bound, and the number of bytes for its loops; of the JSON parser one
    more than the depth bound, and the number of bytes for its loops; of the
    parser of programs one more than its nesting bound, and the number of tokens
    for its loops; of the interpreter one more than its bound on recursion, and
    the machine's own fuel for [while], each round taking a step; of the walk along
    the parents of a scope, and of the cleanup of a scope, one more than the number of
    scopes.  Each is shown to be enough.

    ** What the theorems show

    Semantic store: no update is lost, a preparation against another revision or
    another host being refused; every published state is well formed; a value
    derived from something that changed is evicted or replaced; preparation
    refines its specification as a function on states; snapshots are current
    exactly when they describe the published state; [restore] inverts
    [export_state]; the graph algorithms decide cycles and compute reachability;
    the delta codec is a bijection onto the byte strings it accepts.

    Branches: whatever is staged, sealing accepts it, and parts are accepted
    exactly under the documented rules; an agent reads exactly what merging onto
    the unchanged base publishes, and that merge is certified; a merge publishes
    the branch's operations over the target, counters and sets as a three-way
    merge; a certified branch depends on nothing that changed, writes no key
    reserved to ingress and overwrites nothing it did not read; an approval
    stands for one plan.

    Verifiers: a fabric is exactly as strong as its weakest member, and without
    members it gives no verdict; a bound
    fabric gives no verdict for another snapshot; promotions pass exactly under
    the documented rules, so that derived data cannot promote itself; facts pass
    exactly when the live snapshot holds them.  Big integers compute as the
    integers do, to their bound, and their decimal text round-trips; the
    evaluation of a task accepts exactly the grammar and computes exact rational
    arithmetic; the arithmetic verifier passes exactly the candidates equal to
    the value of the task, and answers on every input.  The JSON parser accepts
    exactly the documents of its grammar, numbers are exact decimals that compare
    as their values do, and the schema verifier passes exactly the candidates
    whose value conforms to the schema, with a bounded list of findings.  The
    interpreter of candidate programs never panics and is exact against the
    semantics: it returns the meaning of a call when that is within the bounds,
    and each trap says truly why not; the code verifier passes exactly the
    programs that mean what the tests expect, and its report depends on a hidden
    test only through its id, its arguments and its outcome.

    Expert operations: the rules admit exactly the operations of a specification
    by shape; admitted outcomes are unique and respect the states of their
    sources; records decode exactly, and identities bind their fields.

    Effect boundary: [authorize] allows exactly under its conditions, every
    denial names a condition that fails, and no research switch relaxes an
    effect that leaves the process.

    Mailbox: first in first out, bounded, refusals exact, and a reader of the
    metrics never sees a depth above the recorded peak.

    Ledger: events decode to exactly what was encoded; nothing that is accepted
    for writing is refused when read; the memory ledger keeps what it accepted.
    Logs round-trip, are canonical, and a log cut at any byte or extended with
    zeros yields exactly its complete records; scanning returns on every input;
    an anchor determines its log unless SHA-256 collides.

    Materialized state: a replica that is delivered commits in any order, with
    repetitions, holds the projection of a prefix of the history, each commit
    applied once; keys and values are read back by their parsers; the projection
    of semantic and expert records is exact.

    Acknowledged ledger: an anchor is accepted exactly when it was published
    under the key; appends succeed as a whole or fence the ledger; plans discard only
    what a snapshot covers; the orphans are exactly the other logs of the set; the
    erasure audit is exact.  A machine may make any call at any time ([ack_step]); for
    orderly runs, through any appends and cutovers, failures, deaths of the process and
    crashes of the machine, what a ledger in service has shown is never lost, and after
    every crash of the machine the ledger can be opened.  A run is orderly when the
    ledger is opened only on a settled disk, orphans are reclaimed only by a ledger
    that is not fenced and whose anchor is the one on the disk, and a ledger whose log
    could not be read back is given up.  Three theorems of [AckExamples] show that each
    limit is needed: reopening before the disk has settled may acknowledge a record
    that is not durable; reclaiming after a cutover that failed at its last call may
    remove the live log; and appending after an audit that failed to read the log may
    overwrite it.

    Raft storage: records and the state file are read back exactly, and a log is
    read as the entries written to it whatever a stopped append left behind them;
    every operation is crash safe: what it acknowledged is found by every restart
    after any crashes, and what it did not is found as the state before or the state
    after, for an append with a prefix of the new entries (the arguments are in the
    range of their types, the state file stays within the bound of its reader, and a
    new payload does not collide with the one in service); after a crash the
    storage can be opened; a writer below the fence changes no file; the queries
    answer from the log and the snapshot.  The limits: [RaftCrash] has runs in which
    a process, not the machine, restarts and serves a state or acknowledges an
    entry that is not durable, in which a crash during the first opening leaves a
    storage that cannot be opened, and in which a stopped append is refused because
    the payload it carries holds a record.

    Host quota: every answer and every balance is the one computed from the list of
    charges that are neither handed back nor torn down, so that a charge that outlived
    the teardown of its pair never debits a later one; no session, nor the host, ever
    holds more than the policy allows.

    Scopes: a record is applied exactly when it is admissible, and validation before
    the append answers the same as the application after it; every registry that a
    history leads to is well formed, its lifecycles, parents and counted bytes
    included, and no record changes the lease of a scope; the registry rebuilt from a
    compacted snapshot behaves like the original on all records that were not applied
    before, and refuses those that were; parts that are not well formed are refused; the scope
    block takes exactly the counted bytes and is read back exactly; the cleanup of a
    scope ends, and releases exactly what it reaches.

    Policies: a bundle verifies exactly when it is trusted; what verified is read back
    from the ledger with the same meaning, and verifies like the original; a signature
    stands for one policy unless SHA-256 collides on the two payloads at hand.

    ** What is not modelled

    The Raft node, which drives an external consensus library, the rest of the
    runtime (its orchestration, caches, workers, the other sections of a compacted
    snapshot) and everything outside the authority path (models, Pod hosts, transports, servers, statistics, the SQL
    substrate), which is input and output, external libraries or floating point.
    Of the modelled crates: the triage of branches (arbiter.rs, floating point),
    the Turso adapter of ptr-state, the mutexes around the Raft storage and the quota,
    the loader of policies over an external HTTP client, formatting for display, the zeroing of keys,
    and of ptr-verifier the verifier that runs external processes.  Of the parser
    of candidate programs it is shown what it accepts is well formed, not that it
    accepts a grammar.
    The next steps are that grammar, the lifecycle and grants that decide who
    may merge, and the other sections of a compacted snapshot. *)

From stdpp Require Export base gmap sets list strings fin_maps sorting pretty.
From Stdlib Require Export Strings.Byte NArith.
From stdpp Require Import options.

(** ** Results

    Rust's [Result<A, E>], with the early return of [?] as monadic bind. *)
Inductive result (E A : Type) : Type :=
| Ok (a : A)
| Err (e : E).
Arguments Ok {E A} a.
Arguments Err {E A} e.

Declare Scope ptr_scope.
Delimit Scope ptr_scope with ptr.
Open Scope ptr_scope.

Definition rbind {E A B} (m : result E A) (k : A → result E B) : result E B :=
  match m with
  | Ok a => k a
  | Err e => Err e
  end.

Notation "'let?' x ':=' m 'in' k" := (rbind m (λ x, k))
  (at level 10, x pattern, m at level 100, k at level 200) : ptr_scope.
Notation "m ';?' k" := (rbind m (λ _ : unit, k))
  (at level 100, k at level 200, right associativity) : ptr_scope.

(** [Option::ok_or]. *)
Definition ok_or {E A} (o : option A) (e : E) : result E A :=
  match o with
  | Some a => Ok a
  | None => Err e
  end.

Definition is_ok {E A} (r : result E A) : bool :=
  match r with
  | Ok _ => true
  | Err _ => false
  end.

#[export] Instance result_eq_dec {E A} `{EqDecision E, EqDecision A} :
  EqDecision (result E A).
Proof. solve_decision. Defined.

Lemma rbind_ok_inv {E A B} (m : result E A) (k : A → result E B) b :
  rbind m k = Ok b → ∃ a, m = Ok a ∧ k a = Ok b.
Proof. destruct m; naive_solver. Qed.

Lemma ok_or_ok_inv {E A} (o : option A) (e : E) a :
  ok_or o e = Ok a ↔ o = Some a.
Proof. destruct o; naive_solver. Qed.

(** ** Tactics

    [result_inv] takes apart every hypothesis that says a computation built
    from [let?], guards and [ok_or] succeeded. *)
Ltac result_inv_step :=
  match goal with
  | H : rbind _ _ = Ok _ |- _ => apply rbind_ok_inv in H as (?&?&H)
  | H : ok_or _ _ = Ok _ |- _ => apply ok_or_ok_inv in H
  | H : (if ?b then Err _ else _) = Ok _ |- _ => destruct b eqn:?; [discriminate H|]
  | H : (if ?b then _ else Err _) = Ok _ |- _ => destruct b eqn:?; [|discriminate H]
  | H : Ok _ = Ok _ |- _ => injection H as H; subst
  | H : Err _ = Ok _ |- _ => discriminate H
  | H : Some _ = Some _ |- _ => injection H as H; subst
  | H : (_, _) = (_, _) |- _ => injection H; clear H; intros; subst
  | p : (_ * _)%type |- _ => destruct p
  | u : unit |- _ => destruct u
  end.
Ltac result_inv := repeat result_inv_step; cbn [fst snd] in *.

(** Boolean conjunctions and comparisons to propositions. *)
Ltac bool_prop :=
  repeat match goal with
  | H : (_ && _) = true |- _ => apply andb_true_iff in H as [? ?]
  | H : (_ || _) = false |- _ => apply orb_false_iff in H as [? ?]
  | H : negb _ = true |- _ => apply negb_true_iff in H
  | H : negb _ = false |- _ => apply negb_false_iff in H
  | H : (_ <? _)%N = true |- _ => apply N.ltb_lt in H
  | H : (_ <? _)%N = false |- _ => apply N.ltb_ge in H
  | H : (_ <=? _)%N = true |- _ => apply N.leb_le in H
  | H : (_ <=? _)%N = false |- _ => apply N.leb_gt in H
  | H : (_ =? _)%N = true |- _ => apply N.eqb_eq in H
  | H : (_ =? _)%N = false |- _ => apply N.eqb_neq in H
  | H : bool_decide _ = true |- _ => apply bool_decide_eq_true in H
  | H : bool_decide _ = false |- _ => apply bool_decide_eq_false in H
  end.

(** ** Machine integers

    Unsigned integers are [N]; a width is a bound, and the operations that the
    code checks are checked here. *)
Definition u8_ok (n : N) : bool := (n <? 2 ^ 8)%N.
Definition u16_ok (n : N) : bool := (n <? 2 ^ 16)%N.
Definition u32_ok (n : N) : bool := (n <? 2 ^ 32)%N.
Definition u64_ok (n : N) : bool := (n <? 2 ^ 64)%N.
Definition u128_ok (n : N) : bool := (n <? 2 ^ 128)%N.

(** [u64::checked_add] and [u64::saturating_add]. *)
Definition checked_add_u64 (a b : N) : option N :=
  if (a + b <? 2 ^ 64)%N then Some (a + b)%N else None.
Definition saturating_add_u64 (a b : N) : N := N.min (a + b) (2 ^ 64 - 1).

(** The length of a slice or a string as a [usize]. *)
Definition blen {A} (l : list A) : N := N.of_nat (length l).

Lemma blen_app {A} (l k : list A) : blen (l ++ k) = (blen l + blen k)%N.
Proof. unfold blen. rewrite length_app. lia. Qed.
Lemma blen_nil {A} : blen (@nil A) = 0%N.
Proof. done. Qed.
Lemma blen_cons {A} (x : A) l : blen (x :: l) = (1 + blen l)%N.
Proof. unfold blen. simpl length. lia. Qed.

Create Rewrite HintDb blen.
#[export] Hint Rewrite @blen_app @blen_nil @blen_cons : blen.

(** ** Ordered maps and sets

    A [BTreeMap<String, _>] is a [gmap string _] and a [BTreeSet<String>] a
    [gset string]; iteration, which Rust does in ascending byte order of the
    keys, goes through [btree_list] and [bset_list]. *)
Definition key_le {A} (p q : string * A) : Prop := String.le p.1 q.1.

#[export] Instance key_le_dec {A} : RelDecision (@key_le A).
Proof. intros p q. unfold key_le. apply _. Defined.
#[export] Instance key_le_trans {A} : Transitive (@key_le A).
Proof. intros p q r. unfold key_le. apply transitivity. Qed.
#[export] Instance key_le_total {A} : Total (@key_le A).
Proof. intros p q. unfold key_le. apply (total String.le). Qed.

Definition btree_list {A} (m : gmap string A) : list (string * A) :=
  merge_sort key_le (map_to_list m).

Definition bset_list (s : gset string) : list string :=
  merge_sort String.le (elements s).

Lemma btree_list_perm {A} (m : gmap string A) : btree_list m ≡ₚ map_to_list m.
Proof. apply merge_sort_Permutation. Qed.

Lemma elem_of_btree_list {A} (m : gmap string A) k x :
  (k, x) ∈ btree_list m ↔ m !! k = Some x.
Proof. rewrite btree_list_perm. apply elem_of_map_to_list. Qed.

Lemma btree_list_nodup {A} (m : gmap string A) : NoDup (btree_list m).*1.
Proof. rewrite btree_list_perm. apply NoDup_fst_map_to_list. Qed.

Lemma btree_list_to_map {A} (m : gmap string A) : list_to_map (btree_list m) = m.
Proof.
  rewrite <-(list_to_map_to_list m) at 2. apply list_to_map_proper.
  - apply btree_list_nodup.
  - apply btree_list_perm.
Qed.

Lemma btree_list_sorted {A} (m : gmap string A) :
  StronglySorted key_le (btree_list m).
Proof. apply StronglySorted_merge_sort; apply _. Qed.

Lemma btree_list_length {A} (m : gmap string A) : length (btree_list m) = size m.
Proof. rewrite btree_list_perm. by rewrite length_map_to_list. Qed.

Lemma bset_list_perm (s : gset string) : bset_list s ≡ₚ elements s.
Proof. apply merge_sort_Permutation. Qed.

Lemma elem_of_bset_list (s : gset string) k : k ∈ bset_list s ↔ k ∈ s.
Proof. rewrite bset_list_perm. apply elem_of_elements. Qed.

Lemma bset_list_nodup (s : gset string) : NoDup (bset_list s).
Proof. rewrite bset_list_perm. apply NoDup_elements. Qed.

Lemma bset_list_to_set (s : gset string) : list_to_set (bset_list s) = s.
Proof. apply set_eq. intros x. rewrite elem_of_list_to_set. apply elem_of_bset_list. Qed.

Lemma bset_list_sorted (s : gset string) : StronglySorted String.le (bset_list s).
Proof. apply StronglySorted_merge_sort; apply _. Qed.

Lemma bset_list_length (s : gset string) : length (bset_list s) = size s.
Proof. by rewrite bset_list_perm. Qed.

(** A list that is already strictly sorted is the iteration order of the
    collection it builds: the canonical representation is unique. *)
Lemma btree_list_unique {A} (l : list (string * A)) :
  NoDup l.*1 → StronglySorted key_le l → btree_list (list_to_map l) = l.
Proof.
  intros Hnd Hs. eapply StronglySorted_unique_strong;
    [|apply btree_list_sorted|done|].
  - intros [k x] [k' x'] Hx Hx' Hle Hge. unfold key_le in *; simpl in *.
    assert (k = k') as <- by (by apply (anti_symm String.le)).
    apply elem_of_btree_list in Hx.
    apply (elem_of_list_to_map_1 (M := gmap string)) in Hx'; [|done].
    congruence.
  - rewrite btree_list_perm. by apply map_to_list_to_map.
Qed.

Lemma bset_list_unique (l : list string) :
  NoDup l → StronglySorted String.le l → bset_list (list_to_set l) = l.
Proof.
  intros Hnd Hs. eapply (StronglySorted_unique String.le);
    [apply bset_list_sorted|done|].
  rewrite bset_list_perm. by apply elements_list_to_set.
Qed.

(** ** Strings *)
Lemma string_length_app s t : String.length (s +:+ t) = String.length s + String.length t.
Proof. induction s as [|a s IH]; [done|]. simpl. f_equal. exact IH. Qed.
