(* ===== verification/Bytes.v ===== *)
(** * Bytes, text and wire primitives

    What the Rust standard library gives the codecs: bytes as [Byte.byte],
    little-endian integers ([to_le_bytes], [from_le_bytes]), UTF-8 validation
    ([String::from_utf8], [str::chars]) and the two halves of a hand-written
    binary codec.  A reader consumes a prefix of its input, a writer may panic
    ([expect] on a length that does not fit its field).  The class [Codec] is
    the promise one codec makes to another: what the writer writes the reader
    reads back, and what the reader accepts is exactly what the writer writes. *)

From S2P Require Import Prelude.
From stdpp Require Import options.

(** ** Bytes *)
#[export] Instance byte_eq_dec : EqDecision byte := Byte.byte_eq_dec.

Definition byte_of_N (n : N) : byte :=
  match Byte.of_N (n mod 256) with
  | Some b => b
  | None => x00
  end.

Lemma to_N_lt b : (Byte.to_N b < 256)%N.
Proof. pose proof (Byte.to_N_bounded b). lia. Qed.

Lemma to_N_byte_of_N n : Byte.to_N (byte_of_N n) = (n mod 256)%N.
Proof.
  unfold byte_of_N. destruct (Byte.of_N (n mod 256)) eqn:E.
  - by apply Byte.to_of_N.
  - apply Byte.of_N_None_iff in E.
    pose proof (N.mod_upper_bound n 256). lia.
Qed.

Lemma byte_of_to_N b : byte_of_N (Byte.to_N b) = b.
Proof.
  unfold byte_of_N. rewrite N.mod_small by apply to_N_lt. by rewrite Byte.of_to_N.
Qed.

(** ** Little-endian integers of [n] bytes *)
Fixpoint le_bytes (n : nat) (v : N) : list byte :=
  match n with
  | O => []
  | S n => byte_of_N v :: le_bytes n (v / 256)
  end.

Fixpoint le_value (bs : list byte) : N :=
  match bs with
  | [] => 0
  | b :: bs => (Byte.to_N b + 256 * le_value bs)%N
  end.

Lemma length_le_bytes n v : length (le_bytes n v) = n.
Proof. revert v; induction n; intros; simpl; auto. Qed.

Lemma le_value_bytes n v :
  (v < 256 ^ N.of_nat n)%N → le_value (le_bytes n v) = v.
Proof.
  revert v. induction n as [|n IH]; intros v Hv.
  - simpl in *. lia.
  - rewrite Nat2N.inj_succ, N.pow_succ_r' in Hv. cbn [le_bytes le_value].
    rewrite to_N_byte_of_N, IH by (apply N.Div0.div_lt_upper_bound; lia).
    pose proof (N.div_mod' v 256). lia.
Qed.

Lemma le_bytes_value bs : le_bytes (length bs) (le_value bs) = bs.
Proof.
  induction bs as [|b bs IH]; [done|]. cbn [length le_value le_bytes].
  pose proof (to_N_lt b). f_equal.
  - rewrite <-(byte_of_to_N b) at 2. unfold byte_of_N. do 2 f_equal.
    rewrite N.mul_comm, N.Div0.mod_add. done.
  - etrans; [|exact IH]. f_equal.
    rewrite N.mul_comm, N.div_add, N.div_small by lia. done.
Qed.

Lemma le_value_lt bs : (le_value bs < 256 ^ N.of_nat (length bs))%N.
Proof.
  induction bs as [|b bs IH]; [done|].
  cbn [length le_value]. rewrite Nat2N.inj_succ, N.pow_succ_r'.
  pose proof (to_N_lt b). lia.
Qed.

(** ** Text

    A Rust [String] is a [string] of bytes that is valid UTF-8. *)
Abbreviation str_bytes := String.list_byte_of_string.
Abbreviation bytes_str := String.string_of_list_byte.

Definition slen (s : string) : N := blen (str_bytes s).

Definition in_range (lo hi n : N) : bool := (lo <=? n)%N && (n <=? hi)%N.
Definition cont (n : N) : bool := in_range 0x80 0xBF n.

(** The second byte of a three or four byte sequence: surrogates, overlong
    forms and values above U+10FFFF are refused. *)
Definition second3 (b0 b1 : N) : bool :=
  in_range (if (b0 =? 0xE0)%N then 0xA0 else 0x80) (if (b0 =? 0xED)%N then 0x9F else 0xBF) b1.
Definition second4 (b0 b1 : N) : bool :=
  in_range (if (b0 =? 0xF0)%N then 0x90 else 0x80) (if (b0 =? 0xF4)%N then 0x8F else 0xBF) b1.

(** [str::from_utf8] and [str::chars]: the code points, [None] for invalid
    UTF-8. *)
Fixpoint utf8_chars (bs : list N) : option (list N) :=
  match bs with
  | [] => Some []
  | b0 :: r0 =>
      if (b0 <? 0x80)%N then cons b0 <$> utf8_chars r0 else
      match r0 with
      | [] => None
      | b1 :: r1 =>
          if in_range 0xC2 0xDF b0
          then if cont b1
               then cons (N.lor (N.shiftl (N.land b0 0x1F) 6) (N.land b1 0x3F)) <$> utf8_chars r1
               else None
          else match r1 with
          | [] => None
          | b2 :: r2 =>
              if in_range 0xE0 0xEF b0
              then if second3 b0 b1 && cont b2
                   then cons (N.lor (N.shiftl (N.land b0 0x0F) 12)
                               (N.lor (N.shiftl (N.land b1 0x3F) 6) (N.land b2 0x3F)))
                          <$> utf8_chars r2
                   else None
              else match r2 with
              | [] => None
              | b3 :: r3 =>
                  if in_range 0xF0 0xF4 b0 && second4 b0 b1 && cont b2 && cont b3
                  then cons (N.lor (N.shiftl (N.land b0 0x07) 18)
                              (N.lor (N.shiftl (N.land b1 0x3F) 12)
                                (N.lor (N.shiftl (N.land b2 0x3F) 6) (N.land b3 0x3F))))
                         <$> utf8_chars r3
                  else None
              end
          end
      end
  end.

Definition chars (s : string) : option (list N) := utf8_chars (Byte.to_N <$> str_bytes s).

(** [s] inhabits Rust's [String]. *)
Definition str_ok (s : string) : bool := bool_decide (is_Some (chars s)).

(** [char::is_control]: the general category Cc. *)
Definition is_control (c : N) : bool := (c <=? 0x1F)%N || in_range 0x7F 0x9F c.

(** [s.chars().any(char::is_control)]. *)
Definition has_control (s : string) : bool :=
  match chars s with
  | Some cs => existsb is_control cs
  | None => false
  end.

(** [str::starts_with] on a string pattern. *)
Definition starts_with (s p : string) : bool := String.prefix p s.

(** A [[u8; 32]]. *)
Definition digest_ok (d : list byte) : bool := (length d =? 32)%nat.
Definition zero_digest : list byte := replicate 32 x00.

(** ** Readers and writers *)
Definition reader (E A : Type) : Type := list byte → result E (A * list byte).

Definition rret {E A} (a : A) : reader E A := λ bs, Ok (a, bs).
Definition rfail {E A} (e : E) : reader E A := λ _, Err e.
Definition rseq {E A B} (r : reader E A) (k : A → reader E B) : reader E B :=
  λ bs, match r bs with
        | Ok (a, rest) => k a rest
        | Err e => Err e
        end.
(** A check between two reads: nothing is consumed. *)
Definition rlift {E A} (m : result E A) : reader E A :=
  λ bs, match m with
        | Ok a => Ok (a, bs)
        | Err e => Err e
        end.

Notation "x '<-' r ';;' k" := (rseq r (λ x, k))
  (at level 100, r at next level, right associativity) : ptr_scope.

(** [n] repetitions of a reader, in order: [for _ in 0..n]. *)
Fixpoint rrepeat {E A} (n : nat) (r : reader E A) : reader E (list A) :=
  match n with
  | O => rret []
  | S n => a <- r ;; l <- rrepeat n r ;; rret (a :: l)
  end.

(** The bytes a writer appends; [None] is a panic. *)
Definition writer : Type := option (list byte).

Definition wapp (w1 w2 : writer) : writer :=
  match w1, w2 with
  | Some p, Some q => Some (p ++ q)
  | _, _ => None
  end.
Definition wseq (ws : list writer) : writer := foldr wapp (Some []) ws.

(** ** What a codec promises *)
Definition Reads {E A} (r : reader E A) (w : writer) (a : A) : Prop :=
  ∀ p rest, w = Some p → r (p ++ rest) = Ok (a, rest).

Definition Exact {E A} (r : reader E A) (w : A → writer) (wf : A → Prop) : Prop :=
  ∀ bs a rest, r bs = Ok (a, rest) → wf a ∧ ∃ p, w a = Some p ∧ bs = p ++ rest.

Class Codec {E A} (r : reader E A) (w : A → writer) (wf : A → Prop) : Prop := {
  codec_reads : ∀ a, wf a → Reads r (w a) a;
  codec_exact : Exact r w wf
}.

Create HintDb wire.

Lemma reads_ret {E A} (a : A) : Reads (E := E) (rret a) (Some []) a.
Proof. intros p rest [= <-]. done. Qed.

Lemma reads_seq {E A B} (r : reader E A) (k : A → reader E B) w1 w2 a b :
  Reads r w1 a → Reads (k a) w2 b → Reads (rseq r k) (wapp w1 w2) b.
Proof.
  intros H1 H2 p rest Hp. destruct w1 as [p1|], w2 as [p2|]; simplify_eq/=.
  unfold rseq. rewrite <-app_assoc, (H1 p1) by done. by apply H2.
Qed.

Lemma reads_check {E A B} (m : result E A) (k : A → reader E B) w a b :
  m = Ok a → Reads (k a) w b → Reads (rseq (rlift m) k) w b.
Proof. intros -> H p rest Hp. by apply H. Qed.

Lemma reads_last {E A} (r : reader E A) w a : Reads r w a → Reads r (wapp w (Some [])) a.
Proof.
  intros H p rest Hp. destruct w; simplify_eq/=. rewrite app_nil_r. by apply H.
Qed.

Lemma reads_wseq_nil {E A} (r : reader E A) a :
  Reads r (Some []) a → Reads r (wseq []) a.
Proof. done. Qed.

Lemma rseq_ok_inv {E A B} (r : reader E A) (k : A → reader E B) bs b rest :
  rseq r k bs = Ok (b, rest) → ∃ a mid, r bs = Ok (a, mid) ∧ k a mid = Ok (b, rest).
Proof. unfold rseq. destruct (r bs) as [[a mid]|]; naive_solver. Qed.

Lemma rlift_ok_inv {E A} (m : result E A) bs a rest :
  rlift m bs = Ok (a, rest) → m = Ok a ∧ bs = rest.
Proof. unfold rlift. destruct m; naive_solver. Qed.

Lemma rret_ok_inv {E A} (a b : A) bs rest :
  rret (E := E) a bs = Ok (b, rest) → a = b ∧ bs = rest.
Proof. unfold rret. naive_solver. Qed.

(** Writing a list of items, reading it back item by item. *)
Lemma reads_repeat {E A} (r : reader E A) (w : A → writer) (l : list A) :
  Forall (λ a, Reads r (w a) a) l → Reads (rrepeat (length l) r) (wseq (w <$> l)) l.
Proof.
  induction 1 as [|a l Ha _ IH]; cbn [length rrepeat fmap list_fmap wseq foldr].
  - apply reads_ret.
  - eapply reads_seq; [exact Ha|].
    intros p rest Hp. unfold rseq. by rewrite (IH p rest Hp).
Qed.

Lemma exact_repeat {E A} (r : reader E A) (w : A → writer) (wf : A → Prop) n :
  Exact r w wf →
  Exact (rrepeat n r) (λ l, wseq (w <$> l)) (λ l, length l = n ∧ Forall wf l).
Proof.
  intros Hr. induction n as [|n IH]; intros bs l rest H; cbn [rrepeat] in H.
  - apply rret_ok_inv in H as [<- <-]. split; [done|]. by exists [].
  - apply rseq_ok_inv in H as (a & mid & Ha & H).
    apply rseq_ok_inv in H as (l' & mid' & Hl & H).
    apply rret_ok_inv in H as [<- <-].
    apply Hr in Ha as (Hwf & p & Hp & ->).
    apply IH in Hl as ([Hlen Hall] & q & Hq & ->).
    split; [split; [simpl; lia|by constructor]|].
    exists (p ++ q). split; [|by rewrite app_assoc].
    change (wapp (w a) (wseq (w <$> l')) = Some (p ++ q)). by rewrite Hp, Hq.
Qed.
