(* ===== verification/Text.v ===== *)
(** * Text: the string operations the code uses

    [strip_prefix], [strip_suffix], [split_once], [split], decimal and
    hexadecimal printing, and [parse::<u64>], as Rust's standard library has
    them, with the lemmas that invert one by another. *)

From S2P Require Import Prelude Bytes.
From Stdlib Require Import Lia Strings.Ascii.
From stdpp Require Import options.

(** ** Taking text apart *)
Fixpoint strip_prefix (prefix s : string) : option string :=
  match prefix, s with
  | "", s => Some s
  | String a prefix, String b s => if bool_decide (a = b) then strip_prefix prefix s else None
  | String _ _, "" => None
  end.
Definition strip_suffix (suffix s : string) : option string :=
  String.rev <$> strip_prefix (String.rev suffix) (String.rev s).

(** [str::split_once] with a string pattern: the first occurrence. *)
Fixpoint split_once (sep s : string) : option (string * string) :=
  match strip_prefix sep s with
  | Some rest => Some ("", rest)
  | None =>
      match s with
      | "" => None
      | String a s => prod_map (String a) id <$> split_once sep s
      end
  end.

(** [str::split] with an ASCII character: never empty. *)
Fixpoint split_char (c : ascii) (s : string) : list string :=
  match s with
  | "" => [""]
  | String a s =>
      if bool_decide (a = c) then "" :: split_char c s else
      match split_char c s with
      | part :: parts => String a part :: parts
      | [] => [String a ""]
      end
  end.

Fixpoint has_char (c : ascii) (s : string) : bool :=
  match s with
  | "" => false
  | String a s => bool_decide (a = c) || has_char c s
  end.

(** ** Decimal numbers *)
Definition digit (n : N) : ascii := ascii_of_N (48 + n).
(** [format!("{:0k}")] of a number with at most [k] digits. *)
Fixpoint padded (k : nat) (n : N) : string :=
  match k with
  | O => ""
  | S k => padded k (n / 10) +:+ String (digit (n mod 10)) ""
  end.

(** [str::parse::<u64>]: an optional sign, at least one digit, no overflow. *)
Definition digit_value (a : ascii) : option N :=
  let n := N_of_ascii a in
  if (48 <=? n)%N && (n <=? 57)%N then Some (n - 48)%N else None.
Fixpoint parse_digits (acc : N) (s : string) : option N :=
  match s with
  | "" => Some acc
  | String a s =>
      v ← digit_value a;
      let acc := (10 * acc + v)%N in
      if u64_ok acc then parse_digits acc s else None
  end.
Definition parse_u64 (s : string) : option N :=
  match s with
  | "" => None
  | String a rest =>
      if bool_decide (a = "+"%char)
      then match rest with "" => None | _ => parse_digits 0 rest end
      else parse_digits 0 s
  end.

(** [u64::to_string]. *)
Definition to_string (n : N) : string := pretty n.

(** ** Hexadecimal: [format!("{byte:02x}")] of every byte *)
Definition hex_digit (n : N) : byte :=
  byte_of_N (if (n <? 10)%N then 48 + n else 87 + n).
Definition hex_byte (b : byte) : list byte :=
  [hex_digit (N.shiftr (Byte.to_N b) 4); hex_digit (N.land (Byte.to_N b) 15)].
Definition hex_bytes (bs : list byte) : list byte := mjoin (hex_byte <$> bs).
Definition hex (bs : list byte) : string := bytes_str (hex_bytes bs).

Definition is_hex (b : byte) : bool :=
  in_range 48 57 (Byte.to_N b) || in_range 97 102 (Byte.to_N b).
Definition nibble (b : byte) : N :=
  if in_range 48 57 (Byte.to_N b) then (Byte.to_N b - 48)%N else (Byte.to_N b - 97 + 10)%N.
(** The bytes that pairs of digits spell. *)
Fixpoint unhex_pairs (bs : list byte) : list byte :=
  match bs with
  | hi :: lo :: rest =>
      byte_of_N (N.lor (N.shiftl (nibble hi) 4) (nibble lo)) :: unhex_pairs rest
  | _ => []
  end.

(** ** Concatenation *)
Lemma string_app_assoc s t u : (s +:+ t) +:+ u = s +:+ (t +:+ u).
Proof. induction s as [|a s IH]; [done|]. exact (f_equal (String a) IH). Qed.
Lemma string_app_nil s : s +:+ "" = s.
Proof. induction s as [|a s IH]; [done|]. exact (f_equal (String a) IH). Qed.

Lemma string_app_inj s1 s2 t1 t2 :
  String.length s1 = String.length s2 → s1 +:+ t1 = s2 +:+ t2 → s1 = s2 ∧ t1 = t2.
Proof.
  revert s2. induction s1 as [|a s1 IH]; intros [|b s2] Hl H; try done.
  simpl in H. injection H as -> H. injection Hl as Hl. by destruct (IH s2 Hl H) as [-> ->].
Qed.
Lemma string_app_inj_l s t1 t2 : s +:+ t1 = s +:+ t2 → t1 = t2.
Proof. intros H. by apply string_app_inj in H as [_ ?]. Qed.

Lemma has_char_app c s t : has_char c (s +:+ t) = has_char c s || has_char c t.
Proof. induction s as [|a s IH]; [done|]. simpl. rewrite <-orb_assoc. f_equal. exact IH. Qed.

(** Two spellings that end their first part at the same separator. *)
Lemma has_char_split c s1 s2 t1 t2 :
  has_char c s1 = false → has_char c s2 = false →
  s1 +:+ String c t1 = s2 +:+ String c t2 → s1 = s2 ∧ t1 = t2.
Proof.
  revert s2. induction s1 as [|a s1 IH]; intros [|b s2] H1 H2 H; simpl in *.
  - by injection H as ->.
  - injection H as -> _. by rewrite bool_decide_eq_true_2 in H2.
  - injection H as -> _. by rewrite bool_decide_eq_true_2 in H1.
  - injection H as -> H. apply orb_false_iff in H1 as [_ H1], H2 as [_ H2].
    by destruct (IH s2 H1 H2 H) as [-> ->].
Qed.

Lemma str_bytes_app s t : str_bytes (s +:+ t) = str_bytes s ++ str_bytes t.
Proof. induction s as [|a s IH]; [done|]. exact (f_equal (cons (byte_of_ascii a)) IH). Qed.
Lemma bytes_str_app s t : bytes_str (s ++ t) = bytes_str s +:+ bytes_str t.
Proof. induction s as [|a s IH]; [done|]. exact (f_equal (String (ascii_of_byte a)) IH). Qed.
Lemma str_bytes_str l : str_bytes (bytes_str l) = l.
Proof. apply String.list_byte_of_string_of_list_byte. Qed.
Lemma bytes_str_bytes s : bytes_str (str_bytes s) = s.
Proof. apply String.string_of_list_byte_of_string. Qed.
Lemma str_bytes_inj s t : str_bytes s = str_bytes t → s = t.
Proof. intros H. by rewrite <-(bytes_str_bytes s), H, bytes_str_bytes. Qed.

(** ** Prefixes, suffixes and separators *)
Lemma strip_prefix_app s t : strip_prefix s (s +:+ t) = Some t.
Proof. induction s as [|a s IH]; [done|]. simpl. by rewrite bool_decide_eq_true_2. Qed.
Lemma strip_prefix_some p s t : strip_prefix p s = Some t → s = p +:+ t.
Proof.
  revert s. induction p as [|a p IH]; intros [|b s] H; simpl in H; try done; try (by injection H as <-).
  case_bool_decide; [subst|done]. exact (f_equal (String b) (IH s H)).
Qed.

Lemma rev_app_app s t acc : String.rev_app (s +:+ t) acc = String.rev_app t (String.rev_app s acc).
Proof. revert acc. induction s as [|a s IH]; intros acc; [done|]. apply IH. Qed.
Lemma rev_app_rev s acc : String.rev_app s acc = String.rev s +:+ acc.
Proof.
  unfold String.rev. change acc with ("" +:+ acc) at 1. generalize ("" : string) as base.
  induction s as [|a s IH]; intros base; [done|]. simpl. by rewrite <-IH.
Qed.
Lemma rev_rev s : String.rev (String.rev s) = s.
Proof.
  unfold String.rev at 2. induction s as [|a s IH]; [done|]. simpl. rewrite rev_app_rev.
  unfold String.rev at 1. rewrite rev_app_app. simpl. f_equal. exact IH.
Qed.
Lemma rev_app s t : String.rev (s +:+ t) = String.rev t +:+ String.rev s.
Proof. unfold String.rev at 1. rewrite rev_app_app. apply rev_app_rev. Qed.

Lemma strip_suffix_app s t : strip_suffix t (s +:+ t) = Some s.
Proof. unfold strip_suffix. rewrite rev_app, strip_prefix_app. cbn. f_equal. apply rev_rev. Qed.
Lemma strip_suffix_some p s t : strip_suffix p s = Some t → s = t +:+ p.
Proof.
  unfold strip_suffix. destruct (strip_prefix _ _) as [u|] eqn:H; [|done].
  intros [= <-]. apply strip_prefix_some in H. by rewrite <-(rev_rev s), H, rev_app, rev_rev.
Qed.

Lemma split_once_some sep s l r : split_once sep s = Some (l, r) → s = l +:+ sep +:+ r.
Proof.
  revert l. induction s as [|a s IH]; intros l H; simpl in H.
  - destruct (strip_prefix sep "") eqn:E; [|done]. injection H as <- <-. exact (strip_prefix_some _ _ _ E).
  - destruct (strip_prefix sep (String a s)) eqn:E.
    + injection H as <- <-. exact (strip_prefix_some _ _ _ E).
    + destruct (split_once sep s) as [[l' r']|]; [|done]. injection H as <- <-.
      exact (f_equal (String a) (IH l' eq_refl)).
Qed.
Lemma split_once_here sep s r : strip_prefix sep s = Some r → split_once sep s = Some ("", r).
Proof. intros H. destruct s; cbn [split_once]; by rewrite H. Qed.
Lemma split_once_app c sep l r :
  has_char c l = false → split_once (String c sep) (l +:+ String c sep +:+ r) = Some (l, r).
Proof.
  induction l as [|a l IH]; intros H.
  - by apply split_once_here, (strip_prefix_app (String c sep)).
  - apply orb_false_iff in H as [Ha Hl]. change (String a l +:+ String c sep +:+ r)
      with (String a (l +:+ String c sep +:+ r)).
    cbn [split_once strip_prefix]. rewrite bool_decide_eq_false_2.
    + by rewrite (IH Hl).
    + intros ->. by rewrite bool_decide_eq_true_2 in Ha.
Qed.

Lemma split_char_nonempty c s : split_char c s ≠ [].
Proof. destruct s; simpl; [done|]. case_bool_decide; [done|]. by case_match. Qed.
Lemma split_char_part c s : Forall (λ part, has_char c part = false) (split_char c s).
Proof.
  induction s as [|a s IH]; [by repeat constructor|]. simpl. case_bool_decide; [by constructor|].
  destruct (split_char c s); inversion IH; constructor; simpl; rewrite ?bool_decide_eq_false_2 by done; done.
Qed.
Lemma split_char_one c s : has_char c s = false → split_char c s = [s].
Proof.
  induction s as [|a s IH]; intros H; [done|]. simpl in *.
  apply orb_false_iff in H as [-> H]. by rewrite IH.
Qed.
Lemma split_char_app c s t : has_char c s = false → split_char c (s +:+ String c t) = s :: split_char c t.
Proof.
  induction s as [|a s IH]; intros H; [simpl; by rewrite bool_decide_eq_true_2|].
  simpl in *. apply orb_false_iff in H as [-> H]. by rewrite (IH H).
Qed.
(** The text that the parts came from. *)
Lemma split_char_join c s p ps :
  split_char c s = p :: ps → s = foldl (λ acc q, acc +:+ String c q) p ps.
Proof.
  assert (∀ ps x y, foldl (λ acc q, acc +:+ String c q) (x +:+ y) ps
                    = x +:+ foldl (λ acc q, acc +:+ String c q) y ps) as Hf.
  { intros qs. induction qs as [|q qs IH]; intros x y; [done|]. simpl. by rewrite string_app_assoc, IH. }
  revert p ps. induction s as [|a s IH]; intros p ps H; simpl in H; [by injection H as <- <-|].
  destruct (split_char c s) as [|q qs] eqn:E; [by apply split_char_nonempty in E|].
  case_bool_decide; injection H as <- <-.
  - subst a. etrans; [exact (f_equal (String c) (IH _ _ eq_refl))|].
    symmetry. exact (Hf qs (String c "") q).
  - etrans; [exact (f_equal (String a) (IH _ _ eq_refl))|]. symmetry. exact (Hf qs (String a "") q).
Qed.

(** ** Decimal numbers *)
Lemma padded_length k n : String.length (padded k n) = k.
Proof.
  revert n. induction k as [|k IH]; intros n; [done|].
  cbn [padded]. rewrite string_length_app, IH. cbn. lia.
Qed.

Lemma digit_N n : (n < 10)%N → N_of_ascii (digit n) = (48 + n)%N.
Proof. intros Hn. unfold digit. apply N_ascii_embedding. lia. Qed.

Lemma padded_inj k : ∀ n m, (n < 10 ^ N.of_nat k)%N → (m < 10 ^ N.of_nat k)%N →
  padded k n = padded k m → n = m.
Proof.
  induction k as [|k IH]; intros n m Hn Hm H; [simpl in *; lia|].
  cbn [padded] in H. apply string_app_inj in H as [Hp Hd]; [|by rewrite !padded_length].
  rewrite Nat2N.inj_succ, N.pow_succ_r' in Hn, Hm.
  assert (n / 10 = m / 10)%N as Hq.
  { apply IH; [| |done]; apply N.Div0.div_lt_upper_bound; lia. }
  injection Hd as Hd. apply (f_equal N_of_ascii) in Hd.
  rewrite !digit_N in Hd by (apply N.mod_lt; lia).
  rewrite (N.div_mod n 10), (N.div_mod m 10) by lia. lia.
Qed.

Lemma parse_digits_app acc s t :
  parse_digits acc (s +:+ t) = a ← parse_digits acc s; parse_digits a t.
Proof.
  revert acc. induction s as [|a s IH]; intros acc; [done|]. simpl.
  destruct (digit_value a); [|done]. simpl. destruct (u64_ok _); [apply IH|done].
Qed.

Lemma parse_padded k : ∀ acc n,
  (n < 10 ^ N.of_nat k)%N → (acc * 10 ^ N.of_nat k + n < 2 ^ 64)%N →
  parse_digits acc (padded k n) = Some (acc * 10 ^ N.of_nat k + n)%N.
Proof.
  induction k as [|k IH]; intros acc n Hn Hb; [cbn in *; f_equal; lia|].
  cbn [padded]. rewrite Nat2N.inj_succ, N.pow_succ_r' in *.
  assert (n mod 10 < 10)%N as Hm by (apply N.mod_lt; lia).
  assert (n = 10 * (n / 10) + n mod 10)%N as Hd by (apply N.div_mod; lia).
  generalize dependent (n mod 10)%N. generalize dependent (n / 10)%N. intros q m Hm ->.
  replace (acc * (10 * 10 ^ N.of_nat k))%N with (10 * (acc * 10 ^ N.of_nat k))%N in * by lia.
  rewrite parse_digits_app, IH by lia. cbn [mbind option_bind parse_digits].
  unfold digit_value. rewrite digit_N by done.
  rewrite (proj2 (N.leb_le _ _)), (proj2 (N.leb_le _ _)) by lia. cbn [andb mbind option_bind].
  replace (10 * (acc * 10 ^ N.of_nat k + q) + (48 + m - 48))%N
    with (10 * (acc * 10 ^ N.of_nat k) + (10 * q + m))%N by lia.
  unfold u64_ok. by rewrite (proj2 (N.ltb_lt _ _)).
Qed.

(** Only digits are read. *)
Lemma parse_digits_char c s : ∀ acc n,
  parse_digits acc s = Some n → digit_value c = None → has_char c s = false.
Proof.
  induction s as [|a s IH]; intros acc n H Hc; [done|]. simpl in *.
  destruct (digit_value a) eqn:Ha; [|done]. cbn in H. destruct (u64_ok _); [|done].
  rewrite bool_decide_eq_false_2 by (intros ->; congruence). simpl. by eapply IH.
Qed.
Lemma parse_digits_parse s n : s ≠ "" → parse_digits 0 s = Some n → parse_u64 s = Some n.
Proof.
  intros Hs H. destruct s as [|a s]; [done|]. unfold parse_u64.
  rewrite bool_decide_eq_false_2; [done|]. intros ->. done.
Qed.

Lemma parse_u64_padded n : (n < 2 ^ 64)%N → parse_u64 (padded 20 n) = Some n.
Proof.
  intros Hn. apply parse_digits_parse.
  - intros H. pose proof (padded_length 20 n) as Hl. by rewrite H in Hl.
  - rewrite parse_padded; [f_equal; lia| |lia].
    change (10 ^ N.of_nat 20)%N with 100000000000000000000%N. lia.
Qed.

Lemma parse_digits_fits s : ∀ acc n, (acc < 2 ^ 64)%N → parse_digits acc s = Some n → (n < 2 ^ 64)%N.
Proof.
  induction s as [|a s IH]; intros acc n Ha H; [by injection H as <-|]. simpl in H.
  destruct (digit_value a); [|done]. cbn in H. destruct (u64_ok _) eqn:Hu; [|done].
  eapply IH; [|exact H]. unfold u64_ok in Hu. by bool_prop.
Qed.
Lemma parse_u64_fits s n : parse_u64 s = Some n → (n < 2 ^ 64)%N.
Proof.
  destruct s as [|a s]; [done|]. unfold parse_u64. case_bool_decide.
  - destruct s; [done|]. by apply parse_digits_fits.
  - by apply parse_digits_fits.
Qed.

(** Printing has no leading zeros, and reads back. *)
Lemma pretty_char_digit m : (m < 10)%N → pretty_N_char m = digit m.
Proof.
  intros H. assert (m = 0 ∨ m = 1 ∨ m = 2 ∨ m = 3 ∨ m = 4 ∨ m = 5 ∨ m = 6 ∨ m = 7 ∨ m = 8 ∨ m = 9)%N
    as Hm by lia. by destruct_or! Hm; subst.
Qed.
Lemma pretty_go_padded x : ∃ k, (x < 10 ^ N.of_nat k)%N ∧ (x ≠ 0 → 10 ^ N.of_nat (pred k) <= x)%N ∧
  ∀ s, pretty_N_go x s = padded k x +:+ s.
Proof.
  induction (N.lt_wf_0 x) as [x _ IH]. destruct (decide (x = 0)%N) as [->|Hx].
  - exists O. split; [done|]. split; [done|]. intros s. apply pretty_N_go_0.
  - destruct (IH (x / 10)%N) as (k & Hk & Hlow & Hs); [apply N.div_lt; lia|].
    pose proof (N.div_mod x 10 ltac:(lia)) as Hd. pose proof (N.mod_lt x 10 ltac:(lia)) as Hm.
    exists (S k). split; [|split].
    + rewrite Nat2N.inj_succ, N.pow_succ_r'. lia.
    + intros _. cbn [pred]. destruct k as [|k]; [cbn; lia|]. cbn [pred] in Hlow.
      rewrite Nat2N.inj_succ, N.pow_succ_r'. destruct (decide (x / 10 = 0)%N) as [Hz|Hz];
        [|specialize (Hlow Hz); revert Hd Hm Hlow; generalize (x / 10)%N (x mod 10)%N (10 ^ N.of_nat k)%N; intros; lia].
      exfalso. rewrite Hz in *. specialize (Hs ""). rewrite pretty_N_go_0 in Hs.
      apply (f_equal String.length) in Hs. rewrite string_length_app, padded_length in Hs. cbn in Hs. lia.
    + intros s. rewrite pretty_N_go_step, Hs by lia. cbn [padded].
      rewrite string_app_assoc, pretty_char_digit by done. done.
Qed.
(** A decimal of more than one digit does not start with zero. *)
Lemma to_string_padded n : n ≠ 0%N → ∃ k, to_string n = padded (S k) n ∧ (10 ^ N.of_nat k <= n < 10 ^ N.of_nat (S k))%N.
Proof.
  intros Hn. destruct (pretty_go_padded n) as (k & Hk & Hlow & Hs). unfold to_string, pretty, pretty_N.
  rewrite decide_False, Hs, string_app_nil by done. destruct k as [|k]; [cbn in Hk; lia|].
  exists k. split; [done|]. split; [by apply Hlow|done].
Qed.
Lemma to_string_digits n : (n < 2 ^ 64)%N → to_string n ≠ "" ∧ parse_digits 0 (to_string n) = Some n.
Proof.
  intros Hn. destruct (decide (n = 0)%N) as [->|Hz]; [done|].
  destruct (to_string_padded n Hz) as (k & -> & Hk & Hk'). split.
  - intros H. apply (f_equal String.length) in H. rewrite padded_length in H. done.
  - rewrite parse_padded by lia. done.
Qed.
Lemma parse_to_string n : (n < 2 ^ 64)%N → parse_u64 (to_string n) = Some n.
Proof. intros [H1 H2]%to_string_digits. by apply parse_digits_parse. Qed.
Lemma padded_char c k : ∀ n, digit_value c = None → has_char c (padded k n) = false.
Proof.
  induction k as [|k IH]; intros n Hc; [done|]. cbn [padded]. rewrite has_char_app, IH by done.
  cbn [has_char orb]. rewrite orb_false_r. apply bool_decide_eq_false. intros <-.
  unfold digit_value in Hc. rewrite digit_N in Hc by (apply N.mod_lt; lia).
  pose proof (N.mod_lt n 10 ltac:(lia)) as Hm. revert Hc Hm. generalize (n mod 10)%N. intros m Hc Hm.
  by rewrite (proj2 (N.leb_le _ _)), (proj2 (N.leb_le _ _)) in Hc by lia.
Qed.
Lemma to_string_char c n : digit_value c = None → has_char c (to_string n) = false.
Proof.
  intros Hc. destruct (decide (n = 0)%N) as [->|Hz].
  - by apply (padded_char c 1 0).
  - destruct (to_string_padded n Hz) as (k & -> & _). by apply padded_char.
Qed.
(** Reading digits is the inverse of padding. *)
Lemma padded_head k : ∀ d v, (d < 10)%N → (v < 10 ^ N.of_nat k)%N →
  padded (S k) (d * 10 ^ N.of_nat k + v) = String (digit d) (padded k v).
Proof.
  induction k as [|k IH]; intros d v Hd Hv.
  - cbn in Hv. assert (v = 0)%N as -> by lia. cbn [padded]. rewrite N.mod_small by (cbn; lia).
    cbn. by rewrite N.mul_1_r, N.add_0_r.
  - rewrite Nat2N.inj_succ, N.pow_succ_r' in *. pose proof (N.div_mod v 10 ltac:(lia)) as Hdm.
    pose proof (N.mod_lt v 10 ltac:(lia)) as Hm.
    assert (d * (10 * 10 ^ N.of_nat k) + v = (d * 10 ^ N.of_nat k + v / 10) * 10 + v mod 10)%N as Heq
      by (rewrite Hdm at 1; ring).
    assert (v / 10 < 10 ^ N.of_nat k)%N as Hq by (apply N.Div0.div_lt_upper_bound; lia).
    change (padded (S (S k)) ?x) with (padded (S k) (x / 10) +:+ String (digit (x mod 10)) "").
    rewrite Heq, N.add_comm, N.Div0.mod_add, N.Div0.mod_mod, N.div_add, (N.div_small (v mod 10)), N.add_0_l by lia.
    rewrite IH by done. done.
Qed.
Lemma parse_digits_padded s : ∀ acc n, parse_digits acc s = Some n →
  ∃ v, (v < 10 ^ N.of_nat (String.length s))%N ∧ n = (acc * 10 ^ N.of_nat (String.length s) + v)%N ∧
       s = padded (String.length s) v.
Proof.
  induction s as [|a s IH]; intros acc n H.
  - injection H as <-. exists 0%N. cbn. split_and!; [lia|lia|done].
  - cbn [parse_digits] in H. destruct (digit_value a) as [d|] eqn:Ha; [|done]. cbn in H.
    destruct (u64_ok _); [|done]. apply IH in H as (v & Hv & -> & Hs).
    unfold digit_value in Ha. destruct (_ && _) eqn:Hr; [|done]. injection Ha as <-.
    apply andb_true_iff in Hr as [H1%N.leb_le H2%N.leb_le].
    assert (a = digit (N_of_ascii a - 48)) as Hdig.
    { unfold digit. rewrite N.add_comm, N.sub_add by done. symmetry. apply ascii_N_embedding. }
    cbn [String.length]. rewrite Nat2N.inj_succ, N.pow_succ_r'.
    exists ((N_of_ascii a - 48) * 10 ^ N.of_nat (String.length s) + v)%N. split_and!; [nia|lia|].
    rewrite padded_head by (done || lia). by rewrite <-Hdig, <-Hs.
Qed.
Lemma to_string_inj n m : to_string n = to_string m → n = m.
Proof. apply pretty_N_inj. Qed.

(** ** Hexadecimal *)
Lemma byte_forall (P : byte → bool) :
  forallb P (byte_of_N ∘ N.of_nat <$> seq 0 256) = true → ∀ b, P b = true.
Proof.
  intros H b. rewrite forallb_forall in H. apply H. apply in_map_iff. exists (N.to_nat (Byte.to_N b)).
  pose proof (to_N_lt b). split; [|apply in_seq; lia]. cbn. rewrite N2Nat.id. apply byte_of_to_N.
Qed.
Lemma nibble_forall (P : N → N → bool) :
  forallb (λ h, forallb (P h) (N.of_nat <$> seq 0 16)) (N.of_nat <$> seq 0 16) = true →
  ∀ h l, (h < 16)%N → (l < 16)%N → P h l = true.
Proof.
  intros H h l Hh Hl. rewrite forallb_forall in H.
  assert (∀ n, (n < 16)%N → In n (N.of_nat <$> seq 0 16)) as Hin.
  { intros n Hn. apply in_map_iff. exists (N.to_nat n). rewrite N2Nat.id. split; [done|]. apply in_seq. lia. }
  specialize (H h (Hin h Hh)). rewrite forallb_forall in H. by apply H, Hin.
Qed.

Lemma unhex_hex_byte b rest : unhex_pairs (hex_byte b ++ rest) = b :: unhex_pairs rest.
Proof.
  cbn [hex_byte app unhex_pairs]. f_equal. apply Byte.byte_dec_bl. revert b. by apply byte_forall; vm_compute.
Qed.
Lemma unhex_hex bs : unhex_pairs (hex_bytes bs) = bs.
Proof.
  induction bs as [|b bs IH]; [done|]. change (hex_bytes (b :: bs)) with (hex_byte b ++ hex_bytes bs).
  by rewrite unhex_hex_byte, IH.
Qed.

Lemma is_hex_nibble b : is_hex b = true → (nibble b < 16)%N ∧ hex_digit (nibble b) = b.
Proof.
  intros H. assert (negb (is_hex b) || ((nibble b <? 16)%N && Byte.eqb (hex_digit (nibble b)) b) = true) as Hb.
  { clear H. revert b. by apply byte_forall; vm_compute. }
  rewrite H in Hb. apply andb_true_iff in Hb as [H1 H2]. split; [by apply N.ltb_lt|].
  by apply Byte.byte_dec_bl.
Qed.
Lemma hex_byte_nibbles h l : (h < 16)%N → (l < 16)%N →
  hex_byte (byte_of_N (N.lor (N.shiftl h 4) l)) = [hex_digit h; hex_digit l].
Proof.
  intros Hh Hl. apply (bool_decide_eq_true_1 _).
  revert h l Hh Hl. by apply nibble_forall; vm_compute.
Qed.
Lemma hex_unhex n : ∀ bs, length bs = 2 * n → forallb is_hex bs = true →
  hex_bytes (unhex_pairs bs) = bs ∧ length (unhex_pairs bs) = n.
Proof.
  induction n as [|n IH]; intros [|a [|b bs]] Hl Hb; try (simpl in Hl; lia); [done|].
  cbn [forallb] in Hb. apply andb_true_iff in Hb as [Ha Hb]. apply andb_true_iff in Hb as [Hb Hbs].
  apply is_hex_nibble in Ha as [Ha1 Ha2], Hb as [Hb1 Hb2].
  destruct (IH bs) as [H1 H2]; [simpl in Hl; lia|done|]. cbn [unhex_pairs]. split; [|by cbn; rewrite H2].
  change (hex_bytes (?x :: ?l)) with (hex_byte x ++ hex_bytes l).
  rewrite hex_byte_nibbles, H1, Ha2, Hb2 by done. done.
Qed.

Lemma hex_bytes_length bs : length (hex_bytes bs) = 2 * length bs.
Proof.
  induction bs as [|b bs IH]; [done|]. change (hex_bytes (b :: bs)) with (hex_byte b ++ hex_bytes bs).
  rewrite length_app, IH. cbn. lia.
Qed.
Lemma hex_bytes_is_hex bs : forallb is_hex (hex_bytes bs) = true.
Proof.
  induction bs as [|b bs IH]; [done|]. change (hex_bytes (b :: bs)) with (hex_byte b ++ hex_bytes bs).
  rewrite forallb_app, IH, andb_true_r. revert b. by apply byte_forall; vm_compute.
Qed.
Lemma hex_inj bs cs : hex bs = hex cs → bs = cs.
Proof.
  unfold hex. intros H. apply (f_equal str_bytes) in H. rewrite !str_bytes_str in H.
  by rewrite <-(unhex_hex bs), H, unhex_hex.
Qed.
Lemma str_bytes_hex bs : str_bytes (hex bs) = hex_bytes bs.
Proof. apply str_bytes_str. Qed.

(** A character of a text whose bytes all satisfy a predicate. *)
Lemma has_char_bytes (P : byte → bool) c s :
  forallb P (str_bytes s) = true → P (byte_of_ascii c) = false → has_char c s = false.
Proof.
  induction s as [|a s IH]; intros H Hc; [done|]. cbn in H. apply andb_true_iff in H as [Ha Hs].
  cbn. rewrite (IH Hs Hc), bool_decide_eq_false_2; [done|]. intros ->. congruence.
Qed.
Lemma hex_char c bs : is_hex (byte_of_ascii c) = false → has_char c (hex bs) = false.
Proof. apply has_char_bytes. rewrite str_bytes_hex. apply hex_bytes_is_hex. Qed.

(** * Scanning a text by position

    The recursive-descent parsers of the verifiers keep the bytes of a text and a
    position.  This file has the loop they share, and how positions relate to the
    text that is left. *)

(** The head of a list, if any, does not satisfy [p]. *)
Definition stops (p : ascii → bool) (l : list ascii) : Prop :=
  match l with
  | a :: _ => p a = false
  | [] => True
  end.

Section Scanner.
Context (bytes : list ascii).

(** [while self.bytes.get(self.pos).is_some_and(p) { self.pos += 1 }]; the
    fuel is the number of bytes. *)
Fixpoint run_while (p : ascii → bool) (fuel pos : nat) : nat :=
  match fuel with
  | O => pos
  | S fuel =>
      match bytes !! pos with
      | Some a => if p a then run_while p fuel (S pos) else pos
      | None => pos
      end
  end.

Lemma drop_past pos s rest : drop pos bytes = s ++ rest → drop (pos + length s) bytes = rest.
Proof. intros H. rewrite <- drop_drop, H. apply drop_app_length. Qed.

Lemma drop_past_cons pos s c rest : drop pos bytes = s ++ c :: rest → drop (S (pos + length s)) bytes = rest.
Proof.
  intros H. replace (S (pos + length s)) with (pos + length (s ++ [c])) by (rewrite length_app; simpl; lia).
  apply drop_past. by rewrite <- app_assoc.
Qed.

Lemma lookup_pos pos a rest : drop pos bytes = a :: rest → bytes !! pos = Some a.
Proof. intros H. pose proof (lookup_drop bytes pos 0) as E. by rewrite Nat.add_0_r, H in E. Qed.

Lemma lookup_end pos : drop pos bytes = [] → bytes !! pos = None.
Proof. intros H. pose proof (lookup_drop bytes pos 0) as E. by rewrite Nat.add_0_r, H in E. Qed.

Lemma run_while_ok p s : ∀ pos rest fuel, drop pos bytes = s ++ rest → forallb p s = true → stops p rest →
  length s ≤ fuel → run_while p fuel pos = pos + length s.
Proof.
  induction s as [|a s IH]; intros pos rest fuel Hd Hp Hs Hf; cbn [length] in *.
  - rewrite Nat.add_0_r. destruct fuel as [|fuel]; [done|]. cbn [run_while]. destruct rest as [|b rest].
    + by rewrite lookup_end.
    + rewrite (lookup_pos pos b rest) by done. cbn in Hs. by rewrite Hs.
  - destruct fuel as [|fuel]; [lia|]. cbn [run_while app forallb] in *.
    apply andb_true_iff in Hp as [Ha Hp]. rewrite (lookup_pos pos a (s ++ rest)) by done. rewrite Ha.
    rewrite (IH (S pos) rest); [lia| |done|done|lia].
    pose proof (drop_past_cons pos [] a (s ++ rest) Hd) as H. cbn [length] in H. by rewrite Nat.add_0_r in H.
Qed.

Lemma drop_short pos s rest : drop pos bytes = s ++ rest → s ++ rest ≠ [] →
  pos + length s + length rest = length bytes.
Proof.
  intros H Hne. apply (f_equal length) in H as Hl. rewrite length_drop, length_app in Hl.
  assert (length (s ++ rest) ≠ 0) by (destruct (s ++ rest); [done|simpl; lia]). rewrite length_app in *. lia.
Qed.

Lemma drop_le pos s rest : drop pos bytes = s ++ rest → length s ≤ length bytes.
Proof. intros H. apply (f_equal length) in H. rewrite length_drop, length_app in H. lia. Qed.

Lemma span_split p (l : list ascii) : ∃ s rest, l = s ++ rest ∧ forallb p s = true ∧ stops p rest.
Proof.
  induction l as [|a l (s & rest & -> & Hs & Hr)]; [by exists [], []|]. destruct (p a) eqn:E.
  - exists (a :: s), rest. cbn. by rewrite E.
  - by exists [], (a :: s ++ rest).
Qed.

(** The loop from any position. *)
Lemma run_while_span p pos : ∃ s, forallb p s = true ∧ drop pos bytes = s ++ drop (pos + length s) bytes ∧
  stops p (drop (pos + length s) bytes) ∧ run_while p (length bytes) pos = pos + length s.
Proof.
  destruct (span_split p (drop pos bytes)) as (s & rest & E & Hs & Hr). exists s.
  rewrite (drop_past _ _ _ E). split_and!; [done|done|done|].
  by apply (run_while_ok p s pos rest); [..|eapply drop_le].
Qed.

Lemma drop_next pos a rest : drop pos bytes = a :: rest → drop (S pos) bytes = rest.
Proof. intros H. pose proof (drop_past_cons pos [] a rest H) as E. cbn in E. by rewrite Nat.add_0_r in E. Qed.
End Scanner.
