(* ===== verification/Types.v ===== *)
(** * The shared type kernel: crates/ptr-types

    Identities, lifecycle counters, the effect and verification axes, execution
    scopes, Pod addresses and mesh endpoints, with the validation each type
    carries.  Newtypes over [u64], [u128] and [String] are abbreviations: the
    width of a counter and the UTF-8 validity of a text are the [_ok]
    predicates, which state that a value inhabits its Rust type. *)

From S2P Require Import Prelude Bytes.
From stdpp Require Import options.

Abbreviation Revision := N (only parsing).
Abbreviation Generation := N (only parsing).
Abbreviation CommitIndex := N (only parsing).
Abbreviation FencingToken := N (only parsing).
Abbreviation Timestamp := N (only parsing).
Abbreviation Digest := (list byte) (only parsing).

Inductive Effect := Pure | Read | Mutation | External | Irreversible.

Inductive VerificationLevel :=
  Unverified | LatentAgreement | SampleVerified | FullSemantic | Deterministic.

Inductive ScopeLifecycleKind :=
| Scope_Created | Scope_Admitted | Scope_Started | Scope_Completed | Scope_Failed
| Scope_Cancelled | Scope_TimedOut | Scope_Revoked | Scope_Released.

#[export] Instance Effect_eq_dec : EqDecision Effect.
Proof. solve_decision. Defined.
#[export] Instance VerificationLevel_eq_dec : EqDecision VerificationLevel.
Proof. solve_decision. Defined.
#[export] Instance ScopeLifecycleKind_eq_dec : EqDecision ScopeLifecycleKind.
Proof. solve_decision. Defined.

Record ScopeLeaseBinding := {
  slb_state_id : option string;
  slb_pod_id : option string;
  slb_placement_epoch : option N;
  slb_fencing_token : option N;
  slb_generation : option Generation;
  slb_resource_lease_id : option string
}.

Record ScopeLifecycleEvent := {
  sle_scope_id : string;
  sle_parent_id : option string;
  sle_session_id : string;
  sle_project_id : string;
  sle_created_at : Timestamp;
  sle_deadline : option Timestamp;
  sle_kind : ScopeLifecycleKind;
  sle_previous_kind : option ScopeLifecycleKind;
  sle_lease : ScopeLeaseBinding;
  sle_revision : Revision;
  sle_reason : option string
}.

(** ** Knowledge validity: a half-open interval *)
Record KnowledgeValidity := {
  valid_from : option Timestamp;
  valid_until : option Timestamp
}.

Definition KnowledgeValidity_is_valid_at (v : KnowledgeValidity) (now : Timestamp) : bool :=
  match valid_from v with
  | None => true
  | Some from => (from <=? now)%N
  end &&
  match valid_until v with
  | None => true
  | Some until => (now <? until)%N
  end.

Definition KnowledgeValidity_is_well_formed (v : KnowledgeValidity) : bool :=
  match valid_from v, valid_until v with
  | Some from, Some until => (from <? until)%N
  | _, _ => true
  end.

(** ** Identity contexts *)
Inductive AuthenticationLevel := Anonymous | Password | MultiFactor | HardwareBound.

Definition authentication_level_code (l : AuthenticationLevel) : N :=
  match l with
  | Anonymous => 0
  | Password => 1
  | MultiFactor => 2
  | HardwareBound => 3
  end.

Record IdentityContext := {
  ic_subject : string;
  ic_issuer : string;
  ic_groups : list string;
  ic_authentication_level : AuthenticationLevel;
  ic_session_id : string;
  ic_issued_at : Timestamp;
  ic_expires_at : Timestamp;
  ic_identity_digest : Digest
}.

(** Lengths are written as [u64]: a slice is never longer than [isize::MAX],
    so the cast loses nothing. *)
Definition put_text (value : string) : list byte :=
  le_bytes 8 (slen value) ++ str_bytes value.

Definition identity_bytes (i : IdentityContext) : list byte :=
  put_text (ic_subject i) ++ put_text (ic_issuer i) ++
  le_bytes 8 (blen (ic_groups i)) ++ mjoin (put_text <$> ic_groups i) ++
  [byte_of_N (authentication_level_code (ic_authentication_level i))] ++
  put_text (ic_session_id i) ++
  le_bytes 8 (ic_issued_at i) ++ le_bytes 8 (ic_expires_at i).

Section Identity.
Context (sha256 : list byte → list byte).

Definition identity_canonical_digest (i : IdentityContext) : Digest :=
  sha256 (identity_bytes i).

Definition has_valid_digest (i : IdentityContext) : bool :=
  bool_decide (ic_identity_digest i = identity_canonical_digest i).

Definition identity_is_valid_at (i : IdentityContext) (now : Timestamp) : bool :=
  has_valid_digest i && (ic_issued_at i <=? now)%N && (now <? ic_expires_at i)%N.
End Identity.

(** ** Pod addresses *)
Inductive ResolveError :=
| InvalidScheme
| InvalidAddress (field : string)
| MissingBinding (field : string)
| InvalidProtocolVersion
| HopLimitExceeded
| RouteCycle
| EndpointMismatch
| StaleRoute
| ConflictingEndpoint
| ScopeMismatch
| NotFound
| ConstraintMismatch (field : string)
| InvalidDeadline.

#[export] Instance ResolveError_eq_dec : EqDecision ResolveError.
Proof. solve_decision. Defined.

Record PodAddress := {
  pa_project : string;
  pa_namespace : string;
  pa_pod_id : string
}.

Record PodRevisionAddress := {
  pra_address : PodAddress;
  pra_semantic_revision : Digest;
  pra_generation : Generation
}.

#[export] Instance PodAddress_eq_dec : EqDecision PodAddress.
Proof. solve_decision. Defined.
#[export] Instance PodRevisionAddress_eq_dec : EqDecision PodRevisionAddress.
Proof. solve_decision. Defined.

(** [u8::is_ascii_digit], [u8::is_ascii_alphanumeric]. *)
Definition is_ascii_digit (b : byte) : bool := in_range 48 57 (Byte.to_N b).
Definition is_ascii_alphanumeric (b : byte) : bool :=
  is_ascii_digit b || in_range 65 90 (Byte.to_N b) || in_range 97 122 (Byte.to_N b).

Definition is_segment_byte (b : byte) : bool :=
  is_ascii_alphanumeric b || bool_decide (b ∈ str_bytes "._~-").

Definition segment_ok (s : string) : bool :=
  negb (bool_decide (s = "")) && forallb is_segment_byte (str_bytes s).

(** [PodAddress::validate]: the first bad field is the one reported. *)
Definition PodAddress_validate (a : PodAddress) : result ResolveError unit :=
  if negb (segment_ok (pa_project a)) then Err (InvalidAddress "project") else
  if negb (segment_ok (pa_namespace a)) then Err (InvalidAddress "namespace") else
  if negb (segment_ok (pa_pod_id a)) then Err (InvalidAddress "pod_id") else
  Ok tt.

Definition PodAddress_new (project namespace pod_id : string) : result ResolveError PodAddress :=
  let address := {| pa_project := project; pa_namespace := namespace; pa_pod_id := pod_id |} in
  PodAddress_validate address ;? Ok address.

Definition PodRevisionAddress_validate (r : PodRevisionAddress) : result ResolveError unit :=
  PodAddress_validate (pra_address r) ;?
  if bool_decide (pra_semantic_revision r = zero_digest)
  then Err (MissingBinding "semantic_revision") else Ok tt.

(** ** Egress refusal reasons, with pinned codes *)
Inductive EgressRefusalReason :=
| HostNotAllowed | PortNotAllowed | TopicNotAllowed | InvalidTopic
| RateLimited | TopicRequired | TopicUnverifiable.

#[export] Instance EgressRefusalReason_eq_dec : EqDecision EgressRefusalReason.
Proof. solve_decision. Defined.

Definition EgressRefusalReason_code (r : EgressRefusalReason) : N :=
  match r with
  | HostNotAllowed => 0
  | PortNotAllowed => 1
  | TopicNotAllowed => 2
  | InvalidTopic => 3
  | RateLimited => 4
  | TopicRequired => 5
  | TopicUnverifiable => 6
  end.

Definition EgressRefusalReason_from_code (code : N) : option EgressRefusalReason :=
  match code with
  | 0 => Some HostNotAllowed
  | 1 => Some PortNotAllowed
  | 2 => Some TopicNotAllowed
  | 3 => Some InvalidTopic
  | 4 => Some RateLimited
  | 5 => Some TopicRequired
  | 6 => Some TopicUnverifiable
  | _ => None
  end%N.

(** ** Mesh endpoints and tunnel events *)
Inductive MeshRouteKind := Direct | Relay.

Record MeshEndpointBinding := {
  meb_network_id : string;
  meb_peer_id : string;
  meb_route : MeshRouteKind;
  meb_relay_id : option string;
  meb_membership_generation : Generation;
  meb_membership_revision : Revision
}.

#[export] Instance MeshRouteKind_eq_dec : EqDecision MeshRouteKind.
Proof. solve_decision. Defined.
#[export] Instance MeshEndpointBinding_eq_dec : EqDecision MeshEndpointBinding.
Proof. solve_decision. Defined.

Definition MeshEndpointBinding_validate (e : MeshEndpointBinding) : result ResolveError unit :=
  if bool_decide (meb_network_id e = "") || bool_decide (meb_peer_id e = "")
  then Err (MissingBinding "mesh_identity") else
  if (meb_membership_generation e =? 0)%N || (meb_membership_revision e =? 0)%N
  then Err StaleRoute else
  match meb_route e, meb_relay_id e with
  | Direct, None => Ok tt
  | Direct, Some _ => Err ConflictingEndpoint
  | Relay, Some relay =>
      if bool_decide (relay = "") then Err (MissingBinding "relay_id") else Ok tt
  | Relay, None => Err (MissingBinding "relay_id")
  end.

Inductive MeshTunnelEventKind :=
| InvitationCreated | InvitationAccepted | MembershipActivated | MembershipRevoked
| RouteChanged | TunnelEstablished | TunnelRevoked | TunnelReleased.

#[export] Instance MeshTunnelEventKind_eq_dec : EqDecision MeshTunnelEventKind.
Proof. solve_decision. Defined.

Record MeshTunnelLifecycleEvent := {
  mte_network_id : string;
  mte_peer_id : string;
  mte_invitation_id : option string;
  mte_tunnel_id : option string;
  mte_generation : Generation;
  mte_revision : Revision;
  mte_kind : MeshTunnelEventKind;
  mte_endpoint : option MeshEndpointBinding;
  mte_placement_epoch : N;
  mte_fencing_token : FencingToken;
  mte_event_digest : Digest
}.

Definition MeshTunnelLifecycleEvent_validate (e : MeshTunnelLifecycleEvent) : result string unit :=
  if bool_decide (mte_network_id e = "") || bool_decide (mte_peer_id e = "")
  then Err "mesh identity" else
  if (mte_generation e =? 0)%N || (mte_revision e =? 0)%N || (mte_placement_epoch e =? 0)%N
  then Err "mesh revision" else
  if (bool_decide (mte_kind e = TunnelEstablished) || bool_decide (mte_kind e = RouteChanged))
     && bool_decide (mte_endpoint e = None)
  then Err "mesh endpoint" else
  match mte_endpoint e with
  | None => Ok tt
  | Some endpoint =>
      match MeshEndpointBinding_validate endpoint with
      | Err _ => Err "mesh endpoint"
      | Ok _ =>
          if negb (bool_decide (meb_network_id endpoint = mte_network_id e))
             || negb (bool_decide (meb_peer_id endpoint = mte_peer_id e))
          then Err "mesh endpoint identity" else Ok tt
      end
  end ;?
  if bool_decide (mte_event_digest e = zero_digest) then Err "event digest" else Ok tt.

(** ** Values that inhabit their Rust types *)
Definition opt_ok {A} (ok : A → bool) (o : option A) : bool :=
  match o with
  | Some a => ok a
  | None => true
  end.

Definition lease_ok (l : ScopeLeaseBinding) : bool :=
  opt_ok str_ok (slb_state_id l) && opt_ok str_ok (slb_pod_id l) &&
  opt_ok u64_ok (slb_placement_epoch l) && opt_ok u128_ok (slb_fencing_token l) &&
  opt_ok u64_ok (slb_generation l) && opt_ok str_ok (slb_resource_lease_id l).

Definition scope_event_ok (e : ScopeLifecycleEvent) : bool :=
  str_ok (sle_scope_id e) && opt_ok str_ok (sle_parent_id e) &&
  str_ok (sle_session_id e) && str_ok (sle_project_id e) &&
  u64_ok (sle_created_at e) && opt_ok u64_ok (sle_deadline e) &&
  lease_ok (sle_lease e) && u64_ok (sle_revision e) && opt_ok str_ok (sle_reason e).

Definition pod_address_ok (a : PodAddress) : bool :=
  str_ok (pa_project a) && str_ok (pa_namespace a) && str_ok (pa_pod_id a).

Definition revision_address_ok (r : PodRevisionAddress) : bool :=
  pod_address_ok (pra_address r) && digest_ok (pra_semantic_revision r) &&
  u64_ok (pra_generation r).

Definition mesh_endpoint_ok (e : MeshEndpointBinding) : bool :=
  str_ok (meb_network_id e) && str_ok (meb_peer_id e) && opt_ok str_ok (meb_relay_id e) &&
  u64_ok (meb_membership_generation e) && u64_ok (meb_membership_revision e).

Definition mesh_event_ok (e : MeshTunnelLifecycleEvent) : bool :=
  str_ok (mte_network_id e) && str_ok (mte_peer_id e) &&
  opt_ok str_ok (mte_invitation_id e) && opt_ok str_ok (mte_tunnel_id e) &&
  u64_ok (mte_generation e) && u64_ok (mte_revision e) &&
  opt_ok mesh_endpoint_ok (mte_endpoint e) && u64_ok (mte_placement_epoch e) &&
  u128_ok (mte_fencing_token e) && digest_ok (mte_event_digest e).
