(* ===== verification/Address.v ===== *)
(** * Pod addresses and routes: crates/ptr-types/src/pod_address.rs

    The canonical spelling of an address and of an address at a revision, with
    the parsers that read it back, and the validation that a route and the
    header of a frame pass before anything is sent.  The address types and
    their validation are in [Types]. *)

From S2P Require Import Prelude Bytes Text Types.
From Stdlib Require Import Strings.Ascii.
From stdpp Require Import options.

Definition SCHEME : string := "ptr://".

(** ** The spelling of an address *)
Definition PodAddress_canonical_uri (a : PodAddress) : result ResolveError string :=
  PodAddress_validate a ;?
  Ok (SCHEME +:+ pa_project a +:+ "/" +:+ pa_namespace a +:+ "/" +:+ pa_pod_id a).

Definition PodAddress_parse (value : string) : result ResolveError PodAddress :=
  let? rest := ok_or (strip_prefix SCHEME value) InvalidScheme in
  let parts := split_char "/"%char rest in
  let project := default "" (parts !! 0) in
  let namespace := default "" (parts !! 1) in
  let pod_id := default "" (parts !! 2) in
  if bool_decide (is_Some (parts !! 3)) || bool_decide (project = "")
     || bool_decide (namespace = "") || bool_decide (pod_id = "")
  then Err (InvalidAddress "address")
  else PodAddress_new project namespace pod_id.

(** ** The spelling of an address at a revision *)
Definition PodRevisionAddress_canonical_uri (r : PodRevisionAddress) : result ResolveError string :=
  PodRevisionAddress_validate r ;?
  let? base := PodAddress_canonical_uri (pra_address r) in
  Ok (base +:+ "@revision:" +:+ hex (pra_semantic_revision r)
        +:+ "#generation:" +:+ to_string (pra_generation r)).

Definition parse_hex_digest (value : string) : result ResolveError Digest :=
  let bytes := str_bytes value in
  if negb (blen bytes =? 64)%N || negb (forallb is_hex bytes)
  then Err (InvalidAddress "semantic_revision")
  else Ok (unhex_pairs bytes).

Definition PodRevisionAddress_parse (value : string) : result ResolveError PodRevisionAddress :=
  let? (base, fragment) := ok_or (split_once "#generation:" value) (InvalidAddress "generation") in
  let? generation := ok_or (parse_u64 fragment) (InvalidAddress "generation") in
  if negb (bool_decide (fragment = to_string generation)) then Err (InvalidAddress "generation") else
  let? (base, revision) := ok_or (split_once "@revision:" base) (InvalidAddress "semantic_revision") in
  let? semantic_revision := parse_hex_digest revision in
  let? address := PodAddress_parse base in
  let parsed := {| pra_address := address; pra_semantic_revision := semantic_revision;
                   pra_generation := generation |} in
  PodRevisionAddress_validate parsed ;? Ok parsed.

(** ** Refusals *)
Definition EgressRefusalReason_ALL : list EgressRefusalReason :=
  [HostNotAllowed; PortNotAllowed; TopicNotAllowed; InvalidTopic; RateLimited; TopicRequired;
   TopicUnverifiable].

Definition EgressRefusalReason_name (r : EgressRefusalReason) : string :=
  match r with
  | HostNotAllowed => "host-not-allowed"
  | PortNotAllowed => "port-not-allowed"
  | TopicNotAllowed => "topic-not-allowed"
  | InvalidTopic => "invalid-topic"
  | RateLimited => "rate-limited"
  | TopicRequired => "topic-required"
  | TopicUnverifiable => "topic-unverifiable"
  end.

(** ** Endpoints, routes and headers *)
Inductive PodTransport := InProcess | LocalWorker | IrohQuic.

Record PodEndpoint := {
  pe_pod : PodRevisionAddress;
  pe_artifact_id : string;
  pe_artifact_active : bool;
  pe_node_id : string;
  pe_device_id : option string;
  pe_region : string;
  pe_zone : string;
  pe_peer_id : string;
  pe_transport : PodTransport;
  pe_endpoint_epoch : N;
  pe_fencing_token : N;
  pe_available_vram_bytes : N;
  pe_healthy : bool;
  pe_load_bps : N;
  pe_capabilities : list string;
  pe_accepts : list string;
  pe_produces : list string;
  pe_mesh : option MeshEndpointBinding
}.

Record RouteConstraints := {
  rc_artifact_id : option string;
  rc_capability : option string;
  rc_input_type : option string;
  rc_output_type : option string;
  rc_region : option string;
  rc_zone : option string;
  rc_required_vram_bytes : option N;
  rc_min_epoch : option N;
  rc_deadline : option Timestamp
}.

Record PodRoute := {
  pr_source : option PodAddress;
  pr_destination : PodRevisionAddress;
  pr_artifact_id : string;
  pr_endpoint : PodEndpoint;
  pr_capability : string;
  pr_input_type : string;
  pr_output_type : string;
  pr_trace_id : string;
  pr_request_id : string;
  pr_deadline : option Timestamp;
  pr_hop_limit : N;
  pr_visited : list PodAddress;
  pr_placement_epoch : N;
  pr_fencing_token : N
}.

Definition RouteConstraints_validate (c : RouteConstraints) : result ResolveError unit :=
  if bool_decide (rc_deadline c = Some 0%N) then Err InvalidDeadline else Ok tt.

(** A source must be in the project and the namespace of the destination. *)
Definition source_in_scope (source : option PodAddress) (destination : PodRevisionAddress) :
  result ResolveError unit :=
  match source with
  | Some source =>
      if negb (bool_decide (pa_project source = pa_project (pra_address destination)))
         || negb (bool_decide (pa_namespace source = pa_namespace (pra_address destination)))
      then Err ScopeMismatch else Ok tt
  | None => Ok tt
  end.

Definition PodRoute_validate (r : PodRoute) : result ResolveError unit :=
  let endpoint := pr_endpoint r in
  if bool_decide (pr_deadline r = Some 0%N) then Err InvalidDeadline else
  PodRevisionAddress_validate (pr_destination r) ;?
  if (pr_hop_limit r =? 0)%N then Err HopLimitExceeded else
  if bool_decide (pra_address (pr_destination r) ∈ pr_visited r) then Err RouteCycle else
  source_in_scope (pr_source r) (pr_destination r) ;?
  if negb (bool_decide (pe_pod endpoint = pr_destination r)) then Err EndpointMismatch else
  if negb (bool_decide (pr_artifact_id r = pe_artifact_id endpoint)) || negb (pe_artifact_active endpoint)
  then Err StaleRoute else
  if (pr_placement_epoch r =? 0)%N || negb (pr_placement_epoch r =? pe_endpoint_epoch endpoint)%N
  then Err StaleRoute else
  if (pr_fencing_token r =? 0)%N || negb (pr_fencing_token r =? pe_fencing_token endpoint)%N
  then Err StaleRoute else
  match pe_mesh endpoint with
  | Some mesh => MeshEndpointBinding_validate mesh
  | None => Ok tt
  end.

Inductive FrameKind := FrameRequest | FrameAnswer | FrameRefusal.

Record PodHeader := {
  ph_protocol_version : N;
  ph_frame_kind : FrameKind;
  ph_source : option PodAddress;
  ph_destination : PodRevisionAddress;
  ph_capability : string;
  ph_input_type : string;
  ph_expected_output_type : string;
  ph_execution_manifest : Digest;
  ph_artifact : Digest;
  ph_session_id : string;
  ph_scope_id : string;
  ph_request_id : string;
  ph_placement_epoch : N;
  ph_fencing_token : N;
  ph_trace_id : string;
  ph_deadline : Timestamp;
  ph_hop_limit : N
}.

Definition PodHeader_validate (h : PodHeader) : result ResolveError unit :=
  if (ph_protocol_version h =? 0)%N then Err InvalidProtocolVersion else
  PodRevisionAddress_validate (ph_destination h) ;?
  if bool_decide (ph_execution_manifest h = zero_digest) then Err (MissingBinding "execution_manifest") else
  if bool_decide (ph_artifact h = zero_digest) then Err (MissingBinding "artifact") else
  if bool_decide (ph_session_id h = "") || bool_decide (ph_scope_id h = "")
     || bool_decide (ph_request_id h = "") || bool_decide (ph_trace_id h = "")
  then Err (MissingBinding "runtime_ids") else
  source_in_scope (ph_source h) (ph_destination h) ;?
  if bool_decide (ph_capability h = "") || bool_decide (ph_input_type h = "")
     || bool_decide (ph_expected_output_type h = "")
  then Err (MissingBinding "typed_contract") else
  if (ph_placement_epoch h =? 0)%N then Err (MissingBinding "placement_epoch") else
  if (ph_fencing_token h =? 0)%N then Err (MissingBinding "fencing_token") else
  if (ph_hop_limit h =? 0)%N then Err HopLimitExceeded else
  Ok tt.

(** ** Segments *)
Lemma PodAddress_validate_ok a :
  PodAddress_validate a = Ok tt ↔
  segment_ok (pa_project a) = true ∧ segment_ok (pa_namespace a) = true ∧ segment_ok (pa_pod_id a) = true.
Proof.
  unfold PodAddress_validate. destruct (segment_ok (pa_project a)), (segment_ok (pa_namespace a)),
    (segment_ok (pa_pod_id a)); naive_solver.
Qed.
Lemma segment_char c s : is_segment_byte (byte_of_ascii c) = false → segment_ok s = true → has_char c s = false.
Proof. unfold segment_ok. intros Hc [_ H]%andb_true_iff. by eapply has_char_bytes. Qed.
Lemma segment_nonempty s : segment_ok s = true → bool_decide (s = "") = false.
Proof. unfold segment_ok. intros [H _]%andb_true_iff. by apply negb_true_iff in H. Qed.

Lemma PodAddress_parse_ok a s :
  PodAddress_canonical_uri a = Ok s → PodAddress_parse s = Ok a.
Proof.
  intros H. unfold PodAddress_canonical_uri in H. apply rbind_ok_inv in H as ([] & Hv & [= <-]).
  pose proof Hv as (Hp & Hn & Hd)%PodAddress_validate_ok.
  unfold PodAddress_parse. rewrite strip_prefix_app. cbn [ok_or rbind].
  assert (split_char "/" (pa_project a +:+ "/" +:+ pa_namespace a +:+ "/" +:+ pa_pod_id a)
          = [pa_project a; pa_namespace a; pa_pod_id a]) as ->.
  { change (split_char "/" (pa_project a +:+ String "/" (pa_namespace a +:+ String "/" (pa_pod_id a)))
      = [pa_project a; pa_namespace a; pa_pod_id a]).
    by rewrite !split_char_app, split_char_one by (by apply segment_char). }
  unfold PodAddress_new. destruct a as [p n d]. simpl in *.
  rewrite (segment_nonempty _ Hp), (segment_nonempty _ Hn), (segment_nonempty _ Hd), Hv. done.
Qed.

Lemma PodAddress_parse_inv a s :
  PodAddress_parse s = Ok a → PodAddress_canonical_uri a = Ok s.
Proof.
  unfold PodAddress_parse, PodAddress_new. intros (rest & Hs & H)%rbind_ok_inv.
  apply ok_or_ok_inv, strip_prefix_some in Hs as ->. result_inv.
  destruct (split_char "/" rest) as [|p [|n [|d [|e parts]]]] eqn:E; try discriminate.
  1,2: exfalso; simpl in *; by rewrite ?orb_true_r in *.
  apply split_char_join in E as ->. simpl in *. unfold PodAddress_canonical_uri. cbn [pa_project pa_namespace pa_pod_id].
  match goal with H : PodAddress_validate _ = _ |- _ => rewrite H end. cbn [rbind]. by rewrite !string_app_assoc.
Qed.

(** A text parses to an address exactly when it is the address's one spelling. *)
Lemma pod_address_uri_iff s a : PodAddress_parse s = Ok a ↔ PodAddress_canonical_uri a = Ok s.
Proof. split; [apply PodAddress_parse_inv|apply PodAddress_parse_ok]. Qed.

Lemma canonical_uri_inj a b s :
  PodAddress_canonical_uri a = Ok s → PodAddress_canonical_uri b = Ok s → a = b.
Proof. rewrite <-!pod_address_uri_iff. congruence. Qed.

Lemma canonical_uri_char c a s :
  PodAddress_canonical_uri a = Ok s → is_segment_byte (byte_of_ascii c) = false →
  has_char c SCHEME = false → bool_decide ("/"%char = c) = false → has_char c s = false.
Proof.
  unfold PodAddress_canonical_uri. intros H Hc Hscheme Hslash. result_inv.
  match goal with H : PodAddress_validate _ = _ |- _ => apply PodAddress_validate_ok in H as (?&?&?) end.
  rewrite !has_char_app, Hscheme, (segment_char c (pa_project a)), (segment_char c (pa_namespace a)),
    (segment_char c (pa_pod_id a)) by done. simpl. by rewrite Hslash.
Qed.

(** ** Digests and revisions *)
Lemma parse_hex_digest_iff s d :
  parse_hex_digest s = Ok d ↔ digest_ok d = true ∧ s = hex d.
Proof.
  unfold parse_hex_digest, digest_ok. split.
  - intros H. result_inv. match goal with H : _ || _ = false |- _ => apply orb_false_iff in H as [H1 H2] end.
    bool_prop. unfold blen in *. destruct (hex_unhex 32 (str_bytes s)) as [Hh Hl]; [lia|done|].
    rewrite Hl. split; [done|]. apply str_bytes_inj. by rewrite str_bytes_hex, Hh.
  - intros [Hl%Nat.eqb_eq ->]. rewrite str_bytes_hex, hex_bytes_is_hex. unfold blen.
    rewrite hex_bytes_length, Hl. cbn [negb orb]. by rewrite unhex_hex.
Qed.

Lemma revision_validate_address r :
  PodRevisionAddress_validate r = Ok tt → PodAddress_validate (pra_address r) = Ok tt.
Proof. unfold PodRevisionAddress_validate. intros H. by result_inv. Qed.

(** An address at a revision has one spelling.  [parse] accepts a text, and
    returns an address, exactly when the address is valid and the text is what
    [canonical_uri] prints for it: other spellings of the digest or of the
    generation, missing or extra segments, and the zero digest are refused. *)
Theorem revision_uri_iff s r :
  PodRevisionAddress_parse s = Ok r ↔
  digest_ok (pra_semantic_revision r) = true ∧ u64_ok (pra_generation r) = true ∧
  PodRevisionAddress_canonical_uri r = Ok s.
Proof.
  unfold PodRevisionAddress_parse, PodRevisionAddress_canonical_uri. split.
  - intros H. apply rbind_ok_inv in H as ([base fragment] & Hg & H).
    apply ok_or_ok_inv, split_once_some in Hg as ->.
    result_inv. bool_prop. subst fragment.
    match goal with H : split_once _ _ = _ |- _ => apply split_once_some in H as -> end.
    match goal with H : parse_hex_digest _ = _ |- _ => apply parse_hex_digest_iff in H as [Hd ->] end.
    match goal with H : PodAddress_parse _ = _ |- _ => apply pod_address_uri_iff in H end.
    match goal with H : parse_u64 _ = _ |- _ => apply parse_u64_fits in H end.
    cbn [pra_semantic_revision pra_generation pra_address].
    split_and!; [done|unfold u64_ok; by apply N.ltb_lt|].
    repeat match goal with H : _ = Ok _ |- _ => rewrite H; clear H end. cbn [rbind].
    by rewrite !string_app_assoc.
  - intros (Hd & Hg & H). apply N.ltb_lt in Hg. apply rbind_ok_inv in H as ([] & Hv & H).
    apply rbind_ok_inv in H as (base & Hb & [= <-]).
    pose proof (canonical_uri_char "#" _ _ Hb eq_refl eq_refl eq_refl) as Hhash.
    pose proof (canonical_uri_char "@" _ _ Hb eq_refl eq_refl eq_refl) as Hat.
    rewrite <-!string_app_assoc, string_app_assoc.
    assert (∀ h, has_char "#" (hex h) = false) as Hhex by (intros h; by apply hex_char).
    rewrite (split_once_app "#"%char "generation:") by (rewrite !has_char_app, Hhash, Hhex; done).
    cbn [ok_or rbind]. rewrite parse_to_string by done. cbn [ok_or rbind].
    rewrite bool_decide_eq_true_2 by done. cbn [negb].
    rewrite string_app_assoc, (split_once_app "@"%char "revision:") by done. cbn [ok_or rbind].
    rewrite (proj2 (parse_hex_digest_iff _ (pra_semantic_revision r))) by done. cbn [rbind].
    rewrite (proj2 (pod_address_uri_iff _ _) Hb). cbn [rbind]. destruct r. cbn in *. by rewrite Hv.
Qed.

(** ** What a route and a header guarantee *)
Lemma source_in_scope_ok source destination :
  source_in_scope source destination = Ok tt ↔
  ∀ a, source = Some a → pa_project a = pa_project (pra_address destination) ∧
                         pa_namespace a = pa_namespace (pra_address destination).
Proof.
  unfold source_in_scope. destruct source as [a|]; [|naive_solver].
  repeat case_bool_decide; cbn; naive_solver.
Qed.

(** A route is accepted exactly when it can be used as it stands: its
    deadline is not the epoch itself, its destination is valid and was not
    visited, a hop is left, its source is in the destination's scope, and its
    endpoint serves that destination with the same active artifact, the same
    placement epoch and the same fencing token, none of them zero. *)
Theorem route_validate_iff r :
  let e := pr_endpoint r in
  PodRoute_validate r = Ok tt ↔
  pr_deadline r ≠ Some 0%N ∧
  PodRevisionAddress_validate (pr_destination r) = Ok tt ∧
  pr_hop_limit r ≠ 0%N ∧
  pra_address (pr_destination r) ∉ pr_visited r ∧
  source_in_scope (pr_source r) (pr_destination r) = Ok tt ∧
  pe_pod e = pr_destination r ∧
  pe_artifact_id e = pr_artifact_id r ∧ pe_artifact_active e = true ∧
  pe_endpoint_epoch e = pr_placement_epoch r ∧ pr_placement_epoch r ≠ 0%N ∧
  pe_fencing_token e = pr_fencing_token r ∧ pr_fencing_token r ≠ 0%N ∧
  ∀ mesh, pe_mesh e = Some mesh → MeshEndpointBinding_validate mesh = Ok tt.
Proof.
  cbn zeta. unfold PodRoute_validate. split.
  - intros H. result_inv. bool_prop. split_and!; try done.
    intros mesh Hm. by rewrite Hm in H.
  - intros (H1 & -> & H3 & H4 & -> & H6 & H7 & H8 & H9 & H10 & H11 & H12 & H13).
    rewrite (bool_decide_eq_false_2 _ H1), (proj2 (N.eqb_neq _ _) H3), (bool_decide_eq_false_2 _ H4).
    cbn [rbind]. rewrite H8, (bool_decide_eq_true_2 _ H6), (bool_decide_eq_true_2 _ (eq_sym H7)).
    rewrite (proj2 (N.eqb_neq _ _) H10), (proj2 (N.eqb_neq _ _) H12), H9, H11, !N.eqb_refl. cbn.
    destruct (pe_mesh _); [by apply H13|done].
Qed.

(** What the header of an accepted frame carries. *)
Lemma header_validate_ok h :
  PodHeader_validate h = Ok tt →
  PodRevisionAddress_validate (ph_destination h) = Ok tt ∧
  source_in_scope (ph_source h) (ph_destination h) = Ok tt ∧
  ph_execution_manifest h ≠ zero_digest ∧ ph_artifact h ≠ zero_digest ∧
  Forall (λ s, s ≠ "") [ph_session_id h; ph_scope_id h; ph_request_id h; ph_trace_id h;
                        ph_capability h; ph_input_type h; ph_expected_output_type h] ∧
  Forall (λ n, n ≠ 0%N) [ph_protocol_version h; ph_placement_epoch h; ph_fencing_token h; ph_hop_limit h].
Proof.
  unfold PodHeader_validate. intros H. result_inv. bool_prop. split_and!; repeat constructor; done.
Qed.
