(* ===== verification/ExpertOps.v ===== *)
(** * Structural operations on experts: crates/ptr-pods/src/expert.rs

    An expert is a Pod with a generation, a level and a lifecycle.  A policy
    proposes structural changes (birth, merge, split, freeze, reactivate, prune,
    retire); this file has the proposals, the rules they are checked against in
    the order of the code, and the state every expert is left in once a proposal
    is admitted.

    [StructuralOp] and [RequestedOp] have the same constructors and differ in
    what a result is: a trained specification, or the intent of one.  They are
    one family here.  Fields that are private in the source are set by the
    constructors only, so what a constructor checks is an invariant of the type:
    the predicates ending in [_ok]. *)

From S2P Require Import Prelude Bytes Text Types.
From stdpp Require Import options.

(** ** Identifiers *)
Definition MAX_ID_BYTES : N := 128.

(** [char::is_whitespace]. *)
Definition is_whitespace (c : N) : bool :=
  in_range 9 13 c || (c =? 32)%N || (c =? 0x85)%N || (c =? 0xA0)%N || (c =? 0x1680)%N ||
  in_range 0x2000 0x200A c || (c =? 0x2028)%N || (c =? 0x2029)%N || (c =? 0x202F)%N ||
  (c =? 0x205F)%N || (c =? 0x3000)%N.
(** [s.trim().is_empty()]. *)
Definition is_blank (s : string) : bool :=
  match chars s with
  | Some cs => forallb is_whitespace cs
  | None => false
  end.

Definition is_id_byte (b : byte) : bool :=
  is_ascii_alphanumeric b || bool_decide (b ∈ str_bytes "._:-").

Inductive ExpertIdentityError :=
| BlankProject | NonCanonicalProject | BlankPod | NonCanonicalPod | BlankBaseModel
| NonCanonicalBaseModel | ZeroGeneration | ZeroBaseModelGeneration.

Definition check_id (value : string) (blank non_canonical : ExpertIdentityError) :
  result ExpertIdentityError unit :=
  if is_blank value then Err blank
  else if (MAX_ID_BYTES <? slen value)%N || negb (forallb is_id_byte (str_bytes value))
  then Err non_canonical
  else Ok tt.

Definition check_project_id (project : string) := check_id project BlankProject NonCanonicalProject.
Definition check_pod_id (pod : string) := check_id pod BlankPod NonCanonicalPod.
Definition check_generation (generation : Generation) : result ExpertIdentityError unit :=
  if (generation =? 0)%N then Err ZeroGeneration else Ok tt.

(** The digest newtypes ([ManifestDigest], [BaseModelDigest], [RationaleDigest])
    reject the zero digest. *)
Definition new_digest (digest : Digest) : option Digest :=
  if bool_decide (digest = zero_digest) then None else Some digest.

(** ** Base models, levels and states *)
Record BaseModelRef := {
  bm_id : string;
  bm_digest : Digest;
  bm_generation : N
}.

Definition BaseModelId_new (id : string) : result ExpertIdentityError string :=
  check_id id BlankBaseModel NonCanonicalBaseModel ;? Ok id.
Definition BaseModelRef_new (id : string) (digest : Digest) (generation : N) :
  result ExpertIdentityError BaseModelRef :=
  if (generation =? 0)%N then Err ZeroBaseModelGeneration
  else Ok {| bm_id := id; bm_digest := digest; bm_generation := generation |}.

Inductive ExpertLevel :=
| Token (layer index : N)
| Segment.

Definition compatible_with (a b : ExpertLevel) : bool :=
  match a, b with
  | Segment, Segment => true
  | Token a _, Token b _ => (a =? b)%N
  | Segment, Token _ _ | Token _ _, Segment => false
  end.

Inductive RetiredReason := Reason_Pruned | Reason_Superseded | Reason_GateFailed | Reason_InputRevoked.

Inductive ExpertState :=
| State_Candidate | State_Gated | State_Serving | State_Frozen | State_Fenced | State_Superseded
| State_Retired (reason : RetiredReason).

Inductive OpKind :=
| Kind_Birth | Kind_Merge | Kind_Split | Kind_Freeze | Kind_Reactivate | Kind_Prune | Kind_Retire.

#[export] Instance BaseModelRef_eq_dec : EqDecision BaseModelRef.
Proof. solve_decision. Defined.
#[export] Instance ExpertLevel_eq_dec : EqDecision ExpertLevel.
Proof. solve_decision. Defined.
#[export] Instance RetiredReason_eq_dec : EqDecision RetiredReason.
Proof. solve_decision. Defined.
#[export] Instance ExpertState_eq_dec : EqDecision ExpertState.
Proof. solve_decision. Defined.
#[export] Instance OpKind_eq_dec : EqDecision OpKind.
Proof. solve_decision. Defined.

(** Where a state sits in the lifecycle of ptr-lineage and of the artifact. *)
Inductive ArtifactLifecycle :=
| Artifact_Candidate | Artifact_Trained | Artifact_Evaluated | Artifact_Approved | Artifact_Active
| Artifact_Superseded | Artifact_Retired | Artifact_Revoked.

Definition adapter_status_name (s : ExpertState) : string :=
  match s with
  | State_Candidate => "candidate"
  | State_Gated => "gated"
  | State_Serving | State_Frozen | State_Fenced => "serving"
  | State_Superseded | State_Retired _ => "retired"
  end.
Definition artifact_lifecycles (s : ExpertState) : list ArtifactLifecycle :=
  match s with
  | State_Candidate => [Artifact_Candidate; Artifact_Trained; Artifact_Evaluated]
  | State_Gated => [Artifact_Approved]
  | State_Serving | State_Frozen | State_Fenced => [Artifact_Active]
  | State_Superseded => [Artifact_Superseded]
  | State_Retired Reason_InputRevoked => [Artifact_Revoked]
  | State_Retired (Reason_Pruned | Reason_Superseded | Reason_GateFailed) => [Artifact_Retired]
  end.

(** Which states a source or target may be in. *)
Definition allows_state (kind : OpKind) (state : ExpertState) : bool :=
  match kind, state with
  | Kind_Birth, _ => false
  | (Kind_Merge | Kind_Split), (State_Serving | State_Frozen) => true
  | (Kind_Freeze | Kind_Prune), State_Serving => true
  | Kind_Reactivate, (State_Frozen | State_Retired Reason_GateFailed) => true
  | Kind_Retire, (State_Serving | State_Frozen) => true
  | _, _ => false
  end.

(** ** Specifications, intents, targets, proposers *)
Record ExpertPodSpec := {
  es_project : string;
  es_pod : string;
  es_manifest_digest : Digest;
  es_level : ExpertLevel;
  es_base_model : BaseModelRef;
  es_generation : Generation
}.

Record ResultIntent := {
  ri_project : string;
  ri_pod : string;
  ri_level : ExpertLevel;
  ri_base_model : BaseModelRef;
  ri_generation : Generation
}.

Record ExpertTarget := {
  et_project : string;
  et_pod : string;
  et_generation : Generation;
  et_level : ExpertLevel;
  et_base_model : BaseModelRef;
  et_manifest_digest : Digest;
  et_state : ExpertState;
  et_state_version : N
}.

Record ProposerRef := {
  pp_project : string;
  pp_pod : string;
  pp_proposer_generation : Generation
}.

#[export] Instance ExpertPodSpec_eq_dec : EqDecision ExpertPodSpec.
Proof. solve_decision. Defined.
#[export] Instance ResultIntent_eq_dec : EqDecision ResultIntent.
Proof. solve_decision. Defined.
#[export] Instance ExpertTarget_eq_dec : EqDecision ExpertTarget.
Proof. solve_decision. Defined.
#[export] Instance ProposerRef_eq_dec : EqDecision ProposerRef.
Proof. solve_decision. Defined.

(** What all four constructors check. *)
Definition check_identity (project pod : string) (generation : Generation) :
  result ExpertIdentityError unit :=
  check_project_id project ;? check_pod_id pod ;? check_generation generation.

Definition ExpertPodSpec_new (project pod : string) (manifest_digest : Digest) (level : ExpertLevel)
    (base_model : BaseModelRef) (generation : Generation) : result ExpertIdentityError ExpertPodSpec :=
  check_identity project pod generation ;?
  Ok {| es_project := project; es_pod := pod; es_manifest_digest := manifest_digest;
        es_level := level; es_base_model := base_model; es_generation := generation |}.

Definition ResultIntent_new (project pod : string) (level : ExpertLevel)
    (base_model : BaseModelRef) (generation : Generation) : result ExpertIdentityError ResultIntent :=
  check_identity project pod generation ;?
  Ok {| ri_project := project; ri_pod := pod; ri_level := level; ri_base_model := base_model;
        ri_generation := generation |}.

Definition ExpertTarget_new (init : ExpertTarget) : result ExpertIdentityError ExpertTarget :=
  check_identity (et_project init) (et_pod init) (et_generation init) ;? Ok init.

Definition ProposerRef_new (project pod : string) (generation : Generation) :
  result ExpertIdentityError ProposerRef :=
  check_identity project pod generation ;?
  Ok {| pp_project := project; pp_pod := pod; pp_proposer_generation := generation |}.

(** A specification without the digest that training produces. *)
Definition intent (s : ExpertPodSpec) : ResultIntent :=
  {| ri_project := es_project s; ri_pod := es_pod s; ri_level := es_level s;
     ri_base_model := es_base_model s; ri_generation := es_generation s |}.

(** ** Operations *)
Inductive Operation (R : Type) :=
| Birth (result : R)
| Merge (sources : list ExpertTarget) (result : R)
| Split (source : ExpertTarget) (results : list R)
| Freeze (target : ExpertTarget)
| Reactivate (target : ExpertTarget) (result : option R)
| Prune (targets : list ExpertTarget)
| RetireOp (target : ExpertTarget) (reason : RetiredReason).
Arguments Birth {R} result.
Arguments Merge {R} sources result.
Arguments Split {R} source results.
Arguments Freeze {R} target.
Arguments Reactivate {R} target result.
Arguments Prune {R} targets.
Arguments RetireOp {R} target reason.

Definition StructuralOp : Type := Operation ExpertPodSpec.
Definition RequestedOp : Type := Operation ResultIntent.

#[export] Instance Operation_eq_dec {R} `{EqDecision R} : EqDecision (Operation R).
Proof. solve_decision. Defined.
#[export] Instance StructuralOp_eq_dec : EqDecision StructuralOp.
Proof. unfold StructuralOp. apply _. Defined.

Definition op_kind {R} (op : Operation R) : OpKind :=
  match op with
  | Birth _ => Kind_Birth
  | Merge _ _ => Kind_Merge
  | Split _ _ => Kind_Split
  | Freeze _ => Kind_Freeze
  | Reactivate _ _ => Kind_Reactivate
  | Prune _ => Kind_Prune
  | RetireOp _ _ => Kind_Retire
  end.

Definition sources {R} (op : Operation R) : list ExpertTarget :=
  match op with
  | Birth _ => []
  | Merge sources _ => sources
  | Split target _ | Freeze target | Reactivate target _ | RetireOp target _ => [target]
  | Prune targets => targets
  end.

Definition results {R} (op : Operation R) : list R :=
  match op with
  | Birth result | Merge _ result => [result]
  | Split _ results => results
  | Reactivate _ result => option_list result
  | Freeze _ | Prune _ | RetireOp _ _ => []
  end.

Definition from_structural (op : StructuralOp) : RequestedOp :=
  match op with
  | Birth result => Birth (intent result)
  | Merge sources result => Merge sources (intent result)
  | Split source results => Split source (intent <$> results)
  | Freeze target => Freeze target
  | Reactivate target result => Reactivate target (intent <$> result)
  | Prune targets => Prune targets
  | RetireOp target reason => RetireOp target reason
  end.

(** ** The state an admitted operation leaves behind *)
Inductive OutcomeKind := Outcome_Operand | Outcome_Result.

Record ExpertOutcome := {
  eo_kind : OutcomeKind;
  eo_pod : string;
  eo_generation : Generation;
  eo_level : ExpertLevel;
  eo_base_model : BaseModelRef;
  eo_manifest_digest : Digest;
  eo_state : ExpertState;
  eo_state_version : N
}.

Definition operand_state (op : StructuralOp) : option ExpertState :=
  match op with
  | Birth _ => None
  | Merge _ _ | Split _ _ => Some State_Superseded
  | Freeze _ => Some State_Frozen
  | Reactivate target _ =>
      match et_state target with
      | State_Retired _ => None
      | _ => Some State_Serving
      end
  | Prune _ => Some (State_Retired Reason_Pruned)
  | RetireOp _ reason => Some (State_Retired reason)
  end.

Definition operand_outcome (state : ExpertState) (source : ExpertTarget) : ExpertOutcome :=
  {| eo_kind := Outcome_Operand; eo_pod := et_pod source; eo_generation := et_generation source;
     eo_level := et_level source; eo_base_model := et_base_model source;
     eo_manifest_digest := et_manifest_digest source; eo_state := state;
     eo_state_version := saturating_add_u64 (et_state_version source) 1 |}.

Definition result_outcome (result : ExpertPodSpec) : ExpertOutcome :=
  {| eo_kind := Outcome_Result; eo_pod := es_pod result; eo_generation := es_generation result;
     eo_level := es_level result; eo_base_model := es_base_model result;
     eo_manifest_digest := es_manifest_digest result; eo_state := State_Serving;
     eo_state_version := 1 |}.

Definition outcomes (op : StructuralOp) : list ExpertOutcome :=
  match operand_state op with
  | Some state => operand_outcome state <$> sources op
  | None => []
  end ++ (result_outcome <$> results op).

(** ** Errors *)
Inductive OperandCount :=
| Exactly (k : nat)
| AtLeast (k : nat).

Definition accepts (c : OperandCount) (n : nat) : bool :=
  match c with
  | Exactly k => (n =? k)%nat
  | AtLeast k => (k <=? n)%nat
  end.

Inductive ExpertProposalError :=
| Proposal_BlankProject
| Proposal_NonCanonicalProject
| ProposerProjectMismatch (expected found : string)
| WrongSourceCount (op : OpKind) (expected : OperandCount) (found : nat)
| WrongResultCount (op : OpKind) (expected : OperandCount) (found : nat)
| MixedProjects (expected found : string)
| FencedTarget (op : OpKind) (pod : string)
| WrongTargetState (op : OpKind) (pod : string) (state : ExpertState)
| DuplicateTarget (pod : string) (generation : Generation)
| MultipleGenerations (pod : string) (first second : Generation)
| NotTokenLevel (op : OpKind)
| MixedLevels
| MixedBaseModels
| MixedStates
| SeedUnavailable (pod : string) (reason : RetiredReason)
| ReasonNotProposable (reason : RetiredReason)
| MissingResult (op : OpKind)
| UnexpectedResult (op : OpKind)
| ResultPodIsSource (pod : string)
| ResultNotSameExpert (expected found : string)
| FreshResultGeneration (pod : string) (found : Generation)
| ResultGenerationNotNext (pod : string) (result : Generation) (expected : option Generation)
| ResultBaseModelMismatch (pod : string)
| ResultLevelMismatch (pod : string)
| DuplicateResult (pod : string)
| DuplicateResultSlot (layer index : N)
| DuplicateSourceSlot (layer index : N)
| Identity (error : ExpertIdentityError)
| MalformedRecord (reason : string).

Abbreviation checked := (result ExpertProposalError unit).

(** [for x in l { f(x)? }]. *)
Fixpoint each {A} (f : A → checked) (l : list A) : checked :=
  match l with
  | [] => Ok tt
  | a :: l => f a ;? each f l
  end.

(** [Iterator::find]. *)
Fixpoint find_first {A} (p : A → bool) (l : list A) : option A :=
  match l with
  | [] => None
  | a :: l => if p a then Some a else find_first p l
  end.

(** ** Rules 1 and 2: the header *)
Definition check_proposal_header (project : string) (proposer : ProposerRef) : checked :=
  match check_project_id project with
  | Ok _ => Ok tt
  | Err BlankProject => Err Proposal_BlankProject
  | Err _ => Err Proposal_NonCanonicalProject
  end ;?
  if negb (bool_decide (pp_project proposer = project))
  then Err (ProposerProjectMismatch project (pp_project proposer)) else Ok tt.

(** ** Rule 3: operand counts *)
Definition count_sources (op : OpKind) (sources : list ExpertTarget) (expected : OperandCount) : checked :=
  if accepts expected (length sources) then Ok tt
  else Err (WrongSourceCount op expected (length sources)).
Definition check_source_counts (kind : OpKind) (sources : list ExpertTarget) : checked :=
  match kind with
  | Kind_Merge => count_sources kind sources (AtLeast 2)
  | Kind_Prune => count_sources kind sources (AtLeast 1)
  | Kind_Birth | Kind_Split | Kind_Freeze | Kind_Reactivate | Kind_Retire => Ok tt
  end.
Definition check_result_counts {R} (op : Operation R) : checked :=
  match op with
  | Split _ rs =>
      if accepts (AtLeast 2) (length rs) then Ok tt
      else Err (WrongResultCount Kind_Split (AtLeast 2) (length rs))
  | _ => Ok tt
  end.

(** ** Rule 4: projects *)
Definition check_projects (projects : list string) (project : string) : checked :=
  match find_first (λ p, negb (bool_decide (p = project))) projects with
  | Some found => Err (MixedProjects project found)
  | None => Ok tt
  end.
Definition check_source_projects (sources : list ExpertTarget) (project : string) : checked :=
  check_projects (et_project <$> sources) project.

(** ** Rule 5: states *)
Definition check_source_states (kind : OpKind) (sources : list ExpertTarget) : checked :=
  match kind, head sources with
  | Kind_Reactivate, Some target =>
      match et_state target with
      | State_Retired reason =>
          if negb (bool_decide (reason = Reason_GateFailed))
          then Err (SeedUnavailable (et_pod target) reason) else Ok tt
      | _ => Ok tt
      end
  | _, _ => Ok tt
  end ;?
  match find_first (λ t, bool_decide (et_state t = State_Fenced)) sources with
  | Some target => Err (FencedTarget kind (et_pod target))
  | None => Ok tt
  end ;?
  match find_first (λ t, negb (allows_state kind (et_state t))) sources with
  | Some target => Err (WrongTargetState kind (et_pod target) (et_state target))
  | None => Ok tt
  end.

(** ** Rule 6: structure *)
Definition require_token_level (op : OpKind) (sources : list ExpertTarget) : checked :=
  if existsb (λ t, bool_decide (et_level t = Segment)) sources
  then Err (NotTokenLevel op) else Ok tt.

Fixpoint check_unique_from (seen : gmap (string * string) Generation) (sources : list ExpertTarget) : checked :=
  match sources with
  | [] => Ok tt
  | target :: rest =>
      match seen !! (et_project target, et_pod target) with
      | Some first =>
          Err (if (first =? et_generation target)%N
               then DuplicateTarget (et_pod target) (et_generation target)
               else MultipleGenerations (et_pod target) first (et_generation target))
      | None =>
          check_unique_from (<[(et_project target, et_pod target) := et_generation target]> seen) rest
      end
  end.
Definition check_unique (sources : list ExpertTarget) : checked := check_unique_from ∅ sources.

(** Distinct Token slots, among sources and among results. *)
Fixpoint check_slots_from (error : N → N → ExpertProposalError) (seen : gset (N * N))
    (levels : list ExpertLevel) : checked :=
  match levels with
  | [] => Ok tt
  | Token layer index :: rest =>
      if bool_decide ((layer, index) ∈ seen) then Err (error layer index)
      else check_slots_from error ({[(layer, index)]} ∪ seen) rest
  | Segment :: rest => check_slots_from error seen rest
  end.
Definition check_distinct_slots (sources : list ExpertTarget) : checked :=
  check_slots_from DuplicateSourceSlot ∅ (et_level <$> sources).

(** [sources[0]] of the next three: the counts were checked, so there is one. *)
Definition check_same_layer (sources : list ExpertTarget) : checked :=
  match head sources with
  | Some first =>
      if existsb (λ t, negb (compatible_with (et_level t) (et_level first))) sources
      then Err MixedLevels else Ok tt
  | None => Ok tt
  end.
Definition check_same_base (sources : list ExpertTarget) : checked :=
  match head sources with
  | Some first =>
      if existsb (λ t, negb (bool_decide (et_base_model t = et_base_model first))) sources
      then Err MixedBaseModels else Ok tt
  | None => Ok tt
  end.
Definition check_same_state (sources : list ExpertTarget) : checked :=
  match head sources with
  | Some first =>
      if existsb (λ t, negb (bool_decide (et_state t = et_state first))) sources
      then Err MixedStates else Ok tt
  | None => Ok tt
  end.

Definition check_source_structure (kind : OpKind) (sources : list ExpertTarget)
    (reason : option RetiredReason) : checked :=
  match kind with
  | Kind_Merge =>
      require_token_level kind sources ;? check_unique sources ;? check_same_layer sources ;?
      check_same_base sources ;? check_distinct_slots sources ;? check_same_state sources
  | Kind_Prune =>
      require_token_level kind sources ;? check_unique sources ;? check_same_layer sources ;?
      check_same_base sources ;? check_distinct_slots sources
  | Kind_Retire =>
      match reason with
      | Some (Reason_Superseded | Reason_GateFailed) | None => Ok tt
      | Some ((Reason_Pruned | Reason_InputRevoked) as reason) => Err (ReasonNotProposable reason)
      end
  | Kind_Birth | Kind_Split | Kind_Freeze | Kind_Reactivate => Ok tt
  end.

Definition check_reactivation (op : RequestedOp) : checked :=
  match op with
  | Reactivate target result =>
      match et_state target, result with
      | State_Retired _, None => Err (MissingResult Kind_Reactivate)
      | State_Frozen, Some _ => Err (UnexpectedResult Kind_Reactivate)
      | _, _ => Ok tt
      end
  | _ => Ok tt
  end.

(** ** Rule 7: what a result must be *)
Definition check_result_identity (kind : OpKind) (sources : list ExpertTarget) (result : ResultIntent) : checked :=
  match kind with
  | Kind_Reactivate =>
      match head sources with
      | Some source =>
          if negb (bool_decide (ri_pod result = et_pod source))
          then Err (ResultNotSameExpert (et_pod source) (ri_pod result)) else
          let expected := checked_add_u64 (et_generation source) 1 in
          if negb (bool_decide (expected = Some (ri_generation result)))
          then Err (ResultGenerationNotNext (ri_pod result) (ri_generation result) expected) else Ok tt
      | None => Ok tt
      end
  | Kind_Merge | Kind_Split =>
      if existsb (λ t, bool_decide (et_pod t = ri_pod result)) sources
      then Err (ResultPodIsSource (ri_pod result)) else Ok tt
  | Kind_Birth | Kind_Freeze | Kind_Prune | Kind_Retire => Ok tt
  end.
Definition fresh_kind (kind : OpKind) : bool :=
  match kind with
  | Kind_Birth | Kind_Merge | Kind_Split => true
  | Kind_Freeze | Kind_Reactivate | Kind_Prune | Kind_Retire => false
  end.
Definition result_level_ok (kind : OpKind) (result first : ExpertLevel) : bool :=
  match kind with
  | Kind_Reactivate => bool_decide (result = first)
  | _ => compatible_with result first
  end.
Definition check_result (kind : OpKind) (sources : list ExpertTarget) (result : ResultIntent) : checked :=
  check_result_identity kind sources result ;?
  if fresh_kind kind && negb (ri_generation result =? 1)%N
  then Err (FreshResultGeneration (ri_pod result) (ri_generation result)) else
  match head sources with
  | Some first =>
      if existsb (λ t, negb (bool_decide (et_base_model t = ri_base_model result))) sources
      then Err (ResultBaseModelMismatch (ri_pod result)) else
      if negb (result_level_ok kind (ri_level result) (et_level first))
      then Err (ResultLevelMismatch (ri_pod result)) else Ok tt
  | None => Ok tt
  end.

(** ** Rule 8: distinct results *)
Fixpoint check_result_pods (seen : gset string) (results : list ResultIntent) : checked :=
  match results with
  | [] => Ok tt
  | r :: rest =>
      if bool_decide (ri_pod r ∈ seen) then Err (DuplicateResult (ri_pod r))
      else check_result_pods ({[ri_pod r]} ∪ seen) rest
  end.

Definition retire_reason {R} (op : Operation R) : option RetiredReason :=
  match op with
  | RetireOp _ reason => Some reason
  | _ => None
  end.

(** Rules 3 to 8, in order. *)
Definition validate_requested (op : RequestedOp) (project : string) : checked :=
  let kind := op_kind op in
  check_source_counts kind (sources op) ;?
  check_result_counts op ;?
  check_source_projects (sources op) project ;?
  check_projects (ri_project <$> results op) project ;?
  check_source_states kind (sources op) ;?
  check_source_structure kind (sources op) (retire_reason op) ;?
  check_reactivation op ;?
  each (check_result kind (sources op)) (results op) ;?
  check_result_pods ∅ (results op) ;?
  check_slots_from DuplicateResultSlot ∅ (ri_level <$> results op).

(** ** Proposals and requests *)
Record ExpertProposal := {
  ep_project : string;
  ep_proposer : ProposerRef;
  ep_observed_at : CommitIndex;
  ep_op : StructuralOp;
  ep_rationale : Digest
}.

Record ExpertOperationRequest := {
  eor_project : string;
  eor_proposer : ProposerRef;
  eor_observed_at : CommitIndex;
  eor_op : RequestedOp;
  eor_rationale : Digest
}.

#[export] Instance ExpertProposal_eq_dec : EqDecision ExpertProposal.
Proof. solve_decision. Defined.

Definition ExpertOperationRequest_new (project : string) (proposer : ProposerRef)
    (observed_at : CommitIndex) (op : RequestedOp) (rationale : Digest) :
  result ExpertProposalError ExpertOperationRequest :=
  check_proposal_header project proposer ;?
  validate_requested op project ;?
  Ok {| eor_project := project; eor_proposer := proposer; eor_observed_at := observed_at;
        eor_op := op; eor_rationale := rationale |}.

Definition ExpertProposal_new (project : string) (proposer : ProposerRef)
    (observed_at : CommitIndex) (op : StructuralOp) (rationale : Digest) :
  result ExpertProposalError ExpertProposal :=
  check_proposal_header project proposer ;?
  validate_requested (from_structural op) project ;?
  Ok {| ep_project := project; ep_proposer := proposer; ep_observed_at := observed_at;
        ep_op := op; ep_rationale := rationale |}.

Definition creates_new_generation (p : ExpertProposal) : bool :=
  negb (bool_decide (results (ep_op p) = [])).

Definition operation_request (p : ExpertProposal) : ExpertOperationRequest :=
  {| eor_project := ep_project p; eor_proposer := ep_proposer p;
     eor_observed_at := ep_observed_at p; eor_op := from_structural (ep_op p);
     eor_rationale := ep_rationale p |}.
