(* ===== verification/ExpertFacts.v ===== *)
(** * What the rules for structural operations accept

    The rules of [validate_requested] are checked in a fixed order so that
    errors are deterministic.  [ValidOp] states without order what a well-formed
    operation is; the two agree.  From it follow the facts the registry and the
    projection rely on: which states an operand can be in, and that one
    operation leaves no expert in two states. *)

From S2P Require Import Prelude Bytes Text Types ExpertOps.
From stdpp Require Import options.

(** ** The reference definition *)
Definition token_slot (level : ExpertLevel) : option (N * N) :=
  match level with
  | Token layer index => Some (layer, index)
  | Segment => None
  end.

(** Experts of one Token layer, on one base model, in different slots. *)
Definition cohort (layer : N) (base : BaseModelRef) (ts : list ExpertTarget) : Prop :=
  Forall (λ t, (∃ index, et_level t = Token layer index) ∧ et_base_model t = base) ts ∧
  NoDup (et_pod <$> ts) ∧ NoDup (omap token_slot (et_level <$> ts)).

(** A new expert on a base model, for the level of the experts it comes from. *)
Definition descends (base : BaseModelRef) (level : ExpertLevel) (pods : list string) (r : ResultIntent) : Prop :=
  ri_generation r = 1%N ∧ ri_base_model r = base ∧ compatible_with (ri_level r) level = true ∧
  ri_pod r ∉ pods.

Definition ValidShape (op : RequestedOp) : Prop :=
  match op with
  | Birth r => ri_generation r = 1%N
  | Merge ts r =>
      2 ≤ length ts ∧ ∃ layer base state,
        cohort layer base ts ∧ Forall (λ t, et_state t = state) ts ∧
        descends base (Token layer 0) (et_pod <$> ts) r
  | Split t rs =>
      2 ≤ length rs ∧
      Forall (descends (et_base_model t) (et_level t) [et_pod t]) rs ∧
      NoDup (ri_pod <$> rs) ∧ NoDup (omap token_slot (ri_level <$> rs))
  | Freeze _ => True
  | Reactivate t None => et_state t = State_Frozen
  | Reactivate t (Some r) =>
      et_state t = State_Retired Reason_GateFailed ∧ ri_pod r = et_pod t ∧
      ri_generation r = (et_generation t + 1)%N ∧ (ri_generation r < 2 ^ 64)%N ∧
      ri_base_model r = et_base_model t ∧ ri_level r = et_level t
  | Prune ts => 1 ≤ length ts ∧ ∃ layer base, cohort layer base ts
  | RetireOp _ reason => reason = Reason_Superseded ∨ reason = Reason_GateFailed
  end.

Record ValidOp (op : RequestedOp) (project : string) : Prop := {
  vo_sources : Forall (λ t, et_project t = project) (sources op);
  vo_results : Forall (λ r, ri_project r = project) (results op);
  vo_states : Forall (λ t, allows_state (op_kind op) (et_state t) = true) (sources op);
  vo_shape : ValidShape op
}.

(** ** Each check, without its order *)
Lemma then_ok {E} (m k : result E unit) : (m ;? k) = Ok tt ↔ m = Ok tt ∧ k = Ok tt.
Proof. destruct m as [[]|]; cbn; naive_solver. Qed.
Lemma guard_ok {E} (b : bool) (e : E) : (if b then Err e else Ok tt) = Ok tt ↔ b = false.
Proof. by destruct b. Qed.
Lemma guard_else_ok {E} (b : bool) (e : E) : (if b then Ok tt else Err e) = Ok tt ↔ b = true.
Proof. by destruct b. Qed.

Lemma each_ok {A} (f : A → checked) l : each f l = Ok tt ↔ Forall (λ a, f a = Ok tt) l.
Proof.
  induction l as [|a l IH]; cbn [each]; [by rewrite Forall_nil|].
  by rewrite then_ok, Forall_cons, IH.
Qed.
Lemma find_first_none {A} (p : A → bool) l : find_first p l = None ↔ Forall (λ a, p a = false) l.
Proof.
  induction l as [|a l IH]; cbn [find_first]; [by rewrite Forall_nil|].
  rewrite Forall_cons, <-IH. destruct (p a); naive_solver.
Qed.
Lemma found_ok {A} (p : A → bool) l (e : A → ExpertProposalError) :
  match find_first p l with Some a => Err (e a) | None => Ok tt end = Ok tt ↔
  Forall (λ a, p a = false) l.
Proof. rewrite <-find_first_none. destruct (find_first p l); naive_solver. Qed.
Lemma existsb_none {A} (p : A → bool) l : existsb p l = false ↔ Forall (λ a, p a = false) l.
Proof.
  induction l as [|a l IH]; cbn [existsb]; [by rewrite Forall_nil|].
  by rewrite orb_false_iff, Forall_cons, IH.
Qed.
Lemma Forall_decided {A} (P : A → Prop) `{∀ a, Decision (P a)} (l : list A) :
  Forall (λ a, negb (bool_decide (P a)) = false) l ↔ Forall P l.
Proof. apply Forall_iff. intros a. by rewrite negb_false_iff, bool_decide_eq_true. Qed.

Lemma check_projects_ok ps project : check_projects ps project = Ok tt ↔ Forall (λ p, p = project) ps.
Proof. unfold check_projects. by rewrite found_ok, Forall_decided. Qed.

(** The table decides: the seed and the fence are only reported first. *)
Lemma check_source_states_ok kind ts :
  check_source_states kind ts = Ok tt ↔ Forall (λ t, allows_state kind (et_state t) = true) ts.
Proof.
  unfold check_source_states. rewrite !then_ok, !found_ok. split.
  - intros (_ & _ & H). eapply Forall_impl; [exact H|]. intros t Ht. by apply negb_false_iff.
  - intros H. split_and!.
    + destruct kind; try done. destruct ts as [|t ts]; [done|]. cbn [head].
      apply Forall_cons in H as [Ht _]. destruct (et_state t) as [| | | | | |[]]; done.
    + eapply Forall_impl; [exact H|]. intros t Ht. cbn beta in *. apply bool_decide_eq_false. intros Hf.
      rewrite Hf in Ht. by destruct kind.
    + eapply Forall_impl; [exact H|]. intros t Ht. cbn beta in *. by rewrite Ht.
Qed.

Lemma check_unique_from_ok ts : ∀ seen, check_unique_from seen ts = Ok tt ↔
  NoDup ((λ t, (et_project t, et_pod t)) <$> ts) ∧
  Forall (λ t, seen !! (et_project t, et_pod t) = None) ts.
Proof.
  induction ts as [|t ts IH]; intros seen; [split; [by repeat constructor|done]|].
  cbn [check_unique_from fmap list_fmap]. rewrite NoDup_cons, Forall_cons.
  destruct (seen !! _) eqn:Hs; [naive_solver|]. rewrite IH. split.
  - intros [Hn Hf]. rewrite Forall_forall in Hf. split_and!; [|done|done|].
    + intros (u & He & Hu)%list_elem_of_fmap. specialize (Hf u Hu). rewrite <-He in Hf.
      by rewrite lookup_insert_eq in Hf.
    + apply Forall_forall. intros u Hu. specialize (Hf u Hu). by apply lookup_insert_None in Hf as [? _].
  - intros ([Hn Hd] & _ & Hf). split; [done|]. rewrite Forall_forall in *. intros u Hu.
    apply lookup_insert_None. split; [by apply Hf|]. intros He. apply Hn.
    rewrite He. apply list_elem_of_fmap. by exists u.
Qed.
Lemma check_unique_ok project ts :
  Forall (λ t, et_project t = project) ts →
  check_unique ts = Ok tt ↔ NoDup (et_pod <$> ts).
Proof.
  intros Hp. unfold check_unique. rewrite check_unique_from_ok.
  assert ((λ t, (et_project t, et_pod t)) <$> ts = pair project <$> (et_pod <$> ts)) as ->.
  { rewrite <-list_fmap_compose. apply list_fmap_ext. intros i t Ht. cbn.
    by rewrite (Forall_lookup_1 _ _ _ _ Hp Ht). }
  rewrite (NoDup_fmap (pair project)). rewrite Forall_forall. naive_solver.
Qed.

Lemma check_slots_from_ok error levels : ∀ seen, check_slots_from error seen levels = Ok tt ↔
  NoDup (omap token_slot levels) ∧ Forall (λ s, s ∉ seen) (omap token_slot levels).
Proof.
  induction levels as [|[layer index|] levels IH]; intros seen; cbn [check_slots_from omap list_omap token_slot].
  - split; [by repeat constructor|done].
  - rewrite NoDup_cons, Forall_cons. case_bool_decide as Hs; [naive_solver|]. rewrite IH.
    rewrite !Forall_forall. set_solver.
  - apply IH.
Qed.
Lemma check_slots_ok error levels :
  check_slots_from error ∅ levels = Ok tt ↔ NoDup (omap token_slot levels).
Proof. rewrite check_slots_from_ok, Forall_forall. set_solver. Qed.

Lemma check_result_pods_ok rs : ∀ seen, check_result_pods seen rs = Ok tt ↔
  NoDup (ri_pod <$> rs) ∧ Forall (λ p, p ∉ seen) (ri_pod <$> rs).
Proof.
  induction rs as [|r rs IH]; intros seen; cbn [check_result_pods fmap list_fmap];
    [split; [by repeat constructor|done]|].
  rewrite NoDup_cons, Forall_cons. case_bool_decide as Hs; [naive_solver|]. rewrite IH.
  rewrite !Forall_forall. set_solver.
Qed.
Lemma check_result_pods_nodup rs : check_result_pods ∅ rs = Ok tt ↔ NoDup (ri_pod <$> rs).
Proof. rewrite check_result_pods_ok, Forall_forall. set_solver. Qed.

(** ** Structure *)
Lemma same_head_ok {A} (f : ExpertTarget → A) `{EqDecision A} (e : ExpertProposalError) t ts :
  (if existsb (λ u, negb (bool_decide (f u = f t))) (t :: ts) then Err e else Ok tt) = Ok tt ↔
  Forall (λ u, f u = f t) (t :: ts).
Proof. by rewrite guard_ok, existsb_none, Forall_decided. Qed.

Lemma compatible_token level layer : compatible_with level (Token layer 0) = true ↔ ∃ index, level = Token layer index.
Proof. destruct level; cbn; [rewrite N.eqb_eq|]; naive_solver. Qed.
Lemma compatible_same_layer level layer i j :
  compatible_with level (Token layer i) = compatible_with level (Token layer j).
Proof. by destruct level. Qed.

Lemma cohort_ok kind project ts :
  ts ≠ [] → Forall (λ t, et_project t = project) ts →
  require_token_level kind ts = Ok tt ∧ check_unique ts = Ok tt ∧ check_same_layer ts = Ok tt ∧
  check_same_base ts = Ok tt ∧ check_distinct_slots ts = Ok tt ↔
  ∃ layer base, cohort layer base ts.
Proof.
  intros Hne Hp. rewrite (check_unique_ok project) by done.
  unfold check_distinct_slots. rewrite check_slots_ok. unfold cohort, require_token_level.
  rewrite guard_ok, existsb_none. destruct ts as [|t ts]; [done|].
  unfold check_same_base, check_same_layer. cbn [head].
  rewrite same_head_ok, guard_ok, existsb_none. split.
  - intros (Htok & Hu & Hl & Hb & Hs).
    pose proof (Forall_inv Htok) as Ht. cbn beta in Ht. apply bool_decide_eq_false in Ht.
    destruct (et_level t) as [layer index|] eqn:Hlev; [|done].
    exists layer, (et_base_model t). split; [|done]. rewrite Forall_forall in *.
    intros u Hin. split; [|by apply Hb]. specialize (Hl u Hin). cbn beta in Hl.
    apply negb_false_iff in Hl. rewrite (compatible_same_layer _ _ index 0) in Hl.
    by apply compatible_token.
  - intros (layer & base & Hf & Hu & Hs). pose proof (Forall_inv Hf) as [[index Ht] Hb].
    rewrite Forall_forall in Hf. split_and!; try done; apply Forall_forall; intros u Hin;
      destruct (Hf u Hin) as [[i Hi] Hbu]; rewrite ?Hi, ?Ht, ?Hbu, ?Hb; cbn; rewrite ?N.eqb_refl; done.
Qed.

Lemma same_state_ok ts :
  ts ≠ [] → check_same_state ts = Ok tt ↔ ∃ state, Forall (λ t, et_state t = state) ts.
Proof.
  intros Hne. destruct ts as [|t ts]; [done|]. unfold check_same_state. cbn [head].
  rewrite same_head_ok. split; [by exists (et_state t)|].
  intros [state H]. pose proof (Forall_inv H) as Ht. cbn beta in Ht. by rewrite Ht.
Qed.

Lemma base_mismatch_ok ts (r : ResultIntent) :
  existsb (λ t, negb (bool_decide (et_base_model t = ri_base_model r))) ts = false ↔
  Forall (λ t, et_base_model t = ri_base_model r) ts.
Proof. by rewrite existsb_none, Forall_decided. Qed.

(** A result of a merge or a split. *)
Lemma check_fresh_result kind t ts r :
  kind = Kind_Merge ∨ kind = Kind_Split →
  check_result kind (t :: ts) r = Ok tt ↔
  ri_pod r ∉ et_pod <$> (t :: ts) ∧ ri_generation r = 1%N ∧
  Forall (λ u, et_base_model u = ri_base_model r) (t :: ts) ∧
  compatible_with (ri_level r) (et_level t) = true.
Proof.
  intros Hk. unfold check_result. rewrite then_ok.
  assert (check_result_identity kind (t :: ts) r = Ok tt ↔ ri_pod r ∉ et_pod <$> (t :: ts)) as ->.
  { destruct Hk as [-> | ->]; unfold check_result_identity; rewrite guard_ok, existsb_none;
      rewrite Forall_forall, list_elem_of_fmap; setoid_rewrite bool_decide_eq_false; naive_solver. }
  assert (fresh_kind kind = true) as -> by (destruct Hk; by subst).
  assert (result_level_ok kind (ri_level r) (et_level t) = compatible_with (ri_level r) (et_level t)) as Hl
    by (destruct Hk; by subst).
  cbn [head andb]. rewrite Hl, <-base_mismatch_ok.
  destruct (ri_generation r =? 1)%N eqn:Hg; bool_prop; cbn [negb]; [|naive_solver].
  destruct (existsb _ _); [naive_solver|]. destruct (compatible_with _ _); naive_solver.
Qed.

(** A reactivation's result. *)
Lemma check_reactivated t r :
  check_result Kind_Reactivate [t] r = Ok tt ↔
  ri_pod r = et_pod t ∧ ri_generation r = (et_generation t + 1)%N ∧ (ri_generation r < 2 ^ 64)%N ∧
  ri_base_model r = et_base_model t ∧ ri_level r = et_level t.
Proof.
  unfold check_result, check_result_identity, checked_add_u64, fresh_kind, result_level_ok.
  cbn [head existsb andb]. rewrite then_ok. split.
  - intros [H1 H2]. repeat case_bool_decide; simplify_eq/=; try done.
    destruct (et_generation t + 1 <? 2 ^ 64)%N eqn:Hlt; simplify_eq. bool_prop.
    split_and!; congruence || lia.
  - intros (-> & Hg & Hlt & -> & ->). rewrite <-Hg, (proj2 (N.ltb_lt _ _) Hlt).
    by rewrite !bool_decide_eq_true_2.
Qed.

(** ** The shape of each operation *)
Definition shape_checks (op : RequestedOp) : Prop :=
  check_source_counts (op_kind op) (sources op) = Ok tt ∧
  check_result_counts op = Ok tt ∧
  check_source_structure (op_kind op) (sources op) (retire_reason op) = Ok tt ∧
  check_reactivation op = Ok tt ∧
  Forall (λ r, check_result (op_kind op) (sources op) r = Ok tt) (results op) ∧
  NoDup (ri_pod <$> results op) ∧ NoDup (omap token_slot (ri_level <$> results op)).

Lemma NoDup_omap_one {A B} (f : A → option B) a : NoDup (omap f [a]).
Proof. cbn. destruct (f a); repeat constructor; set_solver. Qed.

Lemma merge_shape project ts r :
  Forall (λ t, et_project t = project) ts → shape_checks (Merge ts r) ↔ ValidShape (Merge ts r).
Proof.
  intros Hp. unfold shape_checks, ValidShape.
  cbn [op_kind sources results retire_reason check_source_counts check_result_counts
       check_source_structure check_reactivation].
  unfold count_sources, accepts. rewrite guard_else_ok, Nat.leb_le, !then_ok.
  destruct ts as [|t ts]; [naive_solver lia|].
  pose proof (cohort_ok Kind_Merge project (t :: ts) ltac:(done) Hp) as Hc.
  pose proof (same_state_ok (t :: ts) ltac:(done)) as Hs.
  rewrite Forall_singleton, (check_fresh_result Kind_Merge) by auto. unfold descends. split.
  - intros (Hlen & _ & (H1 & H2 & H3 & H4 & H5 & H6) & _ & (Hpod & Hg & Hb & Hl) & _).
    destruct (proj1 Hc) as (layer & base & Hco); [done|]. destruct (proj1 Hs H6) as [state Hst].
    split; [done|]. exists layer, base, state. split; [done|]. split; [done|].
    destruct Hco as [Hall _]. pose proof (Forall_inv Hall) as [[i Hi] Hbt].
    pose proof (Forall_inv Hb) as Hbr. cbn beta in Hbr. rewrite Hi in Hl.
    rewrite (compatible_same_layer _ _ i 0) in Hl. split_and!; congruence || done.
  - intros (Hlen & layer & base & state & Hco & Hst & Hg & Hb & Hl & Hpod).
    assert (∃ layer base, cohort layer base (t :: ts)) as Hex by eauto.
    apply Hc in Hex as (?&?&?&?&?). split_and!; try done; [by apply Hs; exists state| | | |].
    + destruct Hco as [Hall _]. eapply Forall_impl; [exact Hall|]. intros u [_ Hu]. congruence.
    + destruct Hco as [Hall _]. pose proof (Forall_inv Hall) as [[i Hi] _]. rewrite Hi.
      by rewrite (compatible_same_layer _ _ i 0).
    + repeat constructor. set_solver.
    + apply NoDup_omap_one.
Qed.

Lemma prune_shape project ts :
  Forall (λ t, et_project t = project) ts → shape_checks (Prune ts) ↔ ValidShape (Prune ts).
Proof.
  intros Hp. unfold shape_checks, ValidShape.
  cbn [op_kind sources results retire_reason check_source_counts check_result_counts
       check_source_structure check_reactivation].
  unfold count_sources, accepts. rewrite guard_else_ok, Nat.leb_le, !then_ok.
  destruct ts as [|t ts]; [naive_solver lia|].
  pose proof (cohort_ok Kind_Prune project (t :: ts) ltac:(done) Hp) as Hc. split.
  - intros (Hlen & _ & H & _). split; [done|]. by apply Hc.
  - intros (Hlen & H). split_and!; try done; try (apply Hc; done); constructor.
Qed.

Lemma split_shape t rs : shape_checks (Split t rs) ↔ ValidShape (Split t rs).
Proof.
  unfold shape_checks, ValidShape.
  cbn [op_kind sources results retire_reason check_source_counts check_result_counts
       check_source_structure check_reactivation].
  unfold accepts. rewrite guard_else_ok, Nat.leb_le.
  assert (Forall (λ r, check_result Kind_Split [t] r = Ok tt) rs ↔
          Forall (descends (et_base_model t) (et_level t) [et_pod t]) rs) as ->; [|naive_solver].
  apply Forall_iff. intros r. rewrite (check_fresh_result Kind_Split) by auto. unfold descends.
  rewrite Forall_singleton. naive_solver.
Qed.

Lemma reactivate_shape t r :
  allows_state Kind_Reactivate (et_state t) = true →
  shape_checks (Reactivate t r) ↔ ValidShape (Reactivate t r).
Proof.
  intros Ha. unfold shape_checks, ValidShape.
  cbn [op_kind sources results retire_reason check_source_counts check_result_counts
       check_source_structure check_reactivation].
  destruct r as [r|]; cbn [option_list option_rect fmap list_fmap].
  - rewrite Forall_singleton, check_reactivated.
    pose proof (NoDup_omap_one token_slot (ri_level r)). pose proof (NoDup_singleton (ri_pod r)).
    destruct (et_state t) as [| | | | | |[]]; naive_solver.
  - destruct (et_state t) as [| | | | | |[]]; cbn in Ha; split; try naive_solver.
    intros _. split_and!; try done; constructor.
Qed.

Lemma other_shape op :
  op_kind op = Kind_Birth ∨ op_kind op = Kind_Freeze ∨ op_kind op = Kind_Retire →
  shape_checks op ↔ ValidShape op.
Proof.
  intros Hk. unfold shape_checks, ValidShape.
  destruct op as [r| | |t| | |t reason]; cbn in Hk; try (by destruct_or! Hk);
    cbn [op_kind sources results retire_reason check_source_counts check_result_counts
         check_source_structure check_reactivation fmap list_fmap].
  - rewrite Forall_singleton. unfold check_result. cbn [check_result_identity fresh_kind head rbind andb].
    pose proof (NoDup_omap_one token_slot (ri_level r)). pose proof (NoDup_singleton (ri_pod r)).
    destruct (ri_generation r =? 1)%N eqn:Hg; bool_prop; cbn [negb]; naive_solver.
  - split; [done|]. intros _. split_and!; try done; constructor.
  - pose proof (NoDup_nil_2 (A := string)). pose proof (NoDup_nil_2 (A := N * N)).
    pose proof (Forall_nil_2 (λ r, check_result Kind_Retire [t] r = Ok tt)).
    destruct reason; naive_solver.
Qed.

Lemma shape_ok op project :
  Forall (λ t, et_project t = project) (sources op) →
  Forall (λ t, allows_state (op_kind op) (et_state t) = true) (sources op) →
  shape_checks op ↔ ValidShape op.
Proof.
  intros Hp Hs. destruct op as [r|ts r|t rs|t|t r|ts|t reason].
  - apply other_shape. auto.
  - by apply (merge_shape project).
  - apply split_shape.
  - apply other_shape. auto.
  - apply reactivate_shape. by apply Forall_inv in Hs.
  - by apply (prune_shape project).
  - apply other_shape. auto.
Qed.

Lemma validate_requested_valid op project :
  validate_requested op project = Ok tt ↔ ValidOp op project.
Proof.
  unfold validate_requested, check_source_projects.
  rewrite !then_ok, !check_projects_ok, check_source_states_ok, each_ok, check_result_pods_nodup,
    check_slots_ok, !Forall_fmap.
  split.
  - intros (H1 & H2 & H3 & H4 & H5 & H6). split; try done.
    apply (shape_ok op project); unfold shape_checks; naive_solver.
  - intros [Hs Hr Ht Hv]. apply (shape_ok op project) in Hv as (?&?&?&?&?&?&?); [|done..].
    split_and!; done.
Qed.

(** C36: the rules for an expert operation, which the code checks one after another,
    admit exactly the well-formed operations of the reference definition [ValidOp],
    which has no order: operands and results in
    the project, every operand in a state the table allows, and the shape of
    the operation (counts, one layer and one base model, distinct experts and
    slots, fresh results, or the next generation of a retired expert). *)
Theorem validate_requested_iff op project :
  validate_requested op project = Ok tt ↔ ValidOp op project.
Proof. apply validate_requested_valid. Qed.

(** ** What one operation leaves behind *)
Lemma from_structural_parts op :
  op_kind (from_structural op) = op_kind op ∧ sources (from_structural op) = sources op ∧
  results (from_structural op) = intent <$> results op.
Proof. destruct op as [| | | |? []| |]; done. Qed.

(** The Token slots that the experts left serving occupy. *)
Definition serving_slot (o : ExpertOutcome) : option (N * N) :=
  if bool_decide (eo_state o = State_Serving) then token_slot (eo_level o) else None.

Lemma omap_fmap {A B C} (f : A → B) (g : B → option C) (l : list A) : omap g (f <$> l) = omap (λ a, g (f a)) l.
Proof. induction l as [|a l IH]; [done|]. cbn. rewrite IH. done. Qed.
Lemma omap_none {A B} (l : list A) : omap (λ _, None : option B) l = [].
Proof. by induction l. Qed.

Lemma serving_operands state (ts : list ExpertTarget) :
  state ≠ State_Serving → omap serving_slot (operand_outcome state <$> ts) = [].
Proof.
  intros H. rewrite omap_fmap. unfold serving_slot. cbn [eo_state operand_outcome].
  rewrite bool_decide_eq_false_2 by done. apply omap_none.
Qed.
Lemma serving_results (rs : list ExpertPodSpec) :
  omap serving_slot (result_outcome <$> rs) = omap token_slot (ri_level <$> (intent <$> rs)).
Proof. rewrite !omap_fmap. unfold serving_slot. cbn [eo_state result_outcome]. by rewrite bool_decide_eq_true_2. Qed.

Lemma operand_pods state (ts : list ExpertTarget) : eo_pod <$> (operand_outcome state <$> ts) = et_pod <$> ts.
Proof. by rewrite <-list_fmap_compose. Qed.
Lemma result_pods (rs : list ExpertPodSpec) : eo_pod <$> (result_outcome <$> rs) = ri_pod <$> (intent <$> rs).
Proof. by rewrite <-!list_fmap_compose. Qed.

Lemma outcomes_pods op project :
  ValidOp (from_structural op) project → NoDup (eo_pod <$> outcomes op).
Proof.
  intros [_ _ _ H]. unfold outcomes.
  destruct op as [r|ts r|t rs|t|t [r|]|ts|t reason]; cbn [operand_state from_structural ValidShape sources results] in *;
    rewrite fmap_app, ?operand_pods, ?result_pods.
  - cbn. apply NoDup_singleton.
  - destruct H as (_ & layer & base & state & (_ & Hn & _) & _ & (_ & _ & _ & Hr)).
    apply NoDup_app. split; [done|]. split; [|apply NoDup_singleton]. set_solver.
  - destruct H as (_ & Hd & Hn & _). apply NoDup_app. split; [apply NoDup_singleton|]. split; [|done].
    rewrite Forall_forall in Hd. intros pod Hp1 (r & -> & Hr)%list_elem_of_fmap.
    destruct (Hd r Hr) as (_ & _ & _ & Hnot). set_solver.
  - cbn. apply NoDup_singleton.
  - destruct H as (-> & _). cbn. apply NoDup_singleton.
  - rewrite H. cbn. apply NoDup_singleton.
  - destruct H as (_ & layer & base & _ & Hn & _). cbn. by rewrite app_nil_r.
  - cbn. apply NoDup_singleton.
Qed.

Lemma outcomes_slots op project :
  ValidOp (from_structural op) project → NoDup (omap serving_slot (outcomes op)).
Proof.
  intros [_ _ _ H]. unfold outcomes.
  destruct op as [r|ts r|t rs|t|t [r|]|ts|t reason]; cbn [operand_state from_structural ValidShape sources results] in *;
    rewrite omap_app, ?serving_results, ?serving_operands by done; cbn [app].
  - apply NoDup_omap_one.
  - apply NoDup_omap_one.
  - by destruct H as (_ & _ & _ & Hn).
  - constructor.
  - destruct H as (-> & _). apply NoDup_omap_one.
  - rewrite H. cbn [option_list option_rect fmap list_fmap]. rewrite app_nil_r. apply NoDup_omap_one.
  - constructor.
  - constructor.
Qed.

(** The states an admitted operation can leave an expert in. *)
Definition proposable_state (s : ExpertState) : bool :=
  match s with
  | State_Serving | State_Frozen | State_Superseded => true
  | State_Retired reason => negb (bool_decide (reason = Reason_InputRevoked))
  | State_Candidate | State_Gated | State_Fenced => false
  end.

Lemma outcomes_states op project :
  ValidOp (from_structural op) project → Forall (λ o, proposable_state (eo_state o) = true) (outcomes op).
Proof.
  intros [_ _ _ H]. unfold outcomes. apply Forall_app. split; [|by apply Forall_fmap, Forall_true].
  destruct (operand_state op) as [s|] eqn:Hs; [|done]. apply Forall_fmap, Forall_true. intros t.
  cbn. destruct op as [r|ts r|u rs|u|u [r|]|ts|u reason]; cbn in *; simplify_eq; try done.
  - destruct H as [H _]. by rewrite H in Hs.
  - rewrite H in Hs. by simplify_eq.
  - by destruct H as [-> | ->].
Qed.

Lemma proposal_new_inv project proposer observed_at op rationale p :
  ExpertProposal_new project proposer observed_at op rationale = Ok p →
  p = {| ep_project := project; ep_proposer := proposer; ep_observed_at := observed_at; ep_op := op;
         ep_rationale := rationale |} ∧
  check_proposal_header project proposer = Ok tt ∧ ValidOp (from_structural op) project.
Proof.
  unfold ExpertProposal_new. intros H. result_inv. split_and!; try done.
  by apply validate_requested_valid.
Qed.

(** A proposal that was accepted names no fenced expert and none whose state
    the table forbids.  The outcomes of its operation give every Pod one state,
    put no two serving experts in one Token slot, and never leave an expert
    fenced, or retired because an input was revoked: that is reserved to the
    revocation path of the runtime. *)
Theorem proposal_outcomes_safe project proposer observed_at op rationale p :
  ExpertProposal_new project proposer observed_at op rationale = Ok p →
  Forall (λ t, et_state t ≠ State_Fenced ∧ allows_state (op_kind op) (et_state t) = true) (sources op) ∧
  NoDup (eo_pod <$> outcomes op) ∧
  NoDup (omap serving_slot (outcomes op)) ∧
  Forall (λ o, proposable_state (eo_state o) = true) (outcomes op).
Proof.
  intros (_ & _ & Hv)%proposal_new_inv. destruct (from_structural_parts op) as (Hk & Hs & _).
  split_and!; [|by eapply outcomes_pods|by eapply outcomes_slots|by eapply outcomes_states].
  destruct Hv as [_ _ Ht _]. rewrite Hk, Hs in Ht. eapply Forall_impl; [exact Ht|].
  intros t Ha. split; [|done]. intros Hf. cbn beta in Ha. rewrite Hf in Ha. by destruct (op_kind op).
Qed.

(** ** A merge of two serving experts *)
Definition demo_digest : Digest := replicate 32 x07.
Definition demo_base : BaseModelRef := {| bm_id := "base"; bm_digest := demo_digest; bm_generation := 2 |}.
Definition demo_target (pod : string) (index : N) : ExpertTarget :=
  {| et_project := "p"; et_pod := pod; et_generation := 1; et_level := Token 4 index;
     et_base_model := demo_base; et_manifest_digest := demo_digest; et_state := State_Serving;
     et_state_version := 3 |}.
Definition demo_spec (pod : string) (digest : Digest) : ExpertPodSpec :=
  {| es_project := "p"; es_pod := pod; es_manifest_digest := digest; es_level := Token 4 0;
     es_base_model := demo_base; es_generation := 1 |}.
Definition demo_merge (digest : Digest) : StructuralOp :=
  Merge [demo_target "a" 0; demo_target "b" 1] (demo_spec "c" digest).
Definition demo_proposal (digest : Digest) : ExpertProposal :=
  {| ep_project := "p";
     ep_proposer := {| pp_project := "p"; pp_pod := "policy"; pp_proposer_generation := 1 |};
     ep_observed_at := 9; ep_op := demo_merge digest; ep_rationale := demo_digest |}.

Lemma proposal_outcomes_safe_witness :
  NoDup (eo_pod <$> outcomes (demo_merge demo_digest)) ∧
  (eo_state <$> outcomes (demo_merge demo_digest)) = [State_Superseded; State_Superseded; State_Serving].
Proof.
  split; [|reflexivity].
  destruct (proposal_outcomes_safe "p" (ep_proposer (demo_proposal demo_digest)) 9 (demo_merge demo_digest)
    demo_digest (demo_proposal demo_digest)) as (_ & H & _); [vm_compute; reflexivity|exact H].
Defined.
