(* ===== verification/ExpertCodec.v ===== *)
(** * Expert records: crates/ptr-pods/src/expert.rs, identities and the codec

    The inputs an expert rests on, the record an admitted proposal is committed
    as, its canonical encoding with the decoder that rebuilds every part through
    its constructor, and the two identities of an operation: before training
    ([operation_id]) and after it ([proposal_id]).  SHA-256 is a parameter. *)

From S2P Require Import Prelude Bytes Text Types ExpertOps.
From stdpp Require Import options.

(** ** Inputs *)
Definition MAX_EXPERT_INPUT_IDENTITY_BYTES : N := 256.
Definition MAX_EXPERT_INPUTS_PER_ROLE : N := 256.
Definition BASE_MODEL_INPUT_PREFIX : string := "base-model:".

Inductive ExpertInputError :=
| BlankIdentity
| IdentityTooLong
| ControlCharacterInIdentity
| Input_ZeroGeneration
| Input_ZeroDigest
| TooManyInputs (found : N)
| DuplicateInput (identity : string) (generation : Generation)
| DigestConflict (identity : string) (generation : Generation).

Record ExpertInputRef := {
  eir_identity : string;
  eir_generation : Generation;
  eir_digest : Digest
}.

#[export] Instance ExpertInputRef_eq_dec : EqDecision ExpertInputRef.
Proof. solve_decision. Defined.

Definition ExpertInputRef_new (identity : string) (generation : Generation) (digest : Digest) :
  result ExpertInputError ExpertInputRef :=
  if bool_decide (identity = "") then Err BlankIdentity else
  if (MAX_EXPERT_INPUT_IDENTITY_BYTES <? slen identity)%N then Err IdentityTooLong else
  if has_control identity then Err ControlCharacterInIdentity else
  if (generation =? 0)%N then Err Input_ZeroGeneration else
  if bool_decide (digest = zero_digest) then Err Input_ZeroDigest else
  Ok {| eir_identity := identity; eir_generation := generation; eir_digest := digest |}.

Definition from_base_model (base : BaseModelRef) : ExpertInputRef :=
  {| eir_identity := BASE_MODEL_INPUT_PREFIX +:+ bm_id base;
     eir_generation := bm_generation base; eir_digest := bm_digest base |}.

Record ExpertInputs := {
  ei_training : list ExpertInputRef;
  ei_evaluation : list ExpertInputRef
}.

#[export] Instance ExpertInputs_eq_dec : EqDecision ExpertInputs.
Proof. solve_decision. Defined.

(** The order of [(&identity, generation)]. *)
Definition input_key (i : ExpertInputRef) : string * Generation := (eir_identity i, eir_generation i).
Definition pair_le (a b : string * N) : Prop :=
  String.le a.1 b.1 ∧ (a.1 = b.1 → (a.2 <= b.2)%N).
Definition input_le (a b : ExpertInputRef) : Prop := pair_le (input_key a) (input_key b).
#[export] Instance input_le_dec : RelDecision input_le.
Proof. intros a b. unfold input_le, pair_le. apply _. Defined.

(** [windows(2)]. *)
Fixpoint check_adjacent (inputs : list ExpertInputRef) : result ExpertInputError unit :=
  match inputs with
  | a :: (b :: _) as rest =>
      if bool_decide (eir_identity a = eir_identity b) && (eir_generation a =? eir_generation b)%N
      then Err (DuplicateInput (eir_identity a) (eir_generation a))
      else check_adjacent rest
  | _ => Ok tt
  end.

Definition sort_inputs (inputs : list ExpertInputRef) : result ExpertInputError (list ExpertInputRef) :=
  if (MAX_EXPERT_INPUTS_PER_ROLE <? blen inputs)%N then Err (TooManyInputs (blen inputs)) else
  let inputs := merge_sort input_le inputs in
  check_adjacent inputs ;? Ok inputs.

Fixpoint check_digests (seen : gmap (string * Generation) Digest) (inputs : list ExpertInputRef) :
  result ExpertInputError unit :=
  match inputs with
  | [] => Ok tt
  | input :: rest =>
      let known := default (eir_digest input) (seen !! input_key input) in
      if negb (bool_decide (known = eir_digest input))
      then Err (DigestConflict (eir_identity input) (eir_generation input))
      else check_digests (<[input_key input := known]> seen) rest
  end.

Definition ExpertInputs_new (training evaluation : list ExpertInputRef) :
  result ExpertInputError ExpertInputs :=
  let? training := sort_inputs training in
  let? evaluation := sort_inputs evaluation in
  check_digests ∅ (training ++ evaluation) ;?
  Ok {| ei_training := training; ei_evaluation := evaluation |}.

Definition ExpertInputs_is_empty (i : ExpertInputs) : bool :=
  bool_decide (ei_training i = []) && bool_decide (ei_evaluation i = []).
Definition ExpertInputs_len (i : ExpertInputs) : N := (blen (ei_training i) + blen (ei_evaluation i))%N.

(** ** Records *)
Definition RECORD_MAGIC_V1 : list byte := str_bytes "PTREXR01".
Definition RECORD_MAGIC_V2 : list byte := str_bytes "PTREXR02".
Definition RECORD_MAGIC_V3 : list byte := str_bytes "PTREXR03".
Definition MAX_EXPERT_COMMIT_RECORD_BYTES : N := N.shiftl 1 20.

Record ExpertEvidence := {
  ee_required_gate_config_digest : Digest;
  ee_report : list byte
}.

Record ExpertCommitRecord := {
  ecr_proposal : ExpertProposal;
  ecr_evidence_digest : Digest;
  ecr_gate_epoch : N;
  ecr_evidence : option ExpertEvidence;
  ecr_inputs : option ExpertInputs
}.

Definition ExpertCommitRecord_new (proposal : ExpertProposal) (evidence_digest : Digest) (gate_epoch : N) :
  result ExpertProposalError ExpertCommitRecord :=
  if bool_decide (evidence_digest = zero_digest)
  then Err (MalformedRecord "evidence digest is all zero") else
  Ok {| ecr_proposal := proposal; ecr_evidence_digest := evidence_digest;
        ecr_gate_epoch := gate_epoch; ecr_evidence := None; ecr_inputs := None |}.

Definition new_with_evidence (proposal : ExpertProposal) (evidence_digest : Digest) (gate_epoch : N)
    (required_gate_config_digest : Digest) (report : list byte) :
  result ExpertProposalError ExpertCommitRecord :=
  if bool_decide (required_gate_config_digest = zero_digest)
  then Err (MalformedRecord "required gate configuration digest is all zero") else
  if bool_decide (report = []) then Err (MalformedRecord "embedded gate report is empty") else
  let? record := ExpertCommitRecord_new proposal evidence_digest gate_epoch in
  Ok {| ecr_proposal := ecr_proposal record; ecr_evidence_digest := ecr_evidence_digest record;
        ecr_gate_epoch := ecr_gate_epoch record;
        ecr_evidence := Some {| ee_required_gate_config_digest := required_gate_config_digest;
                                ee_report := report |};
        ecr_inputs := ecr_inputs record |}.

Definition new_with_inputs (proposal : ExpertProposal) (evidence_digest : Digest) (gate_epoch : N)
    (required_gate_config_digest : Digest) (report : list byte) (inputs : ExpertInputs) :
  result ExpertProposalError ExpertCommitRecord :=
  if bool_decide (results (ep_op proposal) = [])
  then Err (MalformedRecord "inputs on an operation without a result") else
  let? record := new_with_evidence proposal evidence_digest gate_epoch required_gate_config_digest report in
  Ok {| ecr_proposal := ecr_proposal record; ecr_evidence_digest := ecr_evidence_digest record;
        ecr_gate_epoch := ecr_gate_epoch record; ecr_evidence := ecr_evidence record;
        ecr_inputs := Some inputs |}.

(** ** Writer *)
Definition w_u8 (v : N) : list byte := [byte_of_N v].
Definition w_u16 (v : N) : list byte := le_bytes 2 v.
Definition w_u64 (v : N) : list byte := le_bytes 8 v.
(** [value as u32]: the low four bytes. *)
Definition w_count (n : N) : list byte := le_bytes 4 n.
Definition w_str (s : string) : list byte := w_count (slen s) ++ str_bytes s.
Definition w_level (level : ExpertLevel) : list byte :=
  match level with
  | Token layer index => w_u8 0 ++ w_u16 layer ++ w_u16 index
  | Segment => w_u8 1
  end.
Definition reason_code (reason : RetiredReason) : N :=
  match reason with
  | Reason_Pruned => 0
  | Reason_Superseded => 1
  | Reason_GateFailed => 2
  | Reason_InputRevoked => 3
  end.
Definition w_reason (reason : RetiredReason) : list byte := w_u8 (reason_code reason).
Definition w_state (state : ExpertState) : list byte :=
  match state with
  | State_Candidate => w_u8 0
  | State_Gated => w_u8 1
  | State_Serving => w_u8 2
  | State_Frozen => w_u8 3
  | State_Fenced => w_u8 4
  | State_Superseded => w_u8 5
  | State_Retired reason => w_u8 6 ++ w_reason reason
  end.
Definition w_input (i : ExpertInputRef) : list byte :=
  w_str (eir_identity i) ++ w_u64 (eir_generation i) ++ eir_digest i.
Definition w_list {A} (w : A → list byte) (l : list A) : list byte :=
  w_count (blen l) ++ mjoin (w <$> l).
Definition w_input_list : list ExpertInputRef → list byte := w_list w_input.
Definition w_inputs (i : ExpertInputs) : list byte :=
  w_input_list (ei_training i) ++ w_input_list (ei_evaluation i).
Definition w_base_model (b : BaseModelRef) : list byte :=
  w_str (bm_id b) ++ bm_digest b ++ w_u64 (bm_generation b).
Definition w_spec (s : ExpertPodSpec) : list byte :=
  w_str (es_project s) ++ w_str (es_pod s) ++ es_manifest_digest s ++ w_level (es_level s) ++
  w_base_model (es_base_model s) ++ w_u64 (es_generation s).
Definition w_target (t : ExpertTarget) : list byte :=
  w_str (et_project t) ++ w_str (et_pod t) ++ w_u64 (et_generation t) ++ w_level (et_level t) ++
  w_base_model (et_base_model t) ++ et_manifest_digest t ++ w_state (et_state t) ++
  w_u64 (et_state_version t).
Definition w_targets : list ExpertTarget → list byte := w_list w_target.
Definition w_op (op : StructuralOp) : list byte :=
  match op with
  | Birth result => w_u8 0 ++ w_spec result
  | Merge sources result => w_u8 1 ++ w_targets sources ++ w_spec result
  | Split source results => w_u8 2 ++ w_target source ++ w_list w_spec results
  | Freeze target => w_u8 3 ++ w_target target
  | Reactivate target result =>
      w_u8 4 ++ w_target target ++
      match result with
      | Some result => w_u8 1 ++ w_spec result
      | None => w_u8 0
      end
  | Prune targets => w_u8 5 ++ w_targets targets
  | RetireOp target reason => w_u8 6 ++ w_target target ++ w_reason reason
  end.
Definition w_proposal (p : ExpertProposal) : list byte :=
  w_str (ep_project p) ++ w_str (pp_project (ep_proposer p)) ++ w_str (pp_pod (ep_proposer p)) ++
  w_u64 (pp_proposer_generation (ep_proposer p)) ++ w_u64 (ep_observed_at p) ++ ep_rationale p ++
  w_op (ep_op p).

Definition record_magic (r : ExpertCommitRecord) : list byte :=
  match ecr_evidence r, ecr_inputs r with
  | None, _ => RECORD_MAGIC_V1
  | Some _, None => RECORD_MAGIC_V2
  | Some _, Some _ => RECORD_MAGIC_V3
  end.
Definition w_evidence (e : ExpertEvidence) : list byte :=
  ee_required_gate_config_digest e ++ w_count (blen (ee_report e)) ++ ee_report e.
Definition encode_canonical (r : ExpertCommitRecord) : list byte :=
  record_magic r ++ w_proposal (ecr_proposal r) ++ ecr_evidence_digest r ++
  w_u64 (ecr_gate_epoch r) ++
  match ecr_evidence r with
  | Some evidence => w_evidence evidence
  | None => []
  end ++
  match ecr_inputs r with
  | Some inputs => w_inputs inputs
  | None => []
  end.

(** ** Reader *)
Abbreviation xreader A := (reader ExpertProposalError A).
Definition malformed {A} (reason : string) : xreader A := rfail (MalformedRecord reason).

(** [map_err] of a constructor's error. *)
Definition rmap_err {E A} (f : E → ExpertProposalError) (m : result E A) : xreader A :=
  rlift match m with Ok a => Ok a | Err e => Err (f e) end.

Definition r_take (n : N) : xreader (list byte) := λ bytes,
  if (blen bytes <? n)%N then Err (MalformedRecord "truncated")
  else Ok (take (N.to_nat n) bytes, drop (N.to_nat n) bytes).
Definition r_le (n : N) : xreader N := b <- r_take n ;; rret (le_value b).
Definition r_u8 : xreader N := r_le 1.
Definition r_u16 : xreader N := r_le 2.
Definition r_u32 : xreader N := r_le 4.
Definition r_u64 : xreader N := r_le 8.
Definition r_array32 : xreader Digest := r_take 32.
Definition r_count : xreader N :=
  n <- r_u32 ;;
  λ bytes, if (blen bytes <? n)%N then Err (MalformedRecord "count exceeds the remaining bytes")
           else Ok (n, bytes).
Definition r_string : xreader string :=
  n <- r_count ;; b <- r_take n ;;
  if str_ok (bytes_str b) then rret (bytes_str b) else malformed "string is not UTF-8".
Definition r_level : xreader ExpertLevel :=
  tag <- r_u8 ;;
  match tag with
  | 0 => layer <- r_u16 ;; index <- r_u16 ;; rret (Token layer index)
  | 1 => rret Segment
  | _ => malformed "unknown level tag"
  end%N.
Definition r_reason : xreader RetiredReason :=
  tag <- r_u8 ;;
  match tag with
  | 0 => rret Reason_Pruned
  | 1 => rret Reason_Superseded
  | 2 => rret Reason_GateFailed
  | 3 => rret Reason_InputRevoked
  | _ => malformed "unknown retirement reason"
  end%N.
Definition r_state : xreader ExpertState :=
  tag <- r_u8 ;;
  match tag with
  | 0 => rret State_Candidate
  | 1 => rret State_Gated
  | 2 => rret State_Serving
  | 3 => rret State_Frozen
  | 4 => rret State_Fenced
  | 5 => rret State_Superseded
  | 6 => reason <- r_reason ;; rret (State_Retired reason)
  | _ => malformed "unknown state tag"
  end%N.

Definition r_list {A} (r : xreader A) : xreader (list A) :=
  n <- r_count ;; rrepeat (N.to_nat n) r.

Definition r_input : xreader ExpertInputRef :=
  identity <- r_string ;; generation <- r_u64 ;; digest <- r_array32 ;;
  rmap_err (λ _, MalformedRecord "invalid input reference") (ExpertInputRef_new identity generation digest).
Definition r_input_list : xreader (list ExpertInputRef) :=
  n <- r_count ;;
  if (MAX_EXPERT_INPUTS_PER_ROLE <? n)%N then malformed "too many inputs in one list"
  else rrepeat (N.to_nat n) r_input.
Definition r_inputs : xreader ExpertInputs :=
  training <- r_input_list ;; evaluation <- r_input_list ;;
  rmap_err (λ _, MalformedRecord "invalid input block") (ExpertInputs_new training evaluation).

Definition r_nonzero (reason : string) : xreader Digest :=
  d <- r_array32 ;;
  match new_digest d with
  | Some d => rret d
  | None => malformed reason
  end.
Definition r_manifest_digest : xreader Digest := r_nonzero "manifest digest is all zero".
Definition r_base_model : xreader BaseModelRef :=
  id <- r_string ;; id <- rmap_err Identity (BaseModelId_new id) ;;
  digest <- r_nonzero "base model digest is all zero" ;;
  generation <- r_u64 ;;
  rmap_err Identity (BaseModelRef_new id digest generation).
Definition r_spec : xreader ExpertPodSpec :=
  project <- r_string ;; pod <- r_string ;; manifest <- r_manifest_digest ;; level <- r_level ;;
  base <- r_base_model ;; generation <- r_u64 ;;
  rmap_err Identity (ExpertPodSpec_new project pod manifest level base generation).
Definition r_target : xreader ExpertTarget :=
  project <- r_string ;; pod <- r_string ;; generation <- r_u64 ;; level <- r_level ;;
  base_model <- r_base_model ;; manifest_digest <- r_manifest_digest ;; state <- r_state ;;
  state_version <- r_u64 ;;
  rmap_err Identity (ExpertTarget_new
    {| et_project := project; et_pod := pod; et_generation := generation; et_level := level;
       et_base_model := base_model; et_manifest_digest := manifest_digest; et_state := state;
       et_state_version := state_version |}).
Definition r_targets : xreader (list ExpertTarget) := r_list r_target.
Definition r_op : xreader StructuralOp :=
  tag <- r_u8 ;;
  match tag with
  | 0 => result <- r_spec ;; rret (Birth result)
  | 1 => sources <- r_targets ;; result <- r_spec ;; rret (Merge sources result)
  | 2 => source <- r_target ;; results <- r_list r_spec ;; rret (Split source results)
  | 3 => target <- r_target ;; rret (Freeze target)
  | 4 =>
      target <- r_target ;; option <- r_u8 ;;
      match option with
      | 0 => rret (Reactivate target None)
      | 1 => result <- r_spec ;; rret (Reactivate target (Some result))
      | _ => malformed "unknown option tag"
      end
  | 5 => targets <- r_targets ;; rret (Prune targets)
  | 6 => target <- r_target ;; reason <- r_reason ;; rret (RetireOp target reason)
  | _ => malformed "unknown operation tag"
  end%N.
Definition r_proposer : xreader ProposerRef :=
  project <- r_string ;; pod <- r_string ;; generation <- r_u64 ;;
  rmap_err Identity (ProposerRef_new project pod generation).
Definition r_proposal : xreader ExpertProposal :=
  project <- r_string ;; proposer <- r_proposer ;; observed_at <- r_u64 ;;
  rationale <- r_nonzero "rationale digest is all zero" ;; op <- r_op ;;
  rlift (ExpertProposal_new project proposer observed_at op rationale).

(** What the magic says the record embeds: evidence, inputs. *)
Definition r_magic : xreader (bool * bool) :=
  magic <- r_take 8 ;;
  if bool_decide (magic = RECORD_MAGIC_V1) then rret (false, false) else
  if bool_decide (magic = RECORD_MAGIC_V2) then rret (true, false) else
  if bool_decide (magic = RECORD_MAGIC_V3) then rret (true, true) else
  malformed "unknown magic".
Definition r_record : xreader ExpertCommitRecord :=
  embeds <- r_magic ;;
  proposal <- r_proposal ;; evidence_digest <- r_array32 ;; gate_epoch <- r_u64 ;;
  if embeds.1 then
    required <- r_array32 ;; len <- r_count ;; report <- r_take len ;;
    if embeds.2 then
      inputs <- r_inputs ;;
      rlift (new_with_inputs proposal evidence_digest gate_epoch required report inputs)
    else rlift (new_with_evidence proposal evidence_digest gate_epoch required report)
  else rlift (ExpertCommitRecord_new proposal evidence_digest gate_epoch).

Definition decode_canonical (bytes : list byte) : result ExpertProposalError ExpertCommitRecord :=
  if (MAX_EXPERT_COMMIT_RECORD_BYTES <? blen bytes)%N
  then Err (MalformedRecord "record exceeds the size limit") else
  let? (record, rest) := r_record bytes in
  if negb (bool_decide (rest = [])) then Err (MalformedRecord "trailing bytes") else
  if negb (bool_decide (encode_canonical record = bytes))
  then Err (MalformedRecord "non-canonical encoding") else
  Ok record.

(** ** Encoder: what the identities are digests of *)
Definition e_str (s : string) : list byte := w_u64 (slen s) ++ str_bytes s.
Definition e_level (level : ExpertLevel) : list byte :=
  match level with
  | Token layer index => w_u64 0 ++ w_u64 layer ++ w_u64 index
  | Segment => w_u64 1
  end.
Definition e_reason (reason : RetiredReason) : list byte := w_u64 (reason_code reason).
Definition e_state (state : ExpertState) : list byte :=
  match state with
  | State_Candidate => w_u64 0
  | State_Gated => w_u64 1
  | State_Serving => w_u64 2
  | State_Frozen => w_u64 3
  | State_Fenced => w_u64 4
  | State_Superseded => w_u64 5
  | State_Retired reason => w_u64 6 ++ e_reason reason
  end.
Definition e_base_model (b : BaseModelRef) : list byte :=
  e_str (bm_id b) ++ bm_digest b ++ w_u64 (bm_generation b).
Definition e_spec (s : ExpertPodSpec) : list byte :=
  e_str (es_project s) ++ e_str (es_pod s) ++ es_manifest_digest s ++ e_level (es_level s) ++
  e_base_model (es_base_model s) ++ w_u64 (es_generation s).
Definition e_intent (i : ResultIntent) : list byte :=
  e_str (ri_project i) ++ e_str (ri_pod i) ++ e_level (ri_level i) ++
  e_base_model (ri_base_model i) ++ w_u64 (ri_generation i).
Definition e_target (t : ExpertTarget) : list byte :=
  e_str (et_project t) ++ e_str (et_pod t) ++ w_u64 (et_generation t) ++ e_level (et_level t) ++
  e_base_model (et_base_model t) ++ et_manifest_digest t ++ e_state (et_state t) ++
  w_u64 (et_state_version t).
Definition e_list {A} (e : A → list byte) (l : list A) : list byte :=
  w_u64 (blen l) ++ mjoin (e <$> l).
Definition e_targets : list ExpertTarget → list byte := e_list e_target.

Definition op_kind_code (kind : OpKind) : N :=
  match kind with
  | Kind_Birth => 0
  | Kind_Merge => 1
  | Kind_Split => 2
  | Kind_Freeze => 3
  | Kind_Reactivate => 4
  | Kind_Prune => 5
  | Kind_Retire => 6
  end.

Definition operation_bytes (q : ExpertOperationRequest) : list byte :=
  e_str "ptr.pods.expert-operation.v2" ++ e_str (eor_project q) ++
  e_str (pp_project (eor_proposer q)) ++ e_str (pp_pod (eor_proposer q)) ++
  w_u64 (pp_proposer_generation (eor_proposer q)) ++ w_u64 (eor_observed_at q) ++ eor_rationale q ++
  w_u64 (op_kind_code (op_kind (eor_op q))) ++ e_targets (sources (eor_op q)) ++
  match eor_op q with
  | RetireOp _ reason => e_reason reason
  | _ => []
  end ++ e_list e_intent (results (eor_op q)).

Definition e_op (op : StructuralOp) : list byte :=
  w_u64 (op_kind_code (op_kind op)) ++
  match op with
  | Birth result => e_spec result
  | Merge sources result => e_targets sources ++ e_spec result
  | Split source results => e_target source ++ e_list e_spec results
  | Freeze target => e_target target
  | Reactivate target result =>
      e_target target ++
      match result with
      | Some result => w_u64 1 ++ e_spec result
      | None => w_u64 0
      end
  | Prune targets => e_targets targets
  | RetireOp target reason => e_target target ++ e_reason reason
  end.
Definition proposal_bytes (p : ExpertProposal) : list byte :=
  e_str "ptr.pods.expert-proposal.v2" ++ e_str (ep_project p) ++
  e_str (pp_project (ep_proposer p)) ++ e_str (pp_pod (ep_proposer p)) ++
  w_u64 (pp_proposer_generation (ep_proposer p)) ++ w_u64 (ep_observed_at p) ++ ep_rationale p ++
  e_op (ep_op p).

Section Identities.
Context (sha256 : list byte → list byte).

Definition request_operation_id (q : ExpertOperationRequest) : Digest := sha256 (operation_bytes q).
Definition operation_id (p : ExpertProposal) : Digest := request_operation_id (operation_request p).
Definition proposal_id (p : ExpertProposal) : Digest := sha256 (proposal_bytes p).

Definition inputs_canonical_digest (i : ExpertInputs) : Digest :=
  sha256 (str_bytes "ptr.pods.expert-inputs.v1" ++ w_inputs i).
End Identities.

(** ** Values of the types

    The widths of the fields, and what the constructors of the private types
    check. *)
Definition id_ok (s : string) : bool :=
  negb (is_blank s) && (slen s <=? MAX_ID_BYTES)%N && forallb is_id_byte (str_bytes s).
Definition generation_ok (g : Generation) : bool := u64_ok g && negb (g =? 0)%N.
Definition nonzero_ok (d : Digest) : bool := digest_ok d && negb (bool_decide (d = zero_digest)).
Definition level_ok (l : ExpertLevel) : bool :=
  match l with
  | Token layer index => u16_ok layer && u16_ok index
  | Segment => true
  end.
Definition base_model_ok (b : BaseModelRef) : bool :=
  id_ok (bm_id b) && nonzero_ok (bm_digest b) && generation_ok (bm_generation b).
Definition spec_ok (s : ExpertPodSpec) : bool :=
  id_ok (es_project s) && id_ok (es_pod s) && nonzero_ok (es_manifest_digest s) &&
  level_ok (es_level s) && base_model_ok (es_base_model s) && generation_ok (es_generation s).
Definition intent_ok (s : ResultIntent) : bool :=
  id_ok (ri_project s) && id_ok (ri_pod s) && level_ok (ri_level s) &&
  base_model_ok (ri_base_model s) && generation_ok (ri_generation s).
Definition target_ok (t : ExpertTarget) : bool :=
  id_ok (et_project t) && id_ok (et_pod t) && generation_ok (et_generation t) &&
  level_ok (et_level t) && base_model_ok (et_base_model t) && nonzero_ok (et_manifest_digest t) &&
  u64_ok (et_state_version t).
Definition proposer_ok (p : ProposerRef) : bool :=
  id_ok (pp_project p) && id_ok (pp_pod p) && generation_ok (pp_proposer_generation p).
(** The operands of an operation, and a length that the count can hold. *)
Definition op_ok {R} (r_ok : R → bool) (op : Operation R) : bool :=
  forallb target_ok (sources op) && forallb r_ok (results op) &&
  u32_ok (blen (sources op)) && u32_ok (blen (results op)).
Definition proposal_ok (p : ExpertProposal) : bool :=
  proposer_ok (ep_proposer p) && u64_ok (ep_observed_at p) && nonzero_ok (ep_rationale p) &&
  op_ok spec_ok (ep_op p) && is_ok (check_proposal_header (ep_project p) (ep_proposer p)) &&
  is_ok (validate_requested (from_structural (ep_op p)) (ep_project p)).
Definition input_ok (i : ExpertInputRef) : bool :=
  str_ok (eir_identity i) && negb (bool_decide (eir_identity i = "")) &&
  (slen (eir_identity i) <=? MAX_EXPERT_INPUT_IDENTITY_BYTES)%N && negb (has_control (eir_identity i)) &&
  generation_ok (eir_generation i) && nonzero_ok (eir_digest i).

(** * The codec of expert records, part by part

    [Wire] states that a reader reads back exactly what a writer writes, for
    the values of a type; the parts of the record codec are its instances. *)

Class Wire {A} (r : xreader A) (w : A → list byte) (ok : A → bool) : Prop := {
  wire_reads : ∀ a rest, ok a = true → r (w a ++ rest) = Ok (a, rest);
  wire_exact : ∀ bs a rest, r bs = Ok (a, rest) → ok a = true ∧ bs = w a ++ rest
}.

(** [wire_forward] runs a reader on what was written; [wire_backward] takes a
    successful read apart.  What remains are facts about the fields. *)
Lemma rseq_step {A B} (r : xreader A) (k : A → xreader B) bs a rest out :
  r bs = Ok (a, rest) → k a rest = out → rseq r k bs = out.
Proof. unfold rseq. by intros -> <-. Qed.
Lemma rseq_rret {A B} (k : A → xreader B) a bs out : k a bs = out → rseq (rret a) k bs = out.
Proof. done. Qed.
Lemma rmap_err_ok {E A} (f : E → ExpertProposalError) (m : result E A) a bs rest :
  rmap_err f m bs = Ok (a, rest) ↔ m = Ok a ∧ rest = bs.
Proof. unfold rmap_err, rlift. destruct m; naive_solver. Qed.

Ltac ok_split := bool_prop; repeat match goal with |- _ ∧ _ => split end; try done.
Ltac ok_join :=
  rewrite ?andb_true_iff; repeat match goal with |- _ ∧ _ => split end; try done.

Ltac wire_forward :=
  rewrite <-?app_assoc;
  repeat first
    [ reflexivity
    | eapply rseq_step; [apply wire_reads; (done || assumption)|cbn beta] ].

Ltac wire_backward :=
  repeat match goal with
  | H : rseq _ _ _ = Ok (_, _) |- _ => apply rseq_ok_inv in H as (?&?&?&H)
  | H : rret _ _ = Ok (_, _) |- _ => apply rret_ok_inv in H as [<- <-]
  | H : rmap_err _ _ _ = Ok (_, _) |- _ => apply rmap_err_ok in H as [? ->]
  | H : malformed _ _ = Ok (_, _) |- _ => discriminate H
  | H : _ _ = Ok (_, _) |- _ => apply wire_exact in H as [? ->]
  end; rewrite <-?app_assoc.

(** ** Primitives *)
Lemma r_take_reads n bs rest : blen bs = n → r_take n (bs ++ rest) = Ok (bs, rest).
Proof.
  intros <-. unfold r_take. rewrite (proj2 (N.ltb_ge _ _)) by (autorewrite with blen; lia).
  unfold blen. by rewrite Nat2N.id, take_app_length, drop_app_length.
Qed.
Lemma r_take_exact n bs v rest : r_take n bs = Ok (v, rest) → blen v = n ∧ bs = v ++ rest.
Proof.
  unfold r_take. destruct (blen bs <? n)%N eqn:Hn; [done|]. intros [= <- <-]. bool_prop.
  unfold blen in *. rewrite length_take, take_drop. split; [lia|done].
Qed.

Lemma wire_le (k : nat) (ok : N → bool) :
  (∀ v, ok v = true ↔ (v < 256 ^ N.of_nat k)%N) → Wire (r_le (N.of_nat k)) (le_bytes k) ok.
Proof.
  intros Hok. split.
  - intros v rest Hv. eapply rseq_step; [apply r_take_reads; unfold blen; by rewrite length_le_bytes|].
    unfold rret. by rewrite le_value_bytes by by apply Hok.
  - intros bs v rest H. unfold r_le in H. apply rseq_ok_inv in H as (b & mid & Hb & H).
    apply rret_ok_inv in H as [<- <-]. apply r_take_exact in Hb as [Hn ->]. unfold blen in Hn.
    apply Nat2N.inj in Hn as <-. rewrite le_bytes_value. split; [|done]. apply Hok, le_value_lt.
Qed.
#[export] Instance wire_u16 : Wire r_u16 w_u16 u16_ok.
Proof. apply (wire_le 2). intros v. apply N.ltb_lt. Qed.
#[export] Instance wire_u32 : Wire r_u32 w_count u32_ok.
Proof. apply (wire_le 4). intros v. apply N.ltb_lt. Qed.
#[export] Instance wire_u64 : Wire r_u64 w_u64 u64_ok.
Proof. apply (wire_le 8). intros v. apply N.ltb_lt. Qed.
#[export] Instance wire_u8 : Wire r_u8 w_u8 u8_ok.
Proof. apply (wire_le 1). intros v. apply N.ltb_lt. Qed.

#[export] Instance wire_digest : Wire r_array32 id digest_ok.
Proof.
  split.
  - intros d rest Hd%Nat.eqb_eq. apply r_take_reads. unfold blen. by rewrite Hd.
  - intros bs d rest H. apply r_take_exact in H as [Hn ->]. split; [|done].
    apply Nat.eqb_eq. unfold blen in Hn. lia.
Qed.

(** A count that the bytes after it can satisfy. *)
Lemma r_count_reads n rest : u32_ok n = true → (n <= blen rest)%N → r_count (w_count n ++ rest) = Ok (n, rest).
Proof.
  intros Hu Hn. eapply rseq_step; [by apply wire_reads|]. cbn beta.
  by rewrite (proj2 (N.ltb_ge _ _)) by done.
Qed.
Lemma r_count_exact n bs rest :
  r_count bs = Ok (n, rest) → u32_ok n = true ∧ (n <= blen rest)%N ∧ bs = w_count n ++ rest.
Proof.
  intros H. apply rseq_ok_inv in H as (m & mid & Hm & H). cbn beta in H.
  destruct (blen mid <? m)%N eqn:Hl; [done|]. injection H as <- <-.
  apply wire_exact in Hm as [Hu ->]. bool_prop. done.
Qed.

Definition text_ok (s : string) : bool := str_ok s && u32_ok (slen s).
#[export] Instance wire_str : Wire r_string w_str text_ok.
Proof.
  split.
  - intros s rest [Hs Hl]%andb_true_iff. unfold r_string, w_str. rewrite <-app_assoc.
    eapply rseq_step; [apply r_count_reads; [done|unfold slen; autorewrite with blen; lia]|].
    eapply rseq_step; [by apply r_take_reads|]. cbn beta. by rewrite bytes_str_bytes, Hs.
  - intros bs s rest H. apply rseq_ok_inv in H as (n & mid & Hn & H).
    apply r_count_exact in Hn as (Hu & _ & ->). apply rseq_ok_inv in H as (b & mid' & Hb & H).
    apply r_take_exact in Hb as [Hb ->]. destruct (str_ok _) eqn:Hs; [|done].
    apply rret_ok_inv in H as [<- <-]. unfold text_ok, w_str, slen. rewrite str_bytes_str, Hs, Hb.
    split; [by rewrite Hu|]. by rewrite <-app_assoc.
Qed.

(** Reading a fixed first byte. *)
Lemma r_tag_reads {A} (k : N → xreader A) n rest out :
  u8_ok n = true → k n rest = out → rseq r_u8 k (w_u8 n ++ rest) = out.
Proof. intros Hn Hk. eapply rseq_step; [by apply wire_reads|done]. Qed.

Ltac tag_forward := rewrite <-?app_assoc; apply r_tag_reads; [reflexivity|].
Ltac tag_backward H :=
  apply rseq_ok_inv in H as (?&?&Htag&H); apply wire_exact in Htag as [_ ->];
  repeat (case_match; try discriminate H).

#[export] Instance wire_level : Wire r_level w_level level_ok.
Proof.
  split.
  - intros [layer index|] rest H; cbn [w_level level_ok] in *; bool_prop; tag_forward; [|done]. by wire_forward.
  - intros bs l rest H. unfold r_level in H. tag_backward H; wire_backward; cbn [level_ok w_level]; split;
      try done; try (by ok_join); by rewrite <-?app_assoc.
Qed.
#[export] Instance wire_reason : Wire r_reason w_reason (λ _, true).
Proof.
  split.
  - intros reason rest _. destruct reason; unfold w_reason; tag_forward; done.
  - intros bs reason rest H. unfold r_reason in H. tag_backward H; wire_backward; done.
Qed.
#[export] Instance wire_state : Wire r_state w_state (λ _, true).
Proof.
  split.
  - intros state rest _. destruct state; cbn [w_state]; tag_forward; try done.
    eapply rseq_step; [by apply wire_reads|done].
  - intros bs state rest H. unfold r_state in H. tag_backward H; wire_backward; done.
Qed.

(** ** Lists *)
Class Solid {A} (w : A → list byte) (ok : A → bool) : Prop := solid : ∀ a, ok a = true → (1 <= blen (w a))%N.

Lemma solid_join {A} (w : A → list byte) ok `{!Solid w ok} l :
  forallb ok l = true → (blen l <= blen (mjoin (w <$> l)))%N.
Proof.
  induction l as [|a l IH]; intros H; [done|]. cbn [forallb] in H. bool_prop.
  change (mjoin (w <$> a :: l)) with (w a ++ mjoin (w <$> l)). autorewrite with blen.
  pose proof (solid a H). specialize (IH H0). lia.
Qed.

Definition list_ok {A} (ok : A → bool) (l : list A) : bool := forallb ok l && u32_ok (blen l).

Lemma rrepeat_reads {A} (r : xreader A) w ok `{!Wire r w ok} l rest :
  forallb ok l = true → rrepeat (length l) r (mjoin (w <$> l) ++ rest) = Ok (l, rest).
Proof.
  revert rest. induction l as [|a l IH]; intros rest H; [done|]. cbn [forallb] in H. bool_prop.
  change (mjoin (w <$> a :: l)) with (w a ++ mjoin (w <$> l)). rewrite <-app_assoc.
  cbn [length rrepeat]. eapply rseq_step; [by apply wire_reads|]. eapply rseq_step; [by apply IH|done].
Qed.
Lemma rrepeat_exact {A} (r : xreader A) w ok `{!Wire r w ok} n : ∀ bs l rest,
  rrepeat n r bs = Ok (l, rest) → length l = n ∧ forallb ok l = true ∧ bs = mjoin (w <$> l) ++ rest.
Proof.
  induction n as [|n IH]; intros bs l rest H; cbn [rrepeat] in H.
  - by apply rret_ok_inv in H as [<- <-].
  - apply rseq_ok_inv in H as (a & mid & Ha & H). apply rseq_ok_inv in H as (k & mid' & Hk & H).
    apply rret_ok_inv in H as [<- <-]. apply wire_exact in Ha as [Ha ->].
    apply IH in Hk as (Hl & Hf & ->). cbn [length forallb]. rewrite Ha, Hf, Hl. split_and!; try done.
    change (mjoin (w <$> a :: k)) with (w a ++ mjoin (w <$> k)). by rewrite <-app_assoc.
Qed.

#[export] Instance wire_list {A} (r : xreader A) w ok `{!Wire r w ok, !Solid w ok} :
  Wire (r_list r) (w_list w) (list_ok ok).
Proof.
  split.
  - intros l rest [Hl Hu]%andb_true_iff. unfold r_list, w_list. rewrite <-app_assoc.
    eapply rseq_step.
    + apply r_count_reads; [done|]. pose proof (solid_join w ok l Hl). autorewrite with blen. lia.
    + unfold blen. rewrite Nat2N.id. by apply (rrepeat_reads r w ok).
  - intros bs l rest H. apply rseq_ok_inv in H as (n & mid & Hn & H).
    apply r_count_exact in Hn as (Hu & _ & ->). apply (rrepeat_exact r w ok) in H as (Hl & Hf & ->).
    unfold list_ok, w_list. assert (blen l = n) as -> by (unfold blen; lia). rewrite Hf, Hu.
    by rewrite <-app_assoc.
Qed.

(** ** Identifiers and digests *)
Lemma utf8_ascii (P : byte → bool) :
  (∀ b, P b = true → (Byte.to_N b < 128)%N) →
  ∀ bs, forallb P bs = true → utf8_chars (Byte.to_N <$> bs) = Some (Byte.to_N <$> bs).
Proof.
  intros HP bs. induction bs as [|b bs IH]; intros H; [done|]. cbn [forallb] in H. bool_prop.
  change (Byte.to_N <$> b :: bs) with (Byte.to_N b :: (Byte.to_N <$> bs)). cbn [utf8_chars].
  rewrite (proj2 (N.ltb_lt _ _)) by auto. by rewrite IH.
Qed.
Lemma id_byte_ascii b : is_id_byte b = true → (Byte.to_N b < 128)%N.
Proof.
  intros H. assert (negb (is_id_byte b) || (Byte.to_N b <? 128)%N = true) as Hb.
  { clear H. revert b. by apply byte_forall; vm_compute. }
  rewrite H in Hb. by apply N.ltb_lt.
Qed.
Lemma id_ok_text s : id_ok s = true → text_ok s = true.
Proof.
  unfold id_ok, text_ok, str_ok, chars, MAX_ID_BYTES, u32_ok. intros H. bool_prop.
  apply andb_true_iff. split; [|apply N.ltb_lt; lia].
  apply bool_decide_eq_true. rewrite (utf8_ascii _ id_byte_ascii) by done. done.
Qed.

Lemma check_id_ok s blank bad : check_id s blank bad = Ok tt ↔ id_ok s = true.
Proof.
  unfold check_id, id_ok. rewrite N.leb_antisym.
  destruct (is_blank s), (MAX_ID_BYTES <? slen s)%N, (forallb _ _); cbn; naive_solver.
Qed.
Lemma check_identity_ok project pod generation :
  check_identity project pod generation = Ok tt ↔
  id_ok project = true ∧ id_ok pod = true ∧ generation ≠ 0%N.
Proof.
  unfold check_identity, check_project_id, check_pod_id, check_generation.
  destruct (check_id project _ _) as [[]|] eqn:H1; destruct (check_id pod _ _) as [[]|] eqn:H2;
    cbn [rbind]; rewrite <-?(check_id_ok project BlankProject NonCanonicalProject),
      <-?(check_id_ok pod BlankPod NonCanonicalPod), ?H1, ?H2; try naive_solver.
  destruct (generation =? 0)%N eqn:Hg; bool_prop; naive_solver.
Qed.
Lemma generation_ok_iff g : generation_ok g = true ↔ u64_ok g = true ∧ g ≠ 0%N.
Proof. unfold generation_ok. by rewrite andb_true_iff, negb_true_iff, N.eqb_neq. Qed.

#[export] Instance wire_nonzero reason : Wire (r_nonzero reason) id nonzero_ok.
Proof.
  unfold nonzero_ok. split.
  - intros d rest H. bool_prop. eapply rseq_step; [by apply wire_reads|]. unfold new_digest.
    by rewrite bool_decide_eq_false_2.
  - intros bs d rest H. apply rseq_ok_inv in H as (d' & mid & Hd & H). unfold new_digest in H.
    case_bool_decide; [done|]. wire_backward. split; [|done]. ok_join.
    by apply negb_true_iff, bool_decide_eq_false.
Qed.
#[export] Instance wire_manifest : Wire r_manifest_digest id nonzero_ok := wire_nonzero _.

(** A text that a constructor then accepts as an identifier. *)
Lemma r_id_reads s rest : id_ok s = true → r_string (w_str s ++ rest) = Ok (s, rest).
Proof. intros H. by apply wire_reads, id_ok_text. Qed.
Lemma r_generation_reads g rest : generation_ok g = true → r_u64 (w_u64 g ++ rest) = Ok (g, rest).
Proof. intros [H _]%generation_ok_iff. by apply wire_reads. Qed.

Lemma r_nonzero_reads reason d rest : nonzero_ok d = true → r_nonzero reason (d ++ rest) = Ok (d, rest).
Proof. apply (wire_reads (Wire := wire_nonzero reason)). Qed.
Lemma r_array_reads d rest : digest_ok d = true → r_array32 (d ++ rest) = Ok (d, rest).
Proof. apply (wire_reads (Wire := wire_digest)). Qed.

(** ** Parts of a proposal *)
Ltac fields :=
  cbn [bm_id bm_digest bm_generation es_project es_pod es_manifest_digest es_level es_base_model
       es_generation et_project et_pod et_generation et_level et_base_model et_manifest_digest
       et_state et_state_version pp_project pp_pod pp_proposer_generation] in *.
Ltac part_read :=
  match goal with
  | |- r_string _ = _ => apply r_id_reads; assumption
  | |- r_u64 _ = _ => first [apply r_generation_reads; assumption|apply wire_reads; assumption]
  | |- r_manifest_digest _ = _ => apply r_nonzero_reads; assumption
  | |- r_nonzero _ _ = _ => apply r_nonzero_reads; assumption
  | |- r_array32 _ = _ => apply r_array_reads; assumption
  | |- _ => apply wire_reads; (assumption || reflexivity)
  end.
Ltac part_forward :=
  rewrite <-?app_assoc; repeat (eapply rseq_step; [part_read|cbn beta]).

#[export] Instance wire_base_model : Wire r_base_model w_base_model base_model_ok.
Proof.
  unfold base_model_ok. split.
  - intros [id0 digest generation] rest H. fields. bool_prop.
    unfold w_base_model, r_base_model. fields. part_forward.
    eapply rseq_step; [apply rmap_err_ok; split; [|done]|].
    { unfold BaseModelId_new. by rewrite (proj2 (check_id_ok id0 _ _)). }
    cbn beta. part_forward. apply rmap_err_ok. split; [|done]. unfold BaseModelRef_new.
    by rewrite (proj2 (N.eqb_neq _ _)) by by apply generation_ok_iff.
  - intros bs b rest H. unfold r_base_model in H. wire_backward. unfold BaseModelId_new, BaseModelRef_new in *.
    result_inv. unfold w_base_model. fields.
    split; [|by rewrite <-!app_assoc]. ok_join; [by eapply check_id_ok|].
    apply generation_ok_iff. bool_prop. done.
Qed.

#[export] Instance wire_spec : Wire r_spec w_spec spec_ok.
Proof.
  unfold spec_ok. split.
  - intros [p d m l b g] rest H. fields. bool_prop. unfold w_spec, r_spec.
    fields. part_forward.
    apply rmap_err_ok. split; [|done]. unfold ExpertPodSpec_new.
    by rewrite (proj2 (check_identity_ok _ _ _)) by (rewrite generation_ok_iff in *; naive_solver).
  - intros bs s rest H. unfold r_spec in H. wire_backward. unfold ExpertPodSpec_new in *. result_inv.
    match goal with H : check_identity _ _ _ = _ |- _ => apply check_identity_ok in H as (?&?&?) end.
    unfold w_spec. fields. split; [|by rewrite <-!app_assoc]. ok_join. by apply generation_ok_iff.
Qed.

#[export] Instance wire_target : Wire r_target w_target target_ok.
Proof.
  unfold target_ok. split.
  - intros [p d g l b m st v] rest H. fields. bool_prop. unfold w_target, r_target.
    fields. part_forward. apply rmap_err_ok. split; [|done]. unfold ExpertTarget_new. fields.
    by rewrite (proj2 (check_identity_ok _ _ _)) by (rewrite generation_ok_iff in *; naive_solver).
  - intros bs t rest H. unfold r_target in H. wire_backward. unfold ExpertTarget_new in *. result_inv.
    match goal with H : check_identity _ _ _ = _ |- _ => apply check_identity_ok in H as (?&?&?) end.
    unfold w_target. fields. split; [|by rewrite <-!app_assoc]. ok_join. by apply generation_ok_iff.
Qed.

#[export] Instance wire_proposer :
  Wire r_proposer (λ p, w_str (pp_project p) ++ w_str (pp_pod p) ++ w_u64 (pp_proposer_generation p)) proposer_ok.
Proof.
  unfold proposer_ok. split.
  - intros [p d g] rest H. fields. bool_prop. unfold r_proposer. fields.
    part_forward. apply rmap_err_ok. split; [|done]. unfold ProposerRef_new.
    by rewrite (proj2 (check_identity_ok _ _ _)) by (rewrite generation_ok_iff in *; naive_solver).
  - intros bs p rest H. unfold r_proposer in H. wire_backward. unfold ProposerRef_new in *. result_inv.
    match goal with H : check_identity _ _ _ = _ |- _ => apply check_identity_ok in H as (?&?&?) end.
    fields. cbn beta. fields. split; [|by rewrite <-?app_assoc]. ok_join. by apply generation_ok_iff.
Qed.

(** ** Operations and proposals *)
Lemma solid_str s l : (1 <= blen (w_str s ++ l))%N.
Proof.
  unfold w_str, w_count. autorewrite with blen. unfold blen at 1. rewrite length_le_bytes.
  change (N.of_nat 4) with 4%N. lia.
Qed.
#[export] Instance solid_spec : Solid w_spec spec_ok.
Proof. intros s _. apply solid_str. Qed.
#[export] Instance solid_target : Solid w_target target_ok.
Proof. intros t _. apply solid_str. Qed.
#[export] Instance solid_input : Solid w_input input_ok.
Proof. intros i _. apply solid_str. Qed.

#[export] Instance wire_targets : Wire r_targets w_targets (list_ok target_ok).
Proof. apply wire_list; apply _. Qed.

Lemma op_ok_iff {R} (ok : R → bool) (op : Operation R) :
  op_ok ok op = true ↔ list_ok target_ok (sources op) = true ∧ list_ok ok (results op) = true.
Proof. unfold op_ok, list_ok. rewrite !andb_true_iff. naive_solver. Qed.
Lemma list_ok_one {A} (ok : A → bool) a : list_ok ok [a] = true ↔ ok a = true.
Proof. unfold list_ok. cbn. rewrite !andb_true_r. done. Qed.

Lemma op_reads op rest : op_ok spec_ok op = true → r_op (w_op op ++ rest) = Ok (op, rest).
Proof.
  intros [Hs Hr]%op_ok_iff.
  destruct op as [r|ts r|t rs|t|t [r|]|ts|t reason]; cbn [sources results option_list option_rect w_op] in *;
    rewrite ?list_ok_one in *; tag_forward; part_forward; done.
Qed.
Lemma op_exact bs op rest :
  r_op bs = Ok (op, rest) → op_ok spec_ok op = true ∧ bs = w_op op ++ rest.
Proof.
  intros H. unfold r_op in H. tag_backward H; wire_backward.
  all: try (rewrite op_ok_iff; cbn [sources results option_list option_rect]; rewrite ?list_ok_one;
            split; [by ok_split|by cbn [w_op]; rewrite <-?app_assoc]).
  case_match; [|case_match]; wire_backward; try discriminate;
    rewrite op_ok_iff; cbn [sources results option_list option_rect]; rewrite ?list_ok_one;
    split; [by ok_split|by cbn [w_op]; rewrite <-?app_assoc|by ok_split|by cbn [w_op]; rewrite <-?app_assoc].
Qed.
#[export] Instance wire_op : Wire r_op w_op (op_ok spec_ok).
Proof. split; [exact (λ op rest, op_reads op rest)|apply op_exact]. Qed.

Lemma header_project project proposer :
  check_proposal_header project proposer = Ok tt → id_ok project = true.
Proof.
  unfold check_proposal_header, check_project_id. intros H.
  destruct (check_id _ _ _) as [[]|[]] eqn:Hc; cbn in H; try discriminate. by eapply check_id_ok.
Qed.
Lemma is_ok_unit {E} (m : result E unit) : is_ok m = true ↔ m = Ok tt.
Proof. destruct m as [[]|]; naive_solver. Qed.

#[export] Instance wire_proposal : Wire r_proposal w_proposal proposal_ok.
Proof.
  unfold proposal_ok. split.
  - intros [project proposer observed op rationale] rest H. cbn [ep_project ep_proposer ep_observed_at ep_op ep_rationale] in H.
    bool_prop. rewrite is_ok_unit in *. unfold w_proposal, r_proposal.
    cbn [ep_project ep_proposer ep_observed_at ep_op ep_rationale]. rewrite <-?app_assoc.
    eapply rseq_step; [by eapply r_id_reads, header_project|]. cbn beta.
    eapply rseq_step.
    { pose proof (λ rest, wire_reads (Wire := wire_proposer) proposer rest) as Hw. cbn beta in Hw.
      rewrite <-Hw by done. by rewrite <-?app_assoc. }
    cbn beta. part_forward. unfold rlift, ExpertProposal_new.
    by repeat match goal with H : _ = Ok tt |- _ => rewrite H; clear H end.
  - intros bs p rest H. unfold r_proposal in H. wire_backward. unfold rlift in H.
    destruct (ExpertProposal_new _ _ _ _ _) as [q|] eqn:Hq; [|done]. injection H as <- <-.
    unfold ExpertProposal_new in Hq. result_inv. unfold w_proposal.
    cbn [ep_project ep_proposer ep_observed_at ep_op ep_rationale]. split.
    + ok_join; by apply is_ok_unit.
    + cbn beta. by rewrite <-?app_assoc.
Qed.
