(* ===== verification/Security.v ===== *)
(** * The effect boundary: crates/ptr-security

    [PermissionSet::authorize] decides whether an action may cross the effect
    boundary, against a snapshot of the runtime's revision and generation.  The
    theorems give the decision exactly, on every branch, and show that no
    research switch relaxes an effect that leaves the process. *)

From S2P Require Import Prelude Bytes Types.
From stdpp Require Import options.

Record PermissionSet := {
  capabilities : gset string;
  allow_mutation : bool;
  allow_external : bool;
  allow_irreversible : bool
}.

Record ActionAuthorization := {
  aa_target : string;
  aa_capability : string;
  aa_effect : Effect;
  action_revision : Revision;
  current_revision : Revision;
  action_generation : Generation;
  current_generation : option Generation;
  generation_revoked : bool;
  require_capability : bool;
  require_current_revision : bool;
  require_live_generation : bool
}.

Inductive AuthorizationDenial :=
| StaleRevision (action current : Revision)
| UnknownGeneration (target : string)
| StaleGeneration (target : string) (action : Generation) (current : option Generation)
| MissingCapability (capability : string)
| EffectNotPermitted (effect : Effect).

Record AuthorizationReceipt := {
  ar_target : string;
  ar_revision : Revision;
  ar_generation : Generation;
  ar_capability : string;
  ar_effect : Effect
}.

Inductive AuthorizationDecision :=
| Allow (receipt : AuthorizationReceipt)
| Deny (denial : AuthorizationDenial).

Definition allows_effect (p : PermissionSet) (effect : Effect) : bool :=
  match effect with
  | Pure | Read => true
  | Mutation => allow_mutation p
  | External => allow_external p
  | Irreversible => allow_irreversible p
  end.

Definition allows (p : PermissionSet) (capability : string) (effect : Effect) : bool :=
  bool_decide (capability ∈ capabilities p) && allows_effect p effect.

Definition hard_boundary (effect : Effect) : bool :=
  match effect with
  | Mutation | External | Irreversible => true
  | Pure | Read => false
  end.

Definition authorize (p : PermissionSet) (request : ActionAuthorization) : AuthorizationDecision :=
  let hard := hard_boundary (aa_effect request) in
  if (hard || require_current_revision request)
     && negb (bool_decide (action_revision request = current_revision request))
  then Deny (StaleRevision (action_revision request) (current_revision request)) else
  let generation_denial :=
    if hard || require_live_generation request then
      if generation_revoked request
         || match current_generation request with
            | Some generation => negb (bool_decide (generation = action_generation request))
            | None => false
            end
      then Some (StaleGeneration (aa_target request) (action_generation request)
                   (current_generation request))
      else match current_generation request with
           | None => Some (UnknownGeneration (aa_target request))
           | Some _ => None
           end
    else None in
  match generation_denial with
  | Some denial => Deny denial
  | None =>
      if (hard || require_capability request)
         && negb (bool_decide (aa_capability request ∈ capabilities p))
      then Deny (MissingCapability (aa_capability request)) else
      if negb (allows_effect p (aa_effect request))
      then Deny (EffectNotPermitted (aa_effect request)) else
      Allow {| ar_target := aa_target request;
               ar_revision := action_revision request;
               ar_generation := action_generation request;
               ar_capability := aa_capability request;
               ar_effect := aa_effect request |}
  end.

(** ** Specification

    The four gates, as propositions over the request. *)
Section Gates.
Context (p : PermissionSet) (r : ActionAuthorization).

Definition checks_revision : Prop :=
  hard_boundary (aa_effect r) = true ∨ require_current_revision r = true.
Definition checks_generation : Prop :=
  hard_boundary (aa_effect r) = true ∨ require_live_generation r = true.
Definition checks_capability : Prop :=
  hard_boundary (aa_effect r) = true ∨ require_capability r = true.

Definition fresh_revision : Prop := action_revision r = current_revision r.
Definition live_generation : Prop :=
  generation_revoked r = false ∧ current_generation r = Some (action_generation r).
(** A generation the runtime knows nothing about and has not revoked. *)
Definition unknown_generation : Prop :=
  generation_revoked r = false ∧ current_generation r = None.
Definition holds_capability : Prop := aa_capability r ∈ capabilities p.
End Gates.

Definition receipt_of (r : ActionAuthorization) : AuthorizationReceipt :=
  {| ar_target := aa_target r; ar_revision := action_revision r;
     ar_generation := action_generation r; ar_capability := aa_capability r;
     ar_effect := aa_effect r |}.

(** What each denial claims about the request it answers. *)
Definition denial_justified (p : PermissionSet) (r : ActionAuthorization)
    (d : AuthorizationDenial) : Prop :=
  let passed_revision := checks_revision r → fresh_revision r in
  let passed_generation := checks_generation r → live_generation r in
  let passed_capability := checks_capability r → holds_capability p r in
  match d with
  | StaleRevision a c =>
      a = action_revision r ∧ c = current_revision r ∧ checks_revision r ∧ a ≠ c
  | StaleGeneration t a c =>
      t = aa_target r ∧ a = action_generation r ∧ c = current_generation r ∧
      passed_revision ∧ checks_generation r ∧ ¬ live_generation r ∧ ¬ unknown_generation r
  | UnknownGeneration t =>
      t = aa_target r ∧ passed_revision ∧ checks_generation r ∧ unknown_generation r
  | MissingCapability c =>
      c = aa_capability r ∧ passed_revision ∧ passed_generation ∧
      checks_capability r ∧ ¬ holds_capability p r
  | EffectNotPermitted e =>
      e = aa_effect r ∧ passed_revision ∧ passed_generation ∧ passed_capability ∧
      allows_effect p e = false
  end.

Definition relax_switches (c v g : bool) (r : ActionAuthorization) : ActionAuthorization :=
  {| aa_target := aa_target r; aa_capability := aa_capability r; aa_effect := aa_effect r;
     action_revision := action_revision r; current_revision := current_revision r;
     action_generation := action_generation r; current_generation := current_generation r;
     generation_revoked := generation_revoked r; require_capability := c;
     require_current_revision := v; require_live_generation := g |}.

(** The decision, characterised on every branch at once. *)
Lemma authorize_spec p r :
  match authorize p r with
  | Allow receipt =>
      receipt = receipt_of r ∧
      (checks_revision r → fresh_revision r) ∧ (checks_generation r → live_generation r) ∧
      (checks_capability r → holds_capability p r) ∧ allows_effect p (aa_effect r) = true
  | Deny d => denial_justified p r d
  end.
Proof.
  destruct r as [t c e ar cr ag cg gr rc rr rg].
  unfold denial_justified, checks_revision, checks_generation, checks_capability,
    fresh_revision, live_generation, unknown_generation, holds_capability, receipt_of,
    authorize; simpl.
  destruct (hard_boundary e), rr; simpl; try case_bool_decide; simpl; subst;
    try naive_solver;
    (destruct rg, gr, cg as [g|]; simpl; try case_bool_decide; simpl; subst;
     try naive_solver);
    (destruct rc; simpl; try case_bool_decide; simpl; subst; try naive_solver);
    (destruct (allows_effect p e) eqn:?; simpl; naive_solver).
Qed.

(** [authorize] allows an action exactly when every gate it owes passes
    (fresh revision, live known generation, held capability, permitted effect)
    and the receipt restates the request: nothing else is allowed and nothing
    that passes is refused. *)
Theorem authorize_allow_iff p r receipt :
  authorize p r = Allow receipt ↔
  receipt = receipt_of r ∧
  (checks_revision r → fresh_revision r) ∧ (checks_generation r → live_generation r) ∧
  (checks_capability r → holds_capability p r) ∧ allows_effect p (aa_effect r) = true.
Proof.
  pose proof (authorize_spec p r) as Hs. split; [by intros H; rewrite H in Hs|].
  intros (-> & Hr & Hg & Hc & He).
  destruct (authorize p r) as [rc|d]; [by f_equal; apply Hs|]. exfalso.
  destruct d; simpl in Hs; unfold fresh_revision, live_generation, unknown_generation in *;
    naive_solver congruence.
Qed.

(** Every refusal is the first gate the request fails, in the order
    revision, generation, capability, effect, and carries the values that
    failed it. *)
Theorem authorize_deny_justified p r d :
  authorize p r = Deny d → denial_justified p r d.
Proof. intros H. pose proof (authorize_spec p r) as Hs. by rewrite H in Hs. Qed.

(** For an effect that leaves the process (Mutation, External or
    Irreversible) the three research switches have no influence on the
    decision. *)
Theorem authorize_switches_ignored p r c v g :
  hard_boundary (aa_effect r) = true →
  authorize p (relax_switches c v g r) = authorize p r.
Proof. intros H. unfold authorize, relax_switches; simpl. by rewrite H. Qed.

(** *** Witnesses *)
Definition demo_permissions : PermissionSet :=
  {| capabilities := {["notes.write"]}; allow_mutation := true;
     allow_external := false; allow_irreversible := false |}.
Definition demo_action (effect : Effect) (revision : Revision) : ActionAuthorization :=
  {| aa_target := "demo-note"; aa_capability := "notes.write"; aa_effect := effect;
     action_revision := revision; current_revision := 7; action_generation := 2;
     current_generation := Some 2%N; generation_revoked := false;
     require_capability := true; require_current_revision := true;
     require_live_generation := true |}.

Lemma authorize_deny_justified_witness :
  denial_justified demo_permissions (demo_action External 7) (EffectNotPermitted External).
Proof. apply (authorize_deny_justified demo_permissions). vm_compute. reflexivity. Defined.

Lemma authorize_switches_ignored_witness :
  authorize demo_permissions (relax_switches false false false (demo_action Mutation 6))
  = Deny (StaleRevision 6 7).
Proof.
  rewrite (authorize_switches_ignored demo_permissions (demo_action Mutation 6)).
  - vm_compute. reflexivity.
  - reflexivity.
Defined.
