(* ===== verification/Mailbox.v ===== *)
(** * The bounded mailbox: crates/ptr-exec

    One receiving owner, any number of senders.  [Shared] is the structure all
    handles point to; every operation is a function on it, run under its mutex,
    so an execution is a sequence of operations whatever threads they come
    from.  The second half of the file refines each critical section into its
    individual atomic stores, to say what a reader without the lock can see. *)

From S2P Require Import Prelude.
From stdpp Require Import options.

Inductive SendError (T : Type) := Full (value : T) | SendClosed (value : T).
Arguments Full {T} value.
Arguments SendClosed {T} value.

Definition SendError_into_inner {T} (e : SendError T) : T :=
  match e with
  | Full value | SendClosed value => value
  end.

Inductive Receive (T : Type) := Message (value : T) | Empty | ReceiveClosed.
Arguments Message {T} value.
Arguments Empty {T}.
Arguments ReceiveClosed {T}.

Definition Receive_into_message {T} (r : Receive T) : option T :=
  match r with
  | Message value => Some value
  | Empty | ReceiveClosed => None
  end.

(** [Shared] with the [State] its mutex guards; [depth], [peak] and
    [closed_flag] are the atomics mirrored for readers without the lock. *)
Record Shared (T : Type) := {
  mb_capacity : nat;
  mb_queue : list T;
  mb_closed : bool;
  mb_depth : nat;
  mb_peak : nat;
  mb_closed_flag : bool
}.
Arguments mb_capacity {T} _.
Arguments mb_queue {T} _.
Arguments mb_closed {T} _.
Arguments mb_depth {T} _.
Arguments mb_peak {T} _.
Arguments mb_closed_flag {T} _.

(** [Mailbox::bounded]. *)
Definition bounded {T} (capacity : nat) : Shared T :=
  {| mb_capacity := capacity; mb_queue := []; mb_closed := false;
     mb_depth := 0; mb_peak := 0; mb_closed_flag := false |}.

Definition try_send {T} (s : Shared T) (value : T) : result (SendError T) unit * Shared T :=
  if mb_closed s then (Err (SendClosed value), s) else
  if (mb_capacity s <=? length (mb_queue s))%nat then (Err (Full value), s) else
  let queue := mb_queue s ++ [value] in
  let depth := length queue in
  (Ok tt,
   {| mb_capacity := mb_capacity s; mb_queue := queue; mb_closed := mb_closed s;
      mb_depth := depth; mb_peak := Nat.max (mb_peak s) depth;
      mb_closed_flag := mb_closed_flag s |}).

Definition mailbox_close {T} (s : Shared T) : Shared T :=
  {| mb_capacity := mb_capacity s; mb_queue := mb_queue s; mb_closed := true;
     mb_depth := mb_depth s; mb_peak := mb_peak s; mb_closed_flag := true |}.

(** [Mailbox::try_receive]. *)
Definition try_receive {T} (s : Shared T) : Receive T * Shared T :=
  match mb_queue s with
  | value :: queue =>
      (Message value,
       {| mb_capacity := mb_capacity s; mb_queue := queue; mb_closed := mb_closed s;
          mb_depth := length queue; mb_peak := mb_peak s;
          mb_closed_flag := mb_closed_flag s |})
  | [] => (if mb_closed s then ReceiveClosed else Empty, s)
  end.

Definition try_recv {T} (s : Shared T) : option T * Shared T :=
  let '(r, s') := try_receive s in (Receive_into_message r, s').

(** [Drop for Mailbox]: the drained queue is returned so that what was
    released is part of the model. *)
Definition mailbox_drop {T} (s : Shared T) : list T * Shared T :=
  (mb_queue s,
   {| mb_capacity := mb_capacity s; mb_queue := []; mb_closed := true;
      mb_depth := 0; mb_peak := mb_peak s; mb_closed_flag := true |}).

Definition is_closed {T} (s : Shared T) : bool := mb_closed_flag s.
Definition depth {T} (s : Shared T) : nat := mb_depth s.
Definition peak_depth {T} (s : Shared T) : nat := mb_peak s.

(** ** Executions *)
Inductive mailbox_op (T : Type) := OpSend (value : T) | OpReceive | OpClose | OpDrop.
Arguments OpSend {T} value.
Arguments OpReceive {T}.
Arguments OpClose {T}.
Arguments OpDrop {T}.

(** What an execution observes: the values a send accepted, the messages the
    owner received and the values its drop released. *)
Record mailbox_log (T : Type) := {
  log_accepted : list T;
  log_received : list T;
  log_released : list T
}.
Arguments log_accepted {T} _.
Arguments log_received {T} _.
Arguments log_released {T} _.

Definition mailbox_step {T} (s : Shared T) (op : mailbox_op T) : mailbox_log T * Shared T :=
  match op with
  | OpSend v =>
      let '(r, s') := try_send s v in
      ({| log_accepted := if is_ok r then [v] else []; log_received := []; log_released := [] |}, s')
  | OpReceive =>
      let '(r, s') := try_recv s in
      ({| log_accepted := []; log_received := option_list r; log_released := [] |}, s')
  | OpClose =>
      ({| log_accepted := []; log_received := []; log_released := [] |}, mailbox_close s)
  | OpDrop =>
      let '(l, s') := mailbox_drop s in
      ({| log_accepted := []; log_received := []; log_released := l |}, s')
  end.

Fixpoint mailbox_run {T} (s : Shared T) (ops : list (mailbox_op T)) : mailbox_log T * Shared T :=
  match ops with
  | [] => ({| log_accepted := []; log_received := []; log_released := [] |}, s)
  | op :: ops =>
      let '(l1, s1) := mailbox_step s op in
      let '(l2, s2) := mailbox_run s1 ops in
      ({| log_accepted := log_accepted l1 ++ log_accepted l2;
          log_received := log_received l1 ++ log_received l2;
          log_released := log_released l1 ++ log_released l2 |}, s2)
  end.

(** ** Invariant *)
Definition mailbox_wf {T} (s : Shared T) : Prop :=
  mb_depth s = length (mb_queue s) ∧ length (mb_queue s) ≤ mb_capacity s ∧
  mb_depth s ≤ mb_peak s ∧ mb_peak s ≤ mb_capacity s ∧
  mb_closed_flag s = mb_closed s.

Lemma bounded_wf {T} c : mailbox_wf (@bounded T c).
Proof. repeat split; simpl; lia. Qed.

Lemma mailbox_step_wf {T} (s : Shared T) op :
  mailbox_wf s → mailbox_wf (mailbox_step s op).2 ∧
  mb_capacity (mailbox_step s op).2 = mb_capacity s.
Proof.
  intros (Hd & Hc & Hp & Hpc & Hf). unfold mailbox_wf.
  destruct op as [v| | |]; simpl; unfold try_send, try_recv, try_receive.
  - destruct (mb_closed s) eqn:?; simpl; [by rewrite Heqb|].
    destruct (Nat.leb_spec (mb_capacity s) (length (mb_queue s))); simpl; [by rewrite Heqb|].
    rewrite length_app; simpl. repeat split; try congruence; lia.
  - destruct (mb_queue s) as [|x q] eqn:Hq; simpl in *;
      repeat split; rewrite ?Hq; simpl; try congruence; lia.
  - repeat split; done.
  - repeat split; simpl; try done; lia.
Qed.

Lemma mailbox_run_wf {T} ops (s : Shared T) :
  mailbox_wf s → mailbox_wf (mailbox_run s ops).2 ∧
  mb_capacity (mailbox_run s ops).2 = mb_capacity s.
Proof.
  revert s. induction ops as [|op ops IH]; intros s Hs; [done|]. simpl.
  destruct (mailbox_step s op) as [l1 s1] eqn:E1.
  destruct (mailbox_step_wf s op Hs) as [H1 Hc1]. rewrite E1 in *; simpl in *.
  destruct (mailbox_run s1 ops) as [l2 s2] eqn:E2.
  destruct (IH s1 H1) as [H2 Hc2]. rewrite E2 in *; simpl in *. split; [done|congruence].
Qed.

(** After any sequence of sends, receives, closes and drops the mailbox
    holds at most its capacity, the published depth is the queue length, the
    published peak bounds it and never exceeds the capacity, and the published
    closed flag is the real one. *)
Theorem mailbox_bounded {T} capacity (ops : list (mailbox_op T)) :
  let s := (mailbox_run (bounded capacity) ops).2 in
  mailbox_wf s ∧ mb_capacity s = capacity.
Proof. apply (mailbox_run_wf ops (bounded capacity)), bounded_wf. Qed.

Lemma mailbox_step_fifo {T} (s : Shared T) op l s' :
  mailbox_step s op = (l, s') →
  mb_queue s ++ log_accepted l = log_received l ++ log_released l ++ mb_queue s'.
Proof.
  destruct op as [v| | |]; simpl; unfold try_send, try_recv, try_receive.
  - repeat case_match; intros; simplify_eq/=; by rewrite ?app_nil_r.
  - repeat case_match; intros; simplify_eq/=; by rewrite ?app_nil_r.
  - intros; simplify_eq/=. by rewrite app_nil_r.
  - intros; simplify_eq/=. by rewrite !app_nil_r.
Qed.

Lemma mailbox_run_dead {T} ops (s : Shared T) :
  mb_closed s = true → mb_queue s = [] →
  let '(l, s') := mailbox_run s ops in
  log_accepted l = [] ∧ log_received l = [] ∧ log_released l = [] ∧ mb_queue s' = [].
Proof.
  revert s. induction ops as [|op ops IH]; intros s Hc Hq; [done|]. simpl.
  destruct (mailbox_step s op) as [l1 s1] eqn:E1.
  assert (mb_closed s1 = true ∧ mb_queue s1 = [] ∧ log_accepted l1 = [] ∧
          log_received l1 = [] ∧ log_released l1 = []) as (Hc1 & Hq1 & -> & -> & ->).
  { destruct op; simpl in E1; unfold try_send, try_recv, try_receive in E1;
      rewrite ?Hc, ?Hq in E1; simplify_eq/=; auto. }
  specialize (IH s1 Hc1 Hq1). destruct (mailbox_run s1 ops) as [l2 s2]. simpl. done.
Qed.

Lemma mailbox_run_fifo {T} ops (s : Shared T) l s' :
  mailbox_run s ops = (l, s') →
  mb_queue s ++ log_accepted l = log_received l ++ log_released l ++ mb_queue s'.
Proof.
  revert s l s'. induction ops as [|op ops IH]; intros s l s' H; simpl in H.
  { simplify_eq/=. by rewrite app_nil_r. }
  destruct (mailbox_step s op) as [l1 s1] eqn:E1.
  destruct (mailbox_run s1 ops) as [l2 s2] eqn:E2. simplify_eq/=.
  pose proof (mailbox_step_fifo _ _ _ _ E1) as Hstep.
  pose proof (IH _ _ _ E2) as Hrun.
  destruct (decide (log_released l1 = [])) as [Hrel|Hrel].
  { rewrite Hrel in *. simpl in *. rewrite (assoc_L (++)), Hstep, <-!(assoc_L (++)). by f_equal. }
  destruct op; simpl in E1; unfold try_send, try_recv, try_receive in E1;
    repeat case_match; simplify_eq/=.
  pose proof (mailbox_run_dead ops (mailbox_drop s).2 eq_refl eq_refl) as Hdead.
  simpl in Hdead. rewrite E2 in Hdead. destruct Hdead as (-> & -> & -> & ->).
  by rewrite !app_nil_r.
Qed.

(** C38: no message is lost, duplicated or reordered: in any execution from an
    empty mailbox the accepted values, in the order they were accepted, are
    the received ones followed by those the owner's drop released and those
    still queued. *)
Theorem mailbox_fifo {T} capacity (ops : list (mailbox_op T)) l s :
  mailbox_run (bounded capacity) ops = (l, s) →
  log_accepted l = log_received l ++ log_released l ++ mb_queue s.
Proof. intros H. by apply mailbox_run_fifo in H. Qed.

Lemma mailbox_step_closed {T} (s : Shared T) op :
  mb_closed s = true → mb_closed (mailbox_step s op).2 = true.
Proof.
  intros H. destruct op; simpl; unfold try_send, try_recv, try_receive;
    repeat case_match; simplify_eq/=; done.
Qed.

Lemma mailbox_run_closed {T} ops (s : Shared T) :
  mb_closed s = true → mb_closed (mailbox_run s ops).2 = true.
Proof.
  revert s. induction ops as [|op ops IH]; intros s H; [done|]. simpl.
  pose proof (mailbox_step_closed s op H) as H1.
  destruct (mailbox_step s op) as [l1 s1]. specialize (IH s1 H1).
  by destruct (mailbox_run s1 ops).
Qed.

(** A refused send changes nothing and hands its value back: it is
    [Closed] exactly when the mailbox is closed, [Full] exactly when it is open
    and holds its capacity; and a close is final, every send after it being
    refused as [Closed] whatever happened in between. *)
Theorem try_send_refusals {T} (s : Shared T) v ops :
  ((try_send s v).1 = Ok tt ↔ mb_closed s = false ∧ length (mb_queue s) < mb_capacity s) ∧
  (∀ e, (try_send s v).1 = Err e →
     (try_send s v).2 = s ∧ SendError_into_inner e = v ∧
     (e = SendClosed v ↔ mb_closed s = true) ∧
     (e = Full v ↔ mb_closed s = false ∧ mb_capacity s ≤ length (mb_queue s))) ∧
  (try_send (mailbox_run (mailbox_close s) ops).2 v).1 = Err (SendClosed v).
Proof.
  split; [|split].
  - unfold try_send. destruct (mb_closed s); simpl; [naive_solver|].
    destruct (Nat.leb_spec (mb_capacity s) (length (mb_queue s))); naive_solver lia.
  - intros e. unfold try_send. destruct (mb_closed s); simpl; [naive_solver|].
    destruct (Nat.leb_spec (mb_capacity s) (length (mb_queue s))); naive_solver lia.
  - unfold try_send. by rewrite mailbox_run_closed.
Qed.

(** ** Readers without the lock

    The atomics of one critical section are stored one after the other; a
    reader may load between any two of them.  [pending] holds the stores the
    lock holder has still to make (the lock is free when it is empty).  Loads
    and stores interleave sequentially, which the Acquire/Release pairs of the
    code give for the values related here. *)
Inductive store := FetchMaxPeak (n : nat) | StoreDepth (n : nat).

Record micro (T : Type) := {
  mi_queue : list T;
  mi_depth : nat;
  mi_peak : nat;
  mi_pending : list store
}.
Arguments mi_queue {T} _.
Arguments mi_depth {T} _.
Arguments mi_peak {T} _.
Arguments mi_pending {T} _.

Section Micro.
Context {T : Type} (capacity : nat).

(** The stores of [Shared::try_send] (peak first), of [Shared::receive] and of
    the drop, each in program order. *)
Inductive micro_step : micro T → micro T → Prop :=
| micro_send v q d p :
    length q < capacity →
    micro_step {| mi_queue := q; mi_depth := d; mi_peak := p; mi_pending := [] |}
      {| mi_queue := q ++ [v]; mi_depth := d; mi_peak := p;
         mi_pending := [FetchMaxPeak (length (q ++ [v])); StoreDepth (length (q ++ [v]))] |}
| micro_receive v q d p :
    micro_step {| mi_queue := v :: q; mi_depth := d; mi_peak := p; mi_pending := [] |}
      {| mi_queue := q; mi_depth := d; mi_peak := p; mi_pending := [StoreDepth (length q)] |}
| micro_drop q d p :
    micro_step {| mi_queue := q; mi_depth := d; mi_peak := p; mi_pending := [] |}
      {| mi_queue := []; mi_depth := d; mi_peak := p; mi_pending := [StoreDepth 0] |}
| micro_peak q d p n rest :
    micro_step {| mi_queue := q; mi_depth := d; mi_peak := p; mi_pending := FetchMaxPeak n :: rest |}
      {| mi_queue := q; mi_depth := d; mi_peak := Nat.max p n; mi_pending := rest |}
| micro_depth q d p n rest :
    micro_step {| mi_queue := q; mi_depth := d; mi_peak := p; mi_pending := StoreDepth n :: rest |}
      {| mi_queue := q; mi_depth := n; mi_peak := p; mi_pending := rest |}.

Definition micro_init : micro T :=
  {| mi_queue := []; mi_depth := 0; mi_peak := 0; mi_pending := [] |}.

Definition micro_wf (m : micro T) : Prop :=
  length (mi_queue m) ≤ capacity ∧ mi_depth m ≤ mi_peak m ∧ mi_peak m ≤ capacity ∧
  match mi_pending m with
  | [] => mi_depth m = length (mi_queue m)
  | [StoreDepth n] => n = length (mi_queue m) ∧ n ≤ mi_peak m
  | [FetchMaxPeak n; StoreDepth n'] => n = length (mi_queue m) ∧ n' = n
  | _ => False
  end.

Lemma micro_step_wf m m' : micro_wf m → micro_step m m' → micro_wf m' ∧ mi_peak m ≤ mi_peak m'.
Proof.
  intros (Hq & Hd & Hp & Hs) Hstep. unfold micro_wf.
  destruct Hstep; simpl in *; rewrite ?length_app in *; simpl in *.
  - split; [|lia]. repeat split; lia.
  - split; [|lia]. repeat split; lia.
  - split; [|lia]. repeat split; lia.
  - destruct rest as [|[|n'] [|]]; try done. destruct Hs as [-> ->].
    split; [|lia]. repeat split; lia.
  - destruct rest; [|done]. destruct Hs as [-> ?]. split; [|lia]. repeat split; lia.
Qed.

Lemma micro_steps_wf m m' :
  micro_wf m → rtc micro_step m m' → micro_wf m' ∧ mi_peak m ≤ mi_peak m'.
Proof.
  intros Hm Hsteps. induction Hsteps as [m|m1 m2 m3 Hs _ IH]; [done|].
  apply micro_step_wf in Hs as [Hm2 ?]; [|done]. destruct (IH Hm2). split; [done|lia].
Qed.
End Micro.

(** A reader on another thread that loads the depth and later the peak,
    at any two moments of any execution, never sees a depth above the peak,
    nor either above the capacity. *)
Theorem reader_never_sees_depth_above_peak {T} capacity (m1 m2 : micro T) :
  rtc (micro_step capacity) micro_init m1 → rtc (micro_step capacity) m1 m2 →
  mi_depth m1 ≤ mi_peak m2 ∧ mi_peak m2 ≤ capacity.
Proof.
  intros H1 H2. apply micro_steps_wf in H1 as [Hw1 _].
  - pose proof Hw1 as (_ & Hd & _). apply micro_steps_wf in H2 as [(_ & _ & Hp & _) ?]; [|done].
    split; lia.
  - unfold micro_wf; simpl. repeat split; lia.
Qed.

(** *** Witnesses *)
Lemma mailbox_fifo_witness :
  ∃ l s, mailbox_run (bounded 2) [OpSend 1; OpSend 2; OpSend 3; OpReceive; OpClose; OpSend 4] = (l, s) ∧
  log_accepted l = [1; 2] ∧ log_accepted l = log_received l ++ log_released l ++ mb_queue s.
Proof.
  do 2 eexists. split; [reflexivity|]. split; [reflexivity|].
  eapply (mailbox_fifo 2 [OpSend 1; OpSend 2; OpSend 3; OpReceive; OpClose; OpSend 4]).
  reflexivity.
Defined.

Lemma reader_never_sees_depth_above_peak_witness :
  ∃ m1 m2 : micro nat, mi_depth m1 = 1 ∧ mi_depth m1 ≤ mi_peak m2 ∧ mi_peak m2 ≤ 1.
Proof.
  eexists {| mi_queue := [7]; mi_depth := 1; mi_peak := 1; mi_pending := [] |}, _.
  split; [reflexivity|].
  eapply (reader_never_sees_depth_above_peak 1); [|apply rtc_refl].
  eapply rtc_l; [apply (micro_send 1 7); simpl; lia|].
  eapply rtc_l; [apply micro_peak|]. eapply rtc_l; [apply micro_depth|]. apply rtc_refl.
Defined.
