(* ===== verification/SemDelta.v ===== *)
(** * Semantic values, deltas and their canonical encoding: crates/ptr-semdb

    [SemanticDelta] is the unit of change of the semantic store.  Its version-1
    encoding is what the ledger records and what replay decodes, so the two
    halves of codec.rs are modelled in full: the bounded [Writer], the [Reader]
    with its limits, and the canonicality check that ends a decode. *)

From S2P Require Import Prelude Bytes.
From stdpp Require Import options.

Definition INGRESS_PREFIXES : list string := ["request:"; "pod-output:"; "pod-candidate:"].

Definition is_ingress_key (key : string) : bool :=
  existsb (starts_with key) INGRESS_PREFIXES.

Record SemanticPayload := {
  sp_type_id : string;
  sp_source : string;
  sp_bytes : list byte
}.

Inductive SemanticValue :=
| Text (text : string)
| Payload (payload : SemanticPayload).

Record SemanticDelta := {
  upserts : gmap string SemanticValue;
  removals : gset string;
  dependencies : gmap string (gset string)
}.

Inductive SemanticError :=
| LimitExceeded
| InvalidEncoding
| InvalidKey
| ConflictingOperation
| CyclicDependency
| MissingDependency (derived input : string)
| RevisionExhausted
| StalePreparation
| RevisionMismatch (expected actual : N)
| NoChangeRecord.

#[export] Instance SemanticPayload_eq_dec : EqDecision SemanticPayload.
Proof. solve_decision. Defined.
#[export] Instance SemanticValue_eq_dec : EqDecision SemanticValue.
Proof. solve_decision. Defined.
#[export] Instance SemanticDelta_eq_dec : EqDecision SemanticDelta.
Proof. solve_decision. Defined.
#[export] Instance SemanticError_eq_dec : EqDecision SemanticError.
Proof. solve_decision. Defined.

Definition empty_delta : SemanticDelta :=
  {| upserts := ∅; removals := ∅; dependencies := ∅ |}.

Definition MAX_DELTA_BYTES : N := 4 * 1024 * 1024.
Definition MAX_DELTA_ITEMS : N := 16384.
Definition MAX_KEY_BYTES : N := 4096.
Definition DELTA_MAGIC : list byte := str_bytes "PTRSD001".

(** The free function [key]. *)
Definition check_key (value : string) : result SemanticError unit :=
  if bool_decide (value = "") || (MAX_KEY_BYTES <? slen value)%N
  then Err InvalidKey else Ok tt.

(** ** The bounded writer

    A [Writer] method takes the bytes written so far and returns them extended,
    or refuses. *)
Definition Writer : Type := list byte → result SemanticError (list byte).

Definition wthen (w1 w2 : Writer) : Writer := λ out, let? out := w1 out in w2 out.
Notation "w1 '>>' w2" := (wthen w1 w2) (at level 60, right associativity) : ptr_scope.
Definition wskip : Writer := λ out, Ok out.
Definition wfor {A} (f : A → Writer) (l : list A) : Writer :=
  foldr (λ a w, f a >> w) wskip l.

Definition Writer_raw (value : list byte) : Writer := λ out,
  if (MAX_DELTA_BYTES - blen out <? blen value)%N then Err LimitExceeded
  else Ok (out ++ value).

Definition Writer_count (value : N) : Writer := λ out,
  if (MAX_DELTA_ITEMS <? value)%N then Err LimitExceeded
  else Writer_raw (le_bytes 4 value) out.

Definition Writer_bytes (value : list byte) : Writer := λ out,
  if (2 ^ 32 <=? blen value)%N then Err LimitExceeded
  else (Writer_raw (le_bytes 4 (blen value)) >> Writer_raw value) out.

Definition Writer_key (value : string) : Writer := λ out,
  check_key value ;? Writer_bytes (str_bytes value) out.

Definition Writer_value (value : SemanticValue) : Writer :=
  match value with
  | Text text => Writer_raw [x00] >> Writer_bytes (str_bytes text)
  | Payload payload =>
      Writer_raw [x01] >> Writer_key (sp_type_id payload) >>
      Writer_key (sp_source payload) >> Writer_bytes (sp_bytes payload)
  end.

Definition Writer_upsert (entry : string * SemanticValue) : Writer :=
  Writer_key entry.1 >> Writer_value entry.2.

Definition Writer_dependency (entry : string * gset string) : Writer :=
  Writer_key entry.1 >> Writer_count (N.of_nat (size entry.2)) >>
  wfor Writer_key (bset_list entry.2).

(** A removed key that is also upserted, or also gets a dependency entry. *)
Definition conflicting (d : SemanticDelta) : bool :=
  existsb (λ key, bool_decide (is_Some (upserts d !! key))
                  || bool_decide (is_Some (dependencies d !! key)))
    (bset_list (removals d)).

(** [SemanticDelta::encode]. *)
Definition delta_encode (d : SemanticDelta) : result SemanticError (list byte) :=
  if conflicting d then Err ConflictingOperation else
  (Writer_raw DELTA_MAGIC >>
   Writer_count (N.of_nat (size (upserts d))) >> wfor Writer_upsert (btree_list (upserts d)) >>
   Writer_count (N.of_nat (size (removals d))) >> wfor Writer_key (bset_list (removals d)) >>
   Writer_count (N.of_nat (size (dependencies d))) >>
   wfor Writer_dependency (btree_list (dependencies d))) [].

(** ** The reader

    The unread suffix stands for the slice and its offset: [bytes.len() -
    offset] is its length, and [checked_add] on the offset cannot overflow,
    because a length read is below 2^32 and a slice is at most [isize::MAX]. *)
Definition Reader (A : Type) : Type := reader SemanticError A.

Definition Reader_take (n : N) : Reader (list byte) := λ rest,
  if (blen rest <? n)%N then Err InvalidEncoding
  else Ok (take (N.to_nat n) rest, drop (N.to_nat n) rest).

Definition Reader_u32 : Reader N := b <- Reader_take 4 ;; rret (le_value b).

Definition Reader_count : Reader N := λ rest,
  let? (count, rest) := Reader_u32 rest in
  if (MAX_DELTA_ITEMS <? count)%N || (blen rest / 4 <? count)%N
  then Err LimitExceeded else Ok (count, rest).

Definition Reader_bytes : Reader (list byte) := n <- Reader_u32 ;; Reader_take n.

Definition Reader_string : Reader string :=
  b <- Reader_bytes ;;
  if str_ok (bytes_str b) then rret (bytes_str b) else rfail InvalidEncoding.

Definition Reader_key : Reader string :=
  value <- Reader_string ;; _ <- rlift (check_key value) ;; rret value.

Definition Reader_value : Reader SemanticValue :=
  tag <- Reader_take 1 ;;
  match tag with
  | [x00] => text <- Reader_string ;; rret (Text text)
  | [x01] =>
      type_id <- Reader_key ;; source <- Reader_key ;; bytes <- Reader_bytes ;;
      rret (Payload {| sp_type_id := type_id; sp_source := source; sp_bytes := bytes |})
  | _ => rfail InvalidEncoding
  end.

(** The three loops of [decode], each refusing a repeated key. *)
Fixpoint read_upserts (n : nat) (m : gmap string SemanticValue) :
    Reader (gmap string SemanticValue) :=
  match n with
  | O => rret m
  | S n =>
      name <- Reader_key ;; value <- Reader_value ;;
      if bool_decide (is_Some (m !! name)) then rfail InvalidEncoding
      else read_upserts n (<[name := value]> m)
  end.

Fixpoint read_keys (n : nat) (s : gset string) : Reader (gset string) :=
  match n with
  | O => rret s
  | S n =>
      name <- Reader_key ;;
      if bool_decide (name ∈ s) then rfail InvalidEncoding else read_keys n ({[name]} ∪ s)
  end.

Fixpoint read_dependencies (n : nat) (m : gmap string (gset string)) :
    Reader (gmap string (gset string)) :=
  match n with
  | O => rret m
  | S n =>
      name <- Reader_key ;; count <- Reader_count ;; inputs <- read_keys (N.to_nat count) ∅ ;;
      if bool_decide (is_Some (m !! name)) then rfail InvalidEncoding
      else read_dependencies n (<[name := inputs]> m)
  end.

Definition read_delta : Reader SemanticDelta :=
  magic <- Reader_take 8 ;;
  _ <- rlift (if bool_decide (magic = DELTA_MAGIC) then Ok tt else Err InvalidEncoding) ;;
  n <- Reader_count ;; ups <- read_upserts (N.to_nat n) ∅ ;;
  n <- Reader_count ;; rems <- read_keys (N.to_nat n) ∅ ;;
  n <- Reader_count ;; deps <- read_dependencies (N.to_nat n) ∅ ;;
  rret {| upserts := ups; removals := rems; dependencies := deps |}.

(** [SemanticDelta::decode]. *)
Definition delta_decode (bytes : list byte) : result SemanticError SemanticDelta :=
  if (MAX_DELTA_BYTES <? blen bytes)%N then Err LimitExceeded else
  let? (delta, rest) := read_delta bytes in
  if negb (bool_decide (rest = [])) then Err InvalidEncoding else
  let? again := delta_encode delta in
  if negb (bool_decide (again = bytes)) then Err InvalidEncoding else Ok delta.

(** [canonical_input_bytes]. *)
Definition canonical_input_bytes (key : string) (value : SemanticValue) :
    result SemanticError (list byte) :=
  delta_encode {| upserts := {[key := value]}; removals := ∅; dependencies := ∅ |}.
