(* ===== verification/SemDeltaFacts.v ===== *)
(** * The delta codec is a bijection onto the accepted byte strings

    The writer is related to the bytes it emits and the conditions it checks;
    the reader to those bytes.  Together: a delta whose texts are UTF-8 encodes
    to bytes that decode to it, and every accepted byte string is the encoding
    of exactly one delta. *)

From S2P Require Import Prelude Bytes SemDelta.
From stdpp Require Import options.

(** ** What a writer emits *)
Definition Emits (w : Writer) (c : Prop) (p : list byte) : Prop :=
  ∀ out out', w out = Ok out' →
  c ∧ out' = out ++ p ∧ ((blen out ≤ MAX_DELTA_BYTES)%N → (blen out' ≤ MAX_DELTA_BYTES)%N).

Definition enc_bytes (v : list byte) : list byte := le_bytes 4 (blen v) ++ v.
Definition enc_str (s : string) : list byte := enc_bytes (str_bytes s).
Definition enc_count (n : N) : list byte := le_bytes 4 n.
Definition enc_value (v : SemanticValue) : list byte :=
  match v with
  | Text t => [x00] ++ enc_str t
  | Payload p => [x01] ++ enc_str (sp_type_id p) ++ enc_str (sp_source p) ++ enc_bytes (sp_bytes p)
  end.
Definition enc_upsert (e : string * SemanticValue) : list byte := enc_str e.1 ++ enc_value e.2.
Definition enc_dependency (e : string * gset string) : list byte :=
  enc_str e.1 ++ enc_count (N.of_nat (size e.2)) ++ mjoin (enc_str <$> bset_list e.2).
Definition delta_bytes (d : SemanticDelta) : list byte :=
  DELTA_MAGIC ++
  enc_count (N.of_nat (size (upserts d))) ++ mjoin (enc_upsert <$> btree_list (upserts d)) ++
  enc_count (N.of_nat (size (removals d))) ++ mjoin (enc_str <$> bset_list (removals d)) ++
  enc_count (N.of_nat (size (dependencies d))) ++
  mjoin (enc_dependency <$> btree_list (dependencies d)).

Definition bytes_fit (v : list byte) : Prop := (blen v < 2 ^ 32)%N.
Definition key_fits (s : string) : Prop := check_key s = Ok tt ∧ bytes_fit (str_bytes s).
Definition count_fits (n : N) : Prop := (n ≤ MAX_DELTA_ITEMS)%N.
Definition value_fits (v : SemanticValue) : Prop :=
  match v with
  | Text t => bytes_fit (str_bytes t)
  | Payload p => key_fits (sp_type_id p) ∧ key_fits (sp_source p) ∧ bytes_fit (sp_bytes p)
  end.
Definition upsert_fits (e : string * SemanticValue) : Prop := key_fits e.1 ∧ value_fits e.2.
Definition dependency_fits (e : string * gset string) : Prop :=
  key_fits e.1 ∧ count_fits (N.of_nat (size e.2)) ∧ Forall key_fits (bset_list e.2).
Definition delta_fits (d : SemanticDelta) : Prop :=
  conflicting d = false ∧
  count_fits (N.of_nat (size (upserts d))) ∧ Forall upsert_fits (btree_list (upserts d)) ∧
  count_fits (N.of_nat (size (removals d))) ∧ Forall key_fits (bset_list (removals d)) ∧
  count_fits (N.of_nat (size (dependencies d))) ∧
  Forall dependency_fits (btree_list (dependencies d)).

Lemma emits_raw v : Emits (Writer_raw v) True v.
Proof.
  intros out out' H. unfold Writer_raw in H. result_inv. bool_prop.
  autorewrite with blen. repeat split; lia.
Qed.

Lemma emits_then w1 w2 c1 c2 p1 p2 :
  Emits w1 c1 p1 → Emits w2 c2 p2 → Emits (w1 >> w2) (c1 ∧ c2) (p1 ++ p2).
Proof.
  intros H1 H2 out out' H. unfold wthen in H. apply rbind_ok_inv in H as (mid & Hm & H).
  apply H1 in Hm as (? & -> & ?). apply H2 in H as (? & -> & ?).
  rewrite app_assoc. auto.
Qed.

Lemma emits_weaken w c c' p p' : Emits w c p → (c → c') → p = p' → Emits w c' p'.
Proof. intros H Hc <- out out' Hw. apply H in Hw as (? & -> & ?). auto. Qed.

Lemma emits_for {A} (f : A → Writer) (c : A → Prop) (p : A → list byte) l :
  (∀ a, Emits (f a) (c a) (p a)) → Emits (wfor f l) (Forall c l) (mjoin (p <$> l)).
Proof.
  intros Hf. induction l as [|a l IH]; cbn [wfor foldr fmap list_fmap mjoin list_join].
  - intros out out' [= <-]. rewrite app_nil_r. auto.
  - eapply emits_weaken; [apply emits_then; [apply Hf|exact IH]| |done].
    intros [??]. by constructor.
Qed.

Lemma emits_guard (b : bool) e w c p :
  Emits w c p → Emits (λ out, if b then Err e else w out) (b = false ∧ c) p.
Proof. intros H out out' Hw. destruct b; [done|]. apply H in Hw. tauto. Qed.

Lemma emits_count n : Emits (Writer_count n) (count_fits n) (enc_count n).
Proof.
  eapply emits_weaken; [apply emits_guard, emits_raw| |done].
  intros [H _]. bool_prop. done.
Qed.

Lemma emits_bytes v : Emits (Writer_bytes v) (bytes_fit v) (enc_bytes v).
Proof.
  eapply emits_weaken; [apply emits_guard, emits_then; apply emits_raw| |done].
  intros [H _]. bool_prop. done.
Qed.

Lemma emits_key s : Emits (Writer_key s) (key_fits s) (enc_str s).
Proof.
  intros out out' H. unfold Writer_key in H. result_inv.
  apply emits_bytes in H as (? & -> & ?). done.
Qed.

Create HintDb emits.
#[export] Hint Resolve emits_raw emits_then emits_count emits_bytes emits_key : emits.

Lemma emits_value v : Emits (Writer_value v) (value_fits v) (enc_value v).
Proof.
  destruct v; simpl; (eapply emits_weaken; [eauto 6 with emits| |]; [naive_solver|done]).
Qed.

Lemma emits_upsert e : Emits (Writer_upsert e) (upsert_fits e) (enc_upsert e).
Proof. apply emits_then; [apply emits_key|apply emits_value]. Qed.

Lemma emits_dependency e : Emits (Writer_dependency e) (dependency_fits e) (enc_dependency e).
Proof. repeat apply emits_then; auto with emits. apply emits_for, emits_key. Qed.

Lemma delta_encode_emits d bs :
  delta_encode d = Ok bs →
  delta_fits d ∧ bs = delta_bytes d ∧ (blen bs ≤ MAX_DELTA_BYTES)%N.
Proof.
  unfold delta_encode. destruct (conflicting d) eqn:Hc; [done|]. intros H.
  eapply (emits_then _ _ True) in H; [|apply emits_raw|].
  2:{ repeat apply emits_then; try apply emits_count.
      - apply emits_for, emits_upsert.
      - apply emits_for, emits_key.
      - apply emits_for, emits_dependency. }
  destruct H as ([_ H] & -> & Hb). split; [unfold delta_fits; tauto|].
  split; [done|]. apply Hb. done.
Qed.

(** A writer refuses only for a limit or a key. *)
Definition Refuses (w : Writer) : Prop :=
  ∀ out e, w out = Err e → e = LimitExceeded ∨ e = InvalidKey.

Lemma refuses_then w1 w2 : Refuses w1 → Refuses w2 → Refuses (w1 >> w2).
Proof.
  intros H1 H2 out e H. unfold wthen in H. destruct (w1 out) eqn:Hw; simpl in H; [by eapply H2|].
  injection H as <-. by eapply H1.
Qed.
Lemma refuses_raw v : Refuses (Writer_raw v).
Proof. intros out e H. unfold Writer_raw in H. case_match; naive_solver. Qed.
Lemma refuses_count n : Refuses (Writer_count n).
Proof. intros out e H. unfold Writer_count in H. case_match; [naive_solver|by eapply refuses_raw]. Qed.
Lemma refuses_bytes v : Refuses (Writer_bytes v).
Proof.
  intros out e H. unfold Writer_bytes in H. case_match; [naive_solver|].
  by eapply refuses_then in H; [| |]; try apply refuses_raw.
Qed.
Lemma refuses_key s : Refuses (Writer_key s).
Proof.
  intros out e H. unfold Writer_key, check_key in H. case_match; simpl in H; [naive_solver|].
  by eapply refuses_bytes.
Qed.
Lemma refuses_for {A} (f : A → Writer) l : (∀ a, Refuses (f a)) → Refuses (wfor f l).
Proof.
  intros Hf. induction l as [|a l IH]; [by intros ???|]. apply refuses_then; [apply Hf|apply IH].
Qed.
#[export] Hint Resolve refuses_then refuses_raw refuses_count refuses_bytes refuses_key
  refuses_for : emits.

Lemma delta_encode_refuses d e :
  delta_encode d = Err e → e = LimitExceeded ∨ e = InvalidKey ∨ e = ConflictingOperation.
Proof.
  unfold delta_encode. destruct (conflicting d); [naive_solver|]. intros H.
  assert (∀ v, Refuses (Writer_value v)) as Hv by (intros [?|?]; simpl; auto with emits).
  assert (Refuses (Writer_raw DELTA_MAGIC >>
   Writer_count (N.of_nat (size (upserts d))) >> wfor Writer_upsert (btree_list (upserts d)) >>
   Writer_count (N.of_nat (size (removals d))) >> wfor Writer_key (bset_list (removals d)) >>
   Writer_count (N.of_nat (size (dependencies d))) >>
   wfor Writer_dependency (btree_list (dependencies d)))) as Hr.
  { repeat apply refuses_then; auto with emits; apply refuses_for; intros a;
      repeat apply refuses_then; auto with emits. }
  apply Hr in H. naive_solver.
Qed.

(** ** What a reader reads back *)
Definition value_ok (v : SemanticValue) : Prop :=
  match v with
  | Text t => str_ok t = true
  | Payload p => str_ok (sp_type_id p) = true ∧ str_ok (sp_source p) = true
  end.
(** Every text of the delta is a Rust [String]. *)
Definition delta_ok (d : SemanticDelta) : Prop :=
  map_Forall (λ k v, str_ok k = true ∧ value_ok v) (upserts d) ∧
  set_Forall (λ k, str_ok k = true) (removals d) ∧
  map_Forall (λ k s, str_ok k = true ∧ set_Forall (λ i, str_ok i = true) s) (dependencies d).

#[export] Instance value_ok_dec v : Decision (value_ok v).
Proof. destruct v; simpl; apply _. Defined.
#[export] Instance delta_ok_dec d : Decision (delta_ok d).
Proof. unfold delta_ok. apply _. Defined.

Lemma take_reads n v : N.of_nat (length v) = n → Reads (Reader_take n) (Some v) v.
Proof.
  intros Hn p rest [= <-]. unfold Reader_take.
  rewrite (proj2 (N.ltb_ge _ _)) by (autorewrite with blen; unfold blen; lia).
  rewrite <-Hn, Nat2N.id. by rewrite take_app_length, drop_app_length.
Qed.

Lemma u32_reads n : (n < 2 ^ 32)%N → Reads Reader_u32 (Some (le_bytes 4 n)) n.
Proof.
  intros Hn p rest [= <-]. unfold Reader_u32, rseq.
  rewrite (take_reads 4 (le_bytes 4 n)) by done. unfold rret.
  by rewrite le_value_bytes by (simpl; lia).
Qed.

Lemma bytes_reads v : bytes_fit v → Reads Reader_bytes (Some (enc_bytes v)) v.
Proof.
  intros Hv. change (Some (enc_bytes v)) with (wapp (Some (le_bytes 4 (blen v))) (Some v)).
  eapply reads_seq; [by apply u32_reads|]. by apply take_reads.
Qed.

Lemma string_reads s :
  bytes_fit (str_bytes s) → str_ok s = true → Reads Reader_string (Some (enc_str s)) s.
Proof.
  intros Hb Hs p rest [= <-]. unfold Reader_string, rseq.
  rewrite (bytes_reads (str_bytes s)) by done.
  by rewrite String.string_of_list_byte_of_string, Hs.
Qed.

Lemma key_reads s : key_fits s → str_ok s = true → Reads Reader_key (Some (enc_str s)) s.
Proof.
  intros [Hk Hb] Hs p rest [= <-]. unfold Reader_key, rseq.
  rewrite (string_reads s) by done. unfold rlift. by rewrite Hk.
Qed.

Lemma tag_reads {B} x rest (k : list byte → Reader B) :
  rseq (Reader_take 1) k (x :: rest) = k [x] rest.
Proof.
  change (x :: rest) with ([x] ++ rest). unfold rseq.
  by rewrite (take_reads 1 [x] eq_refl [x] rest eq_refl).
Qed.

Lemma value_reads v : value_fits v → value_ok v → Reads Reader_value (Some (enc_value v)) v.
Proof.
  intros Hf Hv p rest [= <-]. unfold Reader_value.
  destruct v as [t|[ty src b]]; cbn [enc_value app sp_type_id sp_source sp_bytes];
    rewrite tag_reads; cbn [value_fits value_ok] in *; unfold rseq.
  - by rewrite (string_reads t).
  - destruct Hf as (?&?&?), Hv as [??]. rewrite <-!app_assoc.
    rewrite (key_reads ty), (key_reads src) by done. by rewrite (bytes_reads b).
Qed.

Lemma count_reads n rest :
  count_fits n → (4 * n ≤ blen rest)%N → Reader_count (enc_count n ++ rest) = Ok (n, rest).
Proof.
  intros Hn Hl. unfold count_fits, MAX_DELTA_ITEMS in Hn. unfold Reader_count.
  rewrite (u32_reads n) by (done || lia). simpl. unfold MAX_DELTA_ITEMS.
  rewrite (proj2 (N.ltb_ge _ _)), (proj2 (N.ltb_ge _ _)) by
    (first [done | apply N.div_le_lower_bound; lia]).
  done.
Qed.

Lemma mjoin_fmap_cons {A B} (f : A → list B) a l :
  mjoin (f <$> a :: l) = f a ++ mjoin (f <$> l).
Proof. done. Qed.

Lemma rseq_reads {A B} (r : Reader A) (k : A → Reader B) p a rest :
  Reads r (Some p) a → rseq r k (p ++ rest) = k a rest.
Proof. intros H. unfold rseq. by rewrite (H p rest eq_refl). Qed.

(** Every item of a collection takes at least four bytes: the limit the reader
    puts on an untrusted count never refuses a genuine one. *)
Lemma items_long {A} (enc : A → list byte) l rest :
  (∀ a, 4 ≤ blen (enc a))%N → (4 * blen l ≤ blen (mjoin (enc <$> l) ++ rest))%N.
Proof.
  intros He. induction l as [|a l IH]; [unfold blen; simpl; lia|].
  rewrite mjoin_fmap_cons.   autorewrite with blen in *. specialize (He a). lia.
Qed.
Lemma enc_str_long s : (4 ≤ blen (enc_str s))%N.
Proof.
  unfold enc_str, enc_bytes. rewrite blen_app. unfold blen at 1.
  rewrite length_le_bytes. lia.
Qed.
Lemma enc_upsert_long e : (4 ≤ blen (enc_upsert e))%N.
Proof. pose proof (enc_str_long e.1). unfold enc_upsert. autorewrite with blen. lia. Qed.
Lemma enc_dependency_long e : (4 ≤ blen (enc_dependency e))%N.
Proof. pose proof (enc_str_long e.1). unfold enc_dependency. autorewrite with blen. lia. Qed.

(** ** The loops of the decoder *)
Lemma read_upserts_reads l m rest :
  NoDup l.*1 → Forall (λ e, m !! e.1 = None) l →
  Forall upsert_fits l → Forall (λ e, str_ok e.1 = true ∧ value_ok e.2) l →
  read_upserts (length l) m (mjoin (enc_upsert <$> l) ++ rest) = Ok (list_to_map l ∪ m, rest).
Proof.
  revert m. induction l as [|[k v] l IH]; intros m Hnd Hm Hf Hv.
  { simpl. by rewrite (left_id_L ∅ (∪)). }
  apply Forall_cons in Hm as [Hk Hm], Hf as [[Hkf Hvf] Hf], Hv as [[Hks Hvs] Hv].
  apply NoDup_cons in Hnd as [Hnk Hnd]. cbn [fst snd length read_upserts] in *.
  rewrite mjoin_fmap_cons. unfold enc_upsert at 1. cbn [fst snd]. rewrite <-!app_assoc.
  rewrite (rseq_reads _ _ _ k) by by apply key_reads.
  rewrite (rseq_reads _ _ _ v) by by apply value_reads.
  rewrite Hk, bool_decide_eq_false_2 by (by intros [? ?]).
  rewrite IH; [|done| |done|done].
  - rewrite <-insert_union_r; [|by apply not_elem_of_list_to_map_1].
    by rewrite insert_union_l.
  - apply Forall_forall. intros [k' v'] Hin. simpl.
    rewrite lookup_insert_ne; [by apply (proj1 (Forall_forall _ _) Hm (k', v'))|].
    intros ->. apply Hnk, list_elem_of_fmap. by exists (k', v').
Qed.

Lemma read_keys_reads l s rest :
  NoDup l → Forall (λ k, k ∉ s) l → Forall key_fits l → Forall (λ k, str_ok k = true) l →
  read_keys (length l) s (mjoin (enc_str <$> l) ++ rest) = Ok (list_to_set l ∪ s, rest).
Proof.
  revert s. induction l as [|k l IH]; intros s Hnd Hm Hf Hv.
  { simpl. by rewrite (left_id_L ∅ (∪)). }
  apply Forall_cons in Hm as [Hk Hm], Hf as [Hkf Hf], Hv as [Hks Hv].
  apply NoDup_cons in Hnd as [Hnk Hnd]. cbn [length read_keys] in *.
  rewrite mjoin_fmap_cons, <-!app_assoc, (rseq_reads _ _ _ k) by by apply key_reads.
  rewrite bool_decide_eq_false_2 by done.
  rewrite IH; [do 2 f_equal; set_solver|done| |done|done].
  apply Forall_forall. intros k' Hin. eapply Forall_forall in Hm; [|done]. set_solver.
Qed.

Lemma read_set_reads s rest :
  Forall key_fits (bset_list s) → set_Forall (λ k, str_ok k = true) s →
  read_keys (size s) ∅ (mjoin (enc_str <$> bset_list s) ++ rest) = Ok (s, rest).
Proof.
  intros Hf Hs. rewrite <-(bset_list_length s), read_keys_reads; [|..|done|].
  - by rewrite bset_list_to_set, (right_id_L ∅ (∪)).
  - apply bset_list_nodup.
  - apply Forall_forall. set_solver.
  - apply Forall_forall. intros k Hk. by apply Hs, elem_of_bset_list.
Qed.

Lemma bset_items_long s rest :
  (4 * N.of_nat (size s) ≤ blen (mjoin (enc_str <$> bset_list s) ++ rest))%N.
Proof. rewrite <-bset_list_length. apply items_long, enc_str_long. Qed.

Lemma read_dependencies_reads l m rest :
  NoDup l.*1 → Forall (λ e, m !! e.1 = None) l → Forall dependency_fits l →
  Forall (λ e, str_ok e.1 = true ∧ set_Forall (λ i, str_ok i = true) e.2) l →
  read_dependencies (length l) m (mjoin (enc_dependency <$> l) ++ rest)
    = Ok (list_to_map l ∪ m, rest).
Proof.
  revert m. induction l as [|[k s] l IH]; intros m Hnd Hm Hf Hv.
  { simpl. by rewrite (left_id_L ∅ (∪)). }
  apply Forall_cons in Hm as [Hk Hm], Hf as [(Hkf & Hcf & Hif) Hf], Hv as [[Hks Hvs] Hv].
  apply NoDup_cons in Hnd as [Hnk Hnd]. cbn [fst snd length read_dependencies] in *.
  rewrite mjoin_fmap_cons. unfold enc_dependency at 1. cbn [fst snd]. rewrite <-!app_assoc.
  rewrite (rseq_reads _ _ _ k) by by apply key_reads.
  unfold rseq at 1. rewrite count_reads by (done || apply bset_items_long).
  unfold rseq. rewrite Nat2N.id, read_set_reads by done.
  rewrite Hk, bool_decide_eq_false_2 by (by intros [? ?]).
  rewrite IH; [|done| |done|done].
  - rewrite <-insert_union_r; [|by apply not_elem_of_list_to_map_1].
    by rewrite insert_union_l.
  - apply Forall_forall. intros [k' v'] Hin. simpl.
    rewrite lookup_insert_ne; [by apply (proj1 (Forall_forall _ _) Hm (k', v'))|].
    intros ->. apply Hnk, list_elem_of_fmap. by exists (k', v').
Qed.

Lemma read_delta_reads d :
  delta_fits d → delta_ok d → read_delta (delta_bytes d) = Ok (d, []).
Proof.
  intros (_ & Hu & Huf & Hr & Hrf & Hd & Hdf) (Hus & Hrs & Hds).
  unfold read_delta, delta_bytes. rewrite (rseq_reads _ _ _ DELTA_MAGIC) by by apply take_reads.
  rewrite bool_decide_eq_true_2 by done. unfold rlift. unfold rseq at 1 2.
  rewrite count_reads; [|done|rewrite <-btree_list_length; apply items_long, enc_upsert_long].
  unfold rseq at 1. rewrite Nat2N.id, <-btree_list_length, read_upserts_reads, btree_list_to_map;
    [|apply btree_list_nodup|by apply Forall_true|done
     |apply Forall_forall; intros [k v] Hin; by apply Hus, elem_of_btree_list].
  unfold rseq at 1. rewrite count_reads by (done || apply bset_items_long).
  unfold rseq at 1. rewrite Nat2N.id, read_set_reads by done.
  rewrite <-(app_nil_r (mjoin (enc_dependency <$> _))).
  unfold rseq at 1.
  rewrite count_reads; [|done|rewrite <-btree_list_length; apply items_long, enc_dependency_long].
  unfold rseq at 1.
  rewrite Nat2N.id, <-btree_list_length, read_dependencies_reads, btree_list_to_map;
    [|apply btree_list_nodup|by apply Forall_true|done
     |apply Forall_forall; intros [k v] Hin; by apply Hds, elem_of_btree_list].
  unfold rret. rewrite !(right_id_L ∅ (∪)). by destruct d.
Qed.

(** ** A decoded delta holds only texts *)
Ltac reader_inv :=
  repeat match goal with
  | H : rseq _ _ _ = Ok (_, _) |- _ => apply rseq_ok_inv in H as (?&?&?&H)
  | H : rlift _ _ = Ok (_, _) |- _ => apply rlift_ok_inv in H as [??]
  | H : rret _ _ = Ok (_, _) |- _ => apply rret_ok_inv in H as [??]
  | H : rfail _ _ = Ok (_, _) |- _ => discriminate H
  end; subst.

Lemma string_ok bs s rest : Reader_string bs = Ok (s, rest) → str_ok s = true.
Proof. intros H. unfold Reader_string in H. reader_inv. case_match; reader_inv; done. Qed.

Lemma key_ok bs s rest : Reader_key bs = Ok (s, rest) → str_ok s = true.
Proof. intros H. unfold Reader_key in H. reader_inv. by eapply string_ok. Qed.

Lemma read_value_ok bs v rest : Reader_value bs = Ok (v, rest) → value_ok v.
Proof.
  intros H. unfold Reader_value in H. reader_inv.
  repeat (case_match; try discriminate); reader_inv; simpl;
    eauto using string_ok, key_ok.
Qed.

Lemma read_upserts_ok n m bs m' rest :
  read_upserts n m bs = Ok (m', rest) →
  map_Forall (λ k v, str_ok k = true ∧ value_ok v) m →
  map_Forall (λ k v, str_ok k = true ∧ value_ok v) m'.
Proof.
  revert m bs. induction n as [|n IH]; intros m bs H Hm; cbn [read_upserts] in H; reader_inv.
  { done. }
  case_match; reader_inv; eapply IH; [done|].
  apply map_Forall_insert_2; eauto using key_ok, read_value_ok.
Qed.

Lemma read_keys_ok n s bs s' rest :
  read_keys n s bs = Ok (s', rest) →
  set_Forall (λ k, str_ok k = true) s → set_Forall (λ k, str_ok k = true) s'.
Proof.
  revert s bs. induction n as [|n IH]; intros m bs H Hm; cbn [read_keys] in H; reader_inv.
  { done. }
  case_match; reader_inv; eapply IH; [done|].
  apply set_Forall_union; [|done]. apply set_Forall_singleton. by eapply key_ok.
Qed.

Lemma read_dependencies_ok n m bs m' rest :
  read_dependencies n m bs = Ok (m', rest) →
  map_Forall (λ k s, str_ok k = true ∧ set_Forall (λ i, str_ok i = true) s) m →
  map_Forall (λ k s, str_ok k = true ∧ set_Forall (λ i, str_ok i = true) s) m'.
Proof.
  revert m bs.
  induction n as [|n IH]; intros m bs H Hm; cbn [read_dependencies] in H; reader_inv.
  { done. }
  case_match; reader_inv; eapply IH; [done|].
  apply map_Forall_insert_2; [|done]. split; [by eapply key_ok|].
  eapply read_keys_ok; [done|]. apply set_Forall_empty.
Qed.

Lemma read_delta_ok bs d rest : read_delta bs = Ok (d, rest) → delta_ok d.
Proof.
  intros H. unfold read_delta in H. reader_inv. split; [|split].
  - eapply read_upserts_ok; [done|]. apply map_Forall_empty.
  - eapply read_keys_ok; [done|]. apply set_Forall_empty.
  - eapply read_dependencies_ok; [done|]. apply map_Forall_empty.
Qed.

Lemma encoded_decodes d bs : delta_ok d → delta_encode d = Ok bs → delta_decode bs = Ok d.
Proof.
  intros Hok He. pose proof (delta_encode_emits d bs He) as (Hf & Hb & Hl).
  unfold delta_decode. rewrite (proj2 (N.ltb_ge _ _)) by done.
  rewrite Hb, read_delta_reads by done. cbn [rbind fst snd].
  rewrite bool_decide_eq_true_2 by done. cbn [negb]. rewrite He. cbn [rbind].
  by rewrite bool_decide_eq_true_2.
Qed.

Lemma decoded_encodes d bs : delta_decode bs = Ok d → delta_ok d ∧ delta_encode d = Ok bs.
Proof.
  intros H. unfold delta_decode in H. case_match; [done|]. result_inv. bool_prop. subst.
  split; [by eapply read_delta_ok|done].
Qed.

Lemma not_conflicting d k :
  conflicting d = false → k ∈ removals d → upserts d !! k = None ∧ dependencies d !! k = None.
Proof.
  intros Hc Hk. apply elem_of_bset_list in Hk. unfold conflicting in Hc.
  rewrite <-not_true_iff_false, existsb_exists in Hc.
  split; apply eq_None_not_Some; intros Hs; apply Hc; exists k;
    (split; [by apply list_elem_of_In|]);
    rewrite (bool_decide_eq_true_2 _ Hs); auto using orb_true_r.
Qed.

(** C34: the version-1 delta encoding is canonical and lossless.  Decoding a
    byte string gives a delta exactly when that delta is made of UTF-8 texts
    and encodes to that very byte string; so decode inverts encode, no two byte
    strings decode to the same delta, and every refused encoding (too large,
    truncated, trailing bytes, repeated or unordered keys, bad tags, lying
    counts) is one that no delta has. *)
Theorem delta_decode_iff_encode bs d :
  delta_decode bs = Ok d ↔ delta_ok d ∧ delta_encode d = Ok bs.
Proof.
  split; [apply decoded_encodes|]. intros [??]. by apply encoded_decodes.
Qed.

(** An encoding never exceeds the protocol's limits, whatever the delta:
    at most 4 MiB, at most 16384 items per collection, every key between 1 and
    4096 bytes, and no removed key is also upserted or given dependencies. *)
Theorem delta_encode_bounded d bs :
  delta_encode d = Ok bs →
  (blen bs ≤ MAX_DELTA_BYTES)%N ∧
  (N.of_nat (size (upserts d)) ≤ MAX_DELTA_ITEMS)%N ∧
  (N.of_nat (size (removals d)) ≤ MAX_DELTA_ITEMS)%N ∧
  (N.of_nat (size (dependencies d)) ≤ MAX_DELTA_ITEMS)%N ∧
  (∀ k, is_Some (upserts d !! k) ∨ k ∈ removals d ∨ is_Some (dependencies d !! k) →
        (1 ≤ slen k ≤ MAX_KEY_BYTES)%N) ∧
  (∀ k, k ∈ removals d → upserts d !! k = None ∧ dependencies d !! k = None).
Proof.
  intros H. apply delta_encode_emits in H as ((Hc&Hu&Huf&Hr&Hrf&Hd&Hdf) & -> & Hl).
  repeat (split; [done|]). split.
  - intros k Hk. assert (key_fits k) as [Hck _].
    { destruct Hk as [[v Hv]|[Hk|[s Hs]]].
      - apply elem_of_btree_list in Hv. apply (proj1 (Forall_forall _ _) Huf) in Hv. apply Hv.
      - apply elem_of_bset_list in Hk. by apply (proj1 (Forall_forall _ _) Hrf) in Hk.
      - apply elem_of_btree_list in Hs. apply (proj1 (Forall_forall _ _) Hdf) in Hs. apply Hs. }
    unfold check_key in Hck. case_match; [done|]. bool_prop. split; [|done].
    destruct k; [done|]. unfold slen, blen. simpl length. lia.
  - intros k. by apply not_conflicting.
Qed.
Lemma delta_encode_bounded_witness :
  let d := {| upserts := {["a" := Text "x"]}; removals := {["b"]}; dependencies := ∅ |} in
  ∃ bs, delta_encode d = Ok bs ∧ (blen bs ≤ MAX_DELTA_BYTES)%N.
Proof.
  eexists. split; [vm_compute; reflexivity|].
  apply (delta_encode_bounded {| upserts := {["a" := Text "x"]}; removals := {["b"]};
                                 dependencies := ∅ |}).
  vm_compute; reflexivity.
Defined.
