(* ===== verification/SemGraph.v ===== *)
(** * The dependency graph of derived values: crates/ptr-semdb, DependencyGraph

    Which values a change invalidates ([affected_by], a stack-driven closure)
    and whether the declared derivations are well-founded ([acyclic], Kahn's
    algorithm).  Both loops are modelled with fuel; each is shown to return with
    the fuel it is given, to match its specification (reachability, absence of
    cycles), and never to reach a panic. *)

From S2P Require Import Prelude.
From stdpp Require Import options.

(** [inputs]: derived key to the keys it is derived from. *)
Abbreviation DependencyGraph := (gmap string (gset string)).

(** [self.inputs.entry(derived).or_default().insert(input)]. *)
Definition depends_on (g : DependencyGraph) (derived input : string) : DependencyGraph :=
  <[derived := {[input]} ∪ default ∅ (g !! derived)]> g.

(** [reverse.entry(input).or_default().push(derived)], and the two nested loops
    that build the reverse adjacency in [affected_by] and in [acyclic]. *)
Definition push_child (derived : string) (r : gmap string (list string)) (input : string) :
    gmap string (list string) :=
  <[input := default [] (r !! input) ++ [derived]]> r.
Definition push_children (r : gmap string (list string)) (e : string * gset string) :
    gmap string (list string) :=
  foldl (push_child e.1) r (bset_list e.2).
Definition reverse_edges (g : DependencyGraph) : gmap string (list string) :=
  foldl push_children ∅ (btree_list g).

(** The children of a key, none when the key is not in the reverse map. *)
Definition children (r : gmap string (list string)) (key : string) : list string :=
  default [] (r !! key).

(** The [while let Some(key) = stack.pop()] loop; the head of the list is the
    top of the stack, so [stack.extend(children)] puts the last child first.
    [None]: out of fuel. *)
Fixpoint affected_loop (fuel : nat) (r : gmap string (list string)) (out : gset string)
    (stack : list string) : option (gset string) :=
  match stack with
  | [] => Some out
  | key :: stack =>
      match fuel with
      | O => None
      | S fuel =>
          if bool_decide (key ∈ out) then affected_loop fuel r out stack
          else affected_loop fuel r ({[key]} ∪ out) (reverse (children r key) ++ stack)
      end
  end.

(** The pushes still to come: the children of the keys not yet in [out]. *)
Definition pending (r : gmap string (list string)) (out : gset string) : nat :=
  sum_list_with (λ k, length (children r k)) (elements (dom r ∖ out)).

Definition affected_by (g : DependencyGraph) (changed : list string) : gset string :=
  let r := reverse_edges g in
  default ∅ (affected_loop (length changed + pending r ∅) r ∅ (reverse changed)).

(** The inner loop of [acyclic]: one step per child.  [None]: a panic, either
    the [expect] on an unknown node or the subtraction below zero. *)
Definition visit_child (st : option (gmap string nat * list string)) (child : string) :
    option (gmap string nat * list string) :=
  '(degree, ready) ← st;
  n ← degree !! child;
  match n with
  | O => None
  | S n' => Some (<[child := n']> degree, if bool_decide (n' = 0) then child :: ready else ready)
  end.

(** The [while let Some(key) = ready.pop()] loop: the number of nodes visited. *)
Fixpoint acyclic_loop (fuel : nat) (r : gmap string (list string)) (degree : gmap string nat)
    (ready : list string) (visited : nat) : option nat :=
  match ready with
  | [] => Some visited
  | key :: ready =>
      match fuel with
      | O => None
      | S fuel =>
          '(degree, ready) ← foldl visit_child (Some (degree, ready)) (children r key);
          acyclic_loop fuel r degree ready (S visited)
      end
  end.

Definition degrees (g : DependencyGraph) : gmap string nat :=
  (size <$> g) ∪ ((λ _, 0) <$> reverse_edges g).

Definition ready_keys (degree : gmap string nat) : list string :=
  reverse (filter (λ e, e.2 = 0) (btree_list degree)).*1.

(** [None]: a panic or not enough fuel. *)
Definition acyclic_run (g : DependencyGraph) : option nat :=
  acyclic_loop (size (degrees g)) (reverse_edges g) (degrees g) (ready_keys (degrees g)) 0.

Definition acyclic (g : DependencyGraph) : bool :=
  bool_decide (acyclic_run g = Some (size (degrees g))).

(** ** Specification *)

(** [k] is directly derived from [i]. *)
Definition edge (g : DependencyGraph) (i k : string) : Prop :=
  ∃ inputs, g !! k = Some inputs ∧ i ∈ inputs.

Definition inputs_of (g : DependencyGraph) (k : string) : gset string := default ∅ (g !! k).

Lemma edge_inputs_of g i k : edge g i k ↔ i ∈ inputs_of g k.
Proof.
  unfold edge, inputs_of. destruct (g !! k); simpl; [naive_solver|set_solver].
Qed.

(** ** The reverse adjacency *)
Lemma push_child_children d r i j :
  children (push_child d r i) j = children r j ++ (if decide (i = j) then [d] else []).
Proof.
  unfold children, push_child. case_decide; simplify_map_eq; [done|by rewrite app_nil_r].
Qed.

Lemma push_children_children r e j :
  children (push_children r e) j = children r j ++ (if decide (j ∈ e.2) then [e.1] else []).
Proof.
  unfold push_children. assert (∀ l r, NoDup l →
    children (foldl (push_child e.1) r l) j
      = children r j ++ (if decide (j ∈ l) then [e.1] else [])) as Hgen.
  { clear. induction l as [|i l IH]; intros r Hnd.
    - cbn [foldl]. rewrite decide_False by set_solver. by rewrite app_nil_r.
    - apply NoDup_cons in Hnd as [Hi Hnd]. cbn [foldl]. rewrite (IH _ Hnd), push_child_children.
      rewrite <-app_assoc. f_equal. destruct (decide (i = j)) as [->|].
      + rewrite (decide_False (P := j ∈ l)), decide_True by set_solver. done.
      + destruct (decide (j ∈ l)); [rewrite decide_True by set_solver; done|].
        rewrite decide_False by set_solver. done. }
  rewrite Hgen by apply bset_list_nodup. f_equal.
  destruct (decide (j ∈ e.2)).
  - by rewrite decide_True by by apply elem_of_bset_list.
  - rewrite decide_False; [done|]. by rewrite elem_of_bset_list.
Qed.

Lemma reverse_edges_children g j :
  children (reverse_edges g) j = (filter (λ e, j ∈ e.2) (btree_list g)).*1.
Proof.
  unfold reverse_edges.
  assert (∀ l r, children (foldl push_children r l) j
            = children r j ++ (filter (λ e, j ∈ e.2) l).*1) as ->; [|done].
  induction l as [|e l IH]; intros r; cbn [foldl].
  - by rewrite app_nil_r.
  - rewrite IH, push_children_children, <-app_assoc. f_equal.
    rewrite filter_cons. by case_decide.
Qed.

Lemma elem_of_children g i k : k ∈ children (reverse_edges g) i ↔ edge g i k.
Proof.
  rewrite reverse_edges_children, list_elem_of_fmap. split.
  - intros ([k' s] & -> & H). apply list_elem_of_filter in H as [Hi H].
    apply elem_of_btree_list in H. by exists s.
  - intros (s & Hs & Hi). exists (k, s). split; [done|].
    apply list_elem_of_filter. by rewrite elem_of_btree_list.
Qed.

Lemma children_nodup g i : NoDup (children (reverse_edges g) i).
Proof.
  rewrite reverse_edges_children. eapply sublist_NoDup; [apply (btree_list_nodup g)|].
  apply fmap_sublist, sublist_filter.
Qed.

(** ** [affected_by] computes reachability *)
Lemma pending_step r k out :
  k ∉ out → pending r out = length (children r k) + pending r ({[k]} ∪ out).
Proof.
  intros Hk. unfold pending. destruct (decide (k ∈ dom r)) as [Hd|Hd].
  - assert (dom r ∖ out = {[k]} ∪ (dom r ∖ ({[k]} ∪ out))) as ->.
    { apply set_eq. intros x. destruct (decide (x = k)); set_solver. }
    rewrite elements_union_singleton by set_solver. done.
  - replace (dom r ∖ ({[k]} ∪ out)) with (dom r ∖ out) by set_solver.
    unfold children at 2. by rewrite (proj1 (not_elem_of_dom r k)).
Qed.

Lemma affected_loop_total fuel r out stack :
  length stack + pending r out ≤ fuel → ∃ out', affected_loop fuel r out stack = Some out'.
Proof.
  revert out stack. induction fuel as [|fuel IH]; intros out [|k stack] Hf; simpl in *;
    try by eexists.
  - lia.
  - case_bool_decide; apply IH; [lia|].
    rewrite (pending_step r k out) in Hf by done. rewrite length_app, length_reverse. lia.
Qed.

Lemma affected_loop_spec g fuel out stack out' :
  affected_loop fuel (reverse_edges g) out stack = Some out' →
  (∀ i k, i ∈ out → edge g i k → k ∈ out ∨ k ∈ stack) →
  ∀ k, k ∈ out' ↔ k ∈ out ∨ ∃ c, c ∈ stack ∧ rtc (edge g) c k.
Proof.
  revert out stack.
  induction fuel as [|fuel IH]; intros out [|c stack] H Hinv k; simpl in H; simplify_eq.
  1,2: split; [by left|]; intros [?|(c & Hc & _)]; [done|by apply elem_of_nil in Hc].
  case_bool_decide as Hc.
  - rewrite (IH _ _ H) by set_solver. split.
    + intros [?|(c' & ? & ?)]; [by left|right; exists c'; set_solver].
    + intros [?|(c' & Hin & Hr)]; [by left|].
      apply elem_of_cons in Hin as [->|?]; [|right; eauto].
      assert (∀ i k, i ∈ out → edge g i k → k ∈ out ∨ k ∈ stack) as Hinv'
        by set_solver. clear IH H Hinv.
      induction Hr as [|x y z Hxy Hyz IHr]; [by left|].
      destruct (Hinv' x y Hc Hxy) as [Hy|Hy]; [by apply IHr|right; eauto].
  - rewrite (IH _ _ H).
    + setoid_rewrite elem_of_app. setoid_rewrite elem_of_reverse.
      setoid_rewrite elem_of_children. split.
      * intros [Hk|(c' & [He|?] & Hr)].
        -- apply elem_of_union in Hk as [->%elem_of_singleton|?]; [right|by left].
           exists c. set_solver.
        -- right. exists c. split; [set_solver|by eapply rtc_l].
        -- right. exists c'. set_solver.
      * intros [?|(c' & Hin & Hr)]; [set_solver|].
        apply elem_of_cons in Hin as [->|?]; [|right; eauto].
        inversion Hr; subst; [set_solver|right; eauto].
    + intros i k' Hi He. rewrite elem_of_app, elem_of_reverse, elem_of_children.
      apply elem_of_union in Hi as [->%elem_of_singleton|Hi]; [by right; left|].
      destruct (Hinv i k' Hi He) as [?|Hs]; [set_solver|].
      apply elem_of_cons in Hs as [->|?]; set_solver.
Qed.

Lemma elem_of_affected_by g changed k :
  k ∈ affected_by g changed ↔ ∃ c, c ∈ changed ∧ rtc (edge g) c k.
Proof.
  unfold affected_by.
  destruct (affected_loop_total (length changed + pending (reverse_edges g) ∅)
              (reverse_edges g) ∅ (reverse changed)) as [out Hout].
  { by rewrite length_reverse. }
  rewrite Hout. simpl. rewrite (affected_loop_spec g _ _ _ _ Hout) by set_solver.
  setoid_rewrite elem_of_reverse. set_solver.
Qed.

(** ** [acyclic] decides the absence of cycles *)
Definition has_cycle (g : DependencyGraph) : Prop := ∃ k, tc (edge g) k k.

(** A finite set in which every element has a predecessor contains a cycle. *)
Lemma preds_give_cycle (R : relation string) (X : gset string) :
  X ≠ ∅ → (∀ x, x ∈ X → ∃ y, y ∈ X ∧ R y x) → ∃ x, tc R x x.
Proof.
  revert R. induction X as [|x X Hx IH] using set_ind_L; intros R Hne Hp; [done|].
  destruct (Hp x) as (w & Hw & Hwx); [set_solver|].
  destruct (decide (w = x)) as [->|Hne']; [exists x; by apply tc_once|].
  destruct (IH (λ y z, R y z ∨ (R y x ∧ R x z))) as [c Hc]; [set_solver|..].
  - intros z Hz. destruct (Hp z) as (y & Hy & Hyz); [set_solver|].
    destruct (decide (y = x)) as [->|]; [exists w|exists y]; set_solver.
  - exists c. revert Hc. generalize c at 2 4. intros c' Hc.
    induction Hc as [a b [?|[??]]|a b d [?|[??]] _ IHc];
      eauto using tc_once, tc_l.
Qed.

Lemma reverse_edges_dom g i : i ∈ dom (reverse_edges g) ↔ ∃ k, edge g i k.
Proof.
  assert (map_Forall (λ _ l, l ≠ []) (reverse_edges g)) as Hne.
  { unfold reverse_edges. generalize (btree_list g). intros l.
    assert (∀ r, map_Forall (λ _ l, l ≠ []) r →
              map_Forall (λ _ l, l ≠ []) (foldl push_children r l)) as Hgen;
      [|apply Hgen, map_Forall_empty].
    induction l as [|e l IH]; intros r Hr; [done|]. simpl. apply IH.
    unfold push_children. clear IH. revert r Hr.
    induction (bset_list e.2) as [|i' l' IH]; intros r Hr; [done|]. simpl. apply IH.
    apply map_Forall_insert_2; [|done]. intros H. by apply app_nil in H as [_ ?]. }
  setoid_rewrite <-elem_of_children. unfold children. rewrite elem_of_dom. split.
  - intros [l Hl]. rewrite Hl. apply Hne in Hl. destruct l as [|k l]; [done|].
    exists k. simpl. set_solver.
  - intros [k Hk]. destruct (reverse_edges g !! i); [by eexists|]. simpl in Hk. set_solver.
Qed.

Lemma degrees_lookup g n m : degrees g !! n = Some m → m = size (inputs_of g n).
Proof.
  unfold degrees, inputs_of. intros [H|[H1 H]]%lookup_union_Some_raw.
  - apply lookup_fmap_Some in H as (s & <- & ->). done.
  - apply lookup_fmap_Some in H as (l & <- & _).
    rewrite lookup_fmap, fmap_None in H1. rewrite H1. done.
Qed.

Lemma degrees_dom g n : n ∈ dom (degrees g) ↔ n ∈ dom g ∨ ∃ k, edge g n k.
Proof. unfold degrees. rewrite dom_union, !dom_fmap, elem_of_union, reverse_edges_dom. done. Qed.

Lemma edge_in_degrees g i k : edge g i k → i ∈ dom (degrees g) ∧ k ∈ dom (degrees g).
Proof.
  intros He. rewrite !degrees_dom. split; [by right; exists k|].
  left. destruct He as (s & Hs & _). by eapply elem_of_dom_2.
Qed.

Fixpoint topo (g : DependencyGraph) (V : list string) : Prop :=
  match V with
  | [] => True
  | v :: V => inputs_of g v ⊆ list_to_set V ∧ topo g V
  end.

(** The loop invariant: [V] are the nodes visited, latest first. *)
Record kahn_inv (g : DependencyGraph) (degree : gmap string nat) (ready V : list string) : Prop := {
  kahn_dom : dom degree = dom (degrees g);
  kahn_count : ∀ n m, degree !! n = Some m → m = size (inputs_of g n ∖ list_to_set V);
  kahn_nodup : NoDup (ready ++ V);
  kahn_zero : ∀ n, n ∈ ready ++ V ↔ degree !! n = Some 0;
  kahn_topo : topo g V
}.

Lemma visit_children (l : list string) degree ready :
  NoDup l → NoDup ready →
  (∀ c, c ∈ l → c ∉ ready ∧ ∃ n, degree !! c = Some (S n)) →
  ∃ degree' ready',
    foldl visit_child (Some (degree, ready)) l = Some (degree', ready') ∧
    (∀ n, degree' !! n = if decide (n ∈ l) then pred <$> degree !! n else degree !! n) ∧
    (∀ n, n ∈ ready' ↔ n ∈ ready ∨ (n ∈ l ∧ degree !! n = Some 1)) ∧
    NoDup ready' ∧ dom degree' = dom degree.
Proof.
  revert degree ready. induction l as [|c l IH]; intros degree ready Hl Hr Hc; cbn [foldl].
  { exists degree, ready. split; [done|]. split; [|set_solver].
    intros n. by rewrite decide_False by set_solver. }
  apply NoDup_cons in Hl as [Hcl Hl]. destruct (Hc c) as (Hcr & n & Hn); [set_solver|].
  cbn [visit_child mbind option_bind]. rewrite Hn. cbn [mbind option_bind].
  destruct (IH (<[c := n]> degree) (if bool_decide (n = 0) then c :: ready else ready))
    as (degree' & ready' & Hf & Hd & Hr' & Hnd & Hdom); [done| | |].
  - case_bool_decide; [by constructor|done].
  - intros c' Hc'. destruct (Hc c') as (? & n' & ?); [set_solver|].
    assert (c ≠ c') by set_solver. split; [case_bool_decide; set_solver|].
    exists n'. by rewrite lookup_insert_ne.
  - exists degree', ready'. split; [done|]. split; [|split; [|split; [done|]]].
    + intros m. rewrite Hd. destruct (decide (m = c)) as [->|].
      * rewrite decide_False, decide_True by set_solver. by simplify_map_eq.
      * rewrite lookup_insert_ne by done.
        destruct (decide (m ∈ l)); [rewrite decide_True by set_solver; done|].
        by rewrite decide_False by set_solver.
    + intros m. rewrite Hr'. destruct (decide (m = c)) as [->|].
      * rewrite Hn. case_bool_decide; set_solver.
      * rewrite lookup_insert_ne by done. case_bool_decide; set_solver.
    + rewrite Hdom, dom_insert_L. apply elem_of_dom_2 in Hn. set_solver.
Qed.

Lemma kahn_child g degree k ready V c :
  kahn_inv g degree (k :: ready) V → edge g k c →
  c ∉ k :: ready ++ V ∧ ∃ n, degree !! c = Some (S n).
Proof.
  intros [Hdom Hcount Hnd Hzero _] He.
  assert (k ∉ V) as HkV by (apply NoDup_cons in Hnd; set_solver).
  destruct (degree !! c) as [m|] eqn:Hm.
  2:{ apply not_elem_of_dom in Hm. rewrite Hdom in Hm. by apply edge_in_degrees in He as [_ ?]. }
  assert (m ≠ 0) as Hm0.
  { rewrite (Hcount _ _ Hm). apply edge_inputs_of in He.
    intros H0%size_empty_inv. set_solver. }
  split; [|destruct m; [done|by eexists]].
  intros Hin. apply (Hzero c) in Hin. congruence.
Qed.

Lemma size_visit (X : gset string) k V :
  k ∈ X → k ∉ V → size (X ∖ list_to_set (k :: V)) = pred (size (X ∖ list_to_set V)).
Proof.
  intros HX HV. set (Y := X ∖ list_to_set V).
  assert (k ∈ Y) as HY by set_solver.
  replace (X ∖ list_to_set (k :: V)) with (Y ∖ {[k]}) by set_solver.
  pose proof (size_union {[k]} (Y ∖ {[k]})) as Hs.
  rewrite <-(union_difference_singleton_L k Y HY), size_singleton in Hs.
  rewrite Hs by set_solver. done.
Qed.

Lemma size_visit_other (X : gset string) k V :
  k ∉ X → size (X ∖ list_to_set (k :: V)) = size (X ∖ list_to_set V).
Proof. intros HX. f_equal. set_solver. Qed.

Lemma kahn_step g degree k ready V :
  kahn_inv g degree (k :: ready) V →
  ∃ degree' ready',
    foldl visit_child (Some (degree, ready)) (children (reverse_edges g) k)
      = Some (degree', ready') ∧ kahn_inv g degree' ready' (k :: V).
Proof.
  intros HI. pose proof (kahn_child g degree k ready V) as Hch.
  destruct HI as [Hdom Hcount Hnd Hzero Htopo]. cbn [app] in *.
  destruct (visit_children (children (reverse_edges g) k) degree ready)
    as (degree' & ready' & Hf & Hd & Hr & Hrn & Hdd).
  { apply children_nodup. }
  { apply NoDup_cons in Hnd as [_ Hnd]. by apply NoDup_app in Hnd as [? _]. }
  { intros c Hc. apply elem_of_children in Hc. destruct (Hch c) as [??]; [done..|]. set_solver. }
  exists degree', ready'. split; [done|].
  assert (k ∉ V) as HkV by (apply NoDup_cons in Hnd; set_solver).
  assert (degree !! k = Some 0) as Hk0 by (apply Hzero; set_solver).
  assert (∀ c, c ∈ children (reverse_edges g) k → c ∉ k :: ready ++ V) as Hfresh.
  { intros c Hc. apply elem_of_children in Hc. by destruct (Hch c). }
  split.
  - congruence.
  - intros n m Hm. rewrite Hd in Hm. case_decide as Hn.
    + apply elem_of_children, edge_inputs_of in Hn.
      apply fmap_Some in Hm as (m' & Hm' & ->). rewrite (Hcount _ _ Hm').
      symmetry. by apply size_visit.
    + rewrite elem_of_children, edge_inputs_of in Hn. rewrite (Hcount _ _ Hm).
      symmetry. by apply size_visit_other.
  - apply NoDup_app. split; [done|]. split.
    + intros x Hx. apply Hr in Hx as [Hx|[Hx _]].
      * apply NoDup_cons in Hnd as [Hk Hnd]. apply NoDup_app in Hnd as (_ & Hdis & _).
        specialize (Hdis x Hx). set_solver.
      * apply Hfresh in Hx. set_solver.
    + apply NoDup_cons. split; [done|].
      apply NoDup_cons in Hnd as [_ Hnd]. by apply NoDup_app in Hnd as (_ & _ & ?).
  - intros n. rewrite elem_of_app, elem_of_cons, Hr, Hd. case_decide as Hn.
    + specialize (Hfresh _ Hn). apply elem_of_children in Hn as He.
      destruct (Hch n) as (_ & m & Hm); [done..|]. rewrite Hm. simpl.
      rewrite elem_of_cons, elem_of_app in Hfresh. split.
      * intros [[?|[_ [= ->]]]|[?|?]]; tauto.
      * intros [= ->]. by left; right.
    + rewrite <-Hzero, elem_of_cons, elem_of_app. tauto.
  - split; [|done]. apply Hcount in Hk0. symmetry in Hk0. apply size_empty_inv in Hk0.
    clear -Hk0. set_solver.
Qed.

Lemma kahn_visited_le g degree ready V :
  kahn_inv g degree ready V → length ready + length V ≤ size (degrees g).
Proof.
  intros [Hdom _ Hnd Hzero _].
  rewrite <-length_app, <-(size_dom (degrees g)), <-Hdom.
  rewrite <-(size_list_to_set (C := gset string) _ Hnd).
  apply subseteq_size. intros n Hn. apply elem_of_list_to_set, Hzero in Hn.
  by eapply elem_of_dom_2.
Qed.

Lemma acyclic_loop_spec g fuel degree ready V :
  kahn_inv g degree ready V → size (degrees g) ≤ fuel + length V →
  ∃ degree' V', acyclic_loop fuel (reverse_edges g) degree ready (length V)
                  = Some (length V') ∧ kahn_inv g degree' [] V'.
Proof.
  revert degree ready V. induction fuel as [|fuel IH]; intros degree [|k ready] V HI Hf.
  1,3: by exists degree, V.
  - apply kahn_visited_le in HI. simpl in *. lia.
  - destruct (kahn_step _ _ _ _ _ HI) as (degree' & ready' & Hfold & HI').
    cbn [acyclic_loop]. rewrite Hfold. cbn [mbind option_bind].
    apply (IH degree' ready' (k :: V)); [done|]. simpl. lia.
Qed.

Lemma kahn_init g : kahn_inv g (degrees g) (ready_keys (degrees g)) [].
Proof.
  split.
  - done.
  - intros n m Hm. rewrite (degrees_lookup _ _ _ Hm). f_equal. set_solver.
  - rewrite app_nil_r. unfold ready_keys. rewrite reverse_Permutation.
    eapply sublist_NoDup; [apply (btree_list_nodup (degrees g))|].
    apply fmap_sublist, sublist_filter.
  - intros n. rewrite app_nil_r. unfold ready_keys.
    rewrite elem_of_reverse, list_elem_of_fmap. split.
    + intros ([n' m] & -> & H). apply list_elem_of_filter in H as [H0 H].
      simpl in *. subst. by apply elem_of_btree_list.
    + intros H. exists (n, 0). split; [done|]. apply list_elem_of_filter.
      by rewrite elem_of_btree_list.
  - done.
Qed.

Lemma topo_preds g V i k : topo g V → rtc (edge g) i k → k ∈ V → i ∈ V.
Proof.
  intros Ht Hr. induction Hr as [|i j k Hij _ IH]; [done|]. intros Hk.
  specialize (IH Hk). clear Hk. apply edge_inputs_of in Hij.
  induction V as [|v V IHV]; [set_solver|]. destruct Ht as [Hv Ht].
  apply elem_of_cons in IH as [->|IH]; [|right; by apply IHV].
  apply Hv in Hij. set_solver.
Qed.

Lemma tc_last {A} (R : relation A) a b : tc R a b → ∃ x, rtc R a x ∧ R x b.
Proof.
  induction 1 as [a b|a b c Hab _ (x & ? & ?)]; [by exists a|]. exists x. eauto using rtc_l.
Qed.

Lemma topo_no_cycle g V k : NoDup V → topo g V → k ∈ V → ¬ tc (edge g) k k.
Proof.
  induction V as [|v V IH]; intros Hnd Ht Hk; [set_solver|].
  apply NoDup_cons in Hnd as [Hv Hnd]. destruct Ht as [Hin Ht].
  apply elem_of_cons in Hk as [->|Hk]; [|by apply IH].
  intros (x & Hvx & Hxv)%tc_last.
  apply Hv, (topo_preds g V v x); [done..|].
  apply edge_inputs_of, Hin in Hxv. set_solver.
Qed.

Lemma acyclic_run_spec g :
  ∃ V, acyclic_run g = Some (length V) ∧ NoDup V ∧ topo g V ∧
       (∀ n, n ∈ V → n ∈ dom (degrees g)) ∧
       (∀ n, n ∈ dom (degrees g) → n ∉ V → ∃ i, edge g i n ∧ i ∉ V).
Proof.
  destruct (acyclic_loop_spec g (size (degrees g)) _ _ _ (kahn_init g))
    as (degree & V & Hrun & [Hdom Hcount Hnd Hzero Htopo]); [simpl; lia|].
  cbn [app] in *. exists V. do 3 (split; [done|]). split.
  - intros n Hn. rewrite <-Hdom. apply Hzero in Hn. by eapply elem_of_dom_2.
  - intros n Hn HnV. rewrite <-Hdom in Hn. apply elem_of_dom in Hn as [m Hm].
    assert (m ≠ 0) as Hm0 by (intros ->; by apply HnV, Hzero).
    rewrite (Hcount _ _ Hm) in Hm0.
    destruct (set_choose_L (inputs_of g n ∖ list_to_set V)) as [i Hi].
    { intros He. by rewrite He in Hm0. }
    exists i. rewrite edge_inputs_of. set_solver.
Qed.

Lemma acyclic_true g : acyclic g = true → ¬ has_cycle g.
Proof.
  destruct (acyclic_run_spec g) as (V & Hrun & Hnd & Htopo & Hsub & Hleft).
  unfold acyclic. rewrite bool_decide_eq_true, Hrun. intros [= Hlen] [k Hk].
  assert (list_to_set V = dom (degrees g)) as HV.
  { apply set_subseteq_size_eq; [intros n; rewrite elem_of_list_to_set; apply Hsub|].
    rewrite (size_list_to_set (C := gset string) _ Hnd), size_dom. lia. }
  eapply topo_no_cycle; [done|done| |done].
  rewrite <-(elem_of_list_to_set (C := gset string)), HV.
  destruct (tc_last _ _ _ Hk) as (x & _ & He). by apply edge_in_degrees in He as [_ ?].
Qed.

Lemma acyclic_false g : acyclic g = false → has_cycle g.
Proof.
  destruct (acyclic_run_spec g) as (V & Hrun & Hnd & Htopo & Hsub & Hleft).
  unfold acyclic. rewrite bool_decide_eq_false, Hrun. intros Hlen.
  apply (preds_give_cycle _ (dom (degrees g) ∖ list_to_set V)).
  - intros He. apply Hlen. f_equal.
    rewrite <-(size_list_to_set (C := gset string) _ Hnd), <-size_dom.
    f_equal. apply set_eq. intros n. rewrite elem_of_list_to_set.
    split; [apply Hsub|]. set_solver.
  - intros x Hx. destruct (Hleft x) as (i & He & Hi); [set_solver..|].
    exists i. split; [|done]. apply edge_in_degrees in He as [? _]. set_solver.
Qed.

Lemma acyclic_correct g : acyclic g = true ↔ ¬ has_cycle g.
Proof.
  split; [apply acyclic_true|]. intros Hc.
  destruct (acyclic g) eqn:Ha; [done|]. by apply acyclic_false in Ha.
Qed.

(** [affected_by] returns, and its result is exactly the keys reachable
    from a changed key along the declared derivations, the changed keys
    included: nothing that depends on a change is missed and nothing else is
    invalidated. *)
Theorem affected_by_reachable g changed :
  ∃ out, affected_loop (length changed + pending (reverse_edges g) ∅) (reverse_edges g) ∅
           (reverse changed) = Some out ∧ affected_by g changed = out ∧
         ∀ k, k ∈ out ↔ ∃ c, c ∈ changed ∧ rtc (edge g) c k.
Proof.
  destruct (affected_loop_total (length changed + pending (reverse_edges g) ∅)
              (reverse_edges g) ∅ (reverse changed)) as [out Hout].
  { by rewrite length_reverse. }
  exists out. split; [done|]. assert (affected_by g changed = out) as <-.
  { unfold affected_by. by rewrite Hout. }
  split; [done|]. intros k. apply elem_of_affected_by.
Qed.

(** The cycle check runs to completion on every graph (it neither panics on
    an unknown node, nor underflows a degree, nor exceeds one visit per node)
    and accepts exactly the graphs without a cycle, self-dependencies
    included. *)
Theorem acyclic_decides_cycles g :
  (∃ visited, acyclic_run g = Some visited ∧ visited ≤ size (degrees g)) ∧
  (acyclic g = true ↔ ¬ has_cycle g).
Proof.
  split; [|apply acyclic_correct].
  destruct (acyclic_run_spec g) as (V & Hrun & Hnd & _ & Hsub & _).
  exists (length V). split; [done|].
  rewrite <-(size_list_to_set (C := gset string) _ Hnd), <-size_dom.
  apply subseteq_size. intros n. rewrite elem_of_list_to_set. apply Hsub.
Qed.
