(* ===== verification/SemHost.v ===== *)
(** * The semantic store: crates/ptr-semdb, SemanticHost

    A host publishes a state (values and dependency graph) under a revision.  A
    change is prepared against the published state, which validates it and
    computes the complete next state, and applied later; an [Arc] that every
    host creates for itself identifies it, modelled by a number.  The file gives
    the operations; SemHostFacts.v the theorems. *)

From S2P Require Import Prelude Bytes SemDelta SemGraph.
From stdpp Require Import options.

Record SemanticState := {
  st_revision : N;
  ground : gmap string SemanticValue;
  st_dependencies : DependencyGraph
}.
#[export] Instance SemanticState_eq_dec : EqDecision SemanticState.
Proof. solve_decision. Defined.

Record SemanticHost := {
  host_state : SemanticState;
  host_owner : N
}.

Record PreparedDelta := {
  pd_owner : N;
  pd_base : N;
  pd_delta : SemanticDelta;
  pd_next : SemanticState;
  pd_affected : gset string
}.

Record SemanticSnapshot := {
  snap_revision : N;
  snap_state : SemanticState;
  snap_owner : N
}.
#[export] Instance SemanticHost_eq_dec : EqDecision SemanticHost.
Proof. solve_decision. Defined.
#[export] Instance PreparedDelta_eq_dec : EqDecision PreparedDelta.
Proof. solve_decision. Defined.

Definition host_revision (h : SemanticHost) : N := st_revision (host_state h).

(** [SemanticHost::default()]; [owner] is the fresh [Arc]. *)
Definition host_default (owner : N) : SemanticHost :=
  {| host_state := {| st_revision := 0; ground := ∅; st_dependencies := ∅ |};
     host_owner := owner |}.

(** ** prepare_delta

    The loops over the delta work on the staged values, the staged graph and
    the set of changed keys. *)
Record staged := {
  sg_ground : gmap string SemanticValue;
  sg_deps : DependencyGraph;
  sg_changed : gset string
}.

Definition stage_removal (s : staged) (key : string) : staged :=
  let changed := if bool_decide (is_Some (sg_ground s !! key))
                 then {[key]} ∪ sg_changed s else sg_changed s in
  let changed := if bool_decide (is_Some (sg_deps s !! key))
                 then {[key]} ∪ changed else changed in
  {| sg_ground := delete key (sg_ground s); sg_deps := delete key (sg_deps s);
     sg_changed := changed |}.

Definition stage_upsert (s : staged) (e : string * SemanticValue) : staged :=
  if bool_decide (sg_ground s !! e.1 = Some e.2) then s
  else {| sg_ground := <[e.1 := e.2]> (sg_ground s); sg_deps := sg_deps s;
          sg_changed := {[e.1]} ∪ sg_changed s |}.

Definition stage_dependency (s : staged) (e : string * gset string) : staged :=
  let '(key, inputs) := e in
  let old := sg_deps s !! key in
  if negb (bool_decide (old = Some inputs)) &&
     negb (bool_decide (old = None) && bool_decide (inputs = ∅))
  then {| sg_ground := sg_ground s;
          sg_deps := if bool_decide (inputs = ∅) then delete key (sg_deps s)
                     else <[key := inputs]> (sg_deps s);
          sg_changed := {[key]} ∪ sg_changed s |}
  else s.

Definition stage (st : SemanticState) (d : SemanticDelta) : staged :=
  let s := {| sg_ground := ground st; sg_deps := st_dependencies st; sg_changed := ∅ |} in
  let s := foldl stage_removal s (bset_list (removals d)) in
  let s := foldl stage_upsert s (btree_list (upserts d)) in
  foldl stage_dependency s (btree_list (dependencies d)).

(** The eviction loop over the affected keys. *)
Definition evict (ups : gmap string SemanticValue) (g : gmap string SemanticValue) (key : string) :
    gmap string SemanticValue :=
  if bool_decide (is_Some (ups !! key)) then g else delete key g.

(** The two nested loops that look for a missing input, in key order; the
    first one found is the error. *)
Definition first_missing (g : gmap string SemanticValue) (deps : DependencyGraph) (key : string) :
    option (string * string) :=
  inputs ← deps !! key;
  input ← head (filter (λ i, g !! i = None) (bset_list inputs));
  Some (key, input).

Definition check_inputs (g : gmap string SemanticValue) (deps : DependencyGraph)
    (ups : gmap string SemanticValue) : result SemanticError unit :=
  match head (omap (first_missing g deps) (btree_list ups).*1) with
  | Some (derived, input) => Err (MissingDependency derived input)
  | None => Ok tt
  end.

Definition prepare_delta (h : SemanticHost) (delta : SemanticDelta) :
    result SemanticError PreparedDelta :=
  let? _ := delta_encode delta in
  let s := stage (host_state h) delta in
  if negb (acyclic (sg_deps s)) then Err CyclicDependency else
  let changed := bset_list (sg_changed s) in
  let affected := affected_by (st_dependencies (host_state h)) changed
                  ∪ affected_by (sg_deps s) changed in
  let g := foldl (evict (upserts delta)) (sg_ground s) (bset_list affected) in
  check_inputs g (sg_deps s) (upserts delta) ;?
  let next := {| st_revision := host_revision h; ground := g; st_dependencies := sg_deps s |} in
  let? next :=
    if bool_decide (next = host_state h) then Ok next else
    let? revision := ok_or (checked_add_u64 (host_revision h) 1) RevisionExhausted in
    Ok {| st_revision := revision; ground := g; st_dependencies := sg_deps s |} in
  Ok {| pd_owner := host_owner h; pd_base := host_revision h; pd_delta := delta;
        pd_next := next; pd_affected := affected |}.

(** ** Publication

    [&mut self] methods return the host as they leave it, refused or not. *)
Definition stale_preparation (h : SemanticHost) (p : PreparedDelta) : bool :=
  negb (bool_decide (host_owner h = pd_owner p)) || negb (host_revision h =? pd_base p)%N.

Definition base_view (h : SemanticHost) (p : PreparedDelta) : result SemanticError SemanticState :=
  if stale_preparation h p then Err StalePreparation else Ok (host_state h).

Definition apply_prepared (h : SemanticHost) (p : PreparedDelta) :
    result SemanticError (N * gset string) * SemanticHost :=
  if stale_preparation h p then (Err StalePreparation, h) else
  let h' := {| host_state := pd_next p; host_owner := host_owner h |} in
  (Ok (host_revision h', pd_affected p), h').

Definition apply_delta (h : SemanticHost) (delta : SemanticDelta) :
    result SemanticError (N * gset string) * SemanticHost :=
  match prepare_delta h delta with
  | Ok p => apply_prepared h p
  | Err e => (Err e, h)
  end.

Definition export_state (h : SemanticHost) : SemanticDelta :=
  {| upserts := ground (host_state h); removals := ∅;
     dependencies := st_dependencies (host_state h) |}.

(** [owner] is the [Arc] of the host that [restore] creates. *)
Definition restore (owner revision : N) (state : SemanticDelta) :
    result SemanticError SemanticHost :=
  if negb (bool_decide (removals state = ∅)) then Err ConflictingOperation else
  match apply_delta (host_default owner) state with
  | (Err e, _) => Err e
  | (Ok _, h) =>
      Ok {| host_state := {| st_revision := revision; ground := ground (host_state h);
                             st_dependencies := st_dependencies (host_state h) |};
            host_owner := host_owner h |}
  end.

Definition snapshot (h : SemanticHost) : SemanticSnapshot :=
  {| snap_revision := host_revision h; snap_state := host_state h; snap_owner := host_owner h |}.

Definition is_stale (h : SemanticHost) (s : SemanticSnapshot) : bool :=
  negb (bool_decide (host_owner h = snap_owner s)) ||
  negb (snap_revision s =? host_revision h)%N ||
  negb (st_revision (snap_state s) =? snap_revision s)%N.

(** ** Reading a snapshot *)
Definition snapshot_value (s : SemanticSnapshot) (key : string) : option SemanticValue :=
  ground (snap_state s) !! key.
Definition snapshot_get (s : SemanticSnapshot) (key : string) : option string :=
  match snapshot_value s key with
  | Some (Text text) => Some text
  | _ => None
  end.
Definition snapshot_payload (s : SemanticSnapshot) (key : string) : option SemanticPayload :=
  match snapshot_value s key with
  | Some (Payload p) => Some p
  | _ => None
  end.
Definition snapshot_keys (s : SemanticSnapshot) : list string :=
  (btree_list (ground (snap_state s))).*1.
Definition snapshot_derived_keys (s : SemanticSnapshot) : list string :=
  (btree_list (st_dependencies (snap_state s))).*1.
Definition snapshot_inputs (s : SemanticSnapshot) (key : string) : list string :=
  default [] (bset_list <$> st_dependencies (snap_state s) !! key).

(** [SemanticContext]: the entries of the model boundary value, in key order. *)
Definition semantic_context (s : SemanticSnapshot) : N * list (string * SemanticValue) :=
  (snap_revision s, btree_list (ground (snap_state s))).

(** What [canonical_digest] hashes. *)
Definition put_snapshot_bytes (bytes : list byte) : list byte :=
  le_bytes 8 (blen bytes) ++ bytes.

Definition snapshot_entry_bytes (e : string * SemanticValue) : list byte :=
  put_snapshot_bytes (str_bytes e.1) ++
  match e.2 with
  | Text text => [x00] ++ put_snapshot_bytes (str_bytes text)
  | Payload p =>
      [x01] ++ put_snapshot_bytes (str_bytes (sp_type_id p)) ++
      put_snapshot_bytes (str_bytes (sp_source p)) ++ put_snapshot_bytes (sp_bytes p)
  end.

Definition SNAPSHOT_DOMAIN : list byte := str_bytes "PTR-SEMDB-SNAPSHOT-V1" ++ [x00].

Definition snapshot_bytes (s : SemanticSnapshot) : list byte :=
  SNAPSHOT_DOMAIN ++ le_bytes 8 (snap_revision s) ++
  le_bytes 8 (N.of_nat (size (ground (snap_state s)))) ++
  mjoin (snapshot_entry_bytes <$> btree_list (ground (snap_state s))).

Section digest.
Context (sha256 : list byte → list byte).

Definition snapshot_digest (s : SemanticSnapshot) : list byte := sha256 (snapshot_bytes s).

End digest.
