(* ===== verification/SemHostFacts.v ===== *)
(** * What a prepared change publishes

    The staging loops are related to their effect on one key; from that, the
    next state of a prepared change as a function of the old state and the
    delta, the invariant of published states, and the round trip through
    [export_state] and [restore]. *)

From S2P Require Import Prelude Bytes SemDelta SemDeltaFacts SemGraph SemHost.
From stdpp Require Import options.

(** ** Loops that touch one key per item *)
Section foldl_view.
Context {A E V : Type} (view : string → A → V) (f : A → E → A) (key : E → string)
        (φ : E → V → V).
Context (view_other : ∀ k s e, k ≠ key e → view k (f s e) = view k s)
        (view_key : ∀ s e, view (key e) (f s e) = φ e (view (key e) s)).

Lemma foldl_view_other k l s : k ∉ key <$> l → view k (foldl f s l) = view k s.
Proof using view_other.
  revert s. induction l as [|e l IH]; intros s Hk; [done|]. cbn [foldl].
  rewrite fmap_cons, not_elem_of_cons in Hk. destruct Hk as [Hne Hk].
  rewrite IH by done. by apply view_other.
Qed.

Lemma foldl_view_key e l s :
  NoDup (key <$> l) → e ∈ l → view (key e) (foldl f s l) = φ e (view (key e) s).
Proof using view_other view_key.
  revert s. induction l as [|e' l IH]; intros s Hnd He; [by apply elem_of_nil in He|].
  cbn [foldl]. rewrite fmap_cons in Hnd. apply NoDup_cons in Hnd as [Hk Hnd].
  apply elem_of_cons in He as [->|He].
  - rewrite foldl_view_other by done. apply view_key.
  - rewrite IH by done. f_equal. apply view_other. intros Heq. apply Hk.
    rewrite <-Heq. by apply list_elem_of_fmap_2.
Qed.
End foldl_view.

(** ** Staging *)
Definition kview : Type := option SemanticValue * option (gset string) * bool.
Definition view (k : string) (s : staged) : kview :=
  (sg_ground s !! k, sg_deps s !! k, bool_decide (k ∈ sg_changed s)).

Definition removal_view (v : kview) : kview :=
  let '(g, d, c) := v in (None, None, c || bool_decide (is_Some g) || bool_decide (is_Some d)).
Definition upsert_view (x : SemanticValue) (v : kview) : kview :=
  let '(g, d, c) := v in if bool_decide (g = Some x) then v else (Some x, d, true).
Definition dependency_view (i : gset string) (v : kview) : kview :=
  let '(g, d, c) := v in
  if negb (bool_decide (d = Some i)) && negb (bool_decide (d = None) && bool_decide (i = ∅))
  then (g, if bool_decide (i = ∅) then None else Some i, true) else v.

Lemma changed_other k k' (X : gset string) :
  k ≠ k' → bool_decide (k ∈ {[k']} ∪ X) = bool_decide (k ∈ X).
Proof. intros H. apply bool_decide_ext. set_solver. Qed.
Lemma changed_here k (X : gset string) : bool_decide (k ∈ {[k]} ∪ X) = true.
Proof. apply bool_decide_eq_true. set_solver. Qed.

Lemma stage_removal_view k s l :
  NoDup l → view k (foldl stage_removal s l) =
            if decide (k ∈ l) then removal_view (view k s) else view k s.
Proof.
  intros Hnd. rewrite <-(list_fmap_id l) in Hnd.
  assert (∀ k s e, k ≠ id e → view k (stage_removal s e) = view k s) as Hother.
  { intros k' s' e Hne. unfold view, stage_removal, id in *; simpl.
    rewrite !lookup_delete_ne by done. f_equal.
    repeat case_match; by rewrite ?changed_other. }
  case_decide as Hk.
  - apply (foldl_view_key view stage_removal id (λ _, removal_view)); [done| |done|done].
    intros s' e. unfold view, stage_removal, removal_view, id; simpl.
    rewrite !lookup_delete_eq. f_equal.
    destruct (sg_ground s' !! e), (sg_deps s' !! e); simpl;
      by rewrite ?changed_here, ?orb_true_r, ?orb_false_r.
  - apply (foldl_view_other view stage_removal id); [done|]. by rewrite list_fmap_id.
Qed.

Lemma stage_upsert_view k s m :
  view k (foldl stage_upsert s (btree_list m)) =
  match m !! k with Some x => upsert_view x (view k s) | None => view k s end.
Proof.
  assert (∀ k s (e : string * SemanticValue), k ≠ e.1 → view k (stage_upsert s e) = view k s)
    as Hother.
  { intros k' s' e Hne. unfold view, stage_upsert. case_bool_decide; [done|]. simpl.
    by rewrite lookup_insert_ne, changed_other by done. }
  destruct (m !! k) as [x|] eqn:Hx.
  - apply (foldl_view_key view stage_upsert fst (λ e, upsert_view e.2) Hother) with (e := (k, x)).
    + intros s' e. unfold view, stage_upsert, upsert_view. case_bool_decide; [done|]. simpl.
      by rewrite lookup_insert_eq, changed_here.
    + apply btree_list_nodup.
    + by apply elem_of_btree_list.
  - apply (foldl_view_other view stage_upsert fst Hother).
    intros ([k' x] & -> & Hin)%list_elem_of_fmap. apply elem_of_btree_list in Hin.
    simpl in *. congruence.
Qed.

Lemma stage_dependency_view k s m :
  view k (foldl stage_dependency s (btree_list m)) =
  match m !! k with Some i => dependency_view i (view k s) | None => view k s end.
Proof.
  assert (∀ k s (e : string * gset string), k ≠ e.1 → view k (stage_dependency s e) = view k s)
    as Hother.
  { intros k' s' [e i] Hne. unfold view, stage_dependency. simpl in *.
    destruct (negb (bool_decide (sg_deps s' !! e = Some i)) && _); [|done]. simpl.
    rewrite changed_other by done. case_bool_decide; by rewrite ?lookup_delete_ne, ?lookup_insert_ne. }
  destruct (m !! k) as [x|] eqn:Hx.
  - apply (foldl_view_key view stage_dependency fst (λ e, dependency_view e.2) Hother)
      with (e := (k, x)).
    + intros s' [e i]. unfold view, stage_dependency, dependency_view. simpl.
      destruct (negb (bool_decide (sg_deps s' !! e = Some i)) && _); [|done]. simpl.
      rewrite changed_here. case_bool_decide; by rewrite ?lookup_delete_eq, ?lookup_insert_eq.
    + apply btree_list_nodup.
    + by apply elem_of_btree_list.
  - apply (foldl_view_other view stage_dependency fst Hother).
    intros ([k' i] & -> & Hin)%list_elem_of_fmap. apply elem_of_btree_list in Hin.
    simpl in *. congruence.
Qed.

(** ** The specification of a change

    The graph after a change, its values before eviction, and the keys whose
    value or declaration differs. *)
Definition spec_deps (st : SemanticState) (d : SemanticDelta) (k : string) : option (gset string) :=
  match dependencies d !! k with
  | Some i => if decide (i = ∅) then None else Some i
  | None => if decide (k ∈ removals d) then None else st_dependencies st !! k
  end.
Definition spec_ground (st : SemanticState) (d : SemanticDelta) (k : string) :
    option SemanticValue :=
  match upserts d !! k with
  | Some v => Some v
  | None => if decide (k ∈ removals d) then None else ground st !! k
  end.
Definition spec_changed (st : SemanticState) (d : SemanticDelta) (k : string) : Prop :=
  spec_ground st d k ≠ ground st !! k ∨ spec_deps st d k ≠ st_dependencies st !! k.

Definition no_empty_inputs (g : DependencyGraph) : Prop := map_Forall (λ _ i, i ≠ ∅) g.

Lemma stage_view st d k :
  conflicting d = false → no_empty_inputs (st_dependencies st) →
  view k (stage st d) =
    (spec_ground st d k, spec_deps st d k, bool_decide (spec_changed st d k)).
Proof.
  intros Hc Hne. unfold stage, spec_changed, spec_ground, spec_deps.
  rewrite stage_dependency_view, stage_upsert_view, stage_removal_view by apply bset_list_nodup.
  assert (∀ X Y : kview, (if decide (k ∈ bset_list (removals d)) then X else Y) =
            if decide (k ∈ removals d) then X else Y) as ->.
  { intros X Y. apply decide_ext, elem_of_bset_list. }
  set (v0 := view k _). assert (v0 = (ground st !! k, st_dependencies st !! k, false)) as ->.
  { unfold v0, view. simpl. by rewrite bool_decide_eq_false_2 by set_solver. }
  destruct (decide (k ∈ removals d)) as [Hk|Hk].
  - destruct (not_conflicting d k Hc Hk) as [-> ->]. simpl. f_equal.
    by destruct (ground st !! k), (st_dependencies st !! k).
  - specialize (Hne k). unfold upsert_view, dependency_view.
    destruct (upserts d !! k) as [v|], (dependencies d !! k) as [i|],
      (ground st !! k) as [v'|], (st_dependencies st !! k) as [i'|];
      repeat case_bool_decide; repeat case_decide; simpl in *; simplify_eq; try done;
      naive_solver.
Qed.

(** ** The next state *)
Section stage_facts.
Context (st : SemanticState) (d : SemanticDelta).
Context (Hc : conflicting d = false) (Hne : no_empty_inputs (st_dependencies st)).

Lemma stage_ground k : sg_ground (stage st d) !! k = spec_ground st d k.
Proof using Hc Hne. pose proof (stage_view st d k Hc Hne) as H. unfold view in H. congruence. Qed.
Lemma stage_deps k : sg_deps (stage st d) !! k = spec_deps st d k.
Proof using Hc Hne. pose proof (stage_view st d k Hc Hne) as H. unfold view in H. congruence. Qed.
Lemma stage_changed k : k ∈ sg_changed (stage st d) ↔ spec_changed st d k.
Proof using Hc Hne.
  pose proof (stage_view st d k Hc Hne) as [= _ _ H]. 
  rewrite <-(bool_decide_eq_true (k ∈ _)), H. apply bool_decide_eq_true.
Qed.
End stage_facts.

Lemma spec_deps_nonempty st d k i :
  no_empty_inputs (st_dependencies st) → spec_deps st d k = Some i → i ≠ ∅.
Proof.
  unfold spec_deps. intros Hne H. repeat case_match; simplify_eq; [done|]. by eapply Hne.
Qed.

(** A change of graph changes the derived key, so the closures of the changed
    keys in the old and in the new graph are the same set. *)
Lemma affected_transfer (g g' : DependencyGraph) (C : string → Prop) k :
  (∀ k, g !! k ≠ g' !! k → C k) →
  (∃ c, C c ∧ rtc (edge g) c k) → ∃ c, C c ∧ rtc (edge g') c k.
Proof.
  intros HC (c & Hc & Hr). revert k Hr.
  apply (rtc_ind_r (λ k, ∃ c, C c ∧ rtc (edge g') c k)); [by exists c|].
  intros a b _ Hab IH.
  destruct (decide (g !! b = g' !! b)) as [Heq|Hne]; [|exists b; eauto using rtc_refl].
  destruct IH as (c' & ? & ?). exists c'. split; [done|]. eapply rtc_r; [done|].
  destruct Hab as (i & ? & ?). exists i. by rewrite <-Heq.
Qed.

Lemma evict_lookup ups g l k :
  foldl (evict ups) g l !! k =
  if decide (k ∈ l ∧ ups !! k = None) then None else g !! k.
Proof.
  revert g. induction l as [|e l IH]; intros g; cbn [foldl].
  { rewrite decide_False; [done|]. intros [H _]. by apply elem_of_nil in H. }
  rewrite IH. unfold evict. destruct (decide (k = e)) as [->|Hne].
  - destruct (ups !! e) eqn:He.
    + rewrite bool_decide_eq_true_2 by done. rewrite !decide_False by naive_solver. done.
    + rewrite bool_decide_eq_false_2 by (by intros [??]). rewrite lookup_delete_eq.
      rewrite (decide_True (P := e ∈ e :: l ∧ _)) by set_solver. by case_decide.
  - assert ((if bool_decide (is_Some (ups !! e)) then g else delete e g) !! k = g !! k) as ->.
    { case_bool_decide; [done|]. by rewrite lookup_delete_ne. }
    apply decide_ext. rewrite elem_of_cons. naive_solver.
Qed.

(** Every input of an upserted derived key is present. *)
Definition inputs_present (g : gmap string SemanticValue) (deps : DependencyGraph) (k : string) :
    Prop :=
  ∀ inputs i, deps !! k = Some inputs → i ∈ inputs → is_Some (g !! i).

Lemma first_missing_none g deps k : first_missing g deps k = None ↔ inputs_present g deps k.
Proof.
  unfold first_missing, inputs_present. destruct (deps !! k) as [s|]; simpl; [|naive_solver].
  destruct (filter _ _) as [|i l] eqn:Hf; simpl.
  - split; [|done]. intros _ inputs i [= <-] Hi. apply not_eq_None_Some. intros Hn.
    assert (i ∈ []) as Hnil; [|by apply elem_of_nil in Hnil].
    rewrite <-Hf. apply list_elem_of_filter. by rewrite elem_of_bset_list.
  - split; [done|]. intros H. assert (i ∈ i :: l) as Hi by set_solver.
    rewrite <-Hf in Hi. apply list_elem_of_filter in Hi as [Hn Hi].
    apply elem_of_bset_list in Hi. specialize (H s i eq_refl Hi). rewrite Hn in H.
    by destruct H.
Qed.

Lemma first_missing_some g deps k k' i :
  first_missing g deps k = Some (k', i) →
  k' = k ∧ g !! i = None ∧ ∃ s, deps !! k = Some s ∧ i ∈ s.
Proof.
  unfold first_missing. destruct (deps !! k) as [s|]; simpl; [|done].
  destruct (filter _ _) as [|j l] eqn:Hf; simpl; [done|]. intros [= <- ->].
  assert (i ∈ i :: l) as Hi by set_solver. rewrite <-Hf in Hi.
  apply list_elem_of_filter in Hi as [Hn Hi]. apply elem_of_bset_list in Hi. eauto.
Qed.

Lemma check_inputs_ok g deps ups :
  check_inputs g deps ups = Ok tt ↔ ∀ k, is_Some (ups !! k) → inputs_present g deps k.
Proof.
  unfold check_inputs. destruct (omap _ _) as [|[k i] l] eqn:Ho; simpl.
  - split; [|done]. intros _ k [v Hv]. apply first_missing_none.
    destruct (first_missing g deps k) as [p|] eqn:Hf; [|done].
    assert (p ∈ []) as Hnil; [|by apply elem_of_nil in Hnil].
    rewrite <-Ho. apply list_elem_of_omap. exists k. split; [|done].
    apply list_elem_of_fmap. exists (k, v). by rewrite elem_of_btree_list.
  - split; [done|]. intros H. assert ((k, i) ∈ (k, i) :: l) as Hin by set_solver.
    rewrite <-Ho in Hin. apply list_elem_of_omap in Hin as (k' & Hk' & Hf).
    apply list_elem_of_fmap in Hk' as ([k'' v] & -> & Hv). apply elem_of_btree_list in Hv.
    specialize (H k'' ltac:(by eexists)). apply first_missing_none in H. simpl in *. congruence.
Qed.

(** The invariant of published states: derived keys have inputs, derivations
    are well-founded, and a derived value is held only while every key it is
    derived from is held. *)
Record state_wf (st : SemanticState) : Prop := {
  wf_nonempty : no_empty_inputs (st_dependencies st);
  wf_acyclic : ¬ has_cycle (st_dependencies st);
  wf_inputs : ∀ k, is_Some (ground st !! k) → inputs_present (ground st) (st_dependencies st) k;
  wf_revision : (st_revision st < 2 ^ 64)%N
}.

(** What a change prepared on [h] is. *)
Record prepares (h : SemanticHost) (d : SemanticDelta) (p : PreparedDelta) : Prop := {
  pf_encodes : ∃ bs, delta_encode d = Ok bs;
  pf_owner : pd_owner p = host_owner h;
  pf_base : pd_base p = host_revision h;
  pf_delta : pd_delta p = d;
  pf_deps : ∀ k, st_dependencies (pd_next p) !! k = spec_deps (host_state h) d k;
  pf_acyclic : ¬ has_cycle (st_dependencies (pd_next p));
  pf_affected : ∀ k, k ∈ pd_affected p ↔
    ∃ c, spec_changed (host_state h) d c ∧ rtc (edge (st_dependencies (pd_next p))) c k;
  pf_ground : ∀ k, ground (pd_next p) !! k =
    match upserts d !! k with
    | Some v => Some v
    | None => if decide (k ∈ pd_affected p) then None else ground (host_state h) !! k
    end;
  pf_inputs : ∀ k, is_Some (upserts d !! k) →
    inputs_present (ground (pd_next p)) (st_dependencies (pd_next p)) k;
  pf_revision : pd_next p = host_state h ∨
    (st_revision (pd_next p) = host_revision h + 1 ∧ host_revision h + 1 < 2 ^ 64 ∧
     ¬ (ground (pd_next p) = ground (host_state h) ∧
        st_dependencies (pd_next p) = st_dependencies (host_state h)))%N
}.

Section prepare.
Context (h : SemanticHost) (d : SemanticDelta).
Context (Hwf : no_empty_inputs (st_dependencies (host_state h))).

Let st := host_state h.
Let sg := stage st d.
Let aff := affected_by (st_dependencies st) (bset_list (sg_changed sg))
           ∪ affected_by (sg_deps sg) (bset_list (sg_changed sg)).

Lemma prepare_affected k :
  conflicting d = false →
  k ∈ aff ↔ ∃ c, spec_changed st d c ∧ rtc (edge (sg_deps sg)) c k.
Proof using Hwf.
  intros Hc. unfold aff, sg. rewrite elem_of_union, !elem_of_affected_by.
  setoid_rewrite elem_of_bset_list. setoid_rewrite (stage_changed st d Hc Hwf).
  split; [intros [H|H]; [|done]|by right].
  eapply affected_transfer; [|done]. intros k' Hk'. right.
  by rewrite <-(stage_deps st d Hc Hwf).
Qed.

Lemma prepare_ground k :
  conflicting d = false →
  foldl (evict (upserts d)) (sg_ground sg) (bset_list aff) !! k =
    match upserts d !! k with
    | Some v => Some v
    | None => if decide (k ∈ aff) then None else ground st !! k
    end.
Proof using Hwf.
  intros Hc. unfold sg. rewrite evict_lookup, (stage_ground st d Hc Hwf).
  rewrite (decide_ext _ (k ∈ aff ∧ upserts d !! k = None)) by by rewrite elem_of_bset_list.
  unfold spec_ground. destruct (upserts d !! k) eqn:Hu; [by rewrite decide_False by naive_solver|].
  destruct (decide (k ∈ aff)) as [Ha|Ha]; [by rewrite decide_True|].
  rewrite decide_False by naive_solver. case_decide as Hr; [|done].
  destruct (ground st !! k) eqn:Hg; [|done]. destruct Ha. apply prepare_affected; [done|].
  exists k. split; [|done]. left. unfold spec_ground. by rewrite Hu, decide_True, Hg.
Qed.

Lemma encode_not_conflicting bs : delta_encode d = Ok bs → conflicting d = false.
Proof. intros H. by apply delta_encode_emits in H as ((? & _) & _). Qed.

Lemma prepare_delta_ok p : prepare_delta h d = Ok p → prepares h d p.
Proof using Hwf.
  unfold prepare_delta. fold st sg aff. intros H. apply rbind_ok_inv in H as (bs & Henc & H).
  pose proof (encode_not_conflicting bs Henc) as Hc.
  destruct (acyclic (sg_deps sg)) eqn:Hac; [|done]. cbn [negb] in H.
  apply rbind_ok_inv in H as ([] & Hin & H). apply rbind_ok_inv in H as (next & Hnext & [= <-]).
  set (g := foldl _ _ _) in *.
  assert (ground next = g ∧ st_dependencies next = sg_deps sg ∧
    (next = st ∨ (st_revision next = host_revision h + 1 ∧ host_revision h + 1 < 2 ^ 64 ∧
                  ¬ (g = ground st ∧ sg_deps sg = st_dependencies st))%N)) as (Hg & Hd & Hrev).
  { case_bool_decide as Hb; [injection Hnext as <-; auto|]. unfold checked_add_u64 in Hnext.
    destruct (host_revision h + 1 <? 2 ^ 64)%N eqn:Hlt; [|done]. injection Hnext as <-.
    bool_prop. split; [done|]. split; [done|]. right. repeat split; [done|].
    intros [Hg Hd]. apply Hb. unfold host_revision. rewrite Hg, Hd. by destruct (host_state h). }
  constructor; cbn [pd_owner pd_base pd_delta pd_next pd_affected]; rewrite ?Hg, ?Hd; try done.
  - by exists bs.
  - intros k. apply stage_deps; [apply Hc|apply Hwf].
  - by apply acyclic_correct.
  - intros k. by apply prepare_affected.
  - intros k. by apply prepare_ground.
  - by apply check_inputs_ok.
Qed.

(** Nothing else is refused. *)
Lemma prepare_delta_complete bs :
  delta_encode d = Ok bs → ¬ has_cycle (sg_deps sg) →
  (∀ k, is_Some (upserts d !! k) →
     inputs_present (foldl (evict (upserts d)) (sg_ground sg) (bset_list aff)) (sg_deps sg) k) →
  (host_revision h + 1 < 2 ^ 64)%N →
  ∃ p, prepare_delta h d = Ok p.
Proof.
  intros Henc Hac Hin Hrev. unfold prepare_delta. fold st sg aff. rewrite Henc. cbn [rbind].
  apply acyclic_correct in Hac. rewrite Hac. cbn [negb].
  apply check_inputs_ok in Hin. rewrite Hin. cbn [rbind].
  unfold checked_add_u64. rewrite (proj2 (N.ltb_lt _ _) Hrev).
  case_bool_decide; cbn [ok_or rbind]; by eexists.
Qed.
End prepare.

(** ** Consequences *)
Section prepared.
Context (h : SemanticHost) (d : SemanticDelta) (p : PreparedDelta).
Context (Hp : prepares h d p).

Lemma prepares_not_stale : stale_preparation h p = false.
Proof using Hp.
  unfold stale_preparation. rewrite (pf_owner _ _ _ Hp), (pf_base _ _ _ Hp).
  by rewrite bool_decide_eq_true_2, N.eqb_refl.
Qed.

Lemma unaffected_not_changed k : k ∉ pd_affected p → ¬ spec_changed (host_state h) d k.
Proof using Hp. intros Hk Hc. apply Hk, (pf_affected _ _ _ Hp). by exists k. Qed.

Lemma unaffected_same k :
  k ∉ pd_affected p →
  ground (pd_next p) !! k = ground (host_state h) !! k ∧
  st_dependencies (pd_next p) !! k = st_dependencies (host_state h) !! k.
Proof using Hp.
  intros Hk. pose proof (unaffected_not_changed k Hk) as Hc. unfold spec_changed in Hc.
  rewrite (pf_ground _ _ _ Hp), (pf_deps _ _ _ Hp). split.
  - destruct (upserts d !! k) eqn:Hu; [|by rewrite decide_False].
    destruct (decide (ground (host_state h) !! k = Some s)) as [->|Hne]; [done|].
    destruct Hc. left. unfold spec_ground. by rewrite Hu.
  - destruct (decide (spec_deps (host_state h) d k = st_dependencies (host_state h) !! k));
      [done|]. destruct Hc. by right.
Qed.

Lemma unaffected_inputs i k :
  rtc (edge (st_dependencies (pd_next p))) i k → k ∉ pd_affected p → i ∉ pd_affected p.
Proof using Hp.
  intros Hr Hk Hi. apply Hk. apply (pf_affected _ _ _ Hp) in Hi as (c & Hc & Hci).
  apply (pf_affected _ _ _ Hp). exists c. split; [done|]. by etrans.
Qed.

Lemma kept_unaffected k :
  is_Some (ground (pd_next p) !! k) → upserts d !! k = None → k ∉ pd_affected p.
Proof using Hp.
  intros Hs Hu Hk. rewrite (pf_ground _ _ _ Hp), Hu, decide_True in Hs by done.
  by destruct Hs.
Qed.

Lemma prepares_wf : state_wf (host_state h) → state_wf (pd_next p).
Proof using Hp.
  intros Hwf. split.
  - intros k i Hi. rewrite (pf_deps _ _ _ Hp) in Hi.
    eapply spec_deps_nonempty; [apply (wf_nonempty _ Hwf)|done].
  - apply (pf_acyclic _ _ _ Hp).
  - intros k Hk. destruct (upserts d !! k) eqn:Hu.
    { apply (pf_inputs _ _ _ Hp). by rewrite Hu. }
    pose proof (kept_unaffected k Hk Hu) as Hna. intros inputs i Hs Hi.
    assert (i ∉ pd_affected p) as Hia.
    { apply (unaffected_inputs i k); [|done]. apply rtc_once. by exists inputs. }
    destruct (unaffected_same k Hna) as [Hgk Hdk], (unaffected_same i Hia) as [Hgi _].
    rewrite Hgi. apply (wf_inputs _ Hwf k) with inputs; by rewrite <-?Hgk, <-?Hdk.
  - destruct (pf_revision _ _ _ Hp) as [->|(-> & ? & _)]; [apply (wf_revision _ Hwf)|done].
Qed.
End prepared.

Lemma default_wf owner : state_wf (host_state (host_default owner)).
Proof.
  split; simpl.
  - apply map_Forall_empty.
  - intros [k (x & _ & s & Hs & _)%tc_last]. by rewrite lookup_empty in Hs.
  - intros k [v Hv]. by rewrite lookup_empty in Hv.
  - lia.
Qed.

(** ** Restoring an exported state *)
Lemma restore_ok_inv owner revision s h :
  restore owner revision s = Ok h →
  removals s = ∅ ∧ host_owner h = owner ∧ host_revision h = revision ∧
  ∃ p, prepares (host_default owner) s p ∧
       ground (host_state h) = ground (pd_next p) ∧
       st_dependencies (host_state h) = st_dependencies (pd_next p).
Proof.
  unfold restore, apply_delta. case_bool_decide as Hr; [|done]. cbn [negb].
  destruct (prepare_delta (host_default owner) s) as [p|] eqn:Hp; [|done].
  pose proof (wf_nonempty _ (default_wf owner)) as Hne.
  apply (prepare_delta_ok _ _ Hne) in Hp. unfold apply_prepared.
  rewrite (prepares_not_stale _ _ _ Hp).
  intros [= <-]. split; [done|]. split; [done|]. split; [done|]. by exists p.
Qed.

Lemma export_deps_spec h owner k :
  state_wf (host_state h) →
  spec_deps (host_state (host_default owner)) (export_state h) k
    = st_dependencies (host_state h) !! k.
Proof.
  intros Hwf. unfold spec_deps. cbn [export_state dependencies removals host_default host_state].
  destruct (st_dependencies (host_state h) !! k) as [i|] eqn:Hi.
  - rewrite decide_False; [done|]. by eapply (wf_nonempty _ Hwf).
  - by case_decide.
Qed.

Lemma restore_export_ok h owner revision bs :
  state_wf (host_state h) → delta_encode (export_state h) = Ok bs →
  restore owner revision (export_state h) =
    Ok {| host_state := {| st_revision := revision; ground := ground (host_state h);
                           st_dependencies := st_dependencies (host_state h) |};
          host_owner := owner |}.
Proof.
  intros Hwf Henc. pose proof (wf_nonempty _ (default_wf owner)) as Hne.
  set (h0 := host_default owner). set (d := export_state h).
  pose proof (encode_not_conflicting d bs Henc) as Hc.
  assert (sg_deps (stage (host_state h0) d) = st_dependencies (host_state h)) as Hdeps.
  { apply map_eq. intros k. rewrite stage_deps by done. by apply export_deps_spec. }
  assert (∀ p, ground (host_state h) = foldl (evict (upserts d)) (sg_ground (stage (host_state h0) d)) p)
    as Hg.
  { intros l. apply map_eq. intros k. rewrite evict_lookup, (stage_ground _ _ Hc Hne).
    unfold spec_ground. cbn [d export_state upserts removals h0 host_default host_state ground].
    destruct (ground (host_state h) !! k); [by rewrite decide_False by naive_solver|].
    by repeat case_decide. }
  destruct (prepare_delta_complete h0 d bs) as [p Hp]; [done|..].
  - rewrite Hdeps. apply (wf_acyclic _ Hwf).
  - intros k Hk. rewrite <-Hg, Hdeps. by apply (wf_inputs _ Hwf).
  - unfold host_revision. simpl. lia.
  - unfold restore, apply_delta. fold d h0. rewrite bool_decide_eq_true_2 by done. cbn [negb].
    rewrite Hp. apply (prepare_delta_ok _ _ Hne) in Hp as Hpf. unfold apply_prepared.
    rewrite (prepares_not_stale h0 d p Hpf).
    do 3 f_equal; [|apply map_eq; intros k; rewrite (pf_deps _ _ _ Hpf); by apply export_deps_spec].
    apply map_eq. intros k. rewrite (pf_ground _ _ _ Hpf).
    cbn [d export_state upserts h0 host_default host_state ground].
    destruct (ground (host_state h) !! k); [done|]. by case_decide.
Qed.

(** ** Theorems *)

(** C33: a prepared change implements its specification.  The new graph is the
    old one without the removed declarations and with the declared ones (an
    empty input set withdraws a declaration); the affected keys are those
    reachable in the new graph from a key whose value or declaration differs;
    an upserted key has the upserted value, any other affected key is evicted,
    and any other key keeps its value. *)
Theorem prepare_delta_refines h d p :
  no_empty_inputs (st_dependencies (host_state h)) →
  prepare_delta h d = Ok p →
  (∀ k, st_dependencies (pd_next p) !! k = spec_deps (host_state h) d k) ∧
  (∀ k, k ∈ pd_affected p ↔
        ∃ c, spec_changed (host_state h) d c ∧
             rtc (edge (st_dependencies (pd_next p))) c k) ∧
  (∀ k, ground (pd_next p) !! k =
        match upserts d !! k with
        | Some v => Some v
        | None => if decide (k ∈ pd_affected p) then None else ground (host_state h) !! k
        end).
Proof. intros Hne Hp. by apply (prepare_delta_ok _ _ Hne) in Hp as []. Qed.

(** No stale derivation survives.  If a key that the delta does not supply
    is still held after the change, then nothing it is transitively derived
    from has changed: every such key has the value and the declaration it had
    before. *)
Theorem derived_values_fresh h d p k i :
  no_empty_inputs (st_dependencies (host_state h)) →
  prepare_delta h d = Ok p →
  upserts d !! k = None → is_Some (ground (pd_next p) !! k) →
  rtc (edge (st_dependencies (pd_next p))) i k →
  ground (pd_next p) !! i = ground (host_state h) !! i ∧
  st_dependencies (pd_next p) !! i = st_dependencies (host_state h) !! i.
Proof.
  intros Hne Hp Hu Hk Hr. apply (prepare_delta_ok _ _ Hne) in Hp.
  eapply unaffected_same, unaffected_inputs; [done|done|done|]. by eapply kept_unaffected.
Qed.

(** Every refusal of a change names a real fault: an encoding fault, a
    cycle in the graph the delta would produce, an upserted derived key one of
    whose inputs would be absent, or the exhausted revision counter. *)
Theorem prepare_delta_refusals h d e :
  no_empty_inputs (st_dependencies (host_state h)) →
  prepare_delta h d = Err e →
  match e with
  | CyclicDependency =>
      ∃ g, (∀ k, g !! k = spec_deps (host_state h) d k) ∧ has_cycle g
  | MissingDependency k i =>
      is_Some (upserts d !! k) ∧ upserts d !! i = None ∧
      ∃ inputs, spec_deps (host_state h) d k = Some inputs ∧ i ∈ inputs
  | RevisionExhausted => (2 ^ 64 ≤ host_revision h + 1)%N
  | _ => delta_encode d = Err e
  end.
Proof.
  intros Hne. unfold prepare_delta. destruct (delta_encode d) as [bs|e'] eqn:Henc; cbn [rbind].
  2:{ intros [= ->]. by apply delta_encode_refuses in Henc as H; destruct H as [->|[->| ->]]. }
  pose proof (encode_not_conflicting d bs Henc) as Hc.
  destruct (acyclic (sg_deps (stage (host_state h) d))) eqn:Hac; cbn [negb].
  2:{ intros [= <-]. exists (sg_deps (stage (host_state h) d)).
      split; [intros k; by apply stage_deps|].
      by apply acyclic_false. }
  unfold check_inputs. set (g := foldl _ _ _).
  destruct (omap _ _) as [|[k i] l] eqn:Ho; cbn [head rbind].
  - case_bool_decide; [done|]. unfold checked_add_u64.
    destruct (host_revision h + 1 <? 2 ^ 64)%N eqn:Hr; [done|]. intros [= <-]. by bool_prop.
  - intros [= <-]. assert ((k, i) ∈ (k, i) :: l) as Hin by set_solver.
    rewrite <-Ho in Hin. apply list_elem_of_omap in Hin as (k' & Hk' & Hf).
    apply list_elem_of_fmap in Hk' as ([k'' v] & -> & Hv). apply elem_of_btree_list in Hv.
    apply first_missing_some in Hf as (-> & Hg & s & Hs & Hi). cbn [fst] in *.
    split; [by eexists|]. rewrite <-(stage_deps _ _ Hc Hne), Hs. split; [|by exists s].
    unfold g in Hg. rewrite (prepare_ground h d Hne i Hc) in Hg.
    by destruct (upserts d !! i).
Qed.

(** A published state can be exported and restored exactly.  If the
    exported state fits the journal encoding, then [restore] accepts it and the
    new host holds the same values and declarations at the given revision,
    evicted derivations included. *)
Theorem restore_export_roundtrip h owner revision bs :
  state_wf (host_state h) → delta_encode (export_state h) = Ok bs →
  restore owner revision (export_state h) =
    Ok {| host_state := {| st_revision := revision; ground := ground (host_state h);
                           st_dependencies := st_dependencies (host_state h) |};
          host_owner := owner |}.
Proof. apply restore_export_ok. Qed.

(** ** Witnesses *)
Definition demo_state : SemanticState :=
  {| st_revision := 4;
     ground := <["sum" := Text "3"]> (<["a" := Text "1"]> (<["b" := Text "2"]> ∅));
     st_dependencies := {["sum" := {["a"; "b"]}]} |}.
Definition demo_host : SemanticHost := {| host_state := demo_state; host_owner := 1 |}.
Definition demo_delta : SemanticDelta :=
  {| upserts := {["c" := Text "9"]}; removals := ∅; dependencies := ∅ |}.
Definition demo_bad_delta : SemanticDelta :=
  {| upserts := {["sum" := Text "9"]}; removals := {["a"]}; dependencies := ∅ |}.

Lemma demo_no_empty : no_empty_inputs (st_dependencies demo_state).
Proof. apply map_Forall_singleton. set_solver. Defined.
Definition demo_prepared : PreparedDelta :=
  {| pd_owner := 1; pd_base := 4; pd_delta := demo_delta;
     pd_next := {| st_revision := 5; ground := <["c" := Text "9"]> (ground demo_state);
                   st_dependencies := st_dependencies demo_state |};
     pd_affected := {["c"]} |}.
Lemma demo_prepares : prepare_delta demo_host demo_delta = Ok demo_prepared.
Proof. vm_compute. reflexivity. Defined.

Lemma demo_state_wf : state_wf demo_state.
Proof.
  split; [apply demo_no_empty| | |vm_compute; reflexivity].
  - apply acyclic_true. vm_compute. reflexivity.
  - intros k _ inputs i Hs Hi.
    change (({["sum" := {["a"; "b"]}]} : DependencyGraph) !! k = Some inputs) in Hs.
    apply lookup_singleton_Some in Hs as [<- <-].
    assert (i = "a" ∨ i = "b") as [->| ->] by set_solver; vm_compute; by eexists.
Defined.

Lemma prepare_delta_refines_witness : ground (pd_next demo_prepared) !! "a" = Some (Text "1").
Proof.
  destruct (prepare_delta_refines demo_host demo_delta demo_prepared
              demo_no_empty demo_prepares) as (_ & _ & H).
  rewrite H. vm_compute. reflexivity.
Defined.

Lemma derived_values_fresh_witness :
  ground (pd_next demo_prepared) !! "b" = ground demo_state !! "b" ∧
  st_dependencies (pd_next demo_prepared) !! "b" = st_dependencies demo_state !! "b".
Proof.
  apply (derived_values_fresh demo_host demo_delta demo_prepared "sum" "b"
           demo_no_empty demo_prepares).
  - vm_compute. reflexivity.
  - vm_compute. by eexists.
  - apply rtc_once. exists {["a"; "b"]}. split; [vm_compute; reflexivity|set_solver].
Defined.

Lemma prepare_delta_refusals_witness :
  is_Some (upserts demo_bad_delta !! "sum") ∧ upserts demo_bad_delta !! "a" = None ∧
  ∃ inputs, spec_deps demo_state demo_bad_delta "sum" = Some inputs ∧ "a" ∈ inputs.
Proof.
  apply (prepare_delta_refusals demo_host demo_bad_delta (MissingDependency "sum" "a")
           demo_no_empty).
  vm_compute. reflexivity.
Defined.

Lemma restore_export_roundtrip_witness :
  is_ok (delta_encode (export_state demo_host)) = true ∧
  restore 7 12 (export_state demo_host) =
    Ok {| host_state := {| st_revision := 12; ground := ground demo_state;
                           st_dependencies := st_dependencies demo_state |};
          host_owner := 7 |}.
Proof.
  split; [vm_compute; reflexivity|].
  eapply (restore_export_roundtrip demo_host 7 12); [apply demo_state_wf|].
  vm_compute. reflexivity.
Defined.

(** * Histories of semantic hosts

    Hosts are created, changes are prepared, held and applied in any order and
    to any host, snapshots are taken: a history is a list of such operations.
    Because [PreparedDelta] and [SemanticSnapshot] outlive the state they were
    made from, what [apply_prepared] and [is_stale] compare (the host's identity
    and its revision) has to determine the state.  It does. *)

(** The [n]th host created has identity [n]: an [Arc] allocated by [default]. *)
Record sem_world := {
  hosts : list SemanticHost;
  preparations : list PreparedDelta;
  snapshots : list SemanticSnapshot
}.

Inductive sem_op :=
| ONew
| ORestore (revision : N) (state : SemanticDelta)
| OPrepare (n : nat) (delta : SemanticDelta)
| OApply (n j : nat)
| OApplyDelta (n : nat) (delta : SemanticDelta)
| OSnapshot (n : nat).

Definition add_host (h : SemanticHost) (w : sem_world) : sem_world :=
  {| hosts := hosts w ++ [h]; preparations := preparations w; snapshots := snapshots w |}.
Definition set_host (n : nat) (h : SemanticHost) (w : sem_world) : sem_world :=
  {| hosts := <[n := h]> (hosts w); preparations := preparations w; snapshots := snapshots w |}.

(** One operation.  [apply_prepared] takes the preparation by value, so it is
    gone afterwards, accepted or not; a refused operation changes nothing else.
    A reference to something that does not exist is not an operation. *)
Definition sem_step (w : sem_world) (op : sem_op) : sem_world :=
  let fresh := N.of_nat (length (hosts w)) in
  match op with
  | ONew => add_host (host_default fresh) w
  | ORestore revision state =>
      if u64_ok revision then
        match restore fresh revision state with
        | Ok h => add_host h w
        | Err _ => w
        end
      else w
  | OPrepare n delta =>
      match hosts w !! n with
      | Some h =>
          match prepare_delta h delta with
          | Ok p => {| hosts := hosts w; preparations := preparations w ++ [p];
                       snapshots := snapshots w |}
          | Err _ => w
          end
      | None => w
      end
  | OApply n j =>
      match hosts w !! n, preparations w !! j with
      | Some h, Some p =>
          let w' := set_host n (apply_prepared h p).2 w in
          {| hosts := hosts w'; preparations := delete j (preparations w);
             snapshots := snapshots w |}
      | _, _ => w
      end
  | OApplyDelta n delta =>
      match hosts w !! n with
      | Some h => set_host n (apply_delta h delta).2 w
      | None => w
      end
  | OSnapshot n =>
      match hosts w !! n with
      | Some h => {| hosts := hosts w; preparations := preparations w;
                     snapshots := snapshots w ++ [snapshot h] |}
      | None => w
      end
  end.

Definition sem_init : sem_world := {| hosts := []; preparations := []; snapshots := [] |}.
Definition sem_run (w : sem_world) (ops : list sem_op) : sem_world := foldl sem_step w ops.

(** [h0] is [h] at some earlier time, or now: an older revision, or the same
    state. *)
Definition past (h0 h : SemanticHost) : Prop :=
  host_owner h0 = host_owner h ∧
  ((host_revision h0 < host_revision h)%N ∨ host_state h0 = host_state h).

#[export] Instance past_refl : Reflexive past.
Proof. intros h. split; auto. Qed.
#[export] Instance past_trans : Transitive past.
Proof.
  intros h1 h2 h3 [Ho H] [Ho' H']. split; [congruence|]. unfold host_revision in *.
  destruct H as [H|H], H' as [H'|H']; rewrite ?H, ?H' in *;
    first [by right | left; lia].
Qed.

Lemma past_same h0 h : past h0 h → host_revision h0 = host_revision h → h0 = h.
Proof.
  intros [Ho [H|H]] Hr; [lia|]. destruct h0, h; simpl in *. by subst.
Qed.

(** Every preparation and snapshot was made from a past state of a host. *)
Record sem_inv (w : sem_world) : Prop := {
  inv_owner : ∀ n h, hosts w !! n = Some h → host_owner h = N.of_nat n;
  inv_wf : ∀ n h, hosts w !! n = Some h → state_wf (host_state h);
  inv_preparations : ∀ p, p ∈ preparations w → ∃ n h0 h,
    hosts w !! n = Some h ∧ past h0 h ∧ state_wf (host_state h0) ∧
    prepare_delta h0 (pd_delta p) = Ok p;
  inv_snapshots : ∀ s, s ∈ snapshots w → ∃ n h0 h,
    hosts w !! n = Some h ∧ past h0 h ∧ s = snapshot h0
}.

Lemma prepare_ok_prepares h d p :
  state_wf (host_state h) → prepare_delta h d = Ok p → prepares h d p.
Proof. intros Hwf. apply prepare_delta_ok, (wf_nonempty _ Hwf). Qed.

Lemma apply_own_past h d p :
  state_wf (host_state h) → prepare_delta h d = Ok p →
  past h (apply_prepared h p).2 ∧ state_wf (host_state (apply_prepared h p).2).
Proof.
  intros Hwf Hp. apply (prepare_ok_prepares _ _ _ Hwf) in Hp. unfold apply_prepared.
  rewrite (prepares_not_stale _ _ _ Hp). simpl. split; [|by eapply prepares_wf].
  split; [done|]. unfold host_revision. simpl.
  destruct (pf_revision _ _ _ Hp) as [->|(-> & _)]; [by right|left]. unfold host_revision. lia.
Qed.

Lemma stale_false_inv h p :
  stale_preparation h p = false → pd_owner p = host_owner h ∧ pd_base p = host_revision h.
Proof. unfold stale_preparation. intros H. by bool_prop. Qed.

(** A preparation that is not stale was made from the very state it is applied
    to. *)
Lemma fresh_preparation w n h p :
  sem_inv w → hosts w !! n = Some h → p ∈ preparations w →
  stale_preparation h p = false → prepare_delta h (pd_delta p) = Ok p.
Proof.
  intros HI Hh Hin Hs. apply stale_false_inv in Hs as [Ho Hb].
  destruct (inv_preparations _ HI _ Hin) as (n' & h0 & h' & Hh' & Hpast & Hwf & Hp).
  pose proof (prepare_ok_prepares _ _ _ Hwf Hp) as Hpf.
  rewrite (pf_owner _ _ _ Hpf) in Ho. rewrite (pf_base _ _ _ Hpf) in Hb.
  assert (n' = n) as ->.
  { apply Nat2N.inj. rewrite <-(inv_owner _ HI _ _ Hh), <-(inv_owner _ HI _ _ Hh').
    destruct Hpast as [Hpo _]. congruence. }
  simplify_eq. by rewrite <-(past_same h0 h).
Qed.

Lemma apply_past w n h p :
  sem_inv w → hosts w !! n = Some h → p ∈ preparations w →
  past h (apply_prepared h p).2 ∧ state_wf (host_state (apply_prepared h p).2).
Proof.
  intros HI Hh Hin. destruct (stale_preparation h p) eqn:Hs.
  - unfold apply_prepared. rewrite Hs. split; [reflexivity|by eapply inv_wf].
  - eapply apply_own_past; [by eapply inv_wf|by eapply fresh_preparation].
Qed.

Lemma apply_delta_past h d :
  state_wf (host_state h) →
  past h (apply_delta h d).2 ∧ state_wf (host_state (apply_delta h d).2).
Proof.
  intros Hwf. unfold apply_delta. destruct (prepare_delta h d) eqn:Hp; [|by split].
  by eapply apply_own_past.
Qed.

(** ** Preservation *)
Lemma inv_add_host w h :
  sem_inv w → host_owner h = N.of_nat (length (hosts w)) → state_wf (host_state h) →
  sem_inv (add_host h w).
Proof.
  intros HI Ho Hwf. assert (∀ n h', hosts w !! n = Some h' → hosts (add_host h w) !! n = Some h')
    as Hext by (intros n h' ?; by apply lookup_app_l_Some).
  assert (∀ n h', hosts (add_host h w) !! n = Some h' →
            hosts w !! n = Some h' ∨ n = length (hosts w) ∧ h' = h) as Hinv.
  { intros n h' H. apply lookup_app_Some in H as [H|[Hle H]]; [by left|right].
    apply list_lookup_singleton_Some in H as [? ->]. split; [lia|done]. }
  split.
  - intros n h' [H|[-> ->]]%Hinv; [by eapply inv_owner|done].
  - intros n h' [H|[-> ->]]%Hinv; [by eapply inv_wf|done].
  - intros p (n & h0 & h' & ? & ?)%(inv_preparations _ HI). exists n, h0, h'. auto.
  - intros p (n & h0 & h' & ? & ?)%(inv_snapshots _ HI). exists n, h0, h'. auto.
Qed.

Lemma inv_set_host w n h h' :
  sem_inv w → hosts w !! n = Some h → past h h' → state_wf (host_state h') →
  sem_inv (set_host n h' w).
Proof.
  intros HI Hh Hpast Hwf. assert (∀ m h0 hm, hosts w !! m = Some hm → past h0 hm →
    ∃ hm', hosts (set_host n h' w) !! m = Some hm' ∧ past h0 hm') as Hext.
  { intros m h0 hm Hm Hp. destruct (decide (m = n)) as [->|]; simplify_eq.
    - exists h'. split; [|by etrans]. apply list_lookup_insert_eq. by eapply lookup_lt_Some.
    - exists hm. split; [|done]. by simpl; rewrite list_lookup_insert_ne. }
  assert (∀ m hm, hosts (set_host n h' w) !! m = Some hm →
            (m = n ∧ hm = h') ∨ hosts w !! m = Some hm) as Hinv.
  { intros m hm Hm. apply list_lookup_insert_Some in Hm. naive_solver. }
  split.
  - intros m hm [[-> ->]|Hm]%Hinv; [|by eapply inv_owner].
    destruct Hpast as [<- _]. by eapply inv_owner.
  - intros m hm [[-> ->]|Hm]%Hinv; [done|by eapply inv_wf].
  - intros p (m & h0 & hm & Hm & Hp & ? & ?)%(inv_preparations _ HI).
    destruct (Hext _ _ _ Hm Hp) as (hm' & ? & ?). eauto 8.
  - intros s (m & h0 & hm & Hm & Hp & ?)%(inv_snapshots _ HI).
    destruct (Hext _ _ _ Hm Hp) as (hm' & ? & ?). eauto 8.
Qed.

Lemma restore_wf owner revision s h :
  u64_ok revision = true → restore owner revision s = Ok h →
  host_owner h = owner ∧ state_wf (host_state h).
Proof.
  intros Hu H. apply restore_ok_inv in H as (_ & Ho & Hr & p & Hp & Hg & Hd). split; [done|].
  destruct (prepares_wf _ _ _ Hp (default_wf owner)). apply N.ltb_lt in Hu.
  split; rewrite ?Hg, ?Hd; try done. unfold host_revision in Hr. by rewrite Hr.
Qed.

Lemma sem_step_inv w op : sem_inv w → sem_inv (sem_step w op).
Proof.
  intros HI. destruct op as [|revision s|n d|n j|n d|n]; simpl.
  - apply inv_add_host; [done|done|apply default_wf].
  - destruct (u64_ok revision) eqn:Hu; [|done]. destruct (restore _ _ _) eqn:Hr; [|done].
    apply restore_wf in Hr as [??]; [|done]. by apply inv_add_host.
  - destruct (hosts w !! n) as [h|] eqn:Hh; [|done].
    destruct (prepare_delta h d) as [p|] eqn:Hp; [|done].
    destruct HI as [Ho Hw Hps Hss]. split; simpl; [done|done| |done].
    intros p' [?|Hin%list_elem_of_singleton]%elem_of_app; [by apply Hps|]. subst p'.
    exists n, h, h. assert (pd_delta p = d) as ->; [|by split_and!; eauto].
    by apply (prepare_ok_prepares _ _ _ (Hw _ _ Hh)) in Hp as [].
  - destruct (hosts w !! n) as [h|] eqn:Hh; [|done].
    destruct (preparations w !! j) as [p|] eqn:Hp; [|done].
    destruct (apply_past w n h p) as [Hpast Hwf];
      [done|done|by eapply list_elem_of_lookup_2|].
    destruct (inv_set_host _ _ _ _ HI Hh Hpast Hwf) as [? ? Hps ?]. split; try done.
    intros p' Hin. apply Hps. simpl in *.
    eapply elem_of_sublist; [done|apply sublist_delete].
  - destruct (hosts w !! n) as [h|] eqn:Hh; [|done].
    destruct (apply_delta_past h d) as [??]; [by eapply inv_wf|]. by eapply inv_set_host.
  - destruct (hosts w !! n) as [h|] eqn:Hh; [|done]. destruct HI as [Ho Hw Hps Hss].
    split; simpl; [done|done|done|].
    intros s [?|Hin%list_elem_of_singleton]%elem_of_app; [by apply Hss|]. subst s. by exists n, h, h.
Qed.

Lemma sem_run_inv w ops : sem_inv w → sem_inv (sem_run w ops).
Proof.
  revert w. induction ops as [|op ops IH]; intros w HI; [done|]. by apply IH, sem_step_inv.
Qed.

Lemma sem_init_inv : sem_inv sem_init.
Proof. split; simpl; intros; set_solver. Qed.

Lemma sem_step_past w op n h :
  sem_inv w → hosts w !! n = Some h →
  ∃ h', hosts (sem_step w op) !! n = Some h' ∧ past h h'.
Proof.
  intros HI Hh. assert (∀ h', hosts (add_host h' w) !! n = Some h) as Hadd
    by (intros h'; by apply lookup_app_l_Some).
  assert (∀ m hm h', hosts w !! m = Some hm → past hm h' →
            ∃ h'', hosts (set_host m h' w) !! n = Some h'' ∧ past h h'') as Hset.
  { intros m hm h' Hm Hp. destruct (decide (m = n)) as [->|]; simplify_eq.
    - exists h'. split; [|done]. apply list_lookup_insert_eq. by eapply lookup_lt_Some.
    - exists h. split; [|done]. by simpl; rewrite list_lookup_insert_ne. }
  destruct op as [|revision s|m d|m j|m d|m]; simpl.
  - exists h. split; [apply Hadd|done].
  - repeat case_match; exists h; (split; [first [apply Hadd|done]|done]).
  - repeat case_match; by exists h.
  - destruct (hosts w !! m) as [hm|] eqn:Hm; [|by exists h].
    destruct (preparations w !! j) as [p|] eqn:Hp; [|by exists h].
    apply (Hset m hm); [done|].
    destruct (apply_past w m hm p) as [? _]; [done|done|by eapply list_elem_of_lookup_2|done].
  - destruct (hosts w !! m) as [hm|] eqn:Hm; [|by exists h].
    apply (Hset m hm); [done|]. apply apply_delta_past. by eapply inv_wf.
  - repeat case_match; by exists h.
Qed.

Lemma sem_run_past w ops n h :
  sem_inv w → hosts w !! n = Some h →
  ∃ h', hosts (sem_run w ops) !! n = Some h' ∧ past h h'.
Proof.
  revert w h. induction ops as [|op ops IH]; intros w h HI Hh; [by exists h|].
  destruct (sem_step_past w op n h HI Hh) as (h' & Hh' & Hp).
  destruct (IH _ _ (sem_step_inv w op HI) Hh') as (h'' & ? & ?).
  exists h''. split; [done|]. by etrans.
Qed.

(** ** Theorems *)

(** C5: no lost update.  In every history, applying a held preparation either
    is refused as stale and leaves the host as it was, or does exactly what
    preparing and applying its delta on the host's present state would do: a
    preparation made before another change, or on another host, is never
    published. *)
Theorem no_lost_update ops n h j p :
  hosts (sem_run sem_init ops) !! n = Some h →
  preparations (sem_run sem_init ops) !! j = Some p →
  apply_prepared h p = (Err StalePreparation, h) ∨
  (apply_prepared h p = apply_delta h (pd_delta p) ∧
   ∃ r, (apply_prepared h p).1 = Ok r).
Proof.
  intros Hh Hp. destruct (stale_preparation h p) eqn:Hs.
  - left. unfold apply_prepared. by rewrite Hs.
  - right. pose proof (sem_run_inv _ ops sem_init_inv) as HI.
    unfold apply_delta. rewrite (fresh_preparation _ n h p HI Hh); [|by eapply list_elem_of_lookup_2|done].
    split; [done|]. unfold apply_prepared. rewrite Hs. by eexists.
Qed.

(** C32: every state any host ever publishes is well-formed: the dependency
    graph has no cycle and no empty input set, a derived value is only held
    while all its inputs are held, and the revision is a [u64]. *)
Theorem published_states_wf ops n h :
  hosts (sem_run sem_init ops) !! n = Some h → state_wf (host_state h).
Proof. intros Hh. eapply inv_wf; [|done]. apply sem_run_inv, sem_init_inv. Qed.

(** A revision identifies a state.  Whatever happens after a point in a
    history, a host's identity stays and its revision never decreases; while
    the revision is the same the whole state is the same. *)
Theorem revision_identifies_state ops ops' n h :
  hosts (sem_run sem_init ops) !! n = Some h →
  ∃ h', hosts (sem_run sem_init (ops ++ ops')) !! n = Some h' ∧
        host_owner h' = host_owner h ∧ (host_revision h ≤ host_revision h')%N ∧
        (host_revision h = host_revision h' → host_state h = host_state h').
Proof.
  intros Hh. unfold sem_run. rewrite foldl_app. fold (sem_run sem_init ops).
  destruct (sem_run_past _ ops' n h (sem_run_inv _ ops sem_init_inv) Hh) as (h' & Hh' & Hp).
  exists h'. split; [done|]. destruct Hp as [Ho [Hlt|Heq]].
  - split; [done|]. split; [lia|]. intros He. lia.
  - split; [done|]. unfold host_revision. by rewrite Heq.
Qed.

(** In every history, a snapshot is current for a host exactly when it was
    taken from that host and the host still publishes the state it shows. *)
Theorem snapshot_current_iff ops n h j s :
  hosts (sem_run sem_init ops) !! n = Some h →
  snapshots (sem_run sem_init ops) !! j = Some s →
  is_stale h s = false ↔ snap_owner s = host_owner h ∧ snap_state s = host_state h.
Proof.
  intros Hh Hs. pose proof (sem_run_inv _ ops sem_init_inv) as HI.
  apply list_elem_of_lookup_2 in Hs.
  destruct (inv_snapshots _ HI _ Hs) as (n' & h0 & h' & Hh' & Hpast & ->).
  unfold is_stale. cbn [snapshot snap_owner snap_revision snap_state]. fold (host_revision h0).
  split.
  - intros H. bool_prop. split; [done|]. assert (n' = n) as ->.
    { apply Nat2N.inj. rewrite <-(inv_owner _ HI _ _ Hh), <-(inv_owner _ HI _ _ Hh').
      destruct Hpast as [Hpo _]. congruence. }
    simplify_eq. by rewrite (past_same h0 h).
  - intros [Ho Hst]. unfold host_revision. rewrite Hst, !N.eqb_refl.
    by rewrite bool_decide_eq_true_2.
Qed.

(** ** Witnesses *)
Definition demo_ops : list sem_op :=
  [ONew; OPrepare 0 demo_delta; OPrepare 0 demo_delta; OApply 0 0; OSnapshot 0].

Definition demo_now : SemanticHost :=
  default (host_default 0) (hosts (sem_run sem_init demo_ops) !! 0).
Definition demo_held : PreparedDelta :=
  default demo_prepared (preparations (sem_run sem_init demo_ops) !! 0).
Definition demo_snapshot : SemanticSnapshot :=
  default (snapshot demo_host) (snapshots (sem_run sem_init demo_ops) !! 0).

Lemma no_lost_update_witness : apply_prepared demo_now demo_held = (Err StalePreparation, demo_now).
Proof.
  destruct (no_lost_update demo_ops 0 demo_now 0 demo_held) as [H|[_ [r Hr]]];
    [vm_compute; reflexivity|vm_compute; reflexivity|exact H|].
  vm_compute in Hr. discriminate Hr.
Defined.

Lemma published_states_wf_witness : state_wf (host_state demo_now).
Proof. apply (published_states_wf demo_ops 0 demo_now). vm_compute. reflexivity. Defined.

Lemma revision_identifies_state_witness :
  ∃ h', hosts (sem_run sem_init (demo_ops ++ [OApply 0 0])) !! 0 = Some h' ∧
        (host_revision demo_now ≤ host_revision h')%N.
Proof.
  destruct (revision_identifies_state demo_ops [OApply 0 0] 0 demo_now)
    as (h' & Hh' & _ & Hle & _); [vm_compute; reflexivity|].
  exists h'. split; [exact Hh'|exact Hle].
Defined.

Lemma snapshot_current_iff_witness : is_stale demo_now demo_snapshot = false.
Proof.
  apply (snapshot_current_iff demo_ops 0 demo_now 0 demo_snapshot);
    [vm_compute; reflexivity|vm_compute; reflexivity|split; vm_compute; reflexivity].
Defined.
