(* ===== verification/Verifier.v ===== *)
(** * The verifier contract: crates/ptr-verifier/src/codes.rs and lib.rs

    The table of finding codes, the reports, the [VerifierFabric] that combines
    the reports of several verifiers and the [ActionContractVerifier].  A
    verifier is an instance of the class [Verifier]; [None] is a panic of its
    [verify].  A score is the rational value of the [f32] in a [Probability]. *)

From S2P Require Import Prelude Bytes Text Types.
From Stdlib Require Import QArith_base.
From stdpp Require Import options.

Local Close Scope Q_scope.

(** ** Repair roles and finding codes *)

Inductive RepairRole :=
  RoleFormat | RoleValue | RoleSchema | RoleCode | RoleResource | RoleFact.

#[export] Instance RepairRole_eq_dec : EqDecision RepairRole.
Proof. solve_decision. Defined.

Definition RepairRole_ALL : list RepairRole :=
  [RoleFormat; RoleValue; RoleSchema; RoleCode; RoleResource; RoleFact].

Definition RepairRole_as_str (r : RepairRole) : string :=
  match r with
  | RoleFormat => "format-repair"
  | RoleValue => "value-repair"
  | RoleSchema => "schema-repair"
  | RoleCode => "code-repair"
  | RoleResource => "resource-repair"
  | RoleFact => "fact-repair"
  end.

Record CodeSpec := { cs_code : string; cs_hard : bool; cs_role : option RepairRole }.

Definition hard_code (code : string) (role : RepairRole) : CodeSpec :=
  {| cs_code := code; cs_hard := true; cs_role := Some role |}.
Definition soft_code (code : string) : CodeSpec :=
  {| cs_code := code; cs_hard := false; cs_role := None |}.

Definition CODE_TABLE : list CodeSpec := [
  hard_code "arith.format" RoleFormat;
  hard_code "arith.oversize" RoleFormat;
  hard_code "arith.value" RoleValue;
  hard_code "arith.bounds" RoleValue;
  soft_code "arith.task";
  hard_code "json.parse" RoleFormat;
  hard_code "json.oversize" RoleFormat;
  hard_code "json.depth" RoleFormat;
  hard_code "json.type" RoleSchema;
  hard_code "json.required" RoleSchema;
  hard_code "json.enum" RoleSchema;
  hard_code "json.range" RoleSchema;
  hard_code "json.length" RoleSchema;
  hard_code "json.extra" RoleSchema;
  soft_code "json.truncated";
  soft_code "json.schema";
  hard_code "code.syntax" RoleCode;
  hard_code "code.oversize" RoleFormat;
  hard_code "code.test_failed" RoleCode;
  hard_code "code.timeout" RoleResource;
  hard_code "code.resource" RoleResource;
  soft_code "code.task";
  hard_code "fact.contradicted" RoleFact;
  hard_code "fact.malformed" RoleFormat;
  hard_code "fact.oversize" RoleFormat;
  soft_code "fact.unknown";
  soft_code "fact.stale_snapshot";
  hard_code "binding.missing" RoleFormat;
  hard_code "revision.stale" RoleValue;
  hard_code "revision.future" RoleValue;
  hard_code "generation.stale" RoleValue;
  hard_code "generation.future" RoleValue;
  hard_code "snapshot.mismatch" RoleValue;
  hard_code "promotion.malformed" RoleFormat;
  hard_code "promotion.oversize" RoleFormat;
  hard_code "promotion.no_evidence" RoleSchema;
  hard_code "promotion.derived_only" RoleSchema;
  hard_code "promotion.uncommitted" RoleSchema;
  hard_code "promotion.insufficient_sources" RoleSchema;
  hard_code "promotion.no_ledger_evidence" RoleSchema;
  hard_code "promotion.contradicted" RoleSchema;
  hard_code "process.malformed" RoleFormat;
  hard_code "process.oversize" RoleFormat;
  hard_code "process.not_allowed" RoleFormat;
  hard_code "process.exit_nonzero" RoleValue;
  hard_code "process.timeout" RoleValue;
  soft_code "process.exit_unmapped";
  soft_code "process.signal";
  soft_code "process.spawn";
  soft_code "process.output_truncated"].

Definition code_spec (code : string) : option CodeSpec :=
  snd <$> list_find (λ spec, cs_code spec = code) CODE_TABLE.

Definition repair_role_for (code : string) : option RepairRole :=
  code_spec code ≫= cs_role.

Definition codes_for_role (role : RepairRole) : list string :=
  cs_code <$> filter (λ spec, cs_role spec = Some role) CODE_TABLE.

Record Finding := { f_code : string; f_message : string; f_hard : bool }.

(** [finding]: the hardness is the table's. *)
Definition finding (code message : string) : Finding :=
  {| f_code := code; f_message := message;
     f_hard := match code_spec code with Some spec => cs_hard spec | None => false end |}.

(** ** Reports *)

Inductive VerificationStatus := StatusPass | StatusFail | StatusDisputed | StatusUnknown.

#[export] Instance VerificationStatus_eq_dec : EqDecision VerificationStatus.
Proof. solve_decision. Defined.

(** The value of a finite [f32]; [Probability::new] refuses what is not in
    [0, 1]. *)
Abbreviation Probability := Q (only parsing).
Definition Probability_new (value : Q) : option Probability :=
  if Qle_bool 0 value && Qle_bool value 1 then Some value else None.

Record VerificationReport := {
  vr_status : VerificationStatus;
  vr_level : VerificationLevel;
  vr_score : Probability;
  vr_findings : list Finding
}.

(** [fn report(status, findings)] of the deterministic verifiers, and the same
    with the status taken from the findings. *)
Definition status_report (status : VerificationStatus) (findings : list Finding) :
    option VerificationReport :=
  score ← Probability_new (if bool_decide (status = StatusPass) then 1 else 0)%Q;
  Some {| vr_status := status; vr_level := Deterministic; vr_score := score; vr_findings := findings |}.

Definition findings_report (findings : list Finding) : option VerificationReport :=
  let passed := match findings with [] => true | _ => false end in
  score ← Probability_new (if passed then 1 else 0)%Q;
  Some {| vr_status := if passed then StatusPass else StatusFail;
          vr_level := Deterministic; vr_score := score; vr_findings := findings |}.

(** ** Verifiers *)

Class Verifier (V T : Type) := verify : V → T → option VerificationReport.
Class NamedVerifier (V T : Type) := {
  named_verifier :: Verifier V T;
  verifier_name : V → string
}.

(** [Box<dyn NamedVerifier<T>>]. *)
Record BoxedVerifier (T : Type) := {
  bv_name : string;
  bv_verify : T → option VerificationReport
}.
Arguments bv_name {T} _.
Arguments bv_verify {T} _ _.

Definition boxed {V T} `{NamedVerifier V T} (v : V) : BoxedVerifier T :=
  {| bv_name := verifier_name v; bv_verify := verify v |}.

(** ** The fabric *)

Record VerifierFabric (T : Type) := { vf_verifiers : list (BoxedVerifier T) }.
Arguments vf_verifiers {T} _.

Definition VerifierFabric_default {T} : VerifierFabric T := {| vf_verifiers := [] |}.
Definition VerifierFabric_push {V T} `{NamedVerifier V T} (f : VerifierFabric T) (v : V) : VerifierFabric T :=
  {| vf_verifiers := vf_verifiers f ++ [boxed v] |}.
Definition VerifierFabric_is_empty {T} (f : VerifierFabric T) : bool :=
  match vf_verifiers f with [] => true | _ => false end.

Definition status_rank (s : VerificationStatus) : N :=
  match s with
  | StatusPass => 0
  | StatusUnknown => 1
  | StatusDisputed => 2
  | StatusFail => 3
  end.

Definition level_rank (l : VerificationLevel) : N :=
  match l with
  | Unverified => 0
  | LatentAgreement => 1
  | SampleVerified => 2
  | FullSemantic => 3
  | Deterministic => 4
  end.

(** [Iterator::max_by_key] (the last of the largest) and [min_by_key] (the first
    of the smallest). *)
Definition max_by_key {A} (key : A → N) (l : list A) : option A :=
  match l with
  | [] => None
  | x :: l => Some (foldl (λ best y, if (key best <=? key y)%N then y else best) x l)
  end.
Definition min_by_key {A} (key : A → N) (l : list A) : option A :=
  match l with
  | [] => None
  | x :: l => Some (foldl (λ best y, if (key y <? key best)%N then y else best) x l)
  end.

(** [f32::min] on finite values. *)
Definition f32_min (a b : Q) : Q := if Qle_bool a b then a else b.

Definition VerifierFabric_verify {T} (f : VerifierFabric T) (candidate : T) : option VerificationReport :=
  if VerifierFabric_is_empty f then
    score ← Probability_new 0%Q;
    Some {| vr_status := StatusUnknown; vr_level := Unverified; vr_score := score; vr_findings := [] |}
  else
    reports ← mapM (λ verifier, bv_verify verifier candidate) (vf_verifiers f);
    let hard := existsb (λ report, existsb f_hard (vr_findings report)) reports in
    status ← (if hard then Some StatusFail
              else max_by_key status_rank (vr_status <$> reports));
    level ← min_by_key level_rank (vr_level <$> reports);
    let min_score := foldl f32_min 1%Q (vr_score <$> reports) in
    score ← Probability_new min_score;
    Some {| vr_status := status; vr_level := level; vr_score := score;
            vr_findings := reports ≫= vr_findings |}.

#[export] Instance VerifierFabric_verifier {T} : Verifier (VerifierFabric T) T := VerifierFabric_verify.

(** ** Action contracts *)

Record ActionIr := {
  ai_operation : string;
  ai_target : string;
  ai_capability : string;
  ai_effect : Effect;
  ai_input_type : string;
  ai_generation : Generation;
  ai_revision : Revision;
  ai_payload : list byte
}.

Inductive PayloadEncoding := EncodingUtf8 | EncodingOpaque.

#[export] Instance PayloadEncoding_eq_dec : EqDecision PayloadEncoding.
Proof. solve_decision. Defined.

Record ActionContract := {
  ac_target : string;
  ac_operation : string;
  ac_capability : string;
  ac_input_type : string;
  ac_effect : Effect;
  ac_max_payload_bytes : N;
  ac_payload_encoding : PayloadEncoding
}.

Record ActionContractVerifier := { acv_contract : ActionContract }.

Definition violation (code message : string) : Finding :=
  {| f_code := code; f_message := message; f_hard := true |}.

(** [if condition { findings.push(...) }]. *)
Definition push_if (c : bool) (f : Finding) (findings : list Finding) : list Finding :=
  if c then findings ++ [f] else findings.

Definition ActionContractVerifier_verify (v : ActionContractVerifier) (action : ActionIr) :
    option VerificationReport :=
  let contract := acv_contract v in
  let findings := [] in
  let findings := push_if (bool_decide (ai_target action ≠ ac_target contract))
    (violation "target" "action target differs from contract") findings in
  let findings := push_if (bool_decide (ai_operation action ≠ ac_operation contract))
    (violation "operation" "action operation differs from contract") findings in
  let findings := push_if (bool_decide (ai_capability action ≠ ac_capability contract))
    (violation "capability" "action capability differs from contract") findings in
  let findings := push_if (bool_decide (ai_input_type action ≠ ac_input_type contract))
    (violation "input-type" "action input type differs from contract") findings in
  let findings := push_if (bool_decide (ai_effect action ≠ ac_effect contract))
    (violation "effect" "action effect differs from contract") findings in
  let findings := push_if (ac_max_payload_bytes contract <? blen (ai_payload action))%N
    (violation "payload-size"
       ("payload is " +:+ to_string (blen (ai_payload action)) +:+
        " bytes, contract allows " +:+ to_string (ac_max_payload_bytes contract))) findings in
  let findings := push_if
    (bool_decide (ac_payload_encoding contract = EncodingUtf8) &&
     bool_decide (utf8_chars (Byte.to_N <$> ai_payload action) = None))
    (violation "payload-utf8" "payload is not UTF-8") findings in
  findings_report findings.

#[export] Instance ActionContractVerifier_named : NamedVerifier ActionContractVerifier ActionIr := {|
  named_verifier := ActionContractVerifier_verify;
  verifier_name := λ _, "action-contract"
|}.
