(* ===== verification/VerifierClaims.v ===== *)
(** * Verifiers of claims: crates/ptr-verifier/src/bound.rs, revision.rs,
    promotion.rs and fact.rs

    Snapshot-bound verdicts and their fabric, the revision and generation check,
    the evidence rules for promoting a claim, and the check of facts against one
    snapshot of the semantic store. *)

From S2P Require Import Prelude Bytes Text Types ExpertOps SemDelta SemHost Verifier.
From Stdlib Require Import QArith_base Strings.Ascii.
From stdpp Require Import options.

Local Close Scope Q_scope.

(** ** bound.rs *)

Record SnapshotBinding := { sb_revision : Revision; sb_generation : Generation }.

#[export] Instance SnapshotBinding_eq_dec : EqDecision SnapshotBinding.
Proof. solve_decision. Defined.

Record BoundVerificationReport := { bvr_report : VerificationReport; bvr_snapshot : SnapshotBinding }.

Class BoundVerifier (V T : Type) := verify_at_snapshot : V → T → option BoundVerificationReport.
Class NamedBoundVerifier (V T : Type) := {
  named_bound_verifier :: BoundVerifier V T;
  bound_name : V → string
}.

Record BoxedBoundVerifier (T : Type) := {
  bbv_name : string;
  bbv_verify : T → option BoundVerificationReport
}.
Arguments bbv_name {T} _.
Arguments bbv_verify {T} _ _.
Definition bound_boxed {V T} `{NamedBoundVerifier V T} (v : V) : BoxedBoundVerifier T :=
  {| bbv_name := bound_name v; bbv_verify := verify_at_snapshot v |}.

Record AtSnapshot (V : Type) := { as_verifier : V; as_snapshot : SnapshotBinding }.
Arguments as_verifier {V} _.
Arguments as_snapshot {V} _.

Definition AtSnapshot_verify_at_snapshot {V T} `{Verifier V T} (a : AtSnapshot V) (candidate : T) :
    option BoundVerificationReport :=
  report ← verify (as_verifier a) candidate;
  Some {| bvr_report := report; bvr_snapshot := as_snapshot a |}.

#[export] Instance AtSnapshot_named {V T} `{NamedVerifier V T} : NamedBoundVerifier (AtSnapshot V) T := {|
  named_bound_verifier := AtSnapshot_verify_at_snapshot;
  bound_name := λ a, verifier_name (as_verifier a)
|}.

Record BoundVerifierFabric (T : Type) := {
  bf_snapshot : SnapshotBinding;
  bf_verifiers : list (BoxedBoundVerifier T)
}.
Arguments bf_snapshot {T} _.
Arguments bf_verifiers {T} _.

Definition BoundVerifierFabric_new {T} (snapshot : SnapshotBinding) : BoundVerifierFabric T :=
  {| bf_snapshot := snapshot; bf_verifiers := [] |}.
Definition BoundVerifierFabric_push {V T} `{NamedBoundVerifier V T} (f : BoundVerifierFabric T) (v : V) :
    BoundVerifierFabric T :=
  {| bf_snapshot := bf_snapshot f; bf_verifiers := bf_verifiers f ++ [bound_boxed v] |}.

Definition mismatch_finding (name : string) (judged required : SnapshotBinding) : Finding :=
  finding "snapshot.mismatch"
    ("verifier '" +:+ name +:+ "' judged revision " +:+ to_string (sb_revision judged) +:+
     " generation " +:+ to_string (sb_generation judged) +:+ ", the fabric requires revision " +:+
     to_string (sb_revision required) +:+ " generation " +:+ to_string (sb_generation required)).

(** The loop over the verifiers: the reports and the mismatches. *)
Fixpoint bound_reports {T} (required : SnapshotBinding) (verifiers : list (BoxedBoundVerifier T)) (candidate : T)
    (reports : list VerificationReport) (mismatches : list Finding) :
    option (list VerificationReport * list Finding) :=
  match verifiers with
  | [] => Some (reports, mismatches)
  | verifier :: verifiers =>
      bound ← bbv_verify verifier candidate;
      let mismatches :=
        if bool_decide (bvr_snapshot bound ≠ required)
        then mismatches ++ [mismatch_finding (bbv_name verifier) (bvr_snapshot bound) required]
        else mismatches in
      bound_reports required verifiers candidate (reports ++ [bvr_report bound]) mismatches
  end.

(** [Finished]: an already computed report. *)
Record Finished := { finished : VerificationReport }.
#[export] Instance Finished_named : NamedVerifier Finished unit := {|
  named_verifier := λ v _, Some (finished v);
  verifier_name := λ _, "finished"
|}.

Definition BoundVerifierFabric_verify {T} (f : BoundVerifierFabric T) (candidate : T) :
    option BoundVerificationReport :=
  '(reports, mismatches) ← bound_reports (bf_snapshot f) (bf_verifiers f) candidate [] [];
  reports ←
    (match mismatches with
     | [] => Some reports
     | _ =>
         score ← Probability_new 0%Q;
         Some (reports ++ [{| vr_status := StatusFail; vr_level := Deterministic; vr_score := score;
                              vr_findings := mismatches |}])
     end);
  let combined :=
    foldl (λ fabric report, VerifierFabric_push fabric {| finished := report |}) VerifierFabric_default reports in
  report ← VerifierFabric_verify combined tt;
  Some {| bvr_report := report; bvr_snapshot := bf_snapshot f |}.

(** ** revision.rs *)

Record RevisionClaim := { rc_revision : option Revision; rc_generation : option Generation }.

Definition RevisionClaim_bound (revision : Revision) (generation : Generation) : RevisionClaim :=
  {| rc_revision := Some revision; rc_generation := Some generation |}.
Definition RevisionClaim_from (action : ActionIr) : RevisionClaim :=
  RevisionClaim_bound (ai_revision action) (ai_generation action).

Record RevisionVerifier := { rv_current : SnapshotBinding }.

Definition revision_findings (claimed : option Revision) (current : Revision) : list Finding :=
  match claimed with
  | None => [finding "binding.missing" ("no revision bound, expected revision " +:+ to_string current)]
  | Some actual =>
      if (actual <? current)%N then
        [finding "revision.stale"
           ("claimed revision " +:+ to_string actual +:+ ", expected " +:+ to_string current +:+
            ": the claim predates the current snapshot")]
      else if (current <? actual)%N then
        [finding "revision.future"
           ("claimed revision " +:+ to_string actual +:+ ", expected " +:+ to_string current +:+
            ": the claim is newer than the current snapshot")]
      else []
  end.

Definition generation_findings (claimed : option Generation) (current : Generation) : list Finding :=
  match claimed with
  | None => [finding "binding.missing" ("no generation bound, expected generation " +:+ to_string current)]
  | Some actual =>
      if (actual <? current)%N then
        [finding "generation.stale"
           ("claimed generation " +:+ to_string actual +:+ ", expected " +:+ to_string current +:+
            ": the generation is superseded")]
      else if (current <? actual)%N then
        [finding "generation.future"
           ("claimed generation " +:+ to_string actual +:+ ", expected " +:+ to_string current +:+
            ": the generation is newer than the current one")]
      else []
  end.

Definition RevisionVerifier_judge (v : RevisionVerifier) (claim : RevisionClaim) : option VerificationReport :=
  findings_report
    (revision_findings (rc_revision claim) (sb_revision (rv_current v)) ++
     generation_findings (rc_generation claim) (sb_generation (rv_current v))).

Definition RevisionVerifier_verify_at_snapshot (v : RevisionVerifier) (claim : RevisionClaim) :
    option BoundVerificationReport :=
  report ← RevisionVerifier_judge v claim;
  Some {| bvr_report := report; bvr_snapshot := rv_current v |}.

#[export] Instance RevisionVerifier_claim : NamedVerifier RevisionVerifier RevisionClaim := {|
  named_verifier := RevisionVerifier_judge;
  verifier_name := λ _, "revision"
|}.
#[export] Instance RevisionVerifier_action : NamedVerifier RevisionVerifier ActionIr := {|
  named_verifier := λ v action, RevisionVerifier_judge v (RevisionClaim_from action);
  verifier_name := λ _, "revision"
|}.
#[export] Instance RevisionVerifier_bound_claim : NamedBoundVerifier RevisionVerifier RevisionClaim := {|
  named_bound_verifier := RevisionVerifier_verify_at_snapshot;
  bound_name := λ _, "revision"
|}.
#[export] Instance RevisionVerifier_bound_action : NamedBoundVerifier RevisionVerifier ActionIr := {|
  named_bound_verifier := λ v action, RevisionVerifier_verify_at_snapshot v (RevisionClaim_from action);
  bound_name := λ _, "revision"
|}.

(** ** promotion.rs *)

Definition MAX_EVIDENCE_LIMIT : N := 256.
Definition MAX_FIELD_BYTES : N := 256.
Definition MAX_NAMED_CONTRADICTIONS : nat := 8.
Definition MAX_NAMED_EVIDENCE : nat := 8.

Inductive EvidenceOrigin :=
  OriginLedger | OriginRaw | OriginDeterministic | OriginSearch | OriginIndex | OriginLearned.

#[export] Instance EvidenceOrigin_eq_dec : EqDecision EvidenceOrigin.
Proof. solve_decision. Defined.

Definition EvidenceOrigin_is_derived (o : EvidenceOrigin) : bool :=
  match o with
  | OriginLedger | OriginRaw | OriginDeterministic => false
  | OriginSearch | OriginIndex | OriginLearned => true
  end.

Record Evidence := {
  ev_id : string;
  ev_origin : EvidenceOrigin;
  ev_source : string;
  ev_commit : option CommitIndex
}.

Inductive PromotionTarget := TargetVerified | TargetAuthoritative.

#[export] Instance PromotionTarget_eq_dec : EqDecision PromotionTarget.
Proof. solve_decision. Defined.

Definition PromotionTarget_as_str (t : PromotionTarget) : string :=
  match t with
  | TargetVerified => "verified"
  | TargetAuthoritative => "authoritative"
  end.

Record PromotionClaim := {
  pc_claim : string;
  pc_target : PromotionTarget;
  pc_evidence : list Evidence;
  pc_deterministic_findings : list Finding
}.

Inductive PromotionPolicyError :=
  ZeroMinSources | ZeroMaxEvidence | MaxEvidenceAboveLimit | MinSourcesAboveMaxEvidence.

Record PromotionPolicy := { pp_min_independent_sources : N; pp_max_evidence : N }.

Definition PromotionPolicy_default : PromotionPolicy :=
  {| pp_min_independent_sources := 1; pp_max_evidence := 64 |}.

Definition PromotionPolicy_validated (p : PromotionPolicy) : result PromotionPolicyError PromotionPolicy :=
  if (pp_min_independent_sources p =? 0)%N then Err ZeroMinSources
  else if (pp_max_evidence p =? 0)%N then Err ZeroMaxEvidence
  else if (MAX_EVIDENCE_LIMIT <? pp_max_evidence p)%N then Err MaxEvidenceAboveLimit
  else if (pp_max_evidence p <? pp_min_independent_sources p)%N then Err MinSourcesAboveMaxEvidence
  else Ok p.

Definition PromotionPolicy_new (min_independent_sources : N) : result PromotionPolicyError PromotionPolicy :=
  if (min_independent_sources =? 0)%N then Err ZeroMinSources
  else
    PromotionPolicy_validated
      {| pp_min_independent_sources := min_independent_sources;
         pp_max_evidence := N.max (pp_max_evidence PromotionPolicy_default) min_independent_sources |}.

Definition PromotionPolicy_with_max_evidence (p : PromotionPolicy) (max_evidence : N) :
    result PromotionPolicyError PromotionPolicy :=
  PromotionPolicy_validated
    {| pp_min_independent_sources := pp_min_independent_sources p; pp_max_evidence := max_evidence |}.

Record PromotionVerifier := { pv_policy : PromotionPolicy }.

Definition promotion_well_formed (field : string) : bool :=
  negb (is_blank field) && (slen field <=? MAX_FIELD_BYTES)%N && negb (has_control field).

(** [str::is_char_boundary]: the byte there, if any, is not a continuation
    byte. *)
Definition char_boundary (text : string) (k : nat) : bool :=
  match str_bytes text !! k with
  | Some b => negb (cont (Byte.to_N b))
  | None => bool_decide (k = String.length text)
  end.

(** The [while !is_char_boundary(end) { end -= 1 }] loop. *)
Fixpoint boundary_down (text : string) (k : nat) : nat :=
  if char_boundary text k then k
  else match k with O => O | S k => boundary_down text k end.

Definition prefix_of (text : string) (max : N) : string :=
  let k := boundary_down text (N.to_nat (N.min (slen text) max)) in
  bytes_str (take k (str_bytes text)).

(** [[..].join(", ")]. *)
Definition join_names (names : list string) : string :=
  match names with
  | [] => ""
  | n :: names => foldl (λ acc m, acc +:+ ", " +:+ m) n names
  end.

Definition malformed_findings (claim : PromotionClaim) : list Finding :=
  (if promotion_well_formed (pc_claim claim) then []
   else [finding "promotion.malformed"
           ("claim text must be 1 to " +:+ to_string MAX_FIELD_BYTES +:+ " bytes without control characters")]) ++
  mjoin (imap (λ index item,
    if promotion_well_formed (ev_id item) && promotion_well_formed (ev_source item) then []
    else [finding "promotion.malformed"
            ("evidence " +:+ to_string (N.of_nat index) +:+ ": id and source must be 1 to " +:+
             to_string MAX_FIELD_BYTES +:+ " bytes without control characters")]) (pc_evidence claim)).

Definition contradiction_findings (claim : PromotionClaim) : list Finding :=
  let hard := filter (λ f, f_hard f = true) (pc_deterministic_findings claim) in
  if (0 <? blen hard)%N then
    [finding "promotion.contradicted"
       (to_string (blen hard) +:+ " deterministic finding(s) contradict promotion to " +:+
        PromotionTarget_as_str (pc_target claim) +:+ ": " +:+
        join_names ((λ f, prefix_of (f_code f) MAX_FIELD_BYTES) <$> take MAX_NAMED_CONTRADICTIONS hard))]
  else [].

(** The rules on the counted evidence: behind the early returns. *)
Definition counting_findings (policy : PromotionPolicy) (claim : PromotionClaim) (primary : list Evidence) :
    list Finding :=
  let uncommitted := ev_id <$> filter (λ item, ev_commit item = None) primary in
  let counted := filter (λ item, is_Some (ev_commit item)) primary in
  let sources : gset string := list_to_set (ev_source <$> counted) in
  (match uncommitted with
   | [] => []
   | _ =>
       [finding "promotion.uncommitted"
          (to_string (blen uncommitted) +:+ " piece(s) of evidence are not committed and do not count: " +:+
           join_names (take MAX_NAMED_EVIDENCE uncommitted))]
   end) ++
  (if (N.of_nat (size sources) <? pp_min_independent_sources policy)%N then
     [finding "promotion.insufficient_sources"
        (to_string (N.of_nat (size sources)) +:+
         " independent source(s) among committed evidence, the policy needs " +:+
         to_string (pp_min_independent_sources policy))]
   else []) ++
  (if bool_decide (pc_target claim = TargetAuthoritative) &&
      negb (existsb (λ item, bool_decide (ev_origin item = OriginLedger)) counted) then
     [finding "promotion.no_ledger_evidence"
        "promotion to authoritative needs committed evidence from the ledger"]
   else []).

Definition PromotionVerifier_verify (v : PromotionVerifier) (claim : PromotionClaim) :
    option VerificationReport :=
  let policy := pv_policy v in
  let target := PromotionTarget_as_str (pc_target claim) in
  if (pp_max_evidence policy <? blen (pc_evidence claim))%N then
    findings_report [finding "promotion.oversize"
      (to_string (blen (pc_evidence claim)) +:+ " pieces of evidence cited, the policy accepts at most " +:+
       to_string (pp_max_evidence policy))]
  else
    match malformed_findings claim with
    | (_ :: _) as malformed => findings_report malformed
    | [] =>
        let findings := contradiction_findings claim in
        match pc_evidence claim with
        | [] => findings_report (findings ++
                  [finding "promotion.no_evidence" ("promotion to " +:+ target +:+ " cites no evidence")])
        | _ =>
            let primary := filter (λ item, EvidenceOrigin_is_derived (ev_origin item) = false) (pc_evidence claim) in
            match primary with
            | [] => findings_report (findings ++
                      [finding "promotion.derived_only"
                         ("all " +:+ to_string (blen (pc_evidence claim)) +:+
                          " piece(s) of evidence are derived (search, index or learned); derived data cannot promote a claim to "
                          +:+ target)])
            | _ => findings_report (findings ++ counting_findings policy claim primary)
            end
        end
    end.

#[export] Instance PromotionVerifier_named : NamedVerifier PromotionVerifier PromotionClaim := {|
  named_verifier := PromotionVerifier_verify;
  verifier_name := λ _, "promotion"
|}.

(** ** fact.rs *)

Definition MAX_CLAIMS : N := 64.
Definition FACT_FIELD_BYTES : N := 256.

Record FactClaim := { fc_subject : string; fc_attribute : string; fc_value : string }.

Definition fact_key (subject attribute : string) : string :=
  "fact/" +:+ subject +:+ "/" +:+ attribute.

Record FactVerifier := {
  fv_snapshot : SemanticSnapshot;
  fv_live : option Revision;
  fv_generation : Generation
}.

Definition FactVerifier_new (snapshot : SemanticSnapshot) (live : Revision) : FactVerifier :=
  {| fv_snapshot := snapshot; fv_live := Some live; fv_generation := 0 |}.
Definition FactVerifier_without_staleness_check (snapshot : SemanticSnapshot) : FactVerifier :=
  {| fv_snapshot := snapshot; fv_live := None; fv_generation := 0 |}.
Definition FactVerifier_with_generation (v : FactVerifier) (generation : Generation) : FactVerifier :=
  {| fv_snapshot := fv_snapshot v; fv_live := fv_live v; fv_generation := generation |}.

Definition fact_well_formed (field : string) : bool :=
  negb (bool_decide (field = "")) && negb (has_char "/"%char field) && negb (has_control field).

Definition claim_oversize (c : FactClaim) : bool :=
  (FACT_FIELD_BYTES <? slen (fc_subject c))%N || (FACT_FIELD_BYTES <? slen (fc_attribute c))%N ||
  (FACT_FIELD_BYTES <? slen (fc_value c))%N.

Definition fact_malformed_findings (claims : list FactClaim) : list Finding :=
  mjoin (imap (λ index c,
    if fact_well_formed (fc_subject c) && fact_well_formed (fc_attribute c) then []
    else [finding "fact.malformed"
            ("claim " +:+ to_string (N.of_nat index) +:+
             ": subject and attribute must be non-empty, without '/' or control characters")]) claims).

(** One step of the loop over the claims: whether the claim is contradicted, and
    its finding. *)
Definition judge_claim (s : SemanticSnapshot) (index : nat) (c : FactClaim) : bool * list Finding :=
  let where_ := "claim " +:+ to_string (N.of_nat index) +:+ " (" +:+ fc_subject c +:+ " " +:+ fc_attribute c +:+
                "): snapshot revision " +:+ to_string (snap_revision s) in
  match snapshot_value s (fact_key (fc_subject c) (fc_attribute c)) with
  | Some (Text held) =>
      if bool_decide (held = fc_value c) then (false, [])
      else (true, [finding "fact.contradicted" (where_ +:+ " holds another value")])
  | Some (Payload _) | None => (false, [finding "fact.unknown" (where_ +:+ " holds no text value")])
  end.

(** The claims judged one by one: behind the early returns. *)
Definition judge_claims (s : SemanticSnapshot) (claims : list FactClaim) : option VerificationReport :=
  match claims with
  | [] =>
      status_report StatusUnknown [finding "fact.unknown"
        ("no claims to check against snapshot revision " +:+ to_string (snap_revision s))]
  | _ =>
      let judged := imap (judge_claim s) claims in
      let contradicted := existsb fst judged in
      let findings := judged ≫= snd in
      status_report
        (if contradicted then StatusFail
         else match findings with [] => StatusPass | _ => StatusUnknown end) findings
  end.

Definition FactVerifier_verify (v : FactVerifier) (claims : list FactClaim) : option VerificationReport :=
  let revision := snap_revision (fv_snapshot v) in
  if (MAX_CLAIMS <? blen claims)%N || existsb claim_oversize claims then
    status_report StatusFail [finding "fact.oversize"
      ("at most " +:+ to_string MAX_CLAIMS +:+ " claims of at most " +:+ to_string FACT_FIELD_BYTES +:+
       " bytes per field")]
  else
    match fact_malformed_findings claims with
    | (_ :: _) as findings => status_report StatusFail findings
    | [] =>
        match fv_live v with
        | Some live =>
            if bool_decide (live ≠ revision) then
              status_report StatusUnknown [finding "fact.stale_snapshot"
                ("snapshot revision " +:+ to_string revision +:+ " is not the live revision " +:+ to_string live)]
            else judge_claims (fv_snapshot v) claims
        | None => judge_claims (fv_snapshot v) claims
        end
    end.

(** A report with the revision it was judged against. *)
Record BoundReport := { br_snapshot_revision : Revision; br_report : VerificationReport }.
Definition FactVerifier_verify_bound (v : FactVerifier) (claims : list FactClaim) : option BoundReport :=
  report ← FactVerifier_verify v claims;
  Some {| br_snapshot_revision := snap_revision (fv_snapshot v); br_report := report |}.

Definition FactVerifier_verify_at_snapshot (v : FactVerifier) (claims : list FactClaim) :
    option BoundVerificationReport :=
  report ← FactVerifier_verify v claims;
  Some {| bvr_report := report;
          bvr_snapshot := {| sb_revision := snap_revision (fv_snapshot v); sb_generation := fv_generation v |} |}.

#[export] Instance FactVerifier_named : NamedVerifier FactVerifier (list FactClaim) := {|
  named_verifier := FactVerifier_verify;
  verifier_name := λ _, "fact"
|}.
#[export] Instance FactVerifier_bound_named : NamedBoundVerifier FactVerifier (list FactClaim) := {|
  named_bound_verifier := FactVerifier_verify_at_snapshot;
  bound_name := λ _, "fact"
|}.
