(* ===== verification/VerifierFacts.v ===== *)
(** * What the verifiers promise

    The code table is consistent; a fabric is as strong as its weakest member; a
    bound fabric passes only verdicts about its own snapshot; each claim verifier
    passes exactly the claims its rules admit. *)

From S2P Require Import Prelude Bytes Text Types ExpertOps SemDelta SemHost Verifier VerifierClaims.
From Stdlib Require Import QArith_base Strings.Ascii Lqa.
From stdpp Require Import options.

Local Close Scope Q_scope.

(** ** The table *)

Lemma code_spec_hard code spec : code_spec code = Some spec → spec ∈ CODE_TABLE ∧ cs_code spec = code.
Proof.
  unfold code_spec. intros H. destruct (list_find _ _) as [[i x]|] eqn:E; [|done].
  injection H as <-. apply list_find_Some in E as (E & Hc & _).
  split; [by eapply list_elem_of_lookup_2|done].
Qed.

(** ** Reports *)

Definition score_ok (r : VerificationReport) : Prop := (0 <= vr_score r <= 1)%Q.

(** A report that some member's findings forbid to pass. *)
Definition clean (r : VerificationReport) : Prop := Forall (λ f, f_hard f = false) (vr_findings r).

Lemma Probability_new_ok v : (0 <= v <= 1)%Q → Probability_new v = Some v.
Proof. intros [H1%Qle_bool_iff H2%Qle_bool_iff]. unfold Probability_new. by rewrite H1, H2. Qed.

Lemma status_report_ok status findings :
  ∃ score, (0 <= score <= 1)%Q ∧ status_report status findings =
    Some {| vr_status := status; vr_level := Deterministic; vr_score := score; vr_findings := findings |}.
Proof. unfold status_report. case_bool_decide; (eexists; split; [|reflexivity]); split; lra. Qed.

Lemma findings_report_ok findings :
  ∃ score, (0 <= score <= 1)%Q ∧ findings_report findings =
    Some {| vr_status := match findings with [] => StatusPass | _ => StatusFail end;
            vr_level := Deterministic; vr_score := score; vr_findings := findings |}.
Proof. unfold findings_report. destruct findings; (eexists; split; [|reflexivity]); split; lra. Qed.

(** ** Choosing by key *)

Lemma foldl_max {A} (key : A → N) l : ∀ x,
  let m := foldl (λ best y, if (key best <=? key y)%N then y else best) x l in
  m ∈ x :: l ∧ ∀ y, y ∈ x :: l → (key y <= key m)%N.
Proof.
  induction l as [|y l IH]; intros x; cbn [foldl].
  - split; [by left|]. intros y Hy. apply list_elem_of_singleton in Hy as ->. lia.
  - destruct (IH (if (key x <=? key y)%N then y else x)) as [Hin Hmax].
    set (m := foldl _ _ l) in *. split.
    + apply elem_of_cons in Hin as [-> |Hin]; [destruct (_ <=? _)%N; set_solver|set_solver].
    + pose proof (Hmax _ (list_elem_of_here _ _)) as Hx.
      intros z Hz. apply elem_of_cons in Hz as [-> |Hz]; [|apply elem_of_cons in Hz as [-> |Hz]].
      * destruct (N.leb_spec (key x) (key y)); lia.
      * destruct (N.leb_spec (key x) (key y)); lia.
      * apply Hmax. by right.
Qed.

Lemma foldl_min {A} (key : A → N) l : ∀ x,
  let m := foldl (λ best y, if (key y <? key best)%N then y else best) x l in
  m ∈ x :: l ∧ ∀ y, y ∈ x :: l → (key m <= key y)%N.
Proof.
  induction l as [|y l IH]; intros x; cbn [foldl].
  - split; [by left|]. intros y Hy. apply list_elem_of_singleton in Hy as ->. lia.
  - destruct (IH (if (key y <? key x)%N then y else x)) as [Hin Hmin].
    set (m := foldl _ _ l) in *. split.
    + apply elem_of_cons in Hin as [-> |Hin]; [destruct (_ <? _)%N; set_solver|set_solver].
    + pose proof (Hmin _ (list_elem_of_here _ _)) as Hx.
      intros z Hz. apply elem_of_cons in Hz as [-> |Hz]; [|apply elem_of_cons in Hz as [-> |Hz]].
      * destruct (N.ltb_spec (key y) (key x)); lia.
      * destruct (N.ltb_spec (key y) (key x)); lia.
      * apply Hmin. by right.
Qed.

Lemma max_by_key_spec {A} (key : A → N) l : l ≠ [] →
  ∃ m, max_by_key key l = Some m ∧ m ∈ l ∧ ∀ y, y ∈ l → (key y <= key m)%N.
Proof. destruct l as [|x l]; [done|]. intros _. eexists. split; [done|]. apply foldl_max. Qed.

Lemma min_by_key_spec {A} (key : A → N) l : l ≠ [] →
  ∃ m, min_by_key key l = Some m ∧ m ∈ l ∧ ∀ y, y ∈ l → (key m <= key y)%N.
Proof. destruct l as [|x l]; [done|]. intros _. eexists. split; [done|]. apply foldl_min. Qed.

Lemma foldl_f32_min l : ∀ a s, (s <= foldl f32_min a l)%Q ↔ (s <= a)%Q ∧ Forall (λ b, (s <= b)%Q) l.
Proof.
  induction l as [|b l IH]; intros a s; cbn [foldl].
  - split; [intros; split; [done|constructor]|by intros [? _]].
  - rewrite IH, Forall_cons. unfold f32_min. destruct (Qle_bool a b) eqn:E.
    + apply Qle_bool_iff in E. split; [intros [? ?]; split_and!; [done|lra|done]|naive_solver].
    + assert (b < a)%Q. { apply Qnot_le_lt. intros H%Qle_bool_iff. congruence. }
      split; [intros [? ?]; split_and!; [lra|done|done]|naive_solver].
Qed.

(** ** The fabric *)

(** The combined report of a non-empty list of reports. *)
Definition combines (reports : list VerificationReport) (r : VerificationReport) : Prop :=
  (vr_status r = StatusPass ↔ Forall (λ x, vr_status x = StatusPass ∧ clean x) reports) ∧
  (vr_status r = StatusFail ↔ Exists (λ x, vr_status x = StatusFail ∨ ¬ clean x) reports) ∧
  (∀ l, (level_rank l <= level_rank (vr_level r))%N ↔
        Forall (λ x, (level_rank l <= level_rank (vr_level x))%N) reports) ∧
  (∀ s, (s <= vr_score r)%Q ↔ (s <= 1)%Q ∧ Forall (λ x, (s <= vr_score x)%Q) reports) ∧
  vr_findings r = reports ≫= vr_findings ∧ score_ok r.

Lemma not_clean x : ¬ clean x ↔ existsb f_hard (vr_findings x) = true.
Proof.
  unfold clean. rewrite existsb_exists. split.
  - intros H. apply not_Forall_Exists in H; [|apply _]. apply Exists_exists in H as (f & Hf & Hh).
    exists f. split; [by apply list_elem_of_In|]. cbn in Hh. by destruct (f_hard f).
  - intros (f & Hf%list_elem_of_In & Hh) H. rewrite Forall_forall in H. specialize (H _ Hf). congruence.
Qed.

Lemma status_combines reports : reports ≠ [] → ∃ status,
  (if existsb (λ report, existsb f_hard (vr_findings report)) reports then Some StatusFail
   else max_by_key status_rank (vr_status <$> reports)) = Some status ∧
  (status = StatusPass ↔ Forall (λ x, vr_status x = StatusPass ∧ clean x) reports) ∧
  (status = StatusFail ↔ Exists (λ x, vr_status x = StatusFail ∨ ¬ clean x) reports).
Proof.
  intros Hne. destruct (existsb _ _) eqn:Eh.
  - exists StatusFail. apply existsb_exists in Eh as (x & Hx%list_elem_of_In & Hh%not_clean).
    split_and!; [done| |].
    + split; [done|]. rewrite Forall_forall. intros H. by destruct (H x Hx).
    + split; [|done]. intros _. apply Exists_exists. eauto.
  - assert (Hc : ∀ x, x ∈ reports → clean x).
    { intros x Hx. apply dec_stable. intros Hn%not_clean. apply not_true_iff_false in Eh. apply Eh.
      apply existsb_exists. exists x. by rewrite <- list_elem_of_In. }
    destruct (max_by_key_spec status_rank (vr_status <$> reports)) as (m & -> & Hin & Hmax); [by destruct reports|].
    apply list_elem_of_fmap in Hin as (y & -> & Hy). exists (vr_status y).
    assert (Hr : ∀ x, x ∈ reports → (status_rank (vr_status x) <= status_rank (vr_status y))%N).
    { intros x Hx. apply Hmax. apply list_elem_of_fmap. eauto. }
    split_and!; [done| |].
    + rewrite Forall_forall. split; [|intros H; by apply H]. intros E x Hx. split; [|by apply Hc].
      specialize (Hr x Hx). rewrite E in Hr. destruct (vr_status x); cbn in Hr; (done || lia).
    + rewrite Exists_exists. split; [intros E; exists y; auto|]. intros (x & Hx & [E|E]); [|by destruct E; apply Hc].
      specialize (Hr x Hx). rewrite E in Hr. destruct (vr_status y); cbn in Hr; (done || lia).
Qed.

Lemma fabric_combines {T} (f : VerifierFabric T) candidate reports :
  mapM (λ v, bv_verify v candidate) (vf_verifiers f) = Some reports →
  vf_verifiers f ≠ [] → Forall score_ok reports →
  ∃ r, VerifierFabric_verify f candidate = Some r ∧ combines reports r.
Proof.
  intros Hm Hne Hs. assert (Hlen : length reports = length (vf_verifiers f)).
  { symmetry. by eapply length_mapM. }
  assert (Hr : reports ≠ []) by (destruct reports, (vf_verifiers f); done).
  unfold VerifierFabric_verify, VerifierFabric_is_empty.
  destruct (vf_verifiers f) as [|v vs]; [done|]. rewrite Hm. cbn [mbind option_bind].
  destruct (status_combines reports Hr) as (status & -> & Hp & Hf). cbn [mbind option_bind].
  destruct (min_by_key_spec level_rank (vr_level <$> reports)) as (l & -> & Hin & Hmin); [by destruct reports|].
  cbn [mbind option_bind]. set (score := foldl f32_min 1%Q (vr_score <$> reports)).
  assert (Hsc : ∀ s, (s <= score)%Q ↔ (s <= 1)%Q ∧ Forall (λ x, (s <= vr_score x)%Q) reports).
  { intros s. unfold score. by rewrite foldl_f32_min, Forall_fmap. }
  assert (Hok : (0 <= score <= 1)%Q).
  { split; [|by apply (Hsc score); lra]. apply Hsc. split; [lra|]. eapply Forall_impl; [done|].
    intros x [? _]. done. }
  rewrite Probability_new_ok by done. cbn [mbind option_bind].
  eexists. split; [reflexivity|]. unfold combines. cbn [vr_status vr_level vr_score vr_findings].
  split; [exact Hp|]. split; [exact Hf|]. split; [|split; [exact Hsc|split; [done|exact Hok]]].
  intros l'. rewrite Forall_forall. split.
  - intros H x Hx. etrans; [exact H|]. apply Hmin, list_elem_of_fmap. eauto.
  - intros H. apply list_elem_of_fmap in Hin as (x & -> & Hx). by apply H.
Qed.

(** ** The bound fabric *)

Lemma bound_reports_ok {T} required (verifiers : list (BoxedBoundVerifier T)) candidate bounds :
  mapM (λ v, bbv_verify v candidate) verifiers = Some bounds → ∀ reports mismatches, ∃ mm,
  bound_reports required verifiers candidate reports mismatches =
    Some (reports ++ (bvr_report <$> bounds), mismatches ++ mm) ∧
  Forall (λ f, f_hard f = true) mm ∧
  (mm = [] ↔ Forall (λ b, bvr_snapshot b = required) bounds).
Proof.
  intros H%mapM_Some. induction H as [|v b verifiers bounds Hv _ IH]; intros reports mismatches.
  - exists []. cbn. rewrite !app_nil_r. split_and!; [done|constructor|]. split; [constructor|done].
  - cbn [bound_reports]. rewrite Hv. cbn [mbind option_bind].
    destruct (IH (reports ++ [bvr_report b])
      (if bool_decide (bvr_snapshot b ≠ required)
       then mismatches ++ [mismatch_finding (bbv_name v) (bvr_snapshot b) required] else mismatches))
      as (mm & -> & Hh & Hmm).
    cbn [fmap list_fmap]. case_bool_decide as Hs.
    + exists (mismatch_finding (bbv_name v) (bvr_snapshot b) required :: mm).
      rewrite <- !app_assoc. split; [done|]. split; [by constructor|].
      rewrite Forall_cons. split; [done|naive_solver].
    + exists mm. rewrite <- app_assoc. split; [done|]. split; [done|]. rewrite Forall_cons, Hmm. destruct (decide (bvr_snapshot b = required)); naive_solver.
Qed.

Lemma finished_fabric reports : ∀ f : VerifierFabric unit, ∀ done,
  mapM (λ v, bv_verify v tt) (vf_verifiers f) = Some done →
  let f' := foldl (λ fabric report, VerifierFabric_push fabric {| finished := report |}) f reports in
  mapM (λ v, bv_verify v tt) (vf_verifiers f') = Some (done ++ reports).
Proof.
  induction reports as [|r reports IH]; intros f done H; cbn [foldl]; [by rewrite app_nil_r|].
  rewrite cons_middle, app_assoc. apply IH. cbn [vf_verifiers VerifierFabric_push].
  apply mapM_Some. apply Forall2_app; [by apply mapM_Some|]. repeat constructor.
Qed.

(** The verdict of a bound fabric: about its snapshot, and passed only by
    members that judged that snapshot. *)
Lemma bound_fabric_spec {T} (f : BoundVerifierFabric T) candidate bounds :
  mapM (λ v, bbv_verify v candidate) (bf_verifiers f) = Some bounds →
  bf_verifiers f ≠ [] → Forall (λ b, score_ok (bvr_report b)) bounds →
  ∃ b, BoundVerifierFabric_verify f candidate = Some b ∧ bvr_snapshot b = bf_snapshot f ∧
    (vr_status (bvr_report b) = StatusPass ↔
     Forall (λ x, bvr_snapshot x = bf_snapshot f ∧ vr_status (bvr_report x) = StatusPass ∧
                  clean (bvr_report x)) bounds) ∧
    (¬ Forall (λ x, bvr_snapshot x = bf_snapshot f) bounds → vr_status (bvr_report b) = StatusFail).
Proof.
  intros Hm Hne Hs. assert (Hb : bounds ≠ []).
  { apply length_mapM in Hm. destruct bounds, (bf_verifiers f); done. }
  unfold BoundVerifierFabric_verify.
  destruct (bound_reports_ok (bf_snapshot f) _ _ _ Hm [] []) as (mm & -> & Hh & Hmm).
  cbn [mbind option_bind app].
  set (extra := match mm with [] => [] | _ => [{| vr_status := StatusFail; vr_level := Deterministic;
    vr_score := 0%Q; vr_findings := mm |}] end).
  assert ((match mm with
     | [] => Some (bvr_report <$> bounds)
     | _ => score ← Probability_new 0%Q;
            Some ((bvr_report <$> bounds) ++ [{| vr_status := StatusFail; vr_level := Deterministic;
              vr_score := score; vr_findings := mm |}])
     end) = Some ((bvr_report <$> bounds) ++ extra)) as ->.
  { subst extra. destruct mm; [by rewrite app_nil_r|done]. }
  cbn [mbind option_bind]. set (reports := (bvr_report <$> bounds) ++ extra).
  pose proof (finished_fabric reports VerifierFabric_default [] eq_refl) as Hf. cbn [app] in Hf.
  set (fabric := foldl _ _ reports) in *.
  assert (Hsc : Forall score_ok reports).
  { subst reports extra. apply Forall_app. split; [by apply Forall_fmap|]. destruct mm; repeat constructor; cbn; lra. }
  destruct (fabric_combines fabric tt reports Hf) as (r & -> & Hp & Hfl & _); [|done|].
  { intros E. rewrite E in Hf. cbn in Hf. injection Hf as Hf. subst reports. by destruct bounds. }
  cbn [mbind option_bind]. eexists. split; [done|]. cbn [bvr_report bvr_snapshot]. split; [done|].
  rewrite Hp, Hfl. subst reports extra. split.
  - rewrite Forall_app, Forall_fmap. destruct mm as [|m mm].
    + destruct Hmm as [Hmm _]. specialize (Hmm eq_refl). rewrite !Forall_forall in *. split.
      * intros [H _] x Hx. split; [by apply Hmm|by apply H].
      * intros H. split; [intros x Hx; by apply H|set_solver].
    + split; [intros [_ H]; apply Forall_cons in H; naive_solver|].
      intros H. assert (m :: mm = []); [|done]. apply Hmm. eapply Forall_impl; [done|]. naive_solver.
  - intros Hn. apply Exists_app. right. destruct mm as [|m mm]; [by destruct Hn; apply Hmm|].
    apply Exists_cons. left. by left.
Qed.

(** ** Revisions *)

Lemma revision_findings_nil claimed current : revision_findings claimed current = [] ↔ claimed = Some current.
Proof.
  unfold revision_findings. destruct claimed as [a|]; [|done].
  destruct (N.ltb_spec a current); [split; [done|intros [=]; lia]|].
  destruct (N.ltb_spec current a); [split; [done|intros [=]; lia]|].
  split; [intros _; f_equal; lia|done].
Qed.

Lemma generation_findings_nil claimed current : generation_findings claimed current = [] ↔ claimed = Some current.
Proof.
  unfold generation_findings. destruct claimed as [a|]; [|done].
  destruct (N.ltb_spec a current); [split; [done|intros [=]; lia]|].
  destruct (N.ltb_spec current a); [split; [done|intros [=]; lia]|].
  split; [intros _; f_equal; lia|done].
Qed.

Lemma findings_pass findings :
  ∃ r, findings_report findings = Some r ∧ vr_findings r = findings ∧ vr_level r = Deterministic ∧ score_ok r ∧
    (vr_status r = StatusPass ↔ findings = []) ∧ (vr_status r = StatusFail ↔ findings ≠ []).
Proof.
  destruct (findings_report_ok findings) as (s & Hs & ->). eexists. split; [done|].
  destruct findings; cbn; split_and!; try done; apply Hs.
Qed.

(** [RevisionVerifier] passes exactly the claims bound to the current snapshot. *)
Lemma revision_judge_spec v claim :
  ∃ r, RevisionVerifier_judge v claim = Some r ∧ score_ok r ∧
    (vr_status r = StatusPass ↔
     claim = RevisionClaim_bound (sb_revision (rv_current v)) (sb_generation (rv_current v))) ∧
    (vr_status r = StatusFail ↔
     claim ≠ RevisionClaim_bound (sb_revision (rv_current v)) (sb_generation (rv_current v))).
Proof.
  unfold RevisionVerifier_judge.
  destruct (findings_pass (revision_findings (rc_revision claim) (sb_revision (rv_current v)) ++
     generation_findings (rc_generation claim) (sb_generation (rv_current v))))
    as (r & -> & _ & _ & Hs & Hp & Hf).
  assert (E : revision_findings (rc_revision claim) (sb_revision (rv_current v)) ++
     generation_findings (rc_generation claim) (sb_generation (rv_current v)) = [] ↔
     claim = RevisionClaim_bound (sb_revision (rv_current v)) (sb_generation (rv_current v))).
  { rewrite app_nil, revision_findings_nil, generation_findings_nil. destruct claim; cbn.
    unfold RevisionClaim_bound. naive_solver. }
  exists r. split_and!; [done|apply Hs..| |]; [by rewrite Hp|by rewrite Hf, E].
Qed.

(** ** Promotion *)

(** Committed evidence that is not derived: what counts. *)
Definition counts (item : Evidence) : Prop :=
  EvidenceOrigin_is_derived (ev_origin item) = false ∧ is_Some (ev_commit item).
#[export] Instance counts_dec item : Decision (counts item).
Proof. unfold counts. apply _. Defined.

Definition counted_sources (claim : PromotionClaim) : gset string :=
  list_to_set (ev_source <$> filter counts (pc_evidence claim)).

(** The documented rules for a promotion. *)
Record promotable (policy : PromotionPolicy) (claim : PromotionClaim) : Prop := {
  pr_size : (blen (pc_evidence claim) <= pp_max_evidence policy)%N;
  pr_claim : promotion_well_formed (pc_claim claim) = true;
  pr_fields : ∀ item, item ∈ pc_evidence claim →
    promotion_well_formed (ev_id item) = true ∧ promotion_well_formed (ev_source item) = true;
  pr_uncontradicted : ∀ f, f ∈ pc_deterministic_findings claim → f_hard f = false;
  pr_evidence : ∃ item, item ∈ pc_evidence claim ∧ EvidenceOrigin_is_derived (ev_origin item) = false;
  pr_committed : ∀ item, item ∈ pc_evidence claim →
    EvidenceOrigin_is_derived (ev_origin item) = false → is_Some (ev_commit item);
  pr_sources : (pp_min_independent_sources policy <= N.of_nat (size (counted_sources claim)))%N;
  pr_ledger : pc_target claim = TargetAuthoritative →
    ∃ item, item ∈ pc_evidence claim ∧ ev_origin item = OriginLedger ∧ is_Some (ev_commit item)
}.

Lemma mjoin_imap_nil {A B} (g : A → bool) (h : nat → A → B) l :
  mjoin (imap (λ i x, if g x then [] else [h i x]) l) = [] ↔ ∀ x, x ∈ l → g x = true.
Proof.
  revert h. induction l as [|y l IH]; intros h; cbn [imap mjoin list_join]; [by set_solver|].
  rewrite app_nil. specialize (IH (λ i, h (S i))). unfold compose in *. rewrite IH.
  rewrite <- !Forall_forall, Forall_cons. by destruct (g y); split; intros [? ?].
Qed.

Lemma malformed_nil claim : malformed_findings claim = [] ↔
  promotion_well_formed (pc_claim claim) = true ∧
  ∀ item, item ∈ pc_evidence claim →
    promotion_well_formed (ev_id item) = true ∧ promotion_well_formed (ev_source item) = true.
Proof.
  unfold malformed_findings. rewrite app_nil, mjoin_imap_nil.
  assert (Hf : (∀ x, x ∈ pc_evidence claim →
      promotion_well_formed (ev_id x) && promotion_well_formed (ev_source x) = true) ↔
    ∀ item, item ∈ pc_evidence claim →
      promotion_well_formed (ev_id item) = true ∧ promotion_well_formed (ev_source item) = true)
    by (split; intros H x Hx; apply andb_true_iff, H, Hx).
  rewrite Hf. by destruct (promotion_well_formed (pc_claim claim)); split; intros [? ?].
Qed.

Lemma contradiction_nil claim : contradiction_findings claim = [] ↔
  ∀ f, f ∈ pc_deterministic_findings claim → f_hard f = false.
Proof.
  unfold contradiction_findings. set (hard := filter _ _). destruct hard as [|f hard'] eqn:E; subst hard.
  - split; [|done]. intros _ f Hf. destruct (f_hard f) eqn:Eh; [|done].
    assert (f ∈ filter (λ f, f_hard f = true) (pc_deterministic_findings claim)) as H
      by (by apply list_elem_of_filter). rewrite E in H. set_solver.
  - rewrite (proj2 (N.ltb_lt _ _)) by (unfold blen; cbn [length]; lia). split; [done|]. intros H.
    assert (f ∈ filter (λ f, f_hard f = true) (pc_deterministic_findings claim)) as [Hh Hin]%list_elem_of_filter
      by (rewrite E; set_solver). specialize (H _ Hin). congruence.
Qed.

Lemma fmap_filter_nil {A B} (f : A → B) (P : A → Prop) `{∀ x, Decision (P x)} (l : list A) :
  f <$> filter P l = [] ↔ ∀ x, x ∈ l → ¬ P x.
Proof.
  split.
  - intros E%fmap_nil_inv x Hx HP. exact (filter_nil_not_elem_of P l x E HP Hx).
  - intros Hn. destruct (filter P l) as [|x k] eqn:E; [done|].
    assert (x ∈ filter P l) as [? ?]%list_elem_of_filter by (rewrite E; by left). naive_solver.
Qed.

Lemma filter_counts (l : list Evidence) :
  filter (λ item, is_Some (ev_commit item)) (filter (λ item, EvidenceOrigin_is_derived (ev_origin item) = false) l) =
  filter counts l.
Proof.
  rewrite list_filter_filter. apply list_filter_iff. intros x. unfold counts. naive_solver.
Qed.

Lemma counting_nil policy claim :
  counting_findings policy claim
    (filter (λ item, EvidenceOrigin_is_derived (ev_origin item) = false) (pc_evidence claim)) = [] ↔
  (∀ item, item ∈ pc_evidence claim →
    EvidenceOrigin_is_derived (ev_origin item) = false → is_Some (ev_commit item)) ∧
  (pp_min_independent_sources policy <= N.of_nat (size (counted_sources claim)))%N ∧
  (pc_target claim = TargetAuthoritative →
    ∃ item, item ∈ pc_evidence claim ∧ ev_origin item = OriginLedger ∧ is_Some (ev_commit item)).
Proof.
  unfold counting_findings. rewrite filter_counts. fold (counted_sources claim).
  set (primary := filter _ (pc_evidence claim)). rewrite !app_nil.
  assert (H1 : ev_id <$> filter (λ item, ev_commit item = None) primary = [] ↔
    ∀ item, item ∈ pc_evidence claim → EvidenceOrigin_is_derived (ev_origin item) = false → is_Some (ev_commit item)).
  { rewrite fmap_filter_nil. subst primary. split.
    - intros H x Hx Hd. apply not_eq_None_Some, H, list_elem_of_filter. done.
    - intros H x [Hd Hx]%list_elem_of_filter. by apply not_eq_None_Some, H. }
  assert (H2 : existsb (λ item, bool_decide (ev_origin item = OriginLedger)) (filter counts (pc_evidence claim)) = true ↔
    ∃ item, item ∈ pc_evidence claim ∧ ev_origin item = OriginLedger ∧ is_Some (ev_commit item)).
  { rewrite existsb_exists. setoid_rewrite <- list_elem_of_In. setoid_rewrite list_elem_of_filter.
    setoid_rewrite bool_decide_eq_true. unfold counts. split; [naive_solver|].
    intros (x & ? & Ho & ?). exists x. by rewrite Ho. }
  refine (Morphisms_Prop.and_iff_morphism _ _ _ _ _ (Morphisms_Prop.and_iff_morphism _ _ _ _ _ _)).
  - rewrite <- H1. by destruct (ev_id <$> _).
  - destruct (N.ltb_spec (N.of_nat (size (counted_sources claim))) (pp_min_independent_sources policy));
      [split; [done|lia]|split; [lia|done]].
  - destruct (decide (pc_target claim = TargetAuthoritative)) as [Ht|Ht]; cbn.
    + rewrite bool_decide_eq_true_2 by done. destruct (existsb _ _); cbn; naive_solver.
    + rewrite bool_decide_eq_false_2 by done. naive_solver.
Qed.

(** [PromotionVerifier] passes exactly the promotable claims, and fails the
    others. *)
Lemma promotion_spec v claim :
  ∃ r, PromotionVerifier_verify v claim = Some r ∧ score_ok r ∧
    (vr_status r = StatusPass ↔ promotable (pv_policy v) claim) ∧
    (vr_status r = StatusFail ↔ ¬ promotable (pv_policy v) claim).
Proof.
  assert (Hrep : ∀ findings, (findings = [] ↔ promotable (pv_policy v) claim) →
    ∃ r, findings_report findings = Some r ∧ score_ok r ∧
      (vr_status r = StatusPass ↔ promotable (pv_policy v) claim) ∧
      (vr_status r = StatusFail ↔ ¬ promotable (pv_policy v) claim)).
  { intros findings E. destruct (findings_pass findings) as (r & -> & _ & _ & Hs & Hp & Hf).
    exists r. split; [done|]. split; [done|]. split; [by rewrite Hp|by rewrite Hf, E]. }
  unfold PromotionVerifier_verify.
  destruct (N.ltb_spec (pp_max_evidence (pv_policy v)) (blen (pc_evidence claim))) as [Hbig|Hsize].
  { apply Hrep. split; [done|]. intros []. lia. }
  destruct (malformed_findings claim) as [|f fs] eqn:Em.
  2: { apply (Hrep (f :: fs)). split; [done|]. intros []. assert (malformed_findings claim = []) by (by apply malformed_nil).
       congruence. }
  apply malformed_nil in Em as [Hclaim Hfields]. pose proof (contradiction_nil claim) as Hc.
  destruct (pc_evidence claim) as [|e es] eqn:Ee.
  { apply Hrep. split; [by intros [_ ?]%app_nil|]. intros []. rewrite Ee in *. set_solver. }
  rewrite <- Ee in *. destruct (filter _ (pc_evidence claim)) as [|p ps] eqn:Ep.
  { apply Hrep. split; [by intros [_ ?]%app_nil|]. intros [???? (x & Hx & Hd)].
    assert (x ∈ filter (λ item, EvidenceOrigin_is_derived (ev_origin item) = false) (pc_evidence claim)) as H
      by (by apply list_elem_of_filter). rewrite Ep in H. set_solver. }
  assert (Hp : ∃ item, item ∈ pc_evidence claim ∧ EvidenceOrigin_is_derived (ev_origin item) = false).
  { assert (p ∈ filter (λ item, EvidenceOrigin_is_derived (ev_origin item) = false) (pc_evidence claim))
      as [? ?]%list_elem_of_filter by (rewrite Ep; set_solver). eauto. }
  rewrite <- Ep. apply Hrep. rewrite app_nil, Hc, counting_nil. split.
  - intros (H1 & H2 & H3 & H4). by constructor.
  - intros []. done.
Qed.

Lemma policy_new_ok n p : PromotionPolicy_new n = Ok p →
  (1 <= pp_min_independent_sources p <= pp_max_evidence p)%N ∧ (pp_max_evidence p <= MAX_EVIDENCE_LIMIT)%N ∧
  pp_min_independent_sources p = n.
Proof.
  unfold PromotionPolicy_new, PromotionPolicy_validated. cbn [pp_min_independent_sources pp_max_evidence].
  destruct (N.eqb_spec n 0); [done|].
  repeat case_match; intros [=]; subst; cbn [pp_min_independent_sources pp_max_evidence] in *.
  all: repeat match goal with
    | H : (_ =? _)%N = false |- _ => apply N.eqb_neq in H
    | H : (_ <? _)%N = false |- _ => apply N.ltb_ge in H end.
  all: change (pp_max_evidence PromotionPolicy_default) with 64%N in *; lia.
Qed.

(** ** Facts *)

(** The claims are within bounds and well-formed. *)
Definition claims_ok (claims : list FactClaim) : Prop :=
  (blen claims <= MAX_CLAIMS)%N ∧ ∀ c, c ∈ claims → claim_oversize c = false ∧
    fact_well_formed (fc_subject c) = true ∧ fact_well_formed (fc_attribute c) = true.

Definition claim_key (c : FactClaim) : string := fact_key (fc_subject c) (fc_attribute c).

Lemma fact_malformed_nil claims : fact_malformed_findings claims = [] ↔
  ∀ c, c ∈ claims → fact_well_formed (fc_subject c) = true ∧ fact_well_formed (fc_attribute c) = true.
Proof.
  unfold fact_malformed_findings. rewrite mjoin_imap_nil.
  split; intros H x Hx; apply andb_true_iff, H, Hx.
Qed.

Lemma oversize_false claims :
  (MAX_CLAIMS <? blen claims)%N || existsb claim_oversize claims = false ↔
  (blen claims <= MAX_CLAIMS)%N ∧ ∀ c, c ∈ claims → claim_oversize c = false.
Proof.
  rewrite orb_false_iff, N.ltb_ge. refine (Morphisms_Prop.and_iff_morphism _ _ _ _ _ _); [done|].
  rewrite <- not_true_iff_false, existsb_exists. setoid_rewrite <- list_elem_of_In. split.
  - intros H c Hc. apply not_true_iff_false. eauto.
  - intros H (c & Hc & E). specialize (H c Hc). congruence.
Qed.

(** One claim, judged: contradicted by another text, matched, or unknown. *)
Lemma judge_claim_spec s i c :
  match snapshot_get s (claim_key c) with
  | Some held =>
      if decide (held = fc_value c) then judge_claim s i c = (false, [])
      else ∃ f, judge_claim s i c = (true, [f])
  | None => ∃ f, judge_claim s i c = (false, [f])
  end.
Proof.
  unfold judge_claim, snapshot_get, claim_key.
  destruct (snapshot_value s _) as [[held|p]|]; [|eauto..].
  destruct (decide _); [by rewrite bool_decide_eq_true_2|rewrite bool_decide_eq_false_2 by done; eauto].
Qed.

Lemma judged_spec s claims : ∀ k,
  (existsb fst (imap (λ i, judge_claim s (k + i)) claims) = true ↔
   ∃ c held, c ∈ claims ∧ snapshot_get s (claim_key c) = Some held ∧ held ≠ fc_value c) ∧
  (imap (λ i, judge_claim s (k + i)) claims ≫= snd = [] ↔
   ∀ c, c ∈ claims → snapshot_get s (claim_key c) = Some (fc_value c)).
Proof.
  induction claims as [|c claims IH]; intros k.
  - cbn. split; [split; [done|by intros (? & ? & []%not_elem_of_nil & _)]|]. split; [set_solver|done].
  - cbn [imap existsb mbind list_bind]. specialize (IH (S k)) as [IH1 IH2].
    replace (imap ((λ i, judge_claim s (k + i)) ∘ S) claims) with (imap (λ i, judge_claim s (S k + i)) claims)
      by (apply imap_ext; intros; unfold compose; f_equal; lia).
    rewrite orb_true_iff, IH1, app_nil, IH2, <- !Forall_forall, Forall_cons.
    pose proof (judge_claim_spec s (k + 0) c) as Hj.
    destruct (snapshot_get s (claim_key c)) as [held|] eqn:Eg; [destruct (decide _) as [Hv|Hv]|].
    + rewrite Hj, Hv in *. cbn. split; [|by split; intros [? ?]].
      split; [intros [|(c' & h & ? & ?)]; [done|exists c', h; set_solver]|].
      intros (c' & h & [-> |Hc]%elem_of_cons & E & Hn); [congruence|right; eauto].
    + destruct Hj as [f ->]. cbn. split; [|split; intros [? ?]; [done|congruence]].
      split; [|auto]. intros _. exists c, held. set_solver.
    + destruct Hj as [f ->]. cbn. split; [|by split; intros [? ?]].
      split; [intros [|(c' & h & ? & ?)]; [done|exists c', h; set_solver]|].
      intros (c' & h & [-> |Hc]%elem_of_cons & E & Hn); [congruence|right; eauto].
Qed.

Definition snapshot_is_live (v : FactVerifier) : Prop :=
  match fv_live v with
  | Some live => live = snap_revision (fv_snapshot v)
  | None => True
  end.

Definition contradicted (s : SemanticSnapshot) (claims : list FactClaim) : Prop :=
  ∃ c held, c ∈ claims ∧ snapshot_get s (claim_key c) = Some held ∧ held ≠ fc_value c.
Definition supported (s : SemanticSnapshot) (claims : list FactClaim) : Prop :=
  ∀ c, c ∈ claims → snapshot_get s (claim_key c) = Some (fc_value c).

Lemma status_report_status status findings :
  ∃ r, status_report status findings = Some r ∧ vr_status r = status ∧ score_ok r.
Proof. destruct (status_report_ok status findings) as (s & Hs & ->). eauto. Qed.

Lemma judge_claims_spec s claims :
  ∃ r, judge_claims s claims = Some r ∧ score_ok r ∧
    (vr_status r = StatusPass ↔ claims ≠ [] ∧ supported s claims) ∧
    (vr_status r = StatusFail ↔ contradicted s claims).
Proof.
  unfold judge_claims. destruct claims as [|c claims].
  - destruct (status_report_status StatusUnknown [finding "fact.unknown"
      ("no claims to check against snapshot revision " +:+ to_string (snap_revision s))]) as (r & -> & Es & Hs).
    exists r. rewrite Es. split; [done|]. split; [done|]. split; [split; [done|naive_solver]|].
    split; [done|]. by intros (? & ? & []%not_elem_of_nil & _).
  - destruct (judged_spec s (c :: claims) 0) as [H1 H2]. cbn [Nat.add] in H1, H2.
    change (imap (λ i, judge_claim s i) (c :: claims)) with (imap (judge_claim s) (c :: claims)) in *.
    set (judged := imap (judge_claim s) (c :: claims)) in *.
    destruct (status_report_status (if existsb fst judged then StatusFail
      else match judged ≫= snd with [] => StatusPass | _ => StatusUnknown end) (judged ≫= snd))
      as (r & -> & Es & Hs).
    exists r. split; [done|]. split; [done|]. rewrite Es. fold (contradicted s (c :: claims)) in H1.
    fold (supported s (c :: claims)) in H2. rewrite <- H1, <- H2. destruct (existsb fst judged) eqn:E.
    + split; [|done]. split; [done|]. intros [_ Hn]. destruct (proj1 H1 eq_refl) as (c' & h & Hc & Hg & Hne).
      apply H2 in Hn. specialize (Hn c' Hc). congruence.
    + split; [|by destruct (judged ≫= snd)]. destruct (judged ≫= snd); [done|]. split; [done|by intros [_ ?]].
Qed.

(** [FactVerifier]: what passes, and what fails. *)
Lemma fact_spec v claims :
  ∃ r, FactVerifier_verify v claims = Some r ∧ score_ok r ∧
    (vr_status r = StatusPass ↔
     claims_ok claims ∧ snapshot_is_live v ∧ claims ≠ [] ∧ supported (fv_snapshot v) claims) ∧
    (vr_status r = StatusFail ↔
     ¬ claims_ok claims ∨ (snapshot_is_live v ∧ contradicted (fv_snapshot v) claims)).
Proof.
  assert (Hrep : ∀ status findings, (status = StatusPass → False) →
    (status = StatusFail ↔ ¬ claims_ok claims ∨ snapshot_is_live v ∧ contradicted (fv_snapshot v) claims) →
    (claims_ok claims → snapshot_is_live v → False) →
    ∃ r, status_report status findings = Some r ∧ score_ok r ∧
    (vr_status r = StatusPass ↔
     claims_ok claims ∧ snapshot_is_live v ∧ claims ≠ [] ∧ supported (fv_snapshot v) claims) ∧
    (vr_status r = StatusFail ↔ ¬ claims_ok claims ∨ snapshot_is_live v ∧ contradicted (fv_snapshot v) claims)).
  { intros status findings Hp Hf Hno. destruct (status_report_status status findings) as (r & -> & <- & Hs).
    exists r. split; [done|]. split; [done|]. split; [|done]. split; [done|]. intros (? & ? & _). by destruct Hno. }
  unfold FactVerifier_verify. destruct (_ || _) eqn:Eo.
  { assert (¬ claims_ok claims).
    { intros [H1 H2]. apply not_false_iff_true in Eo. apply Eo, oversize_false. split; [done|]. intros c Hc. by apply H2. }
    apply Hrep; [done|naive_solver|done]. }
  apply oversize_false in Eo as [Hb Ho]. destruct (fact_malformed_findings claims) as [|f fs] eqn:Em.
  2: { assert (¬ claims_ok claims).
       { intros [_ H2]. assert (fact_malformed_findings claims = []); [|congruence].
         apply fact_malformed_nil. intros c Hc. by apply H2. }
       apply Hrep; [done|naive_solver|done]. }
  assert (Hok : claims_ok claims).
  { split; [done|]. intros c Hc. split; [by apply Ho|]. by apply (proj1 (fact_malformed_nil claims) Em). }
  assert (Hlive : snapshot_is_live v → ∃ r, judge_claims (fv_snapshot v) claims = Some r ∧ score_ok r ∧
    (vr_status r = StatusPass ↔
     claims_ok claims ∧ snapshot_is_live v ∧ claims ≠ [] ∧ supported (fv_snapshot v) claims) ∧
    (vr_status r = StatusFail ↔ ¬ claims_ok claims ∨ snapshot_is_live v ∧ contradicted (fv_snapshot v) claims)).
  { intros Hl. destruct (judge_claims_spec (fv_snapshot v) claims) as (r & -> & Hs & Hp & Hf).
    exists r. split; [done|]. split; [done|]. rewrite Hp, Hf. split; split; naive_solver. }
  destruct (fv_live v) as [live|] eqn:El; [|apply Hlive; unfold snapshot_is_live; by rewrite El].
  case_bool_decide as Hne; [|apply Hlive; unfold snapshot_is_live; rewrite El;
    by destruct (decide (live = snap_revision (fv_snapshot v)))].
  apply Hrep; [done| |]; unfold snapshot_is_live; rewrite El; naive_solver.
Qed.

(** ** Theorems *)

(** C28: a fabric is only as strong as its weakest member.  When every member
    returns a report, with a score in [0, 1] as its type guarantees, the fabric returns
    one.  A fabric without members answers [Unknown] at the level [Unverified], with
    score 0 and no findings.  Any other passes exactly when every member
    passes and none reported a hard finding, it fails exactly when a member fails
    or reported a hard finding, it reaches a verification level exactly when every
    member reaches it, its score is the greatest bound of the members' scores, and
    it reports every member's findings in order. *)
Theorem fabric_weakest_member {T} (f : VerifierFabric T) candidate reports :
  mapM (λ v, bv_verify v candidate) (vf_verifiers f) = Some reports →
  Forall score_ok reports →
  ∃ r, VerifierFabric_verify f candidate = Some r ∧
    if VerifierFabric_is_empty f
    then vr_status r = StatusUnknown ∧ vr_level r = Unverified ∧ vr_score r = 0%Q ∧ vr_findings r = []
    else combines reports r.
Proof.
  intros Hm Hs. destruct (VerifierFabric_is_empty f) eqn:E.
  - unfold VerifierFabric_verify. rewrite E. eexists. split; [reflexivity|]. by split_and!.
  - apply fabric_combines; [done| |done]. intros Hv. unfold VerifierFabric_is_empty in E. by rewrite Hv in E.
Qed.

(** A contract, an action that keeps it and a fabric of two checks of it. *)
Definition sample_contract : ActionContract := {|
  ac_target := "db"; ac_operation := "read"; ac_capability := "query"; ac_input_type := "text";
  ac_effect := Read; ac_max_payload_bytes := 4; ac_payload_encoding := EncodingUtf8
|}.
Definition sample_action : ActionIr := {|
  ai_operation := "read"; ai_target := "db"; ai_capability := "query"; ai_effect := Read;
  ai_input_type := "text"; ai_generation := 2%N; ai_revision := 7%N; ai_payload := [Byte.x68; Byte.x69]
|}.
Definition sample_verifier : ActionContractVerifier := {| acv_contract := sample_contract |}.
Definition sample_fabric : VerifierFabric ActionIr :=
  VerifierFabric_push (VerifierFabric_push VerifierFabric_default sample_verifier) sample_verifier.
Definition sample_binding : SnapshotBinding := {| sb_revision := 7; sb_generation := 2 |}.
Definition sample_bound : BoundVerifierFabric ActionIr :=
  BoundVerifierFabric_push (BoundVerifierFabric_new sample_binding)
    {| as_verifier := sample_verifier; as_snapshot := sample_binding |}.

Lemma fabric_weakest_member_witness :
  ∃ reports r, VerifierFabric_verify sample_fabric sample_action = Some r ∧ combines reports r ∧ length reports = 2%nat.
Proof.
  destruct (mapM (λ v, bv_verify v sample_action) (vf_verifiers sample_fabric)) as [reports|] eqn:E;
    [|vm_compute in E; discriminate E].
  destruct (fabric_weakest_member sample_fabric sample_action reports E) as (r & H1 & H2).
  - vm_compute in E. injection E as <-. repeat constructor; vm_compute; discriminate.
  - exists reports, r. split; [exact H1|]. split; [exact H2|]. vm_compute in E. injection E as <-. reflexivity.
Defined.

(** A bound fabric gives no verdict for another snapshot.  Its verdict is
    about the snapshot it was made for; it passes exactly when every member judged
    that revision and generation, passed, and reported no hard finding; and a
    single member that judged another snapshot makes it fail. *)
Theorem bound_fabric_one_snapshot {T} (f : BoundVerifierFabric T) candidate bounds :
  mapM (λ v, bbv_verify v candidate) (bf_verifiers f) = Some bounds →
  bf_verifiers f ≠ [] → Forall (λ b, score_ok (bvr_report b)) bounds →
  ∃ b, BoundVerifierFabric_verify f candidate = Some b ∧ bvr_snapshot b = bf_snapshot f ∧
    (vr_status (bvr_report b) = StatusPass ↔
     Forall (λ x, bvr_snapshot x = bf_snapshot f ∧ vr_status (bvr_report x) = StatusPass ∧
                  clean (bvr_report x)) bounds) ∧
    (¬ Forall (λ x, bvr_snapshot x = bf_snapshot f) bounds → vr_status (bvr_report b) = StatusFail).
Proof. apply bound_fabric_spec. Qed.

Lemma bound_fabric_one_snapshot_witness :
  ∃ b, BoundVerifierFabric_verify sample_bound sample_action = Some b ∧ bvr_snapshot b = sample_binding.
Proof.
  destruct (mapM (λ v, bbv_verify v sample_action) (bf_verifiers sample_bound)) as [bounds|] eqn:E;
    [|vm_compute in E; discriminate E].
  destruct (bound_fabric_one_snapshot sample_bound sample_action bounds E) as (b & H1 & H2 & _).
  - discriminate.
  - vm_compute in E. injection E as <-. repeat constructor; vm_compute; discriminate.
  - exists b. split; [exact H1|exact H2].
Defined.

(** C29: derived data cannot promote itself.  The verifier returns a report for
    every claim; it passes exactly the claims that satisfy the documented rules
    (bounded and well-formed, not contradicted by a hard finding, all evidence
    that is not derived committed, enough distinct sources of it, and for an
    authoritative promotion a committed piece of ledger evidence), and fails every
    other claim. *)
Theorem promotion_exact v claim :
  ∃ r, PromotionVerifier_verify v claim = Some r ∧ score_ok r ∧
    (vr_status r = StatusPass ↔ promotable (pv_policy v) claim) ∧
    (vr_status r = StatusFail ↔ ¬ promotable (pv_policy v) claim).
Proof. apply promotion_spec. Qed.

(** Facts are judged against one live snapshot of the semantic store.  The
    verifier returns a report for every list of claims; it passes exactly when the
    list is not empty, the claims are well-formed and within bounds, the snapshot
    is the live revision, and the store holds the claimed text for every claim; it
    fails only for ill-formed claims or when the live snapshot holds another text
    for one of them, and in every other case it answers [Unknown]. *)
Theorem fact_verdicts v claims :
  ∃ r, FactVerifier_verify v claims = Some r ∧ score_ok r ∧
    (vr_status r = StatusPass ↔
     claims_ok claims ∧ snapshot_is_live v ∧ claims ≠ [] ∧ supported (fv_snapshot v) claims) ∧
    (vr_status r = StatusFail ↔
     ¬ claims_ok claims ∨ (snapshot_is_live v ∧ contradicted (fv_snapshot v) claims)).
Proof. apply fact_spec. Qed.
