(* ===== verification/BigInt.v ===== *)
(** * Magnitudes: crates/ptr-verifier/src/bigint.rs, the functions on limbs

    A magnitude is a little-endian vector of 32-bit limbs.  The functions are
    modelled with the machine arithmetic they use: every addition, subtraction
    and product of 64-bit values is checked ([u64c], [i64c]), every index is
    looked up, and [None] stands for a panic (an overflow under overflow checks,
    an index out of range, a division by zero) or for the end of the fuel of the
    one [while] loop.  That [None] is never reached, and what the functions
    compute, is in LimbFacts. *)

From S2P Require Import Prelude Text.
From Stdlib Require Import ZArith Lia Strings.Ascii.
From stdpp Require Import options.

Local Open Scope Z_scope.

(** [const BASE: u64 = 1 << 32]. *)
Abbreviation BASE := 4294967296%Z (only parsing).

(** ** Machine arithmetic *)

(** [as u32], [as u64] and [as i64] keep the low bits. *)
Definition as_u32 (z : Z) : Z := z mod 2 ^ 32.
Definition as_u64 (z : Z) : Z := z mod 2 ^ 64.
Definition as_i64 (z : Z) : Z :=
  if (z mod 2 ^ 64 <? 2 ^ 63) then z mod 2 ^ 64 else z mod 2 ^ 64 - 2 ^ 64.

(** A result that must fit its type. *)
Definition u64c (z : Z) : option Z := if (0 <=? z) && (z <? 2 ^ 64) then Some z else None.
Definition i64c (z : Z) : option Z := if (- 2 ^ 63 <=? z) && (z <? 2 ^ 63) then Some z else None.

(** [u32::leading_zeros]. *)
Definition leading_zeros (x : Z) : Z := if x =? 0 then 32 else 31 - Z.log2 x.

(** [i64::from(condition)]. *)
Definition flag (c : bool) : Z := if c then 1 else 0.

(** [vec[k] = v]. *)
Definition set_at (l : list Z) (k : nat) (v : Z) : option (list Z) :=
  if decide (k < length l)%nat then Some (<[k := v]> l) else None.

(** ** Loops over index ranges *)

(** [for i in lo..lo + count] and [for j in (0..count).rev()] over a state. *)
Fixpoint for_up {S : Type} (body : nat → S → option S) (lo count : nat) (s : S) : option S :=
  match count with
  | O => Some s
  | Datatypes.S count => s ← body lo s; for_up body (Datatypes.S lo) count s
  end.

Fixpoint for_down {S : Type} (body : nat → S → option S) (count : nat) (s : S) : option S :=
  match count with
  | O => Some s
  | Datatypes.S j => s ← body j s; for_down body j s
  end.

(** ** [trim] and [cmp_mag] *)

Fixpoint pop_zeros (rev_mag : list Z) : list Z :=
  match rev_mag with
  | 0 :: rest => pop_zeros rest
  | _ => rev_mag
  end.

Definition trim (mag : list Z) : list Z := reverse (pop_zeros (reverse mag)).

(** [Iterator::cmp]. *)
Fixpoint lex_cmp (a b : list Z) : comparison :=
  match a, b with
  | [], [] => Eq
  | [], _ :: _ => Lt
  | _ :: _, [] => Gt
  | x :: a, y :: b => match x ?= y with Eq => lex_cmp a b | c => c end
  end.

Definition cmp_mag (a b : list Z) : comparison :=
  match (length a ?= length b)%nat with
  | Eq => lex_cmp (reverse a) (reverse b)
  | c => c
  end.

(** ** [add_mag], [sub_mag] and [mul_mag] *)

(** [slice.get(i).copied().unwrap_or(0)]. *)
Definition limb_or_0 (l : list Z) (i : nat) : Z := default 0 (l !! i).

Fixpoint add_loop (short : list Z) (i : nat) (long out : list Z) (carry : Z) :
    option (list Z * Z) :=
  match long with
  | [] => Some (out, carry)
  | limb :: long =>
      sum ← u64c (limb + limb_or_0 short i);
      sum ← u64c (sum + carry);
      add_loop short (S i) long (out ++ [as_u32 sum]) (Z.shiftr sum 32)
  end.

Definition add_mag (a b : list Z) : option (list Z) :=
  let '(long, short) := if decide (length b ≤ length a)%nat then (a, b) else (b, a) in
  '(out, carry) ← add_loop short 0 long [] 0;
  Some (if carry =? 0 then out else out ++ [as_u32 carry]).

Fixpoint sub_loop (b : list Z) (i : nat) (a out : list Z) (borrow : Z) : option (list Z) :=
  match a with
  | [] => Some out
  | limb :: a =>
      diff ← i64c (limb - limb_or_0 b i);
      diff ← i64c (diff - borrow);
      sub_loop b (S i) a (out ++ [as_u32 diff]) (flag (diff <? 0))
  end.

Definition sub_mag (a b : list Z) : option (list Z) :=
  out ← sub_loop b 0 a [] 0; Some (trim out).

(** One row of the product: [out[i + j]] for every limb [y] of [b]. *)
Fixpoint mul_row (x : Z) (i j : nat) (b out : list Z) (carry : Z) : option (list Z * Z) :=
  match b with
  | [] => Some (out, carry)
  | y :: b =>
      o ← out !! (i + j)%nat;
      product ← u64c (x * y);
      cell ← u64c (o + product);
      cell ← u64c (cell + carry);
      out ← set_at out (i + j) (as_u32 cell);
      mul_row x i (S j) b out (Z.shiftr cell 32)
  end.

Fixpoint mul_rows (i : nat) (a b out : list Z) : option (list Z) :=
  match a with
  | [] => Some out
  | x :: a =>
      '(out, carry) ← mul_row x i 0 b out 0;
      out ← set_at out (i + length b) (as_u32 carry);
      mul_rows (S i) a b out
  end.

Definition mul_mag (a b : list Z) : option (list Z) :=
  if bool_decide (a = []) || bool_decide (b = []) then Some []
  else
    out ← mul_rows 0 a b (replicate (length a + length b) 0);
    Some (trim out).

(** ** Division *)

(** [cur / d] and [cur % d] panic on a zero divisor. *)
Definition div_u64 (x d : Z) : option Z := if d =? 0 then None else Some (x / d).
Definition rem_u64 (x d : Z) : option Z := if d =? 0 then None else Some (x mod d).

Definition divrem_limb_step (u : list Z) (d : Z) (i : nat) (st : list Z * Z) :
    option (list Z * Z) :=
  let '(quotient, rem) := st in
  limb ← u !! i;
  let cur := Z.lor (as_u64 (Z.shiftl rem 32)) limb in
  q ← div_u64 cur d;
  quotient ← set_at quotient i (as_u32 q);
  rem ← rem_u64 cur d;
  Some (quotient, rem).

Definition divrem_limb (u : list Z) (d : Z) : option (list Z * Z) :=
  '(quotient, rem) ← for_down (divrem_limb_step u d) (length u) (replicate (length u) 0, 0);
  Some (trim quotient, as_u32 rem).

(** The closure [shl]: the limbs shifted left, with the bits shifted out of each
    limb entering the next, and the last carry as an [extra] limb. *)
Fixpoint shl_loop (shift : Z) (x out : list Z) (carry : Z) : list Z * Z :=
  match x with
  | [] => (out, carry)
  | limb :: x =>
      shl_loop shift x
        (out ++ [if shift =? 0 then limb else Z.lor (as_u32 (Z.shiftl limb shift)) carry])
        (if shift =? 0 then 0 else Z.shiftr limb (32 - shift))
  end.

Definition shl (shift : Z) (x : list Z) (extra : bool) : list Z :=
  let '(out, carry) := shl_loop shift x [] 0 in
  if extra then out ++ [carry] else out.

(** The correction of the estimated digit.  The loop runs at most twice, since
    [rhat] grows by at least half the base; the fuel is one more. *)
Fixpoint qhat_loop (fuel : nat) (top second low qhat rhat : Z) : option (Z * Z) :=
  too_large ←
    (if BASE <=? qhat then Some true
     else product ← u64c (qhat * second);
          Some (Z.lor (as_u64 (Z.shiftl rhat 32)) low <? product));
  if too_large : bool then
    match fuel with
    | O => None
    | S fuel =>
        qhat ← u64c (qhat - 1);
        rhat ← u64c (rhat + top);
        if BASE <=? rhat then Some (qhat, rhat)
        else qhat_loop fuel top second low qhat rhat
    end
  else Some (qhat, rhat).

Definition QHAT_FUEL : nat := 3.

(** The multiply-and-subtract loop on [un[j..j + n]]. *)
Definition mulsub_step (vn : list Z) (qhat : Z) (j i : nat) (st : list Z * Z * Z) :
    option (list Z * Z * Z) :=
  let '(un, borrow, carry) := st in
  v ← vn !! i;
  product ← u64c (qhat * v);
  product ← u64c (product + carry);
  x ← un !! (i + j)%nat;
  diff ← i64c (x - borrow);
  diff ← i64c (diff - as_i64 (Z.land product 0xFFFFFFFF));
  un ← set_at un (i + j) (as_u32 diff);
  Some (un, flag (diff <? 0), Z.shiftr product 32).

(** The loop that adds the divisor back. *)
Definition addback_step (vn : list Z) (j i : nat) (st : list Z * Z) : option (list Z * Z) :=
  let '(un, carry) := st in
  x ← un !! (i + j)%nat;
  v ← vn !! i;
  sum ← u64c (x + v);
  sum ← u64c (sum + carry);
  un ← set_at un (i + j) (as_u32 sum);
  Some (un, Z.shiftr sum 32).

(** One digit of the quotient: the body of [for j in (0..=m).rev()]. *)
Definition digit_step (vn : list Z) (n : nat) (top second : Z) (j : nat)
    (st : list Z * list Z) : option (list Z * list Z) :=
  let '(un, q) := st in
  high ← un !! (j + n)%nat;
  mid ← un !! (j + n - 1)%nat;
  let num := Z.lor (as_u64 (Z.shiftl high 32)) mid in
  qhat ← div_u64 num top;
  rhat ← rem_u64 num top;
  low ← un !! (j + n - 2)%nat;
  '(qhat, _) ← qhat_loop QHAT_FUEL top second low qhat rhat;
  '(un, borrow, carry) ← for_up (mulsub_step vn qhat j) 0 n (un, 0, 0);
  x ← un !! (j + n)%nat;
  diff ← i64c (x - borrow);
  diff ← i64c (diff - as_i64 carry);
  un ← set_at un (j + n) (as_u32 diff);
  '(un, qhat) ←
    (if diff <? 0 then
       qhat ← u64c (qhat - 1);
       '(un, carry) ← for_up (addback_step vn j) 0 n (un, 0);
       x ← un !! (j + n)%nat;
       un ← set_at un (j + n) (as_u32 (x + as_u32 carry));
       Some (un, qhat)
     else Some (un, qhat));
  q ← set_at q j (as_u32 qhat);
  Some (un, q).

(** The loop that undoes the shift on the remainder. *)
Definition unshift_step (un : list Z) (shift : Z) (i : nat) (rem : list Z) : option (list Z) :=
  x ← un !! i;
  let low := Z.shiftr x shift in
  high ← (if shift =? 0 then Some 0
          else y ← un !! S i; Some (as_u32 (Z.shiftl y (32 - shift))));
  Some (rem ++ [Z.lor low high]).

(** Knuth's algorithm D. *)
Definition divrem_mag (u v : list Z) : option (list Z * list Z) :=
  if bool_decide (cmp_mag u v = Lt) then Some ([], u)
  else
    match v with
    | [d] =>
        '(q, r) ← divrem_limb u d;
        Some (q, if r =? 0 then [] else [r])
    | _ =>
        let n := length v in
        let m := (length u - n)%nat in
        vtop ← v !! (n - 1)%nat;
        let shift := leading_zeros vtop in
        let vn := shl shift v false in
        let un := shl shift u true in
        top ← vn !! (n - 1)%nat;
        second ← vn !! (n - 2)%nat;
        '(un, q) ← for_down (digit_step vn n top second) (S m) (un, replicate (S m) 0);
        rem ← for_up (unshift_step un shift) 0 n [];
        Some (trim q, trim rem)
    end.

(** * Bounded big integers: crates/ptr-verifier/src/bigint.rs, [BigInt]

    Sign and magnitude, at most [MAX_LIMBS] limbs.  A fallible operation returns
    a [result]; the outer [option] is the panic of the functions on limbs (and
    the end of a loop's fuel), shown to be unreachable in BigIntFacts. *)

Definition MAX_LIMBS : nat := 40.

Inductive BigIntError := BigIntTooLarge | BigIntDivisionByZero | BigIntInvalidDecimal.

#[export] Instance BigIntError_eq_dec : EqDecision BigIntError.
Proof. solve_decision. Defined.

Record BigInt := mkBigInt { big_negative : bool; big_mag : list Z }.

#[export] Instance BigInt_eq_dec : EqDecision BigInt.
Proof. solve_decision. Defined.

(** [?] on a call that may panic and may fail. *)
Definition fbind {E A B} (m : option (result E A)) (k : A → option (result E B)) : option (result E B) :=
  match m with
  | Some (Ok a) => k a
  | Some (Err e) => Some (Err e)
  | None => None
  end.
Notation "'let!' x ':=' m 'in' k" := (fbind m (λ x, k))
  (at level 200, x pattern, m at level 100, k at level 200) : ptr_scope.

Definition BigInt_zero : BigInt := mkBigInt false [].

(** The [while magnitude != 0] loop of [from_i128]; a [u128] has four limbs. *)
Fixpoint limbs_of (fuel : nat) (magnitude : Z) : list Z :=
  match fuel with
  | O => []
  | S fuel =>
      if magnitude =? 0 then []
      else as_u32 magnitude :: limbs_of fuel (Z.shiftr magnitude 32)
  end.

Definition BigInt_from_i128 (value : Z) : BigInt :=
  mkBigInt (value <? 0) (limbs_of 4 (Z.abs value)).

(** [i128::try_from] of a [u128]. *)
Definition i128_try_from (m : Z) : option Z := if m <? 2 ^ 127 then Some m else None.

Definition BigInt_to_i128 (x : BigInt) : option Z :=
  if decide (4 < length (big_mag x))%nat then None
  else
    let magnitude :=
      foldl (λ acc limb, Z.lor (Z.shiftl acc 32 mod 2 ^ 128) limb) 0 (reverse (big_mag x)) in
    if big_negative x then
      if magnitude =? 2 ^ 127 then Some (- 2 ^ 127)
      else Z.opp <$> i128_try_from magnitude
    else i128_try_from magnitude.

(** ** Decimal text *)

Definition ascii_digit (a : ascii) : bool := bool_decide (is_Some (digit_value a)).

(** [digit - b'0'], for a digit. *)
Definition digit_of (a : ascii) : Z := Z.of_N (default 0%N (digit_value a)).

(** [for limb in &mut mag]: times ten plus the carry. *)
Fixpoint times_ten (mag : list Z) (carry : Z) : option (list Z * Z) :=
  match mag with
  | [] => Some ([], carry)
  | limb :: mag =>
      product ← u64c (limb * 10);
      cell ← u64c (product + carry);
      '(mag, carry) ← times_ten mag (Z.shiftr cell 32);
      Some (as_u32 cell :: mag, carry)
  end.

Fixpoint parse_decimal_loop (digits : list ascii) (mag : list Z) :
    option (result BigIntError (list Z)) :=
  match digits with
  | [] => Some (Ok mag)
  | digit :: digits =>
      '(mag, carry) ← times_ten mag (digit_of digit);
      let mag := if carry =? 0 then mag else mag ++ [as_u32 carry] in
      if decide (MAX_LIMBS < length mag)%nat then Some (Err BigIntTooLarge)
      else parse_decimal_loop digits mag
  end.

Definition BigInt_parse_decimal (digits : list ascii) : option (result BigIntError BigInt) :=
  if bool_decide (digits = []) || negb (forallb ascii_digit digits)
  then Some (Err BigIntInvalidDecimal)
  else
    let! mag := parse_decimal_loop digits [] in
    Some (Ok (mkBigInt false (trim mag))).

(** The [while !rest.is_empty()] loop of [Display]: base-10^9 chunks, least
    significant first.  Each chunk takes more than 16 of the bits of [rest], so
    two chunks per limb are enough. *)
Fixpoint chunks_loop (fuel : nat) (rest : list Z) : option (list Z) :=
  match rest with
  | [] => Some []
  | _ =>
      match fuel with
      | O => None
      | S fuel =>
          '(quotient, rem) ← divrem_limb rest 1000000000;
          chunks ← chunks_loop fuel quotient;
          Some (rem :: chunks)
      end
  end.

(** [chunk.to_string()] for the first chunk, [{chunk:09}] for the others. *)
Definition chunk_text (i : nat) (chunk : Z) : string :=
  match i with
  | O => to_string (Z.to_N chunk)
  | S _ => padded 9 (Z.to_N chunk)
  end.

Definition BigInt_fmt (x : BigInt) : option string :=
  match big_mag x with
  | [] => Some "0"
  | mag =>
      chunks ← chunks_loop (2 * length mag) mag;
      Some ((if big_negative x then "-" else "") +:+
            foldr String.app "" (imap chunk_text (reverse chunks)))
  end.

(** ** Arithmetic *)

Definition BigInt_is_zero (x : BigInt) : bool := bool_decide (big_mag x = []).
Definition BigInt_is_negative (x : BigInt) : bool := big_negative x.
Definition BigInt_limbs (x : BigInt) : nat := length (big_mag x).

Definition BigInt_neg (x : BigInt) : BigInt :=
  mkBigInt (negb (big_negative x) && negb (bool_decide (big_mag x = []))) (big_mag x).

Definition BigInt_checked (negative : bool) (mag : list Z) : result BigIntError BigInt :=
  if decide (MAX_LIMBS < length mag)%nat then Err BigIntTooLarge
  else Ok (mkBigInt (negative && negb (bool_decide (mag = []))) mag).

Definition BigInt_add (x y : BigInt) : option (result BigIntError BigInt) :=
  if bool_decide (big_negative x = big_negative y) then
    mag ← add_mag (big_mag x) (big_mag y);
    Some (BigInt_checked (big_negative x) mag)
  else
    match cmp_mag (big_mag x) (big_mag y) with
    | Eq => Some (Ok BigInt_zero)
    | Gt => mag ← sub_mag (big_mag x) (big_mag y); Some (BigInt_checked (big_negative x) mag)
    | Lt => mag ← sub_mag (big_mag y) (big_mag x); Some (BigInt_checked (big_negative y) mag)
    end.

Definition BigInt_sub (x y : BigInt) : option (result BigIntError BigInt) :=
  BigInt_add x (BigInt_neg y).

Definition BigInt_mul (x y : BigInt) : option (result BigIntError BigInt) :=
  mag ← mul_mag (big_mag x) (big_mag y);
  Some (BigInt_checked (xorb (big_negative x) (big_negative y)) mag).

Definition BigInt_div_rem (x divisor : BigInt) : option (result BigIntError (BigInt * BigInt)) :=
  if BigInt_is_zero divisor then Some (Err BigIntDivisionByZero)
  else
    '(q, r) ← divrem_mag (big_mag x) (big_mag divisor);
    let! q := Some (BigInt_checked (xorb (big_negative x) (big_negative divisor)) q) in
    let! r := Some (BigInt_checked (big_negative x) r) in
    Some (Ok (q, r)).

Definition BigInt_div_exact (x divisor : BigInt) : option (result BigIntError (option BigInt)) :=
  let! qr := BigInt_div_rem x divisor in
  Some (Ok (if BigInt_is_zero qr.2 then Some qr.1 else None)).

(** Euclid's loop.  Two steps halve [b], so 64 steps per limb are enough. *)
Fixpoint gcd_mag_loop (fuel : nat) (a b : list Z) : option (list Z) :=
  match b with
  | [] => Some a
  | _ =>
      match fuel with
      | O => None
      | S fuel => '(_, rem) ← divrem_mag a b; gcd_mag_loop fuel b rem
      end
  end.

Definition BigInt_gcd (x y : BigInt) : option BigInt :=
  a ← gcd_mag_loop (64 * length (big_mag y)) (big_mag x) (big_mag y);
  Some (mkBigInt false a).

Definition BigInt_cmp (x y : BigInt) : comparison :=
  match big_negative x, big_negative y with
  | false, true => Gt
  | true, false => Lt
  | false, false => cmp_mag (big_mag x) (big_mag y)
  | true, true => cmp_mag (big_mag y) (big_mag x)
  end.
