(* ===== verification/LimbFacts.v ===== *)
(** * What the functions on magnitudes compute

    A magnitude stands for a natural number ([mag_val]), and trimmed magnitudes
    are canonical.  Addition, subtraction, multiplication, comparison and the
    division by one limb compute the operations of [Z] on the values, never
    overflow their 64-bit words and never index out of range. *)

From S2P Require Import Prelude BigInt.
From Stdlib Require Import ZArith Lia.
From stdpp Require Import options.

Local Open Scope Z_scope.

(** ** Values and well-formedness *)

Fixpoint mag_val (l : list Z) : Z :=
  match l with
  | [] => 0
  | x :: l => x + BASE * mag_val l
  end.

(** [BASE] to the power [n]. *)
Definition weight (n : nat) : Z := BASE ^ Z.of_nat n.

Definition is_limb (x : Z) : Prop := 0 <= x < BASE.
Abbreviation limbs_ok := (Forall is_limb).

(** No most-significant zero limb. *)
Definition trimmed (l : list Z) : Prop := last l ≠ Some 0.

Definition mag_ok (l : list Z) : Prop := limbs_ok l ∧ trimmed l.

Lemma weight_0 : weight 0 = 1.
Proof. done. Qed.
Lemma weight_S n : weight (S n) = BASE * weight n.
Proof. unfold weight. rewrite Nat2Z.inj_succ, Z.pow_succ_r; lia. Qed.
Lemma weight_add n m : weight (n + m) = weight n * weight m.
Proof. unfold weight. rewrite Nat2Z.inj_add, Z.pow_add_r; lia. Qed.
Lemma weight_pos n : 0 < weight n.
Proof. unfold weight. lia. Qed.
Lemma weight_mono n m : (n ≤ m)%nat → weight n <= weight m.
Proof. intros. unfold weight. apply Z.pow_le_mono_r; lia. Qed.

Create Rewrite HintDb mag.
#[export] Hint Rewrite weight_0 weight_S weight_add : mag.

Lemma mag_val_app a b : mag_val (a ++ b) = mag_val a + weight (length a) * mag_val b.
Proof.
  induction a as [|x a IH]; cbn [app mag_val length]; autorewrite with mag; [lia|].
  rewrite IH. ring.
Qed.

Lemma mag_val_snoc a x : mag_val (a ++ [x]) = mag_val a + weight (length a) * x.
Proof. rewrite mag_val_app. cbn [mag_val]. f_equal. ring. Qed.

Lemma mag_val_zeros n : mag_val (replicate n 0) = 0.
Proof. induction n as [|n IH]; cbn [replicate mag_val]; lia. Qed.

Lemma limbs_ok_snoc l x : limbs_ok (l ++ [x]) ↔ limbs_ok l ∧ is_limb x.
Proof. rewrite Forall_app. by rewrite Forall_singleton. Qed.

Lemma limbs_ok_zeros n : limbs_ok (replicate n 0).
Proof. apply Forall_replicate. done. Qed.

Lemma mag_val_bound l : limbs_ok l → 0 <= mag_val l < weight (length l).
Proof.
  induction 1 as [|x l Hx Hl IH]; cbn [mag_val length]; autorewrite with mag; [lia|].
  unfold is_limb in Hx. lia.
Qed.

Lemma limbs_ok_nonneg l : limbs_ok l → 0 <= mag_val l.
Proof. intros H%mag_val_bound. lia. Qed.

(** ** Trimming *)

Lemma pop_zeros_spec l : ∃ k, l = replicate k 0 ++ pop_zeros l ∧ head (pop_zeros l) ≠ Some 0.
Proof.
  induction l as [|x l (k & E & H)]; [by exists 0%nat|].
  destruct x as [|p|p]; [|by exists 0%nat..].
  exists (S k). cbn [pop_zeros replicate app]. by rewrite <- E.
Qed.

Lemma trim_spec l : ∃ k, l = trim l ++ replicate k 0 ∧ trimmed (trim l).
Proof.
  destruct (pop_zeros_spec (reverse l)) as (k & E & H). exists k. unfold trim, trimmed. split.
  - apply (f_equal reverse) in E. by rewrite reverse_involutive, reverse_app, reverse_replicate in E.
  - rewrite last_reverse. done.
Qed.

Lemma trim_val l : mag_val (trim l) = mag_val l.
Proof.
  destruct (trim_spec l) as (k & E & _). rewrite E at 2.
  rewrite mag_val_app, mag_val_zeros. lia.
Qed.

Lemma trim_ok l : limbs_ok l → mag_ok (trim l).
Proof.
  destruct (trim_spec l) as (k & E & H). intros Hl. split; [|done].
  rewrite E in Hl. by apply Forall_app in Hl as [? _].
Qed.

Lemma trim_length l : (length (trim l) ≤ length l)%nat.
Proof. destruct (trim_spec l) as (k & E & _). rewrite E at 2. rewrite length_app. lia. Qed.

Lemma mag_ok_nil : mag_ok [].
Proof. by split; [constructor|]. Qed.

(** The value of a trimmed magnitude determines its length. *)
Lemma trimmed_low l : limbs_ok l → trimmed l → l ≠ [] → weight (pred (length l)) <= mag_val l.
Proof.
  intros Hl Ht Hne. destruct l as [|x l _] using rev_ind; [done|].
  apply limbs_ok_snoc in Hl as [Hl Hx].
  unfold trimmed in Ht. rewrite last_snoc in Ht.
  rewrite mag_val_snoc, length_app, Nat.add_1_r. cbn [pred].
  pose proof (limbs_ok_nonneg _ Hl). pose proof (weight_pos (length l)).
  unfold is_limb in Hx. assert (x ≠ 0) by congruence. nia.
Qed.

Lemma mag_ok_nil_iff l : mag_ok l → (mag_val l = 0 ↔ l = []).
Proof.
  intros [Hl Ht]. split; [|by intros ->]. intros E. destruct l as [|x l]; [done|].
  pose proof (trimmed_low _ Hl Ht ltac:(done)). pose proof (weight_pos (pred (length (x :: l)))). lia.
Qed.

Lemma longer_larger a b : limbs_ok a → mag_ok b → (length a < length b)%nat → mag_val a < mag_val b.
Proof.
  intros Ha [Hb Ht] Hlt. pose proof (mag_val_bound _ Ha).
  assert (Hne : b ≠ []) by (intros ->; simpl in Hlt; lia).
  pose proof (trimmed_low _ Hb Ht Hne).
  pose proof (weight_mono (length a) (pred (length b)) ltac:(lia)). lia.
Qed.

(** ** Comparison *)

Lemma lex_cmp_spec a b : length a = length b → limbs_ok a → limbs_ok b →
  lex_cmp (reverse a) (reverse b) = (mag_val a ?= mag_val b).
Proof.
  revert b. induction a as [|x a IH] using rev_ind; intros b Hlen Ha Hb.
  - by destruct b.
  - destruct b as [|y b _] using rev_ind; [rewrite length_app in Hlen; simpl in Hlen; lia|].
    rewrite !length_app in Hlen. simpl in Hlen.
    apply limbs_ok_snoc in Ha as [Ha Hx], Hb as [Hb Hy].
    rewrite !reverse_snoc. cbn [lex_cmp]. rewrite !mag_val_snoc, IH by (done || lia).
    replace (length b) with (length a) by lia.
    pose proof (mag_val_bound _ Ha). pose proof (mag_val_bound _ Hb).
    replace (length b) with (length a) in * by lia.
    destruct (Z.compare_spec x y) as [->|Hlt|Hlt]; symmetry.
    + destruct (Z.compare_spec (mag_val a) (mag_val b)) as [->|?|?];
        [by rewrite Z.compare_refl|apply Z.compare_lt_iff|apply Z.compare_gt_iff]; lia.
    + apply Z.compare_lt_iff. nia.
    + apply Z.compare_gt_iff. nia.
Qed.

Lemma cmp_mag_spec a b : mag_ok a → mag_ok b → cmp_mag a b = (mag_val a ?= mag_val b).
Proof.
  intros Ha Hb. unfold cmp_mag.
  destruct (Nat.compare_spec (length a) (length b)) as [E|E|E].
  - apply lex_cmp_spec; [done|apply Ha|apply Hb].
  - symmetry. apply Z.compare_lt_iff. apply longer_larger; [apply Ha|done|done].
  - symmetry. apply Z.compare_gt_iff. apply longer_larger; [apply Hb|done|done].
Qed.

Lemma lex_cmp_eq a b : lex_cmp a b = Eq → a = b.
Proof.
  revert b. induction a as [|x a IH]; intros [|y b]; try done. cbn [lex_cmp].
  destruct (Z.compare_spec x y) as [->|?|?]; try done. intros H. by rewrite (IH b).
Qed.

(** Trimmed magnitudes are canonical. *)
Lemma mag_val_inj a b : mag_ok a → mag_ok b → mag_val a = mag_val b → a = b.
Proof.
  intros Ha Hb E. assert (Hc : cmp_mag a b = Eq) by (rewrite cmp_mag_spec by done; by apply Z.compare_eq_iff).
  unfold cmp_mag in Hc. destruct (Nat.compare (length a) (length b)); [|done..].
  apply lex_cmp_eq in Hc. by apply (inj reverse).
Qed.

(** ** Machine words *)

Lemma u64c_ok z : 0 <= z < 2 ^ 64 → u64c z = Some z.
Proof. intros [? ?]. unfold u64c. by rewrite (proj2 (Z.leb_le _ _)), (proj2 (Z.ltb_lt _ _)). Qed.
Lemma i64c_ok z : - 2 ^ 63 <= z < 2 ^ 63 → i64c z = Some z.
Proof. intros [? ?]. unfold i64c. by rewrite (proj2 (Z.leb_le _ _)), (proj2 (Z.ltb_lt _ _)). Qed.

Lemma as_u32_limb z : is_limb (as_u32 z).
Proof. unfold as_u32, is_limb. by apply Z.mod_pos_bound. Qed.
Lemma as_u32_small z : is_limb z → as_u32 z = z.
Proof. intros ?. unfold as_u32. apply Z.mod_small. done. Qed.

(** A word is its low limb and its high limb. *)
Lemma word_split z : z = as_u32 z + BASE * Z.shiftr z 32.
Proof.
  unfold as_u32. rewrite Z.shiftr_div_pow2 by done. change (2 ^ 32) with BASE.
  pose proof (Z.div_mod z BASE). lia.
Qed.

Lemma high_limb z : 0 <= z < BASE * BASE → is_limb (Z.shiftr z 32).
Proof.
  intros ?. unfold is_limb. rewrite Z.shiftr_div_pow2 by done. change (2 ^ 32) with BASE.
  split; [apply Z.div_pos; lia|apply Z.div_lt_upper_bound; lia].
Qed.

(** A difference of limbs and a borrow, and the borrow it leaves. *)
Lemma borrow_split z : - BASE <= z < BASE →
  z = as_u32 z - BASE * flag (z <? 0).
Proof.
  intros ?. unfold as_u32. change (2 ^ 32) with BASE. unfold flag.
  destruct (Z.ltb_spec z 0).
  - rewrite <- (Z_mod_plus_full z 1), Z.mod_small; lia.
  - rewrite Z.mod_small; lia.
Qed.

(** Disjoint bits. *)
Lemma lor_disjoint a b s : 0 <= s → 0 <= b < 2 ^ s → Z.lor (a * 2 ^ s) b = a * 2 ^ s + b.
Proof.
  intros Hs Hb. assert (Hl : Z.land (a * 2 ^ s) b = 0).
  { apply Z.bits_inj'. intros n Hn. rewrite Z.land_spec, Z.bits_0.
    destruct (Z.ltb_spec n s); [by rewrite Z.mul_pow2_bits_low|].
    rewrite <- (Z.mod_small b (2 ^ s)), Z.mod_pow2_bits_high by lia. apply andb_false_r. }
  rewrite <- Z.lxor_lor, <- Z.add_nocarry_lxor by done. done.
Qed.

Lemma word_join h l : is_limb h → is_limb l →
  Z.lor (as_u64 (Z.shiftl h 32)) l = BASE * h + l.
Proof.
  unfold is_limb. intros Hh Hl. unfold as_u64. rewrite Z.shiftl_mul_pow2, Z.mod_small by lia.
  rewrite lor_disjoint by lia. lia.
Qed.

Lemma set_at_ok l k v : (k < length l)%nat → set_at l k v = Some (<[k := v]> l).
Proof. intros. unfold set_at. by rewrite decide_True. Qed.

Lemma app_cons_snoc {A} (pre : list A) x post : pre ++ x :: post = (pre ++ [x]) ++ post.
Proof. by rewrite <- app_assoc. Qed.

(** The element behind a known prefix. *)
Lemma lookup_mid {A} (pre : list A) x post k : k = length pre → (pre ++ x :: post) !! k = Some x.
Proof. intros ->. by apply list_lookup_middle. Qed.
Lemma set_at_mid pre x post k v : k = length pre → set_at (pre ++ x :: post) k v = Some (pre ++ v :: post).
Proof.
  intros ->. rewrite set_at_ok by (rewrite length_app; simpl; lia).
  by rewrite insert_app_r_alt, Nat.sub_diag by lia.
Qed.

(** ** Addition *)

Lemma limb_or_0_ok l i : limbs_ok l → is_limb (limb_or_0 l i).
Proof.
  intros Hl. unfold limb_or_0. destruct (l !! i) eqn:E; simpl; [|done].
  by eapply Forall_lookup_1 in E.
Qed.

(** What the limbs of [short] from [i] on are worth. *)
Lemma drop_limb l i : mag_val (drop i l) = limb_or_0 l i + BASE * mag_val (drop (S i) l).
Proof.
  unfold limb_or_0. destruct (l !! i) as [x|] eqn:E; simpl default.
  - by rewrite (drop_S _ _ _ E).
  - apply lookup_ge_None in E. rewrite !drop_ge by lia. done.
Qed.

Lemma add_loop_ok short : limbs_ok short → ∀ long i out carry,
  limbs_ok long → limbs_ok out → 0 <= carry <= 1 → (length short ≤ i + length long)%nat →
  ∃ out' carry', add_loop short i long out carry = Some (out', carry') ∧
    limbs_ok out' ∧ 0 <= carry' <= 1 ∧ length out' = (length out + length long)%nat ∧
    mag_val out' + weight (length out') * carry' =
      mag_val out + weight (length out) * (mag_val long + mag_val (drop i short) + carry).
Proof.
  intros Hs long. induction long as [|x long IH]; intros i out carry Hl Ho Hc Hlen.
  - exists out, carry. cbn [add_loop mag_val length]. simpl in Hlen.
    rewrite drop_ge by lia. cbn [mag_val]. split_and!; (done || lia).
  - apply Forall_cons in Hl as [Hx Hl]. pose proof (limb_or_0_ok _ i Hs) as Hy.
    unfold is_limb in Hx, Hy. cbn [add_loop].
    rewrite !u64c_ok by lia. cbn [mbind option_bind]. rewrite u64c_ok by lia. cbn [mbind option_bind].
    set (sum := x + limb_or_0 short i + carry).
    pose proof (word_split sum) as Hsum. pose proof (as_u32_limb sum) as Hlo.
    unfold is_limb in Hlo.
    destruct (IH (S i) (out ++ [as_u32 sum]) (Z.shiftr sum 32)) as (out' & c' & E & ? & ? & El & Ev).
    { done. }
    { by apply limbs_ok_snoc. }
    { subst sum. lia. }
    { simpl in Hlen. lia. }
    exists out', c'. split; [done|]. rewrite length_app in El, Ev. simpl length in El, Ev.
    split_and!; [done|lia..|simpl; lia|]. rewrite Ev, mag_val_snoc, (drop_limb short i).
    autorewrite with mag. cbn [mag_val]. subst sum. nia.
Qed.

(** A magnitude whose value needs its last limb is trimmed. *)
Lemma low_trimmed l : limbs_ok l → weight (pred (length l)) <= mag_val l → trimmed l.
Proof.
  intros Hl Hv E. destruct l as [|x l _] using rev_ind; [done|].
  rewrite last_snoc in E. injection E as ->. rewrite mag_val_snoc, length_app, Nat.add_1_r in Hv.
  apply Forall_app in Hl as [Hl _]. pose proof (mag_val_bound _ Hl). simpl in Hv. lia.
Qed.

Lemma add_mag_sorted long short : mag_ok long → limbs_ok short → (length short ≤ length long)%nat →
  ∃ out, ('(out, carry) ← add_loop short 0 long [] 0;
          Some (if carry =? 0 then out else out ++ [as_u32 carry])) = Some out ∧
    mag_ok out ∧ mag_val out = mag_val long + mag_val short.
Proof.
  intros Hl Hs Hlen. pose proof (limbs_ok_nonneg _ Hs).
  destruct (add_loop_ok short Hs long 0 [] 0) as (out & c & -> & Ho & Hc & El & Ev);
    [apply Hl|constructor|lia|simpl; lia|].
  cbn [mbind option_bind]. cbn [length] in El. cbn [mag_val length] in Ev.
  rewrite weight_0, drop_0 in Ev. destruct (Z.eqb_spec c 0) as [->|Hne].
  - exists out. split_and!; [done| |lia..]. split; [done|].
    destruct long as [|x long]; [by destruct out|].
    apply low_trimmed; [done|]. rewrite El, Nat.add_0_l. destruct Hl as [Hl Ht].
    pose proof (trimmed_low _ Hl Ht ltac:(done)). lia.
  - assert (c = 1) as -> by lia. exists (out ++ [1]). split; [done|].
    rewrite mag_val_snoc. split; [|lia]. split.
    + by apply limbs_ok_snoc.
    + unfold trimmed. by rewrite last_snoc.
Qed.

Lemma add_mag_ok a b : mag_ok a → mag_ok b →
  ∃ out, add_mag a b = Some out ∧ mag_ok out ∧ mag_val out = mag_val a + mag_val b.
Proof.
  intros Ha Hb. unfold add_mag. destruct (decide _) as [Hle|Hgt].
  - apply add_mag_sorted; [done|apply Hb|done].
  - destruct (add_mag_sorted b a) as (out & E & Hok & Hv); [done|apply Ha|lia|].
    exists out. split_and!; [done|done|lia].
Qed.

(** ** Subtraction *)

Lemma sub_loop_ok b : limbs_ok b → ∀ a i out borrow,
  limbs_ok a → limbs_ok out → 0 <= borrow <= 1 → (length b ≤ i + length a)%nat →
  ∃ out' borrow', sub_loop b i a out borrow = Some out' ∧
    limbs_ok out' ∧ 0 <= borrow' <= 1 ∧ length out' = (length out + length a)%nat ∧
    mag_val out' - weight (length out') * borrow' =
      mag_val out + weight (length out) * (mag_val a - mag_val (drop i b) - borrow).
Proof.
  intros Hb a. induction a as [|x a IH]; intros i out borrow Ha Ho Hbo Hlen.
  - exists out, borrow. cbn [sub_loop mag_val length]. simpl in Hlen.
    rewrite drop_ge by lia. cbn [mag_val]. split_and!; (done || lia).
  - apply Forall_cons in Ha as [Hx Ha]. pose proof (limb_or_0_ok _ i Hb) as Hy.
    unfold is_limb in Hx, Hy. cbn [sub_loop].
    rewrite i64c_ok by lia. cbn [mbind option_bind]. rewrite i64c_ok by lia. cbn [mbind option_bind].
    set (diff := x - limb_or_0 b i - borrow).
    pose proof (borrow_split diff ltac:(subst diff; lia)) as Hd.
    destruct (IH (S i) (out ++ [as_u32 diff]) (flag (diff <? 0))) as (out' & c' & E & ? & ? & El & Ev).
    { done. }
    { apply limbs_ok_snoc. split; [done|apply as_u32_limb]. }
    { unfold flag. destruct (diff <? 0); lia. }
    { simpl in Hlen. lia. }
    exists out', c'. split; [done|]. rewrite length_app in El, Ev. simpl length in El, Ev.
    split_and!; [done|lia..|simpl; lia|]. rewrite Ev, mag_val_snoc, (drop_limb b i).
    autorewrite with mag. cbn [mag_val]. subst diff. nia.
Qed.

Lemma sub_mag_ok a b : limbs_ok a → mag_ok b → mag_val b <= mag_val a →
  ∃ out, sub_mag a b = Some out ∧ mag_ok out ∧ mag_val out = mag_val a - mag_val b.
Proof.
  intros Ha Hb Hle. unfold sub_mag.
  assert (Hlen : (length b ≤ length a)%nat).
  { destruct (decide (length a < length b)%nat) as [Hlt|]; [|lia].
    pose proof (longer_larger a b Ha Hb Hlt). lia. }
  destruct (sub_loop_ok b (proj1 Hb) a 0 [] 0) as (out & c & -> & Ho & Hc & El & Ev);
    [done|constructor|lia|simpl; lia|].
  cbn [mbind option_bind length] in *. exists (trim out). split_and!; [done|by apply trim_ok|].
  rewrite trim_val. cbn [mag_val length] in Ev. rewrite weight_0, drop_0 in Ev.
  pose proof (mag_val_bound _ Ho). assert (c = 0 ∨ c = 1) as [-> | ->] by lia; lia.
Qed.

(** ** Multiplication *)

Lemma mul_row_ok x i : is_limb x → ∀ b j pre ys post carry,
  limbs_ok b → limbs_ok ys → length ys = length b → length pre = (i + j)%nat → is_limb carry →
  ∃ zs carry', mul_row x i j b (pre ++ ys ++ post) carry = Some (pre ++ zs ++ post, carry') ∧
    limbs_ok zs ∧ length zs = length ys ∧ is_limb carry' ∧
    mag_val zs + weight (length zs) * carry' = mag_val ys + x * mag_val b + carry.
Proof.
  intros Hx b. induction b as [|y b IH]; intros j pre ys post carry Hb Hys Hlen Hpre Hc.
  - destruct ys as [|? ys]; [|done]. exists [], carry. cbn [mul_row mag_val length app].
    rewrite weight_0. split_and!; (done || lia).
  - destruct ys as [|o ys]; [done|]. apply Forall_cons in Hb as [Hy Hb], Hys as [Ho Hys].
    cbn [mul_row app]. rewrite lookup_mid by done. unfold is_limb in Hx, Hy, Ho, Hc.
    assert (x * y <= (BASE - 1) * (BASE - 1)) by nia. assert (0 <= x * y) by nia.
    cbn [mbind option_bind]. rewrite u64c_ok by lia. cbn [mbind option_bind].
    rewrite u64c_ok by lia. cbn [mbind option_bind]. rewrite u64c_ok by lia. cbn [mbind option_bind].
    rewrite set_at_mid by done. cbn [mbind option_bind]. set (cell := o + x * y + carry).
    pose proof (word_split cell) as Hs. rewrite app_cons_snoc.
    destruct (IH (S j) (pre ++ [as_u32 cell]) ys post (Z.shiftr cell 32)) as (zs & c' & E & Hz & El & Hc' & Ev).
    { done. } { done. } { simpl in Hlen. lia. } { rewrite length_app. simpl. lia. }
    { apply high_limb. subst cell. lia. }
    exists (as_u32 cell :: zs), c'. rewrite E, <- app_assoc. split; [done|].
    cbn [length mag_val]. autorewrite with mag. subst cell. split_and!.
    + apply Forall_cons. split; [apply as_u32_limb|done].
    + by f_equal.
    + done.
    + nia.
Qed.

Lemma mul_rows_ok b : limbs_ok b → ∀ a i pre ys,
  limbs_ok a → limbs_ok ys → length pre = i → length ys = length b → limbs_ok pre →
  ∃ out, mul_rows i a b (pre ++ ys ++ replicate (length a) 0) = Some out ∧ limbs_ok out ∧
    mag_val out = mag_val pre + weight i * (mag_val ys + mag_val a * mag_val b).
Proof.
  intros Hb a. induction a as [|x a IH]; intros i pre ys Ha Hys Hpre Hlen Hp; cbn [mul_rows length replicate].
  - exists (pre ++ ys ++ []). split; [done|]. rewrite app_nil_r. split; [by apply Forall_app|].
    rewrite mag_val_app, Hpre. cbn [mag_val]. f_equal. f_equal. lia.
  - apply Forall_cons in Ha as [Hx Ha].
    destruct (mul_row_ok x i Hx b 0 pre ys (0 :: replicate (length a) 0) 0)
      as (zs & c & -> & Hz & El & Hc & Ev); [done|done|done|lia|done|].
    cbn [mbind option_bind]. rewrite app_assoc, set_at_mid by (rewrite length_app; lia).
    rewrite as_u32_small by done. cbn [mbind option_bind].
    destruct zs as [|z zs].
    + destruct b as [|? b]; [|simpl in *; lia]. destruct ys as [|]; [|done].
      cbn [app]. rewrite app_nil_r.
      destruct (IH (S i) (pre ++ [c]) []) as (out & E & Ho & Hv);
        [done|done|rewrite length_app; simpl; lia|done|by apply limbs_ok_snoc|].
      exists out. rewrite app_cons_snoc. split_and!; [done|done|].
      rewrite Hv, mag_val_snoc, Hpre. cbn [mag_val length] in *. rewrite weight_0 in Ev.
      autorewrite with mag. nia.
    + apply Forall_cons in Hz as [Hz0 Hz].
      destruct (IH (S i) (pre ++ [z]) (zs ++ [c])) as (out & E & Ho & Hv).
      { done. } { by apply limbs_ok_snoc. }
      { rewrite length_app. simpl. lia. } { rewrite length_app. simpl in *. lia. }
      { by apply limbs_ok_snoc. }
      exists out. split_and!; [|done|].
      * rewrite <- E. f_equal. by rewrite <- !app_assoc.
      * rewrite Hv, !mag_val_snoc, Hpre. cbn [mag_val length] in *. autorewrite with mag in *. nia.
Qed.

Lemma mul_mag_ok a b : limbs_ok a → limbs_ok b →
  ∃ out, mul_mag a b = Some out ∧ mag_ok out ∧ mag_val out = mag_val a * mag_val b.
Proof.
  intros Ha Hb. unfold mul_mag. destruct (_ || _) eqn:E.
  - exists []. split_and!; [done|apply mag_ok_nil|]. apply orb_true_iff in E as [E|E];
      apply bool_decide_eq_true in E as ->; cbn [mag_val]; lia.
  - rewrite (Nat.add_comm (length a)), replicate_add.
    destruct (mul_rows_ok b Hb a 0 [] (replicate (length b) 0)) as (out & E' & Ho & Hv);
      [done|apply limbs_ok_zeros|done|by rewrite length_replicate|done|].
    cbn [app] in E'. rewrite E'. cbn [mbind option_bind]. exists (trim out).
    split_and!; [done|by apply trim_ok|]. rewrite trim_val, Hv, mag_val_zeros, weight_0.
    cbn [mag_val]. lia.
Qed.

(** * Long division of magnitudes

    [divrem_limb] and [divrem_mag] (Knuth's algorithm D) compute quotient and
    remainder: the estimated digit is never too small and at most one too large,
    the correction loop ends within its fuel, the multiply-and-subtract loop
    borrows from the top limb exactly when the estimate was too large, and
    adding the divisor back repairs it.  No step overflows a 64-bit word or
    indexes out of range. *)

(** An invariant of a descending loop. *)
Lemma for_down_inv {S : Type} (P : nat → S → Prop) body count s :
  P count s →
  (∀ j s, (j < count)%nat → P (Datatypes.S j) s → ∃ s', body j s = Some s' ∧ P j s') →
  ∃ s', for_down body count s = Some s' ∧ P 0%nat s'.
Proof.
  revert s. induction count as [|j IH]; intros s Hs Hstep; [by exists s|].
  destruct (Hstep j s) as (s1 & E & H1); [lia|done|].
  cbn [for_down]. rewrite E. cbn [mbind option_bind]. apply IH; [done|]. intros; apply Hstep; [lia|done].
Qed.

(** ** Division by one limb *)

Lemma divrem_limb_step_ok u d j hi rem : limbs_ok u → 0 < d < BASE → 0 <= rem < d → (j < length u)%nat →
  ∃ q rem', divrem_limb_step u d j (replicate (S j) 0 ++ hi, rem) = Some (replicate j 0 ++ q :: hi, rem') ∧
    is_limb q ∧ 0 <= rem' < d ∧ BASE * rem + limb_or_0 u j = d * q + rem'.
Proof.
  intros Hu Hd Hr Hj. unfold divrem_limb_step, limb_or_0.
  destruct (lookup_lt_is_Some_2 u j Hj) as [x E]. rewrite E. cbn [mbind option_bind default].
  pose proof (Forall_lookup_1 _ _ _ _ Hu E) as Hx. rewrite word_join by (unfold is_limb in *; lia).
  unfold div_u64, rem_u64. rewrite (proj2 (Z.eqb_neq d 0)) by lia. cbn [mbind option_bind].
  set (cur := BASE * rem + x). rewrite replicate_S_end, <- app_assoc. cbn [app].
  unfold is_limb in Hx. assert (Hq : is_limb (cur / d)).
  { split; [apply Z.div_pos; subst cur; lia|apply Z.div_lt_upper_bound; subst cur; nia]. }
  rewrite as_u32_small, set_at_mid by (done || by rewrite length_replicate). cbn [mbind option_bind].
  exists (cur / d), (cur mod d). split_and!; try done; [apply Z.mod_pos_bound; lia..|].
  subst cur. apply Z.div_mod. lia.
Qed.

Lemma divrem_limb_ok u d : limbs_ok u → 0 < d < BASE →
  ∃ q, divrem_limb u d = Some (q, mag_val u mod d) ∧ mag_ok q ∧ mag_val q = mag_val u / d.
Proof.
  intros Hu Hd. unfold divrem_limb.
  destruct (for_down_inv (λ j st, ∃ hi rem, st = (replicate j 0 ++ hi, rem) ∧ limbs_ok hi ∧
      0 <= rem < d ∧ mag_val (drop j u) = d * mag_val hi + rem)
    (divrem_limb_step u d) (length u) (replicate (length u) 0, 0)) as (st & -> & hi & rem & -> & Hh & Hr & Ev).
  { exists [], 0. rewrite app_nil_r, drop_ge by done. cbn [mag_val]. split_and!; (done || lia). }
  { intros j st Hj (hi & rem & -> & Hh & Hr & Ev).
    destruct (divrem_limb_step_ok u d j hi rem) as (q & rem' & E & Hq & Hr' & Es); [done..|].
    eexists; split; [exact E|]. exists (q :: hi), rem'. split_and!; try done; [by constructor|lia..|].
    rewrite drop_limb, Ev. cbn [mag_val]. lia. }
  cbn [mbind option_bind replicate app]. exists (trim hi). rewrite drop_0 in Ev.
  assert (mag_val u / d = mag_val hi) as -> by (symmetry; apply (Z.div_unique_pos _ _ _ rem); lia).
  assert (mag_val u mod d = rem) as -> by (symmetry; apply (Z.mod_unique_pos _ _ (mag_val hi)); lia).
  rewrite as_u32_small by (unfold is_limb; lia). split_and!; [done|by apply trim_ok|apply trim_val].
Qed.

(** ** The normalisation shift *)

Lemma leading_zeros_ok x : 0 < x < BASE →
  0 <= leading_zeros x < 32 ∧ 2 ^ 31 <= x * 2 ^ leading_zeros x ∧ (x + 1) * 2 ^ leading_zeros x <= BASE.
Proof.
  intros Hx. unfold leading_zeros. rewrite (proj2 (Z.eqb_neq x 0)) by lia.
  pose proof (Z.log2_spec x ltac:(lia)) as [Hlo Hhi]. pose proof (Z.log2_nonneg x).
  assert (Z.log2 x < 32) by (apply Z.log2_lt_pow2; lia).
  assert (E31 : 2 ^ 31 = 2 ^ Z.log2 x * 2 ^ (31 - Z.log2 x)) by (rewrite <- Z.pow_add_r by lia; f_equal; lia).
  assert (E32 : BASE = 2 ^ Z.succ (Z.log2 x) * 2 ^ (31 - Z.log2 x)).
  { change BASE with (2 ^ 32). rewrite <- Z.pow_add_r by lia. f_equal. lia. }
  assert (0 < 2 ^ (31 - Z.log2 x)) by (apply Z.pow_pos_nonneg; lia).
  split; [lia|]. rewrite E31, E32. split; apply Z.mul_le_mono_nonneg_r; lia.
Qed.

(** A limb shifted left: what stays and what is shifted out. *)
Lemma shl_limb s x c : 0 <= s < 32 → is_limb x → 0 <= c < 2 ^ s →
  is_limb (Z.lor (as_u32 (Z.shiftl x s)) c) ∧ 0 <= Z.shiftr x (32 - s) < 2 ^ s ∧
  Z.lor (as_u32 (Z.shiftl x s)) c + BASE * Z.shiftr x (32 - s) = x * 2 ^ s + c.
Proof.
  intros Hs Hx Hc. unfold is_limb in *. unfold as_u32.
  rewrite Z.shiftl_mul_pow2, Z.shiftr_div_pow2 by lia.
  assert (Ep : 2 ^ 32 = 2 ^ (32 - s) * 2 ^ s) by (rewrite <- Z.pow_add_r by lia; f_equal; lia).
  assert (0 < 2 ^ s) by (apply Z.pow_pos_nonneg; lia).
  assert (0 < 2 ^ (32 - s)) by (apply Z.pow_pos_nonneg; lia).
  rewrite Ep, Z.mul_mod_distr_r by lia. rewrite lor_disjoint by lia.
  pose proof (Z.mod_pos_bound x (2 ^ (32 - s)) ltac:(lia)).
  pose proof (Z.div_mod x (2 ^ (32 - s)) ltac:(lia)).
  assert (0 <= x / 2 ^ (32 - s)) by (apply Z.div_pos; lia).
  change BASE with (2 ^ 32) in *. rewrite Ep in *. split_and!; try nia.
Qed.

Lemma shl_loop_ok s : 0 <= s < 32 → ∀ x out carry, limbs_ok x → limbs_ok out → 0 <= carry < 2 ^ s →
  ∃ out' carry', shl_loop s x out carry = (out', carry') ∧ limbs_ok out' ∧ 0 <= carry' < 2 ^ s ∧
    length out' = (length out + length x)%nat ∧
    mag_val out' + weight (length out') * carry' =
      mag_val out + weight (length out) * (mag_val x * 2 ^ s + carry).
Proof.
  intros Hs x. induction x as [|l x IH]; intros out carry Hx Ho Hc.
  - exists out, carry. cbn [shl_loop mag_val length]. split_and!; (done || lia).
  - apply Forall_cons in Hx as [Hl Hx]. cbn [shl_loop].
    destruct (shl_limb s l carry) as (Hlo & Hhi & Es); [done..|].
    assert ((if s =? 0 then l else Z.lor (as_u32 (Z.shiftl l s)) carry) =
                  Z.lor (as_u32 (Z.shiftl l s)) carry ∧
                  (if s =? 0 then 0 else Z.shiftr l (32 - s)) = Z.shiftr l (32 - s)) as [-> ->].
    { destruct (Z.eqb_spec s 0) as [->|]; [|done]. change (2 ^ 0) with 1 in *.
      split; lia. }
    destruct (IH (out ++ [Z.lor (as_u32 (Z.shiftl l s)) carry]) (Z.shiftr l (32 - s)))
      as (out' & c' & E & ? & ? & El & Ev); [done|by apply limbs_ok_snoc|done|].
    exists out', c'. rewrite length_app in El, Ev. simpl length in El, Ev.
    split_and!; [done|done|lia..|simpl; lia|]. rewrite Ev, mag_val_snoc.
    autorewrite with mag. cbn [mag_val]. nia.
Qed.

Lemma shl_extra_ok s x : 0 <= s < 32 → limbs_ok x →
  limbs_ok (shl s x true) ∧ length (shl s x true) = S (length x) ∧
  mag_val (shl s x true) = mag_val x * 2 ^ s.
Proof.
  intros Hs Hx. unfold shl. assert (0 < 2 ^ s) by (apply Z.pow_pos_nonneg; lia).
  assert (2 ^ s <= 2 ^ 32) by (apply Z.pow_le_mono_r; lia).
  destruct (shl_loop_ok s Hs x [] 0) as (out & c & -> & Ho & Hc & El & Ev); [done|constructor|lia|].
  rewrite limbs_ok_snoc, length_app, mag_val_snoc, Ev. cbn [length mag_val] in *.
  split_and!; [done|unfold is_limb; lia..|lia|rewrite weight_0; lia].
Qed.

Lemma shl_fits_ok s x : 0 <= s < 32 → limbs_ok x → mag_val x * 2 ^ s < weight (length x) →
  limbs_ok (shl s x false) ∧ length (shl s x false) = length x ∧
  mag_val (shl s x false) = mag_val x * 2 ^ s.
Proof.
  intros Hs Hx Hfit. unfold shl. assert (0 < 2 ^ s) by (apply Z.pow_pos_nonneg; lia).
  destruct (shl_loop_ok s Hs x [] 0) as (out & c & -> & Ho & Hc & El & Ev); [done|constructor|lia|].
  cbn [length mag_val] in *. rewrite weight_0 in Ev. rewrite Nat.add_0_l in El.
  rewrite El in Ev. pose proof (limbs_ok_nonneg _ Ho). pose proof (weight_pos (length x)).
  assert (c = 0) as -> by nia. split_and!; [done|done|lia].
Qed.

(** ** The estimated digit *)

Section Estimate.
(** The divisor's two leading limbs, the dividend's three, and a digit [q]
    that is not too large. *)
Context (top second high mid low q : Z).
Context (Htop : 2 ^ 31 <= top < BASE) (Hsecond : is_limb second).
Context (Hhigh : 0 <= high <= top) (Hmid : is_limb mid) (Hlow : is_limb low).
Context (Hq : 0 <= q < BASE) (Hq3 : q * (top * BASE + second) <= (high * BASE + mid) * BASE + low).

Lemma qhat_loop_ok fuel : ∀ qhat rhat,
  qhat * top + rhat = high * BASE + mid → 0 <= rhat < BASE → q <= qhat <= BASE + 1 →
  BASE - rhat <= Z.of_nat fuel * top →
  ∃ qh rh, qhat_loop fuel top second low qhat rhat = Some (qh, rh) ∧ q <= qh < BASE ∧
    qh * (top * BASE + second) <= (high * BASE + mid) * BASE + low.
Proof using Htop Hsecond Hhigh Hmid Hlow Hq Hq3.
  unfold is_limb in *. induction fuel as [|fuel IH]; intros qhat rhat E Hr Hb Hf; [lia|].
  cbn [qhat_loop]. rewrite word_join by done.
  assert (Hsmall : qhat < BASE → 0 <= qhat * second < 2 ^ 64) by (intros; nia).
  assert (Hdec : (BASE <= qhat ∨ BASE * rhat + low < qhat * second) → q <= qhat - 1).
  { intros [?|?]; [lia|]. assert (q ≠ qhat); [|lia]. intros ->.
    replace (qhat * (top * BASE + second)) with (qhat * top * BASE + qhat * second) in Hq3 by ring. lia. }
  destruct (Z.leb_spec BASE qhat) as [Hge|Hlt]; cbn [mbind option_bind].
  2: rewrite (u64c_ok (qhat * second)) by (apply Hsmall; lia); cbn [mbind option_bind].
  2: destruct (Z.ltb_spec (BASE * rhat + low) (qhat * second)) as [Hbig|Hfit].
  3: { exists qhat, rhat. split_and!; [done|lia..|].
       replace (qhat * (top * BASE + second)) with (qhat * top * BASE + qhat * second) by ring. lia. }
  all: rewrite (u64c_ok (qhat - 1)) by lia; cbn [mbind option_bind]; rewrite u64c_ok by lia; cbn [mbind option_bind].
  all: destruct (Z.leb_spec BASE (rhat + top)); [|apply IH; lia].
  all: assert (qhat - 1 < BASE) by (destruct (decide (qhat = BASE + 1)) as [->|]; lia).
  all: exists (qhat - 1), (rhat + top); split_and!; [done|lia..|].
  all: assert ((qhat - 1) * second <= BASE * BASE) by (apply Z.mul_le_mono_nonneg; lia).
  all: replace ((qhat - 1) * (top * BASE + second))
         with (qhat * top * BASE - top * BASE + (qhat - 1) * second) by ring; lia.
Qed.
End Estimate.

(** ** Multiply and subtract, add back *)

Lemma land_low z : Z.land z 0xFFFFFFFF = as_u32 z.
Proof. change 0xFFFFFFFF with (Z.ones 32). unfold as_u32. by apply Z.land_ones. Qed.

Lemma as_i64_small z : 0 <= z < 2 ^ 63 → as_i64 z = z.
Proof. intros ?. unfold as_i64. rewrite Z.mod_small by lia. by rewrite (proj2 (Z.ltb_lt _ _)) by lia. Qed.

Lemma flag_bound c : 0 <= flag c <= 1.
Proof. destruct c; simpl; lia. Qed.

Lemma mulsub_step_ok vn qhat j i v pre x post borrow carry :
  vn !! i = Some v → length pre = (i + j)%nat → is_limb qhat → is_limb v → is_limb x →
  0 <= borrow <= 1 → is_limb carry →
  let product := qhat * v + carry in
  let diff := x - borrow - as_u32 product in
  mulsub_step vn qhat j i (pre ++ x :: post, borrow, carry) =
    Some (pre ++ as_u32 diff :: post, flag (diff <? 0), Z.shiftr product 32) ∧
  is_limb (Z.shiftr product 32) ∧
  x - qhat * v - borrow - carry = as_u32 diff - BASE * (flag (diff <? 0) + Z.shiftr product 32).
Proof.
  intros Ev Hpre Hq Hv Hx Hb Hc product diff. unfold mulsub_step. unfold is_limb in Hq, Hv, Hx, Hc.
  assert (0 <= qhat * v <= (BASE - 1) * (BASE - 1)) by nia.
  pose proof (as_u32_limb product) as Hlow. unfold is_limb in Hlow.
  rewrite Ev. cbn [mbind option_bind]. rewrite u64c_ok by lia. cbn [mbind option_bind].
  rewrite u64c_ok by lia. cbn [mbind option_bind].
  rewrite lookup_mid by lia. cbn [mbind option_bind]. rewrite land_low.
  fold product. rewrite as_i64_small by lia. rewrite i64c_ok by lia. cbn [mbind option_bind].
  rewrite i64c_ok by lia. cbn [mbind option_bind]. rewrite set_at_mid by lia. cbn [mbind option_bind].
  split_and!; [done|apply high_limb; subst product; lia..|].
  pose proof (word_split product). pose proof (borrow_split diff ltac:(subst diff; lia)).
  subst diff product. lia.
Qed.

Lemma addback_step_ok vn j i v pre x post carry :
  vn !! i = Some v → length pre = (i + j)%nat → is_limb v → is_limb x → 0 <= carry <= 1 →
  let sum := x + v + carry in
  addback_step vn j i (pre ++ x :: post, carry) =
    Some (pre ++ as_u32 sum :: post, Z.shiftr sum 32) ∧
  0 <= Z.shiftr sum 32 <= 1 ∧ sum = as_u32 sum + BASE * Z.shiftr sum 32.
Proof.
  intros Ev Hpre Hv Hx Hc sum. unfold addback_step. unfold is_limb in Hv, Hx.
  pose proof (as_u32_limb sum) as Hlow. unfold is_limb in Hlow. pose proof (word_split sum).
  rewrite lookup_mid by lia. cbn [mbind option_bind]. rewrite Ev. cbn [mbind option_bind].
  rewrite u64c_ok by lia. cbn [mbind option_bind]. rewrite u64c_ok by lia. cbn [mbind option_bind].
  rewrite set_at_mid by lia. split_and!; [done|subst sum; lia..|done].
Qed.

Lemma mulsub_loop_ok vn qhat j : is_limb qhat → ∀ vs vpre pre xs post borrow carry,
  vn = vpre ++ vs → length pre = (length vpre + j)%nat → length xs = length vs →
  limbs_ok vs → limbs_ok xs → 0 <= borrow <= 1 → is_limb carry →
  ∃ ys borrow' carry',
    for_up (mulsub_step vn qhat j) (length vpre) (length vs) (pre ++ xs ++ post, borrow, carry) =
      Some (pre ++ ys ++ post, borrow', carry') ∧
    limbs_ok ys ∧ length ys = length xs ∧ 0 <= borrow' <= 1 ∧ is_limb carry' ∧
    mag_val ys - weight (length vs) * (borrow' + carry') = mag_val xs - qhat * mag_val vs - borrow - carry.
Proof.
  intros Hq vs. induction vs as [|v vs IH]; intros vpre pre xs post borrow carry Hvn Hpre Hlen Hvs Hxs Hb Hc.
  - destruct xs; [|done]. exists [], borrow, carry. cbn [for_up length mag_val app]. rewrite weight_0.
    split_and!; (done || lia).
  - destruct xs as [|x xs]; [done|]. apply Forall_cons in Hvs as [Hv Hvs], Hxs as [Hx Hxs].
    cbn [for_up length app].
    destruct (mulsub_step_ok vn qhat j (length vpre) v pre x (xs ++ post) borrow carry)
      as (Es & Hc1 & Ed); [by rewrite Hvn, lookup_mid|done..|].
    set (product := qhat * v + carry) in *. set (diff := x - borrow - as_u32 product) in *.
    rewrite Es, app_cons_snoc. cbn [mbind option_bind].
    destruct (IH (vpre ++ [v]) (pre ++ [as_u32 diff]) xs post (flag (diff <? 0)) (Z.shiftr product 32))
      as (ys & b' & c' & E & Hy & Ely & Hb' & Hc' & Ev).
    { by rewrite <- app_assoc. } { rewrite !length_app. simpl. lia. } { simpl in Hlen. lia. }
    { done. } { done. } { apply flag_bound. } { done. }
    rewrite length_app, Nat.add_1_r in E. exists (as_u32 diff :: ys), b', c'.
    rewrite E, <- app_assoc. split; [done|].
    cbn [mag_val]. autorewrite with mag. split_and!; [|simpl; lia|lia..|done|].
    + constructor; [apply as_u32_limb|done].
    + nia.
Qed.

Lemma addback_loop_ok vn j : ∀ vs vpre pre xs post carry,
  vn = vpre ++ vs → length pre = (length vpre + j)%nat → length xs = length vs →
  limbs_ok vs → limbs_ok xs → 0 <= carry <= 1 →
  ∃ ys carry',
    for_up (addback_step vn j) (length vpre) (length vs) (pre ++ xs ++ post, carry) =
      Some (pre ++ ys ++ post, carry') ∧
    limbs_ok ys ∧ length ys = length xs ∧ 0 <= carry' <= 1 ∧
    mag_val ys + weight (length vs) * carry' = mag_val xs + mag_val vs + carry.
Proof.
  intros vs. induction vs as [|v vs IH]; intros vpre pre xs post carry Hvn Hpre Hlen Hvs Hxs Hc.
  - destruct xs; [|done]. exists [], carry. cbn [for_up length mag_val app]. rewrite weight_0.
    split_and!; (done || lia).
  - destruct xs as [|x xs]; [done|]. apply Forall_cons in Hvs as [Hv Hvs], Hxs as [Hx Hxs].
    cbn [for_up length app].
    destruct (addback_step_ok vn j (length vpre) v pre x (xs ++ post) carry)
      as (Es & Hc1 & Ed); [by rewrite Hvn, lookup_mid|done..|].
    set (sum := x + v + carry) in *. rewrite Es, app_cons_snoc. cbn [mbind option_bind].
    destruct (IH (vpre ++ [v]) (pre ++ [as_u32 sum]) xs post (Z.shiftr sum 32))
      as (ys & c' & E & Hy & Ely & Hc' & Ev).
    { by rewrite <- app_assoc. } { rewrite !length_app. simpl. lia. } { simpl in Hlen. lia. }
    { done. } { done. } { done. }
    rewrite length_app, Nat.add_1_r in E. exists (as_u32 sum :: ys), c'.
    rewrite E, <- app_assoc. split; [done|].
    cbn [mag_val]. autorewrite with mag. split_and!; [|simpl; lia|lia..|].
    + constructor; [apply as_u32_limb|done].
    + subst sum. nia.
Qed.

(** ** One digit of the quotient *)

(** The estimate from the leading limbs, for a dividend below [BASE] times the
    divisor.  [w] is the weight of the limbs below the leading ones, [ul] and
    [vl] what these are worth. *)
Lemma estimate_ok w ul vl low mid high second top :
  0 < w → 0 <= ul < w → 0 <= vl < w → is_limb low → is_limb mid → is_limb high → is_limb second →
  2 ^ 31 <= top < BASE →
  let u3 := (high * BASE + mid) * BASE + low in
  let v2 := top * BASE + second in
  ul + w * u3 < (vl + w * v2) * BASE →
  let q := (ul + w * u3) / (vl + w * v2) in
  0 <= q < BASE ∧ q * v2 <= u3 ∧ high <= top ∧ q <= (high * BASE + mid) / top <= BASE + 1.
Proof.
  intros Hw Hul Hvl Hlow Hmid Hhigh Hsec Htop u3 v2 Hlt q. unfold is_limb in Hlow, Hmid, Hhigh, Hsec.
  assert (Hv2 : 0 < v2) by (subst v2; lia). assert (Hu3 : 0 <= u3) by (subst u3; lia).
  set (V := vl + w * v2) in *. set (U := ul + w * u3) in *.
  assert (HV : 0 < V) by (subst V; nia). assert (HU : 0 <= U) by (subst U; nia).
  assert (Hq0 : 0 <= q) by (apply Z.div_pos; lia).
  assert (HqB : q < BASE) by (apply Z.div_lt_upper_bound; lia).
  assert (HqV : q * V <= U) by (pose proof (Z.mul_div_le U V HV); subst q; lia).
  assert (Hq3 : q * v2 <= u3).
  { assert (w * (q * v2) <= q * V) by (subst V; nia). assert (U < w * (u3 + 1)) by (subst U; nia). nia. }
  assert (Hhi : high <= top).
  { assert (w * u3 < w * ((v2 + 1) * BASE)) by (subst U V; nia).
    assert (u3 < (v2 + 1) * BASE) by nia. subst u3 v2. lia. }
  split_and!; [lia..| |].
  - apply Z.div_le_lower_bound; [lia|]. subst u3 v2. nia.
  - assert ((high * BASE + mid) / top < BASE + 2); [|lia]. apply Z.div_lt_upper_bound; lia.
Qed.

(** An estimate within the leading limbs is at most one too large. *)
Lemma estimate_close w ul vl u3 v2 qh :
  0 < w → 0 <= ul → 0 <= vl < w → BASE <= v2 → 0 <= qh < BASE → qh * v2 <= u3 →
  qh * (vl + w * v2) < ul + w * u3 + (vl + w * v2).
Proof.
  intros. assert (w * (qh * v2) <= w * u3) by (apply Z.mul_le_mono_nonneg_l; lia).
  assert (qh * vl < BASE * w) by nia. assert (w * BASE <= w * v2) by (apply Z.mul_le_mono_nonneg_l; lia).
  replace (qh * (vl + w * v2)) with (qh * vl + w * (qh * v2)) by ring. lia.
Qed.

Lemma last_three {A} (l : list A) k : length l = (k + 3)%nat →
  ∃ lo a b c, l = lo ++ [a; b; c] ∧ length lo = k.
Proof.
  intros Hl. destruct (drop k l) as [|a [|b [|c [|]]]] eqn:E;
    (assert (Hd : length (drop k l) = 3%nat) by (rewrite length_drop; lia)); rewrite E in Hd; try done.
  exists (take k l), a, b, c. rewrite <- E, take_drop, length_take. split; [done|lia].
Qed.

Lemma lookup_three {A} (lo wl : list A) low mid high zs k : length wl = k →
  let un := lo ++ wl ++ low :: mid :: high :: zs in
  un !! (length lo + (k + 2))%nat = Some high ∧ un !! (length lo + (k + 2) - 1)%nat = Some mid ∧
  un !! (length lo + (k + 2) - 2)%nat = Some low.
Proof.
  intros Hk un. subst un. rewrite app_assoc. split_and!.
  - change (low :: mid :: high :: zs) with ([low; mid] ++ high :: zs). rewrite app_assoc.
    apply lookup_mid. rewrite !length_app. simpl. lia.
  - rewrite app_cons_snoc. apply lookup_mid. rewrite !length_app. simpl. lia.
  - apply lookup_mid. rewrite length_app. lia.
Qed.

Section Digit.
Context (vl : list Z) (second top : Z).
Abbreviation vn := (vl ++ [second; top]).
Abbreviation n := (length vl + 2)%nat.
Context (Hvl : limbs_ok vl) (Hsecond : is_limb second) (Htop : 2 ^ 31 <= top < BASE).

Lemma vn_length : length vn = n.
Proof. rewrite length_app. simpl. lia. Qed.
Lemma vn_ok : limbs_ok vn.
Proof using Hvl Hsecond Htop.
  apply Forall_app. split; [done|]. repeat constructor; unfold is_limb in *; lia.
Qed.
Lemma vn_val : mag_val vn = mag_val vl + weight (length vl) * (top * BASE + second).
Proof. rewrite mag_val_app. cbn [mag_val]. f_equal. f_equal. ring. Qed.

(** The part of the body behind the correction loop, for an estimate [qh] of
    the digit that is at most one too large. *)
Lemma subtract_ok lo w1 h zs qh :
  limbs_ok w1 → length w1 = n → is_limb h → is_limb qh →
  let U := mag_val w1 + weight n * h in
  U / mag_val vn <= qh → qh * mag_val vn < U + mag_val vn →
  ∃ ys borrow carry diff,
    for_up (mulsub_step vn qh (length lo)) 0 n (lo ++ w1 ++ h :: zs, 0, 0) =
      Some (lo ++ ys ++ h :: zs, borrow, carry) ∧
    i64c (h - borrow) = Some (h - borrow) ∧ i64c (h - borrow - as_i64 carry) = Some diff ∧
    limbs_ok ys ∧ length ys = n ∧
    mag_val ys + weight n * diff = U - qh * mag_val vn ∧
    (diff = 0 ∨ (diff = - 1 ∧ 1 <= qh)).
Proof using Hvl Hsecond Htop.
  intros Hw Hlw Hh Hqh U Hge Hlt. pose proof vn_ok as Hvn. pose proof vn_length as Hn.
  destruct (mulsub_loop_ok vn qh (length lo) Hqh vn [] lo w1 (h :: zs) 0 0)
    as (ys & b & c & E & Hy & Ely & Hb & Hc & Ev); [done|done|lia|done|done|lia|done|].
  rewrite Hn in *. cbn [length] in E. unfold is_limb in *.
  exists ys, b, c, (h - b - c). rewrite (as_i64_small c), !i64c_ok by lia.
  assert (Evd : mag_val ys + weight n * (h - b - c) = U - qh * mag_val vn) by (subst U; lia).
  split_and!; [done..|lia|done|].
  pose proof (mag_val_bound _ Hy). pose proof (mag_val_bound _ Hvn). rewrite Hn in *.
  replace (length ys) with n in * by lia.
  assert (HV : 0 < mag_val vn) by (rewrite vn_val; pose proof (weight_pos (length vl));
    pose proof (limbs_ok_nonneg _ Hvl); nia).
  pose proof (Z.mul_succ_div_gt U (mag_val vn) HV). pose proof (weight_pos n).
  assert (U - qh * mag_val vn < mag_val vn) by nia.
  assert (h - b - c < 1) by nia. assert (-2 < h - b - c) by nia.
  destruct (decide (h - b - c = 0)); [by left|right]. split; [lia|].
  destruct (decide (qh = 0)) as [->|]; [|lia]. subst U. pose proof (limbs_ok_nonneg _ Hw). nia.
Qed.
(** The digit is subtracted, or subtracted and repaired. *)
Lemma reduce_ok lo w1 h zs qh q :
  limbs_ok w1 → length w1 = n → is_limb h → is_limb qh → (length lo < length q)%nat →
  let U := mag_val w1 + weight n * h in
  U / mag_val vn <= qh → qh * mag_val vn < U + mag_val vn →
  ∃ r' qj,
    ('(un, borrow, carry) ← for_up (mulsub_step vn qh (length lo)) 0 n (lo ++ w1 ++ h :: zs, 0, 0);
     x ← un !! (length lo + n)%nat;
     diff ← i64c (x - borrow);
     diff ← i64c (diff - as_i64 carry);
     un ← set_at un (length lo + n) (as_u32 diff);
     '(un, qhat) ←
       (if diff <? 0 then
          qhat ← u64c (qh - 1);
          '(un, carry) ← for_up (addback_step vn (length lo)) 0 n (un, 0);
          x ← un !! (length lo + n)%nat;
          un ← set_at un (length lo + n) (as_u32 (x + as_u32 carry));
          Some (un, qhat)
        else Some (un, qh));
     q ← set_at q (length lo) (as_u32 qhat);
     Some (un, q)) = Some (lo ++ r' ++ 0 :: zs, <[length lo := qj]> q) ∧
    limbs_ok r' ∧ length r' = n ∧ is_limb qj ∧ 0 <= mag_val r' < mag_val vn ∧
    U = mag_val r' + qj * mag_val vn.
Proof using Hvl Hsecond Htop.
  intros Hw Hlw Hh Hqh Hq U Hge Hlt.
  destruct (subtract_ok lo w1 h zs qh) as (ys & b & c & diff & -> & E1 & E2 & Hy & Ely & Ev & Hd); [done..|].
  fold U in Ev. cbn [mbind option_bind].
  rewrite app_assoc, lookup_mid by (rewrite length_app; lia). cbn [mbind option_bind].
  rewrite E1. cbn [mbind option_bind]. rewrite E2. cbn [mbind option_bind].
  rewrite set_at_mid by (rewrite length_app; lia). cbn [mbind option_bind].
  assert (HV : 0 < mag_val vn) by (rewrite vn_val; pose proof (weight_pos (length vl));
    pose proof (limbs_ok_nonneg _ Hvl); unfold is_limb in *; nia).
  pose proof (mag_val_bound _ Hy) as Hby. rewrite Ely in Hby. unfold is_limb in Hqh.
  destruct Hd as [-> | [-> Hqh1]].
  - cbn [Z.ltb Z.compare mbind option_bind]. rewrite set_at_ok, (as_u32_small qh) by done. cbn [mbind option_bind].
    exists ys, qh. rewrite <- app_assoc. split_and!; try done; [lia| |lia].
    pose proof (Z.mul_succ_div_gt U (mag_val vn) HV). nia.
  - change (-1 <? 0) with true. cbn iota. rewrite u64c_ok by lia. cbn [mbind option_bind].
    pose proof vn_ok as Hvn. pose proof vn_length as Hn.
    destruct (addback_loop_ok vn (length lo) vn [] lo ys (as_u32 (-1) :: zs) 0)
      as (ys2 & c2 & E & Hy2 & Ely2 & Hc2 & Ev2); [done|done|lia|done|done|lia|].
    rewrite Hn in E, Ev2. cbn [length] in E. rewrite <- app_assoc, E. cbn [mbind option_bind].
    rewrite app_assoc, lookup_mid by (rewrite length_app; lia). cbn [mbind option_bind].
    rewrite set_at_mid by (rewrite length_app; lia). cbn [mbind option_bind].
    pose proof (mag_val_bound _ Hy2) as Hby2. rewrite Ely2, Ely in Hby2.
    pose proof (mag_val_bound _ Hvn) as Hbv. rewrite Hn in Hbv.
    assert (c2 = 1) as -> by (assert (c2 ≠ 0); [intros ->; nia|lia]).
    rewrite set_at_ok, (as_u32_small (qh - 1)) by (done || unfold is_limb; lia). cbn [mbind option_bind].
    exists ys2, (qh - 1). rewrite <- app_assoc. split_and!; try done; unfold is_limb; lia.
Qed.

(** The estimate of the digit, from the leading limbs. *)
Lemma estimate_run wl low mid high :
  limbs_ok wl → length wl = length vl → is_limb low → is_limb mid → is_limb high →
  let U := mag_val (wl ++ [low; mid; high]) in
  U < mag_val vn * BASE →
  ∃ qh rh, qhat_loop QHAT_FUEL top second low ((high * BASE + mid) / top) ((high * BASE + mid) mod top) =
      Some (qh, rh) ∧ is_limb qh ∧ U / mag_val vn <= qh ∧ qh * mag_val vn < U + mag_val vn.
Proof using Hvl Hsecond Htop.
  intros Hwl Hlw Hlow Hmid Hhigh U HU.
  assert (EU : U = mag_val wl + weight (length vl) * ((high * BASE + mid) * BASE + low)).
  { subst U. rewrite mag_val_app, Hlw. cbn [mag_val]. f_equal. f_equal. ring. }
  rewrite EU in *. rewrite vn_val in *. pose proof (mag_val_bound _ Hwl) as Hbw. rewrite Hlw in Hbw.
  destruct (estimate_ok (weight (length vl)) (mag_val wl) (mag_val vl) low mid high second top)
    as (Hq0 & Hq3 & Hht & Hqh0); [apply weight_pos|done|by apply mag_val_bound|done..|].
  pose proof (Z.mod_pos_bound (high * BASE + mid) top ltac:(lia)).
  destruct (qhat_loop_ok top second high mid low
      ((mag_val wl + weight (length vl) * ((high * BASE + mid) * BASE + low)) /
       (mag_val vl + weight (length vl) * (top * BASE + second)))
      Htop Hsecond ltac:(unfold is_limb in *; lia) Hmid Hlow Hq0 Hq3 QHAT_FUEL
      ((high * BASE + mid) / top) ((high * BASE + mid) mod top))
    as (qh & rh & -> & Hqh & Hqh3); [|lia|done|unfold QHAT_FUEL; lia|].
  { pose proof (Z.div_mod (high * BASE + mid) top ltac:(lia)). lia. }
  exists qh, rh. split; [done|]. split; [unfold is_limb; lia|]. split; [lia|].
  apply estimate_close; [apply weight_pos|lia|by apply mag_val_bound| |lia|done].
  unfold is_limb in *. lia.
Qed.

Lemma digit_step_ok lo x r zs q :
  limbs_ok (x :: r) → length r = n → mag_val r < mag_val vn → (length lo < length q)%nat →
  ∃ r' qj, digit_step vn n top second (length lo) (lo ++ (x :: r) ++ zs, q) =
      Some (lo ++ r' ++ 0 :: zs, <[length lo := qj]> q) ∧
    limbs_ok r' ∧ length r' = n ∧ is_limb qj ∧ 0 <= mag_val r' < mag_val vn ∧
    x + BASE * mag_val r = mag_val r' + qj * mag_val vn.
Proof using Hvl Hsecond Htop.
  intros Hxr Hlr Hr Hq. change (x + BASE * mag_val r) with (mag_val (x :: r)).
  assert (HU : mag_val (x :: r) < mag_val vn * BASE).
  { apply Forall_cons in Hxr as [Hx _]. unfold is_limb in Hx. cbn [mag_val]. lia. }
  destruct (last_three (x :: r) (length vl)) as (wl & low & mid & high & E & Hlw); [simpl; lia|].
  rewrite E in *. clear E x. apply Forall_app in Hxr as [Hwl Hl3].
  apply Forall_cons in Hl3 as [Hlow Hl2]. apply Forall_cons in Hl2 as [Hmid Hl1].
  apply Forall_cons in Hl1 as [Hhigh _].
  destruct (estimate_run wl low mid high) as (qh & rh & Eq & Hqh & Hge & Hlt); [done..|].
  unfold digit_step. rewrite <- !app_assoc. cbn [app].
  destruct (lookup_three lo wl low mid high zs (length vl) Hlw) as (El0 & El1 & El2).
  rewrite El0. cbn [mbind option_bind]. rewrite El1. cbn [mbind option_bind].
  rewrite word_join, (Z.mul_comm BASE high) by done. unfold div_u64, rem_u64.
  rewrite (proj2 (Z.eqb_neq top 0)) by lia. cbn [mbind option_bind].
  rewrite El2. cbn [mbind option_bind]. rewrite Eq. cbn [mbind option_bind].
  replace (lo ++ wl ++ low :: mid :: high :: zs) with (lo ++ (wl ++ [low; mid]) ++ high :: zs)
    by (by rewrite <- !app_assoc).
  assert (EU' : mag_val (wl ++ [low; mid]) + weight n * high = mag_val (wl ++ [low; mid; high])).
  { rewrite !mag_val_app, Hlw, weight_add. cbn [mag_val]. change (weight 2) with (BASE * BASE). ring. }
  rewrite <- EU'. apply reduce_ok; rewrite ?EU'; try done.
  - apply Forall_app. split; [done|]. by repeat constructor; try apply Hlow; try apply Hmid.
  - rewrite length_app. simpl. lia.
Qed.
End Digit.

(** ** The remainder *)

(** A limb of the remainder: the high bits of one limb and the low bits of the
    next. *)
Lemma unshift_limb s x y : 0 <= s < 32 → is_limb x → is_limb y →
  let l := Z.lor (Z.shiftr x s) (if s =? 0 then 0 else as_u32 (Z.shiftl y (32 - s))) in
  is_limb l ∧ 2 ^ s * l = x - x mod 2 ^ s + BASE * (y mod 2 ^ s).
Proof.
  intros Hs Hx Hy. unfold is_limb in Hx, Hy.
  assert (Ep : 2 ^ 32 = 2 ^ s * 2 ^ (32 - s)) by (rewrite <- Z.pow_add_r by lia; f_equal; lia).
  assert (0 < 2 ^ s) by (apply Z.pow_pos_nonneg; lia).
  assert (0 < 2 ^ (32 - s)) by (apply Z.pow_pos_nonneg; lia).
  assert ((if s =? 0 then 0 else as_u32 (Z.shiftl y (32 - s))) = y mod 2 ^ s * 2 ^ (32 - s)) as ->.
  { destruct (Z.eqb_spec s 0) as [->|]; [by rewrite Z.mod_1_r|].
    unfold as_u32. rewrite Z.shiftl_mul_pow2, Ep by lia. apply Z.mul_mod_distr_r; lia. }
  pose proof (Z.mod_pos_bound y (2 ^ s) ltac:(lia)). pose proof (Z.mod_pos_bound x (2 ^ s) ltac:(lia)).
  pose proof (Z.div_mod x (2 ^ s) ltac:(lia)). change BASE with (2 ^ 32) in *. rewrite Ep in *.
  assert (0 <= Z.shiftr x s < 2 ^ (32 - s)).
  { rewrite Z.shiftr_div_pow2 by lia. split; [apply Z.div_pos|apply Z.div_lt_upper_bound]; lia. }
  rewrite Z.lor_comm, lor_disjoint by lia. rewrite Z.shiftr_div_pow2 in * by lia.
  unfold is_limb. change BASE with (2 ^ 32). rewrite Ep. split; nia.
Qed.

Definition head_or (y : Z) (xs : list Z) : Z := default y (head xs).

Lemma unshift_step_ok s un i x y out : 0 <= s < 32 → un !! i = Some x → un !! S i = Some y →
  unshift_step un s i out =
    Some (out ++ [Z.lor (Z.shiftr x s) (if s =? 0 then 0 else as_u32 (Z.shiftl y (32 - s)))]).
Proof.
  intros Hs Ex Ey. unfold unshift_step. rewrite Ex, Ey. cbn [mbind option_bind].
  by destruct (s =? 0).
Qed.

Lemma unshift_ok s un : 0 <= s < 32 → ∀ xs pre y post out,
  un = pre ++ xs ++ y :: post → limbs_ok xs → is_limb y →
  ∃ rem, for_up (unshift_step un s) (length pre) (length xs) out = Some (out ++ rem) ∧
    limbs_ok rem ∧
    2 ^ s * mag_val rem = mag_val xs - head_or y xs mod 2 ^ s + weight (length xs) * (y mod 2 ^ s).
Proof.
  intros Hs xs. induction xs as [|x xs IH]; intros pre y post out Hun Hxs Hy.
  - exists []. cbn [for_up length mag_val]. change (head_or y []) with y. rewrite app_nil_r, weight_0.
    split_and!; [done|constructor|lia].
  - apply Forall_cons in Hxs as [Hx Hxs]. cbn [for_up length].
    assert (un !! S (length pre) = Some (head_or y xs) ∧ is_limb (head_or y xs)) as [Eh Hh].
    { rewrite Hun. cbn [app]. rewrite app_cons_snoc. destruct xs as [|x' xs]; cbn [app].
      all: rewrite lookup_mid by (rewrite length_app; simpl; lia). all: split; [done|].
      - done.
      - by apply Forall_cons in Hxs as [? _]. }
    rewrite (unshift_step_ok s un _ x (head_or y xs)) by (done || (rewrite Hun; by apply lookup_mid)).
    cbn [mbind option_bind]. destruct (unshift_limb s x (head_or y xs)) as [Hl Ev]; [done..|].
    set (l := Z.lor _ _) in *.
    destruct (IH (pre ++ [x]) y post (out ++ [l])) as (rem & E & Hr & Ev'); [|done|done|].
    { by rewrite Hun, <- app_assoc. }
    rewrite length_app, Nat.add_1_r in E. exists (l :: rem). rewrite E, <- app_assoc.
    split_and!; [done|by constructor|]. cbn [mag_val]. autorewrite with mag.
    change (head_or y (x :: xs)) with x. lia.
Qed.

(** ** The quotient digits *)

Section Digits.
Context (vl : list Z) (second top : Z).
Abbreviation vn := (vl ++ [second; top]).
Abbreviation n := (length vl + 2)%nat.
Context (Hvl : limbs_ok vl) (Hsecond : is_limb second) (Htop : 2 ^ 31 <= top < BASE).

(** The state behind the digits [j..]: the dividend's low limbs, a remainder
    below the divisor, zeros; and the digits found so far. *)
Definition digits_inv (u : Z) (m j : nat) (st : list Z * list Z) : Prop :=
  ∃ lo r qs, st = (lo ++ r ++ replicate (S m - j) 0, replicate j 0 ++ qs) ∧
    length lo = j ∧ limbs_ok lo ∧ length r = n ∧ limbs_ok r ∧ limbs_ok qs ∧
    0 <= mag_val r < mag_val vn ∧
    u = mag_val lo + weight j * (mag_val r + mag_val qs * mag_val vn).

Lemma digits_inv_step u m j st : (j < S m)%nat → digits_inv u m (S j) st →
  ∃ st', digit_step vn n top second j st = Some st' ∧ digits_inv u m j st'.
Proof using Hvl Hsecond Htop.
  intros Hj (lo & r & qs & -> & Hlo & Hlok & Hlr & Hr & Hqs & Hb & Hu).
  destruct lo as [|x lo _] using rev_ind; [done|]. apply limbs_ok_snoc in Hlok as [Hlok Hx].
  rewrite length_app, Nat.add_1_r in Hlo. injection Hlo as Hlo. rewrite <- Hlo in *.
  destruct (digit_step_ok vl second top Hvl Hsecond Htop lo x r (replicate (S m - S (length lo)) 0)
    (replicate (S (length lo)) 0 ++ qs)) as (r' & qj & E & Hr' & Hlr' & Hqj & Hb' & Ev);
    [by constructor|done|lia|rewrite length_app, length_replicate; lia|].
  rewrite <- app_assoc. eexists. split; [exact E|].
  exists lo, r', (qj :: qs). split.
  { f_equal; [f_equal; f_equal|].
    - by replace (S m - length lo)%nat with (S (S m - S (length lo))) by lia.
    - rewrite replicate_S_end, <- app_assoc. cbn [app].
      by rewrite insert_app_r_alt, length_replicate, Nat.sub_diag by (rewrite length_replicate; lia). }
  split_and!; try done; [by constructor|lia|lia|].
  rewrite Hu, mag_val_snoc. cbn [mag_val]. autorewrite with mag. nia.
Qed.

Lemma digits_ok m un : limbs_ok un → length un = (S m + n)%nat →
  mag_val un < weight (S m) * mag_val vn →
  ∃ r q, for_down (digit_step vn n top second) (S m) (un, replicate (S m) 0) =
      Some (r ++ replicate (S m) 0, q) ∧ limbs_ok r ∧ length r = n ∧ limbs_ok q ∧
    0 <= mag_val r < mag_val vn ∧ mag_val un = mag_val r + mag_val q * mag_val vn.
Proof using Hvl Hsecond Htop.
  intros Hun Hlen Hlt.
  destruct (for_down_inv (digits_inv (mag_val un) m) (digit_step vn n top second) (S m)
    (un, replicate (S m) 0)) as (st & -> & lo & r & qs & -> & Hlo & _ & Hlr & Hr & Hqs & Hb & Hu).
  - assert (Hv : mag_val un = mag_val (take (S m) un) + weight (S m) * mag_val (drop (S m) un)).
    { rewrite <- (take_drop (S m) un) at 1. rewrite mag_val_app, length_take.
      by replace (S m `min` length un)%nat with (S m) by lia. }
    pose proof (Forall_take _ (S m) _ Hun) as Ht. pose proof (Forall_drop _ (S m) _ Hun) as Hd.
    pose proof (limbs_ok_nonneg _ Ht). pose proof (limbs_ok_nonneg _ Hd). pose proof (weight_pos (S m)).
    exists (take (S m) un), (drop (S m) un), []. rewrite Nat.sub_diag. cbn [replicate].
    rewrite app_nil_r, take_drop, length_take, length_drop, app_nil_r.
    split_and!; try done; [lia|lia|nia|]. rewrite Hv at 1. cbn [mag_val]. ring.
  - intros j st Hj HP. by apply digits_inv_step.
  - destruct lo; [|done]. exists r, qs. rewrite Nat.sub_0_r. split_and!; try done; [lia..|].
    rewrite Hu. cbn [mag_val]. rewrite weight_0. ring.
Qed.
End Digits.

(** ** [divrem_mag] *)

Lemma last_two {A} (l : list A) k : length l = (k + 2)%nat → ∃ lo a b, l = lo ++ [a; b] ∧ length lo = k.
Proof.
  intros Hl. destruct (drop k l) as [|a [|b [|]]] eqn:E;
    (assert (Hd : length (drop k l) = 2%nat) by (rewrite length_drop; lia)); rewrite E in Hd; try done.
  exists (take k l), a, b. rewrite <- E, take_drop, length_take. split; [done|lia].
Qed.

Lemma lookup_last_two {A} (l : list A) a b :
  (l ++ [a; b]) !! (length l + 2 - 1)%nat = Some b ∧ (l ++ [a; b]) !! (length l + 2 - 2)%nat = Some a.
Proof.
  split; [rewrite app_cons_snoc|]; apply lookup_mid; rewrite ?length_app; simpl; lia.
Qed.

(** The divisor after the shift: its leading limb has its highest bit set. *)
Lemma normalised vl a b : limbs_ok (vl ++ [a; b]) → b ≠ 0 →
  let v := vl ++ [a; b] in
  let s := leading_zeros b in
  0 <= s < 32 ∧ ∃ vl' second top, shl s v false = vl' ++ [second; top] ∧ length vl' = length vl ∧
    limbs_ok vl' ∧ is_limb second ∧ 2 ^ 31 <= top < BASE ∧
    mag_val (vl' ++ [second; top]) = mag_val v * 2 ^ s ∧ weight (S (length vl)) <= mag_val v.
Proof.
  intros Hv Hb v s. pose proof Hv as Hv'. rewrite Forall_app, Forall_cons in Hv'.
  destruct Hv' as (Hvl & Ha & Hb1). apply Forall_cons in Hb1 as [Hb1 _]. unfold is_limb in Ha, Hb1.
  destruct (leading_zeros_ok b ltac:(lia)) as (Hs & Hlo & Hhi). fold s in Hs, Hlo, Hhi.
  pose proof (mag_val_bound _ Hvl) as Hbv. pose proof (weight_pos (length vl)) as Hw.
  assert (Ev : mag_val v = mag_val vl + weight (length vl) * (a + BASE * b)).
  { subst v. rewrite mag_val_app. cbn [mag_val]. f_equal. f_equal. lia. }
  assert (Hn : length v = (length vl + 2)%nat) by (subst v; rewrite length_app; simpl; lia).
  assert (H2s : 0 < 2 ^ s) by (apply Z.pow_pos_nonneg; lia).
  assert (Hvb : weight (S (length vl)) * b <= mag_val v < weight (S (length vl)) * (b + 1)).
  { rewrite Ev. autorewrite with mag. nia. }
  pose proof (weight_pos (S (length vl))) as HwS.
  assert (Hfit : mag_val v * 2 ^ s < weight (length v)).
  { rewrite Hn. replace (length vl + 2)%nat with (S (S (length vl))) by lia. rewrite (weight_S (S _)).
    assert (mag_val v * 2 ^ s < weight (S (length vl)) * (b + 1) * 2 ^ s) by (apply Z.mul_lt_mono_pos_r; lia).
    assert (weight (S (length vl)) * ((b + 1) * 2 ^ s) <= weight (S (length vl)) * BASE)
      by (apply Z.mul_le_mono_nonneg_l; lia). lia. }
  destruct (shl_fits_ok s v Hs Hv Hfit) as (Hok & Hlen & Hval). split; [done|].
  destruct (last_two (shl s v false) (length vl)) as (vl' & second & top & E & Hl'); [lia|].
  rewrite E in *. rewrite Forall_app, Forall_cons in Hok. destruct Hok as (Hvl' & Hsec & Htop).
  apply Forall_cons in Htop as [Htop _]. exists vl', second, top. unfold is_limb in *.
  split_and!; try done; try lia; [|nia].
  pose proof (mag_val_bound _ Hvl') as Hb'. rewrite mag_val_app, Hl' in Hval. cbn [mag_val] in Hval.
  rewrite Hl' in Hb'. autorewrite with mag in *.
  assert (weight (length vl) * BASE * (b * 2 ^ s) <= mag_val v * 2 ^ s) by nia.
  assert (weight (length vl) * BASE * 2 ^ 31 <= weight (length vl) * BASE * (b * 2 ^ s))
    by (apply Z.mul_le_mono_nonneg_l; lia).
  assert (weight (length vl) * second <= weight (length vl) * (BASE - 1)) by (apply Z.mul_le_mono_nonneg_l; lia).
  assert (weight (length vl) * BASE * 2 ^ 31 < weight (length vl) * BASE * (top + 1)) by lia. nia.
Qed.

(** Undoing the shift on a remainder that is a multiple of [2 ^ s]. *)
Lemma unshift_exact s r y post z : 0 <= s < 32 → limbs_ok r → y = 0 → mag_val r = z * 2 ^ s →
  ∃ rem, for_up (unshift_step (r ++ y :: post) s) 0 (length r) [] = Some rem ∧ limbs_ok rem ∧ mag_val rem = z.
Proof.
  intros Hs Hr -> Hz. assert (H2s : 0 < 2 ^ s) by (apply Z.pow_pos_nonneg; lia).
  destruct (unshift_ok s (r ++ 0 :: post) Hs r [] 0 post []) as (rem & E & Hok & Ev); [done..|].
  exists rem. split_and!; [done|done|].
  assert (Hh : head_or 0 r mod 2 ^ s = 0).
  { assert (head_or 0 r mod 2 ^ s = mag_val r mod 2 ^ s) as ->.
    - destruct r as [|x r]; [done|]. change (head_or 0 (x :: r)) with x. cbn [mag_val].
      replace BASE with (2 ^ (32 - s) * 2 ^ s) by (rewrite <- Z.pow_add_r, Z.sub_add by lia; done).
      rewrite <- (Z_mod_plus_full x (2 ^ (32 - s) * mag_val r) (2 ^ s)). f_equal. ring.
    - rewrite Hz. by apply Z.mod_mul; lia. }
  rewrite Hh, Z.mod_0_l in Ev by lia. nia.
Qed.

(** The long division, for a divisor of at least two limbs. *)
Lemma divrem_long u vl a b : limbs_ok u → limbs_ok (vl ++ [a; b]) → b ≠ 0 → (length vl + 2 ≤ length u)%nat →
  let v := vl ++ [a; b] in
  let n := length v in
  let s := leading_zeros b in
  ∃ q rem,
    (top ← shl s v false !! (n - 1)%nat;
     second ← shl s v false !! (n - 2)%nat;
     '(un, q) ← for_down (digit_step (shl s v false) n top second) (S (length u - n))
                  (shl s u true, replicate (S (length u - n)) 0);
     rem ← for_up (unshift_step un s) 0 n [];
     Some (trim q, trim rem)) = Some (q, rem) ∧
    mag_ok q ∧ mag_ok rem ∧ mag_val q = mag_val u / mag_val v ∧ mag_val rem = mag_val u mod mag_val v.
Proof.
  intros Hu Hv Hb Hlen v n s.
  destruct (normalised vl a b Hv Hb) as (Hs & vl' & second & top & E & Hl' & Hvl' & Hsec & Htop & HV & Hvlo).
  fold v s in Hs, E, HV, Hvlo. rewrite E.
  assert (Hn : n = (length vl' + 2)%nat) by (subst n v; rewrite length_app, Hl'; simpl; lia).
  assert (H2s : 0 < 2 ^ s) by (apply Z.pow_pos_nonneg; lia).
  rewrite Hn. destruct (lookup_last_two vl' second top) as [-> ->]. cbn [mbind option_bind].
  destruct (shl_extra_ok s u Hs Hu) as (Hun & Hlun & Hvun).
  set (m := (length u - (length vl' + 2))%nat).
  destruct (digits_ok vl' second top Hvl' Hsec Htop m (shl s u true)) as (r & q & -> & Hr & Hlr & Hq & Hb' & Ev).
  { done. } { subst m. lia. }
  { rewrite Hvun, HV. pose proof (mag_val_bound _ Hu) as Hbu.
    replace (length u) with (S m + S (length vl))%nat in Hbu by (subst m; lia).
    rewrite weight_add in Hbu. pose proof (weight_pos (S m)). pose proof (weight_pos (S (length vl))).
    assert (mag_val u < weight (S m) * mag_val v) by nia. rewrite Z.mul_assoc.
    apply Z.mul_lt_mono_pos_r; lia. }
  cbn [mbind option_bind replicate]. rewrite HV, Hvun in *.
  destruct (unshift_exact s r 0 (replicate m 0) (mag_val u - mag_val q * mag_val v))
    as (rem & Er & Hrem & Evr); [done|done|done|lia|].
  rewrite <- Hlr, Er. cbn [mbind option_bind]. exists (trim q), (trim rem).
  rewrite !trim_val. assert (0 <= mag_val rem < mag_val v) by (rewrite Evr; nia).
  split_and!; [done|by apply trim_ok|by apply trim_ok| |].
  - apply (Z.div_unique_pos _ _ _ (mag_val rem)); lia.
  - apply (Z.mod_unique_pos _ _ (mag_val q)); lia.
Qed.

(** [divrem_mag] returns the quotient and the remainder, both trimmed. *)
Lemma divrem_mag_ok u v : mag_ok u → mag_ok v → v ≠ [] →
  ∃ q r, divrem_mag u v = Some (q, r) ∧ mag_ok q ∧ mag_ok r ∧
    mag_val q = mag_val u / mag_val v ∧ mag_val r = mag_val u mod mag_val v.
Proof.
  intros Hu Hv Hne. unfold divrem_mag. rewrite cmp_mag_spec by done.
  assert (Hpos : 0 < mag_val v).
  { pose proof (limbs_ok_nonneg _ (proj1 Hv)). pose proof (mag_ok_nil_iff v Hv).
    assert (mag_val v ≠ 0) by naive_solver. lia. }
  pose proof (limbs_ok_nonneg _ (proj1 Hu)) as Hu0.
  case_bool_decide as Hc.
  { rewrite Z.compare_lt_iff in Hc. exists [], u. rewrite Z.div_small, Z.mod_small by lia.
    split_and!; [done|apply mag_ok_nil|done..]. }
  assert (Hge : mag_val v <= mag_val u) by (rewrite Z.compare_lt_iff in Hc; lia).
  assert (Hlen : (length v ≤ length u)%nat).
  { destruct (decide (length u < length v)%nat) as [Hlt|]; [|lia].
    pose proof (longer_larger u v (proj1 Hu) Hv Hlt). lia. }
  destruct v as [|d [|e v]]; [done| |].
  - destruct Hv as [Hd Ht]. apply Forall_cons in Hd as [Hd _]. unfold is_limb in Hd.
    cbn [mag_val] in *. rewrite Z.mul_0_r, Z.add_0_r in *.
    destruct (divrem_limb_ok u d (proj1 Hu) ltac:(lia)) as (q & -> & Hq & Hvq).
    cbn [mbind option_bind]. eexists _, _. split; [done|]. pose proof (Z.mod_pos_bound (mag_val u) d Hpos).
    split_and!; [done| |done|]; destruct (Z.eqb_spec (mag_val u mod d) 0) as [E0|E0]; try apply mag_ok_nil.
    + split; [apply Forall_singleton; unfold is_limb; lia|]. intros [=]. lia.
    + by rewrite E0.
    + cbn [mag_val]. lia.
  - destruct (last_two (d :: e :: v) (length v)) as (vl & a & b & E & Hl); [simpl; lia|].
    rewrite E in *. destruct Hv as [Hv Ht]. cbn [length] in Hlen.
    assert (Hb : (vl ++ [a; b]) !! (length (vl ++ [a; b]) - 1)%nat = Some b)
      by (rewrite length_app; apply lookup_last_two). rewrite Hb.
    cbn [mbind option_bind]. apply divrem_long; [apply Hu|done| |rewrite length_app in Hlen; simpl in Hlen; lia].
    intros ->. apply Ht. by rewrite app_cons_snoc, last_snoc.
Qed.
