(* ===== verification/BigIntFacts.v ===== *)
(** * The big integers compute with integers

    A well-formed [BigInt] is the one representation ([repr]) of its value, so
    the derived equality is equality of values.  On well-formed operands every
    operation returns, without a panic, the representation of the integer
    operation's result, or [TooLarge] exactly when that result does not fit. *)

From S2P Require Import Prelude Text BigInt LimbFacts.
From Stdlib Require Import ZArith Lia Strings.Ascii.
From stdpp Require Import options.

Local Open Scope Z_scope.

(** ** Values and representations *)

Definition signed (negative : bool) (m : Z) : Z := if negative then - m else m.

Definition big_val (x : BigInt) : Z := signed (big_negative x) (mag_val (big_mag x)).

Definition big_wf (x : BigInt) : Prop :=
  mag_ok (big_mag x) ∧ (length (big_mag x) ≤ MAX_LIMBS)%nat ∧
  (big_negative x = true → big_mag x ≠ []).

(** The bound: 2 ^ 1280. *)
Definition big_bound : Z := weight MAX_LIMBS.
Definition fits (z : Z) : Prop := Z.abs z < big_bound.

(** The representation of an integer, and the result of an operation whose
    exact result is [z]. *)
Definition repr (z : Z) : BigInt := mkBigInt (z <? 0) (limbs_of MAX_LIMBS (Z.abs z)).
Definition bounded (z : Z) : result BigIntError BigInt :=
  if Z.abs z <? big_bound then Ok (repr z) else Err BigIntTooLarge.

(** Two results of one exact integer. *)
Ltac bounded_eq := apply (f_equal (λ z, Some (bounded z))).

Lemma bounded_fits z : fits z → bounded z = Ok (repr z).
Proof. intros H. unfold bounded. by rewrite (proj2 (Z.ltb_lt _ _) H). Qed.

Lemma limbs_of_ok fuel : ∀ m, 0 <= m < weight fuel →
  mag_ok (limbs_of fuel m) ∧ mag_val (limbs_of fuel m) = m ∧ (length (limbs_of fuel m) ≤ fuel)%nat.
Proof.
  induction fuel as [|fuel IH]; intros m Hm; cbn [limbs_of].
  - rewrite weight_0 in Hm. split_and!; [apply mag_ok_nil|cbn [mag_val]; lia|done].
  - destruct (Z.eqb_spec m 0) as [->|Hz]; [split_and!; [apply mag_ok_nil|done|simpl; lia]|].
    rewrite weight_S in Hm. pose proof (word_split m) as Hs. pose proof (as_u32_limb m) as Hl.
    unfold is_limb in Hl.
    destruct (IH (Z.shiftr m 32)) as (Hok & Hv & Hlen).
    { rewrite Z.shiftr_div_pow2 by done. change (2 ^ 32) with BASE.
      split; [apply Z.div_pos; lia|apply Z.div_lt_upper_bound; lia]. }
    split_and!; [|cbn [mag_val]; lia|simpl; lia].
    destruct Hok as [Hok Ht]. split; [constructor; [done|done]|].
    unfold trimmed. destruct (limbs_of fuel (Z.shiftr m 32)) as [|y l].
    + cbn [mag_val] in Hv. cbn. intros [=]. lia.
    + exact Ht.
Qed.

Lemma mag_fits l : mag_ok l → (length l ≤ MAX_LIMBS)%nat ↔ mag_val l < big_bound.
Proof.
  intros [Hl Ht]. unfold big_bound. split.
  - intros Hlen. pose proof (mag_val_bound _ Hl). pose proof (weight_mono _ _ Hlen). lia.
  - intros Hlt. destruct (decide (length l ≤ MAX_LIMBS)%nat) as [|Hn]; [done|].
    assert (l ≠ []) by (intros ->; simpl in Hn; lia).
    pose proof (trimmed_low _ Hl Ht ltac:(done)).
    pose proof (weight_mono MAX_LIMBS (pred (length l)) ltac:(lia)). lia.
Qed.

Lemma signed_abs b m : 0 <= m → Z.abs (signed b m) = m.
Proof. destruct b; cbn [signed]; lia. Qed.

Lemma big_val_fits x : big_wf x → fits (big_val x).
Proof.
  intros (Hm & Hl & _). unfold fits, big_val.
  rewrite signed_abs by apply limbs_ok_nonneg, Hm. by apply mag_fits.
Qed.

Lemma repr_wf z : fits z → big_wf (repr z) ∧ big_val (repr z) = z.
Proof.
  intros Hz. unfold fits in Hz. destruct (limbs_of_ok MAX_LIMBS (Z.abs z)) as (Hm & Hv & Hl); [by split; [lia|]|].
  unfold big_wf, big_val, repr. cbn [big_mag big_negative]. rewrite Hv. split_and!; [done|done| |].
  - intros Hneg E. rewrite E in Hv. cbn [mag_val] in Hv. apply Z.ltb_lt in Hneg. lia.
  - destruct (Z.ltb_spec z 0); cbn [signed]; lia.
Qed.

(** A sign and a magnitude are the representation of what they are worth. *)
Lemma repr_signed neg mag : mag_ok mag → (length mag ≤ MAX_LIMBS)%nat →
  repr (signed neg (mag_val mag)) = mkBigInt (neg && negb (bool_decide (mag = []))) mag.
Proof.
  intros Hm Hl. pose proof (limbs_ok_nonneg _ (proj1 Hm)). pose proof (mag_ok_nil_iff _ Hm).
  unfold repr. rewrite signed_abs by done. f_equal.
  - case_bool_decide; destruct neg; cbn [signed andb negb]; (apply Z.ltb_ge || apply Z.ltb_lt);
      assert (mag_val mag = 0 ∨ 0 < mag_val mag) by lia; naive_solver lia.
  - destruct (limbs_of_ok MAX_LIMBS (mag_val mag)) as (Hm' & Hv & _).
    { split; [done|]. by apply mag_fits. }
    by apply mag_val_inj.
Qed.

Lemma wf_repr x : big_wf x → x = repr (big_val x).
Proof.
  intros (Hm & Hl & Hn). unfold big_val. rewrite repr_signed by done. destruct x as [neg mag].
  cbn [big_mag big_negative] in *. f_equal. case_bool_decide; destruct neg; naive_solver.
Qed.

Lemma repr_inj_val x y : big_wf x → big_wf y → big_val x = big_val y → x = y.
Proof. intros Hx Hy E. by rewrite (wf_repr x Hx), (wf_repr y Hy), E. Qed.

Lemma checked_ok neg mag : mag_ok mag → BigInt_checked neg mag = bounded (signed neg (mag_val mag)).
Proof.
  intros Hm. pose proof (limbs_ok_nonneg _ (proj1 Hm)). unfold BigInt_checked, bounded.
  rewrite signed_abs by done. pose proof (mag_fits _ Hm) as Hf. destruct (decide _) as [Hgt|Hle].
  - rewrite (proj2 (Z.ltb_ge _ _)); [done|]. destruct (Z.ltb_spec (mag_val mag) big_bound); [|lia].
    apply Hf in H0. lia.
  - rewrite (proj2 (Z.ltb_lt _ _)) by (apply Hf; lia). by rewrite repr_signed by (done || lia).
Qed.

(** ** Arithmetic *)

Lemma neg_ok x : big_wf x → BigInt_neg x = repr (- big_val x).
Proof.
  intros (Hm & Hl & Hn). unfold big_val.
  replace (- signed (big_negative x) (mag_val (big_mag x)))
    with (signed (negb (big_negative x)) (mag_val (big_mag x))) by (destruct (big_negative x); cbn [signed negb]; lia).
  by rewrite repr_signed.
Qed.

Lemma zero_repr : BigInt_zero = repr 0.
Proof. done. Qed.

Lemma add_ok x y : big_wf x → big_wf y → BigInt_add x y = Some (bounded (big_val x + big_val y)).
Proof.
  intros (Hx & _) (Hy & _). unfold BigInt_add, big_val. case_bool_decide as Hs.
  - destruct (add_mag_ok _ _ Hx Hy) as (m & -> & Hm & Hv). cbn [mbind option_bind].
    rewrite checked_ok, Hv, <- Hs by done. bounded_eq. destruct (big_negative x); cbn [signed]; lia.
  - rewrite cmp_mag_spec by done.
    destruct (Z.compare_spec (mag_val (big_mag x)) (mag_val (big_mag y))) as [E|Hlt|Hlt].
    + rewrite E, zero_repr. f_equal.
      assert (signed (big_negative x) (mag_val (big_mag y)) + signed (big_negative y) (mag_val (big_mag y)) = 0) as ->
        by (destruct (big_negative x), (big_negative y); cbn [signed xorb]; (done || lia)).
      done.
    + destruct (sub_mag_ok (big_mag y) (big_mag x)) as (m & -> & Hm & Hv); [apply Hy|done|lia|].
      cbn [mbind option_bind]. rewrite checked_ok, Hv by done. bounded_eq.
      destruct (big_negative x), (big_negative y); cbn [signed xorb]; (done || lia).
    + destruct (sub_mag_ok (big_mag x) (big_mag y)) as (m & -> & Hm & Hv); [apply Hx|done|lia|].
      cbn [mbind option_bind]. rewrite checked_ok, Hv by done. bounded_eq.
      destruct (big_negative x), (big_negative y); cbn [signed xorb]; (done || lia).
Qed.

Lemma fits_opp z : fits z → fits (- z).
Proof. unfold fits. by rewrite Z.abs_opp. Qed.

Lemma sub_ok x y : big_wf x → big_wf y → BigInt_sub x y = Some (bounded (big_val x - big_val y)).
Proof.
  intros Hx Hy. unfold BigInt_sub. rewrite neg_ok by done.
  destruct (repr_wf (- big_val y)) as [Hw Hv]; [by apply fits_opp, big_val_fits|].
  rewrite add_ok, Hv by done. done.
Qed.

Lemma mul_ok x y : big_wf x → big_wf y → BigInt_mul x y = Some (bounded (big_val x * big_val y)).
Proof.
  intros (Hx & _) (Hy & _). unfold BigInt_mul, big_val.
  destruct (mul_mag_ok (big_mag x) (big_mag y)) as (m & -> & Hm & Hv); [apply Hx|apply Hy|].
  cbn [mbind option_bind]. rewrite checked_ok, Hv by done. bounded_eq.
  destruct (big_negative x), (big_negative y); cbn [signed xorb]; lia.
Qed.

Lemma is_zero_ok x : big_wf x → BigInt_is_zero x = (big_val x =? 0).
Proof.
  intros (Hm & _). unfold BigInt_is_zero, big_val. pose proof (mag_ok_nil_iff _ Hm).
  apply eq_bool_prop_intro. rewrite bool_decide_spec, Is_true_true, Z.eqb_eq.
  destruct (big_negative x); cbn [signed]; [|by symmetry]. rewrite <- H. lia.
Qed.

Lemma is_negative_ok x : big_wf x → BigInt_is_negative x = (big_val x <? 0).
Proof. intros Hx. rewrite (wf_repr x Hx) at 1. done. Qed.

Lemma bounded_le a b : Z.abs a <= Z.abs b → fits b → bounded a = Ok (repr a).
Proof. intros. apply bounded_fits. unfold fits in *. lia. Qed.

Lemma quot_rem_small a b : b ≠ 0 → Z.abs (Z.quot a b) <= Z.abs a ∧ Z.abs (Z.rem a b) <= Z.abs a.
Proof.
  intros Hb. rewrite <- Z.quot_abs, <- Z.rem_abs by done. split.
  - apply Z.quot_le_upper_bound; [lia|]. nia.
  - rewrite Z.rem_mod_nonneg by lia. apply Z.mod_le; lia.
Qed.

Lemma div_rem_ok x y : big_wf x → big_wf y →
  BigInt_div_rem x y =
    Some (if big_val y =? 0 then Err BigIntDivisionByZero
          else Ok (repr (Z.quot (big_val x) (big_val y)), repr (Z.rem (big_val x) (big_val y)))).
Proof.
  intros Hx Hy. unfold BigInt_div_rem. rewrite is_zero_ok by done.
  destruct (Z.eqb_spec (big_val y) 0) as [|Hne]; [done|].
  assert (Hn : big_mag y ≠ []).
  { intros E. apply Hne. unfold big_val. rewrite E. by destruct (big_negative y). }
  destruct (divrem_mag_ok (big_mag x) (big_mag y)) as (q & r & -> & Hq & Hr & Hvq & Hvr);
    [apply Hx|apply Hy|done|].
  cbn [mbind option_bind]. rewrite !checked_ok by done.
  pose proof (limbs_ok_nonneg _ (proj1 (proj1 Hx))). pose proof (limbs_ok_nonneg _ (proj1 (proj1 Hy))).
  assert (Ha : Z.abs (big_val x) = mag_val (big_mag x)) by (by apply signed_abs).
  assert (Hb : Z.abs (big_val y) = mag_val (big_mag y)) by (by apply signed_abs).
  assert (signed (xorb (big_negative x) (big_negative y)) (mag_val q) = Z.quot (big_val x) (big_val y)) as ->.
  { rewrite Hvq, Z.quot_div, Ha, Hb by done. unfold big_val in *.
    assert (mag_val (big_mag x) = 0 ∨ 0 < mag_val (big_mag x)) as [->|] by lia.
    { rewrite Z.div_0_l by lia. destruct (big_negative x), (big_negative y); cbn [signed xorb]; lia. }
    assert (0 < mag_val (big_mag y)) by (destruct (big_negative y); cbn [signed] in *; lia).
    destruct (big_negative x), (big_negative y); cbn [signed xorb];
      rewrite ?Z.sgn_opp, ?(Z.sgn_pos (mag_val _)) by lia; lia. }
  assert (signed (big_negative x) (mag_val r) = Z.rem (big_val x) (big_val y)) as ->.
  { rewrite Hvr, Z.rem_mod, Ha, Hb by done. unfold big_val.
    assert (mag_val (big_mag x) = 0 ∨ 0 < mag_val (big_mag x)) as [->|] by lia.
    { destruct (big_negative x); cbn [signed]; by rewrite Z.mod_0_l by (destruct (big_negative y); cbn [signed] in *; lia). }
    destruct (big_negative x); cbn [signed];
      rewrite ?Z.sgn_opp, ?(Z.sgn_pos (mag_val _)) by lia; lia. }
  destruct (quot_rem_small (big_val x) (big_val y) Hne). pose proof (big_val_fits x Hx).
  rewrite !(bounded_le _ (big_val x)) by done. done.
Qed.

Lemma div_exact_ok x y : big_wf x → big_wf y → big_val y ≠ 0 →
  BigInt_div_exact x y =
    Some (Ok (if Z.rem (big_val x) (big_val y) =? 0 then Some (repr (Z.quot (big_val x) (big_val y))) else None)).
Proof.
  intros Hx Hy Hne. unfold BigInt_div_exact. rewrite div_rem_ok by done.
  rewrite (proj2 (Z.eqb_neq _ _) Hne). cbn [fbind fst snd].
  destruct (repr_wf (Z.rem (big_val x) (big_val y))) as [Hw Hv].
  { pose proof (big_val_fits x Hx). destruct (quot_rem_small (big_val x) (big_val y) Hne). unfold fits in *. lia. }
  by rewrite is_zero_ok, Hv by done.
Qed.

Lemma cmp_ok x y : big_wf x → big_wf y → BigInt_cmp x y = (big_val x ?= big_val y).
Proof.
  intros (Hx & _ & Hnx) (Hy & _ & Hny). unfold BigInt_cmp, big_val.
  pose proof (limbs_ok_nonneg _ (proj1 Hx)). pose proof (limbs_ok_nonneg _ (proj1 Hy)).
  pose proof (mag_ok_nil_iff _ Hx). pose proof (mag_ok_nil_iff _ Hy).
  destruct (big_negative x), (big_negative y); cbn [signed]; rewrite ?cmp_mag_spec by done;
    symmetry; try done.
  - rewrite Z.compare_opp. done.
  - apply Z.compare_lt_iff. assert (mag_val (big_mag x) ≠ 0) by naive_solver. lia.
  - apply Z.compare_gt_iff. assert (mag_val (big_mag y) ≠ 0) by naive_solver. lia.
Qed.

(** ** Greatest common divisors *)

Lemma euclid_halves a b : 0 < b → 0 < a mod b → 2 * (b mod (a mod b)) < b.
Proof.
  intros Hb Hr. pose proof (Z.mod_pos_bound a b Hb). pose proof (Z.mod_pos_bound b (a mod b) Hr).
  pose proof (Z.div_mod b (a mod b) ltac:(lia)).
  assert (1 <= b / (a mod b)) by (apply Z.div_le_lower_bound; lia). nia.
Qed.

(** One step of the loop. *)
Lemma gcd_mag_step fuel a b : mag_ok a → mag_ok b → b ≠ [] →
  ∃ r, gcd_mag_loop (S fuel) a b = gcd_mag_loop fuel b r ∧ mag_ok r ∧ mag_val r = mag_val a mod mag_val b ∧
    0 < mag_val b ∧ Z.gcd (mag_val b) (mag_val r) = Z.gcd (mag_val a) (mag_val b).
Proof.
  intros Ha Hb Hne. destruct (divrem_mag_ok a b Ha Hb Hne) as (q & r & E & _ & Hr & _ & Hv).
  assert (Hpos : 0 < mag_val b).
  { pose proof (limbs_ok_nonneg _ (proj1 Hb)). pose proof (mag_ok_nil_iff b Hb).
    assert (mag_val b ≠ 0) by naive_solver. lia. }
  exists r. split_and!; [|done|done|done|].
  - destruct b; [done|]. cbn [gcd_mag_loop]. by rewrite E.
  - rewrite Hv, Z.gcd_comm, Z.gcd_mod, Z.gcd_comm by lia. done.
Qed.

Lemma gcd_mag_loop_ok k : ∀ fuel a b, mag_ok a → mag_ok b → mag_val b < 2 ^ Z.of_nat k → (2 * k ≤ fuel)%nat →
  ∃ m, gcd_mag_loop fuel a b = Some m ∧ mag_ok m ∧ mag_val m = Z.gcd (mag_val a) (mag_val b).
Proof.
  induction k as [|k IH]; intros fuel a b Ha Hb Hlt Hf.
  all: destruct (decide (b = [])) as [->|Hne];
    [exists a; cbn [mag_val]; rewrite Z.gcd_0_r, Z.abs_eq by apply limbs_ok_nonneg, Ha; by destruct fuel|].
  - pose proof (limbs_ok_nonneg _ (proj1 Hb)). pose proof (mag_ok_nil_iff b Hb).
    assert (mag_val b ≠ 0) by naive_solver. simpl in Hlt. lia.
  - destruct fuel as [|[|fuel]]; [lia..|].
    destruct (gcd_mag_step (S fuel) a b) as (r & -> & Hr & Hv & Hpos & Hg); [done..|]. rewrite <- Hg.
    destruct (decide (r = [])) as [->|Hnr].
    { exists b. cbn [mag_val]. rewrite Z.gcd_0_r, Z.abs_eq by lia. done. }
    destruct (gcd_mag_step fuel b r) as (r' & -> & Hr' & Hv' & Hpos' & Hg'); [done..|]. rewrite <- Hg'.
    apply IH; [done|done| |lia]. rewrite Hv', Hv in *. pose proof (euclid_halves (mag_val a) (mag_val b) Hpos Hpos').
    rewrite Nat2Z.inj_succ, Z.pow_succ_r in Hlt by lia. lia.
Qed.

Lemma gcd_fits a b : fits a → fits b → fits (Z.gcd a b).
Proof.
  unfold fits. intros Ha Hb. pose proof (Z.gcd_nonneg a b).
  destruct (decide (b = 0)) as [->|Hz]; [rewrite Z.gcd_0_r; lia|].
  assert (Z.gcd a b <= Z.abs b); [|lia]. apply Z.divide_pos_le; [lia|].
  apply Z.divide_abs_r, Z.gcd_divide_r.
Qed.

Lemma gcd_ok x y : big_wf x → big_wf y → BigInt_gcd x y = Some (repr (Z.gcd (big_val x) (big_val y))).
Proof.
  intros Hx Hy. unfold BigInt_gcd.
  destruct (gcd_mag_loop_ok (32 * length (big_mag y)) (64 * length (big_mag y)) (big_mag x) (big_mag y))
    as (m & -> & Hm & Hv); [apply Hx|apply Hy| |lia|].
  { pose proof (mag_val_bound _ (proj1 (proj1 Hy))) as Hb. unfold weight in Hb.
    rewrite Nat2Z.inj_mul, Z.pow_mul_r by lia. change (2 ^ Z.of_nat 32) with BASE. lia. }
  cbn [mbind option_bind]. f_equal.
  assert (Hg : mag_val m = Z.gcd (big_val x) (big_val y)).
  { rewrite Hv. unfold big_val. destruct (big_negative x), (big_negative y); cbn [signed];
      by rewrite ?Z.gcd_opp_l, ?Z.gcd_opp_r. }
  pose proof (gcd_fits _ _ (big_val_fits _ Hx) (big_val_fits _ Hy)) as Hf. rewrite <- Hg in *.
  pose proof (limbs_ok_nonneg _ (proj1 Hm)).
  change (mag_val m) with (signed false (mag_val m)). rewrite repr_signed; [done|done|].
  apply mag_fits; [done|]. unfold fits in Hf. lia.
Qed.

(** ** [i128] *)

Lemma weight_4 : weight 4 = 2 ^ 128.
Proof. done. Qed.

Lemma i128_fits z : - 2 ^ 127 <= z < 2 ^ 127 → fits z.
Proof.
  intros Hz. unfold fits, big_bound. pose proof (weight_mono 4 MAX_LIMBS ltac:(unfold MAX_LIMBS; lia)) as Hw.
  rewrite weight_4 in Hw. lia.
Qed.

Lemma from_i128_ok z : - 2 ^ 127 <= z < 2 ^ 127 → BigInt_from_i128 z = repr z.
Proof.
  intros Hz. unfold BigInt_from_i128, repr. f_equal.
  destruct (limbs_of_ok 4 (Z.abs z)) as (H1 & H2 & _); [rewrite weight_4; lia|].
  destruct (limbs_of_ok MAX_LIMBS (Z.abs z)) as (H3 & H4 & _); [split; [lia|by apply i128_fits]|].
  apply mag_val_inj; [done|done|lia].
Qed.

(** The fold of [to_i128] reads back the magnitude. *)
Lemma to_i128_fold l : limbs_ok l → (length l ≤ 4)%nat →
  foldl (λ acc limb, Z.lor (Z.shiftl acc 32 mod 2 ^ 128) limb) 0 (reverse l) = mag_val l.
Proof.
  induction l as [|x l IH]; intros Hl Hlen; [done|]. apply Forall_cons in Hl as [Hx Hl].
  rewrite reverse_cons, foldl_snoc, IH by (done || simpl in Hlen; lia). cbn [mag_val].
  pose proof (mag_val_bound _ Hl). simpl in Hlen.
  pose proof (weight_mono (length l) 3 ltac:(lia)) as Hw. change (weight 3) with (2 ^ 96) in Hw.
  unfold is_limb in Hx. rewrite Z.shiftl_mul_pow2, Z.mod_small by lia.
  rewrite lor_disjoint by lia. lia.
Qed.

Lemma to_i128_ok x : big_wf x →
  BigInt_to_i128 x = if (- 2 ^ 127 <=? big_val x) && (big_val x <? 2 ^ 127) then Some (big_val x) else None.
Proof.
  intros Hx. pose proof Hx as (Hm & _ & Hneg). unfold BigInt_to_i128, big_val.
  pose proof (limbs_ok_nonneg _ (proj1 Hm)) as H0. destruct (decide _) as [Hlong|Hshort].
  - assert (2 ^ 128 <= mag_val (big_mag x)).
    { destruct Hm as [Hl Ht]. assert (big_mag x ≠ []) by (intros E; rewrite E in Hlong; simpl in Hlong; lia).
      pose proof (trimmed_low _ Hl Ht ltac:(done)).
      pose proof (weight_mono 4 (pred (length (big_mag x))) ltac:(lia)) as Hw. rewrite weight_4 in Hw. lia. }
    destruct (_ && _) eqn:E; [|done]. apply andb_true_iff in E as [E1%Z.leb_le E2%Z.ltb_lt].
    destruct (big_negative x); cbn [signed] in *; lia.
  - rewrite to_i128_fold by (apply Hm || lia). unfold i128_try_from.
    destruct (big_negative x); cbn [signed].
    + destruct (Z.eqb_spec (mag_val (big_mag x)) (2 ^ 127)) as [->|Hne]; [done|].
      destruct (Z.ltb_spec (mag_val (big_mag x)) (2 ^ 127)); cbn [fmap option_fmap option_map];
        [rewrite (proj2 (Z.leb_le _ _)), (proj2 (Z.ltb_lt _ _)) by lia; done|].
      rewrite (proj2 (Z.leb_gt _ _)) by lia. done.
    + rewrite (proj2 (Z.leb_le _ _)) by lia. cbn [andb]. done.
Qed.

(** ** Theorem *)

(** C22: the big integers are the integers within the bound.  On well-formed
    operands no operation panics or runs out of fuel: sum, difference and product
    are the exact result, refused as too large exactly at 2 ^ 1280 and beyond;
    division truncates toward zero and refuses exactly the divisor zero; the
    greatest common divisor is the integers'; and the comparison and the derived
    equality are those of the values. *)
Theorem big_integers_exact x y : big_wf x → big_wf y →
  BigInt_add x y = Some (bounded (big_val x + big_val y)) ∧
  BigInt_sub x y = Some (bounded (big_val x - big_val y)) ∧
  BigInt_mul x y = Some (bounded (big_val x * big_val y)) ∧
  BigInt_div_rem x y =
    Some (if big_val y =? 0 then Err BigIntDivisionByZero
          else Ok (repr (Z.quot (big_val x) (big_val y)), repr (Z.rem (big_val x) (big_val y)))) ∧
  BigInt_gcd x y = Some (repr (Z.gcd (big_val x) (big_val y))) ∧
  BigInt_cmp x y = (big_val x ?= big_val y) ∧
  (x = y ↔ big_val x = big_val y) ∧
  (∀ z, fits z → big_wf (repr z) ∧ big_val (repr z) = z).
Proof.
  intros Hx Hy. split_and!; [by apply add_ok|by apply sub_ok|by apply mul_ok|by apply div_rem_ok|by apply gcd_ok|
    by apply cmp_ok| |apply repr_wf].
  split; [by intros ->|by apply repr_inj_val].
Qed.

(** Two operands of several limbs. *)
Lemma big_integers_exact_witness :
  BigInt_div_rem (repr (10 ^ 60)) (repr (- (10 ^ 25 + 7))) =
    Some (Ok (repr (Z.quot (10 ^ 60) (- (10 ^ 25 + 7))), repr (Z.rem (10 ^ 60) (- (10 ^ 25 + 7))))).
Proof.
  assert (H : ∀ z, (Z.abs z <? big_bound) = true → big_wf (repr z) ∧ big_val (repr z) = z)
    by (intros z Hz; apply repr_wf, Z.ltb_lt, Hz).
  destruct (H (10 ^ 60) ltac:(vm_compute; reflexivity)) as [H1 E1].
  destruct (H (- (10 ^ 25 + 7)) ltac:(vm_compute; reflexivity)) as [H2 E2].
  destruct (big_integers_exact _ _ H1 H2) as (_ & _ & _ & Hd & _). rewrite E1, E2 in Hd. exact Hd.
Defined.

(** * Decimal text of the big integers

    [parse_decimal] computes the value of its digits or refuses exactly the
    values that do not fit; [Display] writes the canonical decimal text. *)

(** ** Reading *)

(** The value of a list of digits behind [acc]. *)
Definition dec_val (acc : Z) (digits : list ascii) : Z := foldl (λ acc a, acc * 10 + digit_of a) acc digits.

Lemma digit_of_bound a : 0 <= digit_of a <= 9.
Proof.
  unfold digit_of, digit_value. destruct ((_ <=? _)%N && (_ <=? _)%N) eqn:E; simpl; [|lia].
  apply andb_true_iff in E as [E1%N.leb_le E2%N.leb_le]. lia.
Qed.

Lemma dec_val_ge digits : ∀ acc, 0 <= acc → acc <= dec_val acc digits.
Proof.
  induction digits as [|a digits IH]; intros acc Hacc; cbn [dec_val foldl]; [lia|].
  pose proof (digit_of_bound a). specialize (IH (acc * 10 + digit_of a)). unfold dec_val in IH. lia.
Qed.

Lemma times_ten_ok mag : ∀ carry, limbs_ok mag → 0 <= carry <= 9 →
  ∃ mag' carry', times_ten mag carry = Some (mag', carry') ∧ limbs_ok mag' ∧ length mag' = length mag ∧
    0 <= carry' <= 9 ∧ mag_val mag' + weight (length mag) * carry' = mag_val mag * 10 + carry.
Proof.
  induction mag as [|x mag IH]; intros carry Hm Hc.
  - exists [], carry. cbn [times_ten mag_val length]. rewrite weight_0. split_and!; (done || lia).
  - apply Forall_cons in Hm as [Hx Hm]. unfold is_limb in Hx. cbn [times_ten].
    rewrite u64c_ok by lia. cbn [mbind option_bind]. rewrite u64c_ok by lia. cbn [mbind option_bind].
    set (cell := x * 10 + carry). pose proof (word_split cell) as Hs. pose proof (as_u32_limb cell) as Hl.
    unfold is_limb in Hl.
    destruct (IH (Z.shiftr cell 32)) as (mag' & c' & -> & Hm' & Hlen & Hc' & Hv); [done|subst cell; lia|].
    cbn [mbind option_bind]. exists (as_u32 cell :: mag'), c'. split; [done|].
    cbn [mag_val length]. autorewrite with mag. split_and!; [by constructor|lia..|]. subst cell. nia.
Qed.

(** One digit: the new magnitude is trimmed. *)
Lemma digit_in mag a : mag_ok mag →
  ∃ mag', (('(mag, carry) ← times_ten mag (digit_of a);
            Some (if carry =? 0 then mag else mag ++ [as_u32 carry])) : option (list Z)) = Some mag' ∧
    mag_ok mag' ∧ mag_val mag' = mag_val mag * 10 + digit_of a.
Proof.
  intros [Hm Ht]. pose proof (digit_of_bound a) as Hd. pose proof (limbs_ok_nonneg _ Hm).
  destruct (times_ten_ok mag (digit_of a) Hm Hd) as (mag' & c & -> & Hm' & Hlen & Hc & Hv).
  cbn [mbind option_bind]. eexists. split; [done|]. destruct (Z.eqb_spec c 0) as [->|Hne].
  - split; [|lia]. split; [done|]. destruct mag as [|x mag]; [by destruct mag'|].
    apply low_trimmed; [done|]. rewrite Hlen. pose proof (trimmed_low _ Hm Ht ltac:(done)). lia.
  - rewrite as_u32_small by (unfold is_limb; lia). rewrite mag_val_snoc, Hlen. split; [|lia]. split.
    + apply limbs_ok_snoc. split; [done|]. unfold is_limb. lia.
    + unfold trimmed. rewrite last_snoc. congruence.
Qed.

Lemma parse_decimal_loop_ok digits : ∀ mag, mag_ok mag → mag_val mag < big_bound →
  ∃ r, parse_decimal_loop digits mag = Some r ∧
    match r with
    | Ok m => mag_ok m ∧ mag_val m < big_bound ∧ mag_val m = dec_val (mag_val mag) digits
    | Err e => e = BigIntTooLarge ∧ big_bound <= dec_val (mag_val mag) digits
    end.
Proof.
  induction digits as [|a digits IH]; intros mag Hm Hb; cbn [parse_decimal_loop].
  - by exists (Ok mag).
  - destruct (digit_in mag a Hm) as (mag' & E & Hm' & Hv).
    destruct (times_ten mag (digit_of a)) as [[mag1 c]|]; [|done].
    cbn [mbind option_bind] in *. injection E as ->.
    pose proof (mag_fits _ Hm') as Hf. change (dec_val (mag_val mag) (a :: digits))
      with (dec_val (mag_val mag * 10 + digit_of a) digits). rewrite <- Hv.
    destruct (decide _) as [Hlong|Hshort].
    + exists (Err BigIntTooLarge). split_and!; [done|done|].
      pose proof (dec_val_ge digits (mag_val mag') (limbs_ok_nonneg _ (proj1 Hm'))).
      destruct (Z.lt_ge_cases (mag_val mag') big_bound) as [Hlt|]; [apply Hf in Hlt; lia|lia].
    + apply IH; [done|]. apply Hf. lia.
Qed.

Lemma trim_id l : trimmed l → trim l = l.
Proof.
  intros Ht. destruct (trim_spec l) as ([|k] & E & _); [by rewrite app_nil_r in E|].
  exfalso. apply Ht. rewrite E, replicate_S_end, app_assoc. apply last_snoc.
Qed.

(** Digits are read as their value; anything else is refused. *)
Lemma parse_decimal_ok digits :
  BigInt_parse_decimal digits =
    Some (if bool_decide (digits = []) || negb (forallb ascii_digit digits) then Err BigIntInvalidDecimal
          else bounded (dec_val 0 digits)).
Proof.
  unfold BigInt_parse_decimal. destruct (_ || _); [done|].
  assert (0 < big_bound) by apply weight_pos.
  destruct (parse_decimal_loop_ok digits []) as ([m|e] & -> & H1); [apply mag_ok_nil|done| |].
  - destruct H1 as (Hm & Hb & Hv). change (mag_val []) with 0 in Hv. cbn [fbind]. rewrite trim_id by apply Hm.
    rewrite <- Hv, bounded_fits by (unfold fits; pose proof (limbs_ok_nonneg _ (proj1 Hm)); lia).
    change (mag_val m) with (signed false (mag_val m)). by rewrite repr_signed by (done || by apply mag_fits).
  - destruct H1 as (-> & Hb). change (mag_val []) with 0 in Hb. cbn [fbind]. unfold bounded.
    rewrite (proj2 (Z.ltb_ge _ _)) by lia. done.
Qed.

(** ** Writing *)

Lemma padded_app a b n c : (c < 10 ^ N.of_nat b)%N →
  padded (a + b) (n * 10 ^ N.of_nat b + c) = padded a n +:+ padded b c.
Proof.
  revert n c. induction b as [|b IH]; intros n c Hc.
  - cbn in Hc. assert (c = 0)%N as -> by lia. rewrite Nat.add_0_r, N.mul_1_r, N.add_0_r.
    cbn [padded]. by rewrite string_app_nil.
  - rewrite Nat.add_succ_r. rewrite Nat2N.inj_succ, N.pow_succ_r' in *. cbn [padded].
    replace (n * (10 * 10 ^ N.of_nat b) + c)%N with (c + n * 10 ^ N.of_nat b * 10)%N by lia.
    rewrite N.div_add, N.Div0.mod_add, N.add_comm, IH, string_app_assoc by
      (lia || (apply N.Div0.div_lt_upper_bound; lia)). done.
Qed.

(** A zero-padded number without a leading zero is the decimal text. *)
Lemma padded_to_string k n : (10 ^ N.of_nat k <= n < 10 ^ N.of_nat (S k))%N → padded (S k) n = to_string n.
Proof.
  intros [H1 H2]. assert (n ≠ 0)%N by (pose proof (N.pow_nonzero 10 (N.of_nat k)); lia).
  destruct (to_string_padded n ltac:(done)) as (k' & -> & H3 & H4). f_equal. f_equal.
  assert (N.of_nat k < N.of_nat (S k'))%N by (apply (N.pow_lt_mono_r_iff 10); lia).
  assert (N.of_nat k' < N.of_nat (S k))%N by (apply (N.pow_lt_mono_r_iff 10); lia). lia.
Qed.

Lemma to_string_app b n c : n ≠ 0%N → (c < 10 ^ N.of_nat b)%N →
  to_string n +:+ padded b c = to_string (n * 10 ^ N.of_nat b + c).
Proof.
  intros Hn Hc. destruct (to_string_padded n Hn) as (k & -> & Hk & Hk').
  rewrite <- padded_app, Nat.add_succ_l by done. apply padded_to_string.
  rewrite !Nat2N.inj_succ, !Nat2N.inj_add, N.pow_succ_r', N.pow_add_r in *. nia.
Qed.

(** The value of base-10^9 chunks, most significant first, behind [acc]. *)
Definition chunks_val (acc : Z) (chunks : list Z) : Z := foldl (λ acc c, acc * 1000000000 + c) acc chunks.
Definition is_chunk (c : Z) : Prop := 0 <= c < 1000000000.

Lemma chunks_text chunks : ∀ n, 0 < n → Forall is_chunk chunks →
  to_string (Z.to_N n) +:+ foldr String.app "" (imap (λ i, chunk_text (S i)) chunks) =
    to_string (Z.to_N (chunks_val n chunks)) ∧ 0 < chunks_val n chunks.
Proof.
  induction chunks as [|c chunks IH]; intros n Hn Hc; [by rewrite string_app_nil|].
  apply Forall_cons in Hc as [Hc Hcs]. cbn [imap foldr chunk_text]. unfold is_chunk in Hc.
  rewrite <- string_app_assoc, to_string_app by (lia || (change (10 ^ N.of_nat 9)%N with 1000000000%N; lia)).
  change (10 ^ N.of_nat 9)%N with 1000000000%N.
  replace (Z.to_N n * 1000000000 + Z.to_N c)%N with (Z.to_N (n * 1000000000 + c)) by lia.
  apply (IH (n * 1000000000 + c)); [lia|done].
Qed.

Lemma chunks_loop_ok fuel : ∀ rest, mag_ok rest → mag_val rest < 2 ^ (16 * Z.of_nat fuel) →
  ∃ chunks, chunks_loop fuel rest = Some chunks ∧ Forall is_chunk chunks ∧
    chunks_val 0 (reverse chunks) = mag_val rest ∧
    (rest ≠ [] → ∃ c cs, reverse chunks = c :: cs ∧ 0 < c).
Proof.
  induction fuel as [|fuel IH]; intros rest Hr Hlt.
  all: destruct (decide (rest = [])) as [->|Hne]; [by exists []|].
  all: assert (Hpos : 0 < mag_val rest) by (pose proof (limbs_ok_nonneg _ (proj1 Hr));
    pose proof (mag_ok_nil_iff _ Hr); assert (mag_val rest ≠ 0) by naive_solver; lia).
  - simpl in Hlt. lia.
  - destruct (divrem_limb_ok rest 1000000000 (proj1 Hr) ltac:(lia)) as (q & E & Hq & Hv).
    pose proof (Z.div_mod (mag_val rest) 1000000000 ltac:(lia)) as Hdm.
    pose proof (Z.mod_pos_bound (mag_val rest) 1000000000 ltac:(lia)) as Hmb.
    destruct (IH q) as (chunks & Ec & Hc & Hcv & Hl); [done| |].
    { rewrite Hv. apply Z.div_lt_upper_bound; [lia|].
      replace (16 * Z.of_nat (S fuel)) with (16 + 16 * Z.of_nat fuel) in Hlt by lia.
      rewrite Z.pow_add_r in Hlt by lia. lia. }
    exists (mag_val rest mod 1000000000 :: chunks). split.
    { destruct rest; [done|]. cbn [chunks_loop]. rewrite E. cbn [mbind option_bind]. by rewrite Ec. }
    split_and!; [by constructor| |].
    + rewrite reverse_cons. unfold chunks_val in *. rewrite foldl_snoc, Hcv, Hv. lia.
    + intros _. rewrite reverse_cons. destruct (decide (q = [])) as [->|Hnq].
      * destruct fuel; simpl in Ec; injection Ec as <-; eexists _, []; (split; [done|]);
          change (mag_val []) with 0 in Hv; rewrite <- Hv in Hdm; lia.
      * destruct (Hl Hnq) as (c & cs & -> & Hpc). by exists c, (cs ++ [mag_val rest mod 1000000000]).
Qed.

(** [Display] writes the sign and the decimal digits of the magnitude. *)
Lemma fmt_ok x : big_wf x →
  BigInt_fmt x = Some ((if big_val x <? 0 then "-" else "") +:+ to_string (Z.to_N (Z.abs (big_val x)))).
Proof.
  intros Hx. rewrite <- is_negative_ok by done. unfold BigInt_is_negative.
  pose proof Hx as (Hm & _ & Hneg). unfold BigInt_fmt, big_val.
  rewrite signed_abs by apply limbs_ok_nonneg, Hm.
  destruct (big_mag x) as [|l mag] eqn:Emag.
  { destruct (big_negative x); [by destruct Hneg|done]. }
  destruct (chunks_loop_ok (2 * length (l :: mag)) (l :: mag)) as (chunks & -> & Hc & Hv & Hl); [done| |].
  { pose proof (mag_val_bound _ (proj1 Hm)) as Hb. unfold weight in Hb.
    replace (16 * Z.of_nat (2 * length (l :: mag))) with (32 * Z.of_nat (length (l :: mag))) by lia.
    rewrite Z.pow_mul_r by lia. change (2 ^ 32) with BASE. lia. }
  cbn [mbind option_bind]. f_equal. f_equal. destruct Hl as (c & cs & E & Hpos); [done|].
  apply Forall_reverse in Hc. rewrite E in *. apply Forall_cons in Hc as [_ Hcs].
  cbn [imap foldr]. rewrite <- Hv. destruct (chunks_text cs c Hpos Hcs) as [Ht _].
  exact Ht.
Qed.

(** The digits of a padded number have its value. *)
Lemma dec_val_app acc l k : dec_val acc (l ++ k) = dec_val (dec_val acc l) k.
Proof. apply foldl_app. Qed.

Lemma digit_of_digit n : (n < 10)%N → digit_of (digit n) = Z.of_N n ∧ ascii_digit (digit n) = true.
Proof.
  intros Hn. unfold digit_of, ascii_digit, digit_value. rewrite digit_N by done.
  rewrite (proj2 (N.leb_le 48 _)), (proj2 (N.leb_le _ 57)) by lia. cbn [andb].
  split; [cbn [default from_option id]; unfold id; lia|]. apply bool_decide_eq_true. eauto.
Qed.

Lemma list_ascii_app s t :
  String.list_ascii_of_string (s +:+ t) = String.list_ascii_of_string s ++ String.list_ascii_of_string t.
Proof. induction s as [|a s IH]; [done|]. exact (f_equal (cons a) IH). Qed.

Lemma padded_digits k : ∀ n, (n < 10 ^ N.of_nat k)%N →
  forallb ascii_digit (String.list_ascii_of_string (padded k n)) = true ∧
  dec_val 0 (String.list_ascii_of_string (padded k n)) = Z.of_N n.
Proof.
  induction k as [|k IH]; intros n Hn; [cbn in Hn; split; [done|cbn; lia]|].
  rewrite Nat2N.inj_succ, N.pow_succ_r' in Hn. cbn [padded].
  pose proof (N.div_mod n 10 ltac:(lia)) as Hd. pose proof (N.mod_lt n 10 ltac:(lia)) as Hm.
  destruct (IH (n / 10)%N) as [IH1 IH2]; [apply N.Div0.div_lt_upper_bound; lia|].
  destruct (digit_of_digit (n mod 10) Hm) as [E1 E2].
  rewrite list_ascii_app, dec_val_app, IH2. cbn [String.list_ascii_of_string dec_val foldl].
  rewrite forallb_app, IH1, E1. cbn [forallb andb]. rewrite E2. split; [done|]. lia.
Qed.

Lemma to_string_dec n :
  let l := String.list_ascii_of_string (to_string n) in
  l ≠ [] ∧ forallb ascii_digit l = true ∧ dec_val 0 l = Z.of_N n.
Proof.
  intros l. destruct (decide (n = 0)%N) as [->|Hz]; [done|].
  subst l. destruct (to_string_padded n Hz) as (k & -> & _ & Hk).
  destruct (padded_digits (S k) n Hk) as [H1 H2]. split_and!; [|done|done].
  cbn [padded]. rewrite list_ascii_app. by intros [_ [=]]%app_nil.
Qed.

(** ** Theorem *)

(** Decimal text round-trips.  [Display] writes a sign and the digits of the
    magnitude for every well-formed value, and [parse_decimal] reads those digits
    back to the same magnitude; and every text is read without a panic: a text of
    digits as its value, refused exactly when it does not fit, and any other text
    is refused as no decimal. *)
Theorem decimal_roundtrip x digits : big_wf x →
  (∃ s, BigInt_fmt x = Some ((if big_negative x then "-" else "") +:+ s) ∧
        BigInt_parse_decimal (String.list_ascii_of_string s) = Some (Ok (mkBigInt false (big_mag x)))) ∧
  BigInt_parse_decimal digits =
    Some (if bool_decide (digits = []) || negb (forallb ascii_digit digits) then Err BigIntInvalidDecimal
          else bounded (dec_val 0 digits)).
Proof.
  intros Hx. split; [|apply parse_decimal_ok]. pose proof Hx as (Hm & Hl & _).
  exists (to_string (Z.to_N (Z.abs (big_val x)))). split.
  { rewrite fmt_ok, <- is_negative_ok by done. done. }
  destruct (to_string_dec (Z.to_N (Z.abs (big_val x)))) as (Hne & Hd & Hv).
  rewrite parse_decimal_ok, bool_decide_eq_false_2, Hd, Hv by done. cbn [orb negb].
  rewrite Z2N.id by lia.
  assert (Hw : big_wf (mkBigInt false (big_mag x))) by (split; [done|]; split; [done|]; discriminate).
  assert (E : big_val (mkBigInt false (big_mag x)) = Z.abs (big_val x)).
  { unfold big_val. cbn [big_negative big_mag signed]. rewrite signed_abs; [done|apply limbs_ok_nonneg, Hm]. }
  rewrite <- E, bounded_fits by (by apply big_val_fits). by rewrite <- wf_repr.
Qed.

Lemma decimal_roundtrip_witness :
  ∃ s, BigInt_fmt (repr (- 10 ^ 40)) = Some ("-" +:+ s) ∧
       BigInt_parse_decimal (String.list_ascii_of_string s) = Some (Ok (repr (10 ^ 40))).
Proof.
  destruct (repr_wf (- 10 ^ 40) ltac:(apply Z.ltb_lt; vm_compute; reflexivity)) as [H _].
  destruct (decimal_roundtrip (repr (- 10 ^ 40)) [] H) as [(s & H1 & H2) _].
  exists s. split; [exact H1|exact H2].
Defined.
