(* ===== verification/Arithmetic.v ===== *)
(** * Exact arithmetic verification: crates/ptr-verifier/src/arithmetic.rs

    Reduced rationals over [i128] and over the big integers, the bounded
    recursive-descent evaluator of a task, the parser of a candidate and the
    verifier that compares them.  The outer [option] is a panic or the end of a
    loop's fuel; ArithmeticFacts shows that neither happens. *)

From S2P Require Import Prelude Bytes Text Types Verifier VerifierClaims BigInt.
From Stdlib Require Import ZArith Lia Strings.Ascii.
From stdpp Require Import options.

Local Open Scope Z_scope.

Definition MAX_TASK_BYTES : N := 512.
Definition ARITH_CANDIDATE_BYTES : N := 128.
Definition MAX_NESTING : nat := 48.
Definition MAX_MAGNITUDE : Z := 1000000000000000000000000000000.
Definition MAX_VALUE_LIMBS : nat := 16.

(** ** [Rational] *)

Record Rational := mkRational { rat_num : Z; rat_den : Z }.

#[export] Instance Rational_eq_dec : EqDecision Rational.
Proof. solve_decision. Defined.

(** A result that must fit an [i128], and the checked operations. *)
Definition i128_ok (z : Z) : bool := (- 2 ^ 127 <=? z) && (z <? 2 ^ 127).
Definition i128c (z : Z) : option Z := if i128_ok z then Some z else None.

(** [while b != 0 { (a, b) = (b, a % b) }]; two steps halve [b], which has 128
    bits. *)
Fixpoint gcd_u128_loop (fuel : nat) (a b : Z) : option Z :=
  if b =? 0 then Some a
  else match fuel with
       | O => None
       | S fuel => gcd_u128_loop fuel b (a mod b)
       end.
Definition gcd_u128 (a b : Z) : option Z := gcd_u128_loop 256 a b.

(** [num / g]. *)
Definition div_i128 (x g : Z) : option Z := if g =? 0 then None else i128c (Z.quot x g).

Definition Rational_new (num den : Z) : option (option Rational) :=
  if (den =? 0) || (num =? - 2 ^ 127) || (den =? - 2 ^ 127) then Some None
  else
    g ← gcd_u128 (Z.abs num) (Z.abs den);
    match i128_try_from g with
    | None => Some None
    | Some g =>
        num ← div_i128 num g;
        den ← div_i128 den g;
        '(num, den) ←
          (if den <? 0 then num ← i128c (- num); den ← i128c (- den); Some (num, den)
           else Some (num, den));
        magnitude ← i128c (Z.abs num);
        Some (if (MAX_MAGNITUDE <? magnitude) || (MAX_MAGNITUDE <? den) then None
              else Some (mkRational num den))
    end.

(** ** [BigRational] *)

Inductive TaskError :=
| TaskOversize
| TaskSyntax (at_byte : nat)
| TaskNesting
| TaskOverflow
| TaskDivisionByZero.

#[export] Instance TaskError_eq_dec : EqDecision TaskError.
Proof. solve_decision. Defined.

Definition TaskError_from (e : BigIntError) : TaskError :=
  match e with
  | BigIntTooLarge | BigIntInvalidDecimal => TaskOverflow
  | BigIntDivisionByZero => TaskDivisionByZero
  end.

Definition TaskError_describe (e : TaskError) : string :=
  match e with
  | TaskOversize => "task is longer than " +:+ to_string MAX_TASK_BYTES +:+ " bytes"
  | TaskSyntax at_byte => "task does not parse at byte " +:+ to_string (N.of_nat at_byte)
  | TaskNesting => "task is nested deeper than " +:+ to_string (N.of_nat MAX_NESTING)
  | TaskOverflow => "a task intermediate exceeds the magnitude bound"
  | TaskDivisionByZero => "task divides by zero"
  end.

(** [?] on a [BigIntError] where a [TaskError] is returned. *)
Definition big {A} (m : option (result BigIntError A)) : option (result TaskError A) :=
  r ← m; Some (match r with Ok a => Ok a | Err e => Err (TaskError_from e) end).

Record BigRational := mkBigRational { br_num : BigInt; br_den : BigInt }.

Definition BigRational_new (num den : BigInt) : option (result TaskError BigRational) :=
  if BigInt_is_zero den then Some (Err TaskDivisionByZero)
  else
    g ← BigInt_gcd num den;
    let! n := big (BigInt_div_exact num g) in
    let! num := Some (ok_or n TaskOverflow) in
    let! d := big (BigInt_div_exact den g) in
    let! den := Some (ok_or d TaskOverflow) in
    let '(num, den) :=
      if BigInt_is_negative den then (BigInt_neg num, BigInt_neg den) else (num, den) in
    Some (if decide (MAX_VALUE_LIMBS < BigInt_limbs num ∨ MAX_VALUE_LIMBS < BigInt_limbs den)%nat
          then Err TaskOverflow else Ok (mkBigRational num den)).

Definition BigRational_int (value : BigInt) : option (result TaskError BigRational) :=
  BigRational_new value (BigInt_from_i128 1).

Definition BigRational_add (x y : BigRational) : option (result TaskError BigRational) :=
  let! a := big (BigInt_mul (br_num x) (br_den y)) in
  let! b := big (BigInt_mul (br_num y) (br_den x)) in
  let! num := big (BigInt_add a b) in
  let! den := big (BigInt_mul (br_den x) (br_den y)) in
  BigRational_new num den.

Definition BigRational_sub (x y : BigRational) : option (result TaskError BigRational) :=
  let! a := big (BigInt_mul (br_num x) (br_den y)) in
  let! b := big (BigInt_mul (br_num y) (br_den x)) in
  let! num := big (BigInt_sub a b) in
  let! den := big (BigInt_mul (br_den x) (br_den y)) in
  BigRational_new num den.

Definition BigRational_neg (x : BigRational) : BigRational :=
  mkBigRational (BigInt_neg (br_num x)) (br_den x).

Definition BigRational_mul (x y : BigRational) : option (result TaskError BigRational) :=
  let! num := big (BigInt_mul (br_num x) (br_num y)) in
  let! den := big (BigInt_mul (br_den x) (br_den y)) in
  BigRational_new num den.

Definition BigRational_div (x y : BigRational) : option (result TaskError BigRational) :=
  if BigInt_is_zero (br_num y) then Some (Err TaskDivisionByZero)
  else
    let! num := big (BigInt_mul (br_num x) (br_den y)) in
    let! den := big (BigInt_mul (br_den x) (br_num y)) in
    BigRational_new num den.

Definition BigRational_to_small (x : BigRational) : option (result TaskError Rational) :=
  let! num := Some (ok_or (BigInt_to_i128 (br_num x)) TaskOverflow) in
  let! den := Some (ok_or (BigInt_to_i128 (br_den x)) TaskOverflow) in
  r ← Rational_new num den;
  Some (ok_or r TaskOverflow).

(** ** The evaluator *)

(** [u8::is_ascii_whitespace]. *)
Definition ascii_whitespace (a : ascii) : bool :=
  let n := N_of_ascii a in
  (n =? 32)%N || (n =? 9)%N || (n =? 10)%N || (n =? 12)%N || (n =? 13)%N.

Section Evaluator.
(** The fields of [Evaluator]: [bytes], and the position that every function
    takes and returns. *)
Context (bytes : list ascii).

Definition skip (pos : nat) : nat := run_while bytes ascii_whitespace (length bytes) pos.

(** [peek]: the position behind the white space, and the byte there. *)
Definition peek (pos : nat) : nat * option ascii :=
  let pos := skip pos in (pos, bytes !! pos).

Definition literal (pos : nat) : option (result TaskError (BigRational * nat)) :=
  let start := pos in
  let pos := run_while bytes ascii_digit (length bytes) pos in
  let digits := take (pos - start) (drop start bytes) in
  if bool_decide (utf8_chars (N_of_ascii <$> digits) = None) then Some (Err (TaskSyntax start))
  else
    parsed ← BigInt_parse_decimal digits;
    let! value := Some (match parsed with
                        | Ok v => Ok v
                        | Err BigIntInvalidDecimal => Err (TaskSyntax start)
                        | Err other => Err (TaskError_from other)
                        end) in
    let! r := BigRational_int value in
    Some (Ok (r, pos)).

Section Levels.
(** [unary] at the depth of the caller. *)
Context (unary : nat → option (result TaskError (BigRational * nat))).

Fixpoint term_loop (fuel : nat) (value : BigRational) (pos : nat) :
    option (result TaskError (BigRational * nat)) :=
  match peek pos with
  | (pos, Some op) =>
      if bool_decide (op = "*"%char) || bool_decide (op = "/"%char) then
        match fuel with
        | O => None
        | S fuel =>
            let! rp := unary (S pos) in
            let! value :=
              (if bool_decide (op = "*"%char) then BigRational_mul value rp.1
               else BigRational_div value rp.1) in
            term_loop fuel value rp.2
        end
      else Some (Ok (value, pos))
  | (pos, None) => Some (Ok (value, pos))
  end.

Definition term (pos : nat) : option (result TaskError (BigRational * nat)) :=
  let! vp := unary pos in term_loop (length bytes) vp.1 vp.2.

Fixpoint expr_loop (fuel : nat) (value : BigRational) (pos : nat) :
    option (result TaskError (BigRational * nat)) :=
  match peek pos with
  | (pos, Some op) =>
      if bool_decide (op = "+"%char) || bool_decide (op = "-"%char) then
        match fuel with
        | O => None
        | S fuel =>
            let! rp := term (S pos) in
            let! value :=
              (if bool_decide (op = "-"%char) then BigRational_sub value rp.1
               else BigRational_add value rp.1) in
            expr_loop fuel value rp.2
        end
      else Some (Ok (value, pos))
  | (pos, None) => Some (Ok (value, pos))
  end.

Definition expr (pos : nat) : option (result TaskError (BigRational * nat)) :=
  let! vp := term pos in expr_loop (length bytes) vp.1 vp.2.
End Levels.

(** The recursion on the nesting depth; [unary] refuses [MAX_NESTING], so the
    fuel is one more than the depths left. *)
Fixpoint unary (fuel depth pos : nat) : option (result TaskError (BigRational * nat)) :=
  match fuel with
  | O => None
  | S fuel =>
      if decide (MAX_NESTING ≤ depth)%nat then Some (Err TaskNesting)
      else
        match peek pos with
        | (pos, Some c) =>
            if bool_decide (c = "-"%char) then
              let! vp := unary fuel (S depth) (S pos) in Some (Ok (BigRational_neg vp.1, vp.2))
            else if bool_decide (c = "+"%char) then unary fuel (S depth) (S pos)
            else if bool_decide (c = "("%char) then
              let! vp := expr (unary fuel (S depth)) (S pos) in
              match peek vp.2 with
              | (pos, Some close) =>
                  if bool_decide (close = ")"%char) then Some (Ok (vp.1, S pos))
                  else Some (Err (TaskSyntax pos))
              | (pos, None) => Some (Err (TaskSyntax pos))
              end
            else if ascii_digit c then literal pos
            else Some (Err (TaskSyntax pos))
        | (pos, None) => Some (Err (TaskSyntax pos))
        end
  end.
End Evaluator.

Definition NESTING_FUEL : nat := S MAX_NESTING.

Definition evaluate_task (task : string) : option (result TaskError Rational) :=
  if (MAX_TASK_BYTES <? slen task)%N then Some (Err TaskOversize)
  else
    let bytes := String.list_ascii_of_string task in
    let! vp := expr bytes (unary bytes NESTING_FUEL 0) 0 in
    match peek bytes vp.2 with
    | (pos, Some _) => Some (Err (TaskSyntax pos))
    | (_, None) => BigRational_to_small vp.1
    end.

(** ** The candidate *)

Inductive CandidateError :=
| CandidateFormat (why : string)
| CandidateBounds.

#[export] Instance CandidateError_eq_dec : EqDecision CandidateError.
Proof. solve_decision. Defined.

(** [checked_mul(10).and_then(checked_add).filter(<= MAX_MAGNITUDE)]. *)
Fixpoint parse_integer_loop (digits : list ascii) (value : Z) : result CandidateError Z :=
  match digits with
  | [] => Ok value
  | digit :: digits =>
      match (v ← i128c (value * 10); v ← i128c (v + digit_of digit);
             if v <=? MAX_MAGNITUDE then Some v else None) with
      | Some value => parse_integer_loop digits value
      | None => Err CandidateBounds
      end
  end.

Definition parse_integer (text : list ascii) : result CandidateError Z :=
  let '(negative, digits) :=
    match text with
    | "-"%char :: rest => (true, rest)
    | _ => (false, text)
    end in
  if bool_decide (digits = []) || negb (forallb ascii_digit digits)
  then Err (CandidateFormat "not an integer")
  else let? value := parse_integer_loop digits 0 in Ok (if negative : bool then - value else value).

(** [trim_start_matches], [trim_end_matches] and [trim_matches] of ASCII white
    space. *)
Fixpoint trim_start (text : list ascii) : list ascii :=
  match text with
  | a :: rest => if ascii_whitespace a then trim_start rest else text
  | [] => []
  end.
Definition trim_end (text : list ascii) : list ascii := reverse (trim_start (reverse text)).
Definition trim_ends (text : list ascii) : list ascii := trim_end (trim_start text).

(** [str::split_once] of one ASCII character. *)
Fixpoint split_at_char (c : ascii) (text : list ascii) : option (list ascii * list ascii) :=
  match text with
  | [] => None
  | a :: rest =>
      if bool_decide (a = c) then Some ([], rest)
      else '(l, r) ← split_at_char c rest; Some (a :: l, r)
  end.

Definition parse_candidate (text : list ascii) : option (result CandidateError Rational) :=
  let text := trim_ends text in
  let! nd := Some (match split_at_char "/"%char text with
                   | Some (n, d) =>
                       let? num := parse_integer (trim_end n) in
                       let? den := parse_integer (trim_start d) in
                       Ok (num, den)
                   | None => let? num := parse_integer text in Ok (num, 1)
                   end) in
  if nd.2 <=? 0 then Some (Err (CandidateFormat "denominator is not positive"))
  else r ← Rational_new nd.1 nd.2; Some (ok_or r CandidateBounds).

(** ** The verifier *)

Record ArithmeticVerifier := {
  av_task : string;
  av_task_len : N;
  av_expected : result TaskError Rational
}.

Definition ArithmeticVerifier_new (task : string) : option ArithmeticVerifier :=
  expected ← evaluate_task task;
  Some {| av_task := prefix_of task MAX_TASK_BYTES; av_task_len := slen task; av_expected := expected |}.

(** [checked_mul] of two [i128]s. *)
Definition direction (claimed expected : Rational) : string :=
  match i128c (rat_num claimed * rat_den expected), i128c (rat_num expected * rat_den claimed) with
  | Some l, Some r => if r <? l then "greater than" else "less than"
  | _, _ => "different from"
  end.

Definition ArithmeticVerifier_verify (v : ArithmeticVerifier) (candidate : string) :
    option VerificationReport :=
  match av_expected v with
  | Err error => status_report StatusUnknown [finding "arith.task" (TaskError_describe error)]
  | Ok expected =>
      if (ARITH_CANDIDATE_BYTES <? slen candidate)%N then
        status_report StatusFail [finding "arith.oversize"
          ("candidate is " +:+ to_string (slen candidate) +:+ " bytes, the bound is " +:+
           to_string ARITH_CANDIDATE_BYTES)]
      else
        parsed ← parse_candidate (String.list_ascii_of_string candidate);
        match parsed with
        | Err (CandidateFormat why) =>
            status_report StatusFail [finding "arith.format"
              ("candidate must be an integer or a/b: " +:+ why)]
        | Err CandidateBounds =>
            status_report StatusFail [finding "arith.bounds" "candidate magnitude exceeds 10^30"]
        | Ok claimed =>
            if decide (claimed = expected) then status_report StatusPass []
            else
              status_report StatusFail [finding "arith.value"
                ("claimed value is " +:+ direction claimed expected +:+ " the exact value")]
        end
  end.

#[export] Instance ArithmeticVerifier_named : NamedVerifier ArithmeticVerifier string := {|
  named_verifier := ArithmeticVerifier_verify;
  verifier_name := λ _, "arithmetic"
|}.
