(* ===== verification/RationalFacts.v ===== *)
(** * The rationals of the arithmetic verifier

    [BigRational] and [Rational] values are reduced fractions; every operation
    returns the reduced fraction of the exact rational result, or an error
    exactly when that fraction does not fit its bound.  The exact results are
    rationals of the Standard Library ([Q]), reduced by [Qred]. *)

From S2P Require Import Prelude Text BigInt LimbFacts BigIntFacts Arithmetic.
From Stdlib Require Import ZArith Lia QArith Qreduction Qcanon Strings.Ascii.
From stdpp Require Import options.

Local Open Scope Z_scope.

(** ** Reduced fractions *)

(** The rational [num / den], for [den] other than zero. *)
Definition qfrac (num den : Z) : Q := Qmake (Z.sgn den * num) (Z.to_pos (Z.abs den)).

Lemma Qred_unique n d q : 0 < d → Z.gcd n d = 1 → (Qmake n (Z.to_pos d) == q)%Q → Qred q = Qmake n (Z.to_pos d).
Proof.
  intros Hd Hg E. rewrite <- (Qred_complete _ _ E). apply Qred_identity. cbn [Qnum Qden].
  by rewrite Z2Pos.id.
Qed.

Lemma qfrac_eq n d n' d' : d ≠ 0 → d' ≠ 0 → n * d' = n' * d → (qfrac n d == qfrac n' d')%Q.
Proof.
  intros Hd Hd' E. unfold qfrac, Qeq. cbn [Qnum Qden]. rewrite !Z2Pos.id by lia.
  assert (Z.abs d = Z.sgn d * d) as -> by (destruct d; cbn; lia).
  assert (Z.abs d' = Z.sgn d' * d') as -> by (destruct d'; cbn; lia). nia.
Qed.

Lemma qfrac_pos n d : 0 < d → qfrac n d = Qmake n (Z.to_pos d).
Proof. intros Hd. unfold qfrac. rewrite Z.sgn_pos, Z.abs_eq, Z.mul_1_l by lia. done. Qed.

(** Dividing by the gcd and making the denominator positive reduces. *)
Lemma fraction_reduced num den : den ≠ 0 →
  let g := Z.gcd num den in
  let n := Z.sgn den * Z.quot num g in
  let d := Z.abs (Z.quot den g) in
  0 < g ∧ Z.rem num g = 0 ∧ Z.rem den g = 0 ∧ 0 < d ∧ Z.sgn (Z.quot den g) = Z.sgn den ∧
  Qred (qfrac num den) = Qmake n (Z.to_pos d).
Proof.
  intros Hden g n d. assert (Hg : 0 < g).
  { pose proof (Z.gcd_nonneg num den). assert (g ≠ 0); [|subst g; lia]. intros E.
    apply Z.gcd_eq_0_r in E. done. }
  destruct (Z.gcd_divide_l num den) as [a Ha]. destruct (Z.gcd_divide_r num den) as [b Hb]. fold g in Ha, Hb.
  assert (Eq1 : Z.quot num g = a) by (rewrite Ha; apply Z.quot_mul; lia).
  assert (Eq2 : Z.quot den g = b) by (rewrite Hb; apply Z.quot_mul; lia).
  assert (Er1 : Z.rem num g = 0) by (rewrite Ha; apply Z.rem_mul; lia).
  assert (Er2 : Z.rem den g = 0) by (rewrite Hb; apply Z.rem_mul; lia).
  assert (Hb0 : b ≠ 0) by (intros ->; lia).
  assert (Hsgn : Z.sgn b = Z.sgn den).
  { rewrite Hb, Z.sgn_mul, (Z.sgn_pos g) by lia. lia. }
  assert (Hab : Z.gcd a b = 1).
  { pose proof (Z.gcd_mul_mono_r_nonneg a b g ltac:(lia)) as E. rewrite <- Ha, <- Hb in E. fold g in E. nia. }
  subst n d. rewrite Eq1, Eq2, Hsgn. split_and!; [done..|lia|done|].
  apply Qred_unique; [lia| |].
  - assert (Z.gcd (Z.sgn den * a) (Z.abs b) = Z.gcd a b) as ->; [|done].
    rewrite Z.gcd_abs_r. destruct den; cbn [Z.sgn]; rewrite ?Z.mul_1_l, ?Z.mul_opp_l, ?Z.gcd_opp_l; (done || lia).
  - rewrite <- qfrac_pos by lia. apply qfrac_eq; [lia|done|]. rewrite <- Hsgn, Ha, Hb at 1.
    assert (Z.abs b = Z.sgn b * b) as -> by (destruct b; cbn; lia). ring.
Qed.

(** ** [BigRational] *)

(** The bound on the reduced numerator and denominator: 2 ^ 512. *)
Definition value_bound : Z := weight MAX_VALUE_LIMBS.
Definition q_within (q : Q) : bool := (Z.abs (Qnum q) <? value_bound) && (Zpos (Qden q) <? value_bound).

(** The exact result [q] of an operation: reduced, within the bound. *)
Definition limited (q : Q) : result TaskError Q :=
  let q := Qred q in if q_within q then Ok q else Err TaskOverflow.

(** The representation of a reduced rational. *)
Definition brepr (q : Q) : BigRational := mkBigRational (repr (Qnum q)) (repr (Zpos (Qden q))).
Definition q_ok (q : Q) : Prop := Qred q = q ∧ q_within q = true.

Definition rmap {E A B} (f : A → B) (r : result E A) : result E B :=
  match r with
  | Ok a => Ok (f a)
  | Err e => Err e
  end.

#[export] Instance limited_proper : Proper (Qeq ==> eq) limited.
Proof. intros p q E. unfold limited. by rewrite (Qred_complete _ _ E). Qed.

Lemma limited_ok q q' : limited q = Ok q' → q_ok q' ∧ (q' == q)%Q.
Proof.
  unfold limited. destruct (q_within (Qred q)) eqn:E; [|done]. intros [= <-].
  split; [split; [|done]|apply Qred_correct]. apply Qred_complete, Qred_correct.
Qed.

Lemma value_bound_le : value_bound * value_bound * 2 <= big_bound.
Proof. vm_compute. discriminate. Qed.

Lemma q_ok_bounds q : q_ok q → Z.abs (Qnum q) < value_bound ∧ Zpos (Qden q) < value_bound ∧
  fits (Qnum q) ∧ fits (Zpos (Qden q)).
Proof.
  intros [_ H]. apply andb_true_iff in H as [H1%Z.ltb_lt H2%Z.ltb_lt].
  pose proof value_bound_le. assert (0 < value_bound) by apply weight_pos. unfold fits. split_and!; nia.
Qed.

Lemma limbs_within z : fits z → (BigInt_limbs (repr z) ≤ MAX_VALUE_LIMBS)%nat ↔ Z.abs z < value_bound.
Proof.
  intros Hf. destruct (limbs_of_ok MAX_LIMBS (Z.abs z)) as ([Hl Ht] & Hv & _); [split; [lia|exact Hf]|].
  unfold BigInt_limbs, repr, value_bound. cbn [big_mag]. rewrite <- Hv at 2. split.
  - intros Hlen. pose proof (mag_val_bound _ Hl). pose proof (weight_mono _ _ Hlen). lia.
  - intros Hlt. set (l := limbs_of MAX_LIMBS (Z.abs z)) in *.
    destruct (decide (length l ≤ MAX_VALUE_LIMBS)%nat) as [|Hn]; [done|].
    assert (l ≠ []) by (intros E; rewrite E in Hn; simpl in Hn; lia).
    pose proof (trimmed_low _ Hl Ht ltac:(done)).
    pose proof (weight_mono MAX_VALUE_LIMBS (pred (length l)) ltac:(lia)). lia.
Qed.

Lemma is_zero_repr z : fits z → BigInt_is_zero (repr z) = (z =? 0).
Proof. intros H. destruct (repr_wf z H) as [Hw Hv]. by rewrite is_zero_ok, Hv. Qed.

Lemma is_negative_repr z : BigInt_is_negative (repr z) = (z <? 0).
Proof. done. Qed.

Lemma neg_repr z : fits z → BigInt_neg (repr z) = repr (- z).
Proof. intros H. destruct (repr_wf z H) as [Hw Hv]. by rewrite neg_ok, Hv. Qed.

Lemma div_exact_repr a b : fits a → fits b → b ≠ 0 → Z.rem a b = 0 →
  big (BigInt_div_exact (repr a) (repr b)) = Some (Ok (Some (repr (Z.quot a b)))).
Proof.
  intros Ha Hb Hne Hr. destruct (repr_wf a Ha) as [Hwa Hva]. destruct (repr_wf b Hb) as [Hwb Hvb].
  unfold big. rewrite div_exact_ok by (done || by rewrite Hvb). by rewrite Hva, Hvb, Hr.
Qed.

Lemma quot_fits a b : fits a → b ≠ 0 → fits (Z.quot a b).
Proof. intros Ha Hb. destruct (quot_rem_small a b Hb). unfold fits in *. lia. Qed.

(** [BigRational::new] reduces. *)
Lemma BigRational_new_ok num den : fits num → fits den →
  BigRational_new (repr num) (repr den) =
    Some (if den =? 0 then Err TaskDivisionByZero else rmap brepr (limited (qfrac num den))).
Proof.
  intros Hn Hd. unfold BigRational_new. rewrite is_zero_repr by done.
  destruct (Z.eqb_spec den 0) as [|Hne]; [done|].
  destruct (fraction_reduced num den Hne) as (Hg & Hr1 & Hr2 & Hpos & Hsgn & Hred).
  set (g := Z.gcd num den) in *. pose proof (gcd_fits num den Hn Hd) as Hgf. fold g in Hgf.
  destruct (repr_wf num Hn) as [Hwn Hvn]. destruct (repr_wf den Hd) as [Hwd Hvd].
  rewrite gcd_ok, Hvn, Hvd by done. fold g. cbn [mbind option_bind].
  rewrite !div_exact_repr by (done || lia). cbn [fbind ok_or].
  pose proof (quot_fits num g Hn ltac:(lia)) as Hqn. pose proof (quot_fits den g Hd ltac:(lia)) as Hqd.
  rewrite is_negative_repr. unfold limited. rewrite Hred. set (n := Z.sgn den * Z.quot num g).
  set (d := Z.abs (Z.quot den g)) in *.
  assert (E : (if Z.quot den g <? 0 then (BigInt_neg (repr (Z.quot num g)), BigInt_neg (repr (Z.quot den g)))
               else (repr (Z.quot num g), repr (Z.quot den g))) = (repr n, repr d) ∧ fits n ∧ fits d).
  { subst n d. destruct (Z.ltb_spec (Z.quot den g) 0) as [Hneg|Hge].
    - rewrite !neg_repr, <- Hsgn, Z.sgn_neg, Z.abs_neq by (done || lia).
      assert (-1 * Z.quot num g = - Z.quot num g) as -> by lia. split_and!; [done|by apply fits_opp..].
    - rewrite <- Hsgn, Z.sgn_pos, Z.abs_eq, Z.mul_1_l by lia. done. }
  destruct E as (-> & Hfn & Hfd). unfold q_within. cbn [Qnum Qden]. rewrite Z2Pos.id by done.
  pose proof (limbs_within n Hfn) as Hln. pose proof (limbs_within d Hfd) as Hld. rewrite (Z.abs_eq d) in Hld by lia.
  destruct (decide _) as [Hbig|Hfit].
  - destruct (_ && _) eqn:E; [|done]. apply andb_true_iff in E as [E1%Z.ltb_lt%Hln E2%Z.ltb_lt%Hld]. lia.
  - rewrite (proj2 (Z.ltb_lt _ _)), (proj2 (Z.ltb_lt _ _)) by (apply Hln || apply Hld; lia).
    cbn [andb rmap]. unfold brepr. cbn [Qnum Qden]. by rewrite Z2Pos.id.
Qed.

(** ** Operations *)

Lemma mul_repr a b : fits a → fits b → fits (a * b) →
  big (BigInt_mul (repr a) (repr b)) = Some (Ok (repr (a * b))).
Proof.
  intros Ha Hb Hab. destruct (repr_wf a Ha) as [Hwa Hva]. destruct (repr_wf b Hb) as [Hwb Hvb].
  unfold big. by rewrite mul_ok, Hva, Hvb, bounded_fits by done.
Qed.

Lemma add_repr a b : fits a → fits b → fits (a + b) →
  big (BigInt_add (repr a) (repr b)) = Some (Ok (repr (a + b))).
Proof.
  intros Ha Hb Hab. destruct (repr_wf a Ha) as [Hwa Hva]. destruct (repr_wf b Hb) as [Hwb Hvb].
  unfold big. by rewrite add_ok, Hva, Hvb, bounded_fits by done.
Qed.

Lemma sub_repr a b : fits a → fits b → fits (a - b) →
  big (BigInt_sub (repr a) (repr b)) = Some (Ok (repr (a - b))).
Proof.
  intros Ha Hb Hab. destruct (repr_wf a Ha) as [Hwa Hva]. destruct (repr_wf b Hb) as [Hwb Hvb].
  unfold big. by rewrite sub_ok, Hva, Hvb, bounded_fits by done.
Qed.

(** A product of two values within the bound, and a sum of two products. *)
Lemma product_bound a b : Z.abs a < value_bound → Z.abs b < value_bound →
  Z.abs (a * b) < value_bound * value_bound ∧ fits (a * b).
Proof.
  intros Ha Hb. assert (Hab : Z.abs (a * b) < value_bound * value_bound) by (rewrite Z.abs_mul; nia).
  split; [done|]. unfold fits. pose proof value_bound_le. lia.
Qed.

Ltac product_fits :=
  first [ apply product_bound; (assumption || lia)
        | unfold fits; pose proof value_bound_le;
          repeat match goal with
          | |- context [?a * ?b] =>
              lazymatch goal with
              | H : Z.abs (a * b) < _ |- _ => fail
              | _ => let H := fresh in pose proof (proj1 (product_bound a b ltac:(assumption || lia) ltac:(assumption || lia))) as H
              end
          end; lia ].

Lemma BigRational_add_ok p q : q_ok p → q_ok q →
  BigRational_add (brepr p) (brepr q) = Some (rmap brepr (limited (p + q))).
Proof.
  intros Hp Hq. destruct (q_ok_bounds p Hp) as (Hp1 & Hp2 & Hp3 & Hp4).
  destruct (q_ok_bounds q Hq) as (Hq1 & Hq2 & Hq3 & Hq4). unfold BigRational_add, brepr at 1 2 3 4 5 6.
  cbn [br_num br_den]. rewrite !mul_repr by (done || product_fits). cbn [fbind].
  destruct (product_bound (Qnum p) (Zpos (Qden q))) as [Ba Fa]; [lia..|].
  destruct (product_bound (Qnum q) (Zpos (Qden p))) as [Bb Fb]; [lia..|].
  destruct (product_bound (Zpos (Qden p)) (Zpos (Qden q))) as [Bc Fc]; [lia..|].
  assert (Fs : fits (Qnum p * Zpos (Qden q) + Qnum q * Zpos (Qden p)))
    by (unfold fits; pose proof value_bound_le; lia).
  rewrite add_repr by done. cbn [fbind]. rewrite BigRational_new_ok by done.
  rewrite (proj2 (Z.eqb_neq _ _)) by lia. by rewrite qfrac_pos by lia.
Qed.

Lemma BigRational_sub_ok p q : q_ok p → q_ok q →
  BigRational_sub (brepr p) (brepr q) = Some (rmap brepr (limited (p - q))).
Proof.
  intros Hp Hq. destruct (q_ok_bounds p Hp) as (Hp1 & Hp2 & Hp3 & Hp4).
  destruct (q_ok_bounds q Hq) as (Hq1 & Hq2 & Hq3 & Hq4). unfold BigRational_sub, brepr at 1 2 3 4 5 6.
  cbn [br_num br_den]. rewrite !mul_repr by (done || product_fits). cbn [fbind].
  destruct (product_bound (Qnum p) (Zpos (Qden q))) as [Ba Fa]; [lia..|].
  destruct (product_bound (Qnum q) (Zpos (Qden p))) as [Bb Fb]; [lia..|].
  destruct (product_bound (Zpos (Qden p)) (Zpos (Qden q))) as [Bc Fc]; [lia..|].
  assert (Fs : fits (Qnum p * Zpos (Qden q) - Qnum q * Zpos (Qden p)))
    by (unfold fits; pose proof value_bound_le; lia).
  rewrite sub_repr by done. cbn [fbind]. rewrite BigRational_new_ok by done.
  rewrite (proj2 (Z.eqb_neq _ _)) by lia. rewrite qfrac_pos by lia.
  unfold Qminus, Qplus, Qopp. cbn [Qnum Qden]. by rewrite Z.mul_opp_l.
Qed.

Lemma BigRational_mul_ok p q : q_ok p → q_ok q →
  BigRational_mul (brepr p) (brepr q) = Some (rmap brepr (limited (p * q))).
Proof.
  intros Hp Hq. destruct (q_ok_bounds p Hp) as (Hp1 & Hp2 & Hp3 & Hp4).
  destruct (q_ok_bounds q Hq) as (Hq1 & Hq2 & Hq3 & Hq4). unfold BigRational_mul, brepr at 1 2 3 4.
  cbn [br_num br_den]. rewrite !mul_repr by (done || product_fits). cbn [fbind].
  destruct (product_bound (Qnum p) (Qnum q)) as [Ba Fa]; [lia..|].
  destruct (product_bound (Zpos (Qden p)) (Zpos (Qden q))) as [Bc Fc]; [lia..|].
  rewrite BigRational_new_ok by done.
  rewrite (proj2 (Z.eqb_neq _ _)) by lia. by rewrite qfrac_pos by lia.
Qed.

Lemma qfrac_div p q : Qnum q ≠ 0 → (qfrac (Qnum p * Zpos (Qden q)) (Zpos (Qden p) * Qnum q) == p / q)%Q.
Proof.
  intros Hq. destruct p as [pn pd], q as [qn qd]. cbn [Qnum Qden] in *.
  unfold Qdiv, Qinv, Qmult, qfrac, Qeq. destruct qn as [|n|n]; [done|..]; cbn [Qnum Qden Z.sgn Z.abs].
  all: change (Zpos pd * Zpos n) with (Zpos (pd * n)); change (Zpos pd * Zneg n) with (Zneg (pd * n));
    cbn [Z.sgn].
  all: rewrite <- ?Pos2Z.opp_pos, ?Z.abs_opp, ?Z.abs_eq, Z2Pos.id, ?Pos2Z.inj_mul by lia; ring.
Qed.

Lemma BigRational_div_ok p q : q_ok p → q_ok q →
  BigRational_div (brepr p) (brepr q) =
    Some (if Qeq_bool q 0 then Err TaskDivisionByZero else rmap brepr (limited (p / q))).
Proof.
  intros Hp Hq. destruct (q_ok_bounds p Hp) as (Hp1 & Hp2 & Hp3 & Hp4).
  destruct (q_ok_bounds q Hq) as (Hq1 & Hq2 & Hq3 & Hq4). unfold BigRational_div, brepr at 1 2 3 4 5.
  cbn [br_num br_den]. rewrite is_zero_repr by done.
  assert (Qeq_bool q 0 = (Qnum q =? 0)) as ->.
  { unfold Qeq_bool. cbn [Qnum Qden]. rewrite Z.mul_1_r, Z.mul_0_l. unfold Zeq_bool.
    destruct (Qnum q); done. }
  destruct (Z.eqb_spec (Qnum q) 0) as [|Hz]; [done|].
  rewrite !mul_repr by (done || product_fits). cbn [fbind].
  destruct (product_bound (Qnum p) (Zpos (Qden q))) as [Ba Fa]; [lia..|].
  destruct (product_bound (Zpos (Qden p)) (Qnum q)) as [Bc Fc]; [lia..|].
  rewrite BigRational_new_ok by done.
  rewrite (proj2 (Z.eqb_neq _ _)) by lia. by rewrite (qfrac_div p q Hz).
Qed.

Lemma BigRational_neg_ok p : q_ok p → BigRational_neg (brepr p) = brepr (- p) ∧ q_ok (- p).
Proof.
  intros Hp. destruct (q_ok_bounds p Hp) as (Hp1 & Hp2 & Hp3 & Hp4). split.
  - unfold BigRational_neg, brepr. cbn [br_num br_den]. by rewrite neg_repr.
  - destruct Hp as [Hr Hw]. split; [by rewrite Qred_opp, Hr|].
    unfold q_within in *. cbn [Qnum Qden Qopp]. by rewrite Z.abs_opp.
Qed.

Lemma BigRational_int_ok z : fits z → BigRational_int (repr z) = Some (rmap brepr (limited (inject_Z z))).
Proof.
  intros Hz. unfold BigRational_int. rewrite from_i128_ok by lia.
  rewrite BigRational_new_ok by (done || by apply i128_fits; lia). by rewrite qfrac_pos by lia.
Qed.

(** ** [Rational] *)

Lemma gcd_u128_loop_ok k : ∀ fuel a b, 0 <= a → 0 <= b < 2 ^ Z.of_nat k → (2 * k ≤ fuel)%nat →
  gcd_u128_loop fuel a b = Some (Z.gcd a b).
Proof.
  induction k as [|k IH]; intros fuel a b Ha Hb Hf.
  - assert (b = 0) as -> by (simpl in Hb; lia). rewrite Z.gcd_0_r, Z.abs_eq by done. by destruct fuel.
  - destruct fuel as [|[|fuel]]; [lia..|]. cbn [gcd_u128_loop].
    destruct (Z.eqb_spec b 0) as [->|Hz]; [by rewrite Z.gcd_0_r, Z.abs_eq|].
    pose proof (Z.mod_pos_bound a b ltac:(lia)).
    assert (Hg : Z.gcd b (a mod b) = Z.gcd a b) by (rewrite Z.gcd_comm, Z.gcd_mod, Z.gcd_comm by lia; done).
    destruct (Z.eqb_spec (a mod b) 0) as [E|Hr]; [by rewrite <- Hg, E, Z.gcd_0_r, Z.abs_eq by lia|].
    rewrite IH; [|lia| |lia].
    + f_equal. rewrite <- Hg, Z.gcd_comm, Z.gcd_mod, Z.gcd_comm by lia. done.
    + pose proof (Z.mod_pos_bound b (a mod b) ltac:(lia)). pose proof (euclid_halves a b ltac:(lia) ltac:(lia)).
      rewrite Nat2Z.inj_succ, Z.pow_succ_r in Hb by lia. lia.
Qed.

Lemma i128c_ok z : - 2 ^ 127 <= z < 2 ^ 127 → i128c z = Some z.
Proof. intros [? ?]. unfold i128c, i128_ok. by rewrite (proj2 (Z.leb_le _ _)), (proj2 (Z.ltb_lt _ _)). Qed.

(** The bound on the task's value and on a candidate. *)
Definition small_within (q : Q) : bool := (Z.abs (Qnum q) <=? MAX_MAGNITUDE) && (Zpos (Qden q) <=? MAX_MAGNITUDE).
Definition srepr (q : Q) : Rational := mkRational (Qnum q) (Zpos (Qden q)).

Lemma Rational_new_ok num den : - 2 ^ 127 < num < 2 ^ 127 → - 2 ^ 127 < den < 2 ^ 127 → den ≠ 0 →
  Rational_new num den =
    Some (let q := Qred (qfrac num den) in if small_within q then Some (srepr q) else None).
Proof.
  intros Hn Hd Hne. unfold Rational_new.
  rewrite !(proj2 (Z.eqb_neq _ _)) by lia. cbn [orb].
  destruct (fraction_reduced num den Hne) as (Hg & Hr1 & Hr2 & Hpos & Hsgn & Hred).
  unfold gcd_u128. rewrite (gcd_u128_loop_ok 128) by lia. cbn [mbind option_bind].
  rewrite Z.gcd_abs_l, Z.gcd_abs_r. set (g := Z.gcd num den) in *.
  assert (Hgd : g <= Z.abs den).
  { apply Z.divide_pos_le; [lia|]. apply Z.divide_abs_r, Z.gcd_divide_r. }
  unfold i128_try_from. rewrite (proj2 (Z.ltb_lt _ _)) by lia. unfold div_i128.
  rewrite (proj2 (Z.eqb_neq g 0)) by lia.
  destruct (quot_rem_small num g ltac:(lia)) as [Bn _]. destruct (quot_rem_small den g ltac:(lia)) as [Bd _].
  rewrite (i128c_ok (Z.quot num g)), (i128c_ok (Z.quot den g)) by lia. cbn [mbind option_bind].
  rewrite Hred. set (n := Z.sgn den * Z.quot num g). set (d := Z.abs (Z.quot den g)) in *.
  assert (E : (if Z.quot den g <? 0 then
                 n ← i128c (- Z.quot num g); d ← i128c (- Z.quot den g); Some (n, d)
               else Some (Z.quot num g, Z.quot den g)) = Some (n, d) ∧ Z.abs n < 2 ^ 127).
  { subst n d. destruct (Z.ltb_spec (Z.quot den g) 0) as [Hneg|Hge].
    - rewrite !i128c_ok by lia. cbn [mbind option_bind]. rewrite <- Hsgn, Z.sgn_neg, Z.abs_neq by lia.
      assert (-1 * Z.quot num g = - Z.quot num g) as -> by lia. split; [done|lia].
    - rewrite <- Hsgn, Z.sgn_pos, Z.abs_eq, Z.mul_1_l by lia. split; [done|lia]. }
  destruct E as [-> Hnb]. cbn [mbind option_bind]. rewrite i128c_ok by lia. cbn [mbind option_bind].
  unfold small_within, srepr. cbn [Qnum Qden]. rewrite Z2Pos.id, !Z.leb_antisym by done.
  by destruct (MAX_MAGNITUDE <? Z.abs n), (MAX_MAGNITUDE <? d).
Qed.

Lemma BigRational_to_small_ok q : q_ok q →
  BigRational_to_small (brepr q) = Some (if small_within q then Ok (srepr q) else Err TaskOverflow).
Proof.
  intros Hq. destruct (q_ok_bounds q Hq) as (_ & _ & Hf1 & Hf2). destruct Hq as [Hr _].
  unfold BigRational_to_small, brepr. cbn [br_num br_den].
  destruct (repr_wf _ Hf1) as [Hw1 Hv1]. destruct (repr_wf _ Hf2) as [Hw2 Hv2].
  rewrite !to_i128_ok, Hv1, Hv2 by done.
  assert (Hm : MAX_MAGNITUDE < 2 ^ 127) by done.
  destruct ((- 2 ^ 127 <=? Qnum q) && (Qnum q <? 2 ^ 127)) eqn:E1.
  2: { cbn [ok_or fbind]. unfold small_within. destruct (Z.leb_spec (Z.abs (Qnum q)) MAX_MAGNITUDE); [|done].
       apply andb_false_iff in E1 as [E1%Z.leb_gt|E1%Z.ltb_ge]; lia. }
  apply andb_true_iff in E1 as [E1%Z.leb_le E1'%Z.ltb_lt].
  destruct ((- 2 ^ 127 <=? Zpos (Qden q)) && (Zpos (Qden q) <? 2 ^ 127)) eqn:E2.
  2: { cbn [ok_or fbind]. unfold small_within. rewrite andb_comm.
       destruct (Z.leb_spec (Zpos (Qden q)) MAX_MAGNITUDE); [|done].
       apply andb_false_iff in E2 as [E2%Z.leb_gt|E2%Z.ltb_ge]; lia. }
  apply andb_true_iff in E2 as [E2%Z.leb_le E2'%Z.ltb_lt]. cbn [ok_or fbind].
  destruct (decide (Qnum q = - 2 ^ 127)) as [Emin|Hmin].
  - unfold Rational_new. rewrite Emin. cbn [Z.eqb orb]. unfold small_within. rewrite Emin. done.
  - rewrite Rational_new_ok by lia. rewrite qfrac_pos by done. destruct q as [n d]. cbn [Qnum Qden Z.to_pos] in *.
    rewrite Hr. cbn [mbind option_bind]. by destruct (small_within _).
Qed.

(** * The language of tasks, as a specification

    Expressions, their exact value as a rational ([denote]), the same value
    computed within the bounds of the evaluator ([eval_q]), and the grammar: which
    text is which expression.  The grammar counts the nesting of signs and
    parentheses, which the evaluator bounds by [MAX_NESTING]. *)

Inductive arith :=
| ANum (n : Z)
| APos (e : arith)
| ANeg (e : arith)
| AAdd (a b : arith)
| ASub (a b : arith)
| AMul (a b : arith)
| ADiv (a b : arith).

(** The exact value; a division by zero has none. *)
Fixpoint denote (e : arith) : option Q :=
  match e with
  | ANum n => Some (inject_Z n)
  | APos e => denote e
  | ANeg e => q ← denote e; Some (- q)%Q
  | AAdd a b => p ← denote a; q ← denote b; Some (p + q)%Q
  | ASub a b => p ← denote a; q ← denote b; Some (p - q)%Q
  | AMul a b => p ← denote a; q ← denote b; Some (p * q)%Q
  | ADiv a b => p ← denote a; q ← denote b; if Qeq_bool q 0 then None else Some (p / q)%Q
  end.

(** The reduced value, refused when a literal or a result of an operation does
    not fit; operands are evaluated from left to right. *)
Fixpoint eval_q (e : arith) : result TaskError Q :=
  match e with
  | ANum n => limited (inject_Z n)
  | APos e => eval_q e
  | ANeg e => let? q := eval_q e in Ok (- q)%Q
  | AAdd a b => let? p := eval_q a in let? q := eval_q b in limited (p + q)
  | ASub a b => let? p := eval_q a in let? q := eval_q b in limited (p - q)
  | AMul a b => let? p := eval_q a in let? q := eval_q b in limited (p * q)
  | ADiv a b =>
      let? p := eval_q a in let? q := eval_q b in
      if Qeq_bool q 0 then Err TaskDivisionByZero else limited (p / q)
  end.

(** ** The grammar *)

Definition blank (w : list ascii) : Prop := forallb ascii_whitespace w = true.

Inductive unary_text : nat → list ascii → arith → Prop :=
| U_num d w ds : (d < MAX_NESTING)%nat → blank w → ds ≠ [] → forallb ascii_digit ds = true →
    unary_text d (w ++ ds) (ANum (dec_val 0 ds))
| U_neg d w s e : (d < MAX_NESTING)%nat → blank w → unary_text (S d) s e →
    unary_text d (w ++ "-"%char :: s) (ANeg e)
| U_pos d w s e : (d < MAX_NESTING)%nat → blank w → unary_text (S d) s e →
    unary_text d (w ++ "+"%char :: s) (APos e)
| U_paren d w s w' e : (d < MAX_NESTING)%nat → blank w → expr_text (S d) s e → blank w' →
    unary_text d (w ++ "("%char :: s ++ w' ++ [")"%char]) e
with term_text : nat → list ascii → arith → Prop :=
| T_unary d s e : unary_text d s e → term_text d s e
| T_mul d s a w t b : term_text d s a → blank w → unary_text d t b →
    term_text d (s ++ w ++ "*"%char :: t) (AMul a b)
| T_div d s a w t b : term_text d s a → blank w → unary_text d t b →
    term_text d (s ++ w ++ "/"%char :: t) (ADiv a b)
with expr_text : nat → list ascii → arith → Prop :=
| E_term d s e : term_text d s e → expr_text d s e
| E_add d s a w t b : expr_text d s a → blank w → term_text d t b →
    expr_text d (s ++ w ++ "+"%char :: t) (AAdd a b)
| E_sub d s a w t b : expr_text d s a → blank w → term_text d t b →
    expr_text d (s ++ w ++ "-"%char :: t) (ASub a b).

Scheme unary_text_mut := Induction for unary_text Sort Prop
with term_text_mut := Induction for term_text Sort Prop
with expr_text_mut := Induction for expr_text Sort Prop.
Combined Scheme text_mut from unary_text_mut, term_text_mut, expr_text_mut.

(** The text of a task: an expression and trailing white space. *)
Definition task_text (s : list ascii) (e : arith) : Prop :=
  ∃ t w, s = t ++ w ∧ expr_text 0 t e ∧ blank w.

(** ** The bounded value is the exact value *)

Lemma binary_ok a b (op : Q → Q → Q) q :
  Proper (Qeq ==> Qeq ==> Qeq) op →
  (∀ q, eval_q a = Ok q → q_ok q ∧ ∃ q', denote a = Some q' ∧ (q == q')%Q) →
  (∀ q, eval_q b = Ok q → q_ok q ∧ ∃ q', denote b = Some q' ∧ (q == q')%Q) →
  (let? x := eval_q a in let? y := eval_q b in limited (op x y)) = Ok q →
  q_ok q ∧ ∃ q', (x ← denote a; y ← denote b; Some (op x y)) = Some q' ∧ (q == q')%Q.
Proof.
  intros Hop IHa IHb H. destruct (eval_q a) as [p|]; [|done]. cbn in H. destruct (eval_q b) as [r|]; [|done].
  cbn in H. destruct (IHa p eq_refl) as (_ & p' & -> & Ep). destruct (IHb r eq_refl) as (_ & r' & -> & Er).
  apply limited_ok in H as [Hok E]. split; [done|]. eexists. split; [done|]. by rewrite E, Ep, Er.
Qed.

Lemma eval_q_ok e : ∀ q, eval_q e = Ok q → q_ok q ∧ ∃ q', denote e = Some q' ∧ (q == q')%Q.
Proof.
  induction e as [n|e IH|e IH|a IHa b IHb|a IHa b IHb|a IHa b IHb|a IHa b IHb];
    intros q H; cbn [eval_q denote] in *; 
    [| | |by apply (binary_ok a b Qplus q _)|by apply (binary_ok a b Qminus q _)|by apply (binary_ok a b Qmult q _)|].
  - apply limited_ok in H as [Hok E]. split; [done|]. eauto.
  - by apply IH.
  - destruct (eval_q e) as [p|]; [|done]. cbn in H. injection H as <-.
    destruct (IH p eq_refl) as (Hok & p' & -> & E). split; [by apply BigRational_neg_ok|].
    eexists. split; [done|]. by rewrite E.
  - destruct (eval_q a) as [p|]; [|done]. cbn in H. destruct (eval_q b) as [r|]; [|done]. cbn in H.
    destruct (IHa p eq_refl) as (_ & p' & -> & Ep). destruct (IHb r eq_refl) as (_ & r' & -> & Er).
    destruct (Qeq_bool r 0) eqn:Ez; [done|]. apply limited_ok in H as [Hok E]. split; [done|].
    cbn. assert (Qeq_bool r' 0 = false) as ->.
    { apply not_true_iff_false. intros H%Qeq_bool_iff. apply not_true_iff_false in Ez. apply Ez.
      apply Qeq_bool_iff. by rewrite Er. }
    eexists. split; [done|]. by rewrite E, Ep, Er.
Qed.

(** The bounded evaluation answers [DivisionByZero] only where there is no
    value. *)
Lemma eval_q_division e : eval_q e = Err TaskDivisionByZero → denote e = None.
Proof.
  assert (Hlim : ∀ q, limited q ≠ Err TaskDivisionByZero) by (intros q; unfold limited; by destruct (q_within _)).
  assert (Hbin : ∀ a b (f : Q → Q → result TaskError Q) (g : Q → Q → option Q),
    (eval_q a = Err TaskDivisionByZero → denote a = None) →
    (eval_q b = Err TaskDivisionByZero → denote b = None) →
    (∀ p q p' q', (p == p')%Q → (q == q')%Q → f p q = Err TaskDivisionByZero → g p' q' = None) →
    (let? p := eval_q a in let? q := eval_q b in f p q) = Err TaskDivisionByZero →
    (p ← denote a; q ← denote b; g p q) = None).
  { intros a b f g Ha Hb Hf H. destruct (eval_q a) as [p|ea] eqn:Ea.
    2: { cbn in H. injection H as ->. by rewrite Ha. }
    destruct (eval_q_ok a p Ea) as (_ & p' & -> & Ep). cbn in H |- *. destruct (eval_q b) as [q|eb] eqn:Eb.
    2: { cbn in H. injection H as ->. by rewrite Hb. }
    destruct (eval_q_ok b q Eb) as (_ & q' & -> & Eq). cbn in H |- *. by eapply Hf. }
  induction e as [n|e IH|e IH|a IHa b IHb|a IHa b IHb|a IHa b IHb|a IHa b IHb]; cbn [eval_q denote]; intros H.
  - by apply Hlim in H.
  - by apply IH.
  - destruct (eval_q e); [done|]. cbn in H. injection H as ->. by rewrite IH.
  - eapply (Hbin a b _ (λ p q, Some (p + q)%Q)); [done..| |exact H]. intros p q p' q' _ _ H1. by apply Hlim in H1.
  - eapply (Hbin a b _ (λ p q, Some (p - q)%Q)); [done..| |exact H]. intros p q p' q' _ _ H1. by apply Hlim in H1.
  - eapply (Hbin a b _ (λ p q, Some (p * q)%Q)); [done..| |exact H]. intros p q p' q' _ _ H1. by apply Hlim in H1.
  - eapply (Hbin a b _ (λ p q, if Qeq_bool q 0 then None else Some (p / q)%Q)); [done..| |exact H].
    intros p q p' q' _ Eq H1. cbv beta in H1. destruct (Qeq_bool q 0) eqn:Ez; [|by apply Hlim in H1].
    apply Qeq_bool_iff in Ez. assert (Qeq_bool q' 0 = true) as ->; [|done].
    apply Qeq_bool_iff. by rewrite <- Eq.
Qed.
