(* ===== verification/EvaluatorFacts.v ===== *)
(** * The evaluator computes the value of its text

    Completeness: on the text of an expression the evaluator returns the bounded
    value of that expression, whichever way the grammar derives it.  Soundness:
    what the evaluator returns a value for is the text of an expression.  Neither
    panics nor runs out of fuel. *)

From S2P Require Import Prelude Bytes Text BigInt BigIntFacts Arithmetic RationalFacts.
From Stdlib Require Import ZArith Lia QArith Strings.Ascii.
From stdpp Require Import options.

Local Close Scope Q_scope.

(** The first byte behind the white space. *)
Definition next (l : list ascii) : option ascii := head (trim_start l).

Definition not_op (a b : ascii) (o : option ascii) : Prop := o ≠ Some a ∧ o ≠ Some b.

Lemma blank_cons a w : blank (a :: w) ↔ ascii_whitespace a = true ∧ blank w.
Proof. unfold blank. cbn [forallb]. by rewrite andb_true_iff. Qed.

Lemma blank_app w w' : blank (w ++ w') ↔ blank w ∧ blank w'.
Proof. unfold blank. by rewrite forallb_app, andb_true_iff. Qed.

Lemma trim_start_blank w l : blank w → trim_start (w ++ l) = trim_start l.
Proof. induction w as [|a w IH]; [done|]. intros [Ha Hw]%blank_cons. cbn [app trim_start]. rewrite Ha. by apply IH. Qed.

Lemma trim_start_stops l : stops ascii_whitespace l → trim_start l = l.
Proof. destruct l as [|a l]; [done|]. cbn. by intros ->. Qed.

Lemma next_blank w l : blank w → next (w ++ l) = next l.
Proof. intros H. unfold next. by rewrite trim_start_blank. Qed.

Lemma trim_start_split l : ∃ w, blank w ∧ l = w ++ trim_start l ∧ stops ascii_whitespace (trim_start l).
Proof.
  induction l as [|a l (w & Hw & E & Hs)]; [by exists []|]. cbn [trim_start].
  destruct (ascii_whitespace a) eqn:Ea; [|exists []; split_and!; done].
  exists (a :: w). split_and!; [by apply blank_cons|cbn; by rewrite <- E|done].
Qed.

Lemma digit_not_blank a : ascii_digit a = true → ascii_whitespace a = false.
Proof.
  unfold ascii_digit, ascii_whitespace, digit_value. intros H%bool_decide_eq_true.
  destruct ((_ <=? _)%N && (_ <=? _)%N) eqn:E; [|by destruct H].
  apply andb_true_iff in E as [E1%N.leb_le E2%N.leb_le].
  rewrite !(proj2 (N.eqb_neq _ _)) by lia. done.
Qed.

Lemma blank_stops w c l : blank w → ascii_digit c = false → stops ascii_digit (w ++ c :: l).
Proof.
  destruct w as [|a w]; [done|]. intros [Ha _]%blank_cons _. cbn.
  destruct (ascii_digit a) eqn:E; [|done]. apply digit_not_blank in E. congruence.
Qed.

Section Positions.
Context (bytes : list ascii).

Lemma peek_ok pos w rest : drop pos bytes = w ++ rest → blank w → stops ascii_whitespace rest →
  peek bytes pos = (pos + length w, head rest).
Proof.
  intros Hd Hw Hs. unfold peek, skip. rewrite (run_while_ok bytes _ w pos rest) by (done || by eapply drop_le).
  f_equal. apply drop_past in Hd. destruct rest as [|a rest]; [by apply lookup_end|by eapply lookup_pos].
Qed.

(** [peek] at the end of the white space. *)
Lemma peek_next pos : ∃ w, blank w ∧ drop pos bytes = w ++ trim_start (drop pos bytes) ∧
  stops ascii_whitespace (trim_start (drop pos bytes)) ∧
  peek bytes pos = (pos + length w, next (drop pos bytes)).
Proof.
  destruct (trim_start_split (drop pos bytes)) as (w & Hw & E & Hs). exists w. split_and!; [done|done|done|].
  by apply peek_ok.
Qed.

Lemma peek_skip pos : peek bytes (skip bytes pos) = peek bytes pos.
Proof.
  destruct (peek_next pos) as (w & Hw & E & Hs & Ep). rewrite Ep. unfold peek in Ep.
  injection Ep as Es _. rewrite Es. apply drop_past in E as E'.
  rewrite (peek_ok _ [] _ E' eq_refl Hs), Nat.add_0_r. done.
Qed.

Lemma skip_pos pos w rest : drop pos bytes = w ++ rest → blank w → stops ascii_whitespace rest →
  skip bytes pos = pos + length w.
Proof. intros Hd Hw Hs. pose proof (peek_ok pos w rest Hd Hw Hs) as E. unfold peek in E. by injection E. Qed.
End Positions.

(** ** Completeness *)

Section Complete.
Context (bytes : list ascii).
Abbreviation L := (length bytes).
Abbreviation evaluated := (option (result TaskError (BigRational * nat))).

(** The rest of the evaluation behind a value. *)
Definition and_then (r : result TaskError Q) (k : Q → evaluated) : evaluated :=
  match r with
  | Ok q => k q
  | Err e => Some (Err e)
  end.

Lemma literal_ok pos ds rest : drop pos bytes = ds ++ rest → forallb ascii_digit ds = true → ds ≠ [] →
  stops ascii_digit rest →
  literal bytes pos = Some (rmap (λ q, (brepr q, pos + length ds)) (limited (inject_Z (dec_val 0 ds)))).
Proof.
  intros Hd Hds Hne Hs. unfold literal.
  rewrite (run_while_ok bytes ascii_digit ds pos rest) by (done || by eapply drop_le).
  replace (pos + length ds - pos) with (length ds) by lia. rewrite Hd, take_app_length.
  assert (Hutf : utf8_chars (N_of_ascii <$> ds) ≠ None).
  { clear -Hds. induction ds as [|a ds IH]; [done|]. cbn [forallb] in Hds. apply andb_true_iff in Hds as [Ha Hds].
    cbn [fmap list_fmap utf8_chars]. unfold ascii_digit, digit_value in Ha. apply bool_decide_eq_true in Ha.
    destruct ((_ <=? _)%N && (_ <=? _)%N) eqn:E; [|by destruct Ha].
    apply andb_true_iff in E as [_ E2%N.leb_le]. rewrite (proj2 (N.ltb_lt _ _)) by lia.
    specialize (IH Hds). by destruct (utf8_chars _). }
  rewrite bool_decide_eq_false_2 by done. rewrite parse_decimal_ok, Hds, bool_decide_eq_false_2 by done.
  cbn [orb negb mbind option_bind]. unfold bounded.
  destruct (Z.ltb_spec (Z.abs (dec_val 0 ds)) big_bound) as [Hf|Hf].
  - cbn [fbind]. rewrite BigRational_int_ok by done. by destruct (limited _).
  - cbn [fbind TaskError_from]. unfold limited.
    assert (Qred (inject_Z (dec_val 0 ds)) = inject_Z (dec_val 0 ds)) as ->.
    { apply (Qred_unique _ 1); [done|apply Z.gcd_1_r|done]. }
    unfold q_within. cbn [Qnum inject_Z]. rewrite (proj2 (Z.ltb_ge _ _)); [done|].
    pose proof value_bound_le. assert (0 < value_bound)%Z by apply LimbFacts.weight_pos. nia.
Qed.

(** The loops end where no operator of theirs follows. *)
Lemma term_loop_stop u fuel v pos : not_op "*" "/" (next (drop pos bytes)) →
  term_loop bytes u fuel v pos = Some (Ok (v, skip bytes pos)).
Proof.
  intros [H1 H2]. destruct (peek_next bytes pos) as (w & _ & _ & _ & Ep).
  assert (Es : skip bytes pos = pos + length w) by (unfold peek in Ep; by injection Ep).
  destruct fuel; cbn [term_loop]; rewrite Ep, Es; destruct (next _) as [c|]; try done;
    by rewrite !bool_decide_eq_false_2 by congruence.
Qed.

Lemma expr_loop_stop u fuel v pos : not_op "+" "-" (next (drop pos bytes)) →
  expr_loop bytes u fuel v pos = Some (Ok (v, skip bytes pos)).
Proof.
  intros [H1 H2]. destruct (peek_next bytes pos) as (w & _ & _ & _ & Ep).
  assert (Es : skip bytes pos = pos + length w) by (unfold peek in Ep; by injection Ep).
  destruct fuel; cbn [expr_loop]; rewrite Ep, Es; destruct (next _) as [c|]; try done;
    by rewrite !bool_decide_eq_false_2 by congruence.
Qed.

Lemma expr_loop_skip u fuel v pos : expr_loop bytes u fuel v (skip bytes pos) = expr_loop bytes u fuel v pos.
Proof. destruct fuel; cbn [expr_loop]; by rewrite peek_skip. Qed.

(** One step of a loop, at an operator. *)
Lemma term_loop_op u fuel v pos w op rest : drop pos bytes = w ++ op :: rest → blank w →
  op = "*"%char ∨ op = "/"%char →
  term_loop bytes u (S fuel) v pos =
    let! rp := u (S (pos + length w)) in
    let! value := (if bool_decide (op = "*"%char) then BigRational_mul v rp.1 else BigRational_div v rp.1) in
    term_loop bytes u fuel value rp.2.
Proof.
  intros Hd Hw Hop. cbn [term_loop]. rewrite (peek_ok bytes pos w (op :: rest)) by (done || by destruct Hop as [-> | ->]).
  cbn [head]. by destruct Hop as [-> | ->].
Qed.

Lemma expr_loop_op u fuel v pos w op rest : drop pos bytes = w ++ op :: rest → blank w →
  op = "+"%char ∨ op = "-"%char →
  expr_loop bytes u (S fuel) v pos =
    let! rp := term bytes u (S (pos + length w)) in
    let! value := (if bool_decide (op = "-"%char) then BigRational_sub v rp.1 else BigRational_add v rp.1) in
    expr_loop bytes u fuel value rp.2.
Proof.
  intros Hd Hw Hop. cbn [expr_loop]. rewrite (peek_ok bytes pos w (op :: rest)) by (done || by destruct Hop as [-> | ->]).
  cbn [head]. by destruct Hop as [-> | ->].
Qed.

Definition unary_complete (d : nat) (s : list ascii) (e : arith) : Prop :=
  ∀ fuel pos rest, drop pos bytes = s ++ rest → stops ascii_digit rest → S MAX_NESTING ≤ fuel + d →
  unary bytes fuel d pos = Some (rmap (λ q, (brepr q, pos + length s)) (eval_q e)).

Definition term_complete (d : nat) (s : list ascii) (e : arith) : Prop :=
  ∀ fuel pos rest, drop pos bytes = s ++ rest → stops ascii_digit rest → S MAX_NESTING ≤ fuel + d →
  ∃ k, k ≤ length s ∧ term bytes (unary bytes fuel d) pos =
    and_then (eval_q e) (λ q, term_loop bytes (unary bytes fuel d) (L - k) (brepr q) (pos + length s)).

Definition expr_complete (d : nat) (s : list ascii) (e : arith) : Prop :=
  ∀ fuel pos rest, drop pos bytes = s ++ rest → stops ascii_digit rest → not_op "*" "/" (next rest) →
  S MAX_NESTING ≤ fuel + d →
  ∃ k, k ≤ length s ∧ expr bytes (unary bytes fuel d) pos =
    and_then (eval_q e) (λ q, expr_loop bytes (unary bytes fuel d) (L - k) (brepr q) (pos + length s)).

Lemma next_op w c l : blank w → ascii_whitespace c = false → next (w ++ c :: l) = Some c.
Proof. intros Hw Hc. rewrite next_blank by done. unfold next. cbn [trim_start]. by rewrite Hc. Qed.

Lemma app_op_ne (s w : list ascii) op l : s ++ w ++ op :: l ≠ [].
Proof. by intros [_ [_ ?]%app_nil]%app_nil. Qed.

(** An operator of a term behind a term. *)
Lemma term_op d s a w op t b e :
  op = "*"%char ∨ op = "/"%char → term_complete d s a → blank w → unary_complete d t b →
  (∀ p q, eval_q a = Ok p → eval_q b = Ok q →
    (if bool_decide (op = "*"%char) then BigRational_mul (brepr p) (brepr q) else BigRational_div (brepr p) (brepr q)) =
    Some (rmap brepr (eval_q e))) →
  (∀ err, eval_q a = Err err → eval_q e = Err err) →
  (∀ p err, eval_q a = Ok p → eval_q b = Err err → eval_q e = Err err) →
  term_complete d (s ++ w ++ op :: t) e.
Proof.
  intros Hop IHs Hw IHt Hval Ha Hb fuel pos rest Hd Hs Hf. rewrite <- !app_assoc in Hd. cbn [app] in Hd.
  assert (Hopd : ascii_digit op = false ∧ ascii_whitespace op = false) by (by destruct Hop as [-> | ->]).
  destruct (IHs fuel pos (w ++ op :: t ++ rest)) as (k & Hk & ->); [done|apply blank_stops; [done|apply Hopd]|done|].
  exists (S k). split; [rewrite !length_app; simpl; lia|].
  pose proof (drop_past bytes pos s _ Hd) as Hd'. pose proof (drop_past_cons bytes _ w op _ Hd') as Hd''.
  assert (Hk' : S k ≤ L) by (pose proof (drop_short bytes pos s _ Hd (app_op_ne s w op _));
    rewrite length_app in *; simpl in *; lia).
  destruct (eval_q a) as [p|err] eqn:Ea; cbn [and_then]; [|by rewrite (Ha err)].
  replace (L - k) with (S (L - S k)) by lia.
  rewrite (term_loop_op _ _ _ _ w op (t ++ rest)) by done. rewrite (IHt fuel _ rest) by done.
  destruct (eval_q b) as [q|err] eqn:Eb; cbn [rmap fbind fst snd]; [|by rewrite (Hb p err)].
  rewrite Hval by done. destruct (eval_q e); cbn [rmap fbind and_then]; [|done]. f_equal.
  rewrite !length_app. simpl. lia.
Qed.

(** An operator of an expression behind an expression. *)
Lemma expr_op d s a w op t b e :
  op = "+"%char ∨ op = "-"%char → expr_complete d s a → blank w → term_complete d t b →
  (∀ p q, eval_q a = Ok p → eval_q b = Ok q →
    (if bool_decide (op = "-"%char) then BigRational_sub (brepr p) (brepr q) else BigRational_add (brepr p) (brepr q)) =
    Some (rmap brepr (eval_q e))) →
  (∀ err, eval_q a = Err err → eval_q e = Err err) →
  (∀ p err, eval_q a = Ok p → eval_q b = Err err → eval_q e = Err err) →
  expr_complete d (s ++ w ++ op :: t) e.
Proof.
  intros Hop IHs Hw IHt Hval Ha Hb fuel pos rest Hd Hs Hn Hf. rewrite <- !app_assoc in Hd. cbn [app] in Hd.
  assert (Hopd : ascii_digit op = false ∧ ascii_whitespace op = false) by (by destruct Hop as [-> | ->]).
  destruct (IHs fuel pos (w ++ op :: t ++ rest)) as (k & Hk & ->); [done|apply blank_stops; [done|apply Hopd]| |done|].
  { rewrite next_op by (done || apply Hopd). by destruct Hop as [-> | ->]. }
  exists (S k). split; [rewrite !length_app; simpl; lia|].
  pose proof (drop_past bytes pos s _ Hd) as Hd'. pose proof (drop_past_cons bytes _ w op _ Hd') as Hd''.
  assert (Hk' : S k ≤ L) by (pose proof (drop_short bytes pos s _ Hd (app_op_ne s w op _));
    rewrite length_app in *; simpl in *; lia).
  destruct (eval_q a) as [p|err] eqn:Ea; cbn [and_then]; [|by rewrite (Ha err)].
  replace (L - k) with (S (L - S k)) by lia.
  rewrite (expr_loop_op _ _ _ _ w op (t ++ rest)) by done.
  destruct (IHt fuel _ rest Hd'' Hs Hf) as (k2 & _ & ->).
  destruct (eval_q b) as [q|err] eqn:Eb; cbn [and_then fbind]; [|by rewrite (Hb p err)].
  rewrite term_loop_stop by (by rewrite (drop_past bytes _ t rest)). cbn [fbind fst snd].
  rewrite Hval by done. destruct (eval_q e); cbn [rmap fbind and_then]; [|done].
  rewrite expr_loop_skip. f_equal. rewrite !length_app. simpl. lia.
Qed.

(** [unary], unfolded at a byte behind white space. *)
Lemma unary_step fuel d pos w c rest : drop pos bytes = w ++ c :: rest → blank w →
  ascii_whitespace c = false → d < MAX_NESTING →
  unary bytes (S fuel) d pos =
    (if bool_decide (c = "-"%char) then
       let! vp := unary bytes fuel (S d) (S (pos + length w)) in Some (Ok (BigRational_neg vp.1, vp.2))
     else if bool_decide (c = "+"%char) then unary bytes fuel (S d) (S (pos + length w))
     else if bool_decide (c = "("%char) then
       let! vp := expr bytes (unary bytes fuel (S d)) (S (pos + length w)) in
       match peek bytes vp.2 with
       | (pos, Some close) =>
           if bool_decide (close = ")"%char) then Some (Ok (vp.1, S pos)) else Some (Err (TaskSyntax pos))
       | (pos, None) => Some (Err (TaskSyntax pos))
       end
     else if ascii_digit c then literal bytes (pos + length w)
     else Some (Err (TaskSyntax (pos + length w)))).
Proof.
  intros Hd Hw Hc Hdep. cbn [unary]. rewrite decide_False by lia. by rewrite (peek_ok bytes pos w (c :: rest)).
Qed.

Lemma num_complete d w ds : d < MAX_NESTING → blank w → ds ≠ [] → forallb ascii_digit ds = true →
  unary_complete d (w ++ ds) (ANum (dec_val 0 ds)).
Proof.
  intros Hdep Hw Hne Hds fuel pos rest Hd Hs Hf. destruct fuel as [|fuel]; [lia|].
  destruct ds as [|a ds]; [done|]. rewrite <- app_assoc in Hd.
  assert (Ha : ascii_digit a = true) by (cbn [forallb] in Hds; by apply andb_true_iff in Hds as [? _]).
  rewrite (unary_step fuel d pos w a (ds ++ rest)) by (done || by apply digit_not_blank).
  rewrite !bool_decide_eq_false_2 by (intros ->; done). rewrite Ha.
  rewrite (literal_ok _ (a :: ds) rest); [|by eapply drop_past|done..].
  cbn [eval_q]. destruct (limited _); cbn [rmap]; [|done]. do 3 f_equal. rewrite length_app. lia.
Qed.

Lemma sign_complete d w s e c : c = "-"%char ∨ c = "+"%char → d < MAX_NESTING → blank w →
  unary_complete (S d) s e →
  unary_complete d (w ++ c :: s) (if bool_decide (c = "-"%char) then ANeg e else APos e).
Proof.
  intros Hc Hdep Hw IH fuel pos rest Hd Hs Hf. destruct fuel as [|fuel]; [lia|].
  rewrite <- app_assoc in Hd. cbn [app] in Hd.
  rewrite (unary_step fuel d pos w c (s ++ rest)) by (done || by destruct Hc as [-> | ->]).
  rewrite (IH fuel _ rest) by (done || lia || by eapply drop_past_cons).
  assert (El : S (pos + length w) + length s = pos + length (w ++ c :: s)) by (rewrite length_app; simpl; lia).
  rewrite El. destruct Hc as [-> | ->]; [|done]. rewrite bool_decide_eq_true_2 by done. cbn [eval_q].
  destruct (eval_q e) as [q|] eqn:E; cbn [rmap fbind rbind fst snd]; [|done].
  destruct (eval_q_ok e q E) as [Hok _]. by rewrite (proj1 (BigRational_neg_ok q Hok)).
Qed.

Lemma paren_complete d w s w' e : d < MAX_NESTING → blank w → expr_complete (S d) s e → blank w' →
  unary_complete d (w ++ "("%char :: s ++ w' ++ [")"%char]) e.
Proof.
  intros Hdep Hw IH Hw' fuel pos rest Hd Hs Hf. destruct fuel as [|fuel]; [lia|].
  rewrite <- app_assoc in Hd. cbn [app] in Hd. rewrite <- !app_assoc in Hd. cbn [app] in Hd.
  rewrite (unary_step fuel d pos w "("%char _ Hd) by done.
  rewrite !bool_decide_eq_false_2, bool_decide_eq_true_2 by done.
  pose proof (drop_past_cons bytes _ w _ _ Hd) as Hd'.
  destruct (IH fuel _ (w' ++ ")"%char :: rest) Hd') as (k & _ & ->);
    [by apply blank_stops|by rewrite next_op|lia|].
  destruct (eval_q e) as [q|err]; cbn [and_then rmap fbind]; [|done].
  pose proof (drop_past bytes _ s _ Hd') as Hd''.
  rewrite expr_loop_stop by (by rewrite Hd'', next_op). cbn [fbind fst snd].
  rewrite peek_skip, (peek_ok bytes _ w' (")"%char :: rest)) by done. cbn [head].
  rewrite bool_decide_eq_true_2 by done. do 4 f_equal. rewrite !length_app. simpl. rewrite !length_app. simpl. lia.
Qed.

Lemma bin_err (f : Q → Q → result TaskError Q) a b err : eval_q a = Err err →
  (let? p := eval_q a in let? q := eval_q b in f p q) = Err err.
Proof. by intros ->. Qed.
Lemma bin_err_r (f : Q → Q → result TaskError Q) a b p err : eval_q a = Ok p → eval_q b = Err err →
  (let? p := eval_q a in let? q := eval_q b in f p q) = Err err.
Proof. by intros -> ->. Qed.

Lemma text_complete :
  (∀ d s e, unary_text d s e → unary_complete d s e) ∧
  (∀ d s e, term_text d s e → term_complete d s e) ∧
  (∀ d s e, expr_text d s e → expr_complete d s e).
Proof.
  apply (text_mut (λ d s e _, unary_complete d s e) (λ d s e _, term_complete d s e)
                  (λ d s e _, expr_complete d s e)).
  - intros. by apply num_complete.
  - intros. by apply (sign_complete d w s e "-"%char (or_introl eq_refl)).
  - intros. by apply (sign_complete d w s e "+"%char (or_intror eq_refl)).
  - intros. by apply paren_complete.
  - intros d s e _ IH fuel pos rest Hd Hs Hf. exists 0. split; [lia|]. unfold term. rewrite (IH fuel pos rest) by done.
    destruct (eval_q e); cbn [rmap fbind and_then fst snd]; [|done]. by rewrite Nat.sub_0_r.
  - intros d s a w t b _ IHs Hw _ IHt. apply (term_op d s a w "*"%char t b); try done; [by left| |intros; by eapply bin_err|intros; by eapply bin_err_r].
    intros p q Ea Eb. cbn [eval_q]. rewrite Ea, Eb. cbn [rbind].
    by apply BigRational_mul_ok; [apply (eval_q_ok a)|apply (eval_q_ok b)].
  - intros d s a w t b _ IHs Hw _ IHt. apply (term_op d s a w "/"%char t b); try done; [by right| |intros; by eapply bin_err|intros; by eapply bin_err_r].
    intros p q Ea Eb. cbn [eval_q]. rewrite Ea, Eb. cbn [rbind]. rewrite bool_decide_eq_false_2 by done.
    rewrite BigRational_div_ok; [|by apply (eval_q_ok a)|by apply (eval_q_ok b)]. by destruct (Qeq_bool q 0).
  - intros d s e _ IH fuel pos rest Hd Hs Hn Hf. exists 0. split; [lia|]. unfold expr.
    destruct (IH fuel pos rest Hd Hs Hf) as (k & _ & ->).
    destruct (eval_q e); cbn [fbind and_then]; [|done]. rewrite Nat.sub_0_r.
    rewrite term_loop_stop by (by rewrite (drop_past bytes _ s rest)). cbn [fbind fst snd]. apply expr_loop_skip.
  - intros d s a w t b _ IHs Hw _ IHt. apply (expr_op d s a w "+"%char t b); try done; [by left| |intros; by eapply bin_err|intros; by eapply bin_err_r].
    intros p q Ea Eb. cbn [eval_q]. rewrite Ea, Eb. cbn [rbind]. rewrite bool_decide_eq_false_2 by done.
    by apply BigRational_add_ok; [apply (eval_q_ok a)|apply (eval_q_ok b)].
  - intros d s a w t b _ IHs Hw _ IHt. apply (expr_op d s a w "-"%char t b); try done; [by right| |intros; by eapply bin_err|intros; by eapply bin_err_r].
    intros p q Ea Eb. cbn [eval_q]. rewrite Ea, Eb. cbn [rbind].
    by apply BigRational_sub_ok; [apply (eval_q_ok a)|apply (eval_q_ok b)].
Qed.
End Complete.

(** ** Soundness *)

Section Sound.
Context (bytes : list ascii).
Abbreviation L := (length bytes).
Abbreviation evaluated := (option (result TaskError (BigRational * nat))).

(** Between [pos] and [p] stands a text of [D], with the value [v], and white
    space. *)
Definition read_to (D : list ascii → arith → Prop) (pos : nat) (v : BigRational) (p : nat) : Prop :=
  ∃ s w e q, drop pos bytes = s ++ w ++ drop p bytes ∧ p = pos + length s + length w ∧ blank w ∧
    D s e ∧ eval_q e = Ok q ∧ v = brepr q.

(** The evaluation returns, and what it returns was read. *)
Definition sound (D : list ascii → arith → Prop) (pos : nat) (m : evaluated) : Prop :=
  ∃ r, m = Some r ∧ ∀ v p, r = Ok (v, p) → read_to D pos v p.

Lemma sound_err D pos e : sound D pos (Some (Err e)).
Proof. by exists (Err e). Qed.
Lemma sound_ok D pos v p : read_to D pos v p → sound D pos (Some (Ok (v, p))).
Proof. intros H. exists (Ok (v, p)). split; [done|]. by intros ? ? [= <- <-]. Qed.

Lemma read_to_blank D pos v p w : read_to D pos v p → blank w → drop p bytes = w ++ drop (p + length w) bytes →
  read_to D pos v (p + length w).
Proof.
  intros (s & w0 & e & q & Hd & Hp & Hw0 & HD & He & Hv) Hw Hdw. exists s, (w0 ++ w), e, q.
  rewrite <- app_assoc, <- Hdw, length_app. split_and!; try done; [lia|]. by apply blank_app.
Qed.

(** An operator and an operand behind what was read. *)
Lemma read_to_op D D2 D3 pos v p w op v2 p2 e3 :
  read_to D pos v p → blank w → drop p bytes = w ++ op :: drop (S (p + length w)) bytes →
  read_to D2 (S (p + length w)) v2 p2 →
  (∀ s w a t b, D s a → blank w → D2 t b → D3 (s ++ w ++ op :: t) (e3 a b)) →
  ∀ q3, (∀ a b q q2, eval_q a = Ok q → eval_q b = Ok q2 → v = brepr q → v2 = brepr q2 → eval_q (e3 a b) = Ok q3) →
  read_to D3 pos (brepr q3) p2.
Proof.
  intros (s & w0 & a & q & Hd & Hp & Hw0 & HD & He & Hv) Hw Hdw
    (t & w2 & b & q2 & Hd2 & Hp2 & Hw2 & HD2 & He2 & Hv2) HD3 q3 Hval.
  exists (s ++ (w0 ++ w) ++ op :: t), w2, (e3 a b), q3. split_and!; [| |done| | |done].
  - rewrite Hd, Hdw, Hd2. by rewrite <- !app_assoc.
  - rewrite !length_app. cbn [length]. lia.
  - apply HD3; [done|by apply blank_app|done].
  - by eapply Hval.
Qed.

Lemma peek_split pos : ∃ w, blank w ∧ drop pos bytes = w ++ drop (pos + length w) bytes ∧
  peek bytes pos = (pos + length w, next (drop pos bytes)) ∧
  match next (drop pos bytes) with
  | Some c => drop pos bytes = w ++ c :: drop (S (pos + length w)) bytes ∧ pos + length w < L ∧
              ascii_whitespace c = false
  | None => True
  end.
Proof.
  destruct (peek_next bytes pos) as (w & Hw & E & Hs & Ep). exists w. pose proof (drop_past bytes pos w _ E) as E'.
  split; [done|]. split; [by rewrite E'|]. split; [done|]. unfold next in *.
  destruct (trim_start (drop pos bytes)) as [|c l] eqn:El; cbn [head]; [done|].
  pose proof (drop_past_cons bytes pos w c l E) as Ec. split_and!; [by rewrite Ec| |done].
  pose proof (drop_short bytes pos w (c :: l) E ltac:(by intros [_ ?]%app_nil)). simpl in *. lia.
Qed.

Lemma read_to_le D pos v p : read_to D pos v p → pos ≤ p.
Proof. intros (s & w & e & q & _ & -> & _). lia. Qed.

Lemma read_to_value D pos v p : read_to D pos v p → ∃ q, q_ok q ∧ v = brepr q.
Proof. intros (s & w & e & q & _ & _ & _ & _ & He & ->). exists q. split; [by eapply eval_q_ok|done]. Qed.

Lemma brepr_inj p q : q_ok p → q_ok q → brepr p = brepr q → p = q.
Proof.
  intros Hp Hq E. destruct (q_ok_bounds p Hp) as (_ & _ & Fp1 & Fp2). destruct (q_ok_bounds q Hq) as (_ & _ & Fq1 & Fq2).
  pose proof (f_equal (λ x, big_val (br_num x)) E) as E1. pose proof (f_equal (λ x, big_val (br_den x)) E) as E2.
  clear E. unfold brepr in E1, E2. cbn [br_num br_den] in E1, E2.
  rewrite (proj2 (repr_wf _ Fp1)), (proj2 (repr_wf _ Fq1)) in E1.
  rewrite (proj2 (repr_wf _ Fp2)), (proj2 (repr_wf _ Fq2)) in E2.
  destruct p as [pn pd], q as [qn qd]. cbn [Qnum Qden] in *. congruence.
Qed.

(** The value behind an operator, and the loop that goes on with it. *)
Lemma sound_op D D2 pos v p w op v2 p2 (e3 : arith → arith → arith) (m : option (result TaskError BigRational))
    (k : BigRational → evaluated) (f : Q → Q → result TaskError Q) :
  read_to D pos v p → blank w → drop p bytes = w ++ op :: drop (S (p + length w)) bytes →
  read_to D2 (S (p + length w)) v2 p2 →
  (∀ s w a t b, D s a → blank w → D2 t b → D (s ++ w ++ op :: t) (e3 a b)) →
  (∀ a b, eval_q (e3 a b) = let? q := eval_q a in let? q2 := eval_q b in f q q2) →
  (∀ q q2, q_ok q → q_ok q2 → v = brepr q → v2 = brepr q2 → m = Some (rmap brepr (f q q2))) →
  (∀ v3, read_to D pos v3 p2 → sound D pos (k v3)) →
  sound D pos (let! v3 := m in k v3).
Proof.
  intros Hr Hw Hdw Hr2 HD He Hm Hk.
  destruct (read_to_value _ _ _ _ Hr) as (q & Hq & Ev). destruct (read_to_value _ _ _ _ Hr2) as (q2 & Hq2 & Ev2).
  rewrite (Hm q q2) by done. destruct (f q q2) as [q3|err] eqn:Ef; cbn [rmap fbind]; [|apply sound_err].
  apply Hk. eapply (read_to_op D D2 D); [done..|]. intros a b x y Ea Eb Ex Ey. rewrite He, Ea, Eb. cbn [rbind].
  assert (x = q) as -> by (apply brepr_inj; [by eapply eval_q_ok|done|congruence]).
  assert (y = q2) as -> by (apply brepr_inj; [by eapply eval_q_ok|done|congruence]). done.
Qed.

Lemma term_loop_sound d u : (∀ pos, sound (unary_text d) pos (u pos)) → ∀ fuel pos v p,
  read_to (term_text d) pos v p → L - p ≤ fuel → sound (term_text d) pos (term_loop bytes u fuel v p).
Proof.
  intros Hu fuel. induction fuel as [|fuel IH]; intros pos v p Hr Hf.
  all: destruct (peek_split p) as (w & Hw & Hdw & Ep & Hn); cbn [term_loop]; rewrite Ep.
  all: destruct (next _) as [op|]; [|by apply sound_ok, read_to_blank].
  all: destruct (_ || _) eqn:Eop; [|by apply sound_ok, read_to_blank].
  all: destruct Hn as (Hdc & Hlt & _). 1: lia.
  destruct (Hu (S (p + length w))) as ([[v2 p2]|e] & -> & Hs); cbn [fbind]; [|apply sound_err].
  specialize (Hs v2 p2 eq_refl). pose proof (read_to_le _ _ _ _ Hs). cbn [fst snd].
  apply orb_true_iff in Eop as [E%bool_decide_eq_true|E%bool_decide_eq_true]; subst op.
  - rewrite bool_decide_eq_true_2 by done.
    apply (sound_op (term_text d) (unary_text d) pos v p w "*"%char v2 p2 AMul _ _ (λ q q2, limited (q * q2))); try done.
    + intros. by apply T_mul.
    + intros q q2 Hq Hq2 -> ->. by apply BigRational_mul_ok.
    + intros v3 Hr3. apply IH; [done|lia].
  - rewrite bool_decide_eq_false_2 by done.
    apply (sound_op (term_text d) (unary_text d) pos v p w "/"%char v2 p2 ADiv _ _
      (λ q q2, if Qeq_bool q2 0 then Err TaskDivisionByZero else limited (q / q2))); try done.
    + intros. by apply T_div.
    + intros q q2 Hq Hq2 -> ->. rewrite BigRational_div_ok by done. by destruct (Qeq_bool q2 0).
    + intros v3 Hr3. apply IH; [done|lia].
Qed.

Lemma sound_weaken (D D' : list ascii → arith → Prop) pos m :
  (∀ s e, D s e → D' s e) → sound D pos m → sound D' pos m.
Proof.
  intros HD (r & -> & H). exists r. split; [done|]. intros v p E. destruct (H v p E) as (s & w & e & q & ? & ? & ? & ? & ? & ?).
  exists s, w, e, q. split_and!; auto.
Qed.

Lemma read_to_weaken (D D' : list ascii → arith → Prop) pos v p :
  (∀ s e, D s e → D' s e) → read_to D pos v p → read_to D' pos v p.
Proof.
  intros HD (s & w & e & q & ? & ? & ? & ? & ? & ?). exists s, w, e, q. split_and!; auto.
Qed.

Lemma term_sound d u : (∀ pos, sound (unary_text d) pos (u pos)) → ∀ pos, sound (term_text d) pos (term bytes u pos).
Proof.
  intros Hu pos. unfold term. destruct (Hu pos) as ([[v p]|e] & -> & Hs); cbn [fbind fst snd]; [|apply sound_err].
  apply (term_loop_sound d); [done| |lia]. eapply read_to_weaken; [|by apply Hs]. apply T_unary.
Qed.

Lemma expr_loop_sound d u : (∀ pos, sound (unary_text d) pos (u pos)) → ∀ fuel pos v p,
  read_to (expr_text d) pos v p → L - p ≤ fuel → sound (expr_text d) pos (expr_loop bytes u fuel v p).
Proof.
  intros Hu fuel. induction fuel as [|fuel IH]; intros pos v p Hr Hf.
  all: destruct (peek_split p) as (w & Hw & Hdw & Ep & Hn); cbn [expr_loop]; rewrite Ep.
  all: destruct (next _) as [op|]; [|by apply sound_ok, read_to_blank].
  all: destruct (_ || _) eqn:Eop; [|by apply sound_ok, read_to_blank].
  all: destruct Hn as (Hdc & Hlt & _). 1: lia.
  destruct (term_sound d u Hu (S (p + length w))) as ([[v2 p2]|e] & -> & Hs); cbn [fbind]; [|apply sound_err].
  specialize (Hs v2 p2 eq_refl). pose proof (read_to_le _ _ _ _ Hs). cbn [fst snd].
  apply orb_true_iff in Eop as [E%bool_decide_eq_true|E%bool_decide_eq_true]; subst op.
  - rewrite bool_decide_eq_false_2 by done.
    apply (sound_op (expr_text d) (term_text d) pos v p w "+"%char v2 p2 AAdd _ _ (λ q q2, limited (q + q2))); try done.
    + intros. by apply E_add.
    + intros q q2 Hq Hq2 -> ->. by apply BigRational_add_ok.
    + intros v3 Hr3. apply IH; [done|lia].
  - rewrite bool_decide_eq_true_2 by done.
    apply (sound_op (expr_text d) (term_text d) pos v p w "-"%char v2 p2 ASub _ _ (λ q q2, limited (q - q2))); try done.
    + intros. by apply E_sub.
    + intros q q2 Hq Hq2 -> ->. by apply BigRational_sub_ok.
    + intros v3 Hr3. apply IH; [done|lia].
Qed.

Lemma expr_sound d u : (∀ pos, sound (unary_text d) pos (u pos)) → ∀ pos, sound (expr_text d) pos (expr bytes u pos).
Proof.
  intros Hu pos. unfold expr. destruct (term_sound d u Hu pos) as ([[v p]|e] & -> & Hs); cbn [fbind fst snd];
    [|apply sound_err].
  apply (expr_loop_sound d); [done| |lia]. eapply read_to_weaken; [|by apply Hs]. apply E_term.
Qed.

Lemma digits_split l : ∃ ds rest, l = ds ++ rest ∧ forallb ascii_digit ds = true ∧ stops ascii_digit rest.
Proof.
  induction l as [|a l (ds & rest & E & Hds & Hs)]; [by exists [], []|].
  destruct (ascii_digit a) eqn:Ea; [|exists [], (a :: l); done].
  exists (a :: ds), rest. cbn. by rewrite <- E, Ea, Hds.
Qed.

Lemma literal_sound d pos w c : d < MAX_NESTING → blank w →
  drop pos bytes = w ++ c :: drop (S (pos + length w)) bytes → ascii_digit c = true →
  sound (unary_text d) pos (literal bytes (pos + length w)).
Proof.
  intros Hdep Hw Hdc Hc. pose proof (drop_past bytes pos w _ Hdc) as Hd.
  destruct (digits_split (drop (pos + length w) bytes)) as (ds & rest & E & Hds & Hs).
  assert (Hne : ds ≠ []). { intros ->. rewrite Hd in E. cbn in E. subst rest. cbn in Hs. congruence. }
  rewrite (literal_ok bytes _ ds rest) by done.
  destruct (limited _) as [q|] eqn:El; cbn [rmap]; [|apply sound_err]. apply sound_ok.
  exists (w ++ ds), [], (ANum (dec_val 0 ds)), q. rewrite (drop_past bytes _ ds rest E). cbn [app length].
  split_and!; try done; [|rewrite length_app; lia|by apply U_num].
  rewrite <- app_assoc, <- E, Hd. exact Hdc.
Qed.

(** What [D] reads behind a byte, [D'] reads from before it. *)
Lemma read_to_prefix (D D' : list ascii → arith → Prop) (g : arith → arith) (h : Q → Q) pos w c v p :
  blank w → drop pos bytes = w ++ c :: drop (S (pos + length w)) bytes →
  read_to D (S (pos + length w)) v p →
  (∀ s e, D s e → D' (w ++ c :: s) (g e)) → (∀ e q, eval_q e = Ok q → eval_q (g e) = Ok (h q)) →
  ∃ q, q_ok q ∧ v = brepr q ∧ read_to D' pos (brepr (h q)) p.
Proof.
  intros Hw Hdc (s & w2 & e & q & Hd & Hp & Hw2 & HD & He & Hv) HD' Hg. exists q.
  split; [by eapply eval_q_ok|]. split; [done|]. exists (w ++ c :: s), w2, (g e), (h q).
  split_and!; auto; [|rewrite length_app; cbn [length]; lia]. rewrite Hdc, Hd, <- app_assoc. done.
Qed.

(** A parenthesis closed. *)
Lemma paren_sound d pos w m : d < MAX_NESTING → blank w →
  drop pos bytes = w ++ "("%char :: drop (S (pos + length w)) bytes →
  sound (expr_text (S d)) (S (pos + length w)) m →
  sound (unary_text d) pos
    (let! vp := m in
     match peek bytes vp.2 with
     | (pos, Some close) =>
         if bool_decide (close = ")"%char) then Some (Ok (vp.1, S pos)) else Some (Err (TaskSyntax pos))
     | (pos, None) => Some (Err (TaskSyntax pos))
     end).
Proof.
  intros Hdep Hw Hdc ([[v p]|e] & -> & Hs); cbn [fbind fst snd]; [|apply sound_err].
  destruct (Hs v p eq_refl) as (s & w2 & e & q & Hd & Hp & Hw2 & HD & He & ->).
  destruct (peek_split p) as (w3 & Hw3 & _ & Ep & Hn). rewrite Ep. destruct (next _) as [c|]; [|apply sound_err].
  case_bool_decide as Hc; [|apply sound_err]. subst c. destruct Hn as (Hdc2 & _ & _). apply sound_ok.
  exists (w ++ "("%char :: s ++ (w2 ++ w3) ++ [")"%char]), [], e, q.
  split_and!; try done; [| |apply U_paren; try done; by apply blank_app].
  - rewrite Hdc, Hd, Hdc2. rewrite <- !app_assoc. cbn [app]. rewrite <- !app_assoc. done.
  - rewrite !length_app. cbn [length]. rewrite !length_app. cbn [length]. lia.
Qed.

Lemma unary_sound fuel : ∀ d pos, S MAX_NESTING ≤ fuel + d → d ≤ MAX_NESTING →
  sound (unary_text d) pos (unary bytes fuel d pos).
Proof.
  induction fuel as [|fuel IH]; intros d pos Hf Hd; [lia|]. cbn [unary].
  destruct (decide _) as [|Hdep]; [apply sound_err|]. apply not_le in Hdep.
  destruct (peek_split pos) as (w & Hw & _ & Ep & Hn). rewrite Ep.
  destruct (next _) as [c|]; [|apply sound_err]. destruct Hn as (Hdc & _ & _).
  case_bool_decide as Hneg; [|case_bool_decide as Hpos; [|case_bool_decide as Hpar]].
  - subst c. destruct (IH (S d) (S (pos + length w))) as ([[v p]|e] & -> & Hs); [lia..| |apply sound_err].
    cbn [fbind fst snd]. specialize (Hs v p eq_refl).
    destruct (read_to_prefix (unary_text (S d)) (unary_text d) ANeg Qopp pos w "-"%char v p) as (q & Hq & -> & Hr); [done..| | |].
    + intros. by apply U_neg.
    + intros e q He. cbn [eval_q]. by rewrite He.
    + rewrite (proj1 (BigRational_neg_ok q Hq)). by apply sound_ok.
  - subst c. destruct (IH (S d) (S (pos + length w))) as ([[v p]|e] & -> & Hs); [lia..| |apply sound_err].
    specialize (Hs v p eq_refl).
    destruct (read_to_prefix (unary_text (S d)) (unary_text d) APos id pos w "+"%char v p) as (q & Hq & -> & Hr); [done..| | |].
    + intros. by apply U_pos.
    + intros e q He. exact He.
    + by apply sound_ok.
  - subst c. eapply paren_sound; try done. apply expr_sound. intros pos'. apply IH; lia.
  - destruct (ascii_digit c) eqn:Ec; [|apply sound_err]. by eapply literal_sound.
Qed.
End Sound.
