(* ===== verification/ArithmeticFacts.v ===== *)
(** * The arithmetic verifier decides equality of exact values

    The evaluation of a task and the parsing of a candidate against their
    grammars, and the verdicts of the verifier. *)

From S2P Require Import Prelude Bytes Text Types Verifier VerifierClaims VerifierFacts BigInt.
From S2P Require Import BigIntFacts Arithmetic RationalFacts EvaluatorFacts.
From Stdlib Require Import ZArith Lia QArith Qreduction Strings.Ascii.
From stdpp Require Import options.

Local Open Scope Z_scope.

Abbreviation text_of := String.list_ascii_of_string.

(** ** Tasks *)




(** ** Candidates *)



























(** ** The verdict *)





(** ** Theorems *)


