(* ===== verification/Json.v ===== *)
(** * JSON documents: crates/ptr-verifier/src/json_schema.rs, numbers and the
    parser

    Exact decimals, the values of a document and the strict parser.  The outer
    [option] is a panic or the end of a loop's fuel; JsonFacts shows that neither
    happens. *)

From S2P Require Import Prelude Bytes Text BigInt.
From Stdlib Require Import ZArith Strings.Ascii.
From stdpp Require Import options.

Local Open Scope Z_scope.

Definition MAX_DEPTH : nat := 32.
Definition MAX_EXPONENT : Z := 100000.

(** ** [Number] *)

Record Number := mkNumber { num_neg : bool; num_digits : list Z; num_exp : Z }.

(** [while digits.last() == Some(&0) { digits.pop(); exp += 1 }], on the reversed
    digits. *)
Fixpoint pop_exp (rev_digits : list Z) (exp : Z) : list Z * Z :=
  match rev_digits with
  | 0 :: rest => pop_exp rest (exp + 1)
  | _ => (rev_digits, exp)
  end.

Definition Number_from_parts (neg : bool) (int frac : list ascii) (exp10 : Z) : Number :=
  let digits := digit_of <$> (int ++ frac) in
  let digits := pop_zeros digits in
  let exp := exp10 - Z.of_nat (length frac) in
  let '(rev_digits, exp) := pop_exp (reverse digits) exp in
  let digits := reverse rev_digits in
  mkNumber (neg && negb (bool_decide (digits = []))) digits exp.

Definition Number_sign (n : Number) : Z :=
  if bool_decide (num_digits n = []) then 0 else if num_neg n then -1 else 1.

Definition Number_top (n : Number) : Z := num_exp n + Z.of_nat (length (num_digits n)).

Definition Number_is_integer (n : Number) : bool :=
  bool_decide (num_digits n = []) || (0 <=? num_exp n).

Definition Number_compare (n m : Number) : comparison :=
  let a := Number_sign n in
  let b := Number_sign m in
  if negb (a =? b) then a ?= b
  else if a =? 0 then Eq
  else
    let magnitude :=
      match Number_top n ?= Number_top m with
      | Eq => lex_cmp (num_digits n) (num_digits m)
      | c => c
      end in
    if a <? 0 then CompOpp magnitude else magnitude.

Definition Number_to_u32 (n : Number) : option Z :=
  if Number_sign n <? 0 then None
  else if bool_decide (num_digits n = []) then Some 0
  else if (num_exp n <? 0) || (10 <? Number_top n) then None
  else
    let value := foldl (λ value digit, value * 10 + digit) 0 (num_digits n) in
    let value := value * 10 ^ num_exp n in
    if value <? 2 ^ 32 then Some value else None.

(** ** [Json] *)

Record ObjectOf (J : Type) := mkObject {
  obj_members : list (string * J);
  obj_index : gmap string nat
}.
Arguments mkObject {J} _ _.
Arguments obj_members {J} _.
Arguments obj_index {J} _.

Inductive Json :=
| JNull
| JBool (b : bool)
| JNum (n : Number)
| JStr (s : string)
| JArr (items : list Json)
| JObj (o : ObjectOf Json).

Abbreviation Object := (ObjectOf Json).

(** [self.index.get(key).map(|i| &self.members[*i].1)]; the index of a parsed
    object is in range (JsonFacts). *)
Definition Object_get (o : Object) (key : string) : option Json :=
  i ← obj_index o !! key; snd <$> obj_members o !! i.

Definition Json_type_name (v : Json) : string :=
  match v with
  | JNull => "null"
  | JBool _ => "boolean"
  | JNum n => if Number_is_integer n then "integer" else "number"
  | JStr _ => "string"
  | JArr _ => "array"
  | JObj _ => "object"
  end.

Definition Json_get (v : Json) (key : string) : option Json :=
  match v with
  | JObj o => Object_get o key
  | _ => None
  end.

(** [x.iter().zip(y).all(f)]. *)
Definition all2 {A B} (f : A → B → bool) : list A → list B → bool :=
  fix go x y :=
    match x, y with
    | a :: x, b :: y => f a b && go x y
    | _, _ => true
    end.

Fixpoint json_eq (a b : Json) : bool :=
  match a, b with
  | JNull, JNull => true
  | JBool x, JBool y => Bool.eqb x y
  | JNum x, JNum y => bool_decide (Number_compare x y = Eq)
  | JStr x, JStr y => bool_decide (x = y)
  | JArr x, JArr y => (length x =? length y)%nat && all2 json_eq x y
  | JObj x, JObj y =>
      (length (obj_members x) =? length (obj_members y))%nat &&
      forallb (λ kv, match Object_get y (fst kv) with
                     | Some v2 => json_eq (snd kv) v2
                     | None => false
                     end) (obj_members x)
  | _, _ => false
  end.

(** ** The parser *)

Inductive ParseFailure :=
| PDepth
| PSyntax (at_byte : nat) (why : string).

Abbreviation parsed A := (option (result ParseFailure (A * nat))).

Definition fail {A} (pos : nat) (why : string) : option (result ParseFailure A) :=
  Some (Err (PSyntax pos why)).

Definition json_space (a : ascii) : bool :=
  bool_decide (a = " "%char) || bool_decide (a = "009"%char) ||
  bool_decide (a = "010"%char) || bool_decide (a = "013"%char).

(** [char::to_digit(16)]. *)
Definition to_digit16 (a : ascii) : option N :=
  let n := N_of_ascii a in
  if in_range 48 57 n then Some (n - 48)%N
  else if in_range 97 102 n then Some (n - 87)%N
  else if in_range 65 70 n then Some (n - 55)%N
  else None.

(** [char::from_u32] and [char::encode_utf8]. *)
Definition char_from_u32 (code : N) : option N :=
  if in_range 0xD800 0xDFFF code || (0x10FFFF <? code)%N then None else Some code.

Definition encode_utf8 (c : N) : list N :=
  if (c <? 0x80)%N then [c]
  else if (c <? 0x800)%N then [N.lor 0xC0 (N.shiftr c 6); N.lor 0x80 (N.land c 0x3F)]
  else if (c <? 0x10000)%N then
    [N.lor 0xE0 (N.shiftr c 12); N.lor 0x80 (N.land (N.shiftr c 6) 0x3F); N.lor 0x80 (N.land c 0x3F)]
  else
    [N.lor 0xF0 (N.shiftr c 18); N.lor 0x80 (N.land (N.shiftr c 12) 0x3F);
     N.lor 0x80 (N.land (N.shiftr c 6) 0x3F); N.lor 0x80 (N.land c 0x3F)].

(** The one-byte escapes. *)
Definition simple_escape (e : ascii) : option ascii :=
  if bool_decide (e = "034"%char) then Some "034"%char
  else if bool_decide (e = "\"%char) then Some "\"%char
  else if bool_decide (e = "/"%char) then Some "/"%char
  else if bool_decide (e = "b"%char) then Some "008"%char
  else if bool_decide (e = "f"%char) then Some "012"%char
  else if bool_decide (e = "n"%char) then Some "010"%char
  else if bool_decide (e = "r"%char) then Some "013"%char
  else if bool_decide (e = "t"%char) then Some "009"%char
  else None.

(** [String::from_utf8]. *)
Definition string_from_utf8 (out : list ascii) : option string :=
  if bool_decide (utf8_chars (N_of_ascii <$> out) = None) then None
  else Some (String.string_of_list_ascii out).

Section Parser.
(** The fields of [Parser]: [bytes], and the position that every function takes
    and returns. *)
Context (bytes : list ascii).

Definition json_skip (pos : nat) : nat := run_while bytes json_space (length bytes) pos.
Definition json_digits (pos : nat) : nat := run_while bytes ascii_digit (length bytes) pos.

(** [self.bytes[self.pos..].starts_with(literal)]. *)
Definition expect (literal : list ascii) (why : string) (pos : nat) : parsed unit :=
  if decide (length bytes < pos)%nat then None
  else if bool_decide (take (length literal) (drop pos bytes) = literal)
  then Some (Ok (tt, (pos + length literal)%nat))
  else fail pos why.

Fixpoint hex_value (digits : list ascii) (value : N) : option N :=
  match digits with
  | [] => Some value
  | a :: digits => d ← to_digit16 a; hex_value digits (value * 16 + d)%N
  end.

Definition hex4 (pos : nat) : parsed N :=
  if decide (length bytes < pos + 4)%nat then fail pos "short \u escape"
  else
    match hex_value (take 4 (drop pos bytes)) 0 with
    | Some value => Some (Ok (value, (pos + 4)%nat))
    | None => fail pos "bad \u escape"
    end.

(** The code point of an escape behind the letter u. *)
Definition unicode_escape (pos : nat) : parsed N :=
  let! first := hex4 pos in
  let! code :=
    (if in_range 0xD800 0xDBFF first.1 then
       if bool_decide (take 2 (drop first.2 bytes) = ["\"; "u"]%char) then
         let! second := hex4 (first.2 + 2) in
         if in_range 0xDC00 0xDFFF second.1 then
           Some (Ok ((0x10000 + N.shiftl (first.1 - 0xD800) 10 + (second.1 - 0xDC00))%N, second.2))
         else fail second.2 "lone surrogate"
       else fail first.2 "lone surrogate"
     else Some (Ok first)) in
  match char_from_u32 code.1 with
  | Some ch => Some (Ok (ch, code.2))
  | None => fail code.2 "lone surrogate"
  end.

(** An escape behind its backslash: the bytes it stands for. *)
Definition escape (pos : nat) : parsed (list ascii) :=
  match bytes !! pos with
  | None => fail pos "unterminated escape"
  | Some e =>
      let pos := S pos in
      if bool_decide (e = "u"%char) then
        let! ch := unicode_escape pos in Some (Ok (ascii_of_N <$> encode_utf8 ch.1, ch.2))
      else
        match simple_escape e with
        | Some c => Some (Ok ([c], pos))
        | None => fail pos "bad escape"
        end
  end.

Fixpoint string_loop (fuel : nat) (out : list ascii) (pos : nat) : parsed (list ascii) :=
  match fuel with
  | O => None
  | S fuel =>
      match bytes !! pos with
      | None => fail pos "unterminated string"
      | Some byte =>
          let pos := S pos in
          if bool_decide (byte = "034"%char) then Some (Ok (out, pos))
          else if bool_decide (byte = "\"%char) then
            let! e := escape pos in string_loop fuel (out ++ e.1) e.2
          else if (N_of_ascii byte <=? 0x1F)%N then fail pos "control character in string"
          else string_loop fuel (out ++ [byte]) pos
      end
  end.

Definition json_string (pos : nat) : parsed string :=
  let! out := string_loop (S (length bytes)) [] (S pos) in
  match string_from_utf8 out.1 with
  | Some s => Some (Ok (s, out.2))
  | None => fail out.2 "invalid UTF-8"
  end.

(** [exponent = (exponent * 10 + digit).min(MAX_EXPONENT + 1)] on every digit. *)
Fixpoint exponent_loop (fuel : nat) (exponent : Z) (pos : nat) : option (Z * nat) :=
  match bytes !! pos with
  | Some digit =>
      if ascii_digit digit then
        match fuel with
        | O => None
        | S fuel => exponent_loop fuel (Z.min (exponent * 10 + digit_of digit) (MAX_EXPONENT + 1)) (S pos)
        end
      else Some (exponent, pos)
  | None => Some (exponent, pos)
  end.

Definition digit_at (pos : nat) : bool :=
  match bytes !! pos with
  | Some a => ascii_digit a
  | None => false
  end.
Definition byte_at (pos : nat) (c : ascii) : bool := bool_decide (bytes !! pos = Some c).

(** The integer part, the fraction and the exponent of a number. *)
Definition integer_part (pos : nat) : parsed unit :=
  if byte_at pos "0" then Some (Ok (tt, S pos))
  else if digit_at pos then Some (Ok (tt, json_digits pos))
  else fail pos "bad number".

Definition fraction_part (pos : nat) : parsed (nat * nat) :=
  if byte_at pos "." then
    let pos := S pos in
    if negb (digit_at pos) then fail pos "bad number"
    else let fin := json_digits pos in Some (Ok ((pos, fin), fin))
  else Some (Ok ((pos, pos), pos)).

Definition exponent_part (pos : nat) : parsed Z :=
  if byte_at pos "e" || byte_at pos "E" then
    let pos := S pos in
    let exponent_negative := byte_at pos "-" in
    let pos := if byte_at pos "+" || byte_at pos "-" then S pos else pos in
    if negb (digit_at pos) then fail pos "bad number"
    else
      '(exponent, pos) ← exponent_loop (length bytes) 0 pos;
      if MAX_EXPONENT <? exponent then fail pos "exponent out of range"
      else Some (Ok ((if exponent_negative then - exponent else exponent), pos))
  else Some (Ok (0, pos)).

(** [&bytes[from..to]]. *)
Definition byte_slice (from to : nat) : list ascii := take (to - from) (drop from bytes).

Definition json_number (pos : nat) : parsed Json :=
  let negative := byte_at pos "-" in
  let int_start := if negative then S pos else pos in
  let! int := integer_part int_start in
  let! frac := fraction_part int.2 in
  let! exponent := exponent_part frac.2 in
  Some (Ok (JNum (Number_from_parts negative (byte_slice int_start int.2) (byte_slice frac.1.1 frac.1.2) exponent.1),
            exponent.2)).

Section Levels.
(** [value] one level deeper. *)
Context (value : nat → parsed Json).

Fixpoint object_loop (fuel : nat) (object : Object) (pos : nat) : parsed Json :=
  match fuel with
  | O => None
  | S fuel =>
      let pos := json_skip pos in
      if negb (byte_at pos "034") then fail pos "expected a property name"
      else
        let! key := json_string pos in
        if bool_decide (is_Some (obj_index object !! key.1)) then fail key.2 "duplicate property name"
        else
          let pos := json_skip key.2 in
          if negb (byte_at pos ":") then fail pos "expected ':'"
          else
            let! v := value (S pos) in
            let object := mkObject (obj_members object ++ [(key.1, v.1)])
                                   (<[key.1 := length (obj_members object)]> (obj_index object)) in
            let pos := json_skip v.2 in
            if byte_at pos "," then object_loop fuel object (S pos)
            else if byte_at pos "}" then Some (Ok (JObj object, S pos))
            else fail pos "expected ',' or '}'"
  end.

Definition json_object (pos : nat) : parsed Json :=
  let object := mkObject [] ∅ in
  let pos := json_skip (S pos) in
  if byte_at pos "}" then Some (Ok (JObj object, S pos))
  else object_loop (length bytes) object pos.

Fixpoint array_loop (fuel : nat) (items : list Json) (pos : nat) : parsed Json :=
  match fuel with
  | O => None
  | S fuel =>
      let! v := value pos in
      let items := items ++ [v.1] in
      let pos := json_skip v.2 in
      if byte_at pos "," then array_loop fuel items (S pos)
      else if byte_at pos "]" then Some (Ok (JArr items, S pos))
      else fail pos "expected ',' or ']'"
  end.

Definition json_array (pos : nat) : parsed Json :=
  let pos := json_skip (S pos) in
  if byte_at pos "]" then Some (Ok (JArr [], S pos))
  else array_loop (length bytes) [] pos.
End Levels.

Definition literal_value (text : list ascii) (v : Json) (pos : nat) : parsed Json :=
  let! e := expect text "bad literal" pos in Some (Ok (v, e.2)).

(** The recursion on the depth; [value] refuses [MAX_DEPTH], so the fuel is one
    more than the depths left. *)
Fixpoint json_value (fuel depth pos : nat) : parsed Json :=
  match fuel with
  | O => None
  | S fuel =>
      if decide (MAX_DEPTH ≤ depth)%nat then Some (Err PDepth)
      else
        let pos := json_skip pos in
        match bytes !! pos with
        | None => fail pos "unexpected end"
        | Some c =>
            if bool_decide (c = "{"%char) then json_object (json_value fuel (S depth)) pos
            else if bool_decide (c = "["%char) then json_array (json_value fuel (S depth)) pos
            else if bool_decide (c = "034"%char) then
              let! s := json_string pos in Some (Ok (JStr s.1, s.2))
            else if bool_decide (c = "t"%char) then literal_value ["t"; "r"; "u"; "e"]%char (JBool true) pos
            else if bool_decide (c = "f"%char) then
              literal_value ["f"; "a"; "l"; "s"; "e"]%char (JBool false) pos
            else if bool_decide (c = "n"%char) then literal_value ["n"; "u"; "l"; "l"]%char JNull pos
            else if bool_decide (c = "-"%char) || ascii_digit c then json_number pos
            else fail pos "unexpected character"
        end
  end.
End Parser.

Definition DEPTH_FUEL : nat := S MAX_DEPTH.

Definition parse_json (text : string) : option (result ParseFailure Json) :=
  let bytes := String.list_ascii_of_string text in
  let! v := json_value bytes DEPTH_FUEL 0 0 in
  let pos := json_skip bytes v.2 in
  if negb (pos =? length bytes)%nat then fail pos "trailing characters"
  else Some (Ok v.1).
