(* ===== verification/JsonSchema.v ===== *)
(** * The schema verifier: crates/ptr-verifier/src/json_schema.rs, schemas and
    validation

    The compiler of the pinned subset of JSON Schema, validation with its bounded
    collection of findings, and the verifier.  How Rust's [{:?}] writes a string
    depends on tables of the Unicode character database and only appears in
    messages; it is the parameter [debug]. *)

From S2P Require Import Prelude Bytes Text Types Verifier VerifierClaims BigInt Json.
From Stdlib Require Import ZArith Strings.Ascii.
From stdpp Require Import options.

Definition JSON_CANDIDATE_BYTES : N := 65536.
Definition MAX_SCHEMA_BYTES : N := 16384.
Definition MAX_FINDINGS : nat := 32.
Definition MAX_ENUM_MEMBERS : nat := 256.
Definition MAX_SHOWN_POINTER_BYTES : N := 256.

(** ** Schemas *)

Inductive JsonType := TNull | TBoolean | TInteger | TNumber | TString | TArray | TObject.

Definition JsonType_parse (name : string) : option JsonType :=
  if decide (name = "null") then Some TNull
  else if decide (name = "boolean") then Some TBoolean
  else if decide (name = "integer") then Some TInteger
  else if decide (name = "number") then Some TNumber
  else if decide (name = "string") then Some TString
  else if decide (name = "array") then Some TArray
  else if decide (name = "object") then Some TObject
  else None.

Definition JsonType_name (t : JsonType) : string :=
  match t with
  | TNull => "null"
  | TBoolean => "boolean"
  | TInteger => "integer"
  | TNumber => "number"
  | TString => "string"
  | TArray => "array"
  | TObject => "object"
  end.

Definition JsonType_admits (t : JsonType) (v : Json) : bool :=
  match t, v with
  | TNull, JNull | TBoolean, JBool _ | TString, JStr _ | TArray, JArr _ | TObject, JObj _
  | TNumber, JNum _ => true
  | TInteger, JNum n => Number_is_integer n
  | _, _ => false
  end.

Inductive Schema := mkSchema {
  sc_ty : option JsonType;
  sc_required : list string;
  sc_properties : list (string * Schema);
  sc_property_index : gmap string nat;
  sc_forbid_extra : bool;
  sc_members : option (list Json);
  sc_minimum : option Number;
  sc_maximum : option Number;
  sc_min_length : option Z;
  sc_max_length : option Z;
  sc_items : option Schema
}.

Definition Schema_default : Schema :=
  mkSchema None [] [] ∅ false None None None None None None.

(** Assignments to one field of the schema under construction. *)
Definition set_ty (t : JsonType) (s : Schema) : Schema :=
  let '(mkSchema _ r p i f m mn mx ml xl it) := s in mkSchema (Some t) r p i f m mn mx ml xl it.
Definition push_required (name : string) (s : Schema) : Schema :=
  let '(mkSchema t r p i f m mn mx ml xl it) := s in mkSchema t (r ++ [name]) p i f m mn mx ml xl it.
Definition push_property (name : string) (sub : Schema) (s : Schema) : Schema :=
  let '(mkSchema t r p i f m mn mx ml xl it) := s in
  mkSchema t r (p ++ [(name, sub)]) (<[name := length p]> i) f m mn mx ml xl it.
Definition set_forbid_extra (b : bool) (s : Schema) : Schema :=
  let '(mkSchema t r p i f m mn mx ml xl it) := s in mkSchema t r p i b m mn mx ml xl it.
Definition set_members (l : list Json) (s : Schema) : Schema :=
  let '(mkSchema t r p i f m mn mx ml xl it) := s in mkSchema t r p i f (Some l) mn mx ml xl it.
Definition set_minimum (n : Number) (s : Schema) : Schema :=
  let '(mkSchema t r p i f m mn mx ml xl it) := s in mkSchema t r p i f m (Some n) mx ml xl it.
Definition set_maximum (n : Number) (s : Schema) : Schema :=
  let '(mkSchema t r p i f m mn mx ml xl it) := s in mkSchema t r p i f m mn (Some n) ml xl it.
Definition set_min_length (n : Z) (s : Schema) : Schema :=
  let '(mkSchema t r p i f m mn mx ml xl it) := s in mkSchema t r p i f m mn mx (Some n) xl it.
Definition set_max_length (n : Z) (s : Schema) : Schema :=
  let '(mkSchema t r p i f m mn mx ml xl it) := s in mkSchema t r p i f m mn mx ml (Some n) it.
Definition set_items (sub : Schema) (s : Schema) : Schema :=
  let '(mkSchema t r p i f m mn mx ml xl it) := s in mkSchema t r p i f m mn mx ml xl (Some sub).

Definition length_keyword (v : Json) : result string Z :=
  match v with
  | JNum n => ok_or (Number_to_u32 n) "a length keyword needs a non-negative integer"
  | _ => Err "a length keyword needs a non-negative integer"
  end.

(** The loop over the names of [required]. *)
Fixpoint compile_required (names : list Json) (s : Schema) : result string Schema :=
  match names with
  | [] => Ok s
  | JStr name :: names => compile_required names (push_required name s)
  | _ :: _ => Err "required must list property names"
  end.

Section Compile.
Context (debug : string → string).

Definition unsupported (keyword : string) : result string Schema :=
  Err ("keyword " +:+ debug keyword +:+ " has an unsupported value").

Section Keyword.
(** [compile] one level deeper. *)
Context (compile : Json → result string Schema).

(** The loop over the members of [properties]. *)
Definition compile_properties : list (string * Json) → Schema → result string Schema :=
  fix go members s :=
    match members with
    | [] => Ok s
    | (name, sub) :: members =>
        let? sub := compile sub in
        go members (push_property name sub s)
    end.

(** One keyword with its value. *)
Definition compile_keyword (keyword : string) (v : Json) (s : Schema) : result string Schema :=
  if decide (keyword = "title") then Ok s
  else if decide (keyword = "description") then Ok s
  else if decide (keyword = "type") then
    match v with
    | JStr name =>
        let? t := ok_or (JsonType_parse name) ("unknown type " +:+ debug name) in Ok (set_ty t s)
    | _ => unsupported keyword
    end
  else if decide (keyword = "required") then
    match v with
    | JArr names => compile_required names s
    | _ => unsupported keyword
    end
  else if decide (keyword = "properties") then
    match v with
    | JObj o => compile_properties (obj_members o) s
    | _ => unsupported keyword
    end
  else if decide (keyword = "additionalProperties") then
    match v with
    | JBool allowed => Ok (set_forbid_extra (negb allowed) s)
    | _ => unsupported keyword
    end
  else if decide (keyword = "enum") then
    match v with
    | JArr members =>
        if negb (bool_decide (members = [])) && (length members <=? MAX_ENUM_MEMBERS)
        then Ok (set_members members s) else unsupported keyword
    | _ => unsupported keyword
    end
  else if decide (keyword = "minimum") then
    match v with
    | JNum n => Ok (set_minimum n s)
    | _ => unsupported keyword
    end
  else if decide (keyword = "maximum") then
    match v with
    | JNum n => Ok (set_maximum n s)
    | _ => unsupported keyword
    end
  else if decide (keyword = "minLength") then let? n := length_keyword v in Ok (set_min_length n s)
  else if decide (keyword = "maxLength") then let? n := length_keyword v in Ok (set_max_length n s)
  else if decide (keyword = "items") then
    match v with
    | JObj _ => let? sub := compile v in Ok (set_items sub s)
    | _ => unsupported keyword
    end
  else Err ("keyword " +:+ debug keyword +:+ " is outside the pinned subset").

(** The loop over the keywords. *)
Definition compile_keywords : list (string * Json) → Schema → result string Schema :=
  fix go members s :=
    match members with
    | [] => Ok s
    | (keyword, v) :: members =>
        let? s := compile_keyword keyword v s in
        go members s
    end.
End Keyword.

Fixpoint compile (v : Json) (depth : nat) {struct v} : result string Schema :=
  if decide (MAX_DEPTH < depth) then
    Err ("schema is nested deeper than " +:+ to_string (N.of_nat MAX_DEPTH))
  else
    match v with
    | JObj keywords => compile_keywords (λ sub, compile sub (S depth)) (obj_members keywords) Schema_default
    | _ => Err "a schema must be a JSON object"
    end.
End Compile.

(** ** Validation *)

(** The RFC 6901 pointer of a child. *)
Fixpoint escape_token (token : string) : string :=
  match token with
  | EmptyString => ""
  | String ch token =>
      (if decide (ch = "~"%char) then "~0" else if decide (ch = "/"%char) then "~1" else String ch "") +:+
      escape_token token
  end.
Definition child (pointer token : string) : string := pointer +:+ "/" +:+ escape_token token.

(** The pointer as shown in a message. *)
Definition shown (pointer : string) : string :=
  if decide (pointer = "") then "(root)"
  else if (slen pointer <=? MAX_SHOWN_POINTER_BYTES)%N then pointer
  else prefix_of pointer MAX_SHOWN_POINTER_BYTES +:+ "...".

Record Collector := mkCollector { co_findings : list Finding; co_truncated : bool }.

Definition Collector_full (c : Collector) : bool := MAX_FINDINGS <=? length (co_findings c).

Definition Collector_push (code pointer why : string) (c : Collector) : Collector :=
  if co_truncated c then c
  else if Collector_full c then mkCollector (co_findings c) true
  else mkCollector (co_findings c ++ [finding code (shown pointer +:+ ": " +:+ why)]) (co_truncated c).

(** [if condition { out.push(...) }]. *)
Definition Collector_push_if (b : bool) (code pointer why : string) (c : Collector) : Collector :=
  if b then Collector_push code pointer why c else c.

(** [text.chars().count()]. *)
Definition char_count (text : string) : Z := Z.of_nat (length (default [] (chars text))).

(** [for x in list { if out.truncated { break } body }]. *)
Definition for_untruncated {A} (body : A → Collector → Collector) : list A → Collector → Collector :=
  fix go l out :=
    match l with
    | [] => out
    | x :: l => if co_truncated out then out else go l (body x out)
    end.

(** The same over the elements of an array with their indices. *)
Definition for_items (body : Json → string → Collector → Collector) (pointer : string) :
    nat → list Json → Collector → Collector :=
  fix go index items out :=
    match items with
    | [] => out
    | item :: items =>
        if co_truncated out then out
        else go (S index) items (body item (child pointer (to_string (N.of_nat index))) out)
    end.

Section Validate.
Context (debug : string → string).

Definition check_type (s : Schema) (v : Json) (pointer : string) (out : Collector) : Collector :=
  match sc_ty s with
  | Some ty =>
      Collector_push_if (negb (JsonType_admits ty v)) "json.type" pointer
        ("expected " +:+ JsonType_name ty +:+ ", found " +:+ Json_type_name v) out
  | None => out
  end.

Definition check_enum (s : Schema) (v : Json) (pointer : string) (out : Collector) : Collector :=
  match sc_members s with
  | Some members =>
      Collector_push_if (negb (existsb (λ member, json_eq member v) members)) "json.enum" pointer
        "value is not an enum member" out
  | None => out
  end.

Definition check_range (s : Schema) (n : Number) (pointer : string) (out : Collector) : Collector :=
  let out :=
    match sc_minimum s with
    | Some min =>
        Collector_push_if (bool_decide (Number_compare n min = Lt)) "json.range" pointer
          "value is below minimum" out
    | None => out
    end in
  match sc_maximum s with
  | Some max =>
      Collector_push_if (bool_decide (Number_compare n max = Gt)) "json.range" pointer
        "value is above maximum" out
  | None => out
  end.

Definition check_length (s : Schema) (text pointer : string) (out : Collector) : Collector :=
  let length := char_count text in
  let out :=
    match sc_min_length s with
    | Some min =>
        Collector_push_if (length <? min)%Z "json.length" pointer "string is shorter than minLength" out
    | None => out
    end in
  match sc_max_length s with
  | Some max =>
      Collector_push_if (max <? length)%Z "json.length" pointer "string is longer than maxLength" out
  | None => out
  end.

Definition check_required (v : Json) (pointer name : string) (out : Collector) : Collector :=
  Collector_push_if (bool_decide (Json_get v name = None)) "json.required" pointer
    ("missing required property " +:+ debug name) out.

Definition check_extra (s : Schema) (pointer : string) (member : string * Json) (out : Collector) : Collector :=
  Collector_push_if (bool_decide (sc_property_index s !! member.1 = None)) "json.extra"
    (child pointer member.1) "property is not allowed" out.

Fixpoint validate (s : Schema) (v : Json) (pointer : string) (out : Collector) {struct s} : Collector :=
  if co_truncated out then out
  else
    let out := check_type s v pointer out in
    let out := check_enum s v pointer out in
    match v with
    | JNum n => check_range s n pointer out
    | JStr text => check_length s text pointer out
    | JArr items =>
        match sc_items s with
        | Some item_schema => for_items (validate item_schema) pointer 0 items out
        | None => out
        end
    | JObj object =>
        let out := for_untruncated (check_required v pointer) (sc_required s) out in
        let out :=
          for_untruncated (λ property out,
            match Json_get v (fst property) with
            | Some present => validate (snd property) present (child pointer (fst property)) out
            | None => out
            end) (sc_properties s) out in
        if sc_forbid_extra s then for_untruncated (check_extra s pointer) (obj_members object) out
        else out
    | JNull | JBool _ => out
    end.

(** ** The verifier *)

Record JsonSchemaVerifier := { jv_schema : result string Schema }.

Definition JsonSchemaVerifier_new (schema : string) : option JsonSchemaVerifier :=
  compiled ←
    (if (MAX_SCHEMA_BYTES <? slen schema)%N then
       Some (Err ("schema is longer than " +:+ to_string MAX_SCHEMA_BYTES +:+ " bytes"))
     else
       parsed ← parse_json schema;
       Some (match parsed with
             | Ok v => compile debug v 0
             | Err PDepth => Err "schema is nested too deeply"
             | Err (PSyntax at_byte why) =>
                 Err ("schema is not JSON at byte " +:+ to_string (N.of_nat at_byte) +:+ ": " +:+ why)
             end));
  Some {| jv_schema := compiled |}.

Definition JsonSchemaVerifier_verify (v : JsonSchemaVerifier) (candidate : string) :
    option VerificationReport :=
  match jv_schema v with
  | Err why => status_report StatusUnknown [finding "json.schema" why]
  | Ok schema =>
      if (JSON_CANDIDATE_BYTES <? slen candidate)%N then
        status_report StatusFail [finding "json.oversize"
          ("document is " +:+ to_string (slen candidate) +:+ " bytes, the bound is " +:+
           to_string JSON_CANDIDATE_BYTES)]
      else
        parsed ← parse_json candidate;
        match parsed with
        | Err PDepth =>
            status_report StatusFail [finding "json.depth"
              ("document is nested deeper than " +:+ to_string (N.of_nat MAX_DEPTH))]
        | Err (PSyntax at_byte why) =>
            status_report StatusFail [finding "json.parse"
              ("not valid JSON at byte " +:+ to_string (N.of_nat at_byte) +:+ ": " +:+ why)]
        | Ok value =>
            let out := validate schema value "" (mkCollector [] false) in
            let findings :=
              if co_truncated out then
                co_findings out ++ [finding "json.truncated"
                  ("more than " +:+ to_string (N.of_nat MAX_FINDINGS) +:+
                   " violations; the rest are not listed")]
              else co_findings out in
            status_report (match findings with [] => StatusPass | _ => StatusFail end) findings
        end
  end.

#[export] Instance JsonSchemaVerifier_named : NamedVerifier JsonSchemaVerifier string := {|
  named_verifier := JsonSchemaVerifier_verify;
  verifier_name := λ _, "json-schema"
|}.
End Validate.
