(* ===== verification/JsonGrammar.v ===== *)
(** * The numbers of JSON documents are exact decimals

    A well-formed [Number] has digits without leading and trailing zeros.  Its
    value is a rational; construction, comparison, the test for integers and the
    conversion to [u32] are exact. *)

From S2P Require Import Prelude Bytes Text BigInt BigIntFacts Json.
From Stdlib Require Import ZArith Lia QArith Qpower Lqa Strings.Ascii.
From stdpp Require Import options.

Local Open Scope Z_scope.

(** The digits behind the decimal point. *)
Fixpoint dfrac (ds : list Z) : Q :=
  match ds with
  | [] => 0
  | d :: ds => ((inject_Z d + dfrac ds) * (1 # 10))%Q
  end.

Definition pow10 (z : Z) : Q := (10 ^ z)%Q.

Definition num_val (n : Number) : Q :=
  ((if num_neg n then -1 else 1) * (dfrac (num_digits n) * pow10 (Number_top n)))%Q.

Definition is_digit (d : Z) : Prop := 0 <= d <= 9.

Record num_wf (n : Number) : Prop := {
  nw_digits : Forall is_digit (num_digits n);
  nw_head : head (num_digits n) ≠ Some 0;
  nw_last : last (num_digits n) ≠ Some 0;
  nw_zero : num_digits n = [] → num_neg n = false
}.

(** ** Powers of ten *)

Lemma pow10_pos z : (0 < pow10 z)%Q.
Proof. apply Qpower_0_lt. lra. Qed.

Lemma pow10_add a b : (pow10 (a + b) == pow10 a * pow10 b)%Q.
Proof. apply Qpower_plus. lra. Qed.

Lemma pow10_nat k : (pow10 (Z.of_nat k) == inject_Z (10 ^ Z.of_nat k))%Q.
Proof. unfold pow10. change 10%Q with (inject_Z 10). by rewrite <- Zpower_Qpower by lia. Qed.

Lemma pow10_le a b : a <= b → (pow10 a <= pow10 b)%Q.
Proof. intros H. apply Qpower_le_compat_l; [done|]. lra. Qed.

Lemma pow10_S a : (pow10 (a + 1) == 10 * pow10 a)%Q.
Proof. rewrite pow10_add. change (pow10 1) with 10%Q. lra. Qed.

(** ** Comparisons *)

Lemma Qcompare_lt p q : (p < q)%Q → (p ?= q)%Q = Lt.
Proof. apply Qlt_alt. Qed.
Lemma Qcompare_gt p q : (q < p)%Q → (p ?= q)%Q = Gt.
Proof. apply Qgt_alt. Qed.
Lemma Qcompare_eq p q : (p == q)%Q → (p ?= q)%Q = Eq.
Proof. apply Qeq_alt. Qed.

Lemma inject_Z_step x y : x < y → (inject_Z x + 1 <= inject_Z y)%Q.
Proof. intros H. change 1%Q with (inject_Z 1). rewrite <- inject_Z_plus, <- Zle_Qle. lia. Qed.

Lemma inject_Z_pos x : 0 < x → (1 <= inject_Z x)%Q.
Proof. intros H%inject_Z_step. change (inject_Z 0) with 0%Q in H. lra. Qed.

(** ** Digits *)

Lemma digit_Q d : is_digit d → (0 <= inject_Z d <= 9)%Q.
Proof.
  intros [H1 H2]. rewrite Zle_Qle in H1. rewrite Zle_Qle in H2. by split.
Qed.

Lemma dfrac_bounds ds : Forall is_digit ds → (0 <= dfrac ds < 1)%Q.
Proof.
  induction 1 as [|d ds Hd%digit_Q _ IH]; cbn [dfrac]; [lra|].
  split; lra.
Qed.

Lemma last_cons_ne (d : Z) ds : last (d :: ds) ≠ Some 0 → last ds ≠ Some 0 ∧ (ds = [] → d ≠ 0).
Proof. destruct ds as [|e ds]; [|done]. cbn. split; [done|]. intros _ ->. done. Qed.

Lemma dfrac_pos ds : Forall is_digit ds → last ds ≠ Some 0 → ds ≠ [] → (0 < dfrac ds)%Q.
Proof.
  induction 1 as [|d ds Hd12 Hds IH]; [done|]. intros [Hl Hd]%last_cons_ne _. cbn [dfrac].
  pose proof (digit_Q d Hd12) as Hq. destruct Hd12 as [Hd1 Hd2].
  destruct ds as [|e ds].
  - assert (Hd0 : 0 < d) by (specialize (Hd eq_refl); lia). apply inject_Z_pos in Hd0. cbn [dfrac]. lra.
  - specialize (IH Hl ltac:(done)). lra.
Qed.

Lemma dfrac_low ds : Forall is_digit ds → head ds ≠ Some 0 → ds ≠ [] → (1 # 10 <= dfrac ds)%Q.
Proof.
  intros H Hh Hne. destruct H as [|d ds [Hd1 Hd2] Hds]; [done|]. cbn [dfrac]. cbn in Hh.
  assert (Hd0 : 0 < d) by (assert (d ≠ 0) by congruence; lia). apply inject_Z_pos in Hd0.
  pose proof (dfrac_bounds ds Hds). lra.
Qed.

Lemma lex_cmp_dfrac ds : ∀ es, Forall is_digit ds → Forall is_digit es →
  last ds ≠ Some 0 → last es ≠ Some 0 → lex_cmp ds es = (dfrac ds ?= dfrac es)%Q.
Proof.
  induction ds as [|d ds IH]; intros [|e es] Hd He Hld Hle; cbn [lex_cmp].
  - done.
  - symmetry. apply Qcompare_lt. by apply dfrac_pos.
  - symmetry. apply Qcompare_gt. by apply dfrac_pos.
  - apply Forall_cons in Hd as [Hd Hds]. apply Forall_cons in He as [He Hes].
    apply last_cons_ne in Hld as [Hld _]. apply last_cons_ne in Hle as [Hle _].
    pose proof (dfrac_bounds ds Hds). pose proof (dfrac_bounds es Hes). cbn [dfrac].
    destruct (Z.compare_spec d e) as [->|Hlt|Hlt].
    + rewrite IH by done. destruct (Qcompare_spec (dfrac ds) (dfrac es)); symmetry;
        [apply Qcompare_eq|apply Qcompare_lt|apply Qcompare_gt]; lra.
    + symmetry. apply Qcompare_lt. apply inject_Z_step in Hlt. lra.
    + symmetry. apply Qcompare_gt. apply inject_Z_step in Hlt. lra.
Qed.

(** ** Comparison *)

(** The value without its sign. *)
Definition num_abs (n : Number) : Q := (dfrac (num_digits n) * pow10 (Number_top n))%Q.

Lemma num_abs_pos n : num_wf n → num_digits n ≠ [] → (0 < num_abs n)%Q.
Proof.
  intros Hn Hne. unfold num_abs. apply Qmult_lt_0_compat; [|apply pow10_pos]. by apply dfrac_pos; [apply Hn..|].
Qed.

Lemma num_abs_bounds n : num_wf n → num_digits n ≠ [] →
  (pow10 (Number_top n - 1) <= num_abs n < pow10 (Number_top n))%Q.
Proof.
  intros Hn Hne. unfold num_abs. pose proof (pow10_pos (Number_top n)).
  assert (pow10 (Number_top n) == 10 * pow10 (Number_top n - 1))%Q as E
    by (rewrite <- pow10_S; by replace (Number_top n - 1 + 1) with (Number_top n) by lia).
  pose proof (dfrac_low _ (nw_digits _ Hn) (nw_head _ Hn) Hne). pose proof (dfrac_bounds _ (nw_digits _ Hn)). split; nra.
Qed.

Lemma magnitude_ok n m : num_wf n → num_wf m → num_digits n ≠ [] → num_digits m ≠ [] →
  (match Number_top n ?= Number_top m with
   | Eq => lex_cmp (num_digits n) (num_digits m)
   | c => c
   end) = (num_abs n ?= num_abs m)%Q.
Proof.
  intros Hn Hm Hnn Hnm. pose proof (num_abs_bounds n Hn Hnn). pose proof (num_abs_bounds m Hm Hnm).
  destruct (Z.compare_spec (Number_top n) (Number_top m)) as [E|Hlt|Hlt].
  - rewrite lex_cmp_dfrac by (apply Hn || apply Hm). unfold num_abs. rewrite E.
    pose proof (pow10_pos (Number_top m)).
    destruct (Qcompare_spec (dfrac (num_digits n)) (dfrac (num_digits m))); symmetry;
      [apply Qcompare_eq|apply Qcompare_lt|apply Qcompare_gt]; nra.
  - symmetry. apply Qcompare_lt. pose proof (pow10_le (Number_top n) (Number_top m - 1) ltac:(lia)). lra.
  - symmetry. apply Qcompare_gt. pose proof (pow10_le (Number_top m) (Number_top n - 1) ltac:(lia)). lra.
Qed.

(** The value by the sign. *)
Lemma num_val_sign n : num_wf n →
  match Number_sign n with
  | 0 => num_digits n = [] ∧ (num_val n == 0)%Q
  | Zpos p => p = 1%positive ∧ num_digits n ≠ [] ∧ (num_val n == num_abs n)%Q
  | Zneg p => p = 1%positive ∧ num_digits n ≠ [] ∧ (num_val n == - num_abs n)%Q
  end.
Proof.
  intros Hn. unfold Number_sign, num_val. fold (num_abs n). case_bool_decide as E.
  - split; [done|]. unfold num_abs. rewrite E. cbn [dfrac]. lra.
  - destruct (num_neg n); (split; [done|]); (split; [done|]); lra.
Qed.

Lemma compare_ok n m : num_wf n → num_wf m → Number_compare n m = (num_val n ?= num_val m)%Q.
Proof.
  intros Hn Hm. unfold Number_compare.
  pose proof (num_val_sign n Hn) as Vn. pose proof (num_val_sign m Hm) as Vm.
  pose proof (num_abs_pos n Hn) as Pn. pose proof (num_abs_pos m Hm) as Pm.
  destruct (Number_sign n), (Number_sign m); destruct_and?; simplify_eq;
    repeat match goal with H : ?a → (0 < _)%Q, H' : ?a |- _ => specialize (H H') end; cbn -[lex_cmp Qcompare];
    try (symmetry; (apply Qcompare_eq || apply Qcompare_lt || apply Qcompare_gt); lra).
  - rewrite magnitude_ok by done. destruct (Qcompare_spec (num_abs n) (num_abs m)); symmetry;
      [apply Qcompare_eq|apply Qcompare_lt|apply Qcompare_gt]; lra.
  - rewrite magnitude_ok by done. destruct (Qcompare_spec (num_abs n) (num_abs m)); symmetry; cbn [CompOpp];
      [apply Qcompare_eq|apply Qcompare_gt|apply Qcompare_lt]; lra.
Qed.

(** ** Construction *)

(** The integer that digits spell. *)
Definition digits_val (ds : list Z) : Z := foldl (λ value digit, value * 10 + digit) 0 ds.

Lemma digits_val_acc ds : ∀ acc, foldl (λ value digit, value * 10 + digit) acc ds = acc * 10 ^ Z.of_nat (length ds) + digits_val ds.
Proof.
  unfold digits_val. induction ds as [|d ds IH]; intros acc; cbn [foldl length]; [lia|].
  rewrite IH, (IH (0 * 10 + d)), Nat2Z.inj_succ, Z.pow_succ_r by lia. ring.
Qed.

Lemma digits_val_dfrac ds : (inject_Z (digits_val ds) == dfrac ds * pow10 (Z.of_nat (length ds)))%Q.
Proof.
  induction ds as [|d ds IH]; [done|]. unfold digits_val. cbn [foldl dfrac length].
  rewrite digits_val_acc, inject_Z_plus, IH, inject_Z_mult, <- pow10_nat, Nat2Z.inj_succ.
  unfold Z.succ. rewrite pow10_S. replace (0 * 10 + d) with d by lia. lra.
Qed.

Lemma digits_val_dec l : digits_val (digit_of <$> l) = dec_val 0 l.
Proof.
  unfold digits_val, dec_val. generalize 0. induction l as [|a l IH]; intros z; [done|]. cbn [fmap list_fmap foldl]. by rewrite IH.
Qed.

Lemma dfrac_snoc_0 ds : (dfrac (ds ++ [0%Z]) == dfrac ds)%Q.
Proof. induction ds as [|d ds IH]; cbn [dfrac app]; [done|]. rewrite IH. lra. Qed.

Lemma pop_zeros_ok ds : Forall is_digit ds →
  Forall is_digit (pop_zeros ds) ∧ head (pop_zeros ds) ≠ Some 0 ∧
  (dfrac (pop_zeros ds) * pow10 (Z.of_nat (length (pop_zeros ds))) == dfrac ds * pow10 (Z.of_nat (length ds)))%Q.
Proof.
  induction 1 as [|d ds Hd Hds (IH1 & IH2 & IH3)]; [split_and!; [constructor|done|done]|].
  destruct d as [|d|d].
  - cbn [pop_zeros dfrac length]. split_and!; [done|done|]. rewrite IH3, Nat2Z.inj_succ. unfold Z.succ.
    rewrite pow10_S. change (inject_Z 0) with 0%Q. lra.
  - split_and!; [by constructor|done|done].
  - split_and!; [by constructor|done|done].
Qed.

Lemma pop_exp_ok rds : ∀ e, Forall is_digit rds →
  let '(rds', e') := pop_exp rds e in
  Forall is_digit rds' ∧ head rds' ≠ Some 0 ∧ suffix rds' rds ∧
  (dfrac (reverse rds') == dfrac (reverse rds))%Q ∧ e' + Z.of_nat (length rds') = e + Z.of_nat (length rds).
Proof.
  induction rds as [|d rds IH]; intros e H; [split_and!; [constructor|done|done|done|done]|].
  destruct d as [|d|d]; [|split_and!; done..].
  apply Forall_cons in H as [_ H]. cbn [pop_exp]. specialize (IH (e + 1) H). destruct (pop_exp rds (e + 1)) as [rds' e'].
  destruct IH as (H1 & H2 & H3 & H4 & H5). split_and!; [done|done|by apply suffix_cons_r| |cbn [length]; lia].
  by rewrite reverse_cons, dfrac_snoc_0.
Qed.

Lemma head_reverse {A} (l : list A) : head (reverse l) = last l.
Proof. by rewrite <- (reverse_involutive l) at 2; rewrite last_reverse. Qed.

(** The parts of a number text are kept exactly. *)
Lemma from_parts_ok neg int frac e :
  let n := Number_from_parts neg int frac e in
  num_wf n ∧
  (num_val n == (if neg then -1 else 1) * (inject_Z (dec_val 0 (int ++ frac)) * pow10 (e - Z.of_nat (length frac))))%Q.
Proof.
  unfold Number_from_parts. set (ds := digit_of <$> (int ++ frac)).
  assert (Hds : Forall is_digit ds).
  { apply Forall_fmap, Forall_forall. intros a _. apply digit_of_bound. }
  destruct (pop_zeros_ok ds Hds) as (Hp1 & Hp2 & Hp3). set (ps := pop_zeros ds) in *.
  assert (Hr : Forall is_digit (reverse ps)) by by apply Forall_reverse.
  pose proof (pop_exp_ok (reverse ps) (e - Z.of_nat (length frac)) Hr) as Hx.
  destruct (pop_exp _ _) as [rds e']. destruct Hx as (Hx1 & Hx2 & [k Hx3] & Hx4 & Hx5).
  rewrite reverse_involutive in Hx4. rewrite length_reverse in Hx5. cbv zeta. split.
  - split; cbn [num_digits num_neg].
    + by apply Forall_reverse.
    + apply (f_equal reverse) in Hx3. rewrite reverse_involutive, reverse_app in Hx3.
      destruct (reverse rds) as [|d l]; [done|]. by rewrite Hx3 in Hp2.
    + by rewrite last_reverse.
    + intros E. rewrite bool_decide_eq_true_2 by done. by rewrite andb_false_r.
  - unfold num_val, Number_top. cbn [num_digits num_neg num_exp]. rewrite length_reverse, Hx5, Hx4.
    assert (E : (dfrac ps * pow10 (e - Z.of_nat (length frac) + Z.of_nat (length ps)) ==
                 inject_Z (dec_val 0 (int ++ frac)) * pow10 (e - Z.of_nat (length frac)))%Q).
    { rewrite pow10_add, <- digits_val_dec. fold ds. rewrite digits_val_dfrac, <- Hp3. lra. }
    rewrite E. case_bool_decide as En; [|by rewrite andb_true_r].
    rewrite andb_false_r. rewrite <- E. rewrite En in Hx4. cbn [dfrac] in Hx4. destruct neg; [|done].
    rewrite <- Hx4. lra.
Qed.

(** ** Integers *)

Lemma num_val_exp n : (num_val n == (if num_neg n then -1 else 1) * (inject_Z (digits_val (num_digits n)) * pow10 (num_exp n)))%Q.
Proof.
  unfold num_val, Number_top. rewrite pow10_add, digits_val_dfrac. destruct (num_neg n); lra.
Qed.

Lemma digits_val_bounds ds : Forall is_digit ds → 0 <= digits_val ds < 10 ^ Z.of_nat (length ds).
Proof.
  induction 1 as [|d ds [H1 H2] _ IH]; [done|]. unfold digits_val. cbn [foldl length].
  rewrite digits_val_acc, Nat2Z.inj_succ, Z.pow_succ_r by lia. nia.
Qed.

Lemma digits_val_snoc ds d : digits_val (ds ++ [d]) = digits_val ds * 10 + d.
Proof. unfold digits_val. by rewrite foldl_app. Qed.

Lemma is_integer_ok n : num_wf n → Number_is_integer n = true ↔ ∃ z, (num_val n == inject_Z z)%Q.
Proof.
  intros Hn. unfold Number_is_integer. rewrite orb_true_iff, bool_decide_eq_true, Z.leb_le.
  pose proof (num_val_exp n) as Ev. split.
  - intros [E|He].
    + exists 0. rewrite Ev, E. change (inject_Z (digits_val [])) with 0%Q. change (inject_Z 0) with 0%Q. lra.
    + exists ((if num_neg n then -1 else 1) * (digits_val (num_digits n) * 10 ^ num_exp n)).
      rewrite Ev, <- (Z2Nat.id (num_exp n)) at 1 by done. rewrite pow10_nat, Z2Nat.id by done.
      rewrite !inject_Z_mult. by destruct (num_neg n).
  - intros [z Hz]. rewrite Ev in Hz. destruct (decide (num_digits n = [])) as [|Hne]; [by left|right].
    destruct (decide (0 <= num_exp n)) as [|Hlt]; [done|]. exfalso.
    assert (Hd : digits_val (num_digits n) = (if num_neg n then -1 else 1) * z * 10 ^ (- num_exp n)).
    { apply inject_Z_injective. rewrite !inject_Z_mult.
      assert (inject_Z (10 ^ - num_exp n) == pow10 (- num_exp n))%Q as ->.
      { rewrite <- (Z2Nat.id (- num_exp n)) by lia. by rewrite pow10_nat. }
      rewrite <- Hz. assert (E : (pow10 (num_exp n) * pow10 (- num_exp n) == 1)%Q).
      { rewrite <- pow10_add. by replace (num_exp n + - num_exp n) with 0 by lia. }
      set (p := pow10 (num_exp n)) in *. set (p' := pow10 (- num_exp n)) in *.
      set (D := inject_Z (digits_val (num_digits n))).
      destruct (num_neg n); cbn [inject_Z]; [change (inject_Z (-1)) with (-1)%Q|change (inject_Z 1) with 1%Q].
      - transitivity (D * (p * p'))%Q; [rewrite E; lra|ring].
      - transitivity (D * (p * p'))%Q; [rewrite E; lra|ring]. }
    destruct (exists_last Hne) as (ds & d & Ed). pose proof (nw_digits _ Hn) as Hdig. pose proof (nw_last _ Hn) as Hl.
    rewrite Ed in Hd, Hdig, Hl. rewrite last_snoc in Hl. apply Forall_app in Hdig as [_ [[H1 H2] _]%Forall_cons].
    rewrite digits_val_snoc in Hd. replace (- num_exp n) with (Z.succ (- num_exp n - 1)) in Hd by lia.
    rewrite Z.pow_succ_r in Hd by lia. assert (d ≠ 0) by congruence.
    set (x := (if num_neg n then -1 else 1) * z * 10 ^ (- num_exp n - 1)).
    assert (digits_val ds * 10 + d = x * 10) by (subst x; lia). lia.
Qed.

Lemma to_u32_ok n k : num_wf n → Number_to_u32 n = Some k ↔ (num_val n == inject_Z k)%Q ∧ 0 <= k < 2 ^ 32.
Proof.
  intros Hn. unfold Number_to_u32. pose proof (num_val_sign n Hn) as Vn. pose proof (num_abs_pos n Hn) as Pn.
  destruct (Z.ltb_spec (Number_sign n) 0) as [Hs|Hs].
  { destruct (Number_sign n) as [| |p]; [lia|lia|]. destruct Vn as (_ & Hne & E). specialize (Pn Hne).
    split; [done|]. intros [E' [Hk _]]. rewrite Zle_Qle in Hk. change (inject_Z 0) with 0%Q in Hk. lra. }
  case_bool_decide as E0.
  { assert (Ev : (num_val n == 0)%Q) by (rewrite num_val_exp, E0; change (inject_Z (digits_val [])) with 0%Q; lra).
    split; [intros [= <-]; split; [by rewrite Ev|lia]|]. intros [Ek _]. rewrite Ev in Ek.
    apply (inject_Z_injective 0 k) in Ek. by subst. }
  assert (Hneg : num_neg n = false).
  { unfold Number_sign in Hs. rewrite bool_decide_eq_false_2 in Hs by done. by destruct (num_neg n). }
  pose proof (num_abs_bounds n Hn E0) as Hb. pose proof (num_val_exp n) as Ev.
  assert (Ea : (num_val n == num_abs n)%Q) by (unfold num_val; rewrite Hneg; fold (num_abs n); lra).
  rewrite Hneg in Ev. destruct (Z.ltb_spec (num_exp n) 0) as [He|He]; cbn [orb].
  { split; [done|]. intros [Ek _].
    assert (Hi : Number_is_integer n = true) by (apply is_integer_ok; eauto).
    unfold Number_is_integer in Hi. rewrite bool_decide_eq_false_2 in Hi by done. apply Z.leb_le in Hi. lia. }
  destruct (Z.ltb_spec 10 (Number_top n)) as [Ht|Ht].
  { split; [done|]. intros [Ek [_ Hk]]. pose proof (pow10_le 10 (Number_top n - 1) ltac:(lia)) as Hp.
    assert (Hk' : k <= 2 ^ 32) by lia. rewrite Zle_Qle in Hk'.
    assert (Hc : (inject_Z (2 ^ 32) < pow10 10)%Q) by done. lra. }
  fold (digits_val (num_digits n)).
  assert (Ev' : (num_val n == inject_Z (digits_val (num_digits n) * 10 ^ num_exp n))%Q).
  { rewrite Ev, inject_Z_mult. rewrite <- (Z2Nat.id (num_exp n)) at 1 by done. rewrite pow10_nat, Z2Nat.id by done. lra. }
  pose proof (digits_val_bounds _ (nw_digits _ Hn)) as [Hd0 _].
  assert (0 < 10 ^ num_exp n) by (apply Z.pow_pos_nonneg; lia).
  split.
  - destruct (Z.ltb_spec (digits_val (num_digits n) * 10 ^ num_exp n) (2 ^ 32)); [|done].
    intros [= <-]. split; [done|nia].
  - intros [Ek Hk]. rewrite Ev' in Ek. apply (proj1 (inject_Z_injective _ _)) in Ek. rewrite Ek.
    by rewrite (proj2 (Z.ltb_lt _ _)) by lia.
Qed.

(** * The grammar of JSON documents, as a specification

    RFC 8259 with the bounds of the parser: which text is which document.  White
    space stands in front of every value and token; a string is the characters its
    escapes stand for; a number is its exact decimal; the names of an object are
    distinct; the nesting is counted. *)

Local Close Scope Z_scope.
Local Close Scope Q_scope.

Definition ws (w : list ascii) : Prop := forallb json_space w = true.
Definition all_digits (ds : list ascii) : Prop := forallb ascii_digit ds = true.

(** ** Strings *)

Definition utf8_of (c : N) : list ascii := ascii_of_N <$> encode_utf8 c.

(** The code point of a surrogate pair. *)
Definition pair_code (high low : N) : N := (0x10000 + N.shiftl (high - 0xD800) 10 + (low - 0xDC00))%N.

(** The inside of a string literal and the bytes it stands for. *)
Inductive chars_text : list ascii → list ascii → Prop :=
| C_nil : chars_text [] []
| C_plain c s out :
    c ≠ "034"%char → c ≠ "\"%char → (0x1F < N_of_ascii c)%N →
    chars_text s out → chars_text (c :: s) (c :: out)
| C_escape e c s out :
    simple_escape e = Some c → chars_text s out → chars_text ("\"%char :: e :: s) (c :: out)
| C_unicode hs code s out :
    length hs = 4 → hex_value hs 0 = Some code → in_range 0xD800 0xDFFF code = false →
    chars_text s out → chars_text ("\"%char :: "u"%char :: hs ++ s) (utf8_of code ++ out)
| C_pair hs1 hs2 high low s out :
    length hs1 = 4 → length hs2 = 4 → hex_value hs1 0 = Some high → hex_value hs2 0 = Some low →
    in_range 0xD800 0xDBFF high = true → in_range 0xDC00 0xDFFF low = true →
    chars_text s out →
    chars_text ("\"%char :: "u"%char :: hs1 ++ "\"%char :: "u"%char :: hs2 ++ s)
               (utf8_of (pair_code high low) ++ out).

Definition string_text (t : list ascii) (s : string) : Prop :=
  ∃ body out, t = "034"%char :: body ++ ["034"%char] ∧ chars_text body out ∧ string_from_utf8 out = Some s.

(** ** Numbers *)

Definition int_ok (int : list ascii) : Prop :=
  int ≠ [] ∧ all_digits int ∧ (head int = Some "0"%char → int = ["0"%char]).

Inductive frac_text : list ascii → list ascii → Prop :=
| F_none : frac_text [] []
| F_some frac : frac ≠ [] → all_digits frac → frac_text ("."%char :: frac) frac.

Inductive exp_text : list ascii → Z → Prop :=
| X_none : exp_text [] 0%Z
| X_some c sign ds :
    c = "e"%char ∨ c = "E"%char → sign = [] ∨ sign = ["+"%char] ∨ sign = ["-"%char] →
    ds ≠ [] → all_digits ds → (dec_val 0 ds <= MAX_EXPONENT)%Z →
    exp_text (c :: sign ++ ds)
      (if bool_decide (sign = ["-"%char]) then - dec_val 0 ds else dec_val 0 ds)%Z.

Definition minus_text (neg : bool) : list ascii := if neg then ["-"%char] else [].

Inductive number_text : list ascii → Number → Prop :=
| N_text neg int ft frac et e :
    int_ok int → frac_text ft frac → exp_text et e →
    number_text (minus_text neg ++ int ++ ft ++ et) (Number_from_parts neg int frac e).

(** ** Documents *)

(** One more member of an object. *)
Definition obj_push (o : Object) (kv : string * Json) : Object :=
  mkObject (obj_members o ++ [kv]) (<[kv.1 := length (obj_members o)]> (obj_index o)).
Definition object_of (kvs : list (string * Json)) : Object := foldl obj_push (mkObject [] ∅) kvs.

Inductive literal_text : list ascii → Json → Prop :=
| L_true : literal_text ["t"; "r"; "u"; "e"]%char (JBool true)
| L_false : literal_text ["f"; "a"; "l"; "s"; "e"]%char (JBool false)
| L_null : literal_text ["n"; "u"; "l"; "l"]%char JNull.

Inductive value_text : nat → list ascii → Json → Prop :=
| V_literal d w t v : d < MAX_DEPTH → ws w → literal_text t v → value_text d (w ++ t) v
| V_num d w t n : d < MAX_DEPTH → ws w → number_text t n → value_text d (w ++ t) (JNum n)
| V_str d w t s : d < MAX_DEPTH → ws w → string_text t s → value_text d (w ++ t) (JStr s)
| V_arr_empty d w w' : d < MAX_DEPTH → ws w → ws w' →
    value_text d (w ++ "["%char :: w' ++ ["]"%char]) (JArr [])
| V_arr d w t vs w' : d < MAX_DEPTH → ws w → elems_text (S d) t vs → ws w' →
    value_text d (w ++ "["%char :: t ++ w' ++ ["]"%char]) (JArr vs)
| V_obj_empty d w w' : d < MAX_DEPTH → ws w → ws w' →
    value_text d (w ++ "{"%char :: w' ++ ["}"%char]) (JObj (object_of []))
| V_obj d w t kvs w' : d < MAX_DEPTH → ws w → members_text (S d) t kvs → NoDup kvs.*1 → ws w' →
    value_text d (w ++ "{"%char :: t ++ w' ++ ["}"%char]) (JObj (object_of kvs))
with elems_text : nat → list ascii → list Json → Prop :=
| E_one d t v : value_text d t v → elems_text d t [v]
| E_cons d t v w ts vs : value_text d t v → ws w → elems_text d ts vs →
    elems_text d (t ++ w ++ ","%char :: ts) (v :: vs)
with members_text : nat → list ascii → list (string * Json) → Prop :=
| M_one d w kt k w' t v : ws w → string_text kt k → ws w' → value_text d t v →
    members_text d (w ++ kt ++ w' ++ ":"%char :: t) [(k, v)]
| M_cons d w kt k w' t v w2 ts kvs : ws w → string_text kt k → ws w' → value_text d t v → ws w2 →
    members_text d ts kvs →
    members_text d (w ++ kt ++ w' ++ ":"%char :: t ++ w2 ++ ","%char :: ts) ((k, v) :: kvs).

Scheme value_text_mut := Induction for value_text Sort Prop
with elems_text_mut := Induction for elems_text Sort Prop
with members_text_mut := Induction for members_text Sort Prop.
Combined Scheme json_text_mut from value_text_mut, elems_text_mut, members_text_mut.

(** A document: a value with white space around it. *)
Definition json_text (text : list ascii) (v : Json) : Prop :=
  ∃ t w, text = t ++ w ∧ value_text 0 t v ∧ ws w.
