(* ===== verification/JsonLex.v ===== *)
(** * The strings and numbers that the JSON parser reads

    [reads D pos m]: the parser [m] returns, and when it succeeds it has consumed
    a text of [D] from [pos].  For strings and numbers both directions: what is
    read is a text of the grammar, and every text of the grammar is read. *)

From S2P Require Import Prelude Bytes Text BigInt BigIntFacts Json JsonGrammar.
From Stdlib Require Import ZArith Lia Strings.Ascii.
From stdpp Require Import options.

Section Reads.
Context (bytes : list ascii).
Abbreviation L := (length bytes).

Definition reads {A} (D : list ascii → A → Prop) (pos : nat) (m : parsed A) : Prop :=
  ∃ r, m = Some r ∧ ∀ a p, r = Ok (a, p) →
    ∃ t, drop pos bytes = t ++ drop p bytes ∧ p = pos + length t ∧ D t a.

Lemma reads_fail {A} (D : list ascii → A → Prop) pos at_byte why : reads D pos (fail at_byte why).
Proof. eexists. split; [done|]. done. Qed.

Lemma reads_err {A} (D : list ascii → A → Prop) pos e : reads D pos (Some (Err e)).
Proof. eexists. split; [done|]. done. Qed.

Lemma reads_finish {A} (D : list ascii → A → Prop) pos a : D [] a → reads D pos (Some (Ok (a, pos))).
Proof. intros H. eexists. split; [done|]. intros ? ? [= <- <-]. exists []. rewrite Nat.add_0_r. by split_and!. Qed.

(** What is read behind a text that was consumed. *)
Lemma reads_after {A} (D : list ascii → A → Prop) pos s m :
  drop pos bytes = s ++ drop (pos + length s) bytes →
  reads (λ t a, D (s ++ t) a) (pos + length s) m → reads D pos m.
Proof.
  intros Hd (r & -> & H). eexists. split; [done|]. intros a p E. destruct (H a p E) as (t & H1 & -> & H2).
  exists (s ++ t). split_and!; [|rewrite length_app; lia|done]. by rewrite Hd, H1, app_assoc.
Qed.

Lemma reads_byte {A} (D : list ascii → A → Prop) pos c m :
  bytes !! pos = Some c → reads (λ t a, D (c :: t) a) (S pos) m → reads D pos m.
Proof.
  intros Hc H. apply (reads_after D pos [c]); cbn [length]; rewrite Nat.add_1_r; [by apply drop_S|done].
Qed.

Lemma reads_bind {A B} (D : list ascii → A → Prop) (E : list ascii → B → Prop) pos m
    (k : A * nat → parsed B) :
  reads D pos m →
  (∀ t a, D t a → drop pos bytes = t ++ drop (pos + length t) bytes →
    reads (λ t2 b, E (t ++ t2) b) (pos + length t) (k (a, pos + length t))) →
  reads E pos (fbind m k).
Proof.
  intros (r & -> & H) Hk. destruct r as [[a p]|e]; cbn [fbind]; [|apply reads_err].
  destruct (H a p eq_refl) as (t & H1 & -> & H2). eapply reads_after; [exact H1|]. by apply Hk.
Qed.

Lemma reads_impl {A} (D E : list ascii → A → Prop) pos m :
  (∀ t a, D t a → E t a) → reads D pos m → reads E pos m.
Proof.
  intros HDE (r & -> & H). eexists. split; [done|]. intros a p Ea. destruct (H a p Ea) as (t & ? & ? & ?). eauto.
Qed.

Lemma byte_at_true pos c : byte_at bytes pos c = true → bytes !! pos = Some c.
Proof. apply bool_decide_eq_true. Qed.

Lemma byte_at_ok pos c rest : drop pos bytes = c :: rest → byte_at bytes pos c = true.
Proof. intros H. apply bool_decide_eq_true. by eapply lookup_pos. Qed.

Lemma byte_at_head pos c : byte_at bytes pos c = bool_decide (head (drop pos bytes) = Some c).
Proof.
  unfold byte_at. destruct (drop pos bytes) as [|a rest] eqn:E.
  - by rewrite (lookup_end _ _ E).
  - by rewrite (lookup_pos _ _ _ _ E).
Qed.

Lemma digit_at_head pos : digit_at bytes pos = match head (drop pos bytes) with Some a => ascii_digit a | None => false end.
Proof.
  unfold digit_at. destruct (drop pos bytes) as [|a rest] eqn:E.
  - by rewrite (lookup_end _ _ E).
  - by rewrite (lookup_pos _ _ _ _ E).
Qed.

(** ** White space *)

Lemma skip_span pos : ∃ w, ws w ∧ drop pos bytes = w ++ drop (pos + length w) bytes ∧
  stops json_space (drop (pos + length w) bytes) ∧ json_skip bytes pos = pos + length w.
Proof. apply run_while_span. Qed.

Lemma skip_ok pos w rest : drop pos bytes = w ++ rest → ws w → stops json_space rest →
  json_skip bytes pos = pos + length w.
Proof. intros Hd Hw Hs. by apply (run_while_ok bytes _ w pos rest); [..|eapply drop_le]. Qed.

Lemma skip_skip pos : json_skip bytes (json_skip bytes pos) = json_skip bytes pos.
Proof.
  destruct (skip_span pos) as (w & Hw & Hd & Hs & ->).
  rewrite (skip_ok _ [] (drop (pos + length w) bytes)); [cbn; lia|done..].
Qed.

Lemma reads_skip {A} (D : list ascii → A → Prop) pos m :
  (∀ w, ws w → reads (λ t a, D (w ++ t) a) (json_skip bytes pos) m) → reads D pos m.
Proof.
  intros H. destruct (skip_span pos) as (w & Hw & Hd & _ & E). apply (reads_after D pos w m Hd). rewrite <- E. by apply H.
Qed.

(** ** Escapes *)

Lemma to_digit16_bound a d : to_digit16 a = Some d → (d < 16)%N.
Proof.
  unfold to_digit16, in_range. intros H.
  destruct ((48 <=? N_of_ascii a)%N && (N_of_ascii a <=? 57)%N) eqn:E1.
  { apply andb_true_iff in E1 as [?%N.leb_le ?%N.leb_le]. injection H as <-. lia. }
  destruct ((97 <=? N_of_ascii a)%N && (N_of_ascii a <=? 102)%N) eqn:E2.
  { apply andb_true_iff in E2 as [?%N.leb_le ?%N.leb_le]. injection H as <-. lia. }
  destruct ((65 <=? N_of_ascii a)%N && (N_of_ascii a <=? 70)%N) eqn:E3; [|done].
  apply andb_true_iff in E3 as [?%N.leb_le ?%N.leb_le]. injection H as <-. lia.
Qed.

Lemma hex_value_bound hs : ∀ v r, hex_value hs v = Some r → (r < (v + 1) * 16 ^ N.of_nat (length hs))%N.
Proof.
  induction hs as [|a hs IH]; intros v r H; cbn [hex_value length] in *.
  - injection H as <-. cbn. lia.
  - destruct (to_digit16 a) as [d|] eqn:Ed; [|done]. cbn in H. apply to_digit16_bound in Ed. apply IH in H.
    rewrite Nat2N.inj_succ, N.pow_succ_r'. assert ((v * 16 + d + 1 <= (v + 1) * 16)%N) by lia. nia.
Qed.

Definition hex_text (t : list ascii) (v : N) : Prop := length t = 4 ∧ hex_value t 0 = Some v.

Lemma hex4_sound pos : reads hex_text pos (hex4 bytes pos).
Proof.
  unfold hex4. destruct (decide _) as [|Hl]; [apply reads_fail|].
  destruct (hex_value _ 0) as [v|] eqn:E; [|apply reads_fail].
  assert (Hlen : length (take 4 (drop pos bytes)) = 4) by (rewrite length_take, length_drop; lia).
  assert (pos + 4 = pos + length (take 4 (drop pos bytes))) as -> by lia.
  apply (reads_after _ pos (take 4 (drop pos bytes))).
  - by rewrite Hlen, <- drop_drop, take_drop.
  - apply reads_finish. rewrite app_nil_r. by split.
Qed.

Lemma hex4_complete pos hs v rest : drop pos bytes = hs ++ rest → hex_text hs v →
  hex4 bytes pos = Some (Ok (v, pos + 4)).
Proof.
  intros Hd [Hl Hv]. unfold hex4.
  apply (f_equal length) in Hd as Hlen. rewrite length_drop, length_app in Hlen.
  rewrite decide_False by lia. rewrite Hd, <- Hl, take_app_length, Hv. done.
Qed.

(** What an escape behind its backslash stands for. *)
Inductive escape_text : list ascii → list ascii → Prop :=
| X_simple e c : simple_escape e = Some c → escape_text [e] [c]
| X_unicode hs code : hex_text hs code → in_range 0xD800 0xDFFF code = false →
    escape_text ("u"%char :: hs) (utf8_of code)
| X_pair hs1 hs2 high low : hex_text hs1 high → hex_text hs2 low →
    in_range 0xD800 0xDBFF high = true → in_range 0xDC00 0xDFFF low = true →
    escape_text ("u"%char :: hs1 ++ "\"%char :: "u"%char :: hs2) (utf8_of (pair_code high low)).

Lemma in_range_true lo hi n : in_range lo hi n = true ↔ (lo <= n <= hi)%N.
Proof. unfold in_range. by rewrite andb_true_iff, !N.leb_le. Qed.
Lemma in_range_false lo hi n : in_range lo hi n = false ↔ ¬ (lo <= n <= hi)%N.
Proof. rewrite <- in_range_true. by destruct (in_range lo hi n). Qed.

Lemma char_from_u32_some code : in_range 0xD800 0xDFFF code = false → (code <= 0x10FFFF)%N →
  char_from_u32 code = Some code.
Proof. intros H1 H2. unfold char_from_u32. rewrite H1, (proj2 (N.ltb_ge _ _)) by done. done. Qed.

Lemma pair_code_ok high low : in_range 0xD800 0xDBFF high = true → in_range 0xDC00 0xDFFF low = true →
  char_from_u32 (pair_code high low) = Some (pair_code high low).
Proof.
  intros H1%in_range_true H2%in_range_true. unfold pair_code. rewrite N.shiftl_mul_pow2.
  change (2 ^ 10)%N with 1024%N. apply char_from_u32_some; [|lia]. apply in_range_false. lia.
Qed.

(** The text and the code point behind the letter u. *)
Definition unicode_text (t : list ascii) (c : N) : Prop :=
  (hex_text t c ∧ in_range 0xD800 0xDFFF c = false) ∨
  ∃ hs1 hs2 high low, t = hs1 ++ "\"%char :: "u"%char :: hs2 ∧ hex_text hs1 high ∧ hex_text hs2 low ∧
    in_range 0xD800 0xDBFF high = true ∧ in_range 0xDC00 0xDFFF low = true ∧ c = pair_code high low.

Lemma unicode_escape_sound pos : reads unicode_text pos (unicode_escape bytes pos).
Proof.
  unfold unicode_escape. eapply reads_bind; [apply hex4_sound|]. intros hs1 first H1 Hd1. cbn [fst snd].
  destruct (in_range 0xD800 0xDBFF first) eqn:Eh.
  - case_bool_decide as Eu; [|apply reads_fail]. 
    assert (Hd2 : drop (pos + length hs1) bytes = ["\"; "u"]%char ++ drop (pos + length hs1 + 2) bytes)
      by (rewrite <- (take_drop 2 (drop (pos + length hs1) bytes)) at 1; by rewrite Eu, drop_drop).
    apply (reads_after _ _ ["\"; "u"]%char _ Hd2). cbn [length].
    pose proof (hex4_sound (pos + length hs1 + 2)) as (r & Er & Hr). rewrite Er.
    destruct r as [[second p]|e]; cbn [fbind fst snd]; [|apply reads_err].
    destruct (Hr second p eq_refl) as (hs2 & Hd3 & -> & H2). apply (reads_after _ _ hs2 _ Hd3).
    destruct (in_range 0xDC00 0xDFFF second) eqn:El; cbn [fbind fst snd]; [|apply reads_fail].
    fold (pair_code first second). rewrite pair_code_ok by done. apply reads_finish. right.
    exists hs1, hs2, first, second. rewrite app_nil_r. cbn. by split_and!.
  - cbn [fbind fst snd]. unfold char_from_u32. destruct (in_range 0xD800 0xDFFF first) eqn:Es; cbn [orb].
    + apply reads_fail.
    + destruct H1 as [Hl Hv]. pose proof (hex_value_bound hs1 0 first Hv) as Hb. rewrite Hl in Hb. cbn in Hb.
      rewrite (proj2 (N.ltb_ge _ _)) by lia. apply reads_finish. left. rewrite app_nil_r. done.
Qed.

Lemma unicode_escape_complete pos t c rest : drop pos bytes = t ++ rest → unicode_text t c →
  unicode_escape bytes pos = Some (Ok (c, pos + length t)).
Proof.
  intros Hd [[[Hl Hv] Hs]|(hs1 & hs2 & high & low & -> & H1 & H2 & Hh & Hlo & ->)]; unfold unicode_escape.
  - rewrite (hex4_complete pos t c rest) by done. cbn [fbind fst snd].
    apply in_range_false in Hs as Hs'. rewrite (proj2 (in_range_false _ _ _)) by lia. cbn [fbind fst snd].
    pose proof (hex_value_bound t 0 c Hv) as Hb. rewrite Hl in Hb. cbn in Hb.
    rewrite char_from_u32_some by (done || lia). by rewrite Hl.
  - rewrite <- app_assoc in Hd. rewrite (hex4_complete pos hs1 high _ Hd H1). cbn [fbind fst snd].
    rewrite Hh. apply drop_past in Hd as Hd2. destruct H1 as [Hl1 Hv1]. rewrite Hl1 in Hd2.
    rewrite Hd2. cbn [take app]. rewrite bool_decide_eq_true_2 by done.
    pose proof (drop_past bytes _ ["\"; "u"]%char (hs2 ++ rest) Hd2) as Hd3. cbn [length] in Hd3.
    rewrite (hex4_complete _ hs2 low rest Hd3 H2). cbn [fbind fst snd]. rewrite Hlo. cbn [fbind fst snd].
    fold (pair_code high low). rewrite pair_code_ok by done. destruct H2 as [Hl2 _].
    rewrite length_app. cbn [length]. rewrite Hl1, Hl2. do 3 f_equal. lia.
Qed.

Lemma escape_text_u t c : unicode_text t c → escape_text ("u"%char :: t) (utf8_of c).
Proof.
  intros [[H1 H2]|(hs1 & hs2 & high & low & -> & H1 & H2 & H3 & H4 & ->)]; [by apply X_unicode|by apply X_pair].
Qed.

Lemma escape_sound pos : reads escape_text pos (escape bytes pos).
Proof.
  unfold escape. destruct (bytes !! pos) as [e|] eqn:E; [|apply reads_fail].
  apply (reads_byte _ _ e _ E). case_bool_decide as Eu.
  - subst e. eapply reads_bind; [apply unicode_escape_sound|]. intros t c Ht _. cbn [fst snd].
    apply reads_finish. rewrite app_nil_r. by apply escape_text_u.
  - destruct (simple_escape e) as [c|] eqn:Ec; [|apply reads_fail]. apply reads_finish. by apply X_simple.
Qed.

Lemma escape_complete pos t out rest : drop pos bytes = t ++ rest → escape_text t out →
  escape bytes pos = Some (Ok (out, pos + length t)).
Proof.
  assert (Hu : ∀ t c, drop pos bytes = "u"%char :: t ++ rest → unicode_text t c →
    escape bytes pos = Some (Ok (utf8_of c, pos + length ("u"%char :: t)))).
  { intros t' c Hd Ht. unfold escape. rewrite (lookup_pos _ _ _ _ Hd), bool_decide_eq_true_2 by done.
    rewrite (unicode_escape_complete (S pos) t' c rest) by (done || by apply drop_next in Hd).
    cbn [fbind fst snd length]. do 3 f_equal. lia. }
  intros Hd Ht. destruct Ht as [e c Hc|hs code H1 H2|hs1 hs2 high low H1 H2 H3 H4].
  - unfold escape. rewrite (lookup_pos _ _ _ _ Hd), bool_decide_eq_false_2, Hc by (intros ->; done).
    cbn [length]. do 3 f_equal. lia.
  - apply Hu; [done|by left].
  - apply Hu; [done|]. right. exists hs1, hs2, high, low. by split_and!.
Qed.

(** ** Strings *)

Lemma chars_escape t out s o : escape_text t out → chars_text s o → chars_text ("\"%char :: t ++ s) (out ++ o).
Proof.
  intros [e c Hc|hs code [Hl Hv] Hr|hs1 hs2 high low [Hl1 Hv1] [Hl2 Hv2] Hh Hlo] Hs.
  - by apply C_escape.
  - cbn. by apply C_unicode.
  - cbn. rewrite <- app_assoc. cbn. by apply C_pair.
Qed.

Lemma string_loop_sound fuel : ∀ acc pos, L - pos < fuel →
  reads (λ t out, ∃ body o, t = body ++ ["034"%char] ∧ chars_text body o ∧ out = acc ++ o) pos
    (string_loop bytes fuel acc pos).
Proof.
  induction fuel as [|fuel IH]; intros acc pos Hf; [lia|]. cbn [string_loop].
  destruct (bytes !! pos) as [c|] eqn:E; [|apply reads_fail]. apply lookup_lt_Some in E as Hpos.
  apply (reads_byte _ _ c _ E). case_bool_decide as Eq.
  { subst c. apply reads_finish. exists [], []. split_and!; [done|apply C_nil|by rewrite app_nil_r]. }
  case_bool_decide as Eb.
  - subst c. eapply reads_bind; [apply escape_sound|]. intros t out Ht _. cbn [fst snd].
    eapply reads_impl, IH; [|lia]. intros t2 out2 (body & o & -> & Hb & ->).
    exists ("\"%char :: t ++ body), (out ++ o). split_and!; [cbn; by rewrite <- app_assoc|by apply chars_escape|by rewrite app_assoc].
  - destruct (N.leb_spec (N_of_ascii c) 0x1F) as [|Hc]; [apply reads_fail|].
    eapply reads_impl, IH; [|lia]. intros t2 out2 (body & o & -> & Hb & ->).
    exists (c :: body), (c :: o). split_and!; [done|by apply C_plain|by rewrite <- app_assoc].
Qed.

Lemma string_loop_complete body out : chars_text body out → ∀ fuel acc pos rest,
  drop pos bytes = body ++ "034"%char :: rest → length body < fuel →
  string_loop bytes fuel acc pos = Some (Ok (acc ++ out, pos + length body + 1)).
Proof.
  assert (Hesc : ∀ t out s o, escape_text t out →
    (∀ fuel acc pos rest, drop pos bytes = s ++ "034"%char :: rest → length s < fuel →
       string_loop bytes fuel acc pos = Some (Ok (acc ++ o, pos + length s + 1))) →
    ∀ fuel acc pos rest, drop pos bytes = ("\"%char :: t ++ s) ++ "034"%char :: rest → length (t ++ s) < fuel →
      string_loop bytes (S fuel) acc pos = Some (Ok (acc ++ (out ++ o), pos + length ("\"%char :: t ++ s) + 1))).
  { intros t o1 s o Ht IH fuel acc pos rest Hd Hf. cbn [string_loop]. cbn [app] in Hd. rewrite <- app_assoc in Hd.
    rewrite (lookup_pos _ _ _ _ Hd), bool_decide_eq_false_2, bool_decide_eq_true_2 by done.
    apply drop_next in Hd. rewrite (escape_complete (S pos) t o1 _ Hd Ht). cbn [fbind fst snd].
    apply drop_past in Hd. rewrite length_app in Hf. rewrite (IH _ _ _ rest Hd) by lia.
    rewrite app_assoc. cbn [length]. rewrite length_app. do 3 f_equal. lia. }
  induction 1 as [|c s out Hq Hb Hc Hs IH|e c s out He Hs IH|hs code s out Hl Hv Hr Hs IH|
                  hs1 hs2 high low s out Hl1 Hl2 Hv1 Hv2 Hh Hlo Hs IH];
    intros [|fuel] acc pos rest Hd Hf; cbn [length] in Hf; try lia.
  - cbn [string_loop]. cbn [app] in Hd. rewrite (lookup_pos _ _ _ _ Hd), bool_decide_eq_true_2 by done.
    rewrite app_nil_r. cbn [length]. do 3 f_equal. lia.
  - cbn [string_loop]. cbn [app] in Hd. rewrite (lookup_pos _ _ _ _ Hd), !bool_decide_eq_false_2 by done.
    rewrite (proj2 (N.leb_gt _ _)) by done. apply drop_next in Hd. rewrite (IH _ _ _ rest Hd) by lia.
    rewrite <- app_assoc. cbn [length app]. do 3 f_equal. lia.
  - by apply (Hesc [e] [c] s out (X_simple e c He) IH fuel acc pos rest Hd); cbn; lia.
  - apply (Hesc _ _ s out (X_unicode hs code (conj Hl Hv) Hr) IH fuel acc pos rest Hd). cbn [length app] in *. lia.
  - assert (Ea : hs1 ++ "\"%char :: "u"%char :: hs2 ++ s = (hs1 ++ "\"%char :: "u"%char :: hs2) ++ s)
      by (by rewrite <- app_assoc).
    rewrite Ea in Hd, Hf |- *.
    apply (Hesc _ _ s out (X_pair hs1 hs2 high low (conj Hl1 Hv1) (conj Hl2 Hv2) Hh Hlo) IH fuel acc pos rest Hd).
    cbn [length app] in *. lia.
Qed.

Lemma json_string_sound pos : bytes !! pos = Some "034"%char → reads string_text pos (json_string bytes pos).
Proof.
  intros E. unfold json_string. apply (reads_byte _ _ _ _ E).
  eapply reads_bind; [apply string_loop_sound; lia|]. intros t out (body & o & -> & Hb & ->) _. cbn [fst snd].
  destruct (string_from_utf8 _) as [s|] eqn:Es; [|apply reads_fail]. apply reads_finish.
  exists body, o. rewrite app_nil_r. by split_and!.
Qed.

Lemma json_string_complete pos t s rest : drop pos bytes = t ++ rest → string_text t s →
  json_string bytes pos = Some (Ok (s, pos + length t)).
Proof.
  intros Hd (body & out & -> & Hb & Hs). unfold json_string. cbn [app] in Hd. rewrite <- app_assoc in Hd.
  apply drop_next in Hd. rewrite (string_loop_complete body out Hb _ _ _ rest Hd).
  - cbn [fbind fst snd app]. rewrite Hs. cbn [length]. rewrite length_app. cbn [length]. do 3 f_equal. lia.
  - pose proof (drop_le _ _ _ _ Hd). lia.
Qed.
End Reads.

(** * The number literals that the JSON parser reads *)

Section Numerals.
Context (bytes : list ascii).
Abbreviation L := (length bytes).
Abbreviation reads := (reads bytes).

Lemma digits_span pos : ∃ ds, all_digits ds ∧ drop pos bytes = ds ++ drop (pos + length ds) bytes ∧
  stops ascii_digit (drop (pos + length ds) bytes) ∧ json_digits bytes pos = pos + length ds.
Proof. apply run_while_span. Qed.

Lemma json_digits_ok pos ds rest : drop pos bytes = ds ++ rest → all_digits ds → stops ascii_digit rest →
  json_digits bytes pos = pos + length ds.
Proof. intros Hd Hw Hs. by apply (run_while_ok bytes _ ds pos rest); [..|eapply drop_le]. Qed.

Lemma slice_ok from s rest : drop from bytes = s ++ rest → byte_slice bytes from (from + length s) = s.
Proof.
  intros Hd. unfold byte_slice. rewrite Hd. replace (from + length s - from) with (length s) by lia. apply take_app_length.
Qed.

Lemma digit_at_span pos ds : digit_at bytes pos = true → drop pos bytes = ds ++ drop (pos + length ds) bytes →
  stops ascii_digit (drop (pos + length ds) bytes) → ds ≠ [].
Proof.
  intros Hd E Hs ->. cbn in E, Hs. rewrite Nat.add_0_r in Hs. rewrite digit_at_head in Hd.
  destruct (drop pos bytes); [done|]. cbn in Hd, Hs. congruence.
Qed.

(** ** The integer part *)

Lemma integer_part_sound pos : reads (λ t _, int_ok t) pos (integer_part bytes pos).
Proof.
  unfold integer_part. destruct (byte_at bytes pos "0") eqn:E0.
  { apply (reads_byte _ _ _ "0"%char); [by apply byte_at_true|]. apply reads_finish. by split_and!. }
  destruct (digit_at bytes pos) eqn:Ed; [|apply reads_fail].
  destruct (digits_span pos) as (ds & Hds & Hd & Hs & ->). pose proof (digit_at_span pos ds Ed Hd Hs) as Hne.
  apply (reads_after _ _ _ ds _ Hd). apply reads_finish. rewrite app_nil_r. split_and!; [done|done|].
  intros Hh. exfalso. rewrite byte_at_head, Hd in E0. destruct ds as [|c ds]; [done|]. cbn in Hh, E0.
  injection Hh as ->. by rewrite bool_decide_eq_true_2 in E0.
Qed.

Lemma integer_part_complete pos int rest : drop pos bytes = int ++ rest → int_ok int → stops ascii_digit rest →
  integer_part bytes pos = Some (Ok (tt, pos + length int)).
Proof.
  intros Hd (Hne & Hds & H0) Hs. unfold integer_part. rewrite byte_at_head, digit_at_head, Hd.
  destruct int as [|c int]; [done|]. cbn [app head]. case_bool_decide as Ec.
  - injection Ec as ->. specialize (H0 eq_refl). injection H0 as ->. cbn [length]. by rewrite Nat.add_1_r.
  - unfold all_digits in Hds. cbn [forallb] in Hds. apply andb_true_iff in Hds as [Hc Hi]. rewrite Hc.
    rewrite (json_digits_ok pos (c :: int) rest) by (done || by apply andb_true_iff). done.
Qed.

(** ** The fraction *)

Definition frac_read (t : list ascii) (frac : list ascii) (r : nat * nat) : Prop :=
  frac_text t frac ∧ byte_slice bytes r.1 r.2 = frac.

Lemma fraction_part_sound pos : reads (λ t r, ∃ frac, frac_read t frac r) pos (fraction_part bytes pos).
Proof.
  unfold fraction_part. destruct (byte_at bytes pos ".") eqn:E0.
  2: { apply reads_finish. exists []. split; [apply F_none|]. unfold byte_slice. cbn [fst snd]. by rewrite Nat.sub_diag. }
  apply (reads_byte _ _ _ "."%char); [by apply byte_at_true|].
  destruct (digit_at bytes (S pos)) eqn:Ed; cbn [negb]; [|apply reads_fail].
  destruct (digits_span (S pos)) as (ds & Hds & Hd & Hs & ->). pose proof (digit_at_span _ ds Ed Hd Hs) as Hne.
  apply (reads_after _ _ _ ds _ Hd). apply reads_finish. exists ds. rewrite app_nil_r.
  split; [by apply F_some|]. cbn [fst snd]. by apply (slice_ok _ ds _ Hd).
Qed.

Lemma fraction_part_complete pos ft frac rest : drop pos bytes = ft ++ rest → frac_text ft frac →
  stops ascii_digit rest → head rest ≠ Some "."%char →
  ∃ r, fraction_part bytes pos = Some (Ok (r, pos + length ft)) ∧ byte_slice bytes r.1 r.2 = frac.
Proof.
  intros Hd Hf Hs Hdot. unfold fraction_part. rewrite byte_at_head, Hd. destruct Hf as [|frac Hne Hds].
  - cbn [app]. rewrite bool_decide_eq_false_2 by done. rewrite Nat.add_0_r. eexists. split; [done|].
    unfold byte_slice. cbn [fst snd]. by rewrite Nat.sub_diag.
  - cbn [app head]. rewrite bool_decide_eq_true_2 by done. apply drop_next in Hd.
    rewrite digit_at_head, Hd. rewrite (json_digits_ok (S pos) frac rest) by done.
    destruct frac as [|c frac]; [done|]. cbn [app head]. unfold all_digits in Hds. cbn [forallb] in Hds.
    apply andb_true_iff in Hds as [Hc _]. rewrite Hc. cbn [negb]. eexists. split.
    + do 3 f_equal. cbn [length]. lia.
    + cbn [fst snd]. by apply (slice_ok _ (c :: frac) rest).
Qed.

(** ** The exponent *)

Definition capped (e : Z) (ds : list ascii) : Z :=
  foldl (λ e a, Z.min (e * 10 + digit_of a) (MAX_EXPONENT + 1))%Z e ds.

Lemma capped_ok ds : ∀ e, (0 <= e)%Z → (capped (Z.min e (MAX_EXPONENT + 1)) ds = Z.min (dec_val e ds) (MAX_EXPONENT + 1))%Z.
Proof.
  assert (HM : (0 <= MAX_EXPONENT)%Z) by done.
  induction ds as [|a ds IH]; intros e He; [done|]. unfold capped. cbn [foldl].
  change (dec_val e (a :: ds)) with (dec_val (e * 10 + digit_of a) ds). pose proof (digit_of_bound a).
  rewrite <- IH by lia. unfold capped. f_equal. lia.
Qed.

Lemma exponent_loop_ok ds : ∀ fuel e pos rest, drop pos bytes = ds ++ rest → all_digits ds →
  stops ascii_digit rest → length ds ≤ fuel →
  exponent_loop bytes fuel e pos = Some (capped e ds, pos + length ds).
Proof.
  induction ds as [|a ds IH]; intros fuel e pos rest Hd Hds Hs Hf.
  - rewrite Nat.add_0_r. cbn [app] in Hd. destruct rest as [|b rest].
    + destruct fuel; cbn [exponent_loop]; by rewrite (lookup_end _ _ Hd).
    + cbn in Hs. destruct fuel; cbn [exponent_loop]; by rewrite (lookup_pos _ _ _ _ Hd), Hs.
  - unfold all_digits in Hds. cbn [forallb] in Hds. apply andb_true_iff in Hds as [Ha Hds].
    cbn [length] in Hf. destruct fuel as [|fuel]; [lia|]. cbn [exponent_loop app] in *.
    rewrite (lookup_pos _ _ _ _ Hd), Ha. apply drop_next in Hd. rewrite (IH fuel _ _ rest Hd) by (done || lia).
    cbn [length]. unfold capped. cbn [foldl]. do 2 f_equal. lia.
Qed.

Definition exp_value (sign ds : list ascii) : Z :=
  if bool_decide (sign = ["-"%char]) then (- dec_val 0 ds)%Z else dec_val 0 ds.

(** The exponent behind its letter and sign. *)
Lemma exponent_digits pos neg ds rest : drop pos bytes = ds ++ rest → all_digits ds → stops ascii_digit rest →
  ('(exponent, pos) ← exponent_loop bytes L 0 pos;
   if (MAX_EXPONENT <? exponent)%Z then fail pos "exponent out of range"
   else Some (Ok ((if neg : bool then - exponent else exponent)%Z, pos))) =
  (if (dec_val 0 ds <=? MAX_EXPONENT)%Z
   then Some (Ok ((if neg then - dec_val 0 ds else dec_val 0 ds)%Z, pos + length ds))
   else fail (pos + length ds) "exponent out of range").
Proof.
  intros Hd Hds Hs. rewrite (exponent_loop_ok ds L 0%Z pos rest) by (done || by eapply drop_le).
  cbn [mbind option_bind].
  rewrite (capped_ok ds 0 ltac:(done) : capped 0 ds = _).
  destruct (Z.leb_spec (dec_val 0 ds) MAX_EXPONENT).
  - rewrite Z.min_l, (proj2 (Z.ltb_ge _ _)) by lia. done.
  - rewrite Z.min_r, (proj2 (Z.ltb_lt _ _)) by lia. done.
Qed.

Lemma sign_span pos : ∃ sign, (sign = [] ∨ sign = ["+"%char] ∨ sign = ["-"%char]) ∧
  drop pos bytes = sign ++ drop (pos + length sign) bytes ∧
  byte_at bytes pos "-" = bool_decide (sign = ["-"%char]) ∧
  (if byte_at bytes pos "+" || byte_at bytes pos "-" then S pos else pos) = pos + length sign.
Proof.
  destruct (byte_at bytes pos "-") eqn:Em; [|destruct (byte_at bytes pos "+") eqn:Ep]; cbn [orb].
  - exists ["-"%char]. rewrite orb_true_r. apply byte_at_true, drop_S in Em. cbn [length]. rewrite Nat.add_1_r.
    split_and!; [auto|done|done|done].
  - exists ["+"%char]. apply byte_at_true, drop_S in Ep. cbn [length]. rewrite Nat.add_1_r. split_and!; [auto|done|done|done].
  - exists []. rewrite Nat.add_0_r. split_and!; [auto|done|done|done].
Qed.

Lemma exponent_part_sound pos : reads exp_text pos (exponent_part bytes pos).
Proof.
  unfold exponent_part. destruct (byte_at bytes pos "e" || byte_at bytes pos "E") eqn:E0.
  2: { apply reads_finish. apply X_none. }
  assert (∃ c, (c = "e"%char ∨ c = "E"%char) ∧ bytes !! pos = Some c) as (c & Hc & Hpos).
  { apply orb_true_iff in E0 as [E|E]; apply byte_at_true in E; eauto. }
  apply (reads_byte _ _ _ c _ Hpos).
  destruct (sign_span (S pos)) as (sign & Hsign & Hd1 & -> & ->).
  destruct (digit_at bytes _) eqn:Ed; cbn [negb]; [|apply reads_fail].
  apply (reads_after _ _ _ sign _ Hd1). set (p := S pos + length sign) in *.
  destruct (digits_span p) as (ds & Hds & Hd & Hs & _). pose proof (digit_at_span _ ds Ed Hd Hs) as Hne.
  rewrite (exponent_digits p _ ds _ Hd Hds Hs). destruct (Z.leb_spec (dec_val 0 ds) MAX_EXPONENT); [|apply reads_fail].
  apply (reads_after _ _ _ ds _ Hd). apply reads_finish. rewrite app_nil_r. by apply X_some.
Qed.

Lemma exponent_part_complete pos et e rest : drop pos bytes = et ++ rest → exp_text et e →
  stops ascii_digit rest → head rest ≠ Some "e"%char → head rest ≠ Some "E"%char →
  exponent_part bytes pos = Some (Ok (e, pos + length et)).
Proof.
  intros Hd He Hs H1 H2. unfold exponent_part. rewrite !byte_at_head, Hd. destruct He as [|c sign ds Hc Hsign Hne Hds Hmax].
  - cbn [app]. rewrite !bool_decide_eq_false_2 by done. cbn [orb length]. by rewrite Nat.add_0_r.
  - cbn [app head]. assert (bool_decide (Some c = Some "e"%char) || bool_decide (Some c = Some "E"%char) = true) as ->
      by (destruct Hc as [->| ->]; done).
    cbn [app] in Hd. apply drop_next in Hd. rewrite <- app_assoc in Hd. rewrite Hd.
    assert (Hh : ∃ a ds', ds = a :: ds' ∧ ascii_digit a = true).
    { destruct ds as [|a ds']; [done|]. unfold all_digits in Hds. cbn [forallb] in Hds.
      apply andb_true_iff in Hds as [Ha _]. eauto. }
    destruct Hh as (a & ds' & Eds & Ha).
    assert (Hhead : head (sign ++ ds ++ rest) = Some "+"%char → sign = ["+"%char]).
    { destruct Hsign as [->|[->| ->]]; [rewrite Eds|done|done]. cbn. intros [= ->]. done. }
    assert (Hhead' : head (sign ++ ds ++ rest) = Some "-"%char ↔ sign = ["-"%char]).
    { destruct Hsign as [->|[->| ->]]; [rewrite Eds|done|done]. cbn. split; [intros [= ->]; done|done]. }
    assert ((if bool_decide (head (sign ++ ds ++ rest) = Some "+"%char) ||
                bool_decide (head (sign ++ ds ++ rest) = Some "-"%char) then S (S pos) else S pos) = S pos + length sign) as ->.
    { destruct Hsign as [->|[->| ->]]; cbn [app head length];
        [|match goal with |- (if ?b then _ else _) = _ => assert (b = true) as -> by done end; lia..].
      rewrite Eds. cbn [app head]. rewrite !bool_decide_eq_false_2 by (intros [= ->]; done). cbn. lia. }
    rewrite (bool_decide_ext _ _ Hhead'). apply drop_past in Hd. rewrite digit_at_head, Hd, Eds. cbn [app head]. rewrite Ha. cbn [negb]. rewrite <- Eds.
    rewrite (exponent_digits _ _ ds rest Hd Hds Hs), (proj2 (Z.leb_le _ _) Hmax).
    cbn [length]. rewrite length_app. do 3 f_equal. lia.
Qed.

(** ** Numbers *)

Lemma number_sound pos : reads (λ t v, ∃ n, number_text t n ∧ v = JNum n) pos (json_number bytes pos).
Proof.
  unfold json_number. set (neg := byte_at bytes pos "-").
  assert (Hm : drop pos bytes = minus_text neg ++ drop (pos + length (minus_text neg)) bytes ∧
    (if neg then S pos else pos) = pos + length (minus_text neg)).
  { subst neg. destruct (byte_at bytes pos "-") eqn:E; cbn [minus_text length].
    - apply byte_at_true, drop_S in E. by rewrite Nat.add_1_r.
    - by rewrite Nat.add_0_r. }
  destruct Hm as [Hd0 ->]. apply (reads_after _ _ _ _ _ Hd0). set (p0 := pos + length (minus_text neg)) in *.
  eapply reads_bind; [apply integer_part_sound|]. intros int [] Hi Hd1. cbn [fst snd].
  eapply reads_bind; [apply fraction_part_sound|]. intros ft r (frac & Hf & Hslice) Hd2. cbn [fst snd].
  eapply reads_bind; [apply exponent_part_sound|]. intros et e He Hd3. cbn [fst snd].
  rewrite Hslice, (slice_ok p0 int _ Hd1). apply reads_finish. eexists. split; [|done].
  rewrite app_nil_r. by apply N_text.
Qed.

(** What can stand behind a value. *)
Definition follows (rest : list ascii) : Prop :=
  match rest with
  | [] => True
  | c :: _ => json_space c = true ∨ c = ","%char ∨ c = "]"%char ∨ c = "}"%char
  end.

Lemma space_cases c : json_space c = true → c = " "%char ∨ c = "009"%char ∨ c = "010"%char ∨ c = "013"%char.
Proof. unfold json_space. rewrite !orb_true_iff, !bool_decide_eq_true. tauto. Qed.

Lemma follows_number rest : follows rest →
  stops ascii_digit rest ∧ head rest ≠ Some "."%char ∧ head rest ≠ Some "e"%char ∧ head rest ≠ Some "E"%char.
Proof.
  destruct rest as [|c rest]; [done|]. cbn. intros H.
  assert (c = " "%char ∨ c = "009"%char ∨ c = "010"%char ∨ c = "013"%char ∨ c = ","%char ∨ c = "]"%char ∨ c = "}"%char) as Hc.
  { destruct H as [H%space_cases|H]; tauto. }
  by destruct Hc as [->|[->|[->|[->|[->|[->| ->]]]]]].
Qed.

Lemma exp_head et e : exp_text et e → et = [] ∨ head et = Some "e"%char ∨ head et = Some "E"%char.
Proof. intros []; [by left|]. right. cbn. destruct H as [->| ->]; auto. Qed.

Lemma number_complete pos t n rest : drop pos bytes = t ++ rest → number_text t n → follows rest →
  json_number bytes pos = Some (Ok (JNum n, pos + length t)).
Proof.
  intros Hd Ht Hf. destruct (follows_number rest Hf) as (Hs & Hdot & He1 & He2).
  destruct Ht as [neg int ft frac et e Hi Hft Het]. rewrite <- !app_assoc in Hd. unfold json_number.
  assert (Hneg : byte_at bytes pos "-" = neg).
  { rewrite byte_at_head, Hd. destruct neg; [done|]. cbn [minus_text app]. destruct Hi as (Hne & Hds & _).
    destruct int as [|c int]; [done|]. cbn [app head]. apply bool_decide_eq_false. intros [= ->]. done. }
  rewrite Hneg. assert ((if neg then S pos else pos) = pos + length (minus_text neg)) as ->
    by (destruct neg; cbn [minus_text length]; lia).
  apply drop_past in Hd as Hd1.
  pose proof (exp_head et e Het) as Heh.
  assert (Hs1 : stops ascii_digit (et ++ rest) ∧ head (et ++ rest) ≠ Some "."%char).
  { destruct Heh as [->|Heh]; [done|]. destruct et as [|c et]; [by destruct Heh|]. cbn in Heh |- *.
    destruct Heh as [[= ->]|[= ->]]; done. }
  assert (Hs2 : stops ascii_digit (ft ++ et ++ rest)) by (destruct Hft; [apply Hs1|done]).
  rewrite (integer_part_complete _ int _ Hd1 Hi Hs2). cbn [fbind fst snd]. apply drop_past in Hd1 as Hd2.
  destruct (fraction_part_complete _ ft frac _ Hd2 Hft (proj1 Hs1) (proj2 Hs1)) as (r & -> & Hr). cbn [fbind fst snd].
  apply drop_past in Hd2 as Hd3.
  rewrite (exponent_part_complete _ et e rest Hd3 Het Hs He1 He2). cbn [fbind fst snd].
  rewrite Hr, (slice_ok _ int _ Hd1). rewrite !length_app. do 3 f_equal. lia.
Qed.
End Numerals.
