(* ===== verification/JsonParser.v ===== *)
(** * The JSON parser accepts exactly the grammar

    Soundness: what is read is a document of the grammar.  Completeness: every
    document of the grammar is read as its value.  The parser returns on every
    text. *)

From S2P Require Import Prelude Bytes Text BigInt BigIntFacts Json JsonGrammar JsonLex.
From Stdlib Require Import ZArith Lia QArith Qcanon Strings.Ascii.
From stdpp Require Import options.
Local Close Scope Q_scope.
Local Close Scope Qc_scope.

(** ** Objects *)

Lemma object_of_snoc l kv : object_of (l ++ [kv]) = obj_push (object_of l) kv.
Proof. unfold object_of. by rewrite foldl_app. Qed.

Lemma object_of_members l : obj_members (object_of l) = l.
Proof. induction l as [|kv l IH] using rev_ind; [done|]. rewrite object_of_snoc. cbn. by rewrite IH. Qed.

Lemma object_of_index l k : is_Some (obj_index (object_of l) !! k) ↔ k ∈ l.*1.
Proof.
  induction l as [|kv l IH] using rev_ind.
  - cbn. rewrite lookup_empty. split; [by intros []|]. by intros ?%not_elem_of_nil.
  - rewrite object_of_snoc, fmap_app, elem_of_app. cbn. rewrite lookup_insert_is_Some, IH, list_elem_of_singleton.
    destruct (decide (kv.1 = k)); naive_solver.
Qed.

(** The index of an object without repeated names finds every member. *)
Lemma object_of_get l k v : NoDup l.*1 → Object_get (object_of l) k = Some v ↔ (k, v) ∈ l.
Proof.
  intros Hnd. unfold Object_get. rewrite object_of_members.
  assert (Hidx : ∀ i, obj_index (object_of l) !! k = Some i ↔ l.*1 !! i = Some k).
  { induction l as [|kv l IH] using rev_ind; intros i; [done|].
    rewrite fmap_app in Hnd |- *. apply NoDup_app in Hnd as (Hnd & Hnew & _). specialize (Hnew kv.1).
    rewrite object_of_snoc. cbn [obj_push obj_index obj_members]. rewrite object_of_members.
    destruct (decide (kv.1 = k)) as [<-|Hne].
    - rewrite lookup_insert_eq, lookup_app. split.
      + intros [= <-]. rewrite lookup_ge_None_2, length_fmap, Nat.sub_diag by (by rewrite length_fmap). done.
      + destruct (l.*1 !! i) as [x|] eqn:Ei.
        * intros [= ->]. apply list_elem_of_lookup_2 in Ei. destruct (Hnew Ei). by apply list_elem_of_here.
        * intros Hi. apply lookup_ge_None in Ei. rewrite length_fmap in *. cbn in Hi.
          destruct (i - length l) eqn:Ed; [|done]. f_equal. lia.
    - rewrite lookup_insert_ne, IH, lookup_app by done. destruct (l.*1 !! i) as [x|] eqn:Ei; [done|].
      split; [done|]. cbn. destruct (i - _); [|done]. cbn. intros [= ?]. done. }
  split.
  - destruct (obj_index _ !! k) as [i|] eqn:Ei; [|done]. cbn. intros Hv. pose proof (proj1 (Hidx i) eq_refl) as Hk.
    rewrite list_lookup_fmap in Hk. destruct (l !! i) as [[k' v']|] eqn:El; [|done]. cbn in Hv, Hk. simplify_eq.
    by eapply list_elem_of_lookup_2.
  - intros [i Hi]%list_elem_of_lookup. assert (obj_index (object_of l) !! k = Some i) as ->.
    { apply Hidx. by rewrite list_lookup_fmap, Hi. }
    cbn. by rewrite Hi.
Qed.

(** Two texts that differ in where they are cut. *)
Ltac assoc := repeat (rewrite <- !app_assoc; cbn [app]); done.

(** ** White space in front *)

Lemma ws_app w w' : ws w → ws w' → ws (w ++ w').
Proof. unfold ws. rewrite forallb_app. by intros -> ->. Qed.

Lemma value_blank d w t v : ws w → value_text d t v → value_text d (w ++ t) v.
Proof.
  intros Hw Hv. destruct Hv; rewrite app_assoc;
    [eapply V_literal|eapply V_num|eapply V_str|eapply V_arr_empty|eapply V_arr|eapply V_obj_empty|eapply V_obj];
    eauto using ws_app.
Qed.

Lemma elems_blank d w t vs : ws w → elems_text d t vs → elems_text d (w ++ t) vs.
Proof.
  intros Hw Ht. destruct Ht; [by apply E_one, value_blank|]. rewrite app_assoc. apply E_cons; [by apply value_blank|done..].
Qed.

Lemma members_blank d w t kvs : ws w → members_text d t kvs → members_text d (w ++ t) kvs.
Proof. intros Hw Ht. destruct Ht; rewrite app_assoc; [eapply M_one|eapply M_cons]; eauto using ws_app. Qed.

(** ** Soundness *)

Section Sound.
Context (bytes : list ascii).
Abbreviation L := (length bytes).
Abbreviation reads := (reads bytes).

Lemma skip_ge pos : pos ≤ json_skip bytes pos.
Proof. destruct (skip_span bytes pos) as (w & _ & _ & _ & ->). lia. Qed.

Lemma byte_at_lt pos c : byte_at bytes pos c = true → pos < L.
Proof. intros H%byte_at_true. by eapply lookup_lt_Some. Qed.

Section Levels.
Context (d : nat) (u : nat → parsed Json) (Hu : ∀ pos, reads (value_text d) pos (u pos)).

Lemma array_loop_sound fuel : ∀ items pos, L - pos < fuel →
  reads (λ t v, ∃ ts vs w, t = ts ++ w ++ ["]"%char] ∧ elems_text d ts vs ∧ ws w ∧ v = JArr (items ++ vs)) pos
    (array_loop bytes u fuel items pos).
Proof using Hu.
  induction fuel as [|fuel IH]; intros items pos Hf; [lia|]. cbn [array_loop].
  eapply reads_bind; [apply Hu|]. intros t v Hv _. cbn [fst snd]. apply reads_skip. intros w Hw.
  pose proof (skip_ge (pos + length t)) as Hge. set (p := json_skip bytes (pos + length t)) in *.
  destruct (byte_at bytes p ",") eqn:Ec.
  - pose proof (byte_at_lt _ _ Ec). apply (reads_byte _ _ _ ","%char); [by apply byte_at_true|].
    eapply reads_impl, IH; [|lia]. intros t2 a (ts & vs & w' & -> & Hts & Hw' & ->).
    exists (t ++ w ++ ","%char :: ts), (v :: vs), w'. split_and!.
    + assoc.
    + by apply E_cons.
    + done.
    + by rewrite <- app_assoc.
  - destruct (byte_at bytes p "]") eqn:Eb; [|apply reads_fail].
    apply (reads_byte _ _ _ "]"%char); [by apply byte_at_true|]. apply reads_finish.
    exists t, [v], w. split_and!; [done|by apply E_one|done|done].
Qed.

Lemma object_loop_sound fuel : ∀ l pos, NoDup l.*1 → L - pos < fuel →
  reads (λ t v, ∃ ts kvs w, t = ts ++ w ++ ["}"%char] ∧ members_text d ts kvs ∧ ws w ∧
                  NoDup (l ++ kvs).*1 ∧ v = JObj (object_of (l ++ kvs))) pos
    (object_loop bytes u fuel (object_of l) pos).
Proof using Hu.
  induction fuel as [|fuel IH]; intros l pos Hnd Hf; [lia|]. cbn [object_loop].
  apply reads_skip. intros w1 Hw1. pose proof (skip_ge pos). set (p1 := json_skip bytes pos) in *.
  destruct (byte_at bytes p1 "034") eqn:Eq; cbn [negb]; [|apply reads_fail].
  eapply reads_bind; [apply json_string_sound; by apply byte_at_true|]. intros kt k Hk _. cbn [fst snd].
  case_bool_decide as Hdup; [apply reads_fail|]. rewrite object_of_index in Hdup.
  apply reads_skip. intros w2 Hw2. pose proof (skip_ge (p1 + length kt)). set (p2 := json_skip bytes (p1 + length kt)) in *.
  destruct (byte_at bytes p2 ":") eqn:Ecol; cbn [negb]; [|apply reads_fail].
  apply (reads_byte _ _ _ ":"%char); [by apply byte_at_true|].
  eapply reads_bind; [apply Hu|]. intros t v Hv _. cbn [fst snd]. apply reads_skip. intros w3 Hw3.
  pose proof (skip_ge (S p2 + length t)). set (p3 := json_skip bytes (S p2 + length t)) in *.
  change (mkObject (obj_members (object_of l) ++ [(k, v)]) (<[k:=length (obj_members (object_of l))]> (obj_index (object_of l))))
    with (obj_push (object_of l) (k, v)). rewrite <- object_of_snoc.
  assert (Hnd' : NoDup (l ++ [(k, v)]).*1).
  { rewrite fmap_app. apply NoDup_app. split_and!; [done| |apply NoDup_singleton].
    cbn. intros x Hx ->%list_elem_of_singleton. done. }
  destruct (byte_at bytes p3 ",") eqn:Ec.
  - pose proof (byte_at_lt _ _ Ec). apply (reads_byte _ _ _ ","%char); [by apply byte_at_true|].
    eapply reads_impl, IH; [|done|lia]. intros t2 a (ts & kvs & w' & -> & Hts & Hw' & Hn & ->).
    exists (w1 ++ kt ++ w2 ++ ":"%char :: t ++ w3 ++ ","%char :: ts), ((k, v) :: kvs), w'.
    rewrite <- app_assoc in Hn. split_and!; [assoc|by apply M_cons|done|done|by rewrite <- app_assoc].
  - destruct (byte_at bytes p3 "}") eqn:Eb; [|apply reads_fail].
    apply (reads_byte _ _ _ "}"%char); [by apply byte_at_true|]. apply reads_finish.
    exists (w1 ++ kt ++ w2 ++ ":"%char :: t), [(k, v)], w3.
    split_and!; [|by apply M_one|done|done|done]. assoc.
Qed.

Lemma json_array_sound pos w : d ≠ 0 → d ≤ MAX_DEPTH → ws w → bytes !! pos = Some "["%char →
  reads (λ t v, value_text (pred d) (w ++ t) v) pos (json_array bytes u pos).
Proof using Hu.
  intros Hd Hd' Hw E. apply lookup_lt_Some in E as Hlt. unfold json_array. apply (reads_byte _ _ _ _ _ E). apply reads_skip. intros w2 Hw2.
  pose proof (skip_ge (S pos)). set (p := json_skip bytes (S pos)) in *.
  destruct (byte_at bytes p "]") eqn:Eb.
  - apply (reads_byte _ _ _ "]"%char); [by apply byte_at_true|]. apply reads_finish. apply V_arr_empty; [lia|done|done].
  - eapply reads_impl, array_loop_sound; [|lia]. intros t v (ts & vs & w' & -> & Hts & Hw' & ->). cbn [app].
    destruct d as [|d']; [done|]. cbn [pred].
    rewrite (app_assoc w2). apply V_arr; [lia|done| |done]. by apply elems_blank.
Qed.

Lemma json_object_sound pos w : d ≠ 0 → d ≤ MAX_DEPTH → ws w → bytes !! pos = Some "{"%char →
  reads (λ t v, value_text (pred d) (w ++ t) v) pos (json_object bytes u pos).
Proof using Hu.
  intros Hd Hd' Hw E. apply lookup_lt_Some in E as Hlt. unfold json_object.
  apply (reads_byte _ _ _ _ _ E). apply reads_skip. intros w2 Hw2.
  pose proof (skip_ge (S pos)). set (p := json_skip bytes (S pos)) in *. change (mkObject [] ∅) with (object_of []).
  destruct (byte_at bytes p "}") eqn:Eb.
  - apply (reads_byte _ _ _ "}"%char); [by apply byte_at_true|]. apply reads_finish. apply V_obj_empty; [lia|done|done].
  - eapply reads_impl, object_loop_sound; [|constructor|lia].
    intros t v (ts & kvs & w' & -> & Hts & Hw' & Hnd & ->). cbn [app] in *.
    destruct d as [|d']; [done|]. cbn [pred].
    rewrite (app_assoc w2). apply V_obj; [lia|done| |done|done]. by apply members_blank.
Qed.
End Levels.

Lemma json_literal_sound text v pos : pos ≤ L → literal_text text v → reads literal_text pos (literal_value bytes text v pos).
Proof.
  intros Hpos Hl. unfold literal_value, expect. rewrite decide_False by lia. case_bool_decide as E; [|apply reads_fail].
  cbn [fbind fst snd]. apply (reads_after _ _ _ text).
  - rewrite <- (take_drop (length text) (drop pos bytes)), E at 1. by rewrite drop_drop.
  - apply reads_finish. by rewrite app_nil_r.
Qed.

Lemma json_value_sound fuel : ∀ d pos, MAX_DEPTH < fuel + d → d ≤ MAX_DEPTH →
  reads (value_text d) pos (json_value bytes fuel d pos).
Proof.
  induction fuel as [|fuel IH]; intros d pos Hf Hd; [lia|]. cbn [json_value].
  destruct (decide _) as [|Hlt]; [apply reads_err|]. apply reads_skip. intros w Hw.
  set (p := json_skip bytes pos). destruct (bytes !! p) as [c|] eqn:E; [|apply reads_fail].
  assert (Hp : p ≤ L) by (apply lookup_lt_Some in E; lia).
  assert (Hlit : ∀ text v, literal_text text v →
    reads (λ t a, value_text d (w ++ t) a) p (literal_value bytes text v p)).
  { intros text v Hl. eapply reads_impl, json_literal_sound; [|done|done]. intros t a Ht. apply V_literal; [lia|done|done]. }
  case_bool_decide as Ec; [subst c; apply (json_object_sound (S d)); [intros; apply IH|..]; (done || lia)|clear Ec].
  case_bool_decide as Ec; [subst c; apply (json_array_sound (S d)); [intros; apply IH|..]; (done || lia)|clear Ec].
  case_bool_decide as Ec.
  { subst c. eapply reads_bind; [by apply json_string_sound|]. intros t s Hs _. cbn [fst snd]. apply reads_finish.
    rewrite app_nil_r. apply V_str; [lia|done|done]. }
  case_bool_decide; [apply Hlit, L_true|]. case_bool_decide; [apply Hlit, L_false|].
  case_bool_decide; [apply Hlit, L_null|]. destruct (_ || _); [|apply reads_fail].
  eapply reads_impl, number_sound. intros t a (n & Hn & ->). apply V_num; [lia|done|done].
Qed.
End Sound.

(** ** Completeness *)

Lemma space_stops w c l : ws w → json_space c = false → stops json_space (w ++ c :: l) → w = [].
Proof.
  destruct w as [|a w]; [done|]. unfold ws. cbn [forallb app stops]. intros [Ha _]%andb_true_iff _. congruence.
Qed.

Lemma follows_ws w rest : ws w → follows rest → follows (w ++ rest).
Proof.
  destruct w as [|a w]; [done|]. unfold ws. cbn [forallb app follows]. intros [Ha _]%andb_true_iff _. by left.
Qed.

(** The first token of a value, of elements and of members. *)
Definition starts (P : ascii → Prop) (t : list ascii) : Prop :=
  ∃ w c s, t = w ++ c :: s ∧ ws w ∧ json_space c = false ∧ P c.

Lemma starts_app P t l : starts P t → starts P (t ++ l).
Proof. intros (w & c & s & -> & Hw & Hc & HP). exists w, c, (s ++ l). split_and!; [assoc|done..]. Qed.

Lemma digit_not_space a : ascii_digit a = true → json_space a = false ∧ a ≠ "]"%char ∧ a ≠ "}"%char.
Proof. intros H. split; [|by split; intros ->]. destruct (json_space a) eqn:E; [|done]. apply space_cases in E. by destruct E as [->|[->|[->| ->]]]. Qed.

Lemma number_head t n : number_text t n → ∃ c s, t = c :: s ∧ (c = "-"%char ∨ ascii_digit c = true).
Proof.
  intros [neg int ft frac et e (Hne & Hds & _) _ _]. destruct neg; cbn [minus_text app]; [eauto|].
  destruct int as [|c int]; [done|]. unfold all_digits in Hds. cbn [forallb] in Hds. apply andb_true_iff in Hds as [Hc _].
  cbn [app]. eauto.
Qed.

Abbreviation not_close := (λ c : ascii, c ≠ "]"%char ∧ c ≠ "}"%char).

Lemma value_starts d t v : value_text d t v → starts not_close t.
Proof.
  intros [d' w s v' _ Hw []|d' w s n _ Hw (c & s' & -> & Hc)%number_head|d' w s str _ Hw (body & out & -> & _ & _)|
          d' w w' _ Hw _|d' w s vs w' _ Hw _ _|d' w w' _ Hw _|d' w s kvs w' _ Hw _ _ _].
  all: try (eexists w, _, _; split_and!; [reflexivity|exact Hw|reflexivity|discriminate|discriminate]).
  exists w, c, s'. split; [done|]. split; [done|].
  destruct Hc as [->|Hc]; [done|]. by apply digit_not_space.
Qed.

Lemma elems_starts d t vs : elems_text d t vs → starts not_close t.
Proof. intros []; [by eapply value_starts|apply starts_app; by eapply value_starts]. Qed.

Lemma members_starts d t kvs : members_text d t kvs → starts (λ c, c = "034"%char) t.
Proof.
  intros [d' w kt k w' s v Hw (body & out & -> & _ & _)|d' w kt k w' s v w2 ts kvs' Hw (body & out & -> & _ & _)].
  all: eexists w, _, _; split_and!; [reflexivity|exact Hw|reflexivity|reflexivity].
Qed.

Lemma elems_length d t vs : elems_text d t vs → length vs ≤ length t.
Proof.
  induction 1 as [d t v Hv|d t v w ts vs Hv Hw Hts IH].
  - destruct (value_starts d t v Hv) as (w & c & s & -> & _). rewrite length_app. cbn. lia.
  - rewrite !length_app. cbn. lia.
Qed.

Lemma members_length d t kvs : members_text d t kvs → length kvs ≤ length t.
Proof.
  induction 1 as [d w kt k w' t v Hw Hk Hw' Hv|d w kt k w' t v w2 ts kvs Hw Hk Hw' Hv Hw2 Hts IH];
    rewrite !length_app; cbn; [lia|]. rewrite !length_app. cbn. lia.
Qed.

Section Complete.
Context (bytes : list ascii).
Abbreviation L := (length bytes).

Lemma skip_token pos w c rest : drop pos bytes = w ++ c :: rest → ws w → json_space c = false →
  json_skip bytes pos = pos + length w ∧ drop (pos + length w) bytes = c :: rest ∧ bytes !! (pos + length w) = Some c.
Proof.
  intros Hd Hw Hc. apply drop_past in Hd as Hd'. split_and!; [|done|by eapply lookup_pos].
  by apply (skip_ok bytes pos w (c :: rest)).
Qed.

Lemma json_value_skip fuel d pos : json_value bytes fuel d (json_skip bytes pos) = json_value bytes fuel d pos.
Proof. destruct fuel; [done|]. cbn [json_value]. by rewrite skip_skip. Qed.

Lemma array_loop_skip u fuel items pos : (∀ pos, u (json_skip bytes pos) = u pos) →
  array_loop bytes u fuel items (json_skip bytes pos) = array_loop bytes u fuel items pos.
Proof. intros Hu. destruct fuel; [done|]. cbn [array_loop]. by rewrite Hu. Qed.

Lemma object_loop_skip u fuel o pos :
  object_loop bytes u fuel o (json_skip bytes pos) = object_loop bytes u fuel o pos.
Proof. destruct fuel; [done|]. cbn [object_loop]. by rewrite skip_skip. Qed.

Definition value_complete (d : nat) (t : list ascii) (v : Json) : Prop :=
  ∀ fuel pos rest, drop pos bytes = t ++ rest → follows rest → MAX_DEPTH < fuel + d →
    json_value bytes fuel d pos = Some (Ok (v, pos + length t)).

Definition elems_complete (d : nat) (t : list ascii) (vs : list Json) : Prop :=
  ∀ fuel pos w rest items lf, drop pos bytes = t ++ w ++ "]"%char :: rest → ws w → MAX_DEPTH < fuel + d →
    length vs ≤ lf →
    array_loop bytes (json_value bytes fuel d) lf items pos =
      Some (Ok (JArr (items ++ vs), pos + length t + length w + 1)).

Definition members_complete (d : nat) (t : list ascii) (kvs : list (string * Json)) : Prop :=
  ∀ fuel pos w rest l lf, drop pos bytes = t ++ w ++ "}"%char :: rest → ws w → MAX_DEPTH < fuel + d →
    length kvs ≤ lf → NoDup (l ++ kvs).*1 →
    object_loop bytes (json_value bytes fuel d) lf (object_of l) pos =
      Some (Ok (JObj (object_of (l ++ kvs)), pos + length t + length w + 1)).

(** The dispatch on the first byte of a value. *)
Lemma json_value_token fuel d pos w c rest : drop pos bytes = w ++ c :: rest → ws w → json_space c = false →
  d < MAX_DEPTH → let p := pos + length w in
  json_value bytes (S fuel) d pos =
    if bool_decide (c = "{"%char) then json_object bytes (json_value bytes fuel (S d)) p
    else if bool_decide (c = "["%char) then json_array bytes (json_value bytes fuel (S d)) p
    else if bool_decide (c = "034"%char) then let! s := json_string bytes p in Some (Ok (JStr s.1, s.2))
    else if bool_decide (c = "t"%char) then literal_value bytes ["t"; "r"; "u"; "e"]%char (JBool true) p
    else if bool_decide (c = "f"%char) then literal_value bytes ["f"; "a"; "l"; "s"; "e"]%char (JBool false) p
    else if bool_decide (c = "n"%char) then literal_value bytes ["n"; "u"; "l"; "l"]%char JNull p
    else if bool_decide (c = "-"%char) || ascii_digit c then json_number bytes p
    else fail p "unexpected character".
Proof.
  intros Hd Hw Hc Hlt p. cbn [json_value]. rewrite decide_False by lia.
  destruct (skip_token pos w c rest Hd Hw Hc) as (-> & _ & ->). done.
Qed.

Lemma literal_complete d w t v : d < MAX_DEPTH → ws w → literal_text t v → value_complete d (w ++ t) v.
Proof.
  intros Hd Hw Ht fuel pos rest Hdr Hf Hfuel. rewrite <- app_assoc in Hdr. destruct fuel as [|fuel]; [lia|].
  assert (H : literal_value bytes t v (pos + length w) = Some (Ok (v, pos + length (w ++ t)))).
  { apply drop_past in Hdr. unfold literal_value, expect.
    assert (pos + length w ≤ L).
    { destruct (decide (pos + length w ≤ L)) as [|Hgt]; [done|]. rewrite drop_ge in Hdr by lia. by destruct Ht. }
    rewrite decide_False by lia. rewrite Hdr, take_app_length, bool_decide_eq_true_2 by done.
    cbn [fbind fst snd]. rewrite length_app. do 3 f_equal. lia. }
  destruct Ht; cbn [app] in Hdr; rewrite (json_value_token fuel d pos w _ _ Hdr Hw eq_refl Hd); exact H.
Qed.

Lemma string_complete d w t s : d < MAX_DEPTH → ws w → string_text t s → value_complete d (w ++ t) (JStr s).
Proof.
  intros Hd Hw Ht fuel pos rest Hdr Hf Hfuel. rewrite <- app_assoc in Hdr. destruct fuel as [|fuel]; [lia|].
  apply drop_past in Hdr as Hdr'. pose proof (json_string_complete bytes _ t s rest Hdr' Ht) as H.
  destruct Ht as (body & out & -> & _). cbn [app] in Hdr.
  rewrite (json_value_token fuel d pos w _ _ Hdr Hw eq_refl Hd). cbn iota beta.
  rewrite !(bool_decide_eq_false_2 (_ = "{"%char)), (bool_decide_eq_false_2 (_ = "["%char)), bool_decide_eq_true_2, H by done.
  cbn [fbind fst snd]. rewrite length_app. do 3 f_equal. lia.
Qed.

Lemma json_num_complete d w t n : d < MAX_DEPTH → ws w → number_text t n → value_complete d (w ++ t) (JNum n).
Proof.
  intros Hd Hw Ht fuel pos rest Hdr Hf Hfuel. rewrite <- app_assoc in Hdr. destruct fuel as [|fuel]; [lia|].
  apply drop_past in Hdr as Hdr'. pose proof (number_complete bytes _ t n rest Hdr' Ht Hf) as H.
  destruct (number_head t n Ht) as (c & s & -> & Hc). cbn [app] in Hdr.
  assert (Hc' : json_space c = false ∧ (bool_decide (c = "-"%char) || ascii_digit c) = true ∧ c ≠ "{"%char ∧ c ≠ "["%char ∧ c ≠ "034"%char ∧
     c ≠ "t"%char ∧ c ≠ "f"%char ∧ c ≠ "n"%char).
  { destruct Hc as [->|Hc]; [done|]. rewrite Hc, orb_true_r. split; [by apply digit_not_space|].
    split_and!; [done|by intros ->..]. }
  destruct Hc' as (Hsp & Hnum & ? & ? & ? & ? & ? & ?).
  rewrite (json_value_token fuel d pos w c _ Hdr Hw Hsp Hd), !bool_decide_eq_false_2, Hnum by done.
  rewrite H, length_app. do 3 f_equal. lia.
Qed.

(** Behind a value, its white space and a token. *)
Lemma close_token pos t w c rest : drop pos bytes = t ++ w ++ c :: rest → ws w → json_space c = false →
  json_skip bytes (pos + length t) = pos + length t + length w ∧
  (∀ c', byte_at bytes (pos + length t + length w) c' = bool_decide (c = c')) ∧
  drop (S (pos + length t + length w)) bytes = rest.
Proof.
  intros Hd Hw Hc. apply drop_past in Hd. destruct (skip_token _ w c rest Hd Hw Hc) as (-> & Hd' & _).
  split_and!; [done| |by eapply drop_next]. intros c'. rewrite byte_at_head, Hd'. cbn [head].
  apply bool_decide_ext. split; [by intros [= ->]|by intros ->].
Qed.

Lemma elems_one d t v : value_complete d t v → elems_complete d t [v].
Proof.
  intros Hv fuel pos w rest items lf Hd Hw Hf Hlf. destruct lf as [|lf]; [cbn in Hlf; lia|]. cbn [array_loop].
  rewrite (Hv fuel pos _ Hd) by (done || (apply follows_ws; [done|cbn; auto])). cbn [fbind fst snd].
  destruct (close_token pos t w _ rest Hd Hw eq_refl) as (-> & Hb & _). rewrite !Hb.
  rewrite bool_decide_eq_false_2, bool_decide_eq_true_2 by done. do 3 f_equal. lia.
Qed.

Lemma elems_cons d t v w ts vs : value_complete d t v → ws w → elems_complete d ts vs →
  elems_complete d (t ++ w ++ ","%char :: ts) (v :: vs).
Proof.
  intros Hv Hw Hts fuel pos w' rest items lf Hd Hw' Hf Hlf. cbn [length] in Hlf. destruct lf as [|lf]; [lia|].
  cbn [array_loop]. rewrite <- !app_assoc in Hd. cbn [app] in Hd.
  rewrite (Hv fuel pos _ Hd) by (done || (apply follows_ws; [done|cbn; auto])). cbn [fbind fst snd].
  destruct (close_token pos t w _ _ Hd Hw eq_refl) as (-> & Hb & Hd'). rewrite Hb, bool_decide_eq_true_2 by done.
  rewrite (Hts fuel _ w' rest _ lf Hd' Hw' Hf) by lia. rewrite <- app_assoc. cbn [app].
  rewrite !length_app. cbn [length]. do 3 f_equal. lia.
Qed.

(** One member up to its value. *)
Lemma member_step d w kt k w' t v rest fuel pos l lf :
  ws w → string_text kt k → ws w' → value_complete d t v → k ∉ l.*1 →
  drop pos bytes = w ++ kt ++ w' ++ ":"%char :: t ++ rest → follows rest → MAX_DEPTH < fuel + d →
  object_loop bytes (json_value bytes fuel d) (S lf) (object_of l) pos =
    (let p := json_skip bytes (pos + length (w ++ kt ++ w' ++ ":"%char :: t)) in
     if byte_at bytes p "," then object_loop bytes (json_value bytes fuel d) lf (object_of (l ++ [(k, v)])) (S p)
     else if byte_at bytes p "}" then Some (Ok (JObj (object_of (l ++ [(k, v)])), S p))
     else fail p "expected ',' or '}'").
Proof.
  intros Hw Hk Hw' Hv Hnew Hd Hfol Hf. pose proof Hk as (body & out & Ekt & _).
  assert (Hkt : kt ++ w' ++ ":"%char :: t ++ rest = "034"%char :: (body ++ ["034"%char]) ++ w' ++ ":"%char :: t ++ rest)
    by (rewrite Ekt; done).
  pose proof Hd as Hd0. rewrite Hkt in Hd0. destruct (skip_token pos w _ _ Hd0 Hw eq_refl) as (Esk & Hd1 & Hc1).
  cbn [object_loop]. rewrite Esk. assert (byte_at bytes (pos + length w) "034" = true) as ->
    by (by apply bool_decide_eq_true_2). cbn [negb].
  rewrite <- Hkt in Hd1. rewrite (json_string_complete bytes _ kt k _ Hd1 Hk). cbn [fbind fst snd].
  rewrite bool_decide_eq_false_2 by (by rewrite object_of_index).
  destruct (close_token _ kt w' _ _ Hd1 Hw' eq_refl) as (-> & Hb & Hd2). rewrite Hb, bool_decide_eq_true_2 by done.
  cbn [negb]. rewrite (Hv fuel _ rest Hd2 Hfol Hf). cbn [fbind fst snd].
  change (mkObject (obj_members (object_of l) ++ [(k, v)]) (<[k:=length (obj_members (object_of l))]> (obj_index (object_of l))))
    with (obj_push (object_of l) (k, v)). rewrite <- object_of_snoc.
  replace (S (pos + length w + length kt + length w') + length t)
    with (pos + length (w ++ kt ++ w' ++ ":"%char :: t)) by (rewrite !length_app; cbn [length]; lia). done.
Qed.

Lemma nodup_new (l kvs : list (string * Json)) k v : NoDup (l ++ (k, v) :: kvs).*1 → k ∉ l.*1.
Proof.
  rewrite fmap_app. intros (_ & H & _)%NoDup_app Hk. apply (H k Hk). cbn. apply list_elem_of_here.
Qed.

Lemma members_one d w kt k w' t v : ws w → string_text kt k → ws w' → value_complete d t v →
  members_complete d (w ++ kt ++ w' ++ ":"%char :: t) [(k, v)].
Proof.
  intros Hw Hk Hw' Hv fuel pos w2 rest l lf Hd Hw2 Hf Hlf Hnd. destruct lf as [|lf]; [cbn in Hlf; lia|].
  rewrite (member_step d w kt k w' t v (w2 ++ "}"%char :: rest)); [|done..| | | |done].
  - cbv zeta. destruct (close_token pos _ w2 _ rest Hd Hw2 eq_refl) as (-> & Hb & _). rewrite !Hb.
    rewrite bool_decide_eq_false_2, bool_decide_eq_true_2 by done. do 3 f_equal. lia.
  - by eapply nodup_new.
  - rewrite Hd. assoc.
  - apply follows_ws; [done|cbn; auto].
Qed.

Lemma members_cons d w kt k w' t v w2 ts kvs : ws w → string_text kt k → ws w' → value_complete d t v → ws w2 →
  members_complete d ts kvs →
  members_complete d (w ++ kt ++ w' ++ ":"%char :: t ++ w2 ++ ","%char :: ts) ((k, v) :: kvs).
Proof.
  intros Hw Hk Hw' Hv Hw2 Hts fuel pos w3 rest l lf Hd Hw3 Hf Hlf Hnd. cbn [length] in Hlf. destruct lf as [|lf]; [lia|].
  assert (Hd' : drop pos bytes = (w ++ kt ++ w' ++ ":"%char :: t) ++ w2 ++ ","%char :: ts ++ w3 ++ "}"%char :: rest)
    by (rewrite Hd; assoc).
  rewrite (member_step d w kt k w' t v (w2 ++ ","%char :: ts ++ w3 ++ "}"%char :: rest)); [|done..| | | |done].
  - cbv zeta. destruct (close_token pos _ w2 _ _ Hd' Hw2 eq_refl) as (-> & Hb & Hd2).
    rewrite Hb, bool_decide_eq_true_2 by done.
    rewrite (Hts fuel _ w3 rest _ lf Hd2 Hw3 Hf); [|lia|by rewrite <- app_assoc].
    rewrite <- app_assoc. cbn [app]. do 3 f_equal. repeat (rewrite !length_app; cbn [length]). lia.
  - by eapply nodup_new.
  - rewrite Hd. assoc.
  - apply follows_ws; [done|cbn; auto].
Qed.

(** Behind the bracket that opens an array or an object. *)
Lemma open_bracket pos w c rest t P : drop pos bytes = w ++ c :: t ++ rest → starts P t → ∀ c', ¬ P c' →
  byte_at bytes (json_skip bytes (S (pos + length w))) c' = false.
Proof.
  intros Hd (w' & a & s & -> & Hw' & Ha & HP) c' Hc'. apply drop_past_cons in Hd. rewrite <- app_assoc in Hd. cbn [app] in Hd.
  destruct (skip_token _ w' a _ Hd Hw' Ha) as (-> & Hd' & _). rewrite byte_at_head, Hd'. cbn [head].
  apply bool_decide_eq_false. intros [= ->]. done.
Qed.

Lemma array_complete d w t vs w' : d < MAX_DEPTH → ws w → elems_text (S d) t vs → elems_complete (S d) t vs → ws w' →
  value_complete d (w ++ "["%char :: t ++ w' ++ ["]"%char]) (JArr vs).
Proof.
  intros Hd Hw Ht Hc Hw' fuel pos rest Hdr Hf Hfuel. destruct fuel as [|fuel]; [lia|].
  assert (Hdr' : drop pos bytes = w ++ "["%char :: t ++ w' ++ "]"%char :: rest) by (rewrite Hdr; assoc).
  rewrite (json_value_token fuel d pos w _ _ Hdr' Hw eq_refl Hd). cbv zeta.
  rewrite bool_decide_eq_false_2, bool_decide_eq_true_2 by done. unfold json_array.
  rewrite (open_bracket pos w _ (w' ++ "]"%char :: rest) t _ Hdr' (elems_starts _ _ _ Ht)) by (intros [? _]; done).
  rewrite array_loop_skip by apply json_value_skip. apply drop_past_cons in Hdr' as Hd2.
  pose proof (elems_length _ _ _ Ht). pose proof (drop_le _ _ _ _ Hd2).
  rewrite (Hc fuel _ w' rest [] L Hd2 Hw') by lia. cbn [app].
  do 3 f_equal. repeat (rewrite !length_app; cbn [length]). lia.
Qed.

Lemma object_complete d w t kvs w' : d < MAX_DEPTH → ws w → members_text (S d) t kvs → members_complete (S d) t kvs →
  NoDup kvs.*1 → ws w' → value_complete d (w ++ "{"%char :: t ++ w' ++ ["}"%char]) (JObj (object_of kvs)).
Proof.
  intros Hd Hw Ht Hc Hnd Hw' fuel pos rest Hdr Hf Hfuel. destruct fuel as [|fuel]; [lia|].
  assert (Hdr' : drop pos bytes = w ++ "{"%char :: t ++ w' ++ "}"%char :: rest) by (rewrite Hdr; assoc).
  rewrite (json_value_token fuel d pos w _ _ Hdr' Hw eq_refl Hd). cbv zeta.
  rewrite bool_decide_eq_true_2 by done. unfold json_object.
  rewrite (open_bracket pos w _ (w' ++ "}"%char :: rest) t _ Hdr' (members_starts _ _ _ Ht)) by done.
  rewrite object_loop_skip. apply drop_past_cons in Hdr' as Hd2.
  pose proof (members_length _ _ _ Ht). pose proof (drop_le _ _ _ _ Hd2). change (mkObject [] ∅) with (object_of []).
  rewrite (Hc fuel _ w' rest [] L Hd2 Hw') by (done || lia). cbn [app].
  do 3 f_equal. repeat (rewrite !length_app; cbn [length]). lia.
Qed.

(** An empty array or object. *)
Lemma empty_bracket pos w c w' c' rest : drop pos bytes = w ++ c :: w' ++ c' :: rest → ws w' → json_space c' = false →
  json_skip bytes (S (pos + length w)) = S (pos + length w) + length w' ∧
  byte_at bytes (S (pos + length w) + length w') c' = true.
Proof.
  intros Hd Hw' Hc'. apply drop_past_cons in Hd. destruct (skip_token _ w' c' _ Hd Hw' Hc') as (-> & Hd' & _).
  split; [done|]. by eapply byte_at_ok.
Qed.

Lemma text_complete_json :
  (∀ d t v, value_text d t v → value_complete d t v) ∧
  (∀ d t vs, elems_text d t vs → elems_complete d t vs) ∧
  (∀ d t kvs, members_text d t kvs → members_complete d t kvs).
Proof.
  apply json_text_mut; intros; eauto using literal_complete, string_complete, json_num_complete, array_complete, object_complete,
    elems_one, elems_cons, members_one, members_cons.
  - intros fuel pos rest Hdr Hf Hfuel. destruct fuel as [|fuel]; [lia|].
    assert (Hdr' : drop pos bytes = w ++ "["%char :: w' ++ "]"%char :: rest) by (rewrite Hdr; assoc).
    rewrite (json_value_token fuel d pos w _ _ Hdr' w0 eq_refl l). cbv zeta.
    rewrite bool_decide_eq_false_2, bool_decide_eq_true_2 by done. unfold json_array.
    destruct (empty_bracket pos w _ w' _ rest Hdr' w1 eq_refl) as [-> ->].
    do 3 f_equal. repeat (rewrite !length_app; cbn [length]). lia.
  - intros fuel pos rest Hdr Hf Hfuel. destruct fuel as [|fuel]; [lia|].
    assert (Hdr' : drop pos bytes = w ++ "{"%char :: w' ++ "}"%char :: rest) by (rewrite Hdr; assoc).
    rewrite (json_value_token fuel d pos w _ _ Hdr' w0 eq_refl l). cbv zeta.
    rewrite bool_decide_eq_true_2 by done. unfold json_object.
    destruct (empty_bracket pos w _ w' _ rest Hdr' w1 eq_refl) as [-> ->].
    do 3 f_equal. repeat (rewrite !length_app; cbn [length]). lia.
Qed.
End Complete.

(** ** The parser *)

Lemma parse_json_ok text : ∃ r, parse_json text = Some r ∧
  ∀ v, r = Ok v ↔ json_text (String.list_ascii_of_string text) v.
Proof.
  unfold parse_json. set (bytes := String.list_ascii_of_string text).
  destruct (json_value_sound bytes DEPTH_FUEL 0 0) as (r & Er & Hr); [unfold DEPTH_FUEL; lia|lia|].
  assert (Hcomp : ∀ v, json_text bytes v → ∃ p, r = Ok (v, p) ∧ json_skip bytes p = length bytes).
  { intros v (t & w & Ht & Hv & Hw). destruct (text_complete_json bytes) as (Hc & _).
    assert (Hd : drop 0 bytes = t ++ w) by (by rewrite drop_0).
    rewrite (Hc 0 t v Hv DEPTH_FUEL 0 w Hd) in Er; [|rewrite <- (app_nil_r w); by apply follows_ws|unfold DEPTH_FUEL; lia].
    injection Er as <-. eexists. split; [done|]. apply drop_past in Hd.
    rewrite (skip_ok bytes _ w []) by (done || by rewrite app_nil_r). rewrite Ht, length_app. lia. }
  rewrite Er. destruct r as [[v p]|e]; cbn [fbind fst snd].
  2: { eexists. split; [done|]. intros v. split; [done|]. intros (p & ? & _)%Hcomp. done. }
  destruct (Hr v p eq_refl) as (t & Hd & -> & Hv). rewrite drop_0, Nat.add_0_l in *.
  destruct (skip_span bytes (length t)) as (w & Hw & Hd2 & _ & Es).
  destruct (Nat.eqb_spec (json_skip bytes (length t)) (length bytes)) as [E|Hne]; cbn [negb].
  - eexists. split; [done|]. intros v'. split.
    + intros [= <-]. exists t, w. split_and!; [|done|done]. rewrite Hd at 1. f_equal.
      rewrite Hd2 at 1. rewrite drop_ge by lia. by rewrite app_nil_r.
    + intros (p & [= ->] & _)%Hcomp. done.
  - eexists. split; [done|]. intros v'. split; [done|]. intros (p & [= -> <-] & E)%Hcomp. done.
Qed.

(** * The values that JSON documents denote

    A document denotes a value of [jval]: numbers are rationals, objects are maps.
    On well-formed documents, which are the ones the parser returns, [json_eq]
    decides equality of what they denote. *)


Inductive jval :=
| DNull
| DBool (b : bool)
| DNum (q : Qc)
| DStr (s : string)
| DArr (l : list jval)
| DObj (m : gmap string jval).

Fixpoint denote_json (v : Json) : jval :=
  match v with
  | JNull => DNull
  | JBool b => DBool b
  | JNum n => DNum (Q2Qc (num_val n))
  | JStr s => DStr s
  | JArr l => DArr (denote_json <$> l)
  | JObj o => DObj (list_to_map ((λ kv, (kv.1, denote_json kv.2)) <$> obj_members o))
  end.

(** Numbers are normalized and objects have distinct names that their index
    finds. *)
Fixpoint json_wf (v : Json) : Prop :=
  match v with
  | JNull | JBool _ | JStr _ => True
  | JNum n => num_wf n
  | JArr l => foldr (λ x P, json_wf x ∧ P) True l
  | JObj o => o = object_of (obj_members o) ∧ NoDup (obj_members o).*1 ∧
              foldr (λ kv P, json_wf kv.2 ∧ P) True (obj_members o)
  end.

(** Induction with the elements of arrays and the members of objects. *)
Lemma Json_rect_nested (P : Json → Prop) :
  P JNull → (∀ b, P (JBool b)) → (∀ n, P (JNum n)) → (∀ s, P (JStr s)) →
  (∀ l, Forall P l → P (JArr l)) → (∀ o, Forall (λ kv, P kv.2) (obj_members o) → P (JObj o)) →
  ∀ v, P v.
Proof.
  intros Hnull Hbool Hnum Hstr Harr Hobj. fix IH 1. intros [|b|n|s|l|o]; [done|done|done|done| |].
  - apply Harr. induction l as [|x l IHl]; constructor; [apply IH|exact IHl].
  - apply Hobj. destruct o as [ms ix]. cbn [obj_members]. induction ms as [|[k x] ms IHl]; constructor; [apply IH|exact IHl].
Qed.

Lemma foldr_and_Forall {A} (P : A → Prop) l : foldr (λ x Q, P x ∧ Q) True l ↔ Forall P l.
Proof. induction l as [|x l IH]; cbn; [split; [constructor|done]|]. by rewrite IH, Forall_cons. Qed.

Lemma json_wf_arr l : json_wf (JArr l) ↔ Forall json_wf l.
Proof. cbn. apply foldr_and_Forall. Qed.

Lemma json_wf_obj o : json_wf (JObj o) ↔
  o = object_of (obj_members o) ∧ NoDup (obj_members o).*1 ∧ Forall (λ kv, json_wf kv.2) (obj_members o).
Proof. cbn. by rewrite (foldr_and_Forall (λ kv : string * Json, json_wf kv.2)). Qed.

(** What the parser returns is well formed. *)
Lemma text_wf :
  (∀ d t v, value_text d t v → json_wf v) ∧
  (∀ d t vs, elems_text d t vs → Forall json_wf vs) ∧
  (∀ d t kvs, members_text d t kvs → Forall (λ kv, json_wf kv.2) kvs).
Proof.
  apply json_text_mut.
  - intros d w t v _ _ []; done.
  - intros d w t n _ _ [neg int ft frac et e _ _ _]. apply from_parts_ok.
  - done.
  - done.
  - intros d w t vs w' _ _ _ H _. by apply json_wf_arr.
  - intros. apply json_wf_obj. split_and!; [done|constructor|constructor].
  - intros d w t kvs w' _ _ _ H Hnd _. apply json_wf_obj. rewrite object_of_members. done.
  - intros d t v _ H. by constructor.
  - intros d t v w ts vs _ H _ _ Hs. by constructor.
  - intros d w kt k w' t v _ _ _ _ H. by constructor.
  - intros d w kt k w' t v w2 ts kvs _ _ _ _ H _ _ Hs. by constructor.
Qed.

Lemma json_text_wf text v : json_text text v → json_wf v.
Proof. intros (t & w & _ & H & _). by eapply text_wf. Qed.

(** ** Objects *)

Definition denote_member (kv : string * Json) : string * jval := (kv.1, denote_json kv.2).

Lemma denote_obj o : denote_json (JObj o) = DObj (list_to_map (denote_member <$> obj_members o)).
Proof. done. Qed.

Lemma denote_member_fst l : (denote_member <$> l).*1 = l.*1.
Proof. rewrite <- list_fmap_compose. by apply list_fmap_ext. Qed.

(** Looking a name up. *)
Lemma object_get_denote o k : json_wf (JObj o) →
  (list_to_map (denote_member <$> obj_members o) : gmap string jval) !! k = denote_json <$> Object_get o k.
Proof.
  intros (Eo & Hnd & _)%json_wf_obj. apply option_eq. intros j.
  rewrite <- elem_of_list_to_map by (by rewrite denote_member_fst). rewrite list_elem_of_fmap. split.
  - intros ([k' v] & [= -> ->] & Hin). cbn. rewrite Eo.
    by rewrite (proj2 (object_of_get (obj_members o) k' v Hnd) Hin).
  - intros Hj. destruct (Object_get o k) as [v|] eqn:E; [|done]. cbn in Hj. injection Hj as <-.
    exists (k, v). split; [done|]. rewrite Eo in E. by apply object_of_get in E.
Qed.

Lemma object_keys_denote o k :
  is_Some ((list_to_map (denote_member <$> obj_members o) : gmap string jval) !! k) ↔ k ∈ (obj_members o).*1.
Proof.
  rewrite <- not_eq_None_Some, <- not_elem_of_list_to_map, denote_member_fst. split; [apply dec_stable|auto].
Qed.

Lemma object_size o : NoDup (obj_members o).*1 →
  size (list_to_map (denote_member <$> obj_members o) : gmap string jval) = length (obj_members o).
Proof.
  intros Hnd. rewrite map_size_list_to_map by (by rewrite denote_member_fst). by rewrite length_fmap.
Qed.

(** ** Equality *)

Lemma all2_ok {A B C} (f : A → B → bool) (g : A → C) (h : B → C) x : ∀ y, length x = length y →
  Forall (λ a, ∀ b, b ∈ y → f a b = true ↔ g a = h b) x → all2 f x y = true ↔ g <$> x = h <$> y.
Proof.
  induction x as [|a x IH]; intros [|b y] Hl Hf; try done. cbn [all2 fmap list_fmap].
  apply Forall_cons in Hf as [Ha Hf]. injection Hl as Hl. rewrite andb_true_iff, (Ha b) by apply list_elem_of_here.
  rewrite IH; [|done|].
  - split; [by intros [-> ->]|by intros [= -> ->]].
  - eapply Forall_impl; [exact Hf|]. intros a' H b' Hb'. apply H. by right.
Qed.

Lemma json_eq_ok a : ∀ b, json_wf a → json_wf b → json_eq a b = true ↔ denote_json a = denote_json b.
Proof.
  induction a as [|x|x|x|x IH|x IH] using Json_rect_nested; intros [|y|y|y|y|y] Ha Hb; cbn [json_eq]; try done.
  - rewrite eqb_true_iff. cbn. split; [by intros ->|by intros [= ->]].
  - cbn in Ha, Hb. rewrite bool_decide_eq_true, compare_ok, <- Qeq_alt by done. cbn. split.
    + intros H. f_equal. apply Qc_is_canon. change (Qred (num_val x) == Qred (num_val y))%Q.
      by rewrite (Qred_complete _ _ H).
    + intros [= H]. by rewrite <- (Qred_correct (num_val x)), H, Qred_correct.
  - rewrite bool_decide_eq_true. cbn. split; [by intros ->|by intros [= ->]].
  - apply json_wf_arr in Ha. apply json_wf_arr in Hb. rewrite andb_true_iff, Nat.eqb_eq. cbn [denote_json]. split.
    + intros [Hl H]. f_equal. apply (all2_ok json_eq denote_json denote_json x y Hl) in H; [done|].
      apply Forall_forall. intros a Hin b Hinb. rewrite Forall_forall in IH, Ha, Hb. apply IH; auto.
    + intros [= H]. assert (Hl : length x = length y) by (apply (f_equal length) in H; by rewrite !length_fmap in H).
      split; [done|]. apply (all2_ok json_eq denote_json denote_json x y Hl); [|done].
      apply Forall_forall. intros a Hin b Hinb. rewrite Forall_forall in IH, Ha, Hb. apply IH; auto.
  - rewrite !denote_obj, andb_true_iff, Nat.eqb_eq, forallb_forall.
    pose proof Ha as (_ & Hnx & Hfx)%json_wf_obj. pose proof Hb as (Ey & Hny & Hfy)%json_wf_obj.
    rewrite Forall_forall in IH, Hfx, Hfy. pose proof (object_size x Hnx) as Hsx. pose proof (object_size y Hny) as Hsy.
    assert (Hval : ∀ k v, Object_get y k = Some v → json_wf v).
    { intros k v Hg. rewrite Ey in Hg. apply object_of_get in Hg; [|done]. by apply Hfy in Hg. }
    assert (Hlk : ∀ k v, (k, v) ∈ obj_members x →
      (list_to_map (denote_member <$> obj_members x) : gmap string jval) !! k = Some (denote_json v)).
    { intros k v Hin. apply elem_of_list_to_map_1; [by rewrite denote_member_fst|].
      apply list_elem_of_fmap. by exists (k, v). }
    set (mx := list_to_map (denote_member <$> obj_members x) : gmap string jval) in *.
    set (my := list_to_map (denote_member <$> obj_members y) : gmap string jval) in *.
    assert (Hmy : ∀ k, my !! k = denote_json <$> Object_get y k) by (intros k; by apply object_get_denote).
    split.
    + intros [Hl H]. apply (f_equal DObj), map_subseteq_size_eq; [|lia]. apply map_subseteq_spec. intros k j Hj.
      apply elem_of_list_to_map_2, list_elem_of_fmap in Hj as ([k' v] & [= -> ->] & Hin).
      specialize (H (k', v) ltac:(by apply list_elem_of_In)). cbn in H. rewrite Hmy. cbn.
      destruct (Object_get y k') as [v2|] eqn:Eg; [|done]. cbn. f_equal. symmetry.
      apply (IH (k', v) Hin v2); [by apply (Hfx (k', v))|by eapply Hval|done].
    + intros [= E]. split; [by rewrite <- Hsx, <- Hsy, E|]. intros [k v] Hin%list_elem_of_In. cbn.
      specialize (Hlk k v Hin). rewrite E, Hmy in Hlk. destruct (Object_get y k) as [v2|] eqn:Eg; [|done].
      cbn in Hlk. injection Hlk as Hlk. apply (IH (k, v) Hin v2); [by apply (Hfx (k, v))|by eapply Hval|done].
Qed.
