(* ===== verification/JsonFacts.v ===== *)
(** * The schema verifier decides conformance

    What it means for a value to conform to a schema, in terms of what documents
    denote; validation reports violations exactly where a value does not conform;
    and the verdicts of the verifier. *)

From S2P Require Import Prelude Bytes Text Types Verifier VerifierClaims VerifierFacts BigInt.
From S2P Require Import BigIntFacts Json JsonSchema JsonGrammar JsonLex JsonParser.
From Stdlib Require Import ZArith Lia QArith Qcanon Lqa Strings.Ascii.
From stdpp Require Import options.

Local Close Scope Q_scope.
Local Close Scope Qc_scope.

(** ** Conformance *)

Definition has_type (t : JsonType) (j : jval) : Prop :=
  match t, j with
  | TNull, DNull | TBoolean, DBool _ | TString, DStr _ | TArray, DArr _ | TObject, DObj _ | TNumber, DNum _ => True
  | TInteger, DNum q => ∃ z, (q == inject_Z z)%Q
  | _, _ => False
  end.

Fixpoint conforms (s : Schema) (j : jval) {struct s} : Prop :=
  (∀ t, sc_ty s = Some t → has_type t j) ∧
  (∀ members, sc_members s = Some members → ∃ m, m ∈ members ∧ denote_json m = j) ∧
  match j with
  | DNum q =>
      (∀ n, sc_minimum s = Some n → (num_val n <= q)%Q) ∧ (∀ n, sc_maximum s = Some n → (q <= num_val n)%Q)
  | DStr text =>
      (∀ n, sc_min_length s = Some n → (n <= char_count text)%Z) ∧
      (∀ n, sc_max_length s = Some n → (char_count text <= n)%Z)
  | DArr l =>
      match sc_items s with
      | Some sub => ∀ x, x ∈ l → conforms sub x
      | None => True
      end
  | DObj m =>
      (∀ name, name ∈ sc_required s → is_Some (m !! name)) ∧
      foldr (λ p P, (∀ x, m !! p.1 = Some x → conforms p.2 x) ∧ P) True (sc_properties s) ∧
      (sc_forbid_extra s = true → ∀ name, is_Some (m !! name) → name ∈ (sc_properties s).*1)
  | DNull | DBool _ => True
  end.

(** The index of the properties, the documents and the numbers of a schema are
    well formed. *)
Definition schema_node_wf (s : Schema) : Prop :=
  (∀ k, is_Some (sc_property_index s !! k) ↔ k ∈ (sc_properties s).*1) ∧
  (∀ members, sc_members s = Some members → Forall json_wf members) ∧
  (∀ n, sc_minimum s = Some n → num_wf n) ∧ (∀ n, sc_maximum s = Some n → num_wf n).

Fixpoint schema_wf (s : Schema) : Prop :=
  schema_node_wf s ∧
  foldr (λ p P, schema_wf p.2 ∧ P) True (sc_properties s) ∧
  match sc_items s with
  | Some sub => schema_wf sub
  | None => True
  end.

Lemma schema_wf_iff s : schema_wf s ↔
  schema_node_wf s ∧ Forall (λ p, schema_wf p.2) (sc_properties s) ∧ (∀ sub, sc_items s = Some sub → schema_wf sub).
Proof.
  rewrite <- (foldr_and_Forall (λ p : string * Schema, schema_wf p.2)). destruct s; cbn.
  assert ((∀ sub, sc_items = Some sub → schema_wf sub) ↔ match sc_items with Some sub => schema_wf sub | None => True end) as ->;
    [|done]. destruct sc_items; naive_solver.
Qed.

(** Induction with the properties and the items. *)
Lemma Schema_rect_nested (P : Schema → Prop) :
  (∀ s, Forall (λ p, P p.2) (sc_properties s) → (∀ sub, sc_items s = Some sub → P sub) → P s) → ∀ s, P s.
Proof.
  intros H. fix IH 1. intros s. apply H.
  - destruct s as [t r props i f m mn mx ml xl it]. cbn [sc_properties].
    induction props as [|[k x] props IHl]; constructor; [apply IH|exact IHl].
  - destruct s as [t r props i f m mn mx ml xl it]. cbn [sc_items]. intros sub E. destruct it as [it|]; [|discriminate E].
    injection E as <-. apply IH.
Qed.

(** ** Violations *)

Definition violation_of : Type := string * string * string.
Definition push_violation (out : Collector) (v : violation_of) : Collector :=
  Collector_push v.1.1 v.1.2 v.2 out.

(** [f] pushes the violations [l]. *)
Definition emits (l : list violation_of) (f : Collector → Collector) : Prop :=
  ∀ out, f out = foldl push_violation out l.

(** [f] reports a violation unless [P] holds. *)
Definition enforces (P : Prop) (f : Collector → Collector) : Prop := ∃ l, emits l f ∧ (l = [] ↔ P).

Lemma push_truncated out l : co_truncated out = true → foldl push_violation out l = out.
Proof.
  induction l as [|v l IH]; [done|]. intros H. cbn [foldl]. unfold push_violation at 2, Collector_push. by rewrite H, IH.
Qed.

Lemma enforces_id : enforces True id.
Proof. exists []. split; [done|]. done. Qed.

Lemma enforces_iff P Q f : (P ↔ Q) → enforces P f → enforces Q f.
Proof. intros H (l & Hl & E). exists l. by rewrite <- H. Qed.

Lemma enforces_comp P Q f g : enforces P f → enforces Q g → enforces (P ∧ Q) (λ out, g (f out)).
Proof.
  intros (l & Hl & El) (k & Hk & Ek). exists (l ++ k). split.
  - intros out. by rewrite Hk, Hl, foldl_app.
  - rewrite <- El, <- Ek. apply app_nil.
Qed.

Lemma enforces_push_if (b : bool) P code pointer why : (b = false ↔ P) →
  enforces P (Collector_push_if b code pointer why).
Proof.
  intros H. exists (if b then [(code, pointer, why)] else []). split; [by destruct b|].
  rewrite <- H. by destruct b.
Qed.

Lemma enforces_option {A} (o : option A) (P : A → Prop) (f : A → Collector → Collector) :
  (∀ a, o = Some a → enforces (P a) (f a)) →
  enforces (∀ a, o = Some a → P a) (λ out, match o with Some a => f a out | None => out end).
Proof.
  intros H. destruct o as [a|].
  - eapply enforces_iff, (H a eq_refl). split; [by intros ? ? [= <-]|auto].
  - eapply enforces_iff, enforces_id. done.
Qed.

Lemma enforces_for {A} (P : A → Prop) (body : A → Collector → Collector) l :
  (∀ a, a ∈ l → enforces (P a) (body a)) → enforces (∀ a, a ∈ l → P a) (for_untruncated body l).
Proof.
  induction l as [|a l IH]; intros H.
  - exists []. split; [done|]. split; [by intros _ a ?%not_elem_of_nil|done].
  - destruct (H a (list_elem_of_here _ _)) as (e & He & Ee). destruct IH as (k & Hk & Ek); [intros; apply H; by right|].
    exists (e ++ k). split.
    + intros out. cbn [for_untruncated]. fold (for_untruncated body). destruct (co_truncated out) eqn:E.
      * by rewrite push_truncated.
      * by rewrite Hk, He, foldl_app.
    + rewrite app_nil, Ee, Ek. setoid_rewrite elem_of_cons. naive_solver.
Qed.

Lemma enforces_items (P : Json → Prop) (body : Json → string → Collector → Collector) pointer l : ∀ i,
  (∀ x p, x ∈ l → enforces (P x) (body x p)) → enforces (∀ x, x ∈ l → P x) (for_items body pointer i l).
Proof.
  induction l as [|a l IH]; intros i H.
  - exists []. split; [done|]. split; [by intros _ a ?%not_elem_of_nil|done].
  - destruct (H a (child pointer (to_string (N.of_nat i))) (list_elem_of_here _ _)) as (e & He & Ee).
    destruct (IH (S i)) as (k & Hk & Ek); [intros; apply H; by right|].
    exists (e ++ k). split.
    + intros out. cbn [for_items]. fold (for_items body pointer). destruct (co_truncated out) eqn:E.
      * by rewrite push_truncated.
      * by rewrite Hk, He, foldl_app.
    + rewrite app_nil, Ee, Ek. setoid_rewrite elem_of_cons. naive_solver.
Qed.

(** ** Each check *)

Lemma admits_ok t v : json_wf v → JsonType_admits t v = true ↔ has_type t (denote_json v).
Proof.
  intros Hv. destruct t, v; try done. cbn in Hv |- *. rewrite (is_integer_ok n Hv). setoid_rewrite (Qred_correct (num_val n)). done.
Qed.

Section Checks.
Context (debug : string → string).

Lemma check_type_ok s v pointer : json_wf v →
  enforces (∀ t, sc_ty s = Some t → has_type t (denote_json v)) (check_type s v pointer).
Proof.
  intros Hv. apply (enforces_option (sc_ty s) (λ t, has_type t (denote_json v))). intros t _.
  apply enforces_push_if. by rewrite negb_false_iff, admits_ok.
Qed.

Lemma check_enum_ok s v pointer : json_wf v → schema_node_wf s →
  enforces (∀ members, sc_members s = Some members → ∃ m, m ∈ members ∧ denote_json m = denote_json v)
    (check_enum s v pointer).
Proof.
  intros Hv (_ & Hm & _). apply (enforces_option (sc_members s) (λ members, ∃ m, m ∈ members ∧ denote_json m = denote_json v)).
  intros members E. specialize (Hm members E). rewrite Forall_forall in Hm.
  apply enforces_push_if. rewrite negb_false_iff, existsb_exists. setoid_rewrite <- list_elem_of_In.
  split; intros (m & Hin & He); exists m; (split; [done|]); apply json_eq_ok in He || apply json_eq_ok; auto.
Qed.

Lemma check_range_ok s n pointer : num_wf n → schema_node_wf s →
  enforces ((∀ m, sc_minimum s = Some m → (num_val m <= Q2Qc (num_val n))%Q) ∧
            (∀ m, sc_maximum s = Some m → (Q2Qc (num_val n) <= num_val m)%Q)) (check_range s n pointer).
Proof.
  intros Hn (_ & _ & Hmin & Hmax).
  assert (E : (Q2Qc (num_val n) == num_val n)%Q) by apply Qred_correct.
  apply (enforces_comp _ _ (λ out, match sc_minimum s with
    | Some min => Collector_push_if (bool_decide (Number_compare n min = Lt)) "json.range" pointer "value is below minimum" out
    | None => out end) (λ out, match sc_maximum s with
    | Some max => Collector_push_if (bool_decide (Number_compare n max = Gt)) "json.range" pointer "value is above maximum" out
    | None => out end)).
  - apply (enforces_option (sc_minimum s) (λ m, (num_val m <= Q2Qc (num_val n))%Q)). intros m Em.
    apply enforces_push_if. rewrite bool_decide_eq_false, compare_ok, <- Qlt_alt by auto. rewrite E. split; [apply Qnot_lt_le|apply Qle_not_lt].
  - apply (enforces_option (sc_maximum s) (λ m, (Q2Qc (num_val n) <= num_val m)%Q)). intros m Em.
    apply enforces_push_if. rewrite bool_decide_eq_false, compare_ok, <- Qgt_alt by auto. rewrite E. split; [apply Qnot_lt_le|apply Qle_not_lt].
Qed.

Lemma check_length_ok s text pointer :
  enforces ((∀ n, sc_min_length s = Some n → (n <= char_count text)%Z) ∧
            (∀ n, sc_max_length s = Some n → (char_count text <= n)%Z)) (check_length s text pointer).
Proof.
  apply (enforces_comp _ _ (λ out, match sc_min_length s with
    | Some min => Collector_push_if (char_count text <? min)%Z "json.length" pointer "string is shorter than minLength" out
    | None => out end) (λ out, match sc_max_length s with
    | Some max => Collector_push_if (max <? char_count text)%Z "json.length" pointer "string is longer than maxLength" out
    | None => out end)).
  - apply (enforces_option (sc_min_length s) (λ n, (n <= char_count text)%Z)). intros n _. apply enforces_push_if. apply Z.ltb_ge.
  - apply (enforces_option (sc_max_length s) (λ n, (char_count text <= n)%Z)). intros n _. apply enforces_push_if. apply Z.ltb_ge.
Qed.

Lemma check_required_ok o pointer names : json_wf (JObj o) →
  enforces (∀ name, name ∈ names → is_Some ((list_to_map (denote_member <$> obj_members o) : gmap string jval) !! name))
    (for_untruncated (check_required debug (JObj o) pointer) names).
Proof.
  intros Ho. apply (enforces_for (λ name, is_Some ((list_to_map (denote_member <$> obj_members o) : gmap string jval) !! name))).
  intros name _. apply enforces_push_if. rewrite object_get_denote, bool_decide_eq_false, fmap_is_Some by done.
  apply not_eq_None_Some.
Qed.

Lemma check_extra_ok s pointer o : schema_node_wf s →
  enforces (∀ name, name ∈ (obj_members o).*1 → name ∈ (sc_properties s).*1)
    (for_untruncated (check_extra s pointer) (obj_members o)).
Proof.
  intros (Hi & _). eapply enforces_iff, (enforces_for (λ kv, kv.1 ∈ (sc_properties s).*1)).
  - setoid_rewrite list_elem_of_fmap. split; [|by eauto]. intros H name (kv & -> & Hin). by apply H.
  - intros kv _. apply enforces_push_if. rewrite bool_decide_eq_false, <- Hi. apply not_eq_None_Some.
Qed.

Lemma validate_unfold s v pointer out :
  validate debug s v pointer out =
    if co_truncated out then out
    else
      let out := check_type s v pointer out in
      let out := check_enum s v pointer out in
      match v with
      | JNum n => check_range s n pointer out
      | JStr text => check_length s text pointer out
      | JArr items =>
          match sc_items s with
          | Some item_schema => for_items (validate debug item_schema) pointer 0 items out
          | None => out
          end
      | JObj object =>
          let out := for_untruncated (check_required debug v pointer) (sc_required s) out in
          let out :=
            for_untruncated (λ property out,
              match Json_get v (fst property) with
              | Some present => validate debug (snd property) present (child pointer (fst property)) out
              | None => out
              end) (sc_properties s) out in
          if sc_forbid_extra s then for_untruncated (check_extra s pointer) (obj_members object) out
          else out
      | JNull | JBool _ => out
      end.
Proof. by destruct s. Qed.

Lemma conforms_unfold s j : conforms s j ↔
  (∀ t, sc_ty s = Some t → has_type t j) ∧
  (∀ members, sc_members s = Some members → ∃ m, m ∈ members ∧ denote_json m = j) ∧
  match j with
  | DNum q =>
      (∀ n, sc_minimum s = Some n → (num_val n <= q)%Q) ∧ (∀ n, sc_maximum s = Some n → (q <= num_val n)%Q)
  | DStr text =>
      (∀ n, sc_min_length s = Some n → (n <= char_count text)%Z) ∧
      (∀ n, sc_max_length s = Some n → (char_count text <= n)%Z)
  | DArr l => ∀ sub, sc_items s = Some sub → ∀ x, x ∈ l → conforms sub x
  | DObj m =>
      (∀ name, name ∈ sc_required s → is_Some (m !! name)) ∧
      (∀ p, p ∈ sc_properties s → ∀ x, m !! p.1 = Some x → conforms p.2 x) ∧
      (sc_forbid_extra s = true → ∀ name, is_Some (m !! name) → name ∈ (sc_properties s).*1)
  | DNull | DBool _ => True
  end.
Proof.
  destruct s as [t r props i f ms mn mx ml xl it]. cbn [conforms sc_ty sc_members sc_minimum sc_maximum sc_min_length
    sc_max_length sc_items sc_required sc_properties sc_forbid_extra].
  do 2 (apply and_iff_compat_l). destruct j as [|b|q|str|l|m]; [done..| |].
  - destruct it as [sub|]; [|naive_solver]. split; [by intros ? ? [= <-]|auto].
  - rewrite (foldr_and_Forall (λ p : string * Schema, ∀ x, m !! p.1 = Some x → conforms p.2 x)), Forall_forall. done.
Qed.

Lemma enforces_guard P f : enforces P f → enforces P (λ out, if co_truncated out then out else f out).
Proof.
  intros (l & Hl & E). exists l. split; [|done]. intros out. destruct (co_truncated out) eqn:Et; [by rewrite push_truncated|done].
Qed.

Lemma enforces_ext P f g : (∀ out, f out = g out) → enforces P f → enforces P g.
Proof. intros H (l & Hl & E). exists l. split; [|done]. intros out. by rewrite <- H. Qed.

(** The checks of an object, given those of its properties. *)
Lemma object_checks_ok s o pointer : schema_node_wf s → json_wf (JObj o) →
  (∀ p x pointer, p ∈ sc_properties s → json_wf x →
    enforces (conforms p.2 (denote_json x)) (validate debug p.2 x pointer)) →
  let m := list_to_map (denote_member <$> obj_members o) : gmap string jval in
  enforces ((∀ name, name ∈ sc_required s → is_Some (m !! name)) ∧
            (∀ p, p ∈ sc_properties s → ∀ x, m !! p.1 = Some x → conforms p.2 x) ∧
            (sc_forbid_extra s = true → ∀ name, is_Some (m !! name) → name ∈ (sc_properties s).*1))
    (λ out,
      let out := for_untruncated (check_required debug (JObj o) pointer) (sc_required s) out in
      let out :=
        for_untruncated (λ property out,
          match Json_get (JObj o) (fst property) with
          | Some present => validate debug (snd property) present (child pointer (fst property)) out
          | None => out
          end) (sc_properties s) out in
      if sc_forbid_extra s then for_untruncated (check_extra s pointer) (obj_members o) out else out).
Proof.
  intros Hn Hv Hsub m. pose proof Hv as (Eo & Hnd & Hwf)%json_wf_obj. rewrite Forall_forall in Hwf.
  set (f := for_untruncated (check_required debug (JObj o) pointer) (sc_required s)).
  set (body := λ (property : string * Schema) out,
          match Json_get (JObj o) (fst property) with
          | Some present => validate debug (snd property) present (child pointer (fst property)) out
          | None => out
          end).
  set (g := for_untruncated body (sc_properties s)).
  set (h := λ out, if sc_forbid_extra s then for_untruncated (check_extra s pointer) (obj_members o) out else out).
  apply (enforces_comp _ _ f (λ out, h (g out))); [by apply check_required_ok|]. apply (enforces_comp _ _ g h).
  - apply (enforces_for (λ p, ∀ x, m !! p.1 = Some x → conforms p.2 x)). intros p Hp. unfold body. cbn [Json_get].
    pose proof (object_get_denote o p.1 Hv) as Hg. fold m in Hg. rewrite Hg.
    destruct (Object_get o p.1) as [x|] eqn:Ex; [|eapply enforces_iff, enforces_id; done].
    eapply enforces_iff, (Hsub p x _ Hp).
    + cbn. split; [by intros H ? [= <-]|auto].
    + rewrite Eo in Ex. apply object_of_get in Ex; [|done]. by apply Hwf in Ex.
  - unfold h. destruct (sc_forbid_extra s); [|eapply enforces_iff, enforces_id; done].
    eapply enforces_iff, check_extra_ok, Hn. subst m. setoid_rewrite object_keys_denote. naive_solver.
Qed.

(** Validation reports a violation exactly when the value does not conform. *)
Lemma validate_ok s : schema_wf s → ∀ v pointer, json_wf v →
  enforces (conforms s (denote_json v)) (validate debug s v pointer).
Proof.
  induction s as [s IHp IHi] using Schema_rect_nested. intros (Hn & Hps & Hit)%schema_wf_iff v pointer Hv.
  eapply enforces_ext; [intros out; symmetry; apply validate_unfold|]. apply enforces_guard.
  eapply enforces_iff; [symmetry; apply conforms_unfold|].
  eapply enforces_iff; [symmetry; apply and_assoc|].
  apply (enforces_comp _ _ (λ out, check_enum s v pointer (check_type s v pointer out)) (λ out, match v with
      | JNum n => check_range s n pointer out
      | JStr text => check_length s text pointer out
      | JArr items =>
          match sc_items s with
          | Some item_schema => for_items (validate debug item_schema) pointer 0 items out
          | None => out
          end
      | JObj object =>
          let out := for_untruncated (check_required debug v pointer) (sc_required s) out in
          let out :=
            for_untruncated (λ property out,
              match Json_get v (fst property) with
              | Some present => validate debug (snd property) present (child pointer (fst property)) out
              | None => out
              end) (sc_properties s) out in
          if sc_forbid_extra s then for_untruncated (check_extra s pointer) (obj_members object) out
          else out
      | JNull | JBool _ => out
      end)); [apply enforces_comp; [by apply check_type_ok|by apply check_enum_ok]|].
  destruct v as [|b|n|text|items|o]; [apply enforces_id|apply enforces_id|by apply check_range_ok|apply check_length_ok| |].
  - cbn [denote_json]. apply json_wf_arr in Hv. rewrite Forall_forall in Hv.
    apply (enforces_option (sc_items s) (λ sub, ∀ x, x ∈ denote_json <$> items → conforms sub x)). intros sub Esub.
    eapply enforces_iff, (enforces_items (λ x, conforms sub (denote_json x))).
    + setoid_rewrite list_elem_of_fmap. split; [by intros H ? (x & -> & Hx); apply H|]. intros H x Hx. apply H. eauto.
    + intros x p Hx. apply IHi; auto.
  - rewrite denote_obj. apply (object_checks_ok s o pointer Hn Hv).
    rewrite Forall_forall in IHp, Hps. intros p x pointer' Hp Hx. apply IHp; auto.
Qed.
End Checks.

(** ** Compiled schemas are well formed *)

Lemma schema_default_wf : schema_wf Schema_default.
Proof.
  apply schema_wf_iff. split_and!; [|constructor|done]. split_and!; [|done..]. intros k. cbn.
  rewrite lookup_empty. split; [by intros []|by intros ?%not_elem_of_nil].
Qed.

(** An assignment to a field that well-formedness does not look at. *)
Lemma schema_wf_same s s' :
  sc_properties s' = sc_properties s → sc_property_index s' = sc_property_index s → sc_members s' = sc_members s →
  sc_minimum s' = sc_minimum s → sc_maximum s' = sc_maximum s → sc_items s' = sc_items s →
  schema_wf s → schema_wf s'.
Proof. rewrite !schema_wf_iff. unfold schema_node_wf. by intros -> -> -> -> -> ->. Qed.

Lemma push_property_wf name sub s : schema_wf sub → schema_wf s → schema_wf (push_property name sub s).
Proof.
  intros Hsub ((Hi & Hm & Hmin & Hmax) & Hps & Hit)%schema_wf_iff. apply schema_wf_iff.
  destruct s as [t r props i f ms mn mx ml xl it]. cbn in *. split_and!; [|apply Forall_app; split; [done|by repeat constructor]|done]. split_and!; [|done..].
  intros k. cbn. rewrite lookup_insert_is_Some, Hi, fmap_app, elem_of_app. cbn. rewrite list_elem_of_singleton.
  destruct (decide (name = k)); naive_solver.
Qed.

Lemma set_members_wf l s : Forall json_wf l → schema_wf s → schema_wf (set_members l s).
Proof.
  rewrite !schema_wf_iff. intros Hl ((Hi & Hm & Hmin & Hmax) & Hps & Hit). destruct s. cbn in *. split_and!; [|done..].
  split_and!; [done| |done..]. by intros ? [= <-].
Qed.

Lemma set_bounds_wf n s : num_wf n → schema_wf s → schema_wf (set_minimum n s) ∧ schema_wf (set_maximum n s).
Proof.
  rewrite !schema_wf_iff. intros Hn ((Hi & Hm & Hmin & Hmax) & Hps & Hit). destruct s. cbn in *.
  split; (split_and!; [|done..]); (split_and!; [done|done|..]); cbn; (done || by intros ? [= <-]).
Qed.

Lemma set_items_wf sub s : schema_wf sub → schema_wf s → schema_wf (set_items sub s).
Proof.
  intros Hsub ((Hi & Hm & Hmin & Hmax) & Hps & Hit)%schema_wf_iff. apply schema_wf_iff. destruct s. cbn in *.
  split_and!; [done|done|]. by intros ? [= <-].
Qed.

Lemma compile_required_wf names : ∀ s s', schema_wf s → compile_required names s = Ok s' → schema_wf s'.
Proof.
  induction names as [|name names IH]; intros s s' Hs H; cbn in H; [by injection H as <-|].
  destruct name; try done. eapply IH, H. by eapply schema_wf_same, Hs; destruct s.
Qed.

Section Compiled.
Context (debug : string → string).

(** What [compile] returns for [v] is well formed. *)
Definition compiles_wf (comp : Json → result string Schema) (v : Json) : Prop :=
  ∀ s, comp v = Ok s → schema_wf s.

Lemma compile_properties_wf comp members : Forall (λ kv, compiles_wf comp kv.2) members → ∀ s s', schema_wf s →
  compile_properties comp members s = Ok s' → schema_wf s'.
Proof.
  induction 1 as [|[name v] members Hv _ IH]; intros s s' Hs H; cbn in H; [by injection H as <-|].
  destruct (comp v) as [sub|] eqn:E; [|done]. cbn in H. eapply IH, H. apply push_property_wf; [by apply Hv|done].
Qed.

Lemma compile_keyword_wf comp keyword v s s' : json_wf v → compiles_wf comp v →
  (∀ o, v = JObj o → Forall (λ kv, compiles_wf comp kv.2) (obj_members o)) → schema_wf s →
  compile_keyword debug comp keyword v s = Ok s' → schema_wf s'.
Proof.
  intros Hv Hc Ho Hs. assert (Hsame : ∀ f : Schema → Schema, sc_properties (f s) = sc_properties s →
    sc_property_index (f s) = sc_property_index s → sc_members (f s) = sc_members s → sc_minimum (f s) = sc_minimum s →
    sc_maximum (f s) = sc_maximum s → sc_items (f s) = sc_items s → schema_wf (f s)) by (intros; by eapply schema_wf_same).
  unfold compile_keyword, unsupported. intros H.
  repeat match type of H with (if decide ?P then _ else _) = _ => destruct (decide P) end; try (by simplify_eq).
  - destruct v; try done. destruct (JsonType_parse _); [|done]. injection H as <-. apply Hsame; by destruct s.
  - destruct v; try done. by eapply compile_required_wf.
  - destruct v as [| | | | |o]; try done. by eapply compile_properties_wf, H; [apply Ho|].
  - destruct v; try done. injection H as <-. apply Hsame; by destruct s.
  - destruct v as [| | | |l|]; try done. destruct (_ && _); [|done]. injection H as <-. apply set_members_wf; [by apply json_wf_arr|done].
  - destruct v; try done. injection H as <-. by apply set_bounds_wf.
  - destruct v; try done. injection H as <-. by apply set_bounds_wf.
  - destruct (length_keyword v); [|done]. injection H as <-. apply Hsame; by destruct s.
  - destruct (length_keyword v); [|done]. injection H as <-. apply Hsame; by destruct s.
  - destruct v; try done. destruct (comp _) as [sub|] eqn:E; [|done]. injection H as <-. apply set_items_wf; [by apply Hc|done].
Qed.

Lemma compile_keywords_wf comp members : Forall (λ kv, json_wf kv.2) members →
  Forall (λ kv, compiles_wf comp kv.2) members →
  Forall (λ kv, ∀ o, kv.2 = JObj o → Forall (λ kv, compiles_wf comp kv.2) (obj_members o)) members →
  ∀ s s', schema_wf s → compile_keywords debug comp members s = Ok s' → schema_wf s'.
Proof.
  intros Hw Hc Ho. induction members as [|[k v] members IH]; intros s s' Hs H; cbn in H; [by injection H as <-|].
  apply Forall_cons in Hw as [Hw1 Hw2]. apply Forall_cons in Hc as [Hc1 Hc2]. apply Forall_cons in Ho as [Ho1 Ho2].
  destruct (compile_keyword debug comp k v s) as [s1|] eqn:E; [|done]. cbn in H.
  eapply IH, H; [done..|]. by eapply compile_keyword_wf, E.
Qed.

Lemma compile_wf v : json_wf v →
  (∀ d, compiles_wf (λ v, compile debug v d) v) ∧
  (∀ o, v = JObj o → ∀ d, Forall (λ kv, compiles_wf (λ v, compile debug v d) kv.2) (obj_members o)).
Proof.
  induction v as [|b|n|s|l _|o IH] using Json_rect_nested; intros Hv.
  1-5: (split; [|done]; intros d s'; cbn; by case_decide).
  apply json_wf_obj in Hv as (_ & _ & Hw). rewrite Forall_forall in IH, Hw. split.
  - intros d s' H. cbn [compile] in H. destruct (decide _); [done|].
    eapply compile_keywords_wf, H; [by apply Forall_forall|..|apply schema_default_wf]; apply Forall_forall; intros kv Hkv.
    + by apply (IH kv Hkv (Hw kv Hkv)).
    + intros o' E. by apply (IH kv Hkv (Hw kv Hkv)).
  - intros o' [= <-] d. apply Forall_forall. intros kv Hkv. by apply (IH kv Hkv (Hw kv Hkv)).
Qed.
End Compiled.

(** ** The collected findings *)

Definition finding_of (v : violation_of) : Finding := finding v.1.1 (shown v.1.2 +:+ ": " +:+ v.2).

Lemma collect_ok l : ∀ findings, length findings ≤ MAX_FINDINGS →
  foldl push_violation (mkCollector findings false) l =
    mkCollector (findings ++ (finding_of <$> take (MAX_FINDINGS - length findings) l))
                (bool_decide (MAX_FINDINGS < length findings + length l)).
Proof.
  induction l as [|v l IH]; intros findings Hlen.
  - rewrite take_nil, app_nil_r, bool_decide_eq_false_2 by (cbn; lia). done.
  - cbn [foldl]. unfold push_violation at 2, Collector_push, Collector_full. cbn [co_truncated co_findings].
    destruct (Nat.leb_spec MAX_FINDINGS (length findings)) as [Hge|Hlt].
    + rewrite push_truncated by done. rewrite bool_decide_eq_true_2 by (cbn; lia).
      replace (MAX_FINDINGS - length findings) with 0 by lia. by rewrite app_nil_r.
    + rewrite IH by (rewrite length_app; cbn; lia). rewrite length_app. cbn [length].
      replace (MAX_FINDINGS - length findings) with (S (MAX_FINDINGS - (length findings + 1))) by lia.
      cbn [take fmap list_fmap]. rewrite <- app_assoc. f_equal. apply bool_decide_ext. lia.
Qed.

(** Validation of a document from an empty collector. *)
Lemma validate_collects debug s v : schema_wf s → json_wf v → ∃ violations,
  validate debug s v "" (mkCollector [] false) =
    mkCollector (finding_of <$> take MAX_FINDINGS violations) (bool_decide (MAX_FINDINGS < length violations)) ∧
  (violations = [] ↔ conforms s (denote_json v)).
Proof.
  intros Hs Hv. destruct (validate_ok debug s Hs v "" Hv) as (l & Hl & E). exists l. split; [|done].
  rewrite Hl, collect_ok by (cbn; lia). cbn [app length]. by rewrite Nat.sub_0_r.
Qed.

(** ** The verdict *)

Abbreviation text_of := String.list_ascii_of_string.

(** The schema that a schema text stands for. *)
Definition schema_is (debug : string → string) (text : string) (s : Schema) : Prop :=
  (slen text <= MAX_SCHEMA_BYTES)%N ∧ ∃ v, json_text (text_of text) v ∧ compile debug v 0 = Ok s.

Lemma verifier_new_ok debug text : ∃ r, JsonSchemaVerifier_new debug text = Some {| jv_schema := r |} ∧
  ∀ s, r = Ok s ↔ schema_is debug text s.
Proof.
  unfold JsonSchemaVerifier_new, schema_is. destruct (N.ltb_spec MAX_SCHEMA_BYTES (slen text)) as [Hlong|Hlen].
  { eexists. split; [done|]. intros s. split; [done|]. intros [? _]. lia. }
  destruct (parse_json_ok text) as (r & -> & Hr). cbn [mbind option_bind]. eexists. split; [done|]. intros s. split.
  - intros H. split; [done|]. destruct r as [v|[|at_byte why]]; [|done..]. exists v. split; [by apply Hr|done].
  - intros (_ & v & Hv%Hr & Hc). by subst r.
Qed.

Lemma verify_ok debug schema candidate : (∀ s, schema = Ok s → schema_wf s) →
  ∃ r, JsonSchemaVerifier_verify debug {| jv_schema := schema |} candidate = Some r ∧ score_ok r ∧
    length (vr_findings r) ≤ S MAX_FINDINGS ∧
    match schema with
    | Err _ => vr_status r = StatusUnknown
    | Ok s =>
        (vr_status r = StatusPass ∨ vr_status r = StatusFail) ∧
        (vr_status r = StatusPass ↔ (slen candidate <= JSON_CANDIDATE_BYTES)%N ∧
           ∃ v, json_text (text_of candidate) v ∧ conforms s (denote_json v))
    end.
Proof.
  intros Hwf.
  assert (Hone : ∀ st f (P : Prop), ((st = StatusPass ∨ st = StatusFail) ∧ (st = StatusPass ↔ P)) →
    ∃ r, status_report st [f] = Some r ∧ score_ok r ∧ length (vr_findings r) ≤ S MAX_FINDINGS ∧
      ((vr_status r = StatusPass ∨ vr_status r = StatusFail) ∧ (vr_status r = StatusPass ↔ P))).
  { intros st f P HP. destruct (status_report_ok st [f]) as (sc & Hsc & ->). eexists. split; [done|].
    split; [done|]. split; [cbn; lia|done]. }
  unfold JsonSchemaVerifier_verify. cbn [jv_schema]. destruct schema as [s|why].
  2: { destruct (status_report_ok StatusUnknown [finding "json.schema" why]) as (sc & Hsc & ->).
       eexists. split; [done|]. split; [done|]. split; [cbn; lia|done]. }
  specialize (Hwf s eq_refl). destruct (N.ltb_spec JSON_CANDIDATE_BYTES (slen candidate)) as [Hlong|Hlen].
  { apply Hone. split; [auto|]. split; [done|]. intros [? _]. lia. }
  destruct (parse_json_ok candidate) as (r & -> & Hr). cbn [mbind option_bind].
  destruct r as [v|e].
  2: { assert (Hno : StatusFail = StatusPass ↔ (slen candidate <= JSON_CANDIDATE_BYTES)%N ∧
         ∃ v, json_text (text_of candidate) v ∧ conforms s (denote_json v)).
       { split; [done|]. intros (_ & v & Hv%Hr & _). done. }
       destruct e; apply Hone; auto. }
  assert (Hv : json_text (text_of candidate) v) by (by apply Hr).
  destruct (validate_collects debug s v Hwf (json_text_wf _ _ Hv)) as (l & -> & Hl). cbn [co_truncated co_findings].
  set (fs := if bool_decide (MAX_FINDINGS < length l) then _ else _).
  assert (Hfs : length fs ≤ S MAX_FINDINGS ∧ (fs = [] ↔ l = [])).
  { subst fs. case_bool_decide as Hlt; rewrite ?length_app, length_fmap, length_take; cbn [length].
    - split; [lia|]. split; [by intros []%app_nil|]. intros ->. cbn in Hlt. lia.
    - split; [lia|]. by destruct l. }
  destruct Hfs as [Hlen2 Hnil]. destruct (status_report_ok (match fs with [] => StatusPass | _ => StatusFail end) fs) as (sc & Hsc & ->).
  eexists. split; [done|]. split; [done|]. split; [done|]. cbn [vr_status].
  assert (Hst : (match fs with [] => StatusPass | _ => StatusFail end) = StatusPass ↔ conforms s (denote_json v)).
  { rewrite <- Hl, <- Hnil. by destruct fs. }
  split; [destruct fs; auto|]. rewrite Hst. split.
  - intros Hc. split; [done|]. eauto.
  - intros (_ & v' & Hv' & Hc). assert (Ok v = Ok v') as [= ->] by (by apply Hr). done.
Qed.

(** ** Theorems *)

(** C24: the parser accepts exactly the JSON documents within its bounds.  On
    every text it returns, without a panic; it succeeds exactly on the texts of
    the grammar (RFC 8259 with distinct names, nested at most 32 deep, exponents
    within 100000), with the document they spell, of which there is one. *)
Theorem json_parser_exact text : ∃ r, parse_json text = Some r ∧
  (∀ v, r = Ok v ↔ json_text (text_of text) v) ∧
  (∀ v v', json_text (text_of text) v → json_text (text_of text) v' → v = v').
Proof.
  destruct (parse_json_ok text) as (r & Er & Hr). exists r. split; [done|]. split; [done|].
  intros v v' H1%Hr H2%Hr. congruence.
Qed.

(** The numbers of documents are exact.  The literal with the digits [int],
    the fraction [frac] and the exponent [e] is kept as its exact decimal value;
    two kept numbers compare as their values do, whatever their size; the test for
    integers and the conversion to [u32] are exact. *)
Theorem json_numbers_exact neg int frac e neg' int' frac' e' :
  let n := Number_from_parts neg int frac e in
  let m := Number_from_parts neg' int' frac' e' in
  (num_val n == (if neg then -1 else 1) * (inject_Z (dec_val 0 (int ++ frac)) * 10 ^ (e - Z.of_nat (length frac))))%Q ∧
  Number_compare n m = (num_val n ?= num_val m)%Q ∧
  (Number_is_integer n = true ↔ ∃ z, (num_val n == inject_Z z)%Q) ∧
  (∀ k, Number_to_u32 n = Some k ↔ (num_val n == inject_Z k)%Q ∧ (0 <= k < 2 ^ 32)%Z).
Proof.
  destruct (from_parts_ok neg int frac e) as [Hn Vn]. destruct (from_parts_ok neg' int' frac' e') as [Hm Vm].
  split_and!; [exact Vn|by apply compare_ok|by apply is_integer_ok|intros k; by apply to_u32_ok].
Qed.

(** C23: the schema verifier decides conformance to the compiled schema.  For every
    schema text and candidate it answers, with a score in [0, 1] and at most 33 findings.  It
    passes exactly when the schema text stands for a schema and the candidate,
    within its bound, for a document whose value conforms to it; it answers
    [Unknown] exactly when the schema text stands for no schema of the pinned
    subset, and fails otherwise. *)
Theorem json_verdict debug schema candidate : ∃ v r,
  JsonSchemaVerifier_new debug schema = Some v ∧ JsonSchemaVerifier_verify debug v candidate = Some r ∧
  score_ok r ∧ length (vr_findings r) ≤ S MAX_FINDINGS ∧
  (vr_status r = StatusPass ↔ ∃ s doc, schema_is debug schema s ∧ (slen candidate <= JSON_CANDIDATE_BYTES)%N ∧
     json_text (text_of candidate) doc ∧ conforms s (denote_json doc)) ∧
  (vr_status r = StatusUnknown ↔ ¬ ∃ s, schema_is debug schema s) ∧
  vr_status r ≠ StatusDisputed.
Proof.
  destruct (verifier_new_ok debug schema) as (rs & Enew & Hrs).
  assert (Hwf : ∀ s, rs = Ok s → schema_wf s).
  { intros s (_ & v & Hv & Hc)%Hrs. by apply (compile_wf debug v (json_text_wf _ _ Hv)) in Hc. }
  destruct (verify_ok debug rs candidate Hwf) as (r & Er & Hsc & Hlen & H).
  exists {| jv_schema := rs |}, r. do 4 (split; [done|]). destruct rs as [s|why].
  - destruct H as [H1 H2]. split; [|split].
    + rewrite H2. split.
      * intros (Hl & doc & Hd & Hc). exists s, doc. split; [by apply Hrs|done].
      * intros (s' & doc & [= ->]%Hrs & Hl & Hd & Hc). eauto.
    + split; [by destruct H1 as [->| ->]|]. intros []. exists s. by apply Hrs.
    + by destruct H1 as [->| ->].
  - rewrite H. split; [|split; [|done]].
    + split; [done|]. by intros (s & doc & ?%Hrs & _).
    + split; [|done]. intros _ [s ?%Hrs]. done.
Qed.

(** The findings of a document are its violations.  For a schema and a
    document that were parsed there is a list of violations, empty exactly when
    the document conforms; the report lists the first 32 of them, in order, and
    says that it is truncated exactly when there are more. *)
Theorem json_findings_bounded debug schema s candidate doc :
  schema_is debug schema s → json_text (text_of candidate) doc → ∃ violations,
  validate debug s doc "" (mkCollector [] false) =
    mkCollector (finding_of <$> take MAX_FINDINGS violations) (bool_decide (MAX_FINDINGS < length violations)) ∧
  (violations = [] ↔ conforms s (denote_json doc)).
Proof.
  intros (_ & v & Hv & Hc) Hd. apply validate_collects; [|by eapply json_text_wf].
  by apply (compile_wf debug v (json_text_wf _ _ Hv)) in Hc.
Qed.
