(* ===== verification/CodeLang.v ===== *)
(** * The language of candidate programs: crates/ptr-verifier/src/code_test.rs,
    lexer and parser

    Tokens, the syntax tree with variables resolved to slots of the frame, and
    the recursive-descent parser.  The outer [option] of the parser is the end of
    a loop's fuel; CodeParser shows that it is not reached. *)

From S2P Require Import Prelude Bytes Text BigInt BigIntFacts Arithmetic.
From Stdlib Require Import ZArith Strings.Ascii.
From stdpp Require Import options.

Definition MAX_SOURCE_BYTES : N := 8192.
Definition MAX_TOKENS : nat := 2048.
Definition MAX_FUNCTIONS : nat := 32.
Definition CODE_NESTING : nat := 16.

(** ** Lexer *)

Inductive Tok :=
| TInt (value : Z)
| TName (name : string)
| TSym (symbol : string).

#[export] Instance Tok_eq_dec : EqDecision Tok.
Proof. solve_decision. Defined.

Definition SYMBOLS : list string :=
  ["=="; "!="; "<="; ">="; "&&"; "||"; "+"; "-"; "*"; "/"; "%"; "<"; ">"; "!"; "="; "("; ")"; "{";
   "}"; ","; ";"].

Record SyntaxError := mkSyntaxError { se_line : nat; se_why : string }.

Definition ascii_alphabetic (a : ascii) : bool :=
  let n := N_of_ascii a in in_range 65 90 n || in_range 97 122 n.

Definition name_start (a : ascii) : bool := ascii_alphabetic a || bool_decide (a = "_"%char).
Definition name_byte (a : ascii) : bool :=
  ascii_alphabetic a || ascii_digit a || bool_decide (a = "_"%char).

(** [while pos < bytes.len() && p(bytes[pos]) { pos += 1 }]: the bytes passed
    over and the bytes that are left. *)
Fixpoint span (p : ascii → bool) (rest : list ascii) : list ascii * list ascii :=
  match rest with
  | a :: tail => if p a then let '(s, r) := span p tail in (a :: s, r) else ([], rest)
  | [] => ([], [])
  end.

(** [slice.starts_with(prefix)], with the bytes behind the prefix. *)
Fixpoint after_prefix (prefix rest : list ascii) : option (list ascii) :=
  match prefix, rest with
  | [], _ => Some rest
  | a :: prefix, b :: rest => if decide (a = b) then after_prefix prefix rest else None
  | _ :: _, [] => None
  end.

(** [SYMBOLS.iter().find(|s| bytes[pos..].starts_with(s))]. *)
Fixpoint find_symbol (symbols : list string) (rest : list ascii) : option (string * list ascii) :=
  match symbols with
  | [] => None
  | s :: symbols =>
      match after_prefix (String.list_ascii_of_string s) rest with
      | Some rest => Some (s, rest)
      | None => find_symbol symbols rest
      end
  end.

(** One token from its first byte; [parse::<i64>] refuses what does not fit. *)
Definition lex_token (rest : list ascii) (line : nat) : result SyntaxError (Tok * list ascii) :=
  match rest with
  | byte :: _ =>
      if ascii_digit byte then
        let '(digits, rest) := span ascii_digit rest in
        let value := dec_val 0 digits in
        if (value <=? 2 ^ 63 - 1)%Z then Ok (TInt value, rest)
        else Err (mkSyntaxError line "integer literal out of range")
      else if name_start byte then
        let '(name, rest) := span name_byte rest in
        Ok (TName (String.string_of_list_ascii name), rest)
      else
        match find_symbol SYMBOLS rest with
        | Some (symbol, rest) => Ok (TSym symbol, rest)
        | None => Err (mkSyntaxError line "unexpected character")
        end
  | [] => Err (mkSyntaxError line "unexpected character")
  end.

(** The loop over the source; every round consumes a byte. *)
Fixpoint lex_loop (fuel : nat) (rest : list ascii) (line : nat) (tokens : list (Tok * nat)) :
    option (result SyntaxError (list (Tok * nat))) :=
  match rest with
  | [] => Some (Ok tokens)
  | byte :: tail =>
      match fuel with
      | O => None
      | S fuel =>
          if bool_decide (byte = "010"%char) then lex_loop fuel tail (S line) tokens
          else if ascii_whitespace byte then lex_loop fuel tail line tokens
          else if bool_decide (take 2 rest = ["/"; "/"]%char) then
            lex_loop fuel (span (λ a, negb (bool_decide (a = "010"%char))) rest).2 line tokens
          else if decide (MAX_TOKENS ≤ length tokens) then
            Some (Err (mkSyntaxError line "too many tokens"))
          else
            match lex_token rest line with
            | Ok (tok, rest) => lex_loop fuel rest line (tokens ++ [(tok, line)])
            | Err e => Some (Err e)
            end
      end
  end.

Definition lex (source : string) : option (result SyntaxError (list (Tok * nat))) :=
  let bytes := String.list_ascii_of_string source in lex_loop (length bytes) bytes 1 [].

(** ** Syntax trees *)

Inductive BinOp :=
| Add | Sub | Mul | Div | Rem | Lt' | Le' | Gt' | Ge' | Eq' | Ne' | And | Or.

Inductive ExprKindOf (E : Type) :=
| KInt (value : Z)
| KVar (slot : nat)
| KNeg (inner : E)
| KNot (inner : E)
| KBin (op : BinOp) (lhs rhs : E)
| KCall (name : string) (args : list E).
Arguments KInt {E} _.
Arguments KVar {E} _.
Arguments KNeg {E} _.
Arguments KNot {E} _.
Arguments KBin {E} _ _ _.
Arguments KCall {E} _ _.

Inductive Expr := mkExpr { ex_height : nat; ex_kind : ExprKindOf Expr }.
Abbreviation ExprKind := (ExprKindOf Expr).

Inductive Stmt :=
| SLet (slot : nat) (value : Expr)
| SAssign (slot : nat) (value : Expr)
| SReturn (value : Expr)
| SPrint (value : Expr)
| SIf (condition : Expr) (then_ otherwise : list Stmt)
| SWhile (condition : Expr) (body : list Stmt).

Record Function := mkFunction { fn_param_count : nat; fn_slots : nat; fn_body : list Stmt }.

(** ** Parser *)

Definition KEYWORDS : list string := ["fn"; "let"; "if"; "else"; "while"; "return"; "print"].

(** The fields of [Parser] that change: the position and the names of the
    function being parsed. *)
Record PState := mkPState { ps_pos : nat; ps_scope : gmap string nat }.

(** A method of the parser: [&mut self] with a [ParseResult]. *)
Definition P (A : Type) : Type := PState → option (result SyntaxError (A * PState)).

Definition pok {A} (a : A) : P A := λ st, Some (Ok (a, st)).
Definition pthen {A B} (m : P A) (k : A → P B) : P B := λ st,
  let! r := m st in k r.1 r.2.
Notation "'do' x <- m 'in' k" := (pthen m (λ x, k))
  (at level 200, x pattern, m at level 100, k at level 200) : ptr_scope.

Section Parser.
Context (tokens : list (Tok * nat)).

Definition line_at (pos : nat) : nat :=
  match tokens !! pos with
  | Some (_, line) => line
  | None => match last tokens with Some (_, line) => line | None => 1 end
  end.

Definition pfail {A} (why : string) : P A := λ st, Some (Err (mkSyntaxError (line_at (ps_pos st)) why)).

Definition peek_tok (st : PState) : option Tok := fst <$> tokens !! ps_pos st.

Definition bump (st : PState) : PState := mkPState (S (ps_pos st)) (ps_scope st).

Definition eat_sym (symbol : string) : P bool := λ st,
  if decide (peek_tok st = Some (TSym symbol)) then Some (Ok (true, bump st)) else Some (Ok (false, st)).

Definition expect_sym (symbol why : string) : P unit :=
  do eaten <- eat_sym symbol in if eaten : bool then pok tt else pfail why.

Definition eat_keyword (keyword : string) : P bool := λ st,
  if decide (peek_tok st = Some (TName keyword)) then Some (Ok (true, bump st)) else Some (Ok (false, st)).

Definition parse_name (why : string) : P string := λ st,
  match peek_tok st with
  | Some (TName name) =>
      if decide (name ∈ KEYWORDS) then pfail why st else Some (Ok (name, bump st))
  | _ => pfail why st
  end.

(** [*self.scope.entry(name).or_insert(next)]. *)
Definition slot (name : string) : P nat := λ st,
  match ps_scope st !! name with
  | Some i => Some (Ok (i, st))
  | None =>
      let next := size (ps_scope st) in
      Some (Ok (next, mkPState (ps_pos st) (<[name := next]> (ps_scope st))))
  end.

Definition node (kind : ExprKind) (height : nat) : P Expr :=
  if decide (CODE_NESTING * 2 < height) then pfail "expression too deep" else pok (mkExpr height kind).

(** *** Expressions *)

Definition LEVELS : list (list (string * BinOp)) :=
  [[("||", Or)]; [("&&", And)]; [("==", Eq'); ("!=", Ne')];
   [("<=", Le'); (">=", Ge'); ("<", Lt'); (">", Gt')];
   [("+", Add); ("-", Sub)]; [("*", Mul); ("/", Div); ("%", Rem)]].

(** [LEVELS[level].iter().find(...)] at the next token. *)
Definition find_op (ops : list (string * BinOp)) (st : PState) : option BinOp :=
  snd <$> List.find (λ op, bool_decide (peek_tok st = Some (TSym (fst op)))) ops.

(** The loop of [binary] at one level, with [operand] for the next level. *)
Fixpoint binary_loop (operand : P Expr) (ops : list (string * BinOp)) (fuel : nat) (lhs : Expr) : P Expr := λ st,
  match find_op ops st with
  | None => Some (Ok (lhs, st))
  | Some op =>
      match fuel with
      | O => None
      | S fuel =>
          (do rhs <- operand in
           do lhs <- node (KBin op lhs rhs) (1 + Nat.max (ex_height lhs) (ex_height rhs)) in
           binary_loop operand ops fuel lhs) (bump st)
      end
  end.

(** [binary] from the level whose operators come first. *)
Fixpoint binary (unary : P Expr) (levels : list (list (string * BinOp))) : P Expr :=
  match levels with
  | [] => unary
  | ops :: levels =>
      do lhs <- binary unary levels in
      binary_loop (binary unary levels) ops (length tokens) lhs
  end.

(** The loop over the arguments of a call, with [expr] one level deeper. *)
Fixpoint args_loop (expr : P Expr) (fuel : nat) (args : list Expr) : P (list Expr) :=
  match fuel with
  | O => λ _, None
  | S fuel =>
      do arg <- expr in
      let args := args ++ [arg] in
      do closed <- eat_sym ")" in
      if closed : bool then pok args
      else do _ <- expect_sym "," "expected `,` or `)`" in args_loop expr fuel args
  end.

Definition max_height (args : list Expr) : nat := foldr Nat.max 0 (ex_height <$> args).

(** [primary], with [expr] one level deeper. *)
Definition primary (expr : P Expr) : P Expr := λ st,
  match peek_tok st with
  | Some (TInt value) => node (KInt value) 1 (bump st)
  | Some (TSym symbol) =>
      if decide (symbol = "(") then
        (do inner <- expr in do _ <- expect_sym ")" "expected `)`" in pok inner) (bump st)
      else pfail "expected an expression" st
  | Some (TName name) =>
      if decide (name ∈ KEYWORDS) then pfail "expected an expression" st
      else
        (do call <- eat_sym "(" in
         if call : bool then
           do empty <- eat_sym ")" in
           do args <- (if empty : bool then pok [] else args_loop expr (length tokens) []) in
           if decide (8 < length args) then pfail "too many arguments"
           else node (KCall name args) (1 + max_height args)
         else
           do i <- slot name in node (KVar i) 1) (bump st)
  | None => pfail "expected an expression" st
  end.

(** [unary] and [expr] at a nesting depth; both refuse [CODE_NESTING], so the
    fuel is one more than the depths left. *)
Fixpoint parse_unary (fuel depth : nat) : P Expr :=
  match fuel with
  | O => λ _, None
  | S fuel =>
      if decide (CODE_NESTING ≤ depth) then pfail "expression nested too deeply"
      else
        do minus <- eat_sym "-" in
        if minus : bool then
          do inner <- parse_unary fuel (S depth) in node (KNeg inner) (ex_height inner + 1)
        else
          do bang <- eat_sym "!" in
          if bang : bool then
            do inner <- parse_unary fuel (S depth) in node (KNot inner) (ex_height inner + 1)
          else
            primary (if decide (CODE_NESTING ≤ S depth) then pfail "expression nested too deeply"
                     else binary (parse_unary fuel (S depth)) LEVELS)
  end.

Definition EXPR_FUEL : nat := S CODE_NESTING.

Definition parse_expr : P Expr :=
  if decide (CODE_NESTING ≤ 0) then pfail "expression nested too deeply" else binary (parse_unary EXPR_FUEL 0) LEVELS.

(** *** Statements *)

(** The loop of [block] over its statements. *)
Fixpoint statements_loop (statement : P Stmt) (fuel : nat) (statements : list Stmt) : P (list Stmt) :=
  match fuel with
  | O => λ _, None
  | S fuel =>
      do closed <- eat_sym "}" in
      if closed : bool then pok statements
      else λ st,
        match peek_tok st with
        | None => pfail "unterminated block" st
        | Some _ =>
            (do s <- statement in statements_loop statement fuel (statements ++ [s])) st
        end
  end.

Definition block_of (statement : nat → P Stmt) (depth : nat) : P (list Stmt) :=
  if decide (CODE_NESTING ≤ depth) then pfail "blocks nested too deeply"
  else do _ <- expect_sym "{" "expected `{`" in statements_loop (statement depth) (S (length tokens)) [].

(** [expr; ";"]. *)
Definition value_stmt : P Expr := do value <- parse_expr in do _ <- expect_sym ";" "expected `;`" in pok value.

Fixpoint parse_statement (fuel depth : nat) : P Stmt :=
  match fuel with
  | O => λ _, None
  | S fuel =>
      do is_let <- eat_keyword "let" in
      if is_let : bool then
        do name <- parse_name "expected a variable name" in
        do _ <- expect_sym "=" "expected `=`" in
        do value <- value_stmt in
        do i <- slot name in pok (SLet i value)
      else
      do is_return <- eat_keyword "return" in
      if is_return : bool then do value <- value_stmt in pok (SReturn value)
      else
      do is_print <- eat_keyword "print" in
      if is_print : bool then do value <- value_stmt in pok (SPrint value)
      else
      do is_while <- eat_keyword "while" in
      if is_while : bool then
        do condition <- parse_expr in
        do body <- block_of (parse_statement fuel) (S depth) in pok (SWhile condition body)
      else
      do is_if <- eat_keyword "if" in
      if is_if : bool then
        do condition <- parse_expr in
        do then_ <- block_of (parse_statement fuel) (S depth) in
        do is_else <- eat_keyword "else" in
        do otherwise <-
          (if is_else : bool then λ st,
             if decide (peek_tok st = Some (TName "if")) then
               (if decide (CODE_NESTING ≤ S depth) then pfail "blocks nested too deeply"
                else do s <- parse_statement fuel (S depth) in pok [s]) st
             else block_of (parse_statement fuel) (S depth) st
           else pok []) in
        pok (SIf condition then_ otherwise)
      else
        do name <- parse_name "expected a statement" in
        do _ <- expect_sym "=" "expected `=`" in
        do value <- value_stmt in
        do i <- slot name in pok (SAssign i value)
  end.

Definition STMT_FUEL : nat := S CODE_NESTING.

Definition parse_block (depth : nat) : P (list Stmt) := block_of (parse_statement STMT_FUEL) depth.

(** *** Programs *)

(** The loop over the parameters. *)
Fixpoint params_loop (fuel param_count : nat) : P nat :=
  match fuel with
  | O => λ _, None
  | S fuel =>
      do param <- parse_name "expected a parameter name" in
      λ st,
        if decide (is_Some (ps_scope st !! param)) then pfail "duplicate parameter" st
        else
          (do _ <- slot param in
           let param_count := S param_count in
           do closed <- eat_sym ")" in
           if closed : bool then pok param_count
           else do _ <- expect_sym "," "expected `,` or `)`" in params_loop fuel param_count) st
  end.

Definition clear_scope : P unit := λ st, Some (Ok (tt, mkPState (ps_pos st) ∅)).

(** A function behind its opening parenthesis. *)
Definition function_rest (name : string) : P (string * Function) :=
  do empty <- eat_sym ")" in
  do param_count <- (if empty : bool then pok 0 else params_loop (length tokens) 0) in
  do body <- parse_block 0 in
  λ st, Some (Ok ((name, mkFunction param_count (size (ps_scope st)) body), st)).

Definition parse_function : P (string * Function) :=
  do is_fn <- eat_keyword "fn" in
  if negb is_fn then pfail "expected `fn`"
  else
    do name <- parse_name "expected a function name" in
    do _ <- expect_sym "(" "expected `(`" in
    do _ <- clear_scope in function_rest name.

Fixpoint program_loop (fuel : nat) (functions : gmap string Function) : P (gmap string Function) := λ st,
  match peek_tok st with
  | None => Some (Ok (functions, st))
  | Some _ =>
      match fuel with
      | O => None
      | S fuel =>
          (do nf <- parse_function in
           if decide (MAX_FUNCTIONS ≤ size functions) then pfail "too many functions"
           else if decide (is_Some (functions !! nf.1)) then pfail "function defined twice"
           else program_loop fuel (<[nf.1 := nf.2]> functions)) st
      end
  end.

Definition program : P (gmap string Function) := program_loop (length tokens) ∅.
End Parser.

(** [source.is_ascii()]. *)
Definition is_ascii (source : string) : bool :=
  forallb (λ a, (N_of_ascii a <? 128)%N) (String.list_ascii_of_string source).

Definition parse (source : string) : option (result SyntaxError (gmap string Function)) :=
  if negb (is_ascii source) then Some (Err (mkSyntaxError 1 "source must be ASCII"))
  else
    let! tokens := lex source in
    let! r := program tokens (mkPState 0 ∅) in
    Some (Ok r.1).
