(* ===== verification/CodeMachine.v ===== *)
(** * The interpreter of candidate programs: crates/ptr-verifier/src/code_test.rs

    Every method of [Machine] as a function on machines.  The outer [option] is a
    panic (an index out of range, a subtraction below zero) or the end of the
    recursion's fuel; CodeRun shows that neither happens.  A method returns the
    machine it leaves behind on a trap too, because [call], [block] and [eval]
    restore their counters before they propagate it. *)

From S2P Require Import Prelude Bytes Text BigInt Arithmetic CodeLang.
From Stdlib Require Import ZArith Strings.Ascii.
From stdpp Require Import options.

Local Open Scope nat_scope.

Definition FUEL_PER_TEST : N := 100000.
Definition MAX_LOCALS : nat := 256.
Definition MAX_CALL_DEPTH : nat := 20.
Definition MAX_NATIVE_DEPTH : nat := 256.
Definition MAX_OUTPUT_BYTES : N := 1024.

Inductive Trap :=
| Timeout
| Resource (why : string)
| Runtime (why : string).

(** The fields that change; [functions] is a parameter of the methods. *)
Record Machine := mkMachine {
  mc_fuel : N;
  mc_locals : list (option Z);
  mc_live : nat;
  mc_depth : nat;
  mc_native : nat;
  mc_output : string
}.

Definition set_fuel (f : N) (m : Machine) : Machine :=
  mkMachine f (mc_locals m) (mc_live m) (mc_depth m) (mc_native m) (mc_output m).
Definition set_locals (l : list (option Z)) (m : Machine) : Machine :=
  mkMachine (mc_fuel m) l (mc_live m) (mc_depth m) (mc_native m) (mc_output m).
Definition set_live (n : nat) (m : Machine) : Machine :=
  mkMachine (mc_fuel m) (mc_locals m) n (mc_depth m) (mc_native m) (mc_output m).
Definition set_depth (n : nat) (m : Machine) : Machine :=
  mkMachine (mc_fuel m) (mc_locals m) (mc_live m) n (mc_native m) (mc_output m).
Definition set_native (n : nat) (m : Machine) : Machine :=
  mkMachine (mc_fuel m) (mc_locals m) (mc_live m) (mc_depth m) n (mc_output m).
Definition set_output (o : string) (m : Machine) : Machine :=
  mkMachine (mc_fuel m) (mc_locals m) (mc_live m) (mc_depth m) (mc_native m) o.

(** A method with [&mut self] that returns a [Result]. *)
Definition M (A : Type) : Type := Machine → option (result Trap A * Machine).

Definition mok {A} (a : A) : M A := λ m, Some (Ok a, m).
Definition trap {A} (t : Trap) : M A := λ m, Some (Err t, m).
Definition panic {A} : M A := λ _, None.

(** [let x = m?; k]. *)
Definition mthen {A B} (c : M A) (k : A → M B) : M B := λ m,
  match c m with
  | Some (Ok a, m) => k a m
  | Some (Err t, m) => Some (Err t, m)
  | None => None
  end.

(** [let result = c; after; result]: what is done behind a call even when it
    traps. *)
Definition finally {A} (c : M A) (after : Machine → option Machine) : M A := λ m,
  match c m with
  | Some (r, m) => match after m with Some m => Some (r, m) | None => None end
  | None => None
  end.

Notation "'run' x <- m 'in' k" := (mthen m (λ x, k))
  (at level 200, x pattern, m at level 100, k at level 200) : ptr_scope.

(** [value.ok_or(trap)]. *)
Definition or_trap {A} (x : option A) (t : Trap) : M A := match x with Some a => mok a | None => trap t end.

(** The text of an [i64]. *)
Definition i64_text (z : Z) : string :=
  if (z <? 0)%Z then "-" +:+ to_string (Z.to_N (- z)) else to_string (Z.to_N z).

(** A [usize] that must not fall below zero. *)
Definition sub_usize (a b : nat) : option nat := if decide (b ≤ a)%nat then Some (a - b)%nat else None.

Definition charge (amount : N) : M unit := λ m,
  if (amount <=? mc_fuel m)%N then Some (Ok tt, set_fuel (mc_fuel m - amount)%N m)
  else Some (Err Timeout, m).

Definition tick : M unit := charge 1.

Definition enter : M unit := λ m,
  if decide (MAX_NATIVE_DEPTH ≤ mc_native m) then trap (Resource "native recursion bound exceeded") m
  else Some (Ok tt, set_native (S (mc_native m)) m).

(** [self.native -= 1]. *)
Definition leave (m : Machine) : option Machine :=
  n ← sub_usize (mc_native m) 1; Some (set_native n m).

(** The cells [iter().flatten().count()] counts. *)
Definition defined (cells : list (option Z)) : nat := length (filter is_Some cells).

(** [for (cell, value) in cells.iter_mut().zip(args) { cell = Some(value) }]. *)
Fixpoint fill (cells : list (option Z)) (args : list Z) : list (option Z) :=
  match cells, args with
  | _ :: cells, v :: args => Some v :: fill cells args
  | _, _ => cells
  end.

(** [self.locals[base + slot]]. *)
Definition read (slot base : nat) : M (option Z) := λ m,
  cell ← mc_locals m !! (base + slot); Some (Ok cell, m).

(** [self.locals[base + slot] = Some(value)]. *)
Definition write (slot base : nat) (value : Z) : M unit := λ m,
  if decide (base + slot < length (mc_locals m))
  then Some (Ok tt, set_locals (<[base + slot := Some value]> (mc_locals m)) m) else None.

(** [format!("{value}\n")]. *)
Definition print_text (value : Z) : string := i64_text value +:+ String "010"%char EmptyString.

Definition print (value : Z) : M unit := λ m,
  let text := print_text value in
  if (MAX_OUTPUT_BYTES <? slen (mc_output m) + slen text)%N
  then trap (Resource "output bound exceeded") m
  else Some (Ok tt, set_output (mc_output m +:+ text) m).

(** [i64::from(bool)]. *)
Definition truth (b : bool) : Z := if b then 1 else 0.

Definition apply (op : BinOp) (a b : Z) : result Trap Z :=
  let overflow := Runtime "integer overflow" in
  match op with
  | Add => ok_or (i64c (a + b)) overflow
  | Sub => ok_or (i64c (a - b)) overflow
  | Mul => ok_or (i64c (a * b)) overflow
  | Div => if (b =? 0)%Z then Err (Runtime "division by zero") else ok_or (i64c (Z.quot a b)) overflow
  | Rem =>
      (* [checked_rem] also refuses a division that overflows *)
      if (b =? 0)%Z then Err (Runtime "division by zero")
      else ok_or (q ← i64c (Z.quot a b); Some (Z.rem a b)) overflow
  | Lt' => Ok (truth (a <? b)%Z)
  | Le' => Ok (truth (a <=? b)%Z)
  | Gt' => Ok (truth (b <? a)%Z)
  | Ge' => Ok (truth (b <=? a)%Z)
  | Eq' => Ok (truth (a =? b)%Z)
  | Ne' => Ok (truth (negb (a =? b)%Z))
  | And | Or => Err (Runtime "unreachable operator")
  end.

Section Interpreter.
Context (functions : gmap string Function).

Section Level.
(** [eval] and [block], one level of native recursion deeper. *)
Context (eval : Expr → nat → M Z) (block : list Stmt → nat → M (option Z)).

(** What [call] does behind the body: it restores the counters and the frames. *)
Definition leave_call (base : nat) (m : Machine) : option Machine :=
  depth ← sub_usize (mc_depth m) 1;
  live ← sub_usize (mc_live m) (defined (drop base (mc_locals m)));
  Some (set_locals (take base (mc_locals m)) (set_live live (set_depth depth m))).

Definition call_body (function : Function) (args : list Z) : M (option Z) := λ m,
  let base := length (mc_locals m) in
  let m := set_locals (mc_locals m ++ fill (replicate (fn_slots function) None) args) m in
  let m := set_depth (S (mc_depth m)) (set_live (mc_live m + length args) m) in
  finally (block (fn_body function) base) (leave_call base) m.

Definition call (name : string) (args : list Z) : M Z :=
  run function <- or_trap (functions !! name) (Runtime "call of an undefined function") in
  if negb (fn_param_count function =? length args) then trap (Runtime "wrong number of arguments")
  else λ m,
    (if decide (MAX_CALL_DEPTH ≤ mc_depth m) then trap (Resource "call depth bound exceeded")
     else if decide (MAX_LOCALS < mc_live m + length args) then trap (Resource "memory bound exceeded")
     else
       run _ <- charge (N.of_nat (fn_slots function)) in
       run result <- call_body function args in
       or_trap result (Runtime "function ended without returning")) m.

(** The loop of [eval_call] over the arguments. *)
Fixpoint eval_args (args : list Expr) (base : nat) (values : list Z) : M (list Z) :=
  match args with
  | [] => mok values
  | arg :: args => run v <- eval arg base in eval_args args base (values ++ [v])
  end.

Definition eval_call (name : string) (args : list Expr) (base : nat) : M Z :=
  run values <- eval_args args base [] in call name values.

Definition eval_node (e : Expr) (base : nat) : M Z :=
  run _ <- tick in
  match ex_kind e with
  | KInt value => mok value
  | KVar slot => run v <- read slot base in or_trap v (Runtime "use of an undeclared variable")
  | KNeg inner =>
      run v <- eval inner base in or_trap (i64c (- v)) (Runtime "integer overflow")
  | KNot inner => run v <- eval inner base in mok (truth (v =? 0)%Z)
  | KCall name args => eval_call name args base
  | KBin And l r =>
      run a <- eval l base in
      if (a =? 0)%Z then mok 0%Z else run b <- eval r base in mok (truth (negb (b =? 0)%Z))
  | KBin Or l r =>
      run a <- eval l base in
      if negb (a =? 0)%Z then mok 1%Z else run b <- eval r base in mok (truth (negb (b =? 0)%Z))
  | KBin op l r =>
      run a <- eval l base in
      run b <- eval r base in
      match apply op a b with Ok v => mok v | Err t => trap t end
  end.

(** The loop of [while]; every round takes a step, so the fuel of the machine
    bounds the rounds. *)
Fixpoint while_loop (fuel : nat) (condition : Expr) (body : list Stmt) (base : nat) : M (option Z) :=
  run c <- eval condition base in
  if (c =? 0)%Z then mok None
  else
    run _ <- tick in
    run r <- block body base in
    match r with
    | Some value => mok (Some value)
    | None =>
        match fuel with
        | O => panic
        | S fuel => while_loop fuel condition body base
        end
    end.

Definition statement (s : Stmt) (base : nat) : M (option Z) :=
  run _ <- tick in
  match s with
  | SLet slot value =>
      run v <- eval value base in
      run cell <- read slot base in
      run _ <- (match cell with
                | None => λ m,
                    if decide (MAX_LOCALS ≤ mc_live m) then trap (Resource "memory bound exceeded") m
                    else Some (Ok tt, set_live (S (mc_live m)) m)
                | Some _ => mok tt
                end) in
      run _ <- write slot base v in mok None
  | SAssign slot value =>
      run v <- eval value base in
      run cell <- read slot base in
      match cell with
      | None => trap (Runtime "assignment to an undeclared variable")
      | Some _ => run _ <- write slot base v in mok None
      end
  | SReturn value => run v <- eval value base in mok (Some v)
  | SPrint value => run v <- eval value base in run _ <- print v in mok None
  | SIf condition then_ otherwise =>
      run c <- eval condition base in
      if negb (c =? 0)%Z then block then_ base else block otherwise base
  | SWhile condition body => λ m, while_loop (N.to_nat (mc_fuel m)) condition body base m
  end.

Fixpoint run_block (statements : list Stmt) (base : nat) : M (option Z) :=
  match statements with
  | [] => mok None
  | s :: statements =>
      run r <- statement s base in
      match r with
      | Some value => mok (Some value)
      | None => run_block statements base
      end
  end.
End Level.

(** Both enter one level of native recursion, of which there are
    [MAX_NATIVE_DEPTH]; the fuel is one more than the levels left. *)
Fixpoint eval (fuel : nat) (e : Expr) (base : nat) : M Z :=
  match fuel with
  | O => panic
  | S fuel =>
      run _ <- enter in finally (eval_node (eval fuel) (block fuel) e base) leave
  end
with block (fuel : nat) (statements : list Stmt) (base : nat) : M (option Z) :=
  match fuel with
  | O => panic
  | S fuel =>
      run _ <- enter in finally (run_block (eval fuel) (block fuel) statements base) leave
  end.

Definition NATIVE_FUEL : nat := S MAX_NATIVE_DEPTH.

(** [run_test] for the arguments of the test. *)
Definition run_test (entry : string) (args : list Z) : option (result Trap (Z * string)) :=
  let machine := mkMachine FUEL_PER_TEST [] 0 0 0 "" in
  match call (block NATIVE_FUEL) entry args machine with
  | Some (Ok value, machine) => Some (Ok (value, mc_output machine))
  | Some (Err t, _) => Some (Err t)
  | None => None
  end.
End Interpreter.

(** * What candidate programs mean

    A big-step semantics of the language of code_test.rs: expressions have values,
    statements change the variables of one function, both may print.  There are
    no machines in it, no frames below the current one and no counters that are
    put back.  A derivation also says what the run costs: how many steps it takes
    and whether it stays within the bounds on memory, calls, recursion and
    output.  Integers are unbounded here; an operation has a meaning when its
    exact result is an [i64]. *)

(** ** Costs *)

Record Cost := mkCost { steps : N; fits : bool }.

Definition free : Cost := mkCost 0 true.
Definition takes (n : N) : Cost := mkCost n true.
Definition needs (b : bool) : Cost := mkCost 0 b.
Definition both (a b : Cost) : Cost := mkCost (steps a + steps b) (fits a && fits b).
Infix "⊕" := both (at level 50, left associativity) : ptr_scope.

(** Where a computation happens: how many variables the callers hold, how many
    calls and how many levels of recursion are open. *)
Record Place := mkPlace { outer : nat; calls_open : nat; levels : nat }.

Definition deeper (p : Place) : Place := mkPlace (outer p) (calls_open p) (S (levels p)).
Definition room (p : Place) : Cost := needs (bool_decide (levels p < MAX_NATIVE_DEPTH)).

(** ** Values *)

Definition fits_i64 (z : Z) : Prop := (- 2 ^ 63 <= z < 2 ^ 63)%Z.

(** The strict operators. *)
Inductive strict : BinOp → Z → Z → Z → Prop :=
| strict_add a b : fits_i64 (a + b) → strict Add a b (a + b)
| strict_sub a b : fits_i64 (a - b) → strict Sub a b (a - b)
| strict_mul a b : fits_i64 (a * b) → strict Mul a b (a * b)
| strict_div a b : b ≠ 0%Z → fits_i64 (Z.quot a b) → strict Div a b (Z.quot a b)
| strict_rem a b : b ≠ 0%Z → fits_i64 (Z.quot a b) → strict Rem a b (Z.rem a b)
| strict_lt a b : strict Lt' a b (truth (bool_decide (a < b)%Z))
| strict_le a b : strict Le' a b (truth (bool_decide (a <= b)%Z))
| strict_gt a b : strict Gt' a b (truth (bool_decide (b < a)%Z))
| strict_ge a b : strict Ge' a b (truth (bool_decide (b <= a)%Z))
| strict_eq a b : strict Eq' a b (truth (bool_decide (a = b)))
| strict_ne a b : strict Ne' a b (truth (bool_decide (a ≠ b))).

(** ** Runs

    [o] is what was printed before, [o'] after; a frame has one cell for each
    variable of the function. *)

Abbreviation frame := (list (option Z)).

Section Semantics.
Context (functions : gmap string Function).

Inductive evals : Place → frame → Expr → string → string → Cost → Z → Prop :=
| evals_intro p ρ e o o' k v :
    node_evals (deeper p) ρ (ex_kind e) o o' k v →
    evals p ρ e o o' (room p ⊕ takes 1 ⊕ k) v
with node_evals : Place → frame → ExprKind → string → string → Cost → Z → Prop :=
| node_int p ρ o v : node_evals p ρ (KInt v) o o free v
| node_var p ρ o i v : ρ !! i = Some (Some v) → node_evals p ρ (KVar i) o o free v
| node_neg p ρ e o o' k v :
    evals p ρ e o o' k v → fits_i64 (- v) → node_evals p ρ (KNeg e) o o' k (- v)
| node_not p ρ e o o' k v :
    evals p ρ e o o' k v → node_evals p ρ (KNot e) o o' k (truth (bool_decide (v = 0%Z)))
| node_call p ρ name args o o1 o2 k1 k2 vs v :
    args_eval p ρ args o o1 k1 vs →
    calls (mkPlace (outer p + defined ρ) (calls_open p) (levels p)) name vs o1 o2 k2 v →
    node_evals p ρ (KCall name args) o o2 (k1 ⊕ k2) v
| node_and_false p ρ l r o o' k :
    evals p ρ l o o' k 0%Z → node_evals p ρ (KBin And l r) o o' k 0%Z
| node_and_true p ρ l r o o1 o2 k1 k2 a b :
    evals p ρ l o o1 k1 a → a ≠ 0%Z → evals p ρ r o1 o2 k2 b →
    node_evals p ρ (KBin And l r) o o2 (k1 ⊕ k2) (truth (bool_decide (b ≠ 0%Z)))
| node_or_true p ρ l r o o' k a :
    evals p ρ l o o' k a → a ≠ 0%Z → node_evals p ρ (KBin Or l r) o o' k 1%Z
| node_or_false p ρ l r o o1 o2 k1 k2 b :
    evals p ρ l o o1 k1 0%Z → evals p ρ r o1 o2 k2 b →
    node_evals p ρ (KBin Or l r) o o2 (k1 ⊕ k2) (truth (bool_decide (b ≠ 0%Z)))
| node_bin p ρ op l r o o1 o2 k1 k2 a b v :
    evals p ρ l o o1 k1 a → evals p ρ r o1 o2 k2 b → strict op a b v →
    node_evals p ρ (KBin op l r) o o2 (k1 ⊕ k2) v
with args_eval : Place → frame → list Expr → string → string → Cost → list Z → Prop :=
| args_nil p ρ o : args_eval p ρ [] o o free []
| args_cons p ρ e es o o1 o2 k1 k2 v vs :
    evals p ρ e o o1 k1 v → args_eval p ρ es o1 o2 k2 vs →
    args_eval p ρ (e :: es) o o2 (k1 ⊕ k2) (v :: vs)
(** A call from a place that holds the variables of the caller too. *)
with calls : Place → string → list Z → string → string → Cost → Z → Prop :=
| calls_intro p name f args o o' ρ k v :
    functions !! name = Some f → length args = fn_param_count f →
    block_runs (mkPlace (outer p) (S (calls_open p)) (levels p))
      ((Some <$> args) ++ replicate (fn_slots f - length args) None) (fn_body f) o ρ o' k (Some v) →
    calls p name args o o'
      (needs (bool_decide (calls_open p < MAX_CALL_DEPTH)) ⊕
       needs (bool_decide (outer p + length args ≤ MAX_LOCALS)) ⊕
       takes (N.of_nat (fn_slots f)) ⊕ k) v
(** The last argument is the value that a [return] gave, if one was reached. *)
with block_runs : Place → frame → list Stmt → string → frame → string → Cost → option Z → Prop :=
| block_intro p ρ ss o ρ' o' k r :
    seq_runs (deeper p) ρ ss o ρ' o' k r → block_runs p ρ ss o ρ' o' (room p ⊕ k) r
with seq_runs : Place → frame → list Stmt → string → frame → string → Cost → option Z → Prop :=
| seq_nil p ρ o : seq_runs p ρ [] o ρ o free None
| seq_return p ρ s ss o ρ' o' k v :
    stmt_runs p ρ s o ρ' o' k (Some v) → seq_runs p ρ (s :: ss) o ρ' o' (takes 1 ⊕ k) (Some v)
| seq_next p ρ s ss o ρ1 o1 k1 ρ2 o2 k2 r :
    stmt_runs p ρ s o ρ1 o1 k1 None → seq_runs p ρ1 ss o1 ρ2 o2 k2 r →
    seq_runs p ρ (s :: ss) o ρ2 o2 (takes 1 ⊕ k1 ⊕ k2) r
with stmt_runs : Place → frame → Stmt → string → frame → string → Cost → option Z → Prop :=
| stmt_let p ρ i e o o' k v cell :
    evals p ρ e o o' k v → ρ !! i = Some cell →
    stmt_runs p ρ (SLet i e) o (<[i := Some v]> ρ) o'
      (k ⊕ needs (bool_decide (outer p + defined (<[i := Some v]> ρ) ≤ MAX_LOCALS))) None
| stmt_assign p ρ i e o o' k v w :
    evals p ρ e o o' k v → ρ !! i = Some (Some w) →
    stmt_runs p ρ (SAssign i e) o (<[i := Some v]> ρ) o' k None
| stmt_return p ρ e o o' k v : evals p ρ e o o' k v → stmt_runs p ρ (SReturn e) o ρ o' k (Some v)
| stmt_print p ρ e o o' k v :
    evals p ρ e o o' k v →
    stmt_runs p ρ (SPrint e) o ρ (o' +:+ print_text v)
      (k ⊕ needs (bool_decide (slen (o' +:+ print_text v) <= MAX_OUTPUT_BYTES)%N)) None
| stmt_if p ρ c yes no o o1 k1 v ρ' o' k2 r :
    evals p ρ c o o1 k1 v →
    block_runs p ρ (if decide (v = 0%Z) then no else yes) o1 ρ' o' k2 r →
    stmt_runs p ρ (SIf c yes no) o ρ' o' (k1 ⊕ k2) r
| stmt_while p ρ c body o ρ' o' k r :
    loop_runs p ρ c body o ρ' o' k r → stmt_runs p ρ (SWhile c body) o ρ' o' k r
with loop_runs : Place → frame → Expr → list Stmt → string → frame → string → Cost → option Z → Prop :=
| loop_end p ρ c body o o' k :
    evals p ρ c o o' k 0%Z → loop_runs p ρ c body o ρ o' k None
| loop_return p ρ c body o o1 k1 v ρ' o' k2 r :
    evals p ρ c o o1 k1 v → v ≠ 0%Z → block_runs p ρ body o1 ρ' o' k2 (Some r) →
    loop_runs p ρ c body o ρ' o' (k1 ⊕ takes 1 ⊕ k2) (Some r)
| loop_next p ρ c body o o1 k1 v ρ1 o2 k2 ρ' o' k3 r :
    evals p ρ c o o1 k1 v → v ≠ 0%Z → block_runs p ρ body o1 ρ1 o2 k2 None →
    loop_runs p ρ1 c body o2 ρ' o' k3 r →
    loop_runs p ρ c body o ρ' o' (k1 ⊕ takes 1 ⊕ k2 ⊕ k3) r.
End Semantics.
