(* ===== verification/CodeRun.v ===== *)
(** * The interpreter runs what programs mean

    For functions whose variables all have a slot, the interpreter always returns,
    restores what it keeps about callers, and its answer is exact: a value is the
    one meaning of the call, at the cost it took from the fuel; a runtime trap
    says that the call has no meaning; a timeout that the meaning takes more steps
    than were left; a resource trap that it does not stay within the bounds. *)

From S2P Require Import Prelude Bytes Text BigInt Arithmetic CodeLang CodeMachine.
From Stdlib Require Import ZArith Lia.
From stdpp Require Import options.

Local Open Scope nat_scope.
Local Open Scope list_scope.
Local Set Default Proof Using "Type*".

#[local] Arguments defined : simpl never.

(** ** Variables have slots *)

Fixpoint expr_scoped (slots : nat) (e : Expr) : Prop :=
  match e with
  | mkExpr _ kind =>
      match kind with
      | KInt _ => True
      | KVar i => i < slots
      | KNeg e | KNot e => expr_scoped slots e
      | KBin _ l r => expr_scoped slots l ∧ expr_scoped slots r
      | KCall _ args => foldr (λ e P, expr_scoped slots e ∧ P) True args
      end
  end.

(** Statements whose variables have a slot and whose expressions satisfy [E]. *)
Fixpoint stmt_with (E : Expr → Prop) (slots : nat) (s : Stmt) : Prop :=
  match s with
  | SLet i e | SAssign i e => i < slots ∧ E e
  | SReturn e | SPrint e => E e
  | SIf c yes no =>
      E c ∧ foldr (λ s P, stmt_with E slots s ∧ P) True yes ∧ foldr (λ s P, stmt_with E slots s ∧ P) True no
  | SWhile c body => E c ∧ foldr (λ s P, stmt_with E slots s ∧ P) True body
  end.

Abbreviation exprs_scoped slots es := (foldr (λ e P, expr_scoped slots e ∧ P) True es).
Abbreviation stmts_with E slots ss := (foldr (λ s P, stmt_with E slots s ∧ P) True ss).
Abbreviation stmt_scoped slots s := (stmt_with (expr_scoped slots) slots s).
Abbreviation stmts_scoped slots ss := (stmts_with (expr_scoped slots) slots ss).

Definition function_scoped (f : Function) : Prop :=
  fn_param_count f ≤ fn_slots f ∧ stmts_scoped (fn_slots f) (fn_body f).

(** ** Costs *)

Lemma both_assoc a b c : a ⊕ (b ⊕ c) = a ⊕ b ⊕ c.
Proof. unfold both. cbn. f_equal; [lia|apply andb_assoc]. Qed.

Lemma free_both a : free ⊕ a = a.
Proof. by destruct a. Qed.

Lemma both_free a : a ⊕ free = a.
Proof. destruct a as [s b]. unfold both. cbn. by rewrite N.add_0_r, andb_true_r. Qed.

(** ** Cells *)

Lemma defined_app a b : defined (a ++ b) = defined a + defined b.
Proof. unfold defined. by rewrite filter_app, length_app. Qed.

Lemma defined_cons c ρ : defined (c :: ρ) = match c with Some _ => S (defined ρ) | None => defined ρ end.
Proof.
  unfold defined. destruct c as [v|]; [by rewrite filter_cons_True by eauto|].
  rewrite filter_cons_False; [done|]. by intros [].
Qed.

Lemma defined_args args n : defined ((Some <$> args) ++ replicate n None) = length args.
Proof.
  induction args as [|v args IH].
  - induction n as [|n IH]; [done|]. change (defined (None :: replicate n None) = 0). by rewrite defined_cons.
  - change (defined (Some v :: (Some <$> args) ++ replicate n None) = S (length args)). by rewrite defined_cons, IH.
Qed.

Lemma defined_insert i v cell ρ : ρ !! i = Some cell →
  defined (<[i := Some v]> ρ) = match cell with None => S (defined ρ) | Some _ => defined ρ end.
Proof.
  revert i. induction ρ as [|c ρ IH]; intros [|i] H; [done|done| |].
  - injection H as ->. change (<[0 := Some v]> (cell :: ρ)) with (Some v :: ρ). rewrite !defined_cons. by destruct cell.
  - change (<[S i := Some v]> (c :: ρ)) with (c :: <[i := Some v]> ρ). rewrite !defined_cons, (IH i H). by destruct c, cell.
Qed.

Lemma fill_args slots args : length args ≤ slots →
  fill (replicate slots None) args = ((Some <$> args) ++ replicate (slots - length args) None).
Proof.
  revert slots. induction args as [|v args IH]; intros [|slots] H; cbn in *; try lia; [done|done|].
  rewrite IH by lia. done.
Qed.

(** ** Machines *)

(** The machine that runs in the frame [ρ] above the frames [pre]. *)
Definition mach (pre ρ : frame) (d n : nat) (o : string) (f : N) : Machine :=
  mkMachine f (pre ++ ρ) (defined pre + defined ρ) d n o.

Definition place (pre : frame) (d n : nat) : Place := mkPlace (defined pre) d n.

Definition refutes (t : Trap) (f : N) (k : Cost) : Prop :=
  match t with
  | Timeout => (f < steps k)%N
  | Resource _ => fits k = false
  | Runtime _ => False
  end.

(** A run answers exactly what [R] relates: the frame, the output, the cost and
    the result of a run. *)
Section Meets.
Context {A : Type} (pre ρ : frame) (d n : nat) (f : N).

Definition answers (R : frame → string → Cost → A → Prop) (r : result Trap A) (m : Machine) : Prop :=
  match r with
  | Ok a => ∃ ρ' o k, m = mach pre ρ' d n o (f - steps k) ∧ (steps k <= f)%N ∧ fits k = true ∧
      length ρ' = length ρ ∧ defined pre + defined ρ' ≤ MAX_LOCALS ∧
      R ρ' o k a ∧ ∀ ρ'' o' k' a', R ρ'' o' k' a' → ρ'' = ρ' ∧ o' = o ∧ k' = k ∧ a' = a
  | Err t => (∃ ρ' o f', m = mach pre ρ' d n o f' ∧ length ρ' = length ρ) ∧
      ∀ ρ' o k a, R ρ' o k a → refutes t f k
  end.

Definition meets (R : frame → string → Cost → A → Prop) (x : option (result Trap A * Machine)) : Prop :=
  ∃ r m, x = Some (r, m) ∧ answers R r m.

Lemma meets_iff R R' x : meets R' x → (∀ ρ' o k a, R ρ' o k a ↔ R' ρ' o k a) → meets R x.
Proof.
  intros (r & m & -> & H) E. exists r, m. split; [done|]. destruct r as [a|t]; cbn in *.
  - destruct H as (ρ' & o & k & Hm & Hs & Hf & Hl & Hd & HR & HU). exists ρ', o, k.
    do 5 (split; [done|]). split; [by apply E|]. intros ρ'' o' k' a' H'%E. eauto.
  - destruct H as [Hm HR]. split; [done|]. intros ρ' o k a H%E. eauto.
Qed.

(** Ends of runs. *)
Lemma meets_ok R o a : defined pre + defined ρ ≤ MAX_LOCALS →
  (∀ ρ' o' k a', R ρ' o' k a' ↔ ρ' = ρ ∧ o' = o ∧ k = free ∧ a' = a) → meets R (mok a (mach pre ρ d n o f)).
Proof.
  intros Hd E. exists (Ok a), (mach pre ρ d n o f). split; [done|]. exists ρ, o, free. cbn.
  rewrite N.sub_0_r. split_and!; try done; [lia|by apply E|]. intros ρ'' o' k' a' H%E. done.
Qed.

Lemma meets_trap R o t : (∀ ρ' o' k a, R ρ' o' k a → refutes t f k) → meets R (trap t (mach pre ρ d n o f)).
Proof. intros H. exists (Err t), (mach pre ρ d n o f). split; [done|]. split; [by eauto|done]. Qed.
End Meets.

(** One after the other. *)
Definition andthen {A B} (R1 : frame → string → Cost → A → Prop)
    (R2 : frame → string → A → frame → string → Cost → B → Prop) : frame → string → Cost → B → Prop :=
  λ ρ'' o'' k b, ∃ ρ' o' k1 a k2, R1 ρ' o' k1 a ∧ R2 ρ' o' a ρ'' o'' k2 b ∧ k = k1 ⊕ k2.

Lemma refutes_shift t f k1 k2 : (steps k1 <= f)%N → refutes t (f - steps k1) k2 → refutes t f (k1 ⊕ k2).
Proof. destruct t; cbn; [lia| |done]. intros _ ->. apply andb_false_r. Qed.

Lemma refutes_first t f k1 k2 : refutes t f k1 → refutes t f (k1 ⊕ k2).
Proof. destruct t; cbn; [lia| |done]. by intros ->. Qed.

Lemma meets_bind {A B} pre ρ d n f R1 R2 (c : M A) (g : A → M B) m :
  meets pre ρ d n f R1 (c m) →
  (∀ ρ' o' k a, R1 ρ' o' k a → (steps k <= f)%N → length ρ' = length ρ →
     defined pre + defined ρ' ≤ MAX_LOCALS →
     meets pre ρ' d n (f - steps k) (R2 ρ' o' a) (g a (mach pre ρ' d n o' (f - steps k)))) →
  meets pre ρ d n f (andthen R1 R2) (mthen c g m).
Proof.
  intros (r & m1 & E & H) Hg. unfold mthen, meets. rewrite E. destruct r as [a|t]; cbn in H.
  - destruct H as (ρ' & o & k & -> & Hs & Hf & Hl & Hd & HR & HU).
    destruct (Hg _ _ _ _ HR Hs Hl Hd) as (r & m2 & E2 & H2). exists r, m2. split; [done|].
    destruct r as [b|t]; cbn in *.
    + destruct H2 as (ρ2 & o2 & k2 & -> & Hs2 & Hf2 & Hl2 & Hd2 & HR2 & HU2).
      exists ρ2, o2, (k ⊕ k2). cbn. rewrite Hf, Hf2. split_and!; try done; [f_equal; lia|lia|congruence|by exists ρ', o, k, a, k2|].
      intros ρ3 o3 k3 b3 (ρ1 & o1 & k1 & a1 & k1' & H1 & H2 & ->).
      apply HU in H1 as (-> & -> & -> & ->). by apply HU2 in H2 as (-> & -> & -> & ->).
    + destruct H2 as [(ρ2 & o2 & f2 & -> & Hl2) H2]. split; [exists ρ2, o2, f2; split; [done|congruence]|].
      intros ρ3 o3 k3 b3 (ρ1 & o1 & k1 & a1 & k1' & H1 & H3 & ->).
      apply HU in H1 as (-> & -> & -> & ->). apply refutes_shift; eauto.
  - exists (Err t), m1. split; [done|]. destruct H as [Hm HR]. split; [done|].
    intros ρ3 o3 k3 b3 (ρ1 & o1 & k1 & a1 & k1' & H1 & H3 & ->). eauto using refutes_first.
Qed.

(** Steps that cannot trap are computed. *)
Lemma mthen_ok {A B} (c : M A) (g : A → M B) m a m' : c m = Some (Ok a, m') → mthen c g m = g a m'.
Proof. unfold mthen. by intros ->. Qed.

Lemma read_cell pre ρ d n o f i cell : ρ !! i = Some cell →
  read i (length pre) (mach pre ρ d n o f) = Some (Ok cell, mach pre ρ d n o f).
Proof.
  intros H. unfold read. cbn. rewrite lookup_app_r by lia.
  replace (length pre + i - length pre) with i by lia. by rewrite H.
Qed.

Lemma write_cell pre ρ d n o f i cell v : ρ !! i = Some cell →
  write i (length pre) v (mkMachine f (pre ++ ρ) (defined pre + defined (<[i := Some v]> ρ)) d n o) =
  Some (Ok tt, mach pre (<[i := Some v]> ρ) d n o f).
Proof.
  intros H%lookup_lt_Some. unfold write, mach. cbn. rewrite decide_True by (rewrite length_app; lia).
  unfold set_locals. cbn. do 3 f_equal. rewrite insert_app_r_alt by lia. do 2 f_equal. lia.
Qed.

Lemma meets_charge pre ρ d n o f c : defined pre + defined ρ ≤ MAX_LOCALS →
  meets pre ρ d n f (λ ρ' o' k _, ρ' = ρ ∧ o' = o ∧ k = takes c) (charge c (mach pre ρ d n o f)).
Proof.
  intros Hd. unfold charge, meets. cbn [mach mc_fuel]. destruct (N.leb_spec c f) as [Hc|Hc].
  - exists (Ok tt), (mach pre ρ d n o (f - c)). split; [done|]. exists ρ, o, (takes c). cbn.
    split_and!; try done. intros ρ'' o' k' [] (-> & -> & ->). done.
  - exists (Err Timeout), (mach pre ρ d n o f). split; [done|]. split; [by eauto|].
    intros ρ' o' k [] (-> & -> & ->). cbn. lia.
Qed.

Lemma leave_mach pre ρ d n o f : leave (mach pre ρ d (S n) o f) = Some (mach pre ρ d n o f).
Proof. unfold leave, sub_usize. cbn -[decide]. rewrite decide_True by lia. cbn. by rewrite Nat.sub_0_r. Qed.

Lemma meets_enter {A} pre ρ d n o f R (c : M A) :
  (n < MAX_NATIVE_DEPTH → meets pre ρ d (S n) f R (c (mach pre ρ d (S n) o f))) →
  meets pre ρ d n f (λ ρ' o' k a, ∃ k', R ρ' o' k' a ∧ k = room (place pre d n) ⊕ k')
    (mthen enter (λ _, finally c leave) (mach pre ρ d n o f)).
Proof.
  intros H. unfold mthen, enter. cbn [mach mc_native]. destruct (decide (MAX_NATIVE_DEPTH ≤ n)) as [Hn|Hn].
  - apply meets_trap. intros ρ' o' k a (k' & _ & ->). cbn. by rewrite bool_decide_false by lia.
  - destruct H as (r & m & E & H); [lia|]. unfold finally, meets. cbn -[mach] in *.
    change (set_native (S n) (mach pre ρ d n o f)) with (mach pre ρ d (S n) o f). rewrite E.
    destruct r as [a|t]; cbn in H.
    + destruct H as (ρ' & o' & k & -> & Hs & Hf & Hl & Hd & HR & HU). rewrite leave_mach.
      eexists (Ok a), (mach pre ρ' d n o' (f - steps k)). split; [done|].
      exists ρ', o', (room (place pre d n) ⊕ k). cbn. rewrite bool_decide_true by lia.
      split_and!; try done; [by exists k|].
      intros ρ2 o2 k2 a2 (k' & (-> & -> & -> & ->)%HU & ->). done.
    + destruct H as [(ρ' & o' & f' & -> & Hl) H]. rewrite leave_mach.
      eexists (Err t), (mach pre ρ' d n o' f'). split; [done|]. split; [by eauto|].
      intros ρ2 o2 k2 a2 (k' & HR & ->). apply H in HR. destruct t; cbn in *; [done| |done].
      rewrite HR. apply andb_false_r.
Qed.

(** A run that ends where it is. *)
Definition stays {A} (ρ : frame) (o : string) (P : A → Prop) : frame → string → Cost → A → Prop :=
  λ ρ' o' k a, ρ' = ρ ∧ o' = o ∧ k = free ∧ P a.

Lemma meets_or_trap {A} pre ρ d n o f (x : option A) why (P : A → Prop) :
  defined pre + defined ρ ≤ MAX_LOCALS → (∀ a, P a ↔ x = Some a) →
  meets pre ρ d n f (stays ρ o P) (or_trap x (Runtime why) (mach pre ρ d n o f)).
Proof.
  intros Hd H. destruct x as [a|]; cbn.
  - apply meets_ok; [done|]. intros ρ' o' k a'. unfold stays. rewrite H. naive_solver.
  - apply meets_trap. intros ρ' o' k a (_ & _ & _ & Ha). cbn. by apply H in Ha.
Qed.

Lemma meets_stay {A} pre ρ d n o f (a : A) : defined pre + defined ρ ≤ MAX_LOCALS →
  meets pre ρ d n f (stays ρ o (λ a', a' = a)) (mok a (mach pre ρ d n o f)).
Proof. intros Hd. by apply meets_ok. Qed.

Lemma i64c_exact z w : (w = z ∧ fits_i64 z) ↔ i64c z = Some w.
Proof.
  unfold i64c, fits_i64. destruct (Z.leb_spec (- 2 ^ 63) z), (Z.ltb_spec z (2 ^ 63)); cbn [andb];
    split; try (intros [??]; lia); try (intros [= ->]; lia); try done.
  by intros [-> _].
Qed.

Lemma ok_or_exact z why w : ok_or (i64c z) (Runtime why) = Ok w ↔ w = z ∧ fits_i64 z.
Proof. rewrite i64c_exact. destruct (i64c z); cbn; naive_solver. Qed.

Lemma truth_eqb v w : truth (v =? w)%Z = truth (bool_decide (v = w)).
Proof. f_equal. apply eq_true_iff_eq. by rewrite Z.eqb_eq, bool_decide_eq_true. Qed.

Lemma truth_neqb v w : truth (negb (v =? w)%Z) = truth (bool_decide (v ≠ w)).
Proof. f_equal. apply eq_true_iff_eq. by rewrite negb_true_iff, Z.eqb_neq, bool_decide_eq_true. Qed.

Lemma truth_ltb v w : truth (v <? w)%Z = truth (bool_decide (v < w)%Z).
Proof. f_equal. apply eq_true_iff_eq. by rewrite Z.ltb_lt, bool_decide_eq_true. Qed.

Lemma truth_leb v w : truth (v <=? w)%Z = truth (bool_decide (v <= w)%Z).
Proof. f_equal. apply eq_true_iff_eq. by rewrite Z.leb_le, bool_decide_eq_true. Qed.

(** [apply] computes the strict operators. *)
Lemma apply_exact op a b w : strict op a b w ↔ apply op a b = Ok w.
Proof.
  destruct op; cbn [apply]; rewrite ?ok_or_exact;
    try (split; [inversion 1; subst; auto|intros [-> ?]; by constructor]).
  - destruct (Z.eqb_spec b 0) as [->|Hb]; [split; [by inversion 1|done]|]. rewrite ok_or_exact.
    split; [inversion 1; subst; auto|intros [-> ?]; by constructor].
  - destruct (Z.eqb_spec b 0) as [->|Hb]; [split; [by inversion 1|done]|].
    destruct (i64c (Z.quot a b)) as [q|] eqn:E; cbn.
    + apply i64c_exact in E as [_ E]. split; [by inversion 1|intros [= <-]; by constructor].
    + split; [|done]. inversion 1; subst.
      match goal with H : fits_i64 _ |- _ => pose proof (proj1 (i64c_exact _ _) (conj eq_refl H)) end. congruence.
  - rewrite truth_ltb. split; [by inversion 1|intros [= <-]; constructor].
  - rewrite truth_leb. split; [by inversion 1|intros [= <-]; constructor].
  - rewrite truth_ltb. split; [by inversion 1|intros [= <-]; constructor].
  - rewrite truth_leb. split; [by inversion 1|intros [= <-]; constructor].
  - rewrite truth_eqb. split; [by inversion 1|intros [= <-]; constructor].
  - rewrite truth_neqb. split; [by inversion 1|intros [= <-]; constructor].
  - split; [by inversion 1|done].
  - split; [by inversion 1|done].
Qed.

(** A run that ends with a result. *)
Lemma meets_done {A} pre ρ d n f (R : frame → string → Cost → A → Prop) ρ1 o1 b a :
  b = true → length ρ1 = length ρ → defined pre + defined ρ1 ≤ MAX_LOCALS →
  (∀ ρ' o' k a', R ρ' o' k a' ↔ ρ' = ρ1 ∧ o' = o1 ∧ k = needs b ∧ a' = a) →
  meets pre ρ d n f R (Some (Ok a, mach pre ρ1 d n o1 f)).
Proof.
  intros -> Hl Hd E. exists (Ok a), (mach pre ρ1 d n o1 f). split; [done|]. exists ρ1, o1, free. cbn.
  rewrite N.sub_0_r. split_and!; try done; [lia|by apply E|]. intros ρ'' o' k' a' H%E. done.
Qed.

(** ** The interpreter *)

Section Exact.
Context (functions : gmap string Function).

Definition eval_exact (eval : Expr → nat → M Z) (n : nat) : Prop := ∀ pre ρ e d o f,
  expr_scoped (length ρ) e → defined pre + defined ρ ≤ MAX_LOCALS →
  meets pre ρ d n f (λ ρ' o' k v, ρ' = ρ ∧ evals functions (place pre d n) ρ e o o' k v)
    (eval e (length pre) (mach pre ρ d n o f)).

Definition block_exact (block : list Stmt → nat → M (option Z)) (n : nat) : Prop := ∀ pre ρ ss d o f,
  stmts_scoped (length ρ) ss → defined pre + defined ρ ≤ MAX_LOCALS →
  meets pre ρ d n f (block_runs functions (place pre d n) ρ ss o) (block ss (length pre) (mach pre ρ d n o f)).

Section Level.
Context (eval : Expr → nat → M Z) (block : list Stmt → nat → M (option Z)) (n : nat).
Hypothesis Heval : eval_exact eval n.
Hypothesis Hblock : block_exact block n.
Hypothesis Hscoped : map_Forall (λ _, function_scoped) functions.

Abbreviation at_ pre d := (place pre d n).

(** An expression, and then the rest. *)
Lemma meets_expr_le {B} pre ρ e d o f (g : Z → M B) R2 R :
  expr_scoped (length ρ) e → defined pre + defined ρ ≤ MAX_LOCALS →
  (∀ o' f' v, (f' <= f)%N → meets pre ρ d n f' (R2 o' v) (g v (mach pre ρ d n o' f'))) →
  (∀ ρ' o' k b, R ρ' o' k b ↔
     ∃ o1 k1 v k2, evals functions (at_ pre d) ρ e o o1 k1 v ∧ R2 o1 v ρ' o' k2 b ∧ k = k1 ⊕ k2) →
  meets pre ρ d n f R (mthen (eval e (length pre)) g (mach pre ρ d n o f)).
Proof.
  intros He Hd Hg HR. eapply meets_iff.
  - eapply (meets_bind _ _ _ _ _ _ (λ ρ1 o1 v ρ' o' k b, ρ1 = ρ ∧ R2 o1 v ρ' o' k b)); [by apply Heval|].
    intros ρ1 o1 k v [-> _] _ _ _. eapply meets_iff; [apply Hg; lia|]. naive_solver.
  - intros ρ' o' k b. rewrite HR. unfold andthen. split.
    + intros (o1 & k1 & v & k2 & H1 & H2 & ->). by exists ρ, o1, k1, v, k2.
    + intros (ρ1 & o1 & k1 & v & k2 & [-> H1] & [_ H2] & ->). by exists o1, k1, v, k2.
Qed.

Lemma meets_expr {B} pre ρ e d o f (g : Z → M B) R2 R :
  expr_scoped (length ρ) e → defined pre + defined ρ ≤ MAX_LOCALS →
  (∀ o' f' v, meets pre ρ d n f' (R2 o' v) (g v (mach pre ρ d n o' f'))) →
  (∀ ρ' o' k b, R ρ' o' k b ↔
     ∃ o1 k1 v k2, evals functions (at_ pre d) ρ e o o1 k1 v ∧ R2 o1 v ρ' o' k2 b ∧ k = k1 ⊕ k2) →
  meets pre ρ d n f R (mthen (eval e (length pre)) g (mach pre ρ d n o f)).
Proof. eauto using meets_expr_le. Qed.

(** Relates a rule of the semantics with the steps of the interpreter: by
    inversion one way, by the rule the other way. *)
Ltac unpack := repeat match goal with
  | H : ∃ _, _ |- _ => destruct H
  | H : _ ∧ _ |- _ => destruct H
  | H : _ ∨ _ |- _ => destruct H
  end; subst.

Ltac by_inversion := match goal with
  | H : node_evals _ _ _ _ _ _ _ _ |- _ => inversion H; subst; clear H
  | H : args_eval _ _ _ _ _ _ _ _ |- _ => inversion H; subst; clear H
  | H : stmt_runs _ _ _ _ _ _ _ _ _ |- _ => inversion H; subst; clear H
  end;
  try done; try (match goal with H : strict _ _ _ _ |- _ => by inversion H end);
  eauto 20 using both_free, eq_sym.

Ltac by_rule :=
  unfold stays; intros; split;
  [ intros; unpack; by_inversion
  | intros; unpack; rewrite ?both_free, ?free_both; split_and?; try done; econstructor; by eauto ].

(** The runs of a node. *)
Definition node_is (pre ρ : frame) (d : nat) (kind : ExprKind) (o : string) : frame → string → Cost → Z → Prop :=
  λ ρ' o' k v, ρ' = ρ ∧ node_evals functions (at_ pre d) ρ kind o o' k v.

Section Node.
Context (pre ρ : frame) (d : nat) (o : string) (f : N).
Hypothesis Hd : defined pre + defined ρ ≤ MAX_LOCALS.

Lemma node_neg_exact e : expr_scoped (length ρ) e →
  meets pre ρ d n f (node_is pre ρ d (KNeg e) o)
    (mthen (eval e (length pre)) (λ v, or_trap (i64c (- v)) (Runtime "integer overflow")) (mach pre ρ d n o f)).
Proof.
  intros He. eapply (meets_expr _ _ _ _ _ _ _ (λ o1 v, stays ρ o1 (λ w, w = (- v)%Z ∧ fits_i64 (- v)))); [done|done| |].
  - intros. apply meets_or_trap; [done|]. intros. apply i64c_exact.
  - unfold node_is. by_rule.
Qed.

Lemma node_not_exact e : expr_scoped (length ρ) e →
  meets pre ρ d n f (node_is pre ρ d (KNot e) o)
    (mthen (eval e (length pre)) (λ v, mok (truth (v =? 0)%Z)) (mach pre ρ d n o f)).
Proof.
  intros He. eapply (meets_expr _ _ _ _ _ _ _ (λ o1 v, stays ρ o1 (λ w, w = truth (bool_decide (v = 0%Z))))); [done|done| |].
  - intros. rewrite truth_eqb. by apply meets_stay.
  - unfold node_is. by_rule.
Qed.

(** The second operand of [&&] and [||]. *)
Definition truth_of (r : Expr) (o1 : string) : frame → string → Cost → Z → Prop := λ ρ' o' k v,
  ρ' = ρ ∧ ∃ b, evals functions (at_ pre d) ρ r o1 o' k b ∧ v = truth (bool_decide (b ≠ 0%Z)).

Lemma truth_of_exact r o1 f1 : expr_scoped (length ρ) r →
  meets pre ρ d n f1 (truth_of r o1)
    (mthen (eval r (length pre)) (λ b, mok (truth (negb (b =? 0)%Z))) (mach pre ρ d n o1 f1)).
Proof.
  intros Hr. eapply (meets_expr _ _ _ _ _ _ _ (λ o2 v, stays ρ o2 (λ w, w = truth (bool_decide (v ≠ 0%Z))))); [done|done| |].
  - intros. rewrite truth_neqb. by apply meets_stay.
  - unfold stays, truth_of. intros ρ' o' k v. split.
    + intros (-> & b & H & ->). exists o', k, b, free. by rewrite both_free.
    + intros (o2 & k1 & b & k2 & H & (-> & -> & -> & ->) & ->). rewrite both_free. eauto.
Qed.

Lemma node_and_exact l r : expr_scoped (length ρ) l → expr_scoped (length ρ) r →
  meets pre ρ d n f (node_is pre ρ d (KBin And l r) o)
    (mthen (eval l (length pre)) (λ a, if (a =? 0)%Z then mok 0%Z
       else mthen (eval r (length pre)) (λ b, mok (truth (negb (b =? 0)%Z)))) (mach pre ρ d n o f)).
Proof.
  intros Hl Hr. eapply (meets_expr _ _ _ _ _ _ _ (λ o1 a ρ' o' k v,
    (a = 0%Z ∧ stays ρ o1 (λ w, w = 0%Z) ρ' o' k v) ∨ (a ≠ 0%Z ∧ truth_of r o1 ρ' o' k v))); [done|done| |].
  - intros o1 f1 a. destruct (Z.eqb_spec a 0) as [->|Ha].
    + eapply meets_iff; [by apply meets_stay|]. naive_solver.
    + eapply meets_iff; [by apply truth_of_exact|]. naive_solver.
  - unfold node_is, truth_of. by_rule.
Qed.

Lemma node_or_exact l r : expr_scoped (length ρ) l → expr_scoped (length ρ) r →
  meets pre ρ d n f (node_is pre ρ d (KBin Or l r) o)
    (mthen (eval l (length pre)) (λ a, if negb (a =? 0)%Z then mok 1%Z
       else mthen (eval r (length pre)) (λ b, mok (truth (negb (b =? 0)%Z)))) (mach pre ρ d n o f)).
Proof.
  intros Hl Hr. eapply (meets_expr _ _ _ _ _ _ _ (λ o1 a ρ' o' k v,
    (a ≠ 0%Z ∧ stays ρ o1 (λ w, w = 1%Z) ρ' o' k v) ∨ (a = 0%Z ∧ truth_of r o1 ρ' o' k v))); [done|done| |].
  - intros o1 f1 a. destruct (Z.eqb_spec a 0) as [->|Ha]; cbn [negb].
    + eapply meets_iff; [by apply truth_of_exact|]. naive_solver.
    + eapply meets_iff; [by apply meets_stay|]. naive_solver.
  - unfold node_is, truth_of. by_rule.
Qed.
Lemma node_bin_exact op l r : expr_scoped (length ρ) l → expr_scoped (length ρ) r → op ≠ And → op ≠ Or →
  meets pre ρ d n f (node_is pre ρ d (KBin op l r) o)
    (mthen (eval l (length pre)) (λ a, mthen (eval r (length pre)) (λ b,
       match apply op a b with Ok v => mok v | Err t => trap t end)) (mach pre ρ d n o f)).
Proof.
  intros Hl Hr HA HO. eapply (meets_expr _ _ _ _ _ _ _ (λ o1 a ρ' o' k v,
    ρ' = ρ ∧ ∃ b, evals functions (at_ pre d) ρ r o1 o' k b ∧ strict op a b v)); [done|done| |].
  - intros o1 f1 a. eapply (meets_expr _ _ _ _ _ _ _ (λ o2 b, stays ρ o2 (strict op a b))); [done|done| |].
    + intros o2 f2 b. destruct (apply op a b) as [v|t] eqn:E.
      * apply meets_ok; [done|]. unfold stays. intros. rewrite apply_exact, E. naive_solver.
      * apply meets_trap. intros ? ? ? ? (_ & _ & _ & H%apply_exact). congruence.
    + unfold stays. intros ρ' o' k v. split.
      * intros (-> & b & H & Hs). exists o', k, b, free. by rewrite both_free.
      * intros (o2 & k1 & b & k2 & H & (-> & -> & -> & Hs) & ->). rewrite both_free. eauto.
  - unfold node_is. by_rule.
Qed.
End Node.

Lemma args_exact pre ρ d es acc o f : exprs_scoped (length ρ) es → defined pre + defined ρ ≤ MAX_LOCALS →
  meets pre ρ d n f (λ ρ' o' k vs, ρ' = ρ ∧ ∃ vs', args_eval functions (at_ pre d) ρ es o o' k vs' ∧ vs = (acc ++ vs'))
    (eval_args eval es (length pre) acc (mach pre ρ d n o f)).
Proof.
  revert acc o f. induction es as [|e es IH]; intros acc o f Hes Hd; cbn [eval_args].
  - eapply meets_iff; [by apply meets_stay|]. unfold stays. intros ρ' o' k vs. split.
    + intros (-> & vs' & H & ->). inversion H; subst. by rewrite app_nil_r.
    + intros (-> & -> & -> & ->). split; [done|]. exists []. by rewrite app_nil_r; split; [constructor|].
  - destruct Hes as [He Hes]. eapply (meets_expr _ _ _ _ _ _ _ (λ o1 v ρ' o' k vs,
      ρ' = ρ ∧ ∃ vs', args_eval functions (at_ pre d) ρ es o1 o' k vs' ∧ vs = ((acc ++ [v]) ++ vs'))); [done|done| |].
    + intros o1 f1 v. by apply IH.
    + intros ρ' o' k vs. split.
      * intros (-> & vs' & H & ->). inversion H; subst. do 4 eexists. split_and!; [done|done| |done].
        eexists. split; [done|]. by rewrite <- app_assoc.
      * intros (o1 & k1 & v & k2 & H1 & (-> & vs' & H2 & ->) & ->). split; [done|]. exists (v :: vs').
        split; [by econstructor|]. by rewrite <- app_assoc.
Qed.

Lemma sub_usize_ok a b : b ≤ a → sub_usize a b = Some (a - b).
Proof. intros H. unfold sub_usize. by rewrite decide_True. Qed.

Lemma leave_call_mach pre ρ ρ' d o f :
  leave_call (length (pre ++ ρ)) (mach (pre ++ ρ) ρ' (S d) n o f) = Some (mach pre ρ d n o f).
Proof.
  unfold leave_call. cbn [mach mc_depth mc_live mc_locals]. rewrite drop_app_length.
  rewrite (sub_usize_ok (S d)) by lia. cbn [mbind option_bind]. rewrite sub_usize_ok by lia. cbn.
  rewrite take_app_length, defined_app. unfold set_locals, mach. cbn. do 2 f_equal; lia.
Qed.

(** The body of a call runs in a frame of its own, which is gone afterwards. *)
Lemma call_body_exact pre ρ d fn args o f : function_scoped fn → length args = fn_param_count fn →
  defined pre + defined ρ + length args ≤ MAX_LOCALS →
  meets pre ρ d n f (λ ρ' o' k r, ρ' = ρ ∧ ∃ ρ2, block_runs functions (mkPlace (defined pre + defined ρ) (S d) n)
      ((Some <$> args) ++ replicate (fn_slots fn - length args) None) (fn_body fn) o ρ2 o' k r)
    (call_body block fn args (mach pre ρ d n o f)).
Proof.
  intros [Hp Hb] Ha Hd. unfold call_body. cbn [mach mc_locals]. rewrite fill_args by lia.
  set (ρ0 := ((Some <$> args) ++ _)).
  assert (E0 : defined ρ0 = length args) by apply defined_args.
  assert (El : length ρ0 = fn_slots fn) by (unfold ρ0; rewrite length_app, length_fmap, length_replicate; lia).
  match goal with |- context [finally _ _ ?m] => replace m with (mach (pre ++ ρ) ρ0 (S d) n o f) end.
  2: { unfold mach, set_locals, set_live, set_depth. cbn. by rewrite defined_app, E0. }
  destruct (Hblock (pre ++ ρ) ρ0 (fn_body fn) (S d) o f) as (r & m & E & H);
    [by rewrite El|rewrite defined_app; lia|].
  unfold finally, meets. rewrite E. unfold place in H. rewrite defined_app in H.
  destruct r as [a|t]; cbn in H.
  - destruct H as (ρ' & o' & k & -> & Hs & Hf & Hl & _ & HR & HU).
    rewrite leave_call_mach. exists (Ok a), (mach pre ρ d n o' (f - steps k)). split; [done|].
    exists ρ, o', k. split_and!; try done; [lia|by exists ρ'|].
    intros ρ2 o2 k2 a2 (-> & ρ3 & (-> & -> & -> & ->)%HU). done.
  - destruct H as [(ρ' & o' & f' & -> & _) H]. rewrite leave_call_mach.
    exists (Err t), (mach pre ρ d n o' f'). split; [done|]. split; [by eauto|].
    intros ρ2 o2 k2 a2 (-> & ρ3 & HR). eauto.
Qed.

Definition call_is (pre ρ : frame) (d : nat) (name : string) (args : list Z) (o : string) :
    frame → string → Cost → Z → Prop :=
  λ ρ' o' k v, ρ' = ρ ∧ calls functions (mkPlace (defined pre + defined ρ) d n) name args o o' k v.

Lemma call_exact pre ρ d name args o f : defined pre + defined ρ ≤ MAX_LOCALS →
  meets pre ρ d n f (call_is pre ρ d name args o) (call functions block name args (mach pre ρ d n o f)).
Proof.
  intros Hd. unfold call. destruct (functions !! name) as [fn|] eqn:Ef; cbn [or_trap mthen mok].
  2: { apply meets_trap. intros ρ' o' k v [_ H]. inversion H. congruence. }
  unfold mthen at 1, mok. destruct (Nat.eqb_spec (fn_param_count fn) (length args)) as [Ha|Ha]; cbn [negb].
  2: { apply meets_trap. intros ρ' o' k v [_ H]. inversion H. cbn. congruence. }
  cbn [mach mc_depth mc_live].
  destruct (decide (MAX_CALL_DEPTH ≤ d)) as [Hc|Hc].
  { apply meets_trap. intros ρ' o' k v [_ H]. inversion H; subst. cbn. by rewrite bool_decide_false by lia. }
  destruct (decide (MAX_LOCALS < defined pre + defined ρ + length args)) as [Hm|Hm].
  { apply meets_trap. intros ρ' o' k v [_ H]. inversion H; subst. cbn.
    by rewrite (bool_decide_false (_ + _ ≤ _)), andb_false_r by lia. }
  eapply meets_iff.
  - eapply (meets_bind _ _ _ _ _ _ (λ ρ1 o1 _, andthen (λ ρ' o' k r, ρ1 = ρ ∧ ρ' = ρ ∧ ∃ ρ2,
        block_runs functions (mkPlace (defined pre + defined ρ) (S d) n)
          ((Some <$> args) ++ replicate (fn_slots fn - length args) None) (fn_body fn) o1 ρ2 o' k r)
        (λ ρ2 o2 r, stays ρ2 o2 (λ v, r = Some v)))); [by apply meets_charge|].
    intros ρ1 o1 k1 [] (-> & -> & ->) _ _ _. eapply meets_bind.
    + eapply meets_iff; [apply call_body_exact; [by eapply Hscoped|done|lia]|]. naive_solver.
    + intros ρ2 o2 k2 r (_ & -> & _) _ _ _. apply meets_or_trap; [done|]. naive_solver.
  - intros ρ' o' k v. unfold andthen, stays, call_is. split.
    + intros [-> H]. inversion H as [p nm fn' args' o1 o2 ρ2 k' v' Ef' Hl Hb]; subst. cbn [outer calls_open levels] in *.
      rewrite !bool_decide_true by lia. change (needs true) with free. rewrite !free_both.
      replace fn' with fn in * by congruence. exists ρ, o, (takes (N.of_nat (fn_slots fn))), tt, k'. split_and!; [done..| |done].
      exists ρ, o', k', (Some v), free. rewrite both_free. eauto 10.
    + intros (ρ1 & o1 & k1 & [] & k2 & (-> & -> & ->) & (ρ3 & o3 & k3 & r & k4 & (_ & -> & ρ2 & Hb) & (-> & -> & -> & ->) & ->) & ->).
      split; [done|]. rewrite both_free.
      pose proof (calls_intro functions (mkPlace (defined pre + defined ρ) d n) name fn args o o3 ρ2 k3 v Ef) as H.
      cbn [outer calls_open levels] in H. rewrite !bool_decide_true in H by lia.
      change (needs true) with free in H. rewrite !free_both in H. by apply H.
Qed.

Lemma node_call_exact pre ρ d name args o f : exprs_scoped (length ρ) args → defined pre + defined ρ ≤ MAX_LOCALS →
  meets pre ρ d n f (node_is pre ρ d (KCall name args) o)
    (eval_call functions eval block name args (length pre) (mach pre ρ d n o f)).
Proof.
  intros Ha Hd. unfold eval_call. eapply meets_iff.
  - eapply (meets_bind _ _ _ _ _ _ (λ ρ1 o1 vs ρ' o' k v, ρ1 = ρ ∧ call_is pre ρ d name vs o1 ρ' o' k v)); [by apply args_exact|].
    intros ρ1 o1 k1 vs [-> _] _ _ _. eapply meets_iff; [by apply call_exact|]. naive_solver.
  - unfold andthen, node_is, call_is. intros ρ' o' k v. split.
    + intros [-> H]. inversion H; subst. do 5 eexists. split_and!; [done| |done|done| |done]; eauto. 
    + intros (ρ1 & o1 & k1 & vs & k2 & (-> & vs' & H1 & ->) & (_ & -> & H2) & ->). split; [done|]. by econstructor.
Qed.

Lemma eval_node_exact pre ρ e d o f : expr_scoped (length ρ) e → defined pre + defined ρ ≤ MAX_LOCALS →
  meets pre ρ d n f (andthen (λ ρ' o' k _, ρ' = ρ ∧ o' = o ∧ k = takes 1) (λ _ o1 (_ : unit), node_is pre ρ d (ex_kind e) o1))
    (eval_node functions eval block e (length pre) (mach pre ρ d n o f)).
Proof.
  intros He Hd. apply meets_bind; [by apply meets_charge|]. intros ρ1 o1 k1 [] (-> & -> & ->) _ _ _.
  destruct e as [h kind]. cbn [ex_kind expr_scoped] in *.
  destruct kind as [v|i|e|e|op l r|name args].
  - eapply meets_iff; [by apply meets_stay|]. unfold node_is. by_rule.
  - destruct (lookup_lt_is_Some_2 ρ i He) as [cell Ec].
    erewrite mthen_ok by (by apply read_cell). eapply meets_iff; [by apply (meets_or_trap _ _ _ _ _ _ _ _ (λ v, cell = Some v))|].
    unfold node_is, stays. intros ρ' o' k v. split.
    + intros [-> H]. inversion H; subst. split_and!; congruence.
    + intros (-> & -> & -> & ->). split; [done|]. by constructor.
  - by apply node_neg_exact.
  - by apply node_not_exact.
  - destruct He as [Hl Hr]. destruct op; try (by apply node_bin_exact); [by apply node_and_exact|by apply node_or_exact].
  - by apply node_call_exact.
Qed.
(** What a [let] and an assignment do behind the expression. *)
Lemma let_end_exact pre ρ d o f i v : i < length ρ → defined pre + defined ρ ≤ MAX_LOCALS →
  meets pre ρ d n f
    (λ ρ' o' k r, ρ' = <[i := Some v]> ρ ∧ o' = o ∧
       k = needs (bool_decide (defined pre + defined (<[i := Some v]> ρ) ≤ MAX_LOCALS)) ∧ r = None)
    (mthen (read i (length pre)) (λ cell,
       mthen (match cell with
              | None => λ m, if decide (MAX_LOCALS ≤ mc_live m) then trap (Resource "memory bound exceeded") m
                             else Some (Ok tt, set_live (S (mc_live m)) m)
              | Some _ => mok tt
              end) (λ _, mthen (write i (length pre) v) (λ _, mok (None : option Z)))) (mach pre ρ d n o f)).
Proof.
  intros [cell Ec]%lookup_lt_is_Some_2 Hd. erewrite mthen_ok by (by apply read_cell).
  pose proof (defined_insert i v cell ρ Ec) as Ed. destruct cell as [w|]; unfold mthen at 1, mok at 1.
  - assert (Em : mach pre ρ d n o f = mkMachine f (pre ++ ρ) (defined pre + defined (<[i := Some v]> ρ)) d n o)
      by (unfold mach; by rewrite Ed).
    rewrite Em. erewrite mthen_ok by (by eapply write_cell).
    eapply meets_done; [|by rewrite length_insert|lia|done]. apply bool_decide_true. lia.
  - cbn [mach mc_live]. destruct (decide (MAX_LOCALS ≤ defined pre + defined ρ)) as [Hm|Hm].
    + apply meets_trap. intros ρ' o' k r (_ & _ & -> & _). cbn. rewrite bool_decide_false by lia. done.
    + assert (Em : set_live (S (defined pre + defined ρ)) (mach pre ρ d n o f) =
        mkMachine f (pre ++ ρ) (defined pre + defined (<[i := Some v]> ρ)) d n o)
        by (unfold mach, set_live; cbn; f_equal; lia).
      rewrite Em. erewrite mthen_ok by (by eapply write_cell).
      eapply meets_done; [|by rewrite length_insert|lia|done]. apply bool_decide_true. lia.
Qed.

Lemma assign_end_exact pre ρ d o f i v : i < length ρ → defined pre + defined ρ ≤ MAX_LOCALS →
  meets pre ρ d n f (λ ρ' o' k r, (∃ w, ρ !! i = Some (Some w)) ∧ ρ' = <[i := Some v]> ρ ∧ o' = o ∧ k = free ∧ r = None)
    (mthen (read i (length pre)) (λ cell,
       match cell with
       | None => trap (Runtime "assignment to an undeclared variable")
       | Some _ => mthen (write i (length pre) v) (λ _, mok (None : option Z))
       end) (mach pre ρ d n o f)).
Proof.
  intros [cell Ec]%lookup_lt_is_Some_2 Hd. erewrite mthen_ok by (by apply read_cell).
  pose proof (defined_insert i v cell ρ Ec) as Ed. destruct cell as [w|].
  - assert (Em : mach pre ρ d n o f = mkMachine f (pre ++ ρ) (defined pre + defined (<[i := Some v]> ρ)) d n o)
      by (unfold mach; by rewrite Ed).
    rewrite Em. erewrite mthen_ok by (by eapply write_cell).
    eapply (meets_done _ _ _ _ _ _ _ _ true); [done|by rewrite length_insert|lia|]. naive_solver.
  - apply meets_trap. intros ρ' o' k r [[w E] _]. congruence.
Qed.

Lemma print_end_exact pre ρ d o f v : defined pre + defined ρ ≤ MAX_LOCALS →
  meets pre ρ d n f
    (λ ρ' o' k r, ρ' = ρ ∧ o' = o +:+ print_text v ∧
       k = needs (bool_decide (slen (o +:+ print_text v) <= MAX_OUTPUT_BYTES)%N) ∧ r = None)
    (mthen (print v) (λ _, mok (None : option Z)) (mach pre ρ d n o f)).
Proof.
  intros Hd. unfold mthen, print. cbn [mach mc_output].
  assert (E : slen (o +:+ print_text v) = (slen o + slen (print_text v))%N)
    by (unfold slen; by rewrite str_bytes_app, blen_app).
  destruct (N.ltb_spec MAX_OUTPUT_BYTES (slen o + slen (print_text v))) as [Hm|Hm].
  - apply meets_trap. intros ρ' o' k r (_ & _ & -> & _). cbn. rewrite bool_decide_false by lia. done.
  - eapply meets_done; [|done|lia|done]. apply bool_decide_true. lia.
Qed.

(** The loop of [while], behind a condition that held. *)
Definition round_runs (p : Place) (ρ : frame) (c : Expr) (body : list Stmt) (o : string) :
    frame → string → Cost → option Z → Prop :=
  andthen (λ ρ' o' k (_ : unit), ρ' = ρ ∧ o' = o ∧ k = takes 1) (λ _ o1 _,
    andthen (block_runs functions p ρ body o1) (λ ρ2 o2 r,
      match r with
      | Some v => stays ρ2 o2 (λ r', r' = Some v)
      | None => loop_runs functions p ρ2 c body o2
      end)).

Lemma loop_split p ρ c body o ρ' o' k r : loop_runs functions p ρ c body o ρ' o' k r ↔
  ∃ o1 k1 v k2, evals functions p ρ c o o1 k1 v ∧
    ((v = 0%Z ∧ stays ρ o1 (λ r, r = None) ρ' o' k2 r) ∨ (v ≠ 0%Z ∧ round_runs p ρ c body o1 ρ' o' k2 r)) ∧ k = k1 ⊕ k2.
Proof.
  unfold round_runs, andthen, stays. split.
  - inversion 1; subst.
    + exists o', k, 0%Z, free. rewrite both_free. split_and!; [done|by left|done].
    + do 4 eexists. split_and!; [done|right; split; [done|]|by rewrite <- both_assoc].
      do 5 eexists. split_and!; [done..| |done]. exists ρ', o', k2, (Some r0), free. rewrite both_free. done.
    + do 4 eexists. split_and!; [done|right; split; [done|]|by rewrite <- !both_assoc].
      do 5 eexists. split_and!; [done..| |done]. do 5 eexists. split_and!; [done|done|done].
  - intros (o1 & k1 & v & k2 & Hc & [[-> (-> & -> & -> & ->)]|[Hv H]] & ->).
    + rewrite both_free. by constructor.
    + destruct H as (ρ1 & o2 & k3 & [] & k4 & (-> & -> & ->) & (ρ2 & o3 & k5 & r1 & k6 & Hb & Hr & ->) & ->).
      destruct r1 as [w|]; [destruct Hr as (-> & -> & -> & ->)|]; rewrite ?both_free, !both_assoc; econstructor; eauto.
Qed.

Lemma while_exact fuel pre ρ d o f c body : expr_scoped (length ρ) c → stmts_scoped (length ρ) body →
  defined pre + defined ρ ≤ MAX_LOCALS → (f <= N.of_nat fuel)%N →
  meets pre ρ d n f (loop_runs functions (at_ pre d) ρ c body o)
    (while_loop eval block fuel c body (length pre) (mach pre ρ d n o f)).
Proof.
  revert ρ o f. induction fuel as [|fuel IH]; intros ρ o f Hc Hb Hd Hf; cbn [while_loop].
  all: eapply (meets_expr_le _ _ _ _ _ _ _ (λ o1 v ρ' o' k r,
    (v = 0%Z ∧ stays ρ o1 (λ r, r = None) ρ' o' k r) ∨ (v ≠ 0%Z ∧ round_runs (at_ pre d) ρ c body o1 ρ' o' k r)));
    [done|done| |apply loop_split].
  all: intros o1 f1 v Hf1; destruct (Z.eqb_spec v 0) as [->|Hv];
    [eapply meets_iff; [by apply meets_stay|naive_solver]|].
  all: apply (meets_iff _ _ _ _ _ _ (round_runs (at_ pre d) ρ c body o1)); [|naive_solver].
  all: apply meets_bind; [by apply meets_charge|]; intros ρ1 o2 k1 [] (-> & -> & ->) Hs _ _; cbn [steps takes] in *.
  { lia. }
  apply meets_bind; [by apply Hblock|]. intros ρ2 o3 k2 r _ Hs2 Hl2 Hd2. destruct r as [w|]; [by apply meets_stay|].
  apply IH; [by rewrite Hl2|by rewrite Hl2|done|lia].
Qed.

Lemma stmt_exact pre ρ s d o f : stmt_scoped (length ρ) s → defined pre + defined ρ ≤ MAX_LOCALS →
  meets pre ρ d n f (andthen (λ ρ' o' k _, ρ' = ρ ∧ o' = o ∧ k = takes 1)
      (λ _ o1 (_ : unit), stmt_runs functions (at_ pre d) ρ s o1))
    (statement eval block s (length pre) (mach pre ρ d n o f)).
Proof.
  intros Hs Hd. apply meets_bind; [by apply meets_charge|]. intros ρ1 o1 k1 [] (-> & -> & ->) _ _ _.
  generalize (f - steps (takes 1))%N as f1. intros f1.
  destruct s as [i e|i e|e|e|c yes no|c body]; cbn [stmt_with] in Hs.
  - destruct Hs as [Hi He]. eapply meets_expr; [done|done| |].
    + intros. by apply let_end_exact.
    + apply lookup_lt_is_Some_2 in Hi as [cell Ec]. by_rule.
  - destruct Hs as [Hi He]. eapply meets_expr; [done|done| |].
    + intros. by apply assign_end_exact.
    + by_rule.
  - eapply meets_expr; [done|done|intros; by apply meets_stay|]. by_rule.
  - eapply meets_expr; [done|done|intros; by apply print_end_exact|]. by_rule.
  - destruct Hs as (Hc & Hy & Hn). eapply (meets_expr _ _ _ _ _ _ _ (λ o1 v,
      block_runs functions (at_ pre d) ρ (if decide (v = 0%Z) then no else yes) o1)); [done|done| |].
    + intros o2 f2 v. destruct (Z.eqb_spec v 0) as [->|Hv]; cbn [negb].
      * rewrite decide_True by done. by apply Hblock.
      * rewrite decide_False by done. by apply Hblock.
    + by_rule.
  - destruct Hs as [Hc Hb]. eapply meets_iff; [apply while_exact; [done|done|done|cbn; lia]|]. by_rule.
Qed.
Lemma seq_exact pre ρ ss d o f : stmts_scoped (length ρ) ss → defined pre + defined ρ ≤ MAX_LOCALS →
  meets pre ρ d n f (seq_runs functions (at_ pre d) ρ ss o) (run_block eval block ss (length pre) (mach pre ρ d n o f)).
Proof.
  revert ρ o f. induction ss as [|s ss IH]; intros ρ o f Hss Hd; cbn [run_block].
  - eapply meets_iff; [by apply meets_stay|]. unfold stays. intros ρ' o' k r. split.
    + by inversion 1.
    + intros (-> & -> & -> & ->). constructor.
  - destruct Hss as [Hs Hss]. eapply meets_iff.
    + eapply (meets_bind _ _ _ _ _ _ (λ ρ2 o2 r, match r with
        | Some v => stays ρ2 o2 (λ r', r' = Some v) | None => seq_runs functions (at_ pre d) ρ2 ss o2 end)); [by apply stmt_exact|].
      intros ρ2 o2 k2 r _ _ Hl Hd2. destruct r as [v|]; [by apply meets_stay|]. apply IH; [by rewrite Hl|done].
    + intros ρ' o' k r. unfold andthen, stays. split.
      * inversion 1; subst.
        -- exists ρ', o', (takes 1 ⊕ k0), (Some v), free. rewrite both_free. split_and!; [|done..].
           exists ρ, o, (takes 1), tt, k0. done.
        -- exists ρ1, o1, (takes 1 ⊕ k1), None, k2. split_and!; [|done..]. exists ρ, o, (takes 1), tt, k1. done.
      * intros (ρ2 & o2 & k2 & r2 & k3 & (ρ1 & o1 & k1 & [] & k4 & (-> & -> & ->) & H1 & ->) & H2 & ->).
        destruct r2 as [v|]; [destruct H2 as (-> & -> & -> & ->); rewrite both_free|]; by econstructor.
Qed.
End Level.

Theorem interpreter_exact fuel n : map_Forall (λ _, function_scoped) functions →
  n + fuel = NATIVE_FUEL → n ≤ MAX_NATIVE_DEPTH →
  eval_exact (eval functions fuel) n ∧ block_exact (block functions fuel) n.
Proof.
  intros Hfs. revert n. induction fuel as [|fuel IH]; intros n Hn Hle; [unfold NATIVE_FUEL in *; lia|].
  assert (Hin : n < MAX_NATIVE_DEPTH → eval_exact (eval functions fuel) (S n) ∧ block_exact (block functions fuel) (S n))
    by (intros; apply IH; lia).
  split.
  - intros pre ρ e d o f He Hd. cbn [eval]. eapply meets_iff.
    + apply meets_enter. intros [He' Hb']%Hin. by apply eval_node_exact.
    + unfold andthen, node_is. intros ρ' o' k v. split.
      * intros [-> H]. inversion H; subst. eexists. split; [|by rewrite both_assoc].
        do 5 eexists. split_and!; [done..| |done]. done.
      * intros (k' & (ρ1 & o1 & k1 & [] & k2 & (-> & -> & ->) & (-> & H) & ->) & ->). split; [done|].
        rewrite both_assoc. by constructor.
  - intros pre ρ ss d o f Hss Hd. cbn [block]. eapply meets_iff.
    + apply meets_enter. intros [He' Hb']%Hin. by apply seq_exact.
    + intros ρ' o' k r. split.
      * inversion 1; subst. eauto.
      * intros (k' & H & ->). by constructor.
Qed.
End Exact.

(** The outcome of a test: the call of the entry from nowhere. *)
Definition start : Place := mkPlace 0 0 0.

Lemma run_test_exact functions entry args : map_Forall (λ _, function_scoped) functions →
  ∃ r, run_test functions entry args = Some r ∧
  match r with
  | Ok (v, o) => ∃ k, calls functions start entry args "" o k v ∧ (steps k <= FUEL_PER_TEST)%N ∧ fits k = true ∧
      ∀ o' k' v', calls functions start entry args "" o' k' v' → o' = o ∧ k' = k ∧ v' = v
  | Err t => ∀ o k v, calls functions start entry args "" o k v → refutes t FUEL_PER_TEST k
  end.
Proof.
  intros Hfs. destruct (interpreter_exact functions NATIVE_FUEL 0 Hfs) as [He Hb]; [done|lia|].
  destruct (call_exact functions _ _ 0 He Hb Hfs [] [] 0 entry args "" FUEL_PER_TEST) as (r & m & E & H); [unfold MAX_LOCALS; apply Nat.le_0_l|].
  unfold run_test. change (mkMachine FUEL_PER_TEST [] 0 0 0 "") with (mach [] [] 0 0 "" FUEL_PER_TEST). rewrite E.
  destruct r as [v|t]; cbn in H.
  - destruct H as (ρ' & o & k & -> & Hs & Hf & _ & _ & [-> HR] & HU). eexists. split; [done|]. cbn.
    exists k. split_and!; try done. intros o' k' v' H. by destruct (HU [] o' k' v' (conj eq_refl H)) as (_ & -> & -> & ->).
  - destruct H as [_ H]. eexists. split; [done|]. intros o k v Hc. by apply (H [] o k v).
Qed.
