(* ===== verification/CodeParser.v ===== *)
(** * The parser of candidate programs returns well-scoped programs

    On every source the parser returns, without running out of fuel.  In the
    functions of a program it accepts every variable has a slot of the frame, the
    parameters have the first ones, and expressions are no deeper than the bound
    that keeps the interpreter's recursion small. *)

From S2P Require Import Prelude Bytes Text BigInt BigIntFacts Arithmetic CodeLang CodeMachine.
From S2P Require Import CodeRun.
From Stdlib Require Import ZArith Lia Strings.Ascii.
From stdpp Require Import options.

Local Open Scope nat_scope.
Local Open Scope list_scope.
Local Set Default Proof Using "Type*".

(** ** The lexer returns *)

Lemma span_shorter p l : length (span p l).2 ≤ length l.
Proof. induction l as [|a l IH]; cbn; [done|]. destruct (p a); [|done]. destruct (span p l). cbn in *. lia. Qed.

Lemma span_first p a l : p a = true → length (span p (a :: l)).2 ≤ length l.
Proof. intros H. cbn. rewrite H. pose proof (span_shorter p l). by destruct (span p l). Qed.

Lemma after_prefix_length prefix rest rest' :
  after_prefix prefix rest = Some rest' → length rest = length prefix + length rest'.
Proof.
  revert rest. induction prefix as [|a prefix IH]; intros [|b rest]; cbn; [by intros [= <-]|by intros [= <-]|done|].
  destruct (decide (a = b)); [|done]. intros H%IH. lia.
Qed.

Lemma find_symbol_shorter symbols rest s rest' : Forall (λ s, s ≠ "") symbols →
  find_symbol symbols rest = Some (s, rest') → length rest' < length rest.
Proof.
  intros HF. induction HF as [|t symbols Ht HF IH]; cbn; [done|].
  destruct (after_prefix (String.list_ascii_of_string t) rest) as [r|] eqn:E; [|done].
  intros [= <- <-]. apply after_prefix_length in E. destruct t; [done|]. cbn in E. lia.
Qed.

Lemma lex_token_shorter rest line tok rest' : lex_token rest line = Ok (tok, rest') → length rest' < length rest.
Proof.
  unfold lex_token. destruct rest as [|b rest]; [done|]. destruct (ascii_digit b) eqn:Ed.
  - pose proof (span_first ascii_digit b rest Ed). destruct (span ascii_digit (b :: rest)) as [ds r].
    destruct (dec_val 0 ds <=? 2 ^ 63 - 1)%Z; [|done]. intros [= _ <-]. cbn in *. lia.
  - destruct (name_start b) eqn:En.
    + assert (Hn : name_byte b = true).
      { unfold name_start, name_byte in *. apply orb_true_iff in En as [-> | ->]; [done|by rewrite orb_true_r]. }
      pose proof (span_first name_byte b rest Hn). destruct (span name_byte (b :: rest)) as [nm r].
      intros [= _ <-]. cbn in *. lia.
    + destruct (find_symbol SYMBOLS (b :: rest)) as [[s r]|] eqn:E; [|done]. intros [= _ <-].
      eapply find_symbol_shorter; [|done]. by repeat constructor.
Qed.

Lemma lex_loop_total fuel rest line tokens : length rest ≤ fuel → is_Some (lex_loop fuel rest line tokens).
Proof.
  revert rest line tokens. induction fuel as [|fuel IH]; intros [|b rest] line tokens H; cbn -[span lex_token decide take];
    try (by eauto); [cbn in H; lia|]. cbn in H.
  destruct (bool_decide (b = _)) eqn:En; [apply IH; lia|].
  destruct (ascii_whitespace b); [apply IH; lia|].
  destruct (bool_decide (take 2 (b :: rest) = _)).
  { apply IH. pose proof (span_first (λ a, negb (bool_decide (a = "010"%char))) b rest). cbn beta in *.
    rewrite En in *. specialize (H0 eq_refl). lia. }
  destruct (decide _); [by eauto|]. destruct (lex_token (b :: rest) line) as [[tok rest']|e] eqn:E; [|by eauto].
  apply lex_token_shorter in E. cbn in E. apply IH. lia.
Qed.

Lemma lex_total source : is_Some (lex source).
Proof. by apply lex_loop_total. Qed.

(** ** Scopes only grow *)

Lemma expr_scoped_mono n m e : n ≤ m → expr_scoped n e → expr_scoped m e.
Proof.
  intros Hnm. revert e. fix IH 1. intros [h [v|i|e|e|op l r|name args]]; cbn; [done|lia|apply IH|apply IH| |].
  - intros [??]. split; by apply IH.
  - induction args as [|e args IHargs]; cbn; [done|]. intros [??]. split; [by apply IH|by apply IHargs].
Qed.

Section Mono.
Context (E E' : Expr → Prop) (n m : nat) (HE : ∀ e, E e → E' e) (Hnm : n ≤ m).

Lemma stmt_with_mono s : stmt_with E n s → stmt_with E' m s.
Proof.
  revert s. fix IH 1. intros [i e|i e|e|e|c yes no|c body]; cbn; [..|apply HE|apply HE| |];
    try (intros [??]; split; [lia|by apply HE]).
  - intros (Hc & Hy & Hn). split_and!; [by apply HE| |].
    + clear Hn. induction yes as [|s ss IHs]; cbn in *; [done|]. destruct Hy. split; [by apply IH|by apply IHs].
    + clear Hy. induction no as [|s ss IHs]; cbn in *; [done|]. destruct Hn. split; [by apply IH|by apply IHs].
  - intros (Hc & Hb). split; [by apply HE|].
    induction body as [|s ss IHs]; cbn in *; [done|]. destruct Hb. split; [by apply IH|by apply IHs].
Qed.

Lemma stmts_with_mono ss : stmts_with E n ss → stmts_with E' m ss.
Proof. induction ss as [|s ss IH]; cbn; [done|]. intros [Hs Hss]. split; [by apply stmt_with_mono|by apply IH]. Qed.
End Mono.

Lemma stmts_with_app E n ss ss' : stmts_with E n ss → stmts_with E n ss' → stmts_with E n (ss ++ ss').
Proof. induction ss as [|s ss IH]; cbn; [done|]. intros [??] ?. eauto. Qed.

(** ** The parser returns *)

(** Names have slots below their number. *)
Definition scope_ok (σ : gmap string nat) : Prop := map_Forall (λ _ i, i < size σ) σ.

Section Parser.
Context (tokens : list (Tok * nat)).
Abbreviation len := (length tokens).

Definition pwf (st : PState) : Prop := ps_pos st ≤ len ∧ scope_ok (ps_scope st).

(** [st'] comes at least [k] tokens behind [st]. *)
Definition beyond (k : nat) (st st' : PState) : Prop :=
  pwf st' ∧ ps_pos st + k ≤ ps_pos st' ∧ size (ps_scope st) ≤ size (ps_scope st').

(** The parser [c] returns, and a success is [k] tokens further and satisfies
    [Q] in its scope. *)
Definition yields {A} (k : nat) (c : P A) (st : PState) (Q : nat → A → Prop) : Prop :=
  (∃ e, c st = Some (Err e)) ∨
  ∃ a st', c st = Some (Ok (a, st')) ∧ beyond k st st' ∧ Q (size (ps_scope st')) a.

Lemma beyond_trans j k st st1 st2 : beyond j st st1 → beyond k st1 st2 → beyond (j + k) st st2.
Proof. unfold beyond. intros (_ & ? & ?) (? & ? & ?). split_and!; [done|lia|lia]. Qed.

Lemma yields_le {A} j k (c : P A) st Q : k ≤ j → yields j c st Q → yields k c st Q.
Proof.
  intros Hk [[e E]|(a & st' & E & (H1 & H2 & H3) & H)]; [by left; eauto|]. right. exists a, st'.
  split; [done|]. split; [|done]. unfold beyond. split_and!; [done|lia|done].
Qed.

Lemma yields_bind {A B} j k (c : P A) (g : A → P B) st Q Q' : yields j c st Q →
  (∀ a st', beyond j st st' → Q (size (ps_scope st')) a → yields k (g a) st' Q') → yields (j + k) (pthen c g) st Q'.
Proof.
  intros [[e E]|(a & st' & E & Hp & H)] Hg; unfold yields, pthen; rewrite E; cbn; [by left; eauto|].
  destruct (Hg _ _ Hp H) as [[e E']|(b & st2 & E' & Hp' & H')]; cbn in *; [by left; eauto|].
  right. exists b, st2. split; [done|]. split; [by eapply beyond_trans|done].
Qed.

Lemma yields_ok {A} st (a : A) (Q : nat → A → Prop) : pwf st → Q (size (ps_scope st)) a → yields 0 (pok a) st Q.
Proof. intros Hst HQ. right. exists a, st. split; [done|]. split; [|done]. unfold beyond. split_and!; [done|lia|lia]. Qed.

Lemma yields_fail {A} k why st (Q : nat → A → Prop) : yields k (pfail tokens why) st Q.
Proof. left. unfold pfail. eauto. Qed.

Lemma peek_below st t : peek_tok tokens st = Some t → ps_pos st < len.
Proof. unfold peek_tok. intros ((?&?) & H & _)%fmap_Some. by eapply lookup_lt_Some. Qed.

Lemma beyond_advance st t : pwf st → peek_tok tokens st = Some t → beyond 1 st (bump st).
Proof. intros [_ Hs] H%peek_below. unfold beyond, pwf, bump. cbn. split_and!; [lia|done|lia|lia]. Qed.
(** Parsers that take a token when it is the expected one. *)
Definition eats (c : P bool) : Prop := ∀ st, pwf st →
  (∃ st', c st = Some (Ok (true, st')) ∧ beyond 1 st st') ∨ c st = Some (Ok (false, st)).

Lemma eats_sym symbol : eats (eat_sym tokens symbol).
Proof. intros st Hst. unfold eat_sym. destruct (decide _) as [E|E]; [left|by right]. eauto using beyond_advance. Qed.

Lemma eats_keyword keyword : eats (eat_keyword tokens keyword).
Proof. intros st Hst. unfold eat_keyword. destruct (decide _) as [E|E]; [left|by right]. eauto using beyond_advance. Qed.

Lemma yields_eat {B} k c (g : bool → P B) st Q : eats c → pwf st →
  (∀ st', beyond 1 st st' → yields (k - 1) (g true) st' Q) → yields k (g false) st Q → yields k (pthen c g) st Q.
Proof.
  intros Hc Hst Htrue Hfalse. destruct (Hc st Hst) as [(st' & E & Hp)|E].
  - eapply (yields_le (1 + (k - 1))); [lia|]. unfold pthen, yields. rewrite E. cbn.
    destruct (Htrue _ Hp) as [[e E']|(b & st2 & E' & Hp' & H')]; [by left; eauto|].
    right. exists b, st2. split; [done|]. split; [by eapply (beyond_trans 1)|done].
  - unfold yields, pthen. rewrite E. cbn. exact Hfalse.
Qed.

Lemma yields_expect symbol why st : pwf st → yields 1 (expect_sym tokens symbol why) st (λ _ _, True).
Proof.
  intros Hst. unfold expect_sym. apply yields_eat; [apply eats_sym|done| |apply yields_fail].
  intros st' Hp. apply yields_ok; [apply Hp|done].
Qed.

(** Only what a parser does at its state counts. *)
Lemma yields_at {A} k (c d : P A) st Q : c st = d st → yields k d st Q → yields k c st Q.
Proof. unfold yields. by intros ->. Qed.

Lemma yields_name why st : pwf st → yields 1 (parse_name tokens why) st (λ _ _, True).
Proof.
  intros Hst. destruct (peek_tok tokens st) as [[v|name|s]|] eqn:E.
  2: { destruct (decide (name ∈ KEYWORDS)) as [Hk|Hk].
       - apply (yields_at _ _ (pfail tokens why)); [|apply yields_fail]. unfold parse_name. by rewrite E, decide_True.
       - right. exists name, (bump st). unfold parse_name. rewrite E, decide_False by done.
         eauto using beyond_advance. }
  all: apply (yields_at _ _ (pfail tokens why)); [|apply yields_fail]; unfold parse_name; by rewrite E.
Qed.

Lemma yields_slot name st : pwf st → yields 0 (slot name) st (λ n i, i < n).
Proof.
  intros [Hp Hs]. right. unfold slot. destruct (ps_scope st !! name) as [i|] eqn:E.
  - exists i, st. split; [done|]. split; [unfold beyond; split_and!; [done|lia|lia]|]. by apply Hs in E.
  - eexists _, _. split; [done|]. unfold beyond, pwf. cbn. rewrite map_size_insert_None by done.
    split_and!; try lia. intros x i. rewrite map_size_insert_None by done.
    intros [[-> <-]|[_ H%Hs]]%lookup_insert_Some; lia.
Qed.

(** Going on behind tokens that were taken. *)
Lemma yields_from {A} i j k (c c' : P A) st st' Q :
  c' st = c st' → beyond j st st' → i ≤ j + k → yields k c st' Q → yields i c' st Q.
Proof.
  intros E Hp Hi [[e E']|(a & st2 & E' & Hp' & H)]; [left; exists e; congruence|]. right. exists a, st2.
  split; [congruence|]. split; [|done]. destruct (beyond_trans _ _ _ _ _ Hp Hp') as (? & ? & ?).
  unfold beyond. split_and!; [done|lia|done].
Qed.

(** Expressions: scoped, and as deep as they say. *)
Fixpoint expr_height (e : Expr) : Prop :=
  match e with
  | mkExpr h kind =>
      h ≤ CODE_NESTING * 2 ∧
      match kind with
      | KInt _ | KVar _ => h = 1
      | KNeg e | KNot e => h = S (ex_height e) ∧ expr_height e
      | KBin _ l r => h = S (Nat.max (ex_height l) (ex_height r)) ∧ expr_height l ∧ expr_height r
      | KCall _ args => h = S (max_height args) ∧ length args ≤ 8 ∧ foldr (λ e P, expr_height e ∧ P) True args
      end
  end.

Definition expr_ok (n : nat) (e : Expr) : Prop := expr_scoped n e ∧ expr_height e.

Lemma yields_node kind h st (Q : nat → Expr → Prop) : pwf st →
  (h ≤ CODE_NESTING * 2 → Q (size (ps_scope st)) (mkExpr h kind)) → yields 0 (node tokens kind h) st Q.
Proof.
  intros Hst H. unfold node. destruct (decide _) as [Hd|Hd]; [apply yields_fail|]. apply yields_ok; [done|]. apply H. lia.
Qed.

Lemma find_op_peek ops st op : find_op tokens ops st = Some op → ∃ t, peek_tok tokens st = Some t.
Proof.
  unfold find_op. intros (p & (_ & H)%find_some & _)%fmap_Some. apply bool_decide_eq_true in H. eauto.
Qed.

Lemma beyond_weaken j k st st' : k ≤ j → beyond j st st' → beyond k st st'.
Proof. intros H (? & ? & ?). unfold beyond. split_and!; [done|lia|done]. Qed.

Lemma expr_ok_mono n m e : n ≤ m → expr_ok n e → expr_ok m e.
Proof. intros H [??]. split; [by eapply expr_scoped_mono|done]. Qed.

Definition parses {A} (k : nat) (c : P A) (Q : nat → A → Prop) : Prop := ∀ st, pwf st → yields k c st Q.

Lemma binary_loop_ok operand ops fuel lhs st : parses 1 operand expr_ok → pwf st →
  len - ps_pos st ≤ fuel → expr_ok (size (ps_scope st)) lhs → yields 0 (binary_loop tokens operand ops fuel lhs) st expr_ok.
Proof.
  intros Ho. revert lhs st. induction fuel as [|fuel IH]; intros lhs st Hst Hf Hl.
  all: destruct (find_op tokens ops st) as [op|] eqn:E.
  - apply find_op_peek in E as [t Ht%peek_below]. lia.
  - apply (yields_at _ _ (pok lhs)); [unfold binary_loop; by rewrite E|]. by apply yields_ok.
  - destruct (find_op_peek _ _ _ E) as [t Ht]. pose proof (beyond_advance _ _ Hst Ht) as Hp.
    pose proof (peek_below _ _ Ht) as Hlt.
    eapply yields_from; [cbn [binary_loop]; by rewrite E|exact Hp| |].
    2: { eapply (yields_bind 1 0); [apply Ho, Hp|]. intros rhs st1 Hp1 Hr.
         assert (Hl1 : expr_ok (size (ps_scope st1)) lhs)
           by (eapply expr_ok_mono; [|exact Hl]; destruct Hp as (_&_&?), Hp1 as (_&_&?); lia).
         eapply (yields_bind 0 0); [apply yields_node; [apply Hp1|]|].
         - intros Hh. instantiate (1 := expr_ok). destruct Hl1, Hr. split; [done|]. cbn [expr_height]. done.
         - intros e st2 Hp2 He. apply IH; [apply Hp2| |done].
           destruct Hp as (_&?&_), Hp1 as (_&?&_), Hp2 as (_&?&_). cbn in *. lia. }
    lia.
  - apply (yields_at _ _ (pok lhs)); [cbn [binary_loop]; by rewrite E|]. by apply yields_ok.
Qed.

Lemma binary_parses unary levels : parses 1 unary expr_ok → parses 1 (binary tokens unary levels) expr_ok.
Proof.
  intros Hu. induction levels as [|ops levels IH]; cbn [binary]; [done|].
  intros st Hst. eapply (yields_bind 1 0); [by apply IH|]. intros lhs st' Hp Hl.
  apply binary_loop_ok; [done|apply Hp|lia|done].
Qed.
Definition args_ok (n : nat) (args : list Expr) : Prop := Forall (expr_ok n) args.

Lemma args_ok_mono n m args : n ≤ m → args_ok n args → args_ok m args.
Proof. intros H Ha. eapply Forall_impl; [exact Ha|]. intros e. by apply expr_ok_mono. Qed.

Lemma args_loop_ok expr fuel args st : parses 1 expr expr_ok → pwf st → len - ps_pos st < fuel →
  args_ok (size (ps_scope st)) args → yields 1 (args_loop tokens expr fuel args) st args_ok.
Proof.
  intros He. revert args st. induction fuel as [|fuel IH]; intros args st Hst Hf Ha; [lia|]. cbn [args_loop].
  eapply (yields_bind 1 0); [by apply He|]. intros e st1 Hp1 Hok.
  assert (Ha1 : args_ok (size (ps_scope st1)) (args ++ [e])).
  { apply Forall_app. split; [|by apply Forall_singleton]. eapply args_ok_mono; [apply Hp1|done]. }
  apply yields_eat; [apply eats_sym|apply Hp1| |].
  - intros st2 Hp2. apply yields_ok; [apply Hp2|]. eapply args_ok_mono; [apply Hp2|done].
  - eapply (yields_le (1 + 1)); [lia|]. eapply yields_bind; [apply yields_expect, Hp1|]. intros [] st2 Hp2 _.
    apply IH; [apply Hp2| |eapply args_ok_mono; [apply Hp2|done]].
    destruct Hp1 as ([? _] & ? & _), Hp2 as ([? _] & ? & _). lia.
Qed.

Lemma args_ok_scoped n args : args_ok n args → exprs_scoped n args ∧ foldr (λ e P, expr_height e ∧ P) True args.
Proof. induction 1 as [|e args [??] _ [IH1 IH2]]; cbn; [done|]. done. Qed.

(** A name: a call or a variable. *)
Lemma name_ok expr name st : parses 1 expr expr_ok → pwf st → 0 < ps_pos st → yields 0
  (pthen (eat_sym tokens "(") (λ call,
     if call : bool then
       pthen (eat_sym tokens ")") (λ empty,
       pthen (if empty : bool then pok [] else args_loop tokens expr len []) (λ args,
       if decide (8 < length args) then pfail tokens "too many arguments"
       else node tokens (KCall name args) (1 + max_height args)))
     else pthen (slot name) (λ i, node tokens (KVar i) 1))) st expr_ok.
Proof.
  intros He Hst Hpos. apply yields_eat; [apply eats_sym|done| |].
  - intros st1 Hp1.
    assert (Hend : ∀ args st2, pwf st2 → args_ok (size (ps_scope st2)) args →
      yields 0 (if decide (8 < length args) then pfail tokens "too many arguments"
        else node tokens (KCall name args) (1 + max_height args)) st2 expr_ok).
    { intros args st2 Hst2 [Hs Hh]%args_ok_scoped. destruct (decide _); [apply yields_fail|].
      apply yields_node; [done|]. intros Hle. split; [done|]. cbn [expr_height]. split_and!; [done..|lia|done]. }
    apply yields_eat; [apply eats_sym|apply Hp1| |].
    + intros st2 Hp2. eapply (yields_bind 0 0); [apply yields_ok; [apply Hp2|]|].
      * instantiate (1 := args_ok). constructor.
      * intros args st3 Hp3 Ha. apply Hend; [apply Hp3|done].
    + eapply (yields_le 1); [lia|]. eapply (yields_bind 1 0); [apply args_loop_ok; [done|apply Hp1| |constructor]|].
      * destruct Hp1 as ([??] & ? & _). lia.
      * intros args st3 Hp3 Ha. apply Hend; [apply Hp3|done].
  - eapply (yields_bind 0 0); [by apply yields_slot|]. intros i st1 Hp1 Hi.
    apply yields_node; [apply Hp1|]. intros Hle. done.
Qed.

Lemma primary_ok expr : parses 1 expr expr_ok → parses 1 (primary tokens expr) expr_ok.
Proof.
  intros He st Hst. destruct (peek_tok tokens st) as [[v|name|s]|] eqn:E.
  4: { apply (yields_at _ _ (pfail tokens "expected an expression")); [unfold primary; by rewrite E|apply yields_fail]. }
  all: pose proof (beyond_advance _ _ Hst E) as Hp.
  - eapply (yields_from 1 1 0); [unfold primary; by rewrite E|done|lia|].
    apply yields_node; [apply Hp|]. intros Hle. done.
  - destruct (decide (name ∈ KEYWORDS)) as [Hk|Hk].
    + apply (yields_at _ _ (pfail tokens "expected an expression")); [unfold primary; by rewrite E, decide_True|apply yields_fail].
    + eapply (yields_from 1 1 0); [unfold primary; by rewrite E, decide_False by done|done|lia|].
      apply name_ok; [done|apply Hp|]. destruct Hp as (_ & ? & _). lia.
  - destruct (decide (s = "(")) as [->|Hs].
    + eapply (yields_from 1 1 (1 + (1 + 0))); [unfold primary; by rewrite E, decide_True by done|done|lia|].
      eapply yields_bind; [apply He, Hp|]. intros e st1 Hp1 Hok.
      eapply yields_bind; [apply yields_expect, Hp1|]. intros [] st2 Hp2 _. apply yields_ok; [apply Hp2|].
      eapply expr_ok_mono; [apply Hp2|done].
    + apply (yields_at _ _ (pfail tokens "expected an expression")); [unfold primary; by rewrite E, decide_False|apply yields_fail].
Qed.

Lemma unary_ok fuel depth : CODE_NESTING < depth + fuel → depth ≤ CODE_NESTING → parses 1 (parse_unary tokens fuel depth) expr_ok.
Proof.
  revert depth. induction fuel as [|fuel IH]; intros depth Hf Hd st Hst; [lia|]. cbn [parse_unary].
  destruct (decide (CODE_NESTING ≤ depth)) as [Hn|Hn]; [apply yields_fail|].
  assert (Hu : parses 1 (parse_unary tokens fuel (S depth)) expr_ok) by (apply IH; lia).
  assert (Hinner : ∀ st' (wrap : Expr → ExprKind), (∀ n e, expr_ok n e → ex_height e + 1 ≤ CODE_NESTING * 2 →
      expr_ok n (mkExpr (ex_height e + 1) (wrap e))) → pwf st' →
      yields 0 (pthen (parse_unary tokens fuel (S depth)) (λ inner, node tokens (wrap inner) (ex_height inner + 1))) st' expr_ok).
  { intros st' wrap Hw Hst'. eapply (yields_le (1 + 0)); [lia|]. eapply yields_bind; [by apply Hu|].
    intros e st1 Hp1 Hok. apply yields_node; [apply Hp1|]. eauto. }
  apply yields_eat; [apply eats_sym|done| |].
  { intros st1 Hp1. apply (Hinner st1 KNeg); [|apply Hp1]. intros n e [Hs Hh] Hle. split; [done|]. cbn. split_and!; [done|lia|done]. }
  apply yields_eat; [apply eats_sym|done| |].
  { intros st1 Hp1. apply (Hinner st1 KNot); [|apply Hp1]. intros n e [Hs Hh] Hle. split; [done|]. cbn. split_and!; [done|lia|done]. }
  apply primary_ok; [|done]. intros st1 Hst1. destruct (decide _); [apply yields_fail|].
  apply binary_parses; [done|done].
Qed.

Lemma expr_parses : parses 1 (parse_expr tokens) expr_ok.
Proof. unfold parse_expr. rewrite decide_False by (unfold CODE_NESTING; lia). apply binary_parses, unary_ok; unfold EXPR_FUEL, CODE_NESTING; lia. Qed.
(** *** Statements *)

Definition stmt_ok (n : nat) (s : Stmt) : Prop := stmt_with (expr_ok n) n s.
Definition stmts_ok (n : nat) (ss : list Stmt) : Prop := stmts_with (expr_ok n) n ss.

Lemma stmts_ok_mono n m ss : n ≤ m → stmts_ok n ss → stmts_ok m ss.
Proof. intros H. apply stmts_with_mono; [|done]. intros e. by apply expr_ok_mono. Qed.

Lemma statements_loop_ok statement fuel ss st : parses 1 statement stmt_ok → pwf st → len - ps_pos st < fuel →
  stmts_ok (size (ps_scope st)) ss → yields 0 (statements_loop tokens statement fuel ss) st stmts_ok.
Proof.
  intros Hs. revert ss st. induction fuel as [|fuel IH]; intros ss st Hst Hf Hok; [lia|]. cbn [statements_loop].
  apply yields_eat; [apply eats_sym|done| |].
  - intros st1 Hp1. apply yields_ok; [apply Hp1|]. eapply stmts_ok_mono; [apply Hp1|done].
  - destruct (peek_tok tokens st) as [t|] eqn:E.
    2: { apply (yields_at _ _ (pfail tokens "unterminated block")); [by rewrite E|apply yields_fail]. }
    apply peek_below in E as Hlt. eapply yields_at; [by rewrite E|].
    eapply (yields_le (1 + 0)); [lia|]. eapply yields_bind; [by apply Hs|]. intros s st1 Hp1 Hsok.
    apply IH; [apply Hp1|destruct Hp1 as (_ & ? & _); lia|].
    apply stmts_with_app; [eapply stmts_ok_mono; [apply Hp1|done]|done].
Qed.

Lemma block_of_ok statement depth : (depth < CODE_NESTING → parses 1 (statement depth) stmt_ok) →
  parses 1 (block_of tokens statement depth) stmts_ok.
Proof.
  intros Hs st Hst. unfold block_of. destruct (decide _) as [Hd|Hd]; [apply yields_fail|].
  eapply (yields_bind 1 0); [by apply yields_expect|]. intros [] st1 Hp1 _.
  apply statements_loop_ok; [apply Hs; lia|apply Hp1|lia|done].
Qed.

Lemma value_stmt_ok : parses 1 (value_stmt tokens) expr_ok.
Proof.
  intros st Hst. unfold value_stmt. eapply (yields_le (1 + (1 + 0))); [lia|].
  eapply yields_bind; [by apply expr_parses|]. intros e st1 Hp1 He.
  eapply yields_bind; [apply yields_expect, Hp1|]. intros [] st2 Hp2 _. apply yields_ok; [apply Hp2|].
  eapply expr_ok_mono; [apply Hp2|done].
Qed.

(** [name = value;], behind the optional [let]. *)
Lemma binding_ok why (mk : nat → Expr → Stmt) st : (∀ n i e, i < n → expr_ok n e → stmt_ok n (mk i e)) → pwf st →
  yields 1 (pthen (parse_name tokens why) (λ name,
    pthen (expect_sym tokens "=" "expected `=`") (λ _,
    pthen (value_stmt tokens) (λ value, pthen (slot name) (λ i, pok (mk i value)))))) st stmt_ok.
Proof.
  intros Hmk Hst. eapply (yields_le (1 + (1 + (1 + (0 + 0))))); [lia|].
  eapply yields_bind; [by apply yields_name|]. intros name st1 Hp1 _.
  eapply yields_bind; [apply yields_expect, Hp1|]. intros [] st2 Hp2 _.
  eapply yields_bind; [apply value_stmt_ok, Hp2|]. intros e st3 Hp3 He.
  eapply yields_bind; [apply yields_slot, Hp3|]. intros i st4 Hp4 Hi. apply yields_ok; [apply Hp4|].
  apply Hmk; [done|]. eapply expr_ok_mono; [apply Hp4|done].
Qed.

Lemma statement_ok fuel depth : depth < CODE_NESTING → CODE_NESTING ≤ depth + fuel →
  parses 1 (parse_statement tokens fuel depth) stmt_ok.
Proof.
  revert depth. induction fuel as [|fuel IH]; intros depth Hd Hf st Hst; [lia|]. cbn [parse_statement].
  assert (Hb : parses 1 (block_of tokens (parse_statement tokens fuel) (S depth)) stmts_ok) by (apply block_of_ok; intros; apply IH; lia).
  apply yields_eat; [apply eats_keyword|done| |].
  { intros st1 Hp1. eapply (yields_le 1); [lia|]. apply (binding_ok _ SLet); [by intros|apply Hp1]. }
  apply yields_eat; [apply eats_keyword|done| |].
  { intros st1 Hp1. eapply (yields_le (1 + 0)); [lia|]. eapply yields_bind; [apply value_stmt_ok, Hp1|].
    intros e st2 Hp2 He. by apply yields_ok; [apply Hp2|]. }
  apply yields_eat; [apply eats_keyword|done| |].
  { intros st1 Hp1. eapply (yields_le (1 + 0)); [lia|]. eapply yields_bind; [apply value_stmt_ok, Hp1|].
    intros e st2 Hp2 He. by apply yields_ok; [apply Hp2|]. }
  apply yields_eat; [apply eats_keyword|done| |].
  { intros st1 Hp1. eapply (yields_le (1 + (1 + 0))); [lia|]. eapply yields_bind; [apply expr_parses, Hp1|].
    intros c st2 Hp2 Hc. eapply yields_bind; [apply Hb, Hp2|]. intros body st3 Hp3 Hbody. apply yields_ok; [apply Hp3|].
    split; [|done]. eapply expr_ok_mono; [apply Hp3|done]. }
  apply yields_eat; [apply eats_keyword|done| |].
  2: { apply (binding_ok _ SAssign); [by intros|done]. }
  intros st1 Hp1. eapply (yields_le (1 + (1 + 0))); [lia|]. eapply yields_bind; [apply expr_parses, Hp1|].
  intros c st2 Hp2 Hc. eapply yields_bind; [apply Hb, Hp2|]. intros yes st3 Hp3 Hyes.
  assert (Hend : ∀ st4 (c' : P (list Stmt)), beyond 0 st3 st4 → yields 0 c' st4 stmts_ok →
    yields 0 (pthen c' (λ no, pok (SIf c yes no))) st4 stmt_ok).
  { intros st4 c' Hp4 Hc'. eapply (yields_bind 0 0); [exact Hc'|]. intros no st5 Hp5 Hno. apply yields_ok; [apply Hp5|].
    destruct Hp3 as (_ & _ & ?), Hp4 as (_ & _ & ?), Hp5 as (_ & _ & ?).
    unfold stmt_ok. cbn [stmt_with]. split_and!; [eapply expr_ok_mono; [|exact Hc]; lia|eapply stmts_ok_mono; [|exact Hyes]; lia|done]. }
  apply yields_eat; [apply eats_keyword|apply Hp3| |].
  2: { apply Hend; [|by apply yields_ok; [apply Hp3|]]. split; [apply Hp3|lia]. }
  intros st4 Hp4. apply Hend; [by eapply beyond_weaken; [|exact Hp4]; lia|].
  destruct (decide (peek_tok tokens st4 = Some (TName "if"))) as [E|E].
  - eapply yields_at; [by destruct (decide (peek_tok tokens st4 = Some (TName "if")))|].
    destruct (decide _) as [Hn|Hn]; [apply yields_fail|].
    eapply (yields_le (1 + 0)); [lia|]. eapply yields_bind; [apply IH; [lia|lia|apply Hp4]|].
    intros s st5 Hp5 Hs. by apply yields_ok; [apply Hp5|].
  - apply (yields_at _ _ (block_of tokens (parse_statement tokens fuel) (S depth))).
    { by destruct (decide (peek_tok tokens st4 = Some (TName "if"))). }
    eapply (yields_le 1); [lia|]. apply Hb, Hp4.
Qed.

(** *** Programs *)

Lemma params_loop_ok fuel count st : pwf st → len - ps_pos st < fuel → count ≤ size (ps_scope st) →
  yields 1 (params_loop tokens fuel count) st (λ n count, count ≤ n).
Proof.
  revert count st. induction fuel as [|fuel IH]; intros count st Hst Hf Hc; [lia|]. cbn [params_loop].
  eapply (yields_le (1 + 0)); [lia|]. eapply yields_bind; [by apply yields_name|]. intros param st1 Hp1 _.
  destruct (decide (is_Some (ps_scope st1 !! param))) as [Hs|Hs].
  { apply (yields_at _ _ (pfail tokens "duplicate parameter")); [|apply yields_fail]. by destruct (decide (is_Some _)). }
  eapply yields_at; [destruct (decide (is_Some _)); [contradiction|reflexivity]|].
  apply eq_None_not_Some in Hs.
  eapply (yields_bind 0 0 _ _ _ (λ n _, S count ≤ n)).
  { right. unfold slot. rewrite Hs. eexists _, _. split; [done|]. destruct Hp1 as ([H1 H2] & H3 & H4).
    destruct (yields_slot param st1 (conj H1 H2)) as [[e E]|(i & st2 & E & Hp & Hi)]; unfold slot in E; rewrite Hs in E; [done|].
    injection E as _ <-. split; [done|]. cbn. rewrite map_size_insert_None by done. lia. }
  intros i st2 Hp2 Hi. apply yields_eat; [apply eats_sym|apply Hp2| |].
  - intros st3 Hp3. apply yields_ok; [apply Hp3|]. destruct Hp3 as (_ & _ & ?). lia.
  - eapply (yields_le (1 + 1)); [lia|]. eapply yields_bind; [apply yields_expect, Hp2|]. intros [] st3 Hp3 _.
    apply IH; [apply Hp3| |].
    + destruct Hp1 as ([? _] & ? & _), Hp2 as ([? _] & ? & _), Hp3 as ([? _] & ? & _). lia.
    + destruct Hp3 as (_ & _ & ?). lia.
Qed.

Definition function_ok (f : Function) : Prop :=
  fn_param_count f ≤ fn_slots f ∧ stmts_ok (fn_slots f) (fn_body f).

(** As [yields], when the scope starts afresh. *)
Definition goes {A} (k : nat) (c : P A) (st : PState) (Q : A → Prop) : Prop :=
  (∃ e, c st = Some (Err e)) ∨
  ∃ a st', c st = Some (Ok (a, st')) ∧ pwf st' ∧ ps_pos st + k ≤ ps_pos st' ∧ Q a.

Lemma goes_bind {A B} j k (c : P A) (g : A → P B) st Q Q' : yields j c st Q →
  (∀ a st', beyond j st st' → goes k (g a) st' Q') → goes (j + k) (pthen c g) st Q'.
Proof.
  intros [[e E]|(a & st' & E & Hp & H)] Hg; unfold goes, pthen; rewrite E; cbn; [by left; eauto|].
  destruct (Hg a st' Hp) as [[e E']|(b & st2 & E' & Hw & Hp' & H')]; cbn in *; [by left; eauto|].
  right. exists b, st2. destruct Hp as (_ & ? & _). split_and!; [done|done|lia|done].
Qed.

Lemma yields_goes {A} k (c : P A) st Q Q' : (∀ n a, Q n a → Q' a) → yields k c st Q → goes k c st Q'.
Proof.
  intros HQ [[e E]|(a & st' & E & (Hw & Hp & _) & H)]; [by left; eauto|]. right. exists a, st'. split_and!; eauto.
Qed.

(** A function behind its opening parenthesis, in an empty scope. *)
Lemma function_rest_ok name st : pwf st → 0 < ps_pos st →
  yields 0 (function_rest tokens name) st (λ _ nf, function_ok nf.2).
Proof.
  intros Hst Hpos.
  assert (Hend : ∀ count st1, pwf st1 → count ≤ size (ps_scope st1) →
    yields 0 (pthen (parse_block tokens 0) (λ body, λ st,
      Some (Ok ((name, mkFunction count (size (ps_scope st)) body), st)))) st1 (λ _ nf, function_ok nf.2)).
  { intros count st1 Hst1 Hc. eapply (yields_le (1 + 0)); [lia|]. eapply yields_bind.
    - apply block_of_ok; [|done]. intros Hn. apply statement_ok; [done|]. unfold STMT_FUEL. lia.
    - intros body st2 Hp2 Hb. right. eexists _, st2. split; [done|].
      destruct Hp2 as (Hw & _ & ?). split; [unfold beyond; split_and!; [done|lia|lia]|].
      cbn. unfold function_ok. cbn. split; [lia|done]. }
  apply yields_eat; [apply eats_sym|done| |].
  - intros st1 Hp1. eapply (yields_bind 0 0 _ _ _ (λ n c, c ≤ n)); [apply yields_ok; [apply Hp1|lia]|].
    intros count st2 Hp2 Hc. apply Hend; [apply Hp2|done].
  - eapply (yields_le (1 + 0)); [lia|]. eapply yields_bind; [apply params_loop_ok; [done|destruct Hst; lia|lia]|].
    intros count st2 Hp2 Hc. apply Hend; [apply Hp2|done].
Qed.

Lemma function_parses st : pwf st → goes 1 (parse_function tokens) st (λ nf, function_ok nf.2).
Proof.
  intros Hst. unfold parse_function. destruct (eats_keyword "fn" st Hst) as [(st1 & E & Hp1)|E].
  2: { left. unfold pthen. rewrite E. cbn. eauto. }
  assert (H : goes (1 + (1 + 0)) (pthen (parse_name tokens "expected a function name") (λ name,
      pthen (expect_sym tokens "(" "expected `(`") (λ _, pthen clear_scope (λ _, function_rest tokens name)))) st1
      (λ nf, function_ok nf.2)).
  { eapply goes_bind; [apply yields_name, Hp1|]. intros name st2 Hp2.
    eapply goes_bind; [apply yields_expect, Hp2|]. intros [] st3 Hp3.
    assert (Hw : pwf (mkPState (ps_pos st3) ∅)) by (split; [apply Hp3|by intros ??]).
    destruct Hp3 as (_ & Hlt & _).
    destruct (function_rest_ok name (mkPState (ps_pos st3) ∅) Hw) as [[e E']|(nf & st4 & E' & (Hw4 & Hp4 & _) & Hf)]; [cbn; lia| |].
    - left. exists e. exact E'.
    - right. exists nf, st4. split_and!; [exact E'|done|cbn in *; lia|done]. }
  unfold goes, pthen in *. rewrite E. cbn in *. destruct Hp1 as (_ & ? & _).
  destruct H as [[e H]|(nf & st' & H & Hw & Hp & Hf)]; [by left; eauto|]. right. exists nf, st'. split_and!; [done|done|lia|done].
Qed.

Definition program_ok (fs : gmap string Function) : Prop :=
  size fs ≤ MAX_FUNCTIONS ∧ map_Forall (λ _, function_ok) fs.

Lemma program_loop_ok fuel fs st : pwf st → len - ps_pos st ≤ fuel → program_ok fs →
  (∃ e, program_loop tokens fuel fs st = Some (Err e)) ∨
  ∃ fs' st', program_loop tokens fuel fs st = Some (Ok (fs', st')) ∧ program_ok fs'.
Proof.
  revert fs st. induction fuel as [|fuel IH]; intros fs st Hst Hf Hok; cbn [program_loop].
  all: destruct (peek_tok tokens st) as [t|] eqn:E; [|by right; eauto].
  { apply peek_below in E. lia. }
  apply peek_below in E.
  unfold pthen. destruct (function_parses st Hst) as [[e E']|([name f] & st' & E' & Hw & Hp & Hfn)]; rewrite E'; cbn; [by left; eauto|].
  destruct (decide (MAX_FUNCTIONS ≤ size fs)) as [Hm|Hm]; [by left; unfold pfail; eauto|].
  destruct (decide (is_Some (fs !! name))) as [Hs|Hs]; [by left; unfold pfail; eauto|].
  apply IH; [done|lia|]. destruct Hok as [Hsz Hall]. apply eq_None_not_Some in Hs. split.
  - rewrite map_size_insert_None by done. lia.
  - apply map_Forall_insert_2; done.
Qed.
End Parser.

Lemma function_ok_scoped f : function_ok f → function_scoped f.
Proof.
  intros [Hp Hb]. split; [done|]. apply (stmts_with_mono (expr_ok (fn_slots f)) _ (fn_slots f)); [|done|exact Hb]. by intros e [He _].
Qed.

(** The parser returns; what it accepts is well formed. *)
Lemma parse_ok source : ∃ r, parse source = Some r ∧ ∀ fs, r = Ok fs → program_ok fs.
Proof.
  unfold parse. destruct (negb (is_ascii source)); [eexists; split; [done|]; done|].
  destruct (lex_total source) as [[tokens|e] ->]; cbn; [|eexists; split; [done|]; done].
  destruct (program_loop_ok tokens (length tokens) ∅ (mkPState 0 ∅)) as [[e E]|(fs & st & E & Hok)].
  - split; [cbn; lia|by intros ??].
  - cbn. lia.
  - split; [rewrite map_size_empty; lia|by intros ??].
  - unfold program. rewrite E. eexists; split; [done|]. done.
  - unfold program. rewrite E. eexists; split; [done|]. intros fs' [= <-]. done.
Qed.
