(* ===== verification/CodeFacts.v ===== *)
(** * Running a candidate program against tests: crates/ptr-verifier/src/code_test.rs

    Tasks, tests and the verifier.  The outer [option] is the panic of a part; the
    format [{:?}] of a string, which occurs in one message, is a parameter. *)

From S2P Require Import Prelude Bytes Text Verifier VerifierFacts CodeLang CodeMachine CodeRun.
From S2P Require Import CodeParser.
From Stdlib Require Import ZArith Lia.
From stdpp Require Import options.

Local Open Scope nat_scope.

Definition MAX_TESTS : nat := 32.
Definition MAX_TEST_ID_BYTES : N := 64.

Inductive TestVisibility := Hidden | Visible.

Record CodeTest := mkCodeTest {
  ct_id : string;
  ct_args : list Z;
  ct_expected : Z;
  ct_expected_output : option string;
  ct_visibility : TestVisibility
}.

Definition CodeTest_new (id : string) (args : list Z) (expected : Z) : CodeTest :=
  mkCodeTest id args expected None Hidden.

Definition CodeTest_visible (t : CodeTest) : CodeTest :=
  mkCodeTest (ct_id t) (ct_args t) (ct_expected t) (ct_expected_output t) Visible.

Record CodeTask := mkCodeTask { task_entry : string; task_tests : list CodeTest }.

Record CodeTestVerifier := mkCodeTestVerifier { cv_task : CodeTask; cv_task_problem : option string }.

(** [tests.iter().any(...)] with the set of the ids that were seen. *)
Fixpoint any_bad_id (ids : gset string) (tests : list CodeTest) : bool :=
  match tests with
  | [] => false
  | t :: tests =>
      if bool_decide (ct_id t = "") || (MAX_TEST_ID_BYTES <? slen (ct_id t))%N || bool_decide (ct_id t ∈ ids)
      then true else any_bad_id ({[ct_id t]} ∪ ids) tests
  end.

Definition bad_shape (t : CodeTest) : bool :=
  bool_decide (8 < length (ct_args t)) ||
  match ct_expected_output t with Some o => (MAX_OUTPUT_BYTES <? slen o)%N | None => false end.

Definition task_problem (task : CodeTask) : option string :=
  if bool_decide (task_tests task = []) then Some "the task has no tests"
  else if bool_decide (MAX_TESTS < length (task_tests task)) then Some "the task has too many tests"
  else if bool_decide (task_entry task = "") || (MAX_TEST_ID_BYTES <? slen (task_entry task))%N
  then Some "the entry name is empty or too long"
  else if any_bad_id ∅ (task_tests task) then Some "a test id is empty, too long or repeated"
  else if existsb bad_shape (task_tests task)
  then Some "a test has too many arguments or too long an expected output"
  else None.

Definition CodeTestVerifier_new (task : CodeTask) : CodeTestVerifier :=
  mkCodeTestVerifier task (task_problem task).

(** What a failure of the test says. *)
Definition detail (t : CodeTest) (visible : string) : string :=
  match ct_visibility t with
  | Visible => "test " +:+ ct_id t +:+ ": " +:+ visible
  | Hidden => "test " +:+ ct_id t +:+ ": failed"
  end.

(** The findings of one test. *)
Definition test_findings (functions : gmap string Function) (entry : string) (t : CodeTest) :
    option (list Finding) :=
  r ← run_test functions entry (ct_args t);
  Some (match r with
  | Ok (value, output) =>
      if bool_decide (value ≠ ct_expected t) then
        [finding "code.test_failed"
           (detail t ("expected " +:+ i64_text (ct_expected t) +:+ ", got " +:+ i64_text value))]
      else if match ct_expected_output t with Some expected => bool_decide (expected ≠ output) | None => false end
      then [finding "code.test_failed" (detail t "printed output differs from the expected output")]
      else []
  | Err Timeout =>
      [finding "code.timeout"
         ("test " +:+ ct_id t +:+ ": exceeded " +:+ to_string FUEL_PER_TEST +:+ " evaluation steps")]
  | Err (Resource what) => [finding "code.resource" ("test " +:+ ct_id t +:+ ": " +:+ what)]
  | Err (Runtime what) => [finding "code.test_failed" (detail t ("runtime error: " +:+ what))]
  end).

(** The loop over the tests. *)
Fixpoint tests_findings (functions : gmap string Function) (entry : string) (tests : list CodeTest)
    (findings : list Finding) : option (list Finding) :=
  match tests with
  | [] => Some findings
  | t :: tests =>
      found ← test_findings functions entry t;
      tests_findings functions entry tests (findings ++ found)
  end.

Section Verify.
Context (debug : string → string).

Definition CodeTestVerifier_verify (v : CodeTestVerifier) (candidate : string) : option VerificationReport :=
  match cv_task_problem v with
  | Some problem => status_report StatusUnknown [finding "code.task" problem]
  | None =>
      if (MAX_SOURCE_BYTES <? slen candidate)%N then
        status_report StatusFail [finding "code.oversize"
          ("source is " +:+ to_string (slen candidate) +:+ " bytes, the bound is " +:+ to_string MAX_SOURCE_BYTES)]
      else
        parsed ← parse candidate;
        match parsed with
        | Err error =>
            status_report StatusFail [finding "code.syntax"
              ("line " +:+ to_string (N.of_nat (se_line error)) +:+ ": " +:+ se_why error)]
        | Ok functions =>
            let entry := task_entry (cv_task v) in
            if bool_decide (functions !! entry = None) then
              status_report StatusFail [finding "code.syntax"
                ("entry function " +:+ debug entry +:+ " is not defined")]
            else
              findings ← tests_findings functions entry (task_tests (cv_task v)) [];
              status_report (match findings with [] => StatusPass | _ => StatusFail end) findings
        end
  end.

#[export] Instance CodeTestVerifier_named : NamedVerifier CodeTestVerifier string := {|
  named_verifier := CodeTestVerifier_verify;
  verifier_name := λ _, "code-test"
|}.
End Verify.

(** * The verdicts of the code verifier

    A candidate passes exactly when it is a program in which the entry means what
    every test expects, within the bounds; a hidden test gives nothing away but
    its id. *)

Local Open Scope nat_scope.
Local Open Scope list_scope.

(** ** Tasks *)

(** The tasks the verifier judges. *)
Definition test_shape_ok (t : CodeTest) : Prop :=
  length (ct_args t) ≤ 8 ∧ ∀ o, ct_expected_output t = Some o → (slen o <= MAX_OUTPUT_BYTES)%N.

Definition task_ok (task : CodeTask) : Prop :=
  task_tests task ≠ [] ∧ length (task_tests task) ≤ MAX_TESTS ∧
  task_entry task ≠ "" ∧ (slen (task_entry task) <= MAX_TEST_ID_BYTES)%N ∧
  NoDup (ct_id <$> task_tests task) ∧
  Forall (λ t, ct_id t ≠ "" ∧ (slen (ct_id t) <= MAX_TEST_ID_BYTES)%N ∧ test_shape_ok t) (task_tests task).

Lemma any_bad_id_false ids tests : any_bad_id ids tests = false ↔
  NoDup (ct_id <$> tests) ∧
  Forall (λ t, ct_id t ≠ "" ∧ (slen (ct_id t) <= MAX_TEST_ID_BYTES)%N ∧ ct_id t ∉ ids) tests.
Proof.
  revert ids. induction tests as [|t tests IH]; intros ids; cbn [any_bad_id fmap list_fmap].
  { split; [|done]. split; constructor. }
  rewrite NoDup_cons, Forall_cons.
  destruct (bool_decide (ct_id t = "")) eqn:E1; cbn [orb].
  { apply bool_decide_eq_true in E1. split; [done|]. by intros (_ & (? & _) & _). }
  destruct (N.ltb_spec MAX_TEST_ID_BYTES (slen (ct_id t))) as [E2|E2]; cbn [orb].
  { split; [done|]. intros (_ & (_ & ? & _) & _). lia. }
  apply bool_decide_eq_false in E1. destruct (bool_decide (ct_id t ∈ ids)) eqn:E3.
  { apply bool_decide_eq_true in E3. split; [done|]. by intros (_ & (_ & _ & ?) & _). }
  apply bool_decide_eq_false in E3. rewrite IH, !Forall_forall, list_elem_of_fmap. split.
  - intros [Hnd HF]. split; [split; [|done]|split; [done|]].
    + intros (t' & Ht & Hin). destruct (HF t' Hin) as (_ & _ & H). set_solver.
    + intros t' Hin. destruct (HF t' Hin) as (? & ? & H). set_solver.
  - intros [[Hni Hnd] [_ HF]]. split; [done|]. intros t' Hin. destruct (HF t' Hin) as (? & ? & H). split_and!; [done|done|].
    intros [Heq%elem_of_singleton|?]%elem_of_union; [|done]. apply Hni. eauto.
Qed.

Lemma bad_shape_false t : bad_shape t = false ↔ test_shape_ok t.
Proof.
  unfold bad_shape, test_shape_ok. rewrite orb_false_iff, bool_decide_eq_false.
  destruct (ct_expected_output t) as [o|]; [rewrite N.ltb_ge|]; split; intros [? H]; (split; [lia|]).
  - by intros ? [= <-].
  - by apply H.
  - done.
  - done.
Qed.

Lemma task_problem_none task : task_problem task = None ↔ task_ok task.
Proof.
  unfold task_problem, task_ok. destruct task as [entry tests]; cbn [task_tests task_entry].
  case_bool_decide as E1; [naive_solver|].
  case_bool_decide as E2; [split; [done|]; intros (_ & ? & _); lia|].
  case_bool_decide as E3; [naive_solver|]. cbn [orb].
  destruct (N.ltb_spec MAX_TEST_ID_BYTES (slen entry)) as [E4|E4]; [split; [done|]; intros (_ & _ & _ & ? & _); lia|].
  destruct (any_bad_id ∅ tests) eqn:E5.
  - split; [done|]. intros (_ & _ & _ & _ & Hnd & HF). rewrite <- not_false_iff_true in E5. destruct E5.
    apply any_bad_id_false. split; [done|]. eapply Forall_impl; [exact HF|]. set_solver.
  - apply any_bad_id_false in E5 as [Hnd HF]. destruct (existsb bad_shape tests) eqn:E6.
    + apply existsb_exists in E6 as (t & Hin%list_elem_of_In & Hb). split; [done|]. intros (_ & _ & _ & _ & _ & HF').
      rewrite Forall_forall in HF'. destruct (HF' t Hin) as (_ & _ & Hs%bad_shape_false). congruence.
    + split; [|done]. intros _. split_and!; [done|lia|done|done|done|]. rewrite Forall_forall in *. intros t Hin.
      destruct (HF t Hin) as (? & ? & _). split_and!; [done|done|]. apply bad_shape_false. destruct (bad_shape t) eqn:Eb; [|done].
      assert (existsb bad_shape tests = true); [|congruence]. apply existsb_exists. exists t. by rewrite <- list_elem_of_In.
Qed.

(** ** Tests *)

(** The entry means what the test expects, within the bounds. *)
Definition passes (fs : gmap string Function) (entry : string) (t : CodeTest) : Prop :=
  ∃ o k, calls fs start entry (ct_args t) "" o k (ct_expected t) ∧ (steps k <= FUEL_PER_TEST)%N ∧ fits k = true ∧
    ∀ expected, ct_expected_output t = Some expected → o = expected.

Lemma program_scoped fs : program_ok fs → map_Forall (λ _, function_scoped) fs.
Proof. intros [_ H] name f Hf. by apply function_ok_scoped, (H name). Qed.

Lemma refuted t k : refutes t FUEL_PER_TEST k → (steps k <= FUEL_PER_TEST)%N → fits k = true → False.
Proof. destruct t; cbn; [lia|congruence|done]. Qed.

Lemma test_findings_ok fs entry t : program_ok fs →
  ∃ found, test_findings fs entry t = Some found ∧ (found = [] ↔ passes fs entry t).
Proof.
  intros Hfs%program_scoped. unfold test_findings.
  destruct (run_test_exact fs entry (ct_args t) Hfs) as (r & -> & Hr). cbn [mbind option_bind]. eexists. split; [done|].
  destruct r as [[v o]|tr].
  2: { split; [by destruct tr|]. intros (o & k & Hc & Hs & Hf & _). by destruct (refuted tr k (Hr _ _ _ Hc)). }
  destruct Hr as (k & Hc & Hs & Hf & HU). case_bool_decide as Hv.
  { split; [done|]. intros (o' & k' & Hc' & _). destruct (HU _ _ _ Hc') as (_ & _ & ?). congruence. }
  subst v. destruct (ct_expected_output t) as [out|] eqn:Eo.
  - case_bool_decide as Ho.
    + split; [done|]. intros (o' & k' & Hc' & _ & _ & H). destruct (HU _ _ _ Hc') as (-> & _ & _). destruct Ho. symmetry. by apply H.
    + subst out. split; [|done]. intros _. exists o, k. split_and!; try done. intros out E. congruence.
  - split; [|done]. intros _. exists o, k. split_and!; try done. intros out E. congruence.
Qed.

Lemma tests_findings_ok fs entry tests acc : program_ok fs →
  ∃ found, tests_findings fs entry tests acc = Some found ∧ (found = [] ↔ acc = [] ∧ Forall (passes fs entry) tests).
Proof.
  intros Hfs. revert acc. induction tests as [|t tests IH]; intros acc; cbn [tests_findings].
  - exists acc. split; [done|]. split; [|by intros [? _]]. intros ->. split; [done|constructor].
  - destruct (test_findings_ok fs entry t Hfs) as (f1 & -> & H1). cbn [mbind option_bind].
    destruct (IH (acc ++ f1)) as (found & -> & H). exists found. split; [done|].
    rewrite H, app_nil, Forall_cons, H1. tauto.
Qed.

(** ** Verdicts *)

(** The parser of candidates returns on every text, and what it accepts is
    well formed: at most 32 functions, every variable of a function has a slot of
    its frame, the parameters the first ones, no expression is higher than 32 and
    no call has more than 8 arguments. *)
Theorem code_programs_well_formed source :
  ∃ r, parse source = Some r ∧ ∀ fs, r = Ok fs → program_ok fs ∧ map_Forall (λ _, function_scoped) fs.
Proof.
  destruct (parse_ok source) as (r & -> & H). exists r. split; [done|]. intros fs Hfs%H. split; [done|by apply program_scoped].
Qed.

(** C26: running a program is exact.  For every accepted program, entry and
    arguments the interpreter returns.  It returns a value and an output exactly
    when they are the meaning of the call in the big-step semantics, reached in
    the allowed number of steps and within the bounds on memory, calls, recursion
    and output.  A timeout says that the meaning, if there is one, takes more
    steps; a resource trap that it breaks a bound; a runtime trap that there is
    none. *)
Theorem code_runs_exact source entry args :
  ∃ p, parse source = Some p ∧ ∀ fs, p = Ok fs → ∃ r, run_test fs entry args = Some r ∧
  (∀ v o, r = Ok (v, o) ↔
     ∃ k, calls fs start entry args "" o k v ∧ (steps k <= FUEL_PER_TEST)%N ∧ fits k = true) ∧
  (r = Err Timeout → ∀ o k v, calls fs start entry args "" o k v → (FUEL_PER_TEST < steps k)%N) ∧
  (∀ why, r = Err (Resource why) → ∀ o k v, calls fs start entry args "" o k v → fits k = false) ∧
  (∀ why, r = Err (Runtime why) → ∀ o k v, ¬ calls fs start entry args "" o k v).
Proof.
  destruct (parse_ok source) as (p & -> & Hp). exists p. split; [done|]. intros fs Hfs%Hp%program_scoped.
  destruct (run_test_exact fs entry args Hfs) as (r & Er & Hr). exists r. split; [done|].
  destruct r as [[v o]|t].
  - destruct Hr as (k & Hc & Hs & Hf & HU). split_and!; [|done|done|done]. intros v' o'. split.
    + intros [= <- <-]. eauto.
    + intros (k' & (-> & -> & ->)%HU & _). done.
  - split_and!.
    + intros v o. split; [done|]. intros (k & Hc & Hs & Hf). by destruct (refuted t k (Hr _ _ _ Hc)).
    + intros [= ->] o k v Hc. by apply Hr in Hc.
    + intros why [= ->] o k v Hc. by apply Hr in Hc.
    + intros why [= ->] o k v Hc. by apply Hr in Hc.
Qed.

(** C25: the code verifier decides its tests.  For every task and candidate it
    answers, with a score in [0, 1].  It passes exactly when the task is well
    formed and the candidate, within its bound, is a program in which the entry
    means what every test expects; it answers [Unknown] exactly when the task is
    not well formed, and fails otherwise. *)
Theorem code_verdict debug task candidate : ∃ r,
  CodeTestVerifier_verify debug (CodeTestVerifier_new task) candidate = Some r ∧ score_ok r ∧
  (vr_status r = StatusPass ↔ task_ok task ∧ (slen candidate <= MAX_SOURCE_BYTES)%N ∧
     ∃ fs, parse candidate = Some (Ok fs) ∧ Forall (passes fs (task_entry task)) (task_tests task)) ∧
  (vr_status r = StatusUnknown ↔ ¬ task_ok task) ∧ vr_status r ≠ StatusDisputed.
Proof.
  set (good := ∃ fs, parse candidate = Some (Ok fs) ∧ Forall (passes fs (task_entry task)) (task_tests task)).
  unfold CodeTestVerifier_verify, CodeTestVerifier_new. cbn [cv_task_problem cv_task].
  assert (Hone : ∀ st f, (st = StatusPass ↔ task_ok task ∧ (slen candidate <= MAX_SOURCE_BYTES)%N ∧ good) →
    (st = StatusUnknown ↔ ¬ task_ok task) → st ≠ StatusDisputed → ∃ r, status_report st f = Some r ∧ score_ok r ∧
    (vr_status r = StatusPass ↔ task_ok task ∧ (slen candidate <= MAX_SOURCE_BYTES)%N ∧ good) ∧
    (vr_status r = StatusUnknown ↔ ¬ task_ok task) ∧ vr_status r ≠ StatusDisputed).
  { intros st f H1 H2 H3. destruct (status_report_ok st f) as (sc & Hsc & ->). eexists. split; [done|]. done. }
  destruct (task_problem task) as [why|] eqn:Ep.
  { assert (Hno : ¬ task_ok task) by (intros H%task_problem_none; congruence). apply Hone; naive_solver. }
  apply task_problem_none in Ep as Hok.
  destruct (N.ltb_spec MAX_SOURCE_BYTES (slen candidate)) as [Hl|Hl].
  { apply Hone; [|naive_solver|done]. split; [done|]. intros (_ & ? & _). lia. }
  destruct (parse_ok candidate) as (p & E & Hp). rewrite E. cbn [mbind option_bind].
  destruct p as [fs|e].
  2: { apply Hone; [|naive_solver|done]. split; [done|]. intros (_ & _ & fs & ? & _). congruence. }
  assert (Hgood : good ↔ Forall (passes fs (task_entry task)) (task_tests task)).
  { split; [intros (fs' & E' & HF); by replace fs with fs' by congruence|intros HF; by exists fs]. }
  clearbody good. case_bool_decide as He.
  { apply Hone; [|naive_solver|done]. split; [done|]. intros (_ & _ & HF%Hgood). destruct Hok as (Hne & _).
    destruct (task_tests task) as [|t tests]; [done|]. apply Forall_cons_1 in HF as [(o & k & Hc & _) _]. inversion Hc. congruence. }
  destruct (tests_findings_ok fs (task_entry task) (task_tests task) [] (Hp fs eq_refl)) as (found & -> & Hf). cbn [mbind option_bind].
  apply Hone; [|destruct found; naive_solver|by destruct found].
  rewrite Hgood. destruct found; naive_solver.
Qed.

(** ** Hidden tests *)

(** Tests that a report may not tell apart: hidden, with the same id and arguments
    and the same outcome. *)
Definition alike (fs : gmap string Function) (entry : string) (t t' : CodeTest) : Prop :=
  t = t' ∨
  (ct_id t = ct_id t' ∧ ct_args t = ct_args t' ∧ ct_visibility t = Hidden ∧ ct_visibility t' = Hidden ∧
   (passes fs entry t ↔ passes fs entry t')).

Lemma failing_hidden_findings fs entry t t' found found' :
  ct_id t = ct_id t' → ct_args t = ct_args t' → ct_visibility t = Hidden → ct_visibility t' = Hidden →
  test_findings fs entry t = Some found → test_findings fs entry t' = Some found' →
  found ≠ [] → found' ≠ [] → found = found'.
Proof.
  intros Hid Hargs Hv Hv'. unfold test_findings, detail. rewrite Hid, Hargs, Hv, Hv'.
  destruct (run_test fs entry (ct_args t')) as [[[v o]|[| |]]|]; cbn; try congruence.
  repeat case_bool_decide; destruct (ct_expected_output t), (ct_expected_output t'); repeat case_bool_decide; congruence.
Qed.

Lemma alike_findings fs entry t t' : program_ok fs → alike fs entry t t' →
  test_findings fs entry t = test_findings fs entry t'.
Proof.
  intros Hfs [->|(Hid & Hargs & Hv & Hv' & Hp)]; [done|].
  destruct (test_findings_ok fs entry t Hfs) as (f & E & H), (test_findings_ok fs entry t' Hfs) as (f' & E' & H').
  rewrite E, E'. f_equal. destruct f as [|x f].
  - symmetry. by apply H', Hp, H.
  - eapply failing_hidden_findings; [exact Hid|done..|]. intros H1%H'%Hp%H. done.
Qed.

Lemma alike_tests_findings fs entry tests tests' acc : program_ok fs → Forall2 (alike fs entry) tests tests' →
  tests_findings fs entry tests acc = tests_findings fs entry tests' acc.
Proof.
  intros Hfs HF. revert acc. induction HF as [|t t' tests tests' Ht HF IH]; intros acc; cbn [tests_findings]; [done|].
  rewrite (alike_findings fs entry t t' Hfs Ht). destruct (test_findings fs entry t'); cbn; [apply IH|done].
Qed.

(** C27: hidden tests keep their secret.  The report of a candidate depends on a
    hidden test only through its id, its arguments and whether the candidate
    passes it: two well-formed tasks that differ in what their hidden tests expect, and agree
    on which of them the candidate passes, get the same report. *)
Theorem hidden_tests_secret debug task task' candidate :
  task_ok task → task_ok task' → task_entry task = task_entry task' →
  (∀ fs, parse candidate = Some (Ok fs) →
     Forall2 (alike fs (task_entry task)) (task_tests task) (task_tests task')) →
  CodeTestVerifier_verify debug (CodeTestVerifier_new task) candidate =
  CodeTestVerifier_verify debug (CodeTestVerifier_new task') candidate.
Proof.
  intros H%task_problem_none H'%task_problem_none He Ht. unfold CodeTestVerifier_verify, CodeTestVerifier_new.
  cbn [cv_task_problem cv_task]. rewrite H, H'. destruct (MAX_SOURCE_BYTES <? slen candidate)%N; [done|].
  destruct (parse_ok candidate) as (p & E & Hp). rewrite E. cbn [mbind option_bind].
  destruct p as [fs|e]; [|done]. rewrite <- He. case_bool_decide; [done|].
  by rewrite (alike_tests_findings fs _ _ _ [] (Hp fs eq_refl) (Ht fs E)).
Qed.

(** ** A candidate and its tests *)

Definition double_source : string := "fn twice(n) { return n + n; } fn f(n) { print n; return twice(n) - 1; }".

Definition double_task (hidden : Z) : CodeTask :=
  mkCodeTask "f" [CodeTest_visible (CodeTest_new "shown" [3%Z] 5%Z); CodeTest_new "held-out" [4%Z] hidden].

Definition double_program : gmap string Function :=
  match parse double_source with Some (Ok fs) => fs | _ => ∅ end.

Lemma some_ok_inj {E A} (a b : A) : @Some (result E A) (Ok a) = Some (Ok b) → a = b.
Proof. congruence. Qed.

Lemma double_parses : parse double_source = Some (Ok double_program).
Proof. vm_compute. reflexivity. Qed.

Lemma double_task_ok hidden : task_ok (double_task hidden).
Proof. apply task_problem_none. reflexivity. Qed.

Lemma double_fails hidden : hidden ≠ 7%Z → ¬ passes double_program "f" (CodeTest_new "held-out" [4%Z] hidden).
Proof.
  intros Hh. assert (Hok : program_ok double_program).
  { destruct (parse_ok double_source) as (p & E & Hp). rewrite double_parses in E. apply Hp. congruence. }
  destruct (run_test_exact double_program "f" [4%Z] (program_scoped _ Hok)) as (r & E & Hr).
  assert (Er : run_test double_program "f" [4%Z] = Some (Ok (7%Z, print_text 4))) by (vm_compute; reflexivity).
  rewrite Er in E. injection E as <-. destruct Hr as (k & _ & _ & _ & HU).
  intros (o & k' & (_ & _ & H)%HU & _). exact (Hh H).
Qed.

Lemma hidden_tests_secret_witness :
  CodeTestVerifier_verify (λ s, s) (CodeTestVerifier_new (double_task 1)) double_source =
  CodeTestVerifier_verify (λ s, s) (CodeTestVerifier_new (double_task 2)) double_source.
Proof.
  apply hidden_tests_secret; [apply double_task_ok|apply double_task_ok|reflexivity|].
  intros fs E. rewrite double_parses in E. apply some_ok_inj in E as <-.
  constructor; [by left|]. constructor; [|constructor]. right. do 4 (split; [reflexivity|]).
  split; intros H; [destruct (double_fails 1 ltac:(lia) H)|destruct (double_fails 2 ltac:(lia) H)].
Defined.

(** The visible test passes and the hidden one fails. *)
Example double_report :
  option_map vr_findings (CodeTestVerifier_verify (λ s, s) (CodeTestVerifier_new (double_task 1)) double_source) =
  Some [finding "code.test_failed" "test held-out: failed"].
Proof. vm_compute. reflexivity. Qed.
