(* ===== verification/Digests.v ===== *)
(** * What a digest binds

    PTR compares identities and snapshots by the SHA-256 of a byte string it
    builds from their fields.  SHA-256 is a parameter; what is proved is that
    the byte string determines the fields, so that two different values with
    the same digest exhibit a collision of SHA-256 itself. *)

From S2P Require Import Prelude Bytes Text Types SemDelta SemHost.
From stdpp Require Import options.

(** An encoder whose output, followed by anything, determines its input and
    what follows. *)
Definition PrefixInj {A} (enc : A → list byte) (wf : A → Prop) : Prop :=
  ∀ a b r r', wf a → wf b → enc a ++ r = enc b ++ r' → a = b ∧ r = r'.

Definition fits64 {A} (l : list A) : Prop := (blen l < 2 ^ 64)%N.

Lemma prefix_le n : PrefixInj (le_bytes n) (λ v, v < 256 ^ N.of_nat n)%N.
Proof.
  intros a b r r' Ha Hb H.
  apply app_inj_1 in H as [H ?]; [|by rewrite !length_le_bytes].
  split; [|done]. rewrite <-(le_value_bytes n a), <-(le_value_bytes n b) by done. by rewrite H.
Qed.

Lemma prefix_u64 a b r r' :
  (a < 2 ^ 64)%N → (b < 2 ^ 64)%N → le_bytes 8 a ++ r = le_bytes 8 b ++ r' → a = b ∧ r = r'.
Proof. intros Ha Hb. by apply (prefix_le 8). Qed.

Lemma prefix_bytes : PrefixInj put_snapshot_bytes fits64.
Proof.
  intros a b r r' Ha Hb H. unfold put_snapshot_bytes in H. rewrite <-!app_assoc in H.
  apply prefix_u64 in H as [Hl H]; [|done..].
  apply app_inj_1 in H as [??]; [done|]. unfold blen in Hl. lia.
Qed.

Lemma prefix_text : PrefixInj put_text (λ s, fits64 (str_bytes s)).
Proof.
  intros a b r r' Ha Hb H. apply (prefix_bytes (str_bytes a) (str_bytes b)) in H as [H ?]; [|done..].
  split; [by apply str_bytes_inj|done].
Qed.

Lemma prefix_list {A} (enc : A → list byte) (wf : A → Prop) :
  PrefixInj enc wf →
  ∀ l k r r', length l = length k → Forall wf l → Forall wf k →
  mjoin (enc <$> l) ++ r = mjoin (enc <$> k) ++ r' → l = k ∧ r = r'.
Proof.
  intros He l. induction l as [|a l IH]; intros [|b k] r r' Hlen Hl Hk H; try done.
  apply Forall_cons in Hl as [? Hl], Hk as [? Hk].
  change ((enc a ++ mjoin (enc <$> l)) ++ r = (enc b ++ mjoin (enc <$> k)) ++ r') in H.
  rewrite <-!app_assoc in H. apply He in H as [-> H]; [|done..].
  apply IH in H as [-> ->]; auto.
Qed.

(** ** Identities *)
Record identity_fits (i : IdentityContext) : Prop := {
  if_subject : fits64 (str_bytes (ic_subject i));
  if_issuer : fits64 (str_bytes (ic_issuer i));
  if_groups : fits64 (ic_groups i);
  if_group : Forall (λ g, fits64 (str_bytes g)) (ic_groups i);
  if_session : fits64 (str_bytes (ic_session_id i));
  if_issued : (ic_issued_at i < 2 ^ 64)%N;
  if_expires : (ic_expires_at i < 2 ^ 64)%N
}.

Lemma level_byte_inj l l' :
  byte_of_N (authentication_level_code l) = byte_of_N (authentication_level_code l') → l = l'.
Proof. by destruct l, l'. Qed.

Definition same_claims (i j : IdentityContext) : Prop :=
  ic_subject i = ic_subject j ∧ ic_issuer i = ic_issuer j ∧ ic_groups i = ic_groups j ∧
  ic_authentication_level i = ic_authentication_level j ∧
  ic_session_id i = ic_session_id j ∧ ic_issued_at i = ic_issued_at j ∧
  ic_expires_at i = ic_expires_at j.

Lemma identity_bytes_inj i j :
  identity_fits i → identity_fits j → identity_bytes i = identity_bytes j → same_claims i j.
Proof.
  intros [] [] H. unfold identity_bytes in H.
  apply prefix_text in H as [Hsub H]; [|done..]. apply prefix_text in H as [Hiss H]; [|done..].
  apply prefix_u64 in H as [Hlen H]; [|done..].
  apply (prefix_list _ _ prefix_text) in H as [Hgr H];
    [|unfold blen in Hlen; lia|done|done].
  apply app_inj_1 in H as [[= Hlev%level_byte_inj] H]; [|done].
  apply prefix_text in H as [Hses H]; [|done..].
  apply prefix_u64 in H as [Hi H]; [|done..].
  rewrite <-(app_nil_r (le_bytes 8 _)), <-(app_nil_r (le_bytes 8 (ic_expires_at j))) in H.
  apply prefix_u64 in H as [He _]; [|done..]. by repeat split.
Qed.

(** ** Snapshots *)
Definition value_fits64 (v : SemanticValue) : Prop :=
  match v with
  | Text t => fits64 (str_bytes t)
  | Payload p => fits64 (str_bytes (sp_type_id p)) ∧ fits64 (str_bytes (sp_source p)) ∧
                 fits64 (sp_bytes p)
  end.
Definition entry_fits64 (e : string * SemanticValue) : Prop :=
  fits64 (str_bytes e.1) ∧ value_fits64 e.2.

Definition snapshot_fits (s : SemanticSnapshot) : Prop :=
  (snap_revision s < 2 ^ 64)%N ∧ (N.of_nat (size (ground (snap_state s))) < 2 ^ 64)%N ∧
  map_Forall (λ k v, entry_fits64 (k, v)) (ground (snap_state s)).

Lemma prefix_entry : PrefixInj snapshot_entry_bytes entry_fits64.
Proof.
  intros [k v] [k' v'] r r' [Hk Hv] [Hk' Hv'] H. unfold snapshot_entry_bytes in H.
  cbn [fst snd] in *. rewrite <-!app_assoc in H.
  apply prefix_bytes in H as [->%str_bytes_inj H]; [|done..].
  destruct v as [t|[ty src b]], v' as [t'|[ty' src' b']];
    cbn [value_fits64 sp_type_id sp_source sp_bytes] in *; rewrite <-!app_assoc in H;
    apply app_inj_1 in H as [Htag H]; try done.
  - apply prefix_bytes in H as [->%str_bytes_inj ->]; done.
  - destruct Hv as (?&?&?), Hv' as (?&?&?).
    apply prefix_bytes in H as [->%str_bytes_inj H]; [|done..].
    apply prefix_bytes in H as [->%str_bytes_inj H]; [|done..].
    apply prefix_bytes in H as [-> ->]; done.
Qed.

Lemma entries_fit s : snapshot_fits s → Forall entry_fits64 (btree_list (ground (snap_state s))).
Proof.
  intros (_ & _ & H). apply Forall_forall. intros [k v] Hin. apply elem_of_btree_list in Hin.
  by apply H.
Qed.

Lemma snapshot_bytes_inj s t :
  snapshot_fits s → snapshot_fits t → snapshot_bytes s = snapshot_bytes t →
  snap_revision s = snap_revision t ∧ ground (snap_state s) = ground (snap_state t).
Proof.
  intros Hs Ht H. unfold snapshot_bytes in H. apply app_inv_head in H.
  pose proof (entries_fit s Hs) as Hse. pose proof (entries_fit t Ht) as Hte.
  destruct Hs as (? & ? & _), Ht as (? & ? & _).
  apply prefix_u64 in H as [Hr H]; [|done..]. apply prefix_u64 in H as [Hl H]; [|done..].
  split; [done|].
  rewrite <-(app_nil_r (mjoin _)), <-(app_nil_r (mjoin (snapshot_entry_bytes <$> btree_list (ground (snap_state t))))) in H.
  apply (prefix_list _ _ prefix_entry) in H as [Heq _]; [|rewrite !btree_list_length; lia|done..].
  rewrite <-(btree_list_to_map (ground (snap_state s))), Heq. apply btree_list_to_map.
Qed.

(** ** Theorems *)

(** A valid identity digest pins every claim of the identity.  If two
    identities both carry their own canonical digest and the digests are equal,
    they make the same claims (subject, issuer, groups in order, authentication
    level, session, both times), unless the two byte strings that were hashed
    are a SHA-256 collision. *)
Theorem identity_digest_binds sha256 i j :
  identity_fits i → identity_fits j →
  has_valid_digest sha256 i = true → has_valid_digest sha256 j = true →
  ic_identity_digest i = ic_identity_digest j →
  i = j ∨ (identity_bytes i ≠ identity_bytes j ∧
           sha256 (identity_bytes i) = sha256 (identity_bytes j)).
Proof.
  intros Hi Hj Hvi Hvj Hd. unfold has_valid_digest in *. bool_prop.
  destruct (decide (identity_bytes i = identity_bytes j)) as [Heq|Hne].
  - left. apply identity_bytes_inj in Heq as (?&?&?&?&?&?&?); [|done..].
    destruct i, j; simpl in *. by subst.
  - right. split; [done|]. unfold identity_canonical_digest in *. congruence.
Qed.

(** The canonical snapshot digest pins the revision and every key, kind
    and value of the snapshot: snapshots with equal digests show the same
    values at the same revision, unless the hashed byte strings collide. *)
Theorem snapshot_digest_binds sha256 s t :
  snapshot_fits s → snapshot_fits t →
  snapshot_digest sha256 s = snapshot_digest sha256 t →
  (snap_revision s = snap_revision t ∧ ground (snap_state s) = ground (snap_state t)) ∨
  (snapshot_bytes s ≠ snapshot_bytes t ∧
   sha256 (snapshot_bytes s) = sha256 (snapshot_bytes t)).
Proof.
  intros Hs Ht Hd. destruct (decide (snapshot_bytes s = snapshot_bytes t)) as [Heq|Hne].
  - left. by apply snapshot_bytes_inj.
  - right. by split.
Qed.

(** ** Witnesses *)
Definition demo_identity : IdentityContext :=
  {| ic_subject := "alice"; ic_issuer := "idp"; ic_groups := ["ops"];
     ic_authentication_level := MultiFactor; ic_session_id := "s1";
     ic_issued_at := 10; ic_expires_at := 20;
     ic_identity_digest := [x01] |}.

Lemma identity_digest_binds_witness :
  demo_identity = demo_identity ∨
  (identity_bytes demo_identity ≠ identity_bytes demo_identity ∧
   (λ _ : list byte, [x01]) (identity_bytes demo_identity) = [x01]).
Proof.
  assert (identity_fits demo_identity) as Hf.
  { split; [| | |constructor; [|constructor]|..]; vm_compute; reflexivity. }
  apply (identity_digest_binds (λ _, [x01]) demo_identity demo_identity);
    [exact Hf|exact Hf|vm_compute; reflexivity|vm_compute; reflexivity|reflexivity].
Defined.

Definition demo_shot (text : string) : SemanticSnapshot :=
  {| snap_revision := 3;
     snap_state := {| st_revision := 3; ground := {["k" := Text text]}; st_dependencies := ∅ |};
     snap_owner := 0 |}.

Lemma snapshot_digest_binds_witness :
  (snap_revision (demo_shot "a") = snap_revision (demo_shot "a") ∧
   ground (snap_state (demo_shot "a")) = ground (snap_state (demo_shot "a"))) ∨
  (snapshot_bytes (demo_shot "a") ≠ snapshot_bytes (demo_shot "a") ∧
   snapshot_bytes (demo_shot "a") = snapshot_bytes (demo_shot "a")).
Proof.
  assert (snapshot_fits (demo_shot "a")) as Hf.
  { split; [vm_compute; reflexivity|]. split; [vm_compute; reflexivity|].
    apply map_Forall_singleton. split; vm_compute; reflexivity. }
  apply (snapshot_digest_binds id (demo_shot "a") (demo_shot "a")); [exact Hf|exact Hf|reflexivity].
Defined.
