(* ===== verification/BranchOps.v ===== *)
(** * Branch operations: crates/ptr-branch, ops.rs and the errors of error.rs

    A speculative branch changes keys by five operations.  [Put] and [Remove]
    overwrite; [Add], [SetInsert] and [SetRemove] are defined on the value that
    is present when they are merged.  Counters are eight bytes of an [i64], sets
    a canonical list of texts.  The file gives the operations, shows that the
    two value formats are read back exactly, and what a sequence of operations
    leaves: the sum of the additions, and for each member the last operation on
    it. *)

From S2P Require Import Prelude Bytes Text SemDelta SemDeltaFacts SemHost Digests.
From stdpp Require Import options.

(** [BranchError]. *)
Inductive BranchError :=
| UnreadTarget (key : string)
| ReservedNamespace (key : string)
| InvalidValue (key : string)
| NotACounter (key : string)
| NotASet (key : string)
| InvalidMember (key : string)
| CounterOverflow (key : string)
| SnapshotBehindBase (base snapshot : N)
| Conflict (keys : gset string)
| LifecycleChanged (targets : gset string)
| ConflictingReliance (target : string) (relied declared : N)
| MalformedSeal (key reason : string)
| DerivedRemoval (key : string)
| EvictedOperand (key : string) (input : option string).
#[export] Instance BranchError_eq_dec : EqDecision BranchError.
Proof. solve_decision. Defined.

Definition COUNTER_TYPE : string := "ptr.counter.i64".
Definition SET_TYPE : string := "ptr.set.utf8".
Definition OP_SOURCE : string := "ptr-branch/op".

(** The amount of an [Add] is an [i64]. *)
Inductive BranchOp :=
| Put (key : string) (value : SemanticValue)
| Remove (key : string)
| Add (key : string) (amount : Z)
| SetInsert (key member : string) (in_base : bool)
| SetRemove (key member : string) (in_base : bool).
#[export] Instance BranchOp_eq_dec : EqDecision BranchOp.
Proof. solve_decision. Defined.

Definition op_key (op : BranchOp) : string :=
  match op with
  | Put key _ | Remove key | Add key _ | SetInsert key _ _ | SetRemove key _ _ => key
  end.

Definition commutes (op : BranchOp) : bool :=
  match op with
  | Put _ _ | Remove _ => false
  | Add _ _ | SetInsert _ _ _ | SetRemove _ _ _ => true
  end.

(** The member, whether it is in the set afterwards, and [in_base]. *)
Definition set_member (op : BranchOp) : option (string * bool * bool) :=
  match op with
  | SetInsert _ member in_base => Some (member, true, in_base)
  | SetRemove _ member in_base => Some (member, false, in_base)
  | Put _ _ | Remove _ | Add _ _ => None
  end.

(** ** [i64] *)
Definition i64_ok (z : Z) : bool := (- 2 ^ 63 <=? z)%Z && (z <? 2 ^ 63)%Z.
Definition checked_add_i64 (a b : Z) : option Z :=
  if i64_ok (a + b) then Some (a + b)%Z else None.
(** [i64::to_le_bytes] and [i64::from_le_bytes], in two's complement. *)
Definition i64_le_bytes (z : Z) : list byte := le_bytes 8 (Z.to_N (z mod 2 ^ 64)).
Definition i64_of_le (bs : list byte) : Z :=
  let n := Z.of_N (le_value bs) in
  if (n <? 2 ^ 63)%Z then n else (n - 2 ^ 64)%Z.

(** ** Values *)
Definition counter_value (count : Z) : SemanticValue :=
  Payload {| sp_type_id := COUNTER_TYPE; sp_source := OP_SOURCE; sp_bytes := i64_le_bytes count |}.

Definition member_bytes (member : string) : list byte :=
  le_bytes 4 (slen member) ++ str_bytes member.

(** [size.checked_add(4)?.checked_add(member.len())] over the members. *)
Definition size_step (size : option N) (member : string) : option N :=
  size ← size; size ← checked_add_u64 size 4; checked_add_u64 size (slen member).
Definition set_size (members : list string) : option N := foldl size_step (Some 4%N) members.

(** The two [u32::try_from] fail on a length that does not fit. *)
Definition set_value (members : gset string) : option SemanticValue :=
  let l := bset_list members in
  if existsb (λ m, bool_decide (m = "")) l then None else
  size ← set_size l;
  if (MAX_DELTA_BYTES <? size)%N then None else
  if negb (u32_ok (blen l)) then None else
  if negb (forallb (λ m, u32_ok (slen m)) l) then None else
  Some (Payload {| sp_type_id := SET_TYPE; sp_source := OP_SOURCE;
                   sp_bytes := le_bytes 4 (blen l) ++ mjoin (member_bytes <$> l) |}).

Definition read_counter_value (value : SemanticValue) : option Z :=
  match value with
  | Payload payload =>
      if bool_decide (sp_type_id payload = COUNTER_TYPE)
      then if (length (sp_bytes payload) =? 8)%nat then Some (i64_of_le (sp_bytes payload)) else None
      else None
  | Text _ => None
  end.

(** [bytes.get(offset..offset + n)], with the unread rest for the offset. *)
Definition get_bytes (n : N) (bs : list byte) : option (list byte * list byte) :=
  if (blen bs <? n)%N then None else Some (take (N.to_nat n) bs, drop (N.to_nat n) bs).

(** The loop [for _ in 0..count]. *)
Fixpoint read_members (count : nat) (bs : list byte) : option (list string * list byte) :=
  match count with
  | O => Some ([], bs)
  | S count =>
      '(len, bs) ← get_bytes 4 bs;
      '(member, bs) ← get_bytes (le_value len) bs;
      if negb (str_ok (bytes_str member)) then None else
      '(members, bs) ← read_members count bs;
      Some (bytes_str member :: members, bs)
  end.

(** [members.windows(2).all(|pair| pair[0] < pair[1])]. *)
Fixpoint ascending_members (l : list string) : bool :=
  match l with
  | a :: (b :: _) as l' => String.ltb a b && ascending_members l'
  | _ => true
  end.

Definition read_set_value (value : SemanticValue) : option (gset string) :=
  match value with
  | Text _ => None
  | Payload payload =>
      if negb (bool_decide (sp_type_id payload = SET_TYPE)) then None else
      '(count, bs) ← get_bytes 4 (sp_bytes payload);
      '(members, bs) ← read_members (N.to_nat (le_value count)) bs;
      if bool_decide (bs = []) && ascending_members members
         && forallb (λ m, negb (bool_decide (m = ""))) members
      then Some (list_to_set members) else None
  end.

Definition holds_member (value : option SemanticValue) (member : string) : bool :=
  match value ≫= read_set_value with
  | Some members => bool_decide (member ∈ members)
  | None => false
  end.

Definition read_counter (key : string) (value : option SemanticValue) : result BranchError Z :=
  match value with
  | None => Ok 0%Z
  | Some value => ok_or (read_counter_value value) (NotACounter key)
  end.

Definition read_set (key : string) (value : option SemanticValue) :
    result BranchError (gset string) :=
  match value with
  | None => Ok ∅
  | Some value => ok_or (read_set_value value) (NotASet key)
  end.

Definition encode_set (key : string) (members : gset string) : result BranchError SemanticValue :=
  ok_or (set_value members) (InvalidValue key).

Definition check_member (key member : string) : result BranchError unit :=
  if bool_decide (member = "") then Err (InvalidMember key) else Ok tt.

(** [BranchOp::apply]. *)
Definition op_apply (op : BranchOp) (current : option SemanticValue) :
    result BranchError (option SemanticValue) :=
  match op with
  | Put _ value => Ok (Some value)
  | Remove _ => Ok None
  | Add key amount =>
      let? now := read_counter key current in
      let? next := ok_or (checked_add_i64 now amount) (CounterOverflow key) in
      Ok (Some (counter_value next))
  | SetInsert key member _ =>
      check_member key member ;?
      let? set := read_set key current in
      let? value := encode_set key ({[member]} ∪ set) in Ok (Some value)
  | SetRemove key member _ =>
      check_member key member ;?
      let? set := read_set key current in
      let? value := encode_set key (set ∖ {[member]}) in Ok (Some value)
  end.

(** [ops.iter().try_fold(value, |value, op| op.apply(value))]. *)
Fixpoint fold_ops (ops : list BranchOp) (value : option SemanticValue) :
    result BranchError (option SemanticValue) :=
  match ops with
  | [] => Ok value
  | op :: ops => let? value := op_apply op value in fold_ops ops value
  end.

(** An operation that exists in Rust: its amount is an [i64], its member a
    [String]. *)
Definition branch_op_ok (op : BranchOp) : bool :=
  match op with
  | Add _ amount => i64_ok amount
  | SetInsert _ member _ | SetRemove _ member _ => str_ok member
  | Put _ _ | Remove _ => true
  end.

(** ** Counters are read back *)
Lemma i64_ok_iff z : i64_ok z = true ↔ (- 2 ^ 63 ≤ z < 2 ^ 63)%Z.
Proof. unfold i64_ok. rewrite andb_true_iff, Z.leb_le, Z.ltb_lt. done. Qed.

Lemma i64_roundtrip z : i64_ok z = true → i64_of_le (i64_le_bytes z) = z.
Proof.
  rewrite i64_ok_iff. intros Hz. unfold i64_of_le, i64_le_bytes.
  assert (0 ≤ z mod 2 ^ 64 < 2 ^ 64)%Z as Hm by (apply Z.mod_pos_bound; lia).
  rewrite le_value_bytes by (change (256 ^ N.of_nat 8)%N with (2 ^ 64)%N; lia).
  rewrite Z2N.id by lia. destruct (decide (0 ≤ z)%Z).
  - rewrite Z.mod_small by lia. rewrite (proj2 (Z.ltb_lt _ _)) by lia. done.
  - replace (z mod 2 ^ 64)%Z with (z + 2 ^ 64)%Z
      by (rewrite <-(Z_mod_plus_full z 1), Z.mod_small by lia; lia).
    rewrite (proj2 (Z.ltb_ge _ _)) by lia. lia.
Qed.

Lemma i64_of_le_ok bs : length bs = 8 → i64_ok (i64_of_le bs) = true ∧ i64_le_bytes (i64_of_le bs) = bs.
Proof.
  intros Hl. pose proof (le_value_lt bs) as Hlt. rewrite Hl in Hlt.
  change (256 ^ N.of_nat 8)%N with (2 ^ 64)%N in Hlt.
  rewrite <-(le_bytes_value bs) at 3. rewrite Hl. unfold i64_of_le, i64_le_bytes.
  rewrite i64_ok_iff. destruct (Z.ltb_spec (Z.of_N (le_value bs)) (2 ^ 63)); (split; [lia|]); do 2 f_equal.
  - rewrite Z.mod_small by lia. lia.
  - replace ((Z.of_N (le_value bs) - 2 ^ 64) mod 2 ^ 64)%Z with (Z.of_N (le_value bs)); [lia|].
    rewrite <-(Z_mod_plus_full _ 1), Z.mod_small by lia. lia.
Qed.

Lemma read_counter_counter z : i64_ok z = true → read_counter_value (counter_value z) = Some z.
Proof.
  intros Hz. unfold read_counter_value, counter_value. cbn [sp_type_id sp_bytes].
  rewrite bool_decide_eq_true_2 by done. unfold i64_le_bytes at 1. rewrite length_le_bytes.
  simpl. by rewrite i64_roundtrip.
Qed.

Lemma read_counter_exact v z :
  read_counter_value v = Some z →
  ∃ p, v = Payload p ∧ sp_type_id p = COUNTER_TYPE ∧ sp_bytes p = i64_le_bytes z ∧ i64_ok z = true.
Proof.
  unfold read_counter_value. destruct v as [|p]; [done|]. case_bool_decide as Ht; [|done].
  destruct (Nat.eqb_spec (length (sp_bytes p)) 8) as [Hl|]; [|done]. intros [= <-].
  apply i64_of_le_ok in Hl as [??]. eauto.
Qed.

(** ** Sets are read back *)
Lemma string_ltb_iff a b : String.ltb a b = true ↔ String.le a b ∧ a ≠ b.
Proof.
  unfold String.ltb, String.le, String.leb. destruct (a ?= b)%string eqn:Hc; split; intros H; try done.
  - by apply String.compare_eq_iff in Hc as ->; destruct H.
  - split; [done|]. intros ->. pose proof (String.compare_antisym b b) as Ha. by rewrite Hc in Ha.
  - by destruct H.
Qed.

Lemma ascending_members_iff l :
  ascending_members l = true ↔ StronglySorted String.le l ∧ NoDup l.
Proof.
  induction l as [|a [|b l] IH]; [split; [repeat constructor|done]|split; [|done]|].
  { intros _. split; repeat constructor. set_solver. }
  change (ascending_members (a :: b :: l)) with (String.ltb a b && ascending_members (b :: l)).
  rewrite andb_true_iff, string_ltb_iff, IH. clear IH. split.
  - intros [[Hab Hne] [Hs Hnd]]. inversion Hs as [|?? Hs' Hf]; subst.
    assert (Forall (String.le a) (b :: l)) as Hfa.
    { constructor; [done|]. eapply Forall_impl; [exact Hf|]. intros x Hx. by etrans. }
    split; constructor; try done. apply not_elem_of_cons. split; [done|]. intros Hin.
    apply Hne, (anti_symm String.le); [done|]. rewrite Forall_forall in Hf. by apply Hf.
  - intros [Hs Hnd]. inversion Hs as [|?? Hs' Hf]; subst. apply NoDup_cons in Hnd as [Hin Hnd].
    apply Forall_cons in Hf as [Hab Hf]. set_solver.
Qed.

Lemma get_bytes_app n v rest : n = blen v → get_bytes n (v ++ rest) = Some (v, rest).
Proof.
  intros ->. unfold get_bytes. rewrite (proj2 (N.ltb_ge _ _)) by (autorewrite with blen; lia).
  unfold blen. rewrite Nat2N.id. by rewrite take_app_length, drop_app_length.
Qed.
Lemma get_bytes_inv n bs v rest : get_bytes n bs = Some (v, rest) → bs = v ++ rest ∧ blen v = n.
Proof.
  unfold get_bytes. destruct (N.ltb_spec (blen bs) n); [done|]. intros [= <- <-].
  rewrite take_drop. split; [done|]. unfold blen in *. rewrite length_take. lia.
Qed.

Definition text_members (ms : gset string) : Prop := set_Forall (λ m, str_ok m = true) ms.

Lemma read_members_app l rest :
  Forall (λ m, str_ok m = true ∧ u32_ok (slen m) = true) l →
  read_members (length l) (mjoin (member_bytes <$> l) ++ rest) = Some (l, rest).
Proof.
  induction 1 as [|m l [Hm Hu] _ IH]; [done|]. cbn [length read_members].
  rewrite mjoin_fmap_cons. unfold member_bytes at 1. rewrite <-!app_assoc.
  unfold u32_ok in Hu. bool_prop.
  rewrite get_bytes_app by (unfold blen; by rewrite length_le_bytes). cbn [mbind option_bind].
  rewrite le_value_bytes by (change (256 ^ N.of_nat 4)%N with (2 ^ 32)%N; done).
  rewrite get_bytes_app by done. cbn [mbind option_bind]. rewrite bytes_str_bytes, Hm. cbn [negb].
  by rewrite IH.
Qed.

Lemma read_members_inv n bs l rest :
  read_members n bs = Some (l, rest) →
  length l = n ∧ bs = mjoin (member_bytes <$> l) ++ rest ∧
  Forall (λ m, str_ok m = true ∧ u32_ok (slen m) = true) l.
Proof.
  revert bs l. induction n as [|n IH]; intros bs l H; cbn [read_members] in H; [naive_solver|].
  apply bind_Some in H as ([len r1] & H1 & H). apply bind_Some in H as ([m r2] & H2 & H).
  destruct (str_ok (bytes_str m)) eqn:Hs; [|done]. cbn [negb] in H.
  apply bind_Some in H as ([l' r3] & H3 & [= <- ->]).
  apply get_bytes_inv in H1 as [-> Hl], H2 as [-> Hm]. apply IH in H3 as (<- & -> & Hf).
  pose proof (le_value_lt len) as Hlt. unfold blen in Hl.
  replace (N.of_nat (length len)) with 4%N in Hlt by lia. change (256 ^ 4)%N with (2 ^ 32)%N in Hlt.
  assert (slen (bytes_str m) = le_value len) as Hsl by (unfold slen; by rewrite str_bytes_str).
  split; [done|]. split.
  - rewrite mjoin_fmap_cons. unfold member_bytes at 2. rewrite Hsl, str_bytes_str.
    replace 4 with (length len) by lia. rewrite le_bytes_value. by rewrite <-!app_assoc.
  - constructor; [|done]. split; [done|]. unfold u32_ok. rewrite Hsl. by apply N.ltb_lt.
Qed.

Lemma member_blen m : blen (member_bytes m) = (4 + slen m)%N.
Proof. unfold member_bytes. rewrite blen_app. unfold blen at 1. by rewrite length_le_bytes. Qed.

Lemma size_step_some s m s' : size_step (Some s) m = Some s' → s' = (s + blen (member_bytes m))%N.
Proof.
  rewrite member_blen. unfold size_step, checked_add_u64. cbn [mbind option_bind].
  case_match; [|done]. cbn [mbind option_bind]. case_match; [|done]. intros [= <-]. lia.
Qed.

Lemma set_size_le l s0 s :
  foldl size_step (Some s0) l = Some s → s = (s0 + blen (mjoin (member_bytes <$> l)))%N.
Proof.
  revert s0. induction l as [|m l IH]; intros s0 H; cbn [foldl] in H.
  { injection H as <-. unfold blen. simpl. lia. }
  rewrite mjoin_fmap_cons, blen_app. destruct (size_step (Some s0) m) as [s1|] eqn:Hs.
  - apply size_step_some in Hs as ->. apply IH in H. lia.
  - exfalso. clear -H. by induction l.
Qed.

Lemma set_size_ok l s0 :
  (s0 + blen (mjoin (member_bytes <$> l)) < 2 ^ 64)%N →
  foldl size_step (Some s0) l = Some (s0 + blen (mjoin (member_bytes <$> l)))%N.
Proof.
  revert s0. induction l as [|m l IH]; intros s0 H; cbn [foldl].
  { f_equal. unfold blen. simpl. lia. }
  rewrite mjoin_fmap_cons, blen_app, member_blen in *.
  assert (size_step (Some s0) m = Some (s0 + 4 + slen m)%N) as ->.
  { unfold size_step, checked_add_u64. cbn [mbind option_bind].
    rewrite (proj2 (N.ltb_lt _ _)) by lia. cbn [mbind option_bind].
    by rewrite (proj2 (N.ltb_lt _ _)) by lia. }
  rewrite IH by lia. f_equal. lia.
Qed.

(** What [set_value] writes, and when. *)
Definition set_bytes (ms : gset string) : list byte :=
  le_bytes 4 (N.of_nat (size ms)) ++ mjoin (member_bytes <$> bset_list ms).

Lemma members_count l : (4 * blen l ≤ blen (mjoin (member_bytes <$> l)))%N.
Proof.
  rewrite <-(app_nil_r (mjoin _)). apply (items_long member_bytes). intros m.
  rewrite member_blen. lia.
Qed.

Lemma set_value_iff ms v :
  set_value ms = Some v ↔
  "" ∉ ms ∧ (blen (set_bytes ms) ≤ MAX_DELTA_BYTES)%N ∧
  v = Payload {| sp_type_id := SET_TYPE; sp_source := OP_SOURCE; sp_bytes := set_bytes ms |}.
Proof.
  unfold set_value. set (l := bset_list ms).
  assert (existsb (λ m, bool_decide (m = "")) l = false ↔ "" ∉ ms) as He.
  { rewrite <-not_true_iff_false, existsb_exists, <-(elem_of_bset_list ms). fold l. split.
    - intros H Hin. apply H. exists "". split; [by apply list_elem_of_In|done].
    - intros H (m & Hm & Hd). bool_prop. subst. by apply H, list_elem_of_In. }
  assert (set_bytes ms = le_bytes 4 (blen l) ++ mjoin (member_bytes <$> l)) as Hb.
  { unfold set_bytes, blen, l. by rewrite bset_list_length. }
  assert (blen (set_bytes ms) = 4 + blen (mjoin (member_bytes <$> l)))%N as Hbl.
  { rewrite Hb, blen_app. unfold blen at 1. by rewrite length_le_bytes. }
  pose proof (members_count l) as Hc. unfold MAX_DELTA_BYTES in *. rewrite Hbl. split.
  - intros H. destruct (existsb _ l); [done|]. apply bind_Some in H as (s & Hs & H).
    apply set_size_le in Hs as ->. repeat case_match; simplify_eq. bool_prop. rewrite Hb.
    split; [by apply He|]. split; [lia|done].
  - intros (Hne & Hmax & ->). rewrite (proj2 He Hne). unfold set_size.
    rewrite set_size_ok by lia. cbn [mbind option_bind].
    rewrite (proj2 (N.ltb_ge _ _)) by lia. unfold u32_ok at 1.
    rewrite (proj2 (N.ltb_lt _ _)) by lia. cbn [negb].
    assert (forallb (λ m, u32_ok (slen m)) l = true) as ->; [|by rewrite Hb].
    apply forallb_forall. intros m Hm%list_elem_of_In. apply list_elem_of_split in Hm as (l1 & l2 & Hl).
    rewrite Hl, fmap_app, fmap_cons, join_app in Hmax. cbn [mjoin list_join] in Hmax.
    rewrite !blen_app, member_blen in Hmax. unfold u32_ok. apply N.ltb_lt. lia.
Qed.

Lemma read_set_value_iff v ms :
  read_set_value v = Some ms ↔
  ∃ p, v = Payload p ∧ sp_type_id p = SET_TYPE ∧ sp_bytes p = set_bytes ms ∧
       "" ∉ ms ∧ text_members ms ∧ (N.of_nat (size ms) < 2 ^ 32)%N ∧
       set_Forall (λ m, slen m < 2 ^ 32)%N ms.
Proof.
  split.
  - unfold read_set_value. destruct v as [|p]; [done|]. intros H.
    case_bool_decide as Ht; [|done]. cbn [negb] in H.
    apply bind_Some in H as ([cnt r1] & H1 & H). apply bind_Some in H as ([l r2] & H2 & H).
    apply get_bytes_inv in H1 as [Hp Hc]. apply read_members_inv in H2 as (Hl & -> & Hf).
    destruct (_ && _) eqn:Hcan in H; [|done]. injection H as <-. bool_prop. subst r2.
    match goal with Ha : ascending_members _ = true |- _ => apply ascending_members_iff in Ha as [Hs Hnd] end.
    match goal with Hn : forallb _ _ = true |- _ => rename Hn into Hne end.
    pose proof (bset_list_unique l Hnd Hs) as Hb. pose proof (le_value_lt cnt) as Hlt.
    unfold blen in Hc. replace (N.of_nat (length cnt)) with 4%N in Hlt by lia.
    assert (N.of_nat (size (list_to_set l : gset string)) = le_value cnt) as Hsz.
    { rewrite <-bset_list_length, Hb. lia. }
    exists p. split; [done|]. split; [done|]. split.
    { unfold set_bytes. rewrite Hb, Hsz, app_nil_r in *. replace 4 with (length cnt) by lia.
      by rewrite le_bytes_value. }
    rewrite Forall_forall in Hf. split; [|split; [|split]].
    + rewrite elem_of_list_to_set. intros Hin%list_elem_of_In.
      rewrite forallb_forall in Hne. specialize (Hne "" Hin). done.
    + intros m Hm%elem_of_list_to_set. by apply Hf.
    + by rewrite Hsz.
    + intros m Hm%elem_of_list_to_set. apply Hf in Hm as [_ Hm]. unfold u32_ok in Hm. by bool_prop.
  - intros (p & -> & Ht & Hb & Hne & Hok & Hc & Hlen). unfold read_set_value.
    rewrite bool_decide_eq_true_2, Hb by done. cbn [negb]. unfold set_bytes.
    rewrite get_bytes_app by (unfold blen; by rewrite length_le_bytes). cbn [mbind option_bind].
    rewrite le_value_bytes by done. rewrite Nat2N.id, <-bset_list_length, <-(app_nil_r (mjoin _)).
    rewrite read_members_app.
    2:{ apply Forall_forall. intros m Hm%elem_of_bset_list. split; [by apply Hok|].
        unfold u32_ok. apply N.ltb_lt. by apply Hlen. }
    cbn [mbind option_bind]. rewrite bool_decide_eq_true_2 by done.
    rewrite (proj2 (ascending_members_iff _)) by eauto using bset_list_sorted, bset_list_nodup.
    assert (forallb (λ m, negb (bool_decide (m = ""))) (bset_list ms) = true) as ->.
    { apply forallb_forall. intros m Hm%list_elem_of_In%elem_of_bset_list.
      rewrite bool_decide_eq_false_2; [done|]. by intros ->. }
    simpl. by rewrite bset_list_to_set.
Qed.

Lemma set_value_read ms v : text_members ms → set_value ms = Some v → read_set_value v = Some ms.
Proof.
  intros Ht (Hne & Hmax & ->)%set_value_iff. apply read_set_value_iff. eexists. split; [done|].
  do 4 (split; [done|]). unfold set_bytes in Hmax. rewrite blen_app in Hmax.
  unfold blen in Hmax at 1. rewrite length_le_bytes in Hmax.
  pose proof (members_count (bset_list ms)) as Hc. unfold blen at 1 in Hc.
  rewrite bset_list_length in Hc. unfold MAX_DELTA_BYTES in Hmax. split; [lia|].
  intros m Hm. apply elem_of_bset_list, list_elem_of_split in Hm as (l1 & l2 & Hl).
  rewrite Hl, fmap_app, fmap_cons, join_app in Hmax. cbn [mjoin list_join] in Hmax.
  rewrite !blen_app, member_blen in Hmax. lia.
Qed.

(** ** Sequences of operations *)
Lemma fold_ops_app l1 l2 v :
  fold_ops (l1 ++ l2) v = rbind (fold_ops l1 v) (fold_ops l2).
Proof.
  revert v. induction l1 as [|op l1 IH]; intros v; [done|]. cbn [app fold_ops].
  destruct (op_apply op v); simpl; [apply IH|done].
Qed.

Definition is_add (op : BranchOp) : bool := if op is Add _ _ then true else false.
Definition amount_of (op : BranchOp) : Z := if op is Add _ n then n else 0%Z.
Definition is_set_op (op : BranchOp) : bool := bool_decide (is_Some (set_member op)).

(** The presence of [member] that the last operation on it leaves, or the
    presence it had. *)
Definition presence (ops : list BranchOp) (member : string) (before : bool) : bool :=
  foldl (λ now op, match set_member op with
                   | Some (m, after, _) => if bool_decide (m = member) then after else now
                   | None => now
                   end) before ops.

Lemma apply_add key n v w :
  op_apply (Add key n) v = Ok w →
  ∃ c, read_counter key v = Ok c ∧ i64_ok (c + n) = true ∧ w = Some (counter_value (c + n)).
Proof.
  cbn [op_apply]. intros (c & Hc & H)%rbind_ok_inv. apply rbind_ok_inv in H as (c' & Hc' & [= <-]).
  apply ok_or_ok_inv in Hc'. unfold checked_add_i64 in Hc'. case_match; [|done].
  injection Hc' as <-. eauto.
Qed.

Lemma apply_set op key v w :
  is_set_op op = true → branch_op_ok op = true → op_key op = key → op_apply op v = Ok w →
  ∃ s0 s x, read_set key v = Ok s0 ∧ w = Some x ∧ read_set_value x = Some s ∧
  ∀ m, bool_decide (m ∈ s) = presence [op] m (bool_decide (m ∈ s0)).
Proof.
  intros Hset Hok <- H.
  assert (∀ (s0 s : gset string) x member,
    read_set (op_key op) v = Ok s0 → str_ok member = true → set_value s = Some x →
    s ⊆ {[member]} ∪ s0 → read_set_value x = Some s) as Hread.
  { intros s0 s x member Hs0 Hm Hx Hsub. apply set_value_read; [|done]. intros m Hms.
    apply Hsub, elem_of_union in Hms as [->%elem_of_singleton|Hms]; [done|].
    unfold read_set in Hs0. destruct v as [v|]; [|simplify_eq; set_solver].
    apply ok_or_ok_inv, read_set_value_iff in Hs0 as (?&?&?&?&?&Ht&?). by apply Ht. }
  destruct op as [| | |key member b|key member b]; try done; cbn [op_apply op_key] in *;
    apply rbind_ok_inv in H as ([] & _ & H); apply rbind_ok_inv in H as (s0 & Hs0 & H);
    apply rbind_ok_inv in H as (x & Hx & [= <-]); apply ok_or_ok_inv in Hx;
    (eexists s0, _, x; split; [done|]; split; [done|]; split; [eapply (Hread s0 _ x member); [done|exact Hok|exact Hx|set_solver]|]);
    intros m; unfold presence; cbn [foldl set_member]; repeat case_bool_decide; set_solver.
Qed.

(** The value that successful additions leave. *)
Lemma fold_adds ops key v w :
  Forall (λ op, is_add op = true ∧ op_key op = key) ops → ops ≠ [] →
  fold_ops ops v = Ok w →
  ∃ c, read_counter key v = Ok c ∧ let total := (c + foldr Z.add 0 (amount_of <$> ops))%Z in
       i64_ok total = true ∧ w = Some (counter_value total).
Proof.
  intros Hall. revert v w. induction Hall as [|op ops [Hop Hk] _ IH]; [done|].
  intros v w _ (v1 & H1 & H)%rbind_ok_inv. destruct op as [| |k n| |]; try done. simpl in Hk. subst k.
  apply apply_add in H1 as (c & Hc & Hr & ->). exists c. split; [done|].
  destruct ops as [|op ops]; cbn [fold_ops fmap list_fmap foldr amount_of] in *.
  { injection H as <-. by rewrite Z.add_0_r. }
  apply IH in H as (c1 & Hc1 & H); [|done]. cbn [read_counter] in Hc1.
  apply ok_or_ok_inv in Hc1. rewrite read_counter_counter in Hc1 by done. injection Hc1 as <-.
  by rewrite Z.add_assoc.
Qed.

Lemma presence_cons op ops m b : presence (op :: ops) m b = presence ops m (presence [op] m b).
Proof. done. Qed.

(** The members that successful set operations leave. *)
Lemma fold_sets ops key v w :
  Forall (λ op, is_set_op op = true ∧ branch_op_ok op = true ∧ op_key op = key) ops → ops ≠ [] →
  fold_ops ops v = Ok w →
  ∃ s0 s x, read_set key v = Ok s0 ∧ w = Some x ∧ read_set_value x = Some s ∧
  ∀ m, bool_decide (m ∈ s) = presence ops m (bool_decide (m ∈ s0)).
Proof.
  intros Hall. revert v w. induction Hall as [|op ops (Hop & Hok & Hk) _ IH]; [done|].
  intros v w _ (v1 & H1 & H)%rbind_ok_inv.
  apply (apply_set _ key) in H1 as (s0 & s1 & x & Hs0 & -> & Hx & Hp); [|done..].
  destruct ops as [|op' ops].
  { injection H as <-. by exists s0, s1, x. }
  apply IH in H as (s1' & s & y & Hs1 & -> & Hy & Hq); [|done].
  cbn [read_set] in Hs1. apply ok_or_ok_inv in Hs1. simplify_eq.
  exists s0, s, y. split; [done|]. split; [done|]. split; [done|].
  intros m. by rewrite Hq, Hp.
Qed.

(** A key is changed commutatively either as a counter or as a set. *)
Lemma fold_commuting ops v w :
  Forall (λ op, commutes op = true) ops → fold_ops ops v = Ok w →
  Forall (λ op, is_add op = true) ops ∨ Forall (λ op, is_set_op op = true) ops.
Proof.
  intros Hc. revert v. induction Hc as [|op ops Hop Hc IH]; intros v; [by left|].
  intros (v1 & H1 & H)%rbind_ok_inv. destruct ops as [|op' ops].
  { destruct op; try done; [left|right..]; by repeat constructor. }
  destruct (IH _ H) as [Ha|Hs].
  - left. constructor; [|done]. apply Forall_cons in Ha as [Ha _]. destruct op' as [| |k n| |]; try done.
    apply rbind_ok_inv in H as (v2 & H2 & _). apply apply_add in H2 as (c & Hr & _).
    destruct op; try done; cbn [op_apply] in H1; result_inv; unfold encode_set in *;
      result_inv; match goal with Hv : set_value _ = Some _ |- _ => apply set_value_iff in Hv as (_ & _ & ->) end;
      cbn [read_counter] in Hr; by apply ok_or_ok_inv in Hr.
  - right. constructor; [|done]. apply Forall_cons in Hs as [Hs _]. destruct op as [| |k n| |]; try done.
    apply apply_add in H1 as (c & _ & _ & ->). apply rbind_ok_inv in H as (v2 & H2 & _).
    destruct op'; try done; cbn [op_apply] in H2; apply rbind_ok_inv in H2 as (_ & _ & H2);
      apply rbind_ok_inv in H2 as (s & Hr & _); by apply ok_or_ok_inv in Hr.
Qed.

(** The two value formats are canonical.  A set that [set_value] encodes is
    read back as exactly its members, and a set that is read, if a journal
    delta can carry it, is the encoding of what was read; a counter is read
    back exactly, over the whole range of [i64], and eight bytes are read as
    the one counter that encodes to them. *)
Theorem branch_values_roundtrip :
  (∀ ms v, text_members ms → set_value ms = Some v → read_set_value v = Some ms) ∧
  (∀ p ms, read_set_value (Payload p) = Some ms → (blen (sp_bytes p) ≤ MAX_DELTA_BYTES)%N →
     set_value ms = Some (Payload {| sp_type_id := sp_type_id p; sp_source := OP_SOURCE;
                                     sp_bytes := sp_bytes p |})) ∧
  (∀ z, i64_ok z = true → read_counter_value (counter_value z) = Some z) ∧
  (∀ p z, read_counter_value (Payload p) = Some z →
     i64_ok z = true ∧
     counter_value z = Payload {| sp_type_id := sp_type_id p; sp_source := OP_SOURCE;
                                  sp_bytes := sp_bytes p |}).
Proof.
  split; [exact set_value_read|]. split; [|split; [exact read_counter_counter|]].
  - intros p ms (p' & [= <-] & -> & Hb & Hne & _)%read_set_value_iff Hmax. rewrite Hb in *.
    by apply set_value_iff.
  - intros p z (p' & [= <-] & -> & -> & Hz)%read_counter_exact. done.
Qed.

Lemma branch_values_roundtrip_witness :
  read_set_value (Payload {| sp_type_id := SET_TYPE; sp_source := OP_SOURCE;
                             sp_bytes := set_bytes {["a"; "b"]} |}) = Some {["a"; "b"]} ∧
  read_counter_value (counter_value (-3)) = Some (-3)%Z.
Proof.
  split.
  - apply (proj1 branch_values_roundtrip {["a"; "b"]}); [|vm_compute; reflexivity].
    intros m [->%elem_of_singleton | ->%elem_of_singleton]%elem_of_union; reflexivity.
  - apply (proj1 (proj2 (proj2 branch_values_roundtrip)) (-3)%Z). reflexivity.
Defined.

(** * The digests of a branch: crates/ptr-branch, digest.rs

    A branch declares what it depends on by digests: of a value or its absence,
    of all values under a prefix, of the input set of a derived key.  SHA-256 is
    a parameter; the byte strings that are hashed are definitions, and each is
    shown to determine what it digests, so equal digests mean equal data or a
    collision between two strings that are named. *)

Definition VALUE_DOMAIN : list byte := str_bytes "ptr-branch/value-digest/v2".
Definition RANGE_DOMAIN : list byte := str_bytes "ptr-branch/range-digest/v1".
Definition INPUTS_DOMAIN : list byte := str_bytes "ptr-branch/inputs-digest/v1".

(** The length as eight bytes, then the text. *)
Definition put_u64_text (s : string) : list byte := le_bytes 8 (slen s) ++ str_bytes s.

(** What [ValueDigest::absent] and [ValueDigest::of] hash. *)
Definition absent_bytes (key : string) : list byte :=
  VALUE_DOMAIN ++ [x00] ++ put_u64_text key.
Definition value_bytes (key : string) (value : option SemanticValue) :
    result BranchError (list byte) :=
  match value with
  | None => Ok (absent_bytes key)
  | Some value =>
      match canonical_input_bytes key value with
      | Ok canonical => Ok (VALUE_DOMAIN ++ [x01] ++ canonical)
      | Err _ => Err (InvalidValue key)
      end
  end.

(** What [InputsDigest::of] hashes; the iterator is collected into a set. *)
Definition inputs_bytes (key : string) (inputs : list string) : list byte :=
  let inputs := bset_list (list_to_set inputs) in
  INPUTS_DOMAIN ++ put_u64_text key ++ le_bytes 8 (blen inputs) ++
  mjoin (put_u64_text <$> inputs).

Section digests.
Context (sha256 : list byte → list byte).

Definition ValueDigest_absent (key : string) : list byte := sha256 (absent_bytes key).
Definition ValueDigest_of (key : string) (value : option SemanticValue) :
    result BranchError (list byte) :=
  let? bytes := value_bytes key value in Ok (sha256 bytes).

(** The loop of [RangeDigest::of]: the value digests, one after the other. *)
Fixpoint range_parts (entries : list (string * SemanticValue)) : result BranchError (list byte) :=
  match entries with
  | [] => Ok []
  | (key, value) :: entries =>
      let? digest := ValueDigest_of key (Some value) in
      let? rest := range_parts entries in Ok (digest ++ rest)
  end.
Definition range_bytes (prefix : string) (entries : list (string * SemanticValue)) :
    result BranchError (list byte) :=
  let? parts := range_parts entries in Ok (RANGE_DOMAIN ++ put_u64_text prefix ++ parts).
Definition RangeDigest_of (prefix : string) (entries : list (string * SemanticValue)) :
    result BranchError (list byte) :=
  let? bytes := range_bytes prefix entries in Ok (sha256 bytes).

Definition InputsDigest_of (key : string) (inputs : list string) : list byte :=
  sha256 (inputs_bytes key inputs).

End digests.

(** ** What the byte strings determine *)
Definition encodable (key : string) (value : SemanticValue) : Prop :=
  ∃ bs, canonical_input_bytes key value = Ok bs.

Lemma prefix_u64_text : PrefixInj put_u64_text (λ s, fits64 (str_bytes s)).
Proof. exact prefix_text. Qed.

Lemma canonical_input_inj k v k' v' bs :
  str_ok k = true → value_ok v → str_ok k' = true → value_ok v' →
  canonical_input_bytes k v = Ok bs → canonical_input_bytes k' v' = Ok bs → k = k' ∧ v = v'.
Proof.
  intros Hk Hv Hk' Hv' H H'.
  assert (∀ k v, str_ok k = true → value_ok v → canonical_input_bytes k v = Ok bs →
    delta_decode bs = Ok {| upserts := {[k := v]}; removals := ∅; dependencies := ∅ |}) as Hd.
  { clear. intros k v Hk Hv H. apply encoded_decodes; [|done]. split; [|split].
    - by apply map_Forall_singleton.
    - by intros ?.
    - apply map_Forall_empty. }
  apply Hd in H, H'; [|done..]. rewrite H in H'.
  apply (f_equal (λ r, match r with Ok d => upserts d | Err _ => ∅ end)) in H'. cbn [upserts] in H'.
  assert (({[k := v]} : gmap string SemanticValue) !! k' = Some v') as Hl
    by (rewrite H'; by apply lookup_singleton_eq).
  by apply lookup_singleton_Some in Hl.
Qed.

Lemma Ok_inj {E A} (a b : A) : Ok (E := E) a = Ok b → a = b.
Proof. by intros [=]. Qed.

Lemma value_bytes_inj k v k' v' bs :
  str_ok k = true → str_ok k' = true → fits64 (str_bytes k) → fits64 (str_bytes k') →
  (∀ x, v = Some x → value_ok x) → (∀ x, v' = Some x → value_ok x) →
  value_bytes k v = Ok bs → value_bytes k' v' = Ok bs → k = k' ∧ v = v'.
Proof.
  intros Hk Hk' Hf Hf' Hv Hv' H H'. unfold value_bytes, absent_bytes in *.
  destruct v as [v|], v' as [v'|]; repeat (case_match; try done); apply Ok_inj in H; subst bs;
    apply Ok_inj in H'; apply app_inv_head in H'; try done; apply app_inv_head in H'; subst.
  - edestruct (canonical_input_inj k v k' v') as [-> ->]; eauto.
  - rewrite <-(app_nil_r (put_u64_text k)), <-(app_nil_r (put_u64_text k')) in H'.
    by apply prefix_u64_text in H' as [-> _].
Qed.

(** A present value and an absent one never hash the same string. *)
Lemma absent_bytes_ne k v bs : value_bytes k (Some v) = Ok bs → bs ≠ absent_bytes k.
Proof.
  cbn [value_bytes]. destruct (canonical_input_bytes k v); [|done]. intros H Hb. rewrite Hb in H.
  apply Ok_inj in H. unfold absent_bytes in H. by apply app_inv_head in H.
Qed.

Lemma list_to_set_size_le (l : list string) : size (list_to_set l : gset string) ≤ length l.
Proof.
  induction l as [|x l IH]; [done|]. cbn [list_to_set length].
  rewrite size_union_alt, size_singleton.
  pose proof (subseteq_size (list_to_set l ∖ {[x]} : gset string) (list_to_set l)) as H.
  specialize (H ltac:(set_solver)). lia.
Qed.

Lemma inputs_bytes_inj k l l' :
  Forall (λ i, fits64 (str_bytes i)) l → Forall (λ i, fits64 (str_bytes i)) l' →
  fits64 l → fits64 l' →
  inputs_bytes k l = inputs_bytes k l' → list_to_set (C := gset string) l = list_to_set l'.
Proof.
  intros Hl Hl' Hf Hf' H. unfold inputs_bytes in H. apply app_inv_head, app_inv_head in H.
  assert (∀ m : list string, (blen (bset_list (list_to_set m)) ≤ blen m)%N) as Hlen.
  { intros m. unfold blen. rewrite bset_list_length.
    pose proof (list_to_set_size_le m). lia. }
  pose proof (Hlen l). pose proof (Hlen l'). unfold fits64 in Hf, Hf'.
  apply prefix_u64 in H as [Hs H]; [|lia..].
  rewrite <-(app_nil_r (mjoin _)), <-(app_nil_r (mjoin (put_u64_text <$> bset_list (list_to_set l')))) in H.
  assert (∀ m : list string, Forall (λ i, fits64 (str_bytes i)) m →
    Forall (λ i, fits64 (str_bytes i)) (bset_list (list_to_set m))) as Hall.
  { intros m Hm. rewrite Forall_forall in *. intros i Hi.
    apply elem_of_bset_list, elem_of_list_to_set in Hi. by apply Hm. }
  apply (prefix_list _ _ prefix_u64_text) in H as [H _]; [|unfold blen in Hs; lia|by apply Hall..].
  rewrite <-(bset_list_to_set (list_to_set l)), H. apply bset_list_to_set.
Qed.
