(* ===== verification/Branch.v ===== *)
(** * Speculative branches: crates/ptr-branch, branch.rs

    An open [Branch] is a private overlay on one immutable snapshot.  It records
    a digest of every value it read and every prefix it scanned, the lifecycle
    generations it relies on, and the operations it would apply.  Sealing keeps
    the digests and drops the snapshot; a [SealedBranch] can also be rebuilt
    from stored parts, if they pass [check_sealed]. *)

From S2P Require Import Prelude Bytes Text SemDelta SemGraph SemHost BranchOps.
From stdpp Require Import options.

Definition SEAL_DOMAIN : list byte := str_bytes "ptr-branch/sealed-branch/v1".

Record Branch := {
  br_id : string;
  br_author : string;
  br_base : SemanticSnapshot;
  br_reads : gmap string (list byte);
  br_scans : gmap string (list byte);
  br_relied : gmap string N;
  br_ops : list BranchOp
}.

Record SealedBranchParts := {
  sb_id : string;
  sb_author : string;
  sb_base_revision : N;
  sb_reads : gmap string (list byte);
  sb_scans : gmap string (list byte);
  sb_relied : gmap string N;
  sb_touched_base : gmap string (list byte);
  sb_touched_inputs : gmap string (list byte);
  sb_ops : list BranchOp
}.

(** The field is private: a value exists only where [from_parts] built it. *)
Record SealedBranch := { parts : SealedBranchParts }.

Definition with_reads (b : Branch) (reads : gmap string (list byte)) : Branch :=
  {| br_id := br_id b; br_author := br_author b; br_base := br_base b; br_reads := reads;
     br_scans := br_scans b; br_relied := br_relied b; br_ops := br_ops b |}.
Definition with_scans (b : Branch) (scans : gmap string (list byte)) : Branch :=
  {| br_id := br_id b; br_author := br_author b; br_base := br_base b; br_reads := br_reads b;
     br_scans := scans; br_relied := br_relied b; br_ops := br_ops b |}.
Definition with_relied (b : Branch) (relied : gmap string N) : Branch :=
  {| br_id := br_id b; br_author := br_author b; br_base := br_base b; br_reads := br_reads b;
     br_scans := br_scans b; br_relied := relied; br_ops := br_ops b |}.
Definition with_ops (b : Branch) (ops : list BranchOp) : Branch :=
  {| br_id := br_id b; br_author := br_author b; br_base := br_base b; br_reads := br_reads b;
     br_scans := br_scans b; br_relied := br_relied b; br_ops := ops |}.

Definition is_reserved (key : string) : bool := is_ingress_key key.

(** ** The view of an open branch *)
Definition op_on (key : string) (op : BranchOp) : bool := bool_decide (op_key op = key).
Definition operates_on (ops : list BranchOp) (key : string) : bool := existsb (op_on key) ops.
Definition overwrites (ops : list BranchOp) (key : string) : bool :=
  existsb (λ op, op_on key op && negb (commutes op)) ops.

Definition ops_on (ops : list BranchOp) (key : string) : list BranchOp :=
  List.filter (op_on key) ops.

(** The base value of [key] with the operations on [key] applied. *)
Definition overlay (base : SemanticSnapshot) (ops : list BranchOp) (key : string) :
    result BranchError (option SemanticValue) :=
  fold_ops (ops_on ops key) (snapshot_value base key).

(** The [while let Some(input) = pending.pop()] loop of [changed_input_of]; the
    head of the list is the top of the stack.  [None]: out of fuel. *)
Fixpoint search_inputs (fuel : nat) (inputs : string → list string)
    (hit : string → result BranchError bool) (seen : gset string) (stack : list string) :
    option (result BranchError (option string)) :=
  match stack with
  | [] => Some (Ok None)
  | input :: stack =>
      match fuel with
      | O => None
      | S fuel =>
          if bool_decide (input ∈ seen) then search_inputs fuel inputs hit seen stack else
          match hit input with
          | Err e => Some (Err e)
          | Ok true => Some (Ok (Some input))
          | Ok false =>
              search_inputs fuel inputs hit ({[input]} ∪ seen) (reverse (inputs input) ++ stack)
          end
      end
  end.

(** One round per push: the inputs of [key], and those of every derived key. *)
Definition input_lists (s : SemanticSnapshot) : gmap string (list string) :=
  bset_list <$> st_dependencies (snap_state s).
Definition search_fuel (s : SemanticSnapshot) (key : string) : nat :=
  length (snapshot_inputs s key) + pending (input_lists s) ∅.

(** The operations on [input] change its value. *)
Definition changes (base : SemanticSnapshot) (ops : list BranchOp) (input : string) :
    result BranchError bool :=
  if operates_on ops input then
    let? value := overlay base ops input in
    Ok (negb (bool_decide (value = snapshot_value base input)))
  else Ok false.

Definition changed_input_of (base : SemanticSnapshot) (ops : list BranchOp) (key : string) :
    result BranchError (option string) :=
  default (Ok None)
    (search_inputs (search_fuel base key) (snapshot_inputs base) (changes base ops) ∅
       (reverse (snapshot_inputs base key))).

Definition branch_view (base : SemanticSnapshot) (ops : list BranchOp) (key : string) :
    result BranchError (option SemanticValue) :=
  if operates_on ops key then overlay base ops key else
  let? changed := changed_input_of base ops key in
  match changed with
  | Some _ => Ok None
  | None => overlay base ops key
  end.

(** The keys of the operations, in key order. *)
Definition operated (ops : list BranchOp) : gset string := list_to_set (op_key <$> ops).

(** The loop over the keys that are changed only commutatively. *)
Fixpoint evicted_operand_in (base : SemanticSnapshot) (ops : list BranchOp) (keys : list string) :
    result BranchError (option BranchError) :=
  match keys with
  | [] => Ok None
  | key :: keys =>
      if overwrites ops key then evicted_operand_in base ops keys else
      let? changed := changed_input_of base ops key in
      match changed with
      | Some input => Ok (Some (EvictedOperand key (Some input)))
      | None => evicted_operand_in base ops keys
      end
  end.
Definition evicted_operand (base : SemanticSnapshot) (ops : list BranchOp) :
    result BranchError (option BranchError) :=
  evicted_operand_in base ops (bset_list (operated ops)).

(** [Branch::record_op]: a refused operation is popped again. *)
Definition record_op (b : Branch) (op : BranchOp) : result BranchError unit * Branch :=
  let pushed := with_ops b (br_ops b ++ [op]) in
  match evicted_operand (br_base pushed) (br_ops pushed) with
  | Ok None => (Ok tt, pushed)
  | Ok (Some refusal) | Err refusal => (Err refusal, b)
  end.

Definition check_writable (key : string) : result BranchError unit :=
  if is_reserved key then Err (ReservedNamespace key) else Ok tt.

Definition require_read (b : Branch) (key : string) : result BranchError unit :=
  if bool_decide (is_Some (br_reads b !! key)) then Ok tt else Err (UnreadTarget key).

(** The canonical encoding exists. *)
Definition check_value (key : string) (value : SemanticValue) : result BranchError unit :=
  match canonical_input_bytes key value with
  | Ok _ => Ok tt
  | Err _ => Err (InvalidValue key)
  end.

Definition with_base_membership (base : SemanticSnapshot) (op : BranchOp) : BranchOp :=
  match op with
  | SetInsert key member _ =>
      SetInsert key member (holds_member (snapshot_value base key) member)
  | SetRemove key member _ =>
      SetRemove key member (holds_member (snapshot_value base key) member)
  | Put _ _ | Remove _ | Add _ _ => op
  end.

Section branch.
Context (sha256 : list byte → list byte).

Definition Branch_open (id author : string) (base : SemanticSnapshot) : Branch :=
  {| br_id := id; br_author := author; br_base := base; br_reads := ∅; br_scans := ∅;
     br_relied := ∅; br_ops := [] |}.

Definition record_read (b : Branch) (key : string) : result BranchError Branch :=
  if bool_decide (is_Some (br_reads b !! key)) then Ok b else
  let? digest := ValueDigest_of sha256 key (snapshot_value (br_base b) key) in
  Ok (with_reads b (<[key := digest]> (br_reads b))).

(** [Branch::read]: the read is recorded before the view is computed. *)
Definition Branch_read (b : Branch) (key : string) :
    result BranchError (option SemanticValue) * Branch :=
  match record_read b key with
  | Err e => (Err e, b)
  | Ok b => (branch_view (br_base b) (br_ops b) key, b)
  end.

(** The keys of a snapshot under a prefix, with their values. *)
Definition range_entries (s : SemanticSnapshot) (prefix : string) :
    list (string * SemanticValue) :=
  omap (λ key, (key,.) <$> snapshot_value s key)
    (List.filter (λ key, starts_with key prefix) (snapshot_keys s)).

Fixpoint view_entries (base : SemanticSnapshot) (ops : list BranchOp) (keys : list string) :
    result BranchError (list (string * SemanticValue)) :=
  match keys with
  | [] => Ok []
  | key :: keys =>
      let? value := branch_view base ops key in
      let? entries := view_entries base ops keys in
      match value with
      | Some value => Ok ((key, value) :: entries)
      | None => Ok entries
      end
  end.

(** The keys of [scan_prefix]: those of the base and of the operations. *)
Definition scan_keys (base : SemanticSnapshot) (ops : list BranchOp) (prefix : string) :
    list string :=
  bset_list (list_to_set
    (List.filter (λ key, starts_with key prefix) (snapshot_keys base ++ (op_key <$> ops)))).

Definition scan_prefix (b : Branch) (prefix : string) :
    result BranchError (list (string * SemanticValue)) * Branch :=
  let digest :=
    match br_scans b !! prefix with
    | Some digest => Ok digest
    | None => RangeDigest_of sha256 prefix (range_entries (br_base b) prefix)
    end in
  match digest with
  | Err e => (Err e, b)
  | Ok digest =>
      match view_entries (br_base b) (br_ops b) (scan_keys (br_base b) (br_ops b) prefix) with
      | Err e => (Err e, b)
      | Ok entries =>
          (Ok entries,
           if bool_decide (is_Some (br_scans b !! prefix)) then b
           else with_scans b (<[prefix := digest]> (br_scans b)))
      end
  end.

Definition rely_on (b : Branch) (target : string) (generation : N) :
    result BranchError unit * Branch :=
  match br_relied b !! target with
  | Some relied =>
      if negb (relied =? generation)%N
      then (Err (ConflictingReliance target relied generation), b) else (Ok tt, b)
  | None => (Ok tt, with_relied b (<[target := generation]> (br_relied b)))
  end.

(** The base digests of the inputs that were not read, computed in order. *)
Fixpoint unread_inputs (b : Branch) (inputs : list string) :
    result BranchError (list (string * list byte)) :=
  match inputs with
  | [] => Ok []
  | input :: inputs =>
      if bool_decide (is_Some (br_reads b !! input)) then unread_inputs b inputs else
      let? digest := ValueDigest_of sha256 input (snapshot_value (br_base b) input) in
      let? rest := unread_inputs b inputs in Ok ((input, digest) :: rest)
  end.
Definition unread_inputs_of (b : Branch) (key : string) :
    result BranchError (list (string * list byte)) :=
  unread_inputs b (snapshot_inputs (br_base b) key).

(** [self.reads.extend(inputs)]. *)
Definition extend_reads (b : Branch) (inputs : list (string * list byte)) : Branch :=
  with_reads b (foldl (λ m e, <[e.1 := e.2]> m) (br_reads b) inputs).

(** [record_op(op)?; reads.extend(inputs)]. *)
Definition record_with (b : Branch) (op : BranchOp) (inputs : list (string * list byte)) :
    result BranchError unit * Branch :=
  match record_op b op with
  | (Ok _, b) => (Ok tt, extend_reads b inputs)
  | (Err e, b) => (Err e, b)
  end.

Definition Branch_put (b : Branch) (key : string) (value : SemanticValue) :
    result BranchError unit * Branch :=
  match (check_writable key ;? require_read b key ;? check_value key value ;?
         unread_inputs_of b key) with
  | Err e => (Err e, b)
  | Ok inputs => record_with b (Put key value) inputs
  end.

Definition Branch_remove (b : Branch) (key : string) : result BranchError unit * Branch :=
  match (check_writable key ;? require_read b key) with
  | Err e => (Err e, b)
  | Ok _ =>
      if negb (bool_decide (snapshot_inputs (br_base b) key = []))
      then (Err (DerivedRemoval key), b)
      else record_op b (Remove key)
  end.

(** The checks of [stage_commutative] on a key the branch does not overwrite. *)
Definition check_operand (b : Branch) (key : string) : result BranchError unit :=
  if overwrites (br_ops b) key then Ok tt else
  let? changed := changed_input_of (br_base b) (br_ops b) key in
  match changed with
  | Some input => Err (EvictedOperand key (Some input))
  | None =>
      if bool_decide (snapshot_value (br_base b) key = None)
         && negb (bool_decide (snapshot_inputs (br_base b) key = []))
      then Err (EvictedOperand key None) else Ok tt
  end.

Definition stage_commutative (b : Branch) (op : BranchOp) : result BranchError unit * Branch :=
  match check_writable (op_key op) with
  | Err e => (Err e, b)
  | Ok _ =>
      if negb (commutes op) then (Err (UnreadTarget (op_key op)), b) else
      let op := with_base_membership (br_base b) op in
      match (check_operand b (op_key op) ;?
             let? value := overlay (br_base b) (br_ops b) (op_key op) in
             let? _ := op_apply op value in
             unread_inputs_of b (op_key op)) with
      | Err e => (Err e, b)
      | Ok inputs => record_with b op inputs
      end
  end.

(** ** Sealing *)

(** One round of the first loop of [check_sealed]: the presences recorded so
    far, and the first removal of a derived key. *)
Definition sealing : Type := gmap (string * string) bool * option string.

Definition check_put (op : BranchOp) : result BranchError unit :=
  match op with
  | Put key value => check_value key value
  | _ => Ok tt
  end.
Definition check_op_member (op : BranchOp) : result BranchError unit :=
  match set_member op with
  | Some (member, _, _) => check_member (op_key op) member
  | None => Ok tt
  end.
Definition is_remove (op : BranchOp) : bool := if op is Remove _ then true else false.

Definition note_removal (key : string) (inputs : list byte) (op : BranchOp)
    (derived : option string) : option string :=
  if is_remove op && negb (bool_decide (inputs = InputsDigest_of sha256 key []))
  then Some (default key derived) else derived.

Definition check_presence (p : SealedBranchParts) (op : BranchOp)
    (members : gmap (string * string) bool) : result BranchError (gmap (string * string) bool) :=
  match set_member op with
  | None => Ok members
  | Some (member, _, in_base) =>
      let key := op_key op in
      if match members !! (key, member) with
         | Some earlier => negb (Bool.eqb earlier in_base)
         | None => false
         end
      then Err (MalformedSeal key "two set operations on one member record different base presences")
      else if in_base && bool_decide (sb_touched_base p !! key = Some (ValueDigest_absent sha256 key))
      then Err (MalformedSeal key "a set operation records its member present in a base without its key")
      else Ok (<[(key, member) := in_base]> members)
  end.

Definition check_op (p : SealedBranchParts) (st : sealing) (op : BranchOp) :
    result BranchError sealing :=
  let '(members, derived) := st in
  let key := op_key op in
  if is_reserved key then Err (ReservedNamespace key) else
  if negb (commutes op) && negb (bool_decide (is_Some (sb_reads p !! key)))
  then Err (UnreadTarget key) else
  check_op_member op ;? check_put op ;?
  if negb (bool_decide (is_Some (sb_touched_base p !! key)))
  then Err (MalformedSeal key "a key an operation touches has no recorded base value") else
  match sb_touched_inputs p !! key with
  | None => Err (MalformedSeal key "a key an operation touches has no recorded input set")
  | Some inputs =>
      let derived := note_removal key inputs op derived in
      let? members := check_presence p op members in Ok (members, derived)
  end.

Fixpoint check_ops (p : SealedBranchParts) (st : sealing) (ops : list BranchOp) :
    result BranchError sealing :=
  match ops with
  | [] => Ok st
  | op :: ops => let? st := check_op p st op in check_ops p st ops
  end.

Definition keys_of {A} (m : gmap string A) : list string := (btree_list m).*1.

Definition check_sealed (p : SealedBranchParts) : result BranchError unit :=
  let? (_, derived) := check_ops p (∅, None) (sb_ops p) in
  match List.find (λ key, negb (bool_decide (key ∈ operated (sb_ops p))))
          (keys_of (sb_touched_base p) ++ keys_of (sb_touched_inputs p)) with
  | Some key =>
      Err (MalformedSeal key "a base value or input set is recorded for a key no operation touches")
  | None =>
  match List.find (λ e, match sb_reads p !! e.1 with
                        | Some read => negb (bool_decide (read = e.2))
                        | None => false
                        end) (btree_list (sb_touched_base p)) with
  | Some (key, _) =>
      Err (MalformedSeal key "the base value recorded for a touched key differs from the value read")
  | None =>
  match derived with
  | Some key => Err (DerivedRemoval key)
  | None => Ok tt
  end end end.

Definition from_parts (p : SealedBranchParts) : result BranchError SealedBranch :=
  check_sealed p ;? Ok {| parts := p |}.
Definition into_parts (s : SealedBranch) : SealedBranchParts := parts s.
Definition recheck (s : SealedBranch) : result BranchError unit := check_sealed (parts s).

(** The loop of [Branch::seal] over the operations. *)
Fixpoint seal_touched (base : SemanticSnapshot) (ops : list BranchOp)
    (values inputs : gmap string (list byte)) :
    result BranchError (gmap string (list byte) * gmap string (list byte)) :=
  match ops with
  | [] => Ok (values, inputs)
  | op :: ops =>
      let key := op_key op in
      if bool_decide (is_Some (values !! key)) then seal_touched base ops values inputs else
      let? digest := ValueDigest_of sha256 key (snapshot_value base key) in
      seal_touched base ops (<[key := digest]> values)
        (<[key := InputsDigest_of sha256 key (snapshot_inputs base key)]> inputs)
  end.

Definition Branch_seal (b : Branch) : result BranchError SealedBranch :=
  let? (values, inputs) := seal_touched (br_base b) (br_ops b) ∅ ∅ in
  from_parts {| sb_id := br_id b; sb_author := br_author b;
                sb_base_revision := snap_revision (br_base b); sb_reads := br_reads b;
                sb_scans := br_scans b; sb_relied := br_relied b; sb_touched_base := values;
                sb_touched_inputs := inputs; sb_ops := br_ops b |}.

(** ** The seal digest: what [seal_digest] hashes *)
Definition put_digest_entry (e : string * list byte) : list byte := put_u64_text e.1 ++ e.2.
Definition put_digests (m : gmap string (list byte)) : list byte :=
  le_bytes 8 (N.of_nat (size m)) ++ mjoin (put_digest_entry <$> btree_list m).
Definition put_generation (e : string * N) : list byte := put_u64_text e.1 ++ le_bytes 8 e.2.
Definition put_relied (m : gmap string N) : list byte :=
  le_bytes 8 (N.of_nat (size m)) ++ mjoin (put_generation <$> btree_list m).
Definition bool_byte (b : bool) : byte := if b then x01 else x00.

Definition seal_op (op : BranchOp) : result BranchError (list byte) :=
  match op with
  | Put key value =>
      match canonical_input_bytes key value with
      | Ok canonical =>
          Ok ([x01] ++ put_u64_text key ++ le_bytes 8 (blen canonical) ++ canonical)
      | Err _ => Err (InvalidValue key)
      end
  | Remove key => Ok ([x02] ++ put_u64_text key)
  | Add key amount => Ok ([x03] ++ put_u64_text key ++ i64_le_bytes amount)
  | SetInsert key member in_base =>
      Ok ([x04] ++ put_u64_text key ++ put_u64_text member ++ [bool_byte in_base])
  | SetRemove key member in_base =>
      Ok ([x05] ++ put_u64_text key ++ put_u64_text member ++ [bool_byte in_base])
  end.
Fixpoint seal_ops (ops : list BranchOp) : result BranchError (list byte) :=
  match ops with
  | [] => Ok []
  | op :: ops => let? b := seal_op op in let? rest := seal_ops ops in Ok (b ++ rest)
  end.

Definition seal_bytes (p : SealedBranchParts) : result BranchError (list byte) :=
  let? ops := seal_ops (sb_ops p) in
  Ok (SEAL_DOMAIN ++ put_u64_text (sb_id p) ++ put_u64_text (sb_author p) ++
      le_bytes 8 (sb_base_revision p) ++ put_digests (sb_reads p) ++ put_digests (sb_scans p) ++
      put_relied (sb_relied p) ++ put_digests (sb_touched_base p) ++
      put_digests (sb_touched_inputs p) ++ le_bytes 8 (blen (sb_ops p)) ++ ops).

Definition seal_digest (s : SealedBranch) : result BranchError (list byte) :=
  let? bytes := seal_bytes (parts s) in Ok (sha256 bytes).

End branch.
