(* ===== verification/BranchFacts.v ===== *)
(** * What staging keeps, and that sealing accepts it

    The search for a changed input returns and is exact.  Every branch that the
    operations produce satisfies an invariant: its overlay is defined at every
    key, its digests are those of its base, and each operation passed the rules
    that sealing checks.  From this, sealing refuses no staged branch. *)

From S2P Require Import Prelude Bytes Text SemDelta SemDeltaFacts SemGraph SemHost BranchOps Branch.
From stdpp Require Import options.

(** ** The search for a changed input *)
Section search.
Context (s : SemanticSnapshot).

Definition derives (x k : string) : Prop := edge (st_dependencies (snap_state s)) x k.

Lemma elem_of_inputs x k : x ∈ snapshot_inputs s k ↔ derives x k.
Proof.
  unfold snapshot_inputs, derives. rewrite edge_inputs_of. unfold inputs_of.
  destruct (st_dependencies (snap_state s) !! k); simpl; [apply elem_of_bset_list|set_solver].
Qed.

Lemma inputs_children k : snapshot_inputs s k = children (input_lists s) k.
Proof. unfold snapshot_inputs, children, input_lists. by rewrite lookup_fmap. Qed.

Lemma search_total fuel hit seen stack :
  length stack + pending (input_lists s) seen ≤ fuel →
  ∃ r, search_inputs fuel (snapshot_inputs s) hit seen stack = Some r.
Proof.
  revert seen stack. induction fuel as [|fuel IH]; intros seen [|k stack] Hf; simpl in *;
    try by eexists.
  { lia. }
  case_bool_decide; [apply IH; lia|]. destruct (hit k) as [[|]|]; [by eexists|apply IH|by eexists].
  rewrite (pending_step _ k seen) in Hf by done.
  rewrite length_app, length_reverse, inputs_children. lia.
Qed.

(** [x] is on the stack, or an input, direct or transitive, of what is. *)
Definition above (stack : list string) (x : string) : Prop :=
  ∃ c, c ∈ stack ∧ rtc derives x c.

Lemma above_cons k stack x :
  above (k :: stack) x ↔ x = k ∨ above (reverse (snapshot_inputs s k)) x ∨ above stack x.
Proof.
  unfold above. setoid_rewrite elem_of_cons. setoid_rewrite elem_of_reverse.
  setoid_rewrite elem_of_inputs. split.
  - intros (c & [->|Hc] & Hr); [|eauto]. apply rtc_inv_r in Hr as [->|(y & Hy & Hd)]; eauto.
  - intros [->|[(c & Hd & Hr)|(c & Hc & Hr)]]; [by exists k; split; [left|]| |eauto].
    exists k. split; [by left|]. by eapply rtc_r.
Qed.
Lemma above_app l l' x : above (l ++ l') x ↔ above l x ∨ above l' x.
Proof. unfold above. setoid_rewrite elem_of_app. naive_solver. Qed.

(** What has been seen changes nothing, and its inputs are seen or pending. *)
Definition searched (hit : string → result BranchError bool) (seen : gset string)
    (stack : list string) : Prop :=
  ∀ i, i ∈ seen → hit i = Ok false ∧ ∀ j, derives j i → j ∈ seen ∨ j ∈ stack.

Lemma searched_clear hit seen k stack x :
  searched hit seen (k :: stack) → k ∈ seen → above (k :: stack) x →
  hit x = Ok false ∨ above stack x.
Proof.
  intros Hs Hk (c & Hc & Hr). apply elem_of_cons in Hc as [->|Hc]; [|right; by exists c].
  assert (∀ y, rtc derives x y → y ∈ seen → hit x = Ok false ∨ above stack x) as Hgen;
    [|by apply (Hgen k)].
  apply (rtc_ind_r (λ y, y ∈ seen → hit x = Ok false ∨ above stack x)).
  { intros Hy. left. by apply Hs. }
  intros y z Hxy Hyz IH Hz. apply Hs in Hz as [_ Hin].
  destruct (Hin _ Hyz) as [Hy|Hy]; [by apply IH|].
  apply elem_of_cons in Hy as [->|Hy]; [by apply IH|]. right. by exists y.
Qed.

Lemma search_spec fuel hit seen stack r :
  search_inputs fuel (snapshot_inputs s) hit seen stack = Some r →
  searched hit seen stack →
  match r with
  | Ok None => ∀ x, above stack x → hit x = Ok false
  | Ok (Some x) => above stack x ∧ hit x = Ok true
  | Err e => ∃ x, above stack x ∧ hit x = Err e
  end.
Proof.
  revert seen stack. induction fuel as [|fuel IH]; intros seen [|k stack] H Hs; simpl in H; simplify_eq.
  1,2: intros x (c & Hc & _); by apply elem_of_nil in Hc.
  case_bool_decide as Hk.
  - assert (searched hit seen stack) as Hs'.
    { intros i Hi. split; [by apply Hs|]. intros j Hj. apply Hs in Hi as [_ Hi].
      destruct (Hi j Hj) as [?|Hin]; [by left|]. apply elem_of_cons in Hin as [->|?]; auto. }
    specialize (IH _ _ H Hs').
    destruct r as [[x|]|e].
    + destruct IH. split; [|done]. apply above_cons. auto.
    + intros x Hx. destruct (searched_clear _ _ _ _ x Hs Hk Hx); auto.
    + destruct IH as (x & ? & ?). exists x. split; [|done]. apply above_cons. auto.
  - destruct (hit k) as [[|]|e] eqn:Hh; simplify_eq.
    1,3: (try exists k); split; [apply above_cons; by left|done].
    assert (searched hit ({[k]} ∪ seen) (reverse (snapshot_inputs s k) ++ stack)) as Hs'.
    { intros i Hi. apply elem_of_union in Hi as [->%elem_of_singleton|Hi].
      - split; [done|]. intros j Hj%elem_of_inputs. right. apply elem_of_app. left.
        by apply elem_of_reverse.
      - split; [by apply Hs|]. intros j Hj. apply Hs in Hi as [_ Hi].
        destruct (Hi j Hj) as [?|Hin]; [set_solver|]. apply elem_of_cons in Hin as [->|?]; set_solver. }
    specialize (IH _ _ H Hs').
    assert (∀ x, above (reverse (snapshot_inputs s k) ++ stack) x → above (k :: stack) x) as Hup.
    { intros x Hx%above_app. apply above_cons. by right. }
    destruct r as [[x|]|e]; [naive_solver| |naive_solver].
    intros x [->|Hx]%above_cons; [done|]. by apply IH, above_app.
Qed.

Lemma above_inputs key x : above (reverse (snapshot_inputs s key)) x ↔ tc derives x key.
Proof.
  unfold above. setoid_rewrite elem_of_reverse. setoid_rewrite elem_of_inputs. split.
  - intros (c & Hd & Hr). by eapply tc_rtc_l, tc_once.
  - intros (c & Hr & Hd)%tc_last. eauto.
Qed.

Lemma search_from fuel hit key :
  search_fuel s key ≤ fuel →
  match default (Ok None) (search_inputs fuel (snapshot_inputs s) hit ∅
                             (reverse (snapshot_inputs s key))) with
  | Ok None => ∀ x, tc derives x key → hit x = Ok false
  | Ok (Some x) => tc derives x key ∧ hit x = Ok true
  | Err e => ∃ x, tc derives x key ∧ hit x = Err e
  end.
Proof.
  intros Hf. destruct (search_total fuel hit ∅ (reverse (snapshot_inputs s key))) as [r Hr].
  { by rewrite length_reverse. }
  rewrite Hr. apply search_spec in Hr; [|by intros ? ?%elem_of_empty].
  simpl. pose proof (above_inputs key) as Ha. destruct r as [[x|]|e]; naive_solver.
Qed.
End search.

(** The search of an open branch: total where the overlay is. *)
Lemma changed_input_of_spec base ops key :
  (∀ k, is_ok (overlay base ops k) = true) →
  match changed_input_of base ops key with
  | Ok None => ∀ x, tc (derives base) x key → changes base ops x = Ok false
  | Ok (Some x) => tc (derives base) x key ∧ changes base ops x = Ok true
  | Err _ => False
  end.
Proof.
  intros Hov. pose proof (search_from base (search_fuel base key) (changes base ops) key ltac:(done)) as H.
  fold (changed_input_of base ops key) in H. destruct (changed_input_of base ops key) as [[x|]|e]; [done..|].
  destruct H as (x & _ & Hx). unfold changes in Hx. case_match; [|done].
  specialize (Hov x). by destruct (overlay base ops x).
Qed.

(** ** Operations on one key *)
Lemma op_on_true k op : op_on k op = true ↔ op_key op = k.
Proof. apply bool_decide_eq_true. Qed.

Lemma operates_on_true ops k : operates_on ops k = true ↔ ∃ op, op ∈ ops ∧ op_key op = k.
Proof.
  unfold operates_on. rewrite existsb_exists. setoid_rewrite <-list_elem_of_In.
  by setoid_rewrite op_on_true.
Qed.
Lemma operated_on ops k : k ∈ operated ops ↔ operates_on ops k = true.
Proof.
  unfold operated. rewrite elem_of_list_to_set, list_elem_of_fmap, operates_on_true. naive_solver.
Qed.
Lemma overwrites_true ops k :
  overwrites ops k = true ↔ ∃ op, op ∈ ops ∧ op_key op = k ∧ commutes op = false.
Proof.
  unfold overwrites. rewrite existsb_exists. setoid_rewrite <-list_elem_of_In.
  setoid_rewrite andb_true_iff. setoid_rewrite op_on_true. by setoid_rewrite negb_true_iff.
Qed.
Lemma elem_of_ops_on ops k op : op ∈ ops_on ops k ↔ op ∈ ops ∧ op_key op = k.
Proof. unfold ops_on. by rewrite list_elem_of_In, filter_In, <-list_elem_of_In, op_on_true. Qed.
Lemma ops_on_nil ops k : ops_on ops k = [] ↔ operates_on ops k = false.
Proof.
  unfold ops_on, operates_on. induction ops as [|op ops IH]; simpl; [done|].
  destruct (op_on k op); simpl; [done|exact IH].
Qed.
Lemma ops_on_snoc ops op k :
  ops_on (ops ++ [op]) k = ops_on ops k ++ (if op_on k op then [op] else []).
Proof. unfold ops_on. rewrite List.filter_app. simpl. by destruct (op_on k op). Qed.
Lemma operates_on_snoc ops op k :
  operates_on (ops ++ [op]) k = operates_on ops k || op_on k op.
Proof. unfold operates_on. rewrite existsb_app. simpl. by rewrite orb_false_r. Qed.

Lemma overlay_snoc base ops op k :
  overlay base (ops ++ [op]) k =
  if op_on k op then rbind (overlay base ops k) (op_apply op) else overlay base ops k.
Proof.
  unfold overlay. rewrite ops_on_snoc, fold_ops_app. destruct (op_on k op).
  - destruct (fold_ops _ _) as [v|]; [|done]. simpl. by destruct (op_apply op v).
  - by destruct (fold_ops _ _).
Qed.

Lemma overlay_untouched base ops k :
  operates_on ops k = false → overlay base ops k = Ok (snapshot_value base k).
Proof. intros H%ops_on_nil. unfold overlay. by rewrite H. Qed.

Section staging.
Context (sha256 : list byte → list byte).

(** The public methods of an open branch. *)
Inductive BranchCall :=
| CallRead (key : string)
| CallScan (prefix : string)
| CallRely (target : string) (generation : N)
| CallPut (key : string) (value : SemanticValue)
| CallRemove (key : string)
| CallCommute (op : BranchOp).

(** The branch a call leaves, refused or not. *)
Definition branch_call (b : Branch) (c : BranchCall) : Branch :=
  match c with
  | CallRead key => (Branch_read sha256 b key).2
  | CallScan prefix => (scan_prefix sha256 b prefix).2
  | CallRely target generation => (rely_on b target generation).2
  | CallPut key value => (Branch_put sha256 b key value).2
  | CallRemove key => (Branch_remove b key).2
  | CallCommute op => (stage_commutative sha256 b op).2
  end.
Definition branch_run (b : Branch) (calls : list BranchCall) : Branch := foldl branch_call b calls.

(** A call that can be made in Rust. *)
Definition call_ok (c : BranchCall) : bool :=
  match c with CallCommute op => branch_op_ok op | _ => true end.

(** What one staged operation satisfies. *)
Record op_staged (base : SemanticSnapshot) (reads : gmap string (list byte)) (op : BranchOp) :
    Prop := {
  os_writable : is_reserved (op_key op) = false;
  os_read : commutes op = true ∨ is_Some (reads !! op_key op);
  os_member : check_op_member op = Ok tt;
  os_value : check_put op = Ok tt;
  os_removal : is_remove op = true → snapshot_inputs base (op_key op) = [];
  os_presence : ∀ m after in_base, set_member op = Some (m, after, in_base) →
    in_base = holds_member (snapshot_value base (op_key op)) m;
  os_inputs : ∀ i, i ∈ snapshot_inputs base (op_key op) → is_Some (reads !! i);
  os_ok : branch_op_ok op = true
}.

Record branch_inv (b : Branch) : Prop := {
  bi_overlay : ∀ k, is_ok (overlay (br_base b) (br_ops b) k) = true;
  bi_reads : ∀ k d, br_reads b !! k = Some d →
    ValueDigest_of sha256 k (snapshot_value (br_base b) k) = Ok d;
  bi_scans : ∀ p d, br_scans b !! p = Some d →
    RangeDigest_of sha256 p (range_entries (br_base b) p) = Ok d;
  bi_ops : Forall (op_staged (br_base b) (br_reads b)) (br_ops b);
  bi_evicted : evicted_operand (br_base b) (br_ops b) = Ok None;
  bi_held : ∀ k, operates_on (br_ops b) k = true → overwrites (br_ops b) k = false →
    snapshot_inputs (br_base b) k ≠ [] → snapshot_value (br_base b) k ≠ None
}.

Lemma op_staged_mono base reads reads' op :
  reads ⊆ reads' → op_staged base reads op → op_staged base reads' op.
Proof.
  intros Hsub [Hw Hr Hm Hv Hd Hp Hi Ho]. split; try done.
  - destruct Hr as [?|[d Hr]]; [by left|right]. exists d. by eapply lookup_weaken.
  - intros i Hin. destruct (Hi i Hin) as [d Hr']. exists d. by eapply lookup_weaken.
Qed.

Lemma inv_reads_grow b reads' :
  branch_inv b → br_reads b ⊆ reads' →
  (∀ k d, reads' !! k = Some d →
     ValueDigest_of sha256 k (snapshot_value (br_base b) k) = Ok d) →
  branch_inv (with_reads b reads').
Proof.
  intros [] Hsub Hr. split; simpl; try done.
  eapply Forall_impl; [done|]. intros op. by apply op_staged_mono.
Qed.

Lemma Branch_open_inv id author base : branch_inv (Branch_open id author base).
Proof.
  split; cbn [Branch_open br_base br_reads br_scans br_ops]; try done.
  all: intros ???; by rewrite lookup_empty in *.
Qed.

Lemma record_read_inv b key b' :
  record_read sha256 b key = Ok b' → branch_inv b →
  branch_inv b' ∧ br_base b' = br_base b ∧ br_ops b' = br_ops b ∧ is_Some (br_reads b' !! key).
Proof.
  unfold record_read. case_bool_decide as Hin; [intros [= <-]; done|]. intros H HI.
  apply rbind_ok_inv in H as (d & Hd & [= <-]). apply eq_None_not_Some in Hin.
  split; [|cbn; by rewrite lookup_insert_eq].
  apply inv_reads_grow; [done|by apply insert_subseteq|].
  intros k d' [[<- <-]|[? Hk]]%lookup_insert_Some; [done|]. by eapply bi_reads.
Qed.

Lemma unread_inputs_spec b l es :
  unread_inputs sha256 b l = Ok es →
  Forall (λ e, br_reads b !! e.1 = None ∧
    ValueDigest_of sha256 e.1 (snapshot_value (br_base b) e.1) = Ok e.2) es ∧
  ∀ i, i ∈ l → is_Some (br_reads b !! i) ∨ i ∈ es.*1.
Proof.
  revert es. induction l as [|i l IH]; intros es H; cbn [unread_inputs] in H.
  { injection H as <-. split; [done|set_solver]. }
  case_bool_decide as Hi.
  { apply IH in H as [? H]. split; [done|]. intros j [->|Hj]%elem_of_cons; auto. }
  apply rbind_ok_inv in H as (d & Hd & H). apply rbind_ok_inv in H as (es' & Hes & [= <-]).
  apply IH in Hes as [Hf Hl]. split.
  - constructor; [|done]. split; [by apply eq_None_not_Some|done].
  - intros j [->|Hj]%elem_of_cons; [right; left|]. destruct (Hl j Hj); [auto|right; by right].
Qed.

Lemma extend_reads_spec b es :
  Forall (λ e, br_reads b !! e.1 = None ∧
    ValueDigest_of sha256 e.1 (snapshot_value (br_base b) e.1) = Ok e.2) es →
  let reads := br_reads (extend_reads b es) in
  br_reads b ⊆ reads ∧ (∀ i, i ∈ es.*1 → is_Some (reads !! i)) ∧
  ((∀ k d, br_reads b !! k = Some d →
     ValueDigest_of sha256 k (snapshot_value (br_base b) k) = Ok d) →
   ∀ k d, reads !! k = Some d → ValueDigest_of sha256 k (snapshot_value (br_base b) k) = Ok d).
Proof.
  intros Hf. cbn [extend_reads with_reads br_reads]. set (m0 := br_reads b) in *.
  assert (∀ m, m0 ⊆ m →
    let reads := foldl (λ m e, <[e.1 := e.2]> m) m es in
    m0 ⊆ reads ∧ (∀ i, i ∈ es.*1 ∨ is_Some (m !! i) → is_Some (reads !! i)) ∧
    ((∀ k d, m !! k = Some d → ValueDigest_of sha256 k (snapshot_value (br_base b) k) = Ok d) →
     ∀ k d, reads !! k = Some d → ValueDigest_of sha256 k (snapshot_value (br_base b) k) = Ok d))
    as Hgen; [|destruct (Hgen m0) as (? & ? & ?); [done|]; naive_solver].
  induction Hf as [|[i d] es [Hn Hd] _ IH]; intros m Hm; cbn [foldl fmap list_fmap fst snd] in *.
  { split; [done|]. split; [set_solver|done]. }
  destruct (IH (<[i := d]> m)) as (H1 & H2 & H3).
  { apply insert_subseteq_r; done. }
  split; [done|]. split.
  - intros j [[->|Hj]%elem_of_cons|Hj]; apply H2; [right; by rewrite lookup_insert_eq|by left|right].
    rewrite lookup_insert_is_Some. destruct (decide (i = j)); auto.
  - intros Hall. apply H3. intros k d' [[<- <-]|[_ Hk]]%lookup_insert_Some; [done|]. by apply Hall.
Qed.

Lemma record_op_shape b op :
  match record_op b op with
  | (Ok _, b') => b' = with_ops b (br_ops b ++ [op]) ∧
                  evicted_operand (br_base b) (br_ops b ++ [op]) = Ok None
  | (Err _, b') => b' = b
  end.
Proof. unfold record_op. cbn [with_ops br_base br_ops]. by destruct (evicted_operand _ _) as [[?|]|?]. Qed.

(** One operation more, with the reads it brings. *)
Lemma inv_push b op reads' :
  branch_inv b → evicted_operand (br_base b) (br_ops b ++ [op]) = Ok None →
  br_reads b ⊆ reads' →
  (∀ k d, reads' !! k = Some d → ValueDigest_of sha256 k (snapshot_value (br_base b) k) = Ok d) →
  op_staged (br_base b) reads' op →
  (∀ v, overlay (br_base b) (br_ops b) (op_key op) = Ok v → is_ok (op_apply op v) = true) →
  (overwrites (br_ops b ++ [op]) (op_key op) = false →
   snapshot_inputs (br_base b) (op_key op) ≠ [] → snapshot_value (br_base b) (op_key op) ≠ None) →
  branch_inv (with_reads (with_ops b (br_ops b ++ [op])) reads').
Proof.
  intros [Hov Hr Hs Ho He Hh] Hev Hsub Hd Hop Happ Hheld. split; simpl; try done.
  - intros k. rewrite overlay_snoc. destruct (op_on k op) eqn:Hk; [|done].
    apply op_on_true in Hk as <-. specialize (Hov (op_key op)).
    destruct (overlay _ _ _) as [v|] eqn:Hv; [|done]. simpl. by apply Happ.
  - apply Forall_app. split; [|by apply Forall_singleton].
    eapply Forall_impl; [done|]. intros op'. by apply op_staged_mono.
  - intros k Hk Hw. rewrite operates_on_snoc in Hk.
    destruct (op_on k op) eqn:Hkop; [apply op_on_true in Hkop as <-; by apply Hheld|].
    rewrite orb_false_r in Hk. apply Hh; [done|]. unfold overwrites in *. rewrite existsb_app in Hw.
    by apply orb_false_iff in Hw as [? _].
Qed.

Lemma check_writable_ok key : check_writable key = Ok tt → is_reserved key = false.
Proof. unfold check_writable. by case_match. Qed.
Lemma require_read_ok b key : require_read b key = Ok tt → is_Some (br_reads b !! key).
Proof. unfold require_read. by case_bool_decide. Qed.

Lemma record_with_inv b op inputs :
  branch_inv b → unread_inputs_of sha256 b (op_key op) = Ok inputs →
  (∀ reads', br_reads b ⊆ reads' →
     (∀ i, i ∈ snapshot_inputs (br_base b) (op_key op) → is_Some (reads' !! i)) →
     op_staged (br_base b) reads' op) →
  (∀ v, overlay (br_base b) (br_ops b) (op_key op) = Ok v → is_ok (op_apply op v) = true) →
  (overwrites (br_ops b ++ [op]) (op_key op) = false →
   snapshot_inputs (br_base b) (op_key op) ≠ [] → snapshot_value (br_base b) (op_key op) ≠ None) →
  branch_inv (record_with b op inputs).2 ∧ br_base (record_with b op inputs).2 = br_base b.
Proof.
  intros HI Hin Hop Happ Hheld. unfold record_with. pose proof (record_op_shape b op) as Hshape.
  destruct (record_op b op) as [[[]|e] b']; [|by subst]. destruct Hshape as [-> Hev].
  unfold unread_inputs_of in Hin. apply unread_inputs_spec in Hin as [Hf Hl].
  destruct (extend_reads_spec b inputs Hf) as (Hsub & Hall & Hd). split; [|done].
  apply (inv_push b op); try done.
  - apply Hd, (bi_reads _ HI).
  - apply Hop; [done|]. intros i Hi. destruct (Hl i Hi) as [[d Hr]|?]; [|by apply Hall].
    exists d. by eapply lookup_weaken.
Qed.

Lemma put_inv b key value :
  branch_inv b → branch_inv (Branch_put sha256 b key value).2 ∧
  br_base (Branch_put sha256 b key value).2 = br_base b.
Proof.
  intros HI. unfold Branch_put. destruct (_ ;? _) as [inputs|] eqn:H; [|done].
  apply rbind_ok_inv in H as ([] & Hw & H). apply rbind_ok_inv in H as ([] & Hr & H).
  apply rbind_ok_inv in H as ([] & Hv & Hi).
  apply record_with_inv; try done.
  - intros reads' Hsub Hin. apply require_read_ok in Hr as [d Hr]. split; try done.
    + by apply check_writable_ok.
    + right. exists d. by eapply lookup_weaken.
  - intros Ho. exfalso. apply not_true_iff_false in Ho. apply Ho, overwrites_true.
    exists (Put key value). set_solver.
Qed.

Lemma remove_inv b key :
  branch_inv b → branch_inv (Branch_remove b key).2 ∧ br_base (Branch_remove b key).2 = br_base b.
Proof.
  intros HI. unfold Branch_remove. destruct (_ ;? _) as [[]|] eqn:H; [|done].
  apply rbind_ok_inv in H as ([] & Hw & Hr). case_bool_decide as Hd; cbn [negb]; [|done].
  pose proof (record_op_shape b (Remove key)) as Hshape.
  destruct (record_op b (Remove key)) as [[[]|e] b']; [|by subst]. destruct Hshape as [-> Hev].
  split; [|done]. change (with_ops b (br_ops b ++ [Remove key]))
    with (with_reads (with_ops b (br_ops b ++ [Remove key])) (br_reads b)).
  apply inv_push; try done; [apply (bi_reads _ HI)|].
  split; cbn [op_key]; try done.
  - by apply check_writable_ok.
  - right. by apply require_read_ok.
  - intros i. rewrite Hd. by intros ?%elem_of_nil.
Qed.

Lemma membership_key base op : op_key (with_base_membership base op) = op_key op.
Proof. by destruct op. Qed.
Lemma membership_commutes base op : commutes (with_base_membership base op) = commutes op.
Proof. by destruct op. Qed.

Lemma overwrites_snoc_false ops op k :
  overwrites (ops ++ [op]) k = false → overwrites ops k = false.
Proof. unfold overwrites. rewrite existsb_app. by intros [? _]%orb_false_iff. Qed.

Lemma commute_inv b op :
  branch_op_ok op = true → branch_inv b → branch_inv (stage_commutative sha256 b op).2 ∧
  br_base (stage_commutative sha256 b op).2 = br_base b.
Proof.
  intros Hok HI. unfold stage_commutative. destruct (check_writable _) as [[]|] eqn:Hw; [|done].
  destruct (commutes op) eqn:Hc; cbn [negb]; [|done].
  set (op' := with_base_membership (br_base b) op).
  destruct (_ ;? _) as [inputs|] eqn:H; [|done].
  apply rbind_ok_inv in H as ([] & Ho & H). apply rbind_ok_inv in H as (v & Hv & H).
  apply rbind_ok_inv in H as (w & Hap & Hi). apply record_with_inv; try done.
  - intros reads' Hsub Hin. apply check_writable_ok in Hw. unfold op' in *. clear Ho Hv Hi.
    split; rewrite ?membership_key in *; try done.
    + left. by rewrite membership_commutes.
    + destruct op; try done; cbn [with_base_membership check_op_member set_member op_key] in *;
        cbn [op_apply] in Hap; by apply rbind_ok_inv in Hap as ([] & ? & _).
    + by destruct op.
    + by destruct op.
    + intros m after in_base. destruct op; cbn [with_base_membership set_member]; naive_solver.
    + by destruct op.
  - intros v'. rewrite Hv. intros [= <-]. by rewrite Hap.
  - intros Hov Hin Hn. apply overwrites_snoc_false in Hov.
    unfold check_operand in Ho. rewrite Hov in Ho. apply rbind_ok_inv in Ho as ([|] & _ & Ho); [done|].
    rewrite (bool_decide_eq_true_2 _ Hn), (bool_decide_eq_false_2 _ Hin) in Ho. done.
Qed.

Lemma branch_call_inv b c :
  call_ok c = true → branch_inv b → branch_inv (branch_call b c) ∧ br_base (branch_call b c) = br_base b.
Proof.
  intros Hok HI. destruct c as [key|prefix|target g|key v|key|op]; cbn [branch_call].
  - unfold Branch_read. destruct (record_read _ _ _) as [b'|] eqn:H; [|done].
    apply record_read_inv in H as (? & ? & _); done.
  - unfold scan_prefix. repeat case_match; try done. case_bool_decide as Hs; [done|]. split; [|done].
    apply eq_None_not_Some in Hs. rewrite ?Hs in *. destruct HI. split; simpl; try done.
    intros p d [[<- <-]|[? Hp]]%lookup_insert_Some; [done|]. by eauto.
  - unfold rely_on. repeat case_match; try done. split; [|done]. by destruct HI.
  - by apply put_inv.
  - by apply remove_inv.
  - by apply commute_inv.
Qed.

Lemma branch_run_inv b calls :
  forallb call_ok calls = true → branch_inv b →
  branch_inv (branch_run b calls) ∧ br_base (branch_run b calls) = br_base b.
Proof.
  revert b. induction calls as [|c calls IH]; intros b Hok HI; [done|].
  cbn [forallb] in Hok. apply andb_true_iff in Hok as [Hc Hok].
  destruct (branch_call_inv b c Hc HI) as [HI' Hb]. cbn [branch_run foldl].
  destruct (IH _ Hok HI') as [? Hb']. split; [done|]. unfold branch_run in Hb'. by rewrite Hb'.
Qed.
End staging.

(** * Sealing accepts what was staged

    [Branch::seal] records the base digest and the input set of every touched
    key and hands the parts to [from_parts], which checks every rule again.  A
    branch that the public methods built always passes; the only refusal is a
    touched base value that has no encoding. *)

Section seal.
Context (sha256 : list byte → list byte).

Lemma value_digest_err k v e :
  ValueDigest_of sha256 k v = Err e → e = InvalidValue k ∧ ∃ x, v = Some x ∧ ¬ encodable k x.
Proof.
  unfold ValueDigest_of, value_bytes. destruct v as [v|]; [|done].
  destruct (canonical_input_bytes k v) eqn:Hc; [done|]. intros [= <-]. split; [done|].
  exists v. split; [done|]. intros [bs Hbs]. congruence.
Qed.

Definition touched_of (base : SemanticSnapshot) (values inputs : gmap string (list byte)) : Prop :=
  (∀ k d, values !! k = Some d → ValueDigest_of sha256 k (snapshot_value base k) = Ok d) ∧
  (∀ k, inputs !! k =
        (λ _, InputsDigest_of sha256 k (snapshot_inputs base k)) <$> values !! k).

Lemma seal_touched_spec base ops values inputs :
  touched_of base values inputs →
  match seal_touched sha256 base ops values inputs with
  | Ok (values', inputs') =>
      touched_of base values' inputs' ∧
      ∀ k, is_Some (values' !! k) ↔ is_Some (values !! k) ∨ operates_on ops k = true
  | Err e => ∃ k v, e = InvalidValue k ∧ snapshot_value base k = Some v ∧ ¬ encodable k v
  end.
Proof.
  revert values inputs. induction ops as [|op ops IH]; intros values inputs Ht; cbn [seal_touched].
  { split; [done|]. naive_solver. }
  assert (∀ k, operates_on (op :: ops) k = true ↔ op_key op = k ∨ operates_on ops k = true) as Hcons.
  { intros k. cbn [operates_on existsb]. by rewrite orb_true_iff, op_on_true. }
  case_bool_decide as Hin.
  - specialize (IH values inputs Ht). destruct (seal_touched _ _ _ _ _) as [[v i]|e]; [|done].
    destruct IH as [? IH]. split; [done|]. intros k. rewrite IH, Hcons. naive_solver.
  - destruct (ValueDigest_of _ _ _) as [d|e] eqn:Hd; cbn [rbind].
    2:{ apply value_digest_err in Hd as (-> & v & ? & ?). eauto. }
    destruct Ht as [Hv Hi]. assert (touched_of base (<[op_key op := d]> values)
      (<[op_key op := InputsDigest_of sha256 (op_key op) (snapshot_inputs base (op_key op))]> inputs)) as Ht'.
    { split.
      - intros k d' [[<- <-]|[_ H]]%lookup_insert_Some; [done|]. by apply Hv.
      - intros k. destruct (decide (op_key op = k)) as [<-|]; [by rewrite !lookup_insert_eq|].
        by rewrite !lookup_insert_ne. }
    specialize (IH _ _ Ht'). destruct (seal_touched _ _ _ _ _) as [[v i]|e]; [|done].
    destruct IH as [? IH]. split; [done|]. intros k. rewrite IH, Hcons, lookup_insert_is_Some.
    destruct (decide (op_key op = k)); naive_solver.
Qed.

(** SHA-256 separates the values of [base] from absence. *)
Definition separates_absence (base : SemanticSnapshot) : Prop :=
  ∀ k v bs, snapshot_value base k = Some v → value_bytes k (Some v) = Ok bs →
  sha256 bs ≠ sha256 (absent_bytes k).

Section staged.
Context (base : SemanticSnapshot) (p : SealedBranchParts).
Context (Hsep : separates_absence base).
Context (Ht : touched_of base (sb_touched_base p) (sb_touched_inputs p)).
Context (Hdom : ∀ k, is_Some (sb_touched_base p !! k) ↔ operates_on (sb_ops p) k = true).

Lemma present_not_absent k m :
  holds_member (snapshot_value base k) m = true →
  sb_touched_base p !! k ≠ Some (ValueDigest_absent sha256 k).
Proof using Hsep Ht.
  intros Hm Hb. apply (proj1 Ht) in Hb. unfold holds_member in Hm.
  destruct (snapshot_value base k) as [v|] eqn:Hv; [|done].
  unfold ValueDigest_of in Hb. destruct (value_bytes k (Some v)) as [bs|] eqn:Hbs; [|done].
  injection Hb as Hb. by eapply Hsep.
Qed.

Definition presences_of (members : gmap (string * string) bool) : Prop :=
  ∀ k m b, members !! (k, m) = Some b → b = holds_member (snapshot_value base k) m.

Lemma check_op_staged op members :
  op ∈ sb_ops p → op_staged base (sb_reads p) op → presences_of members →
  ∃ members', check_op sha256 p (members, None) op = Ok (members', None) ∧ presences_of members'.
Proof using Hsep Ht Hdom.
  intros Hin [Hw Hr Hm Hv Hd Hp _ _] Hpr. unfold check_op. rewrite Hw.
  assert (negb (commutes op) && negb (bool_decide (is_Some (sb_reads p !! op_key op))) = false) as ->.
  { destruct Hr as [->|Hr]; [done|]. by rewrite (bool_decide_eq_true_2 _ Hr), andb_false_r. }
  rewrite Hm, Hv. cbn [rbind].
  assert (operates_on (sb_ops p) (op_key op) = true) as Hon by (apply operates_on_true; eauto).
  apply Hdom in Hon as [d Hb]. rewrite bool_decide_eq_true_2 by by eexists. cbn [negb].
  rewrite (proj2 Ht), Hb. cbn [fmap option_fmap option_map].
  assert (note_removal sha256 (op_key op)
    (InputsDigest_of sha256 (op_key op) (snapshot_inputs base (op_key op))) op None = None) as ->.
  { unfold note_removal. destruct (is_remove op) eqn:Hrm; [|done]. rewrite Hd by done.
    by rewrite bool_decide_eq_true_2. }
  unfold check_presence. destruct (set_member op) as [[[m after] in_base]|] eqn:Hs.
  2:{ simpl. eauto. }
  rewrite (Hp _ _ _ eq_refl). set (now := holds_member _ _).
  assert (match members !! (op_key op, m) with
          | Some earlier => negb (Bool.eqb earlier now) | None => false end = false) as ->.
  { destruct (members !! _) as [b|] eqn:Hmem; [|done]. apply Hpr in Hmem as ->.
    by rewrite Bool.eqb_reflx. }
  assert (now && bool_decide (sb_touched_base p !! op_key op =
            Some (ValueDigest_absent sha256 (op_key op))) = false) as ->.
  { destruct now eqn:Hn; [|done]. by apply bool_decide_eq_false_2, present_not_absent with m. }
  simpl. eexists. split; [done|]. intros k m' b [[Hk <-]|[_ H]]%lookup_insert_Some; [|by apply Hpr].
  by injection Hk as <- <-.
Qed.

Lemma check_ops_staged ops members :
  ops ⊆ sb_ops p → Forall (op_staged base (sb_reads p)) ops → presences_of members →
  ∃ members', check_ops sha256 p (members, None) ops = Ok (members', None).
Proof using Hsep Ht Hdom.
  intros Hsub Hf. revert members. induction Hf as [|op ops Hop _ IH]; intros members Hpr.
  { by exists members. }
  cbn [check_ops]. destruct (check_op_staged op members) as (members' & -> & Hpr'); [set_solver|done..|].
  cbn [rbind]. apply IH; [set_solver|done].
Qed.

Lemma find_none_iff {A} (f : A → bool) l : List.find f l = None ↔ ∀ x, x ∈ l → f x = false.
Proof.
  split.
  - intros H x Hx. eapply find_none; [done|]. by apply list_elem_of_In.
  - intros H. destruct (List.find f l) as [x|] eqn:Hf; [|done]. apply find_some in Hf as [Hin Hx].
    apply list_elem_of_In, H in Hin. congruence.
Qed.

Lemma elem_of_keys_of {A} (m : gmap string A) k : k ∈ keys_of m ↔ is_Some (m !! k).
Proof.
  unfold keys_of. rewrite list_elem_of_fmap. split.
  - intros ([k' x] & -> & H). apply elem_of_btree_list in H. by eexists.
  - intros [x Hx]. exists (k, x). by rewrite elem_of_btree_list.
Qed.

Lemma check_sealed_staged :
  Forall (op_staged base (sb_reads p)) (sb_ops p) →
  (∀ k d, sb_reads p !! k = Some d → ValueDigest_of sha256 k (snapshot_value base k) = Ok d) →
  check_sealed sha256 p = Ok tt.
Proof using Hsep Ht Hdom.
  intros Hops Hreads. unfold check_sealed.
  destruct (check_ops_staged (sb_ops p) ∅) as [members ->]; [done|done|by intros ??? ?%lookup_empty_Some|].
  cbn [rbind]. rewrite (proj2 (find_none_iff _ _)).
  2:{ intros k Hk. rewrite bool_decide_eq_true_2; [done|]. apply operated_on, Hdom.
      apply elem_of_app in Hk as [Hk|Hk]; apply elem_of_keys_of in Hk; [done|].
      rewrite (proj2 Ht) in Hk. by rewrite fmap_is_Some in Hk. }
  rewrite (proj2 (find_none_iff _ _)); [done|].
  intros [k d] Hk. apply elem_of_btree_list in Hk. cbn [fst snd].
  destruct (sb_reads p !! k) as [d'|] eqn:Hr; [|done]. apply Hreads in Hr. apply (proj1 Ht) in Hk.
  rewrite Hk in Hr. injection Hr as ->. by rewrite bool_decide_eq_true_2.
Qed.
End staged.

(** The parts of a branch sealed over its base. *)
Record sealed_from (b : Branch) (s : SealedBranch) : Prop := {
  sf_id : sb_id (parts s) = br_id b;
  sf_author : sb_author (parts s) = br_author b;
  sf_revision : sb_base_revision (parts s) = snap_revision (br_base b);
  sf_reads : sb_reads (parts s) = br_reads b;
  sf_scans : sb_scans (parts s) = br_scans b;
  sf_relied : sb_relied (parts s) = br_relied b;
  sf_ops : sb_ops (parts s) = br_ops b;
  sf_touched : touched_of (br_base b) (sb_touched_base (parts s)) (sb_touched_inputs (parts s));
  sf_dom : ∀ k, is_Some (sb_touched_base (parts s) !! k) ↔ operates_on (br_ops b) k = true;
  sf_recheck : recheck sha256 s = Ok tt
}.

Lemma touched_of_empty base : touched_of base ∅ ∅.
Proof. split; [by intros ?? ?%lookup_empty_Some|done]. Qed.

Lemma seal_inv b s : Branch_seal sha256 b = Ok s → sealed_from b s.
Proof.
  unfold Branch_seal. pose proof (seal_touched_spec (br_base b) (br_ops b) ∅ ∅ (touched_of_empty _)) as H.
  destruct (seal_touched _ _ _ _ _) as [[values inputs]|e]; [|done]. destruct H as [Ht Hdom].
  cbn [rbind]. unfold from_parts. intros ([] & Hc & [= <-])%rbind_ok_inv.
  split; try done. cbn [parts sb_touched_base]. intros k. rewrite Hdom.
  split; [intros [[? ?%lookup_empty_Some]|?]; done|by right].
Qed.

Lemma seal_staged b :
  branch_inv sha256 b → separates_absence (br_base b) →
  match Branch_seal sha256 b with
  | Ok s => sealed_from b s
  | Err e => ∃ k v, e = InvalidValue k ∧ snapshot_value (br_base b) k = Some v ∧ ¬ encodable k v
  end.
Proof.
  intros HI Hsep. destruct (Branch_seal sha256 b) as [s|e] eqn:Hs; [by apply seal_inv|].
  unfold Branch_seal in Hs.
  pose proof (seal_touched_spec (br_base b) (br_ops b) ∅ ∅ (touched_of_empty _)) as H.
  destruct (seal_touched _ _ _ _ _) as [[values inputs]|e']; [|by injection Hs as <-].
  destruct H as [Ht Hdom]. cbn [rbind] in Hs. unfold from_parts in Hs.
  rewrite (check_sealed_staged (br_base b)) in Hs; [done|done|done|..].
  - cbn [sb_touched_base sb_ops]. intros k. rewrite Hdom.
    split; [intros [[? ?%lookup_empty_Some]|?]; done|by right].
  - apply (bi_ops _ _ HI).
  - apply (bi_reads _ _ HI).
Qed.
End seal.

(** ** Theorem *)

(** C10: staging keeps every sealing rule.  Whatever public methods are called on
    a new branch, in whatever order and however many of them are refused,
    sealing it succeeds, the result records exactly what was staged with the
    base digests of the touched keys, and passes [recheck]; the one refusal is
    a touched base value without an encoding.  (SHA-256 must not map a value of
    the base and the absence of its key to one digest.) *)
Theorem seal_accepts_staged sha256 id author base calls :
  forallb call_ok calls = true → separates_absence sha256 base →
  let b := branch_run sha256 (Branch_open id author base) calls in
  br_base b = base ∧
  match Branch_seal sha256 b with
  | Ok s => sealed_from sha256 b s
  | Err e => ∃ k v, e = InvalidValue k ∧ snapshot_value base k = Some v ∧ ¬ encodable k v
  end.
Proof.
  intros Hok Hsep b.
  destruct (branch_run_inv sha256 (Branch_open id author base) calls) as [HI Hb];
    [done|apply Branch_open_inv|]. fold b in HI, Hb. cbn [Branch_open br_base] in Hb.
  split; [done|]. pose proof (seal_staged sha256 b HI) as H. rewrite Hb in H. by apply H.
Qed.
