(* ===== verification/Certify.v ===== *)
(** * Certification and merge plans: crates/ptr-branch, certify.rs

    [certify] decides whether a sealed branch may be merged onto a target
    snapshot: everything it declared must be unchanged, and its operations are
    applied to the target's values.  The result is a [MergePlan], one ordinary
    semantic delta with the revision it was certified against. *)

From S2P Require Import Prelude Bytes Text SemDelta SemGraph SemHost BranchOps Branch.
From stdpp Require Import options.

(** [Validity] of crates/ptr-types. *)
Inductive Validity := Live | Superseded | Revoked | Disputed.
#[export] Instance Validity_eq_dec : EqDecision Validity.
Proof. solve_decision. Defined.

Record MergePlan := {
  mp_branch : string;
  mp_expected : N;
  mp_delta : SemanticDelta;
  mp_rebased : gset string;
  mp_relied : gmap string N;
  mp_dependencies : list byte
}.
#[export] Instance MergePlan_eq_dec : EqDecision MergePlan.
Proof. solve_decision. Defined.

Inductive CertificationKind := KindClean | KindRebased.

Inductive Certification :=
| Clean (plan : MergePlan)
| Rebased (plan : MergePlan).
#[export] Instance Certification_eq_dec : EqDecision Certification.
Proof. solve_decision. Defined.

(** [Certification::plan] and [into_plan]. *)
Definition certification_plan (c : Certification) : MergePlan :=
  match c with Clean plan | Rebased plan => plan end.
Definition certification_kind (c : Certification) : CertificationKind :=
  if bool_decide (mp_rebased (certification_plan c) = ∅) then KindClean else KindRebased.

Definition is_noop (p : MergePlan) : bool :=
  bool_decide (upserts (mp_delta p) = ∅) && bool_decide (removals (mp_delta p) = ∅).

(** What [merge_plan_digest] hashes. *)
Definition MERGE_PLAN_DOMAIN : list byte := str_bytes "ptr-branch/merge-plan/v3".
Definition merge_plan_bytes (branch : string) (expected : N) (encoded_delta dependencies : list byte)
    (rebased : gset string) : list byte :=
  MERGE_PLAN_DOMAIN ++ put_u64_text branch ++ le_bytes 8 expected ++
  le_bytes 8 (blen encoded_delta) ++ encoded_delta ++ dependencies ++
  le_bytes 8 (N.of_nat (size rebased)) ++ mjoin (put_u64_text <$> bset_list rebased).

(** What [dependency_digest] hashes; the presences are collected into a map
    that is iterated in the order of key and member. *)
Definition DEPENDENCIES_DOMAIN : list byte := str_bytes "ptr-branch/dependencies/v3".

Definition presence_le (p q : (string * string) * bool) : Prop :=
  p.1.1 ≠ q.1.1 ∧ String.le p.1.1 q.1.1 ∨ p.1.1 = q.1.1 ∧ String.le p.1.2 q.1.2.
#[export] Instance presence_le_dec : RelDecision presence_le.
Proof. intros p q. unfold presence_le. apply _. Defined.

Definition base_presences (ops : list BranchOp) : gmap (string * string) bool :=
  foldl (λ m op, match set_member op with
                 | Some (member, _, in_base) => <[(op_key op, member) := in_base]> m
                 | None => m
                 end) ∅ ops.
Definition put_presence (e : (string * string) * bool) : list byte :=
  put_u64_text e.1.1 ++ put_u64_text e.1.2 ++ [bool_byte e.2].
Definition presences_list (m : gmap (string * string) bool) : list ((string * string) * bool) :=
  merge_sort presence_le (map_to_list m).

Definition dependency_bytes (p : SealedBranchParts) : list byte :=
  DEPENDENCIES_DOMAIN ++ le_bytes 8 (sb_base_revision p) ++
  put_digests (sb_reads p) ++ put_digests (sb_scans p) ++ put_relied (sb_relied p) ++
  put_digests (sb_touched_inputs p) ++
  le_bytes 8 (N.of_nat (size (base_presences (sb_ops p)))) ++
  mjoin (put_presence <$> presences_list (base_presences (sb_ops p))).

(** Whether every operation on [key] commutes. *)
Definition only_commutes (ops : list BranchOp) (key : string) : bool :=
  forallb (λ op, negb (op_on key op) || commutes op) ops.

(** The [while let Some(input) = pending.pop()] loop of the free function
    [changed_input_of].  [None]: out of fuel. *)
Fixpoint search_changed (fuel : nat) (inputs : string → list string) (changed : gset string)
    (seen : gset string) (stack : list string) : option (option string) :=
  match stack with
  | [] => Some None
  | input :: stack =>
      match fuel with
      | O => None
      | S fuel =>
          if bool_decide (input ∈ changed) then Some (Some input) else
          if bool_decide (input ∈ seen) then search_changed fuel inputs changed seen stack
          else search_changed fuel inputs changed ({[input]} ∪ seen)
                 (reverse (inputs input) ++ stack)
      end
  end.
Definition target_changed_input (target : SemanticSnapshot) (key : string) (changed : gset string) :
    option string :=
  default None
    (search_changed (search_fuel target key) (snapshot_inputs target) changed ∅
       (reverse (snapshot_inputs target key))).

Section certify.
Context (sha256 : list byte → list byte).
(** The lifecycle authority's answer for a target and a generation. *)
Context (validity : string → N → option Validity).

Definition merge_plan_digest (branch : string) (expected : N)
    (encoded_delta dependencies : list byte) (rebased : gset string) : list byte :=
  sha256 (merge_plan_bytes branch expected encoded_delta dependencies rebased).

(** [MergePlan::digest]. *)
Definition plan_digest (p : MergePlan) : result BranchError (list byte) :=
  match delta_encode (mp_delta p) with
  | Ok encoded =>
      Ok (merge_plan_digest (mp_branch p) (mp_expected p) encoded (mp_dependencies p) (mp_rebased p))
  | Err _ => Err (InvalidValue "<merge delta>")
  end.

Definition dependency_digest (p : SealedBranchParts) : list byte := sha256 (dependency_bytes p).

(** ** The steps of [certify] *)
Definition stale_targets (relied : gmap string N) : gset string :=
  list_to_set (List.filter (λ e, negb (bool_decide (validity e.1 e.2 = Some Live)))
                 (btree_list relied)).*1.

Fixpoint read_conflicts (target : SemanticSnapshot) (reads : list (string * list byte))
    (conflicts : gset string) : result BranchError (gset string) :=
  match reads with
  | [] => Ok conflicts
  | (key, digest) :: reads =>
      let? now := ValueDigest_of sha256 key (snapshot_value target key) in
      read_conflicts target reads
        (if bool_decide (now = digest) then conflicts else {[key]} ∪ conflicts)
  end.

Fixpoint scan_conflicts (target : SemanticSnapshot) (scans : list (string * list byte))
    (conflicts : gset string) : result BranchError (gset string) :=
  match scans with
  | [] => Ok conflicts
  | (prefix, digest) :: scans =>
      let? now := RangeDigest_of sha256 prefix (range_entries target prefix) in
      scan_conflicts target scans
        (if bool_decide (now = digest) then conflicts else {[prefix +:+ "*"]} ∪ conflicts)
  end.

Definition input_conflicts (target : SemanticSnapshot) (reads : gmap string (list byte))
    (conflicts : gset string) (e : string * list byte) : gset string :=
  let '(key, inputs) := e in
  if negb (bool_decide (inputs = InputsDigest_of sha256 key (snapshot_inputs target key)))
  then {[key]} ∪ conflicts
  else conflicts ∪ list_to_set
         (List.filter (λ input, negb (bool_decide (is_Some (reads !! input))))
            (snapshot_inputs target key)).

(** The last set operation on each member, with its base presence. *)
Definition last_members (ops : list BranchOp) : gmap (string * string) (bool * bool) :=
  foldl (λ m op, match set_member op with
                 | Some (member, after, in_base) => <[(op_key op, member) := (after, in_base)]> m
                 | None => m
                 end) ∅ ops.
Definition member_conflict (target : SemanticSnapshot) (e : (string * string) * (bool * bool)) :
    bool :=
  let '((key, member), (after, in_base)) := e in
  Bool.eqb after in_base &&
  negb (Bool.eqb (holds_member (snapshot_value target key) member) in_base).
Definition member_conflicts (target : SemanticSnapshot) (ops : list BranchOp) : gset string :=
  list_to_set ((λ e, e.1.1) <$>
    List.filter (member_conflict target) (map_to_list (last_members ops))).

Definition find_conflicts (p : SealedBranchParts) (target : SemanticSnapshot) :
    result BranchError (gset string) :=
  let? conflicts := read_conflicts target (btree_list (sb_reads p)) ∅ in
  let? conflicts := scan_conflicts target (btree_list (sb_scans p)) conflicts in
  let conflicts :=
    foldl (input_conflicts target (sb_reads p)) conflicts (btree_list (sb_touched_inputs p)) in
  Ok (conflicts ∪ member_conflicts target (sb_ops p)).

(** A derived key without a value in the target that the branch changes only
    commutatively. *)
Definition evicted_operand_at (p : SealedBranchParts) (target : SemanticSnapshot) : option string :=
  List.find (λ key, only_commutes (sb_ops p) key &&
                    bool_decide (snapshot_value target key = None) &&
                    negb (bool_decide (snapshot_inputs target key = [])))
    (keys_of (sb_touched_inputs p)).

(** The loop that applies the operations to the target's values. *)
Fixpoint final_values (target : SemanticSnapshot) (ops : list BranchOp)
    (finals : gmap string (option SemanticValue)) :
    result BranchError (gmap string (option SemanticValue)) :=
  match ops with
  | [] => Ok finals
  | op :: ops =>
      let current := match finals !! op_key op with
                     | Some value => value
                     | None => snapshot_value target (op_key op)
                     end in
      let? value := op_apply op current in
      final_values target ops (<[op_key op := value]> (delete (op_key op) finals))
  end.

Definition changed_keys (target : SemanticSnapshot) (finals : gmap string (option SemanticValue)) :
    gset string :=
  list_to_set (List.filter (λ e, negb (bool_decide (e.2 = snapshot_value target e.1)))
                 (btree_list finals)).*1.

Fixpoint check_operands (p : SealedBranchParts) (target : SemanticSnapshot) (changed : gset string)
    (keys : list string) : result BranchError unit :=
  match keys with
  | [] => Ok tt
  | key :: keys =>
      if only_commutes (sb_ops p) key then
        match target_changed_input target key changed with
        | Some input => Err (EvictedOperand key (Some input))
        | None => check_operands p target changed keys
        end
      else check_operands p target changed keys
  end.

Definition delta_entry (target : SemanticSnapshot) (changed : gset string) (d : SemanticDelta)
    (e : string * option SemanticValue) : SemanticDelta :=
  let '(key, value) := e in
  match value, snapshot_value target key with
  | Some next, current =>
      if bool_decide (current = Some next) &&
         bool_decide (target_changed_input target key changed = None)
      then d
      else {| upserts := <[key := next]> (upserts d); removals := removals d;
              dependencies := dependencies d |}
  | None, Some _ => {| upserts := upserts d; removals := {[key]} ∪ removals d;
                       dependencies := dependencies d |}
  | None, None => d
  end.
Definition plan_delta (target : SemanticSnapshot) (changed : gset string)
    (finals : gmap string (option SemanticValue)) : SemanticDelta :=
  foldl (delta_entry target changed) empty_delta (btree_list finals).

Fixpoint rebased_keys (p : SealedBranchParts) (target : SemanticSnapshot) (ops : list BranchOp)
    (rebased : gset string) : result BranchError (gset string) :=
  match ops with
  | [] => Ok rebased
  | op :: ops =>
      let key := op_key op in
      if negb (commutes op) then rebased_keys p target ops rebased else
      match sb_touched_base p !! key with
      | None => rebased_keys p target ops rebased
      | Some base =>
          let? now := ValueDigest_of sha256 key (snapshot_value target key) in
          rebased_keys p target ops
            (if bool_decide (now = base) then rebased else {[key]} ∪ rebased)
      end
  end.

Definition certify (s : SealedBranch) (target : SemanticSnapshot) :
    result BranchError Certification :=
  let p := parts s in
  recheck sha256 s ;?
  if (snap_revision target <? sb_base_revision p)%N
  then Err (SnapshotBehindBase (sb_base_revision p) (snap_revision target)) else
  if negb (bool_decide (stale_targets (sb_relied p) = ∅))
  then Err (LifecycleChanged (stale_targets (sb_relied p))) else
  let? conflicts := find_conflicts p target in
  if negb (bool_decide (conflicts = ∅)) then Err (Conflict conflicts) else
  match evicted_operand_at p target with
  | Some key => Err (EvictedOperand key None)
  | None =>
      let? finals := final_values target (sb_ops p) ∅ in
      let changed := changed_keys target finals in
      check_operands p target changed (keys_of finals) ;?
      let? rebased := rebased_keys p target (sb_ops p) ∅ in
      let plan := {| mp_branch := sb_id p; mp_expected := snap_revision target;
                     mp_delta := plan_delta target changed finals; mp_rebased := rebased;
                     mp_relied := sb_relied p; mp_dependencies := dependency_digest p |} in
      Ok (if bool_decide (rebased = ∅) then Clean plan else Rebased plan)
  end.

End certify.
