(* ===== verification/CertifyFacts.v ===== *)
(** * The steps of certification

    What each loop of [certify] computes: the search over the target's
    dependency graph, the values the operations leave, the delta of the plan,
    and what an accepted certification says of the branch and the target. *)

From S2P Require Import Prelude Bytes Text SemDelta SemDeltaFacts SemGraph SemHost BranchOps Branch.
From S2P Require Import BranchFacts Certify.
From stdpp Require Import options.

(** ** The search over the target *)

(** The loop of certify.rs tests before it looks at what it has seen, that of
    branch.rs after; with a test that cannot fail they agree. *)
Lemma search_changed_eq fuel inputs changed seen stack :
  (∀ x, x ∈ seen → x ∉ changed) →
  Ok <$> search_changed fuel inputs changed seen stack =
  search_inputs fuel inputs (λ x, Ok (bool_decide (x ∈ changed))) seen stack.
Proof.
  revert seen stack. induction fuel as [|fuel IH]; intros seen [|x stack] Hs; simpl; try done.
  case_bool_decide as Hc.
  - rewrite bool_decide_eq_false_2; [done|]. intros Hx. by apply (Hs x).
  - case_bool_decide; [by apply IH|]. apply IH. set_solver.
Qed.

Lemma target_changed_input_spec target key changed :
  match target_changed_input target key changed with
  | None => ∀ x, tc (derives target) x key → x ∉ changed
  | Some x => tc (derives target) x key ∧ x ∈ changed
  end.
Proof.
  pose proof (search_from target (search_fuel target key)
    (λ x, Ok (bool_decide (x ∈ changed))) key ltac:(done)) as H.
  rewrite <-search_changed_eq in H by set_solver. unfold target_changed_input.
  destruct (search_changed _ _ _ _ _) as [[x|]|] eqn:Hr; simpl in *.
  - destruct H as [? [= H]]. by rewrite bool_decide_eq_true in H.
  - intros x Hx Hc. specialize (H x Hx). by rewrite bool_decide_eq_true_2 in H.
  - intros x Hx Hc. specialize (H x Hx). by rewrite bool_decide_eq_true_2 in H.
Qed.

(** ** The values the operations leave *)
Lemma operates_on_cons op ops k :
  operates_on (op :: ops) k = op_on k op || operates_on ops k.
Proof. done. Qed.

Lemma final_values_from target ops m finals :
  final_values target ops m = Ok finals →
  ∀ k, ∃ v, fold_ops (ops_on ops k) (default (snapshot_value target k) (m !! k)) = Ok v ∧
            finals !! k = if operates_on ops k then Some v else m !! k.
Proof.
  revert m. induction ops as [|op ops IH]; intros m H k; cbn [final_values] in H.
  { injection H as <-. by eexists. }
  apply rbind_ok_inv in H as (v & Hv & H). rewrite insert_delete_eq in H.
  destruct (IH _ H k) as (w & Hw & Hf). cbn [ops_on List.filter]. rewrite operates_on_cons.
  destruct (op_on k op) eqn:Hk; cbn [orb].
  - apply op_on_true in Hk as <-. rewrite lookup_insert_eq in Hw, Hf. exists w.
    cbn [fold_ops]. replace (default (snapshot_value target (op_key op)) (m !! op_key op))
      with (match m !! op_key op with Some value => value | None => snapshot_value target (op_key op) end)
      by by destruct (m !! op_key op).
    rewrite Hv. cbn [rbind default] in *. split; [done|].
    destruct (operates_on ops (op_key op)) eqn:Ho; [done|]. apply ops_on_nil in Ho.
    rewrite Hf. rewrite Ho in Hw. by injection Hw as <-.
  - assert (op_key op ≠ k) as Hne by (intros E; apply op_on_true in E; congruence).
    rewrite lookup_insert_ne in Hw, Hf by done. eauto.
Qed.

Lemma final_values_spec target ops finals :
  final_values target ops ∅ = Ok finals →
  ∀ k, ∃ v, overlay target ops k = Ok v ∧
            finals !! k = if operates_on ops k then Some v else None.
Proof.
  intros H k. destruct (final_values_from _ _ _ _ H k) as (v & Hv & Hf).
  rewrite lookup_empty in *. by exists v.
Qed.

Lemma elem_of_changed_keys target finals k :
  k ∈ changed_keys target finals ↔ ∃ v, finals !! k = Some v ∧ v ≠ snapshot_value target k.
Proof.
  unfold changed_keys. rewrite elem_of_list_to_set, list_elem_of_fmap. split.
  - intros ([k' v] & -> & H). apply list_elem_of_In, filter_In in H as [H Hv].
    apply list_elem_of_In, elem_of_btree_list in H. bool_prop. eauto.
  - intros (v & Hf & Hv). exists (k, v). split; [done|]. apply list_elem_of_In, filter_In.
    split; [by apply list_elem_of_In, elem_of_btree_list|]. cbn [fst snd].
    by rewrite bool_decide_eq_false_2.
Qed.

(** ** The delta of the plan *)
Definition kept (target : SemanticSnapshot) (changed : gset string) (k : string) (v : SemanticValue) :
    Prop :=
  snapshot_value target k = Some v ∧ target_changed_input target k changed = None.
#[export] Instance kept_dec target changed k v : Decision (kept target changed k v).
Proof. apply _. Defined.

Lemma delta_entries_spec target changed l d :
  NoDup l.*1 → let d' := foldl (delta_entry target changed) d l in
  (∀ k, upserts d' !! k =
     match list_to_map (M := gmap string (option SemanticValue)) l !! k with
     | Some (Some v) => if decide (kept target changed k v) then upserts d !! k else Some v
     | _ => upserts d !! k
     end) ∧
  (∀ k, k ∈ removals d' ↔ k ∈ removals d ∨
     list_to_map (M := gmap string (option SemanticValue)) l !! k = Some None ∧
     snapshot_value target k ≠ None) ∧
  dependencies d' = dependencies d.
Proof.
  revert d. induction l as [|[key value] l IH]; intros d Hnd d'.
  { split; [done|]. split; [|done]. intros k. cbn [list_to_map foldr]. rewrite lookup_empty. naive_solver. }
  cbn [fmap list_fmap fst] in Hnd. apply NoDup_cons in Hnd as [Hkey Hnd].
  unfold d'. cbn [foldl]. destruct (IH (delta_entry target changed d (key, value)) Hnd) as (Hu & Hr & Hd).
  assert (list_to_map (M := gmap string (option SemanticValue)) l !! key = None) as Hkl
    by by apply not_elem_of_list_to_map_1.
  change (list_to_map ((key, value) :: l)) with
    (<[key := value]> (list_to_map l : gmap string (option SemanticValue))).
  split; [|split].
  - intros k. rewrite Hu. destruct (decide (key = k)) as [<-|Hne].
    + rewrite Hkl, lookup_insert_eq. unfold delta_entry. destruct value as [v|].
      2:{ by destruct (snapshot_value target key). }
      destruct (decide (kept target changed key v)) as [[-> ->]|Hk].
      * by rewrite !bool_decide_eq_true_2.
      * destruct (_ && _) eqn:Hb; [|cbn [upserts]; by rewrite lookup_insert_eq].
        destruct Hk. bool_prop. by split.
    + rewrite lookup_insert_ne by done.
      assert (upserts (delta_entry target changed d (key, value)) !! k = upserts d !! k) as ->; [|done].
      unfold delta_entry. repeat case_match; try done. cbn [upserts]. by rewrite lookup_insert_ne.
  - intros k. rewrite Hr. destruct (decide (key = k)) as [<-|Hne].
    + rewrite Hkl, lookup_insert_eq. unfold delta_entry.
      destruct value as [v|], (snapshot_value target key) as [c|]; try case_match;
        cbn [removals]; set_solver.
    + rewrite lookup_insert_ne by done. unfold delta_entry. repeat case_match; cbn [removals]; set_solver.
  - rewrite Hd. unfold delta_entry. by repeat case_match.
Qed.

Lemma plan_delta_spec target changed finals :
  let d := plan_delta target changed finals in
  (∀ k, upserts d !! k =
     match finals !! k with
     | Some (Some v) => if decide (kept target changed k v) then None else Some v
     | _ => None
     end) ∧
  (∀ k, k ∈ removals d ↔ finals !! k = Some None ∧ snapshot_value target k ≠ None) ∧
  dependencies d = ∅.
Proof.
  destruct (delta_entries_spec target changed (btree_list finals) empty_delta (btree_list_nodup _))
    as (Hu & Hr & Hd). rewrite btree_list_to_map in *. unfold plan_delta. split; [|split].
  - intros k. rewrite Hu. cbn [empty_delta upserts]. by rewrite lookup_empty.
  - intros k. rewrite Hr. set_solver.
  - by rewrite Hd.
Qed.

(** ** What an accepted certification says *)
Section accepted.
Context (sha256 : list byte → list byte).

Lemma read_conflicts_mono target l c c' : read_conflicts sha256 target l c = Ok c' → c ⊆ c'.
Proof.
  revert c. induction l as [|[k d] l IH]; intros c H; cbn [read_conflicts] in H; [by injection H as <-|].
  apply rbind_ok_inv in H as (now & _ & H). apply IH in H. case_bool_decide; set_solver.
Qed.
Lemma read_conflicts_spec target l c c' :
  read_conflicts sha256 target l c = Ok c' → c' = ∅ →
  c = ∅ ∧ ∀ k d, (k, d) ∈ l → ValueDigest_of sha256 k (snapshot_value target k) = Ok d.
Proof.
  revert c. induction l as [|[k d] l IH]; intros c H He; cbn [read_conflicts] in H.
  { injection H as ->. split; [done|]. by intros ?? ?%elem_of_nil. }
  apply rbind_ok_inv in H as (now & Hn & H). pose proof (read_conflicts_mono _ _ _ _ H) as Hm.
  apply IH in H as [Hc H]; [|done]. case_bool_decide; [subst|set_solver].
  split; [done|]. intros k' d' [[= -> ->]|Hin]%elem_of_cons; auto.
Qed.

Lemma scan_conflicts_mono target l c c' : scan_conflicts sha256 target l c = Ok c' → c ⊆ c'.
Proof.
  revert c. induction l as [|[k d] l IH]; intros c H; cbn [scan_conflicts] in H; [by injection H as <-|].
  apply rbind_ok_inv in H as (now & _ & H). apply IH in H. case_bool_decide; set_solver.
Qed.
Lemma scan_conflicts_spec target l c c' :
  scan_conflicts sha256 target l c = Ok c' → c' = ∅ →
  c = ∅ ∧ ∀ p d, (p, d) ∈ l → RangeDigest_of sha256 p (range_entries target p) = Ok d.
Proof.
  revert c. induction l as [|[k d] l IH]; intros c H He; cbn [scan_conflicts] in H.
  { injection H as ->. split; [done|]. by intros ?? ?%elem_of_nil. }
  apply rbind_ok_inv in H as (now & Hn & H). pose proof (scan_conflicts_mono _ _ _ _ H) as Hm.
  apply IH in H as [Hc H]; [|done]. case_bool_decide; [subst|set_solver].
  split; [done|]. intros k' d' [[= -> ->]|Hin]%elem_of_cons; auto.
Qed.

Lemma input_conflicts_spec target reads l c :
  foldl (input_conflicts sha256 target reads) c l = ∅ →
  c = ∅ ∧ ∀ k d, (k, d) ∈ l →
    d = InputsDigest_of sha256 k (snapshot_inputs target k) ∧
    ∀ i, i ∈ snapshot_inputs target k → is_Some (reads !! i).
Proof.
  revert c. induction l as [|[k d] l IH]; intros c H; cbn [foldl] in H.
  { split; [done|]. by intros ?? ?%elem_of_nil. }
  apply IH in H as [Hc H]. unfold input_conflicts in Hc. case_bool_decide as Hd; cbn [negb] in Hc.
  2:{ set_solver. }
  apply empty_union_L in Hc as [-> Hf]. split; [done|].
  intros k' d' [[= -> ->]|Hin]%elem_of_cons; [|by apply H]. split; [done|]. intros i Hi.
  destruct (decide (is_Some (reads !! i))) as [?|Hn]; [done|]. exfalso.
  assert (i ∈ (∅ : gset string)) as Hi'; [|set_solver]. rewrite <-Hf.
  apply elem_of_list_to_set, list_elem_of_In, filter_In. split; [by apply list_elem_of_In|].
  by rewrite bool_decide_eq_false_2.
Qed.

Lemma member_conflicts_spec target ops :
  member_conflicts target ops = ∅ →
  ∀ k m after in_base, last_members ops !! (k, m) = Some (after, in_base) → after = in_base →
  holds_member (snapshot_value target k) m = in_base.
Proof.
  intros H k m after in_base Hl ->. destruct (decide (holds_member (snapshot_value target k) m = in_base))
    as [?|Hn]; [done|]. exfalso. assert (k ∈ (∅ : gset string)) as Hk; [|set_solver].
  rewrite <-H. unfold member_conflicts. apply elem_of_list_to_set, list_elem_of_fmap.
  exists ((k, m), (in_base, in_base)). split; [done|]. apply list_elem_of_In, filter_In.
  split; [by apply list_elem_of_In, elem_of_map_to_list|]. unfold member_conflict.
  rewrite Bool.eqb_reflx. apply negb_true_iff. by apply Bool.eqb_false_iff.
Qed.

Lemma check_operands_spec p target changed keys :
  check_operands p target changed keys = Ok tt →
  ∀ k, k ∈ keys → only_commutes (sb_ops p) k = true → target_changed_input target k changed = None.
Proof.
  induction keys as [|k keys IH]; cbn [check_operands]; intros H k' Hk Hc.
  { by apply elem_of_nil in Hk. }
  apply elem_of_cons in Hk as [->|Hk].
  - rewrite Hc in H. by destruct (target_changed_input _ _ _).
  - apply IH; [|done..]. repeat case_match; done.
Qed.

Context (validity : string → N → option Validity).

Lemma stale_targets_none relied :
  stale_targets validity relied = ∅ →
  ∀ t g, relied !! t = Some g → validity t g = Some Live.
Proof.
  intros H t g Ht. destruct (decide (validity t g = Some Live)) as [?|Hn]; [done|]. exfalso.
  assert (t ∈ stale_targets validity relied) as Hin; [|rewrite H in Hin; set_solver].
  unfold stale_targets. apply elem_of_list_to_set, list_elem_of_fmap. exists (t, g). split; [done|].
  apply list_elem_of_In, filter_In. split; [by apply list_elem_of_In, elem_of_btree_list|].
  cbn [fst snd]. by rewrite bool_decide_eq_false_2.
Qed.

Record certified (s : SealedBranch) (target : SemanticSnapshot) (c : Certification) : Prop := {
  ce_recheck : recheck sha256 s = Ok tt;
  ce_revision : (sb_base_revision (parts s) ≤ snap_revision target)%N;
  ce_live : ∀ t g, sb_relied (parts s) !! t = Some g → validity t g = Some Live;
  ce_reads : ∀ k d, sb_reads (parts s) !! k = Some d →
    ValueDigest_of sha256 k (snapshot_value target k) = Ok d;
  ce_scans : ∀ p d, sb_scans (parts s) !! p = Some d →
    RangeDigest_of sha256 p (range_entries target p) = Ok d;
  ce_inputs : ∀ k d, sb_touched_inputs (parts s) !! k = Some d →
    d = InputsDigest_of sha256 k (snapshot_inputs target k) ∧
    ∀ i, i ∈ snapshot_inputs target k → is_Some (sb_reads (parts s) !! i);
  ce_members : ∀ k m after in_base,
    last_members (sb_ops (parts s)) !! (k, m) = Some (after, in_base) → after = in_base →
    holds_member (snapshot_value target k) m = in_base;
  ce_held : ∀ k, is_Some (sb_touched_inputs (parts s) !! k) →
    only_commutes (sb_ops (parts s)) k = true → snapshot_inputs target k ≠ [] →
    snapshot_value target k ≠ None;
  ce_delta : ∃ finals, final_values target (sb_ops (parts s)) ∅ = Ok finals ∧
    mp_delta (certification_plan c) = plan_delta target (changed_keys target finals) finals ∧
    ∀ k, is_Some (finals !! k) → only_commutes (sb_ops (parts s)) k = true →
      target_changed_input target k (changed_keys target finals) = None;
  ce_branch : mp_branch (certification_plan c) = sb_id (parts s);
  ce_expected : mp_expected (certification_plan c) = snap_revision target;
  ce_relied : mp_relied (certification_plan c) = sb_relied (parts s);
  ce_dependencies : mp_dependencies (certification_plan c) = dependency_digest sha256 (parts s);
  ce_rebased : rebased_keys sha256 (parts s) target (sb_ops (parts s)) ∅
    = Ok (mp_rebased (certification_plan c));
  ce_kind : if decide (mp_rebased (certification_plan c) = ∅)
            then c = Clean (certification_plan c) else c = Rebased (certification_plan c)
}.

Lemma certify_ok s target c :
  certify sha256 validity s target = Ok c → certified s target c.
Proof.
  unfold certify. intros ([] & Hre & H)%rbind_ok_inv.
  destruct (N.ltb_spec (snap_revision target) (sb_base_revision (parts s))) as [|Hrev]; [done|].
  case_bool_decide as Hst; cbn [negb] in H; [|done].
  apply rbind_ok_inv in H as (conf & Hconf & H). case_bool_decide as He; cbn [negb] in H; [|done].
  subst conf. unfold find_conflicts in Hconf.
  apply rbind_ok_inv in Hconf as (c1 & Hr & Hconf). apply rbind_ok_inv in Hconf as (c2 & Hs & [= Hi]).
  apply empty_union_L in Hi as [Hi Hm]. apply input_conflicts_spec in Hi as [-> Hi].
  apply scan_conflicts_spec in Hs as [-> Hs]; [|done]. apply read_conflicts_spec in Hr as [_ Hr]; [|done].
  destruct (evicted_operand_at (parts s) target) eqn:Hev; [done|].
  apply rbind_ok_inv in H as (finals & Hf & H). apply rbind_ok_inv in H as ([] & Hop & H).
  apply rbind_ok_inv in H as (reb & Hreb & [= <-]).
  set (plan := {| mp_branch := _ |}).
  assert (certification_plan (if bool_decide (reb = ∅) then Clean plan else Rebased plan) = plan) as Hp
    by by case_bool_decide.
  split; rewrite ?Hp; try done.
  - by apply stale_targets_none.
  - intros k d Hk. apply Hr. by apply elem_of_btree_list.
  - intros k d Hk. apply Hs. by apply elem_of_btree_list.
  - intros k d Hk. apply Hi. by apply elem_of_btree_list.
  - by apply member_conflicts_spec.
  - intros k Hk Hc Hin Hn. unfold evicted_operand_at in Hev. rewrite find_none_iff in Hev.
    specialize (Hev k). rewrite elem_of_keys_of in Hev. specialize (Hev Hk).
    rewrite Hc, bool_decide_eq_true_2, bool_decide_eq_false_2 in Hev; done.
  - exists finals. split; [done|]. split; [done|]. intros k Hk Hc.
    eapply check_operands_spec; [done|by apply elem_of_keys_of|done].
  - cbn [plan mp_rebased]. case_decide; case_bool_decide; done.
Qed.
End accepted.

(** * The sealing rules, exactly

    [SealedBranch::from_parts] documents a list of rules; parts are accepted
    exactly when they satisfy them.  With this, what certification may write is
    bounded for every sealed branch, however it was built. *)

Section rules.
Context (sha256 : list byte → list byte) (p : SealedBranchParts).

(** The rules on one operation. *)
Record op_rules (op : BranchOp) : Prop := {
  or_writable : is_ingress_key (op_key op) = false;
  or_read : commutes op = true ∨ is_Some (sb_reads p !! op_key op);
  or_member : ∀ m after in_base, set_member op = Some (m, after, in_base) → m ≠ "";
  or_value : ∀ key value, op = Put key value → encodable key value;
  or_base : is_Some (sb_touched_base p !! op_key op);
  or_inputs : is_Some (sb_touched_inputs p !! op_key op);
  or_present : ∀ m after, set_member op = Some (m, after, true) →
    sb_touched_base p !! op_key op ≠ Some (ValueDigest_absent sha256 (op_key op))
}.

(** Operations on one member agree on its base presence. *)
Definition agree (op op' : BranchOp) : Prop :=
  ∀ m after after' i i', op_key op = op_key op' →
  set_member op = Some (m, after, i) → set_member op' = Some (m, after', i') → i = i'.

(** A removed key is not derived. *)
Definition plain_removal (op : BranchOp) : Prop :=
  is_remove op = true → sb_touched_inputs p !! op_key op = Some (InputsDigest_of sha256 (op_key op) []).

Record seal_rules : Prop := {
  sr_ops : ∀ op, op ∈ sb_ops p → op_rules op;
  sr_agree : ∀ op op', op ∈ sb_ops p → op' ∈ sb_ops p → agree op op';
  sr_touched : ∀ k, is_Some (sb_touched_base p !! k) ∨ is_Some (sb_touched_inputs p !! k) →
    operates_on (sb_ops p) k = true;
  sr_reads : ∀ k d d', sb_touched_base p !! k = Some d → sb_reads p !! k = Some d' → d = d';
  sr_removals : ∀ op, op ∈ sb_ops p → plain_removal op
}.

Definition consistent (members : gmap (string * string) bool) (op : BranchOp) : Prop :=
  ∀ m after i b, set_member op = Some (m, after, i) → members !! (op_key op, m) = Some b → b = i.

Definition note_member (members : gmap (string * string) bool) (op : BranchOp) :
    gmap (string * string) bool :=
  match set_member op with
  | Some (m, _, i) => <[(op_key op, m) := i]> members
  | None => members
  end.

Lemma check_presence_iff op members members' :
  check_presence sha256 p op members = Ok members' ↔
  consistent members op ∧ members' = note_member members op ∧
  (∀ m after, set_member op = Some (m, after, true) →
    sb_touched_base p !! op_key op ≠ Some (ValueDigest_absent sha256 (op_key op))).
Proof.
  unfold check_presence, consistent, note_member.
  destruct (set_member op) as [[[m after] i]|]; [|naive_solver].
  assert (match members !! (op_key op, m) with
          | Some earlier => negb (Bool.eqb earlier i) | None => false end = false ↔
          ∀ b, members !! (op_key op, m) = Some b → b = i) as Hc.
  { destruct (members !! _) as [b|]; [|naive_solver]. rewrite negb_false_iff, Bool.eqb_true_iff. naive_solver. }
  destruct (match members !! _ with Some _ => _ | None => _ end).
  { split; [done|]. intros [H _]. assert (true = false) as Ht; [|done].
    apply Hc. intros b Hb. by eapply H. }
  destruct i; cbn [andb].
  - case_bool_decide as Hb; [naive_solver|]. naive_solver.
  - naive_solver.
Qed.

Lemma check_op_member_iff op :
  check_op_member op = Ok tt ↔ ∀ m after i, set_member op = Some (m, after, i) → m ≠ "".
Proof.
  unfold check_op_member, check_member. destruct (set_member op) as [[[m after] i]|]; [|naive_solver].
  case_bool_decide; naive_solver.
Qed.

Lemma check_put_iff op :
  check_put op = Ok tt ↔ ∀ key value, op = Put key value → encodable key value.
Proof.
  unfold check_put, check_value, encodable. destruct op as [key value| | | |]; try naive_solver.
  destruct (canonical_input_bytes key value) as [bs|] eqn:Hc.
  - split; [|done]. intros _ k v [= <- <-]. eauto.
  - split; [done|]. intros H. destruct (H key value eq_refl) as [bs Hbs]. congruence.
Qed.

Lemma check_op_iff members derived op st :
  check_op sha256 p (members, derived) op = Ok st ↔
  op_rules op ∧ consistent members op ∧ ∃ inputs, sb_touched_inputs p !! op_key op = Some inputs ∧
  st = (note_member members op, note_removal sha256 (op_key op) inputs op derived).
Proof.
  unfold check_op, is_reserved. split.
  - intros H. destruct (is_ingress_key (op_key op)) eqn:Hw; [done|].
    destruct (negb (commutes op) && _) eqn:Hr; [done|].
    apply rbind_ok_inv in H as ([] & Hm & H). apply rbind_ok_inv in H as ([] & Hp & H).
    case_bool_decide as Hb; cbn [negb] in H; [|done].
    destruct (sb_touched_inputs p !! op_key op) as [inputs|] eqn:Hi; [|done].
    apply rbind_ok_inv in H as (members' & Hpr & [= <-]).
    apply check_presence_iff in Hpr as (Hc & -> & Hab). split; [|eauto].
    split; try done; [|by apply check_op_member_iff|by apply check_put_iff].
    destruct (commutes op); [by left|right]. cbn [negb andb] in Hr.
    by bool_prop.
  - intros ([Hw Hr Hm Hp Hb Hi Hab] & Hc & inputs & Hin & ->). rewrite Hw.
    assert (negb (commutes op) && negb (bool_decide (is_Some (sb_reads p !! op_key op))) = false) as ->.
    { destruct Hr as [->|Hr]; [done|]. by rewrite (bool_decide_eq_true_2 _ Hr), andb_false_r. }
    rewrite (proj2 (check_op_member_iff op) Hm), (proj2 (check_put_iff op) Hp). cbn [rbind].
    rewrite (bool_decide_eq_true_2 _ Hb). cbn [negb]. rewrite Hin.
    by rewrite (proj2 (check_presence_iff op members (note_member members op))) by done.
Qed.

Lemma note_removal_none key inputs op derived :
  note_removal sha256 key inputs op derived = None ↔
  derived = None ∧ (is_remove op = true → inputs = InputsDigest_of sha256 key []).
Proof.
  unfold note_removal. destruct (is_remove op); cbn [andb]; [|naive_solver].
  case_bool_decide; cbn [negb]; naive_solver.
Qed.

Lemma consistent_note members op op' :
  consistent members op' → agree op op' → consistent (note_member members op) op'.
Proof.
  intros Hc Ha m after i b Hm Hb. unfold note_member in Hb.
  destruct (set_member op) as [[[m' after'] i']|] eqn:Hs; [|by eapply Hc].
  apply lookup_insert_Some in Hb as [[Heq <-]|[_ Hb]]; [|by eapply Hc].
  injection Heq as Hk Hm'. subst m'. by eapply Ha.
Qed.

Lemma consistent_agree members op op' :
  consistent (note_member members op) op' → agree op op'.
Proof.
  intros Hc m after after' i i' Hk Hm Hm'. unfold consistent, note_member in Hc. rewrite Hm in Hc.
  eapply Hc; [exact Hm'|]. rewrite Hk. apply lookup_insert_eq.
Qed.

Lemma consistent_before members op op' :
  consistent members op → consistent (note_member members op) op' → consistent members op'.
Proof.
  intros Ho Hc m after i b Hm Hb. unfold consistent, note_member in Hc.
  destruct (set_member op) as [[[m' after'] i']|] eqn:Hs; [|by eapply Hc].
  destruct (decide ((op_key op, m') = (op_key op', m))) as [Heq|Hne].
  - assert (i' = i) as <- by (eapply Hc; [exact Hm|rewrite Heq; apply lookup_insert_eq]).
    injection Heq as Hk ->. eapply Ho; [done|]. by rewrite Hk.
  - eapply Hc; [exact Hm|]. by rewrite lookup_insert_ne.
Qed.

(** The loop over the operations. *)
Lemma check_ops_iff members derived ops :
  (∃ st, check_ops sha256 p (members, derived) ops = Ok st ∧ st.2 = None) ↔
  derived = None ∧ (∀ op, op ∈ ops → op_rules op ∧ plain_removal op ∧ consistent members op) ∧
  (∀ op op', op ∈ ops → op' ∈ ops → agree op op').
Proof.
  revert members derived. induction ops as [|op ops IH]; intros members derived; cbn [check_ops].
  { split; [intros (st & [= <-] & H); simpl in H; set_solver|]. intros [-> _]. by eexists. }
  split.
  - intros (st & (st1 & H1 & H)%rbind_ok_inv & Hn).
    apply check_op_iff in H1 as (Hop & Hc & inputs & Hi & ->).
    destruct (proj1 (IH _ _) (ex_intro _ st (conj H Hn))) as (Hd & Hall & Hag).
    apply note_removal_none in Hd as [-> Hrm]. split; [done|].
    assert (plain_removal op) as Hpl by (intros Hr; rewrite Hi; f_equal; by apply Hrm).
    assert (∀ op', op' ∈ ops → agree op op') as Hao.
    { intros op' Hin. destruct (Hall op' Hin) as (_ & _ & Hc'). by eapply consistent_agree. }
    split.
    + intros op' [->|Hin]%elem_of_cons; [done|]. destruct (Hall op' Hin) as (? & ? & Hc').
      split; [done|]. split; [done|]. by eapply consistent_before.
    + intros o o' [->|Ho]%elem_of_cons [->|Ho']%elem_of_cons; auto.
      * intros m a a' i i' _ H1 H2. congruence.
      * intros m a a' i i' Hk H1 H2. symmetry. by eapply (Hao o Ho).
  - intros (-> & Hall & Hag). destruct (Hall op) as (Hop & Hpl & Hc); [set_solver|].
    destruct (or_inputs _ Hop) as [inputs Hi].
    rewrite (proj2 (check_op_iff members None op _)) by eauto. cbn [rbind].
    apply IH. split; [|split].
    + apply note_removal_none. split; [done|]. intros Hr. specialize (Hpl Hr). congruence.
    + intros op' Hin. destruct (Hall op') as (? & ? & ?); [set_solver|].
      split; [done|]. split; [done|]. apply consistent_note; [done|]. apply Hag; set_solver.
    + intros o o' Ho Ho'. apply Hag; set_solver.
Qed.

Lemma check_sealed_iff : check_sealed sha256 p = Ok tt ↔ seal_rules.
Proof.
  assert (∀ op, consistent ∅ op) as Hempty by (by intros op m a i b _ ?%lookup_empty_Some).
  unfold check_sealed. split.
  - intros ([members derived] & Hops & H)%rbind_ok_inv.
    destruct (List.find _ (keys_of _ ++ _)) as [|] eqn:Hf1; [done|].
    destruct (List.find _ (btree_list _)) as [[]|] eqn:Hf2; [done|].
    destruct derived as [|]; [done|]. clear H.
    destruct (proj1 (check_ops_iff ∅ None (sb_ops p))) as (_ & Hall & Hag); [eauto|].
    rewrite find_none_iff in Hf1. rewrite find_none_iff in Hf2. split; try done.
    + intros op Hin. by apply Hall.
    + intros k Hk. apply operated_on. specialize (Hf1 k).
      rewrite elem_of_app, !elem_of_keys_of, negb_false_iff, bool_decide_eq_true in Hf1. auto.
    + intros k d d' Hb Hr. specialize (Hf2 (k, d)). rewrite elem_of_btree_list in Hf2.
      cbn [fst snd] in Hf2. rewrite Hr in Hf2. specialize (Hf2 Hb). by bool_prop.
    + intros op Hin. by apply Hall.
  - intros [Hop Hag Ht Hr Hrm].
    destruct (proj2 (check_ops_iff ∅ None (sb_ops p))) as ([members derived] & -> & Hd); [naive_solver|].
    simpl in Hd. subst derived. cbn [rbind]. rewrite (proj2 (find_none_iff _ _)).
    2:{ intros k Hk. rewrite bool_decide_eq_true_2; [done|]. apply operated_on, Ht.
        by rewrite elem_of_app, !elem_of_keys_of in Hk. }
    rewrite (proj2 (find_none_iff _ _)); [done|]. intros [k d] Hk%elem_of_btree_list. cbn [fst snd].
    destruct (sb_reads p !! k) as [d'|] eqn:Hr'; [|done]. rewrite (Hr _ _ _ Hk Hr').
    by rewrite bool_decide_eq_true_2.
Qed.
End rules.

Section writes.
Context (sha256 : list byte → list byte) (validity : string → N → option Validity).

Lemma fold_removes ops v :
  fold_ops ops v = Ok None → ops ≠ [] → ∃ op, op ∈ ops ∧ is_remove op = true.
Proof.
  intros H Hne. destruct (exists_last Hne) as (l & op & ->). rewrite fold_ops_app in H.
  apply rbind_ok_inv in H as (w & _ & H). cbn [fold_ops] in H. apply rbind_ok_inv in H as (x & Hx & [= ->]).
  exists op. split; [set_solver|]. destruct op; try done; cbn [op_apply] in Hx.
  all: repeat match goal with Hr : rbind _ _ = Ok _ |- _ => apply rbind_ok_inv in Hr as (? & _ & Hr) end;
    discriminate Hx.
Qed.

Lemma plan_keys s target c k :
  certified sha256 validity s target c →
  (is_Some (upserts (mp_delta (certification_plan c)) !! k) ∨
   k ∈ removals (mp_delta (certification_plan c))) →
  operates_on (sb_ops (parts s)) k = true.
Proof.
  intros Hc Hk. destruct (ce_delta _ _ _ _ _ Hc) as (finals & Hf & Hd & _). rewrite Hd in Hk.
  destruct (plan_delta_spec target (changed_keys target finals) finals) as (Hu & Hr & _).
  rewrite Hu, Hr in Hk. destruct (final_values_spec _ _ _ Hf k) as (v & _ & Hv).
  rewrite Hv in Hk. destruct (operates_on (sb_ops (parts s)) k); [done|].
  destruct Hk as [[? ?]|[? _]]; done.
Qed.
End writes.

(** ** Theorems *)

(** C19: [from_parts] accepts exactly the parts that satisfy the documented rules:
    no operation on an ingress key, no overwrite of a key that was not read, no
    empty member, no value without an encoding, a recorded base value and input
    set for exactly the touched keys, one base presence per member and none in
    an absent base, agreement with the reads, and no removal of a derived key. *)
Theorem from_parts_iff sha256 p s :
  from_parts sha256 p = Ok s ↔ s = {| parts := p |} ∧ seal_rules sha256 p.
Proof.
  unfold from_parts. rewrite <-check_sealed_iff. split.
  - intros ([] & ? & [= <-])%rbind_ok_inv. done.
  - by intros [-> ->].
Qed.

(** What a certified plan may write.  The delta of a certified plan declares
    no dependency, and every key it writes is one the branch operates on and is
    not reserved to ingress; a key that the branch puts or removes was read, and
    the target holds the value it read, so no overwrite is blind; and a key that
    the plan removes has, in the target, the input set of a plain value. *)
Theorem certified_plan_bounded sha256 validity s target c :
  certify sha256 validity s target = Ok c →
  let d := mp_delta (certification_plan c) in
  dependencies d = ∅ ∧
  ∀ k, is_Some (upserts d !! k) ∨ k ∈ removals d →
    is_ingress_key k = false ∧ operates_on (sb_ops (parts s)) k = true ∧
    (overwrites (sb_ops (parts s)) k = true →
     ∃ read, sb_reads (parts s) !! k = Some read ∧
             ValueDigest_of sha256 k (snapshot_value target k) = Ok read) ∧
    (k ∈ removals d →
     InputsDigest_of sha256 k (snapshot_inputs target k) = InputsDigest_of sha256 k []).
Proof.
  intros Hc d. apply certify_ok in Hc.
  destruct (ce_delta _ _ _ _ _ Hc) as (finals & Hf & Hd & _). fold d in Hd.
  destruct (plan_delta_spec target (changed_keys target finals) finals) as (_ & Hr & Hdep).
  rewrite <-Hd in Hr, Hdep. split; [done|]. intros k Hk.
  pose proof (ce_recheck _ _ _ _ _ Hc) as Hre. apply check_sealed_iff in Hre as [Hops _ _ _ Hrm].
  pose proof (plan_keys _ _ _ _ _ _ Hc Hk) as Hon.
  apply operates_on_true in Hon as Hex. destruct Hex as (op & Hin & <-).
  split; [by apply (or_writable _ _ _ (Hops _ Hin))|]. split; [done|]. split.
  - intros (op' & Hin' & Hk' & Hov)%overwrites_true.
    destruct (or_read _ _ _ (Hops _ Hin')) as [?|[read Hread]]; [congruence|]. rewrite Hk' in Hread.
    exists read. split; [done|]. by apply (ce_reads _ _ _ _ _ Hc).
  - intros [Hfin _]%Hr. destruct (final_values_spec _ _ _ Hf (op_key op)) as (v & Hv & Hfv).
    rewrite Hon, Hfin in Hfv. injection Hfv as <-.
    destruct (fold_removes _ _ Hv) as (op' & [Hin' Hk']%elem_of_ops_on & Hr').
    { intros Hnil%ops_on_nil. congruence. }
    specialize (Hrm _ Hin' Hr'). rewrite Hk' in Hrm. by apply (ce_inputs _ _ _ _ _ Hc) in Hrm as [-> _].
Qed.
