(* ===== verification/BranchLaws.v ===== *)
(** * Merging a certified branch

    The plan of a certified branch, applied to the store, publishes exactly the
    branch's own view recomputed over the target; a key that is changed
    commutatively gets the three-way merge of base, branch and target; and what
    the branch read, scanned and relied on is what the target holds. *)

From S2P Require Import Prelude Bytes Text SemDelta SemDeltaFacts SemGraph SemHost SemHostFacts.
From S2P Require Import Digests BranchOps Branch BranchFacts Certify CertifyFacts.
From stdpp Require Import options.

(** ** The merged state *)
Lemma changes_changed target ops finals x :
  final_values target ops ∅ = Ok finals →
  changes target ops x = Ok (bool_decide (x ∈ changed_keys target finals)).
Proof.
  intros Hf. destruct (final_values_spec _ _ _ Hf x) as (v & Hv & Hx). unfold changes.
  destruct (operates_on ops x).
  - rewrite Hv. cbn [rbind]. f_equal. rewrite <-bool_decide_not. apply bool_decide_ext.
    rewrite elem_of_changed_keys, Hx. naive_solver.
  - rewrite bool_decide_eq_false_2; [done|]. rewrite elem_of_changed_keys, Hx. naive_solver.
Qed.

Lemma view_finals target ops finals k :
  final_values target ops ∅ = Ok finals →
  branch_view target ops k = Ok (match finals !! k with
                          | Some v => v
                          | None => if decide (target_changed_input target k (changed_keys target finals) = None)
                                    then snapshot_value target k else None
                          end).
Proof.
  intros Hf. destruct (final_values_spec _ _ _ Hf k) as (v & Hv & Hk). unfold branch_view. rewrite Hk.
  destruct (operates_on ops k) eqn:Ho; [done|].
  assert (∀ k, is_ok (overlay target ops k) = true) as Hov.
  { intros k'. by destruct (final_values_spec _ _ _ Hf k') as (v' & -> & _). }
  pose proof (changed_input_of_spec target ops k Hov) as Hc.
  pose proof (target_changed_input_spec target k (changed_keys target finals)) as Ht.
  rewrite overlay_untouched by done.
  destruct (changed_input_of target ops k) as [[x|]|]; [..|done]; cbn [rbind].
  - destruct Hc as [Hx Hch]. rewrite (changes_changed _ _ _ _ Hf) in Hch. injection Hch as Hch.
    bool_prop. rewrite decide_False; [done|]. intros Hn. rewrite Hn in Ht. by apply (Ht x).
  - rewrite decide_True; [done|]. destruct (target_changed_input _ _ _) as [x|]; [|done].
    destruct Ht as [Hx Hin]. specialize (Hc x Hx). rewrite (changes_changed _ _ _ _ Hf) in Hc.
    injection Hc as Hc. by bool_prop.
Qed.

Section merge.
Context (h : SemanticHost) (finals : gmap string (option SemanticValue)).
Let target := snapshot h.
Let changed := changed_keys target finals.
Let d := plan_delta target changed finals.

Lemma plan_changed k : spec_changed (host_state h) d k ↔ k ∈ changed.
Proof using Type.
  destruct (plan_delta_spec target changed finals) as (Hu & Hr & Hd). fold d in Hu, Hr, Hd.
  unfold changed. rewrite elem_of_changed_keys. unfold spec_changed, spec_ground, spec_deps.
  rewrite Hd, lookup_empty, Hu. change (ground (host_state h) !! k) with (snapshot_value target k).
  destruct (decide (k ∈ removals d)) as [Hk|Hk].
  - apply Hr in Hk as [Hf Hv]. rewrite Hf. split; [by eauto|]. intros _. left. done.
  - split.
    + intros [H|H]; [|done]. destruct (finals !! k) as [[v|]|] eqn:Hf; try done. exists (Some v).
      split; [done|]. intros Hv. apply H. by case_decide.
    + intros (v & Hf & Hv). left. rewrite Hf. destruct v as [v|].
      * rewrite decide_False; [done|]. intros [? _]. congruence.
      * intros _. apply Hk, Hr. split; [done|]. congruence.
Qed.

Lemma merge_value p k :
  prepares h d p →
  ground (pd_next p) !! k =
    match finals !! k with
    | Some v => v
    | None => if decide (target_changed_input target k changed = None)
              then snapshot_value target k else None
    end.
Proof using Type.
  intros Hp. destruct (plan_delta_spec target changed finals) as (Hu & Hr & Hd). fold d in Hu, Hr, Hd.
  assert (k ∈ pd_affected p ↔ k ∈ changed ∨ target_changed_input target k changed ≠ None) as Haff.
  { rewrite (pf_affected _ _ _ Hp).
    assert ((∃ c, spec_changed (host_state h) d c ∧ rtc (edge (st_dependencies (pd_next p))) c k) ↔
            ∃ c, c ∈ changed ∧ rtc (derives target) c k) as ->.
    { setoid_rewrite plan_changed. split; intros Hx;
        (eapply affected_transfer; [|exact Hx]); intros k' Hk'; apply plan_changed; right;
        rewrite <-(pf_deps _ _ _ Hp); done. }
    pose proof (target_changed_input_spec target k changed) as Ht. split.
    - intros (c & Hc & Hck). apply rtc_tc in Hck as [->|Hck]; [by left|right].
      intros Hn. rewrite Hn in Ht. by apply (Ht c).
    - intros [Hk|Hn]; [by exists k|]. destruct (target_changed_input _ _ _) as [c|]; [|done].
      destruct Ht as [Hc Hin]. exists c. split; [done|]. by apply tc_rtc. }
  rewrite (pf_ground _ _ _ Hp), Hu. change (ground (host_state h) !! k) with (snapshot_value target k).
  unfold changed in Haff at 1. rewrite elem_of_changed_keys in Haff.
  destruct (finals !! k) as [[v|]|] eqn:Hf.
  - destruct (decide (kept target changed k v)) as [[Hv Hn]|]; [|done].
    rewrite decide_False; [done|]. rewrite Haff. naive_solver.
  - destruct (snapshot_value target k) as [w|] eqn:Hv; [|by case_decide].
    rewrite decide_True; [done|]. apply Haff. left. by exists None.
  - destruct (decide (target_changed_input _ _ _ = None)) as [Hn|Hn].
    + rewrite decide_False; [done|]. rewrite Haff. naive_solver.
    + rewrite decide_True; [done|]. apply Haff. by right.
Qed.
End merge.

Section certified_merge.
Context (sha256 : list byte → list byte) (validity : string → N → option Validity).

Lemma merged_view h s c r h' k :
  no_empty_inputs (st_dependencies (host_state h)) →
  certify sha256 validity s (snapshot h) = Ok c →
  apply_delta h (mp_delta (certification_plan c)) = (Ok r, h') →
  branch_view (snapshot h) (sb_ops (parts s)) k = Ok (snapshot_value (snapshot h') k).
Proof.
  intros Hne Hc Ha. apply certify_ok in Hc. destruct (ce_delta _ _ _ _ _ Hc) as (finals & Hf & Hd & _).
  unfold apply_delta in Ha. destruct (prepare_delta h _) as [p|] eqn:Hp; [|done].
  apply (prepare_delta_ok _ _ Hne) in Hp. unfold apply_prepared in Ha.
  rewrite (prepares_not_stale _ _ _ Hp) in Ha. injection Ha as _ <-. rewrite Hd in Hp.
  rewrite (view_finals _ _ _ _ Hf). f_equal. symmetry. by apply (merge_value h finals p k).
Qed.
End certified_merge.

(** ** The view of an open branch, key by key and by prefix *)
Lemma view_absent base ops k :
  (∀ k, is_ok (overlay base ops k) = true) →
  operates_on ops k = false → snapshot_value base k = None → branch_view base ops k = Ok None.
Proof.
  intros Hov Ho Hv. unfold branch_view. rewrite Ho. pose proof (changed_input_of_spec base ops k Hov) as Hc.
  destruct (changed_input_of base ops k) as [[x|]|]; cbn [rbind]; [done| |done].
  rewrite overlay_untouched by done. by rewrite Hv.
Qed.

Lemma view_entries_spec base ops keys es :
  view_entries base ops keys = Ok es →
  (∀ k v, (k, v) ∈ es ↔ k ∈ keys ∧ branch_view base ops k = Ok (Some v)) ∧ sublist es.*1 keys.
Proof.
  revert es. induction keys as [|k keys IH]; intros es H; cbn [view_entries] in H.
  { injection H as <-. split; [set_solver|done]. }
  apply rbind_ok_inv in H as (v & Hv & H). apply rbind_ok_inv in H as (es' & Hes & H).
  apply IH in Hes as [Hes Hsub]. destruct v as [v|]; injection H as <-; cbn [fmap list_fmap fst].
  - split; [|by constructor]. intros k' v'. rewrite elem_of_cons, Hes, elem_of_cons. split.
    + intros [[= -> ->]|[??]]; auto.
    + intros [[->|?] ?]; [left; congruence|auto].
  - split; [|by constructor]. intros k' v'. rewrite Hes, elem_of_cons. split; [naive_solver|].
    intros [[->|?] ?]; [congruence|done].
Qed.

Lemma elem_of_range_entries s p k v :
  (k, v) ∈ range_entries s p ↔ starts_with k p = true ∧ snapshot_value s k = Some v.
Proof.
  unfold range_entries. rewrite list_elem_of_omap. split.
  - intros (k' & Hk & Hv). apply fmap_Some in Hv as (v' & Hv & [= -> ->]).
    apply list_elem_of_In, filter_In in Hk as [_ Hk]. done.
  - intros [Hp Hv]. exists k. rewrite Hv. split; [|done]. apply list_elem_of_In, filter_In.
    split; [|done]. apply list_elem_of_In. unfold snapshot_keys. apply list_elem_of_fmap.
    exists (k, v). by rewrite elem_of_btree_list.
Qed.

Lemma range_entries_fst s p :
  (range_entries s p).*1 = List.filter (λ key, starts_with key p) (snapshot_keys s).
Proof.
  unfold range_entries.
  assert (∀ k, k ∈ List.filter (λ key, starts_with key p) (snapshot_keys s) →
    is_Some (snapshot_value s k)) as Hall.
  { intros k [Hk _]%list_elem_of_In%filter_In. apply list_elem_of_In in Hk. unfold snapshot_keys in Hk.
    apply list_elem_of_fmap in Hk as ([k' v] & -> & Hk). apply elem_of_btree_list in Hk. by eexists. }
  induction (List.filter _ _) as [|k l IH]; [done|]. cbn [omap list_omap].
  destruct (Hall k) as [v Hv]; [set_solver|]. rewrite Hv. cbn [fmap option_fmap option_map list_fmap fst].
  f_equal. apply IH. set_solver.
Qed.

(** Lists of entries in key order with the same entries are equal. *)
Lemma sorted_keys_filter {A} (m : gmap string A) (f : string → bool) :
  StronglySorted String.le (List.filter f (btree_list m).*1) ∧ NoDup (List.filter f (btree_list m).*1).
Proof.
  split; [|apply NoDup_ListNoDup, List.NoDup_filter, NoDup_ListNoDup, btree_list_nodup].
  pose proof (btree_list_sorted m) as Hs. induction Hs as [|[k x] l Hs IH Hf]; [constructor|].
  cbn [fmap list_fmap List.filter fst]. destruct (f k); [|done]. constructor; [done|].
  apply Forall_forall. intros y Hy. apply list_elem_of_In, filter_In in Hy as [Hy _].
  apply list_elem_of_In, list_elem_of_fmap in Hy as (e & -> & He).
  rewrite Forall_forall in Hf. by apply Hf in He.
Qed.

Lemma sublist_sorted (l k : list string) :
  sublist l k → StronglySorted String.le k → StronglySorted String.le l.
Proof.
  induction 1 as [|x l k Hs IH|x l k Hs IH]; intros Hk; [done|inversion Hk as [|?? Hk' Hf]; subst..].
  - constructor; [by apply IH|]. rewrite Forall_forall in *. intros y Hy. apply Hf.
    by eapply elem_of_sublist.
  - by apply IH.
Qed.

Lemma entries_unique (l k : list (string * SemanticValue)) :
  StronglySorted String.le l.*1 → NoDup l.*1 → StronglySorted String.le k.*1 → NoDup k.*1 →
  (∀ e, e ∈ l ↔ e ∈ k) → l = k.
Proof.
  intros Hl Hnl Hk Hnk He.
  assert (∀ m : list (string * SemanticValue), StronglySorted String.le m.*1 → StronglySorted key_le m) as Hup.
  { induction m as [|e m IH]; intros Hm; [constructor|]. inversion Hm as [|?? Hm' Hf]; subst.
    constructor; [by apply IH|]. apply Forall_forall. intros e' He'.
    unfold key_le. apply (proj1 (Forall_forall _ _) Hf). apply list_elem_of_fmap. eauto. }
  rewrite <-(btree_list_unique l Hnl (Hup _ Hl)), <-(btree_list_unique k Hnk (Hup _ Hk)). f_equal.
  apply list_to_map_proper; [done|].
  apply NoDup_Permutation; [by eapply NoDup_fmap_1|by eapply NoDup_fmap_1|done].
Qed.

Lemma scan_is_range base ops p es (s : SemanticSnapshot) :
  (∀ k, is_ok (overlay base ops k) = true) →
  view_entries base ops (scan_keys base ops p) = Ok es →
  (∀ k, branch_view base ops k = Ok (snapshot_value s k)) → es = range_entries s p.
Proof.
  intros Hov Hes Hview. apply view_entries_spec in Hes as [Hes Hsub].
  pose proof (sorted_keys_filter (ground (snap_state s)) (λ key, starts_with key p)) as [Hsr Hnr].
  fold (snapshot_keys s) in Hsr, Hnr. rewrite <-range_entries_fst in Hsr, Hnr.
  apply entries_unique; try done.
  - eapply sublist_sorted; [done|]. apply bset_list_sorted.
  - eapply sublist_NoDup; [|done]. apply bset_list_nodup.
  - intros [k v]. rewrite Hes, elem_of_range_entries, Hview. unfold scan_keys.
    rewrite elem_of_bset_list, elem_of_list_to_set. rewrite list_elem_of_In, filter_In, <-list_elem_of_In.
    split; [intros [[? ?] [= ?]]; done|]. intros [Hp Hv]. split; [|by rewrite Hv]. split; [|done].
    apply elem_of_app. destruct (operates_on ops k) eqn:Ho.
    { right. apply operates_on_true in Ho as (op & ? & <-). apply list_elem_of_fmap. eauto. }
    left. destruct (snapshot_value base k) as [w|] eqn:Hw.
    + unfold snapshot_keys. apply list_elem_of_fmap. exists (k, w). split; [done|].
      by apply elem_of_btree_list.
    + exfalso. specialize (Hview k). rewrite view_absent in Hview by done. congruence.
Qed.

(** ** The unchanged base *)
Lemma filter_none {A} (f : A → bool) l : (∀ x, x ∈ l → f x = false) → List.filter f l = [].
Proof.
  induction l as [|x l IH]; intros H; [done|]. cbn [List.filter]. rewrite H by set_solver.
  apply IH. set_solver.
Qed.

Section unchanged.
Context (sha256 : list byte → list byte).

Lemma read_conflicts_none target l :
  (∀ k d, (k, d) ∈ l → ValueDigest_of sha256 k (snapshot_value target k) = Ok d) →
  read_conflicts sha256 target l ∅ = Ok ∅.
Proof.
  induction l as [|[k d] l IH]; intros H; [done|]. cbn [read_conflicts].
  rewrite (H k d) by set_solver. cbn [rbind]. rewrite bool_decide_eq_true_2 by done.
  apply IH. set_solver.
Qed.
Lemma scan_conflicts_none target l :
  (∀ p d, (p, d) ∈ l → RangeDigest_of sha256 p (range_entries target p) = Ok d) →
  scan_conflicts sha256 target l ∅ = Ok ∅.
Proof.
  induction l as [|[k d] l IH]; intros H; [done|]. cbn [scan_conflicts].
  rewrite (H k d) by set_solver. cbn [rbind]. rewrite bool_decide_eq_true_2 by done.
  apply IH. set_solver.
Qed.
Lemma input_conflicts_none target reads l :
  (∀ k d, (k, d) ∈ l → d = InputsDigest_of sha256 k (snapshot_inputs target k) ∧
     ∀ i, i ∈ snapshot_inputs target k → is_Some (reads !! i)) →
  foldl (input_conflicts sha256 target reads) ∅ l = ∅.
Proof.
  induction l as [|[k d] l IH]; intros H; [done|]. cbn [foldl].
  destruct (H k d) as [-> Hi]; [set_solver|].
  unfold input_conflicts at 2. rewrite bool_decide_eq_true_2 by done. cbn [negb].
  rewrite filter_none.
  { assert (∅ ∪ list_to_set [] = (∅ : gset string)) as -> by set_solver. apply IH. set_solver. }
  intros i Hin. by rewrite (bool_decide_eq_true_2 _ (Hi i Hin)).
Qed.

Lemma last_members_in ops k m after in_base :
  last_members ops !! (k, m) = Some (after, in_base) →
  ∃ op, op ∈ ops ∧ op_key op = k ∧ set_member op = Some (m, after, in_base).
Proof.
  unfold last_members. induction ops as [|op ops IH] using rev_ind; [done|].
  rewrite foldl_snoc. destruct (set_member op) as [[[m' a'] i']|] eqn:Hs; intros H.
  - apply lookup_insert_Some in H as [[Heq Hv]|[_ H]].
    + injection Heq as <- <-. injection Hv as -> ->. exists op. set_solver.
    + destruct (IH H) as (op' & ? & ? & ?). exists op'. set_solver.
  - destruct (IH H) as (op' & ? & ? & ?). exists op'. set_solver.
Qed.

Lemma member_conflicts_none target ops :
  (∀ k m after in_base, last_members ops !! (k, m) = Some (after, in_base) →
     holds_member (snapshot_value target k) m = in_base) →
  member_conflicts target ops = ∅.
Proof.
  intros H. unfold member_conflicts. rewrite filter_none; [done|].
  intros [[k m] [a i]] He%elem_of_map_to_list. unfold member_conflict. rewrite (H _ _ _ _ He).
  by rewrite Bool.eqb_reflx, andb_false_r.
Qed.

Lemma final_values_total target ops m :
  (∀ k, is_ok (fold_ops (ops_on ops k) (default (snapshot_value target k) (m !! k))) = true) →
  ∃ finals, final_values target ops m = Ok finals.
Proof.
  revert m. induction ops as [|op ops IH]; intros m H; cbn [final_values]; [by eexists|].
  pose proof (H (op_key op)) as Hop. cbn [ops_on List.filter] in Hop.
  rewrite (proj2 (op_on_true _ _)) in Hop by done. cbn [fold_ops] in Hop.
  replace (match m !! op_key op with Some value => value | None => snapshot_value target (op_key op) end)
    with (default (snapshot_value target (op_key op)) (m !! op_key op)) by by destruct (m !! op_key op).
  destruct (op_apply op _) as [v|] eqn:Hv; [|done]. cbn [rbind] in *. apply IH. intros k.
  rewrite insert_delete_eq. destruct (decide (op_key op = k)) as [<-|Hne].
  - by rewrite lookup_insert_eq.
  - rewrite lookup_insert_ne by done. specialize (H k). cbn [ops_on List.filter] in H.
    destruct (op_on k op) eqn:Hk; [by apply op_on_true in Hk|done].
Qed.

Lemma only_commutes_overwrites ops k : only_commutes ops k = negb (overwrites ops k).
Proof.
  unfold only_commutes, overwrites. induction ops as [|op ops IH]; [done|]. cbn [forallb existsb].
  rewrite IH, negb_orb. f_equal. by destruct (op_on k op), (commutes op).
Qed.

Lemma evicted_operand_none base ops k :
  evicted_operand base ops = Ok None → operates_on ops k = true → overwrites ops k = false →
  changed_input_of base ops k = Ok None.
Proof.
  unfold evicted_operand. intros H Ho%operated_on Hw. apply elem_of_bset_list in Ho.
  induction (bset_list (operated ops)) as [|k' l IH]; [by apply elem_of_nil in Ho|].
  cbn [evicted_operand_in] in H. apply elem_of_cons in Ho as [->|Ho].
  - rewrite Hw in H. by destruct (changed_input_of base ops k') as [[|]|].
  - destruct (overwrites ops k'); [by apply IH|].
    destruct (changed_input_of base ops k') as [[|]|]; [done|by apply IH|done].
Qed.

Lemma target_search_none target ops finals k :
  final_values target ops ∅ = Ok finals → changed_input_of target ops k = Ok None →
  target_changed_input target k (changed_keys target finals) = None.
Proof.
  intros Hf Hc. assert (∀ k, is_ok (overlay target ops k) = true) as Hov.
  { intros k'. by destruct (final_values_spec _ _ _ Hf k') as (v' & -> & _). }
  pose proof (changed_input_of_spec target ops k Hov) as Hs. rewrite Hc in Hs.
  pose proof (target_changed_input_spec target k (changed_keys target finals)) as Ht.
  destruct (target_changed_input _ _ _) as [x|]; [|done]. destruct Ht as [Hx Hin].
  specialize (Hs x Hx). rewrite (changes_changed _ _ _ _ Hf) in Hs. injection Hs as Hs. by bool_prop.
Qed.

Lemma check_operands_none p target changed keys :
  (∀ k, k ∈ keys → only_commutes (sb_ops p) k = true → target_changed_input target k changed = None) →
  check_operands p target changed keys = Ok tt.
Proof.
  induction keys as [|k keys IH]; intros H; [done|]. cbn [check_operands].
  destruct (only_commutes (sb_ops p) k) eqn:Hc.
  - rewrite H by set_solver. apply IH. set_solver.
  - apply IH. set_solver.
Qed.

Lemma rebased_keys_none p target ops :
  (∀ op d, op ∈ ops → sb_touched_base p !! op_key op = Some d →
     ValueDigest_of sha256 (op_key op) (snapshot_value target (op_key op)) = Ok d) →
  rebased_keys sha256 p target ops ∅ = Ok ∅.
Proof.
  induction ops as [|op ops IH]; intros H; [done|]. cbn [rebased_keys].
  destruct (commutes op); cbn [negb]; [|apply IH; set_solver].
  destruct (sb_touched_base p !! op_key op) as [d|] eqn:Hd; [|apply IH; set_solver].
  rewrite (H op d) by set_solver. cbn [rbind]. rewrite bool_decide_eq_true_2 by done.
  apply IH. set_solver.
Qed.
End unchanged.

Section clean.
Context (sha256 : list byte → list byte) (validity : string → N → option Validity).

Lemma stale_targets_live relied :
  (∀ t g, relied !! t = Some g → validity t g = Some Live) → stale_targets validity relied = ∅.
Proof.
  intros H. unfold stale_targets. rewrite filter_none; [done|].
  intros [t g] He%elem_of_btree_list. cbn [fst snd]. by rewrite (bool_decide_eq_true_2 _ (H t g He)).
Qed.

Lemma base_conflicts b s :
  branch_inv sha256 b → sealed_from sha256 b s → find_conflicts sha256 (parts s) (br_base b) = Ok ∅.
Proof.
  intros HI [_ _ _ Hr Hsc _ Hops Ht Hdom _]. pose proof (bi_ops _ _ HI) as Hst. rewrite Forall_forall in Hst.
  unfold find_conflicts. rewrite Hr, Hsc, Hops.
  rewrite read_conflicts_none by (intros k d Hk%elem_of_btree_list; by apply (bi_reads _ _ HI)).
  cbn [rbind]. rewrite scan_conflicts_none by (intros k d Hk%elem_of_btree_list; by apply (bi_scans _ _ HI)).
  cbn [rbind]. rewrite input_conflicts_none.
  - rewrite member_conflicts_none; [by rewrite union_empty_l_L|].
    intros k m after in_base (op & Hin & <- & Hm)%last_members_in. apply Hst in Hin.
    symmetry. by apply (os_presence _ _ _ Hin _ _ _ Hm).
  - intros k d Hk%elem_of_btree_list. rewrite (proj2 Ht) in Hk. apply fmap_Some in Hk as (v & Hv & ->).
    split; [done|]. intros i Hi. assert (operates_on (br_ops b) k = true) as Hon by (apply Hdom; by eexists).
    apply operates_on_true in Hon as (op & Hin & <-). apply Hst in Hin. by apply (os_inputs _ _ _ Hin).
Qed.

Lemma certify_base b s :
  branch_inv sha256 b → Branch_seal sha256 b = Ok s →
  (∀ t g, br_relied b !! t = Some g → validity t g = Some Live) →
  ∃ plan, certify sha256 validity s (br_base b) = Ok (Clean plan).
Proof.
  intros HI Hs Hlive. apply seal_inv in Hs as Hsf. pose proof (base_conflicts b s HI Hsf) as Hconf.
  destruct Hsf as [_ _ Hrev _ _ Hrl Hops Ht Hdom Hre].
  unfold certify. rewrite Hre. cbn [rbind]. rewrite Hrev, (proj2 (N.ltb_ge _ _)), Hrl by lia.
  rewrite stale_targets_live, bool_decide_eq_true_2, Hconf by done. cbn [negb rbind].
  rewrite bool_decide_eq_true_2 by done. cbn [negb].
  assert (evicted_operand_at (parts s) (br_base b) = None) as ->.
  { apply find_none_iff. intros k Hk%elem_of_keys_of. rewrite (proj2 Ht), fmap_is_Some in Hk. apply Hdom in Hk.
    rewrite Hops, only_commutes_overwrites. destruct (overwrites (br_ops b) k) eqn:Hw; [done|].
    cbn [negb andb]. case_bool_decide as Hv; [|done]. case_bool_decide as Hi; [done|].
    by destruct (bi_held _ _ HI k Hk Hw Hi). }
  rewrite Hops. destruct (final_values_total (br_base b) (br_ops b) ∅) as [finals Hf].
  { intros k. rewrite lookup_empty. apply (bi_overlay _ _ HI). }
  rewrite Hf. cbn [rbind]. rewrite check_operands_none.
  2:{ intros k Hk%elem_of_keys_of Hc. rewrite Hops, only_commutes_overwrites, negb_true_iff in Hc.
      apply (target_search_none _ (br_ops b)); [done|]. apply evicted_operand_none; [apply (bi_evicted _ _ HI)| |done].
      destruct (final_values_spec _ _ _ Hf k) as (v & _ & Hk'). rewrite Hk' in Hk.
      destruct (operates_on (br_ops b) k); [done|by destruct Hk]. }
  cbn [rbind]. rewrite rebased_keys_none by (intros op d _ Hd; by apply (proj1 Ht)).
  cbn [rbind]. rewrite bool_decide_eq_true_2 by done. by eexists.
Qed.
End clean.

(** * What merging a branch guarantees

    The theorems about branches as a whole: what an agent reads is what merging
    onto the unchanged base publishes, and such a merge is certified; merging
    onto a changed target publishes the same operations over the target, with a
    three-way merge of counters and sets, and only while everything the branch
    declared still holds. *)

(** ** Three-way merge *)
Lemma presence_last ops k m b :
  presence (ops_on ops k) m b =
    match last_members ops !! (k, m) with
    | Some (after, _) => after
    | None => b
    end.
Proof.
  unfold last_members. induction ops as [|op ops IH] using rev_ind; [done|].
  rewrite ops_on_snoc, foldl_snoc. unfold presence in *.
  destruct (set_member op) as [[[m' after] in_base]|] eqn:Hs.
  - destruct (op_on k op) eqn:Hk.
    + apply op_on_true in Hk as <-. rewrite foldl_snoc, Hs. case_bool_decide as Hm.
      * subst. by rewrite lookup_insert_eq.
      * rewrite lookup_insert_ne by congruence. done.
    + rewrite app_nil_r, lookup_insert_ne; [done|]. intros [= <- _].
      unfold op_on in Hk. by bool_prop.
  - destruct (op_on k op); [|by rewrite app_nil_r]. by rewrite foldl_snoc, Hs.
Qed.

Lemma read_set_holds key v s m :
  read_set key v = Ok s → holds_member v m = bool_decide (m ∈ s).
Proof.
  unfold read_set, holds_member. destruct v as [v|]; cbn [mbind option_bind].
  - intros ->%ok_or_ok_inv. done.
  - intros [= <-]. symmetry. apply bool_decide_eq_false_2. set_solver.
Qed.

(** [base], [branch] and [target] agree where only one of the first two moved. *)
Definition three_way (base branch target merged : gset string) : Prop :=
  ∀ m, m ∈ merged ↔ if decide (m ∈ base ↔ m ∈ branch) then m ∈ target else m ∈ branch.

Section three_way.
Context (sha256 : list byte → list byte) (validity : string → N → option Validity).
Context (b : Branch) (s : SealedBranch) (target : SemanticSnapshot) (c : Certification) (key : string).
Context (HI : branch_inv sha256 b) (Hs : sealed_from sha256 b s)
        (Hc : certified sha256 validity s target c).
Context (Hkey : operates_on (br_ops b) key = true) (Hcomm : overwrites (br_ops b) key = false).

Lemma key_commutes : Forall (λ op, commutes op = true) (ops_on (br_ops b) key).
Proof using Hcomm.
  apply Forall_forall. intros op [Hin Hk]%elem_of_ops_on.
  destruct (commutes op) eqn:Ho; [done|]. apply not_true_iff_false in Hcomm. destruct Hcomm.
  apply overwrites_true. eauto.
Qed.

Lemma key_ops_ok : Forall (λ op, branch_op_ok op = true ∧ op_key op = key) (ops_on (br_ops b) key).
Proof using HI.
  apply Forall_forall. intros op [Hin Hk]%elem_of_ops_on. split; [|done].
  pose proof (bi_ops _ _ HI) as Hst. rewrite Forall_forall in Hst. by apply (os_ok _ _ _ (Hst _ Hin)).
Qed.

Lemma key_ops_nonempty : ops_on (br_ops b) key ≠ [].
Proof using Hkey. clear Hcomm. intros H. apply ops_on_nil in H. congruence. Qed.

Lemma counters_add v w :
  Forall (λ op, is_add op = true) (ops_on (br_ops b) key) →
  overlay (br_base b) (br_ops b) key = Ok v → overlay target (br_ops b) key = Ok w →
  ∃ n0 n t, read_counter key (snapshot_value (br_base b) key) = Ok n0 ∧
    v = Some (counter_value n) ∧ read_counter key (snapshot_value target key) = Ok t ∧
    i64_ok (t + (n - n0)) = true ∧ w = Some (counter_value (t + (n - n0))).
Proof using HI Hkey.
  intros Ha Hv Hw. pose proof key_ops_nonempty as Hne. pose proof key_ops_ok as Hok.
  assert (Forall (λ op, is_add op = true ∧ op_key op = key) (ops_on (br_ops b) key)) as Hall.
  { rewrite Forall_forall in *. intros op Hin. split; [by apply Ha|by apply Hok]. }
  destruct (fold_adds _ _ _ _ Hall Hne Hv) as (n0 & Hn0 & _ & ->).
  destruct (fold_adds _ _ _ _ Hall Hne Hw) as (t & Ht & Hr & ->).
  set (sum := foldr _ _ _) in *. exists n0, (n0 + sum)%Z, t.
  replace (t + (n0 + sum - n0))%Z with (t + sum)%Z by lia. done.
Qed.

Lemma sets_merge v w :
  Forall (λ op, is_set_op op = true) (ops_on (br_ops b) key) →
  overlay (br_base b) (br_ops b) key = Ok v → overlay target (br_ops b) key = Ok w →
  ∃ s0 sv st sm x y, read_set key (snapshot_value (br_base b) key) = Ok s0 ∧
    v = Some x ∧ read_set_value x = Some sv ∧
    read_set key (snapshot_value target key) = Ok st ∧
    w = Some y ∧ read_set_value y = Some sm ∧ three_way s0 sv st sm.
Proof using HI Hs Hc Hkey.
  intros Ha Hv Hw. pose proof key_ops_nonempty as Hne. pose proof key_ops_ok as Hok.
  assert (Forall (λ op, is_set_op op = true ∧ branch_op_ok op = true ∧ op_key op = key) (ops_on (br_ops b) key)) as Hall.
  { rewrite Forall_forall in *. intros op Hin. split; [by apply Ha|by apply Hok]. }
  destruct (fold_sets _ _ _ _ Hall Hne Hv) as (s0 & sv & x & Hs0 & -> & Hx & Hpv).
  destruct (fold_sets _ _ _ _ Hall Hne Hw) as (st & sm & y & Hst & -> & Hy & Hpm).
  exists s0, sv, st, sm, x, y. do 6 (split; [done|]). intros m.
  specialize (Hpv m). specialize (Hpm m). rewrite presence_last in Hpv, Hpm.
  destruct (last_members (br_ops b) !! (key, m)) as [[after in_base]|] eqn:Hl.
  - destruct (last_members_in _ _ _ _ _ Hl) as (op & Hin & Hk & Hmem).
    pose proof (bi_ops _ _ HI) as Hops. rewrite Forall_forall in Hops.
    pose proof (os_presence _ _ _ (Hops _ Hin) _ _ _ Hmem) as Hb. rewrite Hk in Hb.
    rewrite (read_set_holds _ _ _ m Hs0) in Hb.
    pose proof (ce_members _ _ _ _ _ Hc key m after in_base) as Hcm.
    rewrite (sf_ops _ _ _ Hs) in Hcm. specialize (Hcm Hl).
    rewrite (read_set_holds _ _ _ m Hst) in Hcm. subst in_base.
    assert (after = bool_decide (m ∈ s0) → m ∈ s0 ↔ m ∈ st) as Hst'.
    { intros E. specialize (Hcm E). by rewrite <-(bool_decide_eq_true (m ∈ st)), Hcm, bool_decide_eq_true. }
    rewrite <-(bool_decide_eq_true (m ∈ sm)), Hpm. clear Hpm Hcm. rewrite <-Hpv in Hst' |- *.
    rewrite bool_decide_eq_true. destruct (decide (m ∈ s0 ↔ m ∈ sv)) as [Hd|Hd]; [|done].
    rewrite <-Hst', Hd; [done|]. by apply bool_decide_ext.
  - rewrite <-(bool_decide_eq_true (m ∈ sm)), Hpm, bool_decide_eq_true.
    assert (m ∈ s0 ↔ m ∈ sv) as Hiff
      by (rewrite <-(bool_decide_eq_true (m ∈ sv)), Hpv; by rewrite bool_decide_eq_true).
    by rewrite decide_True by done.
Qed.
End three_way.

(** ** What equal digests say *)
Definition collides (sha256 : list byte → list byte) (x y : list byte) : Prop :=
  x ≠ y ∧ sha256 x = sha256 y.

Lemma sha_eq sha256 x y : sha256 x = sha256 y → x = y ∨ collides sha256 x y.
Proof. intros H. destruct (decide (x = y)); [by left|by right]. Qed.

(** A snapshot that exists in Rust: texts are UTF-8 and lengths fit a [u64]. *)
Record snapshot_ok (s : SemanticSnapshot) : Prop := {
  sn_values : map_Forall (λ k v, str_ok k = true ∧ value_ok v ∧ fits64 (str_bytes k))
    (ground (snap_state s));
  sn_inputs : map_Forall (λ _ i, set_Forall (λ k, fits64 (str_bytes k)) i ∧
    (N.of_nat (size i) < 2 ^ 64)%N) (st_dependencies (snap_state s))
}.

Lemma snapshot_value_ok s k v : snapshot_ok s → snapshot_value s k = Some v → value_ok v.
Proof. intros Hs Hv. by apply (sn_values _ Hs) in Hv as (_ & ? & _). Qed.

Lemma value_digest_binds sha256 k v w d :
  str_ok k = true → fits64 (str_bytes k) →
  (∀ x, v = Some x → value_ok x) → (∀ x, w = Some x → value_ok x) →
  ValueDigest_of sha256 k v = Ok d → ValueDigest_of sha256 k w = Ok d →
  v = w ∨ ∃ x y, value_bytes k v = Ok x ∧ value_bytes k w = Ok y ∧ collides sha256 x y.
Proof.
  intros Hk Hf Hv Hw H H'. unfold ValueDigest_of in *.
  apply rbind_ok_inv in H as (x & Hx & Hd). apply rbind_ok_inv in H' as (y & Hy & Hd').
  apply Ok_inj in Hd, Hd'. destruct (sha_eq sha256 x y) as [->|?]; [congruence|left|right; eauto].
  by apply (value_bytes_inj k v k w y).
Qed.

Section range.
Context (sha256 : list byte → list byte) (sha_length : ∀ x, length (sha256 x) = 32).

Definition entries_ok (l : list (string * SemanticValue)) : Prop :=
  Forall (λ e, str_ok e.1 = true ∧ value_ok e.2 ∧ fits64 (str_bytes e.1)) l.

Definition entry_collision (l l' : list (string * SemanticValue)) : Prop :=
  ∃ e e' x y, e ∈ l ∧ e' ∈ l' ∧ value_bytes e.1 (Some e.2) = Ok x ∧
    value_bytes e'.1 (Some e'.2) = Ok y ∧ collides sha256 x y.

Lemma range_parts_nil k v l : range_parts sha256 ((k, v) :: l) ≠ Ok [].
Proof using sha_length.
  cbn [range_parts]. intros (d & Hd & H)%rbind_ok_inv. apply rbind_ok_inv in H as (r & _ & H).
  apply Ok_inj, app_nil in H as [-> _]. unfold ValueDigest_of in Hd.
  apply rbind_ok_inv in Hd as (x & _ & Hx). apply Ok_inj in Hx.
  pose proof (sha_length x) as Hl. by rewrite Hx in Hl.
Qed.

Lemma range_parts_inj l l' r :
  entries_ok l → entries_ok l' →
  range_parts sha256 l = Ok r → range_parts sha256 l' = Ok r → l = l' ∨ entry_collision l l'.
Proof using sha_length.
  intros Hl. revert l' r. induction Hl as [|[k v] l (Hk & Hv & Hf) _ IH]; intros [|[k' v'] l'] r Hl' H H'.
  - by left.
  - injection H as <-. by apply range_parts_nil in H'.
  - injection H' as <-. by apply range_parts_nil in H.
  - cbn [range_parts] in H, H'. apply Forall_cons in Hl' as [(Hk' & Hv' & Hf') Hl'].
    apply rbind_ok_inv in H as (d & Hd & H). apply rbind_ok_inv in H as (q & Hq & Hr).
    apply rbind_ok_inv in H' as (d' & Hd' & H'). apply rbind_ok_inv in H' as (q' & Hq' & Hr').
    apply Ok_inj in Hr, Hr'. subst r. unfold ValueDigest_of in Hd, Hd'.
    apply rbind_ok_inv in Hd as (x & Hx & Hd). apply rbind_ok_inv in Hd' as (y & Hy & Hd').
    apply Ok_inj in Hd, Hd'. subst d d'.
    apply app_inj_1 in Hr' as [Hs ->]; [|by rewrite !sha_length].
    destruct (sha_eq sha256 x y) as [->|Hcol]; [done| |].
    + destruct (value_bytes_inj k (Some v) k' (Some v') y) as [-> [= ->]]; [naive_solver..|].
      destruct (IH _ _ Hl' Hq Hq') as [->|(e & e' & x' & y' & ? & ? & ?)]; [by left|].
      right. exists e, e', x', y'. set_solver.
    + right. exists (k, v), (k', v'), x, y. set_solver.
Qed.

Lemma range_digest_binds p l l' d :
  entries_ok l → entries_ok l' →
  RangeDigest_of sha256 p l = Ok d → RangeDigest_of sha256 p l' = Ok d →
  l = l' ∨ entry_collision l l' ∨
  ∃ x y, range_bytes sha256 p l = Ok x ∧ range_bytes sha256 p l' = Ok y ∧ collides sha256 x y.
Proof using sha_length.
  intros Hl Hl' H H'. unfold RangeDigest_of in *.
  apply rbind_ok_inv in H as (x & Hx & Hd). apply rbind_ok_inv in H' as (y & Hy & Hd').
  apply Ok_inj in Hd, Hd'. destruct (sha_eq sha256 x y) as [->|?]; [congruence| |eauto 8].
  unfold range_bytes in Hx, Hy. apply rbind_ok_inv in Hx as (r & Hr & Hx).
  apply rbind_ok_inv in Hy as (r' & Hr' & Hy). apply Ok_inj in Hx, Hy. subst y.
  apply app_inv_head, app_inv_head in Hy. subst r'.
  destruct (range_parts_inj l l' r) as [?|?]; auto.
Qed.
End range.

Lemma range_entries_ok s p : snapshot_ok s → entries_ok (range_entries s p).
Proof.
  intros Hs. apply Forall_forall. intros [k v] [_ Hv]%elem_of_range_entries.
  by apply (sn_values _ Hs) in Hv.
Qed.

Lemma inputs_ok s k :
  snapshot_ok s → Forall (λ i, fits64 (str_bytes i)) (snapshot_inputs s k) ∧ fits64 (snapshot_inputs s k).
Proof.
  intros Hs. unfold snapshot_inputs.
  destruct (st_dependencies (snap_state s) !! k) as [i|] eqn:Hi;
    cbn [fmap option_fmap option_map from_option id].
  - apply (sn_inputs _ Hs) in Hi as [Hi Hn]. split.
    + apply Forall_forall. intros x Hx%elem_of_bset_list. by apply Hi.
    + unfold fits64, blen. by rewrite bset_list_length.
  - by split.
Qed.

Lemma inputs_digest_binds sha256 s t k :
  snapshot_ok s → snapshot_ok t →
  InputsDigest_of sha256 k (snapshot_inputs s k) = InputsDigest_of sha256 k (snapshot_inputs t k) →
  snapshot_inputs s k = snapshot_inputs t k ∨
  collides sha256 (inputs_bytes k (snapshot_inputs s k)) (inputs_bytes k (snapshot_inputs t k)).
Proof.
  intros Hs Ht H. apply sha_eq in H as [H|H]; [left|by right].
  destruct (inputs_ok s k Hs), (inputs_ok t k Ht). apply inputs_bytes_inj in H; [|done..].
  assert (∀ s, snapshot_inputs s k = bset_list (list_to_set (snapshot_inputs s k))) as Hcan.
  { intros s'. unfold snapshot_inputs. destruct (_ !! k); [|done]. simpl. by rewrite bset_list_to_set. }
  by rewrite (Hcan s), (Hcan t), H.
Qed.

(** ** Theorems *)

(** C7: a merge publishes the branch's view.  When a sealed branch is certified
    against the published state and the plan's delta is applied, every key of
    the new state, touched or not, holds exactly what the branch's operations
    show over the target: a touched key its operations applied to the target's
    value, an untouched key derived from a changed one nothing, and every other
    key what it held. *)
Theorem merge_publishes_view sha256 validity h s c r h' :
  state_wf (host_state h) →
  certify sha256 validity s (snapshot h) = Ok c →
  apply_delta h (mp_delta (certification_plan c)) = (Ok r, h') →
  ∀ k, branch_view (snapshot h) (sb_ops (parts s)) k = Ok (snapshot_value (snapshot h') k).
Proof. intros Hwf Hc Ha k. eapply merged_view; [apply (wf_nonempty _ Hwf)|done..]. Qed.

(** C8: what an agent reads is what it merges.  A branch staged by any calls over
    the published state is certified clean against that state while what it
    relies on is live; and after its plan is applied, every value the branch
    reads and every prefix it scans is exactly what the store holds. *)
Theorem unchanged_base_merges_view sha256 validity id author h calls s :
  forallb call_ok calls = true → state_wf (host_state h) →
  let b := branch_run sha256 (Branch_open id author (snapshot h)) calls in
  Branch_seal sha256 b = Ok s →
  (∀ t g, br_relied b !! t = Some g → validity t g = Some Live) →
  ∃ plan, certify sha256 validity s (snapshot h) = Ok (Clean plan) ∧
  ∀ r h', apply_delta h (mp_delta plan) = (Ok r, h') →
    (∀ k v, (Branch_read sha256 b k).1 = Ok v → v = snapshot_value (snapshot h') k) ∧
    (∀ p es, (scan_prefix sha256 b p).1 = Ok es → es = range_entries (snapshot h') p).
Proof.
  intros Hok Hwf b Hs Hlive.
  destruct (branch_run_inv sha256 (Branch_open id author (snapshot h)) calls) as [HI Hb];
    [done|apply Branch_open_inv|]. fold b in HI, Hb. cbn [Branch_open br_base] in Hb.
  destruct (certify_base sha256 validity b s HI Hs Hlive) as [plan Hc]. rewrite Hb in Hc.
  exists plan. split; [done|]. intros r h' Ha.
  assert (∀ k, branch_view (snapshot h) (br_ops b) k = Ok (snapshot_value (snapshot h') k)) as Hview.
  { intros k. rewrite <-(sf_ops _ _ _ (seal_inv _ _ _ Hs)).
    eapply merged_view; [apply (wf_nonempty _ Hwf)|exact Hc|exact Ha]. }
  split.
  - intros k v. unfold Branch_read. destruct (record_read sha256 b k) as [b'|] eqn:Hr; [|done].
    apply record_read_inv in Hr as (_ & Hb' & Ho & _); [|done]. cbn [fst].
    rewrite Hb', Ho, Hb, Hview. by intros [= <-].
  - intros p es. unfold scan_prefix. rewrite Hb.
    destruct (match br_scans b !! p with Some _ => _ | None => _ end); [|done].
    destruct (view_entries _ _ _) as [es'|] eqn:Hes; [|done]. cbn [fst]. intros [= <-].
    eapply scan_is_range; [|done|done]. rewrite <-Hb. apply (bi_overlay _ _ HI).
Qed.

(** C6: commutative changes are three-way merges.  A key that the branch changes
    only by additions or set operations ends, after the merge, as the target's
    counter plus what the branch added relative to its base, or as a set in
    which each member that the branch moved is as the branch left it and every
    other member as the target has it: no concurrent addition, insertion or
    removal is lost or undone. *)
Theorem merge_three_way sha256 validity id author base calls s h c r h' key :
  forallb call_ok calls = true → state_wf (host_state h) →
  let b := branch_run sha256 (Branch_open id author base) calls in
  Branch_seal sha256 b = Ok s → certify sha256 validity s (snapshot h) = Ok c →
  apply_delta h (mp_delta (certification_plan c)) = (Ok r, h') →
  operates_on (br_ops b) key = true → overwrites (br_ops b) key = false →
  (∃ n0 n t, read_counter key (snapshot_value base key) = Ok n0 ∧
     branch_view base (br_ops b) key = Ok (Some (counter_value n)) ∧
     read_counter key (snapshot_value (snapshot h) key) = Ok t ∧
     i64_ok (t + (n - n0)) = true ∧
     snapshot_value (snapshot h') key = Some (counter_value (t + (n - n0)))) ∨
  (∃ s0 sv st sm x y, read_set key (snapshot_value base key) = Ok s0 ∧
     branch_view base (br_ops b) key = Ok (Some x) ∧ read_set_value x = Some sv ∧
     read_set key (snapshot_value (snapshot h) key) = Ok st ∧
     snapshot_value (snapshot h') key = Some y ∧ read_set_value y = Some sm ∧
     three_way s0 sv st sm).
Proof.
  intros Hok Hwf b Hs Hc Ha Hkey Hcomm.
  destruct (branch_run_inv sha256 (Branch_open id author base) calls) as [HI Hb];
    [done|apply Branch_open_inv|]. fold b in HI, Hb. cbn [Branch_open br_base] in Hb. clearbody b. subst base.
  apply seal_inv in Hs. pose proof (certify_ok _ _ _ _ _ Hc) as Hce.
  pose proof (merged_view _ _ _ _ _ _ _ key (wf_nonempty _ Hwf) Hc Ha) as Hm.
  rewrite (sf_ops _ _ _ Hs) in Hm. unfold branch_view in Hm |- *. rewrite Hkey in Hm |- *.
  pose proof (bi_overlay _ _ HI key) as Hov. destruct (overlay (br_base b) _ _) as [v|] eqn:Hv; [|done].
  pose proof (key_commutes b key Hcomm) as Hck.
  destruct (fold_commuting _ _ _ Hck Hv) as [Hadd|Hset].
  - left. destruct (counters_add sha256 b (snapshot h) key HI Hkey v _ Hadd Hv Hm)
      as (n0 & n & t & ? & -> & ? & ? & ?). exists n0, n, t. done.
  - right. destruct (sets_merge sha256 validity b s (snapshot h) c key HI Hs Hce Hkey v _ Hset Hv Hm)
      as (s0 & sv & st & sm & x & y & ? & -> & ? & ? & ? & ? & ?). by exists s0, sv, st, sm, x, y.
Qed.

(** C9: a certified branch depends on nothing that changed.  If certification
    against a target succeeds, the target is not older than the base, every
    generation the branch relied on is live, every value it read and every
    prefix it scanned is in the target as it was in the base, and so is the
    input set of every key it touches, all of whose inputs it read; each unless
    two byte strings that are named collide under SHA-256. *)
Theorem certified_dependencies_hold sha256 validity id author base calls s target c :
  (∀ x, length (sha256 x) = 32) → snapshot_ok base → snapshot_ok target →
  forallb call_ok calls = true →
  let b := branch_run sha256 (Branch_open id author base) calls in
  Branch_seal sha256 b = Ok s → certify sha256 validity s target = Ok c →
  (snap_revision base ≤ snap_revision target)%N ∧
  (∀ t g, br_relied b !! t = Some g → validity t g = Some Live) ∧
  (∀ k, is_Some (br_reads b !! k) → str_ok k = true → fits64 (str_bytes k) →
     snapshot_value base k = snapshot_value target k ∨
     ∃ x y, value_bytes k (snapshot_value base k) = Ok x ∧
            value_bytes k (snapshot_value target k) = Ok y ∧ collides sha256 x y) ∧
  (∀ p, is_Some (br_scans b !! p) →
     range_entries base p = range_entries target p ∨
     entry_collision sha256 (range_entries base p) (range_entries target p) ∨
     ∃ x y, range_bytes sha256 p (range_entries base p) = Ok x ∧
            range_bytes sha256 p (range_entries target p) = Ok y ∧ collides sha256 x y) ∧
  (∀ k, operates_on (br_ops b) k = true →
     (∀ i, i ∈ snapshot_inputs target k → is_Some (br_reads b !! i)) ∧
     (snapshot_inputs base k = snapshot_inputs target k ∨
      collides sha256 (inputs_bytes k (snapshot_inputs base k))
        (inputs_bytes k (snapshot_inputs target k)))).
Proof.
  intros Hlen Hbase Htarget Hok b Hs Hc.
  destruct (branch_run_inv sha256 (Branch_open id author base) calls) as [HI Hb];
    [done|apply Branch_open_inv|]. fold b in HI, Hb. cbn [Branch_open br_base] in Hb. clearbody b. subst base.
  apply seal_inv in Hs. apply certify_ok in Hc. split; [|split; [|split; [|split]]].
  - rewrite <-(sf_revision _ _ _ Hs). apply (ce_revision _ _ _ _ _ Hc).
  - rewrite <-(sf_relied _ _ _ Hs). apply (ce_live _ _ _ _ _ Hc).
  - intros k [d Hd] Hk Hf. pose proof (ce_reads _ _ _ _ _ Hc k d) as Hr.
    rewrite (sf_reads _ _ _ Hs) in Hr. eapply value_digest_binds; [done|done| | | |by apply Hr].
    + intros x. by apply snapshot_value_ok.
    + intros x. by apply snapshot_value_ok.
    + by apply (bi_reads _ _ HI).
  - intros p [d Hd]. pose proof (ce_scans _ _ _ _ _ Hc p d) as Hr. rewrite (sf_scans _ _ _ Hs) in Hr.
    eapply range_digest_binds; [done|by apply range_entries_ok|by apply range_entries_ok| |by apply Hr].
    by apply (bi_scans _ _ HI).
  - intros k Hk. apply (sf_dom _ _ _ Hs) in Hk as [v Hv].
    destruct (ce_inputs _ _ _ _ _ Hc k (InputsDigest_of sha256 k (snapshot_inputs (br_base b) k)))
      as [Hd Hi]. { rewrite (proj2 (sf_touched _ _ _ Hs)), Hv. done. }
    rewrite (sf_reads _ _ _ Hs) in Hi. split; [done|]. by apply inputs_digest_binds.
Qed.
