(* ===== verification/BranchExamples.v ===== *)
(** * What an approval binds

    A person approves the digest of a merge plan, and a record of a merge names
    the digest of the sealed branch.  Both hash byte strings that determine
    their parts, so an approval stands for one plan and a record for one
    branch, unless two named strings collide under SHA-256. *)

From S2P Require Import Prelude Bytes Text SemDelta SemDeltaFacts SemGraph SemHost SemHostFacts.
From S2P Require Import Digests BranchOps Branch BranchFacts Certify CertifyFacts BranchLaws.
From stdpp Require Import options.

(** ** Encoders of maps *)
Lemma prefix_map {A} (enc : string * A → list byte) (wf : string * A → Prop) (m m' : gmap string A) r r' :
  PrefixInj enc wf → (N.of_nat (size m) < 2 ^ 64)%N → (N.of_nat (size m') < 2 ^ 64)%N →
  map_Forall (λ k x, wf (k, x)) m → map_Forall (λ k x, wf (k, x)) m' →
  (le_bytes 8 (N.of_nat (size m)) ++ mjoin (enc <$> btree_list m)) ++ r =
  (le_bytes 8 (N.of_nat (size m')) ++ mjoin (enc <$> btree_list m')) ++ r' →
  m = m' ∧ r = r'.
Proof.
  intros Henc Hs Hs' Hm Hm' H. rewrite <-!app_assoc in H. apply prefix_u64 in H as [Hlen H]; [|done..].
  assert (∀ m : gmap string A, map_Forall (λ k x, wf (k, x)) m → Forall wf (btree_list m)) as Hall.
  { intros n Hn. apply Forall_forall. intros [k x] Hk%elem_of_btree_list. by apply Hn. }
  apply (prefix_list _ _ Henc) in H as [Heq ->]; [|rewrite !btree_list_length; lia|by apply Hall..].
  split; [|done]. by rewrite <-(btree_list_to_map m), Heq, btree_list_to_map.
Qed.

Definition digest_entry_ok (e : string * list byte) : Prop :=
  fits64 (str_bytes e.1) ∧ length e.2 = 32.
Lemma prefix_digest_entry : PrefixInj put_digest_entry digest_entry_ok.
Proof.
  intros [k d] [k' d'] r r' [Hk Hd] [Hk' Hd'] H. unfold put_digest_entry in H. cbn [fst snd] in *.
  rewrite <-!app_assoc in H. apply prefix_u64_text in H as [-> H]; [|done..].
  apply app_inj_1 in H as [-> ->]; [done|]. congruence.
Qed.

Definition generation_entry_ok (e : string * N) : Prop :=
  fits64 (str_bytes e.1) ∧ (e.2 < 2 ^ 64)%N.
Lemma prefix_generation : PrefixInj put_generation generation_entry_ok.
Proof.
  intros [k d] [k' d'] r r' [Hk Hd] [Hk' Hd'] H. unfold put_generation in H. cbn [fst snd] in *.
  rewrite <-!app_assoc in H. apply prefix_u64_text in H as [-> H]; [|done..].
  by apply prefix_u64 in H as [-> ->].
Qed.

Definition digests_fit (m : gmap string (list byte)) : Prop :=
  (N.of_nat (size m) < 2 ^ 64)%N ∧ map_Forall (λ k d, digest_entry_ok (k, d)) m.
Lemma prefix_digests : PrefixInj put_digests digests_fit.
Proof. intros m m' r r' [Hs Hm] [Hs' Hm'] H. by eapply prefix_map, H; [apply prefix_digest_entry|..]. Qed.

Definition relied_fit (m : gmap string N) : Prop :=
  (N.of_nat (size m) < 2 ^ 64)%N ∧ map_Forall (λ k g, generation_entry_ok (k, g)) m.
Lemma prefix_relied : PrefixInj put_relied relied_fit.
Proof. intros m m' r r' [Hs Hm] [Hs' Hm'] H. by eapply prefix_map, H; [apply prefix_generation|..]. Qed.

(** ** Operations *)
Definition op_fits (op : BranchOp) : Prop :=
  fits64 (str_bytes (op_key op)) ∧
  match op with
  | Put key value => str_ok key = true ∧ value_ok value
  | Remove _ => True
  | Add _ amount => i64_ok amount = true
  | SetInsert _ member _ | SetRemove _ member _ => fits64 (str_bytes member)
  end.

Lemma prefix_i64 : PrefixInj i64_le_bytes (λ z, i64_ok z = true).
Proof.
  intros a b r r' Ha Hb H. apply app_inj_1 in H as [H ->].
  - split; [|done]. by rewrite <-(i64_roundtrip a), H, i64_roundtrip.
  - unfold i64_le_bytes. by rewrite !length_le_bytes.
Qed.

Lemma prefix_flag a b r r' : [bool_byte a] ++ r = [bool_byte b] ++ r' → a = b ∧ r = r'.
Proof. destruct a, b; intros H; injection H; intros; simplify_eq; done. Qed.

Lemma canonical_fits k v bs : canonical_input_bytes k v = Ok bs → fits64 bs.
Proof.
  intros (_ & _ & Hb)%delta_encode_emits. unfold fits64, MAX_DELTA_BYTES in *. lia.
Qed.

Lemma seal_op_inj op op' x y r r' :
  op_fits op → op_fits op' → seal_op op = Ok x → seal_op op' = Ok y →
  x ++ r = y ++ r' → op = op' ∧ r = r'.
Proof.
  intros [Hk Hop] [Hk' Hop'] Hx Hy H.
  destruct op as [k v|k|k n|k m b|k m b], op' as [k' v'|k'|k' n'|k' m' b'|k' m' b'];
    cbn [op_key seal_op] in *; repeat (case_match; try done);
    apply Ok_inj in Hx; apply Ok_inj in Hy; subst x y; rewrite <-!app_assoc in H;
    apply app_inj_1 in H as [Htag H]; try done; clear Htag;
    apply prefix_u64_text in H as [-> H]; try done.
  - apply prefix_u64 in H as [Hlen H]; [|by eapply canonical_fits..].
    apply app_inj_1 in H as [-> ->]; [|unfold blen in Hlen; lia].
    destruct Hop, Hop'. edestruct (canonical_input_inj k' v k' v') as [_ ->]; eauto.
  - by apply prefix_i64 in H as [-> ->].
  - apply prefix_u64_text in H as [-> H]; [|done..]. by apply prefix_flag in H as [-> ->].
  - apply prefix_u64_text in H as [-> H]; [|done..]. by apply prefix_flag in H as [-> ->].
Qed.

Lemma seal_ops_inj l l' x y :
  Forall op_fits l → Forall op_fits l' → length l = length l' →
  seal_ops l = Ok x → seal_ops l' = Ok y → x = y → l = l'.
Proof.
  intros Hl. revert l' x y. induction Hl as [|op l Hop _ IH]; intros [|op' l'] x y Hl' Hlen Hx Hy Heq; try done.
  apply Forall_cons in Hl' as [Hop' Hl']. cbn [seal_ops] in Hx, Hy.
  apply rbind_ok_inv in Hx as (b & Hb & Hx). apply rbind_ok_inv in Hx as (q & Hq & Hx).
  apply rbind_ok_inv in Hy as (b' & Hb' & Hy). apply rbind_ok_inv in Hy as (q' & Hq' & Hy).
  apply Ok_inj in Hx, Hy. subst x y.
  apply (seal_op_inj op op') in Heq as [-> Hqq]; [|done..]. f_equal. eapply IH; eauto.
Qed.

(** ** Sealed branches *)

(** Parts that exist in Rust. *)
Record parts_fit (p : SealedBranchParts) : Prop := {
  pt_id : fits64 (str_bytes (sb_id p));
  pt_author : fits64 (str_bytes (sb_author p));
  pt_revision : (sb_base_revision p < 2 ^ 64)%N;
  pt_reads : digests_fit (sb_reads p);
  pt_scans : digests_fit (sb_scans p);
  pt_relied : relied_fit (sb_relied p);
  pt_base : digests_fit (sb_touched_base p);
  pt_inputs : digests_fit (sb_touched_inputs p);
  pt_count : fits64 (sb_ops p);
  pt_ops : Forall op_fits (sb_ops p)
}.

Lemma seal_bytes_inj p q x :
  parts_fit p → parts_fit q → seal_bytes p = Ok x → seal_bytes q = Ok x → p = q.
Proof.
  intros [] [] Hx Hy. unfold seal_bytes in Hx, Hy.
  apply rbind_ok_inv in Hx as (o & Ho & Hx). apply rbind_ok_inv in Hy as (o' & Ho' & Hy).
  apply Ok_inj in Hx, Hy. subst x. apply app_inv_head in Hy. symmetry in Hy.
  apply prefix_u64_text in Hy as [Hid H]; [|done..]. apply prefix_u64_text in H as [Hau H]; [|done..].
  apply prefix_u64 in H as [Hre H]; [|done..]. apply prefix_digests in H as [Hrd H]; [|done..].
  apply prefix_digests in H as [Hsc H]; [|done..]. apply prefix_relied in H as [Hrl H]; [|done..].
  apply prefix_digests in H as [Htb H]; [|done..]. apply prefix_digests in H as [Hti H]; [|done..].
  apply prefix_u64 in H as [Hlen H]; [|done..].
  assert (sb_ops p = sb_ops q) as Hops by (eapply seal_ops_inj; try done; unfold blen in Hlen; lia).
  destruct p, q; simpl in *. by subst.
Qed.

(** ** Merge plans *)
Definition names_fit (s : gset string) : Prop :=
  (N.of_nat (size s) < 2 ^ 64)%N ∧ set_Forall (λ k, fits64 (str_bytes k)) s.

Record plan_fits (p : MergePlan) : Prop := {
  pn_branch : fits64 (str_bytes (mp_branch p));
  pn_expected : (mp_expected p < 2 ^ 64)%N;
  pn_dependencies : length (mp_dependencies p) = 32;
  pn_rebased : names_fit (mp_rebased p);
  pn_delta : delta_ok (mp_delta p)
}.

Lemma merge_plan_bytes_inj p q x y :
  plan_fits p → plan_fits q → delta_encode (mp_delta p) = Ok x → delta_encode (mp_delta q) = Ok y →
  merge_plan_bytes (mp_branch p) (mp_expected p) x (mp_dependencies p) (mp_rebased p) =
  merge_plan_bytes (mp_branch q) (mp_expected q) y (mp_dependencies q) (mp_rebased q) →
  mp_branch p = mp_branch q ∧ mp_expected p = mp_expected q ∧ mp_delta p = mp_delta q ∧
  mp_dependencies p = mp_dependencies q ∧ mp_rebased p = mp_rebased q.
Proof.
  intros [Hb He Hd [Hs Hr] Hok] [Hb' He' Hd' [Hs' Hr'] Hok'] Hx Hy H.
  assert (fits64 x ∧ fits64 y) as [Hfx Hfy].
  { apply delta_encode_emits in Hx as (_ & _ & ?), Hy as (_ & _ & ?).
    unfold fits64, MAX_DELTA_BYTES in *. lia. }
  unfold merge_plan_bytes in H. apply app_inv_head in H.
  apply prefix_u64_text in H as [Hbr H]; [|done..]. apply prefix_u64 in H as [Hex H]; [|done..].
  apply prefix_u64 in H as [Hlen H]; [|done..].
  apply app_inj_1 in H as [<- H]; [|unfold blen in Hlen; lia].
  apply app_inj_1 in H as [Hdp H]; [|congruence]. apply prefix_u64 in H as [Hn H]; [|done..].
  assert (∀ s, set_Forall (λ k, fits64 (str_bytes k)) s → Forall (λ k, fits64 (str_bytes k)) (bset_list s)) as Hall.
  { intros s Hsf. apply Forall_forall. intros k Hk%elem_of_bset_list. by apply Hsf. }
  rewrite <-(app_nil_r (mjoin _)), <-(app_nil_r (mjoin (put_u64_text <$> bset_list (mp_rebased q)))) in H.
  apply (prefix_list _ _ prefix_u64_text) in H as [Hrb _]; [|rewrite !bset_list_length; lia|by apply Hall..].
  assert (mp_delta p = mp_delta q) as Hdelta.
  { apply encoded_decodes in Hx, Hy; [|done..]. rewrite Hx in Hy. by apply Ok_inj in Hy. }
  assert (mp_rebased p = mp_rebased q) as Hreb.
  { rewrite <-(bset_list_to_set (mp_rebased p)), Hrb. apply bset_list_to_set. }
  done.
Qed.

(** ** Theorems *)

(** An approval stands for one plan.  Plans with equal digests name the same
    branch, the same revision, the same delta, the same dependency digest and
    the same rebased keys, unless the two byte strings that were hashed are a
    collision of SHA-256. *)
Theorem plan_digest_binds sha256 p q d :
  plan_fits p → plan_fits q → plan_digest sha256 p = Ok d → plan_digest sha256 q = Ok d →
  (mp_branch p = mp_branch q ∧ mp_expected p = mp_expected q ∧ mp_delta p = mp_delta q ∧
   mp_dependencies p = mp_dependencies q ∧ mp_rebased p = mp_rebased q) ∨
  ∃ x y, delta_encode (mp_delta p) = Ok x ∧ delta_encode (mp_delta q) = Ok y ∧
    collides sha256
      (merge_plan_bytes (mp_branch p) (mp_expected p) x (mp_dependencies p) (mp_rebased p))
      (merge_plan_bytes (mp_branch q) (mp_expected q) y (mp_dependencies q) (mp_rebased q)).
Proof.
  intros Hp Hq H H'. unfold plan_digest, merge_plan_digest in *.
  destruct (delta_encode (mp_delta p)) as [x|] eqn:Hx; [|done].
  destruct (delta_encode (mp_delta q)) as [y|] eqn:Hy; [|done].
  apply Ok_inj in H, H'. rewrite <-H' in H. apply sha_eq in H as [H|H]; [left|right; eauto].
  by apply (merge_plan_bytes_inj p q x y).
Qed.

(** A seal digest stands for one sealed branch.  Two sealed branches with the
    same seal digest have the same parts (identity, author, base revision, every
    recorded digest and generation, every operation in order), unless the two
    byte strings that were hashed are a collision of SHA-256. *)
Theorem seal_digest_binds sha256 s t d :
  parts_fit (parts s) → parts_fit (parts t) →
  seal_digest sha256 s = Ok d → seal_digest sha256 t = Ok d →
  s = t ∨ ∃ x y, seal_bytes (parts s) = Ok x ∧ seal_bytes (parts t) = Ok y ∧ collides sha256 x y.
Proof.
  intros Hs Ht H H'. unfold seal_digest in *.
  apply rbind_ok_inv in H as (x & Hx & Hd). apply rbind_ok_inv in H' as (y & Hy & Hd').
  apply Ok_inj in Hd, Hd'. rewrite <-Hd' in Hd. apply sha_eq in Hd as [->|Hc]; [left|right; eauto].
  destruct s as [p], t as [q]. f_equal. by apply (seal_bytes_inj p q y).
Qed.

(** * A concrete branch

    A store with a counter, a set and a derived value; a branch over it that
    overwrites an input, adds to the counter and moves two members; and a target
    in which the counter and the set were changed concurrently.  The theorems of
    the branch are applied to it. *)

(** A function with the range of SHA-256 that separates the strings used here. *)
Definition demo_sha (x : list byte) : list byte :=
  le_bytes 32 (foldl (λ a b, a * 257 + Byte.to_N b + 1)%N 0%N x).
Lemma demo_sha_length x : length (demo_sha x) = 32.
Proof. apply length_le_bytes. Qed.

Definition demo_set (l : list string) : SemanticValue :=
  default (Text "") (set_value (list_to_set l)).

Definition demo_base : SemanticHost :=
  (apply_delta (host_default 0)
     {| upserts := list_to_map [("n", counter_value 5); ("s", demo_set ["a"; "b"]);
                                ("src", Text "1"); ("d", Text "x")];
        removals := ∅; dependencies := {["d" := {["src"]}]} |}).2.

(** The target: another writer added to the counter and inserted a member. *)
Definition demo_target : SemanticHost :=
  (apply_delta demo_base
     {| upserts := list_to_map [("n", counter_value 7); ("s", demo_set ["a"; "b"; "e"])];
        removals := ∅; dependencies := ∅ |}).2.

Definition demo_calls : list BranchCall :=
  [CallRead "src"; CallPut "src" (Text "2"); CallCommute (Add "n" 3); CallScan "sr";
   CallCommute (SetRemove "s" "a" false); CallCommute (SetInsert "s" "c" true);
   CallPut "unread" (Text "refused"); CallRely "capsule" 1].

Abbreviation demo_branch :=
  (branch_run demo_sha (Branch_open "b1" "agent" (snapshot demo_base)) demo_calls).

Definition ok_value {E A} (d : A) (r : result E A) : A := match r with Ok a => a | Err _ => d end.

Definition demo_parts : SealedBranchParts :=
  {| sb_id := ""; sb_author := ""; sb_base_revision := 0; sb_reads := ∅; sb_scans := ∅;
     sb_relied := ∅; sb_touched_base := ∅; sb_touched_inputs := ∅; sb_ops := [] |}.
Definition demo_sealed : SealedBranch := ok_value {| parts := demo_parts |} (Branch_seal demo_sha demo_branch).

Definition demo_validity (t : string) (g : N) : option Validity :=
  if bool_decide (t = "capsule") && (g =? 1)%N then Some Live else None.

Definition demo_plan : MergePlan :=
  {| mp_branch := ""; mp_expected := 0; mp_delta := empty_delta; mp_rebased := ∅;
     mp_relied := ∅; mp_dependencies := [] |}.
Definition demo_cert (h : SemanticHost) : Certification :=
  ok_value (Clean demo_plan) (certify demo_sha demo_validity demo_sealed (snapshot h)).
Abbreviation demo_merged h :=
  (apply_delta h (mp_delta (certification_plan (demo_cert h)))).

Lemma demo_seals : Branch_seal demo_sha demo_branch = Ok demo_sealed.
Proof. vm_compute. reflexivity. Qed.
Lemma demo_ops_staged : length (br_ops demo_branch) = 4.
Proof. vm_compute. reflexivity. Qed.
Lemma demo_base_wf : state_wf (host_state demo_base).
Proof. apply apply_delta_past, default_wf. Qed.
Lemma demo_target_wf : state_wf (host_state demo_target).
Proof. apply apply_delta_past, demo_base_wf. Qed.
Lemma demo_certifies : certify demo_sha demo_validity demo_sealed (snapshot demo_target) = Ok (demo_cert demo_target).
Proof. vm_compute. reflexivity. Qed.
Lemma demo_applies : demo_merged demo_target = (Ok (3%N, {["d"; "n"; "s"; "src"]}), (demo_merged demo_target).2).
Proof. vm_compute. reflexivity. Qed.

Lemma demo_relies t g : br_relied demo_branch !! t = Some g → demo_validity t g = Some Live.
Proof.
  assert (br_relied demo_branch = {["capsule" := 1%N]}) as -> by (vm_compute; reflexivity).
  intros [<- <-]%lookup_singleton_Some. reflexivity.
Qed.

Definition text_ok (s : string) : bool := str_ok s && (slen s <? 2 ^ 64)%N.
Definition value_text_ok (v : SemanticValue) : bool :=
  match v with
  | Text t => str_ok t
  | Payload p => str_ok (sp_type_id p) && str_ok (sp_source p)
  end.
(** [snapshot_ok], decided. *)
Definition snapshot_check (s : SemanticSnapshot) : bool :=
  forallb (λ e, text_ok e.1 && value_text_ok e.2) (map_to_list (ground (snap_state s))) &&
  forallb (λ e, forallb text_ok (elements e.2) && (N.of_nat (size e.2) <? 2 ^ 64)%N)
    (map_to_list (st_dependencies (snap_state s))).
Lemma snapshot_check_ok s : snapshot_check s = true → snapshot_ok s.
Proof.
  unfold snapshot_check. rewrite andb_true_iff, !forallb_forall. intros [Hg Hd]. split.
  - intros k v Hv%elem_of_map_to_list%list_elem_of_In. apply Hg in Hv. cbn [fst snd] in Hv.
    unfold text_ok in Hv. bool_prop. split; [done|]. split; [|done].
    destruct v; cbn [value_text_ok] in *; [done|]. by bool_prop.
  - intros k i Hi%elem_of_map_to_list%list_elem_of_In. apply Hd in Hi. cbn [snd] in Hi. bool_prop.
    split; [|done]. intros x Hx. match goal with H : forallb _ _ = true |- _ => rewrite forallb_forall in H;
      specialize (H x ltac:(by apply list_elem_of_In, elem_of_elements)) end.
    unfold text_ok in *. by bool_prop.
Qed.

Lemma demo_base_ok : snapshot_ok (snapshot demo_base).
Proof. apply snapshot_check_ok. vm_compute. reflexivity. Qed.
Lemma demo_target_ok : snapshot_ok (snapshot demo_target).
Proof. apply snapshot_check_ok. vm_compute. reflexivity. Qed.
Lemma demo_reads_src : is_Some (br_reads demo_branch !! "src").
Proof. vm_compute. by eexists. Qed.

(** ** Witnesses *)
Lemma demo_separates : separates_absence demo_sha (snapshot demo_base).
Proof.
  intros k v bs Hv Hbs. change (ground (host_state demo_base) !! k = Some v) in Hv.
  assert (forallb (λ e, negb (bool_decide (demo_sha (ok_value [] (value_bytes e.1 (Some e.2))) =
    demo_sha (absent_bytes e.1)))) (map_to_list (ground (host_state demo_base))) = true) as Hall
    by (vm_compute; reflexivity).
  rewrite forallb_forall in Hall. apply elem_of_map_to_list, list_elem_of_In, Hall in Hv.
  cbn [fst snd] in Hv. rewrite Hbs in Hv. by bool_prop.
Qed.

Lemma seal_accepts_staged_witness :
  br_base demo_branch = snapshot demo_base ∧ sealed_from demo_sha demo_branch demo_sealed.
Proof.
  pose proof (seal_accepts_staged demo_sha "b1" "agent" (snapshot demo_base) demo_calls
    ltac:(vm_compute; reflexivity) demo_separates) as H.
  cbv zeta in H. rewrite demo_seals in H. exact H.
Defined.

Lemma merge_publishes_view_witness :
  branch_view (snapshot demo_target) (sb_ops (parts demo_sealed)) "d" = Ok None ∧
  snapshot_value (snapshot (demo_merged demo_target).2) "d" = None.
Proof.
  pose proof (merge_publishes_view demo_sha demo_validity demo_target demo_sealed (demo_cert demo_target)
    _ _ demo_target_wf demo_certifies demo_applies "d") as H.
  split; [vm_compute; reflexivity|].
  assert (branch_view (snapshot demo_target) (sb_ops (parts demo_sealed)) "d" = Ok None) as Hv
    by (vm_compute; reflexivity).
  rewrite Hv in H. apply Ok_inj in H. symmetry. exact H.
Defined.

Lemma unchanged_base_merges_view_witness :
  ∃ plan, certify demo_sha demo_validity demo_sealed (snapshot demo_base) = Ok (Clean plan) ∧
  ∀ r h', apply_delta demo_base (mp_delta plan) = (Ok r, h') →
    snapshot_value (snapshot h') "n" = Some (counter_value 8).
Proof.
  destruct (unchanged_base_merges_view demo_sha demo_validity "b1" "agent" demo_base demo_calls demo_sealed
    ltac:(vm_compute; reflexivity) demo_base_wf demo_seals demo_relies) as (plan & Hc & H).
  exists plan. split; [exact Hc|]. intros r h' Ha. destruct (H r h' Ha) as [Hr _]. symmetry.
  apply Hr. vm_compute. reflexivity.
Defined.

Lemma merge_three_way_witness :
  (∃ n0 n t, read_counter "s" (snapshot_value (snapshot demo_base) "s") = Ok n0 ∧
     branch_view (snapshot demo_base) (br_ops demo_branch) "s" = Ok (Some (counter_value n)) ∧
     read_counter "s" (snapshot_value (snapshot demo_target) "s") = Ok t ∧
     i64_ok (t + (n - n0)) = true ∧
     snapshot_value (snapshot (demo_merged demo_target).2) "s" = Some (counter_value (t + (n - n0)))) ∨
  (∃ s0 sv st sm x y, read_set "s" (snapshot_value (snapshot demo_base) "s") = Ok s0 ∧
     branch_view (snapshot demo_base) (br_ops demo_branch) "s" = Ok (Some x) ∧ read_set_value x = Some sv ∧
     read_set "s" (snapshot_value (snapshot demo_target) "s") = Ok st ∧
     snapshot_value (snapshot (demo_merged demo_target).2) "s" = Some y ∧ read_set_value y = Some sm ∧
     three_way s0 sv st sm).
Proof.
  apply (merge_three_way demo_sha demo_validity "b1" "agent" (snapshot demo_base) demo_calls demo_sealed
    demo_target (demo_cert demo_target) _ _ "s" ltac:(vm_compute; reflexivity) demo_target_wf
    demo_seals demo_certifies demo_applies); vm_compute; reflexivity.
Defined.
Lemma demo_merged_set :
  snapshot_value (snapshot (demo_merged demo_target).2) "s" = Some (demo_set ["b"; "c"; "e"]).
Proof. vm_compute. reflexivity. Qed.

Lemma certified_dependencies_hold_witness :
  snapshot_value (snapshot demo_base) "src" = snapshot_value (snapshot demo_target) "src" ∨
  ∃ x y, value_bytes "src" (snapshot_value (snapshot demo_base) "src") = Ok x ∧
         value_bytes "src" (snapshot_value (snapshot demo_target) "src") = Ok y ∧ collides demo_sha x y.
Proof.
  pose proof (certified_dependencies_hold demo_sha demo_validity "b1" "agent" (snapshot demo_base)
    demo_calls demo_sealed (snapshot demo_target) (demo_cert demo_target) demo_sha_length
    demo_base_ok demo_target_ok eq_refl demo_seals demo_certifies) as H.
  cbv zeta in H. destruct H as (_ & _ & Hr & _).
  apply (Hr "src" demo_reads_src); vm_compute; reflexivity.
Defined.

Lemma certified_plan_bounded_witness :
  is_ingress_key "src" = false ∧
  ∃ read, sb_reads (parts demo_sealed) !! "src" = Some read ∧
          ValueDigest_of demo_sha "src" (snapshot_value (snapshot demo_target) "src") = Ok read.
Proof.
  destruct (certified_plan_bounded demo_sha demo_validity demo_sealed (snapshot demo_target)
    (demo_cert demo_target) demo_certifies) as [_ H].
  destruct (H "src") as (Hi & _ & Hr & _); [left; vm_compute; eexists; reflexivity|].
  split; [exact Hi|]. apply Hr. vm_compute. reflexivity.
Defined.

Definition approved_plan : MergePlan :=
  {| mp_branch := "b1"; mp_expected := 3;
     mp_delta := {| upserts := {["k" := Text "v"]}; removals := ∅; dependencies := ∅ |};
     mp_rebased := {["k"]}; mp_relied := ∅; mp_dependencies := zero_digest |}.

Lemma approved_fits : plan_fits approved_plan.
Proof.
  split; [vm_compute; reflexivity|vm_compute; reflexivity|reflexivity| |].
  - split; [vm_compute; reflexivity|]. cbn [approved_plan mp_rebased]. intros k ->%elem_of_singleton. vm_compute. reflexivity.
  - split; [by apply map_Forall_singleton|]. split; [done|]. apply map_Forall_empty.
Qed.

Lemma plan_digest_binds_witness :
  mp_delta approved_plan = mp_delta approved_plan ∨
  ∃ x, delta_encode (mp_delta approved_plan) = Ok x.
Proof.
  destruct (plan_digest_binds demo_sha approved_plan approved_plan
    (ok_value [] (plan_digest demo_sha approved_plan)) approved_fits approved_fits
    ltac:(vm_compute; reflexivity) ltac:(vm_compute; reflexivity)) as [(_ & _ & H & _)|(x & y & Hx & _)].
  - left. exact H.
  - right. exists x. exact Hx.
Defined.

Definition stored_branch : SealedBranch :=
  {| parts := {| sb_id := "b1"; sb_author := "agent"; sb_base_revision := 1;
                 sb_reads := {["k" := zero_digest]}; sb_scans := ∅; sb_relied := {["capsule" := 1%N]};
                 sb_touched_base := {["k" := zero_digest]}; sb_touched_inputs := {["k" := zero_digest]};
                 sb_ops := [Put "k" (Text "v"); Add "n" (-1)] |} |}.

Lemma stored_fits : parts_fit (parts stored_branch).
Proof.
  assert (digests_fit {["k" := zero_digest]}) as Hd.
  { split; [vm_compute; reflexivity|]. apply map_Forall_singleton. split; vm_compute; reflexivity. }
  split; [vm_compute; reflexivity|vm_compute; reflexivity|vm_compute; reflexivity|exact Hd| | |
          exact Hd|exact Hd|vm_compute; reflexivity|].
  - split; [vm_compute; reflexivity|]. apply map_Forall_empty.
  - split; [vm_compute; reflexivity|]. apply map_Forall_singleton. split; vm_compute; reflexivity.
  - constructor; [|constructor; [|constructor]]; (split; [vm_compute; reflexivity|]).
    + split; reflexivity.
    + reflexivity.
Qed.

Lemma seal_digest_binds_witness :
  stored_branch = stored_branch ∨ ∃ x, seal_bytes (parts stored_branch) = Ok x.
Proof.
  destruct (seal_digest_binds demo_sha stored_branch stored_branch
    (ok_value [] (seal_digest demo_sha stored_branch)) stored_fits stored_fits
    ltac:(vm_compute; reflexivity) ltac:(vm_compute; reflexivity)) as [H|(x & y & Hx & _)].
  - left. exact H.
  - right. exists x. exact Hx.
Defined.
