(* ===== verification/ExpertRecords.v ===== *)
(** * Expert records decode to exactly what was encoded

    The block of inputs has one canonical arrangement; the record codec is a
    bijection between well-formed records and the byte strings it accepts; the
    identities of an operation determine it unless SHA-256 collides. *)

From S2P Require Import Prelude Bytes Text Types ExpertOps ExpertFacts ExpertCodec Digests.
From stdpp Require Import options.

(** ** The order of inputs *)
#[export] Instance input_le_total : Total input_le.
Proof.
  intros a b. unfold input_le, pair_le, input_key. cbn [fst snd].
  destruct (decide (eir_identity a = eir_identity b)) as [Heq|Hne].
  - rewrite Heq. destruct (decide (eir_generation a <= eir_generation b)%N);
      [left|right]; (split; [reflexivity|lia]).
  - destruct (total String.le (eir_identity a) (eir_identity b)); [left|right]; split; congruence.
Qed.
#[export] Instance input_le_trans : Transitive input_le.
Proof.
  intros a b c [H1 G1] [H2 G2]. unfold input_le, pair_le, input_key in *. cbn [fst snd] in *.
  split; [by etrans|]. intros Heq.
  assert (eir_identity a = eir_identity b) as Hab.
  { apply (anti_symm String.le); [done|]. by rewrite Heq. }
  specialize (G1 Hab). specialize (G2 ltac:(congruence)). lia.
Qed.
Lemma input_le_key a b : input_le a b → input_le b a → input_key a = input_key b.
Proof.
  unfold input_le, pair_le, input_key. cbn [fst snd]. intros [H1 G1] [H2 G2].
  assert (eir_identity a = eir_identity b) as Heq by (by apply (anti_symm String.le)).
  rewrite Heq. f_equal. specialize (G1 Heq). specialize (G2 (eq_sym Heq)). lia.
Qed.

Definition input_lt (a b : ExpertInputRef) : Prop := input_le a b ∧ input_key a ≠ input_key b.
Definition ascending (l : list ExpertInputRef) : Prop := StronglySorted input_lt l.

Lemma check_adjacent_ok l :
  StronglySorted input_le l → check_adjacent l = Ok tt ↔ ascending l.
Proof.
  unfold ascending. induction 1 as [|a l Hl IH Ha]; [split; [constructor|done]|].
  destruct l as [|b l]; [split; [repeat constructor|done]|].
  cbn [check_adjacent]. pose proof (Forall_inv Ha) as Hab.
  assert (bool_decide (eir_identity a = eir_identity b) && (eir_generation a =? eir_generation b)%N = false
          ↔ input_key a ≠ input_key b) as Hk.
  { unfold input_key. case_bool_decide as Hi; cbn [andb].
    - rewrite N.eqb_neq, Hi. split; [by intros H [= E]|]. intros H E. apply H. by rewrite E.
    - split; [|done]. by intros _ [= ? _]. }
  split.
  - destruct (_ && _); [done|]. intros H%IH. constructor; [done|]. destruct Hk as [Hk _].
    specialize (Hk eq_refl). apply Forall_cons. split; [done|]. inversion H as [|? ? _ Hb]; subst.
    rewrite Forall_forall in Ha, Hb |- *. intros c Hc. split; [apply Ha; set_solver|].
    intros Hac. apply Hk. apply input_le_key; [done|]. destruct (Hb c Hc) as [Hbc _].
    destruct Hbc as [Hbc1 Hbc2]. unfold input_le. by rewrite Hac.
  - intros H. inversion H as [|? ? Hs Hf]; subst. apply Forall_inv in Hf as [_ Hf].
    apply Hk in Hf. rewrite Hf. by apply IH.
Qed.

Lemma ascending_unique l k : ascending l → StronglySorted input_le k → l ≡ₚ k → l = k.
Proof.
  intros Hl Hk Hp. eapply (StronglySorted_unique_strong input_le); [| |done|done].
  - intros a b Ha Hb Hab Hba. rewrite <-Hp in Hb. pose proof (input_le_key _ _ Hab Hba) as Heq.
    clear Hp Hk Hab Hba. induction Hl as [|c l Hl IH Hc]; [set_solver|].
    rewrite Forall_forall in Hc. apply elem_of_cons in Ha as [-> |Ha], Hb as [-> |Hb]; try done.
    + by destruct (Hc b Hb).
    + destruct (Hc a Ha) as [_ Hne]. congruence.
    + by apply IH.
  - clear Hp Hk. induction Hl as [|c l Hl IH Hc]; constructor; [done|].
    eapply Forall_impl; [exact Hc|]. by intros x [? _].
Qed.

Lemma sort_inputs_ok l k :
  sort_inputs l = Ok k ↔ (blen l <= MAX_EXPERT_INPUTS_PER_ROLE)%N ∧ k ≡ₚ l ∧ ascending k.
Proof.
  unfold sort_inputs. assert (StronglySorted input_le (merge_sort input_le l)) as Hs
    by (apply StronglySorted_merge_sort; apply _).
  pose proof (merge_sort_Permutation input_le l) as Hp. split.
  - intros H. result_inv. bool_prop. split_and!; try done. by apply check_adjacent_ok.
  - intros (Hl & Hk & Ha). rewrite (proj2 (N.ltb_ge _ _)) by done.
    assert (k = merge_sort input_le l) as -> by (apply ascending_unique; [done..|by rewrite Hp]).
    by rewrite (proj2 (check_adjacent_ok _ Hs)).
Qed.

(** ** One digest per input *)
Definition agree (l : list ExpertInputRef) : Prop :=
  ∀ a b, a ∈ l → b ∈ l → input_key a = input_key b → eir_digest a = eir_digest b.

Lemma check_digests_ok l : ∀ seen, check_digests seen l = Ok tt ↔
  (∀ a d, a ∈ l → seen !! input_key a = Some d → d = eir_digest a) ∧ agree l.
Proof.
  induction l as [|a l IH]; intros seen; [unfold agree; set_solver|]. cbn [check_digests].
  case_bool_decide as Hk; cbn [negb].
  - rewrite IH, Hk. unfold agree. setoid_rewrite elem_of_cons. setoid_rewrite lookup_insert_Some. split.
    + intros [H1 H2]. split.
      * intros b d [-> |Hb] Hd; [by rewrite Hd in Hk|].
        destruct (decide (input_key a = input_key b)) as [He|He]; [|by eapply H1; [|right]].
        rewrite <-He in Hd. rewrite Hd in Hk. cbn in Hk. subst d. apply H1; [done|]. by left.
      * intros b c [-> |Hb] [-> |Hc] He; try done; [|symmetry|]; eauto.
    + intros [H1 H2]. split; [|eauto]. intros b d Hb [[He <-]|[He Hd]]; eauto.
  - split; [done|]. intros [H1 _]. destruct (seen !! input_key a) as [d|] eqn:Hd; [|done].
    exfalso. apply Hk. cbn. eapply H1; [|done]. set_solver.
Qed.

Lemma inputs_new_spec training evaluation i :
  ExpertInputs_new training evaluation = Ok i ↔
  (blen training <= MAX_EXPERT_INPUTS_PER_ROLE)%N ∧ (blen evaluation <= MAX_EXPERT_INPUTS_PER_ROLE)%N ∧
  ei_training i ≡ₚ training ∧ ei_evaluation i ≡ₚ evaluation ∧
  ascending (ei_training i) ∧ ascending (ei_evaluation i) ∧ agree (training ++ evaluation).
Proof.
  unfold ExpertInputs_new. split.
  - intros H. apply rbind_ok_inv in H as (t & Ht & H). apply rbind_ok_inv in H as (e & He & H).
    apply rbind_ok_inv in H as ([] & Hd & [= <-]). apply sort_inputs_ok in Ht as (?&Hpt&?), He as (?&Hpe&?).
    apply check_digests_ok in Hd as [_ Ha]. cbn. split_and!; try done.
    unfold agree in *. setoid_rewrite elem_of_app. setoid_rewrite elem_of_app in Ha.
    setoid_rewrite Hpt in Ha. by setoid_rewrite Hpe in Ha.
  - intros (Hl & Hl' & Hpt & Hpe & Ht & He & Ha). destruct i as [t e]. cbn in *.
    rewrite (proj2 (sort_inputs_ok training t)) by done. cbn [rbind].
    rewrite (proj2 (sort_inputs_ok evaluation e)) by done. cbn [rbind].
    rewrite (proj2 (check_digests_ok _ _)); [done|]. split; [by intros ??? ?%lookup_empty_Some|].
    unfold agree in *. setoid_rewrite elem_of_app. setoid_rewrite elem_of_app in Ha.
    setoid_rewrite Hpt. by setoid_rewrite Hpe.
Qed.

(** A block of inputs is built exactly when each list is short enough and
    names no input twice, and an input named in both lists has one digest; the
    block is the one ascending arrangement of what was given.  So its encoding
    and its digest do not depend on the order in which the inputs were listed. *)
Theorem inputs_new_iff training evaluation i :
  ExpertInputs_new training evaluation = Ok i ↔
  (blen training <= MAX_EXPERT_INPUTS_PER_ROLE)%N ∧ (blen evaluation <= MAX_EXPERT_INPUTS_PER_ROLE)%N ∧
  ei_training i ≡ₚ training ∧ ei_evaluation i ≡ₚ evaluation ∧
  ascending (ei_training i) ∧ ascending (ei_evaluation i) ∧ agree (training ++ evaluation).
Proof. apply inputs_new_spec. Qed.

(** ** Inputs on the wire *)
#[export] Instance wire_input : Wire r_input w_input input_ok.
Proof.
  unfold input_ok. split.
  - intros [name g d] rest H. cbn [eir_identity eir_generation eir_digest] in H. bool_prop.
    unfold w_input, r_input, nonzero_ok, MAX_EXPERT_INPUT_IDENTITY_BYTES in *.
    cbn [eir_identity eir_generation eir_digest]. bool_prop. rewrite <-!app_assoc.
    eapply rseq_step; [apply wire_reads; unfold text_ok, u32_ok; ok_join; apply N.ltb_lt; lia|].
    part_forward. apply rmap_err_ok. split; [|done]. unfold ExpertInputRef_new, MAX_EXPERT_INPUT_IDENTITY_BYTES.
    rewrite bool_decide_eq_false_2, (proj2 (N.ltb_ge _ _)), bool_decide_eq_false_2 by done.
    rewrite (proj2 (N.eqb_neq _ _)) by by apply generation_ok_iff.
    match goal with H : has_control _ = false |- _ => by rewrite H end.
  - intros bs i rest H. unfold r_input in H. wire_backward.
    unfold ExpertInputRef_new, nonzero_ok, text_ok in *. result_inv. bool_prop. unfold w_input.
    cbn [eir_identity eir_generation eir_digest]. split; [|by rewrite <-!app_assoc].
    ok_join; rewrite ?negb_true_iff, ?bool_decide_eq_false, ?N.leb_le; try done. by apply generation_ok_iff.
Qed.

Definition role_ok (l : list ExpertInputRef) : bool :=
  forallb input_ok l && (blen l <=? MAX_EXPERT_INPUTS_PER_ROLE)%N.
#[export] Instance wire_input_list : Wire r_input_list w_input_list role_ok.
Proof.
  unfold role_ok, MAX_EXPERT_INPUTS_PER_ROLE. split.
  - intros l rest H. bool_prop. unfold r_input_list, w_input_list, w_list. rewrite <-app_assoc.
    eapply rseq_step; [apply r_count_reads|cbn beta].
    + unfold u32_ok. apply N.ltb_lt. lia.
    + pose proof (solid_join w_input input_ok l H). autorewrite with blen. lia.
    + unfold MAX_EXPERT_INPUTS_PER_ROLE. rewrite (proj2 (N.ltb_ge _ _)) by done.
      unfold blen. rewrite Nat2N.id. by apply (rrepeat_reads r_input w_input input_ok).
  - intros bs l rest H. apply rseq_ok_inv in H as (n & mid & Hn & H). cbn beta in H.
    apply r_count_exact in Hn as (_ & _ & ->). unfold MAX_EXPERT_INPUTS_PER_ROLE in H.
    destruct (256 <? n)%N eqn:Hl; [done|]. bool_prop.
    apply (rrepeat_exact r_input w_input input_ok) in H as (Hlen & Hf & ->).
    assert (blen l = n) as <- by (unfold blen; lia). rewrite Hf. split; [by apply N.leb_le|].
    unfold w_input_list, w_list. by rewrite <-app_assoc.
Qed.

(** A block as the constructor leaves it. *)
Definition inputs_ok (i : ExpertInputs) : Prop :=
  role_ok (ei_training i) = true ∧ role_ok (ei_evaluation i) = true ∧
  ascending (ei_training i) ∧ ascending (ei_evaluation i) ∧ agree (ei_training i ++ ei_evaluation i).

Lemma inputs_reads i rest : inputs_ok i → r_inputs (w_inputs i ++ rest) = Ok (i, rest).
Proof.
  intros (Ht & He & Hat & Hae & Hag). unfold r_inputs, w_inputs. rewrite <-app_assoc.
  eapply rseq_step; [by apply wire_reads|]. eapply rseq_step; [by apply wire_reads|].
  apply rmap_err_ok. split; [|done]. apply inputs_new_spec. unfold role_ok in *. bool_prop. done.
Qed.
Lemma role_ok_perm l k : l ≡ₚ k → role_ok k = true → role_ok l = true.
Proof.
  unfold role_ok. intros Hp H. bool_prop. apply andb_true_iff. split.
  - rewrite forallb_forall in *. intros x Hx. apply H. by apply (Permutation_in x Hp).
  - apply N.leb_le. unfold blen in *. by rewrite (Permutation_length Hp).
Qed.
Lemma inputs_yield bs i rest : r_inputs bs = Ok (i, rest) → inputs_ok i.
Proof.
  intros H. unfold r_inputs in H. wire_backward.
  match goal with H : ExpertInputs_new _ _ = _ |- _ => apply inputs_new_spec in H as (_&_&Ht&He&?&?&Ha) end.
  split_and!; [by eapply role_ok_perm|by eapply role_ok_perm|done..|].
  unfold agree in *. setoid_rewrite elem_of_app. setoid_rewrite elem_of_app in Ha.
  setoid_rewrite Ht. by setoid_rewrite He.
Qed.

(** ** Records *)
Definition evidence_ok (e : ExpertEvidence) : bool :=
  nonzero_ok (ee_required_gate_config_digest e) && negb (bool_decide (ee_report e = [])) &&
  u32_ok (blen (ee_report e)).

Definition record_ok (r : ExpertCommitRecord) : Prop :=
  proposal_ok (ecr_proposal r) = true ∧ nonzero_ok (ecr_evidence_digest r) = true ∧
  u64_ok (ecr_gate_epoch r) = true ∧
  match ecr_evidence r, ecr_inputs r with
  | None, None => True
  | None, Some _ => False
  | Some e, None => evidence_ok e = true
  | Some e, Some i => evidence_ok e = true ∧ inputs_ok i ∧ results (ep_op (ecr_proposal r)) ≠ []
  end.

Lemma nonzero_digest d : nonzero_ok d = true ↔ digest_ok d = true ∧ d ≠ zero_digest.
Proof. unfold nonzero_ok. by rewrite andb_true_iff, negb_true_iff, bool_decide_eq_false. Qed.

Lemma r_magic_reads m b rest :
  (m = RECORD_MAGIC_V1 ∧ b = (false, false)) ∨ (m = RECORD_MAGIC_V2 ∧ b = (true, false)) ∨
  (m = RECORD_MAGIC_V3 ∧ b = (true, true)) →
  r_magic (m ++ rest) = Ok (b, rest).
Proof.
  intros H. unfold r_magic. eapply rseq_step; [apply r_take_reads|];
    by destruct H as [[-> ->]|[[-> ->]|[-> ->]]].
Qed.

Lemma evidence_reads {A} (k : Digest → list byte → xreader A) e rest out :
  evidence_ok e = true → k (ee_required_gate_config_digest e) (ee_report e) rest = out →
  (required <- r_array32 ;; len <- r_count ;; report <- r_take len ;; k required report)
    (w_evidence e ++ rest) = out.
Proof.
  unfold evidence_ok, w_evidence. intros H Hk. bool_prop. apply nonzero_digest in H as [H _].
  rewrite <-!app_assoc. eapply rseq_step; [by apply r_array_reads|]. cbn beta.
  eapply rseq_step; [apply r_count_reads; [done|autorewrite with blen; lia]|]. cbn beta.
  eapply rseq_step; [by apply r_take_reads|done].
Qed.

Lemma record_reads r : record_ok r → r_record (encode_canonical r) = Ok (r, []).
Proof.
  intros (Hp & Hd & Hg & He). apply nonzero_digest in Hd as [Hd Hz].
  rewrite <-(app_nil_r (encode_canonical r)). unfold r_record, encode_canonical, record_magic. rewrite <-!app_assoc.
  destruct r as [p d g [e|] [i|]]; cbn [ecr_proposal ecr_evidence_digest ecr_gate_epoch ecr_evidence ecr_inputs] in *; try done.
  - destruct He as (He & Hi & Hr). eapply rseq_step; [apply r_magic_reads; auto|]. cbn beta. part_forward.
    cbn [fst snd]. apply evidence_reads; [done|]. cbn beta.
    eapply rseq_step; [by apply inputs_reads|]. cbn beta. unfold evidence_ok in He. bool_prop.
    unfold new_with_inputs, new_with_evidence, ExpertCommitRecord_new, rlift. apply nonzero_digest in H as [_ H].
    rewrite !bool_decide_eq_false_2 by done. cbn. by destruct e.
  - eapply rseq_step; [apply r_magic_reads; auto|]. cbn beta. part_forward.
    cbn [fst snd]. apply evidence_reads; [done|]. unfold evidence_ok in He. bool_prop.
    unfold new_with_evidence, ExpertCommitRecord_new, rlift. apply nonzero_digest in H as [_ H].
    rewrite !bool_decide_eq_false_2 by done. cbn. by destruct e.
  - eapply rseq_step; [apply r_magic_reads; auto|]. cbn beta. part_forward.
    cbn [fst snd]. unfold ExpertCommitRecord_new, rlift. by rewrite bool_decide_eq_false_2.
Qed.

Lemma new_yield p d g r :
  proposal_ok p = true → digest_ok d = true → u64_ok g = true →
  ExpertCommitRecord_new p d g = Ok r → record_ok r.
Proof.
  unfold ExpertCommitRecord_new. intros Hp Hd Hg H. result_inv. bool_prop.
  split_and!; try done. by apply nonzero_digest.
Qed.
Lemma evidence_yield p d g required report r :
  proposal_ok p = true → digest_ok d = true → u64_ok g = true → digest_ok required = true →
  u32_ok (blen report) = true → new_with_evidence p d g required report = Ok r →
  record_ok r ∧ ecr_proposal r = p ∧ ecr_inputs r = None ∧ is_Some (ecr_evidence r).
Proof.
  unfold new_with_evidence, ExpertCommitRecord_new. intros Hp Hd Hg Hq Hl H. result_inv. bool_prop.
  split_and!; try done. split_and!; try done; [by apply nonzero_digest|].
  cbn. unfold evidence_ok. cbn [ee_required_gate_config_digest ee_report].
  ok_join; [by apply nonzero_digest|by apply negb_true_iff, bool_decide_eq_false].
Qed.
Lemma inputs_record_yield p d g required report i r :
  proposal_ok p = true → digest_ok d = true → u64_ok g = true → digest_ok required = true →
  u32_ok (blen report) = true → inputs_ok i → new_with_inputs p d g required report i = Ok r → record_ok r.
Proof.
  intros Hp Hd Hg Hq Hl Hi H. unfold new_with_inputs in H. result_inv. bool_prop.
  match goal with H : new_with_evidence _ _ _ _ _ = _ |- _ =>
    apply evidence_yield in H as ((H1 & H2 & H3 & H4) & Hpr & Hin & [e He]); [|done..] end.
  rewrite He, Hin in H4. unfold record_ok.
  cbn [ecr_proposal ecr_evidence_digest ecr_gate_epoch ecr_evidence ecr_inputs]. rewrite He, Hpr in *.
  split_and!; done.
Qed.

Lemma report_yield {A} (k : Digest → list byte → xreader A) bs a rest :
  (required <- r_array32 ;; len <- r_count ;; report <- r_take len ;; k required report) bs = Ok (a, rest) →
  ∃ required report mid, digest_ok required = true ∧ u32_ok (blen report) = true ∧
    k required report mid = Ok (a, rest).
Proof.
  intros H. apply rseq_ok_inv in H as (required & mid & Hr & H). apply rseq_ok_inv in H as (len & mid' & Hl & H).
  apply rseq_ok_inv in H as (report & mid'' & Ht & H). apply wire_exact in Hr as [Hr _].
  apply r_count_exact in Hl as (Hl & _). apply r_take_exact in Ht as [Ht _]. subst len.
  by exists required, report, mid''.
Qed.

Lemma record_yield bs r rest : r_record bs = Ok (r, rest) → record_ok r.
Proof.
  intros H. unfold r_record in H. apply rseq_ok_inv in H as ([ev inp] & mid & _ & H).
  apply rseq_ok_inv in H as (p & mid1 & Hp & H). apply rseq_ok_inv in H as (d & mid2 & Hd & H).
  apply rseq_ok_inv in H as (g & mid3 & Hg & H).
  apply wire_exact in Hp as [Hp _], Hd as [Hd _], Hg as [Hg _]. cbn [fst snd] in H.
  destruct ev; [|apply rlift_ok_inv in H as [H _]; by eapply new_yield].
  apply report_yield in H as (required & report & mid4 & Hq & Hl & H). destruct inp.
  - apply rseq_ok_inv in H as (i & mid5 & Hi & H). apply rlift_ok_inv in H as [H _].
    apply inputs_yield in Hi. by apply (inputs_record_yield p d g required report i).
  - apply rlift_ok_inv in H as [H _]. by apply (evidence_yield p d g required report) in H as [H _].
Qed.

(** C37: The record codec is exact.  [decode_canonical] accepts a byte string,
    and returns a record, exactly when the record is well formed (every part as
    its constructor leaves it, the proposal valid, the inputs ascending), the
    string is within the size limit, and it is the record's encoding.  So no
    two byte strings decode to one record, and an encoded record of at most
    1 MiB always reads back. *)
Theorem record_decode_iff bs r :
  decode_canonical bs = Ok r ↔
  record_ok r ∧ (blen bs <= MAX_EXPERT_COMMIT_RECORD_BYTES)%N ∧ encode_canonical r = bs.
Proof.
  unfold decode_canonical. split.
  - intros H. destruct (_ <? _)%N eqn:Hl; [done|]. apply rbind_ok_inv in H as ([r' rest] & Hr & H).
    result_inv. bool_prop. split; [by eapply record_yield|done].
  - intros (Hr & Hl & <-). rewrite (proj2 (N.ltb_ge _ _)) by done.
    rewrite record_reads by done. cbn [rbind]. by rewrite !bool_decide_eq_true_2.
Qed.

(** ** Outcomes are values of their type *)
Definition outcome_ok (o : ExpertOutcome) : bool :=
  id_ok (eo_pod o) && generation_ok (eo_generation o) && level_ok (eo_level o) &&
  base_model_ok (eo_base_model o) && nonzero_ok (eo_manifest_digest o) &&
  u64_ok (eo_state_version o) && negb (eo_state_version o =? 0)%N.

Lemma operand_outcome_ok state t : target_ok t = true → outcome_ok (operand_outcome state t) = true.
Proof.
  unfold target_ok, outcome_ok, operand_outcome, saturating_add_u64, u64_ok. intros H. cbn. bool_prop.
  ok_join; [apply N.ltb_lt; lia|apply negb_true_iff, N.eqb_neq; lia].
Qed.
Lemma result_outcome_ok s : spec_ok s = true → outcome_ok (result_outcome s) = true.
Proof. unfold spec_ok, outcome_ok, result_outcome. intros H. cbn. bool_prop. ok_join. Qed.

(** A record that decodes describes experts whose fields inhabit their types:
    the outcomes of its operation have canonical Pods, positive generations
    that fit, non-zero digests, and a version that is at least one and never
    wraps, even for an operand observed at the largest version. *)
Theorem decoded_outcomes_typed bs r :
  decode_canonical bs = Ok r → Forall (λ o, outcome_ok o = true) (outcomes (ep_op (ecr_proposal r))).
Proof.
  unfold decode_canonical. destruct (_ <? _)%N; [done|]. intros ([r' rest] & Hr & H)%rbind_ok_inv.
  result_inv. apply record_yield in Hr as (Hp & _). unfold proposal_ok in Hp. bool_prop.
  match goal with H : op_ok spec_ok _ = true |- _ => apply op_ok_iff in H as [Hs Hres] end.
  apply andb_true_iff in Hs as [Hs _], Hres as [Hres _]. rewrite forallb_forall in Hs, Hres.
  unfold outcomes. apply Forall_app. split.
  - destruct (operand_state _); [|done]. apply Forall_fmap, Forall_forall. intros t Ht.
    by apply operand_outcome_ok, Hs, list_elem_of_In.
  - apply Forall_fmap, Forall_forall. intros s Hin. by apply result_outcome_ok, Hres, list_elem_of_In.
Qed.

(** * What the identities of an expert operation bind

    [operation_id] and [proposal_id] are digests of length-prefixed encodings.
    The encodings are injective, so equal identities mean equal operations
    unless SHA-256 collides; and a request has the identity of every proposal
    that fulfils it, whatever digests training produced. *)

(** An encoder that can be followed by anything. *)
Class Prefix {A} (enc : A → list byte) (ok : A → bool) : Prop :=
  prefix : ∀ a b r r', ok a = true → ok b = true → enc a ++ r = enc b ++ r' → a = b ∧ r = r'.

(** What a reader reads back is injective. *)
#[export] Instance wire_prefix {A} (r : xreader A) w ok `{!Wire r w ok} : Prefix w ok.
Proof.
  intros a b x y Ha Hb H. pose proof (wire_reads a x Ha) as H1. rewrite H, (wire_reads b y Hb) in H1.
  by injection H1 as -> ->.
Qed.
#[export] Instance enc_u64 : Prefix w_u64 u64_ok := wire_prefix r_u64 w_u64 u64_ok.
#[export] Instance enc_digest : Prefix id digest_ok := wire_prefix r_array32 id digest_ok.

#[export] Instance enc_str : Prefix e_str id_ok.
Proof.
  assert (∀ s, id_ok s = true → u64_ok (slen s) = true) as Hu.
  { unfold id_ok, MAX_ID_BYTES, u64_ok. intros s H. bool_prop. apply N.ltb_lt. lia. }
  intros s t r r' Hs Ht H. unfold e_str in H. rewrite <-!app_assoc in H.
  apply (prefix _ _ _ _ (Hu s Hs) (Hu t Ht)) in H as [Hl H].
  apply app_inj_1 in H as [H ->]; [|unfold slen, blen in Hl; lia]. split; [|done]. by apply str_bytes_inj.
Qed.

(** A tag, different for different constructors. *)
Lemma tag_peel n m (r r' : list byte) :
  u64_ok n = true → u64_ok m = true → w_u64 n ++ r = w_u64 m ++ r' → n = m ∧ r = r'.
Proof. apply prefix. Qed.
Ltac peel_tag H :=
  rewrite <-?app_assoc in H; apply tag_peel in H as [? H]; [|reflexivity..]; try discriminate.

#[export] Instance enc_level : Prefix e_level level_ok.
Proof.
  intros [l i|] [l' i'|] r r' Ha Hb H; cbn [e_level level_ok] in *; peel_tag H; [|done].
  assert (∀ n, u16_ok n = true → u64_ok n = true) as Hu.
  { unfold u16_ok, u64_ok. intros n Hn. bool_prop. apply N.ltb_lt. lia. }
  bool_prop. rewrite <-?app_assoc in H. apply tag_peel in H as [-> H]; [|by apply Hu..].
  apply tag_peel in H as [-> ->]; [|by apply Hu..]. done.
Qed.
#[export] Instance enc_reason : Prefix e_reason (λ _, true).
Proof. intros [] [] r r' _ _ H; unfold e_reason in H; cbn [reason_code] in H; peel_tag H; by subst. Qed.
#[export] Instance enc_state : Prefix e_state (λ _, true).
Proof.
  intros a b r r' _ _ H.
  destruct a, b; cbn [e_state] in H; peel_tag H; try (by subst).
  by apply (prefix (Prefix := enc_reason)) in H as [-> ->].
Qed.

Lemma generation_u64 g : generation_ok g = true → u64_ok g = true.
Proof. by intros [? _]%generation_ok_iff. Qed.
Lemma nonzero_32 d : nonzero_ok d = true → digest_ok d = true.
Proof. by intros [? _]%nonzero_digest. Qed.
Create HintDb ids.
#[export] Hint Resolve generation_u64 nonzero_32 : ids.
(** A digest, or an identifier, generation or nested value. *)
Ltac peel_digest H :=
  rewrite <-?app_assoc in H; apply (prefix (Prefix := enc_digest)) in H as [? H]; [|by auto with ids..].
Ltac peel_u64 H :=
  rewrite <-?app_assoc in H; apply tag_peel in H as [? H]; [|by auto with ids..].
Ltac peel_id H :=
  rewrite <-?app_assoc in H; apply (prefix (Prefix := enc_str)) in H as [? H]; [|assumption..].

#[export] Instance enc_base_model : Prefix e_base_model base_model_ok.
Proof.
  unfold base_model_ok, e_base_model. intros [i d g] [i' d' g'] r r' Ha Hb H. fields. bool_prop.
  peel_id H. peel_digest H. peel_u64 H. by subst.
Qed.
Ltac peel_level H :=
  rewrite <-?app_assoc in H; apply (prefix (Prefix := enc_level)) in H as [? H]; [|assumption..].
Ltac peel_base H :=
  rewrite <-?app_assoc in H; apply (prefix (Prefix := enc_base_model)) in H as [? H]; [|assumption..].

#[export] Instance enc_spec : Prefix e_spec spec_ok.
Proof.
  unfold spec_ok, e_spec. intros [] [] r r' Ha Hb H. fields. bool_prop.
  peel_id H. peel_id H. peel_digest H. peel_level H. peel_base H. peel_u64 H. by subst.
Qed.
#[export] Instance enc_intent : Prefix e_intent intent_ok.
Proof.
  unfold intent_ok, e_intent. intros [p d l m g] [p' d' l' m' g'] r r' Ha Hb H.
  cbn [ri_project ri_pod ri_level ri_base_model ri_generation] in *. bool_prop.
  peel_id H. peel_id H. peel_level H. peel_base H. peel_u64 H. by subst.
Qed.
#[export] Instance enc_target : Prefix e_target target_ok.
Proof.
  unfold target_ok, e_target. intros [] [] r r' Ha Hb H. fields. bool_prop.
  peel_id H. peel_id H. peel_u64 H. peel_level H. peel_base H. peel_digest H.
  rewrite <-?app_assoc in H. apply (prefix (Prefix := enc_state)) in H as [? H]; [|done..].
  peel_u64 H. by subst.
Qed.

Lemma enc_join {A} (e : A → list byte) ok `{!Prefix e ok} l : ∀ k r r',
  length l = length k → forallb ok l = true → forallb ok k = true →
  mjoin (e <$> l) ++ r = mjoin (e <$> k) ++ r' → l = k ∧ r = r'.
Proof.
  induction l as [|a l IH]; intros [|b k] r r' Hlen Hl Hk H; try done.
  cbn [forallb] in *. bool_prop.
  change ((e a ++ mjoin (e <$> l)) ++ r = (e b ++ mjoin (e <$> k)) ++ r') in H.
  rewrite <-!app_assoc in H. apply prefix in H as [-> H]; [|done..].
  apply IH in H as [-> ->]; auto.
Qed.
#[export] Instance enc_list {A} (e : A → list byte) ok `{!Prefix e ok} : Prefix (e_list e) (list_ok ok).
Proof.
  intros l k r r' Hl Hk H. unfold e_list, list_ok in *. bool_prop. rewrite <-!app_assoc in H.
  assert (∀ n, u32_ok n = true → u64_ok n = true) as Hu.
  { unfold u32_ok, u64_ok. intros n Hn. bool_prop. apply N.ltb_lt. lia. }
  apply tag_peel in H as [Hlen H]; [|by apply Hu..].
  apply (enc_join e ok) in H as [-> ->]; try done. unfold blen in Hlen. lia.
Qed.

(** ** Requests *)
Definition request_ok (q : ExpertOperationRequest) : bool :=
  id_ok (eor_project q) && proposer_ok (eor_proposer q) && u64_ok (eor_observed_at q) &&
  nonzero_ok (eor_rationale q) && op_ok intent_ok (eor_op q).

Lemma op_kind_peel {R S} (o : Operation R) (o' : Operation S) (r r' : list byte) :
  w_u64 (op_kind_code (op_kind o)) ++ r = w_u64 (op_kind_code (op_kind o')) ++ r' →
  op_kind o = op_kind o' ∧ r = r'.
Proof. intros H. apply tag_peel in H as [H ->]; [|by destruct o|by destruct o']. split; [|done]. by destruct o, o'. Qed.

Lemma requested_op_inj (o o' : RequestedOp) (r r' : list byte) :
  op_ok intent_ok o = true → op_ok intent_ok o' = true →
  w_u64 (op_kind_code (op_kind o)) ++ e_targets (sources o) ++
    match o with RetireOp _ reason => e_reason reason | _ => [] end ++ e_list e_intent (results o) ++ r =
  w_u64 (op_kind_code (op_kind o')) ++ e_targets (sources o') ++
    match o' with RetireOp _ reason => e_reason reason | _ => [] end ++ e_list e_intent (results o') ++ r' →
  o = o' ∧ r = r'.
Proof.
  intros [Hs Hr]%op_ok_iff [Hs' Hr']%op_ok_iff H. apply op_kind_peel in H as [Hk H].
  apply (prefix (Prefix := enc_list e_target target_ok)) in H as [Hsrc H]; [|done..].
  destruct o as [x|l x|t xs|t|t x|l|t x], o' as [y|k y|u ys|u|u y|k|u y]; try discriminate Hk;
    cbn [app] in H.
  7: apply (prefix (Prefix := enc_reason)) in H as [? H]; [|done..].
  all: apply (prefix (Prefix := enc_list e_intent intent_ok)) in H as [Hres ->]; [|done..];
    cbn [sources results] in *; split; [|done]; simplify_eq; try done.
  destruct x, y; cbn in Hres; by simplify_eq.
Qed.

Lemma operation_bytes_inj q q' :
  request_ok q = true → request_ok q' = true → operation_bytes q = operation_bytes q' → q = q'.
Proof.
  unfold request_ok, proposer_ok, operation_bytes.
  destruct q as [p [pp pd pg] o op d], q' as [p' [pp' pd' pg'] o' op' d'].
  cbn [eor_project eor_proposer eor_observed_at eor_op eor_rationale]. fields. intros Ha Hb H. bool_prop.
  apply app_inv_head in H. peel_id H. peel_id H. peel_id H. peel_u64 H. peel_u64 H. peel_digest H.
  rewrite <-(app_nil_r (e_list e_intent (results op))), <-(app_nil_r (e_list e_intent (results op'))) in H.
  apply requested_op_inj in H as [-> _]; [|done..]. by subst.
Qed.

(** ** Proposals *)
Lemma structural_op_inj (o o' : StructuralOp) (r r' : list byte) :
  op_ok spec_ok o = true → op_ok spec_ok o' = true → e_op o ++ r = e_op o' ++ r' → o = o' ∧ r = r'.
Proof.
  intros [Hs Hr]%op_ok_iff [Hs' Hr']%op_ok_iff H. unfold e_op in H. rewrite <-!app_assoc in H.
  apply op_kind_peel in H as [Hk H].
  destruct o as [x|l x|t xs|t|t x|l|t x], o' as [y|k y|u ys|u|u y|k|u y]; try discriminate Hk;
    cbn [sources results] in *; rewrite ?list_ok_one in *; rewrite <-?app_assoc in H;
    unfold e_targets in H;
    repeat match type of H with
    | e_list e_target _ ++ _ = _ => apply (prefix (Prefix := enc_list e_target target_ok)) in H as [-> H]; [|done..]
    | e_list e_spec _ ++ _ = _ => apply (prefix (Prefix := enc_list e_spec spec_ok)) in H as [-> H]; [|done..]
    | e_target _ ++ _ = _ => apply (prefix (Prefix := enc_target)) in H as [-> H]; [|done..]
    | e_spec _ ++ _ = _ => apply (prefix (Prefix := enc_spec)) in H as [-> H]; [|done..]
    | e_reason _ ++ _ = _ => apply (prefix (Prefix := enc_reason)) in H as [-> H]; [|done..]
    end; try done.
  destruct x, y; cbn [option_list option_rect] in *; rewrite ?list_ok_one in *; peel_tag H; [|by subst].
  by apply (prefix (Prefix := enc_spec)) in H as [-> ->].
Qed.

Lemma proposal_parts_ok p : proposal_ok p = true → id_ok (ep_project p) = true.
Proof. unfold proposal_ok. intros H. bool_prop. rewrite is_ok_unit in *. by eapply header_project. Qed.

Lemma proposal_bytes_inj p q :
  proposal_ok p = true → proposal_ok q = true → proposal_bytes p = proposal_bytes q → p = q.
Proof.
  intros Hp Hq. pose proof (proposal_parts_ok p Hp) as Hip. pose proof (proposal_parts_ok q Hq) as Hiq.
  revert Hp Hq Hip Hiq. unfold proposal_ok, proposer_ok, proposal_bytes.
  destruct p as [p [pp pd pg] o op d], q as [p' [pp' pd' pg'] o' op' d'].
  cbn [ep_project ep_proposer ep_observed_at ep_op ep_rationale]. fields. intros Ha Hb Hip Hiq H. bool_prop.
  apply app_inv_head in H. peel_id H. peel_id H. peel_id H. peel_u64 H. peel_u64 H. peel_digest H.
  rewrite <-(app_nil_r (e_op op)), <-(app_nil_r (e_op op')) in H.
  apply structural_op_inj in H as [-> _]; [|done..]. by subst.
Qed.

(** The request of a proposal is well formed. *)
Lemma intent_ok_spec s : spec_ok s = true → intent_ok (intent s) = true.
Proof. unfold spec_ok, intent_ok. intros H. cbn. bool_prop. ok_join. Qed.
Lemma request_of_proposal p : proposal_ok p = true → request_ok (operation_request p) = true.
Proof.
  intros Hp. pose proof (proposal_parts_ok p Hp) as Hi. unfold proposal_ok in Hp. bool_prop.
  unfold request_ok. cbn [operation_request eor_project eor_proposer eor_observed_at eor_op eor_rationale].
  match goal with H : op_ok spec_ok _ = true |- _ => apply op_ok_iff in H as [Hs Hr] end.
  ok_join. apply op_ok_iff. destruct (from_structural_parts (ep_op p)) as (_ & -> & ->). split; [done|].
  apply andb_true_iff in Hr as [Hr Hl]. apply andb_true_iff.
  split; [|by unfold blen in *; rewrite length_fmap]. rewrite forallb_forall in *. intros x (s & <- & Hs')%in_map_iff. by apply intent_ok_spec, Hr.
Qed.

Definition collides (sha256 : list byte → list byte) (x y : list byte) : Prop :=
  x ≠ y ∧ sha256 x = sha256 y.

(** Before training, an operation is identified by everything but the
    digests that training produces; after it, by everything.  Two proposals
    with one [operation_id] fulfil the same request, and two with one
    [proposal_id] are the same proposal, unless the byte strings that were
    hashed are a collision of SHA-256. *)
Theorem expert_ids_bind sha256 p q :
  proposal_ok p = true → proposal_ok q = true →
  (operation_id sha256 p = operation_id sha256 q →
   operation_request p = operation_request q ∨
   collides sha256 (operation_bytes (operation_request p)) (operation_bytes (operation_request q))) ∧
  (proposal_id sha256 p = proposal_id sha256 q →
   p = q ∨ collides sha256 (proposal_bytes p) (proposal_bytes q)).
Proof.
  intros Hp Hq. split; intros H.
  - destruct (decide (operation_bytes (operation_request p) = operation_bytes (operation_request q))) as [He|He].
    + left. apply operation_bytes_inj in He; [done|by apply request_of_proposal..].
    + by right.
  - destruct (decide (proposal_bytes p = proposal_bytes q)) as [He|He]; [left; by apply proposal_bytes_inj|by right].
Qed.

(** Two trainings of one request. *)
Lemma expert_ids_bind_witness :
  operation_request (demo_proposal demo_digest) = operation_request (demo_proposal (replicate 32 x08)) ∨
  collides id (operation_bytes (operation_request (demo_proposal demo_digest)))
              (operation_bytes (operation_request (demo_proposal (replicate 32 x08)))).
Proof.
  destruct (expert_ids_bind id (demo_proposal demo_digest) (demo_proposal (replicate 32 x08))) as [H _];
    [vm_compute; reflexivity|vm_compute; reflexivity|]. apply H. vm_compute. reflexivity.
Defined.

(** The record of the merge, with evidence and inputs, reads back. *)
Definition demo_record : ExpertCommitRecord :=
  {| ecr_proposal := demo_proposal demo_digest; ecr_evidence_digest := demo_digest; ecr_gate_epoch := 5;
     ecr_evidence := Some {| ee_required_gate_config_digest := demo_digest; ee_report := [x01] |};
     ecr_inputs := Some {| ei_training := [from_base_model demo_base]; ei_evaluation := [] |} |}.
Example demo_record_reads_back : decode_canonical (encode_canonical demo_record) = Ok demo_record.
Proof. vm_compute. reflexivity. Qed.

Lemma decoded_outcomes_typed_witness :
  Forall (λ o, outcome_ok o = true) (outcomes (demo_merge demo_digest)).
Proof.
  apply (decoded_outcomes_typed (encode_canonical demo_record) demo_record). vm_compute. reflexivity.
Defined.
