(* ===== verification/LedgerEvents.v ===== *)
(** * Ledger events: crates/ptr-ledger/src/lib.rs, the data

    The facts the ledger records.  [LedgerEvent] has the constructors of the
    source; a variant with named fields is a constructor over a record of those
    fields.  Codes on the wire are explicit in the source and here: no encoding
    depends on the order in which a type lists its cases. *)

From S2P Require Import Prelude Bytes Types.
From stdpp Require Import options.

(** ** Closed vocabularies and their codes *)

Inductive ExpertAuthorityKind := GateConfig | Evaluator.

#[export] Instance ExpertAuthorityKind_eq_dec : EqDecision ExpertAuthorityKind.
Proof. solve_decision. Defined.

Definition ExpertAuthorityKind_code (x : ExpertAuthorityKind) : N :=
  match x with
  | GateConfig => 0
  | Evaluator => 1
  end.

Definition ExpertAuthorityKind_from_code (code : N) : option ExpertAuthorityKind :=
  match code with
  | 0 => Some GateConfig
  | 1 => Some Evaluator
  | _ => None
  end%N.

Inductive ExpertAuthorityClass := Class_Revoke | TighteningRotation | NonTightening.

#[export] Instance ExpertAuthorityClass_eq_dec : EqDecision ExpertAuthorityClass.
Proof. solve_decision. Defined.

Definition ExpertAuthorityClass_code (x : ExpertAuthorityClass) : N :=
  match x with
  | Class_Revoke => 0
  | TighteningRotation => 1
  | NonTightening => 2
  end.

Definition ExpertAuthorityClass_from_code (code : N) : option ExpertAuthorityClass :=
  match code with
  | 0 => Some Class_Revoke
  | 1 => Some TighteningRotation
  | 2 => Some NonTightening
  | _ => None
  end%N.

Definition fences_earlier_evidence (c : ExpertAuthorityClass) : bool :=
  match c with
  | Class_Revoke | TighteningRotation => true
  | NonTightening => false
  end.

Inductive KvTaintSubjectKind := Subject_Action | Derivation | Content | Subject_PodOutput | Subject_Request.

#[export] Instance KvTaintSubjectKind_eq_dec : EqDecision KvTaintSubjectKind.
Proof. solve_decision. Defined.

Definition KvTaintSubjectKind_code (x : KvTaintSubjectKind) : N :=
  match x with
  | Subject_Action => 0
  | Derivation => 1
  | Content => 2
  | Subject_PodOutput => 3
  | Subject_Request => 4
  end.

Definition KvTaintSubjectKind_from_code (code : N) : option KvTaintSubjectKind :=
  match code with
  | 0 => Some Subject_Action
  | 1 => Some Derivation
  | 2 => Some Content
  | 3 => Some Subject_PodOutput
  | 4 => Some Subject_Request
  | _ => None
  end%N.

Inductive ExpertFenceResume := Serving | Frozen.

#[export] Instance ExpertFenceResume_eq_dec : EqDecision ExpertFenceResume.
Proof. solve_decision. Defined.

Definition ExpertFenceResume_code (x : ExpertFenceResume) : N :=
  match x with
  | Serving => 0
  | Frozen => 1
  end.

Definition ExpertFenceResume_from_code (code : N) : option ExpertFenceResume :=
  match code with
  | 0 => Some Serving
  | 1 => Some Frozen
  | _ => None
  end%N.

Inductive ExpertFenceAction := Fence | Readmit | Escalate | Retire.

#[export] Instance ExpertFenceAction_eq_dec : EqDecision ExpertFenceAction.
Proof. solve_decision. Defined.

Definition ExpertFenceAction_code (x : ExpertFenceAction) : N :=
  match x with
  | Fence => 0
  | Readmit => 1
  | Escalate => 2
  | Retire => 3
  end.

Definition ExpertFenceAction_from_code (code : N) : option ExpertFenceAction :=
  match code with
  | 0 => Some Fence
  | 1 => Some Readmit
  | 2 => Some Escalate
  | 3 => Some Retire
  | _ => None
  end%N.

Inductive ExpertFenceCause := InputRevoked | AuthorityQuarantine.

#[export] Instance ExpertFenceCause_eq_dec : EqDecision ExpertFenceCause.
Proof. solve_decision. Defined.

Definition ExpertFenceCause_code (x : ExpertFenceCause) : N :=
  match x with
  | InputRevoked => 0
  | AuthorityQuarantine => 1
  end.

Definition ExpertFenceCause_from_code (code : N) : option ExpertFenceCause :=
  match code with
  | 0 => Some InputRevoked
  | 1 => Some AuthorityQuarantine
  | _ => None
  end%N.

Inductive ExpertOpKind := Op_Birth | Op_Merge | Op_Split | Op_Freeze | Op_Reactivate | Op_Prune | Op_Retire.

#[export] Instance ExpertOpKind_eq_dec : EqDecision ExpertOpKind.
Proof. solve_decision. Defined.

Definition ExpertOpKind_code (x : ExpertOpKind) : N :=
  match x with
  | Op_Birth => 0
  | Op_Merge => 1
  | Op_Split => 2
  | Op_Freeze => 3
  | Op_Reactivate => 4
  | Op_Prune => 5
  | Op_Retire => 6
  end.

Definition ExpertOpKind_from_code (code : N) : option ExpertOpKind :=
  match code with
  | 0 => Some Op_Birth
  | 1 => Some Op_Merge
  | 2 => Some Op_Split
  | 3 => Some Op_Freeze
  | 4 => Some Op_Reactivate
  | 5 => Some Op_Prune
  | 6 => Some Op_Retire
  | _ => None
  end%N.

(** ** Limits *)
Definition MAX_INPUT_IDENTITY_BYTES : N := 256.
Definition MAX_EGRESS_TARGET_BYTES : N := 256.
Definition MAX_POD_HEAD_IDENTITY_BYTES : N := 256.
Definition MAX_KV_TAINT_SUBJECTS : N := 16.
Definition MAX_EXPERT_RECORD_BYTES : N := N.shiftl 1 20.
Definition MAX_ATTESTATION_VERIFIERS : N := 16.
Definition MAX_ATTESTATION_FINDINGS : N := 32.
Definition MAX_REBASED_KEYS : N := 16384.
Definition MAX_HYPOTHESIS_PROVENANCE : N := 1024.
Definition MAX_HYPOTHESIS_DEPENDENCIES : N := 1024.
Definition MAX_RETAINED_RESPONSE : N := 1024 * 1024.

(** ** Parts of events *)
Inductive EgressRefusalSource :=
| Source_Pod (address : PodRevisionAddress)
| Overflow.

Inductive InputInvalidationKind :=
| Kind_Revoked
| Superseded (old_generation new_generation : Generation) (new_digest replacement_ref : Digest).

Definition InputInvalidationKind_code (k : InputInvalidationKind) : N :=
  match k with
  | Kind_Revoked => 0
  | Superseded _ _ _ _ => 1
  end.

Inductive KvTaintChange :=
| Record_taint (report_digest recipe_digest : Digest)
| Clear_taint (recipe_digest recompute_digest : Digest).

Record ExpertFenceRevocation := {
  efr_subject : string;
  efr_generation : Generation
}.

Record ExpertFenceEvidence := {
  efe_gate_epoch : N;
  efe_required_gate_config_digest : Digest;
  efe_report : list byte
}.

Record Attestation := {
  at_required : VerificationLevel;
  at_level : VerificationLevel;
  at_verifiers : list string;
  at_findings : list string
}.

Inductive MergeAuthorityRecord :=
| Triage (policy_version : string) (score_bits : N)
| Reviewed (reviewer : string).

Record MergeRecord := {
  mr_branch : string;
  mr_author : string;
  mr_seal : Digest;
  mr_plan : Digest;
  mr_dependencies : Digest;
  mr_rebased : gset string;
  mr_verification : Attestation;
  mr_authority : MergeAuthorityRecord
}.

Inductive SemanticOrigin :=
| Legacy
| Origin_Request (request : string)
| Origin_PodOutput (request pod : string) (level : VerificationLevel)
| Origin_PodCandidate (request pod : string) (output_digest : Digest) (level : VerificationLevel)
| Origin_Host (principal : string) (verification : Attestation)
| Origin_Merge (merge : MergeRecord).

(** ** The variants with named fields *)
Record SemanticDeltaCommitted := {
  sdc_base_revision : Revision;
  sdc_revision : Revision;
  sdc_encoded_delta : list byte;
  sdc_origin : SemanticOrigin
}.

Record CapsuleCommitted := {
  cc_project : string;
  cc_capsule : string;
  cc_generation : N
}.

Record CapsuleSuperseded := {
  cs_capsule : string;
  cs_old : N;
  cs_new : N
}.

Record Revoked := {
  rv_subject : string;
  rv_generation : N
}.

Record HardConstraintCommitted := {
  hcc_key : string;
  hcc_generation : N
}.

Record VerifierAttested := {
  va_subject : string;
  va_passed : bool
}.

Record ProcedurePromoted := {
  pp_id : string;
  pp_generation : N
}.

Record ProcedureRevoked := {
  pr_id : string;
  pr_generation : N
}.

Record SnapshotCommitted := {
  sc_revision : N;
  sc_covers : N
}.

Record EffectAttempted := {
  ea_key : option string;
  ea_project : string;
  ea_principal : string;
  ea_target : string;
  ea_operation : string;
  ea_capability : string;
  ea_effect : Effect;
  ea_generation : N;
  ea_revision : N;
  ea_verification : VerificationLevel;
  ea_action_digest : Digest
}.

Record EffectSettled := {
  es_attempt : N;
  es_response : option (list byte);
  es_response_digest : Digest
}.

Record EffectReconciled := {
  er_attempt : N;
  er_applied : bool;
  er_evidence : string
}.

Record ProtectedStateCommitted := {
  psc_domain : N;
  psc_logical_id : string;
  psc_generation : N;
  psc_revision : N;
  psc_plaintext_digest : Digest;
  psc_ciphertext_digest : Digest;
  psc_anchor_digest : Digest
}.

Record ExecutionManifestAdmitted := {
  ema_manifest_digest : Digest;
  ema_generation : N;
  ema_revision : N;
  ema_policy_revision : N;
  ema_manifest : list byte
}.

Record ExecutionManifestRevoked := {
  emr_manifest_digest : Digest;
  emr_generation : N;
  emr_revision : N
}.

Record PolicyBundleActivated := {
  pba_revision : N;
  pba_key_id : string;
  pba_bundle_digest : Digest;
  pba_bundle : list byte
}.

Record PolicyBundleRevoked := {
  pbr_revision : N;
  pbr_bundle_digest : Digest;
  pbr_reason : string
}.

Record SessionRevoked := {
  sr_session_id : string;
  sr_reason : string
}.

Record TierBackendLifecycle := {
  tbl_backend_id : string;
  tbl_tier : N;
  tbl_state : N;
  tbl_revision : N;
  tbl_event_digest : Digest
}.

Record TierObjectCommitted := {
  toc_root_digest : Digest;
  toc_generation : N;
  toc_revision : N;
  toc_manifest : list byte
}.

Record TierReplicaLifecycle := {
  trl_root_digest : Digest;
  trl_backend_id : string;
  trl_tier : N;
  trl_state : N;
  trl_generation : N;
  trl_revision : N;
  trl_event_digest : Digest
}.

Record PodEvidenceCommitted := {
  pec_session_id : string;
  pec_trace_id : string;
  pec_manifest_digest : Digest;
  pec_artifact_digest : Digest;
  pec_generation : N;
  pec_revision : N;
  pec_bundle_digest : Digest;
  pec_bundle : list byte
}.

Record PodOutputAdmitted := {
  poa_request_id : string;
  poa_session_id : string;
  poa_scope_id : string;
  poa_pod_id : string;
  poa_manifest_digest : Digest;
  poa_artifact_digest : Digest;
  poa_generation : N;
  poa_revision : N;
  poa_output_kind : N;
  poa_output_type : string;
  poa_output_digest : Digest;
  poa_verification : Attestation
}.

Record PodHypothesisCommitted := {
  phc_request_id : string;
  phc_session_id : string;
  phc_scope_id : string;
  phc_branch_id : string;
  phc_pod_id : string;
  phc_manifest_digest : Digest;
  phc_artifact_digest : Digest;
  phc_generation : N;
  phc_revision : N;
  phc_output_type : string;
  phc_output_digest : Digest;
  phc_payload : list byte;
  phc_provenance : list (string * option string);
  phc_dependencies : list Digest;
  phc_confidence_bits : N;
  phc_latency_millis : N;
  phc_verification : Attestation
}.

Record ExpertStructuralCommitted := {
  esc_project : string;
  esc_op_kind : ExpertOpKind;
  esc_proposal_id : Digest;
  esc_operation_id : Digest;
  esc_evidence_digest : Digest;
  esc_record : list byte
}.

Record ExpertFenceCommitted := {
  efc_project : string;
  efc_pod : string;
  efc_action : ExpertFenceAction;
  efc_cause : ExpertFenceCause;
  efc_resume : ExpertFenceResume;
  efc_generation : N;
  efc_expected_state_version : N;
  efc_epoch : N;
  efc_revocation : option ExpertFenceRevocation;
  efc_evidence : option ExpertFenceEvidence
}.

Record KvTaintCommitted := {
  ktc_subjects : list (KvTaintSubjectKind * Digest);
  ktc_change : KvTaintChange
}.

Record InputInvalidated := {
  ii_input : string;
  ii_generation : N;
  ii_binding_digest : Digest;
  ii_kind : InputInvalidationKind;
  ii_fence_count : N;
  ii_fence_digest : Digest
}.

Record ExpertAuthorityChanged := {
  eac_kind : ExpertAuthorityKind;
  eac_id_digest : Digest;
  eac_epoch : N;
  eac_class : ExpertAuthorityClass;
  eac_fence_count : N;
  eac_fence_digest : Digest
}.

Record EgressRefused := {
  egr_trace_id : string;
  egr_source : EgressRefusalSource;
  egr_target : string;
  egr_count : N;
  egr_saturated : bool;
  egr_reason : EgressRefusalReason
}.

Record PodHeadAdvanced := {
  pha_project : string;
  pha_identity : string;
  pha_old : option PodRevisionAddress;
  pha_new : PodRevisionAddress
}.

(** ** Events *)
Inductive LedgerEvent :=
| Ev_SemanticDeltaCommitted (r : SemanticDeltaCommitted)
| Ev_CapsuleCommitted (r : CapsuleCommitted)
| Ev_CapsuleSuperseded (r : CapsuleSuperseded)
| Ev_Revoked (r : Revoked)
| Ev_HardConstraintCommitted (r : HardConstraintCommitted)
| Ev_VerifierAttested (r : VerifierAttested)
| Ev_ProcedurePromoted (r : ProcedurePromoted)
| Ev_ProcedureRevoked (r : ProcedureRevoked)
| Ev_SnapshotCommitted (r : SnapshotCommitted)
| Ev_EffectAttempted (r : EffectAttempted)
| Ev_EffectSettled (r : EffectSettled)
| Ev_EffectReconciled (r : EffectReconciled)
| Ev_ScopeLifecycle (r : ScopeLifecycleEvent)
| Ev_ProtectedStateCommitted (r : ProtectedStateCommitted)
| Ev_MeshTunnelLifecycle (r : MeshTunnelLifecycleEvent)
| Ev_ExecutionManifestAdmitted (r : ExecutionManifestAdmitted)
| Ev_ExecutionManifestRevoked (r : ExecutionManifestRevoked)
| Ev_PolicyBundleActivated (r : PolicyBundleActivated)
| Ev_PolicyBundleRevoked (r : PolicyBundleRevoked)
| Ev_SessionRevoked (r : SessionRevoked)
| Ev_TierBackendLifecycle (r : TierBackendLifecycle)
| Ev_TierObjectCommitted (r : TierObjectCommitted)
| Ev_TierReplicaLifecycle (r : TierReplicaLifecycle)
| Ev_PodEvidenceCommitted (r : PodEvidenceCommitted)
| Ev_PodOutputAdmitted (r : PodOutputAdmitted)
| Ev_PodHypothesisCommitted (r : PodHypothesisCommitted)
| Ev_ExpertStructuralCommitted (r : ExpertStructuralCommitted)
| Ev_ExpertFenceCommitted (r : ExpertFenceCommitted)
| Ev_KvTaintCommitted (r : KvTaintCommitted)
| Ev_InputInvalidated (r : InputInvalidated)
| Ev_ExpertAuthorityChanged (r : ExpertAuthorityChanged)
| Ev_EgressRefused (r : EgressRefused)
| Ev_PodHeadAdvanced (r : PodHeadAdvanced).

Record CommittedEvent := {
  ce_index : CommitIndex;
  ce_event : LedgerEvent
}.

(** ** Values that inhabit their Rust types *)
Definition attestation_ok (a : Attestation) : bool :=
  forallb str_ok (at_verifiers a) && forallb str_ok (at_findings a).

Definition authority_ok (a : MergeAuthorityRecord) : bool :=
  match a with
  | Triage policy_version score_bits => str_ok policy_version && u32_ok score_bits
  | Reviewed reviewer => str_ok reviewer
  end.

Definition merge_ok (m : MergeRecord) : bool :=
  str_ok (mr_branch m) && str_ok (mr_author m) && digest_ok (mr_seal m) &&
  digest_ok (mr_plan m) && digest_ok (mr_dependencies m) &&
  forallb str_ok (bset_list (mr_rebased m)) && attestation_ok (mr_verification m) &&
  authority_ok (mr_authority m).

Definition origin_ok (o : SemanticOrigin) : bool :=
  match o with
  | Legacy => true
  | Origin_Request request => str_ok request
  | Origin_PodOutput request pod _ => str_ok request && str_ok pod
  | Origin_PodCandidate request pod d _ => str_ok request && str_ok pod && digest_ok d
  | Origin_Host principal a => str_ok principal && attestation_ok a
  | Origin_Merge m => merge_ok m
  end.

Definition fence_revocation_ok (r : ExpertFenceRevocation) : bool :=
  str_ok (efr_subject r) && u64_ok (efr_generation r).
Definition fence_evidence_ok (e : ExpertFenceEvidence) : bool :=
  u64_ok (efe_gate_epoch e) && digest_ok (efe_required_gate_config_digest e).
Definition subjects_ok (l : list (KvTaintSubjectKind * Digest)) : bool :=
  forallb (λ s, digest_ok s.2) l.
Definition taint_change_ok (c : KvTaintChange) : bool :=
  match c with
  | Record_taint d d' | Clear_taint d d' => digest_ok d && digest_ok d'
  end.
Definition invalidation_kind_ok (k : InputInvalidationKind) : bool :=
  match k with
  | Kind_Revoked => true
  | Superseded old new d d' => u64_ok old && u64_ok new && digest_ok d && digest_ok d'
  end.
Definition refusal_source_ok (s : EgressRefusalSource) : bool :=
  match s with
  | Source_Pod a => revision_address_ok a
  | Overflow => true
  end.
Definition provenance_ok (l : list (string * option string)) : bool :=
  forallb (λ p, str_ok p.1 && opt_ok str_ok p.2) l.
Definition dependencies_ok (l : list Digest) : bool := forallb digest_ok l.

Definition SemanticDeltaCommitted_ok (r : SemanticDeltaCommitted) : bool :=
  u64_ok (sdc_base_revision r) && u64_ok (sdc_revision r) && origin_ok (sdc_origin r).

Definition CapsuleCommitted_ok (r : CapsuleCommitted) : bool :=
  str_ok (cc_project r) && str_ok (cc_capsule r) && u64_ok (cc_generation r).

Definition CapsuleSuperseded_ok (r : CapsuleSuperseded) : bool :=
  str_ok (cs_capsule r) && u64_ok (cs_old r) && u64_ok (cs_new r).

Definition Revoked_ok (r : Revoked) : bool :=
  str_ok (rv_subject r) && u64_ok (rv_generation r).

Definition HardConstraintCommitted_ok (r : HardConstraintCommitted) : bool :=
  str_ok (hcc_key r) && u64_ok (hcc_generation r).

Definition VerifierAttested_ok (r : VerifierAttested) : bool :=
  str_ok (va_subject r).

Definition ProcedurePromoted_ok (r : ProcedurePromoted) : bool :=
  str_ok (pp_id r) && u64_ok (pp_generation r).

Definition ProcedureRevoked_ok (r : ProcedureRevoked) : bool :=
  str_ok (pr_id r) && u64_ok (pr_generation r).

Definition SnapshotCommitted_ok (r : SnapshotCommitted) : bool :=
  u64_ok (sc_revision r) && u64_ok (sc_covers r).

Definition EffectAttempted_ok (r : EffectAttempted) : bool :=
  opt_ok str_ok (ea_key r) && str_ok (ea_project r) && str_ok (ea_principal r) &&
  str_ok (ea_target r) && str_ok (ea_operation r) && str_ok (ea_capability r) &&
  u64_ok (ea_generation r) && u64_ok (ea_revision r) && digest_ok (ea_action_digest r).

Definition EffectSettled_ok (r : EffectSettled) : bool :=
  u64_ok (es_attempt r) && digest_ok (es_response_digest r).

Definition EffectReconciled_ok (r : EffectReconciled) : bool :=
  u64_ok (er_attempt r) && str_ok (er_evidence r).

Definition ProtectedStateCommitted_ok (r : ProtectedStateCommitted) : bool :=
  u8_ok (psc_domain r) && str_ok (psc_logical_id r) && u64_ok (psc_generation r) &&
  u64_ok (psc_revision r) && digest_ok (psc_plaintext_digest r) &&
  digest_ok (psc_ciphertext_digest r) && digest_ok (psc_anchor_digest r).

Definition ExecutionManifestAdmitted_ok (r : ExecutionManifestAdmitted) : bool :=
  digest_ok (ema_manifest_digest r) && u64_ok (ema_generation r) && u64_ok (ema_revision r) &&
  u64_ok (ema_policy_revision r).

Definition ExecutionManifestRevoked_ok (r : ExecutionManifestRevoked) : bool :=
  digest_ok (emr_manifest_digest r) && u64_ok (emr_generation r) && u64_ok (emr_revision r).

Definition PolicyBundleActivated_ok (r : PolicyBundleActivated) : bool :=
  u64_ok (pba_revision r) && str_ok (pba_key_id r) && digest_ok (pba_bundle_digest r).

Definition PolicyBundleRevoked_ok (r : PolicyBundleRevoked) : bool :=
  u64_ok (pbr_revision r) && digest_ok (pbr_bundle_digest r) && str_ok (pbr_reason r).

Definition SessionRevoked_ok (r : SessionRevoked) : bool :=
  str_ok (sr_session_id r) && str_ok (sr_reason r).

Definition TierBackendLifecycle_ok (r : TierBackendLifecycle) : bool :=
  str_ok (tbl_backend_id r) && u8_ok (tbl_tier r) && u8_ok (tbl_state r) &&
  u64_ok (tbl_revision r) && digest_ok (tbl_event_digest r).

Definition TierObjectCommitted_ok (r : TierObjectCommitted) : bool :=
  digest_ok (toc_root_digest r) && u64_ok (toc_generation r) && u64_ok (toc_revision r).

Definition TierReplicaLifecycle_ok (r : TierReplicaLifecycle) : bool :=
  digest_ok (trl_root_digest r) && str_ok (trl_backend_id r) && u8_ok (trl_tier r) &&
  u8_ok (trl_state r) && u64_ok (trl_generation r) && u64_ok (trl_revision r) &&
  digest_ok (trl_event_digest r).

Definition PodEvidenceCommitted_ok (r : PodEvidenceCommitted) : bool :=
  str_ok (pec_session_id r) && str_ok (pec_trace_id r) && digest_ok (pec_manifest_digest r) &&
  digest_ok (pec_artifact_digest r) && u64_ok (pec_generation r) && u64_ok (pec_revision r) &&
  digest_ok (pec_bundle_digest r).

Definition PodOutputAdmitted_ok (r : PodOutputAdmitted) : bool :=
  str_ok (poa_request_id r) && str_ok (poa_session_id r) && str_ok (poa_scope_id r) &&
  str_ok (poa_pod_id r) && digest_ok (poa_manifest_digest r) &&
  digest_ok (poa_artifact_digest r) && u64_ok (poa_generation r) && u64_ok (poa_revision r) &&
  u8_ok (poa_output_kind r) && str_ok (poa_output_type r) && digest_ok (poa_output_digest r) &&
  attestation_ok (poa_verification r).

Definition PodHypothesisCommitted_ok (r : PodHypothesisCommitted) : bool :=
  str_ok (phc_request_id r) && str_ok (phc_session_id r) && str_ok (phc_scope_id r) &&
  str_ok (phc_branch_id r) && str_ok (phc_pod_id r) && digest_ok (phc_manifest_digest r) &&
  digest_ok (phc_artifact_digest r) && u64_ok (phc_generation r) && u64_ok (phc_revision r) &&
  str_ok (phc_output_type r) && digest_ok (phc_output_digest r) &&
  provenance_ok (phc_provenance r) && dependencies_ok (phc_dependencies r) &&
  u32_ok (phc_confidence_bits r) && u64_ok (phc_latency_millis r) &&
  attestation_ok (phc_verification r).

Definition ExpertStructuralCommitted_ok (r : ExpertStructuralCommitted) : bool :=
  str_ok (esc_project r) && digest_ok (esc_proposal_id r) && digest_ok (esc_operation_id r) &&
  digest_ok (esc_evidence_digest r).

Definition ExpertFenceCommitted_ok (r : ExpertFenceCommitted) : bool :=
  str_ok (efc_project r) && str_ok (efc_pod r) && u64_ok (efc_generation r) &&
  u64_ok (efc_expected_state_version r) && u64_ok (efc_epoch r) &&
  opt_ok fence_revocation_ok (efc_revocation r) && opt_ok fence_evidence_ok (efc_evidence r).

Definition KvTaintCommitted_ok (r : KvTaintCommitted) : bool :=
  subjects_ok (ktc_subjects r) && taint_change_ok (ktc_change r).

Definition InputInvalidated_ok (r : InputInvalidated) : bool :=
  str_ok (ii_input r) && u64_ok (ii_generation r) && digest_ok (ii_binding_digest r) &&
  invalidation_kind_ok (ii_kind r) && u32_ok (ii_fence_count r) &&
  digest_ok (ii_fence_digest r).

Definition ExpertAuthorityChanged_ok (r : ExpertAuthorityChanged) : bool :=
  digest_ok (eac_id_digest r) && u64_ok (eac_epoch r) && u32_ok (eac_fence_count r) &&
  digest_ok (eac_fence_digest r).

Definition EgressRefused_ok (r : EgressRefused) : bool :=
  str_ok (egr_trace_id r) && refusal_source_ok (egr_source r) && str_ok (egr_target r) &&
  u32_ok (egr_count r).

Definition PodHeadAdvanced_ok (r : PodHeadAdvanced) : bool :=
  str_ok (pha_project r) && str_ok (pha_identity r) &&
  opt_ok revision_address_ok (pha_old r) && revision_address_ok (pha_new r).

Definition event_ok (e : LedgerEvent) : bool :=
  match e with
  | Ev_SemanticDeltaCommitted r => SemanticDeltaCommitted_ok r
  | Ev_CapsuleCommitted r => CapsuleCommitted_ok r
  | Ev_CapsuleSuperseded r => CapsuleSuperseded_ok r
  | Ev_Revoked r => Revoked_ok r
  | Ev_HardConstraintCommitted r => HardConstraintCommitted_ok r
  | Ev_VerifierAttested r => VerifierAttested_ok r
  | Ev_ProcedurePromoted r => ProcedurePromoted_ok r
  | Ev_ProcedureRevoked r => ProcedureRevoked_ok r
  | Ev_SnapshotCommitted r => SnapshotCommitted_ok r
  | Ev_EffectAttempted r => EffectAttempted_ok r
  | Ev_EffectSettled r => EffectSettled_ok r
  | Ev_EffectReconciled r => EffectReconciled_ok r
  | Ev_ScopeLifecycle r => scope_event_ok r
  | Ev_ProtectedStateCommitted r => ProtectedStateCommitted_ok r
  | Ev_MeshTunnelLifecycle r => mesh_event_ok r
  | Ev_ExecutionManifestAdmitted r => ExecutionManifestAdmitted_ok r
  | Ev_ExecutionManifestRevoked r => ExecutionManifestRevoked_ok r
  | Ev_PolicyBundleActivated r => PolicyBundleActivated_ok r
  | Ev_PolicyBundleRevoked r => PolicyBundleRevoked_ok r
  | Ev_SessionRevoked r => SessionRevoked_ok r
  | Ev_TierBackendLifecycle r => TierBackendLifecycle_ok r
  | Ev_TierObjectCommitted r => TierObjectCommitted_ok r
  | Ev_TierReplicaLifecycle r => TierReplicaLifecycle_ok r
  | Ev_PodEvidenceCommitted r => PodEvidenceCommitted_ok r
  | Ev_PodOutputAdmitted r => PodOutputAdmitted_ok r
  | Ev_PodHypothesisCommitted r => PodHypothesisCommitted_ok r
  | Ev_ExpertStructuralCommitted r => ExpertStructuralCommitted_ok r
  | Ev_ExpertFenceCommitted r => ExpertFenceCommitted_ok r
  | Ev_KvTaintCommitted r => KvTaintCommitted_ok r
  | Ev_InputInvalidated r => InputInvalidated_ok r
  | Ev_ExpertAuthorityChanged r => ExpertAuthorityChanged_ok r
  | Ev_EgressRefused r => EgressRefused_ok r
  | Ev_PodHeadAdvanced r => PodHeadAdvanced_ok r
  end.
