(* ===== verification/LedgerChecks.v ===== *)
(** * What the ledger refuses to record: crates/ptr-ledger/src/lib.rs, the checks

    The rules an event carries beyond the types of its fields.  Decoder and
    append paths call the same functions, so that nothing is written that would
    be refused when read back. *)

From S2P Require Import Prelude Bytes Types LedgerEvents.
From stdpp Require Import options.

(** ** Errors

    An [io::Error] by its kind and what it wraps. *)
Inductive ErrorKind := InvalidData | UnexpectedEof | AlreadyExists | NotFound | Other.
Inductive error_source := Msg (message : string) | Wrapped (error : ResolveError).
Record io_error := { io_kind : ErrorKind; io_source : error_source }.
Abbreviation io_result := (result io_error).

#[export] Instance ErrorKind_eq_dec : EqDecision ErrorKind.
Proof. solve_decision. Defined.
#[export] Instance error_source_eq_dec : EqDecision error_source.
Proof. solve_decision. Defined.
#[export] Instance io_error_eq_dec : EqDecision io_error.
Proof. solve_decision. Defined.

(** [integrity::invalid]. *)
Definition invalid (message : string) : io_error :=
  {| io_kind := InvalidData; io_source := Msg message |}.
Definition truncated : io_error :=
  {| io_kind := UnexpectedEof; io_source := Msg "truncated ledger record" |}.
(** [format!] with the offending byte. *)
Definition bad_code (message : string) (code : N) : io_error := invalid (message +:+ pretty code).
Definition presence_byte (value : N) : io_error := bad_code "invalid presence byte " value.

Definition wrap_resolve {A} (r : result ResolveError A) : io_result A :=
  match r with
  | Ok a => Ok a
  | Err e => Err {| io_kind := InvalidData; io_source := Wrapped e |}
  end.
Definition wrap_invalid {A} (message : string) (r : result ResolveError A) : io_result A :=
  match r with
  | Ok a => Ok a
  | Err _ => Err (invalid message)
  end.

(** ** Attestations *)
Definition check_attestation_requirement (required : VerificationLevel) : io_result unit :=
  match required with
  | FullSemantic | Deterministic => Ok tt
  | _ => Err (invalid "PTR_LEDGER_ATTESTATION_REQUIREMENT")
  end.

Definition check_attestation_verifier_count (count : N) : io_result unit :=
  if (count =? 0)%N || (MAX_ATTESTATION_VERIFIERS <? count)%N
  then Err (invalid "PTR_LEDGER_ATTESTATION_LIMIT") else Ok tt.

Definition check_attestation_finding_count (count : N) : io_result unit :=
  if (MAX_ATTESTATION_FINDINGS <? count)%N
  then Err (invalid "PTR_LEDGER_ATTESTATION_LIMIT") else Ok tt.

Definition check_attestation (a : Attestation) : io_result unit :=
  check_attestation_requirement (at_required a) ;?
  check_attestation_verifier_count (blen (at_verifiers a)) ;?
  check_attestation_finding_count (blen (at_findings a)).

(** ** Counts *)
Definition check_rebased_key_count (count : N) : io_result unit :=
  if (MAX_REBASED_KEYS <? count)%N then Err (invalid "PTR_LEDGER_REBASED_KEY_LIMIT") else Ok tt.

Definition check_hypothesis_provenance_count (count : N) : io_result unit :=
  if (MAX_HYPOTHESIS_PROVENANCE <? count)%N
  then Err (invalid "PTR_LEDGER_HYPOTHESIS_LIMIT") else Ok tt.

Definition check_hypothesis_dependency_count (count : N) : io_result unit :=
  if (MAX_HYPOTHESIS_DEPENDENCIES <? count)%N
  then Err (invalid "PTR_LEDGER_HYPOTHESIS_LIMIT") else Ok tt.

Definition check_expert_record (record : list byte) : io_result unit :=
  if bool_decide (record = []) || (MAX_EXPERT_RECORD_BYTES <? blen record)%N
  then Err (invalid "PTR_LEDGER_EXPERT_RECORD_LIMIT") else Ok tt.

(** ** Expert fences *)
Definition fence_revocation_fits (r : ExpertFenceCommitted) : bool :=
  match efc_action r, efc_cause r, efc_revocation r with
  | (Fence | Escalate | Retire), InputRevoked, Some revocation =>
      negb (bool_decide (efr_subject revocation = ""))
  | Fence, AuthorityQuarantine, None => true
  | Readmit, _, None => true
  | _, _, _ => false
  end.

Definition fence_evidence_fits (r : ExpertFenceCommitted) : bool :=
  match efc_action r, efc_evidence r with
  | (Fence | Escalate | Retire), None => true
  | Readmit, Some evidence =>
      negb (bool_decide (efe_report evidence = [])) &&
      (blen (efe_report evidence) <=? MAX_EXPERT_RECORD_BYTES)%N
  | _, _ => false
  end.

Definition check_expert_fence (r : ExpertFenceCommitted) : io_result unit :=
  if negb (fence_evidence_fits r) || negb (fence_revocation_fits r)
     || bool_decide (efc_pod r = "") || (efc_generation r =? 0)%N
     || negb (bool_decide (checked_add_u64 (efc_expected_state_version r) 1 = Some (efc_epoch r)))
  then Err (invalid "PTR_LEDGER_EXPERT_FENCE") else Ok tt.

(** ** Taint records *)

(** [<] on [(u8, [u8; 32])]: the codes first, then the digests byte by byte. *)
Fixpoint bytes_lt (a b : list byte) : bool :=
  match a, b with
  | _, [] => false
  | [], _ :: _ => true
  | x :: a, y :: b =>
      (Byte.to_N x <? Byte.to_N y)%N || ((Byte.to_N x =? Byte.to_N y)%N && bytes_lt a b)
  end.

Definition subject_lt (p q : KvTaintSubjectKind * Digest) : bool :=
  let cp := KvTaintSubjectKind_code p.1 in
  let cq := KvTaintSubjectKind_code q.1 in
  (cp <? cq)%N || ((cp =? cq)%N && bytes_lt p.2 q.2).

(** [windows(2).all(..)]. *)
Fixpoint windows2_all {A} (lt : A → A → bool) (l : list A) : bool :=
  match l with
  | x :: (y :: _) as l => lt x y && windows2_all lt l
  | _ => true
  end.

Definition taint_digests_ok (r : KvTaintCommitted) : bool :=
  forallb (λ s, negb (bool_decide (s.2 = zero_digest))) (ktc_subjects r) &&
  match ktc_change r with
  | Record_taint d d' | Clear_taint d d' =>
      negb (bool_decide (d = zero_digest)) && negb (bool_decide (d' = zero_digest))
  end.

Definition check_kv_taint (r : KvTaintCommitted) : io_result unit :=
  if bool_decide (ktc_subjects r = []) || (MAX_KV_TAINT_SUBJECTS <? blen (ktc_subjects r))%N
  then Err (invalid "PTR_LEDGER_KV_TAINT_SUBJECT_LIMIT") else
  if negb (windows2_all subject_lt (ktc_subjects r))
  then Err (invalid "PTR_LEDGER_KV_TAINT_ORDER") else
  if negb (taint_digests_ok r)
  then Err (invalid "PTR_LEDGER_KV_TAINT_ZERO_DIGEST") else Ok tt.

(** ** Input invalidations *)
Definition check_input_invalidated (r : InputInvalidated) : io_result unit :=
  let identity_ok := negb (bool_decide (ii_input r = ""))
                     && (slen (ii_input r) <=? MAX_INPUT_IDENTITY_BYTES)%N
                     && negb (has_control (ii_input r)) in
  if negb identity_ok || (ii_generation r =? 0)%N
  then Err (invalid "PTR_LEDGER_INPUT_INVALIDATED") else
  let kind_ok :=
    match ii_kind r with
    | Kind_Revoked => true
    | Superseded old_generation new_generation new_digest replacement_ref =>
        (old_generation =? ii_generation r)%N && (old_generation <? new_generation)%N
        && negb (bool_decide (new_digest = zero_digest))
        && negb (bool_decide (replacement_ref = zero_digest))
    end in
  if negb kind_ok then Err (invalid "PTR_LEDGER_INPUT_INVALIDATED") else
  if bool_decide (ii_binding_digest r = zero_digest) || bool_decide (ii_fence_digest r = zero_digest)
  then Err (invalid "PTR_LEDGER_INPUT_INVALIDATED_ZERO_DIGEST") else Ok tt.

(** ** Authority changes *)
Definition check_expert_authority_changed (r : ExpertAuthorityChanged) : io_result unit :=
  if (eac_epoch r =? 0)%N || bool_decide (eac_id_digest r = zero_digest)
     || bool_decide (eac_fence_digest r = zero_digest)
  then Err (invalid "PTR_LEDGER_EXPERT_AUTHORITY_CHANGED") else
  if negb (fences_earlier_evidence (eac_class r)) && negb (eac_fence_count r =? 0)%N
  then Err (invalid "PTR_LEDGER_EXPERT_AUTHORITY_CHANGED_FENCES") else Ok tt.

(** ** Egress refusals *)

(** [str::split(':')]: always at least one part. *)
Fixpoint split_on (sep : byte) (bs : list byte) : list (list byte) :=
  match bs with
  | [] => [[]]
  | b :: bs =>
      if bool_decide (b = sep) then [] :: split_on sep bs
      else match split_on sep bs with
           | part :: parts => (b :: part) :: parts
           | [] => [[b]]
           end
  end.

Definition hex16 (part : list byte) : bool :=
  (length part =? 16)%nat &&
  forallb (λ b, is_ascii_digit b || in_range 97 102 (Byte.to_N b)) part.

(** The value of a string of digits. *)
Definition decimal (part : list byte) : N :=
  foldl (λ n b, 10 * n + (Byte.to_N b - 48))%N 0%N part.

(** [number::<T>], where [max] is the number of values of [T]. *)
Definition number (max : N) (part : list byte) : bool :=
  negb (bool_decide (part = [])) && forallb is_ascii_digit part
  && (bool_decide (part = str_bytes "0") || negb (bool_decide (head part = Some x30)))
  && (decimal part <? max)%N.

Definition egress_target_is_redacted (target : string) : bool :=
  if bool_decide (target = "*") then true else
  match split_on x3a (str_bytes target) with
  | [kind; digest; len; port] =>
      bool_decide (kind = str_bytes "host") && hex16 digest
      && number (2 ^ 32) len && number (2 ^ 16) port
  | [kind; digest; len] =>
      bool_decide (kind = str_bytes "topic") && hex16 digest && number (2 ^ 32) len
  | _ => false
  end.

Definition check_egress_refused (r : EgressRefused) : io_result unit :=
  if bool_decide (egr_trace_id r = "") || (MAX_EGRESS_TARGET_BYTES <? slen (egr_trace_id r))%N
     || (egr_count r =? 0)%N
     || (egr_saturated r && negb (egr_count r =? 2 ^ 32 - 1)%N)
     || (bool_decide (egr_trace_id r = "*") && (egr_count r <? 2)%N)
     || negb (egress_target_is_redacted (egr_target r))
     || match egr_source r with
        | Source_Pod source => negb (is_ok (PodRevisionAddress_validate source))
        | Overflow => negb (bool_decide (egr_target r = "*"))
        end
  then Err (invalid "PTR_LEDGER_EGRESS_REFUSED") else Ok tt.

(** ** Pod heads *)
Definition check_pod_head_advanced (r : PodHeadAdvanced) : io_result unit :=
  if bool_decide (pha_identity r = "")
     || (MAX_POD_HEAD_IDENTITY_BYTES <? slen (pha_identity r))%N || has_control (pha_identity r)
  then Err (invalid "PTR_LEDGER_POD_HEAD_IDENTITY") else
  if bool_decide (pha_project r = "") || bool_decide (x2f ∈ str_bytes (pha_project r))
     || negb (bool_decide (pa_project (pra_address (pha_new r)) = pha_project r))
  then Err (invalid "PTR_LEDGER_POD_HEAD_PROJECT") else
  wrap_invalid "PTR_LEDGER_POD_HEAD_ADDRESS" (PodRevisionAddress_validate (pha_new r)) ;?
  match pha_old r with
  | None => Ok tt
  | Some old =>
      if negb (bool_decide (pa_project (pra_address old) = pha_project r))
      then Err (invalid "PTR_LEDGER_POD_HEAD_PROJECT") else
      wrap_invalid "PTR_LEDGER_POD_HEAD_ADDRESS" (PodRevisionAddress_validate old) ;?
      if (pra_generation (pha_new r) <=? pra_generation old)%N
      then Err (invalid "PTR_LEDGER_POD_HEAD_GENERATION") else Ok tt
  end.

(** ** All rules of an event, as the append paths check them *)
Definition check_origin (o : SemanticOrigin) : io_result unit :=
  match o with
  | Legacy | Origin_Request _ | Origin_PodOutput _ _ _ | Origin_PodCandidate _ _ _ _ => Ok tt
  | Origin_Host _ verification => check_attestation verification
  | Origin_Merge merge =>
      check_rebased_key_count (N.of_nat (size (mr_rebased merge))) ;?
      check_attestation (mr_verification merge)
  end.

Definition check_hypothesis (r : PodHypothesisCommitted) : io_result unit :=
  check_hypothesis_provenance_count (blen (phc_provenance r)) ;?
  check_hypothesis_dependency_count (blen (phc_dependencies r)) ;?
  check_attestation (phc_verification r).

Definition check_mesh (e : MeshTunnelLifecycleEvent) : io_result unit :=
  match mte_endpoint e with
  | Some endpoint => wrap_resolve (MeshEndpointBinding_validate endpoint)
  | None => Ok tt
  end.

Definition check_origin_bounds (event : LedgerEvent) : io_result unit :=
  match event with
  | Ev_SemanticDeltaCommitted r => check_origin (sdc_origin r)
  | Ev_PodOutputAdmitted r => check_attestation (poa_verification r)
  | Ev_PodHypothesisCommitted r => check_hypothesis r
  | Ev_ExpertStructuralCommitted r => check_expert_record (esc_record r)
  | Ev_ExpertFenceCommitted r => check_expert_fence r
  | Ev_KvTaintCommitted r => check_kv_taint r
  | Ev_InputInvalidated r => check_input_invalidated r
  | Ev_ExpertAuthorityChanged r => check_expert_authority_changed r
  | Ev_EgressRefused r => check_egress_refused r
  | Ev_MeshTunnelLifecycle e => check_mesh e
  | Ev_PodHeadAdvanced r => check_pod_head_advanced r
  | _ => Ok tt
  end.

(** An example of each redacted target form. *)
Example redacted_host : egress_target_is_redacted "host:0123456789abcdef:11:443" = true.
Proof. vm_compute. reflexivity. Qed.
Example not_redacted_port : egress_target_is_redacted "host:0123456789abcdef:11:65536" = false.
Proof. vm_compute. reflexivity. Qed.
Example not_redacted_name : egress_target_is_redacted "host:example.org" = false.
Proof. vm_compute. reflexivity. Qed.
