(* ===== verification/LedgerCodec.v ===== *)
(** * The event codec: crates/ptr-ledger/src/lib.rs, encode_event and decode_event

    One [put_] and one [read_] definition per variant, in the order of the
    fields on the wire.  A writer that would panic ([expect] on a length that
    does not fit) is [None].  The cursor is the unread suffix of its slice. *)

From S2P Require Import Prelude Bytes Types LedgerEvents LedgerChecks.
From stdpp Require Import options.

(** ** Writing primitives *)
Definition put_u8 (v : N) : writer := Some [byte_of_N v].
Definition put_u32 (v : N) : writer := Some (le_bytes 4 v).
Definition put_u64 (v : N) : writer := Some (le_bytes 8 v).
Definition put_u128 (v : N) : writer := Some (le_bytes 16 v).
Definition put_raw (bs : list byte) : writer := Some bs.
Definition put_bool (b : bool) : writer := put_u8 (if b then 1 else 0).
Definition put_bytes (bs : list byte) : writer :=
  if (blen bs <? 2 ^ 32)%N then Some (le_bytes 4 (blen bs) ++ bs) else None.
Definition put_string (s : string) : writer := put_bytes (str_bytes s).

(** [u8::try_from(n).expect(..)] and [u32::try_from(n).expect(..)]. *)
Definition put_count8 (n : N) : writer := if (n <? 2 ^ 8)%N then put_u8 n else None.
Definition put_count32 (n : N) : writer := if (n <? 2 ^ 32)%N then put_u32 n else None.

(** The shape of every optional field: a presence byte, then the value. *)
Definition put_opt {A} (put : A → writer) (o : option A) : writer :=
  match o with
  | Some a => wseq [put_u8 1; put a]
  | None => put_u8 0
  end.
Definition put_optional_string : option string → writer := put_opt put_string.
Definition put_optional_u64 : option N → writer := put_opt put_u64.
Definition put_optional_u128 : option N → writer := put_opt put_u128.
Definition put_response : option (list byte) → writer := put_opt put_bytes.

(** ** Cursor *)
Abbreviation cursor A := (reader io_error A).

Definition cur_take (n : nat) : cursor (list byte) := λ rest,
  if (length rest <? n)%nat then Err truncated else Ok (take n rest, drop n rest).
Definition cur_u8 : cursor N := λ rest,
  match rest with
  | [] => Err truncated
  | b :: rest => Ok (Byte.to_N b, rest)
  end.
Definition cur_u32 : cursor N := b <- cur_take 4 ;; rret (le_value b).
Definition cur_u64 : cursor N := b <- cur_take 8 ;; rret (le_value b).
(** Byte by byte, as [Cursor::u128] and [read_optional_u128] do. *)
Definition cur_u128 : cursor N := bs <- rrepeat 16 cur_u8 ;; rret (le_value (byte_of_N <$> bs)).
Definition cur_digest : cursor Digest := cur_take 32.
Definition cur_bytes : cursor (list byte) := λ rest,
  let? (length, rest) := cur_u32 rest in
  if (blen rest <? length)%N then Err truncated
  else Ok (take (N.to_nat length) rest, drop (N.to_nat length) rest).
Definition cur_string : cursor string :=
  b <- cur_bytes ;;
  if str_ok (bytes_str b) then rret (bytes_str b) else rfail (invalid "invalid UTF-8 string").

(** A byte that must be one of the codes of a vocabulary. *)
Definition read_code {A} (from_code : N → option A) (message : string) : cursor A :=
  code <- cur_u8 ;; rlift (ok_or (from_code code) (bad_code message code)).

Definition bool_from_code (code : N) : option bool :=
  match code with
  | 0 => Some false
  | 1 => Some true
  | _ => None
  end%N.
Definition read_bool : cursor bool := read_code bool_from_code "invalid bool byte ".
Definition read_presence : cursor bool := read_code bool_from_code "invalid presence byte ".
Definition read_saturated : cursor bool :=
  read_code bool_from_code "unknown egress refusal saturation flag ".

Definition read_opt {A} (message : string) (r : cursor A) : cursor (option A) :=
  code <- cur_u8 ;;
  match code with
  | 0 => rret None
  | 1 => a <- r ;; rret (Some a)
  | _ => rfail (bad_code message code)
  end%N.
Definition cur_optional_string : cursor (option string) :=
  read_opt "invalid presence byte " cur_string.
Definition read_optional_u64 : cursor (option N) := read_opt "invalid presence byte " cur_u64.
Definition read_optional_u128 : cursor (option N) := read_opt "invalid presence byte " cur_u128.
Definition read_response : cursor (option (list byte)) :=
  read_opt "invalid presence byte " cur_bytes.

(** ** Codes *)
Definition effect_code (effect : Effect) : N :=
  match effect with
  | Pure => 0
  | Read => 1
  | Mutation => 2
  | External => 3
  | Irreversible => 4
  end.
Definition effect_from_code (code : N) : option Effect :=
  match code with
  | 0 => Some Pure
  | 1 => Some Read
  | 2 => Some Mutation
  | 3 => Some External
  | 4 => Some Irreversible
  | _ => None
  end%N.
Definition verification_code (level : VerificationLevel) : N :=
  match level with
  | Unverified => 0
  | LatentAgreement => 1
  | SampleVerified => 2
  | FullSemantic => 3
  | Deterministic => 4
  end.
Definition verification_from_code (code : N) : option VerificationLevel :=
  match code with
  | 0 => Some Unverified
  | 1 => Some LatentAgreement
  | 2 => Some SampleVerified
  | 3 => Some FullSemantic
  | 4 => Some Deterministic
  | _ => None
  end%N.
Definition scope_kind_code (kind : ScopeLifecycleKind) : N :=
  match kind with
  | Scope_Created => 0
  | Scope_Admitted => 1
  | Scope_Started => 2
  | Scope_Completed => 3
  | Scope_Failed => 4
  | Scope_Cancelled => 5
  | Scope_TimedOut => 6
  | Scope_Revoked => 7
  | Scope_Released => 8
  end.
Definition scope_kind_from_code (code : N) : option ScopeLifecycleKind :=
  match code with
  | 0 => Some Scope_Created
  | 1 => Some Scope_Admitted
  | 2 => Some Scope_Started
  | 3 => Some Scope_Completed
  | 4 => Some Scope_Failed
  | 5 => Some Scope_Cancelled
  | 6 => Some Scope_TimedOut
  | 7 => Some Scope_Revoked
  | 8 => Some Scope_Released
  | _ => None
  end%N.
Definition mesh_event_kind_code (kind : MeshTunnelEventKind) : N :=
  match kind with
  | InvitationCreated => 0
  | InvitationAccepted => 1
  | MembershipActivated => 2
  | MembershipRevoked => 3
  | RouteChanged => 4
  | TunnelEstablished => 5
  | TunnelRevoked => 6
  | TunnelReleased => 7
  end.
Definition mesh_event_kind_from_code (code : N) : option MeshTunnelEventKind :=
  match code with
  | 0 => Some InvitationCreated
  | 1 => Some InvitationAccepted
  | 2 => Some MembershipActivated
  | 3 => Some MembershipRevoked
  | 4 => Some RouteChanged
  | 5 => Some TunnelEstablished
  | 6 => Some TunnelRevoked
  | 7 => Some TunnelReleased
  | _ => None
  end%N.
Definition mesh_route_code (route : MeshRouteKind) : N :=
  match route with
  | Direct => 0
  | Relay => 1
  end.
Definition mesh_route_from_code (code : N) : option MeshRouteKind :=
  match code with
  | 0 => Some Direct
  | 1 => Some Relay
  | _ => None
  end%N.

Definition put_effect (x : Effect) : writer := put_u8 (effect_code x).
Definition read_effect : cursor Effect := read_code effect_from_code "unknown effect code ".
Definition put_verification (x : VerificationLevel) : writer := put_u8 (verification_code x).
Definition read_verification : cursor VerificationLevel :=
  read_code verification_from_code "unknown verification level code ".
Definition put_scope_code (x : ScopeLifecycleKind) : writer := put_u8 (scope_kind_code x).
Definition put_scope_kind : option ScopeLifecycleKind → writer := put_opt put_scope_code.
Definition read_scope_kind : cursor ScopeLifecycleKind :=
  read_code scope_kind_from_code "unknown scope lifecycle code ".
Definition put_mesh_kind (x : MeshTunnelEventKind) : writer := put_u8 (mesh_event_kind_code x).
Definition read_mesh_kind : cursor MeshTunnelEventKind :=
  read_code mesh_event_kind_from_code "invalid mesh event ".
Definition put_mesh_route (x : MeshRouteKind) : writer := put_u8 (mesh_route_code x).
Definition read_mesh_route : cursor MeshRouteKind :=
  read_code mesh_route_from_code "invalid mesh route ".
Definition put_op_kind (x : ExpertOpKind) : writer := put_u8 (ExpertOpKind_code x).
Definition read_op_kind : cursor ExpertOpKind :=
  read_code ExpertOpKind_from_code "unknown expert operation code ".
Definition put_fence_action (x : ExpertFenceAction) : writer := put_u8 (ExpertFenceAction_code x).
Definition read_fence_action : cursor ExpertFenceAction :=
  read_code ExpertFenceAction_from_code "unknown expert fence action code ".
Definition put_fence_cause (x : ExpertFenceCause) : writer := put_u8 (ExpertFenceCause_code x).
Definition read_fence_cause : cursor ExpertFenceCause :=
  read_code ExpertFenceCause_from_code "unknown expert fence cause code ".
Definition put_fence_resume (x : ExpertFenceResume) : writer := put_u8 (ExpertFenceResume_code x).
Definition read_fence_resume : cursor ExpertFenceResume :=
  read_code ExpertFenceResume_from_code "unknown expert fence resume code ".
Definition put_subject_kind (x : KvTaintSubjectKind) : writer := put_u8 (KvTaintSubjectKind_code x).
Definition read_subject_kind : cursor KvTaintSubjectKind :=
  read_code KvTaintSubjectKind_from_code "unknown kv taint subject code ".
Definition put_authority_kind (x : ExpertAuthorityKind) : writer :=
  put_u8 (ExpertAuthorityKind_code x).
Definition read_authority_kind : cursor ExpertAuthorityKind :=
  read_code ExpertAuthorityKind_from_code "unknown expert authority kind ".
Definition put_authority_class (x : ExpertAuthorityClass) : writer :=
  put_u8 (ExpertAuthorityClass_code x).
Definition read_authority_class : cursor ExpertAuthorityClass :=
  read_code ExpertAuthorityClass_from_code "unknown expert authority class ".
Definition put_refusal_reason (x : EgressRefusalReason) : writer :=
  put_u8 (EgressRefusalReason_code x).
Definition read_refusal_reason : cursor EgressRefusalReason :=
  read_code EgressRefusalReason_from_code "unknown egress refusal reason code ".

(** A count, then that many items; the count is checked before any item is
    read. *)
Definition put_counted {A} (put_count : N → writer) (put : A → writer) (l : list A) : writer :=
  wseq [put_count (blen l); wseq (put <$> l)].
Definition read_counted {A} (cur_count : cursor N) (check : N → io_result unit) (r : cursor A) :
    cursor (list A) :=
  count <- cur_count ;; _ <- rlift (check count) ;; rrepeat (N.to_nat count) r.

(** ** Parts *)
Definition put_attestation (a : Attestation) : writer :=
  wseq [put_verification (at_required a); put_verification (at_level a);
        put_counted put_count8 put_string (at_verifiers a);
        put_counted put_count8 put_string (at_findings a)].
Definition attestation : cursor Attestation :=
  required <- read_verification ;;
  _ <- rlift (check_attestation_requirement required) ;;
  level <- read_verification ;;
  verifiers <- read_counted cur_u8 check_attestation_verifier_count cur_string ;;
  findings <- read_counted cur_u8 check_attestation_finding_count cur_string ;;
  rret {| at_required := required; at_level := level; at_verifiers := verifiers;
          at_findings := findings |}.

Definition put_merge_authority (a : MergeAuthorityRecord) : writer :=
  match a with
  | Triage policy_version score_bits => wseq [put_u8 1; put_string policy_version; put_u32 score_bits]
  | Reviewed reviewer => wseq [put_u8 2; put_string reviewer]
  end.
Definition read_merge_authority : cursor MergeAuthorityRecord :=
  code <- cur_u8 ;;
  match code with
  | 1 => policy_version <- cur_string ;; score_bits <- cur_u32 ;;
         rret (Triage policy_version score_bits)
  | 2 => reviewer <- cur_string ;; rret (Reviewed reviewer)
  | _ => rfail (bad_code "unknown merge authority " code)
  end%N.

(** The rebased keys: a count, then the keys in strictly ascending order. *)
Definition put_rebased (keys : gset string) : writer :=
  wseq [put_count32 (N.of_nat (size keys)); wseq (put_string <$> bset_list keys)].
Fixpoint read_ascending (n : nat) (previous : option string) (keys : gset string) :
    cursor (gset string) :=
  match n with
  | O => rret keys
  | S n =>
      key <- cur_string ;;
      _ <- rlift (match previous with
                  | Some p => if String.leb key p then Err (invalid "PTR_LEDGER_REBASED_KEY_ORDER")
                              else Ok tt
                  | None => Ok tt
                  end) ;;
      read_ascending n (Some key) ({[key]} ∪ keys)
  end.
Definition read_rebased : cursor (gset string) :=
  count <- cur_u32 ;; _ <- rlift (check_rebased_key_count count) ;;
  read_ascending (N.to_nat count) None ∅.

Definition put_merge (m : MergeRecord) : writer :=
  wseq [put_string (mr_branch m); put_string (mr_author m); put_raw (mr_seal m);
        put_raw (mr_plan m); put_raw (mr_dependencies m); put_rebased (mr_rebased m);
        put_attestation (mr_verification m); put_merge_authority (mr_authority m)].
Definition read_merge : cursor MergeRecord :=
  branch <- cur_string ;; author <- cur_string ;; seal <- cur_digest ;; plan <- cur_digest ;;
  dependencies <- cur_digest ;; rebased <- read_rebased ;; verification <- attestation ;;
  authority <- read_merge_authority ;;
  rret {| mr_branch := branch; mr_author := author; mr_seal := seal; mr_plan := plan;
          mr_dependencies := dependencies; mr_rebased := rebased;
          mr_verification := verification; mr_authority := authority |}.

Definition put_origin (o : SemanticOrigin) : writer :=
  match o with
  | Legacy => wseq []
  | Origin_Request request => wseq [put_u8 1; put_string request]
  | Origin_PodOutput request pod level =>
      wseq [put_u8 2; put_string request; put_string pod; put_verification level]
  | Origin_PodCandidate request pod output_digest level =>
      wseq [put_u8 5; put_string request; put_string pod; put_raw output_digest;
            put_verification level]
  | Origin_Host principal verification =>
      wseq [put_u8 3; put_string principal; put_attestation verification]
  | Origin_Merge merge => wseq [put_u8 4; put_merge merge]
  end.
Definition attributed_origin : cursor SemanticOrigin :=
  code <- cur_u8 ;;
  match code with
  | 1 => request <- cur_string ;; rret (Origin_Request request)
  | 2 => request <- cur_string ;; pod <- cur_string ;; level <- read_verification ;;
         rret (Origin_PodOutput request pod level)
  | 5 => request <- cur_string ;; pod <- cur_string ;; output_digest <- cur_digest ;;
         level <- read_verification ;; rret (Origin_PodCandidate request pod output_digest level)
  | 3 => principal <- cur_string ;; verification <- attestation ;;
         rret (Origin_Host principal verification)
  | 4 => merge <- read_merge ;; rret (Origin_Merge merge)
  | _ => rfail (bad_code "unknown semantic origin " code)
  end%N.

Definition put_scope_lifecycle (e : ScopeLifecycleEvent) : writer :=
  wseq [put_string (sle_scope_id e); put_optional_string (sle_parent_id e);
        put_string (sle_session_id e); put_string (sle_project_id e);
        put_u64 (sle_created_at e); put_optional_u64 (sle_deadline e);
        put_scope_code (sle_kind e); put_scope_kind (sle_previous_kind e);
        put_optional_string (slb_state_id (sle_lease e));
        put_optional_string (slb_pod_id (sle_lease e));
        put_optional_u64 (slb_placement_epoch (sle_lease e));
        put_optional_u128 (slb_fencing_token (sle_lease e));
        put_optional_u64 (slb_generation (sle_lease e));
        put_optional_string (slb_resource_lease_id (sle_lease e));
        put_u64 (sle_revision e); put_optional_string (sle_reason e)].
Definition read_optional_scope_kind : cursor (option ScopeLifecycleKind) :=
  read_opt "invalid presence byte " read_scope_kind.
Definition read_scope_lifecycle : cursor ScopeLifecycleEvent :=
  scope_id <- cur_string ;; parent_id <- cur_optional_string ;; session_id <- cur_string ;;
  project_id <- cur_string ;; created_at <- cur_u64 ;; deadline <- read_optional_u64 ;;
  kind <- read_scope_kind ;; previous_kind <- read_optional_scope_kind ;;
  state_id <- cur_optional_string ;; pod_id <- cur_optional_string ;;
  placement_epoch <- read_optional_u64 ;; fencing_token <- read_optional_u128 ;;
  generation <- read_optional_u64 ;; resource_lease_id <- cur_optional_string ;;
  revision <- cur_u64 ;; reason <- cur_optional_string ;;
  rret {| sle_scope_id := scope_id; sle_parent_id := parent_id; sle_session_id := session_id;
          sle_project_id := project_id; sle_created_at := created_at; sle_deadline := deadline;
          sle_kind := kind; sle_previous_kind := previous_kind;
          sle_lease := {| slb_state_id := state_id; slb_pod_id := pod_id;
                          slb_placement_epoch := placement_epoch;
                          slb_fencing_token := fencing_token; slb_generation := generation;
                          slb_resource_lease_id := resource_lease_id |};
          sle_revision := revision; sle_reason := reason |}.

(** An endpoint that is present, with the validation that ends its reading. *)
Definition put_endpoint (e : MeshEndpointBinding) : writer :=
  wseq [put_string (meb_network_id e); put_string (meb_peer_id e); put_mesh_route (meb_route e);
        put_optional_string (meb_relay_id e); put_u64 (meb_membership_generation e);
        put_u64 (meb_membership_revision e)].
Definition read_endpoint : cursor MeshEndpointBinding :=
  network_id <- cur_string ;; peer_id <- cur_string ;; route <- read_mesh_route ;;
  relay_id <- cur_optional_string ;; membership_generation <- cur_u64 ;;
  membership_revision <- cur_u64 ;;
  let endpoint :=
    {| meb_network_id := network_id; meb_peer_id := peer_id; meb_route := route;
       meb_relay_id := relay_id; meb_membership_generation := membership_generation;
       meb_membership_revision := membership_revision |} in
  _ <- rlift (wrap_resolve (MeshEndpointBinding_validate endpoint)) ;; rret endpoint.
Definition put_mesh_endpoint : option MeshEndpointBinding → writer := put_opt put_endpoint.
Definition read_mesh_endpoint : cursor (option MeshEndpointBinding) :=
  read_opt "invalid presence byte " read_endpoint.

Definition put_fence_revocation (r : ExpertFenceRevocation) : writer :=
  wseq [put_string (efr_subject r); put_u64 (efr_generation r)].
Definition read_fence_revocation : cursor ExpertFenceRevocation :=
  subject <- cur_string ;; generation <- cur_u64 ;;
  rret {| efr_subject := subject; efr_generation := generation |}.
Definition put_revocation : option ExpertFenceRevocation → writer :=
  put_opt put_fence_revocation.
Definition read_revocation : cursor (option ExpertFenceRevocation) :=
  read_opt "unknown expert fence revocation flag " read_fence_revocation.
Definition put_fence_evidence (e : ExpertFenceEvidence) : writer :=
  wseq [put_u64 (efe_gate_epoch e); put_raw (efe_required_gate_config_digest e);
        put_bytes (efe_report e)].
Definition read_fence_evidence : cursor ExpertFenceEvidence :=
  gate_epoch <- cur_u64 ;; digest <- cur_digest ;; report <- cur_bytes ;;
  rret {| efe_gate_epoch := gate_epoch; efe_required_gate_config_digest := digest;
          efe_report := report |}.
Definition put_evidence : option ExpertFenceEvidence → writer := put_opt put_fence_evidence.
Definition read_evidence : cursor (option ExpertFenceEvidence) :=
  read_opt "unknown expert fence evidence flag " read_fence_evidence.

Definition put_subject (s : KvTaintSubjectKind * Digest) : writer :=
  wseq [put_subject_kind s.1; put_raw s.2].
Definition read_subject : cursor (KvTaintSubjectKind * Digest) :=
  kind <- read_subject_kind ;; digest <- cur_digest ;; rret (kind, digest).
(** [subjects.len().min(usize::from(u8::MAX)) as u8]. *)
Definition put_subjects (l : list (KvTaintSubjectKind * Digest)) : writer :=
  put_counted (λ n, put_u8 (N.min n 255)) put_subject l.
Definition check_subject_count (count : N) : io_result unit :=
  if (count =? 0)%N || (MAX_KV_TAINT_SUBJECTS <? count)%N
  then Err (invalid "PTR_LEDGER_KV_TAINT_SUBJECT_LIMIT") else Ok tt.
Definition read_subjects : cursor (list (KvTaintSubjectKind * Digest)) :=
  read_counted cur_u8 check_subject_count read_subject.
Definition put_taint_change (c : KvTaintChange) : writer :=
  match c with
  | Record_taint report_digest recipe_digest =>
      wseq [put_u8 0; put_raw report_digest; put_raw recipe_digest]
  | Clear_taint recipe_digest recompute_digest =>
      wseq [put_u8 1; put_raw recipe_digest; put_raw recompute_digest]
  end.
Definition read_taint_change : cursor KvTaintChange :=
  code <- cur_u8 ;;
  match code with
  | 0 => report_digest <- cur_digest ;; recipe_digest <- cur_digest ;;
         rret (Record_taint report_digest recipe_digest)
  | 1 => recipe_digest <- cur_digest ;; recompute_digest <- cur_digest ;;
         rret (Clear_taint recipe_digest recompute_digest)
  | _ => rfail (bad_code "unknown kv taint change code " code)
  end%N.

Definition put_invalidation_kind (k : InputInvalidationKind) : writer :=
  match k with
  | Kind_Revoked => wseq [put_u8 (InputInvalidationKind_code k)]
  | Superseded old_generation new_generation new_digest replacement_ref =>
      wseq [put_u8 (InputInvalidationKind_code k); put_u64 old_generation; put_u64 new_generation;
            put_raw new_digest; put_raw replacement_ref]
  end.
Definition read_invalidation_kind : cursor InputInvalidationKind :=
  code <- cur_u8 ;;
  match code with
  | 0 => rret Kind_Revoked
  | 1 => old_generation <- cur_u64 ;; new_generation <- cur_u64 ;; new_digest <- cur_digest ;;
         replacement_ref <- cur_digest ;;
         rret (Superseded old_generation new_generation new_digest replacement_ref)
  | _ => rfail (bad_code "unknown input invalidation kind " code)
  end%N.

Definition put_revision_address (a : PodRevisionAddress) : writer :=
  wseq [put_string (pa_project (pra_address a)); put_string (pa_namespace (pra_address a));
        put_string (pa_pod_id (pra_address a)); put_raw (pra_semantic_revision a);
        put_u64 (pra_generation a)].
Definition read_revision_address : cursor PodRevisionAddress :=
  project <- cur_string ;; namespace <- cur_string ;; pod_id <- cur_string ;;
  address <- rlift (wrap_invalid "PTR_LEDGER_POD_HEAD_ADDRESS"
                      (PodAddress_new project namespace pod_id)) ;;
  semantic_revision <- cur_digest ;; generation <- cur_u64 ;;
  let revision := {| pra_address := address; pra_semantic_revision := semantic_revision;
                     pra_generation := generation |} in
  _ <- rlift (wrap_invalid "PTR_LEDGER_POD_HEAD_ADDRESS" (PodRevisionAddress_validate revision)) ;;
  rret revision.
Definition put_old_address : option PodRevisionAddress → writer := put_opt put_revision_address.
Definition read_old_address : cursor (option PodRevisionAddress) :=
  read_opt "invalid presence byte " read_revision_address.

Definition put_refusal_source (s : EgressRefusalSource) : writer :=
  match s with
  | Source_Pod source => wseq [put_u8 0; put_revision_address source]
  | Overflow => wseq [put_u8 1]
  end.
Definition read_refusal_source : cursor EgressRefusalSource :=
  code <- cur_u8 ;;
  match code with
  | 0 => project <- cur_string ;; namespace <- cur_string ;; pod_id <- cur_string ;;
         semantic_revision <- cur_digest ;; generation <- cur_u64 ;;
         rret (Source_Pod
           {| pra_address := {| pa_project := project; pa_namespace := namespace;
                                pa_pod_id := pod_id |};
              pra_semantic_revision := semantic_revision; pra_generation := generation |})
  | 1 => rret Overflow
  | _ => rfail (bad_code "unknown egress refusal source tag " code)
  end%N.

Definition put_provenance_entry (e : string * option string) : writer :=
  wseq [put_string e.1; put_optional_string e.2].
Definition read_provenance_entry : cursor (string * option string) :=
  source <- cur_string ;; note <- cur_optional_string ;; rret (source, note).
(** [len() as u32]: the low 32 bits. *)
Definition put_provenance (l : list (string * option string)) : writer :=
  put_counted put_u32 put_provenance_entry l.
Definition read_provenance : cursor (list (string * option string)) :=
  read_counted cur_u32 check_hypothesis_provenance_count read_provenance_entry.
Definition put_dependencies (l : list Digest) : writer :=
  put_counted put_u32 put_raw l.
Definition read_dependency_digests : cursor (list Digest) :=
  read_counted cur_u32 check_hypothesis_dependency_count cur_digest.

(** ** Variants: the arms of [encode_event] and [decode_event]

    A [put_] definition starts with the tag, a [read_] definition after it. *)
Definition put_SemanticDeltaCommitted (r : SemanticDeltaCommitted) : writer :=
  wseq [put_u8 (match sdc_origin r with Legacy => 8 | _ => 12 end);
        put_u64 (sdc_base_revision r); put_u64 (sdc_revision r);
        put_bytes (sdc_encoded_delta r); put_origin (sdc_origin r)].
Definition read_SemanticDelta_legacy : cursor SemanticDeltaCommitted :=
  base_revision <- cur_u64 ;; revision <- cur_u64 ;; encoded_delta <- cur_bytes ;;
  rret {| sdc_base_revision := base_revision; sdc_revision := revision;
          sdc_encoded_delta := encoded_delta; sdc_origin := Legacy |}.
Definition read_SemanticDelta_attributed : cursor SemanticDeltaCommitted :=
  base_revision <- cur_u64 ;; revision <- cur_u64 ;; encoded_delta <- cur_bytes ;;
  origin <- attributed_origin ;;
  rret {| sdc_base_revision := base_revision; sdc_revision := revision;
          sdc_encoded_delta := encoded_delta; sdc_origin := origin |}.

Definition put_ScopeLifecycle (e : ScopeLifecycleEvent) : writer :=
  wseq [put_u8 13; put_scope_lifecycle e].

Definition put_MeshTunnelLifecycle (e : MeshTunnelLifecycleEvent) : writer :=
  wseq [put_u8 15; put_string (mte_network_id e); put_string (mte_peer_id e);
        put_optional_string (mte_invitation_id e); put_optional_string (mte_tunnel_id e);
        put_u64 (mte_generation e); put_u64 (mte_revision e); put_mesh_kind (mte_kind e);
        put_mesh_endpoint (mte_endpoint e); put_u64 (mte_placement_epoch e);
        put_u128 (mte_fencing_token e); put_raw (mte_event_digest e)].
Definition read_MeshTunnelLifecycle : cursor MeshTunnelLifecycleEvent :=
  network_id <- cur_string ;; peer_id <- cur_string ;; invitation_id <- cur_optional_string ;;
  tunnel_id <- cur_optional_string ;; generation <- cur_u64 ;; revision <- cur_u64 ;;
  kind <- read_mesh_kind ;; endpoint <- read_mesh_endpoint ;; placement_epoch <- cur_u64 ;;
  fencing_token <- cur_u128 ;; event_digest <- cur_digest ;;
  rret {| mte_network_id := network_id; mte_peer_id := peer_id;
          mte_invitation_id := invitation_id; mte_tunnel_id := tunnel_id;
          mte_generation := generation; mte_revision := revision; mte_kind := kind;
          mte_endpoint := endpoint; mte_placement_epoch := placement_epoch;
          mte_fencing_token := fencing_token; mte_event_digest := event_digest |}.

Definition put_CapsuleCommitted (r : CapsuleCommitted) : writer :=
  wseq [put_u8 0; put_string (cc_project r); put_string (cc_capsule r);
        put_u64 (cc_generation r)].
Definition read_CapsuleCommitted : cursor CapsuleCommitted :=
  project <- cur_string ;; capsule <- cur_string ;; generation <- cur_u64 ;;
  rret {| cc_project := project; cc_capsule := capsule; cc_generation := generation |}.

Definition put_CapsuleSuperseded (r : CapsuleSuperseded) : writer :=
  wseq [put_u8 1; put_string (cs_capsule r); put_u64 (cs_old r); put_u64 (cs_new r)].
Definition read_CapsuleSuperseded : cursor CapsuleSuperseded :=
  capsule <- cur_string ;; old <- cur_u64 ;; new <- cur_u64 ;;
  rret {| cs_capsule := capsule; cs_old := old; cs_new := new |}.

Definition put_Revoked (r : Revoked) : writer :=
  wseq [put_u8 2; put_string (rv_subject r); put_u64 (rv_generation r)].
Definition read_Revoked : cursor Revoked :=
  subject <- cur_string ;; generation <- cur_u64 ;;
  rret {| rv_subject := subject; rv_generation := generation |}.

Definition put_HardConstraintCommitted (r : HardConstraintCommitted) : writer :=
  wseq [put_u8 3; put_string (hcc_key r); put_u64 (hcc_generation r)].
Definition read_HardConstraintCommitted : cursor HardConstraintCommitted :=
  key <- cur_string ;; generation <- cur_u64 ;;
  rret {| hcc_key := key; hcc_generation := generation |}.

Definition put_VerifierAttested (r : VerifierAttested) : writer :=
  wseq [put_u8 4; put_string (va_subject r); put_bool (va_passed r)].
Definition read_VerifierAttested : cursor VerifierAttested :=
  subject <- cur_string ;; passed <- read_bool ;;
  rret {| va_subject := subject; va_passed := passed |}.

Definition put_ProcedurePromoted (r : ProcedurePromoted) : writer :=
  wseq [put_u8 5; put_string (pp_id r); put_u64 (pp_generation r)].
Definition read_ProcedurePromoted : cursor ProcedurePromoted :=
  id <- cur_string ;; generation <- cur_u64 ;;
  rret {| pp_id := id; pp_generation := generation |}.

Definition put_ProcedureRevoked (r : ProcedureRevoked) : writer :=
  wseq [put_u8 6; put_string (pr_id r); put_u64 (pr_generation r)].
Definition read_ProcedureRevoked : cursor ProcedureRevoked :=
  id <- cur_string ;; generation <- cur_u64 ;;
  rret {| pr_id := id; pr_generation := generation |}.

Definition put_SnapshotCommitted (r : SnapshotCommitted) : writer :=
  wseq [put_u8 7; put_u64 (sc_revision r); put_u64 (sc_covers r)].
Definition read_SnapshotCommitted : cursor SnapshotCommitted :=
  revision <- cur_u64 ;; covers <- cur_u64 ;;
  rret {| sc_revision := revision; sc_covers := covers |}.

Definition put_EffectAttempted (r : EffectAttempted) : writer :=
  wseq [put_u8 9; put_optional_string (ea_key r); put_string (ea_project r);
        put_string (ea_principal r); put_string (ea_target r); put_string (ea_operation r);
        put_string (ea_capability r); put_effect (ea_effect r); put_u64 (ea_generation r);
        put_u64 (ea_revision r); put_verification (ea_verification r);
        put_raw (ea_action_digest r)].
Definition read_EffectAttempted : cursor EffectAttempted :=
  key <- cur_optional_string ;; project <- cur_string ;; principal <- cur_string ;;
  target <- cur_string ;; operation <- cur_string ;; capability <- cur_string ;;
  effect <- read_effect ;; generation <- cur_u64 ;; revision <- cur_u64 ;;
  verification <- read_verification ;; action_digest <- cur_digest ;;
  rret {| ea_key := key; ea_project := project; ea_principal := principal; ea_target := target;
          ea_operation := operation; ea_capability := capability; ea_effect := effect;
          ea_generation := generation; ea_revision := revision; ea_verification := verification;
          ea_action_digest := action_digest |}.

Definition put_EffectSettled (r : EffectSettled) : writer :=
  wseq [put_u8 10; put_u64 (es_attempt r); put_response (es_response r);
        put_raw (es_response_digest r)].
Definition read_EffectSettled : cursor EffectSettled :=
  attempt <- cur_u64 ;; response <- read_response ;; response_digest <- cur_digest ;;
  rret {| es_attempt := attempt; es_response := response; es_response_digest := response_digest |}.

Definition put_EffectReconciled (r : EffectReconciled) : writer :=
  wseq [put_u8 11; put_u64 (er_attempt r); put_bool (er_applied r); put_string (er_evidence r)].
Definition read_EffectReconciled : cursor EffectReconciled :=
  attempt <- cur_u64 ;; applied <- read_presence ;; evidence <- cur_string ;;
  rret {| er_attempt := attempt; er_applied := applied; er_evidence := evidence |}.

Definition put_ProtectedStateCommitted (r : ProtectedStateCommitted) : writer :=
  wseq [put_u8 14; put_u8 (psc_domain r); put_string (psc_logical_id r);
        put_u64 (psc_generation r); put_u64 (psc_revision r); put_raw (psc_plaintext_digest r);
        put_raw (psc_ciphertext_digest r); put_raw (psc_anchor_digest r)].
Definition read_ProtectedStateCommitted : cursor ProtectedStateCommitted :=
  domain <- cur_u8 ;; logical_id <- cur_string ;; generation <- cur_u64 ;; revision <- cur_u64 ;;
  plaintext_digest <- cur_digest ;; ciphertext_digest <- cur_digest ;;
  anchor_digest <- cur_digest ;;
  rret {| psc_domain := domain; psc_logical_id := logical_id; psc_generation := generation;
          psc_revision := revision; psc_plaintext_digest := plaintext_digest;
          psc_ciphertext_digest := ciphertext_digest; psc_anchor_digest := anchor_digest |}.

Definition put_ExecutionManifestAdmitted (r : ExecutionManifestAdmitted) : writer :=
  wseq [put_u8 16; put_raw (ema_manifest_digest r); put_u64 (ema_generation r);
        put_u64 (ema_revision r); put_u64 (ema_policy_revision r); put_bytes (ema_manifest r)].
Definition read_ExecutionManifestAdmitted : cursor ExecutionManifestAdmitted :=
  manifest_digest <- cur_digest ;; generation <- cur_u64 ;; revision <- cur_u64 ;;
  policy_revision <- cur_u64 ;; manifest <- cur_bytes ;;
  rret {| ema_manifest_digest := manifest_digest; ema_generation := generation; ema_revision := revision;
          ema_policy_revision := policy_revision; ema_manifest := manifest |}.

Definition put_ExecutionManifestRevoked (r : ExecutionManifestRevoked) : writer :=
  wseq [put_u8 17; put_raw (emr_manifest_digest r); put_u64 (emr_generation r);
        put_u64 (emr_revision r)].
Definition read_ExecutionManifestRevoked : cursor ExecutionManifestRevoked :=
  manifest_digest <- cur_digest ;; generation <- cur_u64 ;; revision <- cur_u64 ;;
  rret {| emr_manifest_digest := manifest_digest; emr_generation := generation; emr_revision := revision |}.

Definition put_PolicyBundleActivated (r : PolicyBundleActivated) : writer :=
  wseq [put_u8 21; put_u64 (pba_revision r); put_string (pba_key_id r);
        put_raw (pba_bundle_digest r); put_bytes (pba_bundle r)].
Definition read_PolicyBundleActivated : cursor PolicyBundleActivated :=
  revision <- cur_u64 ;; key_id <- cur_string ;; bundle_digest <- cur_digest ;;
  bundle <- cur_bytes ;;
  rret {| pba_revision := revision; pba_key_id := key_id; pba_bundle_digest := bundle_digest;
          pba_bundle := bundle |}.

Definition put_PolicyBundleRevoked (r : PolicyBundleRevoked) : writer :=
  wseq [put_u8 22; put_u64 (pbr_revision r); put_raw (pbr_bundle_digest r);
        put_string (pbr_reason r)].
Definition read_PolicyBundleRevoked : cursor PolicyBundleRevoked :=
  revision <- cur_u64 ;; bundle_digest <- cur_digest ;; reason <- cur_string ;;
  rret {| pbr_revision := revision; pbr_bundle_digest := bundle_digest; pbr_reason := reason |}.

Definition put_SessionRevoked (r : SessionRevoked) : writer :=
  wseq [put_u8 23; put_string (sr_session_id r); put_string (sr_reason r)].
Definition read_SessionRevoked : cursor SessionRevoked :=
  session_id <- cur_string ;; reason <- cur_string ;;
  rret {| sr_session_id := session_id; sr_reason := reason |}.

Definition put_TierBackendLifecycle (r : TierBackendLifecycle) : writer :=
  wseq [put_u8 24; put_string (tbl_backend_id r); put_u8 (tbl_tier r); put_u8 (tbl_state r);
        put_u64 (tbl_revision r); put_raw (tbl_event_digest r)].
Definition read_TierBackendLifecycle : cursor TierBackendLifecycle :=
  backend_id <- cur_string ;; tier <- cur_u8 ;; state <- cur_u8 ;; revision <- cur_u64 ;;
  event_digest <- cur_digest ;;
  rret {| tbl_backend_id := backend_id; tbl_tier := tier; tbl_state := state; tbl_revision := revision;
          tbl_event_digest := event_digest |}.

Definition put_TierObjectCommitted (r : TierObjectCommitted) : writer :=
  wseq [put_u8 25; put_raw (toc_root_digest r); put_u64 (toc_generation r);
        put_u64 (toc_revision r); put_bytes (toc_manifest r)].
Definition read_TierObjectCommitted : cursor TierObjectCommitted :=
  root_digest <- cur_digest ;; generation <- cur_u64 ;; revision <- cur_u64 ;;
  manifest <- cur_bytes ;;
  rret {| toc_root_digest := root_digest; toc_generation := generation; toc_revision := revision;
          toc_manifest := manifest |}.

Definition put_TierReplicaLifecycle (r : TierReplicaLifecycle) : writer :=
  wseq [put_u8 26; put_raw (trl_root_digest r); put_string (trl_backend_id r);
        put_u8 (trl_tier r); put_u8 (trl_state r); put_u64 (trl_generation r);
        put_u64 (trl_revision r); put_raw (trl_event_digest r)].
Definition read_TierReplicaLifecycle : cursor TierReplicaLifecycle :=
  root_digest <- cur_digest ;; backend_id <- cur_string ;; tier <- cur_u8 ;; state <- cur_u8 ;;
  generation <- cur_u64 ;; revision <- cur_u64 ;; event_digest <- cur_digest ;;
  rret {| trl_root_digest := root_digest; trl_backend_id := backend_id; trl_tier := tier;
          trl_state := state; trl_generation := generation; trl_revision := revision;
          trl_event_digest := event_digest |}.

Definition put_PodEvidenceCommitted (r : PodEvidenceCommitted) : writer :=
  wseq [put_u8 18; put_string (pec_session_id r); put_string (pec_trace_id r);
        put_raw (pec_manifest_digest r); put_raw (pec_artifact_digest r);
        put_u64 (pec_generation r); put_u64 (pec_revision r); put_raw (pec_bundle_digest r);
        put_bytes (pec_bundle r)].
Definition read_PodEvidenceCommitted : cursor PodEvidenceCommitted :=
  session_id <- cur_string ;; trace_id <- cur_string ;; manifest_digest <- cur_digest ;;
  artifact_digest <- cur_digest ;; generation <- cur_u64 ;; revision <- cur_u64 ;;
  bundle_digest <- cur_digest ;; bundle <- cur_bytes ;;
  rret {| pec_session_id := session_id; pec_trace_id := trace_id; pec_manifest_digest := manifest_digest;
          pec_artifact_digest := artifact_digest; pec_generation := generation;
          pec_revision := revision; pec_bundle_digest := bundle_digest; pec_bundle := bundle |}.

Definition put_PodOutputAdmitted (r : PodOutputAdmitted) : writer :=
  wseq [put_u8 19; put_string (poa_request_id r); put_string (poa_session_id r);
        put_string (poa_scope_id r); put_string (poa_pod_id r); put_raw (poa_manifest_digest r);
        put_raw (poa_artifact_digest r); put_u64 (poa_generation r); put_u64 (poa_revision r);
        put_u8 (poa_output_kind r); put_string (poa_output_type r);
        put_raw (poa_output_digest r); put_attestation (poa_verification r)].
Definition read_PodOutputAdmitted : cursor PodOutputAdmitted :=
  request_id <- cur_string ;; session_id <- cur_string ;; scope_id <- cur_string ;;
  pod_id <- cur_string ;; manifest_digest <- cur_digest ;; artifact_digest <- cur_digest ;;
  generation <- cur_u64 ;; revision <- cur_u64 ;; output_kind <- cur_u8 ;;
  output_type <- cur_string ;; output_digest <- cur_digest ;; verification <- attestation ;;
  rret {| poa_request_id := request_id; poa_session_id := session_id; poa_scope_id := scope_id;
          poa_pod_id := pod_id; poa_manifest_digest := manifest_digest;
          poa_artifact_digest := artifact_digest; poa_generation := generation;
          poa_revision := revision; poa_output_kind := output_kind;
          poa_output_type := output_type; poa_output_digest := output_digest;
          poa_verification := verification |}.

Definition put_PodHypothesisCommitted (r : PodHypothesisCommitted) : writer :=
  wseq [put_u8 20; put_string (phc_request_id r); put_string (phc_session_id r);
        put_string (phc_scope_id r); put_string (phc_branch_id r); put_string (phc_pod_id r);
        put_raw (phc_manifest_digest r); put_raw (phc_artifact_digest r);
        put_u64 (phc_generation r); put_u64 (phc_revision r); put_string (phc_output_type r);
        put_raw (phc_output_digest r); put_bytes (phc_payload r);
        put_provenance (phc_provenance r); put_dependencies (phc_dependencies r);
        put_u32 (phc_confidence_bits r); put_u64 (phc_latency_millis r);
        put_attestation (phc_verification r)].
Definition read_PodHypothesisCommitted : cursor PodHypothesisCommitted :=
  request_id <- cur_string ;; session_id <- cur_string ;; scope_id <- cur_string ;;
  branch_id <- cur_string ;; pod_id <- cur_string ;; manifest_digest <- cur_digest ;;
  artifact_digest <- cur_digest ;; generation <- cur_u64 ;; revision <- cur_u64 ;;
  output_type <- cur_string ;; output_digest <- cur_digest ;; payload <- cur_bytes ;;
  provenance <- read_provenance ;; dependencies <- read_dependency_digests ;;
  confidence_bits <- cur_u32 ;; latency_millis <- cur_u64 ;; verification <- attestation ;;
  rret {| phc_request_id := request_id; phc_session_id := session_id; phc_scope_id := scope_id;
          phc_branch_id := branch_id; phc_pod_id := pod_id;
          phc_manifest_digest := manifest_digest; phc_artifact_digest := artifact_digest;
          phc_generation := generation; phc_revision := revision; phc_output_type := output_type;
          phc_output_digest := output_digest; phc_payload := payload;
          phc_provenance := provenance; phc_dependencies := dependencies;
          phc_confidence_bits := confidence_bits; phc_latency_millis := latency_millis;
          phc_verification := verification |}.

Definition put_ExpertStructuralCommitted (r : ExpertStructuralCommitted) : writer :=
  wseq [put_u8 27; put_string (esc_project r); put_op_kind (esc_op_kind r);
        put_raw (esc_proposal_id r); put_raw (esc_operation_id r);
        put_raw (esc_evidence_digest r); put_bytes (esc_record r)].
Definition read_ExpertStructuralCommitted : cursor ExpertStructuralCommitted :=
  project <- cur_string ;; op_kind <- read_op_kind ;; proposal_id <- cur_digest ;;
  operation_id <- cur_digest ;; evidence_digest <- cur_digest ;; record <- cur_bytes ;;
  _ <- rlift (check_expert_record record) ;;
  rret {| esc_project := project; esc_op_kind := op_kind; esc_proposal_id := proposal_id;
          esc_operation_id := operation_id; esc_evidence_digest := evidence_digest;
          esc_record := record |}.

Definition put_ExpertFenceCommitted (r : ExpertFenceCommitted) : writer :=
  wseq [put_u8 28; put_string (efc_project r); put_string (efc_pod r);
        put_fence_action (efc_action r); put_fence_cause (efc_cause r);
        put_fence_resume (efc_resume r); put_u64 (efc_generation r);
        put_u64 (efc_expected_state_version r); put_u64 (efc_epoch r);
        put_revocation (efc_revocation r); put_evidence (efc_evidence r)].
Definition read_ExpertFenceCommitted : cursor ExpertFenceCommitted :=
  project <- cur_string ;; pod <- cur_string ;; action <- read_fence_action ;;
  cause <- read_fence_cause ;; resume <- read_fence_resume ;; generation <- cur_u64 ;;
  expected_state_version <- cur_u64 ;; epoch <- cur_u64 ;; revocation <- read_revocation ;;
  evidence <- read_evidence ;;
  let event :=
       {| efc_project := project; efc_pod := pod; efc_action := action; efc_cause := cause;
          efc_resume := resume; efc_generation := generation;
          efc_expected_state_version := expected_state_version; efc_epoch := epoch;
          efc_revocation := revocation; efc_evidence := evidence |} in
  _ <- rlift (check_expert_fence event) ;; rret event.

Definition put_KvTaintCommitted (r : KvTaintCommitted) : writer :=
  wseq [put_u8 29; put_subjects (ktc_subjects r); put_taint_change (ktc_change r)].
Definition read_KvTaintCommitted : cursor KvTaintCommitted :=
  subjects <- read_subjects ;; change <- read_taint_change ;;
  let event :=
       {| ktc_subjects := subjects; ktc_change := change |} in
  _ <- rlift (check_kv_taint event) ;; rret event.

Definition put_InputInvalidated (r : InputInvalidated) : writer :=
  wseq [put_u8 30; put_string (ii_input r); put_u64 (ii_generation r);
        put_raw (ii_binding_digest r); put_invalidation_kind (ii_kind r);
        put_u32 (ii_fence_count r); put_raw (ii_fence_digest r)].
Definition read_InputInvalidated : cursor InputInvalidated :=
  input <- cur_string ;; generation <- cur_u64 ;; binding_digest <- cur_digest ;;
  kind <- read_invalidation_kind ;; fence_count <- cur_u32 ;; fence_digest <- cur_digest ;;
  let event :=
       {| ii_input := input; ii_generation := generation; ii_binding_digest := binding_digest;
          ii_kind := kind; ii_fence_count := fence_count; ii_fence_digest := fence_digest |} in
  _ <- rlift (check_input_invalidated event) ;; rret event.

Definition put_ExpertAuthorityChanged (r : ExpertAuthorityChanged) : writer :=
  wseq [put_u8 31; put_authority_kind (eac_kind r); put_raw (eac_id_digest r);
        put_u64 (eac_epoch r); put_authority_class (eac_class r); put_u32 (eac_fence_count r);
        put_raw (eac_fence_digest r)].
Definition read_ExpertAuthorityChanged : cursor ExpertAuthorityChanged :=
  kind <- read_authority_kind ;; id_digest <- cur_digest ;; epoch <- cur_u64 ;;
  class <- read_authority_class ;; fence_count <- cur_u32 ;; fence_digest <- cur_digest ;;
  let event :=
       {| eac_kind := kind; eac_id_digest := id_digest; eac_epoch := epoch; eac_class := class;
          eac_fence_count := fence_count; eac_fence_digest := fence_digest |} in
  _ <- rlift (check_expert_authority_changed event) ;; rret event.

Definition put_EgressRefused (r : EgressRefused) : writer :=
  wseq [put_u8 37; put_string (egr_trace_id r); put_refusal_source (egr_source r);
        put_string (egr_target r); put_u32 (egr_count r); put_bool (egr_saturated r);
        put_refusal_reason (egr_reason r)].
Definition read_EgressRefused : cursor EgressRefused :=
  trace_id <- cur_string ;; source <- read_refusal_source ;; target <- cur_string ;;
  count <- cur_u32 ;; saturated <- read_saturated ;; reason <- read_refusal_reason ;;
  let event :=
       {| egr_trace_id := trace_id; egr_source := source; egr_target := target; egr_count := count;
          egr_saturated := saturated; egr_reason := reason |} in
  _ <- rlift (check_egress_refused event) ;; rret event.

Definition put_PodHeadAdvanced (r : PodHeadAdvanced) : writer :=
  wseq [put_u8 38; put_string (pha_project r); put_string (pha_identity r);
        put_old_address (pha_old r); put_revision_address (pha_new r)].
Definition read_PodHeadAdvanced : cursor PodHeadAdvanced :=
  project <- cur_string ;; identity <- cur_string ;; old <- read_old_address ;;
  new <- read_revision_address ;;
  let event :=
       {| pha_project := project; pha_identity := identity; pha_old := old; pha_new := new |} in
  _ <- rlift (check_pod_head_advanced event) ;; rret event.

(** ** Events *)
Definition encode_event (event : LedgerEvent) : writer :=
  match event with
  | Ev_SemanticDeltaCommitted r => put_SemanticDeltaCommitted r
  | Ev_CapsuleCommitted r => put_CapsuleCommitted r
  | Ev_CapsuleSuperseded r => put_CapsuleSuperseded r
  | Ev_Revoked r => put_Revoked r
  | Ev_HardConstraintCommitted r => put_HardConstraintCommitted r
  | Ev_VerifierAttested r => put_VerifierAttested r
  | Ev_ProcedurePromoted r => put_ProcedurePromoted r
  | Ev_ProcedureRevoked r => put_ProcedureRevoked r
  | Ev_SnapshotCommitted r => put_SnapshotCommitted r
  | Ev_EffectAttempted r => put_EffectAttempted r
  | Ev_EffectSettled r => put_EffectSettled r
  | Ev_EffectReconciled r => put_EffectReconciled r
  | Ev_ScopeLifecycle r => put_ScopeLifecycle r
  | Ev_ProtectedStateCommitted r => put_ProtectedStateCommitted r
  | Ev_MeshTunnelLifecycle r => put_MeshTunnelLifecycle r
  | Ev_ExecutionManifestAdmitted r => put_ExecutionManifestAdmitted r
  | Ev_ExecutionManifestRevoked r => put_ExecutionManifestRevoked r
  | Ev_PolicyBundleActivated r => put_PolicyBundleActivated r
  | Ev_PolicyBundleRevoked r => put_PolicyBundleRevoked r
  | Ev_SessionRevoked r => put_SessionRevoked r
  | Ev_TierBackendLifecycle r => put_TierBackendLifecycle r
  | Ev_TierObjectCommitted r => put_TierObjectCommitted r
  | Ev_TierReplicaLifecycle r => put_TierReplicaLifecycle r
  | Ev_PodEvidenceCommitted r => put_PodEvidenceCommitted r
  | Ev_PodOutputAdmitted r => put_PodOutputAdmitted r
  | Ev_PodHypothesisCommitted r => put_PodHypothesisCommitted r
  | Ev_ExpertStructuralCommitted r => put_ExpertStructuralCommitted r
  | Ev_ExpertFenceCommitted r => put_ExpertFenceCommitted r
  | Ev_KvTaintCommitted r => put_KvTaintCommitted r
  | Ev_InputInvalidated r => put_InputInvalidated r
  | Ev_ExpertAuthorityChanged r => put_ExpertAuthorityChanged r
  | Ev_EgressRefused r => put_EgressRefused r
  | Ev_PodHeadAdvanced r => put_PodHeadAdvanced r
  end.

Definition rmap {A B} (f : A → B) (r : cursor A) : cursor B := a <- r ;; rret (f a).

Definition read_event (tag : N) : cursor LedgerEvent :=
  match tag with
  | 8 => rmap Ev_SemanticDeltaCommitted read_SemanticDelta_legacy
  | 12 => rmap Ev_SemanticDeltaCommitted read_SemanticDelta_attributed
  | 0 => rmap Ev_CapsuleCommitted read_CapsuleCommitted
  | 1 => rmap Ev_CapsuleSuperseded read_CapsuleSuperseded
  | 2 => rmap Ev_Revoked read_Revoked
  | 3 => rmap Ev_HardConstraintCommitted read_HardConstraintCommitted
  | 4 => rmap Ev_VerifierAttested read_VerifierAttested
  | 5 => rmap Ev_ProcedurePromoted read_ProcedurePromoted
  | 6 => rmap Ev_ProcedureRevoked read_ProcedureRevoked
  | 7 => rmap Ev_SnapshotCommitted read_SnapshotCommitted
  | 9 => rmap Ev_EffectAttempted read_EffectAttempted
  | 10 => rmap Ev_EffectSettled read_EffectSettled
  | 11 => rmap Ev_EffectReconciled read_EffectReconciled
  | 13 => rmap Ev_ScopeLifecycle read_scope_lifecycle
  | 14 => rmap Ev_ProtectedStateCommitted read_ProtectedStateCommitted
  | 15 => rmap Ev_MeshTunnelLifecycle read_MeshTunnelLifecycle
  | 16 => rmap Ev_ExecutionManifestAdmitted read_ExecutionManifestAdmitted
  | 17 => rmap Ev_ExecutionManifestRevoked read_ExecutionManifestRevoked
  | 18 => rmap Ev_PodEvidenceCommitted read_PodEvidenceCommitted
  | 19 => rmap Ev_PodOutputAdmitted read_PodOutputAdmitted
  | 20 => rmap Ev_PodHypothesisCommitted read_PodHypothesisCommitted
  | 21 => rmap Ev_PolicyBundleActivated read_PolicyBundleActivated
  | 22 => rmap Ev_PolicyBundleRevoked read_PolicyBundleRevoked
  | 23 => rmap Ev_SessionRevoked read_SessionRevoked
  | 24 => rmap Ev_TierBackendLifecycle read_TierBackendLifecycle
  | 25 => rmap Ev_TierObjectCommitted read_TierObjectCommitted
  | 26 => rmap Ev_TierReplicaLifecycle read_TierReplicaLifecycle
  | 27 => rmap Ev_ExpertStructuralCommitted read_ExpertStructuralCommitted
  | 28 => rmap Ev_ExpertFenceCommitted read_ExpertFenceCommitted
  | 29 => rmap Ev_KvTaintCommitted read_KvTaintCommitted
  | 30 => rmap Ev_InputInvalidated read_InputInvalidated
  | 31 => rmap Ev_ExpertAuthorityChanged read_ExpertAuthorityChanged
  | 37 => rmap Ev_EgressRefused read_EgressRefused
  | 38 => rmap Ev_PodHeadAdvanced read_PodHeadAdvanced
  | _ => rfail (bad_code "unknown ledger event tag " tag)
  end%N.

Definition decode_event (payload : list byte) : io_result LedgerEvent :=
  let? (tag, rest) := cur_u8 payload in
  let? (event, rest) := read_event tag rest in
  if negb (bool_decide (rest = [])) then Err (invalid "ledger event contains trailing bytes")
  else Ok event.

Definition MAX_RECORD_BYTES : N := 8 * 1024 * 1024.

(** [None]: the encoder panics. *)
Definition check_encodable (event : LedgerEvent) : option (io_result unit) :=
  match check_origin_bounds event with
  | Err e => Some (Err e)
  | Ok _ =>
      payload ← encode_event event;
      Some (if (MAX_RECORD_BYTES <? blen payload)%N then Err (invalid "PTR_LOG_PAYLOAD_LIMIT")
            else Ok tt)
  end.
