(* ===== verification/LedgerCodecFacts.v ===== *)
(** * The event codec is exact

    Every part of the codec is shown to be an instance of [Codec]: what its
    writer writes its reader reads back, and what its reader accepts is exactly
    what its writer writes.  The instances compose, so the proofs about the
    variants are all the same two tactics, [codec_forward] and
    [codec_backward]. *)

From S2P Require Import Prelude Bytes Types LedgerEvents LedgerChecks LedgerCodec.
From stdpp Require Import options.

(** A value of its type that also passes a check. *)
Definition ok_and {A} (ok : A → bool) (check : A → io_result unit) (a : A) : Prop :=
  ok a = true ∧ check a = Ok tt.
Definition is_true_of {A} (ok : A → bool) (a : A) : Prop := ok a = true.
Definition any {A} (_ : A) : Prop := True.

(** ** Primitives *)
#[export] Instance codec_u8 : Codec cur_u8 put_u8 (is_true_of u8_ok).
Proof.
  split.
  - intros v Hv p rest [= <-]. simpl. rewrite to_N_byte_of_N, N.mod_small; [done|].
    by apply N.ltb_lt in Hv.
  - intros [|b bs] v rest [= <- <-]. split.
    + apply N.ltb_lt. apply (to_N_lt b).
    + exists [b]. split; [|done]. unfold put_u8. by rewrite byte_of_to_N.
Qed.

Lemma cur_take_reads n v : length v = n → Reads (cur_take n) (Some v) v.
Proof.
  intros Hn p rest [= <-]. unfold cur_take. rewrite length_app.
  rewrite (proj2 (Nat.ltb_ge _ _)) by lia.
  by rewrite <-Hn, take_app_length, drop_app_length.
Qed.
Lemma cur_take_exact n bs v rest :
  cur_take n bs = Ok (v, rest) → length v = n ∧ bs = v ++ rest.
Proof.
  unfold cur_take. destruct (length bs <? n)%nat eqn:Hn; [done|]. intros [= <- <-].
  apply Nat.ltb_ge in Hn. rewrite length_take, take_drop. split; [lia|done].
Qed.

Lemma codec_le n (ok : N → bool) (r : cursor N) :
  (∀ v, ok v = true ↔ (v < 256 ^ N.of_nat n)%N) →
  r = (b <- cur_take n ;; rret (le_value b)) →
  Codec r (λ v, Some (le_bytes n v)) (is_true_of ok).
Proof.
  intros Hok ->. split.
  - intros v Hv p rest [= <-]. unfold rseq.
    rewrite (cur_take_reads n (le_bytes n v)) by (done || apply length_le_bytes).
    unfold rret. by rewrite le_value_bytes by by apply Hok.
  - intros bs v rest H. apply rseq_ok_inv in H as (b & mid & Hb & H).
    apply rret_ok_inv in H as [<- <-]. apply cur_take_exact in Hb as [Hn ->]. split.
    + apply Hok. rewrite <-Hn. apply le_value_lt.
    + exists b. split; [|done]. by rewrite <-Hn, le_bytes_value.
Qed.

#[export] Instance codec_u32 : Codec cur_u32 put_u32 (is_true_of u32_ok).
Proof. apply (codec_le 4); [|done]. intros v. apply N.ltb_lt. Qed.
#[export] Instance codec_u64 : Codec cur_u64 put_u64 (is_true_of u64_ok).
Proof. apply (codec_le 8); [|done]. intros v. apply N.ltb_lt. Qed.

#[export] Instance codec_digest : Codec cur_digest put_raw (is_true_of digest_ok).
Proof.
  split.
  - intros v Hv. apply cur_take_reads. by apply Nat.eqb_eq in Hv.
  - intros bs v rest H. apply cur_take_exact in H as [Hn ->]. split.
    + unfold is_true_of, digest_ok. by apply Nat.eqb_eq.
    + by exists v.
Qed.

(** Sixteen single bytes are the little-endian word. *)
Lemma repeat_u8 n bs vs rest :
  rrepeat n cur_u8 bs = Ok (vs, rest) →
  length vs = n ∧ bs = (byte_of_N <$> vs) ++ rest.
Proof.
  intros H. apply (exact_repeat _ put_u8 (is_true_of u8_ok)) in H as ([Hn _] & p & Hp & ->);
    [|apply codec_exact].
  split; [done|]. f_equal. clear Hn. revert p Hp.
  induction vs as [|v vs IH]; intros p Hp; [by injection Hp as <-|].
  change (wapp (put_u8 v) (wseq (put_u8 <$> vs)) = Some p) in Hp.
  destruct (wseq (put_u8 <$> vs)) as [q|]; [|done]. injection Hp as <-.
  simpl. f_equal. by apply IH.
Qed.
Lemma repeat_u8_reads bs rest :
  rrepeat (length bs) cur_u8 (bs ++ rest) = Ok (Byte.to_N <$> bs, rest).
Proof.
  induction bs as [|b bs IH]; [done|]. cbn [length rrepeat app]. unfold rseq at 1. cbn [cur_u8].
  unfold rseq. by rewrite IH.
Qed.

#[export] Instance codec_u128 : Codec cur_u128 put_u128 (is_true_of u128_ok).
Proof.
  split.
  - intros v Hv p rest Hp.
    assert (p = le_bytes 16 v) as -> by (unfold put_u128 in Hp; congruence).
    unfold cur_u128, rseq. rewrite <-(length_le_bytes 16 v) at 1. rewrite repeat_u8_reads. unfold rret.
    rewrite <-list_fmap_compose, (list_fmap_ext _ id), list_fmap_id
      by (intros; apply byte_of_to_N).
    rewrite le_value_bytes; [done|]. by apply N.ltb_lt in Hv.
  - intros bs v rest H. apply rseq_ok_inv in H as (b & mid & Hb & H).
    apply rret_ok_inv in H as [<- <-]. apply repeat_u8 in Hb as [Hn ->].
    assert (length (byte_of_N <$> b) = 16) as Hl by by rewrite length_fmap.
    split.
    + apply N.ltb_lt. pose proof (le_value_lt (byte_of_N <$> b)) as Hlt.
      rewrite Hl in Hlt. exact Hlt.
    + exists (byte_of_N <$> b). split; [|done]. unfold put_u128.
      rewrite <-Hl at 1. by rewrite le_bytes_value.
Qed.

#[export] Instance codec_bytes : Codec cur_bytes put_bytes any.
Proof.
  split.
  - intros v _ p rest Hp. unfold put_bytes in Hp.
    destruct (blen v <? 2 ^ 32)%N eqn:Hv; [|done]. apply (inj Some) in Hp. subst p.
    unfold cur_bytes. rewrite <-app_assoc.
    rewrite (codec_reads (Codec := codec_u32) (blen v) Hv _ _ eq_refl). cbn [rbind fst snd].
    rewrite (proj2 (N.ltb_ge _ _)) by (autorewrite with blen; lia).
    unfold blen. by rewrite Nat2N.id, take_app_length, drop_app_length.
  - intros bs v rest H. unfold cur_bytes in H.
    apply rbind_ok_inv in H as ([n mid] & Hn & H).
    apply (codec_exact (Codec := codec_u32)) in Hn as (Hu & p & [= <-] & ->).
    cbn in H. destruct (blen mid <? n)%N eqn:Hl; [done|]. injection H as <- <-.
    split; [done|]. apply N.ltb_ge in Hl. unfold blen in Hl.
    assert (blen (take (N.to_nat n) mid) = n) as Hlen.
    { unfold blen. rewrite length_take. lia. }
    exists (le_bytes 4 n ++ take (N.to_nat n) mid).
    unfold put_bytes. rewrite Hlen. unfold is_true_of, u32_ok in Hu. rewrite Hu.
    split; [done|]. by rewrite <-app_assoc, take_drop.
Qed.

#[export] Instance codec_string : Codec cur_string put_string (is_true_of str_ok).
Proof.
  split.
  - intros s Hs p rest Hp. unfold cur_string, rseq.
    rewrite (codec_reads (Codec := codec_bytes) (str_bytes s) I p rest Hp).
    by rewrite String.string_of_list_byte_of_string, Hs.
  - intros bs s rest H. apply rseq_ok_inv in H as (b & mid & Hb & H).
    apply (codec_exact (Codec := codec_bytes)) in Hb as (_ & p & Hp & ->).
    destruct (str_ok (bytes_str b)) eqn:Hs; [|done]. apply rret_ok_inv in H as [<- <-].
    split; [done|]. exists p. split; [|done]. unfold put_string.
    by rewrite String.list_byte_of_string_of_list_byte.
Qed.

(** ** Vocabularies, optional values, sequences *)
Lemma codec_code {A} (code : A → N) (from_code : N → option A) message (put : A → writer) :
  (∀ a, put a = put_u8 (code a)) → (∀ a, u8_ok (code a) = true) →
  (∀ a n, from_code n = Some a ↔ n = code a) →
  Codec (read_code from_code message) put any.
Proof.
  intros Hput Hu Hc. split.
  - intros a _ p rest Hp. rewrite Hput in Hp. unfold read_code, rseq.
    rewrite (codec_reads (Codec := codec_u8) (code a) (Hu a) p rest Hp).
    by rewrite (proj2 (Hc a (code a)) eq_refl).
  - intros bs a rest H. apply rseq_ok_inv in H as (n & mid & Hn & H).
    apply rlift_ok_inv in H as [H <-]. apply ok_or_ok_inv, Hc in H as ->.
    apply (codec_exact (Codec := codec_u8)) in Hn as (_ & p & Hp & ->).
    split; [done|]. exists p. by rewrite Hput.
Qed.

Ltac solve_code from_code :=
  let a := fresh "a" in let n := fresh "n" in let H := fresh "H" in
  intros a n; split; [|intros ->; by destruct a]; unfold from_code; intros H;
  repeat (case_match; try discriminate H); by simplify_eq.

#[export] Instance codec_effect : Codec read_effect put_effect any.
Proof. apply (codec_code effect_code); [done|by intros []|solve_code effect_from_code]. Qed.
#[export] Instance codec_verification : Codec read_verification put_verification any.
Proof. apply (codec_code verification_code); [done|by intros []|solve_code verification_from_code]. Qed.
#[export] Instance codec_scope_kind : Codec read_scope_kind put_scope_code any.
Proof. apply (codec_code scope_kind_code); [done|by intros []|solve_code scope_kind_from_code]. Qed.
#[export] Instance codec_mesh_kind : Codec read_mesh_kind put_mesh_kind any.
Proof. apply (codec_code mesh_event_kind_code); [done|by intros []|solve_code mesh_event_kind_from_code]. Qed.
#[export] Instance codec_mesh_route : Codec read_mesh_route put_mesh_route any.
Proof. apply (codec_code mesh_route_code); [done|by intros []|solve_code mesh_route_from_code]. Qed.
#[export] Instance codec_op_kind : Codec read_op_kind put_op_kind any.
Proof. apply (codec_code ExpertOpKind_code); [done|by intros []|solve_code ExpertOpKind_from_code]. Qed.
#[export] Instance codec_fence_action : Codec read_fence_action put_fence_action any.
Proof. apply (codec_code ExpertFenceAction_code); [done|by intros []|solve_code ExpertFenceAction_from_code]. Qed.
#[export] Instance codec_fence_cause : Codec read_fence_cause put_fence_cause any.
Proof. apply (codec_code ExpertFenceCause_code); [done|by intros []|solve_code ExpertFenceCause_from_code]. Qed.
#[export] Instance codec_fence_resume : Codec read_fence_resume put_fence_resume any.
Proof. apply (codec_code ExpertFenceResume_code); [done|by intros []|solve_code ExpertFenceResume_from_code]. Qed.
#[export] Instance codec_subject_kind : Codec read_subject_kind put_subject_kind any.
Proof. apply (codec_code KvTaintSubjectKind_code); [done|by intros []|solve_code KvTaintSubjectKind_from_code]. Qed.
#[export] Instance codec_authority_kind : Codec read_authority_kind put_authority_kind any.
Proof. apply (codec_code ExpertAuthorityKind_code); [done|by intros []|solve_code ExpertAuthorityKind_from_code]. Qed.
#[export] Instance codec_authority_class : Codec read_authority_class put_authority_class any.
Proof. apply (codec_code ExpertAuthorityClass_code); [done|by intros []|solve_code ExpertAuthorityClass_from_code]. Qed.
#[export] Instance codec_refusal_reason : Codec read_refusal_reason put_refusal_reason any.
Proof. apply (codec_code EgressRefusalReason_code); [done|by intros []|solve_code EgressRefusalReason_from_code]. Qed.

Lemma codec_bool message : Codec (read_code bool_from_code message) put_bool any.
Proof.
  apply (codec_code (λ b : bool, if b then 1 else 0)%N);
    [done|by intros []|solve_code bool_from_code].
Qed.
#[export] Instance codec_read_bool : Codec read_bool put_bool any.
Proof. apply codec_bool. Qed.
#[export] Instance codec_read_presence : Codec read_presence put_bool any.
Proof. apply codec_bool. Qed.
#[export] Instance codec_read_saturated : Codec read_saturated put_bool any.
Proof. apply codec_bool. Qed.

(** Reading a fixed first byte. *)
Lemma u8_reads n rest : u8_ok n = true → cur_u8 (byte_of_N n :: rest) = Ok (n, rest).
Proof. intros H. by apply (codec_reads (Codec := codec_u8) n H [byte_of_N n]). Qed.

Definition opt_wf {A} (wf : A → Prop) (o : option A) : Prop :=
  match o with
  | Some a => wf a
  | None => True
  end.

Lemma codec_opt {A} message (r : cursor A) (w : A → writer) wf :
  Codec r w wf → Codec (read_opt message r) (put_opt w) (opt_wf wf).
Proof.
  intros Hr. split.
  - intros [a|] Ha p rest Hp; unfold read_opt, rseq.
    + unfold put_opt, wseq in Hp. cbn [foldr wapp put_u8] in Hp.
      destruct (w a) as [q|] eqn:Hq; [|done]. apply (inj Some) in Hp. subst p.
      rewrite app_nil_r. cbn [app]. rewrite u8_reads by done. by rewrite (codec_reads a Ha q rest Hq).
    + apply (inj Some) in Hp. subst p. cbn [app]. by rewrite u8_reads.
  - intros bs o rest H. apply rseq_ok_inv in H as (n & mid & Hn & H).
    apply (codec_exact (Codec := codec_u8)) in Hn as (_ & p & [= <-] & ->).
    repeat (case_match; try discriminate H).
    + apply rret_ok_inv in H as [<- <-]. split; [done|]. by eexists.
    + apply rseq_ok_inv in H as (a & mid' & Ha & H). apply rret_ok_inv in H as [<- <-].
      apply codec_exact in Ha as (Hwf & q & Hq & ->). split; [done|].
      exists (byte_of_N 1 :: q). unfold put_opt, wseq. cbn [foldr wapp put_u8]. rewrite Hq.
      split; [|done]. cbn [wapp]. by rewrite app_nil_r.
Qed.

(** [put_opt] over a type predicate gives [opt_ok]. *)
Lemma codec_opt_ok {A} message (r : cursor A) (w : A → writer) (ok : A → bool) :
  Codec r w (is_true_of ok) → Codec (read_opt message r) (put_opt w) (is_true_of (opt_ok ok)).
Proof.
  intros Hr. destruct (codec_opt message r w _ Hr) as [Hf Hb]. split.
  - intros o Ho. apply Hf. by destruct o.
  - intros bs o rest H. apply Hb in H as [Hwf H]. split; [by destruct o|done].
Qed.

#[export] Instance codec_optional_string :
  Codec cur_optional_string put_optional_string (is_true_of (opt_ok str_ok)).
Proof. apply codec_opt_ok, _. Qed.
#[export] Instance codec_optional_u64 :
  Codec read_optional_u64 put_optional_u64 (is_true_of (opt_ok u64_ok)).
Proof. apply codec_opt_ok, _. Qed.
#[export] Instance codec_optional_u128 :
  Codec read_optional_u128 put_optional_u128 (is_true_of (opt_ok u128_ok)).
Proof. apply codec_opt_ok, _. Qed.

Lemma codec_opt_any {A} message (r : cursor A) (w : A → writer) :
  Codec r w any → Codec (read_opt message r) (put_opt w) any.
Proof.
  intros Hr. destruct (codec_opt message r w _ Hr) as [Hf Hb]. split.
  - intros o _. apply Hf. by destruct o.
  - intros bs o rest H. apply Hb in H as [_ H]. done.
Qed.
#[export] Instance codec_response : Codec read_response put_response any.
Proof. apply codec_opt_any, _. Qed.
#[export] Instance codec_optional_scope_kind :
  Codec read_optional_scope_kind put_scope_kind any.
Proof. apply codec_opt_any, _. Qed.

(** ** Sequences of fields

    [codec_forward] walks a reader and the list of writers together; the goals
    left are the conditions on the fields.  [codec_backward] takes a successful
    read apart and puts the written pieces back together. *)
Lemma wseq_cons w ws : wseq (w :: ws) = wapp w (wseq ws).
Proof. done. Qed.

Lemma reads_done {E A} (a : A) : Reads (E := E) (rret a) (wseq []) a.
Proof. apply reads_ret. Qed.

Lemma reads_code {A} (k : N → cursor A) n ws a :
  u8_ok n = true → Reads (k n) (wseq ws) a →
  Reads (code <- cur_u8 ;; k code) (wseq (put_u8 n :: ws)) a.
Proof. intros Hn Hk. rewrite wseq_cons. eapply reads_seq; [by apply codec_reads|done]. Qed.

Ltac wf_solve := unfold is_true_of, any, ok_and, opt_wf in *; cbn in *; bool_prop; try done; auto.

Ltac codec_forward :=
  repeat first
    [ apply reads_done
    | apply reads_code; [reflexivity|]
    | rewrite wseq_cons; eapply reads_seq; [apply codec_reads; wf_solve|]
    | eapply reads_check; [eassumption|] ].

(** Take apart one step of a successful read. *)
Ltac read_step :=
  match goal with
  | H : rseq _ _ _ = Ok (_, _) |- _ => apply rseq_ok_inv in H as (?&?&?&H)
  | H : rlift _ _ = Ok (_, _) |- _ => apply rlift_ok_inv in H as [? ?]; subst
  | H : rret _ _ = Ok (_, _) |- _ => apply rret_ok_inv in H as [? ?]; subst
  | H : rfail _ _ = Ok (_, _) |- _ => discriminate H
  | H : ?r ?bs = Ok (?a, ?rest) |- _ => apply codec_exact in H as (?&?&?&?); subst
  | u : unit |- _ => destruct u
  end.

Lemma wapp_some w1 w2 p1 p2 : w1 = Some p1 → w2 = Some p2 → wapp w1 w2 = Some (p1 ++ p2).
Proof. by intros -> ->. Qed.

Ltac write_back :=
  eexists; split;
  [repeat (rewrite wseq_cons; eapply wapp_some; [first [eassumption|reflexivity]|]); reflexivity
  |rewrite ?app_nil_r, <-?app_assoc; reflexivity].

Ltac codec_backward :=
  let bs := fresh "bs" in let a := fresh "a" in let rest := fresh "rest" in
  let H := fresh "H" in
  intros bs a rest H; repeat read_step; (split; [wf_solve|write_back]).

(** ** Lists with a count *)
Lemma codec_counted {A} (cn : cursor N) (pn0 pn : N → writer) (okn : N → Prop)
    (check : N → io_result unit) (r : cursor A) (w : A → writer) (wf : A → Prop) :
  Codec cn pn0 okn → Codec r w wf → (∀ n, check n = Ok tt → okn n ∧ pn n = pn0 n) →
  Codec (read_counted cn check r) (put_counted pn w)
        (λ l, check (blen l) = Ok tt ∧ Forall wf l).
Proof.
  intros Hcn Hr Hpn. split.
  - intros l [Hc Hl]. destruct (Hpn _ Hc) as [Hok Heq]. unfold read_counted, put_counted.
    rewrite Heq, wseq_cons. eapply reads_seq; [by apply codec_reads|].
    eapply reads_check; [done|]. rewrite wseq_cons. apply reads_last.
    unfold blen. rewrite Nat2N.id. apply reads_repeat.
    eapply Forall_impl; [done|]. intros a Ha. by apply codec_reads.
  - intros bs l rest H. apply rseq_ok_inv in H as (n & mid & Hn & H).
    apply rseq_ok_inv in H as ([] & mid' & Hc & H). apply rlift_ok_inv in Hc as [Hc <-].
    apply codec_exact in Hn as (_ & p & Hp & ->).
    apply (exact_repeat _ w wf) in H as ([Hlen Hl] & q & Hq & ->); [|apply codec_exact].
    assert (blen l = n) as Hb by (unfold blen; lia).
    split; [by rewrite Hb|]. exists (p ++ q). split; [|by rewrite app_assoc].
    unfold put_counted. destruct (Hpn _ Hc) as [_ Heq]. rewrite Hb, Heq.
    rewrite wseq_cons, Hp, wseq_cons, Hq. cbn [wapp wseq foldr]. by rewrite app_nil_r.
Qed.

Lemma Forall_forallb {A} (ok : A → bool) l : forallb ok l = true ↔ Forall (is_true_of ok) l.
Proof. rewrite forallb_forall, Forall_forall. setoid_rewrite list_elem_of_In. done. Qed.

Lemma count8_small n m : (n ≤ m)%N → (m < 2 ^ 8)%N → is_true_of u8_ok n ∧ put_count8 n = put_u8 n.
Proof.
  intros. unfold is_true_of, u8_ok, put_count8. rewrite (proj2 (N.ltb_lt _ _)) by lia. done.
Qed.

#[export] Instance codec_verifiers :
  Codec (read_counted cur_u8 check_attestation_verifier_count cur_string)
        (put_counted put_count8 put_string)
        (λ l, check_attestation_verifier_count (blen l) = Ok tt ∧ Forall (is_true_of str_ok) l).
Proof.
  eapply codec_counted; [apply _..|]. intros n Hn.
  unfold check_attestation_verifier_count in Hn. case_match; [done|]. bool_prop.
  by eapply count8_small.
Qed.
#[export] Instance codec_findings :
  Codec (read_counted cur_u8 check_attestation_finding_count cur_string)
        (put_counted put_count8 put_string)
        (λ l, check_attestation_finding_count (blen l) = Ok tt ∧ Forall (is_true_of str_ok) l).
Proof.
  eapply codec_counted; [apply _..|]. intros n Hn.
  unfold check_attestation_finding_count in Hn. case_match; [done|]. bool_prop.
  by eapply count8_small.
Qed.

#[export] Instance codec_attestation :
  Codec attestation put_attestation (ok_and attestation_ok check_attestation).
Proof.
  unfold attestation, put_attestation. split.
  - intros a [Hok Hc]. unfold attestation_ok in Hok. bool_prop.
    rewrite !Forall_forallb in *. unfold check_attestation in Hc. result_inv.
    codec_forward. destruct a. apply reads_done.
  - intros bs a rest H. repeat read_step.
    repeat match goal with H : _ ∧ _ |- _ => destruct H end.
    split; [|write_back]. split.
    + unfold attestation_ok. cbn. apply andb_true_intro. by rewrite !Forall_forallb.
    + unfold check_attestation. cbn.
      repeat match goal with H : ?x = Ok tt |- _ => rewrite H; clear H; cbn end. done.
Qed.

(** ** Choices: a code byte, then the fields of the case *)

(** Take the code byte's case apart, once its value is known. *)
Ltac read_choice :=
  let bs := fresh "bs" in let a := fresh "a" in let rest := fresh "rest" in
  let H := fresh "H" in
  intros bs a rest H; apply rseq_ok_inv in H as (?&?&?&H);
  repeat (match type of H with
          | context [match ?x with _ => _ end] => is_var x; destruct x
          end; try discriminate H); repeat read_step.

#[export] Instance codec_merge_authority :
  Codec read_merge_authority put_merge_authority (is_true_of authority_ok).
Proof.
  unfold read_merge_authority, put_merge_authority. split.
  - intros [v b|v] Hok; unfold is_true_of in Hok; simpl in Hok; bool_prop; codec_forward.
  - read_choice; (split; [|write_back]); unfold is_true_of, authority_ok in *;
      repeat (apply andb_true_intro; split); done.
Qed.

(** ** Rebased keys *)
Lemma string_ltb_leb x y : String.leb y x = false ↔ String.le x y ∧ x ≠ y.
Proof.
  unfold String.le. pose proof (total String.le x y) as Ht. unfold String.le in Ht.
  split.
  - intros H. split.
    + destruct Ht as [Ht|Ht]; [done|]. rewrite H in Ht. done.
    + intros ->. assert (String.le y y) as Hr by reflexivity. unfold String.le in Hr.
      rewrite H in Hr. done.
  - intros [Hle Hne]. destruct (String.leb y x) eqn:Hyx; [|done]. destruct Hne.
    apply (anti_symm String.le); unfold String.le; [done|by rewrite Hyx].
Qed.

(** The keys of a list are above [previous] and strictly ascending. *)
Fixpoint ascending (previous : option string) (l : list string) : Prop :=
  match l with
  | [] => True
  | k :: l => (match previous with Some p => String.leb k p = false | None => True end) ∧
              ascending (Some k) l
  end.

Lemma ascending_sorted previous l :
  ascending previous l → StronglySorted String.le l ∧ NoDup l ∧
  match previous with Some p => Forall (λ k, String.leb k p = false) l | None => True end.
Proof.
  revert previous. induction l as [|k l IH]; intros previous H.
  { split; [constructor|]. split; [constructor|]. by destruct previous. }
  destruct H as [Hp H]. apply IH in H as (Hs & Hnd & Hf). split; [|split].
  - constructor; [done|]. eapply Forall_impl; [done|]. intros x Hx. simpl in Hx.
    by apply string_ltb_leb in Hx as [? _].
  - constructor; [|done]. intros Hin. rewrite Forall_forall in Hf. apply Hf in Hin.
    by apply string_ltb_leb in Hin as [_ ?].
  - destruct previous as [p|]; [|done]. constructor; [done|].
    eapply Forall_impl; [done|]. intros x Hx. simpl in Hx.
    apply string_ltb_leb in Hx as [Hkx Hne], Hp as [Hpk Hne']. apply string_ltb_leb. split.
    + by etrans.
    + intros ->. apply Hne'. by apply (anti_symm String.le).
Qed.

Lemma sorted_ascending l :
  StronglySorted String.le l → NoDup l → ascending None l.
Proof.
  intros Hs Hnd. assert (∀ p, match p with Some p => Forall (λ k, String.leb k p = false) l
                               | None => True end → ascending p l) as Hgen; [|by apply Hgen].
  induction Hs as [|k l Hs IH Hk]; intros p Hp; [done|].
  apply NoDup_cons in Hnd as [Hnin Hnd]. split.
  - destruct p; [by apply Forall_cons in Hp as [? _]|done].
  - apply (IH Hnd (Some k)). apply Forall_forall. intros x Hx. apply string_ltb_leb. split.
    + by rewrite Forall_forall in Hk; apply Hk.
    + by intros ->.
Qed.

Lemma read_ascending_reads l previous keys :
  ascending previous l → Forall (is_true_of str_ok) l →
  Reads (read_ascending (length l) previous keys) (wseq (put_string <$> l))
        (list_to_set l ∪ keys).
Proof.
  revert previous keys. induction l as [|k l IH]; intros previous keys Ha Hok.
  { cbn [length read_ascending fmap list_fmap list_to_set]. rewrite (left_id_L ∅ (∪)).
    apply reads_done. }
  apply Forall_cons in Hok as [Hk Hok]. destruct Ha as [Hp Ha].
  cbn [length read_ascending]. rewrite fmap_cons, wseq_cons.
  eapply reads_seq; [by apply codec_reads|]. eapply reads_check.
  { destruct previous; [by rewrite Hp|done]. }
  specialize (IH (Some k) ({[k]} ∪ keys) Ha Hok).
  assert (list_to_set (k :: l) ∪ keys = list_to_set l ∪ ({[k]} ∪ keys)) as -> by set_solver.
  done.
Qed.

Lemma read_ascending_exact n previous keys bs s rest :
  read_ascending n previous keys bs = Ok (s, rest) →
  ∃ l p, length l = n ∧ ascending previous l ∧ Forall (is_true_of str_ok) l ∧
         s = list_to_set l ∪ keys ∧ wseq (put_string <$> l) = Some p ∧ bs = p ++ rest.
Proof.
  revert previous keys bs. induction n as [|n IH]; intros previous keys bs H;
    cbn [read_ascending] in H.
  - apply rret_ok_inv in H as [<- <-]. exists [], []. simpl.
    by rewrite (left_id_L ∅ (∪)).
  - apply rseq_ok_inv in H as (k & mid & Hk & H). apply rseq_ok_inv in H as ([] & mid' & Hc & H).
    apply rlift_ok_inv in Hc as [Hc <-]. apply codec_exact in Hk as (Hok & p & Hp & ->).
    apply IH in H as (l & q & Hlen & Ha & Hl & -> & Hq & ->).
    exists (k :: l), (p ++ q). split; [simpl; lia|]. split.
    { split; [|done]. destruct previous; [|done]. by case_match. }
    split; [by constructor|]. split; [set_solver|].
    rewrite fmap_cons, wseq_cons, Hp, Hq. split; [done|]. by rewrite app_assoc.
Qed.

#[export] Instance codec_rebased :
  Codec read_rebased put_rebased
    (λ s, check_rebased_key_count (N.of_nat (size s)) = Ok tt ∧
          forallb str_ok (bset_list s) = true).
Proof.
  assert (∀ n, check_rebased_key_count n = Ok tt →
            is_true_of u32_ok n ∧ put_count32 n = put_u32 n) as Hsmall.
  { intros n Hn. unfold check_rebased_key_count, MAX_REBASED_KEYS in Hn. case_match; [done|].
    bool_prop. unfold is_true_of, u32_ok, put_count32.
    rewrite (proj2 (N.ltb_lt _ _)) by lia. done. }
  split.
  - intros s [Hc Hok]. rewrite Forall_forallb in Hok. unfold read_rebased, put_rebased.
    destruct (Hsmall _ Hc) as [Hu ->]. rewrite wseq_cons.
    eapply reads_seq; [by apply codec_reads|]. eapply reads_check; [done|].
    rewrite wseq_cons. apply reads_last. rewrite Nat2N.id, <-bset_list_length.
    rewrite <-(bset_list_to_set s) at 3. rewrite <-(right_id_L ∅ (∪) (list_to_set _)).
    apply read_ascending_reads; [|done].
    apply sorted_ascending; [apply bset_list_sorted|apply bset_list_nodup].
  - intros bs s rest H. apply rseq_ok_inv in H as (n & mid & Hn & H).
    apply rseq_ok_inv in H as ([] & mid' & Hc & H). apply rlift_ok_inv in Hc as [Hc <-].
    apply codec_exact in Hn as (_ & p & Hp & ->).
    apply read_ascending_exact in H as (l & q & Hlen & Ha & Hl & -> & Hq & ->).
    apply ascending_sorted in Ha as (Hs & Hnd & _). rewrite (right_id_L ∅ (∪)).
    assert (N.of_nat (size (list_to_set l : gset string)) = n) as Hsz.
    { rewrite size_list_to_set by done. lia. }
    rewrite Hsz, (bset_list_unique l) by done. split; [by rewrite Forall_forallb|].
    exists (p ++ q). split; [|by rewrite app_assoc].
    unfold put_rebased. rewrite Hsz, (bset_list_unique l) by done.
    destruct (Hsmall _ Hc) as [_ ->]. rewrite wseq_cons, Hp, wseq_cons, Hq. cbn.
    by rewrite app_nil_r.
Qed.

(** ** Records *)
Ltac split_ands :=
  cbv beta in *;
  repeat match goal with
  | H : _ ∧ _ |- _ => destruct H
  | H : ok_and _ _ _ |- _ => destruct H
  end.
(** A conjunction of field conditions, from the conditions of the fields. *)
Ltac ands := solve [repeat first [assumption|apply andb_true_intro; split]].
Tactic Notation "fields_ok" reference(ok) :=
  unfold is_true_of at 1; unfold ok; ands.

Definition merge_wf (m : MergeRecord) : Prop :=
  merge_ok m = true ∧ check_origin (Origin_Merge m) = Ok tt.

#[export] Instance codec_merge : Codec read_merge put_merge merge_wf.
Proof.
  unfold read_merge, put_merge. split.
  - intros m [Hok Hc]. unfold merge_ok in Hok. bool_prop. cbn in Hc. result_inv.
    codec_forward. destruct m. apply reads_done.
  - intros bs m rest H. repeat read_step. split_ands. split; [|write_back]. split.
    + unfold merge_ok. ands.
    + cbn. repeat match goal with H : ?x = Ok tt |- _ => rewrite H; clear H; cbn end. done.
Qed.

Definition origin_wf (o : SemanticOrigin) : Prop :=
  o ≠ Legacy ∧ origin_ok o = true ∧ check_origin o = Ok tt.

#[export] Instance codec_origin : Codec attributed_origin put_origin origin_wf.
Proof.
  unfold attributed_origin, put_origin. split.
  - intros o (Hl & Hok & Hc). destruct o; try done; cbn [origin_ok check_origin] in *;
      bool_prop; apply reads_code; try reflexivity; codec_forward; try done; by split.
  - read_choice; split_ands; try (match goal with H : merge_wf _ |- _ => destruct H end);
      (split; [|write_back]); (split; [done|]);
      (split; [cbn [origin_ok]; ands|done]).
Qed.

#[export] Instance codec_scope_lifecycle :
  Codec read_scope_lifecycle put_scope_lifecycle (is_true_of scope_event_ok).
Proof.
  unfold read_scope_lifecycle, put_scope_lifecycle. split.
  - intros e Hok. unfold is_true_of, scope_event_ok, lease_ok in Hok. bool_prop.
    codec_forward. destruct e as [????????[]]. apply reads_done.
  - intros bs e rest H. repeat read_step. split; [|write_back]. fields_ok scope_event_ok.
Qed.

#[export] Instance codec_endpoint :
  Codec read_endpoint put_endpoint
    (ok_and mesh_endpoint_ok (λ e, wrap_resolve (MeshEndpointBinding_validate e))).
Proof.
  unfold read_endpoint, put_endpoint. split.
  - intros e [Hok Hc]. unfold mesh_endpoint_ok in Hok. bool_prop. destruct e.
    codec_forward.
  - intros bs e rest H. repeat read_step. split; [|write_back]. split; [|done].
    unfold mesh_endpoint_ok. ands.
Qed.
#[export] Instance codec_mesh_endpoint :
  Codec read_mesh_endpoint put_mesh_endpoint (opt_wf _) := codec_opt _ _ _ _ codec_endpoint.

#[export] Instance codec_fence_revocation :
  Codec read_fence_revocation put_fence_revocation (is_true_of fence_revocation_ok).
Proof.
  unfold read_fence_revocation, put_fence_revocation. split.
  - intros r Hok. unfold is_true_of, fence_revocation_ok in Hok. bool_prop. destruct r.
    codec_forward.
  - intros bs e rest H. repeat read_step. split; [fields_ok fence_revocation_ok|write_back].
Qed.
#[export] Instance codec_revocation :
  Codec read_revocation put_revocation (is_true_of (opt_ok fence_revocation_ok)).
Proof. apply codec_opt_ok, _. Qed.

#[export] Instance codec_fence_evidence :
  Codec read_fence_evidence put_fence_evidence (is_true_of fence_evidence_ok).
Proof.
  unfold read_fence_evidence, put_fence_evidence. split.
  - intros r Hok. unfold is_true_of, fence_evidence_ok in Hok. bool_prop. destruct r.
    codec_forward.
  - intros bs e rest H. repeat read_step. split; [fields_ok fence_evidence_ok|write_back].
Qed.
#[export] Instance codec_evidence :
  Codec read_evidence put_evidence (is_true_of (opt_ok fence_evidence_ok)).
Proof. apply codec_opt_ok, _. Qed.

#[export] Instance codec_subject : Codec read_subject put_subject (λ s, digest_ok s.2 = true).
Proof.
  split.
  - intros [k d] Hd. unfold read_subject, put_subject. codec_forward.
  - unfold read_subject, put_subject. codec_backward.
Qed.
#[export] Instance codec_subjects :
  Codec read_subjects put_subjects
    (λ l, check_subject_count (blen l) = Ok tt ∧ Forall (λ s, digest_ok s.2 = true) l).
Proof.
  eapply codec_counted; [apply _..|]. intros n Hn. unfold check_subject_count in Hn.
  case_match; [done|]. bool_prop. unfold MAX_KV_TAINT_SUBJECTS in *.
  rewrite N.min_l by lia. split; [|done]. apply N.ltb_lt. lia.
Qed.

#[export] Instance codec_taint_change :
  Codec read_taint_change put_taint_change (is_true_of taint_change_ok).
Proof.
  unfold read_taint_change, put_taint_change. split.
  - intros [] Hok; unfold is_true_of in Hok; simpl in Hok; bool_prop; codec_forward.
  - read_choice; (split; [fields_ok taint_change_ok|write_back]).
Qed.

#[export] Instance codec_invalidation_kind :
  Codec read_invalidation_kind put_invalidation_kind (is_true_of invalidation_kind_ok).
Proof.
  unfold read_invalidation_kind, put_invalidation_kind. split.
  - intros [] Hok; unfold is_true_of in Hok; simpl in Hok; bool_prop;
      cbn [InputInvalidationKind_code]; codec_forward.
  - read_choice; (split; [fields_ok invalidation_kind_ok|write_back]).
Qed.

Definition PodRevisionAddress_checked (a : PodRevisionAddress) : io_result unit :=
  wrap_invalid "PTR_LEDGER_POD_HEAD_ADDRESS" (PodRevisionAddress_validate a).

Lemma address_of_revision r :
  PodRevisionAddress_validate r = Ok tt → PodAddress_validate (pra_address r) = Ok tt.
Proof. unfold PodRevisionAddress_validate. intros H. by result_inv. Qed.

Lemma PodAddress_new_ok p n i :
  PodAddress_validate {| pa_project := p; pa_namespace := n; pa_pod_id := i |} = Ok tt →
  PodAddress_new p n i = Ok {| pa_project := p; pa_namespace := n; pa_pod_id := i |}.
Proof. unfold PodAddress_new. by intros ->. Qed.
Lemma PodAddress_new_inv p n i a :
  PodAddress_new p n i = Ok a → a = {| pa_project := p; pa_namespace := n; pa_pod_id := i |}.
Proof. unfold PodAddress_new. intros H. by result_inv. Qed.
Lemma wrap_invalid_ok {A} message (r : result ResolveError A) a :
  wrap_invalid message r = Ok a ↔ r = Ok a.
Proof. destruct r; simpl; naive_solver. Qed.

#[export] Instance codec_revision_address :
  Codec read_revision_address put_revision_address
    (ok_and revision_address_ok PodRevisionAddress_checked).
Proof.
  unfold read_revision_address, put_revision_address. split.
  - intros r [Hok Hv]. unfold revision_address_ok, pod_address_ok in Hok. bool_prop.
    pose proof (proj1 (wrap_invalid_ok _ _ _) Hv) as Hr.
    apply address_of_revision in Hr as Ha. destruct r as [[p n i] d g].
    cbn [pra_address pa_project pa_namespace pa_pod_id pra_semantic_revision pra_generation] in *.
    codec_forward. eapply reads_check; [by rewrite (PodAddress_new_ok p n i Ha)|].
    codec_forward.
  - intros bs r rest H. repeat read_step.
    match goal with H : wrap_invalid _ (PodAddress_new _ _ _) = _ |- _ =>
      apply wrap_invalid_ok, PodAddress_new_inv in H as -> end.
    split; [|write_back]. split; [|done].
    unfold revision_address_ok, pod_address_ok. ands.
Qed.
#[export] Instance codec_old_address : Codec read_old_address put_old_address (opt_wf _) :=
  codec_opt _ _ _ _ codec_revision_address.

#[export] Instance codec_refusal_source :
  Codec read_refusal_source put_refusal_source (is_true_of refusal_source_ok).
Proof.
  unfold read_refusal_source, put_refusal_source. split.
  - intros [[[p n i] d g]|] Hok; unfold is_true_of in Hok; simpl in Hok;
      unfold revision_address_ok, pod_address_ok in Hok; simpl in Hok; bool_prop.
    + apply reads_code; [reflexivity|]. rewrite wseq_cons. apply reads_last.
      unfold put_revision_address. codec_forward.
    + codec_forward.
  - read_choice; (split; [|]).
    + unfold is_true_of, refusal_source_ok, revision_address_ok, pod_address_ok. ands.
    + eexists. split.
      { rewrite wseq_cons. eapply wapp_some; [eassumption|]. rewrite wseq_cons.
        eapply wapp_some; [|reflexivity]. unfold put_revision_address.
        repeat (rewrite wseq_cons; eapply wapp_some; [eassumption|]). reflexivity. }
      by rewrite ?app_nil_r, <-?app_assoc, ?app_nil_r.
    + done.
    + write_back.
Qed.

#[export] Instance codec_provenance_entry :
  Codec read_provenance_entry put_provenance_entry
    (is_true_of (λ p, str_ok p.1 && opt_ok str_ok p.2)).
Proof.
  unfold read_provenance_entry, put_provenance_entry. split.
  - intros [s n] Hok. unfold is_true_of in Hok. bool_prop. codec_forward.
  - intros bs r rest H. repeat read_step. split; [|write_back]. unfold is_true_of. ands.
Qed.
#[export] Instance codec_provenance :
  Codec read_provenance put_provenance
    (λ l, check_hypothesis_provenance_count (blen l) = Ok tt ∧
          Forall (is_true_of (λ p, str_ok p.1 && opt_ok str_ok p.2)) l).
Proof.
  eapply codec_counted; [apply _..|]. intros n Hn.
  unfold check_hypothesis_provenance_count, MAX_HYPOTHESIS_PROVENANCE in Hn.
  case_match; [done|]. bool_prop. split; [|done]. apply N.ltb_lt. lia.
Qed.
#[export] Instance codec_dependencies :
  Codec read_dependency_digests put_dependencies
    (λ l, check_hypothesis_dependency_count (blen l) = Ok tt ∧ Forall (is_true_of digest_ok) l).
Proof.
  eapply codec_counted; [apply _..|]. intros n Hn.
  unfold check_hypothesis_dependency_count, MAX_HYPOTHESIS_DEPENDENCIES in Hn.
  case_match; [done|]. bool_prop. split; [|done]. apply N.ltb_lt. lia.
Qed.
