(* ===== verification/LedgerEventFacts.v ===== *)
(** * Decoding inverts encoding: the event codec theorem

    Each variant of [LedgerEvent] is an instance of [VariantCodec]; dispatch on
    the tag byte puts them together.  The theorems at the end say that
    [decode_event] and [encode_event] are inverse on exactly the events that
    pass [check_origin_bounds], and what follows for an append path. *)

From S2P Require Import Prelude Bytes Types LedgerEvents LedgerChecks LedgerCodec LedgerCodecFacts.
From stdpp Require Import options.

(** What [encode_event] and [decode_event] rely on for one variant. *)
Record VariantCodec {A} (tag : N) (read : cursor A) (put : A → writer) (wf : A → Prop) : Prop := {
  vc_tag : u8_ok tag = true;
  vc_reads : ∀ a p rest, wf a → put a = Some p →
    ∃ q, p = byte_of_N tag :: q ∧ read (q ++ rest) = Ok (a, rest);
  vc_exact : ∀ bs a rest, read bs = Ok (a, rest) →
    wf a ∧ ∃ q, put a = Some (byte_of_N tag :: q) ∧ bs = q ++ rest
}.

Lemma variant_codec {A} tag (read : cursor A) (put : A → writer) (body : A → list writer) wf :
  u8_ok tag = true → (∀ a, wf a → put a = wseq (put_u8 tag :: body a)) →
  Codec read (λ a, wseq (body a)) wf → VariantCodec tag read put wf.
Proof.
  intros Ht Hput Hc. split; [done|..].
  - intros a p rest Hwf Hp. rewrite (Hput a Hwf), wseq_cons in Hp. cbn [put_u8 wapp] in Hp.
    destruct (wseq (body a)) as [q|] eqn:Hq; [|done]. apply (inj Some) in Hp. subst p.
    exists q. split; [done|]. by apply codec_reads.
  - intros bs a rest H. apply codec_exact in H as (Hwf & q & Hq & ->). split; [done|].
    exists q. split; [|done]. by rewrite (Hput a Hwf), wseq_cons, Hq.
Qed.

Ltac field_wf := solve [assumption | exact I | split; assumption].
Ltac forward_fields :=
  repeat first
    [ rewrite wseq_cons; eapply reads_seq; [apply codec_reads; field_wf|]
    | eapply reads_check; [eassumption|]
    | apply reads_done ].
Ltac variant_forward ok :=
  let r := fresh "r" in let Hwf := fresh "Hwf" in let Hc := fresh "Hc" in
  intros r Hwf; destruct r; unfold is_true_of, ok in Hwf; bool_prop; forward_fields.
Ltac variant_forward_checked ok :=
  let r := fresh "r" in let Hwf := fresh "Hwf" in let Hc := fresh "Hc" in
  intros r [Hwf Hc]; destruct r; unfold ok in Hwf; bool_prop; forward_fields.
Ltac variant_backward :=
  let bs := fresh "bs" in let a := fresh "a" in let rest := fresh "rest" in
  let H := fresh "H" in
  intros bs a rest H; repeat read_step; split_ands; (split; [|write_back]).
Ltac variant_ok ok := unfold is_true_of, ok; ands.
Ltac variant_start := eapply variant_codec; [reflexivity|intros r _; reflexivity|split].

Lemma CapsuleCommitted_codec : VariantCodec 0 read_CapsuleCommitted put_CapsuleCommitted (is_true_of CapsuleCommitted_ok).
Proof.
  variant_start; unfold read_CapsuleCommitted.
  - variant_forward CapsuleCommitted_ok.
  - variant_backward. variant_ok CapsuleCommitted_ok.
Qed.

Lemma CapsuleSuperseded_codec : VariantCodec 1 read_CapsuleSuperseded put_CapsuleSuperseded (is_true_of CapsuleSuperseded_ok).
Proof.
  variant_start; unfold read_CapsuleSuperseded.
  - variant_forward CapsuleSuperseded_ok.
  - variant_backward. variant_ok CapsuleSuperseded_ok.
Qed.

Lemma Revoked_codec : VariantCodec 2 read_Revoked put_Revoked (is_true_of Revoked_ok).
Proof.
  variant_start; unfold read_Revoked.
  - variant_forward Revoked_ok.
  - variant_backward. variant_ok Revoked_ok.
Qed.

Lemma HardConstraintCommitted_codec : VariantCodec 3 read_HardConstraintCommitted put_HardConstraintCommitted (is_true_of HardConstraintCommitted_ok).
Proof.
  variant_start; unfold read_HardConstraintCommitted.
  - variant_forward HardConstraintCommitted_ok.
  - variant_backward. variant_ok HardConstraintCommitted_ok.
Qed.

Lemma VerifierAttested_codec : VariantCodec 4 read_VerifierAttested put_VerifierAttested (is_true_of VerifierAttested_ok).
Proof.
  variant_start; unfold read_VerifierAttested.
  - variant_forward VerifierAttested_ok.
  - variant_backward. variant_ok VerifierAttested_ok.
Qed.

Lemma ProcedurePromoted_codec : VariantCodec 5 read_ProcedurePromoted put_ProcedurePromoted (is_true_of ProcedurePromoted_ok).
Proof.
  variant_start; unfold read_ProcedurePromoted.
  - variant_forward ProcedurePromoted_ok.
  - variant_backward. variant_ok ProcedurePromoted_ok.
Qed.

Lemma ProcedureRevoked_codec : VariantCodec 6 read_ProcedureRevoked put_ProcedureRevoked (is_true_of ProcedureRevoked_ok).
Proof.
  variant_start; unfold read_ProcedureRevoked.
  - variant_forward ProcedureRevoked_ok.
  - variant_backward. variant_ok ProcedureRevoked_ok.
Qed.

Lemma SnapshotCommitted_codec : VariantCodec 7 read_SnapshotCommitted put_SnapshotCommitted (is_true_of SnapshotCommitted_ok).
Proof.
  variant_start; unfold read_SnapshotCommitted.
  - variant_forward SnapshotCommitted_ok.
  - variant_backward. variant_ok SnapshotCommitted_ok.
Qed.

Lemma EffectAttempted_codec : VariantCodec 9 read_EffectAttempted put_EffectAttempted (is_true_of EffectAttempted_ok).
Proof.
  variant_start; unfold read_EffectAttempted.
  - variant_forward EffectAttempted_ok.
  - variant_backward. variant_ok EffectAttempted_ok.
Qed.

Lemma EffectSettled_codec : VariantCodec 10 read_EffectSettled put_EffectSettled (is_true_of EffectSettled_ok).
Proof.
  variant_start; unfold read_EffectSettled.
  - variant_forward EffectSettled_ok.
  - variant_backward. variant_ok EffectSettled_ok.
Qed.

Lemma EffectReconciled_codec : VariantCodec 11 read_EffectReconciled put_EffectReconciled (is_true_of EffectReconciled_ok).
Proof.
  variant_start; unfold read_EffectReconciled.
  - variant_forward EffectReconciled_ok.
  - variant_backward. variant_ok EffectReconciled_ok.
Qed.

Lemma ProtectedStateCommitted_codec : VariantCodec 14 read_ProtectedStateCommitted put_ProtectedStateCommitted (is_true_of ProtectedStateCommitted_ok).
Proof.
  variant_start; unfold read_ProtectedStateCommitted.
  - variant_forward ProtectedStateCommitted_ok.
  - variant_backward. variant_ok ProtectedStateCommitted_ok.
Qed.

Lemma ExecutionManifestAdmitted_codec : VariantCodec 16 read_ExecutionManifestAdmitted put_ExecutionManifestAdmitted (is_true_of ExecutionManifestAdmitted_ok).
Proof.
  variant_start; unfold read_ExecutionManifestAdmitted.
  - variant_forward ExecutionManifestAdmitted_ok.
  - variant_backward. variant_ok ExecutionManifestAdmitted_ok.
Qed.

Lemma ExecutionManifestRevoked_codec : VariantCodec 17 read_ExecutionManifestRevoked put_ExecutionManifestRevoked (is_true_of ExecutionManifestRevoked_ok).
Proof.
  variant_start; unfold read_ExecutionManifestRevoked.
  - variant_forward ExecutionManifestRevoked_ok.
  - variant_backward. variant_ok ExecutionManifestRevoked_ok.
Qed.

Lemma PolicyBundleActivated_codec : VariantCodec 21 read_PolicyBundleActivated put_PolicyBundleActivated (is_true_of PolicyBundleActivated_ok).
Proof.
  variant_start; unfold read_PolicyBundleActivated.
  - variant_forward PolicyBundleActivated_ok.
  - variant_backward. variant_ok PolicyBundleActivated_ok.
Qed.

Lemma PolicyBundleRevoked_codec : VariantCodec 22 read_PolicyBundleRevoked put_PolicyBundleRevoked (is_true_of PolicyBundleRevoked_ok).
Proof.
  variant_start; unfold read_PolicyBundleRevoked.
  - variant_forward PolicyBundleRevoked_ok.
  - variant_backward. variant_ok PolicyBundleRevoked_ok.
Qed.

Lemma SessionRevoked_codec : VariantCodec 23 read_SessionRevoked put_SessionRevoked (is_true_of SessionRevoked_ok).
Proof.
  variant_start; unfold read_SessionRevoked.
  - variant_forward SessionRevoked_ok.
  - variant_backward. variant_ok SessionRevoked_ok.
Qed.

Lemma TierBackendLifecycle_codec : VariantCodec 24 read_TierBackendLifecycle put_TierBackendLifecycle (is_true_of TierBackendLifecycle_ok).
Proof.
  variant_start; unfold read_TierBackendLifecycle.
  - variant_forward TierBackendLifecycle_ok.
  - variant_backward. variant_ok TierBackendLifecycle_ok.
Qed.

Lemma TierObjectCommitted_codec : VariantCodec 25 read_TierObjectCommitted put_TierObjectCommitted (is_true_of TierObjectCommitted_ok).
Proof.
  variant_start; unfold read_TierObjectCommitted.
  - variant_forward TierObjectCommitted_ok.
  - variant_backward. variant_ok TierObjectCommitted_ok.
Qed.

Lemma TierReplicaLifecycle_codec : VariantCodec 26 read_TierReplicaLifecycle put_TierReplicaLifecycle (is_true_of TierReplicaLifecycle_ok).
Proof.
  variant_start; unfold read_TierReplicaLifecycle.
  - variant_forward TierReplicaLifecycle_ok.
  - variant_backward. variant_ok TierReplicaLifecycle_ok.
Qed.

Lemma PodEvidenceCommitted_codec : VariantCodec 18 read_PodEvidenceCommitted put_PodEvidenceCommitted (is_true_of PodEvidenceCommitted_ok).
Proof.
  variant_start; unfold read_PodEvidenceCommitted.
  - variant_forward PodEvidenceCommitted_ok.
  - variant_backward. variant_ok PodEvidenceCommitted_ok.
Qed.

Lemma PodOutputAdmitted_codec :
  VariantCodec 19 read_PodOutputAdmitted put_PodOutputAdmitted (ok_and PodOutputAdmitted_ok (λ r, check_attestation (poa_verification r))).
Proof.
  variant_start; unfold read_PodOutputAdmitted.
  - variant_forward_checked PodOutputAdmitted_ok.
  - variant_backward. split; [variant_ok PodOutputAdmitted_ok|assumption].
Qed.

Lemma ExpertStructuralCommitted_codec :
  VariantCodec 27 read_ExpertStructuralCommitted put_ExpertStructuralCommitted (ok_and ExpertStructuralCommitted_ok (λ r, check_expert_record (esc_record r))).
Proof.
  variant_start; unfold read_ExpertStructuralCommitted.
  - variant_forward_checked ExpertStructuralCommitted_ok.
  - variant_backward. split; [variant_ok ExpertStructuralCommitted_ok|assumption].
Qed.

Lemma ExpertFenceCommitted_codec :
  VariantCodec 28 read_ExpertFenceCommitted put_ExpertFenceCommitted (ok_and ExpertFenceCommitted_ok check_expert_fence).
Proof.
  variant_start; unfold read_ExpertFenceCommitted.
  - variant_forward_checked ExpertFenceCommitted_ok.
  - variant_backward. split; [variant_ok ExpertFenceCommitted_ok|assumption].
Qed.

Lemma InputInvalidated_codec :
  VariantCodec 30 read_InputInvalidated put_InputInvalidated (ok_and InputInvalidated_ok check_input_invalidated).
Proof.
  variant_start; unfold read_InputInvalidated.
  - variant_forward_checked InputInvalidated_ok.
  - variant_backward. split; [variant_ok InputInvalidated_ok|assumption].
Qed.

Lemma ExpertAuthorityChanged_codec :
  VariantCodec 31 read_ExpertAuthorityChanged put_ExpertAuthorityChanged (ok_and ExpertAuthorityChanged_ok check_expert_authority_changed).
Proof.
  variant_start; unfold read_ExpertAuthorityChanged.
  - variant_forward_checked ExpertAuthorityChanged_ok.
  - variant_backward. split; [variant_ok ExpertAuthorityChanged_ok|assumption].
Qed.

Lemma EgressRefused_codec :
  VariantCodec 37 read_EgressRefused put_EgressRefused (ok_and EgressRefused_ok check_egress_refused).
Proof.
  variant_start; unfold read_EgressRefused.
  - variant_forward_checked EgressRefused_ok.
  - variant_backward. split; [variant_ok EgressRefused_ok|assumption].
Qed.

Ltac forall_bools :=
  repeat match goal with H : forallb _ _ = true |- _ => apply Forall_forallb in H end.

(** ** Variants whose parts carry checks of their own *)
Lemma ScopeLifecycle_codec :
  VariantCodec 13 read_scope_lifecycle put_ScopeLifecycle (is_true_of scope_event_ok).
Proof.
  eapply (variant_codec _ _ _ (λ e, [put_scope_lifecycle e])); [done|done|].
  destruct codec_scope_lifecycle as [Hf Hb]. split.
  - intros e He. rewrite wseq_cons. by apply reads_last, Hf.
  - intros bs e rest H. apply Hb in H as (Hwf & p & Hp & ->). split; [done|].
    exists p. split; [|done]. rewrite wseq_cons, Hp. cbn. by rewrite app_nil_r.
Qed.

Lemma SemanticDelta_legacy_codec :
  VariantCodec 8 read_SemanticDelta_legacy put_SemanticDeltaCommitted
    (λ r, SemanticDeltaCommitted_ok r = true ∧ sdc_origin r = Legacy).
Proof.
  apply (variant_codec _ _ _ (λ r, [put_u64 (sdc_base_revision r); put_u64 (sdc_revision r);
                                     put_bytes (sdc_encoded_delta r)])); [done|..].
  { intros r [_ Hl]. unfold put_SemanticDeltaCommitted. rewrite Hl. done. }
  unfold read_SemanticDelta_legacy. split.
  - intros r [Hwf Hl]. destruct r; simpl in Hl; subst.
    unfold SemanticDeltaCommitted_ok in Hwf. bool_prop. forward_fields.
  - variant_backward. split; [|done]. unfold SemanticDeltaCommitted_ok. cbn [sdc_origin origin_ok].
    rewrite andb_true_r. ands.
Qed.

Lemma SemanticDelta_attributed_codec :
  VariantCodec 12 read_SemanticDelta_attributed put_SemanticDeltaCommitted
    (λ r, SemanticDeltaCommitted_ok r = true ∧ sdc_origin r ≠ Legacy ∧
          check_origin (sdc_origin r) = Ok tt).
Proof.
  apply (variant_codec _ _ _ (λ r, [put_u64 (sdc_base_revision r); put_u64 (sdc_revision r);
                                     put_bytes (sdc_encoded_delta r); put_origin (sdc_origin r)]));
    [done|..].
  { intros r (_ & Hl & _). unfold put_SemanticDeltaCommitted. by destruct (sdc_origin r). }
  unfold read_SemanticDelta_attributed. split.
  - intros r (Hwf & Hl & Hc). destruct r. unfold SemanticDeltaCommitted_ok in Hwf. bool_prop.
    assert (origin_wf sdc_origin) by (split_and!; assumption). forward_fields.
  - intros bs a rest H. repeat read_step.
    match goal with H : origin_wf _ |- _ => destruct H as (?&?&?) end.
    split; [|write_back]. split_and!; [|assumption..]. unfold SemanticDeltaCommitted_ok. ands.
Qed.

Lemma wrap_resolve_ok {A} (r : result ResolveError A) a : wrap_resolve r = Ok a ↔ r = Ok a.
Proof. destruct r; simpl; naive_solver. Qed.

Lemma MeshTunnelLifecycle_codec :
  VariantCodec 15 read_MeshTunnelLifecycle put_MeshTunnelLifecycle
    (ok_and mesh_event_ok check_mesh).
Proof.
  variant_start; unfold read_MeshTunnelLifecycle.
  - intros e [Hwf Hc]. destruct e as [n p i t g r k ep pe f d].
    unfold mesh_event_ok in Hwf. bool_prop.
    assert (opt_wf (ok_and mesh_endpoint_ok
              (λ e, wrap_resolve (MeshEndpointBinding_validate e))) ep) by (by destruct ep).
    forward_fields.
  - variant_backward. split.
    + unfold mesh_event_ok. repeat first [assumption|apply andb_true_intro; split].
      match goal with H : opt_wf _ ?o |- _ => destruct o as [ep|]; [by destruct H|done] end.
    + unfold check_mesh. cbn [mte_endpoint].
      match goal with H : opt_wf _ ?o |- _ => destruct o as [ep|]; [by destruct H|done] end.
Qed.

Lemma PodHypothesisCommitted_codec :
  VariantCodec 20 read_PodHypothesisCommitted put_PodHypothesisCommitted
    (ok_and PodHypothesisCommitted_ok check_hypothesis).
Proof.
  variant_start; unfold read_PodHypothesisCommitted.
  - intros r [Hwf Hc]. unfold check_hypothesis in Hc. result_inv. destruct r.
    unfold PodHypothesisCommitted_ok, provenance_ok, dependencies_ok in Hwf. bool_prop.
    forall_bools. forward_fields.
  - variant_backward. split.
    + unfold PodHypothesisCommitted_ok, provenance_ok, dependencies_ok.
      repeat first [assumption|rewrite Forall_forallb; assumption|apply andb_true_intro; split].
    + unfold check_hypothesis. cbn [phc_provenance phc_dependencies phc_verification].
      repeat match goal with H : ?x = Ok tt |- _ => rewrite H; clear H; cbn [rbind] end. done.
Qed.

Lemma taint_count r : check_kv_taint r = Ok tt → check_subject_count (blen (ktc_subjects r)) = Ok tt.
Proof.
  unfold check_kv_taint, check_subject_count. intros H. case_match; [done|]. bool_prop.
  rewrite (proj2 (N.ltb_ge _ _)) by done. destruct (ktc_subjects r); [done|].
  rewrite blen_cons. by rewrite (proj2 (N.eqb_neq _ _)) by lia.
Qed.

Lemma KvTaintCommitted_codec :
  VariantCodec 29 read_KvTaintCommitted put_KvTaintCommitted
    (ok_and KvTaintCommitted_ok check_kv_taint).
Proof.
  variant_start; unfold read_KvTaintCommitted.
  - intros r [Hwf Hc]. pose proof (taint_count r Hc). destruct r.
    unfold KvTaintCommitted_ok, subjects_ok in Hwf. bool_prop.
    forall_bools. forward_fields.
  - variant_backward. split; [|assumption]. unfold KvTaintCommitted_ok, subjects_ok.
    repeat first [assumption|rewrite Forall_forallb; assumption|apply andb_true_intro; split].
Qed.

Lemma head_addresses r :
  check_pod_head_advanced r = Ok tt →
  PodRevisionAddress_checked (pha_new r) = Ok tt ∧
  ∀ old, pha_old r = Some old → PodRevisionAddress_checked old = Ok tt.
Proof.
  unfold check_pod_head_advanced, PodRevisionAddress_checked. intros H.
  destruct (_ || _ : bool) eqn:E1 in H; [done|]. destruct (_ || _ : bool) eqn:E2 in H; [done|].
  apply rbind_ok_inv in H as ([] & Hn & H). split; [done|]. intros old Ho. rewrite Ho in H.
  case_match; [done|]. by apply rbind_ok_inv in H as ([] & ? & _).
Qed.

Lemma PodHeadAdvanced_codec :
  VariantCodec 38 read_PodHeadAdvanced put_PodHeadAdvanced
    (ok_and PodHeadAdvanced_ok check_pod_head_advanced).
Proof.
  variant_start; unfold read_PodHeadAdvanced.
  - intros r [Hwf Hc]. destruct (head_addresses r Hc) as [Hn Ho]. destruct r as [p i o n].
    unfold PodHeadAdvanced_ok in Hwf. bool_prop.
    assert (opt_wf (ok_and revision_address_ok PodRevisionAddress_checked) o).
    { destruct o as [a|]; [|done]. split; [done|by apply Ho]. }
    forward_fields.
  - intros bs a rest H. repeat read_step.
    match goal with H : ok_and revision_address_ok _ _ |- _ => destruct H end.
    split; [|write_back]. split; [|assumption]. unfold PodHeadAdvanced_ok.
    repeat first [assumption|apply andb_true_intro; split].
    match goal with H : opt_wf _ ?o |- _ => destruct o as [ep|]; [by destruct H|done] end.
Qed.

Create HintDb variants.
#[export] Hint Resolve CapsuleCommitted_codec CapsuleSuperseded_codec Revoked_codec
  HardConstraintCommitted_codec VerifierAttested_codec ProcedurePromoted_codec
  ProcedureRevoked_codec SnapshotCommitted_codec EffectAttempted_codec EffectSettled_codec
  EffectReconciled_codec ScopeLifecycle_codec ProtectedStateCommitted_codec
  MeshTunnelLifecycle_codec ExecutionManifestAdmitted_codec ExecutionManifestRevoked_codec
  PolicyBundleActivated_codec PolicyBundleRevoked_codec SessionRevoked_codec
  TierBackendLifecycle_codec TierObjectCommitted_codec TierReplicaLifecycle_codec
  PodEvidenceCommitted_codec PodOutputAdmitted_codec PodHypothesisCommitted_codec
  ExpertStructuralCommitted_codec ExpertFenceCommitted_codec KvTaintCommitted_codec
  InputInvalidated_codec ExpertAuthorityChanged_codec EgressRefused_codec PodHeadAdvanced_codec
  SemanticDelta_legacy_codec SemanticDelta_attributed_codec : variants.

(** ** Dispatch on the tag *)
Lemma variant_decodes {A} tag (read : cursor A) put wf (C : A → LedgerEvent) a p :
  read_event tag = rmap C read → VariantCodec tag read put wf → wf a → put a = Some p →
  decode_event p = Ok (C a).
Proof.
  intros Hr Hv Hwf Hp. destruct (vc_reads _ _ _ _ Hv a p [] Hwf Hp) as (q & -> & Hq).
  rewrite app_nil_r in Hq. unfold decode_event.
  rewrite u8_reads by apply (vc_tag _ _ _ _ Hv). cbn [rbind].
  rewrite Hr. unfold rmap, rseq. by rewrite Hq.
Qed.

Lemma variant_decoded {A} tag (read : cursor A) put wf (C : A → LedgerEvent) bs e rest :
  rmap C read bs = Ok (e, rest) → VariantCodec tag read put wf →
  ∃ a q, e = C a ∧ wf a ∧ put a = Some (byte_of_N tag :: q) ∧ bs = q ++ rest.
Proof.
  intros H Hv. apply rseq_ok_inv in H as (a & mid & Ha & H). apply rret_ok_inv in H as [<- <-].
  apply (vc_exact _ _ _ _ Hv) in Ha as (Hwf & q & Hq & ->). by exists a, q.
Qed.

Definition event_wf (e : LedgerEvent) : Prop := event_ok e = true ∧ check_origin_bounds e = Ok tt.

Ltac decode_variant :=
  eapply variant_decodes; [| | |eassumption]; [|solve [eauto with variants]|]; [reflexivity|];
  first [done|by split].

Lemma encoded_event_decodes e p : event_wf e → encode_event e = Some p → decode_event p = Ok e.
Proof.
  intros [Hok Hc] Hp. destruct e; cbn [event_ok check_origin_bounds encode_event] in *.
  { assert (sdc_origin r = Legacy ∨ sdc_origin r ≠ Legacy) as [Hl|Hl]
      by (destruct (sdc_origin r); auto).
    - eapply (variant_decodes 8); [reflexivity|apply SemanticDelta_legacy_codec|by split|done].
    - eapply (variant_decodes 12); [reflexivity|apply SemanticDelta_attributed_codec|by split|done]. }
  all: decode_variant.
Qed.

(** The case analysis of [read_event], on a successful read. *)
Ltac decoded_variant H :=
  eapply variant_decoded in H; [|solve [eauto with variants]];
  destruct H as (?&?&->&?&?&->).

Lemma read_event_exact tag bs e rest :
  read_event tag bs = Ok (e, rest) →
  event_wf e ∧ ∃ q, encode_event e = Some (byte_of_N tag :: q) ∧ bs = q ++ rest.
Proof.
  intros H. unfold read_event in H.
  repeat (match type of H with
          | context [match ?x with _ => _ end] => is_var x; destruct x
          end; try discriminate H);
    decoded_variant H; (split; [|by eexists]); unfold is_true_of, ok_and in *; split_ands;
    split; cbn [event_ok check_origin_bounds]; try done.
  by match goal with H : sdc_origin _ = Legacy |- _ => rewrite H end.
Qed.

Lemma decoded_event_encodes e p :
  decode_event p = Ok e → event_wf e ∧ encode_event e = Some p.
Proof.
  unfold decode_event. intros H. apply rbind_ok_inv in H as ([tag rest] & Ht & H).
  apply (codec_exact (Codec := codec_u8)) in Ht as (_ & b & Hb & ->). apply (inj Some) in Hb. subst b.
  apply rbind_ok_inv in H as ([e' rest'] & Hr & H). cbn in H.
  case_bool_decide; [|done]. injection H as ->. subst.
  apply read_event_exact in Hr as (Hwf & q & Hq & ->). rewrite app_nil_r. by split.
Qed.

(** ** The event codec *)

(** C39: the event codec is exact.  A byte string decodes to an event exactly
    when the event is one the bounds checks accept and the byte string is its
    encoding; so decoding inverts encoding, no event has two encodings, and no
    byte string that encodes nothing is accepted. *)
Theorem event_codec_exact e p :
  decode_event p = Ok e ↔
  event_ok e = true ∧ check_origin_bounds e = Ok tt ∧ encode_event e = Some p.
Proof.
  split.
  - intros H. apply decoded_event_encodes in H as [[??] ?]. done.
  - intros (? & ? & ?). by apply encoded_event_decodes.
Qed.

(** An event that [check_encodable] accepts can be written and read back:
    its encoding exists (the encoder does not panic), fits a record, and
    decodes to the same event. *)
Theorem check_encodable_readable e :
  event_ok e = true → check_encodable e = Some (Ok tt) →
  ∃ p, encode_event e = Some p ∧ p ≠ [] ∧ (blen p ≤ MAX_RECORD_BYTES)%N ∧ decode_event p = Ok e.
Proof.
  intros Hok H. unfold check_encodable in H.
  destruct (check_origin_bounds e) as [[]|] eqn:Hc; [|done].
  destruct (encode_event e) as [p|] eqn:Hp; [|done]. cbn in H.
  destruct (MAX_RECORD_BYTES <? blen p)%N eqn:Hl; [done|]. bool_prop.
  assert (decode_event p = Ok e) as Hd by (apply encoded_event_decodes; [by split|done]).
  exists p. split_and!; try done. by intros ->.
Qed.

Definition sample_revoked : LedgerEvent :=
  Ev_Revoked {| rv_subject := "capsule:7"; rv_generation := 3 |}.
Lemma check_encodable_readable_witness :
  event_ok sample_revoked = true ∧ check_encodable sample_revoked = Some (Ok tt) ∧
  ∃ p, encode_event sample_revoked = Some p ∧ p ≠ [] ∧ (blen p ≤ MAX_RECORD_BYTES)%N ∧
       decode_event p = Ok sample_revoked.
Proof.
  split; [vm_compute; reflexivity|]. split; [vm_compute; reflexivity|].
  apply (check_encodable_readable sample_revoked); vm_compute; reflexivity.
Defined.
