(* ===== verification/Ledger.v ===== *)
(** * The ledger interface: crates/ptr-ledger/src/lib.rs (trait [Ledger], [InMemoryLedger])

    A client of a ledger appends events and reads them back.  The trait is a
    class of operations with a class of laws; what a sequence of appends does
    is proved from the laws alone, and [InMemoryLedger] discharges them. *)

From S2P Require Import Prelude Bytes Types LedgerEvents LedgerChecks.
From stdpp Require Import options.

(** [trait Ledger]: [append] returns the result and the ledger it leaves. *)
Class Ledger (L : Type) := {
  append : LedgerEvent → L → io_result CommitIndex * L;
  events : L → list CommittedEvent
}.

(** What the trait's documentation promises: an accepted event is appended at
    the index returned, a refused one changes nothing, and no index repeats an
    earlier one. *)
Class LedgerLaws (L : Type) `{Ledger L} (wf : L → Prop) : Prop := {
  append_accepted ev l i l' :
    append ev l = (Ok i, l') → events l' = events l ++ [{| ce_index := i; ce_event := ev |}];
  append_refused ev l e l' : append ev l = (Err e, l') → l' = l;
  append_wf ev l r l' : wf l → append ev l = (r, l') → wf l';
  wf_increasing l : wf l → StronglySorted N.lt (ce_index <$> events l)
}.

(** A client that appends a list of events, keeping the answers. *)
Fixpoint append_all {L} `{Ledger L} (evs : list LedgerEvent) (l : L) :
    list (io_result CommitIndex) * L :=
  match evs with
  | [] => ([], l)
  | ev :: evs =>
      let '(r, l) := append ev l in
      let '(rs, l) := append_all evs l in (r :: rs, l)
  end.

(** The records of the appends that were accepted. *)
Fixpoint accepted (evs : list LedgerEvent) (rs : list (io_result CommitIndex)) : list CommittedEvent :=
  match evs, rs with
  | ev :: evs, Ok i :: rs => {| ce_index := i; ce_event := ev |} :: accepted evs rs
  | _ :: evs, Err _ :: rs => accepted evs rs
  | _, _ => []
  end.

Section clients.
Context {L : Type} {HL : Ledger L} {wf : L → Prop} {Laws : LedgerLaws L wf}.

Lemma append_all_events evs : ∀ (l : L) rs l',
  append_all evs l = (rs, l') → events l' = events l ++ accepted evs rs.
Proof using Laws.
  induction evs as [|ev evs IH]; intros l rs l' H; cbn in H.
  { injection H as <- <-. by rewrite app_nil_r. }
  destruct (append ev l) as [r l1] eqn:Ha. destruct (append_all evs l1) as [rs1 l2] eqn:Hb.
  injection H as <- <-. rewrite (IH _ _ _ Hb). destruct r as [i|e]; cbn [accepted].
  - by rewrite (append_accepted _ _ _ _ Ha), <-app_assoc.
  - by rewrite (append_refused _ _ _ _ Ha).
Qed.

Lemma append_all_wf evs : ∀ (l : L) rs l', wf l → append_all evs l = (rs, l') → wf l'.
Proof using Laws.
  induction evs as [|ev evs IH]; intros l rs l' Hwf H; cbn in H; [by injection H as <- <-|].
  destruct (append ev l) as [r l1] eqn:Ha. destruct (append_all evs l1) as [rs1 l2] eqn:Hb.
  injection H as <- <-. eapply IH; [|done]. by eapply append_wf.
Qed.

Lemma append_all_history evs (l : L) rs l' :
  wf l → append_all evs l = (rs, l') →
  events l' = events l ++ accepted evs rs ∧ NoDup (ce_index <$> events l').
Proof using Laws.
  intros Hwf H. split; [by apply append_all_events|].
  pose proof (wf_increasing _ (append_all_wf _ _ _ _ Hwf H)) as Hs.
  generalize dependent (ce_index <$> events l'). intros ks Hs.
  induction Hs as [|i ks Hs IH Hi]; constructor; [|done].
  intros Hin. rewrite Forall_forall in Hi. specialize (Hi _ Hin). lia.
Qed.
End clients.

(** ** [InMemoryLedger] *)
Record InMemoryLedger := {
  iml_base : CommitIndex;
  iml_events : list CommittedEvent
}.

Definition InMemoryLedger_default : InMemoryLedger := {| iml_base := 0; iml_events := [] |}.
Definition resuming_above (base : CommitIndex) : InMemoryLedger :=
  {| iml_base := base; iml_events := [] |}.

Definition InMemoryLedger_append (event : LedgerEvent) (l : InMemoryLedger) :
    io_result CommitIndex * InMemoryLedger :=
  match count ← checked_add_u64 (iml_base l) (blen (iml_events l)); checked_add_u64 count 1 with
  | None => (Err (invalid "PTR_LEDGER_INDEX_EXHAUSTED"), l)
  | Some index =>
      (Ok index, {| iml_base := iml_base l;
                    iml_events := iml_events l ++ [{| ce_index := index; ce_event := event |}] |})
  end.

#[export] Instance InMemoryLedger_Ledger : Ledger InMemoryLedger :=
  {| append := InMemoryLedger_append; events := iml_events |}.

(** The indices are the ones directly above the base. *)
Definition numbered (base : N) (es : list CommittedEvent) : Prop :=
  ∀ n e, es !! n = Some e → ce_index e = (base + N.of_nat n + 1)%N.
Definition iml_wf (l : InMemoryLedger) : Prop := numbered (iml_base l) (iml_events l).

Lemma iml_append_ok ev l i l' :
  InMemoryLedger_append ev l = (Ok i, l') →
  i = (iml_base l + blen (iml_events l) + 1)%N ∧ iml_base l' = iml_base l ∧
  iml_events l' = iml_events l ++ [{| ce_index := i; ce_event := ev |}].
Proof.
  unfold InMemoryLedger_append, checked_add_u64. intros H.
  destruct (_ <? _)%N; cbn in H; [|done]. destruct (_ <? _)%N; [|done].
  by injection H as <- <-.
Qed.

Lemma numbered_snoc base es e :
  numbered base es → ce_index e = (base + blen es + 1)%N → numbered base (es ++ [e]).
Proof.
  intros H He n x Hx. apply lookup_app_Some in Hx as [Hx|[Hl Hx]]; [by apply H|].
  apply list_lookup_singleton_Some in Hx as [Hz <-]. rewrite He. unfold blen. lia.
Qed.

Lemma numbered_sorted es : ∀ base, numbered base es → StronglySorted N.lt (ce_index <$> es).
Proof.
  induction es as [|e es IH]; intros base H; [constructor|]. rewrite fmap_cons. constructor.
  - apply (IH (base + 1)%N). intros n x Hx. rewrite (H (S n) x Hx). lia.
  - rewrite Forall_fmap, Forall_lookup. intros n x Hx. cbn.
    rewrite (H 0 e eq_refl), (H (S n) x Hx). lia.
Qed.

#[export] Instance InMemoryLedger_Laws : LedgerLaws InMemoryLedger iml_wf.
Proof.
  split; cbn.
  - intros ev l i l' H. by apply iml_append_ok in H as (_ & _ & ?).
  - intros ev l e l' H. unfold InMemoryLedger_append in H. case_match; congruence.
  - intros ev l r l' Hwf H. destruct r as [i|e].
    + apply iml_append_ok in H as (Hi & Hb & He). unfold iml_wf. rewrite Hb, He.
      by apply numbered_snoc.
    + unfold InMemoryLedger_append in H. case_match; [done|]. by injection H as _ <-.
  - intros l. apply numbered_sorted.
Qed.

Lemma append_all_base evs : ∀ (l : InMemoryLedger) rs l',
  append_all evs l = (rs, l') → iml_base l' = iml_base l.
Proof.
  induction evs as [|ev evs IH]; intros l rs l' H; cbn in H; [by injection H as _ <-|].
  destruct (InMemoryLedger_append ev l) as [r l1] eqn:Ha.
  destruct (append_all evs l1) as [rs1 l2] eqn:Hb. injection H as _ <-. rewrite (IH _ _ _ Hb).
  unfold InMemoryLedger_append in Ha. by case_match; injection Ha as _ <-.
Qed.

(** ** [CompactionBarrier] *)
Record CompactionBarrier := {
  cb_snapshot_covers : CommitIndex;
  cb_all_consumers_caught_up : bool;
  cb_unresolved_revocations : N
}.
Definition barrier_safe (b : CompactionBarrier) : bool :=
  cb_all_consumers_caught_up b && (cb_unresolved_revocations b =? 0)%N.

(** A memory ledger keeps exactly what it accepted, in order.  From a fresh
    ledger above any base, any list of appends leaves the accepted events at
    the consecutive indices above the base, so no index is handed out twice,
    and an append is refused only when the next index does not exist. *)
Theorem memory_ledger_history base evs rs l :
  append_all evs (resuming_above base) = (rs, l) →
  events l = accepted evs rs ∧ NoDup (ce_index <$> events l) ∧
  (∀ n e, events l !! n = Some e → ce_index e = (base + N.of_nat n + 1)%N) ∧
  ∀ ev, (∃ err, (append ev l).1 = Err err) ↔ (2 ^ 64 ≤ base + blen (events l) + 1)%N.
Proof.
  intros H. assert (iml_wf (resuming_above base)) as Hwf by (intros n e Hn; done).
  pose proof (append_all_history _ _ _ _ Hwf H) as [He Hn].
  pose proof (append_all_wf _ _ _ _ Hwf H) as Hwf'.
  assert (iml_base l = base) as Hb by by apply append_all_base in H.
  split_and!; [done|done| |].
  - intros n e Hne. rewrite <-Hb. by apply Hwf'.
  - intros ev. cbn. unfold InMemoryLedger_append, checked_add_u64. rewrite Hb.
    destruct (base + blen (iml_events l) <? 2 ^ 64)%N eqn:H1; cbn; bool_prop.
    + destruct (base + blen (iml_events l) + 1 <? 2 ^ 64)%N eqn:H2; cbn; bool_prop.
      * split; [by intros []|lia].
      * split; [lia|by eexists].
    + split; [lia|by eexists].
Qed.

Lemma memory_ledger_history_witness :
  ∃ l, append_all [Ev_Revoked {| rv_subject := "a"; rv_generation := 1 |};
                   Ev_Revoked {| rv_subject := "b"; rv_generation := 1 |}]
         (resuming_above (2 ^ 64 - 2)) =
       ([Ok (2 ^ 64 - 1)%N; Err (invalid "PTR_LEDGER_INDEX_EXHAUSTED")], l) ∧
       NoDup (ce_index <$> events l).
Proof.
  eexists. split; [vm_compute; reflexivity|].
  eapply (memory_ledger_history (2 ^ 64 - 2)
    [Ev_Revoked {| rv_subject := "a"; rv_generation := 1 |};
     Ev_Revoked {| rv_subject := "b"; rv_generation := 1 |}]). vm_compute. reflexivity.
Defined.
