(* ===== verification/State.v ===== *)
(** * Materialized state: crates/ptr-state/src/lib.rs

    The projection of a history of committed events to keys and values: which
    index may be applied next, what each event projects, and the keys and values
    that are parsed back when a state is restored.  A format string is written
    out with [+:+].  The Turso adapter is calls into a database and is not
    modelled; it applies the same entries under the same [classify_next]. *)

From S2P Require Import Prelude Bytes Text Types Address ExpertOps ExpertCodec LedgerEvents Ledger.
From Stdlib Require Import Strings.Ascii.
From stdpp Require Import options.

(** ** Keys *)
Definition ATTESTED_MARKER : string := "semdb:attested".
Definition MERGED_BRANCH_PREFIX : string := "branch-merge:".
Definition EGRESS_REFUSAL_OVERFLOW_KEY : string := "egress-refusal-overflow".
Definition EGRESS_REFUSAL_PREFIX : string := "egress-refused:".
Definition POD_HEAD_UNRENDERABLE : string := "unrenderable".
Definition POD_HEAD_PREFIX : string := "pod-head:".
Definition KV_TAINT_PREFIX : string := "kv-taint:".
Definition EXPERT_PREFIX : string := "expert:".
Definition EXPERT_INPUT_PREFIX : string := "expert-input:".
Definition EXPERT_INPUTS_PREFIX : string := "expert-inputs:".
Definition EXPERT_AUTHORITY_PREFIX : string := "expert-authority:".

Definition merged_branch_key (branch : string) : string :=
  MERGED_BRANCH_PREFIX +:+ to_string (slen branch) +:+ ":" +:+ branch.
Definition egress_refusal_key (address : PodAddress) : string :=
  EGRESS_REFUSAL_PREFIX +:+ pa_project address +:+ "/" +:+ pa_namespace address +:+ "/" +:+ pa_pod_id address.
Definition pod_head_key (project identity : string) : string :=
  POD_HEAD_PREFIX +:+ project +:+ "/" +:+ identity.
Definition expert_key (project pod : string) : string := EXPERT_PREFIX +:+ project +:+ "/" +:+ pod.
Definition expert_inputs_key (project pod : string) : string :=
  EXPERT_INPUTS_PREFIX +:+ project +:+ "/" +:+ pod.
Definition expert_input_key (identity : string) (generation : N) : string :=
  EXPERT_INPUT_PREFIX +:+ to_string (slen identity) +:+ ":" +:+ identity +:+ ":" +:+ to_string generation.

(** ** Values *)
Definition merged_branch_entry (index : N) (plan : Digest) : string := to_string index +:+ ":" +:+ hex plan.

Definition egress_refusal_entry (index : N) (reason : EgressRefusalReason) (count : N) (saturated : bool)
    (target : string) : string :=
  to_string index +:+ ":" +:+ EgressRefusalReason_name reason +:+ ":" +:+ to_string count +:+
  (if saturated then "+" else "") +:+ ":" +:+ target.

Definition expert_state_name (state : ExpertState) : string :=
  match state with
  | State_Candidate => "candidate"
  | State_Gated => "gated"
  | State_Serving => "serving"
  | State_Frozen => "frozen"
  | State_Fenced => "fenced"
  | State_Superseded => "superseded"
  | State_Retired Reason_Pruned => "retired-pruned"
  | State_Retired Reason_Superseded => "retired-superseded"
  | State_Retired Reason_GateFailed => "retired-gate-failed"
  | State_Retired Reason_InputRevoked => "retired-input-revoked"
  end.
Definition expert_entry (generation : N) (state : ExpertState) (state_version : N) : string :=
  to_string generation +:+ ":" +:+ expert_state_name state +:+ ":" +:+ to_string state_version.

Definition expert_input_entry_revoked (fence_count : N) (fence_digest : Digest) : string :=
  "revoked:" +:+ to_string fence_count +:+ ":" +:+ hex fence_digest.
Definition expert_input_entry_superseded (new_generation : N) (new_digest : Digest) (fence_count : N)
    (fence_digest : Digest) : string :=
  "superseded:" +:+ to_string new_generation +:+ ":" +:+ hex new_digest +:+ ":" +:+
  to_string fence_count +:+ ":" +:+ hex fence_digest.
Definition expert_inputs_entry (generation training evaluation : N) (block_digest : Digest) : string :=
  to_string generation +:+ ":" +:+ to_string training +:+ ":" +:+ to_string evaluation +:+ ":" +:+
  hex block_digest.

Definition expert_authority_kind_name (kind : ExpertAuthorityKind) : string :=
  match kind with
  | GateConfig => "gate-config"
  | Evaluator => "evaluator"
  end.
Definition expert_authority_class_name (class : ExpertAuthorityClass) : string :=
  match class with
  | Class_Revoke => "revoke"
  | TighteningRotation => "tightening"
  | NonTightening => "non-tightening"
  end.
Definition expert_authority_key (kind : ExpertAuthorityKind) : string :=
  EXPERT_AUTHORITY_PREFIX +:+ expert_authority_kind_name kind.
Definition expert_authority_entry (epoch : N) (id_digest : Digest) (class : ExpertAuthorityClass)
    (fence_count : N) (fence_digest : Digest) : string :=
  to_string epoch +:+ ":" +:+ hex id_digest +:+ ":" +:+ expert_authority_class_name class +:+ ":" +:+
  to_string fence_count +:+ ":" +:+ hex fence_digest.

Definition KvTaintSubjectKind_name (kind : KvTaintSubjectKind) : string :=
  match kind with
  | Subject_Action => "action"
  | Derivation => "derivation"
  | Content => "content"
  | Subject_PodOutput => "pod-output"
  | Subject_Request => "request"
  end.

(** [format!("{:?}")] of the kind. *)
Definition MeshTunnelEventKind_debug (kind : MeshTunnelEventKind) : string :=
  match kind with
  | InvitationCreated => "InvitationCreated"
  | InvitationAccepted => "InvitationAccepted"
  | MembershipActivated => "MembershipActivated"
  | MembershipRevoked => "MembershipRevoked"
  | RouteChanged => "RouteChanged"
  | TunnelEstablished => "TunnelEstablished"
  | TunnelRevoked => "TunnelRevoked"
  | TunnelReleased => "TunnelReleased"
  end.

(** ** Parsing *)
Definition all_digits (s : string) : bool := forallb is_ascii_digit (str_bytes s).
(** A decimal number without a sign and without a leading zero. *)
Definition canonical_decimal (s : string) : bool :=
  negb (bool_decide (s = "")) && all_digits s && (bool_decide (s = "0") || negb (starts_with s "0")).

(** [str::parse::<usize>] is [parse_u64] on a 64-bit target. *)
Definition merged_branch_of (key : string) : option string :=
  rest ← strip_prefix MERGED_BRANCH_PREFIX key;
  '(length, branch) ← split_once ":" rest;
  if canonical_decimal length then
    n ← parse_u64 length;
    if (n =? slen branch)%N then Some branch else None
  else None.

Definition parse_merged_branch_entry (entry : string) : option (N * Digest) :=
  '(index, digits) ← split_once ":" entry;
  if negb (canonical_decimal index) || negb (slen digits =? 64)%N then None else
  index ← parse_u64 index;
  if forallb is_hex (str_bytes digits) then Some (index, unhex_pairs (str_bytes digits)) else None.

(** [str::get]: [None] out of range and inside a character. *)
Definition is_char_boundary (s : string) (n : N) : bool :=
  match str_bytes s !! N.to_nat n with
  | Some b => negb (cont (Byte.to_N b))
  | None => true
  end.
Definition get_split (s : string) (n : N) : option (string * string) :=
  if (slen s <? n)%N then None else
  if negb (is_char_boundary s n) then None else
  Some (bytes_str (take (N.to_nat n) (str_bytes s)), bytes_str (drop (N.to_nat n) (str_bytes s))).

Definition parse_expert_input_key (key : string) : option (string * N) :=
  rest ← strip_prefix EXPERT_INPUT_PREFIX key;
  '(length, rest) ← split_once ":" rest;
  if negb (canonical_decimal length) then None else
  length ← parse_u64 length;
  '(identity, tail) ← get_split rest length;
  generation ← strip_prefix ":" tail;
  if negb (canonical_decimal generation) then None else
  generation ← parse_u64 generation;
  Some (identity, generation).

(** [str::parse::<u32>]. *)
Definition parse_u32 (s : string) : option N :=
  n ← parse_u64 s; if u32_ok n then Some n else None.
(** [u8::is_ascii_hexdigit]: either case. *)
Definition is_ascii_hexdigit (b : byte) : bool :=
  is_ascii_digit b || in_range 65 70 (Byte.to_N b) || in_range 97 102 (Byte.to_N b).
Definition hex64 (s : string) : bool := (slen s =? 64)%N && forallb is_ascii_hexdigit (str_bytes s).

Inductive ExpertInputEntry :=
| Entry_Revoked
| Entry_Superseded (new_generation : N).

Definition parse_expert_input_entry (value : string) : option ExpertInputEntry :=
  match split_char ":"%char value with
  | head :: fields =>
      if bool_decide (head = "revoked") then
        match fields with
        | [count; digest] =>
            if bool_decide (is_Some (parse_u32 count)) && hex64 digest then Some Entry_Revoked else None
        | _ => None
        end
      else if bool_decide (head = "superseded") then
        match fields with
        | [new_generation; new_digest; count; digest] =>
            new_generation ← parse_u64 new_generation;
            if (slen new_digest =? 64)%N && bool_decide (is_Some (parse_u32 count)) && (slen digest =? 64)%N
            then Some (Entry_Superseded new_generation) else None
        | _ => None
        end
      else None
  | [] => None
  end.

Definition parse_expert_inputs_generation (value : string) : option N :=
  match split_char ":"%char value with
  | [generation; training; evaluation; digest] =>
      generation ← parse_u64 generation;
      if bool_decide (is_Some (parse_u64 training)) && bool_decide (is_Some (parse_u64 evaluation))
         && hex64 digest
      then Some generation else None
  | _ => None
  end.

Definition parse_expert_authority_key (key : string) : option ExpertAuthorityKind :=
  name ← strip_prefix EXPERT_AUTHORITY_PREFIX key;
  find_first (λ kind, bool_decide (expert_authority_kind_name kind = name)) [GateConfig; Evaluator].

Definition parse_expert_authority_entry (value : string) : option (N * string) :=
  match split_char ":"%char value with
  | [epoch; id; class; count; digest] =>
      if negb (starts_with epoch "0") && hex64 id
         && existsb (λ c, bool_decide (expert_authority_class_name c = class))
                    [Class_Revoke; TighteningRotation; NonTightening]
         && bool_decide (is_Some (parse_u32 count)) && hex64 digest
      then epoch ← parse_u64 epoch; Some (epoch, id)
      else None
  | _ => None
  end.

(** ** What an event projects *)
Abbreviation entries := (list (string * string)) (only parsing).

Definition fence_state (action : ExpertFenceAction) (resume : ExpertFenceResume) : ExpertState :=
  match action, resume with
  | (Fence | Escalate), _ => State_Fenced
  | Retire, _ => State_Retired Reason_InputRevoked
  | Readmit, Serving => State_Serving
  | Readmit, Frozen => State_Frozen
  end.

Definition semantic_entries (index : N) (r : SemanticDeltaCommitted) : entries :=
  [("semdb:revision", to_string (sdc_revision r))] ++
  match sdc_origin r with
  | Legacy => []
  | _ => [(ATTESTED_MARKER, "1")]
  end ++
  match sdc_origin r with
  | Origin_Merge merge => [(merged_branch_key (mr_branch merge), merged_branch_entry index (mr_plan merge))]
  | _ => []
  end.

Definition invalidation_entries (r : InputInvalidated) : entries :=
  match ii_kind r with
  | Kind_Revoked =>
      [("revoked:" +:+ ii_input r, to_string (ii_generation r));
       (expert_input_key (ii_input r) (ii_generation r),
        expert_input_entry_revoked (ii_fence_count r) (ii_fence_digest r))]
  | Superseded _ new_generation new_digest _ =>
      [(expert_input_key (ii_input r) (ii_generation r),
        expert_input_entry_superseded new_generation new_digest (ii_fence_count r) (ii_fence_digest r))]
  end.

Definition taint_entries (r : KvTaintCommitted) : entries :=
  let value :=
    match ktc_change r with
    | Record_taint report_digest recipe_digest =>
        "approx:" +:+ hex report_digest +:+ ":" +:+ hex recipe_digest
    | Clear_taint _ recompute_digest => "cleared:" +:+ hex recompute_digest
    end in
  (λ s, (KV_TAINT_PREFIX +:+ KvTaintSubjectKind_name s.1 +:+ ":" +:+ hex s.2, value)) <$> ktc_subjects r.

Definition refusal_entries (index : N) (r : EgressRefused) : entries :=
  [(match egr_source r with
    | Source_Pod source => egress_refusal_key (pra_address source)
    | Overflow => EGRESS_REFUSAL_OVERFLOW_KEY
    end,
    egress_refusal_entry index (egr_reason r) (egr_count r) (egr_saturated r) (egr_target r))].

Definition head_entries (r : PodHeadAdvanced) : entries :=
  [(pod_head_key (pha_project r) (pha_identity r),
    match PodRevisionAddress_canonical_uri (pha_new r) with
    | Ok uri => uri
    | Err _ => POD_HEAD_UNRENDERABLE
    end)].

Definition protected_entries (r : ProtectedStateCommitted) : entries :=
  let key := "protected:" +:+ to_string (psc_domain r) +:+ ":" +:+ psc_logical_id r in
  [(key +:+ ":generation", to_string (psc_generation r));
   (key +:+ ":revision", to_string (psc_revision r));
   (key +:+ ":ciphertext", hex (psc_ciphertext_digest r))].

Definition mesh_entries (e : MeshTunnelLifecycleEvent) : entries :=
  let key := "mesh:" +:+ mte_network_id e +:+ ":" +:+ mte_peer_id e in
  [(key +:+ ":revision", to_string (mte_revision e));
   (key +:+ ":state", MeshTunnelEventKind_debug (mte_kind e))].

Definition effect_key (index : N) (field : string) : string :=
  "effect:" +:+ to_string index +:+ ":" +:+ field.
Definition manifest_key (digest : Digest) : string := "execution-manifest:" +:+ hex digest +:+ ":state".
Definition bool_string (b : bool) : string := if b then "true" else "false".

Section Projection.
Context (sha256 : list byte → list byte).

Definition outcome_entries (project : string) (inputs : option ExpertInputs) (o : ExpertOutcome) : entries :=
  (expert_key project (eo_pod o), expert_entry (eo_generation o) (eo_state o) (eo_state_version o)) ::
  match eo_kind o, inputs with
  | Outcome_Result, Some inputs =>
      [(expert_inputs_key project (eo_pod o),
        expert_inputs_entry (eo_generation o) (blen (ei_training inputs)) (blen (ei_evaluation inputs))
          (inputs_canonical_digest sha256 inputs))]
  | _, _ => []
  end.
Definition expert_entries (project : string) (record : list byte) : entries :=
  match decode_canonical record with
  | Ok record => mjoin (outcome_entries project (ecr_inputs record) <$> outcomes (ep_op (ecr_proposal record)))
  | Err _ => []
  end.

Definition projection_entries (committed : CommittedEvent) : entries :=
  let index := ce_index committed in
  match ce_event committed with
  | Ev_SemanticDeltaCommitted r => semantic_entries index r
  | Ev_CapsuleCommitted r =>
      [("capsule:" +:+ cc_capsule r +:+ ":generation", to_string (cc_generation r));
       ("capsule:" +:+ cc_capsule r +:+ ":project", cc_project r)]
  | Ev_CapsuleSuperseded r => [("capsule:" +:+ cs_capsule r +:+ ":generation", to_string (cs_new r))]
  | Ev_Revoked r => [("revoked:" +:+ rv_subject r, to_string (rv_generation r))]
  | Ev_HardConstraintCommitted r => [("constraint:" +:+ hcc_key r, to_string (hcc_generation r))]
  | Ev_VerifierAttested r => [("verifier:" +:+ va_subject r, if va_passed r then "pass" else "fail")]
  | Ev_ProcedurePromoted r => [("procedure:" +:+ pp_id r +:+ ":generation", to_string (pp_generation r))]
  | Ev_ProcedureRevoked r =>
      [("revoked:procedure:" +:+ pr_id r, to_string (pr_generation r))]
  | Ev_SnapshotCommitted r =>
      [("snapshot:last_revision", to_string (sc_revision r)); ("snapshot:covers_commit", to_string (sc_covers r))]
  | Ev_EffectAttempted r =>
      [(effect_key index "state", "attempted"); (effect_key index "target", ea_target r);
       (effect_key index "operation", ea_operation r)]
  | Ev_EffectSettled r => [(effect_key (es_attempt r) "state", "settled")]
  | Ev_EffectReconciled r =>
      [(effect_key (er_attempt r) "state", "reconciled");
       (effect_key (er_attempt r) "applied", bool_string (er_applied r))]
  | Ev_ScopeLifecycle _ => []
  | Ev_ProtectedStateCommitted r => protected_entries r
  | Ev_MeshTunnelLifecycle e => mesh_entries e
  | Ev_ExecutionManifestAdmitted r => [(manifest_key (ema_manifest_digest r), "admitted")]
  | Ev_ExecutionManifestRevoked r => [(manifest_key (emr_manifest_digest r), "revoked")]
  | Ev_ExpertStructuralCommitted r => expert_entries (esc_project r) (esc_record r)
  | Ev_ExpertFenceCommitted r =>
      [(expert_key (efc_project r) (efc_pod r),
        expert_entry (efc_generation r) (fence_state (efc_action r) (efc_resume r)) (efc_epoch r))]
  | Ev_InputInvalidated r => invalidation_entries r
  | Ev_ExpertAuthorityChanged r =>
      [(expert_authority_key (eac_kind r),
        expert_authority_entry (eac_epoch r) (eac_id_digest r) (eac_class r) (eac_fence_count r)
          (eac_fence_digest r))]
  | Ev_KvTaintCommitted r => taint_entries r
  | Ev_PodEvidenceCommitted _ | Ev_PodOutputAdmitted _ | Ev_PodHypothesisCommitted _
  | Ev_PolicyBundleActivated _ | Ev_PolicyBundleRevoked _ | Ev_SessionRevoked _
  | Ev_TierBackendLifecycle _ | Ev_TierObjectCommitted _ | Ev_TierReplicaLifecycle _ => []
  | Ev_EgressRefused r => refusal_entries index r
  | Ev_PodHeadAdvanced r => head_entries r
  end.

(** ** Applying events *)
Inductive ApplyOutcome := Applied | Duplicate | OutOfOrder | Gap.

Record MaterializedState := {
  ms_values : gmap string string;
  ms_last_applied : N
}.

Definition MaterializedState_default : MaterializedState := {| ms_values := ∅; ms_last_applied := 0 |}.

Definition classify_next (last_applied incoming : N) : option ApplyOutcome :=
  if (incoming =? last_applied)%N then Some Duplicate
  else if (incoming <? last_applied)%N then Some OutOfOrder
  else if negb (incoming =? saturating_add_u64 last_applied 1)%N then Some Gap
  else None.

(** Each entry in turn: [insert]. *)
Definition insert_entries (values : gmap string string) (es : entries) : gmap string string :=
  foldl (λ m e, <[e.1 := e.2]> m) values es.

Definition try_apply (s : MaterializedState) (committed : CommittedEvent) : ApplyOutcome * MaterializedState :=
  let index := ce_index committed in
  match classify_next (ms_last_applied s) index with
  | Some refusal => (refusal, s)
  | None =>
      (Applied, {| ms_values := insert_entries (ms_values s) (projection_entries committed);
                   ms_last_applied := index |})
  end.
Definition apply_event (s : MaterializedState) (committed : CommittedEvent) : MaterializedState :=
  (try_apply s committed).2.

(** A sequence of deliveries, in the order in which they arrive. *)
Definition deliver (s : MaterializedState) (ds : list CommittedEvent) : MaterializedState :=
  foldl apply_event s ds.
End Projection.

(** * The keys and values of the materialized state parse back

    A restored state is read back from its keys: the branches that were merged,
    the inputs that were invalidated, the authorities.  Each parser of a key
    accepts exactly what its printer prints; two parsers of values accept more. *)

(** ** Decimal numbers without leading zeros *)
Lemma digit_value_byte a : is_Some (digit_value a) ↔ is_ascii_digit (byte_of_ascii a) = true.
Proof.
  assert (∀ b, Bool.eqb (match digit_value (ascii_of_byte b) with Some _ => true | None => false end)
                        (is_ascii_digit b) = true) as H by (by apply byte_forall; vm_compute).
  specialize (H (byte_of_ascii a)). rewrite ascii_of_byte_of_ascii in H. apply eqb_prop in H.
  rewrite <-H. destruct (digit_value a); naive_solver.
Qed.

Lemma parse_digits_all s : ∀ acc n, parse_digits acc s = Some n → all_digits s = true.
Proof.
  unfold all_digits. induction s as [|a s IH]; intros acc n H; [done|]. cbn in H.
  change (str_bytes (String a s)) with (byte_of_ascii a :: str_bytes s). cbn [forallb].
  destruct (digit_value a) as [d|] eqn:Ha; [|done]. cbn in H. destruct (u64_ok _); [|done].
  rewrite (IH _ _ H), andb_true_r. apply digit_value_byte. by rewrite Ha.
Qed.
Lemma all_digits_parse s : s ≠ "" → all_digits s = true → parse_u64 s = parse_digits 0 s.
Proof.
  intros Hs Hd. destruct s as [|a s]; [done|]. unfold parse_u64. rewrite bool_decide_eq_false_2; [done|].
  intros ->. done.
Qed.

Lemma padded_lead k n :
  (n < 10 ^ N.of_nat (S k))%N → starts_with (padded (S k) n) "0" = (n <? 10 ^ N.of_nat k)%N.
Proof.
  intros Hn. pose proof (N.pow_nonzero 10 (N.of_nat k) ltac:(lia)) as Hp.
  pose proof (N.div_mod n _ Hp) as Hd. pose proof (N.mod_lt n _ Hp) as Hm.
  assert (n / 10 ^ N.of_nat k < 10)%N as Hq.
  { apply N.Div0.div_lt_upper_bound. by rewrite Nat2N.inj_succ, N.pow_succ_r', N.mul_comm in Hn. }
  rewrite Hd at 1. rewrite N.mul_comm, padded_head by done. unfold starts_with. cbn [String.prefix].
  destruct (decide (n < 10 ^ N.of_nat k)%N) as [Hlt|Hge].
  - rewrite N.div_small, (proj2 (N.ltb_lt _ _)) by done. cbn. by destruct (padded k _).
  - rewrite (proj2 (N.ltb_ge _ _)) by lia. destruct (ascii_dec _ _) as [He|]; [|done].
    exfalso. apply (f_equal N_of_ascii) in He. rewrite digit_N in He by done. cbn in He.
    assert (n / 10 ^ N.of_nat k = 0)%N as Hz by lia. apply N.div_small_iff in Hz; [lia|done].
Qed.

(** The canonical spelling of a number is the printed one. *)
Lemma canonical_decimal_iff s n :
  canonical_decimal s = true ∧ parse_u64 s = Some n ↔ (n < 2 ^ 64)%N ∧ s = to_string n.
Proof.
  unfold canonical_decimal. split.
  - intros [Hc Hp]. pose proof (parse_u64_fits _ _ Hp) as Hf. split; [done|]. bool_prop.
    rewrite all_digits_parse in Hp by done.
    apply parse_digits_padded in Hp as (v & Hv & Hn & Hs). rewrite N.mul_0_l, N.add_0_l in Hn. subst v.
    assert (bool_decide (s = "0") || negb (starts_with s "0") = true) as Hz by done.
    apply orb_true_iff in Hz as [Hz|Hz]; bool_prop.
    { subst s. assert (n = 0)%N as ->; [|done]. by apply (padded_inj 1). }
    destruct (String.length s) as [|m] eqn:Hm; [by destruct s|]. rewrite Hs in Hz.
    rewrite padded_lead in Hz by done. bool_prop.
    assert (n ≠ 0)%N as Hn by (intros ->; pose proof (N.pow_nonzero 10 (N.of_nat m)); lia).
    destruct (to_string_padded n Hn) as (k & -> & Hk1 & Hk2). rewrite Hs. f_equal.
    assert (10 ^ N.of_nat m < 10 ^ N.of_nat (S k))%N as Hlt by lia.
    assert (10 ^ N.of_nat k < 10 ^ N.of_nat (S m))%N as Hlt' by lia.
    apply N.pow_lt_mono_r_iff in Hlt, Hlt'; lia.
  - intros [Hn ->]. split; [|by apply parse_to_string].
    destruct (to_string_digits n Hn) as [Hne Hp]. rewrite (parse_digits_all _ _ _ Hp).
    rewrite bool_decide_eq_false_2 by done. cbn [negb andb]. destruct (decide (n = 0)%N) as [->|Hz]; [done|].
    apply orb_true_iff. right. apply negb_true_iff. destruct (to_string_padded n Hz) as (k & -> & Hk1 & Hk2).
    rewrite padded_lead by done. by apply N.ltb_ge.
Qed.

Lemma decimal_colon n : has_char ":" (to_string n) = false.
Proof. by apply to_string_char. Qed.
Lemma canonical_to_string n : (n < 2 ^ 64)%N → canonical_decimal (to_string n) = true.
Proof. intros H. by apply (canonical_decimal_iff (to_string n) n). Qed.

(** A number, a colon and the rest. *)
Lemma split_decimal n rest : split_once ":" (to_string n +:+ ":" +:+ rest) = Some (to_string n, rest).
Proof. apply (split_once_app ":"%char ""), decimal_colon. Qed.

(** ** Merged branches *)
Lemma merged_branch_of_iff key b :
  merged_branch_of key = Some b ↔ (slen b < 2 ^ 64)%N ∧ key = merged_branch_key b.
Proof.
  unfold merged_branch_of, merged_branch_key. split.
  - destruct (strip_prefix _ _) as [rest|] eqn:Hp; [|done]. apply strip_prefix_some in Hp as ->.
    cbn [mbind option_bind]. destruct (split_once _ _) as [[len branch]|] eqn:Hs; [|done].
    apply split_once_some in Hs as ->. cbn [mbind option_bind].
    destruct (canonical_decimal len) eqn:Hc; [|done]. destruct (parse_u64 len) as [n|] eqn:Hn; [|done].
    cbn [mbind option_bind]. destruct (n =? slen branch)%N eqn:Hl; [|done]. intros [= <-]. bool_prop. subst n.
    by destruct (proj1 (canonical_decimal_iff len (slen branch)) (conj Hc Hn)) as [? ->].
  - intros [Hl ->]. rewrite strip_prefix_app. cbn [mbind option_bind]. rewrite split_decimal.
    cbn [mbind option_bind]. rewrite canonical_to_string, parse_to_string by done.
    cbn [mbind option_bind]. by rewrite N.eqb_refl.
Qed.


Lemma merged_branch_key_inj b c : merged_branch_key b = merged_branch_key c → b = c.
Proof.
  unfold merged_branch_key. intros H%string_app_inj_l.
  by apply (has_char_split ":") in H as [_ ?]; [|apply decimal_colon..].
Qed.

Lemma parse_merged_branch_entry_iff e index plan :
  parse_merged_branch_entry e = Some (index, plan) ↔
  (index < 2 ^ 64)%N ∧ digest_ok plan = true ∧ e = merged_branch_entry index plan.
Proof.
  unfold parse_merged_branch_entry, merged_branch_entry. split.
  - destruct (split_once _ _) as [[i digits]|] eqn:Hs; [|done]. apply split_once_some in Hs as ->.
    cbn [mbind option_bind]. destruct (_ || _) eqn:Hc; [done|]. bool_prop.
    destruct (parse_u64 i) as [n|] eqn:Hn; [|done]. cbn [mbind option_bind].
    destruct (forallb is_hex _) eqn:Hh; [|done]. intros [= <- <-].
    destruct (proj1 (canonical_decimal_iff i n) (conj H Hn)) as [? ->].
    destruct (hex_unhex 32 (str_bytes digits)) as [He Hl]; [unfold slen, blen in *; lia|done|].
    split_and!; [done|by apply Nat.eqb_eq|]. do 2 f_equal. apply str_bytes_inj. by rewrite str_bytes_hex, He.
  - intros (Hi & Hp%Nat.eqb_eq & ->). rewrite split_decimal. cbn [mbind option_bind].
    rewrite canonical_to_string by done. unfold slen, blen.
    rewrite str_bytes_hex, hex_bytes_length, Hp. cbn [negb orb N.eqb]. rewrite parse_to_string by done.
    cbn. by rewrite hex_bytes_is_hex, unhex_hex.
Qed.

(** ** Invalidated inputs *)
Lemma get_split_app s u :
  get_split (s +:+ ":" +:+ u) (slen s) = Some (s, ":" +:+ u).
Proof.
  set (t := ":" +:+ u). unfold get_split, slen. rewrite str_bytes_app, (proj2 (N.ltb_ge _ _)) by (autorewrite with blen; lia).
  assert (is_char_boundary (s +:+ t) (blen (str_bytes s)) = true) as ->.
  { unfold is_char_boundary, blen. rewrite Nat2N.id, str_bytes_app, lookup_app_r, Nat.sub_diag by lia. done. }
  cbn [negb]. unfold blen. rewrite Nat2N.id, take_app_length, drop_app_length. by rewrite !bytes_str_bytes.
Qed.
Lemma get_split_some s n l r : get_split s n = Some (l, r) → s = l +:+ r ∧ slen l = n.
Proof.
  unfold get_split. destruct (_ <? _)%N eqn:Hl; [done|]. destruct (negb _); [done|]. intros [= <- <-].
  bool_prop. split.
  - by rewrite <-bytes_str_app, take_drop, bytes_str_bytes.
  - unfold slen, blen in *. rewrite str_bytes_str, length_take. lia.
Qed.

Lemma parse_expert_input_key_iff key identity generation :
  parse_expert_input_key key = Some (identity, generation) ↔
  (slen identity < 2 ^ 64)%N ∧ (generation < 2 ^ 64)%N ∧ key = expert_input_key identity generation.
Proof.
  unfold parse_expert_input_key, expert_input_key. split.
  - destruct (strip_prefix _ _) as [rest|] eqn:Hp; [|done]. apply strip_prefix_some in Hp as ->.
    cbn [mbind option_bind]. destruct (split_once _ _) as [[len rest']|] eqn:Hs; [|done].
    apply split_once_some in Hs as ->. cbn [mbind option_bind].
    destruct (canonical_decimal len) eqn:Hc; [|done]. cbn [negb].
    destruct (parse_u64 len) as [n|] eqn:Hn; [|done]. cbn [mbind option_bind].
    destruct (get_split rest' n) as [[l r]|] eqn:Hg; [|done]. apply get_split_some in Hg as [-> Hl].
    cbn [mbind option_bind]. destruct (strip_prefix ":" r) as [g|] eqn:Hr; [|done].
    apply strip_prefix_some in Hr as ->. cbn [mbind option_bind].
    destruct (canonical_decimal g) eqn:Hcg; [|done]. cbn [negb].
    destruct (parse_u64 g) as [m|] eqn:Hm; [|done]. intros [= <- <-]. subst n.
    destruct (proj1 (canonical_decimal_iff len _) (conj Hc Hn)) as [? ->].
    by destruct (proj1 (canonical_decimal_iff g _) (conj Hcg Hm)) as [? ->].
  - intros (Hi & Hg & ->). rewrite strip_prefix_app. cbn [mbind option_bind]. rewrite split_decimal.
    cbn [mbind option_bind]. rewrite canonical_to_string, parse_to_string by done. cbn [negb mbind option_bind].
    rewrite get_split_app. cbn [mbind option_bind].
    rewrite strip_prefix_app. cbn [mbind option_bind]. by rewrite canonical_to_string, parse_to_string.
Qed.

(** ** Values with fields *)
Lemma split_field s t : has_char ":" s = false → split_char ":" (s +:+ ":" +:+ t) = s :: split_char ":" t.
Proof. apply split_char_app. Qed.
Lemma hex_colon d : has_char ":" (hex d) = false.
Proof. by apply hex_char. Qed.
Lemma hex64_hex d : digest_ok d = true → hex64 (hex d) = true ∧ (slen (hex d) =? 64)%N = true.
Proof.
  intros Hd%Nat.eqb_eq. unfold hex64, slen, blen. rewrite str_bytes_hex, hex_bytes_length, Hd.
  split; [|done]. apply andb_true_iff. split; [done|].
  pose proof (hex_bytes_is_hex d) as Hh. rewrite forallb_forall in *. intros b Hb. specialize (Hh b Hb).
  unfold is_hex, is_ascii_hexdigit, is_ascii_digit in *. apply orb_true_iff in Hh as [->| ->]; [done|].
  by rewrite orb_true_r.
Qed.
Lemma parse_u32_to_string n : u32_ok n = true → bool_decide (is_Some (parse_u32 (to_string n))) = true.
Proof.
  intros H. apply bool_decide_eq_true. unfold parse_u32. rewrite parse_to_string; [|by unfold u32_ok in H; bool_prop; lia].
  cbn [mbind option_bind]. by rewrite H.
Qed.

Lemma input_entry_revoked_reads count digest :
  u32_ok count = true → digest_ok digest = true →
  parse_expert_input_entry (expert_input_entry_revoked count digest) = Some Entry_Revoked.
Proof.
  intros Hc Hd. unfold parse_expert_input_entry, expert_input_entry_revoked.
  assert (count < 2 ^ 64)%N by (unfold u32_ok in Hc; bool_prop; lia).
  change ("revoked:" +:+ ?x) with ("revoked" +:+ ":" +:+ x).
  rewrite split_field, split_field, split_char_one by first [apply hex_colon|apply decimal_colon|done].
  rewrite bool_decide_eq_true_2 by done. destruct (hex64_hex digest Hd) as [-> _].
  by rewrite parse_u32_to_string.
Qed.
Lemma input_entry_superseded_reads generation d count digest :
  (generation < 2 ^ 64)%N → digest_ok d = true → u32_ok count = true → digest_ok digest = true →
  parse_expert_input_entry (expert_input_entry_superseded generation d count digest)
    = Some (Entry_Superseded generation).
Proof.
  intros Hg Hd Hc Hd'. unfold parse_expert_input_entry, expert_input_entry_superseded.
  assert (count < 2 ^ 64)%N by (unfold u32_ok in Hc; bool_prop; lia).
  change ("superseded:" +:+ ?x) with ("superseded" +:+ ":" +:+ x).
  rewrite !split_field, split_char_one by first [apply hex_colon|apply decimal_colon|done].
  rewrite bool_decide_eq_false_2, bool_decide_eq_true_2 by done.
  destruct (hex64_hex d Hd) as [_ ->], (hex64_hex digest Hd') as [_ ->].
  rewrite parse_to_string, parse_u32_to_string by done. done.
Qed.
Lemma inputs_entry_reads generation training evaluation digest :
  (generation < 2 ^ 64)%N → (training < 2 ^ 64)%N → (evaluation < 2 ^ 64)%N → digest_ok digest = true →
  parse_expert_inputs_generation (expert_inputs_entry generation training evaluation digest) = Some generation.
Proof.
  intros Hg Ht He Hd. unfold parse_expert_inputs_generation, expert_inputs_entry.
  rewrite !split_field, split_char_one by first [apply hex_colon|apply decimal_colon|done].
  destruct (hex64_hex digest Hd) as [-> _]. by rewrite !parse_to_string.
Qed.
Lemma authority_key_iff key kind :
  parse_expert_authority_key key = Some kind ↔ key = expert_authority_key kind.
Proof.
  unfold parse_expert_authority_key, expert_authority_key. split.
  - destruct (strip_prefix _ _) as [name|] eqn:Hp; [|done]. apply strip_prefix_some in Hp as ->.
    cbn [mbind option_bind find_first]. repeat case_bool_decide; intros [= <-]; by subst.
  - intros ->. rewrite strip_prefix_app. by destruct kind.
Qed.
Lemma authority_entry_reads epoch id class count digest :
  (epoch < 2 ^ 64)%N → epoch ≠ 0%N → digest_ok id = true → u32_ok count = true → digest_ok digest = true →
  parse_expert_authority_entry (expert_authority_entry epoch id class count digest) = Some (epoch, hex id).
Proof.
  intros He Hz Hi Hc Hd. unfold parse_expert_authority_entry, expert_authority_entry.
  assert (count < 2 ^ 64)%N by (unfold u32_ok in Hc; bool_prop; lia).
  rewrite !split_field, split_char_one
    by first [apply hex_colon|apply decimal_colon|by destruct class].
  destruct (hex64_hex id Hi) as [-> _], (hex64_hex digest Hd) as [-> _].
  destruct (to_string_padded epoch Hz) as (k & Hk & Hlow & Hhigh).
  assert (starts_with (to_string epoch) "0" = false) as ->
    by (rewrite Hk, padded_lead by done; by apply N.ltb_ge).
  rewrite parse_u32_to_string, parse_to_string by done. by destruct class.
Qed.

(** ** Theorems *)

(** What the state holds about merges and invalidated inputs can be read back
    from it, and from nothing else.  A key names a branch, or an input at a
    generation, exactly when it is the key printed for it, whatever bytes the
    names contain; a value gives an index and a plan exactly when it is the
    value printed for them.  So no two branches and no two inputs share a key. *)
Theorem state_keys_exact key branch identity generation entry index plan :
  (merged_branch_of key = Some branch ↔ (slen branch < 2 ^ 64)%N ∧ key = merged_branch_key branch) ∧
  (parse_expert_input_key key = Some (identity, generation) ↔
   (slen identity < 2 ^ 64)%N ∧ (generation < 2 ^ 64)%N ∧ key = expert_input_key identity generation) ∧
  (parse_merged_branch_entry entry = Some (index, plan) ↔
   (index < 2 ^ 64)%N ∧ digest_ok plan = true ∧ entry = merged_branch_entry index plan).
Proof.
  split_and!; [apply merged_branch_of_iff|apply parse_expert_input_key_iff|apply parse_merged_branch_entry_iff].
Qed.

(** A value in which the digests are not hexadecimal. *)
Definition lenient_value : string :=
  let z := bytes_str (replicate 64 x7a) in "superseded:1:" +:+ z +:+ ":+0:" +:+ z.

(** [parse_expert_input_entry] is documented to return [None] for anything
    but a value that the two printers write.  It accepts more: a superseded
    entry with digests that are 64 arbitrary bytes and a signed count, which
    neither printer writes for any arguments. *)
Theorem input_entry_parser_lenient :
  parse_expert_input_entry lenient_value = Some (Entry_Superseded 1) ∧
  (∀ count digest, lenient_value ≠ expert_input_entry_revoked count digest) ∧
  ∀ generation d count digest, lenient_value ≠ expert_input_entry_superseded generation d count digest.
Proof.
  split; [vm_compute; reflexivity|]. assert (has_char "z" lenient_value = true) as Hz by (vm_compute; reflexivity).
  assert (∀ n, has_char "z" (to_string n) = false) as Hn by (intros n; by apply to_string_char).
  assert (∀ d, has_char "z" (hex d) = false) as Hh by (intros d; by apply hex_char).
  split.
  - intros count digest H. rewrite H in Hz. unfold expert_input_entry_revoked in Hz.
    rewrite !has_char_app, Hn, Hh in Hz by done. discriminate Hz.
  - intros generation d count digest H. rewrite H in Hz. unfold expert_input_entry_superseded in Hz.
    rewrite !has_char_app, !Hn, !Hh in Hz by done. discriminate Hz.
Qed.
