(* ===== verification/StateFacts.v ===== *)
(** * What the materialized state holds

    Whatever order commits are delivered in, with duplicates and gaps, the state
    is the projection of a prefix of the log; what it says about merges, about
    attributed records and about experts is what that prefix contains. *)

From S2P Require Import Prelude Bytes Text Types Address ExpertOps ExpertFacts ExpertCodec.
From S2P Require Import ExpertRecords LedgerEvents LedgerChecks Ledger State.
From Stdlib Require Import Strings.Ascii.
From stdpp Require Import options.

Section Facts.
Context (sha256 : list byte → list byte).

(** ** The projection of a history *)
Definition project_all (es : list CommittedEvent) : gmap string string :=
  foldl (λ m c, insert_entries m (projection_entries sha256 c)) ∅ es.

Lemma project_snoc es c : project_all (es ++ [c]) = insert_entries (project_all es) (projection_entries sha256 c).
Proof. unfold project_all. by rewrite foldl_app. Qed.

(** The state after the first [k] events of a log. *)
Definition state_at (log : list CommittedEvent) (k : nat) : MaterializedState :=
  {| ms_values := project_all (take k log); ms_last_applied := N.of_nat k |}.

(** Where a sequence of deliveries gets to: an index counts when it is next. *)
Definition advance (k : nat) (ds : list CommittedEvent) : nat :=
  foldl (λ k c, if (ce_index c =? N.of_nat k + 1)%N then S k else k) k ds.

Lemma advance_le ds : ∀ k, k ≤ advance k ds.
Proof.
  induction ds as [|c ds IH]; intros k; [done|]. cbn [advance foldl].
  etrans; [|apply IH]. destruct (_ =? _)%N; lia.
Qed.

Section Log.
Context (log : list CommittedEvent) (Hlog : numbered 0 log) (Hfits : (blen log < 2 ^ 64)%N).

Lemma apply_step k c :
  k ≤ length log → c ∈ log →
  apply_event sha256 (state_at log k) c = state_at log (if (ce_index c =? N.of_nat k + 1)%N then S k else k).
Proof using Hlog Hfits.
  intros Hk (i & Hi)%list_elem_of_lookup_1. pose proof (Hlog i c Hi) as Hidx. rewrite N.add_0_l in Hidx.
  pose proof (lookup_lt_Some _ _ _ Hi) as Hlt. unfold apply_event, try_apply, classify_next.
  cbn [ms_last_applied ms_values state_at]. unfold blen in Hfits.
  unfold saturating_add_u64. destruct (ce_index c =? N.of_nat k + 1)%N eqn:He; bool_prop.
  - rewrite (proj2 (N.eqb_neq _ _)), (proj2 (N.ltb_ge _ _)), (proj2 (N.eqb_eq _ _)) by lia. cbn [negb snd].
    assert (i = k) as -> by lia. unfold state_at. rewrite (take_S_r _ _ _ Hi), project_snoc. f_equal. lia.
  - destruct (ce_index c =? N.of_nat k)%N eqn:Hd; [done|]. destruct (ce_index c <? N.of_nat k)%N eqn:Ho; [done|].
    bool_prop. by rewrite (proj2 (N.eqb_neq _ _)) by lia.
Qed.

Lemma deliver_advance ds : ∀ k, k ≤ length log → Forall (λ c, c ∈ log) ds →
  deliver sha256 (state_at log k) ds = state_at log (advance k ds) ∧ advance k ds ≤ length log.
Proof using Hlog Hfits.
  induction ds as [|c ds IH]; intros k Hk Hds; [done|].
  apply Forall_cons in Hds as [Hc Hds]. cbn [deliver foldl advance]. rewrite apply_step by done.
  apply IH; [|done]. destruct (ce_index c =? N.of_nat k + 1)%N eqn:He; [|done]. bool_prop.
  apply list_elem_of_lookup_1 in Hc as (i & Hi). pose proof (Hlog i c Hi). apply lookup_lt_Some in Hi. lia.
Qed.

(** Everything still missing, in order, is enough. *)
Lemma advance_complete ds : ∀ k, k ≤ length log → Forall (λ c, c ∈ log) ds →
  drop k log `sublist_of` ds → advance k ds = length log.
Proof using Hlog Hfits sha256.
  induction ds as [|c ds IH]; intros k Hk Hds Hs.
  - apply sublist_nil_r in Hs. apply (f_equal length) in Hs. rewrite length_drop in Hs. cbn in *. lia.
  - destruct (deliver_advance (c :: ds) k Hk Hds) as [_ Hle].
    destruct (decide (k = length log)) as [->|Hne].
    { pose proof (advance_le (c :: ds) (length log)). lia. }
    destruct (lookup_lt_is_Some_2 log k) as [e He]; [lia|]. rewrite (drop_S _ _ _ He) in Hs.
    pose proof (Hlog k e He) as Hi. rewrite N.add_0_l in Hi. apply Forall_cons in Hds as [Hc Hds].
    cbn [advance foldl]. destruct (ce_index c =? N.of_nat k + 1)%N eqn:Hidx; bool_prop.
    + apply IH; [lia|done|]. apply sublist_cons_r in Hs as [Hs|(l & [= <- <-] & Hs)]; [|done].
      etrans; [|exact Hs]. by apply sublist_cons.
    + apply IH; [lia|done|]. apply sublist_cons_r in Hs as [Hs|(l & [= <- <-] & Hs)]; [|done].
      by rewrite (drop_S _ _ _ He).
Qed.
End Log.

(** ** Looking a key up *)
Lemma insert_entries_other m es k : k ∉ es.*1 → insert_entries m es !! k = m !! k.
Proof.
  unfold insert_entries. revert m. induction es as [|[k' v] es IH]; intros m Hk; [done|].
  cbn [fmap list_fmap fst] in Hk. apply not_elem_of_cons in Hk as [Hne Hk].
  cbn [foldl]. by rewrite (IH _ Hk), lookup_insert_ne.
Qed.
Lemma insert_entries_same m es k v :
  (k, v) ∈ es → (∀ v', (k, v') ∈ es → v' = v) → insert_entries m es !! k = Some v.
Proof.
  unfold insert_entries. revert m. induction es as [|[k' v'] es IH]; intros m Hin Hu; [set_solver|].
  cbn [foldl fst snd]. destruct (decide ((k, v) ∈ es)) as [Hes|Hes].
  { apply IH; [done|]. intros w Hw. apply Hu. by right. }
  apply elem_of_cons in Hin as [[= -> ->]|Hin]; [|done].
  change (insert_entries (<[k':=v']> m) es !! k' = Some v'). rewrite insert_entries_other; [by rewrite lookup_insert_eq|].
  intros ([k'' w] & He & Hw)%list_elem_of_fmap. cbn in He. subst k''.
  rewrite (Hu w) in Hw by (by right). done.
Qed.

(** Every value in the state was projected by some event of the history. *)
Lemma project_all_in es k v :
  project_all es !! k = Some v → ∃ c, c ∈ es ∧ (k, v) ∈ projection_entries sha256 c.
Proof.
  induction es as [|c es IH] using rev_ind; [done|]. rewrite project_snoc.
  assert (∀ l m, insert_entries m l !! k = Some v → (k, v) ∈ l ∨ m !! k = Some v) as Hins.
  { intros l. induction l as [|[k' v'] l IHl]; intros m H; [by right|]. cbn [insert_entries foldl] in H.
    apply IHl in H as [H|H]; [left; by right|]. cbn [fst snd] in H. apply lookup_insert_Some in H as [[-> ->]|[_ H]].
    - left. by left.
    - by right. }
  intros [H|H]%Hins.
  - exists c. split; [set_solver|done].
  - destruct (IH H) as (c' & Hc & ?). exists c'. split; [set_solver|done].
Qed.

Lemma project_all_const es k v :
  (∃ c, c ∈ es ∧ (k, v) ∈ projection_entries sha256 c) →
  (∀ c v', c ∈ es → (k, v') ∈ projection_entries sha256 c → v' = v) →
  project_all es !! k = Some v.
Proof.
  induction es as [|c es IH] using rev_ind; intros Hex Hu; [set_solver|]. rewrite project_snoc.
  destruct (decide (k ∈ (projection_entries sha256 c).*1)) as [Hk|Hk].
  - apply list_elem_of_fmap in Hk as ([k' w] & He & Hw). cbn in He. subst k'.
    assert (w = v) as -> by (apply (Hu c); [set_solver|done]).
    apply insert_entries_same; [done|]. intros v' Hv'. apply (Hu c); [set_solver|done].
  - rewrite insert_entries_other by done. apply IH.
    + destruct Hex as (c' & Hc & Hv). apply elem_of_app in Hc as [Hc|Hc]; [by exists c'|].
      apply list_elem_of_singleton in Hc as ->. exfalso. apply Hk, list_elem_of_fmap. by exists (k, v).
    + intros c' v' Hc. apply Hu. set_solver.
Qed.

(** ** Which events write which keys *)
Definition foreign (k : string) : Prop :=
  strip_prefix "semdb:" k = None ∧ strip_prefix MERGED_BRANCH_PREFIX k = None.

Lemma expert_entries_keys project record k v :
  (k, v) ∈ expert_entries sha256 project record → ∃ rest, k = "expert" +:+ rest.
Proof.
  unfold expert_entries. destruct (decode_canonical record) as [r|]; [|set_solver].
  intros (es & Hin & Hes)%list_elem_of_join. apply list_elem_of_fmap in Hes as (o & -> & _).
  unfold outcome_entries in Hin. apply elem_of_cons in Hin as [[= -> ->]|Hin]; [by eexists|].
  destruct (eo_kind o), (ecr_inputs r); try (by apply not_elem_of_nil in Hin).
  apply list_elem_of_singleton in Hin as [= -> ->]. by eexists.
Qed.

Lemma projection_foreign c k v :
  (k, v) ∈ projection_entries sha256 c →
  (∃ r, ce_event c = Ev_SemanticDeltaCommitted r ∧ (k, v) ∈ semantic_entries (ce_index c) r) ∨ foreign k.
Proof.
  unfold projection_entries, foreign. destruct (ce_event c) eqn:He; intros H; try (by apply not_elem_of_nil in H);
    try (left; by eexists); right.
  all: try (apply expert_entries_keys in H as [rest ->]; done).
  all: unfold protected_entries, mesh_entries, refusal_entries, head_entries in H;
    try (repeat (apply elem_of_cons in H as [[= -> _]|H]; [done|]); by apply not_elem_of_nil in H).
  - unfold taint_entries in H. apply list_elem_of_fmap in H as (s & [= -> _] & _). done.
  - unfold invalidation_entries in H. destruct (ii_kind r);
      repeat (apply elem_of_cons in H as [[= -> _]|H]; [done|]); by apply not_elem_of_nil in H.
  - apply list_elem_of_singleton in H as [= -> _]. by destruct (egr_source r).
Qed.

(** ** Merges and attributed records *)
Definition attributed (c : CommittedEvent) : bool :=
  match ce_event c with
  | Ev_SemanticDeltaCommitted r => match sdc_origin r with Legacy => false | _ => true end
  | _ => false
  end.
Definition merge_of (c : CommittedEvent) : option MergeRecord :=
  match ce_event c with
  | Ev_SemanticDeltaCommitted r => match sdc_origin r with Origin_Merge m => Some m | _ => None end
  | _ => None
  end.

Lemma marker_not_merge b : ATTESTED_MARKER ≠ merged_branch_key b.
Proof. intros H. discriminate H. Qed.
Lemma revision_not_merge b : "semdb:revision" ≠ merged_branch_key b.
Proof. intros H. discriminate H. Qed.

Lemma marker_entry c v : (ATTESTED_MARKER, v) ∈ projection_entries sha256 c ↔ attributed c = true ∧ v = "1".
Proof.
  split.
  - intros [(r & He & H)|[Hs _]]%projection_foreign; [|done]. unfold attributed. rewrite He.
    unfold semantic_entries in H. apply elem_of_cons in H as [[= ]|H].
    destruct (sdc_origin r); cbn [app] in H; [by apply not_elem_of_nil in H|..];
      apply elem_of_cons in H as [[= ->]|H]; try done; try (by apply not_elem_of_nil in H).
    apply list_elem_of_singleton in H. apply (f_equal fst) in H. by apply marker_not_merge in H.
  - intros [Ha ->]. unfold attributed in Ha. unfold projection_entries. destruct (ce_event c); try done.
    unfold semantic_entries. destruct (sdc_origin r); try done; right; by left.
Qed.
Lemma merge_entry c b v :
  (merged_branch_key b, v) ∈ projection_entries sha256 c ↔
  ∃ m, merge_of c = Some m ∧ mr_branch m = b ∧ v = merged_branch_entry (ce_index c) (mr_plan m).
Proof.
  split.
  - intros [(r & He & H)|[_ Hs]]%projection_foreign; [|by unfold merged_branch_key in Hs; rewrite strip_prefix_app in Hs].
    unfold merge_of. rewrite He. unfold semantic_entries in H. apply elem_of_cons in H as [H|H].
    { apply (f_equal fst) in H. symmetry in H. by apply revision_not_merge in H. }
    destruct (sdc_origin r) as [| | | | |m]; cbn [app] in H; [by apply not_elem_of_nil in H|..];
      apply elem_of_cons in H as [H|H]; try (by apply not_elem_of_nil in H);
      try (apply (f_equal fst) in H; symmetry in H; by apply marker_not_merge in H).
    apply list_elem_of_singleton in H. apply pair_equal_spec in H as [H ->].
    apply merged_branch_key_inj in H as ->. by exists m.
  - intros (m & Hm & <- & ->). unfold merge_of in Hm. unfold projection_entries. destruct (ce_event c); try done.
    unfold semantic_entries. destruct (sdc_origin r); try done. injection Hm as ->. right; right; by left.
Qed.

(** The last merge of a branch in a history: its index and its plan. *)
Definition last_merge (b : string) (es : list CommittedEvent) : option (N * Digest) :=
  foldl (λ acc c,
    match merge_of c with
    | Some m => if bool_decide (mr_branch m = b) then Some (ce_index c, mr_plan m) else acc
    | None => acc
    end) None es.

Lemma project_merge b es :
  project_all es !! merged_branch_key b = (λ p, merged_branch_entry p.1 p.2) <$> last_merge b es.
Proof.
  induction es as [|c es IH] using rev_ind; [done|]. rewrite project_snoc.
  unfold last_merge. rewrite foldl_app. cbn [foldl]. fold (last_merge b es).
  destruct (merge_of c) as [m|] eqn:Hm; [case_bool_decide as Hb|].
  - apply insert_entries_same.
    + apply merge_entry. by exists m.
    + intros v' (m' & Hm' & _ & ->)%merge_entry. by simplify_eq.
  - rewrite insert_entries_other; [done|]. intros ([k v] & He & Hin)%list_elem_of_fmap. cbn in He. subst k.
    apply merge_entry in Hin as (m' & Hm' & Hb' & _). by simplify_eq.
  - rewrite insert_entries_other; [done|]. intros ([k v] & He & Hin)%list_elem_of_fmap. cbn in He. subst k.
    apply merge_entry in Hin as (m' & Hm' & _). congruence.
Qed.

(** ** Experts *)
Lemma expert_key_pod project pod pod' : expert_key project pod = expert_key project pod' → pod = pod'.
Proof. unfold expert_key. by intros H%string_app_inj_l%string_app_inj_l%(string_app_inj_l "/"). Qed.
Lemma expert_not_inputs project pod pod' : expert_key project pod ≠ expert_inputs_key project pod'.
Proof. intros H. discriminate H. Qed.

Lemma expert_key_entry project record r pod v :
  decode_canonical record = Ok r →
  (expert_key project pod, v) ∈ expert_entries sha256 project record ↔
  ∃ o, o ∈ outcomes (ep_op (ecr_proposal r)) ∧ eo_pod o = pod ∧
       v = expert_entry (eo_generation o) (eo_state o) (eo_state_version o).
Proof.
  intros Hr. unfold expert_entries. rewrite Hr. split.
  - intros (es & Hin & Hes)%list_elem_of_join. apply list_elem_of_fmap in Hes as (o & -> & Ho).
    unfold outcome_entries in Hin. apply elem_of_cons in Hin as [Hin|Hin].
    + apply pair_equal_spec in Hin as [Hk ->]. apply expert_key_pod in Hk as ->. by exists o.
    + exfalso. destruct (eo_kind o), (ecr_inputs r); try (by apply not_elem_of_nil in Hin).
      apply list_elem_of_singleton, (f_equal fst) in Hin. by apply expert_not_inputs in Hin.
  - intros (o & Ho & <- & ->). apply list_elem_of_join. eexists. split; [|apply list_elem_of_fmap; by exists o].
    by left.
Qed.

Lemma NoDup_fmap_elem {A B} (f : A → B) l a b :
  NoDup (f <$> l) → a ∈ l → b ∈ l → f a = f b → a = b.
Proof.
  induction l as [|c l IH]; intros Hn Ha Hb Hf; [set_solver|]. apply NoDup_cons in Hn as [Hc Hn].
  apply elem_of_cons in Ha as [-> |Ha], Hb as [-> |Hb]; try done.
  - exfalso. apply Hc. rewrite Hf. by apply list_elem_of_fmap_2.
  - exfalso. apply Hc. rewrite <-Hf. by apply list_elem_of_fmap_2.
  - by apply IH.
Qed.

Lemma decoded_outcomes record r :
  decode_canonical record = Ok r → NoDup (eo_pod <$> outcomes (ep_op (ecr_proposal r))).
Proof.
  intros Hr. unfold decode_canonical in Hr. destruct (_ <? _)%N; [done|].
  apply rbind_ok_inv in Hr as ([r' rest] & Hr' & Hr). result_inv.
  apply record_yield in Hr' as (Hp & _). unfold proposal_ok in Hp. bool_prop. rewrite is_ok_unit in *.
  eapply outcomes_pods. by apply validate_requested_valid.
Qed.
End Facts.

(** ** Theorems *)

(** C35: Materialization is exactly once.  Let commits of one log be delivered in
    any order, any number of times, with gaps.  The state is then the
    projection of a prefix of the log, each event applied once and in order,
    and [last_applied] is the length of that prefix; if the whole log was
    delivered in order at some point, whatever else came in between, the prefix
    is the whole log. *)
Theorem materialized_exactly_once sha256 log ds :
  numbered 0 log → (blen log < 2 ^ 64)%N → Forall (λ c, c ∈ log) ds →
  ∃ k, k ≤ length log ∧
    deliver sha256 MaterializedState_default ds = state_at sha256 log k ∧
    (log `sublist_of` ds → k = length log).
Proof.
  intros Hlog Hfits Hds.
  destruct (deliver_advance sha256 log Hlog Hfits ds 0 ltac:(lia) Hds) as [Hd Hle].
  exists (advance 0 ds). split; [done|]. split; [exact Hd|]. intros Hs.
  apply (advance_complete sha256 log Hlog Hfits); [lia|done|by rewrite drop_0].
Qed.

(** What a state says about merges and about attribution is what its history
    contains.  The marker is present exactly when some semantic record of the
    history has an attributed origin, and a branch's key holds the index and
    the plan of the last merge of that branch, or is absent if there was none:
    no other event can write either key. *)
Theorem semantic_projection_exact sha256 es b :
  (project_all sha256 es !! ATTESTED_MARKER = Some "1" ↔ ∃ c, c ∈ es ∧ attributed c = true) ∧
  (∀ v, project_all sha256 es !! ATTESTED_MARKER = Some v → v = "1") ∧
  project_all sha256 es !! merged_branch_key b = (λ p, merged_branch_entry p.1 p.2) <$> last_merge b es.
Proof.
  assert (∀ v, project_all sha256 es !! ATTESTED_MARKER = Some v → v = "1" ∧ ∃ c, c ∈ es ∧ attributed c = true) as Hm.
  { intros v (c & Hc & Hv)%project_all_in. apply marker_entry in Hv as [Ha ->]. eauto. }
  split_and!; [|by intros v [? _]%Hm|apply project_merge]. split; [by intros [_ ?]%Hm|].
  intros (c & Hc & Ha). apply project_all_const.
  - exists c. split; [done|]. by apply marker_entry.
  - by intros c' v' _ [_ ?]%marker_entry.
Qed.

(** An expert record projects exactly its outcomes.  Applying the event of a
    record that decodes gives every expert of the operation the generation,
    state and version of its one outcome, and changes the key of no other
    expert; so the projection and a registry that applies the outcomes cannot
    disagree. *)
Theorem expert_projection_exact sha256 m project record r pod :
  decode_canonical record = Ok r →
  let m' := insert_entries m (expert_entries sha256 project record) in
  (∀ o, o ∈ outcomes (ep_op (ecr_proposal r)) → eo_pod o = pod →
     m' !! expert_key project pod = Some (expert_entry (eo_generation o) (eo_state o) (eo_state_version o))) ∧
  (pod ∉ eo_pod <$> outcomes (ep_op (ecr_proposal r)) →
     m' !! expert_key project pod = m !! expert_key project pod).
Proof.
  intros Hr m'. pose proof (decoded_outcomes record r Hr) as Hnd. split.
  - intros o Ho <-. apply insert_entries_same.
    + apply (expert_key_entry sha256 project record r _ _ Hr). by exists o.
    + intros v (o' & Ho' & Hp & ->)%(expert_key_entry sha256 project record r _ _ Hr).
      by rewrite (NoDup_fmap_elem eo_pod _ o' o Hnd Ho' Ho Hp).
  - intros Hno. apply insert_entries_other. intros ([k v] & He & Hin)%list_elem_of_fmap. cbn in He. subst k.
    apply (expert_key_entry sha256 project record r _ _ Hr) in Hin as (o & Ho & Hp & _).
    apply Hno. rewrite <-Hp. by apply list_elem_of_fmap_2.
Qed.

(** ** Composition with the ledger *)
Lemma append_all_fits evs : ∀ (l : InMemoryLedger) rs l',
  append_all evs l = (rs, l') → (iml_base l + blen (iml_events l) < 2 ^ 64)%N →
  (iml_base l' + blen (iml_events l') < 2 ^ 64)%N.
Proof.
  induction evs as [|ev evs IH]; intros l rs l' H Hl; cbn in H; [by injection H as _ <-|].
  destruct (InMemoryLedger_append ev l) as [r l1] eqn:Ha.
  destruct (append_all evs l1) as [rs1 l2] eqn:Hb. injection H as _ <-. apply (IH _ _ _ Hb).
  unfold InMemoryLedger_append, checked_add_u64 in Ha.
  destruct (iml_base l + blen (iml_events l) <? 2 ^ 64)%N eqn:H1; cbn in Ha; [|by injection Ha as _ <-].
  destruct (_ <? _)%N eqn:H2 in Ha; cbn in Ha; [|by injection Ha as _ <-].
  injection Ha as _ <-. cbn [iml_base iml_events]. autorewrite with blen. bool_prop. lia.
Qed.

(** A ledger and the state it feeds agree.  Whatever is appended to a fresh
    memory ledger, replaying its events to an empty state applies every one of
    them: the state is the projection of the whole history and its
    [last_applied] is the index of the last event. *)
Theorem memory_ledger_replay sha256 evs rs (l : InMemoryLedger) :
  append_all evs InMemoryLedger_default = (rs, l) →
  deliver sha256 MaterializedState_default (events l) =
    {| ms_values := project_all sha256 (events l); ms_last_applied := blen (events l) |}.
Proof.
  intros H. assert (iml_wf l) as Hwf by (by eapply append_all_wf; [|exact H]; intros n e Hn).
  pose proof (append_all_base _ _ _ _ H) as Hb. cbn in Hb. unfold iml_wf in Hwf. rewrite Hb in Hwf.
  pose proof (append_all_fits _ _ _ _ H ltac:(done)) as Hf. rewrite Hb, N.add_0_l in Hf.
  cbn [events InMemoryLedger_Ledger] in *.
  assert (Forall (λ c, c ∈ iml_events l) (iml_events l)) as Hall by (by apply Forall_forall).
  destruct (deliver_advance sha256 _ Hwf Hf (iml_events l) 0 ltac:(lia) Hall) as [Hd _].
  rewrite (advance_complete sha256 _ Hwf Hf _ 0) in Hd by (done || lia).
  change MaterializedState_default with (state_at sha256 (iml_events l) 0). rewrite Hd.
  unfold state_at. by rewrite take_ge.
Qed.

(** ** Keys of Pods and of mesh members *)
(** No two valid addresses share a refusal key. *)
Lemma egress_refusal_key_inj a b :
  PodAddress_validate a = Ok tt → PodAddress_validate b = Ok tt →
  egress_refusal_key a = egress_refusal_key b → a = b.
Proof.
  unfold egress_refusal_key. intros Ha Hb H%string_app_inj_l.
  eapply canonical_uri_inj; unfold PodAddress_canonical_uri; [by rewrite Ha|].
  rewrite Hb. cbn [rbind]. by rewrite H.
Qed.

Definition mesh_event (network peer : string) : MeshTunnelLifecycleEvent :=
  {| mte_network_id := network; mte_peer_id := peer; mte_invitation_id := None; mte_tunnel_id := None;
     mte_generation := 1; mte_revision := 1; mte_kind := MembershipActivated; mte_endpoint := None;
     mte_placement_epoch := 1; mte_fencing_token := 1; mte_event_digest := replicate 32 x01 |}.

(** Network and peer are joined with a colon that either may contain, so the
    membership of one peer overwrites that of another. *)
Lemma mesh_keys_alias :
  MeshTunnelLifecycleEvent_validate (mesh_event "a:b" "c") = Ok tt ∧
  MeshTunnelLifecycleEvent_validate (mesh_event "a" "b:c") = Ok tt ∧
  (mesh_entries (mesh_event "a:b" "c")).*1 = (mesh_entries (mesh_event "a" "b:c")).*1.
Proof. vm_compute. auto. Qed.

(** ** Witnesses *)
Definition demo_merge_event (index : N) (branch : string) : CommittedEvent :=
  {| ce_index := index;
     ce_event := Ev_SemanticDeltaCommitted
       {| sdc_base_revision := 0; sdc_revision := index; sdc_encoded_delta := [];
          sdc_origin := Origin_Merge
            {| mr_branch := branch; mr_author := "dev"; mr_seal := demo_digest; mr_plan := demo_digest;
               mr_dependencies := demo_digest; mr_rebased := ∅;
               mr_verification := {| at_required := Unverified; at_level := Unverified;
                                     at_verifiers := []; at_findings := [] |};
               mr_authority := Reviewed "lead" |} |} |}.
Definition demo_log : list CommittedEvent := [demo_merge_event 1 "x"; demo_merge_event 2 "y"].
(** The second commit early, then the log with a repetition. *)
Definition demo_deliveries : list CommittedEvent :=
  [demo_merge_event 2 "y"; demo_merge_event 1 "x"; demo_merge_event 1 "x"; demo_merge_event 2 "y"].

Lemma materialized_exactly_once_witness :
  ∃ k, k ≤ 2 ∧ deliver id MaterializedState_default demo_deliveries = state_at id demo_log k ∧
       (demo_log `sublist_of` demo_deliveries → k = 2).
Proof.
  apply (materialized_exactly_once id demo_log demo_deliveries).
  - intros [|[|n]] e He; vm_compute in He; try discriminate He; injection He as <-; reflexivity.
  - vm_compute. reflexivity.
  - unfold demo_log, demo_deliveries. repeat constructor.
Defined.

Lemma memory_ledger_replay_witness :
  ms_last_applied (deliver id MaterializedState_default
    (events (append_all (ce_event <$> demo_log) InMemoryLedger_default).2)) = 2%N.
Proof.
  rewrite (memory_ledger_replay id (ce_event <$> demo_log)
    (append_all (ce_event <$> demo_log) InMemoryLedger_default).1); [reflexivity|].
  destruct (append_all _ _); reflexivity.
Defined.

Lemma expert_projection_exact_witness :
  insert_entries ∅ (expert_entries id "p" (encode_canonical demo_record)) !! expert_key "p" "a"
    = Some "1:superseded:4".
Proof.
  destruct (expert_projection_exact id ∅ "p" (encode_canonical demo_record) demo_record "a") as [H _];
    [vm_compute; reflexivity|].
  exact (H (operand_outcome State_Superseded (demo_target "a" 0)) (list_elem_of_here _ _) eq_refl).
Defined.
