(* ===== verification/Integrity.v ===== *)
(** * The checked log format: crates/ptr-ledger/src/integrity.rs

    Records framed with a header digest, a chained record digest and an end
    marker.  SHA-256 is a parameter of the section.  [scan_from] reads as many
    complete records as a byte string holds and reports an incomplete tail;
    [decode_log_from] refuses one. *)

From S2P Require Import Prelude Bytes Types LedgerEvents LedgerChecks LedgerCodec.
From stdpp Require Import options.

Definition LOG_MAGIC : list byte := str_bytes "PTRLOG02".
Definition FRAME_MAGIC : list byte := str_bytes "PTRFR002".
Definition END_MAGIC : list byte := str_bytes "PTREND02".
Definition FRAME_HEADER_BYTES : N := 84.
Definition FRAME_TRAILER_BYTES : N := 40.
Definition MAX_LOG_BYTES : N := 128 * 1024 * 1024.
Definition MAX_RECORDS : N := 100000.

Record LogAnchor := {
  la_index : CommitIndex;
  la_digest : Digest
}.
#[export] Instance LogAnchor_eq_dec : EqDecision LogAnchor.
Proof. solve_decision. Defined.

Record VerifiedLog := {
  vl_events : list CommittedEvent;
  vl_anchor : LogAnchor
}.

Definition require_anchor (v : VerifiedLog) (trusted : LogAnchor) : io_result unit :=
  if bool_decide (vl_anchor v = trusted) then Ok tt else Err (invalid "PTR_LOG_ANCHOR_MISMATCH").

(** Why a computation gives no value: an error it returns, a panic of the event
    encoder, or a loop cut off by its fuel.  The last two are shown never to
    happen. *)
Inductive fault := Io (e : io_error) | Panicked | OutOfFuel.

Definition lift_io {A} (r : io_result A) : result fault A :=
  match r with
  | Ok a => Ok a
  | Err e => Err (Io e)
  end.
Definition refuse {A} (message : string) : result fault A := Err (Io (invalid message)).
Definition encoded (event : LedgerEvent) : result fault (list byte) :=
  ok_or (encode_event event) Panicked.

(** [&bytes[from..until]], for a range inside the slice. *)
Definition slice (from until : N) (bytes : list byte) : list byte :=
  take (N.to_nat (until - from)) (drop (N.to_nat from) bytes).

Section Integrity.
Context (sha256 : list byte → list byte).

Definition LogAnchor_empty : LogAnchor := {| la_index := 0; la_digest := sha256 LOG_MAGIC |}.

Definition hash_parts (domain a b : list byte) : Digest := sha256 (domain ++ a ++ b).

(** The first 52 bytes of a frame, and its 84 byte header. *)
Definition frame_fields (index length : N) (previous : Digest) : list byte :=
  FRAME_MAGIC ++ le_bytes 8 index ++ le_bytes 4 length ++ previous.
Definition frame_header (index length : N) (previous : Digest) : list byte :=
  let fields := frame_fields index length previous in
  fields ++ hash_parts (str_bytes "PTRHDR02") fields [].

(** Encode one record chained from [previous] and return its new anchor. *)
Definition encode_record (event : LedgerEvent) (previous : LogAnchor) :
    result fault (list byte * LogAnchor) :=
  match checked_add_u64 (la_index previous) 1 with
  | None => refuse "PTR_LOG_INDEX_EXHAUSTED"
  | Some index =>
      if (MAX_RECORDS <? index)%N then refuse "PTR_LOG_RECORD_LIMIT" else
      let? _ := lift_io (check_origin_bounds event) in
      let? payload := encoded event in
      if bool_decide (payload = []) || (MAX_RECORD_BYTES <? blen payload)%N
      then refuse "PTR_LOG_PAYLOAD_LIMIT" else
      let header := frame_header index (blen payload) (la_digest previous) in
      let record_hash := hash_parts (str_bytes "PTRREC02") header payload in
      Ok (header ++ payload ++ record_hash ++ END_MAGIC,
          {| la_index := index; la_digest := record_hash |})
  end.

(** The loop of [encode_log_from]; [bytes] is the output so far. *)
Fixpoint encode_records (events : list CommittedEvent) (bytes : list byte) (anchor : LogAnchor) :
    result fault (list byte) :=
  match events with
  | [] => Ok bytes
  | committed :: events =>
      let? (record, next) := encode_record (ce_event committed) anchor in
      if negb (ce_index committed =? la_index next)%N then refuse "PTR_LOG_INDEX_MISMATCH" else
      if (MAX_LOG_BYTES <? blen bytes + blen record)%N then refuse "PTR_LOG_SIZE_LIMIT" else
      encode_records events (bytes ++ record) next
  end.

Definition encode_log_from (events : list CommittedEvent) (base : LogAnchor) :
    result fault (list byte) :=
  if (MAX_RECORDS <? blen events)%N then refuse "PTR_LOG_RECORD_LIMIT"
  else encode_records events LOG_MAGIC base.

Definition encode_log (events : list CommittedEvent) : result fault (list byte) :=
  encode_log_from events LogAnchor_empty.

(** The anchors of [chain_anchors], in order. *)
Fixpoint chain_loop (events : list CommittedEvent) (anchor : LogAnchor) :
    result fault (list LogAnchor) :=
  match events with
  | [] => Ok []
  | committed :: events =>
      let? (_, next) := encode_record (ce_event committed) anchor in
      if negb (ce_index committed =? la_index next)%N then refuse "PTR_LOG_INDEX_MISMATCH" else
      let? anchors := chain_loop events next in
      Ok (next :: anchors)
  end.
Definition chain_anchors (events : list CommittedEvent) (base : LogAnchor) :
    result fault (list LogAnchor) :=
  if (MAX_RECORDS <? blen events)%N then refuse "PTR_LOG_RECORD_LIMIT"
  else chain_loop events base.

Record Prefix := {
  px_verified : VerifiedLog;
  px_complete_bytes : N;
  px_incomplete : bool;
  px_zero_tail : N;
  px_milestones : list (N * LogAnchor)
}.

Definition offset_of (p : Prefix) (anchor : LogAnchor) : option N :=
  fst <$> find (λ m, bool_decide (m.2 = anchor)) (px_milestones p).

Definition records_after (p : Prefix) (anchor : LogAnchor) : option nat :=
  position ← fst <$> list_find (λ m, m.2 = anchor) (px_milestones p);
  Some (length (px_milestones p) - 1 - position).

(** One iteration of the scan: the rest is zero, the rest is the beginning of a
    frame, or a complete record follows. *)
Inductive scan_outcome :=
| ZeroTail
| Incomplete
| Complete (event : CommittedEvent) (next : LogAnchor) (total : N).

(** As much of [expected] as lies inside [remaining] from [start] on. *)
Definition agrees (start : N) (expected remaining : list byte) : bool :=
  if (start <? blen remaining)%N then
    let available := N.min (blen remaining - start) (blen expected) in
    bool_decide (slice start (start + available) remaining = take (N.to_nat available) expected)
  else true.

Definition scan_frame (remaining : list byte) (anchor : LogAnchor) : result fault scan_outcome :=
  let header := slice 0 FRAME_HEADER_BYTES remaining in
  if negb (bool_decide (slice 52 84 header = hash_parts (str_bytes "PTRHDR02") (slice 0 52 header) []))
  then refuse "PTR_LOG_HEADER_DIGEST" else
  let index := le_value (slice 8 16 header) in
  if negb (bool_decide (Some index = checked_add_u64 (la_index anchor) 1))
     || negb (bool_decide (slice 20 52 header = la_digest anchor))
  then refuse "PTR_LOG_CHAIN_OR_ORDER" else
  let length := le_value (slice 16 20 header) in
  if (length =? 0)%N || (MAX_RECORD_BYTES <? length)%N then refuse "PTR_LOG_PAYLOAD_LIMIT" else
  let fin := (FRAME_HEADER_BYTES + length)%N in
  let total := (fin + FRAME_TRAILER_BYTES)%N in
  if (blen remaining <? total)%N then Ok Incomplete else
  let payload := slice FRAME_HEADER_BYTES fin remaining in
  let record_hash := hash_parts (str_bytes "PTRREC02") header payload in
  if negb (bool_decide (slice fin (fin + 32) remaining = record_hash))
     || negb (bool_decide (slice (fin + 32) total remaining = END_MAGIC))
  then refuse "PTR_LOG_RECORD_DIGEST_OR_TRAILER" else
  let? event := lift_io (decode_event payload) in
  let? again := encoded event in
  if negb (bool_decide (again = payload)) then refuse "PTR_LOG_NONCANONICAL_EVENT" else
  Ok (Complete {| ce_index := index; ce_event := event |}
               {| la_index := index; la_digest := record_hash |} total).

Definition scan_step (records : N) (remaining : list byte) (anchor : LogAnchor) :
    result fault scan_outcome :=
  if (MAX_RECORDS <=? records)%N then refuse "PTR_LOG_RECORD_LIMIT" else
  if forallb (λ b, bool_decide (b = x00)) remaining then Ok ZeroTail else
  let prefix_len := N.to_nat (N.min (blen remaining) (blen FRAME_MAGIC)) in
  if negb (bool_decide (take prefix_len remaining = take prefix_len FRAME_MAGIC))
  then refuse "PTR_LOG_FRAME_MAGIC" else
  match checked_add_u64 (la_index anchor) 1 with
  | None => refuse "PTR_LOG_INDEX_EXHAUSTED"
  | Some next =>
      if negb (agrees 8 (le_bytes 8 next) remaining)
         || negb (agrees 20 (la_digest anchor) remaining)
      then refuse "PTR_LOG_CHAIN_OR_ORDER" else
      if (blen remaining <? FRAME_HEADER_BYTES)%N then Ok Incomplete
      else scan_frame remaining anchor
  end.

(** The loop, with what it has accumulated; [remaining] is [bytes[offset..]]. *)
Fixpoint scan_loop (fuel : nat) (remaining : list byte) (offset : N)
    (events : list CommittedEvent) (anchor : LogAnchor) (milestones : list (N * LogAnchor)) :
    result fault Prefix :=
  let finish (incomplete : bool) (zero_tail : N) : result fault Prefix :=
    Ok {| px_verified := {| vl_events := events; vl_anchor := anchor |};
          px_complete_bytes := offset; px_incomplete := incomplete;
          px_zero_tail := zero_tail; px_milestones := milestones |} in
  match remaining with
  | [] => finish false 0%N
  | _ :: _ =>
      match fuel with
      | O => Err OutOfFuel
      | S fuel =>
          let? outcome := scan_step (blen events) remaining anchor in
          match outcome with
          | ZeroTail => finish true (blen remaining)
          | Incomplete => finish true 0%N
          | Complete event next total =>
              scan_loop fuel (drop (N.to_nat total) remaining) (offset + total)%N
                (events ++ [event]) next (milestones ++ [((offset + total)%N, next)])
          end
      end
  end.

Definition scan_from (bytes : list byte) (base : LogAnchor) : result fault Prefix :=
  if (MAX_LOG_BYTES <? blen bytes)%N then refuse "PTR_LOG_SIZE_LIMIT" else
  if negb (bool_decide (take (length LOG_MAGIC) bytes = LOG_MAGIC))
  then refuse "PTR_LOG_FORMAT_OR_HEADER" else
  let offset := blen LOG_MAGIC in
  scan_loop (length bytes) (drop (length LOG_MAGIC) bytes) offset [] base [(offset, base)].

Definition scan (bytes : list byte) : result fault Prefix := scan_from bytes LogAnchor_empty.

Definition decode_log_from (bytes : list byte) (base : LogAnchor) : result fault VerifiedLog :=
  let? prefix := scan_from bytes base in
  if px_incomplete prefix then refuse "PTR_LOG_INCOMPLETE_FRAME" else Ok (px_verified prefix).

Definition decode_log (bytes : list byte) : result fault VerifiedLog :=
  decode_log_from bytes LogAnchor_empty.

(** Records without checksum, length-prefixed. *)
Fixpoint legacy_loop (fuel : nat) (remaining : list byte) (events : list CommittedEvent) :
    result fault (list CommittedEvent) :=
  match remaining with
  | [] => Ok events
  | _ :: _ =>
      match fuel with
      | O => Err OutOfFuel
      | S fuel =>
          if (MAX_RECORDS <=? blen events)%N then refuse "PTR_LOG_RECORD_LIMIT" else
          if (blen remaining <? 4)%N then refuse "PTR_LEGACY_INCOMPLETE" else
          let length := le_value (take 4 remaining) in
          if (length =? 0)%N || (MAX_RECORD_BYTES <? length)%N
          then refuse "PTR_LOG_PAYLOAD_LIMIT" else
          let remaining := drop 4 remaining in
          if (blen remaining <? length)%N then refuse "PTR_LEGACY_INCOMPLETE" else
          let payload := take (N.to_nat length) remaining in
          let? event := lift_io (decode_event payload) in
          let? again := encoded event in
          if negb (bool_decide (again = payload)) then refuse "PTR_LOG_NONCANONICAL_EVENT" else
          legacy_loop fuel (drop (N.to_nat length) remaining)
            (events ++ [{| ce_index := (blen events + 1)%N; ce_event := event |}])
      end
  end.
Definition decode_legacy_log (bytes : list byte) : result fault (list CommittedEvent) :=
  if (MAX_LOG_BYTES <? blen bytes)%N then refuse "PTR_LOG_SIZE_LIMIT"
  else legacy_loop (length bytes) bytes [].

(** ** Keyed primitives *)
Definition byte_xor (a b : byte) : byte := byte_of_N (N.lxor (Byte.to_N a) (Byte.to_N b)).

Definition hmac_block (key : list byte) : list byte :=
  let k := if (64 <? length key)%nat then sha256 key else key in
  k ++ replicate (64 - length k) x00.

Definition hmac_sha256 (key message : list byte) : Digest :=
  let block := hmac_block key in
  let inner_digest := sha256 (((λ b, byte_xor b x36) <$> block) ++ message) in
  sha256 (((λ b, byte_xor b x5c) <$> block) ++ inner_digest).
End Integrity.

Definition constant_time_eq (left right : list byte) : bool :=
  if negb (length left =? length right)%nat then false
  else (foldl (λ acc p, N.lor acc (N.lxor (Byte.to_N p.1) (Byte.to_N p.2)))
          0%N (zip left right) =? 0)%N.
