(* ===== verification/IntegrityLog.v ===== *)
(** * What a scan of the checked log establishes

    A log is a chain of records: each frame is determined by its event and the
    anchor before it.  Writing produces such a chain, scanning accepts exactly
    such chains, whatever the bytes behind them look like, and the final anchor
    determines the whole chain unless SHA-256 collides. *)

From S2P Require Import Prelude Bytes Types LedgerEvents LedgerChecks LedgerCodec LedgerCodecFacts.
From S2P Require Import LedgerEventFacts Integrity.
From stdpp Require Import options.

(** ** Slices *)
Lemma slice_mid from until (p x s : list byte) :
  from = blen p → until = (blen p + blen x)%N → slice from until (p ++ x ++ s) = x.
Proof.
  intros -> ->. unfold slice, blen. rewrite Nat2N.id, drop_app_length.
  replace (N.to_nat (N.of_nat (length p) + N.of_nat (length x) - N.of_nat (length p)))
    with (length x) by lia.
  by rewrite take_app_length.
Qed.

Lemma slice_split a b c (l : list byte) :
  (a ≤ b)%N → (b ≤ c)%N → slice a c l = slice a b l ++ slice b c l.
Proof.
  intros Hab Hbc. unfold slice.
  replace (N.to_nat (c - a)) with (N.to_nat (b - a) + N.to_nat (c - b))%nat by lia.
  rewrite <-take_take_drop, drop_drop. do 3 f_equal. lia.
Qed.

Lemma slice_all (l : list byte) : slice 0 (blen l) l = l.
Proof. unfold slice, blen. rewrite N.sub_0_r, Nat2N.id. simpl. by rewrite firstn_all. Qed.

Lemma slice_length a b (l : list byte) :
  (a ≤ b)%N → (b ≤ blen l)%N → blen (slice a b l) = (b - a)%N.
Proof.
  unfold slice, blen. intros Hab Hb. rewrite length_take, length_drop. lia.
Qed.

Lemma slice_tail a (l : list byte) : (a ≤ blen l)%N → slice a (blen l) l = drop (N.to_nat a) l.
Proof. intros Ha. unfold slice. apply take_ge. rewrite length_drop. unfold blen. lia. Qed.

(** What the scanner compares of a field that a torn write may have cut. *)
Lemma agrees_take start k (p x s : list byte) :
  blen p = start → agrees start x (take k (p ++ x ++ s)) = true.
Proof.
  intros <-. unfold agrees. case_match eqn:Hlt; [|done]. apply N.ltb_lt in Hlt.
  apply bool_decide_eq_true. unfold slice.
  rewrite (N.add_comm (blen p)), N.add_sub. set (av := N.to_nat (N.min _ _)).
  assert (av ≤ length x ∧ av ≤ k - length p) as [Hx Hk].
  { unfold av, blen in *. rewrite length_take in *. lia. }
  unfold blen. rewrite Nat2N.id, skipn_firstn_comm, drop_app_length, take_take.
  rewrite Nat.min_l by done. by apply take_app_le.
Qed.

Lemma magic_take k (p s : list byte) :
  let m := N.to_nat (N.min (blen (take k (p ++ s))) (blen p)) in
  take m (take k (p ++ s)) = take m p.
Proof.
  simpl. set (m := N.to_nat _). assert (m ≤ length p ∧ m ≤ k) as [Hp Hk].
  { unfold m, blen. rewrite length_take. lia. }
  rewrite take_take, Nat.min_l by done. by apply take_app_le.
Qed.

Lemma slice_take a b k (l : list byte) :
  (b ≤ blen (take k l))%N → slice a b (take k l) = slice a b l.
Proof.
  intros Hb. unfold slice, blen in *. rewrite length_take in Hb.
  rewrite skipn_firstn_comm, take_take. f_equal. lia.
Qed.

Section IntegrityFacts.
Context (sha256 : list byte → list byte).
(** A SHA-256 digest has 32 bytes. *)
Context (sha256_length : ∀ x, length (sha256 x) = 32).

Abbreviation header := (frame_header sha256).
Abbreviation record_hash h p := (hash_parts sha256 (str_bytes "PTRREC02") h p).

Lemma hash_parts_length d a b : blen (hash_parts sha256 d a b) = 32%N.
Proof using sha256_length. unfold blen, hash_parts. by rewrite sha256_length. Qed.

Lemma blen_le n v : blen (le_bytes n v) = N.of_nat n.
Proof. unfold blen. by rewrite length_le_bytes. Qed.

Definition anchor_ok (a : LogAnchor) : Prop := blen (la_digest a) = 32%N.

(** ** One record *)
Record logrec := { lr_event : CommittedEvent; lr_frame : list byte; lr_anchor : LogAnchor }.

Definition frame_bytes (index : N) (previous : Digest) (payload : list byte) : list byte :=
  let h := header index (blen payload) previous in
  h ++ payload ++ record_hash h payload ++ END_MAGIC.

(** [r] is the record chained from [a]. *)
Record recorded (a : LogAnchor) (r : logrec) (payload : list byte) : Prop := {
  rc_index : checked_add_u64 (la_index a) 1 = Some (ce_index (lr_event r));
  rc_wf : event_wf (ce_event (lr_event r));
  rc_payload : encode_event (ce_event (lr_event r)) = Some payload;
  rc_nonempty : payload ≠ [];
  rc_bounded : (blen payload ≤ MAX_RECORD_BYTES)%N;
  rc_frame : lr_frame r = frame_bytes (ce_index (lr_event r)) (la_digest a) payload;
  rc_anchor : lr_anchor r =
    {| la_index := ce_index (lr_event r);
       la_digest := record_hash (header (ce_index (lr_event r)) (blen payload) (la_digest a))
                      payload |}
}.

Fixpoint chain (a : LogAnchor) (rs : list logrec) : Prop :=
  match rs with
  | [] => True
  | r :: rs => (∃ payload, recorded a r payload) ∧ chain (lr_anchor r) rs
  end.
Fixpoint end_anchor (a : LogAnchor) (rs : list logrec) : LogAnchor :=
  match rs with
  | [] => a
  | r :: rs => end_anchor (lr_anchor r) rs
  end.
Definition log_bytes (rs : list logrec) : list byte := mjoin (lr_frame <$> rs).
Fixpoint marks (offset : N) (rs : list logrec) : list (N * LogAnchor) :=
  match rs with
  | [] => []
  | r :: rs => ((offset + blen (lr_frame r))%N, lr_anchor r)
               :: marks (offset + blen (lr_frame r)) rs
  end.

Lemma log_bytes_cons r rs : log_bytes (r :: rs) = lr_frame r ++ log_bytes rs.
Proof. done. Qed.

Lemma recorded_anchor_ok a r p : recorded a r p → anchor_ok (lr_anchor r).
Proof using sha256_length. intros []. unfold anchor_ok. rewrite rc_anchor0. apply hash_parts_length. Qed.

(** ** The header *)
Lemma header_length i n d : blen d = 32%N → blen (header i n d) = 84%N.
Proof using sha256_length.
  intros Hd. unfold frame_header, frame_fields. rewrite !blen_app, hash_parts_length, Hd, !blen_le.
  done.
Qed.
Lemma fields_length i n d : blen d = 32%N → blen (frame_fields i n d) = 52%N.
Proof. intros Hd. unfold frame_fields. rewrite !blen_app, Hd, !blen_le. done. Qed.

Lemma header_slices i n d :
  blen d = 32%N →
  slice 0 52 (header i n d) = frame_fields i n d ∧
  slice 52 84 (header i n d) = hash_parts sha256 (str_bytes "PTRHDR02") (frame_fields i n d) [] ∧
  slice 8 16 (header i n d) = le_bytes 8 i ∧
  slice 16 20 (header i n d) = le_bytes 4 n ∧
  slice 20 52 (header i n d) = d.
Proof using sha256_length.
  intros Hd. unfold frame_header. set (H := hash_parts _ _ _ _).
  assert (blen H = 32%N) as HH by apply hash_parts_length. pose proof (fields_length i n d Hd).
  split_and!.
  - apply (slice_mid 0 52 [] (frame_fields i n d) H); [done|]. rewrite blen_nil. lia.
  - rewrite <-(app_nil_r H) at 1. apply slice_mid; lia.
  - unfold frame_fields. rewrite <-!app_assoc. apply slice_mid; [done|]. by rewrite blen_le.
  - unfold frame_fields. rewrite <-!app_assoc, (app_assoc FRAME_MAGIC).
    apply slice_mid; rewrite ?blen_app, ?blen_le; done.
  - unfold frame_fields. rewrite <-!app_assoc, (app_assoc FRAME_MAGIC), (app_assoc (_ ++ _)).
    apply slice_mid; rewrite ?blen_app, ?blen_le, ?Hd; done.
Qed.

Lemma slice_0_app (p s : list byte) n : n = blen p → slice 0 n (p ++ s) = p.
Proof. intros ->. apply (slice_mid 0 (blen p) [] p s); [done|]. rewrite blen_nil. lia. Qed.

(** ** Reading one record back *)
Section one_record.
Context (a : LogAnchor) (r : logrec) (payload : list byte).
Context (Ha : anchor_ok a) (Hr : recorded a r payload).

Let i := ce_index (lr_event r).
Let d := la_digest a.
Let h := header i (blen payload) d.

Lemma payload_length : (1 ≤ blen payload)%N ∧ (blen payload < 2 ^ 32)%N.
Proof using Hr.
  destruct Hr as [_ _ _ Hne Hb _ _]. unfold MAX_RECORD_BYTES in Hb.
  destruct payload; [done|]. rewrite blen_cons in *. lia.
Qed.

Lemma index_fits : (i < 2 ^ 64)%N.
Proof using Hr.
  destruct Hr as [Hi _ _ _ _ _ _]. unfold checked_add_u64 in Hi. case_match eqn:Hlt; [|done].
  apply N.ltb_lt in Hlt. unfold i. congruence.
Qed.

Lemma h_length : blen h = 84%N.
Proof using Ha sha256_length. by apply header_length. Qed.

Lemma frame_length : blen (lr_frame r) = (124 + blen payload)%N.
Proof using Ha Hr sha256_length.
  rewrite (rc_frame _ _ _ Hr). unfold frame_bytes. fold i d h.
  rewrite !blen_app, h_length, hash_parts_length. change (blen END_MAGIC) with 8%N. lia.
Qed.

Lemma scan_frame_ok k rest :
  (84 ≤ blen (take k (lr_frame r ++ rest)))%N →
  scan_frame sha256 (take k (lr_frame r ++ rest)) a =
    if (blen (take k (lr_frame r ++ rest)) <? blen (lr_frame r))%N then Ok Incomplete
    else Ok (Complete (lr_event r) (lr_anchor r) (blen (lr_frame r))).
Proof using Ha Hr sha256_length.
  intros Hk. pose proof payload_length as [Hp1 Hp2]. pose proof frame_length as Hfl.
  set (rem := take k (lr_frame r ++ rest)) in *. unfold scan_frame, FRAME_HEADER_BYTES. cbv zeta.
  assert (lr_frame r = h ++ payload ++ record_hash h payload ++ END_MAGIC) as Hf
    by apply (rc_frame _ _ _ Hr).
  assert (slice 0 84 rem = h) as ->.
  { unfold rem. rewrite slice_take by done. rewrite Hf, <-!app_assoc.
    apply slice_0_app. by rewrite h_length. }
  destruct (header_slices i (blen payload) d Ha) as (H1 & H2 & H3 & H4 & H5). fold h in H1, H2, H3, H4, H5.
  rewrite H1, H2, H3, H4, H5, bool_decide_eq_true_2 by done. cbn [negb].
  rewrite (le_value_bytes 8) by apply index_fits. rewrite (le_value_bytes 4) by apply Hp2.
  rewrite (rc_index _ _ _ Hr), !bool_decide_eq_true_2 by done. cbn [negb orb].
  rewrite (proj2 (N.eqb_neq _ _)) by lia.
  rewrite (proj2 (N.ltb_ge _ _)) by apply (rc_bounded _ _ _ Hr). cbn [orb].
  replace (84 + blen payload + FRAME_TRAILER_BYTES)%N with (blen (lr_frame r))
    by (unfold FRAME_TRAILER_BYTES; lia).
  destruct (blen rem <? blen (lr_frame r))%N eqn:Hlt; [done|]. apply N.ltb_ge in Hlt.
  assert (∀ a b, (b ≤ blen (lr_frame r))%N → slice a b rem = slice a b (lr_frame r ++ rest)) as Hs.
  { intros x y Hy. apply slice_take. fold rem. lia. }
  assert (slice 84 (84 + blen payload) rem = payload) as ->.
  { rewrite Hs, Hf, <-!app_assoc by lia. apply slice_mid; by rewrite h_length. }
  assert (slice (84 + blen payload) (84 + blen payload + 32) rem = record_hash h payload) as ->.
  { rewrite Hs, Hf, <-!app_assoc, (app_assoc h) by lia. apply slice_mid;
      rewrite ?blen_app, ?h_length, ?hash_parts_length; done. }
  rewrite bool_decide_eq_true_2 by done. cbn [negb orb].
  assert (slice (84 + blen payload + 32) (blen (lr_frame r)) rem = END_MAGIC) as ->.
  { rewrite Hs, Hfl by lia.
    assert (lr_frame r = (h ++ payload ++ record_hash h payload) ++ END_MAGIC) as ->
      by (by rewrite Hf, <-!app_assoc).
    rewrite <-(app_assoc _ END_MAGIC). apply slice_mid;
      rewrite ?blen_app, ?h_length, ?hash_parts_length; change (blen END_MAGIC) with 8%N; lia. }
  rewrite bool_decide_eq_true_2 by done. cbn [negb].
  rewrite (encoded_event_decodes _ payload) by apply Hr. cbn [lift_io rbind].
  unfold encoded. rewrite (rc_payload _ _ _ Hr). cbn [ok_or rbind].
  rewrite bool_decide_eq_true_2 by done. cbn [negb].
  rewrite (rc_anchor _ _ _ Hr). by destruct (lr_event r).
Qed.

(** A frame cut at any point is an incomplete tail; a whole frame is read. *)
Lemma scan_step_frame records k rest :
  (records < MAX_RECORDS)%N → 0 < k →
  scan_step sha256 records (take k (lr_frame r ++ rest)) a =
    if (blen (take k (lr_frame r ++ rest)) <? blen (lr_frame r))%N then Ok Incomplete
    else Ok (Complete (lr_event r) (lr_anchor r) (blen (lr_frame r))).
Proof using Ha Hr sha256_length.
  intros Hm Hk. pose proof (scan_frame_ok k rest) as Hsf. pose proof frame_length as Hfl.
  unfold scan_step. rewrite (proj2 (N.leb_gt _ _)) by done.
  assert (lr_frame r ++ rest = FRAME_MAGIC ++ le_bytes 8 i ++ (le_bytes 4 (blen payload) ++ d) ++
    (hash_parts sha256 (str_bytes "PTRHDR02") (frame_fields i (blen payload) d) [] ++
     payload ++ record_hash h payload ++ END_MAGIC) ++ rest) as Hf.
  { rewrite (rc_frame _ _ _ Hr). unfold frame_bytes, frame_header, frame_fields.
    fold i d. by rewrite <-!app_assoc. }
  assert (forallb (λ b, bool_decide (b = x00)) (take k (lr_frame r ++ rest)) = false) as ->.
  { rewrite Hf. by destruct k; [lia|]. }
  set (frame_rest := lr_frame r ++ rest) in *.
  assert (∀ m, m = N.to_nat (N.min (blen (take k frame_rest)) (blen FRAME_MAGIC)) →
            take m (take k frame_rest) = take m FRAME_MAGIC) as Hmagic.
  { intros m ->. rewrite Hf. apply magic_take. }
  rewrite (Hmagic _ eq_refl), bool_decide_eq_true_2 by done. cbn [negb].
  rewrite (rc_index _ _ _ Hr).
  assert (agrees 8 (le_bytes 8 (ce_index (lr_event r))) (take k frame_rest) = true) as ->.
  { rewrite Hf. by apply agrees_take. }
  assert (agrees 20 (la_digest a) (take k frame_rest) = true) as ->.
  { assert (frame_rest = (FRAME_MAGIC ++ le_bytes 8 i ++ le_bytes 4 (blen payload)) ++ d ++
      (hash_parts sha256 (str_bytes "PTRHDR02") (frame_fields i (blen payload) d) [] ++
       payload ++ record_hash h payload ++ END_MAGIC) ++ rest) as ->.
    { rewrite Hf, <-!app_assoc. done. }
    apply agrees_take. by rewrite !blen_app, !blen_le. }
  cbn [negb orb]. unfold FRAME_HEADER_BYTES.
  destruct (blen (take k frame_rest) <? 84)%N eqn:Hlt.
  - apply N.ltb_lt in Hlt. by rewrite (proj2 (N.ltb_lt _ _)) by lia.
  - apply N.ltb_ge in Hlt. by apply Hsf.
Qed.
End one_record.

(** ** What the scanner accepts as a record *)
Lemma le_bytes_slice n from until (l : list byte) :
  (until - from = N.of_nat n)%N → (from ≤ until)%N → (until ≤ blen l)%N →
  le_bytes n (le_value (slice from until l)) = slice from until l.
Proof.
  intros Hn Hle Hl. rewrite <-(le_bytes_value (slice from until l)) at 2. f_equal.
  pose proof (slice_length from until l Hle Hl) as Hlen. unfold blen in Hlen. lia.
Qed.

Lemma header_of_slices hd d :
  blen hd = 84%N → slice 0 8 hd = FRAME_MAGIC → slice 20 52 hd = d →
  slice 52 84 hd = hash_parts sha256 (str_bytes "PTRHDR02") (slice 0 52 hd) [] →
  hd = header (le_value (slice 8 16 hd)) (le_value (slice 16 20 hd)) d.
Proof.
  intros Hlen Hm Hd Hh. unfold frame_header.
  assert (frame_fields (le_value (slice 8 16 hd)) (le_value (slice 16 20 hd)) d = slice 0 52 hd) as ->.
  { unfold frame_fields. rewrite (le_bytes_slice 8), (le_bytes_slice 4) by lia.
    rewrite <-Hm, <-Hd, (slice_split 0 8 52), (slice_split 8 16 52), (slice_split 16 20 52) by lia.
    done. }
  rewrite <-Hh, <-(slice_split 0 52 84) by lia. rewrite <-Hlen. by rewrite slice_all.
Qed.

Lemma slice_slice a b c (l : list byte) : (b ≤ c)%N → slice a b (slice 0 c l) = slice a b l.
Proof.
  intros Hbc. unfold slice. rewrite N.sub_0_r. simpl. rewrite skipn_firstn_comm, take_take.
  f_equal. lia.
Qed.

Lemma scan_frame_complete rem a e next total :
  (84 ≤ blen rem)%N → slice 0 8 rem = FRAME_MAGIC →
  scan_frame sha256 rem a = Ok (Complete e next total) →
  ∃ payload, recorded a {| lr_event := e; lr_frame := slice 0 total rem; lr_anchor := next |} payload ∧
             (total ≤ blen rem)%N ∧ total = (124 + blen payload)%N.
Proof using sha256_length.
  intros Hlen Hmagic H. unfold scan_frame, FRAME_HEADER_BYTES, FRAME_TRAILER_BYTES in H.
  cbv zeta in H. set (hd := slice 0 84 rem) in *.
  repeat (match type of H with (if ?b then refuse _ else _) = _ => destruct b eqn:? end;
          [discriminate H|]).
  match type of H with (if ?b then Ok Incomplete else _) = _ => destruct b eqn:Htot end;
    [discriminate H|].
  repeat (match type of H with (if ?b then refuse _ else _) = _ => destruct b eqn:? end;
          [discriminate H|]).
  apply rbind_ok_inv in H as (ev & Hdec & H). apply rbind_ok_inv in H as (again & Henc & H).
  case_bool_decide as Hcanon; [|done]. cbn [negb] in H. injection H as <- <- <-.
  bool_prop.
  set (len := le_value (slice 16 20 hd)) in *.
  set (payload := slice 84 (84 + len) rem) in *.
  assert (blen payload = len) as Hpl.
  { unfold payload. rewrite slice_length by lia. lia. }
  destruct (decode_event payload) as [ev'|] eqn:Hd; [|done]. injection Hdec as <-.
  apply decoded_event_encodes in Hd as [Hwf Henc'].
  assert (blen hd = 84%N) as Hhl by (unfold hd; rewrite slice_length by lia; lia).
  assert (hd = header (le_value (slice 8 16 hd)) (blen payload) (la_digest a)) as Hhd.
  { rewrite Hpl. apply header_of_slices; [done| |done|done].
    unfold hd. by rewrite slice_slice by lia. }
  exists payload. split; [|split; lia].
  split; cbn [lr_event lr_frame lr_anchor ce_index ce_event]; try done.
  - intros Hnil. rewrite Hnil, blen_nil in Hpl. lia.
  - by rewrite Hpl.
  - unfold frame_bytes. rewrite <-Hhd.
    rewrite (slice_split 0 84), (slice_split 84 (84 + len)),
      (slice_split (84 + len) (84 + len + 32)) by lia.
    fold hd payload. by rewrite H, H0.
  - by rewrite <-Hhd.
Qed.

Lemma scan_step_complete records rem a e next total :
  scan_step sha256 records rem a = Ok (Complete e next total) →
  ∃ payload, recorded a {| lr_event := e; lr_frame := slice 0 total rem; lr_anchor := next |} payload ∧
             (total ≤ blen rem)%N ∧ total = (124 + blen payload)%N ∧ (records < MAX_RECORDS)%N.
Proof using sha256_length.
  intros H. unfold scan_step in H. cbv zeta in H.
  destruct (MAX_RECORDS <=? records)%N eqn:Hm; [done|].
  destruct (forallb _ _); [done|].
  case_bool_decide as Hmagic; [|done]. cbn [negb] in H.
  destruct (checked_add_u64 (la_index a) 1) as [i|]; [|done].
  destruct (negb (agrees 8 _ _) || _); [done|].
  destruct (blen rem <? FRAME_HEADER_BYTES)%N eqn:Hlen; [done|]. bool_prop.
  unfold FRAME_HEADER_BYTES in Hlen. apply scan_frame_complete in H as (p & ? & ? & ?); [eauto 6|done|].
  change (blen FRAME_MAGIC) with 8%N in Hmagic. rewrite N.min_r in Hmagic by lia.
  unfold slice. exact Hmagic.
Qed.

(** A scan step never panics, and what it consumes is never empty. *)
Lemma scan_step_no_panic records rem a f :
  scan_step sha256 records rem a = Err f → f ≠ Panicked ∧ f ≠ OutOfFuel.
Proof.
  intros H. unfold scan_step, scan_frame in H. cbv zeta in H.
  repeat match type of H with
  | (if ?b then refuse _ else _) = _ => destruct b; [by injection H as <-|]
  | (if ?b then Ok _ else _) = _ => destruct b; [discriminate H|]
  | match ?o with Some _ => _ | None => _ end = _ => destruct o; [|by injection H as <-]
  end.
  destruct (decode_event _) as [ev|] eqn:Hd; cbn [lift_io rbind] in H; [|by injection H as <-].
  apply decoded_event_encodes in Hd as [_ Hd]. unfold encoded in H. rewrite Hd in H.
  cbn [ok_or rbind] in H. case_match; [by injection H as <-|done].
Qed.

(** ** The loop *)
Lemma chain_cons a r rs :
  anchor_ok a → chain a (r :: rs) →
  ∃ payload, recorded a r payload ∧ anchor_ok (lr_anchor r) ∧ chain (lr_anchor r) rs.
Proof using sha256_length.
  intros Ha [[p Hp] Hc]. exists p. split; [done|]. split; [by eapply recorded_anchor_ok|done].
Qed.

Lemma end_anchor_app a rs rs' : end_anchor a (rs ++ rs') = end_anchor (end_anchor a rs) rs'.
Proof. revert a. induction rs as [|r rs IH]; intros a; [done|]. apply IH. Qed.

Lemma chain_app a rs rs' : chain a (rs ++ rs') ↔ chain a rs ∧ chain (end_anchor a rs) rs'.
Proof.
  revert a. induction rs as [|r rs IH]; intros a; simpl; [naive_solver|]. rewrite IH. tauto.
Qed.

Lemma end_anchor_ok a rs : anchor_ok a → chain a rs → anchor_ok (end_anchor a rs).
Proof using sha256_length.
  revert a. induction rs as [|r rs IH]; intros a Ha Hc; [done|].
  apply chain_cons in Hc as (p & _ & Hr & Hc); [|done]. by apply IH.
Qed.

Lemma end_anchor_index a rs : chain a rs → la_index (end_anchor a rs) = (la_index a + blen rs)%N.
Proof.
  revert a. induction rs as [|r rs IH]; intros a Hc; [simpl; rewrite blen_nil; lia|].
  destruct Hc as [[p Hp] Hc]. cbn [end_anchor]. rewrite (IH _ Hc), blen_cons.
  rewrite (rc_anchor _ _ _ Hp). cbn [la_index]. pose proof (rc_index _ _ _ Hp) as Hi.
  unfold checked_add_u64 in Hi. case_match; [|done]. injection Hi as <-. lia.
Qed.

(** Reading a chain, whatever follows it. *)
Lemma scan_loop_chain rs : ∀ a tail fuel offset events ms,
  anchor_ok a → chain a rs → (blen events + blen rs ≤ MAX_RECORDS)%N →
  length (log_bytes rs ++ tail) ≤ fuel →
  ∃ fuel', length tail ≤ fuel' ∧
    scan_loop sha256 fuel (log_bytes rs ++ tail) offset events a ms =
    scan_loop sha256 fuel' tail (offset + blen (log_bytes rs)) (events ++ (lr_event <$> rs))
      (end_anchor a rs) (ms ++ marks offset rs).
Proof using sha256_length.
  induction rs as [|r rs IH]; intros a tail fuel offset events ms Ha Hc Hm Hf.
  { exists fuel. split; [done|]. change (log_bytes []) with (@nil byte).
    cbn [app fmap list_fmap marks end_anchor]. by rewrite blen_nil, N.add_0_r, !app_nil_r. }
  apply chain_cons in Hc as (p & Hp & Hok & Hc); [|done].
  rewrite blen_cons in Hm. pose proof (frame_length a r p Ha Hp) as Hfl.
  rewrite log_bytes_cons, <-app_assoc in *.
  set (rest := log_bytes rs ++ tail) in *. rewrite length_app in Hf.
  assert (1 ≤ length (lr_frame r)) as Hne by (unfold blen in Hfl; lia).
  destruct fuel as [|fuel]; [lia|].
  destruct (IH (lr_anchor r) tail fuel (offset + blen (lr_frame r))%N (events ++ [lr_event r])
              (ms ++ [((offset + blen (lr_frame r))%N, lr_anchor r)])) as (fuel' & Hf' & Heq);
    [done|done|autorewrite with blen; lia|fold rest; lia|].
  exists fuel'. split; [done|]. fold rest in Heq.
  pose proof (scan_step_frame a r p Ha Hp (blen events) (length (lr_frame r ++ rest)) rest) as Hs.
  rewrite firstn_all in Hs.
  assert (blen (lr_frame r ++ rest) <? blen (lr_frame r) = false)%N as Hlt
    by (apply N.ltb_ge; rewrite blen_app; lia).
  rewrite Hlt in Hs. cbn [scan_loop].
  destruct (lr_frame r ++ rest) as [|b bs] eqn:Hb; [apply (f_equal length) in Hb; rewrite length_app in Hb; simpl in Hb; lia|].
  rewrite Hs; [|unfold MAX_RECORDS in *; lia|simpl; lia]. cbn [rbind].
  rewrite <-Hb. unfold blen at 1. rewrite Nat2N.id, drop_app_length, Heq.
  cbn [marks end_anchor]. rewrite fmap_cons, <-!app_assoc, blen_app, N.add_assoc. done.
Qed.

(** What is left behind the last complete record. *)
Inductive tail_shape (records : N) (a : LogAnchor) : list byte → bool → N → Prop :=
| tail_none : tail_shape records a [] false 0
| tail_zero tail : tail ≠ [] → Forall (λ b, b = x00) tail →
    tail_shape records a tail true (blen tail)
| tail_torn tail : tail ≠ [] → scan_step sha256 records tail a = Ok Incomplete →
    tail_shape records a tail true 0.

Lemma scan_loop_exact fuel : ∀ rem offset events a ms px,
  anchor_ok a → (blen events ≤ MAX_RECORDS)%N →
  scan_loop sha256 fuel rem offset events a ms = Ok px →
  ∃ rs tail, rem = log_bytes rs ++ tail ∧ chain a rs ∧ (blen events + blen rs ≤ MAX_RECORDS)%N ∧
    tail_shape (blen events + blen rs) (end_anchor a rs) tail (px_incomplete px) (px_zero_tail px) ∧
    px_verified px = {| vl_events := events ++ (lr_event <$> rs); vl_anchor := end_anchor a rs |} ∧
    px_complete_bytes px = (offset + blen (log_bytes rs))%N ∧
    px_milestones px = ms ++ marks offset rs.
Proof using sha256_length.
  induction fuel as [|fuel IH]; intros rem offset events a ms px Ha Hm H;
    (destruct rem as [|b bs]; cbn [scan_loop] in H;
     [injection H as <-; exists [], []; change (log_bytes []) with (@nil byte);
      cbn; rewrite ?blen_nil, ?N.add_0_r, !app_nil_r; by split_and!; try constructor|]); [done|].
  apply rbind_ok_inv in H as (out & Hs & H).
  destruct out as [| |e next total].
  - injection H as <-. exists [], (b :: bs). change (log_bytes []) with (@nil byte).
    cbn [app fmap list_fmap marks end_anchor px_incomplete px_zero_tail px_verified
         px_complete_bytes px_milestones chain].
    rewrite blen_nil, !N.add_0_r, !app_nil_r. split_and!; try done. constructor; [done|].
    unfold scan_step in Hs. destruct (MAX_RECORDS <=? blen events)%N; [done|].
    destruct (forallb _ (b :: bs)) eqn:Hz; [|repeat case_match; try done].
    + apply Forall_forallb in Hz. eapply Forall_impl; [exact Hz|]. intros x Hx.
      by apply bool_decide_eq_true in Hx.
    + unfold scan_frame in Hs. cbv zeta in Hs. repeat case_match; try done.
      all: repeat (apply rbind_ok_inv in Hs as (? & ? & Hs)); by repeat case_match.
  - injection H as <-. exists [], (b :: bs). change (log_bytes []) with (@nil byte).
    cbn [app fmap list_fmap marks end_anchor px_incomplete px_zero_tail px_verified
         px_complete_bytes px_milestones chain].
    rewrite blen_nil, !N.add_0_r, !app_nil_r. split_and!; try done. by constructor.
  - apply scan_step_complete in Hs as (p & Hp & Htot & Hlen & Hrec).
    pose proof (recorded_anchor_ok _ _ _ Hp) as Hok. cbn [lr_anchor] in Hok.
    apply IH in H as (rs & tail & Hrem & Hc & Hm' & Hshape & Hv & Hcb & Hms);
      [|done|autorewrite with blen; lia].
    set (r := {| lr_event := e; lr_frame := slice 0 total (b :: bs); lr_anchor := next |}) in *.
    assert (blen (lr_frame r) = total) as Hfl.
    { cbn [lr_frame r]. rewrite slice_length by lia. lia. }
    exists (r :: rs), tail. rewrite log_bytes_cons. cbn [end_anchor chain marks].
    autorewrite with blen in *. rewrite Hfl.
    split_and!.
    + rewrite <-app_assoc, <-Hrem. cbn [lr_frame r]. unfold slice. rewrite N.sub_0_r. simpl drop.
      by rewrite take_drop.
    + by exists p.
    + done.
    + lia.
    + by replace (blen events + (1 + blen rs))%N with (blen events + 1 + blen rs)%N by lia.
    + rewrite Hv, fmap_cons, <-app_assoc. done.
    + rewrite Hcb. lia.
    + rewrite Hms, <-app_assoc. done.
Qed.

Lemma scan_loop_no_panic fuel : ∀ rem offset events a ms f,
  length rem ≤ fuel → scan_loop sha256 fuel rem offset events a ms = Err f →
  f ≠ Panicked ∧ f ≠ OutOfFuel.
Proof using sha256_length.
  induction fuel as [|fuel IH]; intros [|b bs] offset events a ms f Hf H; cbn [scan_loop] in H;
    try done; [simpl in Hf; lia|].
  destruct (scan_step sha256 (blen events) (b :: bs) a) as [out|f'] eqn:Hs; cbn [rbind] in H.
  2:{ injection H as <-. by eapply scan_step_no_panic. }
  destruct out as [| |e next total]; try done.
  apply scan_step_complete in Hs as (p & _ & _ & Hlen & _).
  eapply IH; [|done]. rewrite length_drop. cbn [length] in *. lia.
Qed.

(** ** The writer produces chains *)
Lemma encode_record_ok ev a frame next :
  event_ok ev = true → encode_record sha256 ev a = Ok (frame, next) →
  (la_index next ≤ MAX_RECORDS)%N ∧ ∃ payload,
  recorded a {| lr_event := {| ce_index := la_index next; ce_event := ev |};
                lr_frame := frame; lr_anchor := next |} payload.
Proof.
  intros Hok H. unfold encode_record in H.
  destruct (checked_add_u64 (la_index a) 1) as [i|] eqn:Hi; [|done].
  destruct (MAX_RECORDS <? i)%N eqn:Hm; [done|]. apply rbind_ok_inv in H as ([] & Hc & H).
  destruct (check_origin_bounds ev) as [[]|] eqn:Hcb; [|done].
  apply rbind_ok_inv in H as (payload & Hp & H). unfold encoded in Hp. apply ok_or_ok_inv in Hp.
  destruct (_ || _) eqn:Hl in H; [done|]. injection H as <- <-. bool_prop.
  split; [done|]. exists payload. by split.
Qed.

Lemma encode_record_complete a r payload :
  recorded a r payload → (ce_index (lr_event r) ≤ MAX_RECORDS)%N →
  encode_record sha256 (ce_event (lr_event r)) a = Ok (lr_frame r, lr_anchor r).
Proof.
  intros Hr Hm. unfold encode_record. rewrite (rc_index _ _ _ Hr).
  rewrite (proj2 (N.ltb_ge _ _)) by done. destruct (rc_wf _ _ _ Hr) as [_ ->]. cbn [lift_io rbind].
  unfold encoded. rewrite (rc_payload _ _ _ Hr). cbn [ok_or rbind].
  rewrite bool_decide_eq_false_2 by apply (rc_nonempty _ _ _ Hr).
  rewrite (proj2 (N.ltb_ge _ _)) by apply (rc_bounded _ _ _ Hr). cbn [orb].
  by rewrite (rc_frame _ _ _ Hr), (rc_anchor _ _ _ Hr).
Qed.

Definition events_ok (es : list CommittedEvent) : Prop :=
  Forall (λ e, event_ok (ce_event e) = true) es.

Lemma encode_records_ok es : ∀ bytes a out,
  events_ok es → encode_records sha256 es bytes a = Ok out →
  ∃ rs, lr_event <$> rs = es ∧ chain a rs ∧ out = bytes ++ log_bytes rs ∧
        ((blen bytes ≤ MAX_LOG_BYTES)%N → (blen out ≤ MAX_LOG_BYTES)%N) ∧
        ((la_index a ≤ MAX_RECORDS)%N → (la_index (end_anchor a rs) ≤ MAX_RECORDS)%N).
Proof.
  induction es as [|e es IH]; intros bytes a out Hok H; cbn [encode_records] in H.
  { injection H as <-. exists []. change (log_bytes []) with (@nil byte). by rewrite app_nil_r. }
  apply Forall_cons in Hok as [He Hok]. apply rbind_ok_inv in H as ([f next] & Hr & H).
  cbn in H. destruct (ce_index e =? la_index next)%N eqn:Hi; [|done]. cbn [negb] in H.
  destruct (MAX_LOG_BYTES <? blen bytes + blen f)%N eqn:Hl; [done|]. bool_prop.
  apply encode_record_ok in Hr as (Hm & p & Hp); [|done]. rewrite <-Hi in Hp.
  apply IH in H as (rs & <- & Hc & -> & Hb & Hx); [|done].
  exists ({| lr_event := e; lr_frame := f; lr_anchor := next |} :: rs).
  rewrite log_bytes_cons. cbn [lr_frame]. split_and!; [done| |by rewrite app_assoc| |].
  - split; [|done]. exists p. by destruct e.
  - intros _. apply Hb. rewrite blen_app. done.
  - intros _. by apply Hx.
Qed.

Lemma chain_index_le a rs : chain a rs → (la_index a ≤ la_index (end_anchor a rs))%N.
Proof. intros Hc. rewrite (end_anchor_index a rs Hc). lia. Qed.

Lemma encode_records_complete rs : ∀ bytes a,
  chain a rs → (la_index (end_anchor a rs) ≤ MAX_RECORDS)%N →
  (blen bytes + blen (log_bytes rs) ≤ MAX_LOG_BYTES)%N →
  encode_records sha256 (lr_event <$> rs) bytes a = Ok (bytes ++ log_bytes rs).
Proof.
  induction rs as [|r rs IH]; intros bytes a Hc Hx Hb.
  { change (log_bytes []) with (@nil byte). by rewrite app_nil_r. }
  destruct Hc as [[p Hp] Hc]. rewrite fmap_cons. cbn [encode_records end_anchor] in *.
  rewrite log_bytes_cons in *. autorewrite with blen in Hb.
  pose proof (chain_index_le _ _ Hc) as Hle.
  assert (la_index (lr_anchor r) = ce_index (lr_event r)) as Hi
    by by rewrite (rc_anchor _ _ _ Hp).
  rewrite (encode_record_complete a r p) by (done || lia). cbn [rbind].
  rewrite Hi, N.eqb_refl. cbn [negb]. rewrite (proj2 (N.ltb_ge _ _)) by lia.
  rewrite IH; [|done|done|autorewrite with blen; lia]. by rewrite <-app_assoc.
Qed.

(** ** Whole logs *)
Lemma scan_from_chain base rs tail :
  anchor_ok base → chain base rs → (blen rs ≤ MAX_RECORDS)%N →
  (blen (LOG_MAGIC ++ log_bytes rs ++ tail) ≤ MAX_LOG_BYTES)%N →
  ∃ fuel, length tail ≤ fuel ∧
    scan_from sha256 (LOG_MAGIC ++ log_bytes rs ++ tail) base =
    scan_loop sha256 fuel tail (8 + blen (log_bytes rs)) (lr_event <$> rs) (end_anchor base rs)
      ((8%N, base) :: marks 8 rs).
Proof using sha256_length.
  intros Ha Hc Hm Hb. unfold scan_from. rewrite (proj2 (N.ltb_ge _ _)) by done.
  rewrite take_app_length, bool_decide_eq_true_2, drop_app_length by done. cbn [negb].
  change (blen LOG_MAGIC) with 8%N.
  destruct (scan_loop_chain rs base tail (length (LOG_MAGIC ++ log_bytes rs ++ tail)) 8 [] [(8%N, base)])
    as (fuel & Hf & Heq); [done|done|by rewrite blen_nil|rewrite (length_app LOG_MAGIC); lia|].
  exists fuel. split; [done|]. rewrite Heq. done.
Qed.

Lemma scan_from_exact bytes base px :
  anchor_ok base → scan_from sha256 bytes base = Ok px →
  ∃ rs tail, bytes = LOG_MAGIC ++ log_bytes rs ++ tail ∧ chain base rs ∧
    (blen rs ≤ MAX_RECORDS)%N ∧ (blen bytes ≤ MAX_LOG_BYTES)%N ∧
    tail_shape (blen rs) (end_anchor base rs) tail (px_incomplete px) (px_zero_tail px) ∧
    px_verified px = {| vl_events := lr_event <$> rs; vl_anchor := end_anchor base rs |} ∧
    px_complete_bytes px = (8 + blen (log_bytes rs))%N ∧
    px_milestones px = (8%N, base) :: marks 8 rs.
Proof using sha256_length.
  intros Ha H. unfold scan_from in H. destruct (MAX_LOG_BYTES <? blen bytes)%N eqn:Hb; [done|].
  case_bool_decide as Hm; [|done]. cbn [negb] in H. change (blen LOG_MAGIC) with 8%N in H.
  apply scan_loop_exact in H as (rs & tail & Hrem & Hc & Hr & Hs & Hv & Hcb & Hms);
    [|done|rewrite blen_nil; unfold MAX_RECORDS; lia].
  exists rs, tail. rewrite blen_nil, N.add_0_l in *. bool_prop. split_and!; try done.
  by rewrite <-Hrem, <-Hm at 1; rewrite take_drop.
Qed.
End IntegrityFacts.

(** * Theorems on the checked log

    Writing and reading a log of events, a log cut short by a crash, and what
    the final anchor of a log says about its bytes. *)

(** What the record digests of a verified log are computed from: for each pair
    of consecutive milestones the frame without its trailer. *)
Fixpoint preimages_between (bytes : list byte) (ms : list (N * LogAnchor)) : list (list byte) :=
  match ms with
  | (from, _) :: (((until, _) :: _) as ms') =>
      (str_bytes "PTRREC02" ++ slice from (until - FRAME_TRAILER_BYTES) bytes)
      :: preimages_between bytes ms'
  | _ => []
  end.
Definition record_preimages (sha256 : list byte → list byte) (bytes : list byte) (base : LogAnchor) :
    list (list byte) :=
  match scan_from sha256 bytes base with
  | Ok px => preimages_between bytes (px_milestones px)
  | Err _ => []
  end.

Section IntegrityLog.
Context (sha256 : list byte → list byte).
(** A SHA-256 digest has 32 bytes. *)
Context (sha256_length : ∀ x, length (sha256 x) = 32).

Abbreviation chain := (chain sha256).

(** ** Written logs *)
Lemma encode_log_from_ok es base out :
  events_ok es → encode_log_from sha256 es base = Ok out →
  ∃ rs, lr_event <$> rs = es ∧ chain base rs ∧ out = LOG_MAGIC ++ log_bytes rs ∧
        (blen rs ≤ MAX_RECORDS)%N ∧ (blen out ≤ MAX_LOG_BYTES)%N ∧
        (rs = [] ∨ la_index (end_anchor base rs) ≤ MAX_RECORDS)%N.
Proof.
  intros Hok H. unfold encode_log_from in H.
  destruct (MAX_RECORDS <? blen es)%N eqn:Hm; [done|]. bool_prop.
  pose proof H as H'. apply encode_records_ok in H as (rs & <- & Hc & -> & Hb & Hx); [|done].
  exists rs. split_and!; [done|done|done| |by apply Hb|].
  - unfold blen in *. by rewrite length_fmap in Hm.
  - destruct rs as [|r rs]; [by left|]. right. destruct Hc as [[p Hp] Hc].
    rewrite fmap_cons in H'. cbn [encode_records] in H'.
    apply rbind_ok_inv in H' as ([f next] & Hr & H'). cbn in H'.
    destruct (ce_index (lr_event r) =? la_index next)%N eqn:Hi; [|done]. cbn [negb] in H'.
    destruct (MAX_LOG_BYTES <? _)%N; [done|].
    apply Forall_cons in Hok as [Hok1 Hok].
    apply encode_record_ok in Hr as (Hmx & _); [|done]. bool_prop.
    apply encode_records_ok in H' as (rs' & Hrs & Hc' & _ & _ & Hx'); [|done].
    cbn [end_anchor]. rewrite (end_anchor_index _ _ _ Hc). specialize (Hx' Hmx).
    rewrite (end_anchor_index _ _ _ Hc') in Hx'.
    assert (length rs' = length rs) as Hlen.
    { apply (f_equal length) in Hrs. by rewrite !length_fmap in Hrs. }
    rewrite (rc_anchor _ _ _ _ Hp). cbn [la_index]. unfold blen in *. lia.
Qed.

Lemma encode_log_from_chain base rs :
  chain base rs → (blen rs ≤ MAX_RECORDS)%N →
  (rs = [] ∨ la_index (end_anchor base rs) ≤ MAX_RECORDS)%N →
  (blen (LOG_MAGIC ++ log_bytes rs) ≤ MAX_LOG_BYTES)%N →
  encode_log_from sha256 (lr_event <$> rs) base = Ok (LOG_MAGIC ++ log_bytes rs).
Proof.
  intros Hc Hm Hx Hb. unfold encode_log_from.
  rewrite (proj2 (N.ltb_ge _ _)) by (unfold blen in *; by rewrite length_fmap).
  destruct Hx as [->|Hx]; [done|]. apply encode_records_complete; [done|done|].
  by rewrite <-blen_app.
Qed.

Lemma chain_loop_chain rs : ∀ a,
  chain a rs → (rs = [] ∨ la_index (end_anchor a rs) ≤ MAX_RECORDS)%N →
  chain_loop sha256 (lr_event <$> rs) a = Ok (lr_anchor <$> rs).
Proof.
  induction rs as [|r rs IH]; intros a Hc Hx; [done|]. destruct Hx as [|Hx]; [done|].
  destruct Hc as [[p Hp] Hc]. cbn [end_anchor] in Hx.
  rewrite !fmap_cons. cbn [chain_loop].
  pose proof (chain_index_le _ _ _ Hc) as Hle.
  assert (la_index (lr_anchor r) = ce_index (lr_event r)) as Hi
    by by rewrite (rc_anchor _ _ _ _ Hp).
  rewrite (encode_record_complete _ a r p) by (done || lia). cbn [rbind].
  rewrite Hi, N.eqb_refl. cbn [negb]. rewrite IH; [done|done|by right].
Qed.

Lemma last_cons {A} (x : A) l d : List.last (x :: l) d = List.last l x.
Proof.
  revert x d. induction l as [|y l IH]; intros x d; [done|].
  change (List.last (y :: l) d = List.last (y :: l) x). by rewrite !IH.
Qed.

Lemma end_anchor_last a rs : end_anchor a rs = List.last (lr_anchor <$> rs) a.
Proof.
  revert a. induction rs as [|r rs IH]; intros a; [done|].
  cbn [end_anchor]. by rewrite IH, fmap_cons, last_cons.
Qed.

(** A log that was written is read back unchanged.  If [encode_log_from]
    produces bytes for a list of events, [decode_log_from] of these bytes gives
    the same events and, as its anchor, the last of the anchors
    [chain_anchors] computes for them. *)
Theorem log_roundtrip es base bytes :
  anchor_ok base → events_ok es → encode_log_from sha256 es base = Ok bytes →
  ∃ anchors, chain_anchors sha256 es base = Ok anchors ∧ length anchors = length es ∧
    decode_log_from sha256 bytes base =
    Ok {| vl_events := es; vl_anchor := List.last anchors base |}.
Proof using sha256_length.
  intros Ha Hok H. apply encode_log_from_ok in H as (rs & <- & Hc & -> & Hm & Hb & Hx); [|done].
  exists (lr_anchor <$> rs). split_and!.
  - unfold chain_anchors. rewrite (proj2 (N.ltb_ge _ _)) by (unfold blen in *; by rewrite length_fmap).
    by apply chain_loop_chain.
  - by rewrite !length_fmap.
  - destruct (scan_from_chain sha256 sha256_length base rs []) as (fuel & _ & Hs);
      [done|done|done|by rewrite app_nil_r|].
    rewrite app_nil_r in Hs. unfold decode_log_from. rewrite Hs.
    destruct fuel; cbn; by rewrite end_anchor_last.
Qed.

(** The log format is canonical.  Bytes that [decode_log_from] accepts are
    the bytes [encode_log_from] writes for the events read, provided the last
    index is one the writer may assign. *)
Theorem log_canonical bytes base v :
  anchor_ok base → decode_log_from sha256 bytes base = Ok v →
  (la_index (vl_anchor v) ≤ MAX_RECORDS)%N →
  encode_log_from sha256 (vl_events v) base = Ok bytes.
Proof using sha256_length.
  intros Ha H Hx. unfold decode_log_from in H. apply rbind_ok_inv in H as (px & Hs & H).
  apply scan_from_exact in Hs as (rs & tail & Hbytes & Hc & Hm & Hb & Ht & Hv & _ & _); [|done|done].
  destruct (px_incomplete px) eqn:Hi; [done|]. injection H as <-.
  inversion Ht; subst; [|congruence..]. rewrite Hv in *. cbn [vl_events vl_anchor] in *.
  rewrite app_nil_r in *. apply encode_log_from_chain; [done|done|by right|done].
Qed.

(** ** A log cut short *)
Lemma log_bytes_app rs rs' : log_bytes (rs ++ rs') = log_bytes rs ++ log_bytes rs'.
Proof. unfold log_bytes. by rewrite fmap_app, join_app. Qed.

(** The first [k] bytes of a chain: whole records, and the start of the next. *)
Lemma take_log_bytes rs k :
  ∃ n, n ≤ length rs ∧
    ((take k (log_bytes rs) = log_bytes (take n rs) ∧
      (n = length rs ∨ length (log_bytes (take n rs)) = k)) ∨
     ∃ r j, rs !! n = Some r ∧ 0 < j < length (lr_frame r) ∧
       take k (log_bytes rs) = log_bytes (take n rs) ++ take j (lr_frame r) ∧
       length (log_bytes (take n rs)) + j = k).
Proof.
  revert k. induction rs as [|r rs IH]; intros k.
  { exists 0. split; [done|]. left. change (log_bytes []) with (@nil byte). rewrite take_nil. auto. }
  rewrite log_bytes_cons. destruct (decide (k < length (lr_frame r))) as [Hk|Hk].
  - exists 0. split; [lia|]. destruct k as [|k]; [left; by auto|]. right. exists r, (S k).
    split_and!; try done; [lia|]. by rewrite take_app_le by lia.
  - destruct (IH (k - length (lr_frame r))) as (n & Hn & Hcase). exists (S n).
    split; [simpl; lia|]. cbn [take]. rewrite take_app_ge by lia.
    rewrite log_bytes_cons, length_app. destruct Hcase as [[Ht Hl]|(r' & j & Hr & Hj & Ht & Hl)].
    + left. rewrite Ht. split; [done|]. destruct Hl as [->|Hl]; [by left|right; lia].
    + right. exists r', j. rewrite Ht, app_assoc. split_and!; try done; lia.
Qed.

Lemma chain_take base rs n : chain base rs → chain base (take n rs).
Proof. intros Hc. rewrite <-(take_drop n rs) in Hc. by apply chain_app in Hc as [? _]. Qed.

Lemma chain_take_index base rs n :
  chain base rs → (rs = [] ∨ la_index (end_anchor base rs) ≤ MAX_RECORDS)%N →
  (take n rs = [] ∨ la_index (end_anchor base (take n rs)) ≤ MAX_RECORDS)%N.
Proof.
  intros Hc [->|Hx]; [left; apply take_nil|]. right.
  rewrite (end_anchor_index _ _ _ (chain_take _ _ n Hc)).
  rewrite (end_anchor_index _ _ _ Hc) in Hx. unfold blen in *. rewrite length_take. lia.
Qed.

Lemma log_bytes_take n rs : length (log_bytes (take n rs)) ≤ length (log_bytes rs).
Proof. rewrite <-(take_drop n rs) at 2. rewrite log_bytes_app, length_app. lia. Qed.

Lemma encode_log_take base rs n :
  chain base rs → (blen rs ≤ MAX_RECORDS)%N →
  (rs = [] ∨ la_index (end_anchor base rs) ≤ MAX_RECORDS)%N →
  (blen (LOG_MAGIC ++ log_bytes rs) ≤ MAX_LOG_BYTES)%N →
  encode_log_from sha256 (take n (lr_event <$> rs)) base = Ok (LOG_MAGIC ++ log_bytes (take n rs)).
Proof.
  intros Hc Hm Hx Hb. rewrite <-fmap_take. pose proof (log_bytes_take n rs).
  apply encode_log_from_chain.
  - by apply chain_take.
  - unfold blen in *. rewrite length_take. lia.
  - by apply chain_take_index.
  - unfold blen in *. rewrite length_app in *. lia.
Qed.

(** Every record of a chain takes up at least a frame's header and trailer. *)
Lemma chain_frame base rs n r :
  anchor_ok base → chain base rs → rs !! n = Some r →
  ∃ p, recorded sha256 (end_anchor base (take n rs)) r p ∧
       anchor_ok (end_anchor base (take n rs)) ∧ 0 < length (lr_frame r).
Proof using sha256_length.
  intros Ha Hc Hr. pose proof Hc as Hc'. rewrite <-(take_drop n rs) in Hc.
  apply chain_app in Hc as [Hc1 Hc]. rewrite (drop_S _ _ _ Hr) in Hc. destruct Hc as [[p Hp] _].
  assert (anchor_ok (end_anchor base (take n rs))) as Hok by by eapply end_anchor_ok.
  exists p. split_and!; [done|done|].
  pose proof (frame_length _ sha256_length _ _ _ Hok Hp). unfold blen in *. lia.
Qed.

Lemma scan_torn base rs k n :
  anchor_ok base → chain base rs → (blen rs ≤ MAX_RECORDS)%N →
  (blen (LOG_MAGIC ++ log_bytes rs) ≤ MAX_LOG_BYTES)%N →
  ∀ r j, rs !! n = Some r → 0 < j < length (lr_frame r) →
  take k (log_bytes rs) = log_bytes (take n rs) ++ take j (lr_frame r) →
  scan_from sha256 (LOG_MAGIC ++ take k (log_bytes rs)) base =
  Ok {| px_verified := {| vl_events := take n (lr_event <$> rs);
                          vl_anchor := end_anchor base (take n rs) |};
        px_complete_bytes := (8 + blen (log_bytes (take n rs)))%N;
        px_incomplete := true; px_zero_tail := 0;
        px_milestones := (8%N, base) :: marks 8 (take n rs) |}.
Proof using sha256_length.
  intros Ha Hc Hm Hb r j Hr Hj Ht. pose proof (lookup_lt_Some _ _ _ Hr) as Hn.
  destruct (chain_frame _ _ _ _ Ha Hc Hr) as (p & Hp & Hok & _).
  assert (length (take k (log_bytes rs)) ≤ length (log_bytes rs)) as Hlen
    by (rewrite length_take; lia).
  rewrite Ht in *.
  destruct (scan_from_chain sha256 sha256_length base (take n rs) (take j (lr_frame r)))
    as (fuel & Hf & ->).
  { done. } { by apply chain_take. } { unfold blen in *. rewrite length_take. lia. }
  { unfold blen in *. rewrite !length_app in *. lia. }
  pose proof (scan_step_frame _ sha256_length _ r p Hok Hp (blen (lr_event <$> take n rs)) j []) as Hs.
  rewrite app_nil_r in Hs.
  assert (length (take j (lr_frame r)) = j) as Hjl by (rewrite length_take; lia).
  rewrite (proj2 (N.ltb_lt _ _)) in Hs by (unfold blen; lia).
  destruct (take j (lr_frame r)) as [|b bs] eqn:Htk; [simpl in Hjl; lia|].
  destruct fuel as [|fuel]; [simpl in Hf; lia|]. cbn [scan_loop].
  rewrite Hs; [|unfold blen, MAX_RECORDS in *; rewrite length_fmap, length_take; lia|lia].
  cbn [rbind]. by rewrite fmap_take.
Qed.

Lemma scan_whole base rs :
  anchor_ok base → chain base rs → (blen rs ≤ MAX_RECORDS)%N →
  (blen (LOG_MAGIC ++ log_bytes rs) ≤ MAX_LOG_BYTES)%N →
  scan_from sha256 (LOG_MAGIC ++ log_bytes rs) base =
  Ok {| px_verified := {| vl_events := lr_event <$> rs; vl_anchor := end_anchor base rs |};
        px_complete_bytes := (8 + blen (log_bytes rs))%N;
        px_incomplete := false; px_zero_tail := 0;
        px_milestones := (8%N, base) :: marks 8 rs |}.
Proof using sha256_length.
  intros Ha Hc Hm Hb.
  destruct (scan_from_chain sha256 sha256_length base rs []) as (fuel & _ & Hs);
    [done|done|done|by rewrite app_nil_r|].
  rewrite app_nil_r in Hs. rewrite Hs. by destruct fuel.
Qed.

Lemma take_written rs n :
  take (N.to_nat (8 + blen (log_bytes (take n rs)))) (LOG_MAGIC ++ log_bytes rs) =
  LOG_MAGIC ++ log_bytes (take n rs).
Proof.
  rewrite <-(take_drop n rs) at 2. rewrite log_bytes_app, app_assoc.
  apply take_app_length'. rewrite length_app. change (length LOG_MAGIC) with 8. unfold blen. lia.
Qed.

Lemma longer_log base rs n m k out :
  chain base rs → (blen rs ≤ MAX_RECORDS)%N →
  (rs = [] ∨ la_index (end_anchor base rs) ≤ MAX_RECORDS)%N →
  (blen (LOG_MAGIC ++ log_bytes rs) ≤ MAX_LOG_BYTES)%N →
  n < m ≤ length (lr_event <$> rs) →
  (∀ r, rs !! n = Some r → k - 8 < length (log_bytes (take n rs)) + length (lr_frame r)) →
  encode_log_from sha256 (take m (lr_event <$> rs)) base = Ok out → k < length out.
Proof.
  intros Hc Hm Hx Hb Hnm Hr Hout. rewrite encode_log_take in Hout by done.
  assert (out = LOG_MAGIC ++ log_bytes (take m rs)) as -> by congruence. clear Hout.
  rewrite length_fmap in Hnm. destruct (lookup_lt_is_Some_2 rs n) as [r Hrn]; [lia|].
  specialize (Hr r Hrn). pose proof (log_bytes_take (S n) (take m rs)) as Hle.
  rewrite take_take, Nat.min_l, (take_S_r _ _ _ Hrn), log_bytes_app, length_app in Hle by lia.
  rewrite length_app. change (length LOG_MAGIC) with 8.
  assert (log_bytes [r] = lr_frame r) as Hone by apply app_nil_r. rewrite Hone in Hle. lia.
Qed.

(** What a crash leaves of a log is read as its longest whole prefix.  Cut
    the bytes of a written log anywhere behind its magic: the scan succeeds, the
    events it returns are the first [n] written, the complete bytes are the log
    of those [n] events, the tail is reported exactly when there is one, and no
    longer list of the written events fits into what is left. *)
Theorem torn_log_prefix es base bytes k :
  anchor_ok base → events_ok es → encode_log_from sha256 es base = Ok bytes → 8 ≤ k →
  ∃ n px, scan_from sha256 (take k bytes) base = Ok px ∧
    vl_events (px_verified px) = take n es ∧
    encode_log_from sha256 (take n es) base = Ok (take (N.to_nat (px_complete_bytes px)) bytes) ∧
    (px_complete_bytes px ≤ blen (take k bytes))%N ∧
    px_incomplete px = negb (px_complete_bytes px =? blen (take k bytes))%N ∧
    px_zero_tail px = 0%N ∧
    ∀ m out, n < m ≤ length es → encode_log_from sha256 (take m es) base = Ok out → k < length out.
Proof using sha256_length.
  intros Ha Hok H Hk. apply encode_log_from_ok in H as (rs & <- & Hc & -> & Hm & Hb & Hx); [|done].
  assert (take k (LOG_MAGIC ++ log_bytes rs) = LOG_MAGIC ++ take (k - 8) (log_bytes rs)) as ->
    by (rewrite take_app_ge; [done|exact Hk]).
  destruct (take_log_bytes rs (k - 8)) as (n & Hn & [[Ht Hl]|(r & j & Hr & Hj & Ht & Hl)]).
  - exists n. rewrite Ht. eexists. split.
    { apply scan_whole; [done|by apply chain_take|unfold blen in *; rewrite length_take; lia|].
      pose proof (log_bytes_take n rs). unfold blen in *. rewrite length_app in *. lia. }
    cbn [px_verified px_complete_bytes px_incomplete px_zero_tail vl_events].
    rewrite take_written, blen_app, fmap_take. change (blen LOG_MAGIC) with 8%N. rewrite N.eqb_refl.
    split_and!; try done; [by apply encode_log_take|].
    intros m out Hnm. eapply (longer_log _ _ n); [done..|]. intros r Hr.
    destruct (chain_frame _ _ _ _ Ha Hc Hr) as (p & _ & _ & Hpos).
    apply lookup_lt_Some in Hr. destruct Hl; lia.
  - exists n. eexists. split; [by eapply scan_torn|].
    cbn [px_verified px_complete_bytes px_incomplete px_zero_tail vl_events].
    assert (length (take j (lr_frame r)) = j) as Hjl by (rewrite length_take; lia).
    rewrite take_written, Ht, !blen_app. change (blen LOG_MAGIC) with 8%N. split_and!; try done.
    + by apply encode_log_take.
    + lia.
    + rewrite (proj2 (N.eqb_neq _ _)); [done|]. unfold blen in *. lia.
    + intros m out Hnm. eapply (longer_log _ _ n); [done..|]. intros r' Hr'. simplify_eq. lia.
Qed.

(** A log whose file was extended by zero bytes (an allocation that the
    crash left unwritten) is read as the log, with the zeros reported as a zero
    tail of that length. *)
Theorem zero_tail_log es base bytes z :
  anchor_ok base → events_ok es → encode_log_from sha256 es base = Ok bytes →
  0 < z → (blen es < MAX_RECORDS)%N → (blen bytes + N.of_nat z ≤ MAX_LOG_BYTES)%N →
  ∃ px, scan_from sha256 (bytes ++ replicate z x00) base = Ok px ∧
    vl_events (px_verified px) = es ∧ px_complete_bytes px = blen bytes ∧
    px_incomplete px = true ∧ px_zero_tail px = N.of_nat z ∧
    decode_log_from sha256 (bytes ++ replicate z x00) base = refuse "PTR_LOG_INCOMPLETE_FRAME".
Proof using sha256_length.
  intros Ha Hok H Hz Hlt Hbz.
  apply encode_log_from_ok in H as (rs & <- & Hc & -> & Hm & Hb & Hx); [|done].
  destruct (scan_from_chain sha256 sha256_length base rs (replicate z x00)) as (fuel & Hf & Hs);
    [done..|rewrite app_assoc, blen_app; unfold blen at 2; by rewrite length_replicate|].
  unfold decode_log_from. rewrite <-app_assoc, Hs. rewrite length_replicate in Hf.
  destruct z as [|z]; [lia|]. destruct fuel as [|fuel]; [lia|].
  cbn [replicate scan_loop]. unfold scan_step. rewrite (proj2 (N.leb_gt _ _)) by done.
  assert (forallb (λ b, bool_decide (b = x00)) (x00 :: replicate z x00) = true) as ->.
  { apply Forall_forallb. change (x00 :: replicate z x00) with (replicate (S z) x00).
    by apply Forall_replicate, bool_decide_eq_true. }
  cbn [rbind px_incomplete]. eexists. split; [done|].
  cbn [px_verified vl_events px_complete_bytes px_incomplete px_zero_tail].
  split_and!; [done| |done| |done].
  - by rewrite blen_app.
  - unfold blen. cbn [length]. rewrite length_replicate. lia.
Qed.

(** The scan always returns.  On every byte string and from every anchor it
    gives a prefix or one of its errors; the re-encoding of what it decoded
    never panics and its loop, which consumes a record each time round, never
    outlasts the length of the input. *)
Theorem scan_total bytes base :
  (∃ px, scan_from sha256 bytes base = Ok px) ∨
  (∃ e, scan_from sha256 bytes base = Err (Io e)).
Proof using sha256_length.
  destruct (scan_from sha256 bytes base) as [px|f] eqn:H; [by left; exists px|right].
  unfold scan_from in H. destruct (MAX_LOG_BYTES <? blen bytes)%N; [injection H as <-; by eexists|].
  destruct (negb _); [injection H as <-; by eexists|].
  apply (scan_loop_no_panic _ sha256_length) in H as [? ?]; [|rewrite length_drop; lia].
  destruct f; [by eexists|done..].
Qed.

(** ** What the final anchor binds *)
Definition preimage (r : logrec) : list byte :=
  str_bytes "PTRREC02" ++ take (length (lr_frame r) - 40) (lr_frame r).

Lemma preimage_eq a r p :
  anchor_ok a → recorded sha256 a r p →
  preimage r = str_bytes "PTRREC02" ++
    frame_header sha256 (ce_index (lr_event r)) (blen p) (la_digest a) ++ p ∧
  la_digest (lr_anchor r) = sha256 (preimage r).
Proof using sha256_length.
  intros Ha Hr. pose proof (frame_length _ sha256_length _ _ _ Ha Hr) as Hl.
  assert (preimage r = str_bytes "PTRREC02" ++
    frame_header sha256 (ce_index (lr_event r)) (blen p) (la_digest a) ++ p) as Heq.
  { unfold preimage. f_equal. rewrite (rc_frame _ _ _ _ Hr) in *. unfold frame_bytes in *.
    rewrite app_assoc in *. apply take_app_length'. unfold blen in Hl.
    rewrite !length_app in *. unfold hash_parts in *. rewrite sha256_length in *.
    change (length END_MAGIC) with 8 in *. lia. }
  split; [done|]. rewrite (rc_anchor _ _ _ _ Hr), Heq. done.
Qed.

(** A record digest's input determines the record and the anchor before it. *)
Lemma preimage_inj a a' r r' p p' :
  anchor_ok a → anchor_ok a' → recorded sha256 a r p → recorded sha256 a' r' p' →
  preimage r = preimage r' → r = r' ∧ a = a'.
Proof using sha256_length.
  intros Ha Ha' Hr Hr' Heq.
  rewrite (proj1 (preimage_eq _ _ _ Ha Hr)), (proj1 (preimage_eq _ _ _ Ha' Hr')) in Heq.
  apply app_inv_head in Heq.
  set (i := ce_index (lr_event r)) in *. set (i' := ce_index (lr_event r')) in *.
  apply app_inj_1 in Heq as [Hh Hp].
  2:{ pose proof (header_length sha256 sha256_length i (blen p) (la_digest a) Ha).
      pose proof (header_length sha256 sha256_length i' (blen p') (la_digest a') Ha').
      unfold blen in *. lia. }
  subst p'. pose proof (header_slices sha256 sha256_length i (blen p) (la_digest a) Ha)
    as (_ & _ & Hi & _ & Hd).
  pose proof (header_slices sha256 sha256_length i' (blen p) (la_digest a') Ha')
    as (_ & _ & Hi' & _ & Hd').
  rewrite Hh in Hi, Hd.
  assert (la_digest a = la_digest a') as Hdd by congruence.
  pose proof (rc_index _ _ _ _ Hr) as Hx. pose proof (rc_index _ _ _ _ Hr') as Hx'.
  fold i in Hx. fold i' in Hx'. unfold checked_add_u64 in Hx, Hx'.
  destruct (_ <? _)%N eqn:Hb in Hx; [|done]. destruct (_ <? _)%N eqn:Hb' in Hx'; [|done].
  injection Hx as Hx. injection Hx' as Hx'. bool_prop.
  assert (i = i') as Hii.
  { rewrite <-(le_value_bytes 8 i), <-(le_value_bytes 8 i') by (simpl; lia). congruence. }
  assert (ce_event (lr_event r) = ce_event (lr_event r')) as Hev.
  { pose proof (encoded_event_decodes _ _ (rc_wf _ _ _ _ Hr) (rc_payload _ _ _ _ Hr)).
    pose proof (encoded_event_decodes _ _ (rc_wf _ _ _ _ Hr') (rc_payload _ _ _ _ Hr')). congruence. }
  pose proof (rc_frame _ _ _ _ Hr). pose proof (rc_frame _ _ _ _ Hr').
  pose proof (rc_anchor _ _ _ _ Hr). pose proof (rc_anchor _ _ _ _ Hr').
  subst i i'. destruct a as [ai ad], a' as [ai' ad'], r as [[x ev] f n], r' as [[x' ev'] f' n'].
  cbn [la_index la_digest lr_event lr_frame lr_anchor ce_index ce_event] in *.
  clear Hi Hi' Hd Hd' Hh. subst.
  assert (ai = ai') as -> by lia. done.
Qed.

Lemma chain_binds base rs : ∀ rs',
  anchor_ok base → chain base rs → chain base rs' → end_anchor base rs = end_anchor base rs' →
  rs = rs' ∨ ∃ r r', r ∈ rs ∧ r' ∈ rs' ∧ preimage r ≠ preimage r' ∧
                     sha256 (preimage r) = sha256 (preimage r').
Proof using sha256_length.
  induction rs as [|r rs IH] using rev_ind; intros rs' Ha Hc Hc' He.
  all: pose proof (f_equal la_index He) as Hl; rewrite !(end_anchor_index _ base) in Hl by done.
  { left. destruct rs'; [done|]. rewrite blen_nil, blen_cons in Hl. lia. }
  destruct rs' as [|r' rs' _] using rev_ind.
  { rewrite blen_app, blen_cons, blen_nil in Hl. lia. }
  apply chain_app in Hc as [Hc [[p Hp] _]]. apply chain_app in Hc' as [Hc' [[p' Hp'] _]].
  rewrite !end_anchor_app in He. cbn [end_anchor] in He.
  assert (anchor_ok (end_anchor base rs)) as Hok by by eapply end_anchor_ok.
  assert (anchor_ok (end_anchor base rs')) as Hok' by by eapply end_anchor_ok.
  destruct (preimage_eq _ _ _ Hok Hp) as [_ Hd]. destruct (preimage_eq _ _ _ Hok' Hp') as [_ Hd'].
  destruct (decide (preimage r = preimage r')) as [Heq|Hne].
  - destruct (preimage_inj _ _ _ _ _ _ Hok Hok' Hp Hp' Heq) as [<- Hprev].
    destruct (IH rs' Ha Hc Hc' Hprev) as [->|(x & y & ? & ? & ? & ?)]; [by left|].
    right. exists x, y. rewrite !elem_of_app. auto.
  - right. exists r, r'. rewrite !elem_of_app, !list_elem_of_singleton. split_and!; auto. congruence.
Qed.

Lemma preimages_between_marks rs : ∀ a off pre tail,
  anchor_ok a → chain a rs → off = blen pre →
  preimages_between (pre ++ log_bytes rs ++ tail) ((off, a) :: marks off rs) = preimage <$> rs.
Proof using sha256_length.
  induction rs as [|r rs IH]; intros a off pre tail Ha Hc ->; [done|].
  apply (chain_cons _ sha256_length) in Hc as (p & Hp & Hok & Hc); [|done].
  pose proof (frame_length _ sha256_length _ _ _ Ha Hp) as Hl.
  rewrite log_bytes_cons, <-app_assoc, fmap_cons. cbn [marks]. cbn [preimages_between].
  specialize (IH (lr_anchor r) (blen (pre ++ lr_frame r)) (pre ++ lr_frame r) tail Hok Hc eq_refl).
  rewrite <-app_assoc, blen_app in IH. cbn [preimages_between] in IH. rewrite IH. f_equal.
  unfold preimage. f_equal. unfold slice, FRAME_TRAILER_BYTES, blen in *.
  rewrite Nat2N.id, drop_app_length.
  replace (N.to_nat _) with (length (lr_frame r) - 40) by lia.
  apply take_app_le. lia.
Qed.

Lemma decode_log_chain bytes base v :
  anchor_ok base → decode_log_from sha256 bytes base = Ok v →
  ∃ rs, bytes = LOG_MAGIC ++ log_bytes rs ∧ chain base rs ∧
    v = {| vl_events := lr_event <$> rs; vl_anchor := end_anchor base rs |} ∧
    record_preimages sha256 bytes base = preimage <$> rs.
Proof using sha256_length.
  intros Ha H. unfold decode_log_from in H. apply rbind_ok_inv in H as (px & Hs & H).
  unfold record_preimages. rewrite Hs.
  apply scan_from_exact in Hs as (rs & tail & Hbytes & Hc & Hm & Hb & Ht & Hv & _ & Hms); [|done|done].
  destruct (px_incomplete px) eqn:Hi; [done|]. injection H as <-.
  inversion Ht; subst; [|congruence..]. exists rs. rewrite Hms, app_nil_r.
  split_and!; [done..|]. rewrite <-(app_nil_r (log_bytes rs)). by apply preimages_between_marks.
Qed.

(** C40: the final anchor binds the whole log.  Two logs that both verify from
    the same base and end in the same anchor are the same bytes and the same
    events, or two different inputs to their record digests, which the theorem
    names, collide under SHA-256. *)
Theorem anchor_binds_log bytes bytes' base v v' :
  anchor_ok base → decode_log_from sha256 bytes base = Ok v →
  decode_log_from sha256 bytes' base = Ok v' → vl_anchor v = vl_anchor v' →
  (bytes = bytes' ∧ v = v') ∨
  ∃ x y, x ∈ record_preimages sha256 bytes base ∧ y ∈ record_preimages sha256 bytes' base ∧
         x ≠ y ∧ sha256 x = sha256 y.
Proof using sha256_length.
  intros Ha H H' He.
  apply decode_log_chain in H as (rs & -> & Hc & -> & ->); [|done].
  apply decode_log_chain in H' as (rs' & -> & Hc' & -> & ->); [|done]. cbn [vl_anchor] in He.
  destruct (chain_binds _ _ _ Ha Hc Hc' He) as [->|(r & r' & Hr & Hr' & ? & ?)]; [by left|right].
  exists (preimage r), (preimage r'). split_and!; [|by apply list_elem_of_fmap_2..|done|done].
  by apply list_elem_of_fmap_2.
Qed.
End IntegrityLog.

(** ** Instances

    A function with digests of 32 bytes, and two logs written with it. *)
Definition toy_sha256 (x : list byte) : list byte := take 32 (x ++ replicate 32 x00).
Lemma toy_sha256_length x : length (toy_sha256 x) = 32.
Proof. unfold toy_sha256. rewrite length_take, length_app, length_replicate. lia. Qed.

Definition toy_base : LogAnchor := LogAnchor_empty toy_sha256.
Definition toy_log (subject : string) : list CommittedEvent :=
  [{| ce_index := 1; ce_event := sample_revoked |};
   {| ce_index := 2; ce_event := Ev_Revoked {| rv_subject := subject; rv_generation := 4 |} |}].
Definition toy_bytes (subject : string) : list byte :=
  default [] (match encode_log_from toy_sha256 (toy_log subject) toy_base with
              | Ok bytes => Some bytes
              | Err _ => None
              end).
Definition toy_verified (subject : string) : VerifiedLog :=
  match decode_log_from toy_sha256 (toy_bytes subject) toy_base with
  | Ok v => v
  | Err _ => {| vl_events := []; vl_anchor := toy_base |}
  end.

Lemma log_roundtrip_witness :
  encode_log_from toy_sha256 (toy_log "a") toy_base = Ok (toy_bytes "a") ∧
  ∃ anchors, chain_anchors toy_sha256 (toy_log "a") toy_base = Ok anchors ∧
    length anchors = length (toy_log "a") ∧
    decode_log_from toy_sha256 (toy_bytes "a") toy_base =
    Ok {| vl_events := toy_log "a"; vl_anchor := List.last anchors toy_base |}.
Proof.
  split; [vm_compute; reflexivity|].
  apply (log_roundtrip toy_sha256 toy_sha256_length); [reflexivity|repeat constructor|].
  vm_compute. reflexivity.
Defined.

Lemma log_canonical_witness :
  decode_log_from toy_sha256 (toy_bytes "a") toy_base = Ok (toy_verified "a") ∧
  encode_log_from toy_sha256 (vl_events (toy_verified "a")) toy_base = Ok (toy_bytes "a").
Proof.
  split; [vm_compute; reflexivity|].
  apply (log_canonical toy_sha256 toy_sha256_length);
    [reflexivity|vm_compute; reflexivity|vm_compute; discriminate].
Defined.

(** The log cut 13 bytes into its second record. *)
Lemma torn_log_prefix_witness :
  ∃ n px, scan_from toy_sha256 (take 167 (toy_bytes "a")) toy_base = Ok px ∧
    vl_events (px_verified px) = take n (toy_log "a") ∧
    encode_log_from toy_sha256 (take n (toy_log "a")) toy_base =
      Ok (take (N.to_nat (px_complete_bytes px)) (toy_bytes "a")) ∧
    (px_complete_bytes px ≤ blen (take 167 (toy_bytes "a")))%N ∧
    px_incomplete px = negb (px_complete_bytes px =? blen (take 167 (toy_bytes "a")))%N ∧
    px_zero_tail px = 0%N ∧
    ∀ m out, n < m ≤ length (toy_log "a") →
      encode_log_from toy_sha256 (take m (toy_log "a")) toy_base = Ok out → 167 < length out.
Proof.
  apply (torn_log_prefix toy_sha256 toy_sha256_length (toy_log "a") toy_base (toy_bytes "a") 167);
    [reflexivity|repeat constructor|vm_compute; reflexivity|lia].
Defined.

Lemma zero_tail_log_witness :
  ∃ px, scan_from toy_sha256 (toy_bytes "a" ++ replicate 9 x00) toy_base = Ok px ∧
    vl_events (px_verified px) = toy_log "a" ∧ px_complete_bytes px = blen (toy_bytes "a") ∧
    px_incomplete px = true ∧ px_zero_tail px = N.of_nat 9 ∧
    decode_log_from toy_sha256 (toy_bytes "a" ++ replicate 9 x00) toy_base =
      refuse "PTR_LOG_INCOMPLETE_FRAME".
Proof.
  apply (zero_tail_log toy_sha256 toy_sha256_length (toy_log "a") toy_base (toy_bytes "a") 9);
    [reflexivity|repeat constructor|vm_compute; reflexivity|lia
    |vm_compute; reflexivity|vm_compute; discriminate].
Defined.

Lemma scan_total_witness :
  (∃ px, scan_from toy_sha256 (toy_bytes "a") toy_base = Ok px) ∨
  (∃ e, scan_from toy_sha256 (toy_bytes "a") toy_base = Err (Io e)).
Proof. apply (scan_total toy_sha256 toy_sha256_length). Defined.

(** Two different logs with the same anchor: under this function the second
    record's digest ignores its payload, and the theorem names the collision. *)
Lemma anchor_binds_log_witness :
  toy_bytes "a" ≠ toy_bytes "b" ∧ vl_anchor (toy_verified "a") = vl_anchor (toy_verified "b") ∧
  ((toy_bytes "a" = toy_bytes "b" ∧ toy_verified "a" = toy_verified "b") ∨
   ∃ x y, x ∈ record_preimages toy_sha256 (toy_bytes "a") toy_base ∧
          y ∈ record_preimages toy_sha256 (toy_bytes "b") toy_base ∧
          x ≠ y ∧ toy_sha256 x = toy_sha256 y).
Proof.
  split; [intros H; vm_compute in H; discriminate H|]. split; [vm_compute; reflexivity|].
  apply (anchor_binds_log toy_sha256 toy_sha256_length);
    [reflexivity|vm_compute; reflexivity..].
Defined.
