(* ===== verification/Storage.v ===== *)
(** * Files that a crash may cut short

    The part of [std::fs] that crates/ptr-ledger uses, in one directory.  A file
    has a content that was made durable and a list of changes since; a name has
    the file it resolves to and the files it may still resolve to after a crash
    that loses the directory update.  Every system call asks an oracle whether
    it proceeds, fails or is the last thing the machine does, and how much of
    its effect took place in the last two cases.  The oracle is an argument of
    every program, so a theorem for all oracles is a theorem for all failures
    and all crash points. *)

From S2P Require Import Prelude Bytes Types LedgerEvents LedgerChecks LedgerCodec Integrity.
From stdpp Require Import options.

(** ** Files *)
Inductive change :=
| Append (bytes : list byte)
| Overwrite (position : nat) (bytes : list byte)
| Truncate (n : nat).

Record file := {
  f_synced : list byte;
  f_pending : list change
}.

Definition apply_change (c : list byte) (x : change) : list byte :=
  match x with
  | Append bytes => c ++ bytes
  | Overwrite n bytes =>
      take n c ++ replicate (n - length c) x00 ++ bytes ++ drop (n + length bytes) c
  | Truncate n => take n c
  end.
(** What a reader sees. *)
Definition content (f : file) : list byte := foldl apply_change (f_synced f) (f_pending f).

Definition new_file : file := {| f_synced := []; f_pending := [] |}.
Definition durable_file (bytes : list byte) : file := {| f_synced := bytes; f_pending := [] |}.
Definition change_file (x : change) (f : file) : file :=
  {| f_synced := f_synced f; f_pending := f_pending f ++ [x] |}.
Definition sync_file (f : file) : file := durable_file (content f).

(** What a crash leaves of a file: the changes are made durable in order, the
    last one perhaps in part; or the file was extended and none of the new data
    written, so that what was appended reads as zeros. *)
Inductive survives (f : file) : list byte → Prop :=
| survives_done pre rest :
    f_pending f = pre ++ rest → survives f (foldl apply_change (f_synced f) pre)
| survives_part pre bytes rest k :
    f_pending f = pre ++ Append bytes :: rest →
    survives f (foldl apply_change (f_synced f) pre ++ take k bytes)
| survives_over pre n bytes rest k :
    f_pending f = pre ++ Overwrite n bytes :: rest →
    survives f (apply_change (foldl apply_change (f_synced f) pre) (Overwrite n (take k bytes)))
| survives_zero pre run rest k :
    f_pending f = pre ++ run ++ rest →
    (pre = [] ∨ ∃ p n, pre = p ++ [Truncate n]) →
    length (foldl apply_change (f_synced f) pre) + k
      ≤ length (foldl apply_change (f_synced f) (pre ++ run)) →
    Forall (λ x, ∃ bytes, x = Append bytes) run →
    survives f (foldl apply_change (f_synced f) pre ++ replicate k x00).

(** ** Directories *)
Record entry := {
  en_file : option file;
  en_reverts : list (option file)
}.
Abbreviation disk := (gmap string entry).

Definition no_entry : entry := {| en_file := None; en_reverts := [] |}.
Definition entry_at (d : disk) (name : string) : entry := default no_entry (d !! name).
Definition file_at (d : disk) (name : string) : option file := en_file (entry_at d name).

(** [name] comes to resolve to [f]; until the directory is synchronized a crash
    may undo it. *)
Definition rebind (name : string) (f : option file) (d : disk) : disk :=
  <[name := {| en_file := f;
               en_reverts := file_at d name :: en_reverts (entry_at d name) |}]> d.
(** The file [name] resolves to changes. *)
Definition update (name : string) (g : file → file) (d : disk) : disk :=
  <[name := {| en_file := g <$> file_at d name; en_reverts := en_reverts (entry_at d name) |}]> d.

Definition sync_directory (d : disk) : disk :=
  (λ e, {| en_file := en_file e; en_reverts := [] |}) <$> d.

(** A crash: every name resolves to a file it may resolve to, with content that
    may survive, and everything on the disk is durable. *)
Definition entry_survives (e : entry) (f : option file) : Prop :=
  ∃ g, g ∈ en_file e :: en_reverts e ∧
    match g, f with
    | Some g, Some f => f_pending f = [] ∧ survives g (f_synced f)
    | None, None => True
    | _, _ => False
    end.
Definition crashes_to (d d' : disk) : Prop :=
  ∀ name, en_reverts (entry_at d' name) = [] ∧ entry_survives (entry_at d name) (file_at d' name).

(** ** Programs *)
Inductive verdict := Proceeds | Fails (n : nat) | Halts (n : nat).
Record world := { w_disk : disk; w_oracle : list verdict }.

(** [None]: the machine stopped. *)
Definition prog (A : Type) : Type := world → option A * world.
Definition pret {A} (a : A) : prog A := λ w, (Some a, w).
Definition pbind {A B} (m : prog A) (k : A → prog B) : prog B := λ w,
  match m w with
  | (Some a, w) => k a w
  | (None, w) => (None, w)
  end.
Notation "'let*' x ':=' m 'in' k" := (pbind m (λ x, k))
  (at level 10, x pattern, m at level 100, k at level 200) : ptr_scope.

(** The early return of [?] in a program that returns a result. *)
Definition ptry {E A B} (m : prog (result E A)) (k : A → prog (result E B)) : prog (result E B) :=
  let* r := m in
  match r with
  | Ok a => k a
  | Err e => pret (Err e)
  end.
Notation "'try*' x ':=' m 'in' k" := (ptry m (λ x, k))
  (at level 10, x pattern, m at level 100, k at level 200) : ptr_scope.
Definition plift {E A} (r : result E A) : prog (result E A) := pret r.

(** [Result::map_err]. *)
Definition map_err {E F A} (g : E → F) (m : prog (result E A)) : prog (result F A) :=
  let* r := m in
  pret (match r with
        | Ok a => Ok a
        | Err e => Err (g e)
        end).

(** What the operating system reports; its diagnostic is not modelled. *)
Definition os_error (kind : ErrorKind) : fault := Io {| io_kind := kind; io_source := Msg "" |}.

(** One system call.  [effect None] is its whole effect, [effect (Some n)] what
    of it took place when it was interrupted. *)
Definition syscall {A} (effect : option nat → disk → disk) (answer : disk → result fault A) :
    prog (result fault A) := λ w,
  let d := w_disk w in
  let done e o := {| w_disk := effect e d; w_oracle := o |} in
  match w_oracle w with
  | [] => (Some (answer d), done None [])
  | Proceeds :: o => (Some (answer d), done None o)
  | Fails n :: o => (Some (Err (os_error Other)), done (Some n) o)
  | Halts n :: o => (None, done (Some n) o)
  end.

(** An effect that takes place as a whole or not at all. *)
Definition atomic (g : disk → disk) (e : option nat) (d : disk) : disk :=
  match e with
  | Some O => d
  | _ => g d
  end.
Definition no_effect (e : option nat) (d : disk) : disk := d.

(** [Path::exists]. *)
Definition exists_path (name : string) : prog bool := λ w,
  (Some (bool_decide (is_Some (file_at (w_disk w) name))), w).

(** [OpenOptions::create_new(true)]. *)
Definition create_new_file (name : string) : prog (result fault unit) := λ w,
  match file_at (w_disk w) name with
  | Some _ => (Some (Err (os_error AlreadyExists)), w)
  | None => syscall (atomic (rebind name (Some new_file))) (λ _, Ok tt) w
  end.
(** [OpenOptions::create(true).truncate(true)]. *)
Definition create_or_truncate (name : string) : prog (result fault unit) :=
  syscall (atomic (rebind name (Some new_file))) (λ _, Ok tt).
(** [OpenOptions::open] of a file that must exist, with its advisory lock. *)
Definition open_file (name : string) : prog (result fault unit) :=
  syscall no_effect (λ d, match file_at d name with
                          | Some _ => Ok tt
                          | None => Err (os_error NotFound)
                          end).
(** [File::metadata] for the length. *)
Definition file_length (name : string) : prog (result fault N) :=
  syscall no_effect (λ d, match file_at d name with
                          | Some f => Ok (blen (content f))
                          | None => Err (os_error Other)
                          end).
(** [Read::read_to_end] from the start. *)
Definition read_file (name : string) : prog (result fault (list byte)) :=
  syscall no_effect (λ d, match file_at d name with
                          | Some f => Ok (content f)
                          | None => Err (os_error Other)
                          end).
(** [Seek::seek] to the start, and to the end with the position it returns. *)
Definition seek (name : string) : prog (result fault unit) := syscall no_effect (λ _, Ok tt).
Definition seek_end (name : string) : prog (result fault N) := file_length name.
(** [Write::write_all] at the position of the handle: at the end of the file it
    appends, elsewhere it overwrites. *)
Definition write_change (position : N) (bytes : list byte) (f : file) : change :=
  if (position =? blen (content f))%N then Append bytes else Overwrite (N.to_nat position) bytes.
Definition write_at (name : string) (position : N) (bytes : list byte) : prog (result fault unit) :=
  syscall (λ e, update name (λ f, change_file (write_change position (match e with
                                                                      | None => bytes
                                                                      | Some n => take n bytes
                                                                      end) f) f)) (λ _, Ok tt).
(** [Write::write_all] to a file just created, whose handle is at its end. *)
Definition write_all (name : string) (bytes : list byte) : prog (result fault unit) :=
  syscall (λ e, update name (change_file (Append (match e with
                                                  | None => bytes
                                                  | Some n => take n bytes
                                                  end)))) (λ _, Ok tt).
(** [Write::flush] of a [File], which buffers nothing. *)
Definition flush (name : string) : prog (result fault unit) := syscall no_effect (λ _, Ok tt).
(** [File::sync_all] and [sync_data]: an interrupted one promises nothing. *)
Definition sync (name : string) : prog (result fault unit) :=
  syscall (λ e, match e with None => update name sync_file | Some _ => id end) (λ _, Ok tt).
(** [File::set_len] to a shorter length. *)
Definition set_len (name : string) (length : N) : prog (result fault unit) :=
  syscall (atomic (update name (change_file (Truncate (N.to_nat length))))) (λ _, Ok tt).
(** [fs::rename]. *)
Definition rename (from to : string) : prog (result fault unit) :=
  syscall (atomic (λ d, rebind from None (rebind to (file_at d from) d))) (λ _, Ok tt).
Definition remove_file (name : string) : prog (result fault unit) :=
  syscall (atomic (rebind name None)) (λ _, Ok tt).
(** [sync_parent] on Unix: open the directory and synchronize it. *)
Definition sync_parent : prog (result fault unit) :=
  try* _ := syscall no_effect (λ _, Ok tt) in
  syscall (λ e, match e with None => sync_directory | Some _ => id end) (λ _, Ok tt).

(** * Reasoning about programs that a crash may cut short

    [wp m Q C d]: run on the disk [d] under any oracle, [m] returns with [Q] or
    stops with [C].  [possible d name] are the contents a name may have now or
    after a crash. *)

Definition wp {A} (m : prog A) (Q : A → disk → Prop) (C : disk → Prop) (d : disk) : Prop :=
  ∀ o, match m {| w_disk := d; w_oracle := o |} with
       | (Some a, w) => Q a (w_disk w)
       | (None, w) => C (w_disk w)
       end.

Lemma wp_ret {A} (a : A) Q C d : Q a d → wp (pret a) Q C d.
Proof. by intros H o. Qed.

Lemma wp_bind {A B} (m : prog A) (k : A → prog B) Q C d :
  wp m (λ a d', wp (k a) Q C d') C d → wp (pbind m k) Q C d.
Proof.
  intros H o. specialize (H o). unfold pbind. destruct (m _) as [[a|] [d' o']]; [|done]. apply H.
Qed.

Lemma wp_mono {A} (m : prog A) (Q Q' : A → disk → Prop) (C C' : disk → Prop) d :
  wp m Q C d → (∀ a d', Q a d' → Q' a d') → (∀ d', C d' → C' d') → wp m Q' C' d.
Proof. intros H HQ HC o. specialize (H o). destruct (m _) as [[a|] w]; auto. Qed.

Lemma wp_try {E A B} (m : prog (result E A)) (k : A → prog (result E B)) Q C d :
  wp m (λ r d', match r with Ok a => wp (k a) Q C d' | Err e => Q (Err e) d' end) C d →
  wp (ptry m k) Q C d.
Proof.
  intros H. apply wp_bind. eapply wp_mono; [exact H| |done].
  intros [a|e] d' Hr; [done|]. by apply wp_ret.
Qed.

Lemma wp_lift_ok {E A B} (a : A) (k : A → prog (result E B)) Q C d :
  wp (k a) Q C d → wp (ptry (plift (Ok a)) k) Q C d.
Proof. intros H. apply wp_try, wp_ret. done. Qed.

Lemma wp_map_err {E F A} (g : E → F) (m : prog (result E A)) Q C d :
  wp m (λ r d', Q (match r with Ok a => Ok a | Err e => Err (g e) end) d') C d →
  wp (let* r := m in pret (match r with Ok a => Ok a | Err e => Err (g e) end)) Q C d.
Proof. intros H. apply wp_bind. eapply wp_mono; [exact H| |done]. intros r d' Hr. by apply wp_ret. Qed.

Lemma wp_syscall {A} effect (answer : disk → result fault A) Q C d :
  Q (answer d) (effect None d) →
  (∀ n, Q (Err (os_error Other)) (effect (Some n) d) ∧ C (effect (Some n) d)) →
  wp (syscall effect answer) Q C d.
Proof.
  intros Hq Hn o. unfold syscall. cbn. destruct o as [|[|n|n] o]; cbn; try done; by apply Hn.
Qed.

(** A call that changes nothing. *)
Lemma wp_query {A} (answer : disk → result fault A) Q C d :
  Q (answer d) d → Q (Err (os_error Other)) d → C d → wp (syscall no_effect answer) Q C d.
Proof. intros. by apply wp_syscall. Qed.

Lemma wp_atomic {A} g (answer : disk → result fault A) Q C d :
  Q (answer d) (g d) →
  (∀ d', d' = d ∨ d' = g d → Q (Err (os_error Other)) d' ∧ C d') →
  wp (syscall (atomic g) answer) Q C d.
Proof. intros Hq Hn. apply wp_syscall; [done|]. intros [|n]; cbn; apply Hn; auto. Qed.

Lemma wp_exists name Q C d :
  Q (bool_decide (is_Some (file_at d name))) d → wp (exists_path name) Q C d.
Proof. by intros H o. Qed.

Lemma wp_create_new name (Q : result fault unit → disk → Prop) C d :
  Q (Err (os_error AlreadyExists)) d →
  (file_at d name = None → Q (Ok tt) (rebind name (Some new_file) d)) →
  (∀ d', d' = d ∨ d' = rebind name (Some new_file) d → Q (Err (os_error Other)) d' ∧ C d') →
  wp (create_new_file name) Q C d.
Proof.
  intros He Hok Hpart o. unfold create_new_file. cbn [w_disk].
  destruct (file_at d name) as [f|] eqn:Hf; [done|].
  by apply (wp_atomic (rebind name (Some new_file)) (λ _, Ok tt)); auto.
Qed.

(** ** Entries *)
Lemma entry_at_rebind name f d n :
  entry_at (rebind name f d) n =
  if bool_decide (n = name)
  then {| en_file := f; en_reverts := file_at d name :: en_reverts (entry_at d name) |}
  else entry_at d n.
Proof.
  unfold entry_at at 1, rebind. case_bool_decide as Hn.
  - subst. by rewrite lookup_insert_eq.
  - by rewrite lookup_insert_ne.
Qed.
Lemma entry_at_update name g d n :
  entry_at (update name g d) n =
  if bool_decide (n = name)
  then {| en_file := g <$> file_at d name; en_reverts := en_reverts (entry_at d name) |}
  else entry_at d n.
Proof.
  unfold entry_at at 1, update. case_bool_decide as Hn.
  - subst. by rewrite lookup_insert_eq.
  - by rewrite lookup_insert_ne.
Qed.
Lemma entry_at_sync d n :
  entry_at (sync_directory d) n = {| en_file := file_at d n; en_reverts := [] |}.
Proof.
  unfold file_at, entry_at, sync_directory. rewrite lookup_fmap. by destruct (d !! n).
Qed.

(** ** What a name may hold *)
Definition possible (d : disk) (name : string) (x : option (list byte)) : Prop :=
  ∃ g, g ∈ en_file (entry_at d name) :: en_reverts (entry_at d name) ∧
    match g, x with
    | Some f, Some bytes => survives f bytes
    | None, None => True
    | _, _ => False
    end.

Lemma survives_content f : survives f (content f).
Proof. apply (survives_done f (f_pending f) []). by rewrite app_nil_r. Qed.

Lemma survives_synced f bytes : f_pending f = [] → survives f bytes → bytes = f_synced f.
Proof.
  intros Hp H. destruct H as [pre rest H|pre b rest k H|pre n b rest k H|pre run rest k H Hpre Hlen _];
    rewrite Hp in H.
  - symmetry in H. by apply app_eq_nil in H as [-> _].
  - by destruct pre.
  - by destruct pre.
  - symmetry in H. apply app_eq_nil in H as [-> H]. apply app_eq_nil in H as [-> _].
    cbn in *. assert (k = 0) as -> by lia. by rewrite app_nil_r.
Qed.

Lemma survives_durable b bytes : survives (durable_file b) bytes ↔ bytes = b.
Proof.
  split; [by apply survives_synced|]. intros ->. apply (survives_content (durable_file b)).
Qed.

Lemma possible_content d name f : file_at d name = Some f → possible d name (Some (content f)).
Proof.
  intros H. exists (Some f). split; [|apply survives_content]. unfold file_at in H. rewrite H. left.
Qed.

Lemma possible_crash d d' name x : crashes_to d d' → possible d' name x → possible d name x.
Proof.
  intros Hc (g & Hg & Hx). destruct (Hc name) as [Hr (g0 & Hg0 & Hs)]. rewrite Hr in Hg.
  apply list_elem_of_singleton in Hg as ->. exists g0. split; [done|]. unfold file_at in Hs.
  destruct g0 as [f0|], (en_file (entry_at d' name)) as [f|]; try done.
  destruct Hs as [Hp Hs]. destruct x as [b|]; [|done].
  apply survives_synced in Hx; [|done]. by subst.
Qed.

Lemma possible_entry d d' name x :
  entry_at d' name = entry_at d name → possible d' name x ↔ possible d name x.
Proof. unfold possible. by intros ->. Qed.

Lemma possible_sync d name x : possible (sync_directory d) name x → possible d name x.
Proof.
  intros (g & Hg & Hx). rewrite entry_at_sync in Hg. cbn in Hg.
  apply list_elem_of_singleton in Hg as ->. exists (file_at d name). split; [left|done].
Qed.

(** ** Growing and shrinking a file *)

(** A file whose pending changes are appends to a durable content. *)
Definition appending (f : file) (base data : list byte) : Prop :=
  f_synced f = base ∧ Forall (λ x, ∃ bytes, x = Append bytes) (f_pending f) ∧
  content f = base ++ data.

Lemma appends_content c l :
  Forall (λ x, ∃ bytes, x = Append bytes) l →
  ∃ data, foldl apply_change c l = c ++ data ∧ ∀ c', foldl apply_change c' l = c' ++ data.
Proof.
  intros H. revert c. induction H as [|x l [bytes ->] _ IH]; intros c.
  { exists []. rewrite app_nil_r. split; [done|]. intros c'. by rewrite app_nil_r. }
  cbn. destruct (IH (c ++ bytes)) as (data & -> & Hd). exists (bytes ++ data).
  rewrite app_assoc. split; [done|]. intros c'. by rewrite Hd, app_assoc.
Qed.

Lemma appending_new base : appending (durable_file base) base [].
Proof. split_and!; [done|constructor|]. by rewrite app_nil_r. Qed.

Lemma appending_append f base data bytes :
  appending f base data → appending (change_file (Append bytes) f) base (data ++ bytes).
Proof.
  intros (Hs & Hp & Hc). split_and!; [done| |].
  - apply Forall_app. split; [done|]. constructor; [by eexists|constructor].
  - unfold content in *. cbn. rewrite foldl_app, Hc. cbn. by rewrite app_assoc.
Qed.

(** What may survive of such a file. *)
Lemma appending_survives f base data x :
  appending f base data → survives f x →
  ∃ k, x = base ++ take k data ∨ (x = base ++ replicate k x00 ∧ k ≤ length data).
Proof.
  intros (Hs & Hp & Hc) H. unfold content in Hc. rewrite Hs in Hc.
  destruct H as [pre rest H|pre b rest k H|pre n b rest k H|pre run rest k H Hpre Hlen _];
    rewrite H in Hp, Hc; rewrite Hs in *.
  - apply Forall_app in Hp as [Hp1 Hp2].
    destruct (appends_content base _ Hp1) as (d1 & Hd1 & _).
    destruct (appends_content (foldl apply_change base pre) _ Hp2) as (d2 & Hd2 & _).
    rewrite foldl_app, Hd2, Hd1, <-app_assoc in Hc. apply app_inv_head in Hc. subst data.
    exists (length d1). left. by rewrite Hd1, take_app_length.
  - apply Forall_app in Hp as [Hp1 Hp2]. apply Forall_cons in Hp2 as [_ Hp2].
    destruct (appends_content base _ Hp1) as (d1 & Hd1 & _).
    destruct (appends_content (foldl apply_change base pre ++ b) _ Hp2) as (d2 & Hd2 & _).
    rewrite foldl_app in Hc. cbn in Hc. rewrite Hd2, Hd1, <-!app_assoc in Hc.
    apply app_inv_head in Hc. subst data. rewrite Hd1.
    exists (length d1 + min k (length b)). left.
    rewrite <-app_assoc. f_equal. rewrite take_app_add. f_equal.
    rewrite take_app_le by lia. destruct (decide (k ≤ length b)).
    + by rewrite Nat.min_l.
    + rewrite Nat.min_r by lia. rewrite !take_ge; [done|lia..].
  - apply Forall_app in Hp as [_ Hp]. by apply Forall_cons in Hp as [[? ?] _].
  - destruct Hpre as [->|(p & n & ->)].
    + cbn in *. exists k. right. split; [done|].
      apply Forall_app in Hp as [Hp1 Hp2].
      destruct (appends_content base _ Hp1) as (d1 & Hd1 & _).
      destruct (appends_content (foldl apply_change base run) _ Hp2) as (d2 & Hd2 & _).
      rewrite foldl_app, Hd2, Hd1, <-app_assoc in Hc. apply app_inv_head in Hc. subst data.
      rewrite Hd1, !length_app in Hlen. rewrite length_app. lia.
    + apply Forall_app in Hp as [Hp _]. apply Forall_app in Hp as [_ Hp].
      apply Forall_singleton in Hp as [? Hp]. done.
Qed.

Lemma truncated_survives base n x :
  survives (change_file (Truncate n) (durable_file base)) x → x = base ∨ x = take n base.
Proof.
  intros H. destruct H as [pre rest H|pre b rest k H|pre m b rest k H|pre run rest k H Hpre Hlen Hrun];
    cbn [f_pending f_synced change_file durable_file app] in *.
  - destruct pre as [|y pre]; [by left|]. injection H as <- H. symmetry in H.
    apply app_eq_nil in H as [-> _]. by right.
  - destruct pre as [|y pre]; [done|]. injection H as _ H. by destruct pre.
  - destruct pre as [|y pre]; [done|]. injection H as _ H. by destruct pre.
  - destruct Hpre as [->|(p & m & ->)].
    + left. destruct run as [|y run].
      * cbn in Hlen. assert (k = 0) as -> by lia. apply app_nil_r.
      * injection H as <- _. apply Forall_cons in Hrun as [[? ?] _]. done.
    + destruct p as [|y p]; [|injection H as _ H; by destruct p].
      injection H as <- H. symmetry in H. apply app_eq_nil in H as [-> _]. cbn in *.
      assert (k = 0) as -> by lia. rewrite app_nil_r. by right.
Qed.

(** ** Runs in which no call fails *)

(** [m] returns [a] when no call fails. *)
Definition runs {A} (m : prog A) (d : disk) (a : A) (d' : disk) : Prop :=
  m {| w_disk := d; w_oracle := [] |} = (Some a, {| w_disk := d'; w_oracle := [] |}).

Lemma runs_ret {A} (a : A) d : runs (pret a) d a d.
Proof. done. Qed.
Lemma runs_bind {A B} (m : prog A) (k : A → prog B) d a d1 b d2 :
  runs m d a d1 → runs (k a) d1 b d2 → runs (pbind m k) d b d2.
Proof. unfold runs, pbind. intros ->. done. Qed.
Lemma runs_try {E A B} (m : prog (result E A)) (k : A → prog (result E B)) d a d1 b d2 :
  runs m d (Ok a) d1 → runs (k a) d1 b d2 → runs (ptry m k) d b d2.
Proof. intros Hm Hk. eapply runs_bind; [exact Hm|exact Hk]. Qed.
Lemma runs_map_err {E F A} (g : E → F) (m : prog (result E A)) d a d' :
  runs m d (Ok a) d' → runs (map_err g m) d (Ok a) d'.
Proof. intros Hm. eapply runs_bind; [exact Hm|]. apply runs_ret. Qed.
Lemma runs_wp {A} (m : prog A) d a d' Q C : runs m d a d' → wp m Q C d → Q a d'.
Proof. intros Hm Hw. specialize (Hw []). unfold runs in Hm. by rewrite Hm in Hw. Qed.

(** [m] succeeds when no call fails. *)
Definition succeeds {E A} (m : prog (result E A)) (d : disk) : Prop :=
  ∃ a d', runs m d (Ok a) d'.

Lemma succeeds_call {A} effect (answer : disk → result fault A) a d :
  answer d = Ok a → succeeds (syscall effect answer) d.
Proof. intros Ha. exists a, (effect None d). unfold runs, syscall. cbn. by rewrite Ha. Qed.
Lemma succeeds_try {E A B} (m : prog (result E A)) (k : A → prog (result E B)) d :
  succeeds m d → (∀ a d', runs m d (Ok a) d' → succeeds (k a) d') → succeeds (ptry m k) d.
Proof.
  intros (a & d1 & Hm) Hk. destruct (Hk a d1 Hm) as (b & d2 & Hb). exists b, d2.
  by eapply runs_try.
Qed.
Lemma succeeds_ret {E A} (a : A) d : succeeds (E := E) (pret (Ok a)) d.
Proof. by exists a, d. Qed.
Lemma succeeds_map_err {E F A} (g : E → F) (m : prog (result E A)) d :
  succeeds m d → succeeds (map_err g m) d.
Proof. intros (a & d' & Hm). exists a, d'. by apply runs_map_err. Qed.

Ltac call_succeeds := apply succeeds_try; [by eapply succeeds_call|intros ? ? _].

Lemma runs_unique {A} (m : prog A) d a1 d1 a2 d2 :
  runs m d a1 d1 → runs m d a2 d2 → a1 = a2 ∧ d1 = d2.
Proof. unfold runs. intros -> [= -> ->]. done. Qed.

Lemma runs_query {A} (answer : disk → result fault A) a d :
  answer d = Ok a → runs (syscall no_effect answer) d (Ok a) d.
Proof. intros Ha. unfold runs, syscall. cbn. by rewrite Ha. Qed.
