(* ===== verification/Anchor.v ===== *)
(** * Protected anchors: crates/ptr-ledger/src/anchor.rs

    A fixed-size record authenticated with HMAC-SHA256 and installed by atomic
    rename.  SHA-256 is a parameter. *)

From S2P Require Import Prelude Bytes Types LedgerEvents LedgerChecks LedgerCodec Integrity.
From S2P Require Import IntegrityLog Storage.
From stdpp Require Import options.

Definition ANCHOR_MAGIC : list byte := str_bytes "PTRANC01".
Definition MAC_DOMAIN : list byte := str_bytes "PTRANC01-MAC".
Definition AUTHENTICATED_BYTES : N := 136.
Definition ANCHOR_BYTES : N := AUTHENTICATED_BYTES + 32.

(** A digest of 32 bytes; all zero means unset. *)
Abbreviation ChainOrigin := Digest.
Definition ORIGIN_UNSET : ChainOrigin := replicate 32 x00.
Definition origin_is_set (o : ChainOrigin) : bool := negb (bool_decide (o = ORIGIN_UNSET)).
Definition from_first_record (digest : Digest) : ChainOrigin := digest.

Abbreviation AnchorKey := (list byte).

Inductive AnchorError :=
| Absent
| Format
| UnsupportedVersion
| Unauthenticated
| StaleEpoch (stored expected : N)
| NonMonotonic
| OriginMismatch
| BaseRange
| Exists
| StorageError.
#[export] Instance AnchorError_eq_dec : EqDecision AnchorError.
Proof. solve_decision. Defined.

Definition AnchorError_code (e : AnchorError) : string :=
  match e with
  | Absent => "PTR_ANCHOR_ABSENT"
  | Format => "PTR_ANCHOR_FORMAT"
  | UnsupportedVersion => "PTR_ANCHOR_VERSION"
  | Unauthenticated => "PTR_ANCHOR_UNAUTHENTICATED"
  | StaleEpoch _ _ => "PTR_ANCHOR_STALE_EPOCH"
  | NonMonotonic => "PTR_ANCHOR_NONMONOTONIC"
  | OriginMismatch => "PTR_ANCHOR_ORIGIN_MISMATCH"
  | BaseRange => "PTR_ANCHOR_BASE_RANGE"
  | Exists => "PTR_ANCHOR_EXISTS"
  | StorageError => "PTR_ANCHOR_STORAGE"
  end.

Record ProtectedAnchor := {
  pa_epoch : N;
  pa_log : LogAnchor;
  pa_origin : ChainOrigin;
  pa_base : LogAnchor
}.
#[export] Instance ProtectedAnchor_eq_dec : EqDecision ProtectedAnchor.
Proof. solve_decision. Defined.

Record AnchorStore := {
  as_path : string;
  as_key : AnchorKey;
  as_current : ProtectedAnchor
}.

(** The encoding of the authenticated part. *)
Definition anchor_encode (a : ProtectedAnchor) : list byte :=
  ANCHOR_MAGIC ++ le_bytes 8 (pa_epoch a) ++ le_bytes 8 (la_index (pa_log a)) ++
  la_digest (pa_log a) ++ pa_origin a ++ le_bytes 8 (la_index (pa_base a)) ++
  la_digest (pa_base a) ++ replicate 8 x00.

Definition scratch_path (path : string) : string := path +:+ ".publishing".

(** Map an I/O failure of reading the anchor. *)
Definition read_failure (f : fault) : AnchorError :=
  match f with
  | Io e => match io_kind e with
            | NotFound => Absent
            | InvalidData => Format
            | _ => StorageError
            end
  | _ => StorageError
  end.

Definition read_exact_anchor (path : string) : prog (result fault (list byte)) :=
  try* _ := open_file path in
  try* length := file_length path in
  if negb (length =? ANCHOR_BYTES)%N then pret (refuse (AnchorError_code Format)) else
  try* bytes := read_file path in
  if negb (blen bytes =? ANCHOR_BYTES)%N then pret (refuse (AnchorError_code Format)) else
  pret (Ok bytes).

Definition write_atomically (path : string) (bytes : list byte) : prog (result fault unit) :=
  let scratch := scratch_path path in
  try* _ := create_or_truncate scratch in
  try* _ := write_all scratch bytes in
  try* _ := sync scratch in
  try* _ := rename scratch path in
  sync_parent.

Section Anchor.
Context (sha256 : list byte → list byte).

Definition anchor_initial : ProtectedAnchor :=
  {| pa_epoch := 1; pa_log := LogAnchor_empty sha256; pa_origin := ORIGIN_UNSET;
     pa_base := LogAnchor_empty sha256 |}.

Definition is_compacted (a : ProtectedAnchor) : bool :=
  negb (bool_decide (pa_base a = LogAnchor_empty sha256)).

Definition check_self (a : ProtectedAnchor) : result AnchorError unit :=
  if (la_index (pa_log a) <? la_index (pa_base a))%N then Err BaseRange else
  if is_compacted a && (la_index (pa_base a) =? 0)%N then Err BaseRange else Ok tt.

Definition anchor_decode (bytes : list byte) : result AnchorError ProtectedAnchor :=
  if negb (blen bytes =? ANCHOR_BYTES)%N then Err Format else
  if negb (bool_decide (slice 0 8 bytes = ANCHOR_MAGIC))
  then Err (if bool_decide (slice 0 3 bytes = str_bytes "PTR") then UnsupportedVersion else Format) else
  if negb (bool_decide (slice 128 136 bytes = replicate 8 x00)) then Err Format else
  let anchor := {|
    pa_epoch := le_value (slice 8 16 bytes);
    pa_log := {| la_index := le_value (slice 16 24 bytes); la_digest := slice 24 56 bytes |};
    pa_origin := slice 56 88 bytes;
    pa_base := {| la_index := le_value (slice 88 96 bytes); la_digest := slice 96 128 bytes |}
  |} in
  check_self anchor ;?
  Ok anchor.

Definition mac (key : AnchorKey) (message : list byte) : Digest :=
  hmac_sha256 sha256 key (MAC_DOMAIN ++ message).

(** The bytes of a published record. *)
Definition anchor_record (key : AnchorKey) (a : ProtectedAnchor) : list byte :=
  anchor_encode a ++ mac key (anchor_encode a).

Definition publish (s : AnchorStore) (a : ProtectedAnchor) : prog (result AnchorError unit) :=
  map_err (λ _, StorageError) (write_atomically (as_path s) (anchor_record (as_key s) a)).

Definition initialize (path : string) (key : AnchorKey) (a : ProtectedAnchor) :
    prog (result AnchorError AnchorStore) :=
  try* _ := plift (check_self a) in
  let* found := exists_path path in
  if (found : bool) then pret (Err Exists) else
  let store := {| as_path := path; as_key := key; as_current := a |} in
  try* _ := publish store a in
  pret (Ok store).

Definition open_expecting (path : string) (key : AnchorKey) (minimum_epoch : N) :
    prog (result AnchorError AnchorStore) :=
  try* bytes := map_err read_failure (read_exact_anchor path) in
  let expected := mac key (slice 0 AUTHENTICATED_BYTES bytes) in
  if negb (constant_time_eq (drop (N.to_nat AUTHENTICATED_BYTES) bytes) expected)
  then pret (Err Unauthenticated) else
  try* current := plift (anchor_decode bytes) in
  if (pa_epoch current <? minimum_epoch)%N
  then pret (Err (StaleEpoch (pa_epoch current) minimum_epoch)) else
  pret (Ok {| as_path := path; as_key := key; as_current := current |}).

Definition anchor_open (path : string) (key : AnchorKey) : prog (result AnchorError AnchorStore) :=
  open_expecting path key 0.

(** The conditions under which [next] may follow [current]. *)
Definition check_successor (current next : ProtectedAnchor) : result AnchorError unit :=
  check_self next ;?
  if (pa_epoch next <=? pa_epoch current)%N
     || (la_index (pa_log next) <? la_index (pa_log current))%N then Err NonMonotonic else
  if (la_index (pa_log next) =? la_index (pa_log current))%N
     && negb (bool_decide (la_digest (pa_log next) = la_digest (pa_log current)))
  then Err NonMonotonic else
  if negb (bool_decide (pa_origin next = pa_origin current)) && origin_is_set (pa_origin current)
  then Err OriginMismatch else Ok tt.

Definition commit (s : AnchorStore) (next : ProtectedAnchor) :
    prog (result AnchorError ProtectedAnchor * AnchorStore) :=
  match check_successor (as_current s) next with
  | Err e => pret (Err e, s)
  | Ok _ =>
      let* r := publish s next in
      match r with
      | Err e => pret (Err e, s)
      | Ok _ => pret (Ok next, {| as_path := as_path s; as_key := as_key s; as_current := next |})
      end
  end.

Definition acknowledge (s : AnchorStore) (log : LogAnchor) (origin : ChainOrigin) :
    prog (result AnchorError ProtectedAnchor * AnchorStore) :=
  let current := as_current s in
  match checked_add_u64 (pa_epoch current) 1 with
  | None => pret (Err NonMonotonic, s)
  | Some epoch =>
      commit s {| pa_epoch := epoch; pa_log := log;
                  pa_origin := if origin_is_set (pa_origin current) then pa_origin current else origin;
                  pa_base := pa_base current |}
  end.

Definition advance_compacted (s : AnchorStore) (base log : LogAnchor) :
    prog (result AnchorError ProtectedAnchor * AnchorStore) :=
  let current := as_current s in
  if (la_index base <? la_index (pa_base current))%N then pret (Err NonMonotonic, s) else
  match checked_add_u64 (pa_epoch current) 1 with
  | None => pret (Err NonMonotonic, s)
  | Some epoch =>
      commit s {| pa_epoch := epoch; pa_log := log; pa_origin := pa_origin current; pa_base := base |}
  end.
End Anchor.

(** * What an anchor store promises *)

(** ** Comparison in constant time *)
Lemma to_N_inj a b : Byte.to_N a = Byte.to_N b → a = b.
Proof. intros H. rewrite <-(byte_of_to_N a), H. apply byte_of_to_N. Qed.

Lemma xor_fold_zero l : ∀ r acc, length l = length r →
  foldl (λ acc p, N.lor acc (N.lxor (Byte.to_N p.1) (Byte.to_N p.2))) acc (zip l r) = 0%N ↔
  acc = 0%N ∧ l = r.
Proof.
  induction l as [|x l IH]; intros [|y r] acc Hlen; try done; cbn; [naive_solver|].
  rewrite IH by (simpl in Hlen; lia). rewrite N.lor_eq_0_iff, N.lxor_eq_0_iff. split.
  - by intros [[-> ->%to_N_inj] ->].
  - by intros [-> [= -> ->]].
Qed.

Lemma constant_time_eq_spec l r : constant_time_eq l r = true ↔ l = r.
Proof.
  unfold constant_time_eq. destruct (length l =? length r)%nat eqn:Hl; cbn [negb].
  - apply Nat.eqb_eq in Hl. rewrite N.eqb_eq, xor_fold_zero by done. naive_solver.
  - apply Nat.eqb_neq in Hl. split; [done|]. by intros ->.
Qed.

Section AnchorFacts.
Context (sha256 : list byte → list byte).
Context (sha256_length : ∀ x, length (sha256 x) = 32).

(** The values a [ProtectedAnchor] can have that pass its own check. *)
Record anchor_wf (a : ProtectedAnchor) : Prop := {
  aw_epoch : (pa_epoch a < 2 ^ 64)%N;
  aw_index : (la_index (pa_log a) < 2 ^ 64)%N;
  aw_base_index : (la_index (pa_base a) < 2 ^ 64)%N;
  aw_digest : length (la_digest (pa_log a)) = 32;
  aw_base_digest : length (la_digest (pa_base a)) = 32;
  aw_origin : length (pa_origin a) = 32;
  aw_self : check_self sha256 a = Ok tt
}.

Lemma anchor_encode_length a : anchor_wf a → blen (anchor_encode a) = 136%N.
Proof.
  intros []. unfold anchor_encode, blen. rewrite !length_app, !length_le_bytes, length_replicate.
  rewrite aw_digest0, aw_base_digest0, aw_origin0. done.
Qed.

Lemma mac_length key m : blen (mac sha256 key m) = 32%N.
Proof using sha256_length. unfold mac, hmac_sha256, blen. by rewrite sha256_length. Qed.

Lemma record_length key a : anchor_wf a → blen (anchor_record sha256 key a) = ANCHOR_BYTES.
Proof using sha256_length.
  intros Ha. unfold anchor_record. by rewrite blen_app, anchor_encode_length, mac_length.
Qed.

(** The fields of a record, in order. *)
Definition anchor_fields (a : ProtectedAnchor) : list (list byte) :=
  [ANCHOR_MAGIC; le_bytes 8 (pa_epoch a); le_bytes 8 (la_index (pa_log a)); la_digest (pa_log a);
   pa_origin a; le_bytes 8 (la_index (pa_base a)); la_digest (pa_base a); replicate 8 x00].
Lemma anchor_encode_fields a : anchor_encode a = mjoin (anchor_fields a).
Proof. unfold anchor_encode, anchor_fields. cbn [mjoin list_join]. by rewrite app_nil_r. Qed.

Lemma slice_field (fields : list (list byte)) i x m from until :
  fields !! i = Some x → from = blen (mjoin (take i fields)) → until = (from + blen x)%N →
  slice from until (mjoin fields ++ m) = x.
Proof.
  intros Hi -> ->. rewrite <-(take_drop_middle fields i x Hi) at 3.
  rewrite join_app. cbn [mjoin list_join]. rewrite <-!app_assoc. by apply slice_mid.
Qed.

Ltac anchor_field i :=
  apply (slice_field (anchor_fields _) i); [reflexivity| |];
  cbn [take anchor_fields mjoin list_join]; rewrite ?blen_app, ?blen_le, ?blen_nil;
  unfold blen; rewrite ?length_replicate;
  repeat match goal with H : length _ = 32 |- _ => rewrite H end; reflexivity.

Lemma encode_slices a m :
  anchor_wf a →
  let bytes := anchor_encode a ++ m in
  slice 0 8 bytes = ANCHOR_MAGIC ∧ slice 8 16 bytes = le_bytes 8 (pa_epoch a) ∧
  slice 16 24 bytes = le_bytes 8 (la_index (pa_log a)) ∧ slice 24 56 bytes = la_digest (pa_log a) ∧
  slice 56 88 bytes = pa_origin a ∧ slice 88 96 bytes = le_bytes 8 (la_index (pa_base a)) ∧
  slice 96 128 bytes = la_digest (pa_base a) ∧ slice 128 136 bytes = replicate 8 x00.
Proof.
  intros [_ _ _ H1 H2 H3 _]. cbv zeta. rewrite anchor_encode_fields.
  split_and!; [anchor_field 0|anchor_field 1|anchor_field 2|anchor_field 3|anchor_field 4
              |anchor_field 5|anchor_field 6|anchor_field 7].
Qed.

Lemma decode_encoded a m :
  anchor_wf a → blen m = 32%N → anchor_decode sha256 (anchor_encode a ++ m) = Ok a.
Proof.
  intros Ha Hm. unfold anchor_decode. rewrite blen_app, (anchor_encode_length a Ha), Hm.
  destruct (encode_slices a m Ha) as (-> & -> & -> & -> & -> & -> & -> & ->).
  rewrite !bool_decide_eq_true_2 by done. cbn [negb N.eqb].
  destruct Ha as [He Hi Hb _ _ _ Hs].
  rewrite !le_value_bytes by (simpl; lia). change (136 + 32 =? ANCHOR_BYTES)%N with true. cbn [negb].
  destruct a as [e [i d] o [bi bd]]. cbn [pa_epoch pa_log pa_origin pa_base la_index la_digest] in *.
  by rewrite Hs.
Qed.

(** The reverse: whatever decodes was encoded from what it decodes to. *)
Lemma decoded_encode bytes a :
  anchor_decode sha256 bytes = Ok a →
  anchor_wf a ∧ slice 0 AUTHENTICATED_BYTES bytes = anchor_encode a ∧ blen bytes = ANCHOR_BYTES.
Proof.
  unfold anchor_decode. intros H. result_inv. bool_prop. cbn [negb] in *.
  assert (blen bytes = 168%N) as Hlen by done.
  assert (∀ n from until, (until - from = N.of_nat n)%N → (from ≤ until)%N → (until ≤ 168)%N →
            le_bytes n (le_value (slice from until bytes)) = slice from until bytes) as Hle
    by (intros; apply le_bytes_slice; lia).
  assert (∀ from until, (from ≤ until)%N → (until ≤ 168)%N →
            length (slice from until bytes) = N.to_nat (until - from)) as Hsl.
  { intros from until H1 H2. pose proof (slice_length from until bytes H1 ltac:(lia)) as Hs.
    unfold blen in Hs. lia. }
  assert (∀ from until, until = (from + 8)%N → (until ≤ 168)%N →
            (le_value (slice from until bytes) < 2 ^ 64)%N) as Hlt.
  { intros from until -> Hu. pose proof (le_value_lt (slice from (from + 8) bytes)) as Hl.
    rewrite Hsl in Hl by lia. replace (N.to_nat (from + 8 - from)) with 8 in Hl by lia. done. }
  split_and!; [split; cbn; try done; first [by apply Hlt|by rewrite Hsl]| |done].
  unfold anchor_encode, AUTHENTICATED_BYTES. cbn [pa_epoch pa_log pa_origin pa_base la_index la_digest].
  rewrite !Hle by lia.
  match goal with
  | H1 : slice 0 8 bytes = _, H2 : slice 128 136 bytes = _ |- _ => rewrite <-H1, <-H2
  end.
  rewrite (slice_split 0 8 136), (slice_split 8 16 136), (slice_split 16 24 136),
    (slice_split 24 56 136), (slice_split 56 88 136), (slice_split 88 96 136),
    (slice_split 96 128 136) by lia. done.
Qed.

(** ** Opening *)

(** The part of [open_expecting] behind the read. *)
Definition accept_record (path : string) (key : AnchorKey) (minimum_epoch : N) (bytes : list byte) :
    result AnchorError AnchorStore :=
  if negb (constant_time_eq (drop (N.to_nat AUTHENTICATED_BYTES) bytes)
             (mac sha256 key (slice 0 AUTHENTICATED_BYTES bytes))) then Err Unauthenticated else
  let? current := anchor_decode sha256 bytes in
  if (pa_epoch current <? minimum_epoch)%N then Err (StaleEpoch (pa_epoch current) minimum_epoch)
  else Ok {| as_path := path; as_key := key; as_current := current |}.

Lemma open_expecting_accept path key min w :
  open_expecting sha256 path key min w =
  ptry (map_err read_failure (read_exact_anchor path)) (λ bytes, pret (accept_record path key min bytes)) w.
Proof.
  unfold open_expecting, ptry, pbind. destruct (map_err _ _ _) as [[[bytes|e]|] w']; [|done..].
  unfold accept_record. destruct (negb _); [done|].
  destruct (anchor_decode sha256 bytes) as [pa|e]; cbn; [|done]. by destruct (_ <? _)%N.
Qed.

Lemma accept_record_ok path key min bytes store :
  accept_record path key min bytes = Ok store ↔
  ∃ pa, bytes = anchor_record sha256 key pa ∧ anchor_wf pa ∧ (min ≤ pa_epoch pa)%N ∧
        store = {| as_path := path; as_key := key; as_current := pa |}.
Proof using sha256_length.
  unfold accept_record. split.
  - intros H. destruct (constant_time_eq _ _) eqn:Hc; [|done]. cbn [negb] in H.
    apply constant_time_eq_spec in Hc. apply rbind_ok_inv in H as (pa & Hd & H).
    destruct (_ <? _)%N eqn:He; [done|]. injection H as <-. bool_prop.
    apply decoded_encode in Hd as (Hwf & Hs & Hl). exists pa. split_and!; [|done..].
    unfold anchor_record. rewrite <-Hs, <-Hc. unfold slice. by rewrite N.sub_0_r, take_drop.
  - intros (pa & -> & Hwf & Hm & ->). unfold anchor_record.
    pose proof (anchor_encode_length pa Hwf) as Hl.
    assert (slice 0 AUTHENTICATED_BYTES (anchor_encode pa ++ mac sha256 key (anchor_encode pa)) =
            anchor_encode pa) as ->.
    { apply (slice_mid 0 AUTHENTICATED_BYTES [] (anchor_encode pa)); [done|]. by rewrite Hl. }
    assert (drop (N.to_nat AUTHENTICATED_BYTES)
              (anchor_encode pa ++ mac sha256 key (anchor_encode pa)) =
            mac sha256 key (anchor_encode pa)) as ->.
    { change AUTHENTICATED_BYTES with 136%N. rewrite <-Hl. unfold blen.
      by rewrite Nat2N.id, drop_app_length. }
    rewrite (proj2 (constant_time_eq_spec _ _) eq_refl). cbn [negb].
    rewrite decode_encoded by (done || apply mac_length). cbn [rbind].
    by rewrite (proj2 (N.ltb_ge _ _)) by done.
Qed.

Lemma read_exact_run path d f :
  file_at d path = Some f →
  map_err read_failure (read_exact_anchor path) {| w_disk := d; w_oracle := [] |} =
  (Some (if (blen (content f) =? ANCHOR_BYTES)%N then Ok (content f) else Err Format),
   {| w_disk := d; w_oracle := [] |}).
Proof.
  intros Hf. unfold map_err, read_exact_anchor, ptry, pbind, open_file, file_length, read_file,
    syscall, no_effect. cbn. rewrite Hf. cbn. rewrite Hf. cbn.
  destruct (blen (content f) =? ANCHOR_BYTES)%N eqn:Hl; cbn; [|done].
  rewrite Hf. cbn. by rewrite Hl.
Qed.

(** Under any oracle, opening changes nothing and returns only a record that
    was published under the key. *)
Lemma open_expecting_wp path key min (Q : result AnchorError AnchorStore → disk → Prop)
    (C : disk → Prop) d :
  (∀ e, Q (Err e) d) → C d →
  (∀ f pa, file_at d path = Some f → content f = anchor_record sha256 key pa → anchor_wf pa →
     (min ≤ pa_epoch pa)%N → Q (Ok {| as_path := path; as_key := key; as_current := pa |}) d) →
  wp (open_expecting sha256 path key min) Q C d.
Proof using sha256_length.
  intros He HC Hok.
  enough (wp (ptry (map_err read_failure (read_exact_anchor path))
                (λ bytes, pret (accept_record path key min bytes))) Q C d) as H.
  { intros o. rewrite open_expecting_accept. apply H. }
  apply wp_try, wp_map_err. unfold read_exact_anchor.
  apply wp_try, wp_query; [|apply He|done].
  destruct (file_at d path) as [f|] eqn:Hf; [|apply He].
  apply wp_try, wp_query; [|apply He|done]. rewrite Hf.
  destruct (negb _); [apply wp_ret, He|].
  apply wp_try, wp_query; [|apply He|done]. rewrite Hf.
  destruct (negb _); [apply wp_ret, He|]. apply wp_ret, wp_ret.
  destruct (accept_record path key min (content f)) as [s|e] eqn:Ha; [|apply He].
  apply accept_record_ok in Ha as (pa & Hc & Hwf & Hm & ->). by eapply Hok.
Qed.

Lemma open_expecting_run path key min d f pa :
  file_at d path = Some f → content f = anchor_record sha256 key pa → anchor_wf pa →
  (min ≤ pa_epoch pa)%N →
  open_expecting sha256 path key min {| w_disk := d; w_oracle := [] |} =
  (Some (Ok {| as_path := path; as_key := key; as_current := pa |}),
   {| w_disk := d; w_oracle := [] |}).
Proof using sha256_length.
  intros Hf Hc Hwf Hm. rewrite open_expecting_accept. unfold ptry, pbind.
  rewrite (read_exact_run _ _ _ Hf), Hc, (record_length key pa Hwf), N.eqb_refl.
  unfold pret. do 2 f_equal. apply accept_record_ok. by exists pa.
Qed.

(** An anchor is accepted exactly when it was published.  Without I/O
    failures, opening a file under a key and an epoch witness succeeds exactly
    when the file holds the record of a well-formed anchor authenticated under
    that key and not older than the witness, and returns that anchor. *)
Theorem anchor_open_exact path key min d f store :
  file_at d path = Some f →
  (open_expecting sha256 path key min {| w_disk := d; w_oracle := [] |}).1 = Some (Ok store) ↔
  ∃ pa, content f = anchor_record sha256 key pa ∧ anchor_wf pa ∧ (min ≤ pa_epoch pa)%N ∧
        store = {| as_path := path; as_key := key; as_current := pa |}.
Proof using sha256_length.
  intros Hf. rewrite open_expecting_accept. unfold ptry, pbind. rewrite (read_exact_run _ _ _ Hf).
  rewrite <-(accept_record_ok path key min (content f) store).
  destruct (blen (content f) =? ANCHOR_BYTES)%N eqn:Hl; cbn.
  { split; [by intros [= H]|by intros ->]. }
  split; [done|]. intros H. apply accept_record_ok in H as (pa & Hc & Hwf & _).
  rewrite Hc, record_length, N.eqb_refl in Hl by done. done.
Qed.
End AnchorFacts.

(** ** Publishing *)

(** Only the scratch file of [path] may differ. *)
Definition scratched (path : string) (d d' : disk) : Prop :=
  ∀ n, n ≠ scratch_path path → entry_at d' n = entry_at d n.
(** Besides, [path] resolves to a durable file with these bytes; until the
    directory is synchronized it may revert. *)
Definition renamed (path : string) (bytes : list byte) (d d' : disk) : Prop :=
  entry_at d' path = {| en_file := Some (durable_file bytes);
                        en_reverts := file_at d path :: en_reverts (entry_at d path) |} ∧
  ∀ n, n ≠ path → n ≠ scratch_path path → entry_at d' n = entry_at d n.
Definition installed (path : string) (bytes : list byte) (d d' : disk) : Prop :=
  entry_at d' path = {| en_file := Some (durable_file bytes); en_reverts := [] |} ∧
  ∀ n, n ≠ path → n ≠ scratch_path path →
    entry_at d' n = {| en_file := file_at d n; en_reverts := [] |}.

Lemma scratch_ne path : path ≠ scratch_path path.
Proof.
  intros H. apply (f_equal String.length) in H. unfold scratch_path in H.
  rewrite string_length_app in H. cbn in H. lia.
Qed.

Lemma scratched_refl path d : scratched path d d.
Proof. done. Qed.
Lemma scratched_update path d d' g :
  scratched path d d' → scratched path d (update (scratch_path path) g d').
Proof. intros H n Hn. rewrite entry_at_update, bool_decide_eq_false_2 by done. by apply H. Qed.
Lemma scratched_rebind path d d' f :
  scratched path d d' → scratched path d (rebind (scratch_path path) f d').
Proof. intros H n Hn. rewrite entry_at_rebind, bool_decide_eq_false_2 by done. by apply H. Qed.

Lemma renamed_intro path bytes d d' :
  scratched path d d' → file_at d' (scratch_path path) = Some (durable_file bytes) →
  renamed path bytes d
    (rebind (scratch_path path) None (rebind path (file_at d' (scratch_path path)) d')).
Proof.
  intros H Hf. pose proof (scratch_ne path) as Hne. split.
  - rewrite entry_at_rebind, bool_decide_eq_false_2 by done.
    rewrite entry_at_rebind, bool_decide_eq_true_2, Hf by done.
    unfold file_at. by rewrite (H path Hne).
  - intros n Hn1 Hn2. rewrite !entry_at_rebind, !bool_decide_eq_false_2 by done. by apply H.
Qed.

Lemma installed_intro path bytes d d' :
  renamed path bytes d d' → installed path bytes d (sync_directory d').
Proof.
  intros [Hp Ho]. split.
  - rewrite entry_at_sync. unfold file_at. by rewrite Hp.
  - intros n H1 H2. rewrite entry_at_sync. unfold file_at. by rewrite (Ho n H1 H2).
Qed.

Lemma write_atomically_wp path bytes (Q : result fault unit → disk → Prop) (C : disk → Prop) d :
  (∀ d', scratched path d d' ∨ renamed path bytes d d' → C d' ∧ ∀ e, Q (Err e) d') →
  (∀ d', installed path bytes d d' → Q (Ok tt) d') →
  wp (write_atomically path bytes) Q C d.
Proof.
  intros Hpart Hdone. set (s := scratch_path path).
  assert (∀ d', scratched path d d' → Q (Err (os_error Other)) d' ∧ C d') as Hs
    by (intros d' H; destruct (Hpart d' (or_introl H)); auto).
  assert (∀ d', renamed path bytes d d' → Q (Err (os_error Other)) d' ∧ C d') as Hr
    by (intros d' H; destruct (Hpart d' (or_intror H)); auto).
  unfold write_atomically. fold s.
  set (d1 := rebind s (Some new_file) d). assert (scratched path d d1) as H1
    by by apply scratched_rebind, scratched_refl.
  apply wp_try, wp_atomic; [|intros d' [->| ->]; apply Hs; done]. fold d1.
  apply wp_try, wp_syscall; [|intros n; by apply Hs, scratched_update].
  set (d2 := update s _ d1). assert (scratched path d d2) as H2 by by apply scratched_update.
  apply wp_try, wp_syscall; [|intros n; by apply Hs].
  set (d3 := update s _ d2). assert (scratched path d d3) as H3 by by apply scratched_update.
  assert (file_at d3 s = Some (durable_file bytes)) as Hf.
  { unfold d3, d2, d1, file_at at 1. rewrite entry_at_update, bool_decide_eq_true_2 by done. cbn.
    unfold file_at at 1. rewrite entry_at_update, bool_decide_eq_true_2 by done. cbn.
    unfold file_at at 1. by rewrite entry_at_rebind, bool_decide_eq_true_2 by done. }
  pose proof (renamed_intro path bytes d d3 H3 Hf) as H4. fold s in H4.
  apply wp_try, wp_atomic; [|intros d' [->| ->]; [by apply Hs|by apply Hr]].
  set (d4 := rebind s None _) in *. unfold sync_parent.
  apply wp_try, wp_query; [|by apply Hr..].
  apply wp_syscall; [by apply Hdone, installed_intro|]. intros n. by apply Hr.
Qed.

(** ** Transitions *)
Section transitions.
Context (sha256 : list byte → list byte).

(** [next] may replace [current]. *)
Record anchor_follows (current next : ProtectedAnchor) : Prop := {
  af_epoch : (pa_epoch current < pa_epoch next)%N;
  af_index : (la_index (pa_log current) ≤ la_index (pa_log next))%N;
  af_digest : la_index (pa_log next) = la_index (pa_log current) →
              la_digest (pa_log next) = la_digest (pa_log current);
  af_origin : origin_is_set (pa_origin current) = true → pa_origin next = pa_origin current;
  af_self : check_self sha256 next = Ok tt
}.

Lemma check_successor_spec current next :
  check_successor sha256 current next = Ok tt ↔ anchor_follows current next.
Proof.
  unfold check_successor. split.
  - intros H. apply rbind_ok_inv in H as ([] & Hs & H).
    destruct (_ || _) eqn:H1 in H; [done|]. destruct (_ && _) eqn:H2 in H; [done|].
    destruct (negb _ && _) eqn:H3 in H; [done|]. bool_prop.
    split; [done|done| | |done].
    + intros Hi. rewrite Hi, N.eqb_refl in H2. cbn in H2. bool_prop. done.
    + intros Ho. rewrite Ho, andb_true_r in H3. bool_prop. done.
  - intros [He Hi Hd Ho Hs]. rewrite Hs. cbn [rbind].
    rewrite (proj2 (N.leb_gt _ _)), (proj2 (N.ltb_ge _ _)) by done. cbn [orb].
    destruct (_ =? _)%N eqn:Heq.
    + bool_prop. rewrite bool_decide_eq_true_2 by auto. cbn [negb andb].
      destruct (origin_is_set _) eqn:Hset; [|by rewrite andb_false_r].
      by rewrite bool_decide_eq_true_2 by auto.
    + cbn [andb]. destruct (origin_is_set _) eqn:Hset; [|by rewrite andb_false_r].
      by rewrite bool_decide_eq_true_2 by auto.
Qed.

Lemma commit_wp s next (Q : result AnchorError ProtectedAnchor * AnchorStore → disk → Prop)
    (C : disk → Prop) d :
  let bytes := anchor_record sha256 (as_key s) next in
  (∀ e, Q (Err e, s) d) →
  (anchor_follows (as_current s) next → ∀ d',
     scratched (as_path s) d d' ∨ renamed (as_path s) bytes d d' → C d' ∧ ∀ e, Q (Err e, s) d') →
  (anchor_follows (as_current s) next → ∀ d', installed (as_path s) bytes d d' →
     Q (Ok next, {| as_path := as_path s; as_key := as_key s; as_current := next |}) d') →
  wp (commit sha256 s next) Q C d.
Proof.
  intros bytes He Hpart Hdone. unfold commit.
  destruct (check_successor _ _ _) as [[]|e] eqn:Hc; [|apply wp_ret, He].
  apply check_successor_spec in Hc. apply wp_bind, wp_map_err, write_atomically_wp.
  - intros d' Hd'. destruct (Hpart Hc d' Hd') as [HC HQ]. split; [done|].
    intros _. by apply wp_ret.
  - intros d' Hd'. by apply wp_ret, Hdone.
Qed.

(** The anchor that [acknowledge] tries to install. *)
Definition acknowledged_next (current : ProtectedAnchor) (log : LogAnchor) (origin : ChainOrigin) :
    ProtectedAnchor :=
  {| pa_epoch := pa_epoch current + 1; pa_log := log;
     pa_origin := if origin_is_set (pa_origin current) then pa_origin current else origin;
     pa_base := pa_base current |}.

Lemma acknowledge_wp s log origin (Q : result AnchorError ProtectedAnchor * AnchorStore → disk → Prop)
    (C : disk → Prop) d :
  let next := acknowledged_next (as_current s) log origin in
  let bytes := anchor_record sha256 (as_key s) next in
  let ready := (pa_epoch next < 2 ^ 64)%N ∧ anchor_follows (as_current s) next in
  (∀ e, Q (Err e, s) d) →
  (ready → ∀ d', scratched (as_path s) d d' ∨ renamed (as_path s) bytes d d' →
     C d' ∧ ∀ e, Q (Err e, s) d') →
  (ready → ∀ d', installed (as_path s) bytes d d' →
     Q (Ok next, {| as_path := as_path s; as_key := as_key s; as_current := next |}) d') →
  wp (acknowledge sha256 s log origin) Q C d.
Proof.
  intros next bytes ready He Hpart Hdone. unfold acknowledge, checked_add_u64.
  destruct (_ <? _)%N eqn:Hlt; [|apply wp_ret, He]. bool_prop.
  apply commit_wp; [done| |]; intros Hf; [apply Hpart|apply Hdone]; by split.
Qed.
End transitions.
