(* ===== verification/FileLedger.v ===== *)
(** * The durable log: crates/ptr-ledger/src/file.rs

    One log file with its in-memory image, the append path, and recovery of a
    log whose tail is not acknowledged.  The result types of
    crates/ptr-ledger/src/acknowledged.rs that recovery returns are here too.
    Locks are not modelled: a file has one holder throughout. *)

From S2P Require Import Prelude Bytes Types LedgerEvents LedgerChecks LedgerCodec LedgerCodecFacts.
From S2P Require Import LedgerEventFacts Integrity IntegrityLog Storage Anchor.
From stdpp Require Import options.

(** ** How a log relates to its anchor *)
Inductive Split :=
| Aligned
| Unacknowledged (complete_records : nat) (incomplete_frame : bool) (tail : LogAnchor)
| LostSuffix (acknowledged present : CommitIndex)
| Diverged
| SplitOriginMismatch
| SplitBaseMismatch.
#[export] Instance Split_eq_dec : EqDecision Split.
Proof. solve_decision. Defined.

Definition is_recoverable (s : Split) : bool :=
  match s with
  | Aligned | Unacknowledged _ _ _ => true
  | _ => false
  end.

Inductive TailPolicy := Acknowledge | Discard | Refuse.
#[export] Instance TailPolicy_eq_dec : EqDecision TailPolicy.
Proof. solve_decision. Defined.

Record TailRecovery := {
  tr_acknowledged_records : nat;
  tr_discarded_records : nat;
  tr_incomplete_frame_removed : bool;
  tr_trimmed_zero_tail_bytes : N;
  tr_tail : LogAnchor;
  tr_origin : option ChainOrigin
}.

(** The codes of [AcknowledgedError::Unrecoverable] and [TailRefused]. *)
Definition split_code (s : Split) : string :=
  match s with
  | LostSuffix _ _ => "PTR_ACK_LOST_SUFFIX"
  | Diverged => "PTR_ACK_DIVERGED"
  | SplitOriginMismatch => "PTR_ACK_ORIGIN_MISMATCH"
  | SplitBaseMismatch => "PTR_ACK_BASE_MISMATCH"
  | Aligned | Unacknowledged _ _ _ => "PTR_ACK_UNRECOVERABLE"
  end.
Definition unrecoverable (s : Split) : fault := Io (invalid (split_code s)).

(** ** The ledger *)
Record FileLedger := {
  fl_path : string;
  fl_events : list CommittedEvent;
  fl_anchor : LogAnchor;
  fl_base : LogAnchor;
  fl_length : N;
  (** The position of the handle. *)
  fl_cursor : N;
  fl_poisoned : bool
}.

Record RecoverableLog := {
  rl_path : string;
  rl_base : LogAnchor;
  rl_prefix : Prefix;
  rl_length : N
}.

Record LegacyLog := { ll_events : list CommittedEvent }.

Definition lock_existing (path : string) : prog (result fault unit) := open_file path.

(** [Read::take]: at most [n] bytes of the rest. *)
Definition limited (n : N) (bytes : list byte) : list byte :=
  take (N.to_nat (N.min n (blen bytes))) bytes.
Lemma limited_all n bytes : (blen bytes ≤ n)%N → limited n bytes = bytes.
Proof. intros H. unfold limited. rewrite N.min_r by done. unfold blen. by rewrite Nat2N.id, firstn_all. Qed.

(** The bytes, and the position the handle is left at when it was at [cursor]
    before.  A read that fails may have moved it further than the seek did. *)
Definition read_bounded_at (path : string) (cursor : N) : prog (result fault (list byte) * N) :=
  let* length := file_length path in
  match length with
  | Err e => pret (Err e, cursor)
  | Ok length =>
      if (MAX_LOG_BYTES <? length)%N then pret (refuse "PTR_LOG_SIZE_LIMIT", cursor) else
      let* sought := seek path in
      match sought with
      | Err e => pret (Err e, cursor)
      | Ok _ =>
          let* bytes := read_file path in
          match bytes with
          | Err e => pret (Err e, 0%N)
          | Ok bytes =>
              let bytes := limited (MAX_LOG_BYTES + 1) bytes in
              if (MAX_LOG_BYTES <? blen bytes)%N then pret (refuse "PTR_LOG_SIZE_LIMIT", blen bytes)
              else pret (Ok bytes, blen bytes)
          end
      end
  end.
Definition read_bounded (path : string) : prog (result fault (list byte)) :=
  let* (r, _) := read_bounded_at path 0 in pret r.

Definition from_verified_above (path : string) (verified : VerifiedLog) (length : N)
    (base : LogAnchor) : prog (result fault FileLedger) :=
  try* cursor := seek_end path in
  pret (Ok {| fl_path := path; fl_events := vl_events verified; fl_anchor := vl_anchor verified;
              fl_base := base; fl_length := length; fl_cursor := cursor; fl_poisoned := false |}).

Definition truncate_durably (path : string) (length : N) : prog (result fault unit) :=
  try* _ := set_len path length in
  sync path.

Definition fl_set_poisoned (p : bool) (l : FileLedger) : FileLedger :=
  {| fl_path := fl_path l; fl_events := fl_events l; fl_anchor := fl_anchor l;
     fl_base := fl_base l; fl_length := fl_length l; fl_cursor := fl_cursor l; fl_poisoned := p |}.
Definition fl_set_cursor (cursor : N) (l : FileLedger) : FileLedger :=
  {| fl_path := fl_path l; fl_events := fl_events l; fl_anchor := fl_anchor l;
     fl_base := fl_base l; fl_length := fl_length l; fl_cursor := cursor; fl_poisoned := fl_poisoned l |}.

Definition ledger_anchor (l : FileLedger) : result fault LogAnchor :=
  if fl_poisoned l
  then Err (Io {| io_kind := Other; io_source := Msg "PTR_LOG_INDETERMINATE" |})
  else Ok (fl_anchor l).

Definition retained_bytes (l : FileLedger) : prog (result fault (list byte) * FileLedger) :=
  let* (r, cursor) := read_bounded_at (fl_path l) (fl_cursor l) in
  match r with
  | Err e => pret (Err e, fl_set_cursor cursor l)
  | Ok bytes =>
      let* sought := seek_end (fl_path l) in
      match sought with
      | Err e => pret (Err e, fl_set_cursor cursor l)
      | Ok cursor => pret (Ok bytes, fl_set_cursor cursor l)
      end
  end.

Section FileLedger.
Context (sha256 : list byte → list byte).

Definition from_verified (path : string) (verified : VerifiedLog) (length : N) :
    prog (result fault FileLedger) :=
  from_verified_above path verified length (LogAnchor_empty sha256).

(** Write the magic to the file just created and adopt it. *)
Definition start_log (path : string) : prog (result fault FileLedger) :=
  try* _ := write_all path LOG_MAGIC in
  try* _ := sync path in
  try* _ := sync_parent in
  try* verified := plift (decode_log sha256 LOG_MAGIC) in
  from_verified path verified (blen LOG_MAGIC).

Definition file_open (path : string) : prog (result fault FileLedger) :=
  let* r := create_new_file path in
  match r with
  | Ok _ => start_log path
  | Err (Io {| io_kind := AlreadyExists; io_source := _ |}) =>
      try* _ := lock_existing path in
      try* bytes := read_bounded path in
      try* verified := plift (decode_log sha256 bytes) in
      from_verified path verified (blen bytes)
  | Err e => pret (Err e)
  end.

Definition create_new (path : string) : prog (result fault FileLedger) :=
  try* _ := create_new_file path in
  start_log path.

Definition lock_for_recovery (path : string) (base : LogAnchor) : prog (result fault RecoverableLog) :=
  try* _ := lock_existing path in
  try* bytes := read_bounded path in
  try* prefix := plift (scan_from sha256 bytes base) in
  pret (Ok {| rl_path := path; rl_base := base; rl_prefix := prefix; rl_length := blen bytes |}).

Definition open_at (path : string) (trusted : LogAnchor) : prog (result fault FileLedger) :=
  try* _ := lock_existing path in
  try* bytes := read_bounded path in
  try* verified := plift (decode_log sha256 bytes) in
  try* _ := plift (lift_io (require_anchor verified trusted)) in
  from_verified path verified (blen bytes).

Definition recover_unacknowledged_tail_reporting (path : string) (trusted : LogAnchor) :
    prog (result fault (FileLedger * N)) :=
  try* _ := lock_existing path in
  try* bytes := read_bounded path in
  try* prefix := plift (scan sha256 bytes) in
  try* _ := plift (lift_io (require_anchor (px_verified prefix) trusted)) in
  let trimmed := px_zero_tail prefix in
  try* _ := (if px_incomplete prefix then truncate_durably path (px_complete_bytes prefix)
             else pret (Ok tt)) in
  try* ledger := from_verified path (px_verified prefix) (px_complete_bytes prefix) in
  pret (Ok (ledger, trimmed)).

Definition create_from_log_above (path : string) (bytes : list byte) (base trusted : LogAnchor) :
    prog (result fault FileLedger) :=
  try* verified := plift (decode_log_from sha256 bytes base) in
  try* _ := plift (lift_io (require_anchor verified trusted)) in
  try* _ := create_new_file path in
  try* _ := write_all path bytes in
  try* _ := sync path in
  try* _ := sync_parent in
  from_verified_above path verified (blen bytes) base.

Definition create_from_log (path : string) (bytes : list byte) (trusted : LogAnchor) :
    prog (result fault FileLedger) :=
  create_from_log_above path bytes (LogAnchor_empty sha256) trusted.

Definition open_legacy_for_migration (path : string) : prog (result fault LegacyLog) :=
  try* _ := lock_existing path in
  try* bytes := read_bounded path in
  try* events := plift (decode_legacy_log bytes) in
  pret (Ok {| ll_events := events |}).

Definition derived_origin (l : FileLedger) : option ChainOrigin :=
  if negb (bool_decide (fl_base l = LogAnchor_empty sha256)) then None else
  first ← head (fl_events l);
  match encode_record sha256 (ce_event first) (LogAnchor_empty sha256) with
  | Ok (_, after) => Some (from_first_record (la_digest after))
  | Err _ => None
  end.

(** Append, synchronize and publish one record.  The ledger returned is the one
    the call leaves behind: poisoned from the first write until all is done (the
    position of a poisoned handle is not tracked: nothing is written with it). *)
Definition append_durable (event : LedgerEvent) (l : FileLedger) :
    prog (result fault CommitIndex * FileLedger) :=
  if fl_poisoned l
  then pret (Err (Io {| io_kind := Other; io_source := Msg "PTR_LOG_INDETERMINATE" |}), l) else
  match encode_record sha256 event (fl_anchor l) with
  | Err e => pret (Err e, l)
  | Ok (frame, anchor) =>
      let new_length := (fl_length l + blen frame)%N in
      if (MAX_LOG_BYTES <? new_length)%N then pret (refuse "PTR_LOG_SIZE_LIMIT", l) else
      let poisoned := fl_set_poisoned true l in
      let* length := file_length (fl_path l) in
      match length with
      | Err e => pret (Err e, l)
      | Ok length =>
          if negb (length =? fl_length l)%N
          then pret (refuse "PTR_LOG_EXTERNAL_LENGTH_CHANGE", poisoned) else
          let* written :=
            (let header := take (N.to_nat FRAME_HEADER_BYTES) frame in
             try* _ := write_at (fl_path l) (fl_cursor l) header in
             try* _ := write_at (fl_path l) (fl_cursor l + blen header)
                         (drop (N.to_nat FRAME_HEADER_BYTES) frame) in
             try* _ := flush (fl_path l) in
             sync (fl_path l)) in
          match written with
          | Err e => pret (Err e, poisoned)
          | Ok _ =>
              pret (Ok (la_index anchor),
                    {| fl_path := fl_path l;
                       fl_events := fl_events l ++
                         [{| ce_index := la_index anchor; ce_event := event |}];
                       fl_anchor := anchor; fl_base := fl_base l; fl_length := new_length;
                       fl_cursor := fl_cursor l + blen frame; fl_poisoned := false |})
          end
      end
  end.

(** ** Recovery *)
Definition rl_tail (r : RecoverableLog) : LogAnchor := vl_anchor (px_verified (rl_prefix r)).
Definition has_incomplete_frame (r : RecoverableLog) : bool := px_incomplete (rl_prefix r).

Definition rl_derived_origin (r : RecoverableLog) : option ChainOrigin :=
  if negb (bool_decide (rl_base r = LogAnchor_empty sha256)) then None else
  m ← px_milestones (rl_prefix r) !! 1;
  Some (from_first_record (la_digest m.2)).

Definition classify (r : RecoverableLog) (anchor : ProtectedAnchor) : Split :=
  if negb (bool_decide (pa_base anchor = rl_base r)) then SplitBaseMismatch else
  if match rl_derived_origin r with
     | Some derived => origin_is_set (pa_origin anchor) && negb (bool_decide (derived = pa_origin anchor))
     | None => false
     end then SplitOriginMismatch else
  match records_after (rl_prefix r) (pa_log anchor) with
  | Some complete_records =>
      if (complete_records =? 0)%nat && negb (px_incomplete (rl_prefix r)) then Aligned
      else Unacknowledged complete_records (px_incomplete (rl_prefix r)) (rl_tail r)
  | None =>
      if (la_index (rl_tail r) <? la_index (pa_log anchor))%N
      then LostSuffix (la_index (pa_log anchor)) (la_index (rl_tail r))
      else Diverged
  end.

Definition repair (r : RecoverableLog) (anchor : ProtectedAnchor) (policy : TailPolicy) :
    prog (result fault (FileLedger * TailRecovery)) :=
  try* (complete_records, incomplete_frame) := plift
    match classify r anchor with
    | Aligned => Ok (0%nat, false)
    | Unacknowledged complete_records incomplete_frame _ => Ok (complete_records, incomplete_frame)
    | split => Err (unrecoverable split)
    end in
  if bool_decide (policy = Refuse) && ((0 <? complete_records)%nat || incomplete_frame)
  then pret (refuse "PTR_ACK_TAIL_REFUSED") else
  let discard := bool_decide (policy = Discard) && (0 <? complete_records)%nat in
  let target := if discard then pa_log anchor else rl_tail r in
  try* keep_bytes := plift
    (if discard then ok_or (offset_of (rl_prefix r) (pa_log anchor)) (unrecoverable Diverged)
     else Ok (px_complete_bytes (rl_prefix r))) in
  try* _ := (if negb (keep_bytes =? rl_length r)%N then truncate_durably (rl_path r) keep_bytes
             else pret (Ok tt)) in
  let keep_events := N.to_nat (la_index target - la_index (rl_base r)) in
  let verified := {| vl_events := take keep_events (vl_events (px_verified (rl_prefix r)));
                     vl_anchor := target |} in
  try* ledger := from_verified_above (rl_path r) verified keep_bytes (rl_base r) in
  pret (Ok (ledger,
    {| tr_acknowledged_records := if discard then 0 else complete_records;
       tr_discarded_records := if discard then complete_records else 0;
       tr_incomplete_frame_removed := incomplete_frame;
       tr_trimmed_zero_tail_bytes := px_zero_tail (rl_prefix r);
       tr_tail := target;
       tr_origin := derived_origin ledger |})).
End FileLedger.

(** * How recovery reads a log that is ahead of its anchor *)

Section RecoveryFacts.
Context (sha256 : list byte → list byte).
(** A SHA-256 digest has 32 bytes. *)
Context (sha256_length : ∀ x, length (sha256 x) = 32).

Abbreviation chain := (chain sha256).

(** What may follow the last complete record of a log: nothing, zeros, or the
    beginning of the next frame. *)
Definition torn (records : N) (a : LogAnchor) (tail : list byte) : Prop :=
  tail = [] ∨
  ((records < MAX_RECORDS)%N ∧
   (Forall (λ b, b = x00) tail ∨
    ∃ r p k, recorded sha256 a r p ∧ tail = take k (lr_frame r) ∧ 0 < k < length (lr_frame r))).

(** The bytes of a log that starts above [a0] with the records [rs]. *)
Record log_image (a0 : LogAnchor) (rs : list logrec) (tail bytes : list byte) : Prop := {
  li_bytes : bytes = LOG_MAGIC ++ log_bytes rs ++ tail;
  li_chain : chain a0 rs;
  li_count : (blen rs ≤ MAX_RECORDS)%N;
  li_size : (blen bytes ≤ MAX_LOG_BYTES)%N;
  li_tail : torn (blen rs) (end_anchor a0 rs) tail
}.

(** The scan of such a log. *)
Definition image_prefix (a0 : LogAnchor) (rs : list logrec) (tail : list byte) (zeros : N) : Prefix :=
  {| px_verified := {| vl_events := lr_event <$> rs; vl_anchor := end_anchor a0 rs |};
     px_complete_bytes := 8 + blen (log_bytes rs);
     px_incomplete := negb (bool_decide (tail = []));
     px_zero_tail := zeros;
     px_milestones := (8%N, a0) :: marks 8 rs |}.

Lemma scan_image a0 rs tail bytes :
  anchor_ok a0 → log_image a0 rs tail bytes →
  ∃ zeros, scan_from sha256 bytes a0 = Ok (image_prefix a0 rs tail zeros).
Proof using sha256_length.
  intros Ha [-> Hc Hm Hb Ht].
  destruct (scan_from_chain sha256 sha256_length a0 rs tail) as (fuel & Hf & ->); [done..|].
  destruct tail as [|b tail]; [exists 0%N; by destruct fuel|].
  destruct fuel as [|fuel]; [simpl in Hf; lia|]. cbn [scan_loop].
  assert (blen (lr_event <$> rs) = blen rs) as Hlen by (unfold blen; by rewrite length_fmap).
  destruct Ht as [|[Hlt [Hz|(r & p & k & Hr & Hk & Hk1 & Hk2)]]]; [done| |].
  - exists (blen (b :: tail)). unfold scan_step.
    rewrite Hlen, (proj2 (N.leb_gt _ _)) by done.
    assert (forallb (λ b, bool_decide (b = x00)) (b :: tail) = true) as ->; [|done].
    apply Forall_forallb. eapply Forall_impl; [exact Hz|]. intros x ->. by apply bool_decide_eq_true.
  - exists 0%N. assert (anchor_ok (end_anchor a0 rs)) as Hok by by eapply end_anchor_ok.
    pose proof (scan_step_frame _ sha256_length _ r p Hok Hr (blen rs) k []) as Hs.
    rewrite app_nil_r, <-Hk in Hs.
    rewrite (proj2 (N.ltb_lt _ _)) in Hs.
    2:{ rewrite Hk. unfold blen. rewrite length_take. lia. }
    rewrite Hlen, Hs by lia. done.
Qed.

(** ** Milestones *)
Lemma marks_lookup a rs : ∀ off i,
  i < length rs →
  marks off rs !! i =
  Some ((off + blen (log_bytes (take (S i) rs)))%N, end_anchor a (take (S i) rs)).
Proof.
  revert a. induction rs as [|r rs IH]; intros a off i Hi; [simpl in Hi; lia|].
  destruct i as [|i]; cbn [marks lookup list_lookup take end_anchor].
  - rewrite take_0. unfold log_bytes. cbn. by rewrite app_nil_r.
  - rewrite log_bytes_cons, blen_app, N.add_assoc. apply (IH (lr_anchor r)). simpl in Hi. lia.
Qed.

Lemma milestones_lookup a0 rs i :
  i ≤ length rs →
  ((8%N, a0) :: marks 8 rs) !! i =
  Some ((8 + blen (log_bytes (take i rs)))%N, end_anchor a0 (take i rs)).
Proof. intros Hi. destruct i as [|i]; [done|]. cbn [lookup list_lookup]. by apply marks_lookup. Qed.

Lemma marks_length off rs : length (marks off rs) = length rs.
Proof. revert off. induction rs as [|r rs IH]; intros off; cbn; [done|]. by rewrite IH. Qed.

(** The anchor of a position occurs there and nowhere before. *)
Lemma find_position a0 rs n :
  chain a0 rs → n ≤ length rs →
  list_find (λ m : N * LogAnchor, m.2 = end_anchor a0 (take n rs)) ((8%N, a0) :: marks 8 rs) =
  Some (n, ((8 + blen (log_bytes (take n rs)))%N, end_anchor a0 (take n rs))).
Proof.
  intros Hc Hn. apply list_find_Some. split_and!; [by apply milestones_lookup|done|].
  intros j y Hj Hlt. cbn. rewrite milestones_lookup in Hj by lia. injection Hj as <-. cbn.
  intros He. apply (f_equal la_index) in He.
  rewrite !(end_anchor_index sha256) in He by by apply chain_take.
  unfold blen in He. rewrite !length_take in He. lia.
Qed.

Lemma records_after_position a0 rs n tail zeros :
  chain a0 rs → n ≤ length rs →
  records_after (image_prefix a0 rs tail zeros) (end_anchor a0 (take n rs)) = Some (length rs - n).
Proof.
  intros Hc Hn. unfold records_after. cbn [px_milestones image_prefix].
  rewrite (find_position a0 rs n Hc Hn). cbn [fmap option_fmap option_map fst mbind option_bind].
  f_equal. cbn [length]. rewrite marks_length. lia.
Qed.

Lemma find_list_find {A} (P : A → Prop) `{!∀ x, Decision (P x)} l :
  find (λ x, bool_decide (P x)) l = snd <$> list_find P l.
Proof.
  induction l as [|x l IH]; [done|]. cbn. destruct (decide (P x)) as [Hp|Hp].
  - by rewrite bool_decide_eq_true_2.
  - rewrite bool_decide_eq_false_2 by done. rewrite IH. by destruct (list_find P l).
Qed.

Lemma offset_of_position a0 rs n tail zeros :
  chain a0 rs → n ≤ length rs →
  offset_of (image_prefix a0 rs tail zeros) (end_anchor a0 (take n rs)) =
  Some (8 + blen (log_bytes (take n rs)))%N.
Proof.
  intros Hc Hn. unfold offset_of. cbn [px_milestones image_prefix].
  by rewrite (find_list_find (λ m : N * LogAnchor, m.2 = end_anchor a0 (take n rs))),
    (find_position a0 rs n Hc Hn).
Qed.
End RecoveryFacts.

(** ** Reading a log through its handle *)
Lemma read_bounded_at_wp path cursor (Q : result fault (list byte) * N → disk → Prop) (C : disk → Prop) d f :
  file_at d path = Some f → (blen (content f) ≤ MAX_LOG_BYTES)%N →
  (∀ e c, Q (Err e, c) d) → C d → Q (Ok (content f), blen (content f)) d →
  wp (read_bounded_at path cursor) Q C d.
Proof.
  intros Hf Hb He HC Hok. unfold read_bounded_at.
  apply wp_bind, wp_query; [|apply wp_ret, He|done]. rewrite Hf, (proj2 (N.ltb_ge _ _)) by done.
  apply wp_bind, wp_query; [|apply wp_ret, He|done].
  apply wp_bind, wp_query; [|apply wp_ret, He|done]. rewrite Hf, limited_all by lia.
  rewrite (proj2 (N.ltb_ge _ _)) by done. by apply wp_ret.
Qed.

Lemma read_bounded_run path d f :
  file_at d path = Some f → (blen (content f) ≤ MAX_LOG_BYTES)%N →
  runs (read_bounded path) d (Ok (content f)) d.
Proof.
  intros Hf Hb. unfold read_bounded, read_bounded_at.
  apply runs_bind with (Ok (content f), blen (content f)) d; [|apply runs_ret].
  eapply runs_bind; [apply runs_query; cbn beta; by rewrite Hf|].
  cbn beta iota. rewrite (proj2 (N.ltb_ge _ _)) by done. eapply runs_bind; [by apply runs_query|].
  cbn beta iota. eapply runs_bind; [apply runs_query; cbn beta; by rewrite Hf|].
  cbn beta iota. rewrite limited_all by lia. rewrite (proj2 (N.ltb_ge _ _)) by done. apply runs_ret.
Qed.
