(* ===== verification/Compaction.v ===== *)
(** * Log names and compaction plans: crates/ptr-ledger/src/compaction.rs

    Every log of a set carries its compaction floor in its name, and only the
    anchor says which one is live. *)

From S2P Require Import Prelude Bytes Text Types LedgerEvents LedgerChecks LedgerCodec Ledger.
From S2P Require Import Integrity Storage Anchor.
From stdpp Require Import options.

Definition LOG_SUFFIX : string := ".log".
Definition ANCHOR_SUFFIX : string := ".anchor".

(** The directory is the disk; a set is its stem. *)
Record LogPaths := { lp_stem : string }.

Definition anchor_path (p : LogPaths) : string := lp_stem p +:+ ANCHOR_SUFFIX.
Definition log_path (p : LogPaths) (base : CommitIndex) : string :=
  lp_stem p +:+ "-" +:+ padded 20 base +:+ LOG_SUFFIX.

(** The floor that the name of a log of this set carries. *)
Definition floor_of_name (p : LogPaths) (name : string) : option N :=
  rest ← strip_prefix (lp_stem p +:+ "-") name;
  floor ← strip_suffix LOG_SUFFIX rest;
  parse_u64 floor.

Definition is_orphan (p : LogPaths) (live_base : CommitIndex) (name : string) : bool :=
  match floor_of_name p name with
  | Some base => bool_decide (log_path p base = name) && negb (bool_decide (name = log_path p live_base))
  | None => false
  end.

(** The names in the directory, sorted. *)
Definition directory (d : disk) : list string :=
  bset_list (dom (filter (λ kv, is_Some (en_file kv.2)) d)).
Definition orphans (p : LogPaths) (live_base : CommitIndex) : prog (result fault (list string)) :=
  syscall no_effect (λ d, Ok (filter (λ name, is_orphan p live_base name = true) (directory d))).

(** ** Plans *)
Record RetentionPolicy := { rp_keep_records : N }.

Record CompactionPlan := {
  cp_base : LogAnchor;
  cp_tail : LogAnchor;
  cp_discarded_records : N;
  cp_retained_records : N
}.

Inductive CompactionDecision :=
| Retain
| Blocked (barrier : CompactionBarrier)
| Compact (plan : CompactionPlan).

Record CompactionOutcome := {
  co_plan : CompactionPlan;
  co_live_log : string;
  co_superseded_log : string
}.

Inductive CompactionFault :=
| FloorNotAdvancing
| FloorAboveTail
| FloorNotOnBoundary
| StalePlan
| DestinationExists.

(** * Log names are told apart, and an orphan is a log of its own set *)

Section names.
Context (p : LogPaths).

Lemma log_path_length b : String.length (log_path p b) = String.length (lp_stem p) + 25.
Proof. unfold log_path. rewrite !string_length_app, padded_length. cbn. lia. Qed.
Lemma anchor_path_length : String.length (anchor_path p) = String.length (lp_stem p) + 7.
Proof. unfold anchor_path. by rewrite string_length_app. Qed.
Lemma scratch_path_length :
  String.length (scratch_path (anchor_path p)) = String.length (lp_stem p) + 18.
Proof. unfold scratch_path. rewrite string_length_app, anchor_path_length. cbn. lia. Qed.

Lemma log_path_anchor b : log_path p b ≠ anchor_path p.
Proof.
  intros H. apply (f_equal String.length) in H. rewrite log_path_length, anchor_path_length in H. lia.
Qed.
Lemma log_path_scratch b : log_path p b ≠ scratch_path (anchor_path p).
Proof.
  intros H. apply (f_equal String.length) in H. rewrite log_path_length, scratch_path_length in H. lia.
Qed.

Lemma log_path_inj b b' :
  (b < 2 ^ 64)%N → (b' < 2 ^ 64)%N → log_path p b = log_path p b' → b = b'.
Proof.
  intros Hb Hb' H. unfold log_path in H.
  apply string_app_inj in H as [_ H]; [|done]. apply string_app_inj in H as [_ H]; [|done].
  apply string_app_inj in H as [H _]; [|by rewrite !padded_length].
  apply (padded_inj 20); [| |done]; change (10 ^ N.of_nat 20)%N with 100000000000000000000%N; lia.
Qed.
End names.

(** ** Reading a name back *)
Lemma floor_of_log_path p b : (b < 2 ^ 64)%N → floor_of_name p (log_path p b) = Some b.
Proof.
  intros Hb. unfold floor_of_name, log_path. rewrite <-string_app_assoc, strip_prefix_app. cbn [mbind option_bind].
  rewrite strip_suffix_app. cbn [mbind option_bind]. by apply parse_u64_padded.
Qed.

Lemma is_orphan_spec p live name :
  (live < 2 ^ 64)%N →
  is_orphan p live name = true ↔ ∃ b, (b < 2 ^ 64)%N ∧ b ≠ live ∧ name = log_path p b.
Proof.
  intros Hl. unfold is_orphan. split.
  - destruct (floor_of_name p name) as [b|] eqn:Hf; [|done]. intros H. apply andb_true_iff in H as [H1 H2].
    apply bool_decide_eq_true in H1. apply negb_true_iff, bool_decide_eq_false in H2.
    exists b. split_and!; [|by intros ->|done]. unfold floor_of_name in Hf.
    destruct (strip_prefix _ _) as [rest|]; [|done]. cbn [mbind option_bind] in Hf.
    destruct (strip_suffix _ _); [|done].
    by eapply parse_u64_fits.
  - intros (b & Hb & Hne & ->). rewrite floor_of_log_path, bool_decide_eq_true_2 by done. cbn [andb].
    rewrite bool_decide_eq_false_2; [done|]. by intros Heq%log_path_inj.
Qed.

Lemma elem_of_directory d name : name ∈ directory d ↔ is_Some (file_at d name).
Proof.
  unfold directory. rewrite elem_of_bset_list, elem_of_dom. unfold file_at, entry_at.
  split.
  - intros [e He]. apply map_lookup_filter_Some in He as [He Hs]. by rewrite He.
  - destruct (d !! name) as [e|] eqn:He; [|by intros [? ?]]. cbn. intros Hs. exists e.
    by apply map_lookup_filter_Some.
Qed.

(** The orphans of a set are exactly the other logs of that set: the files in
    the directory whose name this set gives to some floor, the live floor
    excepted.  No log of another set is among them, whatever the stems, and
    neither is the live log, the anchor, or a file with any other name. *)
Theorem orphans_exact p live d name :
  (live < 2 ^ 64)%N →
  (∃ found, (orphans p live {| w_disk := d; w_oracle := [] |}).1 = Some (Ok found) ∧ name ∈ found) ↔
  is_Some (file_at d name) ∧ ∃ b, (b < 2 ^ 64)%N ∧ b ≠ live ∧ name = log_path p b.
Proof.
  intros Hl. rewrite <-is_orphan_spec, <-elem_of_directory by done. unfold orphans, syscall. cbn [w_oracle fst].
  split.
  - intros (found & [= <-] & H). by apply list_elem_of_filter in H as [? ?].
  - intros [? ?]. eexists. split; [done|]. by apply list_elem_of_filter.
Qed.
Lemma orphans_exact_witness :
  let p := {| lp_stem := "j" |} in
  let d := rebind (log_path p 4) (Some new_file) ∅ in
  (3 < 2 ^ 64)%N ∧
  ∃ found, (orphans p 3 {| w_disk := d; w_oracle := [] |}).1 = Some (Ok found) ∧ log_path p 4 ∈ found.
Proof.
  split; [done|]. apply (orphans_exact _ 3 _ (log_path {| lp_stem := "j" |} 4)); [done|].
  split; [vm_compute; by eexists|]. by exists 4%N.
Defined.
