(* ===== verification/Acknowledged.v ===== *)
(** * The acknowledged ledger: crates/ptr-ledger/src/acknowledged.rs

    A durable log paired with the anchor that says how far it is acknowledged. *)

From S2P Require Import Prelude Bytes Types LedgerEvents LedgerChecks LedgerCodec LedgerCodecFacts.
From S2P Require Import LedgerEventFacts Ledger Integrity IntegrityLog Storage Anchor FileLedger.
From S2P Require Import Compaction.
From stdpp Require Import options.

Inductive AcknowledgedError :=
| AckAnchor (error : AnchorError)
| AckLog (diagnostic : fault)
| AckUnrecoverable (split : Split)
| AckTailRefused (complete_records : nat) (incomplete_frame : bool)
| AckFenced
| AckCompaction (fault : CompactionFault).

Definition CompactionFault_code (f : CompactionFault) : string :=
  match f with
  | FloorNotAdvancing => "PTR_COMPACT_FLOOR_NOT_ADVANCING"
  | FloorAboveTail => "PTR_COMPACT_FLOOR_ABOVE_TAIL"
  | FloorNotOnBoundary => "PTR_COMPACT_FLOOR_NOT_ON_BOUNDARY"
  | StalePlan => "PTR_COMPACT_STALE_PLAN"
  | DestinationExists => "PTR_COMPACT_DESTINATION_EXISTS"
  end.
Definition AcknowledgedError_code (e : AcknowledgedError) : string :=
  match e with
  | AckAnchor error => AnchorError_code error
  | AckLog _ => "PTR_ACK_LOG"
  | AckUnrecoverable split => split_code split
  | AckTailRefused _ _ => "PTR_ACK_TAIL_REFUSED"
  | AckFenced => "PTR_ACK_FENCED"
  | AckCompaction f => CompactionFault_code f
  end.

Record AcknowledgedLedger := {
  al_log : FileLedger;
  al_anchors : AnchorStore;
  al_paths : LogPaths;
  al_fenced : bool;
  al_recovery : option TailRecovery
}.

Definition al_set (log : FileLedger) (anchors : AnchorStore) (fenced : bool)
    (l : AcknowledgedLedger) : AcknowledgedLedger :=
  {| al_log := log; al_anchors := anchors; al_paths := al_paths l; al_fenced := fenced;
     al_recovery := al_recovery l |}.

Abbreviation ack_result := (result AcknowledgedError).
Definition of_log {A} (m : prog (result fault A)) : prog (ack_result A) := map_err AckLog m.
Definition of_anchor {A} (m : prog (result AnchorError A)) : prog (ack_result A) :=
  map_err AckAnchor m.
Definition log_err {A} (r : result fault A) : ack_result A :=
  match r with
  | Ok a => Ok a
  | Err e => Err (AckLog e)
  end.

Section Acknowledged.
Context (sha256 : list byte → list byte).

Definition ack_create (paths : LogPaths) (key : AnchorKey) : prog (ack_result AcknowledgedLedger) :=
  let* found := exists_path (anchor_path paths) in
  if (found : bool) then pret (Err (AckAnchor Exists)) else
  try* log := of_log (create_new sha256 (log_path paths 0)) in
  try* anchors := of_anchor (initialize sha256 (anchor_path paths) key (anchor_initial sha256)) in
  pret (Ok {| al_log := log; al_anchors := anchors; al_paths := paths; al_fenced := false;
              al_recovery := None |}).

Definition ack_inspect (paths : LogPaths) (key : AnchorKey) (minimum_epoch : N) :
    prog (ack_result (Split * ProtectedAnchor)) :=
  try* anchors := of_anchor (open_expecting sha256 (anchor_path paths) key minimum_epoch) in
  let anchor := as_current anchors in
  try* locked := of_log (lock_for_recovery sha256 (log_path paths (la_index (pa_base anchor)))
                           (pa_base anchor)) in
  pret (Ok (classify sha256 locked anchor, anchor)).

Definition ack_open (paths : LogPaths) (key : AnchorKey) (minimum_epoch : N) (policy : TailPolicy) :
    prog (ack_result (AcknowledgedLedger * Split)) :=
  try* anchors := of_anchor (open_expecting sha256 (anchor_path paths) key minimum_epoch) in
  let anchor := as_current anchors in
  try* locked := of_log (lock_for_recovery sha256 (log_path paths (la_index (pa_base anchor)))
                           (pa_base anchor)) in
  let split := classify sha256 locked anchor in
  try* _ := plift
    match split with
    | Aligned => Ok tt
    | Unacknowledged complete_records incomplete_frame _ =>
        if bool_decide (policy = Refuse)
        then Err (AckTailRefused complete_records incomplete_frame) else Ok tt
    | fault => Err (AckUnrecoverable fault)
    end in
  try* (log, recovery) := of_log (repair sha256 locked anchor policy) in
  try* anchors :=
    (if negb (bool_decide (tr_tail recovery = pa_log anchor)) then
       let* (r, anchors) := acknowledge sha256 anchors (tr_tail recovery)
                              (default ORIGIN_UNSET (tr_origin recovery)) in
       pret (match r with
             | Ok _ => Ok anchors
             | Err e => Err (AckAnchor e)
             end)
     else pret (Ok anchors)) in
  pret (Ok ({| al_log := log; al_anchors := anchors; al_paths := paths; al_fenced := false;
               al_recovery := Some recovery |}, split)).

Definition append_acknowledged (event : LedgerEvent) (l : AcknowledgedLedger) :
    prog (ack_result CommitIndex * AcknowledgedLedger) :=
  if al_fenced l then pret (Err AckFenced, l) else
  let* (r, log) := append_durable sha256 event (al_log l) in
  let l1 := al_set log (al_anchors l) false l in
  match r with
  | Err e => pret (Err (AckLog e), l1)
  | Ok index =>
      match ledger_anchor log with
      | Err e => pret (Err (AckLog e), l1)
      | Ok tail =>
          let origin := derived_origin sha256 log in
          let* (r, anchors) := acknowledge sha256 (al_anchors l) tail (default ORIGIN_UNSET origin) in
          match r with
          | Err e => pret (Err (AckAnchor e), al_set log anchors true l)
          | Ok _ => pret (Ok index, al_set log anchors false l)
          end
      end
  end.

Definition ack_events (l : AcknowledgedLedger) : list CommittedEvent := fl_events (al_log l).
Definition ack_anchor (l : AcknowledgedLedger) : ProtectedAnchor := as_current (al_anchors l).
Definition ack_epoch (l : AcknowledgedLedger) : N := pa_epoch (ack_anchor l).

Definition plan_compaction (l : AcknowledgedLedger) (policy : RetentionPolicy)
    (barrier : CompactionBarrier) : ack_result CompactionDecision :=
  let anchor := ack_anchor l in
  let floor := la_index (pa_base anchor) in
  let tail := pa_log anchor in
  if (la_index tail - floor <=? rp_keep_records policy)%N then Ok Retain else
  if negb (barrier_safe barrier) then Ok (Blocked barrier) else
  let proposed := N.min (la_index tail - rp_keep_records policy) (cb_snapshot_covers barrier) in
  if (proposed <=? floor)%N then Ok (Blocked barrier) else
  let? anchors := log_err (chain_anchors sha256 (fl_events (al_log l)) (pa_base anchor)) in
  let offset := N.to_nat (proposed - floor) in
  let? base := ok_or (anchors !! (offset - 1)%nat) (AckCompaction FloorNotOnBoundary) in
  Ok (Compact {| cp_base := base; cp_tail := tail; cp_discarded_records := proposed - floor;
                 cp_retained_records := la_index tail - proposed |}).

(** The checks of [compact] that precede anything being built, and the events
    that stay. *)
Definition check_plan (l : AcknowledgedLedger) (plan : CompactionPlan) :
    ack_result (list CommittedEvent) :=
  if al_fenced l then Err AckFenced else
  let anchor := ack_anchor l in
  if negb (bool_decide (cp_tail plan = pa_log anchor)) then Err (AckCompaction StalePlan) else
  if (la_index (cp_base plan) <=? la_index (pa_base anchor))%N
  then Err (AckCompaction FloorNotAdvancing) else
  if (la_index (pa_log anchor) <? la_index (cp_base plan))%N
  then Err (AckCompaction FloorAboveTail) else
  let offset := N.to_nat (la_index (cp_base plan) - la_index (pa_base anchor)) in
  let? anchors := log_err (chain_anchors sha256 (fl_events (al_log l)) (pa_base anchor)) in
  if negb (bool_decide (anchors !! (offset - 1)%nat = Some (cp_base plan)))
  then Err (AckCompaction FloorNotOnBoundary) else
  Ok (drop offset (fl_events (al_log l))).

Definition compact (l : AcknowledgedLedger) (plan : CompactionPlan) :
    prog (ack_result CompactionOutcome * AcknowledgedLedger) :=
  let anchor := ack_anchor l in
  let live_log := log_path (al_paths l) (la_index (cp_base plan)) in
  let* built :=
    (try* retained := plift (check_plan l plan) in
     try* bytes := plift (log_err (encode_log_from sha256 retained (cp_base plan))) in
     let* found := exists_path live_log in
     if (found : bool) then pret (Err (AckCompaction DestinationExists)) else
     of_log (create_from_log_above sha256 live_log bytes (cp_base plan) (cp_tail plan))) in
  match built with
  | Err e => pret (Err e, l)
  | Ok compacted =>
      let* (r, anchors) := advance_compacted sha256 (al_anchors l) (cp_base plan) (cp_tail plan) in
      match r with
      | Err e => pret (Err (AckAnchor e), al_set (al_log l) anchors (al_fenced l) l)
      | Ok _ =>
          pret (Ok {| co_plan := plan; co_live_log := live_log;
                      co_superseded_log := log_path (al_paths l) (la_index (pa_base anchor)) |},
                al_set compacted anchors (al_fenced l) l)
      end
  end.

(** Remove the logs the anchor does not name, in order. *)
Fixpoint remove_all (names : list string) : prog (result fault unit) :=
  match names with
  | [] => pret (Ok tt)
  | name :: names => try* _ := remove_file name in remove_all names
  end.
Definition reclaim_orphans (l : AcknowledgedLedger) : prog (ack_result (list string)) :=
  let live := la_index (pa_base (ack_anchor l)) in
  try* found := of_log (orphans (al_paths l) live) in
  try* _ := of_log (remove_all found) in
  pret (Ok found).
End Acknowledged.

(** * The state of an acknowledged ledger on disk

    A history is a chain of records from the empty anchor.  [Covered P d]: every
    anchor that may be found on the disk [d], now or after a crash, commits to
    a history with [P], and every content its log may have holds that history,
    perhaps with further records and a torn tail. *)

Section AckFacts.
Context (sha256 : list byte → list byte).
(** A SHA-256 digest has 32 bytes. *)
Context (sha256_length : ∀ x, length (sha256 x) = 32).
Context (p : LogPaths) (key : AnchorKey).

Abbreviation chain := (chain sha256).
Abbreviation empty := (LogAnchor_empty sha256).
Abbreviation log_image := (log_image sha256).
Abbreviation anchor_name := (anchor_path p).
Abbreviation log_name b := (log_path p (N.of_nat b)).

(** ** Histories *)
Lemma empty_ok : anchor_ok empty.
Proof using sha256_length. unfold anchor_ok, blen. cbn. by rewrite sha256_length. Qed.

Definition floor_anchor (H : list logrec) (b : nat) : LogAnchor := end_anchor empty (take b H).

Lemma floor_index H b : chain empty H → b ≤ length H → la_index (floor_anchor H b) = N.of_nat b.
Proof.
  intros Hc Hb. unfold floor_anchor. rewrite (end_anchor_index sha256) by by apply chain_take.
  cbn. unfold blen. rewrite length_take. lia.
Qed.

Lemma floor_ok H b : chain empty H → anchor_ok (floor_anchor H b).
Proof using sha256_length.
  intros Hc. unfold floor_anchor. eapply end_anchor_ok; [done|apply empty_ok|by apply chain_take].
Qed.

Lemma chain_drop H b : chain empty H → chain (floor_anchor H b) (drop b H).
Proof. intros Hc. rewrite <-(take_drop b H) in Hc. by apply chain_app in Hc as [_ ?]. Qed.

Lemma end_floor H b : end_anchor (floor_anchor H b) (drop b H) = end_anchor empty H.
Proof. unfold floor_anchor. by rewrite <-end_anchor_app, take_drop. Qed.

Lemma chain_fits a rs : (la_index a < 2 ^ 64)%N → chain a rs → (la_index (end_anchor a rs) < 2 ^ 64)%N.
Proof.
  revert a. induction rs as [|r rs IH]; intros a Ha Hc; [done|].
  destruct Hc as [[q Hq] Hc]. apply IH; [|done]. rewrite (rc_anchor _ _ _ _ Hq).
  cbn [la_index]. pose proof (rc_index _ _ _ _ Hq) as Hi. unfold checked_add_u64 in Hi.
  destruct (_ <? _)%N eqn:Hlt; [|done]. bool_prop. injection Hi as <-. done.
Qed.

(** ** Anchors that commit to a history *)
Record anchored (pa : ProtectedAnchor) (H : list logrec) (b : nat) : Prop := {
  an_chain : chain empty H;
  an_floor : b ≤ length H;
  an_log : pa_log pa = end_anchor empty H;
  an_base : pa_base pa = floor_anchor H b;
  an_origin : pa_origin pa = ORIGIN_UNSET ∨
              ∃ r, head H = Some r ∧ pa_origin pa = la_digest (lr_anchor r);
  an_epoch : (pa_epoch pa < 2 ^ 64)%N
}.

Lemma floor_empty H b : chain empty H → b ≤ length H → floor_anchor H b = empty ↔ b = 0.
Proof.
  intros Hc Hb. split; [|by intros ->]. intros He. apply (f_equal la_index) in He.
  rewrite floor_index in He by done. cbn in He. lia.
Qed.

Lemma history_length H : chain empty H → la_index (end_anchor empty H) = blen H.
Proof. intros Hc. rewrite (end_anchor_index sha256) by done. done. Qed.

Lemma anchored_wf pa H b : anchored pa H b → anchor_wf sha256 pa.
Proof using sha256_length.
  intros [Hc Hb Hl Hbase Ho He]. pose proof empty_ok as He0.
  assert (anchor_ok (end_anchor empty H)) as Hok by (by eapply end_anchor_ok).
  assert (la_index empty < 2 ^ 64)%N as H0 by done.
  split; rewrite ?Hl, ?Hbase; try done.
  - by apply chain_fits.
  - apply chain_fits; [done|by apply chain_take].
  - unfold anchor_ok, blen in Hok. lia.
  - pose proof (floor_ok H b Hc) as Hf. unfold anchor_ok, blen in Hf. lia.
  - destruct Ho as [->|(r & Hr & ->)]; [done|]. destruct H as [|r' H]; [done|]. injection Hr as ->.
    destruct Hc as [[q Hq] _]. pose proof (recorded_anchor_ok _ sha256_length _ _ _ Hq) as Hr.
    unfold anchor_ok, blen in Hr. lia.
  - unfold check_self, is_compacted. rewrite Hl, Hbase, history_length, floor_index by done.
    rewrite (proj2 (N.ltb_ge _ _)) by (unfold blen; lia). case_bool_decide as Hf; [done|]. cbn [negb andb].
    rewrite (proj2 (N.eqb_neq _ _)); [done|]. intros Hz. apply Hf, floor_empty; [done..|lia].
Qed.

Lemma record_inj pa pa' :
  anchor_wf sha256 pa → anchor_wf sha256 pa' →
  anchor_record sha256 key pa = anchor_record sha256 key pa' → pa = pa'.
Proof using sha256_length.
  intros Hw Hw' H. assert (∀ q, blen (mac sha256 key q) = 32%N) as Hm by (intros; by apply mac_length).
  pose proof (decode_encoded sha256 pa _ Hw (Hm (anchor_encode pa))) as H1.
  pose proof (decode_encoded sha256 pa' _ Hw' (Hm (anchor_encode pa'))) as H2.
  unfold anchor_record in H. rewrite H in H1. congruence.
Qed.

(** ** Disks *)
Definition holds (d : disk) (H : list logrec) (b : nat) : Prop :=
  ∀ y, possible d (log_name b) y →
  ∃ bytes extra tail, y = Some bytes ∧ log_image (floor_anchor H b) (drop b H ++ extra) tail bytes.

Definition Covered (P : list logrec → Prop) (d : disk) : Prop :=
  ∀ x, possible d anchor_name x →
  ∃ pa H b, x = Some (anchor_record sha256 key pa) ∧ anchored pa H b ∧ P H ∧ holds d H b.

Lemma holds_entry d d' H b :
  entry_at d' (log_name b) = entry_at d (log_name b) → holds d H b → holds d' H b.
Proof. intros He Hh y Hy. apply Hh. by eapply possible_entry. Qed.

Lemma covered_entries P d d' :
  (∀ b, entry_at d' (log_name b) = entry_at d (log_name b)) →
  entry_at d' anchor_name = entry_at d anchor_name → Covered P d → Covered P d'.
Proof.
  intros Hl Ha Hc x Hx. apply (possible_entry d) in Hx; [|done].
  destruct (Hc x Hx) as (pa & H & b & ? & ? & ? & ?). exists pa, H, b. split_and!; try done.
  by apply (holds_entry d).
Qed.

Lemma covered_mono (P P' : list logrec → Prop) d :
  (∀ H, P H → P' H) → Covered P d → Covered P' d.
Proof. intros HP Hc x Hx. destruct (Hc x Hx) as (pa & H & b & ?&?&?&?). exists pa, H, b. auto. Qed.

Lemma covered_crash P d d' : crashes_to d d' → Covered P d → Covered P d'.
Proof.
  intros Hcr Hc x Hx. apply (possible_crash _ _ _ _ Hcr) in Hx.
  destruct (Hc x Hx) as (pa & H & b & ? & ? & ? & Hh). exists pa, H, b. split_and!; try done.
  intros y Hy. apply Hh. by eapply possible_crash.
Qed.

Lemma covered_scratched P d d' : scratched anchor_name d d' → Covered P d → Covered P d'.
Proof.
  intros Hs. apply covered_entries.
  - intros b. apply Hs, log_path_scratch.
  - apply Hs, scratch_ne.
Qed.

Lemma covered_renamed (P : list logrec → Prop) d d' pa H b :
  renamed anchor_name (anchor_record sha256 key pa) d d' →
  anchored pa H b → P H → holds d H b → Covered P d → Covered P d'.
Proof.
  intros [Ha Ho] Han HP Hh Hc x (g & Hg & Hx). rewrite Ha in Hg. cbn in Hg.
  assert (∀ H b, holds d H b → holds d' H b) as Hholds.
  { intros H' b'. apply (holds_entry d), Ho; [apply log_path_anchor|apply log_path_scratch]. }
  apply elem_of_cons in Hg as [->|Hg].
  - destruct x as [bytes|]; [|done]. apply survives_durable in Hx. subst.
    exists pa, H, b. auto.
  - destruct (Hc x) as (pa' & H' & b' & ?&?&?&?); [by exists g|]. exists pa', H', b'. auto.
Qed.

Lemma possible_cleared d d' n x :
  entry_at d' n = {| en_file := file_at d n; en_reverts := [] |} → possible d' n x → possible d n x.
Proof.
  intros He (g & Hg & Hx). rewrite He in Hg. apply list_elem_of_singleton in Hg as ->.
  exists (file_at d n). split; [left|done].
Qed.

Lemma covered_installed (P : list logrec → Prop) d d' pa H b :
  installed anchor_name (anchor_record sha256 key pa) d d' →
  anchored pa H b → P H → holds d H b → Covered P d'.
Proof.
  intros [Ha Ho] Han HP Hh x (g & Hg & Hx). rewrite Ha in Hg. cbn in Hg.
  apply list_elem_of_singleton in Hg as ->. destruct x as [bytes|]; [|done].
  apply survives_durable in Hx. subst. exists pa, H, b. split_and!; try done.
  intros y Hy. apply Hh. eapply possible_cleared; [|exact Hy].
  apply Ho; [apply log_path_anchor|apply log_path_scratch].
Qed.
End AckFacts.
