(* ===== verification/Retention.v ===== *)
(** * Erasure audits: crates/ptr-ledger/src/retention.rs

    Whether any log of a set still holds a byte string, and what an audit says. *)

From S2P Require Import Prelude Bytes Types LedgerEvents LedgerChecks LedgerCodec Ledger Integrity.
From S2P Require Import Storage Anchor FileLedger Compaction Acknowledged.
From stdpp Require Import options.

Inductive OutOfReach := HostRetainedArtifacts | StorageResidue | ModelDerivedState.
Definition OutOfReach_code (o : OutOfReach) : string :=
  match o with
  | HostRetainedArtifacts => "PTR_ERASURE_HOST_RETAINED_ARTIFACTS"
  | StorageResidue => "PTR_ERASURE_STORAGE_RESIDUE"
  | ModelDerivedState => "PTR_ERASURE_MODEL_DERIVED_STATE"
  end.
Definition OUT_OF_REACH_ALL : list OutOfReach := [HostRetainedArtifacts; StorageResidue; ModelDerivedState].
Inductive Retainer := RetainerLog (path : string) | RetainerElsewhere (name : string).
#[export] Instance Retainer_eq_dec : EqDecision Retainer.
Proof. solve_decision. Defined.

Record ErasureAudit := {
  ea_retainers : list Retainer;
  ea_scanned_logs : nat;
  ea_live_base : CommitIndex;
  ea_needle : list byte
}.

Definition erased_where_reachable (a : ErasureAudit) : bool := bool_decide (ea_retainers a = []).

(** Whether some window of the haystack is the needle. *)
Fixpoint is_prefix (needle hay : list byte) : bool :=
  match needle, hay with
  | [], _ => true
  | x :: needle, y :: hay => bool_decide (x = y) && is_prefix needle hay
  | _ :: _, [] => false
  end.
Fixpoint any_window (hay needle : list byte) : bool :=
  is_prefix needle hay || match hay with [] => false | _ :: hay => any_window hay needle end.
Definition retains (artifact plaintext : list byte) : bool :=
  if bool_decide (plaintext = []) || (blen artifact <? blen plaintext)%N then false
  else any_window artifact plaintext.

Definition with_retained_elsewhere (name : string) (artifact : list byte) (a : ErasureAudit) : ErasureAudit :=
  if retains artifact (ea_needle a)
  then {| ea_retainers := ea_retainers a ++ [RetainerElsewhere name]; ea_scanned_logs := ea_scanned_logs a;
          ea_live_base := ea_live_base a; ea_needle := ea_needle a |}
  else a.
Definition out_of_reach (a : ErasureAudit) : list OutOfReach := OUT_OF_REACH_ALL.

(** The [read_bounded] of this file, over [fs::read]. *)
Definition audit_read_bounded (path : string) : prog (result fault (list byte)) :=
  try* _ := open_file path in
  try* bytes := read_file path in
  if (MAX_LOG_BYTES <? blen bytes)%N then pret (refuse "PTR_LOG_SIZE_LIMIT") else pret (Ok bytes).

(** The loop over the orphans: those that retain the plaintext. *)
Fixpoint audit_files (plaintext : list byte) (names : list string) : prog (result fault (list string)) :=
  match names with
  | [] => pret (Ok [])
  | name :: names =>
      try* bytes := audit_read_bounded name in
      try* kept := audit_files plaintext names in
      pret (Ok (if retains bytes plaintext then name :: kept else kept))
  end.

Definition audit_with_live (p : LogPaths) (plaintext : list byte) (live_base : CommitIndex)
    (live_bytes : option (list byte)) : prog (result fault ErasureAudit) :=
  let live := log_path p live_base in
  try* found := orphans p live_base in
  try* kept := audit_files plaintext found in
  let finish (extra : list string) (scanned : nat) :=
    pret (Ok {| ea_retainers := RetainerLog <$> merge_sort String.le (kept ++ extra);
                ea_scanned_logs := scanned; ea_live_base := live_base; ea_needle := plaintext |}) in
  match live_bytes with
  | Some bytes => finish (if retains bytes plaintext then [live] else []) (S (length found))
  | None =>
      let* found_live := exists_path live in
      if (found_live : bool) then
        try* bytes := audit_read_bounded live in
        finish (if retains bytes plaintext then [live] else []) (S (length found))
      else finish [] (length found)
  end.
Definition audit_erasure (p : LogPaths) (plaintext : list byte) (live_base : CommitIndex) :
    prog (result fault ErasureAudit) := audit_with_live p plaintext live_base None.

(** [AcknowledgedLedger::audit_erasure]. *)
Definition ack_audit_erasure (l : AcknowledgedLedger) (plaintext : list byte) :
    prog (ack_result ErasureAudit * AcknowledgedLedger) :=
  let live_base := la_index (pa_base (ack_anchor l)) in
  let* (r, log) := retained_bytes (al_log l) in
  let l := al_set log (al_anchors l) (al_fenced l) l in
  match r with
  | Err e => pret (Err (AckLog e), l)
  | Ok live =>
      let* audit := of_log (audit_with_live (al_paths l) plaintext live_base (Some live)) in
      pret (audit, l)
  end.

(** ** The search *)
Lemma is_prefix_spec needle hay : is_prefix needle hay = true ↔ ∃ rest, hay = needle ++ rest.
Proof.
  revert hay. induction needle as [|x needle IH]; intros hay; [cbn; naive_solver|].
  destruct hay as [|y hay]; cbn; [naive_solver|].
  rewrite andb_true_iff, bool_decide_eq_true, IH. naive_solver.
Qed.
Lemma any_window_spec hay needle : any_window hay needle = true ↔ ∃ l r, hay = l ++ needle ++ r.
Proof.
  induction hay as [|y hay IH]; cbn [any_window]; rewrite orb_true_iff, is_prefix_spec.
  - split; [intros [[r Hr]|]; [by exists [], r|done]|]. intros (l & r & H). left. exists r.
    by destruct l.
  - rewrite IH. split.
    + intros [[r Hr]|(l & r & ->)]; [by exists [], r|by exists (y :: l), r].
    + intros ([|z l] & r & H); [left; by exists r|]. right. injection H as _ ->. by exists l, r.
Qed.
Lemma retains_spec artifact plaintext :
  retains artifact plaintext = true ↔ plaintext ≠ [] ∧ ∃ l r, artifact = l ++ plaintext ++ r.
Proof.
  unfold retains. rewrite <-any_window_spec. case_bool_decide as H0; cbn [orb]; [naive_solver|].
  destruct (_ <? _)%N eqn:Hl; [|naive_solver]. bool_prop. split; [done|]. intros [_ Hw].
  apply any_window_spec in Hw as (l & r & ->). unfold blen in Hl. rewrite !length_app in Hl. lia.
Qed.

(** ** The audit *)
Section audit.
Context (p : LogPaths) (d : disk).
(** Every log of the set can be read: none is longer than a log may be. *)
Context (Hsize : ∀ b f, (b < 2 ^ 64)%N → file_at d (log_path p b) = Some f → (blen (content f) ≤ MAX_LOG_BYTES)%N).

Definition bytes_at (name : string) : list byte := default [] (content <$> file_at d name).

Lemma audit_read_run b f :
  (b < 2 ^ 64)%N → file_at d (log_path p b) = Some f →
  runs (audit_read_bounded (log_path p b)) d (Ok (content f)) d.
Proof using Hsize.
  intros Hb Hf. unfold audit_read_bounded.
  eapply runs_try; [apply runs_query; cbn beta; by rewrite Hf|].
  eapply runs_try; [apply runs_query; cbn beta; by rewrite Hf|].
  rewrite (proj2 (N.ltb_ge _ _)) by by eapply Hsize. apply runs_ret.
Qed.

Lemma audit_files_run plaintext names :
  (∀ n, n ∈ names → is_Some (file_at d n) ∧ ∃ b, (b < 2 ^ 64)%N ∧ n = log_path p b) →
  runs (audit_files plaintext names) d (Ok (filter (λ n, retains (bytes_at n) plaintext = true) names)) d.
Proof using Hsize.
  induction names as [|n names IH]; intros Hn; [apply runs_ret|]. cbn [audit_files].
  destruct (Hn n) as [[f Hf] (b & Hb & ->)]; [left|].
  eapply runs_try; [by apply (audit_read_run b f)|].
  eapply runs_try; [apply IH; intros; apply Hn; by right|].
  assert (bytes_at (log_path p b) = content f) as Hat by (unfold bytes_at; by rewrite Hf).
  rewrite filter_cons, Hat.
  destruct (retains (content f) plaintext); [rewrite decide_True by done|rewrite decide_False by done];
    apply runs_ret.
Qed.

(** A log of the set holds the plaintext. *)
Definition log_retains (plaintext : list byte) (b : N) : Prop :=
  ∃ f, file_at d (log_path p b) = Some f ∧ ∃ l r, content f = l ++ plaintext ++ r.

Lemma bytes_retained plaintext b :
  plaintext ≠ [] → retains (bytes_at (log_path p b)) plaintext = true ↔ log_retains plaintext b.
Proof.
  intros Hne. rewrite retains_spec. unfold bytes_at, log_retains.
  destruct (file_at d (log_path p b)) as [f|]; cbn; [naive_solver|].
  split; [|naive_solver]. intros [_ (l & r & Heq)]. symmetry in Heq.
  apply app_eq_nil in Heq as [_ Heq]. by apply app_eq_nil in Heq as [? _].
Qed.

(** The logs that an audit finds, as a set. *)
Lemma audit_found live plaintext name :
  (live < 2 ^ 64)%N → plaintext ≠ [] →
  name ∈ filter (λ n, retains (bytes_at n) plaintext = true)
           (filter (λ n, is_orphan p live n = true) (directory d)) ↔
  ∃ b, (b < 2 ^ 64)%N ∧ b ≠ live ∧ name = log_path p b ∧ log_retains plaintext b.
Proof.
  intros Hl Hne. rewrite !list_elem_of_filter, is_orphan_spec, elem_of_directory by done. split.
  - intros (Hr & (b & Hb & Hn & ->) & _). exists b. by rewrite <-bytes_retained.
  - intros (b & Hb & Hn & -> & Hr). pose proof Hr as (f & Hf & _). apply bytes_retained in Hr; [|done].
    split_and!; [done|by exists b|]. by rewrite Hf.
Qed.

Lemma audit_with_live_run live plaintext live_bytes :
  (live < 2 ^ 64)%N →
  (∀ bytes, live_bytes = Some bytes → bytes_at (log_path p live) = bytes) →
  ∃ n, runs (audit_with_live p plaintext live live_bytes) d
    (Ok {| ea_retainers := RetainerLog <$> merge_sort String.le
             (filter (λ n, retains (bytes_at n) plaintext = true)
                (filter (λ n, is_orphan p live n = true) (directory d)) ++
              if retains (bytes_at (log_path p live)) plaintext then [log_path p live] else []);
           ea_scanned_logs := n; ea_live_base := live; ea_needle := plaintext |}) d.
Proof using Hsize.
  intros Hl Hlive. unfold audit_with_live.
  set (found := filter (λ n, is_orphan p live n = true) (directory d)).
  assert (runs (orphans p live) d (Ok found) d) as Ho by (by apply runs_query).
  assert (runs (audit_files plaintext found) d
    (Ok (filter (λ n, retains (bytes_at n) plaintext = true) found)) d) as Hf.
  { apply audit_files_run. intros n Hn. apply list_elem_of_filter in Hn as [Hn Hd].
    apply elem_of_directory in Hd. apply is_orphan_spec in Hn as (b & ? & _ & ->); [|done].
    split; [done|by exists b]. }
  destruct live_bytes as [bytes|].
  { rewrite (Hlive bytes eq_refl). eexists. eapply runs_try; [exact Ho|]. eapply runs_try; [exact Hf|].
    apply runs_ret. }
  destruct (file_at d (log_path p live)) as [f|] eqn:Hfile.
  - assert (bytes_at (log_path p live) = content f) as -> by (unfold bytes_at; by rewrite Hfile).
    eexists. eapply runs_try; [exact Ho|]. eapply runs_try; [exact Hf|].
    eapply runs_bind; [unfold runs, exists_path; cbn; by rewrite Hfile|]. cbn.
    eapply runs_try; [by apply (audit_read_run live f)|]. apply runs_ret.
  - assert (retains (bytes_at (log_path p live)) plaintext = false) as ->.
    { unfold bytes_at. rewrite Hfile. unfold retains. by destruct plaintext. }
    eexists. eapply runs_try; [exact Ho|]. eapply runs_try; [exact Hf|].
    eapply runs_bind; [unfold runs, exists_path; cbn; by rewrite Hfile|]. apply runs_ret.
Qed.
End audit.

(** An erasure audit is exact over the logs of its set.  When every log of
    the set can be read and no call fails, the audit returns; its retainers are
    exactly the logs of the set, live or superseded, whose bytes contain the
    plaintext; so it reports erasure exactly when no log of the set contains it.
    (An empty plaintext is never found.) *)
Theorem audit_erasure_exact p d plaintext live :
  (∀ b f, (b < 2 ^ 64)%N → file_at d (log_path p b) = Some f → (blen (content f) ≤ MAX_LOG_BYTES)%N) →
  (live < 2 ^ 64)%N → plaintext ≠ [] →
  ∃ audit, runs (audit_erasure p plaintext live) d (Ok audit) d ∧
    (∀ r, r ∈ ea_retainers audit ↔
       ∃ b, (b < 2 ^ 64)%N ∧ r = RetainerLog (log_path p b) ∧ log_retains p d plaintext b) ∧
    (erased_where_reachable audit = true ↔ ∀ b, (b < 2 ^ 64)%N → ¬ log_retains p d plaintext b).
Proof.
  intros Hsize Hl Hne. destruct (audit_with_live_run p d Hsize live plaintext None Hl) as (n & Hrun); [done|].
  eexists. split; [exact Hrun|]. cbn [ea_retainers]. unfold erased_where_reachable. cbn [ea_retainers].
  match goal with |- _ ∧ (bool_decide (?l = []) = true ↔ _) => set (found := l) end.
  assert (∀ r, r ∈ found ↔
    ∃ b, (b < 2 ^ 64)%N ∧ r = RetainerLog (log_path p b) ∧ log_retains p d plaintext b) as Hfound.
  { intros r. unfold found. rewrite list_elem_of_fmap. setoid_rewrite merge_sort_Permutation.
    setoid_rewrite elem_of_app. setoid_rewrite (audit_found p d live plaintext); [|done..].
    destruct (retains _ _) eqn:Hr.
    - apply bytes_retained in Hr; [|done]. setoid_rewrite list_elem_of_singleton. split.
      + intros (name & -> & [(b & ? & _ & -> & ?)| ->]); [by exists b|by exists live].
      + intros (b & Hb & -> & Hret). exists (log_path p b). split; [done|].
        destruct (decide (b = live)) as [->|]; [by right|]. left. by exists b.
    - split.
      + intros (name & -> & [(b & ? & _ & -> & ?)|Hn]); [by exists b|by apply elem_of_nil in Hn].
      + intros (b & Hb & -> & Hret). exists (log_path p b). split; [done|]. left. exists b.
        split_and!; try done. intros ->. apply bytes_retained in Hret; [|done]. congruence. }
  split; [exact Hfound|]. rewrite bool_decide_eq_true. split.
  - intros Hnil b Hb Hret. assert (RetainerLog (log_path p b) ∈ found) as Hin by (apply Hfound; by exists b).
    rewrite Hnil in Hin. by apply elem_of_nil in Hin.
  - intros Hno. destruct found as [|r rest] eqn:Hf; [done|].
    destruct (proj1 (Hfound r)) as (b & Hb & _ & Hret); [left|]. by destruct (Hno b Hb).
Qed.

(** A set with one log, searched for bytes it holds. *)
Definition one_log : disk :=
  {[ log_path {| lp_stem := "j" |} 0 :=
     {| en_file := Some (durable_file (str_bytes "abcd")); en_reverts := [] |} ]}.
Lemma audit_erasure_exact_witness :
  ∃ audit, runs (audit_erasure {| lp_stem := "j" |} (str_bytes "bc") 0) one_log (Ok audit) one_log ∧
    (∀ r, r ∈ ea_retainers audit ↔
       ∃ b, (b < 2 ^ 64)%N ∧ r = RetainerLog (log_path {| lp_stem := "j" |} b) ∧
            log_retains {| lp_stem := "j" |} one_log (str_bytes "bc") b) ∧
    (erased_where_reachable audit = true ↔
       ∀ b, (b < 2 ^ 64)%N → ¬ log_retains {| lp_stem := "j" |} one_log (str_bytes "bc") b).
Proof.
  apply (audit_erasure_exact {| lp_stem := "j" |} one_log (str_bytes "bc") 0); [|done|done].
  intros b f _. unfold file_at, entry_at, one_log. destruct (_ !! _) as [e|] eqn:He; [|done].
  apply lookup_singleton_Some in He as [_ <-]. intros [= <-]. vm_compute. discriminate.
Defined.
