(* ===== verification/AckAppend.v ===== *)
(** * Appending to an acknowledged ledger, whatever fails *)

From S2P Require Import Prelude Bytes Types LedgerEvents LedgerChecks LedgerCodec LedgerCodecFacts.
From S2P Require Import LedgerEventFacts Ledger Integrity IntegrityLog Storage Anchor FileLedger.
From S2P Require Import Compaction Acknowledged.
From stdpp Require Import options.

Section AckAppend.
Context (sha256 : list byte → list byte).
(** A SHA-256 digest has 32 bytes. *)
Context (sha256_length : ∀ x, length (sha256 x) = 32).
Context (p : LogPaths) (key : AnchorKey).

Abbreviation chain := (chain sha256).
Abbreviation empty := (LogAnchor_empty sha256).
Abbreviation log_image := (log_image sha256).
Abbreviation anchor_name := (anchor_path p).
Abbreviation log_name b := (log_path p (N.of_nat b)).
Abbreviation anchored := (anchored sha256).
Abbreviation floor_anchor := (floor_anchor sha256).
Abbreviation Covered := (Covered sha256 p key).
Abbreviation holds := (holds sha256 p).

Definition floor_bytes (H : list logrec) (b : nat) : list byte := LOG_MAGIC ++ log_bytes (drop b H).

(** A ledger in service: its memory and the disk agree on the history, and no
    anchor that may be found commits to another. *)
Record ReadyAt (d : disk) (l : AcknowledgedLedger) (H : list logrec) (b : nat) : Prop := {
  ra_anchored : anchored (as_current (al_anchors l)) H b;
  ra_path : as_path (al_anchors l) = anchor_name;
  ra_key : as_key (al_anchors l) = key;
  ra_paths : al_paths l = p;
  ra_log_path : fl_path (al_log l) = log_name b;
  ra_log_base : fl_base (al_log l) = floor_anchor H b;
  ra_log_anchor : fl_anchor (al_log l) = end_anchor empty H;
  ra_events : fl_events (al_log l) = lr_event <$> drop b H;
  ra_covered : Covered (eq H) d;
  ra_disk : fl_poisoned (al_log l) = false →
    fl_length (al_log l) = blen (floor_bytes H b) ∧
    fl_cursor (al_log l) = blen (floor_bytes H b) ∧
    entry_at d (log_name b) =
      {| en_file := Some (durable_file (floor_bytes H b)); en_reverts := [] |} ∧
    log_image (floor_anchor H b) (drop b H) [] (floor_bytes H b)
}.
Definition Ready (d : disk) (l : AcknowledgedLedger) (H : list logrec) : Prop :=
  ∃ b, ReadyAt d l H b.

Lemma floor_fits pa H b : anchored pa H b → (N.of_nat b < 2 ^ 64)%N.
Proof.
  intros Han. pose proof (chain_fits sha256 empty H) as Hf. rewrite history_length in Hf by apply Han.
  assert (la_index empty < 2 ^ 64)%N as H0 by done. specialize (Hf H0 (an_chain _ _ _ _ Han)).
  pose proof (an_floor _ _ _ _ Han). unfold blen in Hf. lia.
Qed.

Lemma log_name_ne pa pa' H H' b b' :
  anchored pa H b → anchored pa' H' b' → b ≠ b' → log_name b ≠ log_name b'.
Proof.
  intros Ha Ha' Hne Heq. apply log_path_inj in Heq; [lia|by eapply floor_fits..].
Qed.

(** Only the log with this floor changes. *)
Lemma covered_log_change d d' pa H b :
  Covered (eq H) d → anchored pa H b →
  (∀ n, n ≠ log_name b → entry_at d' n = entry_at d n) →
  (∀ y, possible d' (log_name b) y → ∃ bytes extra tail, y = Some bytes ∧
     log_image (floor_anchor H b) (drop b H ++ extra) tail bytes) →
  Covered (eq H) d'.
Proof.
  intros Hcov Han Ho Hlog x Hx.
  apply (possible_entry d) in Hx; [|apply Ho, not_eq_sym, log_path_anchor].
  destruct (Hcov x Hx) as (pa' & H' & b' & -> & Han' & <- & Hh). exists pa', H, b'.
  split_and!; try done. destruct (decide (b' = b)) as [->|Hne]; [exact Hlog|].
  apply (holds_entry _ _ d); [|done]. apply Ho. by eapply log_name_ne.
Qed.

(** ** A log that grows by one record *)
Section growing.
Context (d : disk) (H : list logrec) (b : nat) (r : logrec) (payload : list byte).
Context (Hcov : Covered (eq H) d).
Context (Hfloor : b ≤ length H) (Hchain : chain empty H).
Context (Himg : log_image (floor_anchor H b) (drop b H) [] (floor_bytes H b)).
Context (Hrec : recorded sha256 (end_anchor empty H) r payload).
Context (Hindex : (la_index (lr_anchor r) ≤ MAX_RECORDS)%N).
Context (Hsize : (blen (floor_bytes H b) + blen (lr_frame r) ≤ MAX_LOG_BYTES)%N).

Lemma growing_count : (blen (drop b H) < MAX_RECORDS)%N.
Proof using Hrec Hindex Hchain.
  clear Hcov Hfloor Himg Hsize.
  pose proof (rc_index _ _ _ _ Hrec) as Hi. rewrite history_length in Hi by done.
  rewrite (rc_anchor _ _ _ _ Hrec) in Hindex. cbn [la_index] in Hindex.
  unfold checked_add_u64 in Hi. destruct (_ <? _)%N; [|done]. injection Hi as Hi.
  unfold blen in *. rewrite length_drop. lia.
Qed.

Lemma growing_chain : chain (floor_anchor H b) (drop b H ++ [r]).
Proof using All.
  apply chain_app. split; [by apply chain_drop|]. rewrite end_floor. split; [by exists payload|done].
Qed.

(** Every state of the log between the write and its sync. *)
Lemma growing_image j k bytes :
  bytes = floor_bytes H b ++ take k (take j (lr_frame r)) ∨
  (bytes = floor_bytes H b ++ replicate k x00 ∧ k ≤ length (take j (lr_frame r))) →
  ∃ extra tail, log_image (floor_anchor H b) (drop b H ++ extra) tail bytes.
Proof using All.
  pose proof growing_count as Hcount. pose proof growing_chain as Hgc. intros Hbytes.
  destruct Himg as [_ Hc0 Hm0 Hb0 _].
  assert (∀ t, blen t ≤ blen (lr_frame r) →
    torn sha256 (blen (drop b H)) (end_anchor (floor_anchor H b) (drop b H)) t →
    log_image (floor_anchor H b) (drop b H ++ []) t (floor_bytes H b ++ t))%N as Htorn.
  { intros t Ht Htt. rewrite app_nil_r. split; [by unfold floor_bytes; rewrite <-app_assoc|done|done| |done].
    rewrite blen_app. lia. }
  destruct Hbytes as [->|[-> Hk]].
  - rewrite take_take. set (m := Nat.min k j).
    destruct (decide (length (lr_frame r) ≤ m)) as [Hm|Hm].
    + exists [r], []. rewrite take_ge by done. split; [|done| | |by left].
      * unfold floor_bytes. rewrite log_bytes_app, <-!app_assoc, app_nil_r. do 2 f_equal.
        unfold log_bytes. cbn. by rewrite app_nil_r.
      * rewrite blen_app, blen_cons, blen_nil. lia.
      * by rewrite blen_app.
    + exists [], (take m (lr_frame r)). apply Htorn; [unfold blen; rewrite length_take; lia|].
      destruct (decide (m = 0)) as [->|Hz]; [by left|]. right. split; [done|]. right.
      exists r, payload, m. rewrite end_floor. split_and!; [done|done|lia|lia].
  - exists [], (replicate k x00). rewrite length_take in Hk.
    apply Htorn; [unfold blen; rewrite length_replicate; lia|].
    destruct k as [|k]; [by left|]. right. split; [done|]. left. by apply Forall_replicate.
Qed.

Definition grown (data : list byte) (d' : disk) : Prop :=
  (∃ f, entry_at d' (log_name b) = {| en_file := Some f; en_reverts := [] |} ∧
        appending f (floor_bytes H b) data) ∧
  ∀ n, n ≠ log_name b → entry_at d' n = entry_at d n.

Lemma covered_grown pa j d' :
  anchored pa H b → grown (take j (lr_frame r)) d' → Covered (eq H) d'.
Proof using All.
  intros Han [(f & Hf & Happ) Ho]. apply (covered_log_change d _ pa H b); [done..|].
  intros y (g & Hg & Hy). rewrite Hf in Hg. apply list_elem_of_singleton in Hg as ->.
  destruct y as [bytes|]; [|done]. destruct (appending_survives _ _ _ _ Happ Hy) as (k & Hk).
  destruct (growing_image j k bytes Hk) as (extra & tail & Hi). by exists bytes, extra, tail.
Qed.

Lemma grown_append data d' bytes :
  grown data d' →
  grown (data ++ bytes) (update (log_name b)
    (λ f, change_file (write_change (blen (floor_bytes H b ++ data)) bytes f) f) d').
Proof.
  intros [(f & Hf & Ha) Ho]. split.
  - exists (change_file (Append bytes) f). split; [|by apply appending_append].
    rewrite entry_at_update, bool_decide_eq_true_2 by done. unfold file_at. rewrite Hf. cbn.
    unfold write_change. destruct Ha as (_ & _ & ->). by rewrite N.eqb_refl.
  - intros n Hn. rewrite entry_at_update, bool_decide_eq_false_2 by done. by apply Ho.
Qed.

(** The log holds the new record and is durable. *)
Definition synced (d' : disk) : Prop :=
  entry_at d' (log_name b) =
    {| en_file := Some (durable_file (floor_bytes H b ++ lr_frame r)); en_reverts := [] |} ∧
  ∀ n, n ≠ log_name b → entry_at d' n = entry_at d n.

Lemma grown_sync d' : grown (lr_frame r) d' → synced (update (log_name b) sync_file d').
Proof.
  intros [(f & Hf & _ & _ & Hc) Ho]. split.
  - rewrite entry_at_update, bool_decide_eq_true_2 by done. unfold file_at. rewrite Hf. cbn.
    unfold sync_file. by rewrite Hc.
  - intros n Hn. rewrite entry_at_update, bool_decide_eq_false_2 by done. by apply Ho.
Qed.

(** The two writes and the sync. *)
Lemma write_record_wp pa (Q : result fault unit → disk → Prop) (C : disk → Prop) cut :
  anchored pa H b →
  entry_at d (log_name b) = {| en_file := Some (durable_file (floor_bytes H b)); en_reverts := [] |} →
  (∀ d', Covered (eq H) d' → C d' ∧ ∀ e, Q (Err e) d') →
  (∀ d', synced d' → Q (Ok tt) d') →
  wp (let header := take cut (lr_frame r) in
      try* _ := write_at (log_name b) (blen (floor_bytes H b)) header in
      try* _ := write_at (log_name b) (blen (floor_bytes H b) + blen header) (drop cut (lr_frame r)) in
      try* _ := flush (log_name b) in
      sync (log_name b)) Q C d.
Proof using All.
  intros Han Hd Hpart Hdone.
  assert (∀ j d', grown (take j (lr_frame r)) d' → Q (Err (os_error Other)) d' ∧ C d') as Hg.
  { intros j d' Hg. destruct (Hpart d'); [by eapply covered_grown|]. auto. }
  assert (grown [] d) as H0.
  { split; [|done]. exists (durable_file (floor_bytes H b)). split; [done|apply appending_new]. }
  assert (∀ bytes, grown bytes (update (log_name b)
    (λ f, change_file (write_change (blen (floor_bytes H b)) bytes f) f) d)) as Hfirst.
  { intros bytes. rewrite <-(app_nil_r (floor_bytes H b)). by apply (grown_append []). }
  apply wp_try, wp_syscall.
  2:{ intros n. apply (Hg (Nat.min n cut)). rewrite <-take_take. apply Hfirst. }
  set (d1 := update _ _ d). assert (grown (take cut (lr_frame r)) d1) as H1 by apply Hfirst.
  rewrite <-blen_app.
  assert (∀ n, take cut (lr_frame r) ++ take n (drop cut (lr_frame r)) = take (cut + n) (lr_frame r))
    as Htake by (intros n; apply take_take_drop).
  apply wp_try, wp_syscall.
  2:{ intros n. apply (Hg (cut + n)). rewrite <-Htake. by apply grown_append. }
  set (d2 := update _ _ d1). assert (grown (lr_frame r) d2) as H2.
  { rewrite <-(take_drop cut (lr_frame r)) at 1. by apply grown_append. }
  assert (Q (Err (os_error Other)) d2 ∧ C d2) as [HQ HC].
  { apply (Hg (length (lr_frame r))). by rewrite firstn_all. }
  apply wp_try, wp_query; [|done|done]. apply wp_syscall; [|done].
  by apply Hdone, grown_sync.
Qed.
End growing.

(** ** [append_durable] *)
Definition with_record (r : logrec) (log : FileLedger) : FileLedger :=
  {| fl_path := fl_path log; fl_events := fl_events log ++ [lr_event r]; fl_anchor := lr_anchor r;
     fl_base := fl_base log; fl_length := fl_length log + blen (lr_frame r);
     fl_cursor := fl_cursor log + blen (lr_frame r); fl_poisoned := false |}.

Lemma append_durable_wp d l H b ev (Q : result fault CommitIndex * FileLedger → disk → Prop)
    (C : disk → Prop) :
  event_ok ev = true → ReadyAt d l H b →
  (∀ e, Q (Err e, al_log l) d) →
  (∀ d', Covered (eq H) d' → C d' ∧ ∀ e, Q (Err e, fl_set_poisoned true (al_log l)) d') →
  (∀ d' r payload,
     recorded sha256 (end_anchor empty H) r payload → ce_event (lr_event r) = ev →
     (la_index (lr_anchor r) ≤ MAX_RECORDS)%N →
     log_image (floor_anchor H b) (drop b H) [] (floor_bytes H b) →
     (blen (floor_bytes H b) + blen (lr_frame r) ≤ MAX_LOG_BYTES)%N →
     fl_length (al_log l) = blen (floor_bytes H b) → fl_cursor (al_log l) = blen (floor_bytes H b) →
     synced d H b r d' → Q (Ok (ce_index (lr_event r)), with_record r (al_log l)) d') →
  wp (append_durable sha256 ev (al_log l)) Q C d.
Proof using sha256_length.
  intros Hev Hr Hsame Hpart Hdone. unfold append_durable.
  destruct (fl_poisoned (al_log l)) eqn:Hp; [apply wp_ret, Hsame|].
  destruct (ra_disk _ _ _ _ Hr Hp) as (Hlen & Hcur & Hent & Himg).
  rewrite (ra_log_anchor _ _ _ _ Hr).
  destruct (encode_record _ _ _) as [[frame next]|e] eqn:He; [|apply wp_ret, Hsame].
  apply encode_record_ok in He as (Hmax & payload & Hrec); [|done].
  set (r := {| lr_event := _; lr_frame := frame; lr_anchor := next |}) in Hrec.
  destruct (MAX_LOG_BYTES <? _)%N eqn:Hsize; [apply wp_ret, Hsame|]. bool_prop.
  rewrite (ra_log_path _ _ _ _ Hr).
  destruct (Hpart d (ra_covered _ _ _ _ Hr)) as [HC _].
  apply wp_bind, wp_query; [|apply wp_ret, Hsame|done].
  unfold file_at. rewrite Hent. cbn [en_file]. rewrite Hlen, N.eqb_refl. cbn [negb].
  pose proof (ra_anchored _ _ _ _ Hr) as Han.
  apply wp_bind. rewrite Hlen in Hsize. rewrite Hcur.
  apply (write_record_wp d H b r payload (ra_covered _ _ _ _ Hr) (an_floor _ _ _ _ Han)
           (an_chain _ _ _ _ Han) Himg Hrec Hmax Hsize _ _ _ _ Han Hent).
  - intros d' Hc. destruct (Hpart d' Hc) as [? He']. split; [done|]. intros e. apply wp_ret, He'.
  - intros d' Hs. apply wp_ret. pose proof (Hdone d' r payload) as Hd. unfold with_record in Hd.
    rewrite (ra_log_path _ _ _ _ Hr), Hlen, Hcur in Hd. by apply Hd.
Qed.

(** ** [append_acknowledged] *)
Lemma derived_origin_first log H b e :
  fl_base log = floor_anchor H b → chain empty H → b ≤ length H →
  fl_events log = lr_event <$> drop b H → derived_origin sha256 log = Some e →
  ∃ r, head H = Some r ∧ e = la_digest (lr_anchor r).
Proof.
  intros Hb Hc Hle He Ho. unfold derived_origin in Ho. rewrite Hb in Ho.
  case_bool_decide as Hf; [|done]. cbn [negb] in Ho.
  apply floor_empty in Hf; [|done..]. subst b. rewrite drop_0 in He. rewrite He in Ho.
  destruct H as [|r H]; [done|]. exists r. split; [done|]. cbn in Ho.
  destruct Hc as [[q Hq] Hc]. rewrite (encode_record_complete _ _ _ _ Hq) in Ho; [by injection Ho|].
  pose proof (rc_index _ _ _ _ Hq) as Hi. unfold checked_add_u64 in Hi. cbn in Hi.
  injection Hi as <-. unfold MAX_RECORDS. lia.
Qed.

Lemma anchored_next current H b b' log extra origin :
  anchored current H b → b = b' → chain empty (H ++ extra) →
  (pa_epoch current + 1 < 2 ^ 64)%N →
  (∀ e, origin = Some e → ∃ r, head (H ++ extra) = Some r ∧ e = la_digest (lr_anchor r)) →
  log = end_anchor empty (H ++ extra) →
  anchored (acknowledged_next current log (default ORIGIN_UNSET origin)) (H ++ extra) b'.
Proof.
  intros [Hc Hb Hl Hbase Ho He] <- Hc' He' Hor ->. split; cbn; try done.
  - rewrite length_app. lia.
  - rewrite Hbase. unfold Acknowledged.floor_anchor. by rewrite take_app_le.
  - destruct (origin_is_set (pa_origin current)) eqn:Hs.
    + destruct Ho as [Hu|(r & Hr & ->)]; [by left|right]. exists r.
      destruct H; [done|]. by injection Hr as ->.
    + destruct origin as [e|]; [|by left]. right. by apply Hor.
Qed.

Lemma synced_holds d d' H b r payload :
  b ≤ length H → chain empty H → recorded sha256 (end_anchor empty H) r payload →
  (la_index (lr_anchor r) ≤ MAX_RECORDS)%N →
  (blen (floor_bytes H b) + blen (lr_frame r) ≤ MAX_LOG_BYTES)%N → synced d H b r d' →
  log_image (floor_anchor (H ++ [r]) b) (drop b (H ++ [r])) [] (floor_bytes (H ++ [r]) b) ∧
  floor_bytes (H ++ [r]) b = floor_bytes H b ++ lr_frame r ∧ chain empty (H ++ [r]).
Proof.
  intros Hb Hc Hrec Hmax Hsize Hs.
  assert (chain empty (H ++ [r])) as Hc' by (apply chain_app; split; [done|]; by split; [exists payload|]).
  assert (floor_bytes (H ++ [r]) b = floor_bytes H b ++ lr_frame r) as Hf.
  { unfold floor_bytes. rewrite drop_app_le, log_bytes_app, <-app_assoc by done. do 2 f_equal.
    unfold log_bytes. cbn. by rewrite app_nil_r. }
  split_and!; [|done|done]. split.
  - by rewrite app_nil_r.
  - by apply chain_drop.
  - rewrite drop_app_le, blen_app, blen_cons, blen_nil by done.
    pose proof (growing_count H b r payload Hc Hrec Hmax). lia.
  - by rewrite Hf, blen_app.
  - by left.
Qed.

Lemma ready_poisoned d d' l H b :
  ReadyAt d l H b → Covered (eq H) d' →
  ReadyAt d' (al_set (fl_set_poisoned true (al_log l)) (al_anchors l) false l) H b.
Proof. intros [] Hc. by split. Qed.

Lemma covered_prefix H d : Covered (eq H) d → Covered (prefix H) d.
Proof. apply covered_mono. by intros ? <-. Qed.

(** The log holds the new record; the anchor is about to. *)
Lemma acknowledge_record_wp d d1 l H b r payload
    (Q : result AnchorError ProtectedAnchor * AnchorStore → disk → Prop) (C : disk → Prop) :
  ReadyAt d l H b → recorded sha256 (end_anchor empty H) r payload →
  (la_index (lr_anchor r) ≤ MAX_RECORDS)%N →
  (blen (floor_bytes H b) + blen (lr_frame r) ≤ MAX_LOG_BYTES)%N →
  fl_length (al_log l) = blen (floor_bytes H b) → fl_cursor (al_log l) = blen (floor_bytes H b) →
  synced d H b r d1 →
  (∀ d', Covered (prefix H) d' → C d' ∧ ∀ e s, Q (Err e, s) d') →
  (∀ d' next s, ReadyAt d' (al_set (with_record r (al_log l)) s false l) (H ++ [r]) b →
     Q (Ok next, s) d') →
  wp (acknowledge sha256 (al_anchors l) (lr_anchor r)
        (default ORIGIN_UNSET (derived_origin sha256 (with_record r (al_log l))))) Q C d1.
Proof using sha256_length.
  intros Hr Hrec Hmax Hsize Hlen Hcur Hs Hpart Hdone.
  pose proof (ra_anchored _ _ _ _ Hr) as Han. pose proof (an_chain _ _ _ _ Han) as Hc.
  pose proof (an_floor _ _ _ _ Han) as Hb.
  destruct (synced_holds d d1 H b r payload) as (Himg & Hfb & Hc'); [done..|].
  assert (holds d1 (H ++ [r]) b) as Hholds.
  { intros y (g & Hg & Hy). rewrite (proj1 Hs) in Hg. apply list_elem_of_singleton in Hg as ->.
    destruct y as [bytes|]; [|done]. apply survives_durable in Hy. subst bytes.
    exists (floor_bytes H b ++ lr_frame r), [], []. rewrite app_nil_r, <-Hfb. done. }
  assert (Covered (eq H) d1) as Hcov.
  { apply (covered_log_change d d1 (as_current (al_anchors l)) H b);
      [apply Hr|done|apply Hs|].
    intros y Hy. destruct (Hholds y Hy) as (bytes & extra & tail & -> & Hi).
    exists bytes, ([r] ++ extra), tail. split; [done|].
    rewrite drop_app_le, <-app_assoc in Hi by done. revert Hi. unfold Acknowledged.floor_anchor.
    by rewrite take_app_le. }
  assert (lr_anchor r = end_anchor empty (H ++ [r])) as Hend by by rewrite end_anchor_app.
  set (origin := derived_origin sha256 (with_record r (al_log l))).
  assert (∀ e, origin = Some e → ∃ r', head (H ++ [r]) = Some r' ∧ e = la_digest (lr_anchor r')) as Hor.
  { intros e He. eapply (derived_origin_first (with_record r (al_log l)) (H ++ [r]) b e); try done.
    - cbn. rewrite (ra_log_base _ _ _ _ Hr). unfold Acknowledged.floor_anchor. by rewrite take_app_le.
    - rewrite length_app. lia.
    - cbn. rewrite (ra_events _ _ _ _ Hr), drop_app_le, fmap_app by done. done. }
  set (next := acknowledged_next (as_current (al_anchors l)) (lr_anchor r) (default ORIGIN_UNSET origin)).
  assert (pa_epoch next < 2 ^ 64 → anchored next (H ++ [r]) b)%N as Hnext
    by (intros He; by eapply anchored_next).
  apply acknowledge_wp; fold next.
  - intros e. by apply Hpart, covered_prefix.
  - intros [He _] d' Hd'. rewrite (ra_path _ _ _ _ Hr), (ra_key _ _ _ _ Hr) in Hd'.
    enough (Covered (prefix H) d') as Hd by (destruct (Hpart d' Hd); auto).
    destruct Hd' as [Hd'|Hd']; [by eapply covered_scratched, covered_prefix|].
    eapply covered_renamed; [done|by apply Hnext|by apply prefix_app_r|done|by apply covered_prefix].
  - intros [He _] d' Hd'. rewrite (ra_path _ _ _ _ Hr), (ra_key _ _ _ _ Hr) in Hd'.
    apply Hdone. pose proof (proj2 Hd' (log_name b) (log_path_anchor _ _) (log_path_scratch _ _)) as Hent.
    destruct Hr. split; cbn [al_set with_record al_log al_anchors al_paths as_current as_path as_key
      fl_path fl_base fl_anchor fl_events fl_length fl_cursor fl_poisoned]; try done.
    + by apply Hnext.
    + by rewrite ra_log_base0; unfold Acknowledged.floor_anchor; rewrite take_app_le.
    + by rewrite ra_events0, drop_app_le, fmap_app.
    + by eapply covered_installed; [done|apply Hnext|..].
    + intros _. rewrite Hlen, Hcur, Hfb, blen_app. split_and!; [done|done| |by rewrite <-Hfb].
      rewrite Hent. unfold file_at. by rewrite (proj1 Hs).
Qed.

Lemma append_wp d l H ev :
  event_ok ev = true → al_fenced l = false → Ready d l H →
  wp (append_acknowledged sha256 ev l)
    (λ x d', match x with
             | (Ok i, l') => al_fenced l' = false ∧ ∃ r, ce_event (lr_event r) = ev ∧
                 ce_index (lr_event r) = i ∧ Ready d' l' (H ++ [r])
             | (Err _, l') => Covered (prefix H) d' ∧ (al_fenced l' = false → Ready d' l' H)
             end) (Covered (prefix H)) d.
Proof using sha256_length.
  intros Hev Hf [b Hr]. unfold append_acknowledged. rewrite Hf. apply wp_bind.
  assert (al_set (al_log l) (al_anchors l) false l = l) as Hsame by (destruct l; cbn in *; by subst).
  apply (append_durable_wp d l H b ev); [done|done| | |].
  - intros e. rewrite Hsame. apply wp_ret. split; [apply covered_prefix, Hr|]. intros _. by exists b.
  - intros d' Hc. split; [by apply covered_prefix|]. intros e. apply wp_ret.
    split; [by apply covered_prefix|]. intros _. exists b. by eapply ready_poisoned.
  - intros d' r payload Hrec Hre Hmax Himg Hsize Hlen Hcur Hs. cbn [ledger_anchor with_record fl_poisoned fl_anchor].
    apply wp_bind. apply (acknowledge_record_wp d d' l H b r payload); try done.
    intros d2 next s Hr2. apply wp_ret. split; [done|]. exists r. split_and!; [done|done|by exists b].
Qed.
End AckAppend.
