(* ===== verification/AckOpen.v ===== *)
(** * Creating and reopening an acknowledged ledger *)

From S2P Require Import Prelude Bytes Types LedgerEvents LedgerChecks LedgerCodec LedgerCodecFacts.
From S2P Require Import LedgerEventFacts Ledger Integrity IntegrityLog Storage Anchor FileLedger.
From S2P Require Import Compaction Acknowledged AckAppend.
From stdpp Require Import options.

(** Nothing on the disk waits to become durable. *)
Definition settled (d : disk) : Prop :=
  ∀ n, en_reverts (entry_at d n) = [] ∧ ∀ f, file_at d n = Some f → f_pending f = [].

Section AckOpen.
Context (sha256 : list byte → list byte).
(** A SHA-256 digest has 32 bytes. *)
Context (sha256_length : ∀ x, length (sha256 x) = 32).
Context (p : LogPaths) (key : AnchorKey).

Abbreviation chain := (chain sha256).
Abbreviation empty := (LogAnchor_empty sha256).
Abbreviation log_image := (log_image sha256).
Abbreviation anchor_name := (anchor_path p).
Abbreviation log_name b := (log_path p (N.of_nat b)).
Abbreviation anchored := (anchored sha256).
Abbreviation floor_anchor := (floor_anchor sha256).
Abbreviation Covered := (Covered sha256 p key).
Abbreviation holds := (holds sha256 p).
Abbreviation ReadyAt := (ReadyAt sha256 p key).
Abbreviation Ready := (Ready sha256 p key).

(** ** Classification *)
Section classify.
Context (r : RecoverableLog) (pa : ProtectedAnchor) (H : list logrec) (b : nat).
Context (extra : list logrec) (tail : list byte) (zeros : N).
Context (Han : anchored pa H b) (Hbase : rl_base r = floor_anchor H b).
Context (Hpx : rl_prefix r = image_prefix (floor_anchor H b) (drop b H ++ extra) tail zeros).
Context (Hchain : chain (floor_anchor H b) (drop b H ++ extra)).

Lemma classify_origin e :
  rl_derived_origin sha256 r = Some e → origin_is_set (pa_origin pa) = true → e = pa_origin pa.
Proof using Han Hbase Hpx Hchain.
  unfold rl_derived_origin. rewrite Hbase, Hpx. case_bool_decide as Hf; [|done]. cbn [negb].
  apply floor_empty in Hf; [|apply Han..]. intros He Hset.
  destruct (an_origin _ _ _ _ Han) as [Ho|(first & Hfirst & Ho)].
  { rewrite Ho in Hset. unfold origin_is_set in Hset. by rewrite bool_decide_eq_true_2 in Hset. }
  destruct H as [|r0 H']; [done|]. injection Hfirst as ->. subst b.
  rewrite Ho. cbn in He. by injection He.
Qed.

Lemma end_acknowledged :
  pa_log pa = end_anchor (floor_anchor H b) (take (length (drop b H)) (drop b H ++ extra)).
Proof using Han. by rewrite (an_log _ _ _ _ Han), take_app_length, end_floor. Qed.

Lemma classify_image :
  classify sha256 r pa =
  if bool_decide (extra = [] ∧ tail = []) then Aligned
  else Unacknowledged (length extra) (negb (bool_decide (tail = [])))
         (end_anchor (floor_anchor H b) (drop b H ++ extra)).
Proof using Han Hbase Hpx Hchain.
  unfold classify. rewrite (an_base _ _ _ _ Han), Hbase, bool_decide_eq_true_2 by done. cbn [negb].
  assert (match rl_derived_origin sha256 r with
          | Some derived => origin_is_set (pa_origin pa) && negb (bool_decide (derived = pa_origin pa))
          | None => false
          end = false) as ->.
  { destruct (rl_derived_origin sha256 r) as [e|] eqn:He; [|done].
    destruct (origin_is_set (pa_origin pa)) eqn:Hs; [|done]. cbn [andb].
    by rewrite bool_decide_eq_true_2 by by apply classify_origin. }
  rewrite Hpx, end_acknowledged, (records_after_position sha256) by (done || (rewrite length_app; lia)).
  replace (length (drop b H ++ extra) - length (drop b H)) with (length extra) by (rewrite length_app; lia).
  unfold rl_tail. rewrite Hpx. cbn [px_incomplete px_verified vl_anchor image_prefix].
  destruct extra as [|x extra'].
  - case_bool_decide as H1; case_bool_decide as H2; cbn; try done; naive_solver.
  - rewrite (bool_decide_eq_false_2 (x :: extra' = [] ∧ tail = [])) by naive_solver. done.
Qed.
End classify.

(** ** Repair *)
Definition kept (path : string) (a0 : LogAnchor) (K : list logrec) : FileLedger :=
  {| fl_path := path; fl_events := lr_event <$> K; fl_anchor := end_anchor a0 K; fl_base := a0;
     fl_length := blen (LOG_MAGIC ++ log_bytes K); fl_cursor := blen (LOG_MAGIC ++ log_bytes K);
     fl_poisoned := false |}.

(** The log was cut to [keep] bytes; the cut may not be durable yet. *)
Definition cut_state (path : string) (bytes : list byte) (keep : nat) (d d' : disk) : Prop :=
  (entry_at d' path = {| en_file := Some (durable_file bytes); en_reverts := [] |} ∨
   entry_at d' path =
     {| en_file := Some (change_file (Truncate keep) (durable_file bytes)); en_reverts := [] |} ∨
   entry_at d' path = {| en_file := Some (durable_file (take keep bytes)); en_reverts := [] |}) ∧
  ∀ n, n ≠ path → entry_at d' n = entry_at d n.

Lemma truncate_wp path bytes keep (Q : result fault unit → disk → Prop) (C : disk → Prop) d :
  entry_at d path = {| en_file := Some (durable_file bytes); en_reverts := [] |} →
  (∀ d', cut_state path bytes (N.to_nat keep) d d' → C d' ∧ ∀ e, Q (Err e) d') →
  (∀ d', entry_at d' path =
           {| en_file := Some (durable_file (take (N.to_nat keep) bytes)); en_reverts := [] |} →
     (∀ n, n ≠ path → entry_at d' n = entry_at d n) → Q (Ok tt) d') →
  wp (truncate_durably path keep) Q C d.
Proof.
  intros Hd Hpart Hdone. unfold truncate_durably.
  set (d1 := update path (change_file (Truncate (N.to_nat keep))) d).
  assert (∀ g n, n ≠ path → entry_at (update path g d) n = entry_at d n) as Hne.
  { intros g n Hn. by rewrite entry_at_update, bool_decide_eq_false_2. }
  assert (entry_at d1 path = {| en_file := Some (change_file (Truncate (N.to_nat keep))
            (durable_file bytes)); en_reverts := [] |}) as H1.
  { unfold d1. rewrite entry_at_update, bool_decide_eq_true_2 by done. unfold file_at. by rewrite Hd. }
  assert (Q (Err (os_error Other)) d ∧ C d) as [HQ HC]
    by (destruct (Hpart d) as [? ?]; [split; auto|auto]).
  assert (Q (Err (os_error Other)) d1 ∧ C d1) as [HQ1 HC1].
  { destruct (Hpart d1) as [? ?]; [split; [by auto|by apply Hne]|auto]. }
  apply wp_try, wp_atomic; [|intros d' [->| ->]; auto]. fold d1.
  apply wp_syscall; [|auto]. apply Hdone.
  - rewrite entry_at_update, bool_decide_eq_true_2 by done. unfold file_at. by rewrite H1.
  - intros n Hn. rewrite entry_at_update, bool_decide_eq_false_2 by done. by apply Hne.
Qed.

Section repair.
Context (r : RecoverableLog) (pa : ProtectedAnchor) (H : list logrec) (b : nat).
Context (extra : list logrec) (tail : list byte) (zeros : N) (bytes : list byte).
Context (Han : anchored pa H b) (Hbase : rl_base r = floor_anchor H b).
Context (Hpx : rl_prefix r = image_prefix (floor_anchor H b) (drop b H ++ extra) tail zeros).
Context (Hlength : rl_length r = blen bytes).
Context (Himg : log_image (floor_anchor H b) (drop b H ++ extra) tail bytes).

Definition kept_records (K : list logrec) : Prop := K = drop b H ∨ K = drop b H ++ extra.

Lemma kept_prefix K : kept_records K → K = take (length K) (drop b H ++ extra).
Proof. intros [->| ->]; [by rewrite take_app_length|by rewrite firstn_all]. Qed.

Lemma kept_chain K : kept_records K → chain (floor_anchor H b) K.
Proof using Han Hbase Hpx Hlength Himg. intros HK. rewrite (kept_prefix K HK). apply chain_take, Himg. Qed.

Lemma kept_bytes K :
  kept_records K → take (length (LOG_MAGIC ++ log_bytes K)) bytes = LOG_MAGIC ++ log_bytes K.
Proof using Han Hbase Hpx Hlength Himg.
  intros HK. rewrite (li_bytes _ _ _ _ _ Himg), <-(take_drop (length K) (drop b H ++ extra)).
  rewrite <-(kept_prefix K HK), log_bytes_app, <-app_assoc, (app_assoc LOG_MAGIC).
  apply take_app_length.
Qed.

(** What [repair] computes for the records it keeps. *)
Lemma repair_keep (discard : bool) :
  let K := if discard then drop b H else drop b H ++ extra in
  (if discard then ok_or (offset_of (rl_prefix r) (pa_log pa)) (unrecoverable Diverged)
   else Ok (px_complete_bytes (rl_prefix r))) = Ok (blen (LOG_MAGIC ++ log_bytes K)) ∧
  (if discard then pa_log pa else rl_tail r) = end_anchor (floor_anchor H b) K.
Proof using Han Hbase Hpx Hlength Himg.
  cbv zeta. rewrite blen_app. change (blen LOG_MAGIC) with 8%N. destruct discard.
  - pose proof (end_acknowledged pa H b extra Han) as He.
    rewrite Hpx, He, (offset_of_position sha256) by
      (try apply Himg; rewrite length_app; lia).
    cbn [ok_or]. by rewrite !take_app_length.
  - unfold rl_tail. by rewrite Hpx.
Qed.

Lemma repair_events K :
  kept_records K →
  take (N.to_nat (la_index (end_anchor (floor_anchor H b) K) - la_index (floor_anchor H b)))
    (vl_events (px_verified (rl_prefix r))) = lr_event <$> K.
Proof using Han Hbase Hpx Hlength Himg.
  intros HK. rewrite (end_anchor_index sha256) by by apply kept_chain.
  rewrite Hpx. cbn [px_verified vl_events image_prefix]. unfold blen.
  replace (N.to_nat _) with (length K) by lia. rewrite <-fmap_take. by rewrite <-kept_prefix.
Qed.

(** Cutting the log, if there is something to cut, and adopting it. *)
Lemma repair_adopt_wp K d rest (Q : result fault (FileLedger * TailRecovery) → disk → Prop)
    (C : disk → Prop) :
  kept_records K →
  entry_at d (rl_path r) = {| en_file := Some (durable_file bytes); en_reverts := [] |} →
  (∀ d', cut_state (rl_path r) bytes (length (LOG_MAGIC ++ log_bytes K)) d d' →
     C d' ∧ ∀ e, Q (Err e) d') →
  (∀ d', entry_at d' (rl_path r) =
           {| en_file := Some (durable_file (LOG_MAGIC ++ log_bytes K)); en_reverts := [] |} →
     (∀ n, n ≠ rl_path r → entry_at d' n = entry_at d n) →
     wp (rest (kept (rl_path r) (floor_anchor H b) K)) Q C d') →
  let keep := blen (LOG_MAGIC ++ log_bytes K) in
  wp (try* _ := (if negb (keep =? rl_length r)%N then truncate_durably (rl_path r) keep
                 else pret (Ok tt)) in
      try* ledger := from_verified_above (rl_path r)
        {| vl_events := lr_event <$> K; vl_anchor := end_anchor (floor_anchor H b) K |}
        keep (floor_anchor H b) in
      rest ledger) Q C d.
Proof using Han Hbase Hpx Hlength Himg.
  intros HK Hd Hpart Hrest keep. pose proof (kept_bytes K HK) as Htake.
  assert (N.to_nat keep = length (LOG_MAGIC ++ log_bytes K)) as Hkeep by (unfold keep, blen; lia).
  assert (∀ d', entry_at d' (rl_path r) =
      {| en_file := Some (durable_file (LOG_MAGIC ++ log_bytes K)); en_reverts := [] |} →
    (∀ n, n ≠ rl_path r → entry_at d' n = entry_at d n) →
    wp (try* ledger := from_verified_above (rl_path r)
          {| vl_events := lr_event <$> K; vl_anchor := end_anchor (floor_anchor H b) K |}
          keep (floor_anchor H b) in rest ledger) Q C d') as Hadopt.
  { intros d' He Ho. destruct (Hpart d') as [HC HE].
    { split; [|done]. right; right. by rewrite Htake. }
    apply wp_try. unfold from_verified_above. apply wp_try, wp_query; [|apply HE|done].
    unfold file_at. rewrite He. apply wp_ret. by apply Hrest. }
  apply wp_try. destruct (keep =? rl_length r)%N eqn:Hk; cbn [negb].
  - bool_prop. apply wp_ret, Hadopt; [|done]. rewrite Hd. do 3 f_equal.
    rewrite <-Htake, take_ge; [done|]. rewrite Hlength in Hk. unfold keep, blen in Hk. lia.
  - apply (truncate_wp _ bytes); [done| |].
    + rewrite Hkeep. apply Hpart.
    + rewrite Hkeep, Htake. apply Hadopt.
Qed.

Lemma repair_wp policy d (Q : result fault (FileLedger * TailRecovery) → disk → Prop)
    (C : disk → Prop) :
  entry_at d (rl_path r) = {| en_file := Some (durable_file bytes); en_reverts := [] |} →
  (∀ K d', kept_records K → cut_state (rl_path r) bytes (length (LOG_MAGIC ++ log_bytes K)) d d' →
     C d' ∧ ∀ e, Q (Err e) d') →
  (∀ K d' recovery, kept_records K →
     entry_at d' (rl_path r) =
       {| en_file := Some (durable_file (LOG_MAGIC ++ log_bytes K)); en_reverts := [] |} →
     (∀ n, n ≠ rl_path r → entry_at d' n = entry_at d n) →
     tr_tail recovery = end_anchor (floor_anchor H b) K →
     tr_origin recovery = derived_origin sha256 (kept (rl_path r) (floor_anchor H b) K) →
     Q (Ok (kept (rl_path r) (floor_anchor H b) K, recovery)) d') →
  wp (repair sha256 r pa policy) Q C d.
Proof using Han Hbase Hpx Hlength Himg.
  intros Hd Hpart Hdone.
  destruct (Hpart (drop b H) d) as [HC HE]; [by left|split; auto|].
  assert (∃ n inc, (match classify sha256 r pa with
          | Aligned => Ok (0%nat, false)
          | Unacknowledged n inc _ => Ok (n, inc)
          | split => Err (unrecoverable split)
          end : result fault (nat * bool)) = Ok (n, inc) ∧ n = length extra) as (n & inc & Hcl & Hn).
  { rewrite (classify_image r pa H b extra tail zeros Han Hbase Hpx (li_chain _ _ _ _ _ Himg)).
    case_bool_decide as Ha; [destruct Ha as [-> _]|]; by eexists _, _. }
  unfold repair. rewrite Hcl. apply wp_lift_ok. cbn beta iota.
  destruct (bool_decide (policy = Refuse) && _); [apply wp_ret, HE|].
  set (discard := bool_decide (policy = Discard) && (0 <? n)%nat).
  set (K := if discard then drop b H else drop b H ++ extra).
  assert (kept_records K) as HK by (unfold K, kept_records; destruct discard; auto).
  destruct (repair_keep discard) as [Hk Ht]. fold K in Hk, Ht. rewrite Hk, Ht, Hbase.
  apply wp_lift_ok. rewrite (repair_events K HK).
  apply (repair_adopt_wp K d); [done|done|by intros; eapply Hpart|].
  intros d' He Ho. apply wp_ret. by apply Hdone.
Qed.

Lemma kept_image K :
  kept_records K → log_image (floor_anchor H b) K [] (LOG_MAGIC ++ log_bytes K).
Proof using Han Hbase Hpx Hlength Himg.
  intros HK. split; [by rewrite app_nil_r|by apply kept_chain| | |by left].
  - pose proof (li_count _ _ _ _ _ Himg) as Hc. unfold blen in *. rewrite length_app in Hc.
    destruct HK as [->| ->]; rewrite ?length_app; lia.
  - pose proof (li_size _ _ _ _ _ Himg) as Hsz. rewrite <-(kept_bytes K HK). unfold blen in *.
    rewrite length_take. lia.
Qed.

Lemma cut_covered K d d' :
  kept_records K → rl_path r = log_name b → Covered (eq H) d →
  cut_state (rl_path r) bytes (length (LOG_MAGIC ++ log_bytes K)) d d' → Covered (eq H) d'.
Proof using Han Hbase Hpx Hlength Himg.
  intros HK Hpath Hcov [He Ho]. rewrite Hpath in *.
  apply (covered_log_change _ _ _ d d' pa H b); [done..|]. intros y (g & Hg & Hy).
  assert (∃ x, y = Some x ∧ (x = bytes ∨ x = LOG_MAGIC ++ log_bytes K)) as (x & -> & Hx).
  { pose proof (kept_bytes K HK) as Htake.
    destruct He as [He|[He|He]]; rewrite He in Hg; apply list_elem_of_singleton in Hg as ->;
      (destruct y as [x|]; [|done]); exists x; (split; [done|]).
    - apply survives_durable in Hy. auto.
    - rewrite <-Htake. by apply truncated_survives.
    - apply survives_durable in Hy. rewrite Htake in Hy. auto. }
  destruct Hx as [->| ->]; [by exists bytes, extra, tail|].
  pose proof (kept_image K HK) as Hi.
  destruct HK as [->| ->]; [eexists _, [], []; by rewrite app_nil_r|by eexists _, extra, []].
Qed.
End repair.

(** ** Opening *)
Lemma settled_covered d f pa H b :
  settled d → file_at d anchor_name = Some f → content f = anchor_record sha256 key pa →
  anchored pa H b → holds d H b → Covered (eq H) d.
Proof.
  intros Hs Hf Hc Han Hh x (g & Hg & Hx). destruct (Hs anchor_name) as [Hr Hp].
  rewrite Hr in Hg. unfold file_at in Hf. rewrite Hf in Hg. apply list_elem_of_singleton in Hg as ->.
  destruct x as [bytes|]; [|done]. apply survives_synced in Hx; [|by apply Hp].
  exists pa, H, b. split_and!; try done. rewrite Hx, <-Hc. unfold content.
  by rewrite (Hp f Hf).
Qed.

Lemma settled_entry d n f :
  settled d → file_at d n = Some f →
  entry_at d n = {| en_file := Some (durable_file (content f)); en_reverts := [] |}.
Proof.
  intros Hs Hf. destruct (Hs n) as [Hr Hp]. specialize (Hp f Hf). unfold file_at in Hf.
  destruct (entry_at d n) as [g rv]. cbn in *. subst. do 2 f_equal. unfold content, durable_file.
  rewrite Hp. destruct f. cbn in *. by subst.
Qed.

Lemma lock_for_recovery_wp path base (Q : result fault RecoverableLog → disk → Prop)
    (C : disk → Prop) d f px :
  file_at d path = Some f → (blen (content f) ≤ MAX_LOG_BYTES)%N →
  scan_from sha256 (content f) base = Ok px →
  (∀ e, Q (Err e) d) → C d →
  Q (Ok {| rl_path := path; rl_base := base; rl_prefix := px; rl_length := blen (content f) |}) d →
  wp (lock_for_recovery sha256 path base) Q C d.
Proof.
  intros Hf Hb Hscan He HC Hok. unfold lock_for_recovery, lock_existing, read_bounded.
  apply wp_try, wp_query; [|apply He|done]. rewrite Hf.
  apply wp_try, wp_bind, (read_bounded_at_wp _ _ _ _ _ f); [done|done|intros; apply wp_ret, He|done|].
  apply wp_ret. rewrite Hscan. by apply wp_lift_ok, wp_ret.
Qed.

Lemma holds_durable d H b K extra :
  K = drop b H ++ extra → log_image (floor_anchor H b) K [] (LOG_MAGIC ++ log_bytes K) →
  entry_at d (log_name b) =
    {| en_file := Some (durable_file (LOG_MAGIC ++ log_bytes K)); en_reverts := [] |} →
  holds d H b.
Proof.
  intros -> Hi He y (g & Hg & Hy). rewrite He in Hg. apply list_elem_of_singleton in Hg as ->.
  destruct y as [x|]; [|done]. apply survives_durable in Hy. subst x. by eexists _, extra, [].
Qed.

Lemma floor_app H b extra : b ≤ length H → floor_anchor (H ++ extra) b = floor_anchor H b.
Proof. intros Hb. unfold Acknowledged.floor_anchor. by rewrite take_app_le. Qed.

(** A ledger adopted from its file. *)
Definition adopted (anchors : AnchorStore) (log : FileLedger) (recovery : option TailRecovery) :
    AcknowledgedLedger :=
  {| al_log := log; al_anchors := anchors; al_paths := p; al_fenced := false; al_recovery := recovery |}.
Definition store (pa : ProtectedAnchor) : AnchorStore :=
  {| as_path := anchor_name; as_key := key; as_current := pa |}.

Lemma adopted_ready d pa H b recovery :
  anchored pa H b → Covered (eq H) d →
  log_image (floor_anchor H b) (drop b H) [] (floor_bytes H b) →
  entry_at d (log_name b) = {| en_file := Some (durable_file (floor_bytes H b)); en_reverts := [] |} →
  ReadyAt d (adopted (store pa) (kept (log_name b) (floor_anchor H b) (drop b H)) recovery) H b.
Proof. intros Han Hc Hi He. split; try done. apply end_floor. Qed.

(** The records kept above the anchor are acknowledged. *)
Lemma acknowledge_kept_wp d pa H b extra acked
    (Q : result AnchorError ProtectedAnchor * AnchorStore → disk → Prop) (C : disk → Prop) :
  let K := drop b H ++ extra in
  let log := kept (log_name b) (floor_anchor H b) K in
  anchored pa H b → prefix acked H → Covered (eq H) d →
  log_image (floor_anchor H b) K [] (LOG_MAGIC ++ log_bytes K) →
  entry_at d (log_name b) =
    {| en_file := Some (durable_file (LOG_MAGIC ++ log_bytes K)); en_reverts := [] |} →
  (∀ d', Covered (prefix acked) d' → C d' ∧ ∀ e s, Q (Err e, s) d') →
  (∀ d' next s recovery, ReadyAt d' (adopted s log recovery) (H ++ extra) b → Q (Ok next, s) d') →
  wp (acknowledge sha256 (store pa) (end_anchor (floor_anchor H b) K)
        (default ORIGIN_UNSET (derived_origin sha256 log))) Q C d.
Proof using sha256_length.
  intros K log Han Hpre Hcov Hi He Hpart Hdone.
  pose proof (an_chain _ _ _ _ Han) as Hc. pose proof (an_floor _ _ _ _ Han) as Hb.
  assert (drop b (H ++ extra) = K) as HK by by rewrite drop_app_le.
  assert (chain empty (H ++ extra)) as Hc'.
  { rewrite <-(take_drop b H), <-app_assoc. apply chain_app. split; [by apply chain_take|apply Hi]. }
  assert (end_anchor (floor_anchor H b) K = end_anchor empty (H ++ extra)) as Hend.
  { rewrite <-(end_floor _ (H ++ extra) b), HK. by rewrite floor_app. }
  assert (prefix acked (H ++ extra)) as Hpre' by by apply prefix_app_r.
  assert (Covered (prefix acked) d) as Hcov' by (eapply covered_mono; [|done]; by intros ? <-).
  assert (holds d (H ++ extra) b) as Hh.
  { apply (holds_durable d (H ++ extra) b K []); [by rewrite HK, app_nil_r| |done]. by rewrite floor_app. }
  set (next := acknowledged_next pa (end_anchor (floor_anchor H b) K)
                 (default ORIGIN_UNSET (derived_origin sha256 log))).
  assert (pa_epoch next < 2 ^ 64 → anchored next (H ++ extra) b)%N as Hnext.
  { intros Hep. eapply anchored_next; [done|done|done|done| |done].
    intros e Ho. eapply (derived_origin_first _ log (H ++ extra) b e); try done.
    - by rewrite floor_app.
    - rewrite length_app. lia.
    - by rewrite HK. }
  apply acknowledge_wp; fold next; cbn [store as_path as_key as_current].
  - intros e. by apply Hpart.
  - intros [Hep _] d' Hd'. enough (Covered (prefix acked) d') as Hd by (destruct (Hpart d' Hd); auto).
    destruct Hd' as [Hd'|Hd']; [by eapply covered_scratched|].
    by eapply covered_renamed; [done|apply Hnext|..].
  - intros [Hep _] d' Hd'. apply (Hdone _ _ _ None).
    pose proof (proj2 Hd' (log_name b) (log_path_anchor _ _) (log_path_scratch _ _)) as Hent.
    pose proof (adopted_ready d' next (H ++ extra) b None) as Hr. rewrite HK, floor_app in Hr by done.
    apply Hr; [by apply Hnext|by eapply covered_installed; [done|apply Hnext|..]| |].
    + unfold floor_bytes. by rewrite HK.
    + rewrite Hent. unfold floor_bytes. rewrite HK. unfold file_at. by rewrite He.
Qed.

Lemma ready_recovery d s log x y H b :
  ReadyAt d (adopted s log x) H b → ReadyAt d (adopted s log y) H b.
Proof. intros []. by split. Qed.

Lemma wp_accept {E A B} (c : result E A) (k : A → prog (result E B)) Q C d :
  (∀ a, c = Ok a → wp (k a) Q C d) → (∀ e, c = Err e → Q (Err e) d) → wp (ptry (plift c) k) Q C d.
Proof. intros Hok He. apply wp_try, wp_ret. destruct c; auto. Qed.

(** What opening promises. *)
Definition opened (acked : list logrec) (res : ack_result (AcknowledgedLedger * Split)) (d : disk) : Prop :=
  match res with
  | Ok (l, _) => al_fenced l = false ∧ ∃ H, prefix acked H ∧ Ready d l H
  | Err _ => Covered (prefix acked) d
  end.

(** The part behind the repair. *)
Lemma open_acknowledge_wp d acked pa H b extra K split recovery :
  let log := kept (log_name b) (floor_anchor H b) K in
  prefix acked H → anchored pa H b → Covered (eq H) d →
  K = drop b H ∨ K = drop b H ++ extra →
  log_image (floor_anchor H b) K [] (LOG_MAGIC ++ log_bytes K) →
  entry_at d (log_name b) =
    {| en_file := Some (durable_file (LOG_MAGIC ++ log_bytes K)); en_reverts := [] |} →
  tr_tail recovery = end_anchor (floor_anchor H b) K → tr_origin recovery = derived_origin sha256 log →
  wp (try* anchors :=
        (if negb (bool_decide (tr_tail recovery = pa_log pa)) then
           let* (r, anchors) := acknowledge sha256 (store pa) (tr_tail recovery)
                                  (default ORIGIN_UNSET (tr_origin recovery)) in
           pret (match r with Ok _ => Ok anchors | Err e => Err (AckAnchor e) end)
         else pret (Ok (store pa))) in
      pret (Ok ({| al_log := log; al_anchors := anchors; al_paths := p; al_fenced := false;
                   al_recovery := Some recovery |}, split))) (opened acked) (Covered (prefix acked)) d.
Proof using sha256_length.
  intros log Hpre Han Hcov HK Hki Hent Htail Horig.
  case_bool_decide as Heq; cbn [negb].
  - assert (K = drop b H) as HK'.
    { destruct HK as [->| ->]; [done|]. destruct extra as [|x extra]; [by rewrite app_nil_r|].
      rewrite Htail, (an_log _ _ _ _ Han), <-(end_floor _ H b) in Heq. apply (f_equal la_index) in Heq.
      rewrite !(end_anchor_index sha256) in Heq by (apply Hki || by apply chain_drop, Han).
      rewrite blen_app, blen_cons in Heq. lia. }
    apply wp_try, wp_ret, wp_ret. split; [done|]. exists H. split; [done|]. exists b.
    unfold log. rewrite HK' in *. by apply (adopted_ready d pa H b (Some recovery)).
  - assert (K = drop b H ++ extra) as HK'.
    { destruct HK as [->| ->]; [|done]. destruct Heq. by rewrite Htail, end_floor, (an_log _ _ _ _ Han). }
    apply wp_try, wp_bind. rewrite Htail, Horig. unfold log. rewrite HK' in *.
    apply (acknowledge_kept_wp d pa H b extra acked); [done..|by intros; split; [|intros; apply wp_ret]|].
    intros d2 next s x Hr. apply wp_ret, wp_ret. split; [done|]. exists (H ++ extra).
    split; [by apply prefix_app_r|]. exists b. by eapply ready_recovery.
Qed.

(** The part behind the anchor. *)
Lemma open_log_wp d acked pa H b policy :
  settled d → prefix acked H → anchored pa H b → holds d H b → Covered (eq H) d →
  wp (try* locked := of_log (lock_for_recovery sha256 (log_name b) (floor_anchor H b)) in
      let split := classify sha256 locked pa in
      try* _ := plift
        match split with
        | Aligned => Ok tt
        | Unacknowledged complete_records incomplete_frame _ =>
            if bool_decide (policy = Refuse)
            then Err (AckTailRefused complete_records incomplete_frame) else Ok tt
        | fault => Err (AckUnrecoverable fault)
        end in
      try* (log, recovery) := of_log (repair sha256 locked pa policy) in
      try* anchors :=
        (if negb (bool_decide (tr_tail recovery = pa_log pa)) then
           let* (r, anchors) := acknowledge sha256 (store pa) (tr_tail recovery)
                                  (default ORIGIN_UNSET (tr_origin recovery)) in
           pret (match r with Ok _ => Ok anchors | Err e => Err (AckAnchor e) end)
         else pret (Ok (store pa))) in
      pret (Ok ({| al_log := log; al_anchors := anchors; al_paths := p; al_fenced := false;
                   al_recovery := Some recovery |}, split))) (opened acked) (Covered (prefix acked)) d.
Proof using sha256_length.
  intros Hs Hpre Han Hh Hcov.
  assert (∀ d', Covered (eq H) d' → Covered (prefix acked) d') as Hmono
    by (intros d'; apply covered_mono; by intros ? <-).
  destruct (file_at d (log_name b)) as [g|] eqn:Hg.
  2:{ destruct (Hh None) as (? & ? & ? & ? & ?); [|done]. exists None. split; [|done].
      unfold file_at in Hg. rewrite Hg. left. }
  destruct (Hh (Some (content g))) as (bytes & extra & tail & Hb & Himg); [by apply possible_content|].
  injection Hb as <-.
  destruct (scan_image sha256 sha256_length _ _ _ _ (floor_ok _ sha256_length _ b (an_chain _ _ _ _ Han)) Himg)
    as (zeros & Hscan).
  apply wp_try, wp_map_err.
  eapply lock_for_recovery_wp; [done|apply Himg|done|by intros; apply Hmono|by apply Hmono|].
  set (r := {| rl_path := log_name b; rl_base := _; rl_prefix := _; rl_length := _ |}).
  apply wp_accept; [|by intros; apply Hmono]. intros [] _. apply wp_try, wp_map_err.
  apply (repair_wp r pa H b extra tail zeros (content g) Han eq_refl eq_refl eq_refl Himg);
    [by apply settled_entry| |].
  { intros K d' HK Hcut. enough (Covered (prefix acked) d') by done.
    apply Hmono. by eapply (cut_covered r pa H b extra tail zeros (content g)). }
  intros K d' recovery HK Hent' Ho Htail Horig. cbn [rl_path r] in *.
  pose proof (kept_image r pa H b extra tail zeros (content g) Han eq_refl eq_refl eq_refl Himg K HK) as Hki.
  apply (open_acknowledge_wp d' acked pa H b extra K); try done.
  eapply (cut_covered r pa H b extra tail zeros (content g) Han eq_refl eq_refl eq_refl Himg K d);
    [done|done|done|]. split; [|done]. right; right.
  by rewrite (kept_bytes r pa H b extra tail zeros (content g) Han eq_refl eq_refl eq_refl Himg K HK).
Qed.

(** Opening a settled disk, whatever fails and wherever it stops. *)
Lemma ack_open_wp d acked minimum policy :
  settled d → Covered (prefix acked) d →
  wp (ack_open sha256 p key minimum policy) (opened acked) (Covered (prefix acked)) d.
Proof using sha256_length.
  intros Hs Hcov. unfold ack_open. apply wp_try, wp_map_err, open_expecting_wp; [done..|].
  intros f pa Hf Hcon Hwf _. cbn [as_current].
  destruct (Hcov (Some (content f))) as (pa' & H & b & Hrec & Han & Hpre & Hh);
    [by apply possible_content|]. injection Hrec as Hrec.
  assert (pa' = pa) as ->.
  { eapply record_inj; [done|by eapply anchored_wf|done|]. by rewrite <-Hrec, <-Hcon. }
  rewrite (an_base _ _ _ _ Han), floor_index by apply Han.
  apply (open_log_wp d acked pa H b); [done..|]. by eapply settled_covered.
Qed.

(** ** Creating *)
Lemma initial_anchored : anchored (anchor_initial sha256) [] 0.
Proof. split; try done. by left. Qed.

Lemma start_image : log_image empty [] [] (floor_bytes [] 0).
Proof. split; try done. by left. Qed.

Lemma decode_magic :
  decode_log sha256 LOG_MAGIC = Ok {| vl_events := []; vl_anchor := empty |}.
Proof.
  unfold decode_log, decode_log_from, scan_from.
  rewrite (proj2 (N.ltb_ge _ _)), firstn_all, bool_decide_eq_true_2 by done. cbn [negb].
  by rewrite drop_all.
Qed.

Lemma initialize_wp d l0 :
  entry_at d (log_name 0) = {| en_file := Some (durable_file (floor_bytes [] 0)); en_reverts := [] |} →
  l0 = kept (log_name 0) empty [] →
  wp (initialize sha256 anchor_name key (anchor_initial sha256))
    (λ r d', match r with
             | Ok anchors => ReadyAt d' (adopted anchors l0 None) [] 0
             | Err _ => True
             end) (λ _, True) d.
Proof using sha256_length.
  intros He ->. pose proof initial_anchored as Han. unfold initialize.
  apply wp_accept; [|done]. intros [] _. apply wp_bind, wp_exists.
  destruct (bool_decide _); [by apply wp_ret|]. apply wp_try, wp_map_err, write_atomically_wp; [done|].
  intros d' Hd'. apply wp_ret.
  pose proof (proj2 Hd' (log_name 0) (log_path_anchor _ _) (log_path_scratch _ _)) as Hent.
  assert (holds d [] 0) as Hh by (by eapply (holds_durable d [] 0 [] []); [|apply start_image|]).
  apply (adopted_ready d' _ [] 0 None); [done| |apply start_image|].
  - by eapply covered_installed.
  - rewrite Hent. unfold file_at. by rewrite He.
Qed.

Lemma start_log_wp d (Q : result fault FileLedger → disk → Prop) (C : disk → Prop) :
  file_at d (log_name 0) = Some new_file →
  (∀ d', C d' ∧ ∀ e, Q (Err e) d') →
  (∀ d', entry_at d' (log_name 0) =
           {| en_file := Some (durable_file (floor_bytes [] 0)); en_reverts := [] |} →
     Q (Ok (kept (log_name 0) empty [])) d') →
  wp (start_log sha256 (log_name 0)) Q C d.
Proof.
  intros Hf Hpart Hdone. unfold start_log.
  assert (∀ d', Q (Err (os_error Other)) d' ∧ C d') as Hp by (intros d'; destruct (Hpart d'); auto).
  apply wp_try, wp_syscall; [|intros; apply Hp].
  apply wp_try, wp_syscall; [|intros; apply Hp]. unfold sync_parent.
  apply wp_try, wp_try, wp_query; [|apply Hp..].
  apply wp_syscall; [|intros; apply Hp].
  rewrite decode_magic. apply wp_lift_ok. unfold from_verified, from_verified_above.
  apply wp_try, wp_query; [|apply Hp..]. set (d' := sync_directory _).
  assert (entry_at d' (log_name 0) =
    {| en_file := Some (durable_file (floor_bytes [] 0)); en_reverts := [] |}) as He.
  { unfold d'. rewrite entry_at_sync. unfold file_at at 1.
    rewrite entry_at_update, bool_decide_eq_true_2 by done. cbn [en_file].
    unfold file_at at 1. rewrite entry_at_update, bool_decide_eq_true_2, Hf by done. reflexivity. }
  unfold file_at at 1. rewrite He. cbn [en_file]. apply wp_ret. by apply Hdone.
Qed.

(** A ledger that was created is in service with an empty history. *)
Lemma ack_create_wp d :
  wp (ack_create sha256 p key)
    (λ r d', match r with
             | Ok l => al_fenced l = false ∧ Ready d' l []
             | Err _ => True
             end) (λ _, True) d.
Proof using sha256_length.
  unfold ack_create. apply wp_bind, wp_exists. destruct (bool_decide _); [by apply wp_ret|].
  apply wp_try, wp_map_err. unfold create_new. apply wp_try, wp_create_new; [done| |done].
  intros _. apply start_log_wp; [|done|].
  { unfold file_at. by rewrite entry_at_rebind, bool_decide_eq_true_2. }
  intros d1 He. apply wp_try, wp_map_err.
  eapply wp_mono; [by eapply (initialize_wp d1 (kept (log_name 0) empty []))| |done].
  intros [anchors|e] d2 Hr; [|done]. apply wp_ret. split; [done|]. by exists 0.
Qed.
End AckOpen.
