(* ===== verification/AckCompact.v ===== *)
(** * Raising the floor of an acknowledged ledger, whatever fails *)

From S2P Require Import Prelude Bytes Types LedgerEvents LedgerChecks LedgerCodec LedgerCodecFacts.
From S2P Require Import LedgerEventFacts Ledger Integrity IntegrityLog Storage Anchor FileLedger.
From S2P Require Import Compaction Acknowledged AckAppend AckOpen.
From stdpp Require Import options.

Section AckCompact.
Context (sha256 : list byte → list byte).
(** A SHA-256 digest has 32 bytes. *)
Context (sha256_length : ∀ x, length (sha256 x) = 32).
Context (p : LogPaths) (key : AnchorKey).

Abbreviation chain := (chain sha256).
Abbreviation empty := (LogAnchor_empty sha256).
Abbreviation log_image := (log_image sha256).
Abbreviation anchor_name := (anchor_path p).
Abbreviation log_name b := (log_path p (N.of_nat b)).
Abbreviation anchored := (anchored sha256).
Abbreviation floor_anchor := (floor_anchor sha256).
Abbreviation Covered := (Covered sha256 p key).
Abbreviation holds := (holds sha256 p).
Abbreviation ReadyAt := (ReadyAt sha256 p key).
Abbreviation Ready := (Ready sha256 p key).

(** ** Records are determined by their events *)
Lemma recorded_det a r r' q q' :
  recorded sha256 a r q → recorded sha256 a r' q' → lr_event r = lr_event r' → r = r'.
Proof.
  intros Hr Hr' He. pose proof (rc_payload _ _ _ _ Hr) as Hp. pose proof (rc_payload _ _ _ _ Hr') as Hp'.
  rewrite He, Hp' in Hp. injection Hp as ->.
  pose proof (rc_frame _ _ _ _ Hr). pose proof (rc_frame _ _ _ _ Hr').
  pose proof (rc_anchor _ _ _ _ Hr). pose proof (rc_anchor _ _ _ _ Hr').
  destruct r, r'. cbn in *. subst. done.
Qed.

Lemma chain_det a rs : ∀ rs',
  chain a rs → chain a rs' → lr_event <$> rs = lr_event <$> rs' → rs = rs'.
Proof.
  revert a. induction rs as [|r rs IH]; intros a [|r' rs'] Hc Hc' He; try done.
  rewrite !fmap_cons in He. injection He as He Hes. destruct Hc as [[q Hq] Hc], Hc' as [[q' Hq'] Hc'].
  assert (r = r') as <- by by eapply recorded_det. f_equal. by eapply IH.
Qed.

Lemma encode_record_recorded a r q x :
  recorded sha256 a r q → encode_record sha256 (ce_event (lr_event r)) a = Ok x →
  x = (lr_frame r, lr_anchor r).
Proof.
  intros Hr He. destruct (decide (ce_index (lr_event r) ≤ MAX_RECORDS)%N) as [Hm|Hm].
  - rewrite (encode_record_complete _ _ _ _ Hr Hm) in He. by injection He.
  - unfold encode_record in He. rewrite (rc_index _ _ _ _ Hr) in He.
    rewrite (proj2 (N.ltb_lt _ _)) in He by lia. done.
Qed.

Lemma chain_loop_anchors rs : ∀ a anchors,
  chain a rs → chain_loop sha256 (lr_event <$> rs) a = Ok anchors → anchors = lr_anchor <$> rs.
Proof.
  induction rs as [|r rs IH]; intros a anchors Hc H; [by injection H as <-|].
  destruct Hc as [[q Hq] Hc]. rewrite fmap_cons in H. cbn [chain_loop] in H.
  apply rbind_ok_inv in H as (x & He & H). rewrite (encode_record_recorded _ _ _ _ Hq He) in H.
  cbn beta iota in H. destruct (negb _); [done|]. apply rbind_ok_inv in H as (as' & Hl & H).
  injection H as <-. rewrite fmap_cons. f_equal. by eapply IH.
Qed.

Lemma chain_events_ok a rs : chain a rs → events_ok (lr_event <$> rs).
Proof.
  revert a. induction rs as [|r rs IH]; intros a Hc; [constructor|].
  destruct Hc as [[q Hq] Hc]. rewrite fmap_cons. constructor; [apply (rc_wf _ _ _ _ Hq)|by eapply IH].
Qed.

Lemma end_anchor_lookup rs : ∀ a n r,
  rs !! n = Some r → lr_anchor r = end_anchor a (take (S n) rs).
Proof.
  induction rs as [|x rs IH]; intros a n r Hr; [done|]. destruct n as [|n].
  - injection Hr as ->. cbn. by destruct rs.
  - cbn [take end_anchor]. apply IH. exact Hr.
Qed.

(** ** Plans *)

(** A plan that passes its checks raises the floor to a record boundary. *)
Lemma check_plan_floor d l H b plan retained :
  ReadyAt d l H b → check_plan sha256 l plan = Ok retained →
  ∃ b', b < b' ≤ length H ∧ cp_base plan = floor_anchor H b' ∧
        cp_tail plan = end_anchor empty H ∧ retained = lr_event <$> drop b' H.
Proof.
  intros Hr Hp. pose proof (ra_anchored _ _ _ _ _ _ _ Hr) as Han.
  pose proof (an_chain _ _ _ _ Han) as Hc. pose proof (an_floor _ _ _ _ Han) as Hb.
  unfold check_plan, ack_anchor in Hp. destruct (al_fenced l); [done|].
  rewrite (an_log _ _ _ _ Han), (an_base _ _ _ _ Han), (ra_events _ _ _ _ _ _ _ Hr) in Hp.
  case_bool_decide as Ht; [|done]. cbn [negb] in Hp.
  destruct (_ <=? _)%N eqn:H1 in Hp; [done|]. destruct (_ <? _)%N eqn:H2 in Hp; [done|].
  rewrite floor_index, history_length in * by done. bool_prop.
  apply rbind_ok_inv in Hp as (anchors & Ha & Hp). case_bool_decide as Hlk; [|done].
  cbn [negb] in Hp. injection Hp as <-.
  set (off := N.to_nat (la_index (cp_base plan) - N.of_nat b)) in *.
  unfold chain_anchors in Ha. destruct (_ <? _)%N in Ha; [done|].
  destruct (chain_loop _ _ _) as [as'|] eqn:Hl in Ha; [|done]. injection Ha as ->.
  apply chain_loop_anchors in Hl; [|by apply chain_drop]. subst anchors.
  rewrite list_lookup_fmap in Hlk. destruct (drop b H !! (off - 1)) as [r|] eqn:Hx; [|done].
  injection Hlk as Hlk. assert (0 < off) as Hoff by (unfold off; lia).
  exists (b + off). pose proof (lookup_lt_Some _ _ _ Hx) as Hlt. rewrite length_drop in Hlt.
  split_and!; [lia|lia| |done|by rewrite <-fmap_drop, drop_drop].
  rewrite <-Hlk. rewrite (end_anchor_lookup _ (floor_anchor H b) _ _ Hx).
  replace (S (off - 1)) with off by lia. unfold Acknowledged.floor_anchor.
  by rewrite <-end_anchor_app, take_take_drop.
Qed.

(** ** The new log *)

(** Only a log that does not exist yet differs, and names are durable at most. *)
Definition beside (b' : nat) (d d' : disk) : Prop :=
  ∀ n, n ≠ log_name b' →
    entry_at d' n = entry_at d n ∨ entry_at d' n = {| en_file := file_at d n; en_reverts := [] |}.

Lemma possible_beside b' d d' n x :
  beside b' d d' → n ≠ log_name b' → possible d' n x → possible d n x.
Proof.
  intros Hb Hn Hx. destruct (Hb n Hn) as [He|He]; [by eapply possible_entry|].
  by eapply possible_cleared.
Qed.

Lemma covered_beside H b' d d' :
  file_at d (log_name b') = None → beside b' d d' → Covered (eq H) d → Covered (eq H) d'.
Proof.
  intros Hf Hb Hc x Hx.
  apply (possible_beside b' d) in Hx; [|done|apply not_eq_sym, log_path_anchor].
  destruct (Hc x Hx) as (pa & H' & b & -> & Han & HP & Hh). exists pa, H', b. split_and!; try done.
  intros y Hy. apply Hh. eapply possible_beside; [done| |done]. intros Heq.
  destruct (Hh None) as (? & ? & ? & ? & ?); [|done]. exists None. split; [|done].
  rewrite Heq. unfold file_at in Hf. rewrite Hf. left.
Qed.

Lemma beside_update b' d d' g : beside b' d d' → beside b' d (update (log_name b') g d').
Proof. intros Hb n Hn. rewrite entry_at_update, bool_decide_eq_false_2 by done. by apply Hb. Qed.
Lemma beside_sync b' d d' : beside b' d d' → beside b' d (sync_directory d').
Proof.
  intros Hb n Hn. right. rewrite entry_at_sync. unfold file_at.
  by destruct (Hb n Hn) as [He|He]; rewrite He.
Qed.

Lemma create_log_wp d bytes base tail b' verified
    (Q : result fault FileLedger → disk → Prop) (C : disk → Prop) :
  decode_log_from sha256 bytes base = Ok verified → vl_anchor verified = tail →
  file_at d (log_name b') = None →
  (∀ d', beside b' d d' → C d' ∧ ∀ e, Q (Err e) d') →
  (∀ d', beside b' d d' →
     entry_at d' (log_name b') = {| en_file := Some (durable_file bytes); en_reverts := [] |} →
     Q (Ok {| fl_path := log_name b'; fl_events := vl_events verified; fl_anchor := tail;
              fl_base := base; fl_length := blen bytes; fl_cursor := blen bytes; fl_poisoned := false |}) d') →
  wp (create_from_log_above sha256 (log_name b') bytes base tail) Q C d.
Proof.
  intros Hdec Htail Hf Hpart Hdone. unfold create_from_log_above.
  assert (∀ d', beside b' d d' → Q (Err (os_error Other)) d' ∧ C d') as Hp
    by (intros d' Hd; destruct (Hpart d' Hd); auto).
  assert (beside b' d d) as H0 by (intros n _; by left).
  rewrite Hdec. apply wp_lift_ok. unfold require_anchor. rewrite bool_decide_eq_true_2 by done.
  apply wp_lift_ok. set (d1 := rebind (log_name b') (Some new_file) d).
  assert (beside b' d d1) as H1.
  { intros n Hn. left. unfold d1. by rewrite entry_at_rebind, bool_decide_eq_false_2. }
  apply wp_try, wp_create_new; [by apply Hpart| |by intros d' [->| ->]; apply Hp].
  intros _. fold d1. apply wp_try, wp_syscall; [|intros; by apply Hp, beside_update].
  set (d2 := update _ _ d1). assert (beside b' d d2) as H2 by by apply beside_update.
  apply wp_try, wp_syscall; [|intros; by apply Hp].
  set (d3 := update _ _ d2). assert (beside b' d d3) as H3 by by apply beside_update.
  unfold sync_parent. apply wp_try, wp_try, wp_query; [|by apply Hp..].
  apply wp_syscall; [|intros; by apply Hp].
  assert (beside b' d (sync_directory d3)) as H4 by by apply beside_sync.
  unfold from_verified_above. apply wp_try, wp_query; [|by apply Hp..].
  assert (entry_at (sync_directory d3) (log_name b') =
    {| en_file := Some (durable_file bytes); en_reverts := [] |}) as He.
  { rewrite entry_at_sync. f_equal.
    unfold d3, file_at at 1. rewrite entry_at_update, bool_decide_eq_true_2 by done. cbn [en_file].
    unfold d2, file_at at 1. rewrite entry_at_update, bool_decide_eq_true_2 by done. cbn [en_file].
    unfold d1, file_at at 1. by rewrite entry_at_rebind, bool_decide_eq_true_2. }
  unfold file_at at 1. rewrite He. cbn [en_file]. apply wp_ret. rewrite Htail. by apply Hdone.
Qed.

(** The bytes of the new log and what they decode to. *)
Lemma compacted_bytes H b' bytes :
  chain empty H → b' ≤ length H →
  encode_log_from sha256 (lr_event <$> drop b' H) (floor_anchor H b') = Ok bytes →
  bytes = floor_bytes H b' ∧ log_image (floor_anchor H b') (drop b' H) [] (floor_bytes H b') ∧
  decode_log_from sha256 bytes (floor_anchor H b') =
    Ok {| vl_events := lr_event <$> drop b' H; vl_anchor := end_anchor empty H |}.
Proof using sha256_length.
  intros Hc Hb He. pose proof (chain_drop _ H b' Hc) as Hcd.
  apply encode_log_from_ok in He as (rs & Hes & Hrs & -> & Hm & Hsz & _); [|by eapply chain_events_ok].
  assert (rs = drop b' H) as -> by by eapply chain_det. split; [done|].
  split; [split; [by rewrite app_nil_r|done|done|done|by left]|].
  unfold decode_log_from.
  rewrite (scan_whole _ sha256_length) by (done || by apply floor_ok).
  cbn. by rewrite end_floor.
Qed.

Lemma advance_wp d l H b b' (Q : result AnchorError ProtectedAnchor * AnchorStore → disk → Prop)
    (C : disk → Prop) :
  ReadyAt d l H b → b < b' ≤ length H → Covered (eq H) d → holds d H b' →
  (∀ d', Covered (eq H) d' → (∀ n, n ≠ anchor_name → n ≠ scratch_path anchor_name →
      entry_at d' n = entry_at d n) → C d' ∧ ∀ e, Q (Err e, al_anchors l) d') →
  (∀ d' next, anchored next H b' → installed anchor_name (anchor_record sha256 key next) d d' →
     Q (Ok next, store p key next) d') →
  wp (advance_compacted sha256 (al_anchors l) (floor_anchor H b') (end_anchor empty H)) Q C d.
Proof.
  intros Hr Hb Hcov Hh Hpart Hdone. pose proof (ra_anchored _ _ _ _ _ _ _ Hr) as Han.
  destruct (Hpart d Hcov) as [HC HE]; [done|]. unfold advance_compacted.
  destruct (_ <? _)%N; [apply wp_ret, HE|]. unfold checked_add_u64.
  destruct (_ <? _)%N eqn:Hep; [|apply wp_ret, HE]. bool_prop.
  set (next := {| pa_epoch := _; pa_log := _; pa_origin := _; pa_base := _ |}).
  assert (anchored next H b') as Hnext.
  { destruct Han. split; try done. lia. }
  apply commit_wp; [done| |]; intros _ d' Hd';
    rewrite (ra_path _ _ _ _ _ _ _ Hr), (ra_key _ _ _ _ _ _ _ Hr) in *.
  - apply Hpart.
    + destruct Hd' as [Hd'|Hd']; [by eapply covered_scratched|by eapply covered_renamed].
    + intros n H1 H2. destruct Hd' as [Hd'|[_ Hd']]; by apply Hd'.
  - by apply Hdone.
Qed.

Lemma ready_transfer d d' l H b :
  ReadyAt d l H b → Covered (eq H) d' →
  (∀ f, entry_at d (log_name b) = {| en_file := Some f; en_reverts := [] |} →
     entry_at d' (log_name b) = entry_at d (log_name b)) →
  ReadyAt d' l H b.
Proof.
  intros [] Hc He. split; try done. intros Hp. destruct (ra_disk Hp) as (? & ? & Hd & ?).
  split_and!; [done|done| |done]. by rewrite (He _ Hd).
Qed.

Lemma ready_beside d d' l H b b' :
  ReadyAt d l H b → file_at d (log_name b') = None → beside b' d d' → ReadyAt d' l H b.
Proof.
  intros Hr Hf Hb. eapply ready_transfer; [done|by eapply covered_beside; [| |apply Hr]|].
  intros f He. destruct (Hb (log_name b)) as [?|Hc]; [|done|].
  - intros Heq. rewrite Heq in He. unfold file_at in Hf. by rewrite He in Hf.
  - rewrite Hc. unfold file_at. by rewrite He.
Qed.

(** A cutover leaves the history as it is, whether it succeeds or fails. *)
Lemma compact_wp d l H plan :
  al_fenced l = false → Ready d l H →
  wp (compact sha256 l plan)
    (λ x d', al_fenced x.2 = false ∧ Ready d' x.2 H) (Covered (eq H)) d.
Proof using sha256_length.
  intros Hfen [b Hr]. pose proof (ra_anchored _ _ _ _ _ _ _ Hr) as Han.
  assert (al_set (al_log l) (al_anchors l) (al_fenced l) l = l) as Hsame by by destruct l.
  unfold compact. apply wp_bind. rewrite (ra_paths _ _ _ _ _ _ _ Hr).
  assert (∀ e : AcknowledgedError, wp (pret (Err e, l))
    (λ (x : ack_result CompactionOutcome * AcknowledgedLedger) d', al_fenced x.2 = false ∧ Ready d' x.2 H)
    (Covered (eq H)) d) as Herr by (intros e; apply wp_ret; split; [done|by exists b]).
  apply wp_accept; [|auto]. intros retained Hplan.
  apply (check_plan_floor d l H b) in Hplan as (b' & Hb' & Hbase & Htail & ->); [|done].
  rewrite Hbase, Htail, floor_index by (apply Han || lia).
  apply wp_accept; [|auto]. intros bytes He.
  destruct (encode_log_from _ _ _) as [bytes'|] eqn:Henc in He; [|done]. injection He as ->.
  apply compacted_bytes in Henc as (-> & Himg & Hdec); [|apply Han|lia].
  apply wp_bind, wp_exists. case_bool_decide as Hex; [by apply wp_ret|].
  assert (file_at d (log_name b') = None) as Hf by (destruct (file_at d (log_name b')); [by destruct Hex|done]).
  apply wp_map_err. eapply create_log_wp; [done|done|done| |].
  { intros d' Hd. split; [by eapply covered_beside; [| |apply Hr]|]. intros e. apply wp_ret.
    split; [done|]. exists b. by eapply ready_beside. }
  intros d1 Hd1 Hent. cbn [vl_events]. pose proof (ready_beside _ _ _ _ _ _ Hr Hf Hd1) as Hr1.
  apply wp_bind, (advance_wp d1 l H b b'); [done|done|apply Hr1| | |].
  - apply (holds_durable _ _ d1 H b' (drop b' H) []); [by rewrite app_nil_r|done|done].
  - intros d' Hc Ho. split; [done|]. intros e. rewrite Hsame. apply wp_ret. split; [done|]. exists b.
    eapply ready_transfer; [done|done|]. intros f _. apply Ho; [apply log_path_anchor|apply log_path_scratch].
  - intros d' next Hnext Hd'. apply wp_ret. split; [done|]. exists b'.
    pose proof (proj2 Hd' (log_name b') (log_path_anchor _ _) (log_path_scratch _ _)) as Hent'.
    split; cbn [al_set al_log al_anchors al_paths store as_path as_key as_current snd
      fl_path fl_base fl_anchor fl_events fl_length fl_cursor fl_poisoned]; try done.
    + apply (ra_paths _ _ _ _ _ _ _ Hr).
    + eapply covered_installed; [done|done|done|].
      apply (holds_durable _ _ d1 H b' (drop b' H) []); [by rewrite app_nil_r|done|done].
    + intros _. split_and!; [done|done| |done]. rewrite Hent'. unfold file_at. by rewrite Hent.
Qed.
End AckCompact.

(** * Reclaiming orphans *)

(** The anchor in force is the only one that may be found on the disk: its last
    publication is complete. *)
Definition anchor_current (sha256 : list byte → list byte) (d : disk) (l : AcknowledgedLedger) : Prop :=
  let s := al_anchors l in
  entry_at d (as_path s) =
    {| en_file := Some (durable_file (anchor_record sha256 (as_key s) (as_current s))); en_reverts := [] |}.

Section AckReclaim.
Context (sha256 : list byte → list byte).
(** A SHA-256 digest has 32 bytes. *)
Context (sha256_length : ∀ x, length (sha256 x) = 32).
Context (p : LogPaths) (key : AnchorKey).

Abbreviation anchor_name := (anchor_path p).
Abbreviation log_name b := (log_path p (N.of_nat b)).
Abbreviation Covered := (Covered sha256 p key).
Abbreviation ReadyAt := (ReadyAt sha256 p key).
Abbreviation Ready := (Ready sha256 p key).

(** Only names outside [keep] change. *)
Definition spares (keep : list string) (d d' : disk) : Prop :=
  ∀ n, n ∈ keep → entry_at d' n = entry_at d n.

Lemma remove_all_wp names keep (d0 d : disk) :
  (∀ n, n ∈ names → n ∉ keep) → spares keep d0 d →
  wp (remove_all names) (λ _ d', spares keep d0 d') (spares keep d0) d.
Proof.
  revert d. induction names as [|name names IH]; intros d Hn Hd; [by apply wp_ret|].
  assert (spares keep d0 (rebind name None d)) as Hr.
  { intros n Hk. rewrite entry_at_rebind, bool_decide_eq_false_2; [by apply Hd|].
    intros ->. apply (Hn name); [left|done]. }
  apply wp_try, wp_atomic.
  - apply IH; [|done]. intros n Hin. apply Hn. by right.
  - intros d' [->| ->]; by split.
Qed.

Lemma ready_spares d d' l H b :
  ReadyAt d l H b → anchor_current sha256 d l → spares [anchor_name; log_name b] d d' →
  ReadyAt d' l H b.
Proof using sha256_length.
  intros Hr Hc Hs. pose proof (ra_anchored _ _ _ _ _ _ _ Hr) as Han.
  assert (entry_at d' anchor_name = entry_at d anchor_name) as Ha by (apply Hs; left).
  assert (entry_at d' (log_name b) = entry_at d (log_name b)) as Hl by (apply Hs; right; left).
  unfold anchor_current in Hc. rewrite (ra_path _ _ _ _ _ _ _ Hr), (ra_key _ _ _ _ _ _ _ Hr) in Hc.
  eapply ready_transfer; [done| |by intros; rewrite Hl].
  intros x Hx. apply (possible_entry d) in Hx; [|done].
  destruct (ra_covered _ _ _ _ _ _ _ Hr x Hx) as (pa & H' & b' & -> & Han' & <- & Hh).
  exists pa, H, b'. split_and!; try done. destruct Hx as (g & Hg & Hx).
  rewrite Hc in Hg. apply list_elem_of_singleton in Hg as ->. apply survives_durable in Hx.
  apply record_inj in Hx as ->; [|done|by eapply anchored_wf..].
  assert (b' = b) as ->.
  { assert (N.of_nat b' = N.of_nat b) as Hb; [|lia].
    rewrite <-(floor_index sha256 H b'), <-(floor_index sha256 H b) by (apply Han || apply Han').
    by rewrite <-(an_base _ _ _ _ Han), <-(an_base _ _ _ _ Han'). }
  by apply (holds_entry _ _ d).
Qed.

(** With the anchor in force on the disk, reclaiming orphans leaves the ledger in
    service, whatever fails. *)
Lemma reclaim_wp d l H :
  Ready d l H → anchor_current sha256 d l →
  wp (reclaim_orphans l) (λ _ d', Ready d' l H) (Covered (eq H)) d.
Proof using sha256_length.
  intros [b Hr] Hc. pose proof (ra_anchored _ _ _ _ _ _ _ Hr) as Han.
  assert (∀ d', spares [anchor_name; log_name b] d d' → ReadyAt d' l H b) as Hready
    by (intros; by eapply ready_spares).
  unfold reclaim_orphans, ack_anchor. rewrite (ra_paths _ _ _ _ _ _ _ Hr).
  rewrite (an_base _ _ _ _ Han), floor_index by apply Han.
  apply wp_try, wp_map_err, wp_query; [|by exists b|apply Hr].
  apply wp_try, wp_map_err. eapply wp_mono; [apply (remove_all_wp _ [anchor_name; log_name b] d d)| |].
  - intros n Hn Hk. apply list_elem_of_filter in Hn as [Hn _].
    apply is_orphan_spec in Hn as (b' & Hb' & Hne & ->); [|by eapply floor_fits].
    apply elem_of_cons in Hk as [Hk|Hk]; [by apply log_path_anchor in Hk|].
    apply list_elem_of_singleton in Hk. apply log_path_inj in Hk; [done|done|by eapply floor_fits].
  - by intros n _.
  - intros [[]|e] d' Hd; [apply wp_ret|]; exists b; by apply Hready.
  - intros d' Hd. by apply Hready.
Qed.
End AckReclaim.
