(* ===== verification/AckTrace.v ===== *)
(** * Runs of an acknowledged ledger

    A machine with a disk and perhaps a process that holds the ledger.  [ack_step] has
    every call under any oracle, the death of the process, and crashes of the machine;
    a call may be made whenever the code allows it.  The guarantees hold for orderly
    runs, which keep three limits: the ledger is opened when everything written has
    reached the disk, as after a crash of the machine; orphans are reclaimed by a
    ledger that is not fenced and whose anchor is the one on the disk; and a ledger
    whose log could not be read back is given up.  [AckExamples] shows for each limit a
    run that breaks it and loses acknowledged history. *)

From S2P Require Import Prelude Bytes Types LedgerEvents LedgerChecks LedgerCodec LedgerCodecFacts.
From S2P Require Import LedgerEventFacts Ledger Integrity IntegrityLog Storage Anchor FileLedger.
From S2P Require Import Compaction Acknowledged AckAppend AckOpen AckCompact.
From stdpp Require Import options.

Abbreviation machine := (disk * option AcknowledgedLedger)%type.

Section machine.
Context (sha256 : list byte → list byte) (p : LogPaths) (key : AnchorKey).

(** What happens to the machine.  [CallReadBack] carries the answer, [None] when the
    process stopped on the way. *)
Inductive ack_call :=
| CallAppend (ev : LedgerEvent)
| CallCompact (plan : CompactionPlan)
| CallReclaim
| CallReadBack (answer : option (result fault (list byte)))
| CallOpen (minimum : N) (policy : TailPolicy)
| ProcessDies
| MachineCrashes.

(** A process that stops in a call leaves no ledger, and so does an opening that is
    refused. *)
Inductive ack_step : machine → ack_call → machine → Prop :=
| step_append d l ev o x w :
    event_ok ev = true →
    append_acknowledged sha256 ev l {| w_disk := d; w_oracle := o |} = (x, w) →
    ack_step (d, Some l) (CallAppend ev) (w_disk w, snd <$> x)
| step_compact d l plan o x w :
    compact sha256 l plan {| w_disk := d; w_oracle := o |} = (x, w) →
    ack_step (d, Some l) (CallCompact plan) (w_disk w, snd <$> x)
| step_reclaim d l o x w :
    reclaim_orphans l {| w_disk := d; w_oracle := o |} = (x, w) →
    ack_step (d, Some l) CallReclaim (w_disk w, (λ _, l) <$> x)
| step_read_back d l o x w :
    retained_bytes (al_log l) {| w_disk := d; w_oracle := o |} = (x, w) →
    ack_step (d, Some l) (CallReadBack (fst <$> x))
      (w_disk w, (λ y, al_set y.2 (al_anchors l) (al_fenced l) l) <$> x)
| step_open d minimum policy o x w :
    ack_open sha256 p key minimum policy {| w_disk := d; w_oracle := o |} = (x, w) →
    ack_step (d, None) (CallOpen minimum policy)
      (w_disk w, match x with Some (Ok (l, _)) => Some l | _ => None end)
| step_kill d l : ack_step (d, Some l) ProcessDies (d, None)
| step_crash d m d' : crashes_to d d' → ack_step (d, m) MachineCrashes (d', None).

(** The three limits. *)
Definition orderly (s : machine) (c : ack_call) : Prop :=
  match c with
  | CallReclaim => ∀ l, s.2 = Some l → al_fenced l = false ∧ anchor_current sha256 s.1 l
  | CallReadBack (Some (Err _)) => False
  | CallOpen _ _ => settled s.1
  | _ => True
  end.
Definition orderly_step (s s' : machine) : Prop := ∃ c, ack_step s c s' ∧ orderly s c.

(** The machine after a ledger was created on some disk. *)
Definition ack_created (s : machine) : Prop :=
  ∃ d o l w, ack_create sha256 p key {| w_disk := d; w_oracle := o |} = (Some (Ok l), w) ∧
             s = (w_disk w, Some l).
End machine.

Section AckTrace.
Context (sha256 : list byte → list byte).
(** A SHA-256 digest has 32 bytes. *)
Context (sha256_length : ∀ x, length (sha256 x) = 32).
Context (p : LogPaths) (key : AnchorKey).

Abbreviation Covered := (Covered sha256 p key).
Abbreviation ReadyAt := (ReadyAt sha256 p key).
Abbreviation Ready := (Ready sha256 p key).
Abbreviation step := (orderly_step sha256 p key).

(** What is known of a machine: its disk covers the history, and a ledger in
    service is at its end. *)
Definition machine_inv (s : machine) (H : list logrec) : Prop :=
  Covered (prefix H) s.1 ∧
  match s.2 with
  | Some l => al_fenced l = false → Ready s.1 l H
  | None => True
  end.

Lemma ready_inv d l H : Ready d l H → machine_inv (d, Some l) H.
Proof.
  intros Hr. split; [|by intros _]. destruct Hr as [b Hr]. by apply covered_prefix, Hr.
Qed.

Lemma wp_run {A} (m : prog A) Q C d o x w :
  wp m Q C d → m {| w_disk := d; w_oracle := o |} = (x, w) →
  match x with
  | Some a => Q a (w_disk w)
  | None => C (w_disk w)
  end.
Proof. intros H Hm. specialize (H o). by rewrite Hm in H. Qed.

Lemma fenced_append l ev w : al_fenced l = true → append_acknowledged sha256 ev l w = (Some (Err AckFenced, l), w).
Proof. intros Hf. unfold append_acknowledged. by rewrite Hf. Qed.
Lemma fenced_compact l plan w : al_fenced l = true → compact sha256 l plan w = (Some (Err AckFenced, l), w).
Proof. intros Hf. unfold compact, check_plan. by rewrite Hf. Qed.

(** Reading back changes nothing, and leaves the handle at the end of the file
    when it succeeds. *)
Definition read_back (log : FileLedger) (d : disk) (x : result fault (list byte) * FileLedger)
    (d' : disk) : Prop :=
  d' = d ∧ ∃ c, x.2 = fl_set_cursor c log ∧
  match x.1 with
  | Ok _ => ∀ f, file_at d (fl_path log) = Some f → c = blen (content f)
  | Err _ => True
  end.
Lemma retained_wp log d : wp (retained_bytes log) (read_back log d) (λ d', d' = d) d.
Proof.
  unfold retained_bytes, read_bounded_at.
  assert (∀ (e : fault) c, wp (pret (Err e, fl_set_cursor c log)) (read_back log d) (λ d', d' = d) d)
    as Herr by (intros e c; apply wp_ret; split; [done|by exists c]).
  apply wp_bind, wp_bind, wp_query; [|by apply wp_ret, Herr|done].
  destruct (file_at d (fl_path log)) as [f|] eqn:Hf; [|by apply wp_ret, Herr].
  destruct (_ <? _)%N; [by apply wp_ret, Herr|].
  apply wp_bind, wp_query; [|by apply wp_ret, Herr|done].
  apply wp_bind, wp_query; [|by apply wp_ret, Herr|done]. cbn beta. rewrite ?Hf.
  destruct (_ <? _)%N; [by apply wp_ret, Herr|].
  apply wp_ret, wp_bind, wp_query; [|apply Herr|done]. cbn beta. rewrite ?Hf.
  apply wp_ret. split; [done|]. exists (blen (content f)). split; [done|]. intros f'. rewrite Hf. by intros [= ->].
Qed.

Lemma ready_cursor d l H c :
  (∀ f, file_at d (fl_path (al_log l)) = Some f → c = blen (content f)) →
  Ready d l H → Ready d (al_set (fl_set_cursor c (al_log l)) (al_anchors l) (al_fenced l) l) H.
Proof.
  intros Hc [b Hr]. exists b. destruct Hr. split; try done. cbn. intros Hp.
  destruct (ra_disk Hp) as (Hlen & _ & Hent & Himg). split_and!; try done.
  apply (Hc (durable_file (floor_bytes H b))). rewrite ra_log_path. unfold file_at. by rewrite Hent.
Qed.

(** Every call keeps what is known, for a history that may have grown, whether
    it returns or stops. *)
Definition kept_by (H : list logrec) (s' : machine) : Prop := ∃ H', prefix H H' ∧ machine_inv s' H'.

Lemma kept_same H s' : machine_inv s' H → kept_by H s'.
Proof. by exists H. Qed.
Lemma kept_covered H d : Covered (prefix H) d → kept_by H (d, None).
Proof. intros Hc. by apply kept_same. Qed.

Lemma append_kept d l H ev o x w :
  event_ok ev = true → machine_inv (d, Some l) H →
  append_acknowledged sha256 ev l {| w_disk := d; w_oracle := o |} = (x, w) →
  kept_by H (w_disk w, snd <$> x).
Proof using sha256_length.
  intros Hev [Hc Hr] Hrun. cbn in Hr. destruct (al_fenced l) eqn:Hf.
  { rewrite fenced_append in Hrun by done. injection Hrun as <- <-. apply kept_same. split; [done|].
    cbn. by rewrite Hf. }
  pose proof (wp_run _ _ _ _ _ _ _ (append_wp sha256 sha256_length p key d l H ev Hev Hf (Hr eq_refl)) Hrun) as Hq.
  destruct x as [[[i|e] l']|]; [|by apply kept_same|by apply kept_covered].
  destruct Hq as (_ & r & _ & _ & Hr'). exists (H ++ [r]). split; [by apply prefix_app_r|by apply ready_inv].
Qed.

Lemma compact_kept d l H plan o x w :
  machine_inv (d, Some l) H → compact sha256 l plan {| w_disk := d; w_oracle := o |} = (x, w) →
  kept_by H (w_disk w, snd <$> x).
Proof using sha256_length.
  intros [Hc Hr] Hrun. cbn in Hr. destruct (al_fenced l) eqn:Hf.
  { rewrite fenced_compact in Hrun by done. injection Hrun as <- <-. apply kept_same. split; [done|].
    cbn. by rewrite Hf. }
  pose proof (wp_run _ _ _ _ _ _ _ (compact_wp sha256 sha256_length p key d l H plan Hf (Hr eq_refl)) Hrun) as Hq.
  destruct x as [x|]; [by apply kept_same, ready_inv, Hq|by apply kept_covered, covered_prefix].
Qed.

Lemma reclaim_kept d l H o x w :
  al_fenced l = false → anchor_current sha256 d l → machine_inv (d, Some l) H →
  reclaim_orphans l {| w_disk := d; w_oracle := o |} = (x, w) →
  kept_by H (w_disk w, (λ _, l) <$> x).
Proof using sha256_length.
  intros Hf Ha [Hc Hr] Hrun.
  pose proof (wp_run _ _ _ _ _ _ _ (reclaim_wp sha256 sha256_length p key d l H (Hr Hf) Ha) Hrun) as Hq.
  destruct x as [x|]; [by apply kept_same, ready_inv|by apply kept_covered, covered_prefix].
Qed.

Lemma open_kept d H minimum policy o x w :
  settled d → machine_inv (d, None) H →
  ack_open sha256 p key minimum policy {| w_disk := d; w_oracle := o |} = (x, w) →
  kept_by H (w_disk w, match x with Some (Ok (l, _)) => Some l | _ => None end).
Proof using sha256_length.
  intros Hs [Hc _] Hrun.
  pose proof (wp_run _ _ _ _ _ _ _ (ack_open_wp sha256 sha256_length p key d H minimum policy Hs Hc) Hrun) as Hq.
  destruct x as [[[l split]|e]|]; [|by apply kept_covered..].
  destruct Hq as (_ & H' & Hp & Hr'). exists H'. split; [done|by apply ready_inv].
Qed.

Lemma step_inv s s' H : machine_inv s H → step s s' → kept_by H s'.
Proof using sha256_length.
  intros Hi (c & Hst & Hord). destruct Hst as
    [d l ev o x w Hev Hrun|d l plan o x w Hrun|d l o x w Hrun|d l o x w Hrun|d min pol o x w Hrun|d l|d m d' Hcr].
  - by apply (append_kept _ _ H) in Hrun.
  - by apply (compact_kept _ _ H) in Hrun.
  - destruct (Hord l eq_refl) as [Hf Ha]. by apply (reclaim_kept _ _ H) in Hrun.
  - pose proof (wp_run _ _ _ _ _ _ _ (retained_wp (al_log l) d) Hrun) as Hq. destruct Hi as [Hc Hr].
    destruct x as [[[bytes|e] log]|]; [|done|by rewrite Hq; apply kept_covered].
    destruct Hq as (Hd & c & Hlog & Hcur). cbn in Hlog, Hcur. subst log. rewrite Hd. apply kept_same.
    split; [done|]. cbn. intros Hf. by apply ready_cursor, Hr.
  - by apply (open_kept _ H) in Hrun.
  - apply kept_covered, Hi.
  - apply kept_covered. eapply covered_crash; [done|apply Hi].
Qed.

Lemma steps_inv s s' H :
  rtc step s s' → machine_inv s H → ∃ H', prefix H H' ∧ machine_inv s' H'.
Proof using sha256_length.
  intros Hst. revert H. induction Hst as [s|s s1 s' Hst _ IH]; intros H Hi; [by exists H|].
  destruct (step_inv _ _ _ Hi Hst) as (H1 & Hp1 & Hi1). destruct (IH H1 Hi1) as (H2 & Hp2 & Hi2).
  exists H2. split; [by trans H1|done].
Qed.

Lemma created_inv s : ack_created sha256 p key s → machine_inv s [].
Proof using sha256_length.
  intros (d & o & l & w & Hrun & ->).
  pose proof (wp_run _ _ _ _ _ _ _ (ack_create_wp sha256 sha256_length p key d) Hrun) as [_ Hr].
  by apply ready_inv.
Qed.

(** The floor of a ledger, as a number of records. *)
Definition floor_of (l : AcknowledgedLedger) : nat := N.to_nat (la_index (fl_base (al_log l))).

Lemma ready_events d l H : Ready d l H → ack_events l = lr_event <$> drop (floor_of l) H.
Proof.
  intros [b Hr]. unfold ack_events, floor_of. rewrite (ra_events _ _ _ _ _ _ _ Hr).
  rewrite (ra_log_base _ _ _ _ _ _ _ Hr), floor_index by apply (ra_anchored _ _ _ _ _ _ _ Hr).
  by rewrite Nat2N.id.
Qed.

Lemma reachable_ready s0 d l :
  ack_created sha256 p key s0 → rtc step s0 (d, Some l) → al_fenced l = false →
  ∃ H, Ready d l H.
Proof using sha256_length.
  intros H0 Hst Hf. destruct (steps_inv _ _ _ Hst (created_inv _ H0)) as (H & _ & _ & Hr).
  exists H. by apply Hr.
Qed.

(** C1: in orderly runs, what an acknowledged ledger has shown is never lost.  Take a
    ledger in service and any later ledger in service on the same machine, after any
    appends and cutovers under any I/O failures, deaths of the process and crashes of
    the machine at any system call, and after reopenings under any tail policy,
    reclamations and reads of the log within the limits of [orderly]: the ledger is
    reopened only when everything that was written has reached the disk (as after a
    crash of the machine; not when only the process died within a call), orphans
    are reclaimed only by a ledger that is not fenced and whose anchor is the one on
    the disk, and a ledger whose log could not be read back is not used any more.
    Then, above the floors of both, the events of the first are the beginning of the
    events of the second. *)
Theorem acknowledged_never_lost s0 d1 l1 d2 l2 :
  ack_created sha256 p key s0 →
  rtc step s0 (d1, Some l1) → al_fenced l1 = false →
  rtc step (d1, Some l1) (d2, Some l2) → al_fenced l2 = false →
  drop (floor_of l2 - floor_of l1) (ack_events l1) `prefix_of`
  drop (floor_of l1 - floor_of l2) (ack_events l2).
Proof using sha256_length.
  intros H0 Hst1 Hf1 Hst2 Hf2. destruct (reachable_ready _ _ _ H0 Hst1 Hf1) as [H1 Hr1].
  destruct (steps_inv _ _ _ Hst2 (ready_inv _ _ _ Hr1)) as (H2 & [ext ->] & _ & Hr2).
  specialize (Hr2 Hf2). cbn in Hr2.
  rewrite (ready_events _ _ _ Hr1), (ready_events _ _ _ Hr2), <-!fmap_drop, !drop_drop.
  replace (floor_of l2 + (floor_of l1 - floor_of l2)) with (Nat.max (floor_of l1) (floor_of l2)) by lia.
  replace (floor_of l1 + (floor_of l2 - floor_of l1)) with (Nat.max (floor_of l1) (floor_of l2)) by lia.
  rewrite drop_app, fmap_app. by apply prefix_app_r.
Qed.

(** What one durable append returns and leaves behind. *)
Lemma append_durable_shape ev log d :
  wp (append_durable sha256 ev log)
    (λ x _, match x with
            | (Ok i, log') => i = (la_index (fl_anchor log) + 1)%N ∧ la_index (fl_anchor log') = i ∧
                fl_events log' = fl_events log ++ [{| ce_index := i; ce_event := ev |}] ∧
                fl_poisoned log' = false
            | (Err _, log') => fl_events log' = fl_events log ∧ fl_anchor log' = fl_anchor log
            end) (λ _, True) d.
Proof.
  unfold append_durable. destruct (fl_poisoned log); [by apply wp_ret|].
  destruct (encode_record _ _ _) as [[frame next]|] eqn:He; [|by apply wp_ret].
  assert (la_index next = la_index (fl_anchor log) + 1)%N as Hi.
  { unfold encode_record, checked_add_u64 in He. destruct (_ <? 2 ^ 64)%N; [|done].
    destruct (MAX_RECORDS <? _)%N; [done|]. apply rbind_ok_inv in He as (? & _ & He).
    apply rbind_ok_inv in He as (payload & _ & He). destruct (_ || _) in He; [done|].
    by injection He as _ <-. }
  destruct (MAX_LOG_BYTES <? _)%N; [by apply wp_ret|].
  apply wp_bind, wp_query; [|by apply wp_ret|done].
  destruct (file_at _ _) as [f|]; [|by apply wp_ret]. destruct (negb _); [by apply wp_ret|].
  apply wp_bind. apply wp_try, wp_syscall; [|intros; split; [by apply wp_ret|done]].
  apply wp_try, wp_syscall; [|intros; split; [by apply wp_ret|done]].
  apply wp_try, wp_query; [|by apply wp_ret|done].
  apply wp_syscall; [by apply wp_ret|intros; split; [by apply wp_ret|done]].
Qed.

Lemma acknowledge_shape s log origin d :
  wp (acknowledge sha256 s log origin)
    (λ x _, match x with
            | (Ok next, s') => as_current s' = next ∧ pa_log next = log ∧
                pa_epoch next = (pa_epoch (as_current s) + 1)%N
            | (Err _, s') => s' = s
            end) (λ _, True) d.
Proof.
  unfold acknowledge, checked_add_u64. destruct (_ <? _)%N; [|by apply wp_ret]. unfold commit.
  destruct (check_successor _ _ _); [|by apply wp_ret]. apply wp_bind. unfold publish.
  apply wp_map_err, write_atomically_wp; [|by intros; apply wp_ret].
  intros. split; [done|]. by intros; apply wp_ret.
Qed.

(** What an append may return, and the ledger it leaves. *)
Definition append_outcome (l : AcknowledgedLedger) (ev : LedgerEvent)
    (x : ack_result CommitIndex * AcknowledgedLedger) : Prop :=
  match x with
  | (Ok i, l') =>
      i = (la_index (fl_anchor (al_log l)) + 1)%N ∧
      ack_events l' = ack_events l ++ [{| ce_index := i; ce_event := ev |}] ∧
      pa_log (ack_anchor l') = fl_anchor (al_log l') ∧ la_index (pa_log (ack_anchor l')) = i ∧
      ack_epoch l' = (ack_epoch l + 1)%N ∧ al_fenced l = false ∧ al_fenced l' = false
  | (Err _, l') =>
      ack_anchor l' = ack_anchor l ∧ (al_fenced l' = true ∨ ack_events l' = ack_events l)
  end.

(** An append is acknowledged as a whole, or it is refused, or the ledger is
    fenced.  Under any I/O failures: if it returns an index, the index is the
    one after the last, the event is the last of the ledger and the anchor in
    force names exactly that record in a new epoch; if it returns an error, the
    anchor in force is the one before, and either the events are what they were
    or the ledger is fenced. *)
Theorem append_acknowledged_outcomes l ev d o :
  match (append_acknowledged sha256 ev l {| w_disk := d; w_oracle := o |}).1 with
  | Some x => append_outcome l ev x
  | None => True
  end.
Proof.
  enough (wp (append_acknowledged sha256 ev l) (λ x _, append_outcome l ev x) (λ _, True) d) as Hw.
  { specialize (Hw o). by destruct (append_acknowledged _ _ _ _) as [[x|] w]. }
  unfold append_acknowledged.
  destruct (al_fenced l) eqn:Hf; [apply wp_ret; split; by auto|]. apply wp_bind.
  eapply wp_mono; [apply append_durable_shape| |done]. intros [[i|e] log] d1; cbn beta iota.
  2:{ intros [He _]. apply wp_ret. split; [done|]. by right. }
  intros (Hi & Ha & He & Hp). unfold ledger_anchor. rewrite Hp. apply wp_bind.
  eapply wp_mono; [apply acknowledge_shape| |done]. intros [[next|e] s] d2; cbn beta iota.
  - intros (Hs & Hlog & Hep). apply wp_ret. unfold append_outcome, ack_events, ack_epoch, ack_anchor.
    cbn [al_set al_log al_anchors al_fenced]. rewrite Hs, Hlog, Ha.
    by split_and!.
  - intros ->. apply wp_ret. split; [done|]. by left.
Qed.
End AckTrace.
