(* ===== verification/AckRecover.v ===== *)
(** * Without further failures, every crash is recovered from *)

From S2P Require Import Prelude Bytes Types LedgerEvents LedgerChecks LedgerCodec LedgerCodecFacts.
From S2P Require Import LedgerEventFacts Ledger Integrity IntegrityLog Storage Anchor FileLedger.
From S2P Require Import Compaction Acknowledged AckAppend AckOpen AckCompact AckTrace.
From stdpp Require Import options.

Lemma write_atomically_succeeds path bytes d : succeeds (write_atomically path bytes) d.
Proof.
  unfold write_atomically, sync_parent. do 4 call_succeeds. call_succeeds.
  by eapply succeeds_call.
Qed.

Lemma truncate_succeeds path keep d :
  file_at d path ≠ None →
  ∃ d', runs (truncate_durably path keep) d (Ok tt) d' ∧ file_at d' path ≠ None.
Proof.
  intros Hf. eexists. split; [unfold runs; reflexivity|].
  unfold file_at in *. rewrite !entry_at_update, bool_decide_eq_true_2 by done. cbn.
  unfold file_at. rewrite entry_at_update, bool_decide_eq_true_2 by done. cbn.
  unfold file_at. by destruct (en_file (entry_at d path)).
Qed.

Section AckRecover.
Context (sha256 : list byte → list byte).
(** A SHA-256 digest has 32 bytes. *)
Context (sha256_length : ∀ x, length (sha256 x) = 32).
Context (p : LogPaths) (key : AnchorKey).

Abbreviation chain := (chain sha256).
Abbreviation empty := (LogAnchor_empty sha256).
Abbreviation log_image := (log_image sha256).
Abbreviation anchor_name := (anchor_path p).
Abbreviation log_name b := (log_path p (N.of_nat b)).
Abbreviation anchored := (anchored sha256).
Abbreviation floor_anchor := (floor_anchor sha256).
Abbreviation Covered := (Covered sha256 p key).
Abbreviation holds := (holds sha256 p).
Abbreviation store := (store p key).

Lemma acknowledge_succeeds pa log origin d :
  (pa_epoch pa + 1 < 2 ^ 64)%N →
  anchor_follows sha256 pa (acknowledged_next pa log origin) →
  ∃ next s d', runs (acknowledge sha256 (store pa) log origin) d (Ok next, s) d'.
Proof.
  intros He Hf. unfold acknowledge, checked_add_u64. cbn [store as_current].
  rewrite (proj2 (N.ltb_lt _ _)) by done. fold (acknowledged_next pa log origin).
  unfold commit. cbn [store as_current]. rewrite (proj2 (check_successor_spec _ _ _) Hf).
  destruct (succeeds_map_err (λ _, StorageError) _ _ (write_atomically_succeeds anchor_name
    (anchor_record sha256 key (acknowledged_next pa log origin)) d)) as ([] & d' & Hp).
  eexists _, _, d'. eapply runs_bind; [exact Hp|]. apply runs_ret.
Qed.

Section repair.
Context (r : RecoverableLog) (pa : ProtectedAnchor) (H : list logrec) (b : nat).
Context (extra : list logrec) (tail : list byte) (zeros : N) (bytes : list byte).
Context (Han : anchored pa H b) (Hbase : rl_base r = floor_anchor H b).
Context (Hpx : rl_prefix r = image_prefix (floor_anchor H b) (drop b H ++ extra) tail zeros).
Context (Hlength : rl_length r = blen bytes).
Context (Himg : log_image (floor_anchor H b) (drop b H ++ extra) tail bytes).

Lemma repair_succeeds policy d :
  file_at d (rl_path r) ≠ None → policy ≠ Refuse → succeeds (repair sha256 r pa policy) d.
Proof using Han Hbase Hpx Hlength Himg.
  intros Hfile Hpol. unfold repair.
  rewrite (classify_image _ r pa H b extra tail zeros Han Hbase Hpx (li_chain _ _ _ _ _ Himg)).
  assert (∃ n inc, (match (if bool_decide (extra = [] ∧ tail = []) then Aligned
    else Unacknowledged (length extra) (negb (bool_decide (tail = [])))
           (end_anchor (floor_anchor H b) (drop b H ++ extra))) with
    | Aligned => Ok (0%nat, false)
    | Unacknowledged n inc _ => Ok (n, inc)
    | split => Err (unrecoverable split)
    end : result fault (nat * bool)) = Ok (n, inc)) as (n & inc & ->).
  { destruct (bool_decide _); by eexists _, _. }
  apply succeeds_try; [apply succeeds_ret|]. intros [n' inc'] d1 Hrun. injection Hrun as <- <- <-.
  rewrite (bool_decide_eq_false_2 (policy = Refuse)) by done. cbn [andb].
  set (discard := bool_decide (policy = Discard) && (0 <? n)%nat).
  destruct (repair_keep _ r pa H b extra tail zeros bytes Han Hbase Hpx Hlength Himg discard) as [-> _].
  apply succeeds_try; [apply succeeds_ret|]. intros keep d1 Hrun. injection Hrun as <- <-.
  assert (∃ d1, runs (if negb (blen (LOG_MAGIC ++ log_bytes (if discard then drop b H else drop b H ++ extra))
      =? rl_length r)%N then truncate_durably (rl_path r) (blen (LOG_MAGIC ++ log_bytes
      (if discard then drop b H else drop b H ++ extra))) else pret (Ok tt)) d (Ok tt) d1 ∧
    file_at d1 (rl_path r) ≠ None) as (d1 & Hcut & Hfile').
  { destruct (negb _); [by apply truncate_succeeds|by exists d]. }
  apply succeeds_try; [by eexists _, _|]. intros [] d2 Hrun.
  destruct (runs_unique _ _ _ _ _ _ Hcut Hrun) as [_ <-]. apply succeeds_try.
  { unfold from_verified_above. destruct (file_at d1 (rl_path r)) as [f|] eqn:Hf; [|done].
    apply succeeds_try; [eapply succeeds_call; by rewrite Hf|]. intros ? ? _. apply succeeds_ret. }
  intros ledger d2 _. apply succeeds_ret.
Qed.

(** What the repair reports as the tail. *)
Lemma repair_tail policy d log recovery d' :
  entry_at d (rl_path r) = {| en_file := Some (durable_file bytes); en_reverts := [] |} →
  runs (repair sha256 r pa policy) d (Ok (log, recovery)) d' →
  ∃ K, (K = drop b H ∨ K = drop b H ++ extra) ∧ tr_tail recovery = end_anchor (floor_anchor H b) K ∧
       tr_origin recovery = derived_origin sha256 (kept (rl_path r) (floor_anchor H b) K).
Proof using Han Hbase Hpx Hlength Himg.
  intros Hent Hrun.
  eapply (runs_wp _ _ _ _ (λ res _, match res with
    | Ok (_, recovery) => ∃ K, (K = drop b H ∨ K = drop b H ++ extra) ∧
        tr_tail recovery = end_anchor (floor_anchor H b) K ∧
        tr_origin recovery = derived_origin sha256 (kept (rl_path r) (floor_anchor H b) K)
    | Err _ => True end) (λ _, True)) in Hrun; [exact Hrun|].
  apply (repair_wp _ r pa H b extra tail zeros bytes Han Hbase Hpx Hlength Himg); [done|done|].
  intros K d2 rec HK _ _ Ht Ho. by exists K.
Qed.
End repair.

Lemma crash_settled d d' : crashes_to d d' → settled d'.
Proof.
  intros Hc n. destruct (Hc n) as [Hr (g & _ & Hg)]. split; [done|]. intros f Hf. rewrite Hf in Hg.
  destruct g; [|done]. by destruct Hg.
Qed.

Lemma lock_succeeds path base d f px :
  file_at d path = Some f → (blen (content f) ≤ MAX_LOG_BYTES)%N →
  scan_from sha256 (content f) base = Ok px →
  runs (lock_for_recovery sha256 path base) d
    (Ok {| rl_path := path; rl_base := base; rl_prefix := px; rl_length := blen (content f) |}) d.
Proof.
  intros Hf Hb Hscan.
  unfold lock_for_recovery, lock_existing.
  eapply runs_try; [apply runs_query; cbn beta; by rewrite Hf|].
  eapply runs_try; [by apply read_bounded_run|].
  rewrite Hscan. eapply runs_try; apply runs_ret.
Qed.

(** The anchor that acknowledges what was kept may follow. *)
Lemma kept_follows pa H b extra K origin :
  anchored pa H b → chain (floor_anchor H b) (drop b H ++ extra) →
  K = drop b H ∨ K = drop b H ++ extra →
  end_anchor (floor_anchor H b) K ≠ pa_log pa → (pa_epoch pa + 1 < 2 ^ 64)%N →
  (∀ e, origin = Some e → ∃ r, head (H ++ extra) = Some r ∧ e = la_digest (lr_anchor r)) →
  anchor_follows sha256 pa
    (acknowledged_next pa (end_anchor (floor_anchor H b) K) (default ORIGIN_UNSET origin)).
Proof using sha256_length.
  intros Han Hch HK Hne Hep Hor. pose proof (an_chain _ _ _ _ Han) as Hc.
  assert (K = drop b H ++ extra) as ->.
  { destruct HK as [->| ->]; [|done]. destruct Hne. by rewrite end_floor, (an_log _ _ _ _ Han). }
  assert (chain empty (H ++ extra)) as Hc'.
  { rewrite <-(take_drop b H), <-app_assoc. apply chain_app. split; [by apply chain_take|done]. }
  assert (end_anchor (floor_anchor H b) (drop b H ++ extra) = end_anchor empty (H ++ extra)) as Hend.
  { by rewrite end_anchor_app, end_floor, <-end_anchor_app. }
  assert (extra ≠ []) as Hx.
  { intros ->. destruct Hne. by rewrite Hend, app_nil_r, (an_log _ _ _ _ Han). }
  assert (la_index (pa_log pa) < la_index (end_anchor empty (H ++ extra)))%N as Hlt.
  { rewrite (an_log _ _ _ _ Han), !history_length, blen_app by done.
    destruct extra; [done|]. rewrite blen_cons. lia. }
  assert (anchored (acknowledged_next pa (end_anchor (floor_anchor H b) (drop b H ++ extra))
            (default ORIGIN_UNSET origin)) (H ++ extra) b) as Hn by by eapply anchored_next.
  split; cbn [acknowledged_next pa_epoch pa_log pa_origin]; rewrite ?Hend; [lia|lia|lia| |].
  - by intros ->.
  - rewrite <-Hend. by apply (anchored_wf _ sha256_length) in Hn as [].
Qed.

(** The part behind the repair. *)
Lemma open_kept_succeeds d pa H b extra K log (split : Split) recovery :
  anchored pa H b → chain (floor_anchor H b) (drop b H ++ extra) →
  K = drop b H ∨ K = drop b H ++ extra → (pa_epoch pa + 1 < 2 ^ 64)%N →
  tr_tail recovery = end_anchor (floor_anchor H b) K →
  tr_origin recovery = derived_origin sha256 (kept (log_name b) (floor_anchor H b) K) →
  succeeds (try* anchors :=
        (if negb (bool_decide (tr_tail recovery = pa_log pa)) then
           let* (r, anchors) := acknowledge sha256 (store pa) (tr_tail recovery)
                                  (default ORIGIN_UNSET (tr_origin recovery)) in
           pret (match r with Ok _ => Ok anchors | Err e => Err (AckAnchor e) end)
         else pret (Ok (store pa))) in
      pret (Ok ({| al_log := log; al_anchors := anchors; al_paths := p; al_fenced := false;
                   al_recovery := Some recovery |}, split))) d.
Proof using sha256_length.
  intros Han Hch HK Hep Htail Horig. rewrite Htail, Horig.
  case_bool_decide as Heq; cbn [negb].
  { apply succeeds_try; [apply succeeds_ret|]. intros ? ? _. apply succeeds_ret. }
  assert (K = drop b H ++ extra) as HK'.
  { destruct HK as [->| ->]; [|done]. destruct Heq. by rewrite end_floor, (an_log _ _ _ _ Han). }
  apply succeeds_try; [|intros ? ? _; apply succeeds_ret].
  destruct (acknowledge_succeeds pa (end_anchor (floor_anchor H b) K) (default ORIGIN_UNSET
    (derived_origin sha256 (kept (log_name b) (floor_anchor H b) K))) d Hep) as (next & s & d' & Hrun).
  { apply (kept_follows pa H b extra K _ Han Hch HK Heq Hep). intros e Ho.
    apply (derived_origin_first sha256 _ (H ++ extra) b e) in Ho; [done| | | |].
    - cbn. by rewrite floor_app by apply Han.
    - rewrite <-(take_drop b H), <-app_assoc. apply chain_app.
      split; [by apply chain_take, Han|done].
    - rewrite length_app. pose proof (an_floor _ _ _ _ Han). lia.
    - cbn. rewrite HK', drop_app_le by apply Han. done. }
  eexists _, d'. eapply runs_bind; [exact Hrun|]. apply runs_ret.
Qed.

Lemma ack_open_succeeds d f pa H b minimum policy :
  settled d →
  file_at d anchor_name = Some f → content f = anchor_record sha256 key pa →
  anchored pa H b → holds d H b →
  policy ≠ Refuse → (minimum ≤ pa_epoch pa)%N → (pa_epoch pa + 1 < 2 ^ 64)%N →
  succeeds (ack_open sha256 p key minimum policy) d.
Proof using sha256_length.
  intros Hs Hf Hcon Han Hh Hpol Hmin Hep. unfold ack_open.
  pose proof (open_expecting_run _ sha256_length anchor_name key minimum d f pa Hf Hcon
    (anchored_wf _ sha256_length _ _ _ Han) Hmin) as Hopen.
  apply (runs_map_err AckAnchor) in Hopen.
  apply succeeds_try; [by eexists _, d|].
  intros anchors d1 Hrun. destruct (runs_unique _ _ _ _ _ _ Hopen Hrun) as [[= <-] <-]. cbn [as_current].
  rewrite (an_base _ _ _ _ Han), floor_index by apply Han.
  destruct (file_at d (log_name b)) as [g|] eqn:Hg.
  2:{ destruct (Hh None) as (? & ? & ? & ? & ?); [|done]. exists None. split; [|done].
      unfold file_at in Hg. rewrite Hg. left. }
  destruct (Hh (Some (content g))) as (bytes & extra & tail & Hb & Himg); [by apply possible_content|].
  injection Hb as <-.
  destruct (scan_image sha256 sha256_length _ _ _ _ (floor_ok _ sha256_length _ b (an_chain _ _ _ _ Han)) Himg)
    as (zeros & Hscan).
  pose proof (lock_succeeds (log_name b) (floor_anchor H b) d g _ Hg (li_size _ _ _ _ _ Himg) Hscan) as Hlock.
  apply (runs_map_err AckLog) in Hlock.
  apply succeeds_try; [by eexists _, d|].
  intros r d1 Hrun'. destruct (runs_unique _ _ _ _ _ _ Hlock Hrun') as [[= <-] <-].
  set (r := {| rl_path := log_name b; rl_base := _; rl_prefix := _; rl_length := _ |}) in *.
  rewrite (classify_image _ r pa H b extra tail zeros Han eq_refl eq_refl (li_chain _ _ _ _ _ Himg)).
  rewrite (bool_decide_eq_false_2 (policy = Refuse)) by done.
  apply succeeds_try; [destruct (bool_decide (extra = [] ∧ tail = [])); apply succeeds_ret|].
  intros [] d1 Hlift.
  assert (d1 = d) as -> by (destruct (bool_decide (_ ∧ _)) in Hlift; by injection Hlift).
  destruct (repair_succeeds r pa H b extra tail zeros (content g) Han eq_refl eq_refl eq_refl Himg policy d
    ltac:(cbn; by rewrite Hg) Hpol) as ([log recovery] & d1 & Hrep).
  destruct (repair_tail r pa H b extra tail zeros (content g) Han eq_refl eq_refl eq_refl Himg policy d log
    recovery d1 (settled_entry _ _ _ Hs Hg) Hrep) as (K & HK & Htail & Horig).
  apply (runs_map_err AckLog) in Hrep.
  apply succeeds_try; [by eexists _, d1|].
  intros [log' recovery'] d2 Hrun2. destruct (runs_unique _ _ _ _ _ _ Hrep Hrun2) as [[= <- <-] <-].
  apply (open_kept_succeeds d1 pa H b extra K); [done|apply Himg|done..].
Qed.

(** On every disk that covers a history the anchor can be read. *)
Lemma covered_anchor P d :
  Covered P d → ∃ f pa H b, file_at d anchor_name = Some f ∧
    content f = anchor_record sha256 key pa ∧ anchored pa H b ∧ P H ∧ holds d H b.
Proof.
  intros Hcov. destruct (file_at d anchor_name) as [f|] eqn:Hf.
  - destruct (Hcov (Some (content f))) as (pa & H & b & [= Hrec] & ? & ? & ?);
      [by apply possible_content|]. by exists f, pa, H, b.
  - destruct (Hcov None) as (? & ? & ? & [=] & ?). exists None. split; [|done].
    unfold file_at in Hf. rewrite Hf. left.
Qed.

(** C2: every crash of the machine in an orderly run is recovered from.  Take any run
    of appends and cutovers under I/O failures, deaths of the process and earlier
    crashes, in which the ledger was reopened only when everything written had reached
    the disk, orphans were reclaimed only by a ledger that was not fenced and whose
    anchor was the one on the disk, and a ledger whose log could not be read back was
    given up.  After a crash of the machine at any point of it, the anchor file holds
    a valid anchor, and when no call fails the ledger reopens under either policy that
    repairs the tail, for every minimum epoch the anchor satisfies.  (The last epoch
    cannot be advanced.) *)
Theorem crash_recoverable s0 d m d' :
  ack_created sha256 p key s0 → rtc (orderly_step sha256 p key) s0 (d, m) → crashes_to d d' →
  ∃ f pa, file_at d' anchor_name = Some f ∧ content f = anchor_record sha256 key pa ∧
    anchor_wf sha256 pa ∧
    ∀ minimum policy, policy ≠ Refuse → (minimum ≤ pa_epoch pa)%N → (pa_epoch pa + 1 < 2 ^ 64)%N →
      succeeds (ack_open sha256 p key minimum policy) d'.
Proof using sha256_length.
  intros H0 Hst Hcr.
  destruct (steps_inv _ sha256_length _ _ _ _ _ Hst (created_inv _ sha256_length _ _ _ H0)) as (H & _ & Hc & _).
  destruct (covered_anchor _ _ (covered_crash _ _ _ _ _ _ Hcr Hc)) as (f & pa & H' & b & Hf & Hcon & Han & _ & Hh).
  exists f, pa. split_and!; [done|done|by eapply anchored_wf|].
  intros minimum policy Hpol Hmin Hep. eapply ack_open_succeeds; try done. by eapply crash_settled.
Qed.
End AckRecover.

(** * What compaction plans promise *)

(** The shape of a decision to compact, from the code alone. *)
Lemma plan_compaction_inv sha256 l policy barrier plan :
  plan_compaction sha256 l policy barrier = Ok (Compact plan) →
  let anchor := ack_anchor l in
  let floor := la_index (pa_base anchor) in
  let proposed := (floor + cp_discarded_records plan)%N in
  barrier_safe barrier = true ∧ (0 < cp_discarded_records plan)%N ∧
  (proposed ≤ cb_snapshot_covers barrier)%N ∧ (rp_keep_records policy ≤ cp_retained_records plan)%N ∧
  la_index (pa_log anchor) = (proposed + cp_retained_records plan)%N ∧ cp_tail plan = pa_log anchor ∧
  ∃ anchors, log_err (chain_anchors sha256 (fl_events (al_log l)) (pa_base anchor)) = Ok anchors ∧
    anchors !! (N.to_nat (cp_discarded_records plan) - 1) = Some (cp_base plan).
Proof.
  intros H. unfold plan_compaction in H. set (anchor := ack_anchor l) in *.
  destruct (_ <=? _)%N eqn:H1 in H; [done|]. destruct (barrier_safe barrier) eqn:H2; [|done]. cbn [negb] in H.
  destruct (_ <=? _)%N eqn:H3 in H; [done|]. apply rbind_ok_inv in H as (anchors & Ha & H).
  apply rbind_ok_inv in H as (base & Hb & H). injection H as <-. apply ok_or_ok_inv in Hb.
  bool_prop. cbn [cp_discarded_records cp_retained_records cp_tail cp_base].
  split_and!; [done|lia|lia|lia|lia|done|]. by exists anchors.
Qed.

Section AckPlan.
Context (sha256 : list byte → list byte).
(** A SHA-256 digest has 32 bytes. *)
Context (sha256_length : ∀ x, length (sha256 x) = 32).
Context (p : LogPaths) (key : AnchorKey).

(** A plan for a ledger in service passes the checks of the cutover. *)
Lemma plan_accepted d l H b policy barrier plan :
  ReadyAt sha256 p key d l H b → al_fenced l = false →
  plan_compaction sha256 l policy barrier = Ok (Compact plan) →
  check_plan sha256 l plan = Ok (drop (N.to_nat (cp_discarded_records plan)) (ack_events l)) ∧
  la_index (cp_base plan) = (la_index (pa_base (ack_anchor l)) + cp_discarded_records plan)%N ∧
  (cp_discarded_records plan + cp_retained_records plan)%N = blen (ack_events l).
Proof.
  intros Hr Hf Hp. apply plan_compaction_inv in Hp as (_ & Hpos & _ & _ & Hsum & Ht & anchors & Ha & Hlk).
  pose proof (ra_anchored _ _ _ _ _ _ _ Hr) as Han. pose proof (an_chain _ _ _ _ Han) as Hc.
  unfold check_plan, ack_anchor, ack_events in *. rewrite Hf, Ht, bool_decide_eq_true_2 by done. cbn [negb].
  rewrite (an_base _ _ _ _ Han), (an_log _ _ _ _ Han), (ra_events _ _ _ _ _ _ _ Hr) in *.
  rewrite floor_index, history_length in * by (done || apply Han).
  pose proof Ha as Ha'. unfold chain_anchors in Ha'. destruct (_ <? _)%N in Ha'; [done|].
  destruct (chain_loop _ _ _) as [as'|] eqn:Hl in Ha'; [|done]. injection Ha' as ->.
  apply chain_loop_anchors in Hl; [|by apply chain_drop]. subst anchors.
  pose proof Hlk as Hlk'. rewrite list_lookup_fmap in Hlk'.
  destruct (drop b H !! _) as [r|] eqn:Hx; [|done]. injection Hlk' as Hlk'.
  assert (la_index (cp_base plan) = N.of_nat b + cp_discarded_records plan)%N as Hidx.
  { rewrite <-Hlk', (end_anchor_lookup _ (floor_anchor sha256 H b) _ _ Hx).
    replace (S (N.to_nat (cp_discarded_records plan) - 1)) with (N.to_nat (cp_discarded_records plan)) by lia.
    unfold floor_anchor at 1. rewrite <-end_anchor_app, take_take_drop.
    fold (floor_anchor sha256 H (b + N.to_nat (cp_discarded_records plan))).
    rewrite (floor_index _ H _ Hc); [lia|]. apply lookup_lt_Some in Hx. rewrite length_drop in Hx. lia. }
  rewrite Hidx, (proj2 (N.leb_gt _ _)), (proj2 (N.ltb_ge _ _)) by lia.
  rewrite Ha. cbn [rbind]. replace (N.of_nat b + cp_discarded_records plan - N.of_nat b)%N
    with (cp_discarded_records plan) by lia.
  rewrite bool_decide_eq_true_2 by done. split_and!; [done|done|].
  pose proof (an_floor _ _ _ _ Han). unfold blen in *. rewrite length_fmap, length_drop. lia.
Qed.

(** A compaction plan discards only what may be discarded, and can be carried
    out.  Whenever a ledger in service decides to compact: every consumer has
    caught up and no revocation is unresolved; at least one record is discarded,
    none above what the snapshot covers; at least the records the policy keeps
    are retained; discarded and retained records are all records above the
    floor; and the cutover accepts the plan and keeps exactly the others. *)
Theorem plan_compaction_sound s0 d l policy barrier plan :
  ack_created sha256 p key s0 → rtc (orderly_step sha256 p key) s0 (d, Some l) → al_fenced l = false →
  plan_compaction sha256 l policy barrier = Ok (Compact plan) →
  (cb_all_consumers_caught_up barrier = true ∧ cb_unresolved_revocations barrier = 0%N) ∧
  (la_index (pa_base (ack_anchor l)) < la_index (cp_base plan) ≤ cb_snapshot_covers barrier)%N ∧
  (rp_keep_records policy ≤ cp_retained_records plan)%N ∧
  (cp_discarded_records plan + cp_retained_records plan)%N = blen (ack_events l) ∧
  cp_tail plan = pa_log (ack_anchor l) ∧
  check_plan sha256 l plan = Ok (drop (N.to_nat (cp_discarded_records plan)) (ack_events l)).
Proof using sha256_length.
  intros H0 Hst Hf Hp. destruct (reachable_ready _ sha256_length _ _ _ _ _ H0 Hst Hf) as [H [b Hr]].
  destruct (plan_accepted _ _ _ _ _ _ _ Hr Hf Hp) as (Hc & Hi & Hs).
  apply plan_compaction_inv in Hp as (Hb & Hpos & Hcov & Hk & _ & Ht & _).
  unfold barrier_safe in Hb. bool_prop. split_and!; try done; lia.
Qed.
End AckPlan.
