(* ===== verification/AckExamples.v ===== *)
(** * A run of an acknowledged ledger

    A ledger is created and appended to; the machine stops during the second
    append, after the record was written and before it was synchronized; and
    the ledger is reopened, on what the crash left and on the disk as it was.
    Besides the instances of the theorems on runs, three runs that are not orderly,
    in which acknowledged history is lost. *)

From S2P Require Import Prelude Bytes Types LedgerEvents LedgerChecks LedgerCodec LedgerCodecFacts.
From S2P Require Import LedgerEventFacts Ledger Integrity IntegrityLog Storage Anchor FileLedger.
From S2P Require Import Compaction Acknowledged Retention AckAppend AckOpen AckCompact AckTrace.
From S2P Require Import AckRecover.
From stdpp Require Import options.

(** ** Two crashes *)

(** Everything was written before the crash. *)
Definition settle (d : disk) : disk :=
  (λ e, {| en_file := (λ f, durable_file (content f)) <$> en_file e; en_reverts := [] |}) <$> d.
(** Nothing that was not synchronized survived, names excepted. *)
Definition lose (d : disk) : disk :=
  (λ e, {| en_file := (λ f, durable_file (f_synced f)) <$> en_file e; en_reverts := [] |}) <$> d.

Lemma crashes_to_fmap (g : file → list byte) (d : disk) :
  (∀ f, survives f (g f)) →
  crashes_to d ((λ e, {| en_file := (λ f, durable_file (g f)) <$> en_file e; en_reverts := [] |}) <$> d).
Proof.
  intros Hg n. unfold file_at, entry_at. rewrite lookup_fmap. destruct (d !! n) as [e|]; cbn.
  - split; [done|]. exists (en_file e). split; [left|]. destruct (en_file e) as [f|]; [|done]. by split.
  - split; [done|]. exists None. split; [left|done].
Qed.
Lemma crash_settle d : crashes_to d (settle d).
Proof. apply crashes_to_fmap. intros f. eapply (survives_done f _ []). by rewrite app_nil_r. Qed.
Lemma crash_lose d : crashes_to d (lose d).
Proof. apply crashes_to_fmap. intros f. by apply (survives_done f [] (f_pending f)). Qed.

(** ** The run *)
Definition toy_paths : LogPaths := {| lp_stem := "j" |}.
Definition toy_key : AnchorKey := replicate 32 x07.

Definition toy_ledger : AcknowledgedLedger := {|
  al_log := {| fl_path := ""; fl_events := []; fl_anchor := toy_base; fl_base := toy_base;
               fl_length := 0; fl_cursor := 0; fl_poisoned := true |};
  al_anchors := {| as_path := ""; as_key := []; as_current := anchor_initial toy_sha256 |};
  al_paths := toy_paths; al_fenced := true; al_recovery := None |}.

Abbreviation outcome A := (option A * world)%type.
Definition created_of (x : outcome (ack_result AcknowledgedLedger)) : machine :=
  (w_disk x.2, match x.1 with Some (Ok l) => Some l | _ => None end).
Definition called_of {A} (x : outcome (A * AcknowledgedLedger)) : machine :=
  (w_disk x.2, snd <$> x.1).
Definition opened_of (x : outcome (ack_result (AcknowledgedLedger * Split))) : machine :=
  (w_disk x.2, match x.1 with Some (Ok (l, _)) => Some l | _ => None end).
Definition ledger_of (s : machine) : AcknowledgedLedger := default toy_ledger s.2.

Definition toy_append (s : machine) (o : list verdict) : outcome (ack_result N * AcknowledgedLedger) :=
  append_acknowledged toy_sha256 sample_revoked (ledger_of s) {| w_disk := s.1; w_oracle := o |}.
Definition toy_open (d : disk) : outcome (ack_result (AcknowledgedLedger * Split)) :=
  ack_open toy_sha256 toy_paths toy_key 0 Acknowledge {| w_disk := d; w_oracle := [] |}.

Definition toy_create : outcome (ack_result AcknowledgedLedger) :=
  ack_create toy_sha256 toy_paths toy_key {| w_disk := ∅; w_oracle := [] |}.
Definition run0 : machine := created_of toy_create.
Definition run1 : machine := called_of (toy_append run0 []).
(** The calls that precede [sync_data] proceed, and it stops the machine. *)
Definition run2 : machine :=
  called_of (toy_append run1 [Proceeds; Proceeds; Proceeds; Proceeds; Halts 0]).
Definition run3 : machine := opened_of (toy_open (settle run2.1)).

Abbreviation toy_call := (ack_step toy_sha256 toy_paths toy_key).
Abbreviation toy_step := (orderly_step toy_sha256 toy_paths toy_key).

Lemma toy_append_step s o : is_Some s.2 → toy_step s (called_of (toy_append s o)).
Proof.
  destruct s as [d [l|]]; [intros _|by intros []]. exists (CallAppend sample_revoked). split; [|done].
  eapply step_append; [vm_compute; reflexivity|apply surjective_pairing].
Qed.
Lemma toy_compact_step s plan o :
  is_Some s.2 →
  toy_step s (called_of (compact toy_sha256 (ledger_of s) plan {| w_disk := s.1; w_oracle := o |})).
Proof.
  destruct s as [d [l|]]; [intros _|by intros []]. exists (CallCompact plan). split; [|done].
  eapply step_compact, surjective_pairing.
Qed.
Lemma toy_open_call d : toy_call (d, None) (CallOpen 0 Acknowledge) (opened_of (toy_open d)).
Proof. eapply step_open, surjective_pairing. Qed.
Lemma run0_created : ack_created toy_sha256 toy_paths toy_key run0.
Proof.
  unfold ack_created. destruct toy_create as [[[l|e]|] w] eqn:E; [|by vm_compute in E..].
  exists ∅, [], l, w. split; [exact E|]. unfold run0. by rewrite E.
Qed.
Lemma run1_steps : rtc toy_step run0 run1.
Proof. apply rtc_once, toy_append_step. vm_compute. by eexists. Qed.
Lemma run2_steps : rtc toy_step run1 run2.
Proof. apply rtc_once, toy_append_step. vm_compute. by eexists. Qed.
Lemma run3_steps : rtc toy_step run1 run3.
Proof.
  trans run2; [apply run2_steps|].
  apply rtc_l with (settle run2.1, None).
  - exists MachineCrashes. split; [|done]. destruct run2. apply step_crash, crash_settle.
  - apply rtc_once. eexists. split; [apply toy_open_call|]. eapply crash_settled, crash_settle.
Qed.

(** The event acknowledged before the crash is the first after it; the tail
    that the crash left was acknowledged by the reopening. *)
Lemma acknowledged_never_lost_witness :
  (length (ack_events (ledger_of run1)) = 1 ∧ length (ack_events (ledger_of run3)) = 2) ∧
  drop (floor_of (ledger_of run3) - floor_of (ledger_of run1)) (ack_events (ledger_of run1)) `prefix_of`
  drop (floor_of (ledger_of run1) - floor_of (ledger_of run3)) (ack_events (ledger_of run3)).
Proof.
  split; [vm_compute; split; reflexivity|].
  assert (run1 = (run1.1, Some (ledger_of run1))) as H1 by (vm_compute; reflexivity).
  assert (run3 = (run3.1, Some (ledger_of run3))) as H3 by (vm_compute; reflexivity).
  pose proof run1_steps as S1. pose proof run3_steps as S3. rewrite H1 in S1, S3. rewrite H3 in S3.
  apply (acknowledged_never_lost toy_sha256 toy_sha256_length toy_paths toy_key run0
           run1.1 (ledger_of run1) run3.1 (ledger_of run3));
    [apply run0_created|exact S1|vm_compute; reflexivity|exact S3|vm_compute; reflexivity].
Defined.

(** The machine stopped in the middle of an append and lost what was not
    synchronized: the log is recovered without the record. *)
Lemma crash_recoverable_witness :
  ∃ f pa, file_at (lose run2.1) (anchor_path toy_paths) = Some f ∧
    content f = anchor_record toy_sha256 toy_key pa ∧ anchor_wf toy_sha256 pa ∧
    ∀ minimum policy, policy ≠ Refuse → (minimum ≤ pa_epoch pa)%N → (pa_epoch pa + 1 < 2 ^ 64)%N →
      succeeds (ack_open toy_sha256 toy_paths toy_key minimum policy) (lose run2.1).
Proof.
  apply (crash_recoverable toy_sha256 toy_sha256_length toy_paths toy_key run0 run2.1 run2.2);
    [apply run0_created| |apply crash_lose].
  trans run1; [apply run1_steps|]. destruct run2 eqn:E. rewrite <-E. apply run2_steps.
Defined.

(** Opening the anchor of a ledger with one record. *)
Lemma anchor_open_exact_witness :
  ∃ f store, file_at run1.1 (anchor_path toy_paths) = Some f ∧
  (open_expecting toy_sha256 (anchor_path toy_paths) toy_key 2 {| w_disk := run1.1; w_oracle := [] |}).1
    = Some (Ok store) ∧
  ∃ pa, content f = anchor_record toy_sha256 toy_key pa ∧ anchor_wf toy_sha256 pa ∧
        (2 ≤ pa_epoch pa)%N ∧
        store = {| as_path := anchor_path toy_paths; as_key := toy_key; as_current := pa |}.
Proof.
  destruct (file_at run1.1 (anchor_path toy_paths)) as [f|] eqn:Hf; [|by vm_compute in Hf].
  exists f, (al_anchors (ledger_of run1)). split; [done|].
  assert ((open_expecting toy_sha256 (anchor_path toy_paths) toy_key 2
            {| w_disk := run1.1; w_oracle := [] |}).1 = Some (Ok (al_anchors (ledger_of run1)))) as Ho
    by (vm_compute; reflexivity).
  split; [exact Ho|].
  by apply (anchor_open_exact toy_sha256 toy_sha256_length _ _ _ run1.1 f _ Hf).
Defined.

(** ** Reopening before the disk has settled *)

(** The process stopped between the write of the second record and its
    synchronization; the machine did not. *)
Definition run4 : machine := opened_of (toy_open run2.1).
Definition unsynced (d : disk) (name : string) : list change :=
  match file_at d name with
  | Some f => f_pending f
  | None => []
  end.

(** Reopening may acknowledge what is not durable.  The process stops before
    [sync_data]; the machine goes on, so that the record is read back although
    it was never synchronized.  Opening with [Acknowledge] adopts it: no call
    fails, the new anchor names both records, and the log is not synchronized on
    the way.  If the machine now crashes and the record is lost, the anchor
    names a record that the log does not hold, and opening refuses with
    [PTR_ACK_LOST_SUFFIX] under every policy. *)
Theorem reopen_acknowledges_unsynced_tail :
  rtc toy_step run0 run2 ∧ toy_call run2 (CallOpen 0 Acknowledge) run4 ∧
  la_index (pa_log (ack_anchor (ledger_of run4))) = 2%N ∧ is_Some run4.2 ∧
  unsynced run4.1 (log_path toy_paths 0) ≠ [] ∧
  crashes_to run4.1 (lose run4.1) ∧
  ∀ policy,
    (ack_open toy_sha256 toy_paths toy_key 0 policy {| w_disk := lose run4.1; w_oracle := [] |}).1
    = Some (Err (AckUnrecoverable (LostSuffix 2 1))).
Proof.
  split; [trans run1; [apply run1_steps|apply run2_steps]|].
  split; [replace run2 with (run2.1, @None AcknowledgedLedger) by (vm_compute; reflexivity); apply toy_open_call|].
  split; [vm_compute; reflexivity|]. split; [vm_compute; by eexists|].
  split; [vm_compute; discriminate|].
  split; [apply crash_lose|]. intros []; vm_compute; reflexivity.
Qed.

(** ** Reclaiming after a cutover that failed late *)

(** Two records, of which a snapshot covers the first. *)
Definition run5 : machine := called_of (toy_append run1 []).
Definition toy_barrier : CompactionBarrier :=
  {| cb_snapshot_covers := 1; cb_all_consumers_caught_up := true; cb_unresolved_revocations := 0 |}.
Definition toy_decision : ack_result CompactionDecision :=
  plan_compaction toy_sha256 (ledger_of run5) {| rp_keep_records := 1 |} toy_barrier.
Definition no_plan : CompactionPlan :=
  {| cp_base := toy_base; cp_tail := toy_base; cp_discarded_records := 0; cp_retained_records := 0 |}.
Definition toy_plan : CompactionPlan :=
  match toy_decision with
  | Ok (Compact plan) => plan
  | _ => no_plan
  end.
(** Every call of the cutover proceeds but the last, the synchronization of the
    directory that holds the new anchor. *)
Definition failed_cutover : outcome (ack_result CompactionOutcome * AcknowledgedLedger) :=
  compact toy_sha256 (ledger_of run5) toy_plan
    {| w_disk := run5.1; w_oracle := replicate 11 Proceeds ++ [Fails 0] |}.
Definition run6 : machine := called_of failed_cutover.
Definition reclaimed : outcome (ack_result (list string)) :=
  reclaim_orphans (ledger_of run6) {| w_disk := run6.1; w_oracle := [] |}.

(** Reclaiming after a failed cutover may remove the live log.  A cutover
    that fails at its last call, after the new anchor was renamed into place,
    returns an error and leaves the ledger in service with the previous anchor
    in memory (an append in the same position fences the ledger).  Reclaiming
    orphans then removes the log that the anchor on the disk names, and the
    ledger cannot be opened again under any policy. *)
Theorem failed_cutover_reclaim_loses_log :
  rtc toy_step run0 run6 ∧ toy_decision = Ok (Compact toy_plan) ∧
  fst <$> failed_cutover.1 = Some (Err (AckAnchor StorageError)) ∧ al_fenced (ledger_of run6) = false ∧
  reclaimed.1 = Some (Ok [log_path toy_paths 1]) ∧
  toy_call run6 CallReclaim (w_disk reclaimed.2, Some (ledger_of run6)) ∧
  ∀ policy,
    (ack_open toy_sha256 toy_paths toy_key 0 policy
       {| w_disk := settle (w_disk reclaimed.2); w_oracle := [] |}).1
    = Some (Err (AckLog (os_error NotFound))).
Proof.
  split.
  { trans run1; [apply run1_steps|]. apply rtc_l with run5; [apply toy_append_step; vm_compute; by eexists|].
    apply rtc_once, toy_compact_step. vm_compute. by eexists. }
  split; [vm_compute; reflexivity|]. split; [vm_compute; reflexivity|].
  split; [vm_compute; reflexivity|]. assert (reclaimed.1 = Some (Ok [log_path toy_paths 1])) as Hr by (vm_compute; reflexivity).
  split; [exact Hr|]. split; [|intros []; vm_compute; reflexivity].
  replace (Some (ledger_of run6)) with ((λ _ : ack_result (list string), ledger_of run6) <$> reclaimed.1) by (by rewrite Hr).
  replace run6 with (run6.1, Some (ledger_of run6)) at 1 by (vm_compute; reflexivity). eapply step_reclaim, surjective_pairing.
Qed.

(** The plan for two records of which a snapshot covers one. *)
Lemma plan_compaction_sound_witness :
  (cb_all_consumers_caught_up toy_barrier = true ∧ cb_unresolved_revocations toy_barrier = 0%N) ∧
  (la_index (pa_base (ack_anchor (ledger_of run5))) < la_index (cp_base toy_plan)
     ≤ cb_snapshot_covers toy_barrier)%N ∧
  (1 ≤ cp_retained_records toy_plan)%N ∧
  (cp_discarded_records toy_plan + cp_retained_records toy_plan)%N = blen (ack_events (ledger_of run5)) ∧
  cp_tail toy_plan = pa_log (ack_anchor (ledger_of run5)) ∧
  check_plan toy_sha256 (ledger_of run5) toy_plan =
    Ok (drop (N.to_nat (cp_discarded_records toy_plan)) (ack_events (ledger_of run5))).
Proof.
  assert (run5 = (run5.1, Some (ledger_of run5))) as H5 by (vm_compute; reflexivity).
  assert (rtc toy_step run0 (run5.1, Some (ledger_of run5))) as Hst.
  { rewrite <-H5. trans run1; [apply run1_steps|].
    apply rtc_once, toy_append_step. vm_compute. by eexists. }
  apply (plan_compaction_sound toy_sha256 toy_sha256_length toy_paths toy_key run0 run5.1
           (ledger_of run5) {| rp_keep_records := 1 |} toy_barrier toy_plan);
    [apply run0_created|exact Hst|vm_compute; reflexivity|vm_compute; reflexivity].
Defined.

(** ** Appending after a read that failed *)

(** The audit of a ledger with one record; the read of its log fails after the
    seek to its start. *)
Definition failed_audit : outcome (ack_result ErasureAudit * AcknowledgedLedger) :=
  ack_audit_erasure (ledger_of run1) (str_bytes "a")
    {| w_disk := run1.1; w_oracle := [Proceeds; Proceeds; Fails 0] |}.
Definition run7 : machine := called_of failed_audit.
Definition misplaced : outcome (ack_result N * AcknowledgedLedger) := toy_append run7 [].
Definition run8 : machine := called_of misplaced.

(** After a failed audit an append may destroy the log.  When reading the live
    log fails behind the seek to its start, the audit returns the error, and the
    ledger stays in service with its handle away from the end of the file.  The
    next append passes the check of the file's length, overwrites the beginning
    of the log and is acknowledged; the ledger cannot be opened again under any
    policy. *)
Theorem failed_audit_append_destroys_log :
  fst <$> failed_audit.1 = Some (Err (AckLog (os_error Other))) ∧
  al_fenced (ledger_of run7) = false ∧ fl_poisoned (al_log (ledger_of run7)) = false ∧
  fst <$> misplaced.1 = Some (Ok 2%N) ∧
  ∀ policy,
    (ack_open toy_sha256 toy_paths toy_key 0 policy
       {| w_disk := settle run8.1; w_oracle := [] |}).1
    = Some (Err (AckLog (Io (invalid "PTR_LOG_FORMAT_OR_HEADER")))).
Proof.
  split; [vm_compute; reflexivity|]. split; [vm_compute; reflexivity|].
  split; [vm_compute; reflexivity|]. split; [vm_compute; reflexivity|].
  intros []; vm_compute; reflexivity.
Qed.
