(* ===== verification/RaftFormat.v ===== *)
(** * The files of the Raft storage: crates/ptr-ledger/src/raft_storage.rs, formats

    Log records, the state file and what reading the log finds.  SHA-256 is a
    parameter.  The types of the raft crate are records of the fields the code
    reads and writes. *)

From S2P Require Import Prelude Bytes Text Types LedgerEvents LedgerChecks LedgerCodec Integrity.
From stdpp Require Import options.

Definition STATE_MAGIC : list byte := str_bytes "PTRRST03".
Definition RECORD_MAGIC : list byte := str_bytes "PTRRFR01".
Definition RAFT_LOG_MAGIC : list byte := str_bytes "PTRRLG01".
Definition MAX_ENTRY_BYTES : N := 8 * 1024 * 1024.
Definition MAX_SNAPSHOT_BYTES : N := 64 * 1024 * 1024.
Definition RAFT_LOG_BYTES : N := 1024 * 1024 * 1024.
Definition MAX_STATE_BYTES : N := 1024 * 1024.

(** ** Data *)

Inductive EntryType := EntryNormal | EntryConfChange | EntryConfChangeV2.
#[export] Instance EntryType_eq_dec : EqDecision EntryType.
Proof. solve_decision. Defined.

Record Entry := mkEntry {
  e_index : N;
  e_term : N;
  e_type : EntryType;
  e_context : list byte;
  e_data : list byte
}.
#[export] Instance Entry_eq_dec : EqDecision Entry.
Proof. solve_decision. Defined.

Record HardState := mkHardState { hs_term : N; hs_vote : N; hs_commit : N }.
#[export] Instance HardState_eq_dec : EqDecision HardState.
Proof. solve_decision. Defined.

Record ConfState := mkConfState {
  cs_voters : list N;
  cs_learners : list N;
  cs_voters_outgoing : list N;
  cs_learners_next : list N;
  cs_auto_leave : bool
}.
#[export] Instance ConfState_eq_dec : EqDecision ConfState.
Proof. solve_decision. Defined.

(** The metadata of a snapshot, whose configuration the state file keeps apart. *)
Record SnapshotMetadata := mkMetadata { sm_index : N; sm_term : N }.
#[export] Instance SnapshotMetadata_eq_dec : EqDecision SnapshotMetadata.
Proof. solve_decision. Defined.

Inductive AppliedEvents := Counted (count : N) | SnapshotPending.
#[export] Instance AppliedEvents_eq_dec : EqDecision AppliedEvents.
Proof. solve_decision. Defined.

Record StateImage := mkImage {
  si_hard_state : HardState;
  si_conf_state : ConfState;
  si_snapshot : SnapshotMetadata;
  si_snapshot_digest : list byte;
  si_fence : N;
  si_applied : AppliedEvents
}.
#[export] Instance StateImage_eq_dec : EqDecision StateImage.
Proof. solve_decision. Defined.

(** Whether applying the entry produces a ledger event. *)
Definition carries_ledger_event (e : Entry) : bool :=
  bool_decide (e_type e = EntryNormal) && negb (bool_decide (e_data e = [])).

Definition entry_type_code (kind : EntryType) : byte :=
  match kind with
  | EntryNormal => x00
  | EntryConfChange => x01
  | EntryConfChangeV2 => x02
  end.

Definition entry_type_from_code (code : byte) : io_result EntryType :=
  match code with
  | x00 => Ok EntryNormal
  | x01 => Ok EntryConfChange
  | x02 => Ok EntryConfChangeV2
  | other => Err (bad_code "unknown raft entry type code " (Byte.to_N other))
  end.

(** ** Log records *)

(** [bytes.get(cursor..cursor + n)], and what follows. *)
Definition take_exact (n : nat) (bytes : list byte) : option (list byte * list byte) :=
  if decide (n ≤ length bytes) then Some (take n bytes, drop n bytes) else None.

Section Raft.
Context (sha256 : list byte → list byte).

Definition record_len (e : Entry) : N := 8 + 8 + 8 + 1 + 4 + 4 + 32 + blen (e_context e) + blen (e_data e).

(** What the digest of a record covers. *)
Definition record_body (e : Entry) : list byte :=
  RECORD_MAGIC ++ le_bytes 8 (e_index e) ++ le_bytes 8 (e_term e) ++ [entry_type_code (e_type e)] ++
  le_bytes 4 (blen (e_context e)) ++ e_context e ++ le_bytes 4 (blen (e_data e)) ++ e_data e.

Definition raft_encode_record (e : Entry) : list byte := record_body e ++ sha256 (record_body e).

(** The positions of records written one after another from [position] on, as the
    loops of [write_entries] and [write_scratch_log] count them. *)
Fixpoint record_offsets (position : N) (entries : list Entry) : list N :=
  match entries with
  | [] => []
  | e :: entries => position :: record_offsets (position + blen (raft_encode_record e))%N entries
  end.

(** [parse_record], on the bytes from the position on; the end is what follows. *)
Definition parse_record (bytes : list byte) : option (io_result (Entry * list byte)) :=
  '(header, rest) ← take_exact 29 bytes;
  if negb (bool_decide (take 8 header = RECORD_MAGIC)) then None
  else
    let index := le_value (slice 8 16 header) in
    let term := le_value (slice 16 24 header) in
    let kind_code := slice 24 25 header in
    let context_len := le_value (slice 25 29 header) in
    '(context, rest) ← take_exact (N.to_nat context_len) rest;
    '(data_len, rest) ← take_exact 4 rest;
    '(data, rest) ← take_exact (N.to_nat (le_value data_len)) rest;
    '(recorded, after) ← take_exact 32 rest;
    if negb (bool_decide (sha256 (take (length bytes - length rest) bytes) = recorded)) then None
    else
      match entry_type_from_code (default x00 (head kind_code)) with
      | Err error => Some (Err error)
      | Ok kind => Some (Ok (mkEntry index term kind context data, after))
      end.

(** [record_follows], on the bytes behind the cut. *)
Fixpoint record_follows (bytes : list byte) : bool :=
  match bytes with
  | [] => false
  | _ :: rest =>
      (bool_decide (take 8 bytes = RECORD_MAGIC) &&
       match parse_record bytes with Some (Ok _) => true | _ => false end) || record_follows rest
  end.

(** ** Reading the log *)

(** What the loop of [read_log] has found; [rs_torn] are the bytes from the first
    thing that is not a whole record. *)
Record ReadState := mkRead {
  rs_entries : list Entry;
  rs_offsets : list N;
  rs_skipped : bool;
  rs_torn : option (N * list byte)
}.

Definition last_entry_index (snapshot_index : N) (entries : list Entry) : N :=
  match last entries with Some e => e_index e | None => snapshot_index end.

(** The loop over the records, [at_byte] being the position of [bytes]. *)
Fixpoint read_records (fuel : nat) (snapshot_index : N) (bytes : list byte) (at_byte : N) (st : ReadState) :
    result fault ReadState :=
  match bytes with
  | [] => Ok st
  | _ =>
      match fuel with
      | O => Err OutOfFuel
      | S fuel =>
          match parse_record bytes with
          | None => Ok (mkRead (rs_entries st) (rs_offsets st) (rs_skipped st) (Some (at_byte, bytes)))
          | Some (Err e) => Err (Io e)
          | Some (Ok (entry, rest)) =>
              let next := (at_byte + (blen bytes - blen rest))%N in
              if (e_index entry <=? snapshot_index)%N && bool_decide (rs_entries st = []) then
                read_records fuel snapshot_index rest next
                  (mkRead (rs_entries st) (rs_offsets st) true (rs_torn st))
              else
                match checked_add_u64 (last_entry_index snapshot_index (rs_entries st)) 1 with
                | None => refuse "raft log index is exhausted"
                | Some expected =>
                    if negb (e_index entry =? expected)%N then
                      refuse ("raft log jumps from " +:+ to_string expected +:+ " to " +:+
                              to_string (e_index entry) +:+ ", so a record is missing or duplicated")
                    else
                      read_records fuel snapshot_index rest next
                        (mkRead (rs_entries st ++ [entry]) (rs_offsets st ++ [at_byte]) (rs_skipped st) (rs_torn st))
                end
          end
      end
  end.

(** The part of [read_log] between reading the file and cutting its tail: the
    entries and, when there is a tail to cut, where it starts. *)
Definition parse_log (bytes : list byte) (snapshot_index commit : N) : result fault ReadState :=
  if (RAFT_LOG_BYTES <? blen bytes)%N then refuse "raft log is over the size bound"
  else if negb (bool_decide (take 8 bytes = RAFT_LOG_MAGIC)) then refuse "not a PTR raft log"
  else
    let? st := read_records (length bytes) snapshot_index (drop 8 bytes) 8 (mkRead [] [] false None) in
    let final := last_entry_index snapshot_index (rs_entries st) in
    if (final <? commit)%N then
      refuse ("raft log ends at " +:+ to_string final +:+ ", below the committed index " +:+
              to_string commit +:+ ": committed entries are missing")
    else
      match rs_torn st with
      | Some (cut, rest) =>
          if negb (forallb (λ b, bool_decide (b = x00)) rest) && record_follows (drop 1 rest) then
            refuse ("raft log is damaged at byte " +:+ to_string cut +:+
                    " and valid records follow it: they may have been acknowledged, so nothing is cut")
          else Ok st
      | None => Ok st
      end.

(** ** The state file *)

Definition put_ids (ids : list N) : list byte := le_bytes 4 (blen ids) ++ mjoin (le_bytes 8 <$> ids).

Definition applied_bytes (a : AppliedEvents) : list byte :=
  match a with
  | Counted count => x00 :: le_bytes 8 count
  | SnapshotPending => x01 :: le_bytes 8 0
  end.

Definition state_body (i : StateImage) : list byte :=
  STATE_MAGIC ++ le_bytes 8 (hs_term (si_hard_state i)) ++ le_bytes 8 (hs_vote (si_hard_state i)) ++
  le_bytes 8 (hs_commit (si_hard_state i)) ++
  put_ids (cs_voters (si_conf_state i)) ++ put_ids (cs_learners (si_conf_state i)) ++
  put_ids (cs_voters_outgoing (si_conf_state i)) ++ put_ids (cs_learners_next (si_conf_state i)) ++
  [if cs_auto_leave (si_conf_state i) then x01 else x00] ++
  le_bytes 8 (sm_index (si_snapshot i)) ++ le_bytes 8 (sm_term (si_snapshot i)) ++
  si_snapshot_digest i ++ le_bytes 8 (si_fence i) ++ applied_bytes (si_applied i).

Definition encode_state (i : StateImage) : list byte := state_body i ++ sha256 (state_body i).

(** [body.get(at..at + n)] with its refusal. *)
Definition take_field (n : nat) (why : string) : reader io_error (list byte) := λ bytes,
  match take_exact n bytes with
  | Some r => Ok r
  | None => Err (invalid why)
  end.

Definition take_u64 : reader io_error N :=
  field <- take_field 8 "raft state file ends inside a field" ;; rret (le_value field).

Definition take_ids : reader io_error (list N) :=
  count <- take_field 4 "raft state file ends inside an id count" ;;
  rrepeat (N.to_nat (le_value count))
    (field <- take_field 8 "raft state file ends inside an id" ;; rret (le_value field)).

Definition take_auto_leave : reader io_error bool := λ bytes,
  match bytes with
  | x00 :: rest => Ok (false, rest)
  | x01 :: rest => Ok (true, rest)
  | other :: _ => Err (bad_code "invalid auto_leave byte " (Byte.to_N other))
  | [] => Err (invalid "raft state file ends before auto_leave")
  end.

Definition take_applied : reader io_error AppliedEvents :=
  tag <- take_field 1 "raft state file ends before the applied count" ;;
  count <- take_u64 ;;
  rlift (match tag with
         | [x00] => Ok (Counted count)
         | [x01] => if (count =? 0)%N then Ok SnapshotPending
                    else Err (invalid "raft state file has an invalid applied count")
         | _ => Err (invalid "raft state file has an invalid applied count")
         end).

Definition take_image : reader io_error StateImage :=
  term <- take_u64 ;; vote <- take_u64 ;; commit <- take_u64 ;;
  voters <- take_ids ;; learners <- take_ids ;; voters_outgoing <- take_ids ;; learners_next <- take_ids ;;
  auto_leave <- take_auto_leave ;;
  index <- take_u64 ;; snapshot_term <- take_u64 ;;
  digest <- take_field 32 "raft state file ends inside the snapshot digest" ;;
  fence <- take_u64 ;; applied <- take_applied ;;
  rret (mkImage (mkHardState term vote commit)
          (mkConfState voters learners voters_outgoing learners_next auto_leave)
          (mkMetadata index snapshot_term) digest fence applied).

(** [read_state] on the bytes of the file. *)
Definition decode_state (bytes : list byte) : io_result StateImage :=
  if (blen bytes <? 40)%N || negb (bool_decide (take 8 bytes = STATE_MAGIC))
  then Err (invalid "not a PTR raft state file")
  else
    let body := take (length bytes - 32) bytes in
    if negb (bool_decide (sha256 body = drop (length bytes - 32) bytes))
    then Err (invalid "raft state file does not match its digest")
    else
      let? image := take_image (drop 8 body) in
      if negb (bool_decide (image.2 = [])) then Err (invalid "raft state file has trailing bytes")
      else Ok image.1.
End Raft.
