(* ===== verification/RaftFormatFacts.v ===== *)
(** * What the files of the Raft storage hold

    Records and the state file are read back exactly; a record cut short is not a
    record; a log is read as the entries that were written to it, whatever a
    stopped append left behind them. *)

From S2P Require Import Prelude Bytes Text Types LedgerEvents LedgerChecks LedgerCodec Integrity IntegrityLog.
From S2P Require Import RaftFormat.
From Stdlib Require Import Lia.
From stdpp Require Import options.

Lemma take_exact_app n p r : length p = n → take_exact n (p ++ r) = Some (p, r).
Proof.
  intros <-. unfold take_exact. rewrite decide_True by (rewrite length_app; lia).
  by rewrite take_app_length, drop_app_length.
Qed.

Lemma take_exact_some n bytes p r : take_exact n bytes = Some (p, r) ↔ bytes = p ++ r ∧ length p = n.
Proof.
  split; [|intros [-> H]; by apply take_exact_app]. unfold take_exact. destruct (decide _) as [H|]; [|done].
  intros [= <- <-]. rewrite take_drop, length_take. split; [done|lia].
Qed.

Lemma take_exact_short n bytes : length bytes < n → take_exact n bytes = None.
Proof. intros H. unfold take_exact. by rewrite decide_False by lia. Qed.

Lemma le_value_exact k bs : length bs = k → le_bytes k (le_value bs) = bs.
Proof. intros <-. apply le_bytes_value. Qed.

Lemma le_value_bound k bs : length bs ≤ k → (le_value bs < 256 ^ N.of_nat k)%N.
Proof. intros H. eapply N.lt_le_trans; [apply le_value_lt|]. apply N.pow_le_mono_r; [done|lia]. Qed.

Lemma length_slice from until bytes : length (slice from until bytes) ≤ N.to_nat (until - from).
Proof. unfold slice. rewrite length_take. lia. Qed.

Section Facts.
Context (sha256 : list byte → list byte).
Context (sha256_length : ∀ x, length (sha256 x) = 32).

(** ** Records *)

Record entry_ok (e : Entry) : Prop := {
  eo_index : (e_index e < 2 ^ 64)%N;
  eo_term : (e_term e < 2 ^ 64)%N;
  eo_context : (blen (e_context e) < 2 ^ 32)%N;
  eo_data : (blen (e_data e) < 2 ^ 32)%N
}.

Definition record_header (e : Entry) : list byte :=
  RECORD_MAGIC ++ le_bytes 8 (e_index e) ++ le_bytes 8 (e_term e) ++ [entry_type_code (e_type e)] ++
  le_bytes 4 (blen (e_context e)).

Lemma record_body_header e : record_body e =
  record_header e ++ e_context e ++ le_bytes 4 (blen (e_data e)) ++ e_data e.
Proof. unfold record_body, record_header. by rewrite <- !app_assoc. Qed.

Lemma record_header_length e : length (record_header e) = 29.
Proof. unfold record_header. rewrite !length_app, !length_le_bytes. done. Qed.

Lemma raft_record_length e : length (raft_encode_record sha256 e) = N.to_nat (record_len e).
Proof using sha256_length.
  unfold raft_encode_record. rewrite record_body_header, !length_app, record_header_length, length_le_bytes, sha256_length.
  unfold record_len, blen. lia.
Qed.

Lemma header_fields e :
  take 8 (record_header e) = RECORD_MAGIC ∧ slice 8 16 (record_header e) = le_bytes 8 (e_index e) ∧
  slice 16 24 (record_header e) = le_bytes 8 (e_term e) ∧ slice 24 25 (record_header e) = [entry_type_code (e_type e)] ∧
  slice 25 29 (record_header e) = le_bytes 4 (blen (e_context e)).
Proof. done. Qed.

Lemma entry_type_roundtrip kind : entry_type_from_code (entry_type_code kind) = Ok kind.
Proof. by destruct kind. Qed.

Lemma entry_type_exact code kind : entry_type_from_code code = Ok kind → code = entry_type_code kind.
Proof. destruct code; cbn; try done; by intros [= <-]. Qed.

(** What parsing does with the parts of a record. *)
Lemma parse_parts header context data_len data recorded after :
  length header = 29 → take 8 header = RECORD_MAGIC →
  le_value (slice 25 29 header) = blen context → length data_len = 4 →
  le_value data_len = blen data → length recorded = 32 →
  parse_record sha256 (header ++ context ++ data_len ++ data ++ recorded ++ after) =
  if bool_decide (sha256 (header ++ context ++ data_len ++ data) = recorded) then
    match entry_type_from_code (default x00 (head (slice 24 25 header))) with
    | Err error => Some (Err error)
    | Ok kind => Some (Ok (mkEntry (le_value (slice 8 16 header)) (le_value (slice 16 24 header)) kind context data, after))
    end
  else None.
Proof.
  intros Hh Hm Hc Hl Hd Hr.
  assert (Eb : header ++ context ++ data_len ++ data ++ recorded ++ after =
    (header ++ context ++ data_len ++ data) ++ recorded ++ after) by (by rewrite <- !app_assoc).
  unfold parse_record. rewrite take_exact_app by done. cbn [mbind option_bind]. rewrite Hm, bool_decide_true by done.
  cbn [negb]. rewrite Hc, take_exact_app by (unfold blen; lia). cbn [mbind option_bind].
  rewrite take_exact_app by done. cbn [mbind option_bind]. rewrite Hd, take_exact_app by (unfold blen; lia).
  cbn [mbind option_bind]. rewrite take_exact_app by done. cbn [mbind option_bind].
  rewrite Eb, (length_app _ (recorded ++ after)), Nat.add_sub, take_app_length. by case_bool_decide.
Qed.

Lemma parse_encoded e rest : entry_ok e → parse_record sha256 (raft_encode_record sha256 e ++ rest) = Some (Ok (e, rest)).
Proof using sha256_length.
  intros [Hi Ht Hc Hd]. unfold raft_encode_record. rewrite record_body_header, <- !app_assoc.
  destruct (header_fields e) as (E1 & E2 & E3 & E4 & E5).
  rewrite parse_parts; [|apply record_header_length|done| |apply length_le_bytes| |apply sha256_length].
  - rewrite bool_decide_true by done. rewrite E2, E3, E4. cbn [hd_error from_option]. unfold id. rewrite entry_type_roundtrip.
    rewrite !le_value_bytes by (simpl; lia). by destruct e.
  - rewrite E5, le_value_bytes by (simpl; lia). done.
  - rewrite le_value_bytes by (simpl; lia). done.
Qed.

(** The parts of 29 bytes that start with the magic are a header. *)
Lemma header_exact header : length header = 29 → take 8 header = RECORD_MAGIC →
  header = RECORD_MAGIC ++ le_bytes 8 (le_value (slice 8 16 header)) ++ le_bytes 8 (le_value (slice 16 24 header)) ++
    [default x00 (head (slice 24 25 header))] ++ le_bytes 4 (le_value (slice 25 29 header)).
Proof.
  intros Hl Hm. do 29 (destruct header as [|? header]; [done|]). destruct header; [|done].
  cbn [take] in Hm. unfold slice. cbn -[le_bytes le_value RECORD_MAGIC].
  rewrite !(le_value_exact 8), !(le_value_exact 4) by done. by rewrite <- Hm.
Qed.

(** A byte string that parsing does not reject as no whole record is made of these parts. *)
Lemma parse_shape bytes r : parse_record sha256 bytes = Some r → ∃ header context data_len data recorded after,
  bytes = header ++ context ++ data_len ++ data ++ recorded ++ after ∧ length header = 29 ∧
  take 8 header = RECORD_MAGIC ∧ le_value (slice 25 29 header) = blen context ∧ length data_len = 4 ∧
  le_value data_len = blen data ∧ length recorded = 32.
Proof.
  unfold parse_record. intros H.
  destruct (take_exact 29 bytes) as [[header r1]|] eqn:E1; [|done]. cbn [mbind option_bind] in H.
  apply take_exact_some in E1 as [-> Hh]. case_bool_decide as Hm; cbn [negb] in H; [|done].
  destruct (take_exact _ r1) as [[context r2]|] eqn:E2; [|done]. cbn [mbind option_bind] in H.
  apply take_exact_some in E2 as [-> Hc]. destruct (take_exact 4 r2) as [[dl r3]|] eqn:E3; [|done]. cbn [mbind option_bind] in H.
  apply take_exact_some in E3 as [-> Hdl]. destruct (take_exact _ r3) as [[data r4]|] eqn:E4; [|done]. cbn [mbind option_bind] in H.
  apply take_exact_some in E4 as [-> Hd]. destruct (take_exact 32 r4) as [[rec r5]|] eqn:E5; [|done].
  apply take_exact_some in E5 as [-> Hr].
  exists header, context, dl, data, rec, r5. unfold blen. split_and!; try done; lia.
Qed.

Lemma parse_exact bytes e rest : parse_record sha256 bytes = Some (Ok (e, rest)) →
  bytes = raft_encode_record sha256 e ++ rest ∧ entry_ok e.
Proof using sha256_length.
  intros H. destruct (parse_shape _ _ H) as (header & context & dl & data & rec & after & -> & Hh & Hm & Hc & Hl & Hd & Hr).
  rewrite parse_parts in H by done. case_bool_decide as Hs; [|done].
  destruct (entry_type_from_code _) as [kind|] eqn:Ek; [|done]. injection H as <- <-.
  pose proof (header_exact header Hh Hm) as Eh. apply entry_type_exact in Ek. rewrite Ek in Eh.
  unfold raft_encode_record, record_body. cbn [e_index e_term e_type e_context e_data].
  assert (Ed : dl = le_bytes 4 (blen data)) by (rewrite <- Hd, <- Hl; symmetry; apply le_bytes_value).
  split.
  - rewrite Hc in Eh. rewrite Ed in Hs |- *. revert Eh. rewrite <- Hs. clear.
    generalize (le_value (slice 8 16 header)) (le_value (slice 16 24 header)). intros i t ->. rewrite <- !app_assoc. done.
  - constructor; cbn.
    + apply (le_value_bound 8), length_slice.
    + apply (le_value_bound 8), length_slice.
    + rewrite <- Hc. apply (le_value_bound 4), length_slice.
    + rewrite <- Hd. apply (le_value_bound 4). lia.
Qed.

(** ** The state file *)

(** [r] reads exactly what [w] writes. *)
Definition codes {A} (r : reader io_error A) (w : A → list byte) (wf : A → Prop) : Prop :=
  ∀ bs a rest, r bs = Ok (a, rest) ↔ wf a ∧ bs = w a ++ rest.

Lemma take_field_iff n why bs p rest : take_field n why bs = Ok (p, rest) ↔ length p = n ∧ bs = p ++ rest.
Proof.
  unfold take_field. destruct (take_exact n bs) as [[q r]|] eqn:E.
  - apply take_exact_some in E as [-> Hq]. split; [intros [= <- <-]; done|].
    intros [Hp He]. apply app_inj_1 in He as [-> ->]; [done|congruence].
  - split; [done|]. intros [Hp ->]. by rewrite take_exact_app in E.
Qed.

Definition word (v : N) : Prop := (v < 2 ^ 64)%N.

Lemma word_codes why : codes (field <- take_field 8 why ;; rret (le_value field))%ptr (le_bytes 8) word.
Proof.
  intros bs a rest. split.
  - intros H. apply rseq_ok_inv in H as (p & mid & H1 & H2). apply take_field_iff in H1 as [Hp ->].
    apply rret_ok_inv in H2 as [<- ->]. rewrite le_value_exact by done.
    split; [apply (le_value_bound 8); lia|done].
  - intros [Ha ->]. unfold rseq.
    rewrite (proj2 (take_field_iff 8 why _ (le_bytes 8 a) rest)) by (by rewrite length_le_bytes).
    unfold rret. by rewrite le_value_bytes.
Qed.

Lemma u64_codes : codes take_u64 (le_bytes 8) word.
Proof. apply word_codes. Qed.

Definition ids_ok (ids : list N) : Prop := (blen ids < 2 ^ 32)%N ∧ Forall word ids.

Lemma repeat_codes {A} (r : reader io_error A) w wf n : codes r w wf →
  codes (rrepeat n r) (λ l, mjoin (w <$> l)) (λ l, length l = n ∧ Forall wf l).
Proof.
  intros Hr. induction n as [|n IH]; intros bs l rest; cbn [rrepeat].
  - unfold rret. split; [by intros [= <- <-]|]. intros [[Hl _] ->]. apply nil_length_inv in Hl as ->. done.
  - split.
    + intros H. apply rseq_ok_inv in H as (a & mid & Ha & H). apply rseq_ok_inv in H as (l' & mid' & Hl & H).
      apply rret_ok_inv in H as [<- <-]. apply Hr in Ha as [Hwf ->]. apply IH in Hl as [[Hlen Hall] ->].
      split; [split; [by rewrite <- Hlen|by constructor]|]. cbn. by rewrite app_assoc.
    + intros [[Hl Hall] ->]. destruct l as [|a l]; [done|]. apply Forall_cons in Hall as [Ha Hall].
      unfold rseq. cbn [fmap list_fmap mjoin list_join]. rewrite <- app_assoc.
      rewrite (proj2 (Hr _ a _)) by done. rewrite (proj2 (IH _ l rest)) by (split; [split; [by injection Hl|done]|done]).
      done.
Qed.

Lemma ids_codes : codes take_ids put_ids ids_ok.
Proof.
  intros bs ids rest. unfold take_ids, put_ids. split.
  - intros H. apply rseq_ok_inv in H as (p & mid & H1 & H2). apply take_field_iff in H1 as [Hp ->].
    apply (repeat_codes _ _ _ _ (word_codes _)) in H2 as [[Hl Hall] ->].
    assert (blen ids = le_value p) as Hb by (unfold blen; lia).
    split; [split; [rewrite Hb; apply (le_value_bound 4); lia|done]|].
    rewrite Hb, le_value_exact by done. by rewrite app_assoc.
  - intros [[Hb Hall] ->]. unfold rseq. rewrite <- app_assoc.
    rewrite (proj2 (take_field_iff 4 _ _ (le_bytes 4 (blen ids)) _)) by (by rewrite length_le_bytes).
    rewrite le_value_bytes by done. apply (repeat_codes _ _ _ _ (word_codes _)).
    split; [split; [unfold blen; lia|done]|done].
Qed.

Lemma auto_leave_codes : codes take_auto_leave (λ b, [if b : bool then x01 else x00]) (λ _, True).
Proof.
  intros bs b rest. unfold take_auto_leave. split.
  - destruct bs as [|c bs]; [done|]. destruct c; try done; intros [= <- <-]; done.
  - intros [_ ->]. by destruct b.
Qed.

Definition applied_ok (a : AppliedEvents) : Prop :=
  match a with
  | Counted n => word n
  | SnapshotPending => True
  end.

Lemma applied_codes : codes take_applied applied_bytes applied_ok.
Proof.
  intros bs a rest. unfold take_applied. split.
  - intros H. apply rseq_ok_inv in H as (p & mid & H1 & H). apply take_field_iff in H1 as [Hp ->].
    apply rseq_ok_inv in H as (v & mid' & H2 & H). apply u64_codes in H2 as [Hv ->].
    apply rlift_ok_inv in H as [H ->]. destruct p as [|c [|]]; try done.
    destruct c; try done; [by injection H as <-|]. destruct (N.eqb_spec v 0) as [->|]; [|done]. by injection H as <-.
  - intros [Ha ->]. unfold rseq. destruct a as [v|]; cbn [applied_bytes].
    + rewrite (proj2 (take_field_iff 1 _ _ [x00] (le_bytes 8 v ++ rest))) by done.
      rewrite (proj2 (u64_codes _ v rest)) by done. done.
    + rewrite (proj2 (take_field_iff 1 _ _ [x01] (le_bytes 8 0 ++ rest))) by done.
      rewrite (proj2 (u64_codes _ 0%N rest)) by done. done.
Qed.

Lemma codes_seq {A B} (r : reader io_error A) w wf (k : A → reader io_error B) a b rest mid :
  codes r w wf → wf a → k a mid = Ok (b, rest) → rseq r k (w a ++ mid) = Ok (b, rest).
Proof. intros Hr Ha Hk. unfold rseq. by rewrite (proj2 (Hr _ a mid)). Qed.

Lemma codes_seq_inv {A B} (r : reader io_error A) w wf (k : A → reader io_error B) b bs rest :
  codes r w wf → rseq r k bs = Ok (b, rest) → ∃ a mid, (wf a ∧ bs = w a ++ mid) ∧ k a mid = Ok (b, rest).
Proof. intros Hr H. apply rseq_ok_inv in H as (a & mid & Ha & H). apply Hr in Ha. eauto. Qed.

Lemma digest_codes why : codes (take_field 32 why) id (λ d, length d = 32).
Proof. intros bs d rest. apply take_field_iff. Qed.

Record image_ok (i : StateImage) : Prop := {
  io_hard : word (hs_term (si_hard_state i)) ∧ word (hs_vote (si_hard_state i)) ∧ word (hs_commit (si_hard_state i));
  io_conf : ids_ok (cs_voters (si_conf_state i)) ∧ ids_ok (cs_learners (si_conf_state i)) ∧
    ids_ok (cs_voters_outgoing (si_conf_state i)) ∧ ids_ok (cs_learners_next (si_conf_state i));
  io_snapshot : word (sm_index (si_snapshot i)) ∧ word (sm_term (si_snapshot i));
  io_digest : length (si_snapshot_digest i) = 32;
  io_fence : word (si_fence i);
  io_applied : applied_ok (si_applied i)
}.

Definition image_fields (i : StateImage) : list byte :=
  le_bytes 8 (hs_term (si_hard_state i)) ++ le_bytes 8 (hs_vote (si_hard_state i)) ++
  le_bytes 8 (hs_commit (si_hard_state i)) ++
  put_ids (cs_voters (si_conf_state i)) ++ put_ids (cs_learners (si_conf_state i)) ++
  put_ids (cs_voters_outgoing (si_conf_state i)) ++ put_ids (cs_learners_next (si_conf_state i)) ++
  [if cs_auto_leave (si_conf_state i) then x01 else x00] ++
  le_bytes 8 (sm_index (si_snapshot i)) ++ le_bytes 8 (sm_term (si_snapshot i)) ++
  si_snapshot_digest i ++ le_bytes 8 (si_fence i) ++ applied_bytes (si_applied i).

Ltac field H codec := apply (codes_seq_inv _ _ _ _ _ _ _ codec) in H; destruct H as (? & ? & [? ->] & H).

Lemma image_codes : codes take_image image_fields image_ok.
Proof.
  intros bs i rest. unfold take_image. split.
  - intros H. do 3 field H u64_codes. do 4 field H ids_codes. field H auto_leave_codes. do 2 field H u64_codes.
    field H (digest_codes "raft state file ends inside the snapshot digest").
    field H u64_codes. field H applied_codes. apply rret_ok_inv in H as [<- <-].
    split; [by constructor|]. unfold image_fields, id.
    cbn [si_hard_state si_conf_state si_snapshot si_snapshot_digest si_fence si_applied hs_term hs_vote hs_commit
         cs_voters cs_learners cs_voters_outgoing cs_learners_next cs_auto_leave sm_index sm_term].
    rewrite <- !app_assoc. reflexivity.
  - intros [[] ->]. unfold image_fields. rewrite <- !app_assoc. destruct_and!.
    repeat first [eapply (codes_seq _ _ _ _ _ _ _ _ u64_codes); [done|]
                 |eapply (codes_seq _ _ _ _ _ _ _ _ ids_codes); [done|]
                 |apply (codes_seq _ _ _ _ _ _ _ _ auto_leave_codes); [done|]
                 |apply (codes_seq _ _ _ _ _ _ _ _ (digest_codes _)); [done|]
                 |apply (codes_seq _ _ _ _ _ _ _ _ applied_codes); [done|]].
    by destruct i as [[] [] [] ? ? ?].
Qed.

Lemma state_body_fields i : state_body i = STATE_MAGIC ++ image_fields i.
Proof. done. Qed.

(** The state file holds one image: decoding and encoding are inverse. *)
Lemma decode_state_iff bytes i : decode_state sha256 bytes = Ok i ↔ image_ok i ∧ bytes = encode_state sha256 i.
Proof using sha256_length.
  unfold decode_state. split.
  - intros H. destruct (_ || _) eqn:E; [done|]. apply orb_false_iff in E as [E1 E2].
    apply N.ltb_ge in E1. apply negb_false_iff, bool_decide_eq_true in E2.
    case_bool_decide as E3; cbn [negb] in H; [|done].
    destruct (take_image _) as [[j rest]|] eqn:Ei; cbn [rbind fst snd] in H; [|done].
    case_bool_decide as E4; cbn [negb] in H; [|done]. injection H as <-. subst rest.
    apply image_codes in Ei as [Hj Ei]. split; [done|]. rewrite app_nil_r in Ei.
    assert (Eb : take (length bytes - 32) bytes = state_body j).
    { rewrite state_body_fields, <- Ei, <- E2. rewrite <- (take_drop 8 (take (length bytes - 32) bytes)) at 1.
      rewrite take_take, Nat.min_l; [done|]. unfold blen in E1. lia. }
    unfold encode_state. rewrite <- Eb, E3. by rewrite take_drop.
  - intros [Hi ->]. unfold encode_state. rewrite state_body_fields. set (f := image_fields i).
    rewrite length_app, sha256_length, Nat.add_sub, take_app_length, drop_app_length.
    rewrite (bool_decide_true (sha256 _ = _)) by done.
    assert (Hm : take 8 ((STATE_MAGIC ++ f) ++ sha256 (STATE_MAGIC ++ f)) = STATE_MAGIC).
    { rewrite <- app_assoc. by rewrite (take_app_length' STATE_MAGIC). }
    rewrite Hm, bool_decide_true by done. rewrite (proj2 (N.ltb_ge _ _)); cbn [orb negb].
    + change (drop 8 (STATE_MAGIC ++ f)) with f. rewrite (proj2 (image_codes f i [])); [done|].
      by rewrite app_nil_r.
    + unfold blen. rewrite !length_app, sha256_length. change (length STATE_MAGIC) with 8. lia.
Qed.
End Facts.

(** * What reading the log of the Raft storage finds

    A record cut short or a run of zeros is not a record; a log is read as the
    entries that were written to it, whatever a stopped append left behind them;
    and whatever is read was written. *)

Local Set Default Proof Using "Type*".

(** [es] are entries of consecutive indexes from [first] on. *)
Definition consecutive (first : N) (es : list Entry) : Prop :=
  ∀ i e, es !! i = Some e → e_index e = (first + N.of_nat i)%N.

Lemma consecutive_cons first e es :
  consecutive first (e :: es) ↔ e_index e = first ∧ consecutive (first + 1) es.
Proof.
  split.
  - intros H. split; [rewrite (H 0 e) by done; lia|]. intros i x Hx. rewrite (H (S i) x) by done. lia.
  - intros [He H] [|i] x Hx; [injection Hx as <-; lia|]. rewrite (H i x) by done. lia.
Qed.

Lemma consecutive_nil first : consecutive first [].
Proof. by intros i e H. Qed.

Lemma consecutive_app first es fs :
  consecutive first (es ++ fs) ↔ consecutive first es ∧ consecutive (first + blen es) fs.
Proof.
  revert first. induction es as [|e es IH]; intros first; cbn [app].
  - unfold blen. cbn. rewrite N.add_0_r. pose proof (consecutive_nil first). tauto.
  - rewrite !consecutive_cons, IH. replace (first + 1 + blen es)%N with (first + blen (e :: es))%N; [tauto|].
    unfold blen. cbn [length]. lia.
Qed.

Lemma consecutive_take first n es : consecutive first es → consecutive first (take n es).
Proof. intros H i e Hi. apply lookup_take_Some in Hi as [Hi _]. by apply H. Qed.

Lemma consecutive_drop first n es : consecutive first es → consecutive (first + N.of_nat n) (drop n es).
Proof. intros H i e Hi. rewrite lookup_drop in Hi. apply H in Hi. lia. Qed.

Lemma consecutive_last first es e : consecutive first es → last es = Some e → (e_index e + 1 = first + blen es)%N.
Proof.
  intros H Hl. rewrite last_lookup in Hl. pose proof (lookup_lt_Some _ _ _ Hl). apply H in Hl. unfold blen. lia.
Qed.

Section Facts.
Context (sha256 : list byte → list byte).
Context (sha256_length : ∀ x, length (sha256 x) = 32).
Local Abbreviation encode := (raft_encode_record sha256).

Definition records (es : list Entry) : list byte := mjoin (encode <$> es).

(** ** What is not a record *)

Lemma record_nonempty e : 0 < length (encode e).
Proof. rewrite raft_record_length by done. unfold record_len. lia. Qed.

(** A record cut short. *)
Lemma parse_prefix e k : entry_ok e → k < length (encode e) → parse_record sha256 (take k (encode e)) = None.
Proof.
  intros [_ _ Hc Hd] Hk. destruct (parse_record sha256 (take k (encode e))) as [r|] eqn:E; [|done]. exfalso.
  apply parse_shape in E as (h & ctx & dl & data & rec & after & E & Hh & _ & Hctx & Hdl & Hdata & Hr).
  assert (length (take k (encode e)) = k) as Hl by (rewrite length_take; lia).
  assert (Ef : encode e = h ++ ctx ++ dl ++ data ++ rec ++ after ++ drop k (encode e)).
  { rewrite <- (take_drop k (encode e)) at 1. rewrite E, <- !app_assoc. done. }
  unfold raft_encode_record at 1 in Ef. rewrite record_body_header, <- !app_assoc in Ef.
  apply app_inj_1 in Ef as [<- Ef]; [|by rewrite record_header_length].
  destruct (header_fields e) as (_ & _ & _ & _ & E5). rewrite E5, le_value_bytes in Hctx by done.
  apply app_inj_1 in Ef as [<- Ef]; [|unfold blen in Hctx; lia].
  apply app_inj_1 in Ef as [<- _]; [|by rewrite length_le_bytes].
  rewrite le_value_bytes in Hdata by done.
  rewrite E, !length_app, Hh, Hdl, Hr in Hl. rewrite raft_record_length in Hk by done.
  unfold record_len in Hk. unfold blen in *. lia.
Qed.

Lemma parse_magic bytes r : parse_record sha256 bytes = Some r → take 8 bytes = RECORD_MAGIC.
Proof using Type.
  intros H. apply parse_shape in H as (h & ctx & dl & data & rec & after & -> & Hh & Hm & _).
  rewrite <- Hm. by rewrite take_app_le by lia.
Qed.

Lemma parse_zeros k : parse_record sha256 (replicate k x00) = None.
Proof using Type.
  destruct (parse_record _ _) as [r|] eqn:E; [|done]. apply parse_magic in E.
  rewrite take_replicate in E. by destruct (min 8 k).
Qed.

Lemma zeros_all k : forallb (λ b, bool_decide (b = x00)) (replicate k x00) = true.
Proof using Type. by induction k. Qed.

(** ** The loop *)

Lemma records_cons e es : records (e :: es) = encode e ++ records es.
Proof using Type. done. Qed.
Lemma records_app es fs : records (es ++ fs) = records es ++ records fs.
Proof using Type. unfold records. by rewrite fmap_app, join_app. Qed.

(** What ends the records: nothing, or something that is no record. *)
Definition no_record (tail : list byte) : Prop := tail = [] ∨ parse_record sha256 tail = None.
Definition torn_at (position : N) (tail : list byte) : option (N * list byte) :=
  match tail with
  | [] => None
  | _ => Some (position, tail)
  end.

Lemma read_step fuel s e rest position st : entry_ok e → length (encode e ++ rest) ≤ fuel →
  read_records sha256 fuel s (encode e ++ rest) position st =
  let next := (position + blen (encode e))%N in
  if (e_index e <=? s)%N && bool_decide (rs_entries st = []) then
    read_records sha256 (pred fuel) s rest next (mkRead (rs_entries st) (rs_offsets st) true (rs_torn st))
  else
    match checked_add_u64 (last_entry_index s (rs_entries st)) 1 with
    | None => refuse "raft log index is exhausted"
    | Some expected =>
        if negb (e_index e =? expected)%N then
          refuse ("raft log jumps from " +:+ to_string expected +:+ " to " +:+
                  to_string (e_index e) +:+ ", so a record is missing or duplicated")
        else
          read_records sha256 (pred fuel) s rest next
            (mkRead (rs_entries st ++ [e]) (rs_offsets st ++ [position]) (rs_skipped st) (rs_torn st))
    end.
Proof.
  intros He Hf. pose proof (record_nonempty e). rewrite length_app in Hf.
  destruct fuel as [|fuel]; [lia|]. assert (encode e ++ rest ≠ []) by (intros Hn; apply app_eq_nil in Hn as [Hn _]; rewrite Hn in *; cbn in *; lia).
  cbn [read_records pred]. rewrite parse_encoded by done.
  destruct (encode e ++ rest) as [|b bs] eqn:E; [done|].
  replace (blen (b :: bs) - blen rest)%N with (blen (encode e)); [done|].
  rewrite <- E. unfold blen. rewrite length_app. lia.
Qed.

Lemma read_kept es fuel s position st tail :
  Forall entry_ok es → length (records es ++ tail) ≤ fuel → no_record tail → rs_torn st = None →
  consecutive (last_entry_index s (rs_entries st) + 1) es →
  read_records sha256 fuel s (records es ++ tail) position st =
  Ok (mkRead (rs_entries st ++ es) (rs_offsets st ++ record_offsets sha256 position es) (rs_skipped st)
        (torn_at (position + blen (records es)) tail)).
Proof.
  revert fuel position st. induction es as [|e es IH]; intros fuel position st Hok Hf Ht Hn Hc.
  - cbn [records fmap list_fmap mjoin list_join app] in *. rewrite !app_nil_r.
    destruct Ht as [->|Ht]; [destruct fuel, st; cbn in *; by subst|].
    destruct tail as [|b tail]; [by destruct fuel, st; cbn in *; subst|]. destruct fuel as [|fuel]; [cbn in Hf; lia|].
    cbn [read_records]. rewrite Ht. unfold blen. cbn. by rewrite N.add_0_r.
  - apply Forall_cons in Hok as [He Hok]. apply consecutive_cons in Hc as [Hi Hc].
    rewrite records_cons, <- app_assoc in *. rewrite read_step by done. cbn zeta.
    assert ((e_index e <=? s)%N && bool_decide (rs_entries st = []) = false) as ->.
    { case_bool_decide as Hz; [|apply andb_false_r]. rewrite Hz in Hi. cbn in Hi.
      rewrite (proj2 (N.leb_gt _ _)); [done|lia]. }
    unfold checked_add_u64. rewrite <- Hi, (proj2 (N.ltb_lt _ _)) by apply He.
    rewrite N.eqb_refl. cbn [negb].
    assert (He' : last_entry_index s (rs_entries st ++ [e]) = e_index e) by (unfold last_entry_index; by rewrite last_snoc).
    rewrite IH; cbn [rs_entries rs_offsets rs_skipped rs_torn]; try done.
    + rewrite <- !app_assoc. cbn [app record_offsets]. unfold blen.
      rewrite length_app, Nat2N.inj_add, N.add_assoc. done.
    + pose proof (record_nonempty e). rewrite length_app in Hf. lia.
    + by rewrite He', Hi.
Qed.

Lemma read_covered es fuel s position st rest :
  Forall entry_ok es → length (records es ++ rest) ≤ fuel → rs_entries st = [] → Forall (λ e, (e_index e ≤ s)%N) es →
  ∃ fuel', length rest ≤ fuel' ∧
  read_records sha256 fuel s (records es ++ rest) position st =
  read_records sha256 fuel' s rest (position + blen (records es))
    (mkRead [] (rs_offsets st) (rs_skipped st || negb (bool_decide (es = []))) (rs_torn st)).
Proof.
  revert fuel position st. induction es as [|e es IH]; intros fuel position st Hok Hf Hn Hs.
  - exists fuel. split; [done|]. cbn. rewrite orb_false_r, N.add_0_r. destruct st; cbn in *. by subst.
  - apply Forall_cons in Hok as [He Hok]. apply Forall_cons in Hs as [Hi Hs].
    rewrite records_cons, <- app_assoc in *. rewrite read_step by done. cbn zeta.
    rewrite (proj2 (N.leb_le _ _)) by done. rewrite bool_decide_true by done. cbn [andb].
    destruct (IH (pred fuel) (position + blen (encode e))%N (mkRead (rs_entries st) (rs_offsets st) true (rs_torn st)))
      as (fuel' & Hf' & E); try done.
    { pose proof (record_nonempty e). rewrite length_app in Hf. lia. }
    exists fuel'. split; [done|]. rewrite E. cbn [rs_offsets rs_skipped rs_torn orb].
    rewrite bool_decide_false by done. cbn [negb]. rewrite orb_true_r. f_equal.
    unfold blen. rewrite length_app. lia.
Qed.

Lemma read_records_sound fuel s bytes position st st' :
  read_records sha256 fuel s bytes position st = Ok st' →
  ∃ old new tail, bytes = records old ++ records new ++ tail ∧ Forall entry_ok (old ++ new) ∧
    (old = [] ∨ rs_entries st = []) ∧ Forall (λ e, (e_index e ≤ s)%N) old ∧
    consecutive (last_entry_index s (rs_entries st) + 1) new ∧ no_record tail.
Proof.
  revert bytes position st. induction fuel as [|fuel IH]; intros bytes position st H;
    (destruct bytes as [|b bytes]; [exists [], [], []; split_and!; try done; [by left|by left]|]); [done|].
  cbn [read_records] in H. destruct (parse_record sha256 (b :: bytes)) as [[[e rest]|]|] eqn:E; [|done|].
  - apply parse_exact in E as [-> He]; [|done]. destruct (_ && _) eqn:Hs.
    + apply andb_true_iff in Hs as [Hs Hn]. apply N.leb_le in Hs. apply bool_decide_eq_true in Hn.
      apply IH in H as (old & new & tail & -> & Hok & _ & Ho & Hc & Ht). cbn [rs_entries] in Hc.
      exists (e :: old), new, tail. rewrite records_cons, <- app_assoc. cbn [app].
      split_and!; try done; [by constructor|by right|by constructor].
    + unfold checked_add_u64 in H. destruct (_ <? _)%N; [|done].
      destruct (N.eqb_spec (e_index e) (last_entry_index s (rs_entries st) + 1)) as [Hi|]; [cbn [negb] in H|done].
      apply IH in H as (old & new & tail & -> & Hok & Hor & Ho & Hc & Ht). cbn [rs_entries] in *.
      destruct Hor as [->|Hor]; [|by destruct (rs_entries st)]. cbn [records fmap list_fmap mjoin list_join app] in Hok |- *.
      exists [], (e :: new), tail. rewrite records_cons, <- app_assoc. cbn [app].
      unfold last_entry_index in Hc at 1. rewrite last_snoc in Hc.
      split_and!; try done; [by constructor|by left|]. apply consecutive_cons. split; [done|]. by rewrite <- Hi.
  - exists [], [], (b :: bytes). split_and!; try done; [by left|by right].
Qed.

(** The whole loop, from the start of the records. *)
Lemma read_records_iff fuel s bytes position st' : length bytes ≤ fuel →
  read_records sha256 fuel s bytes position (mkRead [] [] false None) = Ok st' ↔
  ∃ old tail, bytes = records old ++ records (rs_entries st') ++ tail ∧ Forall entry_ok (old ++ rs_entries st') ∧
    Forall (λ e, (e_index e ≤ s)%N) old ∧ consecutive (s + 1) (rs_entries st') ∧ no_record tail ∧
    rs_offsets st' = record_offsets sha256 (position + blen (records old)) (rs_entries st') ∧
    rs_skipped st' = negb (bool_decide (old = [])) ∧
    rs_torn st' = torn_at (position + blen (records old) + blen (records (rs_entries st'))) tail.
Proof.
  intros Hf. assert (Hread : ∀ old new tail, bytes = records old ++ records new ++ tail → Forall entry_ok (old ++ new) →
    Forall (λ e, (e_index e ≤ s)%N) old → consecutive (s + 1) new → no_record tail →
    read_records sha256 fuel s bytes position (mkRead [] [] false None) =
    Ok (mkRead new (record_offsets sha256 (position + blen (records old)) new) (negb (bool_decide (old = [])))
      (torn_at (position + blen (records old) + blen (records new)) tail))).
  { intros old new tail -> Hok Hs Hc Ht. apply Forall_app in Hok as [Ho Hn].
    destruct (read_covered old fuel s position (mkRead [] [] false None) (records new ++ tail)) as (f & Hf' & ->); try done.
    by rewrite read_kept. }
  split.
  - intros H. destruct (read_records_sound _ _ _ _ _ _ H) as (old & new & tail & Hb & Hok & _ & Hs & Hc & Ht).
    rewrite (Hread old new tail) in H by done. injection H as <-. exists old, tail. done.
  - intros (old & tail & Hb & Hok & Hs & Hc & Ht & E1 & E2 & E3). rewrite (Hread old (rs_entries st') tail) by done.
    destruct st'; cbn in *. by rewrite E1, E2, E3.
Qed.

(** ** Reading a log *)

(** What may be cut off: zeros, or bytes in which no record starts. *)
Definition harmless (tail : list byte) : bool :=
  forallb (λ b, bool_decide (b = x00)) tail || negb (record_follows sha256 (drop 1 tail)).

Lemma parse_log_iff bytes s commit st :
  parse_log sha256 bytes s commit = Ok st ↔
  ∃ old tail, bytes = RAFT_LOG_MAGIC ++ records old ++ records (rs_entries st) ++ tail ∧
    (blen bytes ≤ RAFT_LOG_BYTES)%N ∧ Forall entry_ok (old ++ rs_entries st) ∧
    Forall (λ e, (e_index e ≤ s)%N) old ∧ consecutive (s + 1) (rs_entries st) ∧
    (commit ≤ last_entry_index s (rs_entries st))%N ∧ no_record tail ∧ harmless tail = true ∧
    rs_offsets st = record_offsets sha256 (8 + blen (records old)) (rs_entries st) ∧
    rs_skipped st = negb (bool_decide (old = [])) ∧
    rs_torn st = torn_at (8 + blen (records old) + blen (records (rs_entries st))) tail.
Proof.
  unfold parse_log. split.
  - intros H. destruct (N.ltb_spec RAFT_LOG_BYTES (blen bytes)); [done|].
    case_bool_decide as Hm; cbn [negb] in H; [|done].
    destruct (read_records _ _ _ _ _ _) as [r|] eqn:E; cbn [rbind] in H; [|done].
    apply read_records_iff in E as (old & tail & Hb & Hok & Hs & Hc & Ht & E1 & E2 & E3); [|rewrite length_drop; lia].
    destruct (N.ltb_spec (last_entry_index s (rs_entries r)) commit) as [|Hl]; [done|].
    assert (r = st ∧ harmless tail = true) as [-> Hh].
    { rewrite E3 in H. unfold harmless. destruct tail as [|b tail]; cbn [torn_at] in H; [by injection H as <-|].
      destruct (forallb _ _) eqn:E4; cbn [negb andb orb] in *; [by injection H as <-|].
      destruct (record_follows _ _) eqn:E5; [done|]. by injection H as <-. }
    exists old, tail. split_and!; try done. rewrite <- Hb, <- Hm. by rewrite take_drop.
  - intros (old & tail & Hb & Hlen & Hok & Hs & Hc & Hl & Ht & Hh & E1 & E2 & E3).
    rewrite (proj2 (N.ltb_ge _ _)) by done. rewrite bool_decide_true by (rewrite Hb; apply (take_app_length' RAFT_LOG_MAGIC); done).
    cbn [negb]. rewrite (proj2 (read_records_iff (length bytes) s (drop 8 bytes) 8 st ltac:(rewrite length_drop; lia))); [cbn [rbind]|].
    + rewrite (proj2 (N.ltb_ge _ _)) by done. rewrite E3. unfold harmless in Hh. destruct tail as [|b tail]; [done|].
      cbn [torn_at]. destruct (forallb _ _); [done|]. cbn [negb andb orb] in *. by destruct (record_follows _ _).
    + exists old, tail. rewrite Hb. done.
Qed.

(** Nothing is cut but what parses as no record; the loop never runs out of fuel. *)
Lemma read_records_fuel fuel s bytes position st : length bytes ≤ fuel →
  read_records sha256 fuel s bytes position st ≠ Err OutOfFuel ∧ read_records sha256 fuel s bytes position st ≠ Err Panicked.
Proof.
  revert bytes position st. induction fuel as [|fuel IH]; intros bytes position st Hf;
    (destruct bytes as [|b bytes]; [done|]); [cbn in Hf; lia|].
  cbn [read_records]. destruct (parse_record sha256 (b :: bytes)) as [[[e rest]|]|] eqn:E; try done.
  apply parse_exact in E as [E _]; [|done]. assert (length rest ≤ fuel).
  { apply (f_equal length) in E. rewrite length_app in E. pose proof (record_nonempty e). cbn in *. lia. }
  destruct (_ && _); [by apply IH|]. destruct (checked_add_u64 _ _); [|done]. destruct (negb _); [done|]. by apply IH.
Qed.

Lemma parse_log_total bytes s commit :
  parse_log sha256 bytes s commit ≠ Err OutOfFuel ∧ parse_log sha256 bytes s commit ≠ Err Panicked.
Proof.
  unfold parse_log. destruct (_ <? _)%N; [done|]. destruct (negb _); [done|].
  destruct (read_records_fuel (length bytes) s (drop 8 bytes) 8 (mkRead [] [] false None)) as [H1 H2]; [rewrite length_drop; lia|].
  destruct (read_records _ _ _ _ _ _) as [st|e]; cbn [rbind]; [|split; congruence].
  destruct (_ <? _)%N; [done|]. destruct (rs_torn st) as [[? ?]|]; [|done]. by destruct (_ && _).
Qed.

(** C30: the files of the Raft storage are read exactly as they are written.  A byte
    string parses as a record and a rest exactly when it is the encoding of an entry
    followed by that rest; it decodes as a state exactly when it is the encoding of
    that state; and a log is accepted, with entries above the snapshot, exactly when
    it is the magic, records the snapshot covers, the records of those entries, of
    consecutive indexes and through the commit index, and a tail that is no record and
    in which none starts (or only zeros).  Reading always ends with an answer. *)
Theorem raft_files_exact :
  (∀ bytes e rest, parse_record sha256 bytes = Some (Ok (e, rest)) ↔ entry_ok e ∧ bytes = encode e ++ rest) ∧
  (∀ bytes i, decode_state sha256 bytes = Ok i ↔ image_ok i ∧ bytes = encode_state sha256 i) ∧
  (∀ bytes s commit st, parse_log sha256 bytes s commit = Ok st ↔
     ∃ old tail, bytes = RAFT_LOG_MAGIC ++ records old ++ records (rs_entries st) ++ tail ∧
       (blen bytes ≤ RAFT_LOG_BYTES)%N ∧ Forall entry_ok (old ++ rs_entries st) ∧
       Forall (λ e, (e_index e ≤ s)%N) old ∧ consecutive (s + 1) (rs_entries st) ∧
       (commit ≤ last_entry_index s (rs_entries st))%N ∧ no_record tail ∧ harmless tail = true ∧
       rs_offsets st = record_offsets sha256 (8 + blen (records old)) (rs_entries st) ∧
       rs_skipped st = negb (bool_decide (old = [])) ∧
       rs_torn st = torn_at (8 + blen (records old) + blen (records (rs_entries st))) tail) ∧
  (∀ bytes s commit, parse_log sha256 bytes s commit ≠ Err OutOfFuel ∧ parse_log sha256 bytes s commit ≠ Err Panicked).
Proof.
  split; [|split; [|split]].
  - intros bytes e rest. split; [intros H; apply parse_exact in H as [-> H]; [done|done]|].
    intros [He ->]. by apply parse_encoded.
  - intros bytes i. by apply decode_state_iff.
  - intros bytes s commit st. apply parse_log_iff.
  - intros bytes s commit. apply parse_log_total.
Qed.
End Facts.

(** A record of a member's first entry. *)
Definition sample_entry : Entry := mkEntry 1 1 EntryNormal [] [x41; x42].
Lemma raft_files_exact_witness :
  parse_record toy_sha256 (raft_encode_record toy_sha256 sample_entry ++ [x00]) = Some (Ok (sample_entry, [x00])).
Proof.
  apply (proj2 (proj1 (raft_files_exact toy_sha256 toy_sha256_length) _ _ _)).
  split; [constructor; vm_compute; reflexivity|reflexivity].
Defined.
