(* ===== verification/RaftStorage.v ===== *)
(** * The durable state of a Raft node: crates/ptr-ledger/src/raft_storage.rs

    The state in memory, its two files and the payload of its snapshot, and every
    operation with its system calls.  The directory is the disk.  A file handle is
    the name it was opened under: the code writes through a handle only while it
    is the handle of the log.  The test-only failpoints are left out. *)

From S2P Require Import Prelude Bytes Text Types LedgerEvents LedgerChecks LedgerCodec Integrity.
From S2P Require Import Storage Anchor FileLedger Compaction RaftFormat.
From stdpp Require Import options.

Inductive Health := Sound | Poisoned.
#[export] Instance Health_eq_dec : EqDecision Health.
Proof. solve_decision. Defined.

Record Core := mkCore {
  c_hard_state : HardState;
  c_conf_state : ConfState;
  c_snapshot_metadata : SnapshotMetadata;
  c_snapshot_digest : list byte;
  c_snapshot_data : list byte;
  c_entries : list Entry;
  c_offsets : list N;
  c_applied : AppliedEvents;
  c_trimmed_tail_bytes : N;
  c_fence : N;
  c_health : Health
}.

(** The snapshot of the raft crate: its metadata carries the configuration. *)
Record Snapshot := mkSnapshot {
  sn_data : list byte;
  sn_metadata : SnapshotMetadata;
  sn_conf_state : ConfState
}.

Record PendingSnapshot := mkPending {
  ps_index : N;
  ps_term : N;
  ps_payload : list byte
}.

(** crates/ptr-ledger/src/compaction.rs: the position a durable snapshot covers. *)
Record RetentionFloor := mkFloor { rf_index : CommitIndex }.

Inductive SnapshotFloorRefusal :=
| AboveRetentionFloor (index events floor : N)
| FloorMismatch (index events floor : N)
| Unaccounted (snapshot_index : N).

Definition floor_refusal_code (refusal : SnapshotFloorRefusal) : string :=
  match refusal with
  | AboveRetentionFloor _ _ _ => "PTR_RAFT_COMPACTION_ABOVE_RETENTION_FLOOR"
  | FloorMismatch _ _ _ => "PTR_RAFT_SNAPSHOT_FLOOR_MISMATCH"
  | Unaccounted _ => "PTR_RAFT_SNAPSHOT_UNACCOUNTED"
  end.

Definition floor_refusal_text (refusal : SnapshotFloorRefusal) : string :=
  floor_refusal_code refusal +:+
  match refusal with
  | AboveRetentionFloor index events floor =>
      ": compacting to raft index " +:+ to_string index +:+ " discards ledger events through " +:+
      to_string events +:+ ", and the retained snapshot covers only through " +:+ to_string floor
  | FloorMismatch index events floor =>
      ": raft index " +:+ to_string index +:+ " produced ledger events through " +:+ to_string events +:+
      ", and the payload claims to cover through " +:+ to_string floor
  | Unaccounted snapshot_index =>
      ": the snapshot installed at " +:+ to_string snapshot_index +:+
      " has not been accounted for, so no ledger position can be derived from a raft index"
  end.

(** [From<SnapshotFloorRefusal> for io::Error]. *)
Definition floor_refusal {A} (refusal : SnapshotFloorRefusal) : result fault A :=
  refuse (floor_refusal_text refusal).

Definition storage_poisoned : fault :=
  Io {| io_kind := Other;
        io_source := Msg "PTR_RAFT_STORAGE_POISONED: an I/O error past a point of no return left the storage unsure of its files; restart the member" |}.

(** ** Programs on the state in memory

    The core survives an error: what the code changed before [?] stays changed. *)
Definition core_prog (A : Type) : Type := Core → prog (result fault A * Core).

Definition core_ret {A} (a : A) : core_prog A := λ c, pret (Ok a, c).
Definition core_lift {A} (r : result fault A) : core_prog A := λ c, pret (r, c).
Definition core_refuse {A} (message : string) : core_prog A := core_lift (refuse message).
Definition core_get : core_prog Core := λ c, pret (Ok c, c).
Definition core_modify (g : Core → Core) : core_prog unit := λ c, pret (Ok tt, g c).
Definition core_io {A} (m : prog (result fault A)) : core_prog A := λ c, let* r := m in pret (r, c).
Definition core_bind {A B} (m : core_prog A) (k : A → core_prog B) : core_prog B := λ c,
  let* (r, c) := m c in
  match r with
  | Ok a => k a c
  | Err e => pret (Err e, c)
  end.
(** [Result::inspect_err]. *)
Definition core_inspect_err {A} (m : core_prog A) (g : Core → Core) : core_prog A := λ c,
  let* (r, c) := m c in
  pret (r, match r with Ok _ => c | Err _ => g c end).
Notation "'do*' x ':=' m 'in' k" := (core_bind m (λ x, k))
  (at level 10, x pattern, m at level 100, k at level 200) : ptr_scope.

(** ** Fields *)
Definition with_hard_state (h : HardState) (c : Core) : Core :=
  mkCore h (c_conf_state c) (c_snapshot_metadata c) (c_snapshot_digest c) (c_snapshot_data c) (c_entries c)
    (c_offsets c) (c_applied c) (c_trimmed_tail_bytes c) (c_fence c) (c_health c).
Definition with_conf_state (s : ConfState) (c : Core) : Core :=
  mkCore (c_hard_state c) s (c_snapshot_metadata c) (c_snapshot_digest c) (c_snapshot_data c) (c_entries c)
    (c_offsets c) (c_applied c) (c_trimmed_tail_bytes c) (c_fence c) (c_health c).
Definition with_snapshot (m : SnapshotMetadata) (digest : list byte) (c : Core) : Core :=
  mkCore (c_hard_state c) (c_conf_state c) m digest (c_snapshot_data c) (c_entries c)
    (c_offsets c) (c_applied c) (c_trimmed_tail_bytes c) (c_fence c) (c_health c).
Definition with_snapshot_data (data : list byte) (c : Core) : Core :=
  mkCore (c_hard_state c) (c_conf_state c) (c_snapshot_metadata c) (c_snapshot_digest c) data (c_entries c)
    (c_offsets c) (c_applied c) (c_trimmed_tail_bytes c) (c_fence c) (c_health c).
Definition with_entries (entries : list Entry) (offsets : list N) (c : Core) : Core :=
  mkCore (c_hard_state c) (c_conf_state c) (c_snapshot_metadata c) (c_snapshot_digest c) (c_snapshot_data c)
    entries offsets (c_applied c) (c_trimmed_tail_bytes c) (c_fence c) (c_health c).
Definition with_applied (a : AppliedEvents) (c : Core) : Core :=
  mkCore (c_hard_state c) (c_conf_state c) (c_snapshot_metadata c) (c_snapshot_digest c) (c_snapshot_data c)
    (c_entries c) (c_offsets c) a (c_trimmed_tail_bytes c) (c_fence c) (c_health c).
Definition with_fence (fence : N) (c : Core) : Core :=
  mkCore (c_hard_state c) (c_conf_state c) (c_snapshot_metadata c) (c_snapshot_digest c) (c_snapshot_data c)
    (c_entries c) (c_offsets c) (c_applied c) (c_trimmed_tail_bytes c) fence (c_health c).
Definition poison (c : Core) : Core :=
  mkCore (c_hard_state c) (c_conf_state c) (c_snapshot_metadata c) (c_snapshot_digest c) (c_snapshot_data c)
    (c_entries c) (c_offsets c) (c_applied c) (c_trimmed_tail_bytes c) (c_fence c) Poisoned.
Definition set_hard_commit (commit : N) (h : HardState) : HardState := mkHardState (hs_term h) (hs_vote h) commit.

(** ** Reading *)

Definition core_first_index (c : Core) : N :=
  match head (c_entries c) with
  | Some e => e_index e
  | None => saturating_add_u64 (sm_index (c_snapshot_metadata c)) 1
  end.
Definition core_last_index (c : Core) : N :=
  match last (c_entries c) with
  | Some e => e_index e
  | None => sm_index (c_snapshot_metadata c)
  end.

Definition is_poisoned (c : Core) : bool := bool_decide (c_health c = Poisoned).
Definition refuse_if_poisoned : core_prog unit := λ c,
  match c_health c with
  | Sound => core_ret tt c
  | Poisoned => core_lift (Err storage_poisoned) c
  end.

Definition snapshot_pending (c : Core) : bool := bool_decide (c_applied c = SnapshotPending).
Definition pending_snapshot (c : Core) : option PendingSnapshot :=
  if snapshot_pending c then
    Some (mkPending (sm_index (c_snapshot_metadata c)) (sm_term (c_snapshot_metadata c)) (c_snapshot_data c))
  else None.

Definition core_snapshot (c : Core) : Snapshot := mkSnapshot (c_snapshot_data c) (c_snapshot_metadata c) (c_conf_state c).

Definition core_committed_entries (c : Core) : list Entry :=
  filter (λ e, (e_index e ≤ hs_commit (c_hard_state c))%N) (c_entries c).

Definition term_of (index : N) (c : Core) : result fault N :=
  if (index =? sm_index (c_snapshot_metadata c))%N then Ok (sm_term (c_snapshot_metadata c))
  else
    let first := core_first_index c in
    if (index <? first)%N || (core_last_index c <? index)%N then
      refuse ("index " +:+ to_string index +:+ " is outside the log")
    else ok_or (e_term <$> c_entries c !! N.to_nat (index - first)) Panicked.

Definition events_through (index : N) (c : Core) : result fault N :=
  match c_applied c with
  | SnapshotPending => floor_refusal (Unaccounted (sm_index (c_snapshot_metadata c)))
  | Counted base =>
      let above := blen (filter (λ e, carries_ledger_event e = true) (filter (λ e, (e_index e ≤ index)%N) (c_entries c))) in
      ok_or (checked_add_u64 base above) (Io (invalid "the count of applied events is exhausted"))
  end.

(** ** Files *)

Definition STATE : string := "state".
Definition LOG : string := "log".
(** [path.with_extension("tmp")] and [log_path.with_extension("rewrite")]. *)
Definition atomic_scratch (path : string) : string := path +:+ ".tmp".
Definition REWRITE : string := "log.rewrite".

(** [OpenOptions::create(true).truncate(false)]. *)
Definition open_or_create (name : string) : prog (result fault unit) :=
  syscall (atomic (λ d, match file_at d name with
                        | Some _ => d
                        | None => rebind name (Some new_file) d
                        end)) (λ _, Ok tt).

Definition raft_read_bounded (path : string) (max : N) (what : string) : prog (result fault (list byte)) :=
  try* _ := open_file path in
  try* length := file_length path in
  if (max <? length)%N then plift (refuse (what +:+ " is over the size bound"))
  else
    try* bytes := read_file path in
    let bytes := limited (max + 1) bytes in
    if (max <? blen bytes)%N then plift (refuse (what +:+ " is over the size bound"))
    else plift (Ok bytes).

Definition atomic_write (path : string) (bytes : list byte) : prog (result fault unit) :=
  let temporary := atomic_scratch path in
  try* _ := create_or_truncate temporary in
  try* _ := write_all temporary bytes in
  try* _ := sync temporary in
  rename temporary path.

Definition remove_leftover (path : string) : prog unit :=
  let* _ := remove_file path in pret tt.

(** Payload files. *)
Definition payload_name (digest : list byte) : string := "snapshot-" +:+ hex digest.

Definition payload_hexdigit (b : byte) : bool :=
  in_range 48 57 (Byte.to_N b) || in_range 65 70 (Byte.to_N b) || in_range 97 102 (Byte.to_N b).
Definition is_payload_file (name : string) : bool :=
  match strip_prefix "snapshot-" name with
  | None => false
  | Some rest =>
      let digest := default rest (strip_suffix ".tmp" rest) in
      (String.length digest =? 64)%nat && forallb payload_hexdigit (str_bytes digest)
  end.

Fixpoint remove_names (names : list string) : prog unit :=
  match names with
  | [] => pret tt
  | name :: names => let* _ := remove_file name in remove_names names
  end.
Definition remove_other_payloads (keep : list byte) : prog unit :=
  let kept := payload_name keep in
  let* listing := syscall no_effect (λ d, Ok (directory d)) in
  match listing with
  | Err _ => pret tt
  | Ok names => remove_names (filter (λ name, is_payload_file name && negb (bool_decide (name = kept)) = true) names)
  end.

Definition write_payload (digest data : list byte) : prog (result fault unit) :=
  try* _ := atomic_write (payload_name digest) data in
  sync_parent.

Definition write_log_header (name : string) : prog (result fault unit) :=
  try* _ := seek name in
  try* _ := write_at name 0 RAFT_LOG_MAGIC in
  sync name.

Section RaftStorage.
Context (sha256 : list byte → list byte).

Definition load_payload (digest : list byte) : prog (result fault (list byte)) :=
  let* read := raft_read_bounded (payload_name digest) MAX_SNAPSHOT_BYTES "retained raft snapshot" in
  match read with
  | Err (Io {| io_kind := NotFound |} as error) =>
      if bool_decide (digest = sha256 []) then plift (Ok [])
      else plift (refuse "the snapshot payload the state names is missing")
  | Err error => plift (Err error)
  | Ok data =>
      if (MAX_SNAPSHOT_BYTES <? blen data)%N then plift (refuse "retained raft snapshot is over the bound")
      else if negb (bool_decide (sha256 data = digest)) then
        plift (refuse "retained raft snapshot does not match the digest the state names")
      else plift (Ok data)
  end.

Definition read_state : prog (result fault StateImage) :=
  try* bytes := raft_read_bounded STATE MAX_STATE_BYTES "raft state file" in
  plift (lift_io (decode_state sha256 bytes)).

(** ** Replacing the log *)

Fixpoint write_records (name : string) (entries : list Entry) : prog (result fault unit) :=
  match entries with
  | [] => plift (Ok tt)
  | e :: entries =>
      try* _ := write_all name (raft_encode_record sha256 e) in
      write_records name entries
  end.

(** The offsets of the entries in the log written beside the real one. *)
Definition write_scratch_log (entries : list Entry) : prog (result fault (list N)) :=
  try* _ := create_or_truncate REWRITE in
  try* _ := write_log_header REWRITE in
  try* _ := write_records REWRITE entries in
  try* _ := sync REWRITE in
  plift (Ok (record_offsets sha256 8 entries)).

Definition install_scratch_log (offsets : list N) : prog (result fault (list N)) :=
  try* _ := rename REWRITE LOG in
  try* _ := sync_parent in
  plift (Ok offsets).

Definition rewrite_log (entries : list Entry) : prog (result fault (list N)) :=
  try* offsets := write_scratch_log entries in
  install_scratch_log offsets.

Record LogImage := mkLogImage {
  li_entries : list Entry;
  li_offsets : list N;
  li_skipped : bool;
  li_trimmed : N
}.

Definition read_log (snapshot_index commit : N) : prog (result fault LogImage) :=
  try* _ := seek LOG in
  try* length := file_length LOG in
  if (RAFT_LOG_BYTES <? length)%N then plift (refuse "raft log is over the size bound")
  else
    try* bytes := read_file LOG in
    try* st := plift (parse_log sha256 (limited (RAFT_LOG_BYTES + 1) bytes) snapshot_index commit) in
    match rs_torn st with
    | Some (cut, rest) =>
        try* _ := set_len LOG cut in
        try* _ := sync LOG in
        plift (Ok (mkLogImage (rs_entries st) (rs_offsets st) (rs_skipped st) (blen rest)))
    | None => plift (Ok (mkLogImage (rs_entries st) (rs_offsets st) (rs_skipped st) 0))
    end.

(** ** Writing the state *)

Definition core_image (fence : N) (c : Core) : StateImage :=
  mkImage (c_hard_state c) (c_conf_state c) (c_snapshot_metadata c) (c_snapshot_digest c) fence (c_applied c).

Definition fenced_to : core_prog N := λ c,
  let* image := read_state in
  let on_disk :=
    match image with
    | Ok image => Ok (si_fence image)
    | Err (Io {| io_kind := NotFound |}) => Ok 0%N
    | Err error => Err error
    end in
  match on_disk with
  | Err error => core_lift (Err error) c
  | Ok on_disk =>
      let term := hs_term (c_hard_state c) in
      if (term <? on_disk)%N then
        core_refuse ("PTR_RAFT_FENCED: storage was claimed at term " +:+ to_string on_disk +:+
                     ", this writer is at term " +:+ to_string term) c
      else
        let fence := N.max on_disk term in
        core_ret fence (with_fence fence c)
  end.

Definition persist_state : core_prog unit :=
  do* _ := refuse_if_poisoned in
  do* fence := fenced_to in
  do* c := core_get in
  do* _ := core_io (atomic_write STATE (encode_state sha256 (core_image fence c))) in
  core_inspect_err (core_io sync_parent) poison.

Definition set_hard_state (hard_state : HardState) : core_prog unit := λ c,
  let previous := c_hard_state c in
  core_inspect_err persist_state (with_hard_state previous) (with_hard_state hard_state c).

Definition set_commit (commit : N) : core_prog unit := λ c,
  let previous := hs_commit (c_hard_state c) in
  core_inspect_err persist_state (λ c, with_hard_state (set_hard_commit previous (c_hard_state c)) c)
    (with_hard_state (set_hard_commit commit (c_hard_state c)) c).

Definition set_applied_events (applied_events : N) : core_prog unit := λ c,
  let previous := c_applied c in
  core_inspect_err persist_state (with_applied previous) (with_applied (Counted applied_events) c).

Definition set_conf_state (conf_state : ConfState) : core_prog unit := λ c,
  let previous := c_conf_state c in
  core_inspect_err persist_state (with_conf_state previous) (with_conf_state conf_state c).

(** ** Appending *)

Definition write_entries (keep : nat) (start : N) (entries : list Entry) (buffer : list byte) : core_prog unit :=
  do* c := core_get in
  do* _ := if (keep <? length (c_entries c))%nat then core_io (set_len LOG start) else core_ret tt in
  do* _ := core_io (seek LOG) in
  do* _ := core_io (write_at LOG start buffer) in
  do* _ := core_io (sync LOG) in
  core_modify (with_entries (take keep (c_entries c) ++ entries)
                            (take keep (c_offsets c) ++ record_offsets sha256 start entries)).

(** The loop over the entries to append: the sum of their lengths. *)
Fixpoint checked_total (first position : N) (entries : list Entry) (total : N) : result fault N :=
  match entries with
  | [] => Ok total
  | entry :: entries =>
      let? expected := ok_or (checked_add_u64 first position) (Io (invalid "the raft log index is exhausted")) in
      if negb (e_index entry =? expected)%N then refuse "appended raft entries are not consecutive"
      else if (MAX_ENTRY_BYTES <? blen (e_data entry))%N || (MAX_ENTRY_BYTES <? blen (e_context entry))%N then
        refuse "raft entry payload is over the bound"
      else checked_total first (position + 1) entries (total + record_len entry)
  end.

Definition raft_append (entries : list Entry) : core_prog unit :=
  do* _ := refuse_if_poisoned in
  match entries with
  | [] => core_ret tt
  | first :: _ =>
      do* _ := fenced_to in
      do* c := core_get in
      if (e_index first <? core_first_index c)%N then
        core_refuse ("append at " +:+ to_string (e_index first) +:+
                     " would overwrite compacted history below " +:+ to_string (core_first_index c))
      else
        do* next := core_lift (ok_or (checked_add_u64 (core_last_index c) 1)
                                     (Io (invalid "the raft log index is exhausted"))) in
        if (next <? e_index first)%N then
          core_refuse ("append at " +:+ to_string (e_index first) +:+ " leaves a gap after " +:+
                       to_string (core_last_index c))
        else
          do* total := core_lift (checked_total (e_index first) 0 entries 0) in
          let keep := N.to_nat (e_index first - core_first_index c) in
          do* start := match c_offsets c !! keep with
                       | Some offset => core_ret offset
                       | None => core_io (file_length LOG)
                       end in
          if (RAFT_LOG_BYTES <? saturating_add_u64 start total)%N then
            core_refuse "the raft log would pass its size bound"
          else
            core_inspect_err
              (write_entries keep start entries (mjoin (raft_encode_record sha256 <$> entries))) poison
  end.

(** ** Snapshots *)

Definition reset_log : core_prog unit :=
  do* scratch := core_io (write_scratch_log []) in
  do* offsets := core_io (install_scratch_log scratch) in
  core_modify (with_entries [] offsets).

Definition apply_snapshot (snapshot : Snapshot) : core_prog unit :=
  do* _ := refuse_if_poisoned in
  let metadata := sn_metadata snapshot in
  do* c := core_get in
  if (sm_index metadata <? core_first_index c)%N then
    core_refuse ("snapshot at " +:+ to_string (sm_index metadata) +:+ " is behind the log's first index " +:+
                 to_string (core_first_index c))
  else if (MAX_SNAPSHOT_BYTES <? blen (sn_data snapshot))%N then
    core_refuse "raft snapshot payload is over the bound"
  else
    do* _ := fenced_to in
    let digest := sha256 (sn_data snapshot) in
    do* _ := core_io (write_payload digest (sn_data snapshot)) in
    do* c := core_get in
    let previous := c_hard_state c in
    let hard_state := mkHardState (N.max (hs_term previous) (sm_term metadata)) (hs_vote previous) (sm_index metadata) in
    do* _ := core_modify (λ c, with_applied SnapshotPending (with_conf_state (sn_conf_state snapshot)
                                 (with_hard_state hard_state (with_snapshot metadata digest c)))) in
    do* _ := core_inspect_err persist_state
               (λ c', with_applied (c_applied c) (with_snapshot (c_snapshot_metadata c) (c_snapshot_digest c)
                        (with_conf_state (c_conf_state c)
                          (with_hard_state (mkHardState (hs_term previous) (hs_vote (c_hard_state c')) (hs_commit previous)) c')))) in
    do* _ := core_modify (with_snapshot_data (sn_data snapshot)) in
    do* _ := core_io (let* _ := remove_other_payloads digest in plift (Ok tt)) in
    core_inspect_err reset_log poison.

Definition compact_to (index : N) : core_prog unit :=
  do* c := core_get in
  if (index <? core_first_index c)%N then core_ret tt
  else if (core_last_index c <? index)%N then
    core_refuse ("compaction to " +:+ to_string index +:+ " is past the last index " +:+ to_string (core_last_index c))
  else
    let dropped := N.to_nat (index - core_first_index c) + 1 in
    if (length (c_entries c) <? dropped)%nat then core_lift (Err Panicked)
    else
      let kept := drop dropped (c_entries c) in
      do* offsets := core_io (write_scratch_log kept) in
      do* _ := core_io (rename REWRITE LOG) in
      do* _ := core_modify (with_entries kept offsets) in
      core_io sync_parent.

Definition record_snapshot_within (index : N) (data : list byte) (floor : RetentionFloor) : core_prog unit :=
  do* _ := refuse_if_poisoned in
  do* c := core_get in
  if (hs_commit (c_hard_state c) <? index)%N then
    core_refuse ("snapshot at " +:+ to_string index +:+ " is ahead of the committed index " +:+
                 to_string (hs_commit (c_hard_state c)))
  else if (index <? sm_index (c_snapshot_metadata c))%N then
    core_refuse "snapshot moves the covered position backwards"
  else if (MAX_SNAPSHOT_BYTES <? blen data)%N then core_refuse "raft snapshot payload is over the bound"
  else
    do* term := core_lift (term_of index c) in
    do* events := core_lift (events_through index c) in
    let retained := rf_index floor in
    match (events ?= retained)%N with
    | Gt => core_lift (floor_refusal (AboveRetentionFloor index events retained))
    | Lt => core_lift (floor_refusal (FloorMismatch index events retained))
    | Eq =>
        do* _ := fenced_to in
        match c_applied c with
        | SnapshotPending => core_lift (floor_refusal (Unaccounted (sm_index (c_snapshot_metadata c))))
        | Counted already =>
            let digest := sha256 data in
            do* _ := core_io (write_payload digest data) in
            do* _ := core_modify (λ c, with_applied (Counted events) (with_snapshot (mkMetadata index term) digest c)) in
            do* _ := core_inspect_err persist_state
                       (λ c', with_applied (Counted already)
                                (with_snapshot (c_snapshot_metadata c) (c_snapshot_digest c) c')) in
            do* _ := core_modify (with_snapshot_data data) in
            do* _ := core_io (let* _ := remove_other_payloads digest in plift (Ok tt)) in
            core_inspect_err (compact_to index) poison
        end
    end.

Definition record_snapshot (index : N) (data : list byte) : core_prog unit :=
  do* _ := refuse_if_poisoned in
  do* c := core_get in
  do* events := core_lift (events_through index c) in
  record_snapshot_within index data (mkFloor events).

(** ** Opening *)

Definition open_existing : prog (result fault Core) :=
  try* image := read_state in
  try* snapshot_data := load_payload (si_snapshot_digest image) in
  let* _ := remove_other_payloads (si_snapshot_digest image) in
  try* _ := sync LOG in
  let pending := bool_decide (si_applied image = SnapshotPending) in
  try* read := read_log (sm_index (si_snapshot image)) (hs_commit (si_hard_state image)) in
  try* (entries, offsets) :=
    (if pending && li_skipped read then
       try* kept := rewrite_log [] in plift (Ok ([], kept))
     else if li_skipped read then
       try* kept := rewrite_log (li_entries read) in plift (Ok (li_entries read, kept))
     else plift (Ok (li_entries read, li_offsets read))) in
  plift (Ok (mkCore (si_hard_state image) (si_conf_state image) (si_snapshot image) (si_snapshot_digest image)
               snapshot_data entries offsets (si_applied image) (li_trimmed read) (si_fence image) Sound)).

Definition new_core (voters learners : list N) : Core :=
  mkCore (mkHardState 0 0 0) (mkConfState voters learners [] [] false) (mkMetadata 0 0) (sha256 []) [] [] []
    (Counted 0) 0 0 Sound.

Definition open_new (voters learners : list N) : prog (result fault Core) :=
  try* length := file_length LOG in
  if (8 <? length)%N then
    plift (refuse "a log with records exists but its state file is missing; refusing to start over it")
  else
    try* _ := write_log_header LOG in
    let* (persisted, core) := persist_state (new_core voters learners) in
    plift (let? _ := persisted in Ok core).

Definition raft_open (voters learners : list N) : prog (result fault Core) :=
  try* _ := syscall no_effect (λ _, Ok tt) in
  let* _ := remove_leftover (atomic_scratch STATE) in
  let* _ := remove_leftover REWRITE in
  let* existing := exists_path STATE in
  try* _ := open_or_create LOG in
  if existing : bool then open_existing else open_new voters learners.

(** ** What the consensus library reads *)

Inductive StorageError := Compacted | Unavailable | SnapshotTemporarilyUnavailable | StoragePanic.
#[export] Instance StorageError_eq_dec : EqDecision StorageError.
Proof. solve_decision. Defined.

(** [raft::util::limit_size]. *)
Context (limit_size : list Entry → option N → list Entry).

Definition raft_initial_state (c : Core) : HardState * ConfState := (c_hard_state c, c_conf_state c).

(** A range of the vector that is reversed or out of bounds panics. *)
Definition raft_entries (low high : N) (max_size : option N) (c : Core) : result StorageError (list Entry) :=
  if (low <? core_first_index c)%N then Err Compacted
  else if (saturating_add_u64 (core_last_index c) 1 <? high)%N then Err StoragePanic
  else
    let offset := core_first_index c in
    if (high <? offset)%N || (high <? low)%N || (blen (c_entries c) <? high - offset)%N then Err StoragePanic
    else
      Ok (limit_size (take (N.to_nat (high - low)) (drop (N.to_nat (low - offset)) (c_entries c))) max_size).

Definition raft_term (index : N) (c : Core) : result StorageError N :=
  if (index =? sm_index (c_snapshot_metadata c))%N then Ok (sm_term (c_snapshot_metadata c))
  else if (index <? core_first_index c)%N then Err Compacted
  else if (core_last_index c <? index)%N then Err Unavailable
  else ok_or (e_term <$> c_entries c !! N.to_nat (index - core_first_index c)) StoragePanic.

Definition payload_matches_state (c : Core) : bool :=
  bool_decide (sha256 (c_snapshot_data c) = c_snapshot_digest c).

Definition raft_snapshot (request_index : N) (c : Core) : result StorageError Snapshot :=
  if (sm_index (c_snapshot_metadata c) <? request_index)%N || negb (payload_matches_state c) then
    Err SnapshotTemporarilyUnavailable
  else Ok (core_snapshot c).
End RaftStorage.
