(* ===== verification/RaftDisk.v ===== *)
(** * The files of the Raft storage under failures

    What the helpers of crates/ptr-ledger/src/raft_storage.rs do to the directory,
    whichever call fails and wherever the machine stops: replacing a file, writing
    a log beside the real one, removing payloads, reading within a bound. *)

From S2P Require Import Prelude Bytes Text Types LedgerEvents LedgerChecks LedgerCodec Integrity.
From S2P Require Import Storage Anchor FileLedger Compaction.
From S2P Require Import RaftFormat RaftFormatFacts RaftStorage.
From Stdlib Require Import Lia.
From stdpp Require Import options.

(** ** What a name holds *)

(** The name durably holds [x]. *)
Definition exactly (d : disk) (name : string) (x : list byte) : Prop :=
  entry_at d name = {| en_file := Some (durable_file x); en_reverts := [] |}.
(** What the name may hold now or after a crash. *)
Definition allows (d : disk) (name : string) (P : option (list byte) → Prop) : Prop :=
  ∀ x, possible d name x → P x.
(** Names outside [N] resolve to what they resolved to, at most more durably. *)
Definition untouched (N : string → Prop) (d d' : disk) : Prop :=
  ∀ n, ¬ N n → entry_at d' n = entry_at d n ∨ entry_at d' n = {| en_file := file_at d n; en_reverts := [] |}.

Lemma exactly_file d n x : exactly d n x → file_at d n = Some (durable_file x).
Proof. unfold exactly, file_at. by intros ->. Qed.

Lemma exactly_possible d n x y : exactly d n x → possible d n y ↔ y = Some x.
Proof.
  intros H. unfold possible. rewrite H. cbn [en_file en_reverts]. split.
  - intros (g & Hg & Hy). apply list_elem_of_singleton in Hg as ->. destruct y; [|done].
    by apply survives_durable in Hy as ->.
  - intros ->. exists (Some (durable_file x)). split; [left|]. by apply survives_durable.
Qed.

Lemma exactly_allows d n x P : exactly d n x → P (Some x) → allows d n P.
Proof. intros He Hp y Hy. by apply (exactly_possible _ _ _ _ He) in Hy as ->. Qed.

Lemma allows_mono d n (P P' : option (list byte) → Prop) : allows d n P → (∀ x, P x → P' x) → allows d n P'.
Proof. intros H Hp x Hx. by apply Hp, H. Qed.

Lemma untouched_refl N d : untouched N d d.
Proof. by left. Qed.

Lemma untouched_file N d d' n : untouched N d d' → ¬ N n → file_at d' n = file_at d n.
Proof. intros H Hn. unfold file_at at 1. by destruct (H n Hn) as [->| ->]. Qed.

Lemma untouched_trans N d1 d2 d3 : untouched N d1 d2 → untouched N d2 d3 → untouched N d1 d3.
Proof.
  intros H1 H2 n Hn. destruct (H2 n Hn) as [->| ->]; [by apply H1|].
  right. by rewrite (untouched_file _ _ _ _ H1 Hn).
Qed.

Lemma untouched_mono (N N' : string → Prop) d d' : untouched N d d' → (∀ n, N n → N' n) → untouched N' d d'.
Proof. intros H Hn n Hn'. apply H. auto. Qed.

Lemma untouched_exactly N d d' n x : untouched N d d' → ¬ N n → exactly d n x → exactly d' n x.
Proof.
  intros H Hn He. unfold exactly. destruct (H n Hn) as [->| ->]; [done|].
  by rewrite (exactly_file _ _ _ He).
Qed.

Lemma untouched_allows N d d' n P : untouched N d d' → ¬ N n → allows d n P → allows d' n P.
Proof.
  intros H Hn Ha x (g & Hg & Hx). apply Ha. exists g. split; [|done].
  destruct (H n Hn) as [Hr|Hr]; rewrite Hr in Hg; [done|].
  apply list_elem_of_singleton in Hg as ->. left.
Qed.

Lemma untouched_rebind (N : string → Prop) name f d : N name → untouched N d (rebind name f d).
Proof. intros Hn n Hnn. left. rewrite entry_at_rebind. rewrite bool_decide_false; [done|by intros ->]. Qed.
Lemma untouched_update (N : string → Prop) name g d : N name → untouched N d (update name g d).
Proof. intros Hn n Hnn. left. rewrite entry_at_update. rewrite bool_decide_false; [done|by intros ->]. Qed.
Lemma untouched_sync N d : untouched N d (sync_directory d).
Proof. intros n _. right. apply entry_at_sync. Qed.

(** A crash settles what a name holds. *)
Lemma crash_allows d d' n P : crashes_to d d' → allows d n P → allows d' n P.
Proof. intros Hc Ha x Hx. apply Ha. by eapply possible_crash. Qed.

Lemma crash_settles d d' n : crashes_to d d' →
  possible d n (content <$> file_at d' n) ∧
  entry_at d' n = {| en_file := durable_file <$> (content <$> file_at d' n); en_reverts := [] |}.
Proof.
  intros Hc. destruct (Hc n) as [Hr (g & Hg & Hs)]. unfold file_at in *.
  destruct (entry_at d' n) as [[f|] r]; cbn [en_file en_reverts fmap option_fmap option_map] in *; subst r.
  - destruct g as [g|]; [|done]. destruct Hs as [Hp Hs]. assert (f = durable_file (f_synced f)) as Hf by (destruct f; cbn in *; by subst).
    rewrite Hf. split; [|done]. exists (Some g). by split.
  - destruct g as [g|]; [done|]. split; [|done]. by exists None.
Qed.

Lemma crash_exactly d d' n P : crashes_to d d' → allows d n (λ x, ∃ b, x = Some b ∧ P b) → ∃ b, P b ∧ exactly d' n b.
Proof.
  intros Hc Ha. destruct (crash_settles d d' n Hc) as [Hp He]. destruct (Ha _ Hp) as (b & Hb & HP).
  exists b. split; [done|]. unfold exactly. by rewrite He, Hb.
Qed.

Lemma file_rebind name f d n : file_at (rebind name f d) n = if bool_decide (n = name) then f else file_at d n.
Proof. unfold file_at at 1. rewrite entry_at_rebind. by case_bool_decide. Qed.
Lemma file_update name g d n :
  file_at (update name g d) n = if bool_decide (n = name) then g <$> file_at d name else file_at d n.
Proof. unfold file_at at 1. rewrite entry_at_update. by case_bool_decide. Qed.
Lemma file_sync d n : file_at (sync_directory d) n = file_at d n.
Proof. unfold file_at at 1. by rewrite entry_at_sync. Qed.

Lemma sync_exactly d n x : file_at d n = Some (durable_file x) → exactly (sync_directory d) n x.
Proof. intros H. unfold exactly. by rewrite entry_at_sync, H. Qed.

(** Renaming a durable file over a name. *)
Lemma allows_rebind d n b P :
  allows d n P → allows (rebind n (Some (durable_file b)) d) n (λ x, P x ∨ x = Some b).
Proof.
  intros Ha x (g & Hg & Hx). rewrite entry_at_rebind, bool_decide_true in Hg by done. cbn [en_file en_reverts] in Hg.
  apply elem_of_cons in Hg as [->|Hg]; [|left; apply Ha; exists g; by split].
  right. destruct x; [|done]. by apply survives_durable in Hx as ->.
Qed.

Lemma allows_entry d d' n P : entry_at d' n = entry_at d n → allows d n P → allows d' n P.
Proof. intros He Ha x Hx. apply Ha. by eapply possible_entry. Qed.

(** ** Calls *)

Lemma wp_seek name (Q : result fault unit → disk → Prop) C d :
  Q (Ok tt) d → Q (Err (os_error Other)) d → C d → wp (seek name) Q C d.
Proof. intros. by apply wp_query. Qed.

Lemma wp_sync_parent (Q : result fault unit → disk → Prop) (C : disk → Prop) d :
  Q (Ok tt) (sync_directory d) → Q (Err (os_error Other)) d → C d → wp sync_parent Q C d.
Proof.
  intros Hq He HC. unfold sync_parent. apply wp_try, wp_query; [|done|done].
  by apply wp_syscall.
Qed.

Lemma wp_length name f (Q : result fault N → disk → Prop) (C : disk → Prop) d :
  file_at d name = Some f → Q (Ok (blen (content f))) d → Q (Err (os_error Other)) d → C d → wp (file_length name) Q C d.
Proof. intros Hf Hq He HC. apply wp_query; [by rewrite Hf|done|done]. Qed.

Lemma wp_read name f (Q : result fault (list byte) → disk → Prop) (C : disk → Prop) d :
  file_at d name = Some f → Q (Ok (content f)) d → Q (Err (os_error Other)) d → C d → wp (read_file name) Q C d.
Proof. intros Hf Hq He HC. apply wp_query; [by rewrite Hf|done|done]. Qed.

Lemma read_bounded_wp path max what b (Q : result fault (list byte) → disk → Prop) (C : disk → Prop) d :
  content <$> file_at d path = Some b → (blen b ≤ max)%N →
  Q (Ok b) d → Q (Err (os_error Other)) d → C d → wp (raft_read_bounded path max what) Q C d.
Proof.
  intros Hb Hm Hq He HC. apply fmap_Some in Hb as (f & Hf & ->). unfold raft_read_bounded.
  apply wp_try, wp_query; [rewrite Hf|done|done]. apply wp_try. eapply wp_length; [done| |done|done].
  rewrite (proj2 (N.ltb_ge _ _)) by done. apply wp_try. eapply wp_read; [done| |done|done]. cbn zeta.
  rewrite limited_all by lia. rewrite (proj2 (N.ltb_ge _ _)) by done. by apply wp_ret.
Qed.

Lemma read_missing_wp path max what (Q : result fault (list byte) → disk → Prop) (C : disk → Prop) d :
  file_at d path = None → Q (Err (os_error NotFound)) d → Q (Err (os_error Other)) d → C d →
  wp (raft_read_bounded path max what) Q C d.
Proof. intros Hb Hq He HC. unfold raft_read_bounded. apply wp_try, wp_query; [by rewrite Hb|done|done]. Qed.

(** Replacing a file: the name holds what it held or the new bytes. *)
Definition scratch_of (path : string) (n : string) : Prop := n = path ∨ n = atomic_scratch path.

Lemma length_string_app s t : String.length (s +:+ t) = String.length s + String.length t.
Proof. induction s as [|a s IH]; [done|]. exact (f_equal S IH). Qed.

Lemma atomic_scratch_ne path : atomic_scratch path ≠ path.
Proof.
  intros H. apply (f_equal String.length) in H. unfold atomic_scratch in H.
  rewrite length_string_app in H. cbn in H. lia.
Qed.

Lemma atomic_write_wp path bytes P (Q : result fault unit → disk → Prop) (C : disk → Prop) d :
  allows d path P →
  (∀ d', untouched (scratch_of path) d d' → file_at d' path = Some (durable_file bytes) →
     allows d' path (λ x, P x ∨ x = Some bytes) → Q (Ok tt) d') →
  (∀ d' e, untouched (scratch_of path) d d' → (is_Some (file_at d path) → is_Some (file_at d' path)) →
     allows d' path (λ x, P x ∨ x = Some bytes) → Q (Err e) d' ∧ C d') →
  wp (atomic_write path bytes) Q C d.
Proof.
  intros Ha Hok Herr. unfold atomic_write. set (tmp := atomic_scratch path).
  assert (Hne : path ≠ tmp) by (apply not_eq_sym, atomic_scratch_ne).
  assert (Hfail : ∀ d' e, untouched (eq tmp) d d' → entry_at d' path = entry_at d path → Q (Err e) d' ∧ C d').
  { intros d' e Hu He. apply Herr; [apply (untouched_mono _ _ _ _ Hu); intros n <-; by right| |].
    - unfold file_at. by rewrite He.
    - apply (allows_entry d); [done|]. apply (allows_mono _ _ _ _ Ha). by left. }
  assert (H1 : untouched (eq tmp) d (rebind tmp (Some new_file) d)) by (by apply untouched_rebind).
  assert (E1 : entry_at (rebind tmp (Some new_file) d) path = entry_at d path)
    by (rewrite entry_at_rebind; by rewrite bool_decide_false).
  apply wp_try, wp_atomic; [|intros d' [->| ->]; apply Hfail; try done; by apply untouched_refl].
  apply wp_try. unfold write_all. apply wp_syscall; cbn beta iota.
  2:{ intros k. apply Hfail; [eapply untouched_trans; [done|]; by apply untouched_update|].
      rewrite entry_at_update, bool_decide_false by done. done. }
  set (d2 := update tmp _ _). assert (H2 : untouched (eq tmp) d d2) by (eapply untouched_trans; [done|]; by apply untouched_update).
  assert (E2 : entry_at d2 path = entry_at d path) by (unfold d2; rewrite entry_at_update, bool_decide_false by done; done).
  apply wp_try. unfold sync. apply wp_syscall; [|intros k; apply Hfail; done]. cbn beta iota.
  set (d3 := update tmp sync_file d2). assert (H3 : untouched (eq tmp) d d3) by (eapply untouched_trans; [done|]; by apply untouched_update).
  assert (E3 : entry_at d3 path = entry_at d path) by (unfold d3; rewrite entry_at_update, bool_decide_false by done; done).
  assert (F3 : file_at d3 tmp = Some (durable_file bytes)).
  { unfold d3, d2. rewrite !file_update, !bool_decide_true, file_rebind, bool_decide_true by done. done. }
  unfold rename. apply wp_atomic; rewrite F3.
  - apply Hok; [|rewrite !file_rebind, bool_decide_false, bool_decide_true by done; done|].
    + eapply untouched_trans; [apply (untouched_mono _ _ _ _ H3); intros n <-; by right|].
      eapply untouched_trans; [apply untouched_rebind; by left|apply untouched_rebind; by right].
    + eapply allows_entry; [by rewrite entry_at_rebind, bool_decide_false by done|]. apply allows_rebind. by eapply allows_entry.
  - intros d' [->| ->]; [by apply Hfail|]. apply Herr.
    + eapply untouched_trans; [apply (untouched_mono _ _ _ _ H3); intros n <-; by right|].
      eapply untouched_trans; [apply untouched_rebind; by left|apply untouched_rebind; by right].
    + intros _. rewrite !file_rebind, bool_decide_false, bool_decide_true by done. by eexists.
    + eapply allows_entry; [by rewrite entry_at_rebind, bool_decide_false by done|]. apply allows_rebind. by eapply allows_entry.
Qed.

(** ** Payload files *)

Definition other_payload (keep : list byte) (n : string) : Prop := is_payload_file n = true ∧ n ≠ payload_name keep.

Lemma remove_names_wp (N : string → Prop) names (Q : unit → disk → Prop) (C : disk → Prop) d :
  Forall N names → (∀ d', untouched N d d' → Q tt d' ∧ C d') → wp (remove_names names) Q C d.
Proof.
  revert d. induction names as [|name names IH]; intros d Hn Hq; cbn [remove_names].
  - apply wp_ret, Hq, untouched_refl.
  - apply Forall_cons in Hn as [Hn Hns].
    assert (Hstep : ∀ d', d' = d ∨ d' = rebind name None d → untouched N d d').
    { intros d' [->| ->]; [apply untouched_refl|by apply untouched_rebind]. }
    apply wp_bind, wp_atomic.
    + apply IH; [done|]. intros d' Hd'. apply Hq. eapply untouched_trans; [|done]. apply Hstep. by right.
    + intros d' Hd'. apply Hstep in Hd'. split; [|by apply Hq].
      apply IH; [done|]. intros d2 Hd2. apply Hq. by eapply untouched_trans.
Qed.

Lemma remove_other_payloads_wp keep (Q : unit → disk → Prop) (C : disk → Prop) d :
  (∀ d', untouched (other_payload keep) d d' → Q tt d' ∧ C d') → wp (remove_other_payloads keep) Q C d.
Proof.
  intros Hq. unfold remove_other_payloads. cbn zeta. pose proof (Hq d (untouched_refl (other_payload keep) d)) as [H1 H2].
  apply wp_bind, wp_query; [|by apply wp_ret|done]. apply (remove_names_wp (other_payload keep)); [|done].
  apply Forall_forall. intros n Hn. apply list_elem_of_filter in Hn as [Hn _].
  apply andb_true_iff in Hn as [Hp Hk]. split; [done|]. by apply negb_true_iff, bool_decide_eq_false in Hk.
Qed.

Lemma length_bytes_str bs : String.length (bytes_str bs) = length bs.
Proof. induction bs as [|b bs IH]; [done|]. exact (f_equal S IH). Qed.

Lemma length_payload_name digest : String.length (payload_name digest) = 9 + 2 * length digest.
Proof.
  unfold payload_name. rewrite length_string_app. f_equal. unfold hex, hex_bytes. rewrite length_bytes_str.
  induction digest as [|b digest IH]; [done|]. cbn [length]. change (length (hex_byte b ++ mjoin (hex_byte <$> digest)) = 2 * S (length digest)). rewrite length_app, IH. cbn. lia.
Qed.

Lemma payload_name_inj d1 d2 : payload_name d1 = payload_name d2 → d1 = d2.
Proof.
  unfold payload_name. intros H. apply string_app_inj in H as [_ H]; [|done]. unfold hex in H.
  apply (f_equal str_bytes) in H. rewrite !str_bytes_str in H.
  apply (f_equal unhex_pairs) in H. by rewrite !unhex_hex in H.
Qed.

(** The names the storage uses do not meet. *)
Lemma payload_names_apart d1 d2 : length d1 = 32 → length d2 = 32 → scratch_of (payload_name d1) (payload_name d2) → d1 = d2.
Proof.
  intros H1 H2 [H|H]; [by apply payload_name_inj|]. apply (f_equal String.length) in H.
  unfold atomic_scratch in H. rewrite length_string_app, !length_payload_name, H1, H2 in H. cbn in H. lia.
Qed.

Definition fixed_name (n : string) : Prop := n = STATE ∨ n = LOG ∨ n = atomic_scratch STATE ∨ n = REWRITE.

Lemma fixed_not_payload n : fixed_name n → is_payload_file n = false.
Proof. by intros [->|[->|[->| ->]]]. Qed.

Lemma fixed_ne_payload n digest : fixed_name n → ¬ scratch_of (payload_name digest) n.
Proof. intros [->|[->|[->| ->]]] [H|H]; discriminate H. Qed.

Lemma payload_ne_fixed n digest : fixed_name n → payload_name digest ≠ n.
Proof. intros [->|[->|[->| ->]]] H; discriminate H. Qed.

Section Disk.
Context (sha256 : list byte → list byte).
Context (sha256_length : ∀ x, length (sha256 x) = 32).

(** The payload the state names is there; an empty one need not be. *)
Definition payload_ok (d : disk) (digest data : list byte) : Prop :=
  digest = sha256 data ∧ (blen data ≤ MAX_SNAPSHOT_BYTES)%N ∧
  allows d (payload_name digest) (λ x, x = Some data ∨ x = None ∧ data = []).

Lemma payload_untouched N d d' digest data :
  untouched N d d' → ¬ N (payload_name digest) → payload_ok d digest data → payload_ok d' digest data.
Proof. intros Hu Hn (H1 & H2 & H3). split_and!; [done|done|]. by eapply untouched_allows. Qed.

Lemma payload_crash d d' digest data : crashes_to d d' → payload_ok d digest data → payload_ok d' digest data.
Proof. intros Hc (H1 & H2 & H3). split_and!; [done|done|]. by eapply crash_allows. Qed.

Lemma possible_current d n : possible d n (content <$> file_at d n).
Proof.
  destruct (file_at d n) as [f|] eqn:E; [by apply possible_content|]. exists None. unfold file_at in E. rewrite E.
  split; [left|done].
Qed.

Lemma load_payload_wp digest data (Q : result fault (list byte) → disk → Prop) (C : disk → Prop) d :
  payload_ok d digest data → Q (Ok data) d → (∀ e, Q (Err e) d) → C d → wp (load_payload sha256 digest) Q C d.
Proof.
  intros (Hdg & Hm & Ha) Hq He HC. unfold load_payload. pose proof (Ha _ (possible_current d _)) as Hcur.
  apply wp_bind. destruct Hcur as [Hc|[Hc ->]].
  - eapply read_bounded_wp; [done|done| |by apply wp_ret|done].
    rewrite (proj2 (N.ltb_ge _ _)) by done. rewrite bool_decide_true by done. by apply wp_ret.
  - apply fmap_None in Hc. apply read_missing_wp; [done| |by apply wp_ret|done]. cbn.
    rewrite bool_decide_true by done. by apply wp_ret.
Qed.

Lemma write_payload_wp data (Q : result fault unit → disk → Prop) (C : disk → Prop) d :
  let digest := sha256 data in
  (∀ d', untouched (scratch_of (payload_name digest)) d d' → exactly d' (payload_name digest) data → Q (Ok tt) d') →
  (∀ d' e, untouched (scratch_of (payload_name digest)) d d' →
     (∀ P, allows d (payload_name digest) P → allows d' (payload_name digest) (λ x, P x ∨ x = Some data)) →
     Q (Err e) d' ∧ C d') →
  wp (write_payload digest data) Q C d.
Proof.
  intros digest Hok Herr. unfold write_payload. apply wp_try.
  apply (atomic_write_wp _ _ (λ x, possible d (payload_name digest) x)); [by intros x| |].
  - intros d' Hu Hf Ha. assert (Hfail : ∀ e, Q (Err e) d' ∧ C d').
    { intros e. apply Herr; [done|]. intros P HP x Hx. destruct (Ha x Hx) as [Hp| ->]; [left; by apply HP|by right]. }
    apply wp_sync_parent; [|apply Hfail|apply (Hfail (os_error Other))].
    apply Hok; [eapply untouched_trans; [done|apply untouched_sync]|by apply sync_exactly].
  - intros d' e Hu _ Ha. apply Herr; [done|]. intros P HP x Hx.
    destruct (Ha x Hx) as [Hp| ->]; [left; by apply HP|by right].
Qed.

(** ** Writing a log beside the real one *)

Abbreviation records := (records sha256).
Definition log_of (es : list Entry) : list byte := RAFT_LOG_MAGIC ++ records es.

Lemma content_change x f : content (change_file x f) = apply_change (content f) x.
Proof. unfold content. cbn. by rewrite foldl_app. Qed.

Lemma write_records_wp name es f (Q : result fault unit → disk → Prop) (C : disk → Prop) d :
  file_at d name = Some f →
  (∀ d' f', untouched (eq name) d d' → file_at d' name = Some f' → content f' = content f ++ records es → Q (Ok tt) d') →
  (∀ d' e, untouched (eq name) d d' → Q (Err e) d' ∧ C d') →
  wp (write_records sha256 name es) Q C d.
Proof.
  revert d f. induction es as [|e es IH]; intros d f Hf Hok Herr; cbn [write_records].
  - apply wp_ret, (Hok d f); [apply untouched_refl|done|]. by rewrite app_nil_r.
  - apply wp_try. unfold write_all. apply wp_syscall; cbn beta iota;
      [|intros n; apply Herr; by apply untouched_update].
    set (d1 := update name _ d). assert (untouched (eq name) d d1) as H1 by (by apply untouched_update).
    apply (IH d1 (change_file (Append (raft_encode_record sha256 e)) f)).
    + unfold d1. by rewrite file_update, bool_decide_true, Hf by done.
    + intros d' f' Hu Hf' Hc. apply (Hok d' f'); [by eapply untouched_trans|done|].
      rewrite Hc, content_change. cbn [apply_change]. by rewrite <- app_assoc.
    + intros d' e' Hu. apply Herr. by eapply untouched_trans.
Qed.

Lemma write_scratch_log_wp es (Q : result fault (list N) → disk → Prop) (C : disk → Prop) d :
  (∀ d', untouched (eq REWRITE) d d' → file_at d' REWRITE = Some (durable_file (log_of es)) →
     Q (Ok (record_offsets sha256 8 es)) d') →
  (∀ d' e, untouched (eq REWRITE) d d' → Q (Err e) d' ∧ C d') →
  wp (write_scratch_log sha256 es) Q C d.
Proof.
  intros Hok Herr. unfold write_scratch_log.
  assert (H1 : untouched (eq REWRITE) d (rebind REWRITE (Some new_file) d)) by (by apply untouched_rebind).
  apply wp_try, wp_atomic; [|intros d' [->| ->]; apply Herr; [apply untouched_refl|done]].
  set (d1 := rebind REWRITE (Some new_file) d) in *. unfold write_log_header. apply wp_try, wp_try.
  apply wp_seek; [|by apply Herr|by apply (Herr d1 Panicked)]. apply wp_try. unfold write_at.
  assert (Hup : ∀ g d2, untouched (eq REWRITE) d d2 → untouched (eq REWRITE) d (update REWRITE g d2)).
  { intros g d2 H. eapply untouched_trans; [exact H|]. by apply untouched_update. }
  apply wp_syscall; cbn beta iota; [|intros k; apply Herr; by apply Hup].
  set (d2 := update REWRITE _ d1).
  assert (F2 : file_at d2 REWRITE = Some (change_file (Append RAFT_LOG_MAGIC) new_file)).
  { unfold d2. rewrite file_update, bool_decide_true by done. unfold d1. by rewrite file_rebind, bool_decide_true. }
  assert (H2 : untouched (eq REWRITE) d d2) by (by apply Hup).
  apply wp_syscall; cbn beta iota; [|intros k; by apply Herr].
  set (d3 := update REWRITE sync_file d2). assert (H3 : untouched (eq REWRITE) d d3) by (by apply Hup).
  apply wp_try. apply (write_records_wp _ _ (durable_file RAFT_LOG_MAGIC)).
  - unfold d3. by rewrite file_update, bool_decide_true, F2 by done.
  - intros d4 f4 Hu Hf4 Hc. assert (H4 : untouched (eq REWRITE) d d4) by (by eapply untouched_trans).
    apply wp_try. unfold sync. apply wp_syscall; cbn beta iota; [|intros k; by apply Herr].
    apply wp_ret, Hok; [by apply Hup|]. rewrite file_update, bool_decide_true, Hf4 by done. cbn.
    unfold sync_file. by rewrite Hc.
  - intros d' e Hu. apply Herr. by eapply untouched_trans.
Qed.

(** Putting it in the place of the real one. *)
Definition log_names (n : string) : Prop := n = LOG ∨ n = REWRITE.

Lemma rename_log_wp b P (Q : result fault unit → disk → Prop) (C : disk → Prop) d :
  file_at d REWRITE = Some (durable_file b) → is_Some (file_at d LOG) → allows d LOG P →
  (∀ d', untouched log_names d d' → file_at d' LOG = Some (durable_file b) →
     allows d' LOG (λ x, P x ∨ x = Some b) → Q (Ok tt) d') →
  (∀ d' e, untouched log_names d d' → is_Some (file_at d' LOG) → allows d' LOG (λ x, P x ∨ x = Some b) →
     Q (Err e) d' ∧ C d') →
  wp (rename REWRITE LOG) Q C d.
Proof.
  intros Hf Hl Ha Hok Herr. unfold rename. set (d' := rebind REWRITE None (rebind LOG (Some (durable_file b)) d)).
  assert (Hu : untouched log_names d d').
  { eapply untouched_trans; apply untouched_rebind; [by left|by right]. }
  assert (Hf' : file_at d' LOG = Some (durable_file b)) by (unfold d'; by rewrite !file_rebind).
  assert (Ha' : allows d' LOG (λ x, P x ∨ x = Some b)).
  { eapply allows_entry; [unfold d'; by rewrite entry_at_rebind, bool_decide_false by done|]. by apply allows_rebind. }
  apply wp_atomic; rewrite Hf; fold d'; [by apply Hok|].
  intros d2 [->| ->]; [|apply Herr; [done|by rewrite Hf'|done]].
  apply Herr; [apply untouched_refl|done|]. apply (allows_mono _ _ _ _ Ha). by left.
Qed.

Lemma rewrite_log_wp es P (Q : result fault (list N) → disk → Prop) (C : disk → Prop) d :
  is_Some (file_at d LOG) → allows d LOG P →
  (∀ d', untouched log_names d d' → exactly d' LOG (log_of es) → Q (Ok (record_offsets sha256 8 es)) d') →
  (∀ d' e, untouched log_names d d' → is_Some (file_at d' LOG) → allows d' LOG (λ x, P x ∨ x = Some (log_of es)) →
     Q (Err e) d' ∧ C d') →
  wp (rewrite_log sha256 es) Q C d.
Proof.
  intros Hl Ha Hok Herr. unfold rewrite_log, install_scratch_log.
  assert (Hw : ∀ d', untouched (eq REWRITE) d d' → untouched log_names d d' ∧ is_Some (file_at d' LOG) ∧ allows d' LOG P).
  { intros d' Hu. split_and!; [apply (untouched_mono _ _ _ _ Hu); intros n <-; by right|by rewrite (untouched_file _ _ _ _ Hu)|by eapply untouched_allows]. }
  apply wp_try, write_scratch_log_wp.
  - intros d1 Hu Hf. apply Hw in Hu as (Hu & Hl1 & Ha1). apply wp_try. eapply rename_log_wp; [done|done|done| |].
    + intros d2 Hu2 Hf2 Ha2. apply wp_try.
      assert (Hx : ∀ e, Q (Err e) d2 ∧ C d2) by (intros e; apply Herr; [by eapply untouched_trans|by rewrite Hf2|done]).
      apply wp_sync_parent; [|apply Hx|apply (Hx Panicked)].
      apply wp_ret, Hok; [eapply untouched_trans; [by eapply untouched_trans|apply untouched_sync]|by apply sync_exactly].
    + intros d2 e Hu2 Hl2 Ha2. apply Herr; [by eapply untouched_trans|done|done].
  - intros d1 e Hu. apply Hw in Hu as (Hu & Hl1 & Ha1). apply Herr; [done|done|]. apply (allows_mono _ _ _ _ Ha1). by left.
Qed.
End Disk.
