(* ===== verification/RaftState.v ===== *)
(** * Recording the state of a Raft node, whatever fails

    When a node's storage is in step with its files, and what the operations that
    write the state file leave behind: the old state or the new one. *)

From S2P Require Import Prelude Bytes Text Types LedgerEvents LedgerChecks LedgerCodec Integrity.
From S2P Require Import Storage Anchor FileLedger Compaction.
From S2P Require Import RaftFormat RaftFormatFacts RaftStorage RaftDisk.
From Stdlib Require Import Lia.
From stdpp Require Import options.

(** ** Programs on the core *)

Definition cwp {A} (m : core_prog A) (c : Core) (Q : result fault A → Core → disk → Prop) (C : disk → Prop) (d : disk) : Prop :=
  wp (m c) (λ rc d', Q rc.1 rc.2 d') C d.

Lemma cwp_ret {A} (a : A) c (Q : result fault A → Core → disk → Prop) C d : Q (Ok a) c d → cwp (core_ret a) c Q C d.
Proof. intros H. by apply wp_ret. Qed.
Lemma cwp_lift {A} (r : result fault A) c (Q : result fault A → Core → disk → Prop) C d : Q r c d → cwp (core_lift r) c Q C d.
Proof. intros H. by apply wp_ret. Qed.
Lemma cwp_get c (Q : result fault Core → Core → disk → Prop) C d : Q (Ok c) c d → cwp core_get c Q C d.
Proof. intros H. by apply wp_ret. Qed.
Lemma cwp_modify g c (Q : result fault unit → Core → disk → Prop) C d : Q (Ok tt) (g c) d → cwp (core_modify g) c Q C d.
Proof. intros H. by apply wp_ret. Qed.

Lemma cwp_bind {A B} (m : core_prog A) (k : A → core_prog B) c Q C d :
  cwp m c (λ r c' d', match r with Ok a => cwp (k a) c' Q C d' | Err e => Q (Err e) c' d' end) C d →
  cwp (core_bind m k) c Q C d.
Proof.
  intros H. apply wp_bind. eapply wp_mono; [exact H| |done]. intros [[a|e] c'] d' Hr; [done|]. by apply wp_ret.
Qed.

Lemma cwp_io {A} (m : prog (result fault A)) c (Q : result fault A → Core → disk → Prop) C d :
  wp m (λ r d', Q r c d') C d → cwp (core_io m) c Q C d.
Proof. intros H. apply wp_bind. eapply wp_mono; [exact H| |done]. intros r d' Hr. by apply wp_ret. Qed.

Lemma cwp_inspect {A} (m : core_prog A) g c (Q : result fault A → Core → disk → Prop) C d :
  cwp m c (λ r c' d', Q r (match r with Ok _ => c' | Err _ => g c' end) d') C d → cwp (core_inspect_err m g) c Q C d.
Proof. intros H. apply wp_bind. eapply wp_mono; [exact H| |done]. intros [r c'] d' Hr. by apply wp_ret. Qed.

Lemma cwp_eq {A} (m m' : core_prog A) c c' (Q : result fault A → Core → disk → Prop) C d :
  m c = m' c' → cwp m' c' Q C d → cwp m c Q C d.
Proof. unfold cwp. by intros ->. Qed.

Lemma cwp_mono {A} (m : core_prog A) c (Q Q' : result fault A → Core → disk → Prop) (C C' : disk → Prop) d :
  cwp m c Q C d → (∀ r c' d', Q r c' d' → Q' r c' d') → (∀ d', C d' → C' d') → cwp m c Q' C' d.
Proof. intros H HQ HC. eapply wp_mono; [exact H| |exact HC]. intros [r c'] d'. apply HQ. Qed.

Lemma cwp_refuse_poisoned c (Q : result fault unit → Core → disk → Prop) (C : disk → Prop) d :
  (c_health c = Sound → Q (Ok tt) c d) → (c_health c = Poisoned → Q (Err storage_poisoned) c d) →
  cwp refuse_if_poisoned c Q C d.
Proof. intros H1 H2. unfold cwp, refuse_if_poisoned. destruct (c_health c); apply wp_ret; auto. Qed.

Section State.
Context (sha256 : list byte → list byte).
Context (sha256_length : ∀ x, length (sha256 x) = 32).
Abbreviation encode_state := (encode_state sha256).
Abbreviation log_of := (log_of sha256).
Abbreviation payload_ok := (payload_ok sha256).

(** ** A storage in step with its files *)

Record core_ok (c : Core) : Prop := {
  co_entries : Forall entry_ok (c_entries c);
  co_consecutive : consecutive (sm_index (c_snapshot_metadata c) + 1) (c_entries c);
  co_offsets : c_offsets c = record_offsets sha256 8 (c_entries c);
  co_size : (blen (log_of (c_entries c)) ≤ RAFT_LOG_BYTES)%N;
  co_image : image_ok (core_image 0 c);
  co_state_size : (blen (encode_state (core_image 0 c)) ≤ MAX_STATE_BYTES)%N
}.

Record stored (c : Core) (d : disk) : Prop := {
  st_core : core_ok c;
  st_state : ∃ fence, word fence ∧ exactly d STATE (encode_state (core_image fence c));
  st_log : exactly d LOG (log_of (c_entries c));
  st_payload : payload_ok d (c_snapshot_digest c) (c_snapshot_data c)
}.

Definition with_si_fence (f : N) (i : StateImage) : StateImage :=
  mkImage (si_hard_state i) (si_conf_state i) (si_snapshot i) (si_snapshot_digest i) f (si_applied i).

Lemma length_encode_fence f i : blen (encode_state (with_si_fence f i)) = blen (encode_state i).
Proof using sha256_length.
  clear -sha256_length. unfold RaftFormat.encode_state, blen. rewrite !length_app, !sha256_length. do 2 f_equal.
  unfold state_body. by rewrite !length_app, !length_le_bytes.
Qed.

Lemma image_ok_fence f i : word f → image_ok i → image_ok (with_si_fence f i).
Proof. intros Hf []. by constructor. Qed.

Lemma core_image_fence f c : core_image f c = with_si_fence f (core_image 0 c).
Proof. done. Qed.

Lemma core_image_ok f c : core_ok c → word f →
  image_ok (core_image f c) ∧ (blen (encode_state (core_image f c)) ≤ MAX_STATE_BYTES)%N.
Proof using sha256_length.
  intros Hc Hf. rewrite core_image_fence, length_encode_fence. split; [|apply Hc]. apply image_ok_fence; [done|apply Hc].
Qed.

(** What is in memory besides the files: a new cached fence, a poisoned storage. *)
Lemma stored_fence f c d : stored (with_fence f c) d ↔ stored c d.
Proof. split; intros [[] ? ? ?]; by (split; [constructor|..]). Qed.

Lemma read_state_wp i (Q : result fault StateImage → disk → Prop) (C : disk → Prop) d :
  content <$> file_at d STATE = Some (encode_state i) → image_ok i → (blen (encode_state i) ≤ MAX_STATE_BYTES)%N →
  Q (Ok i) d → Q (Err (os_error Other)) d → C d → wp (read_state sha256) Q C d.
Proof using sha256_length.
  intros Hf Hi Hs Hq He HC. unfold read_state. apply wp_try. eapply read_bounded_wp; [done|done| |done|done].
  rewrite (proj2 (decode_state_iff sha256 sha256_length _ i)) by done. by apply wp_ret.
Qed.

Lemma fenced_wp i c (Q : result fault N → Core → disk → Prop) (C : disk → Prop) d :
  content <$> file_at d STATE = Some (encode_state i) → image_ok i → (blen (encode_state i) ≤ MAX_STATE_BYTES)%N →
  ((si_fence i ≤ hs_term (c_hard_state c))%N → Q (Ok (hs_term (c_hard_state c))) (with_fence (hs_term (c_hard_state c)) c) d) →
  (∀ e, Q (Err e) c d) → C d → cwp (fenced_to sha256) c Q C d.
Proof using sha256_length.
  intros Hf Hi Hs Hok He HC. unfold cwp, fenced_to. apply wp_bind. eapply read_state_wp; [done..| |cbn; apply wp_ret, He|done].
  cbn beta iota. destruct (N.ltb_spec (hs_term (c_hard_state c)) (si_fence i)) as [Hlt|Hle].
  - apply wp_ret, He.
  - rewrite N.max_r by done. apply wp_ret. by apply Hok.
Qed.

(** ** Writing the state file *)

(** What an operation that failed leaves of the core. *)
Definition kept_core (c c' : Core) : Prop := ∃ f, c' = with_fence f c ∨ c' = poison (with_fence f c).

Lemma kept_core_same c : kept_core c c.
Proof. exists (c_fence c). left. by destruct c. Qed.

Lemma persist_wp i P c (Q : result fault unit → Core → disk → Prop) (C : disk → Prop) d :
  let t := hs_term (c_hard_state c) in
  let next := encode_state (core_image t c) in
  content <$> file_at d STATE = Some (encode_state i) → image_ok i → (blen (encode_state i) ≤ MAX_STATE_BYTES)%N →
  allows d STATE P →
  (∀ d', (si_fence i ≤ t)%N → untouched (scratch_of STATE) d d' → exactly d' STATE next →
     Q (Ok tt) (with_fence t c) d') →
  (∀ d' e c', kept_core c c' → untouched (scratch_of STATE) d d' → is_Some (file_at d' STATE) →
     allows d' STATE (λ x, P x ∨ x = Some next) → Q (Err e) c' d' ∧ C d') →
  cwp (persist_state sha256) c Q C d.
Proof using sha256_length.
  intros t next Hf Hi Hs Ha Hok Herr. unfold persist_state.
  assert (Hsame : ∀ e c', kept_core c c' → Q (Err e) c' d ∧ C d).
  { intros e c' Hc'. apply Herr; [done|apply untouched_refl| |apply (allows_mono _ _ _ _ Ha); by left].
    apply fmap_Some in Hf as (f & -> & _). by eexists. }
  apply cwp_bind, cwp_refuse_poisoned; [intros _|intros _; apply Hsame, kept_core_same].
  apply cwp_bind. eapply fenced_wp; [done..| |intros e; apply Hsame, kept_core_same|apply (Hsame Panicked c), kept_core_same].
  intros Hle. fold t. set (c1 := with_fence t c). assert (Hk : kept_core c c1) by (exists t; by left).
  apply cwp_bind, cwp_get. apply cwp_bind, cwp_io. change (RaftFormat.encode_state sha256 (core_image t c1)) with next.
  apply (atomic_write_wp _ _ P); [done| |].
  - intros d1 Hu Hf1 Ha1. apply cwp_inspect, cwp_io.
    assert (Hx : ∀ e c', kept_core c c' → Q (Err e) c' d1 ∧ C d1).
    { intros e c' Hc'. apply Herr; [done|done|by rewrite Hf1|done]. }
    apply wp_sync_parent; [|apply Hx|by apply (Hx Panicked c1)].
    + apply Hok; [done|eapply untouched_trans; [done|apply untouched_sync]|by apply sync_exactly].
    + exists t. by right.
  - intros d1 e Hu Hsome Ha1. apply Herr; [done|done| |done]. apply Hsome.
    apply fmap_Some in Hf as (f & -> & _). by eexists.
Qed.

(** ** What a restart finds *)

(** The entries a restart takes from the log under the state [i]: those above the
    snapshot, and none of a log from before an installation that was cut short. *)
Definition log_reads (i : StateImage) (b : list byte) (es : list Entry) : Prop :=
  ∃ old new tail, b = RAFT_LOG_MAGIC ++ records sha256 old ++ records sha256 new ++ tail ∧
    (blen b ≤ RAFT_LOG_BYTES)%N ∧ Forall entry_ok (old ++ new) ∧
    Forall (λ e, (e_index e ≤ sm_index (si_snapshot i))%N) old ∧
    consecutive (sm_index (si_snapshot i) + 1) new ∧ no_record sha256 tail ∧
    es = if bool_decide (si_applied i = SnapshotPending) && negb (bool_decide (old = [])) then [] else new.

(** The disk durably holds the state [i], the payload [data] it names, and a log
    that is read as entries in [R]. *)
Record recoverable (i : StateImage) (data : list byte) (R : list Entry → Prop) (d : disk) : Prop := {
  rv_state : exactly d STATE (encode_state i);
  rv_image : image_ok i ∧ (blen (encode_state i) ≤ MAX_STATE_BYTES)%N;
  rv_payload : payload_ok d (si_snapshot_digest i) data;
  rv_log : is_Some (file_at d LOG);
  rv_reads : allows d LOG (λ x, ∃ b es, x = Some b ∧ log_reads i b es ∧ R es)
}.

(** What any crash from here leaves can be recovered, to something in [S]. *)
Definition after_crash (d : disk) (S : StateImage → list byte → list Entry → Prop) : Prop :=
  ∀ d', crashes_to d d' → ∃ i data, recoverable i data (S i data) d'.

(** The state file describes this core. *)
Definition describes (i : StateImage) (c : Core) : Prop := i = core_image (si_fence i) c.

Lemma core_describes f c : describes (core_image f c) c.
Proof. done. Qed.

Lemma log_of_reads i es : Forall entry_ok es → consecutive (sm_index (si_snapshot i) + 1) es →
  (blen (log_of es) ≤ RAFT_LOG_BYTES)%N → log_reads i (log_of es) es.
Proof.
  intros Hok Hc Hs. exists [], es, []. split_and!; try done; [|by left|by rewrite andb_false_r].
  unfold RaftDisk.log_of. by rewrite app_nil_r.
Qed.

(** The log as it is, under a state whose snapshot is the one in memory. *)
Lemma settled_reads c i R : core_ok c → si_snapshot i = c_snapshot_metadata c → R (c_entries c) →
  ∃ b es, Some (log_of (c_entries c)) = Some b ∧ log_reads i b es ∧ R es.
Proof.
  intros [] Hs HR. exists (log_of (c_entries c)), (c_entries c). split_and!; [done| |done].
  apply log_of_reads; [done|by rewrite Hs|done].
Qed.

Lemma crash_is_file d d' n : crashes_to d d' → allows d n (λ x, is_Some x) → is_Some (file_at d' n).
Proof.
  intros Hc Ha. destruct (crash_settles d d' n Hc) as [Hp _]. apply Ha in Hp.
  destruct (file_at d' n); [by eexists|]. by destruct Hp.
Qed.

(** ** Recording hard state, commit, applied events and configuration *)

Inductive state_change :=
| SetHardState (h : HardState)
| SetCommit (commit : N)
| SetApplied (count : N)
| SetConfState (s : ConfState).

Definition change_core (x : state_change) (c : Core) : Core :=
  match x with
  | SetHardState h => with_hard_state h c
  | SetCommit commit => with_hard_state (set_hard_commit commit (c_hard_state c)) c
  | SetApplied count => with_applied (Counted count) c
  | SetConfState s => with_conf_state s c
  end.
Definition run_change (x : state_change) : core_prog unit :=
  match x with
  | SetHardState h => set_hard_state sha256 h
  | SetCommit commit => set_commit sha256 commit
  | SetApplied count => set_applied_events sha256 count
  | SetConfState s => set_conf_state sha256 s
  end.
Definition undo_change (x : state_change) (c c' : Core) : Core :=
  match x with
  | SetHardState _ => with_hard_state (c_hard_state c) c'
  | SetCommit _ => with_hard_state (set_hard_commit (hs_commit (c_hard_state c)) (c_hard_state c')) c'
  | SetApplied _ => with_applied (c_applied c) c'
  | SetConfState _ => with_conf_state (c_conf_state c) c'
  end.

Lemma run_change_eq x c : run_change x c = core_inspect_err (persist_state sha256) (undo_change x c) (change_core x c).
Proof. by destruct x. Qed.

Lemma undo_kept x c c' : kept_core (change_core x c) c' → kept_core c (undo_change x c c').
Proof. intros (f & [->| ->]); exists f; [left|right]; destruct c as [[] ? ? ? ? ? ? ? ? ? ?], x; done. Qed.

(** The new value can be written to the state file. *)
Definition change_fits (x : state_change) (c : Core) : Prop :=
  image_ok (core_image 0 (change_core x c)) ∧ (blen (encode_state (core_image 0 (change_core x c))) ≤ MAX_STATE_BYTES)%N.

Lemma change_core_ok x c : core_ok c → change_fits x c → core_ok (change_core x c).
Proof. intros [] []. destruct x; by constructor. Qed.

Definition old_or_new (x : state_change) (c : Core) (i : StateImage) (data : list byte) (es : list Entry) : Prop :=
  (describes i c ∨ describes i (change_core x c)) ∧ data = c_snapshot_data c ∧ es = c_entries c.

Lemma state_scratch_payload digest : ¬ scratch_of STATE (payload_name digest).
Proof. intros [H|H]; by apply payload_ne_fixed in H; [|unfold fixed_name; auto]. Qed.

Lemma state_scratch_log : ¬ scratch_of STATE LOG.
Proof. by intros [?|?]. Qed.

(** The state file names one of two images, all else is as it was. *)
Lemma torn_state_recoverable d d' c f i2 (S : StateImage → list byte → list Entry → Prop) :
  stored c d → word f → untouched (scratch_of STATE) d d' →
  allows d' STATE (λ y, y = Some (encode_state (core_image f c)) ∨ y = Some (encode_state i2)) →
  image_ok i2 → (blen (encode_state i2) ≤ MAX_STATE_BYTES)%N →
  si_snapshot i2 = c_snapshot_metadata c → si_snapshot_digest i2 = c_snapshot_digest c →
  S (core_image f c) (c_snapshot_data c) (c_entries c) → S i2 (c_snapshot_data c) (c_entries c) →
  after_crash d' S.
Proof using sha256_length.
  intros [Hc _ Hl Hp] Hf Hu Ha Hi2 Hs2 Hm Hg HS HS2 d'' Hcr.
  apply (untouched_exactly _ _ _ _ _ Hu state_scratch_log) in Hl.
  apply (payload_untouched _ _ _ _ _ _ Hu (state_scratch_payload _)) in Hp.
  destruct (crash_exactly d' d'' STATE (λ b, b = encode_state (core_image f c) ∨ b = encode_state i2) Hcr) as (b & Hb & He).
  { apply (allows_mono _ _ _ _ Ha). intros y [->| ->]; eauto. }
  assert (∃ i, b = encode_state i ∧ image_ok i ∧ (blen (encode_state i) ≤ MAX_STATE_BYTES)%N ∧
    si_snapshot i = c_snapshot_metadata c ∧ si_snapshot_digest i = c_snapshot_digest c ∧
    S i (c_snapshot_data c) (c_entries c)) as (i & -> & Hi & Hs & Hmi & Hgi & HSi).
  { destruct Hb as [->| ->]; [|by exists i2]. exists (core_image f c). destruct (core_image_ok f c Hc Hf). done. }
  exists i, (c_snapshot_data c). split; [done|done| | |].
  - rewrite Hgi. by eapply payload_crash.
  - apply (crash_is_file d'); [done|]. by eapply exactly_allows.
  - eapply crash_allows; [done|]. eapply exactly_allows; [done|]. by apply settled_reads.
Qed.

Lemma change_wp x c d : stored c d → change_fits x c →
  cwp (run_change x) c (λ r c' d',
    match r with
    | Ok _ => (∃ f, c' = with_fence f (change_core x c)) ∧ stored c' d'
    | Err _ => kept_core c c' ∧ after_crash d' (old_or_new x c)
    end) (λ d', after_crash d' (old_or_new x c)) d.
Proof using sha256_length.
  intros Hst [Hf1 Hf2]. eapply cwp_eq; [apply run_change_eq|]. apply cwp_inspect.
  pose proof Hst as [Hc (f & Hf & Hs) Hl Hp]. destruct (core_image_ok f c Hc Hf) as [Hi1 Hi2].
  assert (Hc' : core_ok (change_core x c)) by (by apply change_core_ok).
  set (c1 := change_core x c) in *. set (t := hs_term (c_hard_state c1)).
  assert (Ht : word t) by apply Hf1. destruct (core_image_ok t c1 Hc' Ht) as [Hn1 Hn2].
  eapply (persist_wp _ (λ y, y = Some (encode_state (core_image f c)))); [by rewrite (exactly_file _ _ _ Hs)|done|done| | |].
  - by eapply exactly_allows.
  - intros d' _ Hu He. fold t. split; [by exists t|]. apply stored_fence. split; [done|by exists t| |].
    + replace (c_entries c1) with (c_entries c) by (by destruct x). by eapply untouched_exactly; [|apply state_scratch_log|].
    + replace (c_snapshot_digest c1) with (c_snapshot_digest c) by (by destruct x).
      replace (c_snapshot_data c1) with (c_snapshot_data c) by (by destruct x).
      by eapply payload_untouched; [|apply state_scratch_payload|].
  - intros d' e c' Hk Hu _ Ha. assert (after_crash d' (old_or_new x c)).
    { apply (torn_state_recoverable d d' c f (core_image t c1)); try done; [by unfold c1; destruct x..| |];
        (split; [|done]); [by left|by right]. }
    split; [|done]. split; [by apply undo_kept|done].
Qed.

(** ** Crashes *)

Lemma exactly_crash d d' n x : exactly d n x → crashes_to d d' → exactly d' n x.
Proof.
  intros He Hc. destruct (crash_exactly d d' n (eq x) Hc) as (b & <- & Hb); [|done]. eapply exactly_allows; eauto.
Qed.

Lemma recoverable_crash i data R d d' : recoverable i data R d → crashes_to d d' → recoverable i data R d'.
Proof.
  intros [] Hc. split; [by eapply exactly_crash|done|by eapply payload_crash| |by eapply crash_allows].
  apply (crash_is_file d); [done|]. apply (allows_mono _ _ _ _ rv_reads0). intros x (b & es & -> & _). by eexists.
Qed.

Lemma recoverable_after_crash i data R (S : StateImage → list byte → list Entry → Prop) d :
  recoverable i data R d → (∀ es, R es → S i data es) → after_crash d S.
Proof.
  intros Hr HS d' Hc. exists i, data. apply (recoverable_crash _ _ _ _ _ Hr) in Hc as []. split; try done.
  apply (allows_mono _ _ _ _ rv_reads0). intros x (b & es & -> & Hb & HR). exists b, es. auto.
Qed.

Lemma stored_recoverable c d : stored c d → ∃ f, recoverable (core_image f c) (c_snapshot_data c) (eq (c_entries c)) d.
Proof using sha256_length.
  intros [Hc (f & Hf & Hs) Hl Hp]. exists f. destruct (core_image_ok f c Hc Hf).
  split; [done|done|done|by rewrite (exactly_file _ _ _ Hl)|]. eapply exactly_allows; [done|]. by apply settled_reads.
Qed.

Lemma stored_after_crash c d (S : StateImage → list byte → list Entry → Prop) :
  stored c d → (∀ f, S (core_image f c) (c_snapshot_data c) (c_entries c)) → after_crash d S.
Proof using sha256_length.
  intros Hs HS. apply stored_recoverable in Hs as (f & Hr). eapply recoverable_after_crash; [done|]. by intros es <-.
Qed.
End State.

(** * Opening the storage of a Raft node after a crash

    Whatever fails while it is opened, nothing is lost: the disk can still be
    recovered to the same state, and a storage that is opened serves it. *)

Section Open.
Context (sha256 : list byte → list byte).
Context (sha256_length : ∀ x, length (sha256 x) = 32).
Abbreviation encode_state := (encode_state sha256).
Abbreviation log_of := (log_of sha256).
Abbreviation records := (records sha256).
Abbreviation recoverable := (recoverable sha256).
Abbreviation log_reads := (log_reads sha256).
Abbreviation stored := (stored sha256).

(** ** Reading the log *)

(** A log is read in one way. *)
Lemma parse_log_reads old new tail s commit st :
  let b := RAFT_LOG_MAGIC ++ records old ++ records new ++ tail in
  Forall entry_ok (old ++ new) → Forall (λ e, (e_index e ≤ s)%N) old → consecutive (s + 1) new → no_record sha256 tail →
  parse_log sha256 b s commit = Ok st →
  st = mkRead new (record_offsets sha256 (8 + blen (records old)) new) (negb (bool_decide (old = [])))
         (torn_at (8 + blen (records old) + blen (records new)) tail).
Proof using sha256_length.
  intros b Hok Hs Hc Ht H. apply parse_log_iff in H as (old' & tail' & Hb & Hlen & Hok' & Hs' & Hc' & _ & Ht' & _ & E1 & E2 & E3); [|done].
  assert (Hf : length (drop 8 b) ≤ length b) by (rewrite length_drop; lia).
  pose proof (read_records_iff sha256 sha256_length (length b) s (drop 8 b) 8 st Hf) as [_ R1].
  pose proof (read_records_iff sha256 sha256_length (length b) s (drop 8 b) 8
    (mkRead new (record_offsets sha256 (8 + blen (records old)) new) (negb (bool_decide (old = [])))
       (torn_at (8 + blen (records old) + blen (records new)) tail)) Hf) as [_ R2].
  rewrite R1 in R2; [|exists old', tail'; unfold b in Hb |- *; rewrite Hb; done].
  assert (Ok (E := fault) st = Ok (mkRead new (record_offsets sha256 (8 + blen (records old)) new) (negb (bool_decide (old = [])))
       (torn_at (8 + blen (records old) + blen (records new)) tail))) as Heq.
  { apply R2. exists old, tail. done. }
  by injection Heq.
Qed.

Lemma exactly_sync d n b : exactly d n b → exactly (update n sync_file d) n b.
Proof.
  unfold exactly. intros H. rewrite entry_at_update, bool_decide_true by done.
  rewrite (exactly_file _ _ _ H), H. done.
Qed.

(** Cutting a durable log. *)
Lemma truncate_log_wp {A} b k (m : prog (result fault A)) (Q : result fault A → disk → Prop) (C : disk → Prop) d :
  exactly d LOG b →
  (∀ d', untouched (eq LOG) d d' → exactly d' LOG (take (N.to_nat k) b) → wp m Q C d') →
  (∀ d' e, untouched (eq LOG) d d' → is_Some (file_at d' LOG) →
     allows d' LOG (λ x, x = Some b ∨ x = Some (take (N.to_nat k) b)) → Q (Err e) d' ∧ C d') →
  wp (try* _ := set_len LOG k in try* _ := sync LOG in m) Q C d.
Proof.
  intros He Hok Herr. assert (Hsame : ∀ e, Q (Err e) d ∧ C d).
  { intros e. apply Herr; [apply untouched_refl|by rewrite (exactly_file _ _ _ He)|]. eapply exactly_allows; [done|by left]. }
  set (d1 := update LOG (change_file (Truncate (N.to_nat k))) d).
  assert (Hu : untouched (eq LOG) d d1) by (by apply untouched_update).
  assert (E1 : entry_at d1 LOG = {| en_file := Some (change_file (Truncate (N.to_nat k)) (durable_file b)); en_reverts := [] |}).
  { unfold d1. rewrite entry_at_update, bool_decide_true by done. by rewrite (exactly_file _ _ _ He), He. }
  assert (F1 : file_at d1 LOG = Some (change_file (Truncate (N.to_nat k)) (durable_file b))) by (unfold file_at; by rewrite E1).
  assert (Hcut : ∀ e, Q (Err e) d1 ∧ C d1).
  { intros e. apply Herr; [done|by rewrite F1|]. intros x (g & Hg & Hx). rewrite E1 in Hg.
    apply list_elem_of_singleton in Hg as ->. destruct x; [|done]. apply truncated_survives in Hx as [->| ->]; auto. }
  apply wp_try, wp_atomic; [|intros d' [->| ->]; [apply Hsame|apply Hcut]].
  apply wp_try, wp_syscall; cbn beta iota; [|intros n; apply Hcut]. apply Hok.
  - eapply untouched_trans; [exact Hu|]. by apply untouched_update.
  - unfold exactly. rewrite entry_at_update, bool_decide_true by done. fold d1. rewrite F1, E1. done.
Qed.

Lemma read_log_wp old new tail s commit (Q : result fault LogImage → disk → Prop) (C : disk → Prop) d :
  let b := RAFT_LOG_MAGIC ++ records old ++ records new ++ tail in
  let whole := RAFT_LOG_MAGIC ++ records old ++ records new in
  exactly d LOG b → (blen b ≤ RAFT_LOG_BYTES)%N →
  Forall entry_ok (old ++ new) → Forall (λ e, (e_index e ≤ s)%N) old → consecutive (s + 1) new → no_record sha256 tail →
  (∀ d' trimmed, untouched (eq LOG) d d' → exactly d' LOG whole →
     Q (Ok (mkLogImage new (record_offsets sha256 (8 + blen (records old)) new) (negb (bool_decide (old = []))) trimmed)) d') →
  (∀ d' e, untouched (eq LOG) d d' → is_Some (file_at d' LOG) → allows d' LOG (λ x, x = Some b ∨ x = Some whole) →
     Q (Err e) d' ∧ C d') →
  wp (read_log sha256 s commit) Q C d.
Proof using sha256_length.
  intros b whole He Hlen Hok Hs Hc Ht Hq Herr. assert (Hsame : ∀ e, Q (Err e) d ∧ C d).
  { intros e. apply Herr; [apply untouched_refl|by rewrite (exactly_file _ _ _ He)|]. eapply exactly_allows; [done|by left]. }
  pose proof (exactly_file _ _ _ He) as Hf. unfold read_log.
  apply wp_try, wp_seek; [|apply Hsame|apply (Hsame Panicked)].
  apply wp_try. eapply wp_length; [done| |apply Hsame|apply (Hsame Panicked)]. change (content (durable_file b)) with b.
  rewrite (proj2 (N.ltb_ge _ _)) by done. apply wp_try. eapply wp_read; [done| |apply Hsame|apply (Hsame Panicked)].
  change (content (durable_file b)) with b. rewrite limited_all by lia.
  destruct (parse_log sha256 b s commit) as [st|e] eqn:Ep; [|apply wp_try, wp_ret, Hsame].
  apply parse_log_reads in Ep as ->; [|done..]. apply wp_lift_ok. cbn [rs_torn rs_entries rs_offsets rs_skipped].
  assert (Hw : tail = [] → b = whole) by (intros ->; unfold b, whole; by rewrite app_nil_r).
  destruct tail as [|x tail]; cbn [torn_at]; [apply wp_ret, Hq; [apply untouched_refl|by rewrite <- Hw]|].
  set (cut := (8 + blen (records old) + blen (records new))%N).
  assert (Hcut : take (N.to_nat cut) b = whole).
  { replace (N.to_nat cut) with (length whole).
    - unfold b. rewrite !app_assoc. unfold whole. rewrite app_assoc. by rewrite take_app_length.
    - unfold whole, cut, blen. rewrite !length_app. change (length RAFT_LOG_MAGIC) with 8. lia. }
  rewrite <- Hcut in Herr, Hq.
  eapply truncate_log_wp; [done| |].
  - intros d' Hu He'. by apply wp_ret, Hq.
  - intros d' e Hu Hl Ha. by apply Herr.
Qed.

(** ** Opening *)

Lemma recoverable_untouched N i data R d d' : untouched N d d' → ¬ N STATE → ¬ N LOG → ¬ N (payload_name (si_snapshot_digest i)) →
  recoverable i data R d → recoverable i data R d'.
Proof.
  intros Hu H1 H2 H3 []. split; [by eapply untouched_exactly|done|by eapply payload_untouched| |by eapply untouched_allows].
  by rewrite (untouched_file _ _ _ _ Hu H2).
Qed.

(** Only the log changes, to something that is read as before. *)
Lemma recoverable_log N i data R d d' : recoverable i data R d → untouched N d d' → ¬ N STATE → ¬ N (payload_name (si_snapshot_digest i)) →
  is_Some (file_at d' LOG) → allows d' LOG (λ x, ∃ b es, x = Some b ∧ log_reads i b es ∧ R es) → recoverable i data R d'.
Proof. intros [] Hu H1 H2 Hl Ha. split; [by eapply untouched_exactly|done|by eapply payload_untouched|done|done]. Qed.

(** The core a restart comes up with. *)
Record restarted (i : StateImage) (data : list byte) (es : list Entry) (c : Core) : Prop := {
  ra_describes : describes i c;
  ra_data : c_snapshot_data c = data;
  ra_entries : c_entries c = es;
  ra_sound : c_health c = Sound
}.

Definition opened (i : StateImage) (data : list byte) (es : list Entry) (r : result fault Core) (d : disk) : Prop :=
  recoverable i data (eq es) d ∧ ∀ c, r = Ok c → restarted i data es c ∧ stored c d.

Lemma log_reads_old i old new : Forall entry_ok (old ++ new) → Forall (λ e, (e_index e ≤ sm_index (si_snapshot i))%N) old →
  consecutive (sm_index (si_snapshot i) + 1) new → (blen (RAFT_LOG_MAGIC ++ records old ++ records new) ≤ RAFT_LOG_BYTES)%N →
  log_reads i (RAFT_LOG_MAGIC ++ records old ++ records new)
    (if bool_decide (si_applied i = SnapshotPending) && negb (bool_decide (old = [])) then [] else new).
Proof. intros. exists old, new, []. split_and!; try done; [by rewrite app_nil_r|by left]. Qed.

Lemma opened_core i data es trimmed d : recoverable i data (eq es) d → exactly d LOG (log_of es) →
  Forall entry_ok es → consecutive (sm_index (si_snapshot i) + 1) es → (blen (log_of es) ≤ RAFT_LOG_BYTES)%N →
  opened i data es (Ok (mkCore (si_hard_state i) (si_conf_state i) (si_snapshot i) (si_snapshot_digest i)
    data es (record_offsets sha256 8 es) (si_applied i) trimmed (si_fence i) Sound)) d.
Proof using sha256_length.
  intros Hr Hl Hok Hc Hs. split; [done|]. intros c [= <-]. destruct Hr as [Hst [Hi1 Hi2] Hp _ _].
  assert (Hd : i = core_image (si_fence i) (mkCore (si_hard_state i) (si_conf_state i) (si_snapshot i) (si_snapshot_digest i)
    data es (record_offsets sha256 8 es) (si_applied i) trimmed (si_fence i) Sound)) by (by destruct i).
  split; [by split|]. split; cbn [c_entries c_snapshot_digest c_snapshot_data]; [|exists (si_fence i); rewrite <- Hd; split; [apply Hi1|done]|done|done].
  split; cbn [c_entries c_snapshot_metadata c_offsets]; [exact Hok|exact Hc|reflexivity|exact Hs| |].
  - rewrite Hd in Hi1. apply (image_ok_fence 0) in Hi1; [done|by unfold word].
  - rewrite Hd, core_image_fence in Hi2. by rewrite length_encode_fence in Hi2.
Qed.

Lemma log_ne_payload digest : ¬ (eq LOG) (payload_name digest).
Proof. intros H. symmetry in H. by apply payload_ne_fixed in H; [|unfold fixed_name; auto]. Qed.
Lemma logs_ne_payload digest : ¬ log_names (payload_name digest).
Proof. intros [H|H]; apply payload_ne_fixed in H; unfold fixed_name; auto. Qed.

(** The end of the opening: what is left of the log is brought into shape. *)
Lemma settle_log_wp i data old new trimmed d :
  let pending := bool_decide (si_applied i = SnapshotPending) in
  let skipped := negb (bool_decide (old = [])) in
  let es := if pending && skipped then [] else new in
  recoverable i data (eq es) d → exactly d LOG (RAFT_LOG_MAGIC ++ records old ++ records new) →
  (blen (RAFT_LOG_MAGIC ++ records old ++ records new) ≤ RAFT_LOG_BYTES)%N →
  Forall entry_ok (old ++ new) → consecutive (sm_index (si_snapshot i) + 1) new →
  wp (try* (entries, offsets) :=
        (if pending && skipped then
           try* kept := rewrite_log sha256 [] in plift (Ok ([], kept))
         else if skipped then
           try* kept := rewrite_log sha256 new in plift (Ok (new, kept))
         else plift (Ok (new, record_offsets sha256 (8 + blen (records old)) new))) in
      plift (Ok (mkCore (si_hard_state i) (si_conf_state i) (si_snapshot i) (si_snapshot_digest i)
               data entries offsets (si_applied i) trimmed (si_fence i) Sound)))
    (opened i data es) (recoverable i data (eq es)) d.
Proof using sha256_length.
  intros pending skipped es Hr Hl Hsize Hok Hc. apply Forall_app in Hok as [_ Hok].
  assert (Forall entry_ok es ∧ consecutive (sm_index (si_snapshot i) + 1) es ∧ (blen (log_of es) ≤ RAFT_LOG_BYTES)%N) as (E1 & E2 & E3).
  { unfold es. destruct (pending && skipped); split_and!; try done.
    eapply N.le_trans; [|exact Hsize]. unfold RaftDisk.log_of, blen. rewrite !length_app. lia. }
  assert (Hrw : wp (rewrite_log sha256 es) (λ r d', match r with
      | Ok offsets => offsets = record_offsets sha256 8 es ∧ recoverable i data (eq es) d' ∧ exactly d' LOG (log_of es)
      | Err _ => recoverable i data (eq es) d' end) (recoverable i data (eq es)) d).
  { eapply rewrite_log_wp; [by rewrite (exactly_file _ _ _ Hl)|apply (rv_reads _ _ _ _ _ Hr)| |].
    - intros d' Hu He. split; [done|]. split; [|done].
      eapply recoverable_log; [done|done|by intros [?|?]|apply logs_ne_payload|by rewrite (exactly_file _ _ _ He)|].
      eapply exactly_allows; [done|]. exists (log_of es), es. split_and!; [done|by apply log_of_reads|done].
    - intros d' e Hu His Ha. assert (recoverable i data (eq es) d'); [|done].
      eapply recoverable_log; [done|done|by intros [?|?]|apply logs_ne_payload|done|].
      apply (allows_mono _ _ _ _ Ha). intros x [Hx| ->]; [done|]. exists (log_of es), es. split_and!; [done|by apply log_of_reads|done]. }
  apply wp_try. unfold es in *. destruct (pending && skipped) eqn:Eps; [|destruct skipped eqn:Esk].
  1,2: apply wp_try; eapply wp_mono; [exact Hrw| |done]; intros [offsets|e] d' Hd'; [|by split];
    destruct Hd' as (-> & Hr' & Hl'); apply wp_ret; apply wp_ret; by apply opened_core.
  apply wp_ret. apply wp_ret. apply negb_false_iff, bool_decide_eq_true in Esk as ->.
  change (8 + blen (records []))%N with 8%N. by apply opened_core.
Qed.

Lemma open_existing_wp i data es b d : recoverable i data (eq es) d → exactly d LOG b →
  wp (open_existing sha256) (opened i data es) (recoverable i data (eq es)) d.
Proof using sha256_length.
  intros Hr Hl. pose proof Hr as [Hst [Hi1 Hi2] Hp _ Ha].
  assert (Herr : ∀ d' e, recoverable i data (eq es) d' → opened i data es (Err e) d') by (by split).
  unfold open_existing. apply wp_try.
  eapply read_state_wp; [done|by rewrite (exactly_file _ _ _ Hst)|done|done| |by apply Herr|done].
  apply wp_try. eapply load_payload_wp; [done| |by intros; apply Herr|done].
  apply wp_bind, remove_other_payloads_wp. intros d1 Hu.
  assert (Hne : ∀ n, fixed_name n → ¬ other_payload (si_snapshot_digest i) n).
  { intros n Hn [Hx _]. by rewrite fixed_not_payload in Hx. }
  assert (Hr1 : recoverable i data (eq es) d1).
  { eapply recoverable_untouched; [exact Hu|apply Hne; unfold fixed_name; tauto..|by intros [_ ?]|done]. }
  split; [|done]. apply (untouched_exactly _ _ _ _ _ Hu) in Hl; [|apply Hne; unfold fixed_name; tauto].
  clear Hu d Hr Hst Hp Ha. rename d1 into d, Hr1 into Hr. apply wp_try. unfold sync.
  apply wp_syscall; cbn beta iota; [|intros n; split; [by apply Herr|done]].
  destruct (rv_reads _ _ _ _ _ Hr (Some b)) as (b' & es' & [= <-] & (old & new & tail & Hb & Hsize & Hok & Ho & Hc & Ht & Hes) & <-).
  { by apply (exactly_possible _ _ _ _ Hl). }
  set (d1 := update LOG sync_file d). assert (Hu1 : untouched (eq LOG) d d1) by (by apply untouched_update).
  assert (Hl1 : exactly d1 LOG b) by (by apply exactly_sync). subst b.
  set (whole := RAFT_LOG_MAGIC ++ records old ++ records new).
  assert (Hws : (blen whole ≤ RAFT_LOG_BYTES)%N).
  { eapply N.le_trans; [|exact Hsize]. unfold whole, blen. rewrite !length_app. lia. }
  assert (Hwr : log_reads i whole es) by (rewrite Hes; by apply log_reads_old).
  assert (Hkeep : ∀ d', untouched (eq LOG) d1 d' → is_Some (file_at d' LOG) →
    allows d' LOG (λ x, x = Some (RAFT_LOG_MAGIC ++ records old ++ records new ++ tail) ∨ x = Some whole) →
    recoverable i data (eq es) d').
  { intros d' Hu' His Ha'. eapply recoverable_log; [exact Hr|by eapply untouched_trans|done|apply log_ne_payload|done|].
    apply (allows_mono _ _ _ _ Ha'). intros x [->| ->]; [|by exists whole, es].
    eexists _, es. split; [reflexivity|]. split; [|reflexivity]. exists old, new, tail.
    exact (conj eq_refl (conj Hsize (conj Hok (conj Ho (conj Hc (conj Ht Hes)))))). }
  apply wp_try. apply (read_log_wp old new tail); [exact Hl1|exact Hsize|exact Hok|exact Ho|exact Hc|exact Ht| |].
  - intros d2 trimmed Hu2 Hl2. cbn [li_entries li_offsets li_skipped li_trimmed]. subst es.
    apply settle_log_wp; [|exact Hl2|exact Hws|exact Hok|exact Hc]. apply Hkeep; [done|by rewrite (exactly_file _ _ _ Hl2)|].
    eapply exactly_allows; [done|by right].
  - intros d2 e Hu2 His Ha2. assert (recoverable i data (eq es) d2) by (by apply Hkeep). split; [by apply Herr|done].
Qed.

Lemma remove_leftover_wp path (Q : unit → disk → Prop) (C : disk → Prop) d :
  (∀ d', untouched (eq path) d d' → Q tt d' ∧ C d') → wp (remove_leftover path) Q C d.
Proof.
  intros H. unfold remove_leftover. assert (Hd : ∀ d', d' = d ∨ d' = rebind path None d → Q tt d' ∧ C d').
  { intros d' [->| ->]; apply H; [apply untouched_refl|by apply untouched_rebind]. }
  apply wp_bind, wp_atomic; [apply wp_ret, Hd; by right|]. intros d' Hd'. apply Hd in Hd' as []. split; [by apply wp_ret|done].
Qed.

(** Opening what a crash left. *)
Lemma open_wp voters learners i data es b d : recoverable i data (eq es) d → exactly d LOG b →
  wp (raft_open sha256 voters learners) (opened i data es) (recoverable i data (eq es)) d.
Proof using sha256_length.
  intros Hr Hl. unfold raft_open. apply wp_try, wp_query; [|by split|done].
  apply wp_bind, remove_leftover_wp. intros d1 H1.
  assert (Hp : ∀ n, fixed_name n → ∀ digest, ¬ n = payload_name digest) by (intros n Hn digest E; symmetry in E; by apply payload_ne_fixed in E).
  apply (recoverable_untouched _ _ _ _ _ _ H1) in Hr; [|done|done|apply Hp; unfold fixed_name; tauto].
  apply (untouched_exactly _ _ _ _ _ H1) in Hl; [|done]. split; [|done]. clear d H1. rename d1 into d.
  apply wp_bind, remove_leftover_wp. intros d1 H1.
  apply (recoverable_untouched _ _ _ _ _ _ H1) in Hr; [|done|done|apply Hp; unfold fixed_name; tauto].
  apply (untouched_exactly _ _ _ _ _ H1) in Hl; [|done]. split; [|done]. clear d H1. rename d1 into d.
  apply wp_bind, wp_exists. rewrite bool_decide_true; [|rewrite (exactly_file _ _ _ (rv_state _ _ _ _ _ Hr)); by eexists].
  apply wp_try, wp_atomic; rewrite (exactly_file _ _ _ Hl); [by eapply open_existing_wp|].
  intros d' [->| ->]; by split.
Qed.
End Open.
