(* ===== verification/RaftAppend.v ===== *)
(** * Appending to the log of a Raft node, whatever fails

    An append writes over the end of the log it keeps.  A crash finds the old log, or
    the entries kept with a prefix of the new ones. *)

From S2P Require Import Prelude Bytes Text Types LedgerEvents LedgerChecks LedgerCodec Integrity.
From S2P Require Import Storage Anchor FileLedger Compaction.
From S2P Require Import RaftFormat RaftFormatFacts RaftStorage RaftDisk RaftState.
From Stdlib Require Import Lia.
From stdpp Require Import options.

(** A file cut short and then extended. *)
Lemma replaced_survives base n data x :
  survives (change_file (Append data) (change_file (Truncate n) (durable_file base))) x →
  x = base ∨ ∃ k, x = take n base ++ take k data ∨ (x = take n base ++ replicate k x00 ∧ k ≤ length data).
Proof.
  intros H. destruct H as [pre rest H|pre b rest k H|pre m b rest k H|pre run rest k H Hpre Hlen Hrun];
    cbn [f_pending f_synced change_file durable_file app] in *.
  - destruct pre as [|y [|z pre]]; cbn [app] in H; [by left|..]; right.
    + injection H as <- _. exists 0. left. cbn. by rewrite app_nil_r.
    + injection H as <- <- H. symmetry in H. apply app_eq_nil in H as [-> _]. exists (length data). left. cbn.
      by rewrite firstn_all.
  - destruct pre as [|y [|z pre]]; cbn [app] in H; simplify_eq; [|by destruct pre].
    right. exists k. by left.
  - destruct pre as [|y [|z pre]]; cbn [app] in H; simplify_eq; by destruct pre.
  - destruct Hpre as [->|(p & m & ->)].
    + destruct run as [|y run]; [|injection H as <- _; apply Forall_cons in Hrun as [[? ?] _]; done].
      cbn in Hlen. assert (k = 0) as -> by lia. left. apply app_nil_r.
    + right. destruct p as [|y p].
      * cbn [app] in H. injection H as <- H. exists k. right. split; [done|]. rewrite foldl_app in Hlen. cbn [foldl apply_change] in Hlen.
        destruct run as [|z run]; [cbn in Hlen; lia|]. injection H as <- H. symmetry in H. apply app_eq_nil in H as [-> _].
        cbn in Hlen. rewrite length_app in Hlen. lia.
      * cbn [app] in H. injection H as <- H. destruct p as [|z p]; [done|]. injection H as _ H. by destruct p.
Qed.

Section Append.
Context (sha256 : list byte → list byte).
Context (sha256_length : ∀ x, length (sha256 x) = 32).
Abbreviation records := (records sha256).
Abbreviation log_of := (log_of sha256).
Abbreviation record_offsets := (record_offsets sha256).
Abbreviation core_ok := (core_ok sha256).
Abbreviation stored := (stored sha256).
Abbreviation log_reads := (log_reads sha256).
Abbreviation after_crash := (after_crash sha256).

(** ** Offsets *)

Lemma record_offsets_app p es fs : record_offsets p (es ++ fs) = record_offsets p es ++ record_offsets (p + blen (records es)) fs.
Proof.
  revert p. induction es as [|e es IH]; intros p; cbn [app RaftFormat.record_offsets].
  - change (blen (records [])) with 0%N. by rewrite N.add_0_r.
  - rewrite IH. rewrite records_cons. unfold blen. rewrite length_app, Nat2N.inj_add, N.add_assoc. done.
Qed.

Lemma length_record_offsets p es : length (record_offsets p es) = length es.
Proof. revert p. induction es as [|e es IH]; intros p; cbn; [done|]. by rewrite IH. Qed.

Lemma record_offsets_lookup p es k : k < length es → record_offsets p es !! k = Some (p + blen (records (take k es)))%N.
Proof.
  intros Hk. rewrite <- (take_drop k es) at 1. rewrite record_offsets_app.
  rewrite lookup_app_r by (rewrite length_record_offsets, length_take; lia).
  rewrite length_record_offsets, length_take, Nat.min_l, Nat.sub_diag by lia.
  destruct (drop k es) as [|e fs] eqn:E; [|done]. apply (f_equal length) in E. rewrite length_drop in E. cbn in E. lia.
Qed.

Lemma record_offsets_take p es k : take k (record_offsets p es) = record_offsets p (take k es).
Proof.
  rewrite <- (take_drop k es) at 1. rewrite record_offsets_app. destruct (decide (k ≤ length es)).
  - rewrite take_app_le by (rewrite length_record_offsets, length_take; lia).
    apply take_ge. rewrite length_record_offsets, length_take. lia.
  - rewrite (drop_ge es) by lia. cbn. rewrite app_nil_r. apply take_ge. rewrite length_record_offsets, length_take. lia.
Qed.

(** ** A torn append *)

Lemma torn_records k es : Forall entry_ok es →
  ∃ n tail, take k (records es) = records (take n es) ++ tail ∧ no_record sha256 tail.
Proof using sha256_length.
  intros Hok. revert k. induction Hok as [|e es He _ IH]; intros k.
  - exists 0, []. cbn. rewrite take_nil. split; [done|by left].
  - rewrite records_cons. destruct (decide (k < length (raft_encode_record sha256 e))) as [Hk|Hk].
    + rewrite take_app_le by lia. exists 0, (take k (raft_encode_record sha256 e)). split; [done|]. right. by apply parse_prefix.
    + destruct (IH (k - length (raft_encode_record sha256 e))) as (n & tail & E & Ht). exists (S n), tail. split; [|done].
      rewrite take_app, take_ge by lia. rewrite E. cbn [take]. rewrite records_cons. by rewrite app_assoc.
Qed.

Lemma zeros_no_record k : no_record sha256 (replicate k x00).
Proof. right. apply parse_zeros. Qed.

Lemma log_of_app es fs : log_of (es ++ fs) = log_of es ++ records fs.
Proof. unfold RaftDisk.log_of. by rewrite records_app, app_assoc. Qed.

(** A log with whole records and something that is none behind them. *)
Lemma torn_log_reads i es tail : Forall entry_ok es → consecutive (sm_index (si_snapshot i) + 1) es →
  (blen (log_of es ++ tail) ≤ RAFT_LOG_BYTES)%N → no_record sha256 tail → log_reads i (log_of es ++ tail) es.
Proof.
  intros Hok Hc Hs Ht. exists [], es, tail. unfold RaftDisk.log_of. rewrite <- app_assoc.
  split; [reflexivity|]. split; [unfold RaftDisk.log_of in Hs; by rewrite <- app_assoc in Hs|].
  split_and!; [exact Hok|by constructor|exact Hc|exact Ht|by rewrite andb_false_r].
Qed.

(** What may be found of an append of [new] behind [kept]. *)
Lemma torn_append_reads i kept new x k : Forall entry_ok (kept ++ new) → consecutive (sm_index (si_snapshot i) + 1) (kept ++ new) →
  (blen (log_of (kept ++ new)) ≤ RAFT_LOG_BYTES)%N →
  x = log_of kept ++ take k (records new) ∨ (x = log_of kept ++ replicate k x00 ∧ k ≤ length (records new)) →
  ∃ n, log_reads i x (kept ++ take n new).
Proof using sha256_length.
  intros Hok Hc Hs Hx. rewrite log_of_app in Hs. pose proof (proj1 (Forall_app _ _ _) Hok) as [Hok1 Hok2].
  assert (Hn : ∀ n, Forall entry_ok (kept ++ take n new) ∧ consecutive (sm_index (si_snapshot i) + 1) (kept ++ take n new)).
  { intros n. apply consecutive_app in Hc as [Hc1 Hc2]. split; [by apply Forall_app; split; [|apply Forall_take]|].
    apply consecutive_app. split; [done|]. by apply consecutive_take. }
  assert (Hb : ∀ t, length t ≤ length (records new) → (blen (log_of kept ++ t) ≤ RAFT_LOG_BYTES)%N).
  { intros t Hl. unfold blen in *. rewrite length_app in *. lia. }
  destruct Hx as [->|[-> Hk]].
  - destruct (torn_records k new Hok2) as (n & tail & E & Ht). exists n. destruct (Hn n).
    assert (El : log_of kept ++ take k (records new) = log_of (kept ++ take n new) ++ tail) by (by rewrite E, log_of_app, app_assoc).
    rewrite El. apply torn_log_reads; [done|done| |done]. rewrite <- El. apply Hb. rewrite length_take. lia.
  - exists 0. destruct (Hn 0). cbn [take] in *. rewrite app_nil_r in *.
    apply torn_log_reads; [done|done| |apply zeros_no_record]. apply Hb. by rewrite length_replicate.
Qed.

(** ** Positions *)

Abbreviation base c := (sm_index (c_snapshot_metadata c)).

Lemma last_index_eq c : core_ok c → core_last_index c = (base c + blen (c_entries c))%N.
Proof.
  intros Hc. unfold core_last_index. destruct (last (c_entries c)) as [e|] eqn:E.
  - pose proof (consecutive_last _ _ _ (co_consecutive _ _ Hc) E). lia.
  - apply last_None in E as ->. unfold blen. cbn. lia.
Qed.

Lemma first_index_eq c : core_ok c → (base c + 1 < 2 ^ 64)%N → core_first_index c = (base c + 1)%N.
Proof.
  intros Hc Hb. unfold core_first_index. pose proof (co_consecutive _ _ Hc) as Hs. destruct (c_entries c) as [|e es]; cbn.
  - unfold saturating_add_u64. lia.
  - apply consecutive_cons in Hs as [-> _]. done.
Qed.

Lemma length_records es : blen (records es) = foldr (λ e n, (record_len e + n)%N) 0%N es.
Proof using sha256_length.
  induction es as [|e es IH]; [done|]. rewrite records_cons. cbn [foldr]. rewrite <- IH.
  unfold blen at 1. rewrite length_app, raft_record_length by done. unfold blen. lia.
Qed.

(** The fields of an entry are machine words. *)
Definition entry_typed (e : Entry) : Prop := word (e_index e) ∧ word (e_term e).

Lemma checked_total_spec first es : ∀ position total0 total, Forall entry_typed es →
  checked_total first position es total0 = Ok total →
  Forall entry_ok es ∧ consecutive (first + position) es ∧ total = (total0 + blen (records es))%N.
Proof using sha256_length.
  induction es as [|e es IH]; intros position total0 total Ht H; cbn [checked_total] in H.
  - injection H as <-. split_and!; [done|apply consecutive_nil|]. change (blen (records [])) with 0%N. lia.
  - apply Forall_cons in Ht as [[Hi Hte] Ht]. unfold checked_add_u64 in H.
    destruct (_ <? 2 ^ 64)%N; cbn [ok_or rbind] in H; [|done].
    destruct (N.eqb_spec (e_index e) (first + position)) as [He|]; cbn [negb] in H; [|done].
    destruct (N.ltb_spec MAX_ENTRY_BYTES (blen (e_data e))) as [|Hd]; [done|].
    destruct (N.ltb_spec MAX_ENTRY_BYTES (blen (e_context e))) as [|Hx]; [done|]. cbn [orb] in H.
    apply IH in H as (Hok & Hc & ->); [|done]. split_and!.
    + constructor; [|done]. unfold MAX_ENTRY_BYTES in *. constructor; [exact Hi|exact Hte|lia|lia].
    + apply consecutive_cons. split; [done|]. by replace (first + position + 1)%N with (first + (position + 1))%N by lia.
    + rewrite records_cons, !length_records. unfold blen. rewrite length_app, raft_record_length by done.
      rewrite Nat2N.inj_add. change (N.of_nat (length (records es))) with (blen (records es)). rewrite length_records. lia.
Qed.

(** ** Writing *)

Section write.
Context (c : Core) (keep : nat) (es : list Entry) (d : disk).
Context (Hkeep : keep ≤ length (c_entries c)).
Context (Hlog : exactly d LOG (log_of (c_entries c))).
Local Abbreviation all := (log_of (c_entries c)).
Local Abbreviation kept := (take keep (c_entries c)).
Definition append_start : N := (8 + blen (records kept))%N.

(** The log after it was cut, if anything was to be cut. *)
Definition cut_file : file :=
  if (keep <? length (c_entries c))%nat then change_file (Truncate (N.to_nat append_start)) (durable_file all) else durable_file all.

Lemma cut_content : content cut_file = log_of kept.
Proof using Hkeep.
  unfold cut_file. destruct (Nat.ltb_spec keep (length (c_entries c))) as [Hlt|Hge].
  - change (take (N.to_nat append_start) all = log_of kept). replace (N.to_nat append_start) with (length (log_of kept)).
    + rewrite <- (take_drop keep (c_entries c)) at 2. rewrite log_of_app. by rewrite take_app_length.
    + unfold append_start, RaftDisk.log_of, blen. rewrite length_app. change (length RAFT_LOG_MAGIC) with 8. lia.
  - change (all = log_of kept). by rewrite take_ge.
Qed.

Lemma append_start_eq : append_start = blen (log_of kept).
Proof. clear Hkeep Hlog. unfold append_start, RaftDisk.log_of, blen. rewrite length_app. change (length RAFT_LOG_MAGIC) with 8. lia. Qed.

Definition torn_content (b : list byte) : Prop :=
  b = all ∨ ∃ k, b = log_of kept ++ take k (records es) ∨ (b = log_of kept ++ replicate k x00 ∧ k ≤ length (records es)).
Definition torn_log (d' : disk) : Prop :=
  untouched (eq LOG) d d' ∧ is_Some (file_at d' LOG) ∧ allows d' LOG (λ x, ∃ b, x = Some b ∧ torn_content b).

Lemma cut_survives x : survives cut_file x → torn_content x.
Proof using Hkeep.
  pose proof cut_content as Hc. unfold cut_file in *. destruct (_ <? _)%nat.
  - intros H. apply truncated_survives in H as [->| ->]; [by left|]. right. exists 0. left.
    change (take (N.to_nat append_start) all = log_of kept) in Hc. rewrite Hc. by rewrite app_nil_r.
  - intros H. apply survives_durable in H as ->. by left.
Qed.

Lemma grown_survives n x : survives (change_file (Append (take n (records es))) cut_file) x → torn_content x.
Proof using Hkeep.
  pose proof cut_content as Hc. intros H. assert (x = all ∨ ∃ k, x = log_of kept ++ take k (take n (records es)) ∨
    (x = log_of kept ++ replicate k x00 ∧ k ≤ length (take n (records es)))) as [->|(k & [->|[-> Hk]])]; [|by left|..].
  - unfold cut_file in *. destruct (_ <? _)%nat.
    + apply replaced_survives in H as [->|(k & H)]; [by left|]. right. exists k.
      change (take (N.to_nat append_start) all = log_of kept) in Hc. by rewrite Hc in H.
    + change (all = log_of kept) in Hc. eapply appending_survives in H as (k & H); [|apply appending_append, appending_new].
      rewrite <- Hc. right. exists k. done.
  - right. exists (min k n). left. by rewrite take_take.
  - right. exists k. right. split; [done|]. rewrite length_take in Hk. lia.
Qed.

Lemma torn_of f d' : untouched (eq LOG) d d' → entry_at d' LOG = {| en_file := Some f; en_reverts := [] |} →
  (∀ x, survives f x → torn_content x) → torn_log d'.
Proof.
  intros Hu He Hs. split_and!; [done|unfold file_at; rewrite He; by eexists|].
  intros x (g & Hg & Hx). rewrite He in Hg. apply list_elem_of_singleton in Hg as ->. destruct x as [b|]; [|done]. eauto.
Qed.

Lemma write_entries_wp :
  cwp (write_entries sha256 keep append_start es (records es)) c
    (λ r c' d',
       match r with
       | Ok _ => untouched (eq LOG) d d' ∧ exactly d' LOG (log_of (kept ++ es)) ∧
           c' = with_entries (kept ++ es) (take keep (c_offsets c) ++ record_offsets append_start es) c
       | Err _ => torn_log d' ∧ c' = c
       end) torn_log d.
Proof using Hkeep Hlog.
  unfold write_entries. apply cwp_bind, cwp_get. apply cwp_bind.
  assert (Ht0 : torn_log d) by (apply (torn_of (durable_file all)); [apply untouched_refl|done|intros x ->%survives_durable; by left]).
  assert (∃ d1, untouched (eq LOG) d d1 ∧ entry_at d1 LOG = {| en_file := Some cut_file; en_reverts := [] |} ∧
    ∀ (Q : result fault unit → Core → disk → Prop) C, Q (Ok tt) c d1 → (∀ d', d' = d ∨ d' = d1 → Q (Err (os_error Other)) c d' ∧ C d') →
      cwp (if (keep <? length (c_entries c))%nat then core_io (set_len LOG append_start) else core_ret tt) c Q C d)
    as (d1 & Hu1 & E1 & Hcut).
  { unfold cut_file. destruct (_ <? _)%nat.
    - eexists. split; [|split]; cycle 2.
      + intros Q C Hok Herr. apply cwp_io, wp_atomic; [exact Hok|]. exact Herr.
      + by apply untouched_update.
      + rewrite entry_at_update, bool_decide_true by done. by rewrite (exactly_file _ _ _ Hlog), Hlog.
    - exists d. split_and!; [apply untouched_refl|done|]. intros Q C Hok _. by apply cwp_ret. }
  assert (Ht1 : torn_log d1) by (apply (torn_of cut_file); [done|done|apply cut_survives]).
  apply Hcut; [|intros d' [->| ->]; done].
  apply cwp_bind, cwp_io, wp_seek; [|done|done]. apply cwp_bind, cwp_io.
  assert (F1 : file_at d1 LOG = Some cut_file) by (unfold file_at; by rewrite E1).
  assert (Hw : ∀ b, write_change append_start b cut_file = Append b).
  { intros b. unfold write_change. by rewrite cut_content, append_start_eq, N.eqb_refl. }
  assert (E2 : ∀ b, entry_at (update LOG (λ f, change_file (write_change append_start b f) f) d1) LOG =
    {| en_file := Some (change_file (Append b) cut_file); en_reverts := [] |}).
  { intros b. rewrite entry_at_update, bool_decide_true by done. rewrite F1, E1. cbn. by rewrite Hw. }
  assert (Hu2 : ∀ g, untouched (eq LOG) d (update LOG g d1)) by (intros g; eapply untouched_trans; [done|by apply untouched_update]).
  unfold write_at. apply wp_syscall; cbn beta iota.
  2:{ intros n. assert (torn_log (update LOG (λ f, change_file (write_change append_start (take n (records es)) f) f) d1)); [|done].
      eapply torn_of; [done|apply E2|apply grown_survives]. }
  set (d2 := update LOG _ d1). specialize (E2 (records es)). fold d2 in E2.
  assert (F2 : file_at d2 LOG = Some (change_file (Append (records es)) cut_file)) by (unfold file_at; by rewrite E2).
  apply cwp_bind, cwp_io. unfold sync. apply wp_syscall; cbn beta iota.
  2:{ intros n. assert (torn_log d2); [|done]. eapply torn_of; [apply Hu2|exact E2|].
      intros x. rewrite <- (firstn_all (records es)). apply grown_survives. }
  apply cwp_modify. split_and!; [eapply untouched_trans; [apply Hu2|by apply untouched_update]| |done].
  unfold exactly. rewrite entry_at_update, bool_decide_true by done. rewrite F2, E2. cbn [fmap option_fmap option_map en_reverts].
  unfold sync_file. rewrite content_change, cut_content, log_of_app. reflexivity.
Qed.
End write.

(** ** The whole operation *)

Definition append_keep (c : Core) (es : list Entry) : nat :=
  match es with
  | [] => length (c_entries c)
  | first :: _ => N.to_nat (e_index first - core_first_index c)
  end.
Definition append_core (c : Core) (es : list Entry) : Core :=
  let entries := take (append_keep c es) (c_entries c) ++ es in with_entries entries (record_offsets 8 entries) c.

(** What a crash may leave of an append: the log as it was, or the entries that are
    kept and some of the new ones. *)
Definition append_outcome (c : Core) (es : list Entry) (i : StateImage) (data : list byte) (found : list Entry) : Prop :=
  describes i c ∧ data = c_snapshot_data c ∧
  (found = c_entries c ∨ ∃ n, found = take (append_keep c es) (c_entries c) ++ take n es).

Definition appended (c : Core) (es : list Entry) (r : result fault unit) (c' : Core) (d' : disk) : Prop :=
  match r with
  | Ok _ => (∃ f, c' = with_fence f (append_core c es)) ∧ stored c' d'
  | Err _ => (∃ f, c' = with_fence f c) ∧ stored c' d' ∨
             (∃ f, c' = poison (with_fence f c)) ∧ after_crash d' (append_outcome c es)
  end.

Section appending.
Context (c : Core) (first : Entry) (rest : list Entry) (d : disk).
Local Abbreviation es := (first :: rest).
Local Abbreviation keep := (append_keep c es).
Local Abbreviation kept := (take keep (c_entries c)).
Context (Hst : stored c d).
Context (Hok : Forall entry_ok es) (Hes : consecutive (e_index first) es).
Context (Hlow : (core_first_index c ≤ e_index first)%N) (Hhigh : (e_index first ≤ core_last_index c + 1)%N).
Context (Hlast : (core_last_index c + 1 < 2 ^ 64)%N).
Context (Hsize : (blen (log_of (kept ++ es)) ≤ RAFT_LOG_BYTES)%N).

Lemma append_keep_le : keep ≤ length (c_entries c) ∧ e_index first = (base c + 1 + N.of_nat keep)%N.
Proof using Hst Hlow Hhigh Hlast.
  clear Hsize Hok Hes. pose proof (st_core _ _ _ Hst) as Hc. pose proof (last_index_eq c Hc) as Hl. rewrite Hl in Hhigh, Hlast.
  rewrite first_index_eq in Hlow by (done || lia). cbn [append_keep]. rewrite first_index_eq by (done || lia).
  clear -Hlow Hhigh. unfold blen in *. lia.
Qed.

Lemma append_entries_ok : Forall entry_ok (kept ++ es) ∧ consecutive (base c + 1) (kept ++ es).
Proof using Hst Hlow Hhigh Hlast Hok Hes.
  destruct append_keep_le as [Hk He]. pose proof (st_core _ _ _ Hst) as [H1 H2 _ _ _ _]. split.
  - apply Forall_app. split; [by apply Forall_take|done].
  - apply consecutive_app. split; [by apply consecutive_take|]. unfold blen. rewrite length_take, Nat.min_l by done. by rewrite <- He.
Qed.

Lemma append_core_ok f : core_ok (with_fence f (append_core c es)).
Proof using Hst Hlow Hhigh Hlast Hok Hes Hsize.
  destruct append_entries_ok. pose proof (st_core _ _ _ Hst) as [_ _ _ _ H5 H6].
  split; [done|done|reflexivity|exact Hsize|exact H5|exact H6].
Qed.

Lemma torn_append_crash d' : torn_log c keep es d d' → after_crash d' (append_outcome c es).
Proof using sha256_length Hst Hlow Hhigh Hlast Hok Hes Hsize.
  intros (Hu & His & Ha). destruct append_entries_ok as [Hok1 Hc1]. pose proof Hst as [Hc (f & Hf & Hs) _ Hp].
  destruct (core_image_ok sha256 sha256_length f c Hc Hf) as [Hi1 Hi2].
  apply (recoverable_after_crash sha256 (core_image f c) (c_snapshot_data c)
    (λ found, append_outcome c es (core_image f c) (c_snapshot_data c) found)); [|done].
  split; [by eapply untouched_exactly|done|eapply payload_untouched; [done|apply log_ne_payload|done]|done|].
  apply (allows_mono _ _ _ _ Ha). intros x (b & -> & [->|(k & Hb)]).
  - apply (settled_reads sha256 c (core_image f c)); [done|done|]. split_and!; [done|done|by left].
  - destruct (torn_append_reads (core_image f c) kept es b k Hok1 Hc1 Hsize Hb) as (n & Hr).
    exists b, (kept ++ take n es). split; [done|]. split; [done|]. split_and!; [done|done|]. right. by exists n.
Qed.
End appending.

Lemma with_fence_same c : with_fence (c_fence c) c = c.
Proof. by destruct c. Qed.

(** An error before the files were touched. *)
Lemma append_refused c es e f d : stored c d → appended c es (Err e) (with_fence f c) d.
Proof. intros Hst. left. split; [by exists f|]. by apply stored_fence. Qed.
Lemma append_refused_same c es e d : stored c d → appended c es (Err e) c d.
Proof. intros Hst. rewrite <- (with_fence_same c) at 2. by apply append_refused. Qed.

Lemma append_stopped c es d : stored c d → after_crash d (append_outcome c es).
Proof using sha256_length.
  intros Hst. eapply stored_after_crash; [done|done|]. intros f. split_and!; [done|done|by left].
Qed.

Lemma append_none c d : stored c d → appended c [] (Ok tt) c d.
Proof.
  intros Hst. split; [|done]. exists (c_fence c). pose proof (co_offsets _ _ (st_core _ _ _ Hst)) as Ho.
  unfold append_core. cbn [append_keep]. rewrite app_nil_r, firstn_all, <- Ho. by destruct c.
Qed.

(** Where the new entries go. *)
Lemma append_start_wp c keep (Q : result fault N → Core → disk → Prop) (C : disk → Prop) d f :
  stored c d → keep ≤ length (c_entries c) → Q (Ok (append_start c keep)) (with_fence f c) d →
  (∀ e, Q (Err e) (with_fence f c) d) → C d →
  cwp (match c_offsets c !! keep with Some offset => core_ret offset | None => core_io (file_length LOG) end)
    (with_fence f c) Q C d.
Proof.
  intros Hst Hk Hq He HC. rewrite (co_offsets _ _ (st_core _ _ _ Hst)). destruct (decide (keep < length (c_entries c))).
  - rewrite record_offsets_lookup by done. by apply cwp_ret.
  - rewrite lookup_ge_None_2 by (rewrite length_record_offsets; lia). apply cwp_io.
    eapply wp_length; [apply (exactly_file _ _ _ (st_log _ _ _ Hst))| |apply He|done].
    change (content (durable_file (log_of (c_entries c)))) with (log_of (c_entries c)).
    rewrite append_start_eq in Hq. by rewrite take_ge in Hq by lia.
Qed.

Lemma saturating_bound a b m : (m < 2 ^ 64 - 1)%N → (saturating_add_u64 a b ≤ m)%N → (a + b ≤ m)%N.
Proof. unfold saturating_add_u64. intros Hm H. destruct (N.min_spec (a + b) (2 ^ 64 - 1)) as [[_ E]|[_ E]]; rewrite E in H; [done|lia]. Qed.

Lemma append_size c keep es :
  (saturating_add_u64 (append_start c keep) (blen (records es)) ≤ RAFT_LOG_BYTES)%N →
  (blen (log_of (take keep (c_entries c) ++ es)) ≤ RAFT_LOG_BYTES)%N.
Proof.
  intros H. apply saturating_bound in H; [|done]. rewrite append_start_eq in H. rewrite log_of_app. unfold blen in *.
  by rewrite length_app, Nat2N.inj_add.
Qed.

(** The write, once everything was checked. *)
Lemma append_write_wp c first rest d t : let es := first :: rest in let keep := append_keep c es in
  stored c d → Forall entry_ok es → consecutive (e_index first) es →
  (core_first_index c ≤ e_index first)%N → (e_index first ≤ core_last_index c + 1)%N → (core_last_index c + 1 < 2 ^ 64)%N →
  (blen (log_of (take keep (c_entries c) ++ es)) ≤ RAFT_LOG_BYTES)%N →
  cwp (core_inspect_err (write_entries sha256 keep (append_start c keep) es (records es)) poison) (with_fence t c)
    (appended c es) (λ d', after_crash d' (append_outcome c es)) d.
Proof using sha256_length.
  intros es keep Hst Hok Hes Hlow Hhigh Hlast Hsize. pose proof Hst as [Hc (f & Hf & Hs) Hl Hp].
  destruct (append_keep_le c first rest d Hst Hlow Hhigh Hlast) as [Hk _]. fold es keep in Hk.
  assert (Htorn : ∀ d', torn_log c keep es d d' → after_crash d' (append_outcome c es)) by (intros d'; by apply (torn_append_crash c first rest d)).
  pose proof (write_entries_wp (with_fence t c) keep es d Hk Hl) as Hw.
  apply cwp_inspect. eapply cwp_mono; [exact Hw| |exact Htorn]. intros [[]|e] c' d' Hr.
  - destruct Hr as (Hu & He & ->). split; [|split].
    + exists t. unfold append_core. fold keep. change (c_offsets (with_fence t c)) with (c_offsets c).
      rewrite (co_offsets _ _ Hc), record_offsets_take, record_offsets_app. reflexivity.
    + pose proof (append_core_ok c first rest d Hst Hok Hes Hlow Hhigh Hlast Hsize t) as Hco. fold es in Hco.
      unfold append_core in Hco. fold keep in Hco. rewrite record_offsets_app, <- record_offsets_take, <- (co_offsets _ _ Hc) in Hco.
      exact Hco.
    + exists f. split; [done|by eapply untouched_exactly].
    + exact He.
    + eapply payload_untouched; [done|apply log_ne_payload|exact Hp].
  - destruct Hr as [Ht ->]. right. split; [by exists t|]. by apply Htorn.
Qed.

Lemma raft_append_wp c es d : stored c d → Forall entry_typed es →
  cwp (raft_append sha256 es) c (appended c es) (λ d', after_crash d' (append_outcome c es)) d.
Proof using sha256_length.
  intros Hst Hty. pose proof Hst as [Hc (f & Hf & Hs) Hl Hp]. destruct (core_image_ok sha256 sha256_length f c Hc Hf) as [Hi1 Hi2].
  unfold raft_append. apply cwp_bind, cwp_refuse_poisoned; [intros _|intros _; by apply append_refused_same].
  destruct es as [|first rest]; [by apply cwp_ret, append_none|]. set (es := first :: rest) in *.
  apply cwp_bind. eapply fenced_wp; [done|by rewrite (exactly_file _ _ _ Hs)|done|done| |by intros; apply append_refused_same|by apply append_stopped].
  intros _. set (t := hs_term (c_hard_state c)). apply cwp_bind, cwp_get.
  change (core_first_index (with_fence t c)) with (core_first_index c). change (core_last_index (with_fence t c)) with (core_last_index c).
  destruct (N.ltb_spec (e_index first) (core_first_index c)) as [|Hlow]; [by apply cwp_lift, append_refused|].
  apply cwp_bind, cwp_lift. unfold checked_add_u64 at 1. destruct (N.ltb_spec (core_last_index c + 1) (2 ^ 64)) as [Hlast|];
    cbn [ok_or]; [|by apply append_refused].
  destruct (N.ltb_spec (core_last_index c + 1) (e_index first)) as [|Hhigh]; [by apply cwp_lift, append_refused|].
  apply cwp_bind, cwp_lift. destruct (checked_total (e_index first) 0 es 0) as [total|e] eqn:Et; [|by apply append_refused].
  apply checked_total_spec in Et as (Hok & Hes & ->); [|done]. rewrite N.add_0_r in Hes. rewrite N.add_0_l. cbn zeta.
  destruct (append_keep_le c first rest d Hst Hlow Hhigh Hlast) as [Hk _].
  change (N.to_nat (e_index first - core_first_index c)) with (append_keep c es). fold es in Hk. set (keep := append_keep c es) in *.
  apply cwp_bind. change (c_offsets (with_fence t c)) with (c_offsets c).
  apply append_start_wp; [done|done| |by intros; apply append_refused|by apply append_stopped].
  destruct (N.ltb_spec RAFT_LOG_BYTES (saturating_add_u64 (append_start c keep) (blen (records es)))) as [|Hsz];
    [by apply cwp_lift, append_refused|].
  apply append_size in Hsz.
  by apply append_write_wp.
Qed.
End Append.
