(* ===== verification/RaftSnapshot.v ===== *)
(** * Installing and recording snapshots, whatever fails

    Both write the payload under its digest, then the state that names it, then
    replace the log.  A crash finds the old state with its payload and log, or the
    new one with what it keeps of the log. *)

From S2P Require Import Prelude Bytes Text Types LedgerEvents LedgerChecks LedgerCodec Integrity.
From S2P Require Import Storage Anchor FileLedger Compaction.
From S2P Require Import RaftFormat RaftFormatFacts RaftStorage RaftDisk RaftState RaftAppend.
From Stdlib Require Import Lia.
From stdpp Require Import options.

Lemma cwp_io_seq {A B D} (m : prog (result fault A)) (k : A → prog (result fault B)) (h : B → core_prog D) c Q C d :
  cwp (core_bind (core_io (ptry m k)) h) c Q C d → cwp (core_bind (core_io m) (λ x, core_bind (core_io (k x)) h)) c Q C d.
Proof.
  intros H o. specialize (H o). revert H. set (w := {| w_disk := d; w_oracle := o |}).
  assert (E : core_bind (core_io m) (λ x, core_bind (core_io (k x)) h) c w = core_bind (core_io (ptry m k)) h c w); [|by rewrite E].
  unfold core_bind, core_io, ptry, pbind, pret. destruct (m w) as [[[a|e]|] w']; [|done|done].
  by destruct (k a w') as [[[b|e]|] w''].
Qed.

Section Snapshot.
Context (sha256 : list byte → list byte).
Context (sha256_length : ∀ x, length (sha256 x) = 32).
Abbreviation records := (records sha256).
Abbreviation log_of := (log_of sha256).
Abbreviation encode_state := (encode_state sha256).
Abbreviation record_offsets := (record_offsets sha256).
Abbreviation core_ok := (core_ok sha256).
Abbreviation stored := (stored sha256).
Abbreviation log_reads := (log_reads sha256).
Abbreviation recoverable := (recoverable sha256).
Abbreviation after_crash := (after_crash sha256).
Abbreviation payload_ok := (payload_ok sha256).
Abbreviation base c := (sm_index (c_snapshot_metadata c)).

(** ** The log under the state that names the snapshot *)

(** The entries above [index]. *)
Definition above (index : N) (c : Core) : list Entry := drop (N.to_nat (index - base c)) (c_entries c).

Lemma above_split index c : core_ok c → (base c ≤ index)%N →
  Forall (λ e, (e_index e ≤ index)%N) (take (N.to_nat (index - base c)) (c_entries c)) ∧
  consecutive (index + 1) (above index c) ∧ Forall entry_ok (above index c).
Proof.
  intros Hc Hi. pose proof (co_consecutive _ _ Hc) as Hs. split_and!.
  - apply Forall_lookup. intros k e Hk. apply lookup_take_Some in Hk as [Hk Hl]. apply Hs in Hk. lia.
  - unfold above. destruct (decide (length (c_entries c) ≤ N.to_nat (index - base c))) as [Hge|Hlt].
    + rewrite drop_ge by done. apply consecutive_nil.
    + replace (index + 1)%N with (base c + 1 + N.of_nat (N.to_nat (index - base c)))%N by lia. by apply consecutive_drop.
  - apply Forall_drop, Hc.
Qed.

Lemma compacted_log_reads i index c : core_ok c → (base c ≤ index)%N → sm_index (si_snapshot i) = index →
  log_reads i (log_of (c_entries c))
    (if bool_decide (si_applied i = SnapshotPending) && negb (bool_decide (take (N.to_nat (index - base c)) (c_entries c) = []))
     then [] else above index c).
Proof.
  intros Hc Hi <-. destruct (above_split _ _ Hc Hi) as (H1 & H2 & _).
  exists (take (N.to_nat (sm_index (si_snapshot i) - base c)) (c_entries c)), (above (sm_index (si_snapshot i)) c), [].
  unfold above. rewrite take_drop. split; [|split; [exact (co_size _ _ Hc)|split; [apply Hc|split; [exact H1|split; [exact H2|split; [by left|reflexivity]]]]]].
  rewrite app_nil_r, <- records_app, take_drop. reflexivity.
Qed.

(** ** From the payload to the new state *)

Definition no_collision (x y : list byte) : Prop := sha256 x = sha256 y → x = y.

(** The payload in service survives the writing of another one. *)
Lemma payload_kept c data d d' : no_collision data (c_snapshot_data c) → stored c d →
  untouched (scratch_of (payload_name (sha256 data))) d d' →
  (∀ P, allows d (payload_name (sha256 data)) P → allows d' (payload_name (sha256 data)) (λ x, P x ∨ x = Some data)) →
  stored c d'.
Proof using sha256_length.
  intros Hn [Hc (f & Hf & Hs) Hl (Hp1 & Hp2 & Hp3)] Hu Ha.
  assert (Hfix : ∀ n, fixed_name n → ¬ scratch_of (payload_name (sha256 data)) n) by (intros n Hfn; by apply fixed_ne_payload).
  split; [done|exists f; split; [done|eapply untouched_exactly; [done|apply Hfix; unfold fixed_name; tauto|done]]| |].
  - eapply untouched_exactly; [done|apply Hfix; unfold fixed_name; tauto|done].
  - split_and!; [done|done|]. destruct (decide (sha256 data = c_snapshot_digest c)) as [E|E].
    + assert (data = c_snapshot_data c) as -> by (apply Hn; congruence). rewrite <- E in *.
      apply (allows_mono _ _ _ _ (Ha _ Hp3)). tauto.
    + eapply untouched_allows; [done| |done]. intros H. apply E.
      apply payload_names_apart in H; [done|apply sha256_length|rewrite Hp1; apply sha256_length].
Qed.

Lemma new_payload_wp c data (Q : result fault unit → disk → Prop) (C : disk → Prop) d :
  no_collision data (c_snapshot_data c) → stored c d → (blen data ≤ MAX_SNAPSHOT_BYTES)%N →
  (∀ d', stored c d' → payload_ok d' (sha256 data) data → Q (Ok tt) d') →
  (∀ d' e, stored c d' → Q (Err e) d' ∧ C d') →
  wp (write_payload (sha256 data) data) Q C d.
Proof using sha256_length.
  intros Hn Hst Hm Hok Herr. apply write_payload_wp.
  - intros d' Hu He. apply Hok; [|split_and!; [done|done|by eapply exactly_allows; [|left]]].
    apply (payload_kept c data d); [done|done|done|]. intros P HP. eapply exactly_allows; [done|by right].
  - intros d' e Hu Ha. apply Herr. by apply (payload_kept c data d).
Qed.

Lemma stored_of t c R d : word t → recoverable (core_image t c) (c_snapshot_data c) R d → exactly d LOG (log_of (c_entries c)) →
  c_offsets c = record_offsets 8 (c_entries c) → Forall entry_ok (c_entries c) → consecutive (base c + 1) (c_entries c) →
  (blen (log_of (c_entries c)) ≤ RAFT_LOG_BYTES)%N → stored c d.
Proof using sha256_length.
  intros Ht [Hs [Hi1 Hi2] Hp _ _] Hl Ho Hok Hc Hz. split; [|by exists t|done|done].
  split; [exact Hok|exact Hc|exact Ho|exact Hz| |].
  - apply (image_ok_fence 0) in Hi1; [exact Hi1|by unfold word].
  - rewrite core_image_fence in Hi2. by rewrite length_encode_fence in Hi2.
Qed.

Section new_state.
Context (c c2 : Core) (data2 : list byte) (es2 : list Entry).
Local Abbreviation t := (hs_term (c_hard_state c2)).
Local Abbreviation i2 := (core_image t c2).
Context (Himage : image_ok i2) (Hsize : (blen (encode_state i2) ≤ MAX_STATE_BYTES)%N).
Context (Hreads : log_reads i2 (log_of (c_entries c)) es2).
Context (Hdigest : c_snapshot_digest c2 = sha256 data2).
Context (Hok2 : Forall entry_ok es2) (Hc2 : consecutive (sm_index (si_snapshot i2) + 1) es2).
Context (Hz2 : (blen (log_of es2) ≤ RAFT_LOG_BYTES)%N).

(** The old state with all that belongs to it, or the new one. *)
Definition replaced (i : StateImage) (data : list byte) (es : list Entry) : Prop :=
  (describes i c ∧ data = c_snapshot_data c ∧ es = c_entries c) ∨ (describes i c2 ∧ data = data2 ∧ es = es2).

Lemma recoverable_replaced d : recoverable i2 data2 (eq es2) d → after_crash d replaced.
Proof using Type. intros Hr. apply (recoverable_after_crash _ _ _ _ _ _ Hr). intros es <-. right. done. Qed.

Lemma old_replaced d : stored c d → after_crash d replaced.
Proof using sha256_length. intros Hst. eapply stored_after_crash; [done|done|]. intros f. left. done. Qed.

Lemma persist_new_wp undo d : stored c d → payload_ok d (sha256 data2) data2 →
  cwp (core_inspect_err (persist_state sha256) undo) c2
    (λ r c' d',
       match r with
       | Ok _ => c' = with_fence t c2 ∧ recoverable i2 data2 (eq es2) d' ∧ exactly d' LOG (log_of (c_entries c))
       | Err _ => (∃ c'', kept_core c2 c'' ∧ c' = undo c'') ∧ after_crash d' replaced
       end) (λ d', after_crash d' replaced) d.
Proof using sha256_length Himage Hsize Hreads Hdigest.
  intros Hst Hp2. pose proof Hst as [Hc (f & Hf & Hs) Hl Hp]. destruct (core_image_ok sha256 sha256_length f c Hc Hf) as [Hi1 Hi2].
  assert (Hall : ∀ d', untouched (scratch_of STATE) d d' → exactly d' LOG (log_of (c_entries c)) ∧
    payload_ok d' (c_snapshot_digest c) (c_snapshot_data c) ∧ payload_ok d' (c_snapshot_digest c2) data2).
  { intros d' Hu. rewrite Hdigest. split_and!; [eapply untouched_exactly; [done|apply state_scratch_log|done]|..];
      (eapply payload_untouched; [done|apply state_scratch_payload|done]). }
  apply cwp_inspect. eapply (persist_wp sha256 sha256_length (core_image f c) (λ y, y = Some (encode_state (core_image f c))));
    [by rewrite (exactly_file _ _ _ Hs)|done|done|by eapply exactly_allows| |].
  - intros d' _ Hu He. destruct (Hall d' Hu) as (Hl' & _ & Hp'). split; [done|]. split; [|done].
    split; [done|done|exact Hp'|by rewrite (exactly_file _ _ _ Hl')|]. eapply exactly_allows; [done|]. by eexists _, es2.
  - intros d' e c' Hk Hu _ Ha. destruct (Hall d' Hu) as (Hl' & Hp1' & Hp2'). assert (after_crash d' replaced); [|split; [split; [by exists c'|done]|done]].
    intros d'' Hcr. destruct (crash_exactly d' d'' STATE (λ b, b = encode_state (core_image f c) ∨ b = encode_state i2) Hcr) as (b & Hb & He).
    { apply (allows_mono _ _ _ _ Ha). intros y [->| ->]; eauto. }
    apply (exactly_crash _ d'') in Hl'; [|done]. destruct Hb as [->| ->].
    + exists (core_image f c), (c_snapshot_data c). split; [done|done|by eapply payload_crash|by rewrite (exactly_file _ _ _ Hl')|].
      eapply exactly_allows; [done|]. apply settled_reads; [done|done|]. by left.
    + exists i2, data2. split; [done|done|exact (payload_crash _ _ _ _ _ Hcr Hp2')|by rewrite (exactly_file _ _ _ Hl')|].
      eapply exactly_allows; [done|]. eexists _, es2. split; [done|]. split; [exact Hreads|]. by right.
Qed.

(** Other payloads go, the new state stays. *)
Lemma drop_payloads_wp (Q : result fault unit → disk → Prop) (C : disk → Prop) d b :
  recoverable i2 data2 (eq es2) d → exactly d LOG b →
  (∀ d', recoverable i2 data2 (eq es2) d' → exactly d' LOG b → Q (Ok tt) d' ∧ C d') →
  wp (let* _ := remove_other_payloads (sha256 data2) in plift (Ok tt)) Q C d.
Proof using Hdigest.
  intros Hr Hl Hq. apply wp_bind, remove_other_payloads_wp. intros d' Hu.
  assert (Hne : ∀ n, fixed_name n → ¬ other_payload (sha256 data2) n).
  { intros n Hn [Hx _]. by rewrite fixed_not_payload in Hx. }
  apply (untouched_exactly _ _ _ _ _ Hu) in Hl; [|apply Hne; unfold fixed_name; tauto].
  apply (recoverable_untouched _ _ _ _ _ _ _ Hu) in Hr; [|apply Hne; unfold fixed_name; tauto..|].
  - split; [apply wp_ret|]; by apply Hq.
  - cbn [core_image si_snapshot_digest]. rewrite Hdigest. by intros [_ ?].
Qed.

(** The log is replaced by what the new state keeps of it. *)
Lemma replace_log_recoverable d d' : recoverable i2 data2 (eq es2) d → untouched log_names d d' → is_Some (file_at d' LOG) →
  allows d' LOG (λ x, (∃ b es, x = Some b ∧ log_reads i2 b es ∧ es2 = es) ∨ x = Some (log_of es2)) →
  recoverable i2 data2 (eq es2) d'.
Proof using Hok2 Hc2 Hz2.
  intros Hr Hu His Ha. eapply recoverable_log; [done|done|by intros [?|?]|apply logs_ne_payload|done|].
  apply (allows_mono _ _ _ _ Ha). intros x [Hx| ->]; [done|]. exists (log_of es2), es2.
  split; [done|]. split; [by apply log_of_reads|done].
Qed.
End new_state.

(** ** Installing a snapshot *)

Lemma pending_log_reads i c : core_ok c → (core_first_index c ≤ sm_index (si_snapshot i))%N → si_applied i = SnapshotPending →
  log_reads i (log_of (c_entries c)) [].
Proof.
  intros Hc Hi Hp. pose proof (co_consecutive _ _ Hc) as Hs. unfold core_first_index in Hi.
  destruct (c_entries c) as [|e es] eqn:E; cbn [hd_error] in Hi.
  - apply (log_of_reads sha256 i []); [done|apply consecutive_nil|done].
  - apply consecutive_cons in Hs as [He _]. assert (Hb : (base c < sm_index (si_snapshot i))%N) by lia.
    pose proof (compacted_log_reads i _ c Hc (N.lt_le_incl _ _ Hb) eq_refl) as Hr. rewrite E in Hr.
    rewrite bool_decide_true in Hr by done. rewrite bool_decide_false in Hr; [exact Hr|].
    destruct (N.to_nat (sm_index (si_snapshot i) - base c)) eqn:En; [lia|done].
Qed.

(** The core while the state is written, and when the log was reset. *)
Definition installing (s : Snapshot) (c : Core) : Core :=
  with_applied SnapshotPending (with_conf_state (sn_conf_state s)
    (with_hard_state (mkHardState (N.max (hs_term (c_hard_state c)) (sm_term (sn_metadata s)))
                                  (hs_vote (c_hard_state c)) (sm_index (sn_metadata s)))
      (with_snapshot (sn_metadata s) (sha256 (sn_data s)) c))).
Definition installed (s : Snapshot) (c : Core) : Core :=
  with_entries [] [] (with_snapshot_data (sn_data s) (installing s c)).

(** What a crash leaves: the storage before, or the storage after. *)
Definition before_or_after (c c' : Core) (i : StateImage) (data : list byte) (es : list Entry) : Prop :=
  (describes i c ∧ data = c_snapshot_data c ∧ es = c_entries c) ∨
  (describes i c' ∧ data = c_snapshot_data c' ∧ es = c_entries c').
Definition snapshot_result (c next : Core) (r : result fault unit) (c' : Core) (d' : disk) : Prop :=
  match r with
  | Ok _ => (∃ f, c' = with_fence f next) ∧ stored c' d'
  | Err _ => ((∃ f, c' = with_fence f c) ∨ c_health c' = Poisoned) ∧ after_crash d' (before_or_after c next)
  end.

Lemma snapshot_refused c next e f d : stored c d → snapshot_result c next (Err e) (with_fence f c) d.
Proof using sha256_length.
  intros Hst. split; [by left; exists f|]. eapply stored_after_crash; [done|done|]. intros g. by left.
Qed.
Lemma snapshot_refused_same c next e d : stored c d → snapshot_result c next (Err e) c d.
Proof using sha256_length. intros Hst. rewrite <- (with_fence_same c) at 2. by apply snapshot_refused. Qed.
Lemma snapshot_stopped c next d : stored c d → after_crash d (before_or_after c next).
Proof using sha256_length. intros Hst. eapply stored_after_crash; [done|done|]. intros g. by left. Qed.

Definition snapshot_fits (next : Core) : Prop :=
  image_ok (core_image 0 next) ∧ (blen (encode_state (core_image 0 next)) ≤ MAX_STATE_BYTES)%N.

Lemma fits_image next f : snapshot_fits next → word f →
  image_ok (core_image f next) ∧ (blen (encode_state (core_image f next)) ≤ MAX_STATE_BYTES)%N.
Proof using sha256_length.
  intros [H1 H2] Hf. rewrite core_image_fence, length_encode_fence by done. split; [by apply image_ok_fence|done].
Qed.

Lemma reset_log_wp c2 data2 c d b : let i := core_image (hs_term (c_hard_state c2)) c2 in
  recoverable i data2 (eq []) d → exactly d LOG b →
  cwp (reset_log sha256) c (λ r c' d', recoverable i data2 (eq []) d' ∧
     match r with Ok _ => c' = with_entries [] [] c ∧ exactly d' LOG (log_of []) | Err _ => c' = c end)
    (recoverable i data2 (eq [])) d.
Proof.
  intros i Hr Hl. unfold reset_log. apply cwp_io_seq. apply cwp_bind, cwp_io.
  apply (rewrite_log_wp sha256 [] (λ x, ∃ b es, x = Some b ∧ log_reads i b es ∧ [] = es)).
  - by rewrite (exactly_file _ _ _ Hl).
  - apply Hr.
  - intros d' Hu He. apply cwp_modify. split; [|done].
    apply (replace_log_recoverable c2 data2 [] (Forall_nil_2 _) (consecutive_nil _) ltac:(done) d); [done|done|by rewrite (exactly_file _ _ _ He)|].
    eapply exactly_allows; [done|by right].
  - intros d' e Hu His Ha. assert (recoverable i data2 (eq []) d'); [|done].
    by apply (replace_log_recoverable c2 data2 [] (Forall_nil_2 _) (consecutive_nil _) ltac:(done) d).
Qed.

Lemma apply_snapshot_wp s c d : stored c d → snapshot_fits (installing s c) → no_collision (sn_data s) (c_snapshot_data c) →
  cwp (apply_snapshot sha256 s) c (snapshot_result c (installed s c))
    (λ d', after_crash d' (before_or_after c (installed s c))) d.
Proof using sha256_length.
  intros Hst Hfit Hnc. pose proof Hst as [Hc (f & Hf & Hs) _ _]. destruct (core_image_ok sha256 sha256_length f c Hc Hf) as [Hi1 Hi2].
  unfold apply_snapshot. apply cwp_bind, cwp_refuse_poisoned; [intros _|intros _; by apply snapshot_refused_same].
  apply cwp_bind, cwp_get. destruct (N.ltb_spec (sm_index (sn_metadata s)) (core_first_index c)) as [|Hlow];
    [by apply cwp_lift, snapshot_refused_same|].
  destruct (N.ltb_spec MAX_SNAPSHOT_BYTES (blen (sn_data s))) as [|Hmax]; [by apply cwp_lift, snapshot_refused_same|].
  apply cwp_bind. eapply fenced_wp; [done|by rewrite (exactly_file _ _ _ Hs)|done|done| |by intros; apply snapshot_refused_same|by apply snapshot_stopped].
  intros _. set (t0 := hs_term (c_hard_state c)). cbn zeta. apply cwp_bind, cwp_io.
  apply (new_payload_wp c); [done|done|done| |intros d' e Hst'; split; [by apply snapshot_refused|by apply snapshot_stopped]].
  clear d Hst Hs. intros d Hst Hp. apply cwp_bind, cwp_get. apply cwp_bind, cwp_modify.
  set (c2 := with_applied _ _). set (t := hs_term (c_hard_state c2)).
  destruct (fits_image (installing s c) t Hfit) as [Hg1 Hg2]; [apply Hfit|].
  assert (Hreads : log_reads (core_image t c2) (log_of (c_entries c)) []).
  { by apply pending_log_reads. }
  apply cwp_bind. eapply cwp_mono; [apply (persist_new_wp c c2 (sn_data s) []); [exact Hg1|exact Hg2|exact Hreads|done|exact Hst|exact Hp]| |].
  2:{ intros d' Hd'. exact Hd'. }
  intros [[]|e] c' d' Hr.
  2:{ destruct Hr as [(c'' & (g & [->| ->]) & ->) Ha]; split; [left; exists g; by destruct c as [[] ? ? ? ? ? ? ? ? ? ?]|exact Ha|by right|exact Ha]. }
  destruct Hr as (-> & Hr & Hl). apply cwp_bind, cwp_modify. apply cwp_bind, cwp_io.
  eapply (drop_payloads_wp c2 (sn_data s) []); [done|done|done|]. clear d Hst Hp d' Hr Hl. intros d Hr Hl.
  split; [|by apply (recoverable_replaced c c2 (sn_data s) [])].
  apply cwp_inspect. eapply cwp_mono; [eapply (reset_log_wp c2 (sn_data s)); [exact Hr|exact Hl]| |].
  2:{ intros d' Hr'. by apply (recoverable_replaced c c2 (sn_data s) []). }
  intros [[]|e] c' d' [Hr' Hx].
  - destruct Hx as [-> Hl']. split; [by exists t|].
    eapply (stored_of t); [apply Hg1|exact Hr'|exact Hl'|done|done|apply consecutive_nil|done].
  - split; [by right|]. by apply (recoverable_replaced c c2 (sn_data s) []).
Qed.

(** ** Recording a snapshot of one's own *)

Definition snapshot_term (index : N) (c : Core) : N :=
  match term_of index c with
  | Ok term => term
  | Err _ => 0
  end.
Definition recording (index : N) (data : list byte) (events : N) (c : Core) : Core :=
  with_applied (Counted events) (with_snapshot (mkMetadata index (snapshot_term index c)) (sha256 data) c).
Definition recorded_core (index : N) (data : list byte) (events : N) (c : Core) : Core :=
  with_entries (above index c) (record_offsets 8 (above index c)) (with_snapshot_data data (recording index data events c)).

(** An index whose term is known is the snapshot's or an entry's. *)
Lemma term_of_ok index c term : core_ok c → term_of index c = Ok term →
  word term ∧ (base c ≤ index → index ≤ base c + blen (c_entries c))%N.
Proof.
  intros Hc. pose proof (last_index_eq sha256 c Hc) as Hl. unfold term_of. destruct (N.eqb_spec index (base c)) as [->|Hne].
  - intros [= <-]. split; [apply (co_image _ _ Hc)|lia].
  - destruct (_ || _) eqn:Eo; [done|]. apply orb_false_iff in Eo as [_ E2]. apply N.ltb_ge in E2. rewrite Hl in E2.
    destruct (c_entries c !! _) as [e|] eqn:E; [|done]. intros [= <-]. split; [|lia].
    eapply Forall_lookup in E; [|apply Hc]. apply E.
Qed.

Lemma events_word index c events : events_through index c = Ok events → word events ∧ ∃ n, c_applied c = Counted n.
Proof.
  unfold events_through. destruct (c_applied c) as [n|]; [|done]. unfold checked_add_u64.
  destruct (N.ltb_spec (n + blen (filter (λ e, carries_ledger_event e = true) (filter (λ e, (e_index e ≤ index)%N) (c_entries c)))) (2 ^ 64)) as [H|];
    [|done]. intros [= <-]. split; [exact H|by exists n].
Qed.

Lemma recording_fits index data events c : core_ok c → word index → word (snapshot_term index c) → word events →
  snapshot_fits (recording index data events c).
Proof using sha256_length.
  intros Hc Hi Ht He. pose proof (co_image _ _ Hc) as [H1 H2 H3 H4 H5 H6]. split.
  - constructor; [exact H1|exact H2|split; [exact Hi|exact Ht]|apply sha256_length|exact H5|exact He].
  - pose proof (co_state_size _ _ Hc) as Hz. eapply N.le_trans; [|exact Hz]. apply N.eq_le_incl.
    unfold RaftFormat.encode_state, blen. rewrite !length_app, !sha256_length. do 2 f_equal.
    unfold state_body. rewrite !length_app, !length_le_bytes. cbn [core_image recording with_applied with_snapshot
      si_hard_state si_conf_state si_snapshot si_snapshot_digest si_applied c_hard_state c_conf_state c_snapshot_digest c_applied].
    cbn [core_image si_snapshot_digest] in H4. rewrite H4, sha256_length. destruct (c_applied c); cbn [applied_bytes length]; rewrite !length_le_bytes; reflexivity.
Qed.

Section recording.
Context (c : Core) (index : N) (data : list byte) (events : N) (f t : N).
Local Abbreviation c2 := (with_fence f (recording index data events c)).
Local Abbreviation i2 := (core_image (hs_term (c_hard_state c2)) c2).
Local Abbreviation c4 := (with_snapshot_data data (with_fence t c2)).
Local Abbreviation kept := (above index c).
Context (Hc : core_ok c) (Hlow : (base c ≤ index)%N) (Hhigh : (index ≤ base c + blen (c_entries c))%N).

Lemma above_size : (blen (log_of kept) ≤ RAFT_LOG_BYTES)%N.
Proof using Hc.
  clear Hlow Hhigh. eapply N.le_trans; [|exact (co_size _ _ Hc)]. rewrite <- (take_drop (N.to_nat (index - base c)) (c_entries c)).
  unfold above, RaftDisk.log_of. rewrite records_app. unfold blen. rewrite !length_app. lia.
Qed.

Lemma kept_recoverable d d' : recoverable i2 data (eq kept) d → untouched log_names d d' → is_Some (file_at d' LOG) →
  allows d' LOG (λ x, (∃ b es, x = Some b ∧ log_reads i2 b es ∧ kept = es) ∨ x = Some (log_of kept)) →
  recoverable i2 data (eq kept) d'.
Proof using Hc Hlow.
  destruct (above_split index c Hc Hlow) as (_ & H2 & H3). apply (replace_log_recoverable c2 data kept H3 H2 above_size).
Qed.

(** Positions do not depend on the snapshot while there are entries. *)
Lemma compact_positions : c_entries c ≠ [] →
  core_first_index c4 = (base c + 1)%N ∧ core_last_index c4 = (base c + blen (c_entries c))%N.
Proof using Hc.
  clear Hlow Hhigh. intros Hne. pose proof (co_consecutive _ _ Hc) as Hs. rewrite <- (last_index_eq sha256 c Hc).
  unfold core_first_index, core_last_index. cbn [c_entries with_snapshot_data with_fence recording with_applied with_snapshot].
  destruct (c_entries c) as [|e es]; [done|]. apply consecutive_cons in Hs as [He _]. cbn [hd_error]. rewrite He.
  split; [done|]. destruct (last (e :: es)) eqn:E; [done|]. by apply last_None in E.
Qed.

Lemma compact_to_wp d : recoverable i2 data (eq kept) d → exactly d LOG (log_of (c_entries c)) →
  cwp (compact_to sha256 index) c4 (λ r c' d', recoverable i2 data (eq kept) d' ∧
     (r = Ok tt → c' = with_entries kept (record_offsets 8 kept) c4 ∧ exactly d' LOG (log_of kept)))
    (recoverable i2 data (eq kept)) d.
Proof using Hc Hlow Hhigh.
  intros Hr Hl. unfold compact_to. apply cwp_bind, cwp_get.
  destruct (N.ltb_spec index (core_first_index c4)) as [Hi|Hi].
  { apply cwp_ret. split; [done|]. intros _. assert (kept = c_entries c) as ->.
    { unfold above. destruct (decide (c_entries c = [])) as [->|Hne]; [by rewrite drop_nil|].
      destruct (compact_positions Hne) as [Hp _]. rewrite Hp in Hi. by replace (N.to_nat (index - base c)) with 0 by lia. }
    split; [|done]. rewrite <- (co_offsets _ _ Hc). by destruct c. }
  destruct (N.ltb_spec (core_last_index c4) index) as [Hx|Hx]; [apply cwp_lift; by split|].
  cbn zeta. destruct (Nat.ltb_spec (length (c_entries c4)) (N.to_nat (index - core_first_index c4) + 1)) as [Hy|Hy]; [apply cwp_lift; by split|].
  assert (Hne : c_entries c ≠ []) by (intros E; cbn in Hy; rewrite E in Hy; cbn in Hy; lia).
  destruct (compact_positions Hne) as [Hp _]. rewrite Hp in *.
  replace (drop (N.to_nat (index - (base c + 1)) + 1) (c_entries c4)) with kept by (unfold above; cbn; f_equal; lia).
  assert (Hf : ∀ d', untouched (eq REWRITE) d d' → untouched log_names d d' ∧ exactly d' LOG (log_of (c_entries c)) ∧ recoverable i2 data (eq kept) d').
  { intros d' Hu. split; [apply (untouched_mono _ _ _ _ Hu); intros n <-; by right|]. split; [by eapply untouched_exactly|].
    eapply recoverable_untouched; [exact Hu|done|done| |done]. intros E. symmetry in E. by apply payload_ne_fixed in E; [|unfold fixed_name; tauto]. }
  apply cwp_bind, cwp_io. apply write_scratch_log_wp.
  2:{ intros d' e Hu. destruct (Hf d' Hu) as (_ & _ & Hr'). by split; [split|]. }
  intros d1 Hu1 Hf1. destruct (Hf d1 Hu1) as (_ & Hl1 & Hr1). apply cwp_bind, cwp_io.
  apply (rename_log_wp (log_of kept) (λ x, ∃ b es, x = Some b ∧ log_reads i2 b es ∧ kept = es)); [done|by rewrite (exactly_file _ _ _ Hl1)|apply Hr1| |].
  2:{ intros d2 e Hu2 His Ha. assert (recoverable i2 data (eq kept) d2); [by apply (kept_recoverable d1)|]. by split; [split|]. }
  intros d2 Hu2 Hf2 Ha2. assert (Hr2 : recoverable i2 data (eq kept) d2) by (apply (kept_recoverable d1); [done|done|by rewrite Hf2|done]).
  apply cwp_bind, cwp_modify, cwp_io. apply wp_sync_parent; [|by split|done]. split.
  - eapply recoverable_untouched; [apply (untouched_sync (λ _, False))|tauto..|done].
  - intros _. split; [done|by apply sync_exactly].
Qed.
End recording.

Lemma record_snapshot_within_wp index data floor c d : stored c d → no_collision data (c_snapshot_data c) →
  cwp (record_snapshot_within sha256 index data floor) c (snapshot_result c (recorded_core index data (rf_index floor) c))
    (λ d', after_crash d' (before_or_after c (recorded_core index data (rf_index floor) c))) d.
Proof using sha256_length.
  intros Hst Hnc. pose proof Hst as [Hc (f & Hf & Hs) _ _]. destruct (core_image_ok sha256 sha256_length f c Hc Hf) as [Hi1 Hi2].
  set (next := recorded_core index data (rf_index floor) c). unfold record_snapshot_within.
  apply cwp_bind, cwp_refuse_poisoned; [intros _|intros _; by apply snapshot_refused_same]. apply cwp_bind, cwp_get.
  destruct (N.ltb_spec (hs_commit (c_hard_state c)) index) as [|Hcommit]; [by apply cwp_lift, snapshot_refused_same|].
  destruct (N.ltb_spec index (base c)) as [|Hlow]; [by apply cwp_lift, snapshot_refused_same|].
  destruct (N.ltb_spec MAX_SNAPSHOT_BYTES (blen data)) as [|Hmax]; [by apply cwp_lift, snapshot_refused_same|].
  apply cwp_bind, cwp_lift. destruct (term_of index c) as [term|e] eqn:Et; [|by apply snapshot_refused_same].
  apply cwp_bind, cwp_lift. destruct (events_through index c) as [events|e] eqn:Ee; [|by apply snapshot_refused_same]. cbn zeta.
  destruct (N.compare_spec events (rf_index floor)) as [Heq|_|_]; [|by apply cwp_lift, snapshot_refused_same..].
  apply cwp_bind. eapply fenced_wp; [done|by rewrite (exactly_file _ _ _ Hs)|done|done| |by intros; apply snapshot_refused_same|by apply snapshot_stopped].
  intros _. set (t0 := hs_term (c_hard_state c)). destruct (events_word _ _ _ Ee) as [Hev (already & Ha)]. rewrite Ha.
  apply cwp_bind, cwp_io. apply (new_payload_wp c); [done|done|done| |intros d' e Hst'; split; [by apply snapshot_refused|by apply snapshot_stopped]].
  clear d Hst Hs. intros d Hst Hp. apply cwp_bind, cwp_modify.
  destruct (term_of_ok _ _ _ Hc Et) as [Hterm Hhigh]. specialize (Hhigh Hlow).
  assert (Est : snapshot_term index c = term) by (unfold snapshot_term; by rewrite Et).
  pose proof (co_image _ _ Hc) as [Hhard _ _ _ _ _]. assert (Hwi : word index) by (eapply N.le_lt_trans; [exact Hcommit|apply Hhard]).
  assert (Hfit : snapshot_fits (recording index data events c)) by (apply recording_fits; [done|done|by rewrite Est|done]).
  destruct (fits_image _ t0 Hfit) as [Hg1 Hg2]; [apply Hhard|].
  replace (with_applied _ _) with (with_fence t0 (recording index data events c)) by (unfold recording; by rewrite Est).
  set (c2 := with_fence t0 (recording index data events c)). subst events. fold next.
  apply cwp_bind. eapply cwp_mono; [apply (persist_new_wp c c2 data (above index c)); [exact Hg1|exact Hg2| |done|exact Hst|exact Hp]| |].
  { exact (compacted_log_reads (core_image t0 c2) index c Hc Hlow eq_refl). }
  2:{ intros d' Hd'. exact Hd'. }
  intros [[]|e] c' d' Hr.
  2:{ destruct Hr as [(c'' & (g & [->| ->]) & ->) Hafter]; split; [left; exists g|exact Hafter|by right|exact Hafter].
      rewrite <- Ha. by destruct c. }
  destruct Hr as (-> & Hr & Hl). apply cwp_bind, cwp_modify. apply cwp_bind, cwp_io.
  eapply (drop_payloads_wp c2 data (above index c)); [done|done|done|]. clear d Hst Hp d' Hr Hl. intros d Hr Hl.
  split; [|by apply (recoverable_replaced c c2 data (above index c))].
  apply cwp_inspect. eapply cwp_mono; [apply (compact_to_wp c index data (rf_index floor) t0 t0 Hc Hlow Hhigh d Hr Hl)| |].
  2:{ intros d' Hr'. by apply (recoverable_replaced c c2 data (above index c)). }
  intros [[]|e] c' d' [Hr' Hx].
  - destruct (Hx eq_refl) as [-> Hl']. destruct (above_split index c Hc Hlow) as (_ & H2 & H3). split; [by exists t0|].
    eapply (stored_of t0); [apply Hg1|exact Hr'|exact Hl'|done|exact H3|exact H2|by apply above_size].
  - split; [by right|]. by apply (recoverable_replaced c c2 data (above index c)).
Qed.
End Snapshot.
