(* ===== verification/RaftCrash.v ===== *)
(** * The durable state of a Raft node across crashes

    Every operation of the storage under any failures of system calls and a stop of
    the machine at any of them, followed by any number of restarts: what was
    acknowledged is there, what was not is there as a whole or not at all, entries of
    an append one by one.  Then: writers that another one has fenced, what the
    consensus library reads, and two runs in which a process restarts while the
    machine does not. *)

From S2P Require Import Prelude Bytes Text Types LedgerEvents LedgerChecks LedgerCodec Integrity IntegrityLog.
From S2P Require Import Storage Anchor FileLedger Compaction.
From S2P Require Import RaftFormat RaftFormatFacts RaftStorage RaftDisk RaftState RaftAppend RaftSnapshot.
From Stdlib Require Import Lia.
From stdpp Require Import options.

(** ** Operations *)

Inductive raft_op :=
| OpState (x : state_change)
| OpAppend (entries : list Entry)
| OpInstall (s : Snapshot)
| OpRecord (index : N) (data : list byte) (floor : RetentionFloor).

Section Crash.
Context (sha256 : list byte → list byte).
(** A SHA-256 digest has 32 bytes. *)
Context (sha256_length : ∀ x, length (sha256 x) = 32).
Abbreviation stored := (stored sha256).
Abbreviation after_crash := (after_crash sha256).
Abbreviation recoverable := (recoverable sha256).

Definition run_op (op : raft_op) : core_prog unit :=
  match op with
  | OpState x => run_change sha256 x
  | OpAppend entries => raft_append sha256 entries
  | OpInstall s => apply_snapshot sha256 s
  | OpRecord index data floor => record_snapshot_within sha256 index data floor
  end.

(** The state the operation leads to. *)
Definition op_core (op : raft_op) (c : Core) : Core :=
  match op with
  | OpState x => change_core x c
  | OpAppend entries => append_core sha256 c entries
  | OpInstall s => installed sha256 s c
  | OpRecord index data floor => recorded_core sha256 index data (rf_index floor) c
  end.

(** Its arguments inhabit their types and fit the state file, and a payload does
    not collide with the one in service. *)
Definition op_fits (op : raft_op) (c : Core) : Prop :=
  match op with
  | OpState x => change_fits sha256 x c
  | OpAppend entries => Forall entry_typed entries
  | OpInstall s => snapshot_fits sha256 (installing sha256 s c) ∧ no_collision sha256 (sn_data s) (c_snapshot_data c)
  | OpRecord index data floor => no_collision sha256 data (c_snapshot_data c)
  end.

(** All that the files hold of a core. *)
Definition same_core (c c' : Core) : Prop :=
  core_image 0 c = core_image 0 c' ∧ c_snapshot_data c = c_snapshot_data c' ∧ c_entries c = c_entries c'.

(** What may be found after an operation that was not acknowledged. *)
Definition op_found (op : raft_op) (c c' : Core) : Prop :=
  same_core c' c ∨ same_core c' (op_core op c) ∨
  match op with
  | OpAppend entries =>
      ∃ n, same_core c' (with_entries (take (append_keep c entries) (c_entries c) ++ take n entries) [] c)
  | _ => False
  end.

Definition op_outcome (op : raft_op) (c : Core) (i : StateImage) (data : list byte) (es : list Entry) : Prop :=
  ∀ c', describes i c' → c_snapshot_data c' = data → c_entries c' = es → op_found op c c'.

Lemma describes_same i c c' : describes i c → describes i c' → core_image 0 c' = core_image 0 c.
Proof.
  unfold describes. intros H H'. rewrite (core_image_fence 0 c), (core_image_fence 0 c').
  assert (∀ x, with_si_fence 0 (core_image 0 x) = with_si_fence 0 (core_image (si_fence i) x)) as E by done.
  by rewrite !E, <- H, <- H'.
Qed.

Lemma after_crash_mono d (S S' : StateImage → list byte → list Entry → Prop) :
  after_crash d S → (∀ i data es, S i data es → S' i data es) → after_crash d S'.
Proof.
  intros H HS d' Hc. destruct (H d' Hc) as (i & data & []). exists i, data. split; [done..|].
  apply (allows_mono _ _ _ _ rv_reads). intros x (b & es & -> & Hb & Hes). exists b, es. auto.
Qed.

Definition op_result (op : raft_op) (c : Core) (r : result fault unit) (c' : Core) (d' : disk) : Prop :=
  match r with
  | Ok _ => (∃ f, c' = with_fence f (op_core op c)) ∧ stored c' d'
  | Err _ => ((∃ f, c' = with_fence f c) ∨ c_health c' = Poisoned) ∧ after_crash d' (op_outcome op c)
  end.

Lemma op_wp op c d : stored c d → op_fits op c →
  cwp (run_op op) c (op_result op c) (λ d', after_crash d' (op_outcome op c)) d.
Proof using sha256_length.
  intros Hst Hfit.
  assert (Hboth : ∀ next, op_core op c = next → ∀ d', after_crash d' (before_or_after c next) → after_crash d' (op_outcome op c)).
  { intros next <- d' Ha. apply (after_crash_mono _ _ _ Ha). intros i data es [(H1 & -> & ->)|(H1 & -> & ->)] c' Hi Hd He.
    - left. split_and!; [by eapply describes_same|done|done].
    - right. left. split_and!; [by eapply describes_same|done|done]. }
  destruct op as [x|es|s|index data floor]; cbn [run_op op_fits] in *.
  - assert (Ho : ∀ d', after_crash d' (old_or_new x c) → after_crash d' (op_outcome (OpState x) c)).
    { intros d' Ha. apply (Hboth (change_core x c)); [done|]. apply (after_crash_mono _ _ _ Ha).
      intros i data es ([H|H] & -> & ->); [by left|right]. by destruct x. }
    eapply cwp_mono; [by apply change_wp| |exact Ho]. intros [[]|e] c' d' Hr; [exact Hr|].
    destruct Hr as [(f & [->| ->]) Ha]; split; [left; by exists f|by apply Ho|by right|by apply Ho].
  - assert (Ho : ∀ d', after_crash d' (append_outcome c es) → after_crash d' (op_outcome (OpAppend es) c)).
    { intros d' Ha. apply (after_crash_mono _ _ _ Ha). intros i data found (H1 & -> & Hf) c' Hi Hd He.
      destruct Hf as [->|(n & ->)]; [left|right; right; exists n]; (split_and!; [by eapply describes_same|done|done]). }
    eapply cwp_mono; [by apply raft_append_wp| |exact Ho]. intros [[]|e] c' d' Hr; [exact Hr|].
    destruct Hr as [[(f & ->) Hs]|[(f & ->) Ha]]; split; [by left; exists f| |by right|by apply Ho].
    apply stored_fence in Hs. eapply stored_after_crash; [done|exact Hs|]. intros g c' Hi Hd He.
    left. split_and!; [by eapply (describes_same (core_image g c))|done|done].
  - destruct Hfit as [H1 H2]. eapply cwp_mono; [by apply apply_snapshot_wp| |by apply Hboth].
    intros [[]|e] c' d' Hr; [exact Hr|]. destruct Hr as [Hr Ha]. split; [exact Hr|]. revert Ha. by apply Hboth.
  - eapply cwp_mono; [by apply record_snapshot_within_wp| |by apply Hboth].
    intros [[]|e] c' d' Hr; [exact Hr|]. destruct Hr as [Hr Ha]. split; [exact Hr|]. revert Ha. by apply Hboth.
Qed.

(** ** Restarts *)

(** The machine crashes, and the storage is opened until an opening succeeds; the
    machine may crash again during each of them or after it. *)
Inductive restarts : disk → Core → disk → Prop :=
| restart_opens d d1 voters learners o c w :
    crashes_to d d1 → raft_open sha256 voters learners {| w_disk := d1; w_oracle := o |} = (Some (Ok c), w) →
    restarts d c (w_disk w)
| restart_again d d1 voters learners o r w c d' :
    crashes_to d d1 → raft_open sha256 voters learners {| w_disk := d1; w_oracle := o |} = (r, w) →
    restarts (w_disk w) c d' → restarts d c d'.

Lemma crash_recovers d d1 S : after_crash d S → crashes_to d d1 →
  ∃ i data es b, S i data es ∧ recoverable i data (eq es) d1 ∧ exactly d1 LOG b.
Proof.
  intros Ha Hc. destruct (Ha d1 Hc) as (i & data & [Hs Hi Hp [f Hf] Hr]). destruct (crash_settles d d1 LOG Hc) as [_ He].
  rewrite Hf in He. cbn [fmap option_fmap option_map] in He. assert (Hl : exactly d1 LOG (content f)) by exact He.
  destruct (Hr (Some (content f))) as (b & es & [= <-] & Hb & HS); [by apply possible_content|].
  exists i, data, es, (content f). split; [done|]. split; [|done]. split; [done|done|done|by rewrite Hf|].
  eapply exactly_allows; [exact Hl|]. by exists (content f), es.
Qed.

Lemma restarts_found d c d' S : restarts d c d' → after_crash d S →
  stored c d' ∧ c_health c = Sound ∧ ∃ i, describes i c ∧ S i (c_snapshot_data c) (c_entries c).
Proof using sha256_length.
  intros Hr. revert S. induction Hr as [d d1 vs ls o c w Hc Ho|d d1 vs ls o r w c d' Hc Ho _ IH]; intros S Ha;
    destruct (crash_recovers _ _ _ Ha Hc) as (i & data & es & b & HS & Hr & Hl);
    pose proof (open_wp sha256 sha256_length vs ls i data es b d1 Hr Hl o) as Hw; rewrite Ho in Hw.
  - destruct Hw as [_ Hw]. destruct (Hw c eq_refl) as [[H1 H2 H3 H4] Hst]. split; [done|]. split; [done|].
    exists i. split; [done|]. by rewrite H2, H3.
  - apply IH. assert (recoverable i data (eq es) (w_disk w)) as Hr'; [destruct r; [apply Hw|exact Hw]|].
    eapply recoverable_after_crash; [exact Hr'|]. by intros es' <-.
Qed.

(** C3: the durable state of a Raft node is crash safe.  Start from a storage in
    step with its files and run any operation (hard state, commit, applied count or
    configuration; an append; installing or recording a snapshot), with arguments
    within [op_fits]: their fields are in the range of their types, the state file
    stays within the 1 MiB that its reader accepts (the writer does not check it), and
    a new snapshot does not collide in SHA-256 with the one in service.  Whichever
    system calls fail and wherever the machine stops: if the operation returns success,
    memory holds its result and is in step with the files again, and every restart
    after any crashes comes up with exactly that result.  If it returns an error,
    memory is as before or the storage is poisoned; and then, or if the machine
    stopped, every restart comes up with the state before or the state after, for
    an append also with the entries it keeps and a prefix of the new ones: term,
    vote, log, snapshot position and payload always fit together. *)
Theorem raft_operations_crash_safe op c d o : stored c d → op_fits op c →
  let '(r, w) := run_op op c {| w_disk := d; w_oracle := o |} in
  match r with
  | Some (Ok _, c') => (∃ f, c' = with_fence f (op_core op c)) ∧ stored c' (w_disk w)
  | Some (Err _, c') => (∃ f, c' = with_fence f c) ∨ c_health c' = Poisoned
  | None => True
  end ∧
  ∀ c'' d'', restarts (w_disk w) c'' d'' →
    stored c'' d'' ∧ c_health c'' = Sound ∧
    match r with
    | Some (Ok _, c') => same_core c'' c'
    | _ => op_found op c c''
    end.
Proof using sha256_length.
  intros Hst Hfit. pose proof (op_wp op c d Hst Hfit o) as Hw. destruct (run_op op c _) as [[[[[]|e] c']|] w]; cbn [fst snd] in Hw.
  - split; [exact Hw|]. intros c'' d'' Hr. destruct Hw as [_ Hs].
    destruct (restarts_found _ _ _ (λ i data es, describes i c' ∧ data = c_snapshot_data c' ∧ es = c_entries c') Hr) as (H1 & H2 & i & Hi & Hx & Hd & He).
    { by eapply stored_after_crash. }
    split; [done|]. split; [done|]. split; [by eapply describes_same|done].
  - destruct Hw as [Hk Ha]. split; [exact Hk|]. intros c'' d'' Hr.
    destruct (restarts_found _ _ _ _ Hr Ha) as (H1 & H2 & i & Hi & Ho). split_and!; [done|done|by apply Ho].
  - split; [done|]. intros c'' d'' Hr. destruct (restarts_found _ _ _ _ Hr Hw) as (H1 & H2 & i & Hi & Ho).
    split_and!; [done|done|by apply Ho].
Qed.

(** ** Fencing *)

(** The term under which the operation writes. *)
Definition op_term (op : raft_op) (c : Core) : N :=
  match op with
  | OpState (SetHardState h) => hs_term h
  | _ => hs_term (c_hard_state c)
  end.

(** C31: a fenced writer changes nothing.  When the state file on disk names a fence
    above the term an operation writes under, whoever wrote it, then the operation
    (an append of no entries aside) returns an error and no file changes, whatever
    this writer believes about the storage. *)
Theorem fenced_writer_changes_nothing op c d o i :
  content <$> file_at d STATE = Some (encode_state sha256 i) → image_ok i →
  (blen (encode_state sha256 i) ≤ MAX_STATE_BYTES)%N → (op_term op c < si_fence i)%N → op ≠ OpAppend [] →
  let '(r, w) := run_op op c {| w_disk := d; w_oracle := o |} in
  w_disk w = d ∧ match r with Some (Ok _, _) => False | _ => True end.
Proof using sha256_length.
  intros Hs Hi Hz Hlt Hne.
  assert (Hf : ∀ c' (Q : result fault N → Core → disk → Prop) C, (hs_term (c_hard_state c') < si_fence i)%N →
    (∀ e, Q (Err e) c' d) → C d → cwp (fenced_to sha256) c' Q C d).
  { intros c' Q C Ht He HC. eapply fenced_wp; [done|done|done|done| |done|done]. lia. }
  assert (Hp : ∀ c' (Q : result fault unit → Core → disk → Prop) C, (hs_term (c_hard_state c') < si_fence i)%N →
    (∀ e c'', Q (Err e) c'' d) → C d → cwp (persist_state sha256) c' Q C d).
  { intros c' Q C Ht He HC. unfold persist_state. apply cwp_bind, cwp_refuse_poisoned; [intros _|intros _; apply He].
    apply cwp_bind, Hf; [done|intros e; apply He|done]. }
  assert (Hw : cwp (run_op op) c (λ r _ d', d' = d ∧ ∃ e, r = Err e) (λ d', d' = d) d).
  { destruct op as [x|es|s|index data floor]; cbn [run_op op_term] in *.
    - eapply cwp_eq; [apply run_change_eq|]. apply cwp_inspect, Hp; [by destruct x|eauto|done].
    - unfold raft_append. apply cwp_bind, cwp_refuse_poisoned; [intros _|eauto]. destruct es as [|e es]; [done|].
      apply cwp_bind, Hf; [done|eauto|done].
    - unfold apply_snapshot. apply cwp_bind, cwp_refuse_poisoned; [intros _|eauto]. apply cwp_bind, cwp_get.
      repeat (destruct (_ <? _)%N; [apply cwp_lift; unfold refuse; by eauto|]). apply cwp_bind, Hf; [done|eauto|done].
    - unfold record_snapshot_within. apply cwp_bind, cwp_refuse_poisoned; [intros _|eauto]. apply cwp_bind, cwp_get.
      repeat (destruct (_ <? _)%N; [apply cwp_lift; unfold refuse; by eauto|]).
      apply cwp_bind, cwp_lift. destruct (term_of index c); [|by eauto]. apply cwp_bind, cwp_lift.
      destruct (events_through index c); [|by eauto]. cbn zeta.
      destruct (_ ?= _)%N; [|apply cwp_lift; unfold floor_refusal, refuse; by eauto..]. apply cwp_bind, Hf; [done|eauto|done]. }
  specialize (Hw o). destruct (run_op op c _) as [[[r c']|] w]; [|done]. destruct Hw as [Hd [e He]]. cbn in He. by subst r.
Qed.

(** ** Restarting succeeds *)

Lemma remove_file_runs name d : ∃ r d', runs (remove_file name) d r d'.
Proof. by eexists _, _. Qed.

Lemma remove_leftover_runs name d : ∃ d', runs (remove_leftover name) d tt d'.
Proof. destruct (remove_file_runs name d) as (r & d' & H). exists d'. eapply runs_bind; [exact H|apply runs_ret]. Qed.

Lemma remove_names_runs names d : ∃ d', runs (remove_names names) d tt d'.
Proof.
  revert d. induction names as [|n names IH]; intros d; cbn [remove_names]; [exists d; apply runs_ret|].
  destruct (remove_file_runs n d) as (r & d1 & H). destruct (IH d1) as (d2 & H2). exists d2. by eapply runs_bind.
Qed.

Lemma remove_other_payloads_runs keep d : ∃ d', runs (remove_other_payloads keep) d tt d'.
Proof.
  unfold remove_other_payloads. cbn zeta. destruct (remove_names_runs
    (filter (λ name, is_payload_file name && negb (bool_decide (name = payload_name keep)) = true) (directory d)) d) as (d' & H).
  exists d'. eapply runs_bind; [by apply runs_query|exact H].
Qed.

Lemma read_bounded_runs path max what b d : content <$> file_at d path = Some b → (blen b ≤ max)%N →
  runs (raft_read_bounded path max what) d (Ok b) d.
Proof.
  intros Hb Hm. apply fmap_Some in Hb as (f & Hf & ->). unfold raft_read_bounded.
  eapply runs_try; [apply runs_query; by rewrite Hf|]. eapply runs_try; [apply runs_query; by rewrite Hf|].
  rewrite (proj2 (N.ltb_ge _ _)) by done. eapply runs_try; [apply runs_query; by rewrite Hf|]. cbn zeta.
  rewrite limited_all by lia. rewrite (proj2 (N.ltb_ge _ _)) by done. apply runs_ret.
Qed.

Lemma load_payload_runs digest data d : payload_ok sha256 d digest data → runs (load_payload sha256 digest) d (Ok data) d.
Proof.
  intros (Hdg & Hm & Ha). unfold load_payload. destruct (Ha _ (possible_current d _)) as [Hc|[Hc ->]].
  - eapply runs_bind; [by apply read_bounded_runs|]. cbn beta iota.
    rewrite (proj2 (N.ltb_ge _ _)) by done. rewrite bool_decide_true by done. apply runs_ret.
  - apply fmap_None in Hc. eapply (runs_bind _ _ _ (Err (os_error NotFound)) d).
    + unfold raft_read_bounded, runs, ptry, pbind, open_file, syscall. cbn [w_disk w_oracle]. by rewrite Hc.
    + cbn. rewrite bool_decide_true by done. apply runs_ret.
Qed.

(** The log as it was written is read without complaint. *)
Lemma read_log_runs c d commit : core_ok sha256 c → exactly d LOG (log_of sha256 (c_entries c)) → (commit ≤ core_last_index c)%N →
  runs (read_log sha256 (sm_index (c_snapshot_metadata c)) commit) d
    (Ok (mkLogImage (c_entries c) (c_offsets c) false 0)) d.
Proof using sha256_length.
  intros Hc Hl Hlast. pose proof (exactly_file _ _ _ Hl) as Hf. set (b := log_of sha256 (c_entries c)) in *. unfold read_log.
  pose proof (co_size _ _ Hc) as Hz. fold b in Hz.
  eapply runs_try; [by apply runs_query|]. eapply runs_try; [apply runs_query; by rewrite Hf|].
  change (content (durable_file b)) with b. rewrite (proj2 (N.ltb_ge _ _)) by done.
  eapply runs_try; [apply runs_query; by rewrite Hf|]. change (content (durable_file b)) with b. rewrite limited_all by lia.
  assert (parse_log sha256 b (sm_index (c_snapshot_metadata c)) commit = Ok (mkRead (c_entries c) (c_offsets c) false None)) as ->.
  { apply parse_log_iff; [done|]. exists [], []. cbn [rs_entries rs_offsets rs_skipped rs_torn].
    split; [unfold b, RaftDisk.log_of; by rewrite app_nil_r|]. split; [exact Hz|]. split; [apply Hc|]. split; [done|].
    split; [apply Hc|]. split; [exact Hlast|]. split; [by left|]. split; [done|]. split; [apply Hc|done]. }
  eapply runs_try; [apply runs_ret|]. apply runs_ret.
Qed.

(** The files of [c], whole. *)
Definition intact (c : Core) (f : N) (d : disk) : Prop :=
  recoverable (core_image f c) (c_snapshot_data c) (eq (c_entries c)) d ∧ exactly d LOG (log_of sha256 (c_entries c)).

Lemma intact_untouched N c f d d' : untouched N d d' → ¬ N STATE → ¬ N LOG → ¬ N (payload_name (c_snapshot_digest c)) →
  intact c f d → intact c f d'.
Proof. intros Hu H1 H2 H3 [Hr Hl]. split; [by eapply recoverable_untouched|by eapply untouched_exactly]. Qed.

Lemma leftover_intact c f n d : n = atomic_scratch STATE ∨ n = REWRITE → intact c f d →
  ∃ d', runs (remove_leftover n) d tt d' ∧ intact c f d'.
Proof.
  intros Hn Hi. destruct (remove_leftover_runs n d) as (d' & Hd). exists d'. split; [exact Hd|].
  assert (Hu : untouched (eq n) d d').
  { apply (runs_wp _ _ _ _ (λ _ d', untouched (eq n) d d') (λ _, True) Hd). apply remove_leftover_wp. by intros. }
  eapply intact_untouched; [exact Hu| | | |done]; [by destruct Hn as [->| ->]..|].
  intros E. symmetry in E. apply payload_ne_fixed in E; [done|]. unfold fixed_name. tauto.
Qed.

Lemma payloads_intact c f d : intact c f d → ∃ d', runs (remove_other_payloads (c_snapshot_digest c)) d tt d' ∧ intact c f d'.
Proof.
  intros Hi. destruct (remove_other_payloads_runs (c_snapshot_digest c) d) as (d' & Hd). exists d'. split; [exact Hd|].
  assert (Hu : untouched (other_payload (c_snapshot_digest c)) d d').
  { apply (runs_wp _ _ _ _ (λ _ d', untouched (other_payload (c_snapshot_digest c)) d d') (λ _, True) Hd).
    apply remove_other_payloads_wp. by intros. }
  assert (Hne : ∀ n, fixed_name n → ¬ other_payload (c_snapshot_digest c) n).
  { intros n Hn [Hx _]. by rewrite fixed_not_payload in Hx. }
  eapply intact_untouched; [exact Hu|apply Hne; unfold fixed_name; tauto..|by intros [_ ?]|done].
Qed.

Lemma open_existing_runs c f d : core_ok sha256 c → intact c f d → (hs_commit (c_hard_state c) ≤ core_last_index c)%N →
  ∃ c' d', runs (open_existing sha256) d (Ok c') d'.
Proof using sha256_length.
  intros Hc Hi Hlast. pose proof Hi as [[Hs [H1 H2] Hp _ _] _].
  destruct (payloads_intact c f d Hi) as (d1 & Hd1 & [Hr1 Hl1]).
  eexists _, _. unfold open_existing. eapply runs_try.
  { unfold read_state. eapply runs_try; [apply read_bounded_runs; [by rewrite (exactly_file _ _ _ Hs)|exact H2]|].
    rewrite (proj2 (decode_state_iff sha256 sha256_length _ (core_image f c))) by done. apply runs_ret. }
  eapply runs_try; [by apply load_payload_runs|]. eapply runs_bind; [exact Hd1|].
  eapply runs_try; [unfold sync, runs, syscall; reflexivity|].
  eapply runs_try; [apply read_log_runs; [exact Hc|by apply exactly_sync|exact Hlast]|].
  cbn [li_skipped li_entries li_offsets li_trimmed]. rewrite andb_false_r.
  eapply runs_try; [apply runs_ret|]. cbn beta iota. apply runs_ret.
Qed.

(** C4: an acknowledged state can be reopened.  When a storage is in step with its
    files and its commit index is one its log reaches, then after every crash
    opening it succeeds if no system call fails, and comes up with that state. *)
Theorem raft_restart_succeeds c d d1 voters learners : stored c d → (hs_commit (c_hard_state c) ≤ core_last_index c)%N →
  crashes_to d d1 →
  ∃ c' w, raft_open sha256 voters learners {| w_disk := d1; w_oracle := [] |} = (Some (Ok c'), w) ∧
    same_core c' c ∧ stored c' (w_disk w) ∧ c_health c' = Sound.
Proof using sha256_length.
  intros Hst Hlast Hcr. pose proof (st_core _ _ _ Hst) as Hc. destruct (stored_recoverable sha256 sha256_length c d Hst) as (f & Hr).
  assert (Hi : intact c f d1) by (split; [by eapply recoverable_crash|eapply exactly_crash; [apply Hst|done]]).
  assert (∃ c' d', runs (raft_open sha256 voters learners) d1 (Ok c') d') as (c' & d' & Hgo).
  { destruct (leftover_intact c f (atomic_scratch STATE) d1) as (d2 & R2 & I2); [by left|done|].
    destruct (leftover_intact c f REWRITE d2) as (d3 & R3 & I3); [by right|done|]. pose proof I3 as [[Hs3 _ _ _ _] Hl3].
    destruct (open_existing_runs c f d3 Hc I3 Hlast) as (c' & d' & R). exists c', d'. unfold raft_open.
    eapply runs_try; [by apply runs_query|]. eapply runs_bind; [exact R2|]. eapply runs_bind; [exact R3|].
    eapply (runs_bind _ _ _ true d3); [unfold exists_path, runs; cbn [w_disk]; by rewrite (exactly_file _ _ _ Hs3)|].
    eapply (runs_try _ _ _ tt d3); [|exact R]. unfold open_or_create, runs, syscall. cbn [w_disk w_oracle atomic].
    by rewrite (exactly_file _ _ _ Hl3). }
  exists c', {| w_disk := d'; w_oracle := [] |}. split; [exact Hgo|].
  destruct (restarts_found d c' d' (λ i data es, describes i c ∧ data = c_snapshot_data c ∧ es = c_entries c)) as (H1 & H2 & i & Hx & Hy & Hd & He).
  - exact (restart_opens d d1 voters learners [] c' _ Hcr Hgo).
  - by eapply stored_after_crash.
  - split; [split; [by eapply describes_same|done]|done].
Qed.

(** ** A new storage *)

Section new.
Context (voters learners : list N).
Local Abbreviation fresh := (new_core sha256 voters learners).
Context (Hv : ids_ok voters) (Hl : ids_ok learners).
Context (Hsize : (blen (encode_state sha256 (core_image 0 fresh)) ≤ MAX_STATE_BYTES)%N).

Lemma fresh_ok : core_ok sha256 fresh.
Proof using sha256_length Hv Hl Hsize.
  split; [done|apply consecutive_nil|done|done| |exact Hsize].
  split; cbn; done.
Qed.

Definition comes_up (r : result fault Core) (d : disk) : Prop := ∀ c, r = Ok c → stored c d ∧ ∃ f, c = with_fence f fresh.

Lemma persist_fresh_wp d : file_at d STATE = None → file_at d LOG = Some (durable_file (log_of sha256 [])) →
  (∀ n, allows d (payload_name n) (eq None)) →
  wp (let* (persisted, core) := persist_state sha256 fresh in plift (let? _ := persisted in Ok core)) comes_up (λ _, True) d.
Proof using sha256_length Hv Hl Hsize.
  intros Hs Hlog Hp. apply wp_bind.
  enough (cwp (persist_state sha256) fresh (λ r c d', r = Ok tt → stored c d' ∧ ∃ f, c = with_fence f fresh) (λ _, True) d) as H.
  { eapply wp_mono; [exact H| |done]. intros [[[]|e] c] d' Hr; apply wp_ret; [|done]. intros c' [= <-]. by apply Hr. }
  unfold persist_state. apply cwp_bind, cwp_refuse_poisoned; [intros _|done]. apply cwp_bind.
  unfold cwp at 1, fenced_to, read_state. apply wp_bind, wp_try, read_missing_wp; [done| |by apply wp_ret|done].
  apply wp_ret. cbn beta iota. apply cwp_bind, cwp_get. apply cwp_bind, cwp_io.
  apply (atomic_write_wp _ _ (λ _, True)); [done| |done]. intros d1 Hu Hf1 _. apply cwp_inspect, cwp_io.
  apply wp_sync_parent; [|done|done]. intros _. split; [|by exists 0%N]. apply stored_fence.
  split; [apply fresh_ok|exists 0%N; split; [done|by apply sync_exactly]| |].
  - apply sync_exactly. by rewrite (untouched_file _ _ _ _ Hu state_scratch_log).
  - split_and!; [done|done|]. eapply untouched_allows; [apply (untouched_sync (λ _, False))|tauto|].
    eapply untouched_allows; [exact Hu|apply state_scratch_payload|]. apply (allows_mono _ _ _ _ (Hp _)). intros x <-. by right.
Qed.

Lemma new_storage_wp : wp (raft_open sha256 voters learners) comes_up (λ _, True) ∅.
Proof using sha256_length Hv Hl Hsize.
  unfold raft_open. apply wp_try, wp_query; [|done|done].
  assert (He : ∀ n, allows ∅ n (eq None)).
  { intros n x (g & Hg & Hx). unfold entry_at in Hg. rewrite lookup_empty in Hg. apply list_elem_of_singleton in Hg as ->. by destruct x. }
  apply wp_bind, remove_leftover_wp. intros d1 H1. split; [|done]. apply wp_bind, remove_leftover_wp. intros d2 H2. split; [|done].
  set (N12 := λ n, n = atomic_scratch STATE ∨ n = REWRITE).
  assert (Hu : untouched N12 ∅ d2).
  { eapply untouched_trans; [apply (untouched_mono _ _ _ _ H1)|apply (untouched_mono _ _ _ _ H2)]; intros n <-; [by left|by right]. }
  assert (Hnone : file_at d2 STATE = None ∧ file_at d2 LOG = None).
  { split; (rewrite (untouched_file _ _ _ _ Hu); [done|by intros [?|?]]). }
  destruct Hnone as [HS HL]. apply wp_bind, wp_exists. rewrite HS, bool_decide_false by (by intros [? ?]).
  apply wp_try, wp_atomic; rewrite HL; [|intros d' _; done]. set (d3 := rebind LOG (Some new_file) d2).
  assert (F3 : file_at d3 LOG = Some new_file) by (unfold d3; by rewrite file_rebind, bool_decide_true).
  unfold open_new. apply wp_try. eapply wp_length; [exact F3| |done|done]. cbn [content f_pending f_synced new_file foldl].
  change (8 <? blen [])%N with false. cbn iota. unfold write_log_header. apply wp_try, wp_try, wp_seek; [|done|done].
  apply wp_try. unfold write_at. apply wp_syscall; cbn beta iota; [|done]. apply wp_syscall; cbn beta iota; [|done].
  set (d4 := update LOG _ d3). set (d5 := update LOG sync_file d4).
  assert (F4 : file_at d4 LOG = Some (change_file (Append RAFT_LOG_MAGIC) new_file)) by (unfold d4; by rewrite file_update, bool_decide_true, F3).
  assert (F5 : file_at d5 LOG = Some (durable_file (log_of sha256 []))) by (unfold d5; rewrite file_update, bool_decide_true, F4 by done; done).
  assert (U5 : untouched (λ n, N12 n ∨ n = LOG) ∅ d5).
  { eapply untouched_trans; [apply (untouched_mono _ _ _ _ Hu); by left|]. unfold d5, d4, d3.
    repeat (eapply untouched_trans; [|apply untouched_update; by right]). apply untouched_rebind. by right. }
  apply persist_fresh_wp; [|exact F5|].
  - rewrite (untouched_file _ _ _ _ U5); [done|]. by intros [[?|?]|?].
  - intros n. eapply untouched_allows; [exact U5| |apply He]. intros Hn.
    apply (payload_ne_fixed (payload_name n) n); [|done]. unfold fixed_name. destruct Hn as [[->| ->]| ->]; tauto.
Qed.
End new.

(** ** What the consensus library reads *)

Lemma filter_every {A} (P : A → Prop) `{∀ x, Decision (P x)} l : Forall P l → filter P l = l.
Proof. induction 1 as [|x l Hx _ IH]; [done|]. by rewrite filter_cons_True, IH. Qed.
Lemma filter_nothing {A} (P : A → Prop) `{∀ x, Decision (P x)} l : Forall (λ x, ¬ P x) l → filter P l = [].
Proof. induction 1 as [|x l Hx _ IH]; [done|]. by rewrite filter_cons_False, IH. Qed.

Lemma consecutive_range first es low n : consecutive first es → (first ≤ low)%N →
  filter (λ e, (low ≤ e_index e)%N ∧ (e_index e < low + N.of_nat n)%N) es = take n (drop (N.to_nat (low - first)) es).
Proof.
  intros Hc Hl. set (k := N.to_nat (low - first)). rewrite <- (take_drop k es) at 1. rewrite <- (take_drop n (drop k es)) at 1.
  rewrite !filter_app. rewrite filter_nothing, filter_every, filter_nothing, app_nil_r; [done|..]; apply Forall_lookup; intros i e Hi.
  - rewrite !lookup_drop in Hi. apply Hc in Hi. lia.
  - apply lookup_take_Some in Hi as [Hi Hn]. rewrite lookup_drop in Hi. apply Hc in Hi. lia.
  - apply lookup_take_Some in Hi as [Hi Hn]. apply Hc in Hi. lia.
Qed.

(** The storage answers the consensus library with the log it holds.  For an
    index the snapshot covers, the snapshot's position, an entry and an index past
    the log, [term] answers that it is compacted, the term of the snapshot, the term
    of the entry, and that it is not yet available; a range above the snapshot and
    within the log gives the entries of that range, cut to the size asked for, and no
    panic; and a snapshot is served exactly when it covers the request and its
    payload has the digest that the state names. *)
Theorem raft_queries_exact limit_size c : core_ok sha256 c → (sm_index (c_snapshot_metadata c) + 1 < 2 ^ 64)%N →
  let base := sm_index (c_snapshot_metadata c) in
  let last := core_last_index c in
  (∀ index, (index < base)%N → raft_term index c = Err Compacted) ∧
  raft_term base c = Ok (sm_term (c_snapshot_metadata c)) ∧
  (∀ e, e ∈ c_entries c → raft_term (e_index e) c = Ok (e_term e)) ∧
  (∀ index, (last < index)%N → raft_term index c = Err Unavailable) ∧
  (∀ low high size, (low ≤ base)%N → raft_entries limit_size low high size c = Err Compacted) ∧
  (∀ low high size, (base < low)%N → (low ≤ high)%N → (high ≤ last + 1)%N → (last + 1 < 2 ^ 64)%N →
     raft_entries limit_size low high size c =
     Ok (limit_size (filter (λ e, (low ≤ e_index e)%N ∧ (e_index e < high)%N) (c_entries c)) size)) ∧
  (∀ request s, raft_snapshot sha256 request c = Ok s ↔
     (request ≤ base)%N ∧ sha256 (c_snapshot_data c) = c_snapshot_digest c ∧ s = core_snapshot c).
Proof.
  intros Hc Hb base last. pose proof (first_index_eq sha256 c Hc Hb) as Hf. pose proof (last_index_eq sha256 c Hc) as Hl.
  fold base in Hf, Hl. fold last in Hl. unfold raft_term, raft_entries, raft_snapshot. fold base last. rewrite Hf. split_and!.
  - intros index Hi. rewrite (proj2 (N.eqb_neq _ _)), (proj2 (N.ltb_lt _ _)) by lia. done.
  - by rewrite N.eqb_refl.
  - intros e [k Hk]%list_elem_of_lookup. pose proof (lookup_lt_Some _ _ _ Hk). pose proof (co_consecutive _ _ Hc _ _ Hk) as He.
    fold base in He. unfold blen in Hl. rewrite (proj2 (N.eqb_neq _ _)), !(proj2 (N.ltb_ge _ _)) by lia.
    replace (N.to_nat (e_index e - (base + 1))) with k by lia. by rewrite Hk.
  - intros index Hi. rewrite (proj2 (N.eqb_neq _ _)), (proj2 (N.ltb_ge _ _)), (proj2 (N.ltb_lt _ _)) by lia. done.
  - intros low high size Hi. rewrite (proj2 (N.ltb_lt _ _)) by lia. done.
  - intros low high size H1 H2 H3 H4. unfold saturating_add_u64. rewrite N.min_l by lia.
    rewrite !(proj2 (N.ltb_ge _ _)) by lia. cbn [orb]. do 2 f_equal.
    rewrite <- (consecutive_range (base + 1) (c_entries c) low (N.to_nat (high - low))) by (apply Hc || lia).
    rewrite N2Nat.id, N.add_comm, N.sub_add by lia. done.
  - intros request s. unfold payload_matches_state. destruct (N.ltb_spec base request) as [Hr|Hr]; cbn [orb].
    + split; [done|]. intros [? _]. lia.
    + case_bool_decide as Hp; cbn [negb]; [split; [by intros [= <-]|by intros (_ & _ & ->)]|split; [done|by intros (_ & ? & _)]].
Qed.
End Crash.

(** * Runs of a storage

    With a toy digest: a member of three that votes, appends and takes a snapshot. *)

Definition demo_open (d : disk) : option (result fault Core) * world :=
  raft_open toy_sha256 [1; 2; 3]%N [] {| w_disk := d; w_oracle := [] |}.
Definition up (x : option (result fault Core) * world) : Core :=
  match x.1 with
  | Some (Ok c) => c
  | _ => new_core toy_sha256 [] []
  end.
Definition demo_call (m : core_prog unit) (x : Core * disk) (o : list verdict) : option (result fault unit * Core) * world :=
  m x.1 {| w_disk := x.2; w_oracle := o |}.
Definition after_call (x : Core * disk) (y : option (result fault unit * Core) * world) : Core * disk :=
  (match y.1 with Some (_, c) => c | None => x.1 end, w_disk y.2).
Definition after_open (d : disk) : Core * disk := (up (demo_open d), w_disk (demo_open d).2).

Definition demo_start : Core * disk := after_open ∅.

Lemma demo_stored : stored toy_sha256 demo_start.1 demo_start.2.
Proof.
  pose proof (new_storage_wp toy_sha256 toy_sha256_length [1; 2; 3]%N []) as H.
  assert (ids_ok [1; 2; 3]%N) as H1 by (split; [done|repeat constructor]).
  assert (ids_ok []) as H2 by (split; [done|constructor]).
  assert ((blen (encode_state toy_sha256 (core_image 0 (new_core toy_sha256 [1; 2; 3]%N []))) ≤ MAX_STATE_BYTES)%N) as H3 by (vm_compute; done).
  specialize (H H1 H2 H3 []). unfold demo_start, after_open, up. fold (demo_open ∅) in H.
  destruct (demo_open ∅) as [[[c|e]|] w] eqn:E; [|by vm_compute in E..]. cbn [fst snd]. by apply H.
Qed.

Definition demo_entry (index : N) : Entry := mkEntry index 1 EntryNormal [] [x41; x42].
Definition demo_vote : raft_op := OpState (SetHardState (mkHardState 1 2 0)).

(** The vote is recorded; the calls proceed up to the directory, where the machine
    stops: a restart finds the old vote or the new one. *)
Definition before_dir_sync : list verdict := replicate 7 Proceeds ++ [Halts 0].

Lemma raft_operations_crash_safe_witness :
  stored toy_sha256 demo_start.1 demo_start.2 ∧ op_fits toy_sha256 (OpAppend [demo_entry 1]) demo_start.1 ∧
  let '(r, w) := run_op toy_sha256 (OpAppend [demo_entry 1]) demo_start.1 {| w_disk := demo_start.2; w_oracle := [] |} in
  match r with
  | Some (Ok _, c') => (∃ f, c' = with_fence f (op_core toy_sha256 (OpAppend [demo_entry 1]) demo_start.1)) ∧ stored toy_sha256 c' (w_disk w)
  | Some (Err _, c') => (∃ f, c' = with_fence f demo_start.1) ∨ c_health c' = Poisoned
  | None => True
  end ∧
  ∀ c'' d'', restarts toy_sha256 (w_disk w) c'' d'' →
    stored toy_sha256 c'' d'' ∧ c_health c'' = Sound ∧
    match r with
    | Some (Ok _, c') => same_core c'' c'
    | _ => op_found toy_sha256 (OpAppend [demo_entry 1]) demo_start.1 c''
    end.
Proof.
  assert (op_fits toy_sha256 (OpAppend [demo_entry 1]) demo_start.1) as Hf by (repeat constructor).
  split; [apply demo_stored|]. split; [exact Hf|].
  apply (raft_operations_crash_safe toy_sha256 toy_sha256_length); [apply demo_stored|exact Hf].
Defined.

(** A crash that undoes the last change of one name, the rest being durable. *)
Definition revert_entry (e : entry) : option file :=
  match en_reverts e with
  | f :: _ => f
  | [] => en_file e
  end.
Definition rewind (lost : string) (d : disk) : disk :=
  map_imap (λ n e, Some {| en_file := (λ f, durable_file (content f)) <$> (if bool_decide (n = lost) then revert_entry e else en_file e);
                           en_reverts := [] |}) d.

Lemma crash_rewind lost d : crashes_to d (rewind lost d).
Proof.
  intros n. unfold file_at, entry_at, rewind. rewrite map_lookup_imap. destruct (d !! n) as [e|]; cbn.
  - split; [done|]. exists (if bool_decide (n = lost) then revert_entry e else en_file e). split.
    + case_bool_decide; [|left]. unfold revert_entry. destruct (en_reverts e); [left|right; left].
    + destruct (if bool_decide (n = lost) then revert_entry e else en_file e) as [f|]; [|done].
      split; [done|]. apply survives_content.
  - split; [done|]. exists None. split; [left|done].
Qed.

Lemma raft_restart_succeeds_witness :
  (hs_commit (c_hard_state demo_start.1) ≤ core_last_index demo_start.1)%N ∧
  crashes_to demo_start.2 (rewind LOG demo_start.2) ∧
  ∃ c' w, raft_open toy_sha256 [] [] {| w_disk := rewind LOG demo_start.2; w_oracle := [] |} = (Some (Ok c'), w) ∧
    same_core c' demo_start.1 ∧ stored toy_sha256 c' (w_disk w) ∧ c_health c' = Sound.
Proof.
  assert ((hs_commit (c_hard_state demo_start.1) ≤ core_last_index demo_start.1)%N) as H by (vm_compute; discriminate).
  split; [exact H|]. split; [apply crash_rewind|].
  apply (raft_restart_succeeds toy_sha256 toy_sha256_length demo_start.1 demo_start.2); [apply demo_stored|exact H|apply crash_rewind].
Defined.

(** The same storage, claimed by another writer at term 1. *)
Definition claimed : disk := w_disk (demo_call (run_op toy_sha256 demo_vote) demo_start []).2.
Lemma fenced_writer_changes_nothing_witness :
  let '(r, w) := run_op toy_sha256 (OpAppend [demo_entry 1]) demo_start.1 {| w_disk := claimed; w_oracle := [] |} in
  w_disk w = claimed ∧ match r with Some (Ok _, _) => False | _ => True end.
Proof.
  apply (fenced_writer_changes_nothing toy_sha256 toy_sha256_length (OpAppend [demo_entry 1]) demo_start.1 claimed []
           (core_image 1 (with_hard_state (mkHardState 1 2 0) (new_core toy_sha256 [1; 2; 3]%N []))));
    [vm_compute; reflexivity| |vm_compute; discriminate|vm_compute; reflexivity|discriminate].
  assert (ids_ok [1; 2; 3]%N ∧ ids_ok []) as [H1 H2] by (split; (split; [done|repeat constructor])).
  split; [done|exact (conj H1 (conj H2 (conj H2 H2)))|done|reflexivity|done|done].
Defined.

Lemma raft_queries_exact_witness :
  raft_term 0 demo_start.1 = Ok 0%N ∧ ∀ index, (0 < index)%N → raft_term index demo_start.1 = Err Unavailable.
Proof.
  destruct (raft_queries_exact toy_sha256 (λ es _, es) demo_start.1) as (_ & H1 & _ & H2 & _);
    [apply (st_core _ _ _ demo_stored)|vm_compute; reflexivity|]. split; [exact H1|exact H2].
Defined.

(** The vote: the process stops before the directory is synchronized, and restarts
    while the machine goes on. *)
Definition vote_stopped := demo_call (run_op toy_sha256 demo_vote) demo_start before_dir_sync.
Definition vote_reopened : Core * disk := after_open (w_disk vote_stopped.2).
Definition vote_forgotten : Core * disk := after_open (rewind STATE vote_reopened.2).

(** The log: the same during a compaction; then an entry is appended. *)
Definition log_appended : Core * disk :=
  after_call demo_start (demo_call (run_op toy_sha256 (OpAppend [demo_entry 1; demo_entry 2])) demo_start []).
Definition log_committed : Core * disk :=
  after_call log_appended (demo_call (run_op toy_sha256 (OpState (SetHardState (mkHardState 1 2 2)))) log_appended []).
Definition log_stopped :=
  demo_call (run_op toy_sha256 (OpRecord 1 [x53] (mkFloor 1))) log_committed (replicate 26 Proceeds ++ [Halts 0]).
Definition log_reopened : Core * disk := after_open (w_disk log_stopped.2).
Definition entry_appended := demo_call (run_op toy_sha256 (OpAppend [demo_entry 3])) log_reopened [].
Definition entry_forgotten : Core * disk := after_open (rewind LOG (w_disk entry_appended.2)).

(** Opening a storage does not make what it serves durable.  A process stops
    after the rename of the state file and before the directory is synchronized, and
    is restarted while the machine goes on: it opens without an error and serves the
    new term and vote; if the machine then crashes and the rename is lost, the next
    opening serves the term and the vote from before.  In the
    same way, after a process stopped behind the rename of a compacted log, an entry
    that the restarted process appends is acknowledged, and lost when the machine
    crashes. *)
Theorem reopened_storage_forgets :
  (vote_stopped.1 = None ∧ (∃ c, (demo_open (w_disk vote_stopped.2)).1 = Some (Ok c) ∧ c_hard_state c = mkHardState 1 2 0) ∧
   crashes_to vote_reopened.2 (rewind STATE vote_reopened.2) ∧
   ∃ c, (demo_open (rewind STATE vote_reopened.2)).1 = Some (Ok c) ∧ c_hard_state c = mkHardState 0 0 0) ∧
  (log_stopped.1 = None ∧ (∃ c, (demo_open (w_disk log_stopped.2)).1 = Some (Ok c) ∧ e_index <$> c_entries c = [2%N]) ∧
   (∃ c, entry_appended.1 = Some (Ok tt, c) ∧ e_index <$> c_entries c = [2; 3]%N) ∧
   crashes_to (w_disk entry_appended.2) (rewind LOG (w_disk entry_appended.2)) ∧
   ∃ c, (demo_open (rewind LOG (w_disk entry_appended.2))).1 = Some (Ok c) ∧ e_index <$> c_entries c = [2%N]).
Proof.
  split; split_and!; first [apply crash_rewind|vm_compute; reflexivity|eexists; split; vm_compute; reflexivity].
Qed.

(** The first opening of a new storage: if the machine stops before the directory is
    synchronized, the state file may be there without the log, and no later opening
    succeeds. *)
Definition first_stopped := raft_open toy_sha256 [1; 2; 3]%N [] {| w_disk := ∅; w_oracle := replicate 13 Proceeds ++ [Halts 0] |}.
Example first_opening_may_block :
  first_stopped.1 = None ∧ crashes_to (w_disk first_stopped.2) (rewind LOG (w_disk first_stopped.2)) ∧
  (demo_open (rewind LOG (w_disk first_stopped.2))).1 = Some (refuse "not a PTR raft log").
Proof. split; [vm_compute; reflexivity|]. split; [apply crash_rewind|vm_compute; reflexivity]. Qed.

(** A record whose payload holds the encoding of a record, cut short: the log is
    refused although nothing in it behind the cut was ever written as a record. *)
Definition nested_entry : Entry := mkEntry 1 1 EntryNormal [] (raft_encode_record toy_sha256 (demo_entry 9) ++ [x00]).
Example nested_record_blocks :
  parse_log toy_sha256 (log_of toy_sha256 [] ++ take 130 (raft_encode_record toy_sha256 nested_entry)) 0 0 =
  refuse "raft log is damaged at byte 8 and valid records follow it: they may have been acknowledged, so nothing is cut".
Proof. vm_compute. reflexivity. Qed.
