(* ===== verification/HostQuota.v ===== *)
(** * The byte quota of a host: crates/ptr-runtime/src/host_quota.rs

    One ledger charges every admitted buffer to a producer, a consumer and the host,
    keyed by the pair of sessions.  The specification knows only the charges that were
    granted: which were handed back, and for which pair a teardown was verified since.
    The ledger with its three maps and its generations gives the same answers and
    holds the same balances, and no balance ever passes its bound. *)

From S2P Require Import Prelude.
From Stdlib Require Import Lia.
From stdpp Require Import options.

(** [u64::checked_mul] and [u64::div_ceil]. *)
Definition checked_mul_u64 (a b : N) : option N :=
  if (a * b <? 2 ^ 64)%N then Some (a * b)%N else None.
Definition div_ceil_u64 (a b : N) : N :=
  if (0 <? a mod b)%N then (a / b + 1)%N else (a / b)%N.

(** ** Policies *)

Definition DEFAULT_CHARGE_GRANULARITY_BYTES : N := 4096.

Record HostQuotaPolicy := mkQuotaPolicy {
  max_bytes_per_producer_session : N;
  max_bytes_per_consumer_session : N;
  max_bytes_host : N;
  max_tracked_sessions : N;
  charge_granularity_bytes : N
}.

Inductive HostQuotaPolicyViolation :=
| ZeroProducerBytes | ZeroConsumerBytes | ZeroHostBytes | ZeroTrackedSessions | ZeroGranularity.

Definition HostQuotaPolicy_new (producer consumer host : N) (tracked : N) : HostQuotaPolicy :=
  mkQuotaPolicy producer consumer host tracked DEFAULT_CHARGE_GRANULARITY_BYTES.

Definition HostQuotaPolicy_validate (p : HostQuotaPolicy) : result HostQuotaPolicyViolation unit :=
  if (max_bytes_per_producer_session p =? 0)%N then Err ZeroProducerBytes
  else if (max_bytes_per_consumer_session p =? 0)%N then Err ZeroConsumerBytes
  else if (max_bytes_host p =? 0)%N then Err ZeroHostBytes
  else if (max_tracked_sessions p =? 0)%N then Err ZeroTrackedSessions
  else if (charge_granularity_bytes p =? 0)%N then Err ZeroGranularity
  else Ok tt.

(** ** The ledger *)

(** The random id of one spawn of a worker. *)
Definition WorkerSession := N.

Inductive QuotaRefusal :=
| ProducerQuota (limit held requested : N)
| ConsumerQuota (limit held requested : N)
| HostQuota (limit held requested : N)
| TooManySessions (limit : N)
| QuotaOverflow (requested : N).

Record QuotaCharge := mkCharge {
  qc_producer_session : WorkerSession;
  qc_consumer_session : WorkerSession;
  qc_charged_bytes : N;
  qc_generation : N
}.

Record VerifiedTeardown := mkTeardown {
  vt_producer_session : WorkerSession;
  vt_consumer_session : WorkerSession
}.

Inductive ReleaseFault := ExceedsPairBalance (held released : N).

Record PairBalance := mkBalance { pb_bytes : N; pb_generation : N }.

Record HostQuotaLedger := mkQuotaLedger {
  hq_policy : HostQuotaPolicy;
  hq_host_bytes : N;
  hq_producers : gmap WorkerSession N;
  hq_consumers : gmap WorkerSession N;
  hq_pairs : gmap (WorkerSession * WorkerSession) PairBalance;
  hq_generation : N;
  hq_release_faults : N
}.

Definition HostQuotaLedger_new (p : HostQuotaPolicy) : result HostQuotaPolicyViolation HostQuotaLedger :=
  HostQuotaPolicy_validate p ;? Ok (mkQuotaLedger p 0 ∅ ∅ ∅ 0 0).

Definition footprint_of (p : HostQuotaPolicy) (bytes : N) : option N :=
  let unit := charge_granularity_bytes p in
  let units := N.max (div_ceil_u64 bytes unit) 1 in
  checked_mul_u64 units unit.

Definition producer_bytes (l : HostQuotaLedger) (session : WorkerSession) : N := default 0%N (hq_producers l !! session).
Definition consumer_bytes (l : HostQuotaLedger) (session : WorkerSession) : N := default 0%N (hq_consumers l !! session).
Definition pair_bytes (l : HostQuotaLedger) (producer consumer : WorkerSession) : N :=
  default 0%N (pb_bytes <$> hq_pairs l !! (producer, consumer)).

(** [BTreeMap::len]. *)
Definition map_len {K V} `{Countable K} (m : gmap K V) : N := N.of_nat (size m).

Definition try_charge (producer consumer : WorkerSession) (bytes : N) (l : HostQuotaLedger) :
    result QuotaRefusal (QuotaCharge * HostQuotaLedger) :=
  let policy := hq_policy l in
  let? amount := ok_or (footprint_of policy bytes) (QuotaOverflow bytes) in
  let held_producer := producer_bytes l producer in
  let held_consumer := consumer_bytes l consumer in
  let held_pair := pair_bytes l producer consumer in
  let overflow := QuotaOverflow amount in
  let? new_producer := ok_or (checked_add_u64 held_producer amount) overflow in
  let? new_consumer := ok_or (checked_add_u64 held_consumer amount) overflow in
  let? new_pair := ok_or (checked_add_u64 held_pair amount) overflow in
  let? new_host := ok_or (checked_add_u64 (hq_host_bytes l) amount) overflow in
  let limit := max_tracked_sessions policy in
  if ((held_producer =? 0) && (limit <=? map_len (hq_producers l)) ||
      (held_consumer =? 0) && (limit <=? map_len (hq_consumers l)) ||
      (held_pair =? 0) && (limit <=? map_len (hq_pairs l)))%N
  then Err (TooManySessions limit)
  else if (max_bytes_per_producer_session policy <? new_producer)%N
  then Err (ProducerQuota (max_bytes_per_producer_session policy) held_producer amount)
  else if (max_bytes_per_consumer_session policy <? new_consumer)%N
  then Err (ConsumerQuota (max_bytes_per_consumer_session policy) held_consumer amount)
  else if (max_bytes_host policy <? new_host)%N
  then Err (HostQuota (max_bytes_host policy) (hq_host_bytes l) amount)
  else
    let generation :=
      match hq_pairs l !! (producer, consumer) with
      | Some balance => pb_generation balance
      | None => hq_generation l
      end in
    Ok (mkCharge producer consumer amount generation,
        mkQuotaLedger policy new_host (<[producer := new_producer]> (hq_producers l))
          (<[consumer := new_consumer]> (hq_consumers l))
          (<[(producer, consumer) := mkBalance new_pair generation]> (hq_pairs l))
          (hq_generation l) (hq_release_faults l)).

(** Subtract and drop the entry at zero. *)
Definition debit {K} `{Countable K} (key : K) (amount : N) (m : gmap K N) : gmap K N :=
  match m !! key with
  | Some balance => if (balance - amount =? 0)%N then delete key m else <[key := (balance - amount)%N]> m
  | None => m
  end.

Definition count_fault (l : HostQuotaLedger) : HostQuotaLedger :=
  mkQuotaLedger (hq_policy l) (hq_host_bytes l) (hq_producers l) (hq_consumers l) (hq_pairs l) (hq_generation l)
    (saturating_add_u64 (hq_release_faults l) 1).

Definition release_amount (producer consumer : WorkerSession) (amount : N) (l : HostQuotaLedger) :
    result ReleaseFault unit * HostQuotaLedger :=
  let held := pair_bytes l producer consumer in
  if ((held <? amount) || (hq_host_bytes l <? amount) || (producer_bytes l producer <? amount) ||
      (consumer_bytes l consumer <? amount))%N
  then (Err (ExceedsPairBalance held amount), count_fault l)
  else
    let '(pairs, generation) :=
      match hq_pairs l !! (producer, consumer) with
      | Some balance =>
          let bytes := (pb_bytes balance - amount)%N in
          if (bytes =? 0)%N then (delete (producer, consumer) (hq_pairs l), (hq_generation l + 1) mod 2 ^ 64)%N
          else (<[(producer, consumer) := mkBalance bytes (pb_generation balance)]> (hq_pairs l), hq_generation l)
      | None => (hq_pairs l, hq_generation l)
      end in
    (Ok tt, mkQuotaLedger (hq_policy l) (hq_host_bytes l - amount) (debit producer amount (hq_producers l))
              (debit consumer amount (hq_consumers l)) pairs generation (hq_release_faults l)).

Definition quota_release (charge : QuotaCharge) (l : HostQuotaLedger) : result ReleaseFault unit * HostQuotaLedger :=
  let current := pb_generation <$> hq_pairs l !! (qc_producer_session charge, qc_consumer_session charge) in
  if bool_decide (current ≠ Some (qc_generation charge)) then
    (Err (ExceedsPairBalance 0 (qc_charged_bytes charge)), count_fault l)
  else release_amount (qc_producer_session charge) (qc_consumer_session charge) (qc_charged_bytes charge) l.

Definition release_pair (proof : VerifiedTeardown) (l : HostQuotaLedger) : N * HostQuotaLedger :=
  let producer := vt_producer_session proof in
  let consumer := vt_consumer_session proof in
  let held := pair_bytes l producer consumer in
  if (held =? 0)%N then (0%N, l)
  else
    let '(r, l') := release_amount producer consumer held l in
    (match r with Ok _ => held | Err _ => 0%N end, l').

(** ** Runs

    The holders of charges, in the order they were granted; one that is handed back
    leaves the list, one that is lost stays. *)

Inductive quota_op :=
| ChargeOp (producer consumer : WorkerSession) (bytes : N)
| ReleaseOp (holder : nat)
| TeardownOp (producer consumer : WorkerSession).

Inductive quota_answer :=
| Charged (r : result QuotaRefusal N)
| Released (r : option (result ReleaseFault unit))
| Reaped (bytes : N).

Definition quota_step (op : quota_op) (s : HostQuotaLedger * list QuotaCharge) :
    quota_answer * (HostQuotaLedger * list QuotaCharge) :=
  let '(l, charges) := s in
  match op with
  | ChargeOp producer consumer bytes =>
      match try_charge producer consumer bytes l with
      | Ok (charge, l') => (Charged (Ok (qc_charged_bytes charge)), (l', charges ++ [charge]))
      | Err refusal => (Charged (Err refusal), s)
      end
  | ReleaseOp holder =>
      match charges !! holder with
      | Some charge => let '(r, l') := quota_release charge l in (Released (Some r), (l', delete holder charges))
      | None => (Released None, s)
      end
  | TeardownOp producer consumer =>
      let '(bytes, l') := release_pair (mkTeardown producer consumer) l in (Reaped bytes, (l', charges))
  end.

(** ** The specification *)

Record ticket := mkTicket {
  tk_producer : WorkerSession;
  tk_consumer : WorkerSession;
  tk_bytes : N;
  tk_settled : bool
}.

(** The bytes of the charges that [f] selects and no teardown settled. *)
Fixpoint held (f : ticket → bool) (ts : list ticket) : N :=
  match ts with
  | [] => 0
  | t :: ts => (if negb (tk_settled t) && f t then tk_bytes t else 0) + held f ts
  end.

Definition pair_of (t : ticket) : WorkerSession * WorkerSession := (tk_producer t, tk_consumer t).
(** The charges of one session, of one pair, of the host. *)
Definition select {K} `{EqDecision K} (g : WorkerSession * WorkerSession → K) (k : K) (t : ticket) : bool :=
  bool_decide (g (pair_of t) = k).
Definition by_producer (p : WorkerSession) : ticket → bool := select fst p.
Definition by_consumer (c : WorkerSession) : ticket → bool := select snd c.
Definition by_pair (p c : WorkerSession) : ticket → bool := select id (p, c).
Definition everyone : ticket → bool := select (λ _, tt) tt.

(** How many sessions, or pairs, hold something. *)
Definition tracked {K} `{Countable K} (g : WorkerSession * WorkerSession → K) (ts : list ticket) : N :=
  N.of_nat (size (list_to_set ((λ t, g (pair_of t)) <$> filter (λ t, tk_settled t = false) ts) : gset K)).

Definition spec_charge (policy : HostQuotaPolicy) (p c : WorkerSession) (bytes : N) (ts : list ticket) :
    result QuotaRefusal N :=
  let? amount := ok_or (footprint_of policy bytes) (QuotaOverflow bytes) in
  if (2 ^ 64 <=? held everyone ts + amount)%N then Err (QuotaOverflow amount)
  else if ((held (by_producer p) ts =? 0) && (max_tracked_sessions policy <=? tracked fst ts) ||
           (held (by_consumer c) ts =? 0) && (max_tracked_sessions policy <=? tracked snd ts) ||
           (held (by_pair p c) ts =? 0) && (max_tracked_sessions policy <=? tracked id ts))%N
  then Err (TooManySessions (max_tracked_sessions policy))
  else if (max_bytes_per_producer_session policy <? held (by_producer p) ts + amount)%N
  then Err (ProducerQuota (max_bytes_per_producer_session policy) (held (by_producer p) ts) amount)
  else if (max_bytes_per_consumer_session policy <? held (by_consumer c) ts + amount)%N
  then Err (ConsumerQuota (max_bytes_per_consumer_session policy) (held (by_consumer c) ts) amount)
  else if (max_bytes_host policy <? held everyone ts + amount)%N
  then Err (HostQuota (max_bytes_host policy) (held everyone ts) amount)
  else Ok amount.

Definition settle (p c : WorkerSession) (t : ticket) : ticket :=
  if by_pair p c t then mkTicket (tk_producer t) (tk_consumer t) (tk_bytes t) true else t.

Definition spec_step (policy : HostQuotaPolicy) (op : quota_op) (ts : list ticket) : quota_answer * list ticket :=
  match op with
  | ChargeOp p c bytes =>
      match spec_charge policy p c bytes ts with
      | Ok amount => (Charged (Ok amount), ts ++ [mkTicket p c amount false])
      | Err refusal => (Charged (Err refusal), ts)
      end
  | ReleaseOp holder =>
      match ts !! holder with
      | Some t => (Released (Some (if tk_settled t then Err (ExceedsPairBalance 0 (tk_bytes t)) else Ok tt)), delete holder ts)
      | None => (Released None, ts)
      end
  | TeardownOp p c => (Reaped (held (by_pair p c) ts), settle p c <$> ts)
  end.

Fixpoint run_steps {S} (step : quota_op → S → quota_answer * S) (ops : list quota_op) (s : S) : list quota_answer * S :=
  match ops with
  | [] => ([], s)
  | op :: ops =>
      let '(a, s') := step op s in
      let '(answers, s'') := run_steps step ops s' in (a :: answers, s'')
  end.

(** ** Balances *)

Lemma held_app f ts ts' : held f (ts ++ ts') = (held f ts + held f ts')%N.
Proof. induction ts as [|t ts IH]; cbn [held app]; [done|]. rewrite IH. lia. Qed.

Lemma held_le f g ts : (∀ t, f t = true → g t = true) → (held f ts ≤ held g ts)%N.
Proof.
  intros H. induction ts as [|t ts IH]; cbn [held]; [done|]. destruct (f t) eqn:E.
  - rewrite (H t E). lia.
  - rewrite andb_false_r. lia.
Qed.

Lemma held_delete f ts i t : ts !! i = Some t →
  held f ts = (held f (delete i ts) + held f [t])%N.
Proof.
  intros H. rewrite <- (take_drop_middle ts i t H) at 1. rewrite delete_take_drop, !held_app. cbn [held]. lia.
Qed.

(** What a teardown takes from a selection: all of the pair, or nothing. *)
Lemma held_settle {K} `{EqDecision K} (g : WorkerSession * WorkerSession → K) k p c ts :
  held (select g k) ts =
  (held (select g k) (settle p c <$> ts) + (if bool_decide (g (p, c) = k) then held (by_pair p c) ts else 0))%N.
Proof.
  induction ts as [|t ts IH]; cbn [held fmap list_fmap]; [by case_bool_decide|]. rewrite IH. unfold settle.
  destruct (by_pair p c t) eqn:E; [|rewrite andb_false_r; destruct (bool_decide _); lia].
  assert (g (pair_of t) = g (p, c)) as Hg by (unfold by_pair, select in E; apply bool_decide_eq_true in E; by rewrite <- E).
  cbn [tk_settled negb andb]. unfold select at 1. rewrite Hg.
  destruct (tk_settled t), (bool_decide _); cbn [negb andb]; lia.
Qed.

(** [m] holds the balance of every key, and no entry for zero. *)
Definition nonzero (n : N) : option N := if (n =? 0)%N then None else Some n.
Definition balances {K} `{Countable K} (g : WorkerSession * WorkerSession → K) (m : gmap K N) (ts : list ticket) : Prop :=
  ∀ k, m !! k = nonzero (held (select g k) ts).

Lemma nonzero_default n : default 0%N (nonzero n) = n.
Proof. unfold nonzero. destruct (N.eqb_spec n 0); by subst. Qed.

Section Balances.
Context {K} `{Countable K} (g : WorkerSession * WorkerSession → K).

Lemma balances_default m ts k : balances g m ts → default 0%N (m !! k) = held (select g k) ts.
Proof. intros H'. by rewrite H', nonzero_default. Qed.

Lemma balances_charge m ts p c amount : balances g m ts → (0 < amount)%N →
  balances g (<[g (p, c) := (held (select g (g (p, c))) ts + amount)%N]> m) (ts ++ [mkTicket p c amount false]).
Proof.
  intros Hm Ha k. rewrite held_app. cbn [held tk_settled negb andb tk_bytes]. unfold select at 3. cbn [pair_of tk_producer tk_consumer].
  destruct (decide (g (p, c) = k)) as [<-|Hne].
  - rewrite lookup_insert, bool_decide_true by done. rewrite decide_True by done. unfold nonzero.
    rewrite (proj2 (N.eqb_neq _ _)) by lia. f_equal. lia.
  - rewrite lookup_insert_ne, Hm, bool_decide_false by done. f_equal. lia.
Qed.

Lemma balances_debit m ts ts' key amount : balances g m ts →
  (∀ k, held (select g k) ts = (held (select g k) ts' + (if bool_decide (key = k) then amount else 0))%N) →
  balances g (debit key amount m) ts'.
Proof.
  intros Hm Hh k. pose proof (Hh key) as Hk. rewrite bool_decide_true in Hk by done. specialize (Hh k). unfold debit.
  rewrite (Hm key), Hk. unfold nonzero at 1. destruct (N.eqb_spec (held (select g key) ts' + amount) 0) as [E|E].
  - rewrite Hm, Hh. case_bool_decide; f_equal; lia.
  - rewrite N.add_sub. destruct (decide (key = k)) as [<-|Hne].
    + unfold nonzero. destruct (N.eqb_spec (held (select g key) ts') 0); [by rewrite lookup_delete_eq|by rewrite lookup_insert_eq].
    + rewrite bool_decide_false, N.add_0_r in Hh by done. rewrite <- Hh, <- Hm.
      destruct (N.eqb_spec (held (select g key) ts') 0); [by rewrite lookup_delete_ne|by rewrite lookup_insert_ne].
Qed.

Lemma held_delete_if k ts i t : ts !! i = Some t →
  held (select g k) ts =
  (held (select g k) (delete i ts) + (if bool_decide (g (pair_of t) = k) then (if tk_settled t then 0 else tk_bytes t) else 0))%N.
Proof.
  intros Hi. rewrite (held_delete _ _ _ _ Hi). f_equal. cbn [held]. unfold select.
  destruct (tk_settled t), (bool_decide _); cbn [negb andb]; lia.
Qed.

Lemma held_positive k ts : Forall (λ t, (0 < tk_bytes t)%N) ts →
  held (select g k) ts ≠ 0%N ↔ k ∈ (λ t, g (pair_of t)) <$> filter (λ t, tk_settled t = false) ts.
Proof.
  induction 1 as [|t ts Ht _ IH]; [cbn; split; [done|by intros ?%elem_of_nil]|]. cbn [held].
  destruct (tk_settled t) eqn:E.
  - rewrite filter_cons_False by (by rewrite E). cbn [negb andb]. by rewrite N.add_0_l.
  - rewrite filter_cons_True by done. rewrite fmap_cons, elem_of_cons, <- IH. unfold select at 1. cbn [negb andb].
    case_bool_decide as Hk; [split; [intros _; by left|lia]|]. rewrite N.add_0_l. split; [by right|by intros [?|?]].
Qed.

Lemma balances_len m ts : Forall (λ t, (0 < tk_bytes t)%N) ts → balances g m ts → map_len m = tracked g ts.
Proof.
  intros Ht Hm. unfold map_len, tracked. f_equal. rewrite <- size_dom. f_equal. apply set_eq. intros k.
  rewrite elem_of_dom, Hm, elem_of_list_to_set, <- held_positive by done. unfold nonzero.
  destruct (N.eqb_spec (held (select g k) ts) 0) as [->|E]; split; try done; by intros [].
Qed.
End Balances.

(** ** The ledger and the charges *)

Record ticket_of (l : HostQuotaLedger) (charge : QuotaCharge) (t : ticket) : Prop := {
  to_pair : pair_of t = (qc_producer_session charge, qc_consumer_session charge);
  to_bytes : tk_bytes t = qc_charged_bytes charge;
  to_positive : (0 < tk_bytes t)%N;
  to_live : tk_settled t = false ↔ pb_generation <$> hq_pairs l !! pair_of t = Some (qc_generation charge);
  to_stale : tk_settled t = true → (qc_generation charge < hq_generation l)%N
}.

Record accounts (l : HostQuotaLedger) (ts : list ticket) : Prop := {
  ac_producers : balances fst (hq_producers l) ts;
  ac_consumers : balances snd (hq_consumers l) ts;
  ac_pairs : balances id (pb_bytes <$> hq_pairs l) ts;
  ac_host : hq_host_bytes l = held everyone ts;
  ac_generation : map_Forall (λ _ b, (pb_generation b ≤ hq_generation l)%N) (hq_pairs l)
}.

Lemma pair_bytes_held l ts p c : accounts l ts → pair_bytes l p c = held (by_pair p c) ts.
Proof. intros []. unfold pair_bytes. rewrite <- lookup_fmap. by apply balances_default. Qed.
Lemma pairs_len l ts : Forall (λ t, (0 < tk_bytes t)%N) ts → accounts l ts → map_len (hq_pairs l) = tracked id ts.
Proof. intros Ht []. rewrite <- (balances_len _ (pb_bytes <$> hq_pairs l)) by done. unfold map_len. by rewrite map_size_fmap. Qed.

(** [ts'] is [ts] without [amount] of the pair. *)
Definition takes (p c : WorkerSession) (amount : N) (ts ts' : list ticket) : Prop :=
  ∀ K (D : EqDecision K) (g : WorkerSession * WorkerSession → K) k,
    held (select g k) ts = (held (select g k) ts' + (if bool_decide (g (p, c) = k) then amount else 0))%N.

Lemma release_amount_accounts l ts ts' p c amount : accounts l ts → takes p c amount ts ts' → (0 < amount)%N →
  (hq_generation l < 2 ^ 64 - 1)%N →
  ∃ l', release_amount p c amount l = (Ok tt, l') ∧ accounts l' ts' ∧ hq_policy l' = hq_policy l ∧
    hq_generation l' = (hq_generation l + if (held (by_pair p c) ts' =? 0)%N then 1 else 0)%N ∧
    ∀ q, pb_generation <$> hq_pairs l' !! q =
      if bool_decide (q = (p, c)) && (held (by_pair p c) ts' =? 0)%N then None else pb_generation <$> hq_pairs l !! q.
Proof.
  intros Ha Ht Hpos Hgen. pose proof Ha as [H1 H2 H3 H4 H5].
  assert (pair_bytes l p c = held (by_pair p c) ts' + amount)%N as Hp.
  { rewrite (pair_bytes_held _ _ _ _ Ha). etrans; [apply (Ht _ _ id)|]. by rewrite bool_decide_true. }
  assert (hq_host_bytes l = held everyone ts' + amount)%N as Hh by (rewrite H4; etrans; [apply (Ht _ _ (λ _, tt) tt)|by rewrite bool_decide_true]).
  assert (producer_bytes l p = held (by_producer p) ts' + amount)%N as H6.
  { unfold producer_bytes. rewrite (balances_default _ _ _ _ H1), (Ht _ _ fst). cbn [fst]. by rewrite bool_decide_true. }
  assert (consumer_bytes l c = held (by_consumer c) ts' + amount)%N as H7.
  { unfold consumer_bytes. rewrite (balances_default _ _ _ _ H2), (Ht _ _ snd). cbn [snd]. by rewrite bool_decide_true. }
  unfold release_amount. rewrite Hp, Hh, H6, H7, !(proj2 (N.ltb_ge _ _)) by lia. cbn [orb].
  unfold pair_bytes in Hp. destruct (hq_pairs l !! (p, c)) as [b|] eqn:Eb; cbn in Hp; [|lia]. rewrite Hp, N.add_sub.
  pose proof (balances_debit _ _ _ _ _ _ H1 (Ht _ _ fst)) as B1. pose proof (balances_debit _ _ _ _ _ _ H2 (Ht _ _ snd)) as B2.
  pose proof (balances_debit _ _ _ _ _ _ H3 (Ht _ _ id)) as B3. cbn [fst snd id] in B1, B2, B3. unfold debit in B3 at 1.
  rewrite lookup_fmap, Eb in B3. cbn [fmap option_fmap option_map] in B3. rewrite Hp, N.add_sub in B3.
  destruct (N.eqb_spec (held (by_pair p c) ts') 0) as [E|E]; eexists; (split; [reflexivity|]); cbn [hq_policy hq_generation hq_pairs].
  - rewrite N.mod_small by lia. split_and!; [|done|done|].
    + constructor; cbn; [done|done|by rewrite fmap_delete|by rewrite N.add_sub|].
      apply map_Forall_delete. eapply map_Forall_impl; [exact H5|]. intros q x Hx. cbn [hq_generation]. cbn beta in Hx. lia.
    + intros q. rewrite andb_true_r. case_bool_decide as Eq; [subst; by rewrite lookup_delete_eq|by rewrite lookup_delete_ne].
  - split_and!; [|done|lia|].
    + constructor; cbn [hq_producers hq_consumers hq_pairs hq_host_bytes hq_generation]; [done|done|by rewrite fmap_insert|by rewrite N.add_sub|].
      apply map_Forall_insert_2; [|done]. exact (H5 _ _ Eb).
    + intros q. rewrite andb_false_r. destruct (decide (q = (p, c))) as [->|Hne]; [by rewrite lookup_insert_eq, Eb|by rewrite lookup_insert_ne].
Qed.

Definition refines (l : HostQuotaLedger) (charges : list QuotaCharge) (ts : list ticket) : Prop :=
  accounts l ts ∧ Forall2 (ticket_of l) charges ts.

Lemma refines_positive l charges ts : refines l charges ts → Forall (λ t, (0 < tk_bytes t)%N) ts.
Proof. intros [_ H]. eapply Forall2_Forall_r; [exact H|]. apply Forall_true. by intros charge t []. Qed.

(** A ticket keeps its meaning while its pair keeps its generation. *)
Lemma ticket_kept l l' charge t (q : WorkerSession * WorkerSession) (dropped : bool) : ticket_of l charge t →
  (∀ q', pb_generation <$> hq_pairs l' !! q' = if bool_decide (q' = q) && dropped then None else pb_generation <$> hq_pairs l !! q') →
  (hq_generation l ≤ hq_generation l')%N → (dropped = true → pair_of t = q → tk_settled t = true) → ticket_of l' charge t.
Proof.
  intros [H1 H2 H3 H4 H5] Hq Hg Hd. constructor; [done..| |intros H; specialize (H5 H); lia].
  rewrite H4, Hq. destruct (bool_decide_reflect (pair_of t = q)) as [E|E]; [|done]. destruct dropped; [|done].
  specialize (Hd eq_refl E). rewrite <- H4, Hd. by split.
Qed.

Lemma held_none p c ts t : Forall (λ t, (0 < tk_bytes t)%N) ts → held (by_pair p c) ts = 0%N → t ∈ ts → pair_of t = (p, c) →
  tk_settled t = true.
Proof.
  intros Hp Hh Ht Hq. apply not_false_is_true. intros Hs. apply (held_positive id (p, c) ts Hp); [|exact Hh].
  apply list_elem_of_fmap. exists t. split; [done|]. by apply list_elem_of_filter.
Qed.

Lemma takes_delete ts i t : ts !! i = Some t → tk_settled t = false →
  takes (tk_producer t) (tk_consumer t) (tk_bytes t) ts (delete i ts).
Proof. intros Hi Hs K D g k. rewrite (held_delete_if g k ts i t Hi), Hs. done. Qed.

Lemma release_step_refines l charges ts i : refines l charges ts → (hq_generation l < 2 ^ 64 - 1)%N →
  let '(a, (l', charges')) := quota_step (ReleaseOp i) (l, charges) in
  let '(a', ts') := spec_step (hq_policy l) (ReleaseOp i) ts in
  a = a' ∧ refines l' charges' ts' ∧ hq_policy l' = hq_policy l ∧ (hq_generation l' ≤ hq_generation l + 1)%N.
Proof.
  intros Href Hg. pose proof (refines_positive _ _ _ Href) as Hpos. destruct Href as [Ha Hf]. cbn [quota_step spec_step].
  pose proof (Forall2_delete _ _ _ i Hf) as Hd. destruct (ts !! i) as [t|] eqn:Et.
  2:{ rewrite (proj2 (lookup_ge_None charges i)); [|rewrite (Forall2_length _ _ _ Hf); by apply lookup_ge_None]. split_and!; [done|done|done|lia]. }
  destruct (Forall2_lookup_r _ _ _ _ _ Hf Et) as (charge & Ec & [H1 H2 H3 H4 H5]). rewrite Ec. unfold quota_release.
  injection H1 as Hp Hc. rewrite <- Hp, <- Hc, <- H2. change (tk_producer t, tk_consumer t) with (pair_of t).
  destruct (tk_settled t) eqn:Es.
  - rewrite bool_decide_true by (rewrite <- H4; done). split_and!; [done| |done|cbn; lia]. split.
    + destruct Ha as [A1 A2 A3 A4 A5].
      assert (∀ K (D : EqDecision K) (g : WorkerSession * WorkerSession → K) k, held (select g k) ts = held (select g k) (delete i ts)) as E.
      { intros K D g k. rewrite (held_delete_if g k ts i t Et), Es. destruct (bool_decide _); lia. }
      constructor; cbn; [intros k; rewrite <- E; apply A1|intros k; rewrite <- E; apply A2|intros k; rewrite <- E; apply A3| |done].
      rewrite A4. apply E.
    + eapply Forall2_impl; [exact Hd|]. by intros x y [].
  - rewrite bool_decide_false by (rewrite <- H4; tauto).
    destruct (release_amount_accounts l ts (delete i ts) _ _ _ Ha (takes_delete _ _ _ Et Es) H3 Hg) as (l' & -> & Ha' & Hpol & Hgen & Hq).
    split_and!; [done| |done|rewrite Hgen; destruct (_ =? _)%N; lia]. split; [done|].
    apply Forall2_same_length_lookup in Hd as [Hlen Hd]. apply Forall2_same_length_lookup. split; [done|]. intros j x y Hx Hy.
    eapply ticket_kept; [by eapply Hd|exact Hq|rewrite Hgen; lia|].
    intros E%N.eqb_eq Hy'. eapply held_none; [|exact E|by eapply list_elem_of_lookup_2|done]. by apply Forall_delete.
Qed.

Lemma takes_settle p c ts : takes p c (held (by_pair p c) ts) ts (settle p c <$> ts).
Proof. intros K D g k. apply held_settle. Qed.

Lemma settle_pair p c t : pair_of t = (p, c) → settle p c t = mkTicket (tk_producer t) (tk_consumer t) (tk_bytes t) true.
Proof. intros H. unfold settle, by_pair, select. by rewrite bool_decide_true. Qed.
Lemma settle_other p c t : pair_of t ≠ (p, c) → settle p c t = t.
Proof. intros H. unfold settle, by_pair, select. by rewrite bool_decide_false. Qed.

Lemma settle_none p c ts : Forall (λ t, (0 < tk_bytes t)%N) ts → held (by_pair p c) ts = 0%N → settle p c <$> ts = ts.
Proof.
  intros Hp Hh. rewrite <- (list_fmap_id ts) at 2. apply list_fmap_ext. intros i t Hi. unfold settle, by_pair, select.
  case_bool_decide as E; [|done]. apply list_elem_of_lookup_2 in Hi. pose proof (held_none p c ts t Hp Hh Hi E). destruct t. cbn in *. by subst.
Qed.

Lemma charge_generation l ts charge t : accounts l ts → ticket_of l charge t → (qc_generation charge ≤ hq_generation l)%N.
Proof.
  intros Ha [_ _ _ T4 T5]. destruct (tk_settled t); [specialize (T5 eq_refl); lia|].
  destruct (hq_pairs l !! pair_of t) as [b|] eqn:E; [|by destruct T4 as [T4 _]; specialize (T4 eq_refl)].
  pose proof (ac_generation _ _ Ha _ _ E) as Hb. destruct T4 as [T4 _]. specialize (T4 eq_refl). cbn in T4, Hb. by injection T4 as <-.
Qed.

Lemma teardown_step_refines l charges ts p c : refines l charges ts → (hq_generation l < 2 ^ 64 - 1)%N →
  let '(a, (l', charges')) := quota_step (TeardownOp p c) (l, charges) in
  let '(a', ts') := spec_step (hq_policy l) (TeardownOp p c) ts in
  a = a' ∧ refines l' charges' ts' ∧ hq_policy l' = hq_policy l ∧ (hq_generation l' ≤ hq_generation l + 1)%N.
Proof.
  intros Href Hg. pose proof (refines_positive _ _ _ Href) as Hpos. pose proof Href as [Ha Hf]. cbn [quota_step spec_step].
  unfold release_pair. cbn [vt_producer_session vt_consumer_session]. rewrite (pair_bytes_held _ _ _ _ Ha).
  destruct (N.eqb_spec (held (by_pair p c) ts) 0) as [E|E].
  { rewrite E, settle_none by done. split_and!; [done|done|done|lia]. }
  destruct (release_amount_accounts l ts _ p c _ Ha (takes_settle p c ts)) as (l' & -> & Ha' & Hpol & Hgen & Hq); [lia|done|].
  split_and!; [done| |done|rewrite Hgen; destruct (_ =? _)%N; lia]. split; [done|].
  assert (held (by_pair p c) (settle p c <$> ts) = 0)%N as E0.
  { pose proof (takes_settle p c ts _ _ id (p, c)) as T. rewrite bool_decide_true in T by done.
    change (select id (p, c)) with (by_pair p c) in T. lia. }
  rewrite E0, N.eqb_refl in Hgen, Hq. apply Forall2_fmap_r. eapply Forall2_impl; [exact Hf|]. intros charge t Ht.
  unfold compose. destruct (decide (pair_of t = (p, c))) as [Eq|Eq].
  - rewrite settle_pair by done. pose proof (charge_generation _ _ _ _ Ha Ht).
    destruct Ht as [T1 T2 T3 T4 T5]. constructor; cbn [tk_bytes tk_settled]; [done..| |intros _; lia].
    change (pair_of _) with (pair_of t). rewrite Hq, Eq, bool_decide_true by done. done.
  - rewrite settle_other by done. eapply (ticket_kept l l' charge t (p, c) true); [done|exact Hq|lia|done].
Qed.

Lemma footprint_positive policy bytes amount : charge_granularity_bytes policy ≠ 0%N → footprint_of policy bytes = Some amount →
  (0 < amount)%N.
Proof. intros Hu. unfold footprint_of, checked_mul_u64. destruct (_ <? _)%N; [|done]. intros [= <-]. nia. Qed.

(** The ledger after a charge that was granted. *)
Definition entry_generation (l : HostQuotaLedger) (q : WorkerSession * WorkerSession) : N :=
  match hq_pairs l !! q with Some balance => pb_generation balance | None => hq_generation l end.
Definition charged (l : HostQuotaLedger) (ts : list ticket) (p c : WorkerSession) (amount : N) : HostQuotaLedger :=
  mkQuotaLedger (hq_policy l) (held everyone ts + amount) (<[p := (held (by_producer p) ts + amount)%N]> (hq_producers l))
    (<[c := (held (by_consumer c) ts + amount)%N]> (hq_consumers l))
    (<[(p, c) := mkBalance (held (by_pair p c) ts + amount) (entry_generation l (p, c))]> (hq_pairs l))
    (hq_generation l) (hq_release_faults l).

Lemma charge_accounts l ts p c amount : accounts l ts → (0 < amount)%N →
  accounts (charged l ts p c amount) (ts ++ [mkTicket p c amount false]).
Proof.
  intros [A1 A2 A3 A4 A5] Hpos. constructor; cbn [charged hq_producers hq_consumers hq_pairs hq_host_bytes hq_generation].
  - exact (balances_charge fst _ _ p c _ A1 Hpos).
  - exact (balances_charge snd _ _ p c _ A2 Hpos).
  - rewrite fmap_insert. exact (balances_charge id _ _ p c _ A3 Hpos).
  - rewrite held_app. cbn [held tk_settled tk_bytes negb andb]. change (everyone _) with true. lia.
  - apply map_Forall_insert_2; [|done]. unfold entry_generation. cbn [pb_generation]. destruct (hq_pairs l !! (p, c)) eqn:E; [|done].
    exact (A5 _ _ E).
Qed.

Lemma charge_tickets l ts p c amount charge t : ticket_of l charge t → ticket_of (charged l ts p c amount) charge t.
Proof.
  intros [T1 T2 T3 T4 T5]. constructor; [done..| |done]. rewrite T4. cbn [charged hq_pairs].
  destruct (decide (pair_of t = (p, c))) as [Ep|Hne]; [|by rewrite lookup_insert_ne]. rewrite Ep, lookup_insert_eq.
  cbn [fmap option_fmap option_map pb_generation].
  unfold entry_generation. destruct (hq_pairs l !! (p, c)) eqn:E; [done|].
  split; [done|]. intros [= Hg]. assert (tk_settled t = true) as Hs by (apply not_false_is_true; rewrite T4, Ep, E; done).
  specialize (T5 Hs). lia.
Qed.

Lemma charge_step_refines l charges ts p c bytes : refines l charges ts → charge_granularity_bytes (hq_policy l) ≠ 0%N →
  let '(a, (l', charges')) := quota_step (ChargeOp p c bytes) (l, charges) in
  let '(a', ts') := spec_step (hq_policy l) (ChargeOp p c bytes) ts in
  a = a' ∧ refines l' charges' ts' ∧ hq_policy l' = hq_policy l ∧ hq_generation l' = hq_generation l.
Proof.
  intros Href Hu. pose proof (refines_positive _ _ _ Href) as Hpos. pose proof Href as [Ha Hf]. pose proof Ha as [A1 A2 A3 A4 A5].
  cbn [quota_step spec_step]. unfold try_charge, spec_charge, producer_bytes, consumer_bytes.
  destruct (footprint_of (hq_policy l) bytes) as [amount|] eqn:Ef; [|done]. cbn [ok_or rbind].
  rewrite (pair_bytes_held _ _ _ _ Ha), A4, (balances_default _ _ _ _ A1), (balances_default _ _ _ _ A2).
  rewrite (balances_len _ _ _ Hpos A1), (balances_len _ _ _ Hpos A2), (pairs_len _ _ Hpos Ha).
  change (select fst p) with (by_producer p). change (select snd c) with (by_consumer c).
  assert (∀ f, (held f ts ≤ held everyone ts)%N) as Hle by (intros f; by apply held_le).
  pose proof (Hle (by_producer p)). pose proof (Hle (by_consumer c)). pose proof (Hle (by_pair p c)).
  destruct (N.leb_spec (2 ^ 64) (held everyone ts + amount)) as [Ho|Ho].
  { unfold checked_add_u64 at 4. rewrite (proj2 (N.ltb_ge _ _)) by lia.
    do 3 (destruct (checked_add_u64 _ _); [|done]; cbn [ok_or rbind]). done. }
  unfold checked_add_u64. rewrite !(proj2 (N.ltb_lt _ _)) by lia. cbn [ok_or rbind].
  repeat match goal with |- context [if ?b then Err _ else _] => destruct b; [done|] end. split_and!; [done| |done|done].
  pose proof (footprint_positive _ _ _ Hu Ef) as Hpa. split; [by apply charge_accounts|].
  apply Forall2_app; [|constructor; [|done]]; [eapply Forall2_impl; [exact Hf|]; intros charge t Ht; by apply (charge_tickets _ ts)|].
  constructor; cbn; [done|done|done| |done]. unfold pair_of. cbn. by rewrite lookup_insert_eq.
Qed.

Lemma quota_step_refines op l charges ts : refines l charges ts → charge_granularity_bytes (hq_policy l) ≠ 0%N →
  (hq_generation l < 2 ^ 64 - 1)%N →
  let '(a, (l', charges')) := quota_step op (l, charges) in
  let '(a', ts') := spec_step (hq_policy l) op ts in
  a = a' ∧ refines l' charges' ts' ∧ hq_policy l' = hq_policy l ∧ (hq_generation l' ≤ hq_generation l + 1)%N.
Proof.
  intros Href Hu Hg. destruct op as [p c bytes|i|p c].
  - pose proof (charge_step_refines _ _ _ p c bytes Href Hu) as H. destruct (quota_step _ _) as [a [l' cs']], (spec_step _ _ _) as [a' ts'].
    destruct H as (? & ? & ? & ->). split_and!; [done..|lia].
  - by apply release_step_refines.
  - by apply teardown_step_refines.
Qed.

Lemma quota_run_refines ops l charges ts : refines l charges ts → charge_granularity_bytes (hq_policy l) ≠ 0%N →
  (hq_generation l + blen ops < 2 ^ 64)%N →
  let '(answers, (l', charges')) := run_steps quota_step ops (l, charges) in
  let '(answers', ts') := run_steps (spec_step (hq_policy l)) ops ts in
  answers = answers' ∧ refines l' charges' ts' ∧ hq_policy l' = hq_policy l.
Proof.
  revert l charges ts. induction ops as [|op ops IH]; intros l charges ts Href Hu Hg; cbn [run_steps]; [done|].
  autorewrite with blen in Hg. pose proof (quota_step_refines op l charges ts Href Hu) as Hs.
  destruct (quota_step op (l, charges)) as [a [l' charges']], (spec_step (hq_policy l) op ts) as [a' ts'].
  destruct Hs as (-> & Href' & Hpol & Hg'); [lia|]. specialize (IH l' charges' ts' Href'). rewrite Hpol in IH.
  destruct (run_steps quota_step ops (l', charges')) as [as1 [l1 cs1]], (run_steps _ ops ts') as [as2 ts2].
  destruct IH as (-> & ? & ?); [done|lia|done].
Qed.

Lemma new_refines policy l : HostQuotaLedger_new policy = Ok l →
  refines l [] [] ∧ hq_policy l = policy ∧ hq_generation l = 0%N ∧ charge_granularity_bytes policy ≠ 0%N.
Proof.
  unfold HostQuotaLedger_new, HostQuotaPolicy_validate. intros H. result_inv. bool_prop.
  repeat match goal with H : context [if ?b then _ else _] |- _ => destruct b eqn:?; [discriminate H|] end. bool_prop.
  split_and!; [|done|done|done]. split; [|constructor]. by constructor; try (intros k; cbn; by rewrite ?fmap_empty, lookup_empty).
Qed.

(** ** Bounds *)

Record within (policy : HostQuotaPolicy) (ts : list ticket) : Prop := {
  wi_producer : ∀ p, (held (by_producer p) ts ≤ max_bytes_per_producer_session policy)%N;
  wi_consumer : ∀ c, (held (by_consumer c) ts ≤ max_bytes_per_consumer_session policy)%N;
  wi_host : (held everyone ts ≤ max_bytes_host policy)%N;
  wi_producers : (tracked fst ts ≤ max_tracked_sessions policy)%N;
  wi_consumers : (tracked snd ts ≤ max_tracked_sessions policy)%N;
  wi_pairs : (tracked id ts ≤ max_tracked_sessions policy)%N
}.

Lemma tracked_mono {K} `{Countable K} (g : WorkerSession * WorkerSession → K) ts ts' :
  Forall (λ t, (0 < tk_bytes t)%N) ts → Forall (λ t, (0 < tk_bytes t)%N) ts' →
  (∀ k, held (select g k) ts' ≤ held (select g k) ts)%N → (tracked g ts' ≤ tracked g ts)%N.
Proof.
  intros Hp Hp' Hle. unfold tracked. apply N2Z.inj_le. rewrite !nat_N_Z. apply Nat2Z.inj_le, subseteq_size.
  intros k. rewrite !elem_of_list_to_set, <- !held_positive by done. specialize (Hle k). lia.
Qed.

Lemma tracked_charge {K} `{Countable K} (g : WorkerSession * WorkerSession → K) ts p c amount limit :
  Forall (λ t, (0 < tk_bytes t)%N) ts → (tracked g ts ≤ limit)%N →
  ((held (select g (g (p, c))) ts =? 0) && (limit <=? tracked g ts))%N = false →
  (tracked g (ts ++ [mkTicket p c amount false]) ≤ limit)%N.
Proof.
  intros Hp Hle Hn. unfold tracked in *. rewrite filter_app, fmap_app, list_to_set_app_L, (filter_cons_True _ _ []), filter_nil by done.
  cbn [fmap list_fmap list_to_set]. rewrite union_empty_r_L.
  set (s := list_to_set _ : gset K) in *. change (g (pair_of _)) with (g (p, c)).
  destruct (decide (g (p, c) ∈ s)) as [Hin|Hin]; [by replace (s ∪ {[g (p, c)]}) with s by set_solver|].
  rewrite size_union, size_singleton by set_solver. apply andb_false_iff in Hn as [Hn|Hn].
  - apply N.eqb_neq in Hn. apply held_positive in Hn; [|done]. contradict Hin. by apply elem_of_list_to_set.
  - apply N.leb_gt in Hn. lia.
Qed.

Lemma within_shrinks policy ts ts' : Forall (λ t, (0 < tk_bytes t)%N) ts → Forall (λ t, (0 < tk_bytes t)%N) ts' →
  (∀ K (D : EqDecision K) (g : WorkerSession * WorkerSession → K) k, held (select g k) ts' ≤ held (select g k) ts)%N →
  within policy ts → within policy ts'.
Proof.
  intros Hp Hp' Hle [W1 W2 W3 W4 W5 W6]. constructor; [intros p; etrans; [apply Hle|apply W1]|intros c; etrans; [apply Hle|apply W2]|
    etrans; [apply Hle|exact W3]|..]; (etrans; [apply tracked_mono; [exact Hp|done|apply Hle]|done]).
Qed.

Lemma held_charge {K} `{EqDecision K} (g : WorkerSession * WorkerSession → K) k ts p c amount :
  held (select g k) (ts ++ [mkTicket p c amount false]) =
  (held (select g k) ts + if bool_decide (g (p, c) = k) then amount else 0)%N.
Proof.
  rewrite held_app. cbn [held tk_settled tk_bytes negb andb]. unfold select at 2. cbn [pair_of tk_producer tk_consumer].
  rewrite N.add_0_r. done.
Qed.

Lemma spec_step_within policy op ts : charge_granularity_bytes policy ≠ 0%N →
  Forall (λ t, (0 < tk_bytes t)%N) ts ∧ within policy ts →
  Forall (λ t, (0 < tk_bytes t)%N) (spec_step policy op ts).2 ∧ within policy (spec_step policy op ts).2.
Proof.
  intros Hu [Hp Hw]. destruct op as [p c bytes|i|p c]; cbn [spec_step].
  - destruct (spec_charge policy p c bytes ts) as [amount|] eqn:E; cbn [snd]; [|done]. unfold spec_charge in E.
    result_inv. apply (footprint_positive _ _ _ Hu) in H. bool_prop. pose proof Hw as [W1 W2 W3 W4 W5 W6].
    unfold by_producer, by_consumer, by_pair, everyone in *. split; [by apply Forall_app; split; [|constructor]|].
    constructor; unfold by_producer, by_consumer, everyone; [intros p'; rewrite (held_charge fst); specialize (W1 p')|intros c'; rewrite (held_charge snd); specialize (W2 c')|
      rewrite (held_charge (λ _, tt))|by eapply tracked_charge..]; case_bool_decide; cbn [fst snd] in *; subst; try lia; try done.
  - destruct (ts !! i) as [t|] eqn:E; cbn [snd]; [|done]. split; [by apply Forall_delete|].
    eapply within_shrinks; [exact Hp|by apply Forall_delete| |done]. intros K D g k. rewrite (held_delete_if g k ts i t E). lia.
  - cbn [snd]. assert (Forall (λ t, (0 < tk_bytes t)%N) (settle p c <$> ts)) as Hp'.
    { apply Forall_fmap. eapply Forall_impl; [exact Hp|]. intros t. unfold compose, settle. by destruct (by_pair p c t). }
    split; [done|]. eapply within_shrinks; [exact Hp|done| |done]. intros K D g k. rewrite (held_settle g k p c ts). lia.
Qed.

Lemma spec_run_within policy ops ts : charge_granularity_bytes policy ≠ 0%N →
  Forall (λ t, (0 < tk_bytes t)%N) ts ∧ within policy ts → within policy (run_steps (spec_step policy) ops ts).2.
Proof.
  intros Hu. revert ts. induction ops as [|op ops IH]; intros ts H; cbn [run_steps]; [apply H|].
  pose proof (spec_step_within policy op ts Hu H) as Hs. destruct (spec_step policy op ts) as [a ts']. specialize (IH ts' Hs).
  by destruct (run_steps (spec_step policy) ops ts').
Qed.

(** ** Theorems *)

(** C12: the quota ledger accounts exactly for the charges that were granted.  In every
    run of charges, releases and teardowns on a new ledger (shorter than 2^64
    operations, after which generations repeat) each answer is the one computed from
    the list of charges alone: a charge is granted or refused by the sums of the
    charges that are neither handed back nor torn down, a refused one changes
    nothing; a charge is handed back successfully exactly when no teardown of its
    pair came between, and otherwise debits nothing, not even a later charge of the
    same pair; a teardown returns what the pair held.  The balances of every
    producer, consumer and pair and of the host are the sums of those charges. *)
Theorem host_quota_exact policy l ops : HostQuotaLedger_new policy = Ok l → (blen ops < 2 ^ 64)%N →
  let '(answers, (l', charges)) := run_steps quota_step ops (l, []) in
  let '(answers', ts) := run_steps (spec_step policy) ops [] in
  answers = answers' ∧
  (∀ p, producer_bytes l' p = held (by_producer p) ts) ∧ (∀ c, consumer_bytes l' c = held (by_consumer c) ts) ∧
  (∀ p c, pair_bytes l' p c = held (by_pair p c) ts) ∧ hq_host_bytes l' = held everyone ts.
Proof.
  intros Hn Hlen. destruct (new_refines policy l Hn) as (Href & <- & Hg & Hu).
  pose proof (quota_run_refines ops l [] [] Href Hu) as H. destruct (run_steps quota_step _ _) as [answers [l' charges]].
  destruct (run_steps _ ops []) as [answers' ts]. destruct H as (-> & [Ha _] & _); [lia|]. pose proof Ha as [A1 A2 _ A4 _].
  split_and!; [done|intros p; by apply balances_default|intros c; by apply balances_default|intros p c; by apply pair_bytes_held|done].
Qed.

(** C17: no balance ever passes its bound.  After every such run the bytes of each
    producer session, of each consumer session and of the host are within the
    policy, and so is the number of sessions and pairs that the ledger tracks. *)
Theorem host_quota_bounded policy l ops : HostQuotaLedger_new policy = Ok l → (blen ops < 2 ^ 64)%N →
  let '(l', _) := (run_steps quota_step ops (l, [])).2 in
  (∀ p, (producer_bytes l' p ≤ max_bytes_per_producer_session policy)%N) ∧
  (∀ c, (consumer_bytes l' c ≤ max_bytes_per_consumer_session policy)%N) ∧
  (hq_host_bytes l' ≤ max_bytes_host policy)%N ∧
  (map_len (hq_producers l') ≤ max_tracked_sessions policy)%N ∧ (map_len (hq_consumers l') ≤ max_tracked_sessions policy)%N ∧
  (map_len (hq_pairs l') ≤ max_tracked_sessions policy)%N.
Proof.
  intros Hn Hlen. destruct (new_refines policy l Hn) as (Href & <- & Hg & Hu).
  pose proof (quota_run_refines ops l [] [] Href Hu) as H. pose proof (spec_run_within (hq_policy l) ops [] Hu) as Hw.
  destruct (run_steps quota_step _ _) as [answers [l' charges]], (run_steps _ ops []) as [answers' ts]. cbn [snd] in *.
  destruct H as (_ & Hr & Hpol); [lia|]. pose proof (refines_positive _ _ _ Hr) as Hpos. destruct Hr as [Ha _]. pose proof Ha as [A1 A2 A3 A4 _].
  destruct Hw as [W1 W2 W3 W4 W5 W6].
  { split; [done|]. constructor; intros; exact (N.le_0_l _). }
  rewrite (balances_len _ _ _ Hpos A1), (balances_len _ _ _ Hpos A2), (pairs_len _ _ Hpos Ha), A4.
  split_and!; [intros p|intros c|done..]; unfold producer_bytes, consumer_bytes;
    [rewrite (balances_default _ _ _ _ A1); apply W1|rewrite (balances_default _ _ _ _ A2); apply W2].
Qed.

(** A run: three charges (one rounded up, one refused), a teardown, a late release. *)
Definition quota_policy : HostQuotaPolicy := HostQuotaPolicy_new 16384 16384 16384 4.
Definition quota_ledger : HostQuotaLedger := mkQuotaLedger quota_policy 0 ∅ ∅ ∅ 0 0.
Definition quota_ops : list quota_op :=
  [ChargeOp 1 2 5000; ChargeOp 1 3 1; ChargeOp 1 2 8192; TeardownOp 1 2; ChargeOp 1 2 4096; ReleaseOp 0%nat; ReleaseOp 0%nat]%N.

Lemma host_quota_exact_witness :
  HostQuotaLedger_new quota_policy = Ok quota_ledger ∧
  (run_steps quota_step quota_ops (quota_ledger, [])).1 =
    [Charged (Ok 8192); Charged (Ok 4096); Charged (Err (ProducerQuota 16384 12288 8192)); Reaped 8192; Charged (Ok 4096);
     Released (Some (Err (ExceedsPairBalance 0 8192))); Released (Some (Ok tt))]%N ∧
  ∃ l' ts, (run_steps quota_step quota_ops (quota_ledger, [])).2.1 = l' ∧ hq_host_bytes l' = held everyone ts ∧ hq_host_bytes l' = 4096%N.
Proof.
  pose proof (host_quota_exact quota_policy quota_ledger quota_ops eq_refl eq_refl) as H. split; [reflexivity|].
  split; [vm_compute; reflexivity|]. exists (run_steps quota_step quota_ops (quota_ledger, [])).2.1, (run_steps (spec_step quota_policy) quota_ops []).2.
  destruct (run_steps quota_step quota_ops (quota_ledger, [])) as [a [l' cs]] eqn:E, (run_steps (spec_step quota_policy) quota_ops []) as [a' ts].
  split; [reflexivity|]. split; [exact (proj2 (proj2 (proj2 (proj2 H))))|].
  change (hq_host_bytes (a, (l', cs)).2.1 = 4096%N). rewrite <- E. vm_compute. reflexivity.
Defined.

Lemma host_quota_bounded_witness :
  HostQuotaLedger_new quota_policy = Ok quota_ledger ∧
  (hq_host_bytes (run_steps quota_step quota_ops (quota_ledger, [])).2.1 ≤ 16384)%N.
Proof.
  split; [reflexivity|]. pose proof (host_quota_bounded quota_policy quota_ledger quota_ops eq_refl eq_refl) as H.
  destruct (run_steps quota_step quota_ops (quota_ledger, [])).2 as [l' cs]. exact (proj1 (proj2 (proj2 H))).
Defined.
