(* ===== verification/Scopes.v ===== *)
(** * Execution scopes: crates/ptr-runtime/src/scopes.rs

    The registry that every committed scope record is applied to: which transitions a
    scope may take, which records are refused, replay, the parts a compacted snapshot
    carries and the registry rebuilt from them, and the operations on a registry that
    is not backed by a ledger ([create], [transition], [cleanup]). *)

From S2P Require Import Prelude Bytes Types.
From stdpp Require Import options.

#[export] Instance ScopeLeaseBinding_eq_dec : EqDecision ScopeLeaseBinding.
Proof. solve_decision. Defined.
#[export] Instance ScopeLifecycleEvent_eq_dec : EqDecision ScopeLifecycleEvent.
Proof. solve_decision. Defined.

(** ** Data *)

(** [AdmittedState] is the code's [Admitted]. *)
Inductive ScopeState :=
| Created | AdmittedState | Started | Completed | Failed | Cancelled | TimedOut | Revoked | Released.
#[export] Instance ScopeState_eq_dec : EqDecision ScopeState.
Proof. solve_decision. Defined.

Definition is_terminal (s : ScopeState) : bool :=
  match s with
  | Completed | Failed | Cancelled | TimedOut | Revoked | Released => true
  | _ => false
  end.

Record ExecutionScope := mkScope {
  xs_id : string;
  xs_parent : option string;
  xs_session : string;
  xs_project : string;
  xs_created_at : Timestamp;
  xs_deadline : option Timestamp;
  xs_state : ScopeState;
  xs_cancellation_requested : bool
}.
#[export] Instance ExecutionScope_eq_dec : EqDecision ExecutionScope.
Proof. solve_decision. Defined.

Inductive ScopeEventKind :=
| EvCreated | EvAdmitted | EvStarted | EvCompleted | EvFailed | EvCancelled | EvTimedOut | EvRevoked | EvReleased.

Record ScopeEvent := mkScopeEvent {
  ev_sequence : N;
  ev_scope : string;
  ev_kind : ScopeEventKind
}.

Inductive ScopeError :=
| DuplicateScope (id : string)
| UnknownScope (id : string)
| ParentMissing (id : string)
| ParentScopeMismatch
| InvalidTransition (from to : ScopeState)
| TerminalScope (state : ScopeState)
| RecoveryRequired (id : string)
| InvalidCommittedEvent
| InvalidLeaseBinding
| InvalidRevision
| CapacityExceeded (scopes : N).

Definition MAX_SCOPES : N := 16384.
Definition SCOPE_BLOCK_OVERHEAD : N := 8 + 4 + 8 + 8.

Definition event_kind (state : ScopeState) : ScopeEventKind :=
  match state with
  | Created => EvCreated
  | AdmittedState => EvAdmitted
  | Started => EvStarted
  | Completed => EvCompleted
  | Failed => EvFailed
  | Cancelled => EvCancelled
  | TimedOut => EvTimedOut
  | Revoked => EvRevoked
  | Released => EvReleased
  end.

Definition state_from_kind (kind : ScopeLifecycleKind) : ScopeState :=
  match kind with
  | Scope_Created => Created
  | Scope_Admitted => AdmittedState
  | Scope_Started => Started
  | Scope_Completed => Completed
  | Scope_Failed => Failed
  | Scope_Cancelled => Cancelled
  | Scope_TimedOut => TimedOut
  | Scope_Revoked => Revoked
  | Scope_Released => Released
  end.

Definition state_to_kind (state : ScopeState) : ScopeLifecycleKind :=
  match state with
  | Created => Scope_Created
  | AdmittedState => Scope_Admitted
  | Started => Scope_Started
  | Completed => Scope_Completed
  | Failed => Scope_Failed
  | Cancelled => Scope_Cancelled
  | TimedOut => Scope_TimedOut
  | Revoked => Scope_Revoked
  | Released => Scope_Released
  end.

Definition valid_transition (current next : ScopeState) : bool :=
  match current, next with
  | Created, AdmittedState | AdmittedState, Started
  | Started, Completed | Started, Failed | Started, Cancelled | Started, TimedOut | Started, Revoked
  | AdmittedState, Revoked | Created, Revoked | AdmittedState, Cancelled | Created, Cancelled
  | Completed, Released | Failed, Released | Cancelled, Released | TimedOut, Released | Revoked, Released => true
  | _, _ => false
  end.

(** [matches!(next, Cancelled | TimedOut | Revoked)]. *)
Definition requests_cancellation (next : ScopeState) : bool :=
  match next with
  | Cancelled | TimedOut | Revoked => true
  | _ => false
  end.

Definition lifecycle_event (scope : ExecutionScope) (previous : option ScopeState) (next : ScopeState)
    (revision : Revision) (lease : ScopeLeaseBinding) (reason : option string) : ScopeLifecycleEvent :=
  {| sle_scope_id := xs_id scope; sle_parent_id := xs_parent scope; sle_session_id := xs_session scope;
     sle_project_id := xs_project scope; sle_created_at := xs_created_at scope; sle_deadline := xs_deadline scope;
     sle_kind := state_to_kind next; sle_previous_kind := state_to_kind <$> previous; sle_lease := lease;
     sle_revision := revision; sle_reason := reason |}.

(** [ScopeLeaseBinding::default]. *)
Definition default_lease : ScopeLeaseBinding :=
  {| slb_state_id := None; slb_pod_id := None; slb_placement_epoch := None; slb_fencing_token := None;
     slb_generation := None; slb_resource_lease_id := None |}.

(** ** Sizes *)

Definition field_bytes (text : string) : N := 4 + slen text.
Definition optional_bytes (inner : option N) : N := 8 + default 0%N inner.

Definition compacted_scope_entry_bytes (id : string) (parent : option string) (session project : string)
    (deadline : option Timestamp) (lease : ScopeLeaseBinding) : N :=
  field_bytes id + optional_bytes (field_bytes <$> parent) + field_bytes session + field_bytes project +
  8 + optional_bytes ((λ _, 8%N) <$> deadline) + 8 + 8 +
  optional_bytes (field_bytes <$> slb_state_id lease) + optional_bytes (field_bytes <$> slb_pod_id lease) +
  optional_bytes ((λ _, 8%N) <$> slb_placement_epoch lease) + optional_bytes ((λ _, 16%N) <$> slb_fencing_token lease) +
  optional_bytes ((λ _, 8%N) <$> slb_generation lease) + optional_bytes (field_bytes <$> slb_resource_lease_id lease).

(** ** The registry *)

Record ScopeRegistry := mkRegistry {
  sr_scopes : gmap string ExecutionScope;
  sr_events : list ScopeEvent;
  sr_committed : list ScopeLifecycleEvent;
  sr_recovery_required : gset string;
  sr_leases : gmap string ScopeLeaseBinding;
  sr_last_revision : option Revision;
  sr_snapshot_bytes : N
}.

Definition ScopeRegistry_default : ScopeRegistry := mkRegistry ∅ [] [] ∅ ∅ None 0.

Definition with_scopes (scopes : gmap string ExecutionScope) (r : ScopeRegistry) : ScopeRegistry :=
  mkRegistry scopes (sr_events r) (sr_committed r) (sr_recovery_required r) (sr_leases r) (sr_last_revision r)
    (sr_snapshot_bytes r).
Definition with_leases (leases : gmap string ScopeLeaseBinding) (r : ScopeRegistry) : ScopeRegistry :=
  mkRegistry (sr_scopes r) (sr_events r) (sr_committed r) (sr_recovery_required r) leases (sr_last_revision r)
    (sr_snapshot_bytes r).
Definition with_recovery (ids : gset string) (r : ScopeRegistry) : ScopeRegistry :=
  mkRegistry (sr_scopes r) (sr_events r) (sr_committed r) ids (sr_leases r) (sr_last_revision r) (sr_snapshot_bytes r).

Definition record (scope : string) (kind : ScopeEventKind) (r : ScopeRegistry) : ScopeRegistry :=
  mkRegistry (sr_scopes r) (sr_events r ++ [mkScopeEvent (blen (sr_events r)) scope kind]) (sr_committed r)
    (sr_recovery_required r) (sr_leases r) (sr_last_revision r) (sr_snapshot_bytes r).

(** [self.committed.push(event)], with the revision of the last record. *)
Definition push_committed (event : ScopeLifecycleEvent) (r : ScopeRegistry) : ScopeRegistry :=
  mkRegistry (sr_scopes r) (sr_events r) (sr_committed r ++ [event]) (sr_recovery_required r) (sr_leases r)
    (Some (sle_revision event)) (sr_snapshot_bytes r).

Definition scope_entry_bytes (scope : ExecutionScope) (lease : ScopeLeaseBinding) : N :=
  compacted_scope_entry_bytes (xs_id scope) (xs_parent scope) (xs_session scope) (xs_project scope) (xs_deadline scope) lease.

Definition account (scope : ExecutionScope) (lease : ScopeLeaseBinding) (r : ScopeRegistry) : ScopeRegistry :=
  mkRegistry (sr_scopes r) (sr_events r) (sr_committed r) (sr_recovery_required r) (sr_leases r) (sr_last_revision r)
    (N.max (sr_snapshot_bytes r) SCOPE_BLOCK_OVERHEAD + scope_entry_bytes scope lease).

Definition validate_lease_shape (lease : ScopeLeaseBinding) : result ScopeError unit :=
  if xorb (bool_decide (is_Some (slb_placement_epoch lease))) (bool_decide (is_Some (slb_fencing_token lease))) ||
     bool_decide (is_Some (slb_fencing_token lease)) &&
     (bool_decide (slb_state_id lease = None) || bool_decide (slb_pod_id lease = None) ||
      bool_decide (slb_generation lease = None))
  then Err InvalidLeaseBinding else Ok tt.

Definition scope_get (id : string) (r : ScopeRegistry) : result ScopeError ExecutionScope :=
  ok_or (sr_scopes r !! id) (UnknownScope id).
Definition scope_lease (id : string) (r : ScopeRegistry) : result ScopeError ScopeLeaseBinding :=
  ok_or (sr_leases r !! id) (UnknownScope id).

Definition recovery_required (id : string) (r : ScopeRegistry) : bool := bool_decide (id ∈ sr_recovery_required r).
Definition recoverable_scopes (r : ScopeRegistry) : list string := bset_list (sr_recovery_required r).

Definition unreleased (r : ScopeRegistry) : gset string :=
  list_to_set (xs_id <$> filter (λ s, xs_state s ≠ Released) (btree_list (sr_scopes r)).*2).
Definition mark_recovery_required (r : ScopeRegistry) : ScopeRegistry := with_recovery (unreleased r) r.

Definition mark_scope_recovery_required (id : string) (r : ScopeRegistry) : result ScopeError ScopeRegistry :=
  let? scope := scope_get id r in
  if is_terminal (xs_state scope) then Err (TerminalScope (xs_state scope))
  else Ok (with_recovery ({[id]} ∪ sr_recovery_required r) r).

Definition scope_children (id : string) (r : ScopeRegistry) : list string :=
  xs_id <$> filter (λ s, xs_parent s = Some id) (btree_list (sr_scopes r)).*2.

Definition ensure_available (id : string) (r : ScopeRegistry) : result ScopeError unit :=
  let? scope := scope_get id r in
  if is_terminal (xs_state scope) then Err (TerminalScope (xs_state scope))
  else if recovery_required id r then Err (RecoveryRequired id)
  else Ok tt.

(** The parent is there and belongs to the same session and project. *)
Definition check_parent (parent : option string) (session project : string) (r : ScopeRegistry) : result ScopeError unit :=
  match parent with
  | None => Ok tt
  | Some parent_id =>
      let? p := ok_or (sr_scopes r !! parent_id) (ParentMissing parent_id) in
      if negb (bool_decide (xs_session p = session)) || negb (bool_decide (xs_project p = project))
      then Err ParentScopeMismatch else Ok tt
  end.

(** ** Committed records *)

Definition stale_revision (event : ScopeLifecycleEvent) (r : ScopeRegistry) : bool :=
  match sr_last_revision r with
  | Some revision => (sle_revision event <? revision)%N
  | None => false
  end.
Definition other_lease (event : ScopeLifecycleEvent) (r : ScopeRegistry) : bool :=
  match sr_leases r !! sle_scope_id event with
  | Some lease => negb (bool_decide (lease = sle_lease event))
  | None => false
  end.

Definition validate_committed (event : ScopeLifecycleEvent) (r : ScopeRegistry) : result ScopeError unit :=
  validate_lease_shape (sle_lease event) ;?
  let next := state_from_kind (sle_kind event) in
  if bool_decide (next = Created) then
    if bool_decide (is_Some (sr_scopes r !! sle_scope_id event)) then Err (DuplicateScope (sle_scope_id event))
    else if bool_decide (is_Some (sle_previous_kind event)) then Err InvalidCommittedEvent
    else if stale_revision event r then Err InvalidRevision
    else check_parent (sle_parent_id event) (sle_session_id event) (sle_project_id event) r
  else
    let? scope := ok_or (sr_scopes r !! sle_scope_id event) (UnknownScope (sle_scope_id event)) in
    let current := xs_state scope in
    if negb (bool_decide (xs_parent scope = sle_parent_id event)) || negb (bool_decide (xs_session scope = sle_session_id event)) ||
       negb (bool_decide (xs_project scope = sle_project_id event)) || negb (xs_created_at scope =? sle_created_at event)%N ||
       negb (bool_decide (xs_deadline scope = sle_deadline event))
    then Err InvalidCommittedEvent
    else if stale_revision event r then Err InvalidRevision
    else if negb (bool_decide (state_from_kind <$> sle_previous_kind event = Some current)) then Err InvalidCommittedEvent
    else if is_terminal current && negb (bool_decide (next = Released)) then Err (TerminalScope current)
    else if negb (valid_transition current next) then Err (InvalidTransition current next)
    else if other_lease event r then Err InvalidLeaseBinding
    else Ok tt.

Definition scope_of_event (event : ScopeLifecycleEvent) : ExecutionScope :=
  mkScope (sle_scope_id event) (sle_parent_id event) (sle_session_id event) (sle_project_id event) (sle_created_at event)
    (sle_deadline event) Created false.

(** [scope.state = next], and the request to cancel. *)
Definition enter_state (next : ScopeState) (s : ExecutionScope) : ExecutionScope :=
  mkScope (xs_id s) (xs_parent s) (xs_session s) (xs_project s) (xs_created_at s) (xs_deadline s) next
    (requests_cancellation next || xs_cancellation_requested s).

Definition apply_committed (event : ScopeLifecycleEvent) (r : ScopeRegistry) : result ScopeError ScopeRegistry :=
  if bool_decide (event ∈ sr_committed r) then Ok r
  else
    validate_committed event r ;?
    let id := sle_scope_id event in
    let next := state_from_kind (sle_kind event) in
    let? r :=
      (if bool_decide (next = Created) then
         if bool_decide (is_Some (sr_scopes r !! id)) then Err (DuplicateScope id)
         else
           let scope := scope_of_event event in
           check_parent (xs_parent scope) (xs_session scope) (xs_project scope) r ;?
           let r := account scope (sle_lease event) r in
           let r := with_scopes (<[id := scope]> (sr_scopes r)) r in
           Ok (with_leases (<[id := sle_lease event]> (sr_leases r)) r)
       else
         if other_lease event r then Err InvalidLeaseBinding
         else
           let? scope := ok_or (sr_scopes r !! id) (UnknownScope id) in
           let current := xs_state scope in
           if negb (bool_decide (state_from_kind <$> sle_previous_kind event = Some current)) then Err InvalidCommittedEvent
           else if is_terminal current && negb (bool_decide (next = Released)) then Err (TerminalScope current)
           else if negb (valid_transition current next) then Err (InvalidTransition current next)
           else Ok (with_scopes (<[id := enter_state next scope]> (sr_scopes r)) r)) in
    let r := record id (event_kind next) r in
    let r := push_committed event r in
    Ok (if bool_decide (next = Released) then with_recovery (sr_recovery_required r ∖ {[id]}) r else r).

Fixpoint apply_all (events : list ScopeLifecycleEvent) (r : ScopeRegistry) : result ScopeError unit * ScopeRegistry :=
  match events with
  | [] => (Ok tt, r)
  | event :: events =>
      match apply_committed event r with
      | Ok r' => apply_all events r'
      | Err error => (Err error, r)
      end
  end.
Definition scope_replay (events : list ScopeLifecycleEvent) (r : ScopeRegistry) : result ScopeError unit * ScopeRegistry :=
  let '(outcome, r') := apply_all events r in
  match outcome with
  | Ok _ => (Ok tt, mark_recovery_required r')
  | Err error => (Err error, r')
  end.

Definition check_capacity (event : ScopeLifecycleEvent) (r : ScopeRegistry) : result ScopeError unit :=
  if negb (bool_decide (state_from_kind (sle_kind event) = Created)) then Ok tt
  else
    let scopes := (N.of_nat (size (sr_scopes r)) + 1)%N in
    if (MAX_SCOPES <? scopes)%N then Err (CapacityExceeded scopes) else Ok tt.

Definition growth_bytes (event : ScopeLifecycleEvent) (r : ScopeRegistry) : N :=
  if negb (bool_decide (state_from_kind (sle_kind event) = Created)) then 0
  else
    let framing := if (sr_snapshot_bytes r =? 0)%N then SCOPE_BLOCK_OVERHEAD else 0%N in
    framing + compacted_scope_entry_bytes (sle_scope_id event) (sle_parent_id event) (sle_session_id event)
                (sle_project_id event) (sle_deadline event) (sle_lease event).

(** ** Compacted snapshots *)

Abbreviation CompactedScopes := (gmap string (ExecutionScope * ScopeLeaseBinding)) (only parsing).

Definition compacted_parts (r : ScopeRegistry) : CompactedScopes * option Revision :=
  (map_imap (λ id scope, Some (scope, default default_lease (sr_leases r !! id))) (sr_scopes r), sr_last_revision r).

(** What the state says of the cancellation flag. *)
Definition expected_flag (state : ScopeState) : option bool :=
  match state with
  | Cancelled | TimedOut | Revoked => Some true
  | Released => None
  | Created | AdmittedState | Started | Completed | Failed => Some false
  end.

(** One scope, with its own edge to its parent. *)
Definition check_compacted (scopes : CompactedScopes) (id : string) (scope : ExecutionScope) (lease : ScopeLeaseBinding) :
    result ScopeError unit :=
  if negb (bool_decide (xs_id scope = id)) then Err InvalidCommittedEvent
  else
    validate_lease_shape lease ;?
    if match expected_flag (xs_state scope) with
       | Some expected => negb (Bool.eqb expected (xs_cancellation_requested scope))
       | None => false
       end
    then Err InvalidCommittedEvent
    else
      match xs_parent scope with
      | None => Ok tt
      | Some parent_id =>
          let? parent := ok_or (scopes !! parent_id) InvalidCommittedEvent in
          if bool_decide (parent_id = id) then Err InvalidCommittedEvent
          else if negb (bool_decide (xs_session parent.1 = xs_session scope)) ||
                  negb (bool_decide (xs_project parent.1 = xs_project scope))
          then Err ParentScopeMismatch
          else Ok tt
      end.
Fixpoint check_each (scopes : CompactedScopes) (l : list (string * (ExecutionScope * ScopeLeaseBinding))) : result ScopeError unit :=
  match l with
  | [] => Ok tt
  | (id, (scope, lease)) :: l => check_compacted scopes id scope lease ;? check_each scopes l
  end.

(** One chain of parents, until it reaches a scope that is known to end at a root;
    [None] when the fuel is exhausted.  [path] is the path and the set [on_path]. *)
Fixpoint walk_chain (fuel : nat) (scopes : CompactedScopes) (rooted : gset string) (path : gset string)
    (current : option string) : option (result ScopeError (gset string)) :=
  match current with
  | None => Some (Ok path)
  | Some id =>
      if bool_decide (id ∈ rooted) then Some (Ok path)
      else if bool_decide (id ∈ path) then Some (Err InvalidCommittedEvent)
      else
        match fuel with
        | O => None
        | S fuel => walk_chain fuel scopes rooted ({[id]} ∪ path) (scopes !! id ≫= λ entry, xs_parent entry.1)
        end
  end.
Fixpoint check_chains (fuel : nat) (scopes : CompactedScopes) (starts : list string) (rooted : gset string) :
    option (result ScopeError unit) :=
  match starts with
  | [] => Some (Ok tt)
  | start :: starts =>
      match walk_chain fuel scopes rooted ∅ (Some start) with
      | Some (Ok path) => check_chains fuel scopes starts (rooted ∪ path)
      | Some (Err error) => Some (Err error)
      | None => None
      end
  end.

Definition add_compacted (r : ScopeRegistry) (entry : string * (ExecutionScope * ScopeLeaseBinding)) : ScopeRegistry :=
  let '(id, (scope, lease)) := entry in
  let r := account scope lease r in
  let r := with_leases (<[id := lease]> (sr_leases r)) r in
  with_scopes (<[id := scope]> (sr_scopes r)) r.

Definition from_compacted_parts (scopes : CompactedScopes) (last_revision : option Revision) :
    option (result ScopeError ScopeRegistry) :=
  if negb (Bool.eqb (bool_decide (scopes = ∅)) (bool_decide (last_revision = None))) then Some (Err InvalidCommittedEvent)
  else
    match check_each scopes (btree_list scopes) with
    | Err error => Some (Err error)
    | Ok _ =>
        match check_chains (S (size scopes)) scopes (btree_list scopes).*1 ∅ with
        | None => None
        | Some (Err error) => Some (Err error)
        | Some (Ok _) =>
            let r := mkRegistry ∅ [] [] ∅ ∅ last_revision 0 in
            Some (Ok (mark_recovery_required (foldl add_compacted r (btree_list scopes))))
        end
    end.

(** ** A registry without a ledger *)

Definition scope_create (scope : ExecutionScope) (r : ScopeRegistry) : result ScopeError ScopeRegistry :=
  if bool_decide (is_Some (sr_scopes r !! xs_id scope)) then Err (DuplicateScope (xs_id scope))
  else
    check_parent (xs_parent scope) (xs_session scope) (xs_project scope) r ;?
    let r := account scope default_lease r in
    let r := with_leases (<[xs_id scope := default_lease]> (sr_leases r)) r in
    let r := with_scopes (<[xs_id scope := scope]> (sr_scopes r)) r in
    Ok (record (xs_id scope) EvCreated r).

Definition scope_transition (id : string) (next : ScopeState) (r : ScopeRegistry) : result ScopeError ScopeRegistry :=
  let? scope := scope_get id r in
  let current := xs_state scope in
  if bool_decide (current = next) && bool_decide (current = Released) then Ok r
  else if is_terminal current && negb (bool_decide (next = Released)) then Err (TerminalScope current)
  else if negb (valid_transition current next) then Err (InvalidTransition current next)
  else Ok (record id (event_kind next) (with_scopes (<[id := enter_state next scope]> (sr_scopes r)) r)).

Definition scope_cancel (id : string) (r : ScopeRegistry) : result ScopeError ScopeRegistry :=
  scope_transition id Cancelled r.

Definition live_children (id : string) (r : ScopeRegistry) : list string :=
  xs_id <$> filter (λ s, xs_parent s = Some id ∧ is_terminal (xs_state s) = false) (btree_list (sr_scopes r)).*2.

(** An operation on the registry that keeps what was changed before an error, [None]
    when the fuel is exhausted. *)
Definition registry_op := ScopeRegistry → option (result ScopeError unit * ScopeRegistry).
Definition then_op (m k : registry_op) : registry_op := λ r,
  match m r with
  | Some (Ok _, r') => k r'
  | other => other
  end.
Definition lift_op (m : ScopeRegistry → result ScopeError ScopeRegistry) : registry_op := λ r,
  match m r with
  | Ok r' => Some (Ok tt, r')
  | Err error => Some (Err error, r)
  end.
Fixpoint each_op (m : string → registry_op) (ids : list string) : registry_op :=
  match ids with
  | [] => lift_op Ok
  | id :: ids => then_op (m id) (each_op m ids)
  end.

Fixpoint scope_cleanup (fuel : nat) (id : string) : registry_op := λ r,
  match fuel with
  | O => None
  | S fuel =>
      then_op (each_op (λ child, then_op (lift_op (scope_cancel child)) (scope_cleanup fuel child)) (live_children id r))
        (λ r,
           match scope_get id r with
           | Err error => Some (Err error, r)
           | Ok scope =>
               if bool_decide (xs_state scope = Released) then Some (Ok tt, r)
               else
                 then_op (if is_terminal (xs_state scope) then lift_op Ok else lift_op (scope_cancel id))
                   (lift_op (scope_transition id Released)) r
           end) r
  end.
