(* ===== verification/ScopeFacts.v ===== *)
(** * What a scope registry guarantees

    Which records are applied, the invariant of every registry that was replayed, and
    that a registry rebuilt from a compacted snapshot goes on like the one the snapshot
    was taken of. *)

From S2P Require Import Prelude Bytes Types Scopes.
From Stdlib Require Import Lia.
From stdpp Require Import options.

(** ** Records *)

Lemma state_kind_inv kind : state_to_kind (state_from_kind kind) = kind.
Proof. by destruct kind. Qed.
Lemma kind_state_inv state : state_from_kind (state_to_kind state) = state.
Proof. by destruct state. Qed.

(** The parent, when there is one, is in the registry and belongs with the scope. *)
Definition parent_fits (parent : option string) (session project : string) (scopes : gmap string ExecutionScope) : Prop :=
  ∀ id, parent = Some id → ∃ p, scopes !! id = Some p ∧ xs_session p = session ∧ xs_project p = project.

(** A lease names no epoch without a token and no token without what it fences. *)
Definition lease_fits (lease : ScopeLeaseBinding) : Prop :=
  (is_Some (slb_placement_epoch lease) ↔ is_Some (slb_fencing_token lease)) ∧
  (is_Some (slb_fencing_token lease) →
     is_Some (slb_state_id lease) ∧ is_Some (slb_pod_id lease) ∧ is_Some (slb_generation lease)).

Lemma check_parent_ok parent session project r :
  check_parent parent session project r = Ok tt ↔ parent_fits parent session project (sr_scopes r).
Proof.
  unfold check_parent, parent_fits. destruct parent as [id|]; [|by split; [intros _ ? ?|]].
  destruct (sr_scopes r !! id) as [p|] eqn:E; cbn [ok_or rbind].
  - destruct (_ || _) eqn:B.
    + split; [done|]. intros H. destruct (H id eq_refl) as (p' & Hp & H1 & H2). assert (p' = p) as -> by congruence.
      by rewrite !bool_decide_true in B.
    + split; [|done]. intros _ id' [= <-]. bool_prop. eauto.
  - split; [done|]. intros H. destruct (H id eq_refl) as (p & ? & _). congruence.
Qed.

Lemma lease_shape_ok lease : validate_lease_shape lease = Ok tt ↔ lease_fits lease.
Proof.
  unfold validate_lease_shape, lease_fits. destruct lease as [state pod epoch token generation resource]; cbn.
  destruct epoch, token, state, pod, generation; cbn; unfold is_Some; naive_solver eauto.
Qed.

(** When a record is applied: a new scope under a fitting parent, or the next state of
    a scope it describes, in the order of revisions and under the scope's lease. *)
Record admissible (e : ScopeLifecycleEvent) (r : ScopeRegistry) : Prop := {
  ad_lease : lease_fits (sle_lease e);
  ad_revision : ∀ revision, sr_last_revision r = Some revision → (revision ≤ sle_revision e)%N;
  ad_change :
    match sr_scopes r !! sle_scope_id e with
    | None =>
        sle_kind e = Scope_Created ∧ sle_previous_kind e = None ∧
        parent_fits (sle_parent_id e) (sle_session_id e) (sle_project_id e) (sr_scopes r)
    | Some s =>
        valid_transition (xs_state s) (state_from_kind (sle_kind e)) = true ∧
        sle_previous_kind e = Some (state_to_kind (xs_state s)) ∧
        (xs_parent s, xs_session s, xs_project s, xs_created_at s, xs_deadline s) =
          (sle_parent_id e, sle_session_id e, sle_project_id e, sle_created_at e, sle_deadline e) ∧
        (∀ lease, sr_leases r !! sle_scope_id e = Some lease → lease = sle_lease e)
    end
}.

Lemma stale_revision_false e r :
  stale_revision e r = false ↔ ∀ revision, sr_last_revision r = Some revision → (revision ≤ sle_revision e)%N.
Proof.
  unfold stale_revision. destruct (sr_last_revision r) as [x|]; [|by split]. rewrite N.ltb_ge. naive_solver.
Qed.
Lemma other_lease_false e r :
  other_lease e r = false ↔ ∀ lease, sr_leases r !! sle_scope_id e = Some lease → lease = sle_lease e.
Proof.
  unfold other_lease. destruct (sr_leases r !! _) as [x|]; [|by split]. rewrite negb_false_iff, bool_decide_eq_true. naive_solver.
Qed.
Lemma created_target current next : valid_transition current next = true → next ≠ Created.
Proof. by destruct current, next. Qed.
Lemma previous_kind_state k current :
  state_from_kind <$> k = Some current ↔ k = Some (state_to_kind current).
Proof.
  destruct k as [k|]; [|done]. cbn. split; intros [= H]; f_equal; subst; [by rewrite state_kind_inv|by rewrite kind_state_inv].
Qed.
Lemma terminal_transition current next : valid_transition current next = true →
  is_terminal current && negb (bool_decide (next = Released)) = false.
Proof. by destruct current, next. Qed.

Lemma validate_created_ok e r : sle_kind e = Scope_Created →
  validate_committed e r = Ok tt ↔ admissible e r.
Proof.
  intros Hk. unfold validate_committed. rewrite Hk. cbn [state_from_kind]. rewrite bool_decide_true by done. split.
  - intros H. apply rbind_ok_inv in H as ([] & Hl & H). apply lease_shape_ok in Hl.
    destruct (sr_scopes r !! sle_scope_id e) eqn:Es; [done|]. rewrite bool_decide_false in H by (by intros []).
    destruct (bool_decide (is_Some (sle_previous_kind e))) eqn:Ep; [done|]. destruct (stale_revision e r) eqn:Er; [done|].
    apply check_parent_ok in H. apply bool_decide_eq_false, eq_None_not_Some in Ep.
    constructor; [done|by apply stale_revision_false|by rewrite Es].
  - intros [Hl Hr Hc]. rewrite (proj2 (lease_shape_ok _) Hl). cbn [rbind].
    destruct (sr_scopes r !! sle_scope_id e) as [s|] eqn:Es; [destruct Hc as (Hv & _); rewrite Hk in Hv; by apply created_target in Hv|].
    destruct Hc as (_ & -> & Hp). rewrite !bool_decide_false by (by intros []).
    rewrite (proj2 (stale_revision_false _ _) Hr). by apply check_parent_ok.
Qed.

Lemma validate_transition_ok e r : sle_kind e ≠ Scope_Created →
  validate_committed e r = Ok tt ↔ admissible e r.
Proof.
  intros Hk. assert (state_from_kind (sle_kind e) ≠ Created) as Hn by (by destruct (sle_kind e)).
  unfold validate_committed. rewrite bool_decide_false by done. split.
  - intros H. apply rbind_ok_inv in H as ([] & Hl & H). apply lease_shape_ok in Hl.
    apply rbind_ok_inv in H as (s & Hs & H). apply ok_or_ok_inv in Hs.
    repeat match type of H with (if ?b then Err _ else _) = _ => destruct b eqn:?; [discriminate H|] end. bool_prop.
    constructor; [done|by apply stale_revision_false|]. rewrite Hs. split_and!; [done|by apply previous_kind_state|congruence|].
    by apply other_lease_false.
  - intros [Hl Hr Hc]. rewrite (proj2 (lease_shape_ok _) Hl). cbn [rbind].
    destruct (sr_scopes r !! sle_scope_id e) as [s|] eqn:Es; [|by destruct Hc]. cbn [ok_or rbind].
    destruct Hc as (Hv & Hp & [= -> -> -> -> ->] & Hle). rewrite !(bool_decide_true (_ = _)), N.eqb_refl by (done || by apply previous_kind_state). cbn [negb orb].
    rewrite (proj2 (stale_revision_false _ _) Hr), (terminal_transition _ _ Hv), Hv. cbn [negb].
    by rewrite (proj2 (other_lease_false _ _) Hle).
Qed.

Lemma validate_committed_ok e r : validate_committed e r = Ok tt ↔ admissible e r.
Proof. destruct (decide (sle_kind e = Scope_Created)); [by apply validate_created_ok|by apply validate_transition_ok]. Qed.

(** The registry after a record that is applied. *)
Definition applied (e : ScopeLifecycleEvent) (r : ScopeRegistry) : ScopeRegistry :=
  let id := sle_scope_id e in
  let next := state_from_kind (sle_kind e) in
  let before := sr_scopes r !! id in
  mkRegistry
    (<[id := match before with Some s => enter_state next s | None => scope_of_event e end]> (sr_scopes r))
    (sr_events r ++ [mkScopeEvent (blen (sr_events r)) id (event_kind next)])
    (sr_committed r ++ [e])
    (if bool_decide (next = Released) then sr_recovery_required r ∖ {[id]} else sr_recovery_required r)
    (match before with Some _ => sr_leases r | None => <[id := sle_lease e]> (sr_leases r) end)
    (Some (sle_revision e))
    (match before with
     | Some _ => sr_snapshot_bytes r
     | None => N.max (sr_snapshot_bytes r) SCOPE_BLOCK_OVERHEAD + scope_entry_bytes (scope_of_event e) (sle_lease e)
     end).

Lemma apply_committed_eq e r : e ∉ sr_committed r →
  apply_committed e r = (validate_committed e r ;? Ok (applied e r)).
Proof.
  intros Hn. unfold apply_committed. rewrite bool_decide_false by done.
  destruct (validate_committed e r) as [[]|] eqn:Ev; cbn [rbind]; [|done]. apply validate_committed_ok in Ev as [_ _ Hc].
  unfold applied. destruct (sr_scopes r !! sle_scope_id e) as [s|] eqn:Es.
  - destruct Hc as (Hv & Hp & _ & Hl). rewrite (bool_decide_false (state_from_kind _ = Created)) by (by eapply created_target).
    rewrite (proj2 (other_lease_false _ _) Hl). cbn [ok_or rbind]. rewrite (proj2 (previous_kind_state _ _) Hp), bool_decide_true by done.
    cbn [negb]. rewrite (terminal_transition _ _ Hv), Hv. cbn [negb rbind]. by case_bool_decide.
  - destruct Hc as (Hk & Hp & Hf). rewrite Hk. cbn [state_from_kind]. rewrite !(bool_decide_true (Created = Created)) by done.
    rewrite (bool_decide_false (is_Some None)) by (by intros []). unfold scope_of_event. cbn [xs_parent xs_session xs_project].
    rewrite (proj2 (check_parent_ok _ _ _ _) Hf). cbn [rbind]. by rewrite (bool_decide_false (Created = Released)).
Qed.

(** A scope record is applied exactly when it is admissible, and what validation
    admits before the record is appended to the ledger is applied afterwards.  A
    record that was applied before changes nothing.  Any other is applied if and only
    if it creates a new scope under a parent of the same session and project, or takes
    a scope that it describes to a next state of the lifecycle, with the lease of the
    scope and a revision that does not go back; [validate_committed] answers the same,
    with the same error. *)
Theorem scope_records_exact e r :
  (e ∈ sr_committed r → apply_committed e r = Ok r) ∧
  (e ∉ sr_committed r → ∀ r', apply_committed e r = Ok r' ↔ admissible e r ∧ r' = applied e r) ∧
  (e ∉ sr_committed r → ∀ error, apply_committed e r = Err error ↔ validate_committed e r = Err error) ∧
  (validate_committed e r = Ok tt ↔ admissible e r).
Proof.
  split_and!; [intros H; unfold apply_committed; by rewrite bool_decide_true| | |apply validate_committed_ok];
    intros Hn ?; rewrite apply_committed_eq, <- ?validate_committed_ok by done;
    destruct (validate_committed e r) as [[]|]; cbn [rbind]; naive_solver.
Qed.

(** ** The parts of a registry *)

(** The chain of parents ends at a scope without one. *)
Inductive rooted (parents : gmap string (option string)) : string → Prop :=
| rooted_root id : parents !! id = Some None → rooted parents id
| rooted_child id p : parents !! id = Some (Some p) → rooted parents p → rooted parents id.

Definition parents_of (m : CompactedScopes) : gmap string (option string) := (λ entry, xs_parent entry.1) <$> m.

Definition flag_fits (s : ExecutionScope) : Prop :=
  ∀ expected, expected_flag (xs_state s) = Some expected → xs_cancellation_requested s = expected.

Record entry_fits (m : CompactedScopes) (id : string) (s : ExecutionScope) (lease : ScopeLeaseBinding) : Prop := {
  ef_id : xs_id s = id;
  ef_lease : lease_fits lease;
  ef_flag : flag_fits s;
  ef_parent : parent_fits (xs_parent s) (xs_session s) (xs_project s) (fst <$> m);
  ef_rooted : rooted (parents_of m) id
}.
Record parts_wf (m : CompactedScopes) (revision : option Revision) : Prop := {
  pw_revision : m = ∅ ↔ revision = None;
  pw_entry : ∀ id s lease, m !! id = Some (s, lease) → entry_fits m id s lease
}.

(** The bytes of a block of scopes. *)
Definition entries_bytes (l : list (string * (ExecutionScope * ScopeLeaseBinding))) : N :=
  foldr (λ entry n, scope_entry_bytes entry.2.1 entry.2.2 + n)%N 0%N l.
Definition block_bytes (m : CompactedScopes) : N :=
  if decide (m = ∅) then 0%N else (SCOPE_BLOCK_OVERHEAD + entries_bytes (btree_list m))%N.

Definition parts (r : ScopeRegistry) : CompactedScopes := (compacted_parts r).1.

(** The states that the committed records took a scope through. *)
Inductive lifecycle : list ScopeState → ScopeState → Prop :=
| lifecycle_created : lifecycle [Created] Created
| lifecycle_next l s s' : lifecycle l s → valid_transition s s' = true → lifecycle (l ++ [s']) s'.
Definition states_of (id : string) (es : list ScopeLifecycleEvent) : list ScopeState :=
  (λ e, state_from_kind (sle_kind e)) <$> filter (λ e, sle_scope_id e = id) es.

Record registry_wf (r : ScopeRegistry) : Prop := {
  rw_parts : parts_wf (parts r) (sr_last_revision r);
  rw_leases : dom (sr_leases r) = dom (sr_scopes r);
  rw_bytes : sr_snapshot_bytes r = block_bytes (parts r);
  rw_recovery : sr_recovery_required r ⊆ unreleased r;
  rw_history : ∀ id, match sr_scopes r !! id with
                     | Some s => lifecycle (states_of id (sr_committed r)) (xs_state s)
                     | None => states_of id (sr_committed r) = []
                     end;
  rw_bound : ∀ e, e ∈ sr_committed r → sr_leases r !! sle_scope_id e = Some (sle_lease e)
}.

Lemma parts_lookup r id :
  parts r !! id = (λ s, (s, default default_lease (sr_leases r !! id))) <$> sr_scopes r !! id.
Proof. unfold parts, compacted_parts. cbn [fst]. rewrite map_lookup_imap. by destruct (sr_scopes r !! id). Qed.

Lemma parts_scopes r : fst <$> parts r = sr_scopes r.
Proof. apply map_eq. intros id. rewrite lookup_fmap, parts_lookup. by destruct (sr_scopes r !! id). Qed.

Lemma parts_leases r : dom (sr_leases r) = dom (sr_scopes r) → snd <$> parts r = sr_leases r.
Proof.
  intros H. apply map_eq. intros id. rewrite lookup_fmap, parts_lookup. apply (f_equal (λ s : gset string, id ∈ s)) in H.
  destruct (sr_scopes r !! id) eqn:E1, (sr_leases r !! id) eqn:E2; cbn; try done; exfalso.
  - assert (id ∈ dom (sr_leases r)) as Hi by (rewrite H; by eapply elem_of_dom_2). apply elem_of_dom in Hi as [? Hi]. congruence.
  - assert (id ∈ dom (sr_scopes r)) as Hi by (rewrite <- H; by eapply elem_of_dom_2). apply elem_of_dom in Hi as [? Hi]. congruence.
Qed.

Lemma parts_empty r : parts r = ∅ ↔ sr_scopes r = ∅.
Proof. rewrite <- (parts_scopes r). split; [by intros ->; rewrite fmap_empty|apply fmap_empty_inv]. Qed.

Lemma rooted_insert parents id p : parents !! id = None → (∀ q, p = Some q → rooted parents q) →
  ∀ id', (id' = id ∨ rooted parents id') → rooted (<[id := p]> parents) id'.
Proof.
  intros Hn Hp.
  assert (∀ id', rooted parents id' → rooted (<[id := p]> parents) id') as Hm.
  { induction 1 as [id' H|id' q H _ IH]; [apply rooted_root|eapply rooted_child; [|exact IH]]; rewrite lookup_insert_ne; congruence. }
  intros id' [->|H]; [|by apply Hm]. destruct p as [q|].
  - eapply rooted_child; [by rewrite lookup_insert_eq|]. apply Hm. by apply Hp.
  - apply rooted_root. by rewrite lookup_insert_eq.
Qed.

(** ** Sizes *)

Lemma entries_bytes_perm l l' : l ≡ₚ l' → entries_bytes l = entries_bytes l'.
Proof. induction 1 as [|x l l' _ IH| |]; unfold entries_bytes in *; cbn in *; lia. Qed.

Lemma entries_bytes_insert m id s lease : m !! id = None →
  entries_bytes (btree_list (<[id := (s, lease)]> m)) = (scope_entry_bytes s lease + entries_bytes (btree_list m))%N.
Proof.
  intros H. rewrite (entries_bytes_perm _ ((id, (s, lease)) :: btree_list m)); [done|].
  rewrite !btree_list_perm. by apply map_to_list_insert.
Qed.

Lemma entries_bytes_update m id s lease s' lease' : m !! id = Some (s, lease) →
  scope_entry_bytes s' lease' = scope_entry_bytes s lease →
  entries_bytes (btree_list (<[id := (s', lease')]> m)) = entries_bytes (btree_list m).
Proof.
  intros H E. rewrite <- (insert_delete_eq m id (s', lease')), entries_bytes_insert, E by apply lookup_delete_eq.
  rewrite <- (entries_bytes_insert (delete id m) id s lease) by apply lookup_delete_eq. by rewrite insert_delete_id.
Qed.

Lemma block_bytes_insert m id s lease : m !! id = None →
  block_bytes (<[id := (s, lease)]> m) = (N.max (block_bytes m) SCOPE_BLOCK_OVERHEAD + scope_entry_bytes s lease)%N.
Proof.
  intros H. unfold block_bytes. rewrite decide_False by apply insert_non_empty. rewrite entries_bytes_insert by done.
  case_decide as E; [subst|].
  - rewrite N.max_r by lia. replace (btree_list ∅) with (@nil (string * (ExecutionScope * ScopeLeaseBinding))) by done. cbn. lia.
  - rewrite N.max_l by lia. lia.
Qed.

Lemma block_bytes_update m id s lease s' lease' : m !! id = Some (s, lease) →
  scope_entry_bytes s' lease' = scope_entry_bytes s lease → block_bytes (<[id := (s', lease')]> m) = block_bytes m.
Proof.
  intros H E. unfold block_bytes. rewrite decide_False by apply insert_non_empty.
  rewrite decide_False by (intros ->; by rewrite lookup_empty in H). by rewrite (entries_bytes_update _ _ _ _ _ _ H E).
Qed.

(** ** Every record keeps the registry well formed *)

Lemma parts_created e r : sr_scopes r !! sle_scope_id e = None →
  parts (applied e r) = <[sle_scope_id e := (scope_of_event e, sle_lease e)]> (parts r).
Proof.
  intros Hs. apply map_eq. intros id. rewrite parts_lookup. unfold applied. cbn [sr_scopes sr_leases]. rewrite Hs.
  destruct (decide (sle_scope_id e = id)) as [<-|Hne]; [by rewrite !lookup_insert_eq|by rewrite !lookup_insert_ne, parts_lookup].
Qed.

Lemma parts_moved e r s lease : sr_scopes r !! sle_scope_id e = Some s → sr_leases r !! sle_scope_id e = Some lease →
  parts (applied e r) = <[sle_scope_id e := (enter_state (state_from_kind (sle_kind e)) s, lease)]> (parts r).
Proof.
  intros Hs Hl. apply map_eq. intros id. rewrite parts_lookup. unfold applied. cbn [sr_scopes sr_leases]. rewrite Hs.
  destruct (decide (sle_scope_id e = id)) as [<-|Hne]; [by rewrite !lookup_insert_eq, Hl|by rewrite !lookup_insert_ne, parts_lookup].
Qed.

Lemma flag_moved s next : flag_fits s → valid_transition (xs_state s) next = true → flag_fits (enter_state next s).
Proof.
  unfold flag_fits, enter_state. cbn. intros Hf Hv expected.
  destruct (xs_state s), next; try done; cbn in *; intros [= <-]; try done; by apply Hf.
Qed.

(** An entry whose parent and key do not change fits where it fitted. *)
Lemma entry_fits_in m m' id s lease : entry_fits m id s lease →
  (∀ q p, m !! q = Some p → ∃ p', m' !! q = Some p' ∧ xs_session p'.1 = xs_session p.1 ∧ xs_project p'.1 = xs_project p.1) →
  (∀ q, rooted (parents_of m) q → rooted (parents_of m') q) → entry_fits m' id s lease.
Proof.
  intros [H1 H2 H3 H4 H5] Hm Hr. constructor; [done..| |by apply Hr]. intros q Hq. destruct (H4 q Hq) as (p & Hp & Hs & Hj).
  rewrite lookup_fmap in Hp. destruct (m !! q) as [x|] eqn:E; [|done]. injection Hp as <-.
  destruct (Hm q x E) as (y & Hy & E1 & E2). exists y.1. rewrite lookup_fmap, Hy. split; [done|]. by rewrite E1, E2.
Qed.

Lemma created_parts_wf e r : parts_wf (parts r) (sr_last_revision r) → admissible e r → sr_scopes r !! sle_scope_id e = None →
  parts_wf (parts (applied e r)) (sr_last_revision (applied e r)).
Proof.
  intros [Hr He] [Hl _ Hc] Hs. rewrite Hs in Hc. destruct Hc as (Hk & _ & Hp). rewrite (parts_created _ _ Hs).
  assert (parts r !! sle_scope_id e = None) as Hm by (by rewrite parts_lookup, Hs).
  assert (∀ q, q = sle_scope_id e ∨ rooted (parents_of (parts r)) q →
    rooted (parents_of (<[sle_scope_id e := (scope_of_event e, sle_lease e)]> (parts r))) q) as Hroot.
  { unfold parents_of at 2. rewrite fmap_insert. apply rooted_insert; [by rewrite lookup_fmap, Hm|]. intros q Hq.
    destruct (Hp q Hq) as (p & Hq' & _). eapply (ef_rooted _ _ p), He. rewrite parts_lookup, Hq'. reflexivity. }
  constructor; [split; [intros E; by apply insert_non_empty in E|done]|]. intros id s lease.
  destruct (decide (sle_scope_id e = id)) as [<-|Hne].
  - rewrite lookup_insert_eq. intros [= <- <-]. constructor; [done|done|by intros ? [= <-]| |apply Hroot; by left].
    intros q Hq. destruct (Hp q Hq) as (p & Hq' & Hs' & Hj). exists p. split; [|done]. rewrite fmap_insert, lookup_insert_ne, parts_scopes; [done|].
    congruence.
  - rewrite lookup_insert_ne by done. intros Hid. apply (entry_fits_in (parts r)); [by apply He| |intros q Hq; apply Hroot; by right].
    intros q p Hq. exists p. rewrite lookup_insert_ne; [done|congruence].
Qed.

Lemma moved_parts_wf e r s lease : parts_wf (parts r) (sr_last_revision r) → admissible e r →
  sr_scopes r !! sle_scope_id e = Some s → sr_leases r !! sle_scope_id e = Some lease →
  parts_wf (parts (applied e r)) (sr_last_revision (applied e r)).
Proof.
  intros [Hr He] [Hl _ Hc] Hs Hle. rewrite Hs in Hc. destruct Hc as (Hv & _ & _ & _). rewrite (parts_moved _ _ _ _ Hs Hle).
  assert (parts r !! sle_scope_id e = Some (s, lease)) as Hm by (by rewrite parts_lookup, Hs, Hle).
  set (next := enter_state (state_from_kind (sle_kind e)) s).
  assert (parents_of (<[sle_scope_id e := (next, lease)]> (parts r)) = parents_of (parts r)) as Ep.
  { unfold parents_of. rewrite fmap_insert. apply insert_id. by rewrite lookup_fmap, Hm. }
  assert (∀ q p, parts r !! q = Some p → ∃ p', <[sle_scope_id e := (next, lease)]> (parts r) !! q = Some p' ∧
    xs_session p'.1 = xs_session p.1 ∧ xs_project p'.1 = xs_project p.1) as Hsame.
  { intros q p Hq. destruct (decide (sle_scope_id e = q)) as [<-|Hne]; [|exists p; by rewrite lookup_insert_ne].
    exists (next, lease). rewrite lookup_insert_eq. assert (p = (s, lease)) as -> by congruence. done. }
  constructor; [split; [intros E; by apply insert_non_empty in E|done]|]. intros id s' lease'.
  destruct (decide (sle_scope_id e = id)) as [<-|Hne].
  - rewrite lookup_insert_eq. intros [= <- <-]. pose proof (He _ _ _ Hm) as Hf.
    apply (entry_fits_in (parts r)); [|exact Hsame|by rewrite Ep]. destruct Hf as [F1 F2 F3 F4 F5].
    constructor; [done|done|by apply flag_moved|done|done].
  - rewrite lookup_insert_ne by done. intros Hid. apply (entry_fits_in (parts r)); [by apply He|exact Hsame|by rewrite Ep].
Qed.

Lemma elem_of_unreleased r id : (∀ k s, sr_scopes r !! k = Some s → xs_id s = k) →
  id ∈ unreleased r ↔ ∃ s, sr_scopes r !! id = Some s ∧ xs_state s ≠ Released.
Proof.
  intros Hid. unfold unreleased. rewrite elem_of_list_to_set, list_elem_of_fmap. split.
  - intros (s & -> & [Hn Hs]%list_elem_of_filter). apply list_elem_of_fmap in Hs as ([k s'] & -> & Hs). apply elem_of_btree_list in Hs.
    cbn in *. rewrite (Hid _ _ Hs). eauto.
  - intros (s & Hs & Hn). exists s. split; [symmetry; by apply Hid|]. apply list_elem_of_filter. split; [done|].
    apply list_elem_of_fmap. exists (id, s). split; [done|]. by apply elem_of_btree_list.
Qed.

Lemma wf_ids r revision : parts_wf (parts r) revision → ∀ id s, sr_scopes r !! id = Some s → xs_id s = id.
Proof. intros [_ He] id s Hs. eapply (ef_id _ _ _), He. rewrite parts_lookup, Hs. reflexivity. Qed.

Lemma applied_parts_wf e r : registry_wf r → admissible e r → parts_wf (parts (applied e r)) (sr_last_revision (applied e r)).
Proof.
  intros [Hw Hl _ _ _ _] Ha. destruct (sr_scopes r !! sle_scope_id e) as [s|] eqn:Es; [|by apply created_parts_wf].
  assert (sle_scope_id e ∈ dom (sr_leases r)) as [lease Hle]%elem_of_dom by (rewrite Hl; by eapply elem_of_dom_2).
  by eapply moved_parts_wf.
Qed.

Lemma applied_registry_bytes e r : registry_wf r → admissible e r → sr_snapshot_bytes (applied e r) = block_bytes (parts (applied e r)).
Proof.
  intros [Hw Hl Hb _ _ _] Ha. destruct (sr_scopes r !! sle_scope_id e) as [s|] eqn:Es.
  - assert (sle_scope_id e ∈ dom (sr_leases r)) as [lease Hle]%elem_of_dom by (rewrite Hl; by eapply elem_of_dom_2).
    rewrite (parts_moved _ _ _ _ Es Hle), (block_bytes_update _ _ s lease), <- Hb by (done || by rewrite parts_lookup, Es, Hle).
    unfold applied. cbn [sr_snapshot_bytes]. by rewrite Es.
  - rewrite (parts_created _ _ Es), block_bytes_insert, <- Hb by (by rewrite parts_lookup, Es).
    unfold applied. cbn [sr_snapshot_bytes]. by rewrite Es.
Qed.

Lemma applied_recovery e r : registry_wf r → admissible e r → sr_recovery_required (applied e r) ⊆ unreleased (applied e r).
Proof.
  intros Hw Ha id Hid. pose proof (applied_parts_wf _ _ Hw Ha) as Hp. apply elem_of_unreleased; [by eapply wf_ids|].
  assert (id ∈ sr_recovery_required r ∧ (id = sle_scope_id e → state_from_kind (sle_kind e) ≠ Released)) as [Hin Hne].
  { unfold applied in Hid. cbn [sr_recovery_required] in Hid. case_bool_decide; set_solver. }
  apply (rw_recovery _ Hw), elem_of_unreleased in Hin as (s & Hs & Hn); [|eapply wf_ids, Hw].
  unfold applied. cbn [sr_scopes]. destruct (decide (sle_scope_id e = id)) as [<-|Hx].
  - rewrite lookup_insert_eq, Hs. eexists. split; [done|]. cbn. by apply Hne.
  - rewrite lookup_insert_ne by done. eauto.
Qed.

Lemma states_of_snoc id es e : states_of id (es ++ [e]) =
  states_of id es ++ (if decide (sle_scope_id e = id) then [state_from_kind (sle_kind e)] else []).
Proof. unfold states_of. rewrite filter_app, fmap_app. f_equal. rewrite filter_cons, filter_nil. by case_decide. Qed.

Lemma applied_history e r id : registry_wf r → admissible e r →
  match sr_scopes (applied e r) !! id with
  | Some s => lifecycle (states_of id (sr_committed (applied e r))) (xs_state s)
  | None => states_of id (sr_committed (applied e r)) = []
  end.
Proof.
  intros Hw [_ _ Hc]. pose proof (rw_history _ Hw id) as Hh. unfold applied. cbn [sr_scopes sr_committed]. rewrite states_of_snoc.
  destruct (decide (sle_scope_id e = id)) as [<-|Hne].
  - rewrite lookup_insert_eq. destruct (sr_scopes r !! sle_scope_id e) as [s|].
    + destruct Hc as (Hv & _). by eapply lifecycle_next.
    + destruct Hc as (-> & _). rewrite Hh. apply lifecycle_created.
  - rewrite lookup_insert_ne, app_nil_r by done. done.
Qed.

(** The lease of a scope stays what it is. *)
Lemma applied_leases e r id lease : dom (sr_leases r) = dom (sr_scopes r) →
  sr_leases r !! id = Some lease → sr_leases (applied e r) !! id = Some lease.
Proof.
  intros Hd Hl. unfold applied. cbn [sr_leases]. destruct (sr_scopes r !! sle_scope_id e) as [s|] eqn:Es; [done|].
  rewrite lookup_insert_ne; [done|]. intros <-. assert (sle_scope_id e ∈ dom (sr_scopes r)) as [s Hs]%elem_of_dom.
  { rewrite <- Hd. by eapply elem_of_dom_2. }
  congruence.
Qed.
Lemma applied_bound e r : registry_wf r → admissible e r →
  ∀ e', e' ∈ sr_committed (applied e r) → sr_leases (applied e r) !! sle_scope_id e' = Some (sle_lease e').
Proof.
  intros Hw [_ _ Hc] e' [He'|He'%list_elem_of_singleton]%elem_of_app; [by apply applied_leases, (rw_bound _ Hw); [apply Hw|]|subst e'].
  destruct (sr_scopes r !! sle_scope_id e) as [s|] eqn:Es.
  - destruct Hc as (_ & _ & _ & Hl). assert (sle_scope_id e ∈ dom (sr_leases r)) as [lease Hle]%elem_of_dom.
    { rewrite (rw_leases _ Hw). by eapply elem_of_dom_2. }
    rewrite <- (Hl _ Hle). by apply applied_leases; [apply Hw|].
  - unfold applied. cbn [sr_leases]. by rewrite Es, lookup_insert_eq.
Qed.

Lemma applied_wf e r : registry_wf r → admissible e r → registry_wf (applied e r).
Proof.
  intros Hw Ha. constructor; [by apply applied_parts_wf| |by apply applied_registry_bytes|by apply applied_recovery|intros id; by apply applied_history|by apply applied_bound].
  unfold applied. cbn [sr_leases sr_scopes]. rewrite dom_insert_L, <- (rw_leases _ Hw).
  destruct (sr_scopes r !! sle_scope_id e) as [s|] eqn:Es; [|by rewrite dom_insert_L].
  assert (sle_scope_id e ∈ dom (sr_leases r)) by (rewrite (rw_leases _ Hw); by eapply elem_of_dom_2). set_solver.
Qed.

Lemma default_registry_wf : registry_wf ScopeRegistry_default.
Proof.
  constructor; [|done|done|set_solver|intros id; cbn; by rewrite lookup_empty|by intros e He%elem_of_nil].
  constructor; [done|]. intros id s lease. rewrite parts_lookup. cbn. by rewrite lookup_empty.
Qed.

Lemma apply_committed_wf e r r' : registry_wf r → apply_committed e r = Ok r' → registry_wf r'.
Proof.
  intros Hw H. destruct (decide (e ∈ sr_committed r)) as [Hin|Hin].
  - unfold apply_committed in H. rewrite bool_decide_true in H by done. by injection H as <-.
  - rewrite apply_committed_eq in H by done. apply rbind_ok_inv in H as ([] & Hv & [= <-]). apply applied_wf; [done|by apply validate_committed_ok].
Qed.

Lemma apply_all_wf es r : registry_wf r → registry_wf (apply_all es r).2.
Proof.
  revert r. induction es as [|e es IH]; intros r Hw; cbn [apply_all]; [done|].
  destruct (apply_committed e r) as [r'|] eqn:E; [|done]. apply IH. by eapply apply_committed_wf.
Qed.

Lemma marked_wf r : registry_wf r → registry_wf (mark_recovery_required r).
Proof. intros [H1 H2 H3 H4 H5 H6]. by constructor. Qed.

Lemma apply_all_leases es r id lease : registry_wf r → sr_leases r !! id = Some lease → sr_leases (apply_all es r).2 !! id = Some lease.
Proof.
  revert r. induction es as [|e es IH]; intros r Hw Hl; cbn [apply_all]; [done|].
  destruct (apply_committed e r) as [r'|] eqn:E; [|done]. apply IH; [by eapply apply_committed_wf|].
  destruct (decide (e ∈ sr_committed r)) as [Hin|Hin].
  - unfold apply_committed in E. rewrite bool_decide_true in E by done. by injection E as <-.
  - rewrite apply_committed_eq in E by done. apply rbind_ok_inv in E as (_ & _ & [= <-]). by apply applied_leases; [apply Hw|].
Qed.

(** *** Records that were committed before

    Every transition takes a scope further. *)
Definition progress (s : ScopeState) : nat :=
  match s with
  | Created => 0
  | AdmittedState => 1
  | Started => 2
  | Released => 4
  | _ => 3
  end.
Lemma transition_progress s s' : valid_transition s s' = true → progress s < progress s'.
Proof. destruct s, s'; cbn; (done || lia). Qed.
Lemma lifecycle_progress l s : lifecycle l s → ∀ x, x ∈ l → progress x ≤ progress s.
Proof.
  induction 1 as [|l s s' _ IH Hv]; intros x.
  - by intros ->%list_elem_of_singleton.
  - apply transition_progress in Hv. intros [Hx| ->%list_elem_of_singleton]%elem_of_app; [|done]. apply IH in Hx. lia.
Qed.
(** A record that was applied is not admissible again. *)
Lemma committed_inadmissible e r : registry_wf r → e ∈ sr_committed r → ¬ admissible e r.
Proof.
  intros Hw He [_ _ Hc]. pose proof (rw_history _ Hw (sle_scope_id e)) as Hh.
  assert (state_from_kind (sle_kind e) ∈ states_of (sle_scope_id e) (sr_committed r)) as Hin.
  { apply list_elem_of_fmap. exists e. split; [done|]. by apply list_elem_of_filter. }
  destruct (sr_scopes r !! sle_scope_id e) as [s|]; [|rewrite Hh in Hin; by apply elem_of_nil in Hin].
  destruct Hc as (Hv%transition_progress & _). apply (lifecycle_progress _ _ Hh) in Hin. lia.
Qed.

(** ** Rebuilding a registry *)

Definition parent_step (parents : gmap string (option string)) (q p : string) : Prop := parents !! q = Some (Some p).

Lemma rooted_no_cycle parents q : rooted parents q → ¬ tc (parent_step parents) q q.
Proof.
  induction 1 as [q Hq|q p Hq _ IH]; intros Hc; inversion Hc as [x y Hs|x y z Hs Hr]; subst; unfold parent_step in Hs; simplify_eq.
  - apply IH. by apply tc_once.
  - apply IH. by eapply tc_r; [exact Hr|].
Qed.

Lemma rooted_parent parents q p : rooted parents q → parent_step parents q p → rooted parents p.
Proof. intros H Hs. destruct H; unfold parent_step in *; congruence. Qed.

(** What a walk finds: the chain ends, or it comes back to a scope of its path. *)
Definition walk_found (m : CompactedScopes) (path : gset string) (current : option string) (w : option (result ScopeError (gset string))) : Prop :=
  match w with
  | Some (Ok path') =>
      (∀ id, current = Some id → rooted (parents_of m) id) ∧ (∀ q, q ∈ path' → q ∈ path ∨ rooted (parents_of m) q)
  | Some (Err error) => error = InvalidCommittedEvent ∧ ∃ id, id ∈ dom m ∧ ¬ rooted (parents_of m) id
  | None => False
  end.

Lemma walk_chain_found fuel m known path current :
  (∀ id s lease p, m !! id = Some (s, lease) → xs_parent s = Some p → p ∈ dom m) →
  (∀ q, q ∈ known → rooted (parents_of m) q) → path ⊆ dom m → (∀ id, current = Some id → id ∈ dom m) →
  (∀ q id, q ∈ path → current = Some id → tc (parent_step (parents_of m)) q id) → size (dom m) < fuel + size path →
  walk_found m path current (walk_chain fuel m known path current).
Proof.
  intros Hpar Hknown. revert path current. induction fuel as [|fuel IH]; intros path current Hsub Hcur Hreach Hfuel;
    (destruct current as [id|]; cbn [walk_chain]; [|split; [done|by left]]);
    (destruct (bool_decide_reflect (id ∈ known)) as [Hk|Hk]; [split; [intros ? [= <-]; auto|by left]|]);
    (destruct (bool_decide_reflect (id ∈ path)) as [Hi|Hi];
      [split; [done|]; exists id; split; [by apply Hcur|]; intros Hr; eapply rooted_no_cycle; [exact Hr|by apply Hreach]|]).
  { pose proof (subseteq_size path (dom m) Hsub). lia. }
  pose proof (Hcur id eq_refl) as Hid. apply elem_of_dom in Hid as [[s lease] Hs]. rewrite Hs. cbn [mbind option_bind fst].
  specialize (IH ({[id]} ∪ path) (xs_parent s)).
  assert (∀ p, xs_parent s = Some p → parent_step (parents_of m) id p) as Hstep.
  { intros p Hp. unfold parent_step, parents_of. rewrite lookup_fmap, Hs. cbn. by rewrite Hp. }
  assert (walk_found m ({[id]} ∪ path) (xs_parent s) (walk_chain fuel m known ({[id]} ∪ path) (xs_parent s))) as Hw.
  { apply IH; [|by eauto| |].
    - apply union_subseteq. split; [|done]. intros q ->%elem_of_singleton. by eapply elem_of_dom_2.
    - intros q p [->%elem_of_singleton|Hq]%elem_of_union Hp; [by apply tc_once, Hstep|]. eapply tc_r; [by apply Hreach|by apply Hstep].
    - rewrite size_union, size_singleton by set_solver. lia. }
  assert ((∀ p, xs_parent s = Some p → rooted (parents_of m) p) → rooted (parents_of m) id) as Hroot.
  { intros H. destruct (xs_parent s) as [p|] eqn:Ep; [eapply rooted_child; [by apply Hstep|by apply H]|].
    apply rooted_root. unfold parents_of. rewrite lookup_fmap, Hs. cbn. by rewrite Ep. }
  destruct (walk_chain fuel m known _ (xs_parent s)) as [[path'|error]|]; cbn [walk_found] in *; [|done|done].
  destruct Hw as [H1 H2]. split; [intros ? [= <-]; by apply Hroot|]. intros q [[->%elem_of_singleton|?]%elem_of_union|?]%H2; auto.
Qed.

Lemma check_chains_ok fuel m starts known :
  (∀ id s lease p, m !! id = Some (s, lease) → xs_parent s = Some p → p ∈ dom m) →
  (∀ q, q ∈ known → rooted (parents_of m) q) → (∀ id, id ∈ starts → id ∈ dom m) → size (dom m) < fuel →
  match check_chains fuel m starts known with
  | Some (Ok _) => ∀ id, id ∈ starts → rooted (parents_of m) id
  | Some (Err _) => ∃ id, id ∈ dom m ∧ ¬ rooted (parents_of m) id
  | None => False
  end.
Proof.
  intros Hpar. revert known. induction starts as [|start starts IH]; intros known Hknown Hin Hfuel; cbn [check_chains].
  { intros id H. by apply elem_of_nil in H. }
  pose proof (walk_chain_found fuel m known ∅ (Some start) Hpar Hknown) as Hw.
  destruct (walk_chain fuel m known ∅ (Some start)) as [[path|error]|]; cbn [walk_found] in Hw.
  - destruct Hw as [H1 H2]; [set_solver|intros ? [= <-]; apply Hin; by left|set_solver|lia|].
    specialize (IH (known ∪ path) ltac:(set_solver) (λ id Hid, Hin id (list_elem_of_further _ _ _ Hid)) Hfuel).
    destruct (check_chains fuel m starts (known ∪ path)) as [[[]|]|]; [|done|done].
    intros id [->|Hid]%elem_of_cons; [by apply H1|by apply IH].
  - destruct Hw as [_ H]; [set_solver|intros ? [= <-]; apply Hin; by left|set_solver|lia|done].
  - apply Hw; [set_solver|intros ? [= <-]; apply Hin; by left|set_solver|lia].
Qed.

(** One scope, its own edge included; the chain of its parents apart. *)
Record entry_checks (m : CompactedScopes) (id : string) (s : ExecutionScope) (lease : ScopeLeaseBinding) : Prop := {
  ck_id : xs_id s = id;
  ck_lease : lease_fits lease;
  ck_flag : flag_fits s;
  ck_self : xs_parent s ≠ Some id;
  ck_parent : parent_fits (xs_parent s) (xs_session s) (xs_project s) (fst <$> m)
}.

Lemma flag_checked s :
  match expected_flag (xs_state s) with
  | Some expected => negb (Bool.eqb expected (xs_cancellation_requested s))
  | None => false
  end = false ↔ flag_fits s.
Proof.
  unfold flag_fits. destruct (expected_flag (xs_state s)) as [x|]; [|by split]. rewrite negb_false_iff, eqb_true_iff. naive_solver.
Qed.

Lemma check_compacted_ok m id s lease : check_compacted m id s lease = Ok tt ↔ entry_checks m id s lease.
Proof.
  unfold check_compacted. destruct (bool_decide_reflect (xs_id s = id)) as [Hid|Hid]; cbn [negb]; [|by split; [|intros []]].
  destruct (validate_lease_shape lease) as [[]|] eqn:El; cbn [rbind];
    [|by split; [|intros [_ H%lease_shape_ok _ _]; congruence]]. apply lease_shape_ok in El.
  match goal with |- context [if ?b then _ else _] => destruct b eqn:Ef end; [split; [done|intros [_ _ H%flag_checked _]; congruence]|]. apply flag_checked in Ef.
  destruct (xs_parent s) as [p|] eqn:Ep; [|by split; [intros _; constructor; rewrite ?Ep|]].
  destruct (m !! p) as [[s' l']|] eqn:Em; cbn [ok_or rbind fst].
  - split.
    + intros H. destruct (bool_decide_reflect (p = id)) as [|Hne]; [done|]. destruct (_ || _) eqn:B; [done|]. bool_prop.
      constructor; [done|done|done|congruence|]. rewrite Ep. intros q [= <-]. exists s'. by rewrite lookup_fmap, Em.
    + intros [_ _ _ Hself Hpar]. rewrite bool_decide_false by congruence. rewrite Ep in Hpar.
      destruct (Hpar p eq_refl) as (x & Hx & H1 & H2). rewrite lookup_fmap, Em in Hx. injection Hx as <-. cbn [fst].
      by rewrite H1, H2, !bool_decide_true.
  - split; [done|]. intros [_ _ _ _ Hpar]. rewrite Ep in Hpar. destruct (Hpar p eq_refl) as (x & Hx & _). by rewrite lookup_fmap, Em in Hx.
Qed.

Lemma check_each_ok m l : check_each m l = Ok tt ↔ Forall (λ entry, entry_checks m entry.1 entry.2.1 entry.2.2) l.
Proof.
  induction l as [|[id [s lease]] l IH]; cbn [check_each]; [by split; [constructor|]|].
  rewrite Forall_cons, <- IH, <- check_compacted_ok. cbn [fst snd]. destruct (check_compacted m id s lease) as [[]|]; cbn [rbind]; naive_solver.
Qed.

Lemma parts_wf_checked m revision : parts_wf m revision ↔
  (m = ∅ ↔ revision = None) ∧ check_each m (btree_list m) = Ok tt ∧ ∀ id, id ∈ dom m → rooted (parents_of m) id.
Proof.
  rewrite check_each_ok, Forall_forall. split.
  - intros [Hr He]. split_and!; [done| |].
    + intros [id [s lease]] Hin. apply elem_of_btree_list in Hin. cbn. destruct (He _ _ _ Hin) as [H1 H2 H3 H4 H5].
      constructor; [done..| |done]. intros Hp. eapply rooted_no_cycle; [exact H5|]. apply tc_once. unfold parent_step, parents_of.
      rewrite lookup_fmap, Hin. cbn. by rewrite Hp.
    + intros id [[s lease] Hs]%elem_of_dom. by apply (ef_rooted _ _ _ _ (He _ _ _ Hs)).
  - intros (Hr & He & Hroot). constructor; [done|]. intros id s lease Hs.
    assert ((id, (s, lease)) ∈ btree_list m) as Hin by (by apply elem_of_btree_list). apply He in Hin as [H1 H2 H3 H4 H5]. cbn in *.
    constructor; [done..|]. apply Hroot. by eapply elem_of_dom_2.
Qed.

Lemma fold_compacted (l : list (string * (ExecutionScope * ScopeLeaseBinding))) scopes leases revision bytes : NoDup l.*1 →
  foldl add_compacted (mkRegistry scopes [] [] ∅ leases revision bytes) l =
  mkRegistry ((fst <$> list_to_map l) ∪ scopes) [] [] ∅ ((snd <$> list_to_map l) ∪ leases) revision
    (match l with [] => bytes | _ => N.max bytes SCOPE_BLOCK_OVERHEAD + entries_bytes l end)%N.
Proof.
  revert scopes leases bytes. induction l as [|[id [s lease]] l IH]; intros scopes leases bytes Hd.
  { cbn [foldl list_to_map foldr]. by rewrite !fmap_empty, !map_empty_union. }
  cbn [fmap list_fmap fst] in Hd. apply NoDup_cons in Hd as [Hn Hd]. cbn [foldl]. unfold add_compacted at 2, account, with_leases, with_scopes.
  cbn [sr_scopes sr_leases sr_events sr_committed sr_recovery_required sr_last_revision sr_snapshot_bytes]. rewrite IH by done.
  apply not_elem_of_list_to_map in Hn.
  cbn [list_to_map foldr]. change (foldr (λ p : string * (ExecutionScope * ScopeLeaseBinding), <[p.1:=p.2]>) ∅ l) with
    (list_to_map l : gmap string (ExecutionScope * ScopeLeaseBinding)). cbn [fst snd]. rewrite !fmap_insert.
  f_equal.
  - rewrite <- insert_union_l. symmetry. rewrite insert_union_r by (by rewrite lookup_fmap, Hn). done.
  - rewrite <- insert_union_l. symmetry. rewrite insert_union_r by (by rewrite lookup_fmap, Hn). done.
  - unfold entries_bytes. cbn [foldr fst snd]. destruct l; cbn [foldr]; lia.
Qed.

(** The registry that carries exactly these parts. *)
Definition restored (m : CompactedScopes) (revision : option Revision) : ScopeRegistry :=
  mark_recovery_required (mkRegistry (fst <$> m) [] [] ∅ (snd <$> m) revision (block_bytes m)).

Lemma fold_restored m revision :
  mark_recovery_required (foldl add_compacted (mkRegistry ∅ [] [] ∅ ∅ revision 0) (btree_list m)) = restored m revision.
Proof.
  unfold restored. f_equal. rewrite fold_compacted by apply btree_list_nodup. rewrite btree_list_to_map, !map_union_empty. f_equal.
  unfold block_bytes. case_decide as E; [by subst|]. rewrite N.max_r by lia.
  destruct (btree_list m) eqn:El; [|done]. exfalso. apply E. rewrite <- (btree_list_to_map m), El. done.
Qed.

Lemma same_decision P Q `{Decision P, Decision Q} : Bool.eqb (bool_decide P) (bool_decide Q) = true ↔ (P ↔ Q).
Proof. destruct (bool_decide_reflect P), (bool_decide_reflect Q); cbn; naive_solver. Qed.

(** The registry of a snapshot is rebuilt exactly when its parts are well formed.
    [from_compacted_parts] always answers; it accepts the parts if and only if a
    revision is there exactly when a scope is, every scope has its own id as key, a
    lease of a valid shape, a cancellation flag that agrees with its state, a parent,
    if any, in the same session and project, and a chain of parents that ends at a
    root; and the registry then holds exactly these scopes and leases, with every
    unreleased scope marked for recovery. *)
Theorem compacted_parts_iff m revision :
  ∃ answer, from_compacted_parts m revision = Some answer ∧
    (is_ok answer = true ↔ parts_wf m revision) ∧ (∀ r, answer = Ok r → r = restored m revision).
Proof.
  pose proof (parts_wf_checked m revision) as Hiff. unfold from_compacted_parts.
  destruct (Bool.eqb _ _) eqn:E0; cbn [negb]; [|eexists; split_and!; [done| |done]; split; [done|]; intros [H _]%Hiff; by rewrite (proj2 (same_decision _ _) H) in E0].
  apply (proj1 (same_decision _ _)) in E0.
  destruct (check_each m (btree_list m)) as [[]|] eqn:Ee; [|by eexists; split_and!; [|split; [|intros (_ & ? & _)%Hiff]|]].
  pose proof (proj1 (check_each_ok _ _) Ee) as He. rewrite Forall_forall in He.
  assert (∀ id, id ∈ (btree_list m).*1 ↔ id ∈ dom m) as Hkeys.
  { intros id. rewrite list_elem_of_fmap, elem_of_dom. split; [intros ([k x] & -> & H%elem_of_btree_list); by eexists|].
    intros [x Hx]. exists (id, x). split; [done|]. by apply elem_of_btree_list. }
  assert (∀ id s lease p, m !! id = Some (s, lease) → xs_parent s = Some p → p ∈ dom m) as Hpar.
  { intros id s lease p Hs Hp. apply elem_of_btree_list in Hs. destruct (He _ Hs) as [_ _ _ _ H]. cbn in H. rewrite Hp in H.
    destruct (H p eq_refl) as (x & Hx & _). rewrite lookup_fmap in Hx. apply elem_of_dom. by destruct (m !! p). }
  assert (match check_chains (S (size m)) m (btree_list m).*1 ∅ with
          | Some (Ok _) => ∀ id, id ∈ (btree_list m).*1 → rooted (parents_of m) id
          | Some (Err _) => ∃ id, id ∈ dom m ∧ ¬ rooted (parents_of m) id
          | None => False end) as Hc.
  { apply check_chains_ok; [done|set_solver|intros id; by apply Hkeys|rewrite size_dom; lia]. }
  destruct (check_chains _ m _ ∅) as [[[]|error]|]; [| |done]; (eexists; split; [done|]).
  - split; [|intros r [= <-]; apply fold_restored]. split; [intros _; apply Hiff|done]. split_and!; [done|done|]. intros id Hid. by apply Hc, Hkeys.
  - split; [|done]. split; [done|]. intros (_ & _ & H)%Hiff. destruct Hc as (id & Hid & Hn). by destruct Hn; apply H.
Qed.

(** ** Going on after a compaction *)

(** The two hold the same scopes; the second has forgotten the records of [base]. *)
Record alike (base : list ScopeLifecycleEvent) (r r' : ScopeRegistry) : Prop := {
  al_scopes : sr_scopes r = sr_scopes r';
  al_leases : sr_leases r = sr_leases r';
  al_revision : sr_last_revision r = sr_last_revision r';
  al_bytes : sr_snapshot_bytes r = sr_snapshot_bytes r';
  al_committed : sr_committed r = base ++ sr_committed r'
}.

Lemma alike_validate base r r' e : alike base r r' → validate_committed e r = validate_committed e r'.
Proof.
  intros [H1 H2 H3 _ _]. unfold validate_committed, check_parent, stale_revision, other_lease. by rewrite H1, H2, H3.
Qed.

Lemma alike_apply base r r' e : alike base r r' → e ∉ base →
  match apply_committed e r, apply_committed e r' with
  | Ok a, Ok b => alike base a b
  | Err x, Err y => x = y
  | _, _ => False
  end.
Proof.
  intros Ha Hn. pose proof Ha as [H1 H2 H3 H4 H5]. destruct (decide (e ∈ sr_committed r')) as [Hin|Hin].
  - unfold apply_committed. rewrite !bool_decide_true; [done|done|]. rewrite H5. apply elem_of_app. by right.
  - rewrite !apply_committed_eq; [|done|rewrite H5, elem_of_app; tauto]. rewrite (alike_validate _ _ _ e Ha).
    destruct (validate_committed e r') as [[]|]; cbn [rbind]; [|done].
    unfold applied. by constructor; cbn; rewrite ?H1, ?H2, ?H4, ?H5, ?app_assoc.
Qed.

Lemma alike_apply_all base es r r' : alike base r r' → (∀ e, e ∈ es → e ∉ base) →
  (apply_all es r).1 = (apply_all es r').1 ∧ alike base (apply_all es r).2 (apply_all es r').2.
Proof.
  revert r r'. induction es as [|e es IH]; intros r r' Ha Hn; cbn [apply_all]; [done|].
  pose proof (alike_apply _ _ _ e Ha (Hn e (list_elem_of_here _ _))) as Hs.
  destruct (apply_committed e r) as [a|], (apply_committed e r') as [b|]; try done; [|by subst].
  apply IH; [done|]. intros e' He'. apply Hn. by right.
Qed.

Lemma unreleased_same r r' : sr_scopes r = sr_scopes r' → unreleased r = unreleased r'.
Proof. unfold unreleased. by intros ->. Qed.

Lemma restored_alike r : registry_wf r → alike (sr_committed r) r (restored (parts r) (sr_last_revision r)).
Proof.
  intros Hw. constructor; cbn [restored mark_recovery_required with_recovery sr_scopes sr_leases sr_last_revision sr_snapshot_bytes sr_committed];
    [by rewrite parts_scopes|by rewrite parts_leases by apply Hw|done|apply Hw|by rewrite app_nil_r].
Qed.

(** C14: every registry that a history was applied to is well formed.  Whatever records
    are applied, up to the first that is refused: the committed records take each
    scope through its lifecycle, from its creation along permitted transitions, and
    no further once it ended, but for the release; parents exist and end at a root;
    every committed record of a scope carries its lease, and no further records
    change it; the counted bytes are those of its scopes; and after a replay the
    scopes that must be recovered are exactly those that were not released. *)
Theorem scope_registry_wf es :
  let '(outcome, r) := scope_replay es ScopeRegistry_default in
  registry_wf r ∧
  (∀ more id lease, sr_leases r !! id = Some lease → sr_leases (apply_all more r).2 !! id = Some lease) ∧
  (outcome = Ok tt → ∀ id, recovery_required id r = true ↔ ∃ s, sr_scopes r !! id = Some s ∧ xs_state s ≠ Released).
Proof.
  pose proof (apply_all_wf es _ default_registry_wf) as Hw. unfold scope_replay. destruct (apply_all es ScopeRegistry_default) as [[[]|error] r]; cbn [snd] in Hw;
    [|by split_and!; [|intros; apply apply_all_leases|]].
  split_and!; [by apply marked_wf|by intros; apply apply_all_leases; [apply marked_wf|]|]. intros _ id. unfold recovery_required. rewrite bool_decide_eq_true.
  exact (elem_of_unreleased r id (wf_ids r _ (rw_parts _ Hw))).
Qed.

(** C11: compacting the history changes nothing for new records.  Take the registry
    that any history leads to, and the one rebuilt from its compacted parts.
    Rebuilding succeeds; and replaying further records, none of which the registry
    had applied before, gives on both the same outcome, the same scopes, leases,
    revision and size, and the same scopes to recover.  The two differ on the records
    below the compaction alone: one of those is accepted again without effect by the
    first registry, and refused by the rebuilt one. *)
Theorem scope_compaction_transparent es :
  let r := (apply_all es ScopeRegistry_default).2 in
  ∃ r', from_compacted_parts (compacted_parts r).1 (compacted_parts r).2 = Some (Ok r') ∧
    (∀ more, (∀ e, e ∈ more → e ∉ sr_committed r) →
      let '(o, a) := scope_replay more r in
      let '(o', b) := scope_replay more r' in
      o = o' ∧ sr_scopes a = sr_scopes b ∧ sr_leases a = sr_leases b ∧ sr_last_revision a = sr_last_revision b ∧
      sr_snapshot_bytes a = sr_snapshot_bytes b ∧ (o = Ok tt → sr_recovery_required a = sr_recovery_required b)) ∧
    (∀ e, e ∈ sr_committed r → apply_committed e r = Ok r ∧ is_ok (apply_committed e r') = false).
Proof.
  intros r. assert (registry_wf r) as Hw by apply apply_all_wf, default_registry_wf. clearbody r.
  destruct (compacted_parts_iff (parts r) (sr_last_revision r)) as (answer & Ha & Hok & Hr).
  pose proof (proj2 Hok (rw_parts _ Hw)) as Hk. destruct answer as [r'|]; [|discriminate Hk].
  exists r'. split; [exact Ha|]. rewrite (Hr r' eq_refl) in *. split.
  2:{ intros e He. split; [unfold apply_committed; by rewrite bool_decide_true|].
      rewrite apply_committed_eq by (cbn; by intros ?%elem_of_nil). rewrite <- (alike_validate _ _ _ e (restored_alike r Hw)).
      destruct (validate_committed e r) as [[]|] eqn:Ev; [|done]. apply validate_committed_ok in Ev. by apply committed_inadmissible in Ev. }
  intros more Hmore. unfold scope_replay.
  destruct (alike_apply_all _ more _ _ (restored_alike r Hw) Hmore) as [Ho [H1 H2 H3 H4 _]].
  destruct (apply_all more r) as [o a], (apply_all more _) as [o' b]. cbn [fst snd] in *. subst o'.
  destruct o as [[]|]; cbn; split_and!; try done. intros _. by apply unreleased_same.
Qed.

(** ** Cleaning up *)

Definition parent_map (r : ScopeRegistry) : gmap string (option string) := xs_parent <$> sr_scopes r.

(** The scopes form trees, each under its own id. *)
Record forest (r : ScopeRegistry) : Prop := {
  fo_ids : ∀ id s, sr_scopes r !! id = Some s → xs_id s = id;
  fo_rooted : ∀ id, id ∈ dom (sr_scopes r) → rooted (parent_map r) id
}.

(** What a cleanup reaches: the scope, and from a scope it reaches the children that
    have not ended. *)
Inductive swept (r : ScopeRegistry) (id : string) : string → Prop :=
| swept_self : swept r id id
| swept_child p q s : swept r id p → sr_scopes r !! q = Some s → xs_parent s = Some p → is_terminal (xs_state s) = false →
    swept r id q.

(** Cancelled if it had not ended, and released. *)
Definition sweep (s : ExecutionScope) : ExecutionScope :=
  if bool_decide (xs_state s = Released) then s
  else enter_state Released (if is_terminal (xs_state s) then s else enter_state Cancelled s).

Definition same_rest (r r' : ScopeRegistry) : Prop :=
  parent_map r' = parent_map r ∧ sr_leases r' = sr_leases r ∧ sr_committed r' = sr_committed r ∧
  sr_recovery_required r' = sr_recovery_required r ∧ sr_last_revision r' = sr_last_revision r ∧
  sr_snapshot_bytes r' = sr_snapshot_bytes r ∧ (∀ id s, sr_scopes r' !! id = Some s → xs_id s = id).

Lemma parent_map_dom r : dom (parent_map r) = dom (sr_scopes r).
Proof. apply dom_fmap_L. Qed.

Lemma child_step r q s p : sr_scopes r !! q = Some s → xs_parent s = Some p → parent_step (parent_map r) q p.
Proof. intros Hs Hp. unfold parent_step, parent_map. rewrite lookup_fmap, Hs. cbn. by rewrite Hp. Qed.

Lemma swept_below r id q : swept r id q → rtc (parent_step (parent_map r)) q id.
Proof. induction 1 as [|p q s _ IH Hs Hp _]; [done|]. eapply rtc_l; [by eapply child_step|done]. Qed.

Lemma swept_top r id q : swept r id q → q = id ∨ ∃ c s, sr_scopes r !! c = Some s ∧ xs_parent s = Some id ∧
  is_terminal (xs_state s) = false ∧ swept r c q.
Proof.
  induction 1 as [|p q s _ IH Hs Hp Hl]; [by left|]. right. destruct IH as [->|(c & x & H1 & H2 & H3 & H4)].
  - exists q, s. split_and!; [done..|constructor].
  - exists c, x. split_and!; [done..|by econstructor].
Qed.
Lemma swept_under r id c s q : sr_scopes r !! c = Some s → xs_parent s = Some id → is_terminal (xs_state s) = false →
  swept r c q → swept r id q.
Proof. intros H1 H2 H3. induction 1 as [|p q x _ IH Hs Hp Hl]; [econstructor; [constructor|done..]|by econstructor]. Qed.

Section Forest.
Context (r : ScopeRegistry) (Hr : forest r).

Lemma no_cycle q : q ∈ dom (sr_scopes r) → ¬ tc (parent_step (parent_map r)) q q.
Proof using Hr. intros Hq. by apply rooted_no_cycle, Hr. Qed.

Lemma step_dom q p : parent_step (parent_map r) q p → q ∈ dom (sr_scopes r) ∧ p ∈ dom (sr_scopes r).
Proof using Hr.
  unfold parent_step. intros H. assert (q ∈ dom (sr_scopes r)) as Hq by (rewrite <- parent_map_dom; by eapply elem_of_dom_2).
  split; [done|]. pose proof (rooted_parent _ _ _ (fo_rooted _ Hr q Hq) H) as Hp.
  assert (is_Some (parent_map r !! p)) as Hs by (destruct Hp; eauto). apply elem_of_dom in Hs. by rewrite parent_map_dom in Hs.
Qed.

(** From one scope the chain of parents is one line. *)
Lemma chain_line q a b : rtc (parent_step (parent_map r)) q a → rtc (parent_step (parent_map r)) q b →
  rtc (parent_step (parent_map r)) a b ∨ rtc (parent_step (parent_map r)) b a.
Proof.
  induction 1 as [q|q x a Hs Ha IH]; intros Hb; [by left|]. inversion Hb as [|? y ? Hs' Hb']; subst; [right; by eapply rtc_l|].
  unfold parent_step in *. apply IH. assert (y = x) as -> by congruence. done.
Qed.

Lemma siblings_apart id c c' q : parent_step (parent_map r) c id → parent_step (parent_map r) c' id → c ≠ c' →
  rtc (parent_step (parent_map r)) q c → rtc (parent_step (parent_map r)) q c' → False.
Proof using Hr.
  intros H1 H2 Hne Hq Hq'.
  assert (∀ x y, parent_step (parent_map r) x id → parent_step (parent_map r) y id → x ≠ y → ¬ rtc (parent_step (parent_map r)) x y) as Hx.
  { intros x y Hx Hy Hxy Hc. inversion Hc as [|? z ? Hs Hz]; subst; [done|]. unfold parent_step in *. assert (z = id) as -> by congruence.
    apply (no_cycle id); [by apply (step_dom y id)|]. by eapply tc_rtc_l; [exact Hz|apply tc_once]. }
  destruct (chain_line q c c' Hq Hq') as [H|H]; [by eapply (Hx c c')|by eapply (Hx c' c)].
Qed.

(** The sweep from a scope is decided by what lies strictly below it. *)
Lemma swept_agree r1 c q : c ∈ dom (sr_scopes r) → parent_map r1 = parent_map r →
  (∀ x, x ≠ c → rtc (parent_step (parent_map r)) x c → sr_scopes r1 !! x = sr_scopes r !! x) → swept r c q ↔ swept r1 c q.
Proof using Hr.
  intros Hc Hp Hx.
  assert (∀ p q s r', parent_map r' = parent_map r → rtc (parent_step (parent_map r)) p c → sr_scopes r' !! q = Some s →
    xs_parent s = Some p → q ≠ c ∧ rtc (parent_step (parent_map r)) q c) as Hbelow.
  { intros p x s r' Hm Hd Hs Hpar. pose proof (child_step r' x s p Hs Hpar) as Hstep. rewrite Hm in Hstep.
    split; [|by eapply rtc_l]. intros ->. apply (no_cycle c Hc). by eapply tc_rtc_r; [apply tc_once|]. }
  split; induction 1 as [|p x s Hsw IH Hs Hpar Hl]; try constructor.
  - destruct (Hbelow p x s r eq_refl (swept_below _ _ _ Hsw) Hs Hpar) as [Hne Hd]. econstructor; [exact IH|by rewrite Hx|done|done].
  - pose proof (swept_below _ _ _ Hsw) as Hd0. rewrite Hp in Hd0.
    destruct (Hbelow p x s r1 Hp Hd0 Hs Hpar) as [Hne Hd]. econstructor; [exact IH|by rewrite <- Hx|done|done].
Qed.
End Forest.

Definition moved (id : string) (next : ScopeState) (s : ExecutionScope) (r : ScopeRegistry) : ScopeRegistry :=
  record id (event_kind next) (with_scopes (<[id := enter_state next s]> (sr_scopes r)) r).

Lemma moved_rest id next s r : (∀ k x, sr_scopes r !! k = Some x → xs_id x = k) → sr_scopes r !! id = Some s →
  same_rest r (moved id next s r).
Proof.
  intros Hid Hs. split_and!; [|done..|].
  - unfold parent_map, moved. cbn [record with_scopes sr_scopes]. rewrite fmap_insert. apply insert_id. by rewrite lookup_fmap, Hs.
  - intros k x. cbn [moved record with_scopes sr_scopes]. destruct (decide (id = k)) as [<-|Hne];
      [rewrite lookup_insert_eq; intros [= <-]; cbn; by apply Hid|rewrite lookup_insert_ne by done; apply Hid].
Qed.
Lemma same_rest_trans r r1 r2 : same_rest r r1 → same_rest r1 r2 → same_rest r r2.
Proof. intros (A1 & A2 & A3 & A4 & A5 & A6 & _) (B1 & B2 & B3 & B4 & B5 & B6 & B7). split_and!; congruence || done. Qed.
Lemma same_rest_forest r r' : forest r → same_rest r r' → forest r'.
Proof.
  intros [_ H] (A1 & _ & _ & _ & _ & _ & A7). constructor; [done|]. intros id. rewrite <- parent_map_dom, A1, parent_map_dom. apply H.
Qed.

Lemma cancel_live r c s : sr_scopes r !! c = Some s → is_terminal (xs_state s) = false → scope_cancel c r = Ok (moved c Cancelled s r).
Proof.
  intros Hs Hl. unfold scope_cancel, scope_transition, scope_get. rewrite Hs. cbn [ok_or rbind].
  unfold moved. destruct (xs_state s); done.
Qed.
Lemma release_ended r c s : sr_scopes r !! c = Some s → is_terminal (xs_state s) = true → xs_state s ≠ Released →
  scope_transition c Released r = Ok (moved c Released s r).
Proof.
  intros Hs Hl Hn. unfold scope_transition, scope_get. rewrite Hs. cbn [ok_or rbind].
  unfold moved. destruct (xs_state s); done.
Qed.

(** What a cleanup of [id] makes of the registry. *)
Record swept_to (r : ScopeRegistry) (id : string) (r' : ScopeRegistry) : Prop := {
  sw_swept : ∀ q, swept r id q → sr_scopes r' !! q = sweep <$> sr_scopes r !! q;
  sw_kept : ∀ q, ¬ swept r id q → sr_scopes r' !! q = sr_scopes r !! q;
  sw_rest : same_rest r r'
}.

Lemma elem_of_live_children id r c : (∀ k x, sr_scopes r !! k = Some x → xs_id x = k) →
  c ∈ live_children id r ↔ ∃ s, sr_scopes r !! c = Some s ∧ xs_parent s = Some id ∧ is_terminal (xs_state s) = false.
Proof.
  intros Hid. unfold live_children. rewrite list_elem_of_fmap. split.
  - intros (s & -> & [[H1 H2] H]%list_elem_of_filter). apply list_elem_of_fmap in H as ([k x] & -> & H%elem_of_btree_list). cbn in *.
    rewrite (Hid _ _ H). eauto.
  - intros (s & Hs & Hp & Hl). exists s. split; [symmetry; by apply Hid|]. apply list_elem_of_filter. split; [done|].
    apply list_elem_of_fmap. exists (c, s). split; [done|]. by apply elem_of_btree_list.
Qed.

Lemma live_children_nodup id r : (∀ k x, sr_scopes r !! k = Some x → xs_id x = k) → NoDup (live_children id r).
Proof.
  intros Hid. unfold live_children.
  assert (NoDup (xs_id <$> (btree_list (sr_scopes r)).*2)) as Hd.
  { replace (xs_id <$> (btree_list (sr_scopes r)).*2) with (btree_list (sr_scopes r)).*1; [apply btree_list_nodup|].
    rewrite <- list_fmap_compose. apply list_fmap_ext. intros i [k x] Hi. cbn. symmetry. apply Hid, elem_of_btree_list. by eapply list_elem_of_lookup_2. }
  induction (btree_list (sr_scopes r)).*2 as [|s l IH]; [constructor|]. cbn [fmap list_fmap] in Hd. apply NoDup_cons in Hd as [Hn Hd].
  rewrite filter_cons. case_decide; [|by apply IH]. cbn [fmap list_fmap]. constructor; [|by apply IH].
  intros Hin. apply Hn. apply list_elem_of_fmap in Hin as (x & -> & [_ Hx]%list_elem_of_filter). apply list_elem_of_fmap. by exists x.
Qed.

(** A child of [id] in [r] that has not ended. *)
Definition live_child (r : ScopeRegistry) (id c : string) : Prop :=
  ∃ s, sr_scopes r !! c = Some s ∧ xs_parent s = Some id ∧ is_terminal (xs_state s) = false.

(** One child: cancelled and then cleaned up is the same as swept. *)
Lemma child_sweeps (go : string → registry_op) r id c rk : forest r → live_child r id c → same_rest r rk →
  (∀ q, rtc (parent_step (parent_map r)) q c → sr_scopes rk !! q = sr_scopes r !! q) →
  (∀ r1, forest r1 → parent_map r1 = parent_map r → ∃ r2, go c r1 = Some (Ok tt, r2) ∧ swept_to r1 c r2) →
  ∃ r', then_op (lift_op (scope_cancel c)) (go c) rk = Some (Ok tt, r') ∧ same_rest r r' ∧
    (∀ q, swept r c q → sr_scopes r' !! q = sweep <$> sr_scopes r !! q) ∧ (∀ q, ¬ swept r c q → sr_scopes r' !! q = sr_scopes rk !! q).
Proof.
  intros Hr (s & Hs & Hp & Hl) Hrest Hsame Hgo.
  assert (sr_scopes rk !! c = Some s) as Hk by (rewrite Hsame; done). pose proof Hrest as (Hpm & _ & _ & _ & _ & _ & Hids).
  pose proof (moved_rest c Cancelled s rk Hids Hk) as Hm. pose proof (same_rest_trans _ _ _ Hrest Hm) as Hm'.
  set (r1 := moved c Cancelled s rk) in *. destruct (Hgo r1) as (r2 & Hgo' & [S1 S2 S3]); [by eapply same_rest_forest|apply Hm'|].
  assert (∀ x, x ≠ c → sr_scopes r1 !! x = sr_scopes rk !! x) as Hx.
  { intros x Hne. unfold r1, moved. cbn [record with_scopes sr_scopes]. by rewrite lookup_insert_ne. }
  assert (∀ q, swept r c q ↔ swept r1 c q) as Hiff.
  { intros q. apply swept_agree; [done|by eapply elem_of_dom_2|apply Hm'|]. intros x Hne Hd. rewrite Hx by done. by apply Hsame. }
  exists r2. split; [unfold then_op at 1, lift_op at 1; by rewrite (cancel_live rk c s Hk Hl)|]. split; [by eapply same_rest_trans|]. split.
  - intros q Hq. rewrite S1 by (by apply Hiff). destruct (decide (q = c)) as [->|Hne].
    + unfold r1, moved. cbn [record with_scopes sr_scopes]. rewrite lookup_insert_eq, Hs. cbn. f_equal. unfold sweep.
      rewrite Hl. by destruct (xs_state s).
    + rewrite Hx, Hsame by (done || by apply swept_below). done.
  - intros q Hq. rewrite S2 by (by rewrite <- Hiff). apply Hx. intros ->. apply Hq. constructor.
Qed.

Lemma children_sweep (go : string → registry_op) r id cs rk : forest r → NoDup cs → (∀ c, c ∈ cs → live_child r id c) → same_rest r rk →
  (∀ c q, c ∈ cs → rtc (parent_step (parent_map r)) q c → sr_scopes rk !! q = sr_scopes r !! q) →
  (∀ c r1, c ∈ cs → forest r1 → parent_map r1 = parent_map r → ∃ r2, go c r1 = Some (Ok tt, r2) ∧ swept_to r1 c r2) →
  ∃ r', each_op (λ c, then_op (lift_op (scope_cancel c)) (go c)) cs rk = Some (Ok tt, r') ∧ same_rest r r' ∧
    (∀ c q, c ∈ cs → swept r c q → sr_scopes r' !! q = sweep <$> sr_scopes r !! q) ∧
    (∀ q, (∀ c, c ∈ cs → ¬ swept r c q) → sr_scopes r' !! q = sr_scopes rk !! q).
Proof.
  intros Hr. revert rk. induction cs as [|c cs IH]; intros rk Hd Hlive Hrest Hsame Hgo.
  { exists rk. split_and!; [done|done|intros c q H; by apply elem_of_nil in H|done]. }
  apply NoDup_cons in Hd as [Hn Hd].
  assert (∀ c' q, c' ∈ cs → rtc (parent_step (parent_map r)) q c → rtc (parent_step (parent_map r)) q c' → False) as Hapart.
  { intros c' q Hc' H1 H2. destruct (Hlive c (list_elem_of_here _ _)) as (s & Hs & Hp & _).
    destruct (Hlive c' (list_elem_of_further _ _ _ Hc')) as (s' & Hs' & Hp' & _).
    eapply (siblings_apart r Hr id c c' q); [by eapply child_step|by eapply child_step|by intros ->|done|done]. }
  destruct (child_sweeps go r id c rk Hr) as (r1 & H1 & R1 & S1 & K1); [apply Hlive; by left|done|intros q; apply Hsame; by left|
    intros r0 Hf Hm; apply Hgo; [by left|done|done]|].
  destruct (IH r1 Hd) as (r2 & H2 & R2 & S2 & K2); [intros c' Hc'; apply Hlive; by right|done| |intros c' r0 Hc'; apply Hgo; by right|].
  { intros c' q Hc' Hq. rewrite K1; [apply (Hsame c'); [by right|done]|]. intros Hsw. by eapply Hapart; [|apply swept_below|]. }
  exists r2. split; [cbn [each_op]; unfold then_op at 1; by rewrite H1|]. split; [done|]. split.
  - intros c' q [->|Hc']%elem_of_cons Hsw; [|by eapply S2]. rewrite K2; [by apply S1|].
    intros c' Hc' Hsw'. eapply Hapart; [exact Hc'|by apply swept_below|by apply swept_below].
  - intros q Hq. rewrite K2 by (intros c' Hc'; apply Hq; by right). apply K1. apply Hq. by left.
Qed.

(** The scope itself, once its children are done. *)
Definition release_self (id : string) : registry_op := λ r,
  match scope_get id r with
  | Err error => Some (Err error, r)
  | Ok scope =>
      if bool_decide (xs_state scope = Released) then Some (Ok tt, r)
      else
        then_op (if is_terminal (xs_state scope) then lift_op Ok else lift_op (scope_cancel id))
          (lift_op (scope_transition id Released)) r
  end.

Lemma self_sweeps id s r : (∀ k x, sr_scopes r !! k = Some x → xs_id x = k) → sr_scopes r !! id = Some s →
  ∃ r', release_self id r = Some (Ok tt, r') ∧ same_rest r r' ∧ sr_scopes r' = <[id := sweep s]> (sr_scopes r).
Proof.
  intros Hid Hs. unfold release_self, scope_get. rewrite Hs. cbn [ok_or]. unfold sweep.
  destruct (bool_decide_reflect (xs_state s = Released)) as [Hrel|Hrel].
  { exists r. split; [done|]. split; [by split_and!|]. by rewrite insert_id. }
  destruct (is_terminal (xs_state s)) eqn:Ht.
  - eexists. split; [unfold then_op, lift_op; by rewrite (release_ended r id s Hs Ht Hrel)|]. split; [by apply moved_rest|done].
  - pose proof (moved_rest id Cancelled s r Hid Hs) as Hm. pose proof Hm as (_ & _ & _ & _ & _ & _ & Hid').
    assert (sr_scopes (moved id Cancelled s r) !! id = Some (enter_state Cancelled s)) as Hs' by apply lookup_insert_eq.
    eexists. split; [unfold then_op, lift_op at 1; rewrite (cancel_live r id s Hs Ht); unfold lift_op;
      by rewrite (release_ended _ id _ Hs')|]. split; [eapply same_rest_trans; [exact Hm|by apply moved_rest]|].
    cbn [moved record with_scopes sr_scopes]. by rewrite insert_insert_eq.
Qed.

Lemma cleanup_sweeps fuel r id above : forest r → id ∈ dom (sr_scopes r) → above ⊆ dom (sr_scopes r) → id ∈ above →
  (∀ a, a ∈ above → rtc (parent_step (parent_map r)) id a) → size (dom (sr_scopes r)) < fuel + size above →
  ∃ r', scope_cleanup fuel id r = Some (Ok tt, r') ∧ swept_to r id r'.
Proof.
  revert r id above. induction fuel as [|fuel IH]; intros r id above Hr Hid Hsub Hin Habove Hfuel.
  { pose proof (subseteq_size _ _ Hsub). lia. }
  pose proof Hid as [s Hs]%elem_of_dom. pose proof (fo_ids _ Hr) as Hids.
  assert (∀ c, c ∈ live_children id r → live_child r id c) as Hlive by (intros c; by apply elem_of_live_children).
  destruct (children_sweep (scope_cleanup fuel) r id (live_children id r) r) as (r1 & H1 & R1 & S1 & K1);
    [done|by apply live_children_nodup|done|by split_and!|done| |].
  { intros c r1 Hc Hf1 Hm1. apply Hlive in Hc as (x & Hx & Hp & _). pose proof (child_step r c x id Hx Hp) as Hstep.
    assert (dom (sr_scopes r1) = dom (sr_scopes r)) as Hdom by (by rewrite <- !parent_map_dom, Hm1).
    assert (c ∉ above) as Hn.
    { intros Hc. apply (no_cycle r Hr c); [by eapply elem_of_dom_2|]. eapply tc_rtc_r; [by apply tc_once|by apply Habove]. }
    apply (IH r1 c ({[c]} ∪ above)); rewrite ?Hdom, ?Hm1; [done|by eapply elem_of_dom_2|apply union_subseteq; split; [|done]|set_solver| |].
    - intros q ->%elem_of_singleton. by eapply elem_of_dom_2.
    - intros a [->%elem_of_singleton|Ha]%elem_of_union; [done|]. eapply rtc_l; [exact Hstep|by apply Habove].
    - rewrite size_union, size_singleton by set_solver. lia. }
  assert (∀ c, c ∈ live_children id r → ¬ swept r c id) as Hself.
  { intros c (x & Hx & Hp & _)%Hlive Hsw. apply (no_cycle r Hr id Hid). eapply tc_rtc_l; [by apply swept_below|]. apply tc_once. by eapply child_step. }
  assert (sr_scopes r1 !! id = Some s) as Hs1 by (by rewrite K1). pose proof R1 as (_ & _ & _ & _ & _ & _ & Hids1).
  destruct (self_sweeps id s r1 Hids1 Hs1) as (r2 & H2 & R2 & E2). exists r2.
  split; [cbn [scope_cleanup]; unfold then_op at 1; by rewrite H1|]. constructor; [| |by eapply same_rest_trans].
  - intros q Hq. rewrite E2. destruct (decide (id = q)) as [<-|Hne]; [by rewrite lookup_insert_eq, Hs|]. rewrite lookup_insert_ne by done.
    apply swept_top in Hq as [->|(c & x & Hx & Hp & Hl & Hsw)]; [done|]. apply (S1 c); [|done]. apply elem_of_live_children; [done|eauto].
  - intros q Hq. rewrite E2, lookup_insert_ne by (intros <-; apply Hq; constructor). apply K1. intros c (x & Hx & Hp & Hl)%Hlive Hsw.
    apply Hq. by eapply swept_under.
Qed.

Lemma wf_forest r : registry_wf r → forest r.
Proof.
  intros Hw. pose proof (rw_parts _ Hw) as Hp. constructor; [by eapply wf_ids|]. intros id [s Hs]%elem_of_dom.
  replace (parent_map r) with (parents_of (parts r)).
  - eapply (ef_rooted _ _ s), Hp. rewrite parts_lookup, Hs. reflexivity.
  - unfold parent_map, parents_of. rewrite <- (parts_scopes r), <- map_fmap_compose. done.
Qed.

(** C18: cleaning up a scope terminates and releases exactly what it reaches.  In a
    registry whose scopes form trees (every registry a history leads to is one), with
    as much fuel as there are scopes and one more, the cleanup of a scope succeeds: the
    scope and, from every scope it reaches, the children that have not ended are
    released, those that were still running being marked as cancelled first; every
    other scope, all leases and what was committed stay as they were. *)
Theorem scope_cleanup_exact r id : forest r → id ∈ dom (sr_scopes r) →
  ∃ r', scope_cleanup (S (size (sr_scopes r))) id r = Some (Ok tt, r') ∧
    (∀ q s, sr_scopes r !! q = Some s → swept r id q → sr_scopes r' !! q = Some (sweep s) ∧ xs_state (sweep s) = Released) ∧
    (∀ q, ¬ swept r id q → sr_scopes r' !! q = sr_scopes r !! q) ∧
    sr_leases r' = sr_leases r ∧ sr_committed r' = sr_committed r ∧ sr_recovery_required r' = sr_recovery_required r.
Proof.
  intros Hr Hid. destruct (cleanup_sweeps (S (size (sr_scopes r))) r id {[id]} Hr Hid) as (r' & H & [S1 S2 (_ & L & C & R & _)]).
  - by intros q ->%elem_of_singleton.
  - by apply elem_of_singleton.
  - by intros a ->%elem_of_singleton.
  - rewrite size_singleton, size_dom. lia.
  - exists r'. split; [exact H|]. split; [|done]. intros q s Hs Hq. rewrite S1, Hs by done. split; [done|].
    unfold sweep. by case_bool_decide.
Qed.
