(* ===== verification/ScopeBlock.v ===== *)
(** * The scopes of a compacted snapshot: crates/ptr-runtime/src/compacted.rs, the scope block

    The bounded writer and the reader of a section as far as the block of scopes uses
    them, the block with its reader, and that it takes exactly the bytes that the
    registry counted and is read back. *)

From S2P Require Import Prelude Bytes Types LedgerCodecFacts.
From S2P Require Import Scopes ScopeFacts.
From Stdlib Require Import Lia.
From stdpp Require Import options.

Inductive CompactedError :=
| SizeLimit | UnsupportedVersion | LengthMismatch | AnchorMismatch | StateMismatch | JournalNotAboveFloor
| NoncanonicalSection | SectionLimit | UnknownTag | InvalidPodTarget.

Definition SCOPE_BLOCK_MAGIC : list byte := str_bytes "PTRSC001".
Definition MAX_SECTION_ITEMS : N := 65536.
Definition MAX_SECTION_BYTES : N := 8 * 1024 * 1024.

(** ** Writing *)

Definition section_writer := list byte → result CompactedError (list byte).

Definition section_raw (bytes : list byte) : section_writer := λ out,
  if (MAX_SECTION_BYTES - blen out <? blen bytes)%N then Err SectionLimit else Ok (out ++ bytes).
Definition section_count (value : N) : section_writer := λ out,
  if (MAX_SECTION_ITEMS <? value)%N then Err SectionLimit else section_raw (le_bytes 4 value) out.
Definition section_number (value : N) : section_writer := section_raw (le_bytes 8 value).
Definition section_field (value : string) : section_writer := λ out,
  if (2 ^ 32 <=? slen value)%N then Err SectionLimit
  else let? out := section_raw (le_bytes 4 (slen value)) out in section_raw (str_bytes value) out.

Definition put_optional {A} (put : A → section_writer) (value : option A) : section_writer := λ out,
  match value with
  | Some value => let? out := section_number 1 out in put value out
  | None => section_number 0 out
  end.

Definition scope_state_tag (state : ScopeState) : N :=
  match state with
  | Created => 0
  | AdmittedState => 1
  | Started => 2
  | Completed => 3
  | Failed => 4
  | Cancelled => 5
  | TimedOut => 6
  | Revoked => 7
  | Released => 8
  end.
Definition scope_state_from_tag (tag : N) : result CompactedError ScopeState :=
  match tag with
  | 0 => Ok Created
  | 1 => Ok AdmittedState
  | 2 => Ok Started
  | 3 => Ok Completed
  | 4 => Ok Failed
  | 5 => Ok Cancelled
  | 6 => Ok TimedOut
  | 7 => Ok Revoked
  | 8 => Ok Released
  | _ => Err UnknownTag
  end%N.

Definition put_scope (id : string) (scope : ExecutionScope) (lease : ScopeLeaseBinding) : section_writer := λ out,
  let? out := section_field id out in
  let? out := put_optional section_field (xs_parent scope) out in
  let? out := section_field (xs_session scope) out in
  let? out := section_field (xs_project scope) out in
  let? out := section_number (xs_created_at scope) out in
  let? out := put_optional section_number (xs_deadline scope) out in
  let? out := section_number (scope_state_tag (xs_state scope)) out in
  let? out := section_number (if xs_cancellation_requested scope then 1 else 0)%N out in
  let? out := put_optional section_field (slb_state_id lease) out in
  let? out := put_optional section_field (slb_pod_id lease) out in
  let? out := put_optional section_number (slb_placement_epoch lease) out in
  let? out := put_optional (λ token, section_raw (le_bytes 16 token)) (slb_fencing_token lease) out in
  let? out := put_optional section_number (slb_generation lease) out in
  put_optional section_field (slb_resource_lease_id lease) out.

Fixpoint put_scopes (entries : list (string * (ExecutionScope * ScopeLeaseBinding))) : section_writer := λ out,
  match entries with
  | [] => Ok out
  | (id, (scope, lease)) :: entries => let? out := put_scope id scope lease out in put_scopes entries out
  end.

Definition encode_scope_block (scopes : CompactedScopes) (revision : option Revision) : section_writer := λ out,
  let? out := section_raw SCOPE_BLOCK_MAGIC out in
  let? out := section_count (N.of_nat (size scopes)) out in
  let? out := put_scopes (btree_list scopes) out in
  put_optional section_number revision out.

(** ** Reading *)

Definition section_reader (A : Type) := reader CompactedError A.

Definition section_take (length : nat) : section_reader (list byte) := λ rest,
  if (List.length rest <? length)%nat then Err LengthMismatch else Ok (take length rest, drop length rest).
Definition read_count : section_reader N := λ rest,
  match section_take 4 rest with
  | Ok (bytes, rest) =>
      let value := le_value bytes in
      if (MAX_SECTION_ITEMS <? value)%N || (blen rest <? value)%N then Err SectionLimit else Ok (value, rest)
  | Err error => Err error
  end.
Definition read_number : section_reader N := bytes <- section_take 8 ;; rret (le_value bytes).
Definition read_field : section_reader string :=
  bytes <- section_take 4 ;;
  text <- section_take (N.to_nat (le_value bytes)) ;;
  if str_ok (bytes_str text) then rret (bytes_str text) else rfail NoncanonicalSection.
Definition read_token : section_reader N := bytes <- section_take 16 ;; rret (le_value bytes).

Definition take_optional {A} (r : section_reader A) : section_reader (option A) :=
  flag <- read_number ;;
  if (flag =? 0)%N then rret None
  else if (flag =? 1)%N then (value <- r ;; rret (Some value))
  else rfail NoncanonicalSection.

Definition read_flag : section_reader bool :=
  flag <- read_number ;;
  if (flag =? 0)%N then rret false else if (flag =? 1)%N then rret true else rfail NoncanonicalSection.

Definition read_lease : section_reader ScopeLeaseBinding :=
  state_id <- take_optional read_field ;;
  pod_id <- take_optional read_field ;;
  placement_epoch <- take_optional read_number ;;
  fencing_token <- take_optional read_token ;;
  generation <- take_optional read_number ;;
  resource_lease_id <- take_optional read_field ;;
  rret {| slb_state_id := state_id; slb_pod_id := pod_id; slb_placement_epoch := placement_epoch;
          slb_fencing_token := fencing_token; slb_generation := generation; slb_resource_lease_id := resource_lease_id |}.

(** One scope, its id having been read. *)
Definition read_scope (id : string) : section_reader (ExecutionScope * ScopeLeaseBinding) :=
  parent <- take_optional read_field ;;
  session <- read_field ;;
  project <- read_field ;;
  created_at <- read_number ;;
  deadline <- take_optional read_number ;;
  tag <- read_number ;;
  state <- rlift (scope_state_from_tag tag) ;;
  cancellation_requested <- read_flag ;;
  lease <- read_lease ;;
  rret (mkScope id parent session project created_at deadline state cancellation_requested, lease).

Fixpoint read_scopes (count : nat) (previous : option string) (scopes : CompactedScopes) : section_reader CompactedScopes :=
  match count with
  | O => rret scopes
  | S count =>
      id <- read_field ;;
      if match previous with Some last => String.leb id last | None => false end then rfail NoncanonicalSection
      else (entry <- read_scope id ;; read_scopes count (Some id) (<[id := entry]> scopes))
  end.

Definition decode_scope_block : section_reader (CompactedScopes * option Revision) :=
  magic <- section_take 8 ;;
  if negb (bool_decide (magic = SCOPE_BLOCK_MAGIC)) then rfail UnsupportedVersion
  else
    count <- read_count ;;
    if (count =? 0)%N then rfail NoncanonicalSection
    else
      scopes <- read_scopes (N.to_nat count) None ∅ ;;
      revision <- take_optional read_number ;;
      if bool_decide (revision = None) then rfail NoncanonicalSection else rret (scopes, revision).

(** ** What is written *)

Definition text_image (s : string) : list byte := le_bytes 4 (slen s) ++ str_bytes s.
Definition optional_image {A} (image : A → list byte) (o : option A) : list byte :=
  match o with Some a => le_bytes 8 1 ++ image a | None => le_bytes 8 0 end.
Definition lease_image (lease : ScopeLeaseBinding) : list byte :=
  optional_image text_image (slb_state_id lease) ++ optional_image text_image (slb_pod_id lease) ++
  optional_image (le_bytes 8) (slb_placement_epoch lease) ++ optional_image (le_bytes 16) (slb_fencing_token lease) ++
  optional_image (le_bytes 8) (slb_generation lease) ++ optional_image text_image (slb_resource_lease_id lease).
Definition scope_image (id : string) (s : ExecutionScope) (lease : ScopeLeaseBinding) : list byte :=
  text_image id ++ optional_image text_image (xs_parent s) ++ text_image (xs_session s) ++ text_image (xs_project s) ++
  le_bytes 8 (xs_created_at s) ++ optional_image (le_bytes 8) (xs_deadline s) ++ le_bytes 8 (scope_state_tag (xs_state s)) ++
  le_bytes 8 (if xs_cancellation_requested s then 1 else 0) ++ lease_image lease.
Definition scopes_image (l : list (string * (ExecutionScope * ScopeLeaseBinding))) : list byte :=
  mjoin ((λ entry, scope_image entry.1 entry.2.1 entry.2.2) <$> l).
Definition block_image (m : CompactedScopes) (revision : option Revision) : list byte :=
  SCOPE_BLOCK_MAGIC ++ le_bytes 4 (N.of_nat (size m)) ++ scopes_image (btree_list m) ++ optional_image (le_bytes 8) revision.

(** The writer appends [p], or refuses when the section would pass its bound. *)
Definition appends (w : section_writer) (p : list byte) : Prop := ∀ out, (blen out ≤ MAX_SECTION_BYTES)%N →
  w out = if (blen out + blen p <=? MAX_SECTION_BYTES)%N then Ok (out ++ p) else Err SectionLimit.

Create HintDb section.

Lemma appends_raw p : appends (section_raw p) p.
Proof.
  intros out Hout. unfold section_raw. destruct (N.leb_spec (blen out + blen p) MAX_SECTION_BYTES);
    [rewrite (proj2 (N.ltb_ge _ _)) by lia|rewrite (proj2 (N.ltb_lt _ _)) by lia]; done.
Qed.
Lemma appends_seq w1 w2 p1 p2 : appends w1 p1 → appends w2 p2 → appends (λ out, let? out := w1 out in w2 out) (p1 ++ p2).
Proof.
  intros H1 H2 out Hout. rewrite H1 by done. autorewrite with blen. destruct (N.leb_spec (blen out + blen p1) MAX_SECTION_BYTES); cbn [rbind].
  - rewrite H2 by (autorewrite with blen; lia). autorewrite with blen. by rewrite N.add_assoc, app_assoc.
  - by rewrite (proj2 (N.leb_gt _ _)) by lia.
Qed.
Lemma appends_number n : appends (section_number n) (le_bytes 8 n).
Proof. apply appends_raw. Qed.
Lemma appends_field s : appends (section_field s) (text_image s).
Proof.
  intros out Hout. unfold section_field, text_image. destruct (N.leb_spec (2 ^ 32) (slen s)).
  - autorewrite with blen. rewrite (proj2 (N.leb_gt _ _)); [done|]. change MAX_SECTION_BYTES with 8388608%N. unfold slen in *. lia.
  - by apply (appends_seq (section_raw (le_bytes 4 (slen s))) (section_raw (str_bytes s))); [apply appends_raw..|].
Qed.
Lemma appends_optional {A} (put : A → section_writer) image o : (∀ a, appends (put a) (image a)) →
  appends (put_optional put o) (optional_image image o).
Proof.
  intros H. destruct o as [a|]; [|apply appends_number]. apply (appends_seq (section_number 1) (put a)); [apply appends_number|apply H].
Qed.
#[local] Hint Resolve appends_raw appends_number appends_field appends_optional : section.

Lemma appends_scope id s lease : appends (put_scope id s lease) (scope_image id s lease).
Proof.
  unfold put_scope, scope_image, lease_image.
  repeat (apply appends_seq; [eauto with section|]). eauto with section.
Qed.
Lemma appends_scopes l : appends (put_scopes l) (scopes_image l).
Proof.
  induction l as [|[id [s lease]] l IH].
  - intros out Hout. cbn. rewrite N.add_0_r, app_nil_r. by rewrite (proj2 (N.leb_le _ _)).
  - exact (appends_seq _ _ _ _ (appends_scope id s lease) IH).
Qed.
Lemma appends_block m revision : (N.of_nat (size m) ≤ MAX_SECTION_ITEMS)%N →
  appends (encode_scope_block m revision) (block_image m revision).
Proof.
  intros Hsize. apply appends_seq; [apply appends_raw|]. apply (appends_seq (section_count _)).
  { intros out Hout. unfold section_count. rewrite (proj2 (N.ltb_ge _ _)) by done. by apply appends_raw. }
  apply (appends_seq (put_scopes _)); [apply appends_scopes|]. eauto with section.
Qed.

(** ** Sizes *)

Lemma blen_le_bytes n v : blen (le_bytes n v) = N.of_nat n.
Proof. unfold blen. by rewrite length_le_bytes. Qed.
Lemma blen_text s : blen (text_image s) = field_bytes s.
Proof. unfold text_image. autorewrite with blen. by rewrite blen_le_bytes. Qed.
Lemma blen_optional {A} (image : A → list byte) (size : A → N) o : (∀ a, blen (image a) = size a) →
  blen (optional_image image o) = optional_bytes (size <$> o).
Proof. intros H. destruct o; cbn [optional_image]; autorewrite with blen; rewrite ?H, blen_le_bytes; unfold optional_bytes; cbn [fmap option_fmap option_map default from_option id]; lia. Qed.

Lemma blen_scope id s lease : xs_id s = id → blen (scope_image id s lease) = scope_entry_bytes s lease.
Proof.
  intros <-. unfold scope_image, lease_image, scope_entry_bytes, compacted_scope_entry_bytes. autorewrite with blen.
  rewrite !blen_text, !(blen_optional text_image field_bytes) by apply blen_text.
  rewrite !(blen_optional (le_bytes 8) (λ _, 8%N)) by (intros; apply blen_le_bytes).
  rewrite (blen_optional (le_bytes 16) (λ _, 16%N)) by (intros; apply blen_le_bytes). rewrite !blen_le_bytes. lia.
Qed.

Lemma blen_scopes l : Forall (λ entry, xs_id entry.2.1 = entry.1) l → blen (scopes_image l) = entries_bytes l.
Proof.
  induction 1 as [|[id [s lease]] l Hid _ IH]; [done|]. unfold scopes_image. cbn [fmap list_fmap mjoin list_join fst snd] in *.
  autorewrite with blen. rewrite blen_scope by done. unfold entries_bytes in *. cbn [foldr fst snd]. by rewrite <- IH.
Qed.

Lemma blen_block m revision : parts_wf m revision → m ≠ ∅ → blen (block_image m revision) = block_bytes m.
Proof.
  intros [Hr He] Hm. unfold block_image, block_bytes. rewrite decide_False by done. autorewrite with blen. rewrite blen_le_bytes, blen_scopes.
  - destruct revision as [x|]; [|by contradict Hm; apply Hr]. cbn [optional_image]. autorewrite with blen. rewrite !blen_le_bytes.
    change (blen SCOPE_BLOCK_MAGIC) with 8%N. unfold SCOPE_BLOCK_OVERHEAD. lia.
  - apply Forall_forall. intros [id [s lease]] Hin%elem_of_btree_list. cbn. by apply (ef_id _ _ _ _ (He _ _ _ Hin)).
Qed.

(** ** Reading back *)

Definition entry_ok (s : ExecutionScope) (lease : ScopeLeaseBinding) : Prop :=
  str_ok (xs_id s) = true ∧ opt_ok str_ok (xs_parent s) = true ∧ str_ok (xs_session s) = true ∧ str_ok (xs_project s) = true ∧
  u64_ok (xs_created_at s) = true ∧ opt_ok u64_ok (xs_deadline s) = true ∧ lease_ok lease = true.

Definition read_back {A} (r : section_reader A) (p : list byte) (a : A) : Prop := Reads r (Some p) a.

Lemma read_back_seq {A B} (r : section_reader A) (k : A → section_reader B) p q a b :
  read_back r p a → read_back (k a) q b → read_back (rseq r k) (p ++ q) b.
Proof. intros H1 H2. exact (reads_seq r k (Some p) (Some q) a b H1 H2). Qed.
Lemma read_back_last {A} (r : section_reader A) p a : read_back r p a → read_back r (p ++ []) a.
Proof. intros H. by rewrite app_nil_r. Qed.
Lemma read_back_ret {A} (a : A) : read_back (rret a) [] a.
Proof. apply reads_ret. Qed.
(** The last read of a sequence. *)
Lemma read_back_map {A B} (r : section_reader A) (f : A → B) p a : read_back r p a → read_back (x <- r ;; rret (f x)) p (f a).
Proof. intros H. rewrite <- (app_nil_r p). eapply read_back_seq; [exact H|apply read_back_ret]. Qed.

Lemma take_back n p : length p = n → read_back (section_take n) p p.
Proof.
  intros <- ? rest [= <-]. unfold section_take. rewrite length_app, (proj2 (Nat.ltb_ge _ _)) by lia. by rewrite take_app_length, drop_app_length.
Qed.
Lemma number_back n : u64_ok n = true → read_back read_number (le_bytes 8 n) n.
Proof.
  intros H%N.ltb_lt. pose proof (read_back_map (section_take 8) le_value _ _ (take_back 8 (le_bytes 8 n) (length_le_bytes _ _))) as Hb.
  rewrite le_value_bytes in Hb by done. exact Hb.
Qed.
Lemma token_back n : u128_ok n = true → read_back read_token (le_bytes 16 n) n.
Proof.
  intros H%N.ltb_lt. pose proof (read_back_map (section_take 16) le_value _ _ (take_back 16 (le_bytes 16 n) (length_le_bytes _ _))) as Hb.
  rewrite le_value_bytes in Hb by done. exact Hb.
Qed.
Lemma field_back s : str_ok s = true → (slen s < 2 ^ 32)%N → read_back read_field (text_image s) s.
Proof.
  intros Hs Hl. eapply read_back_seq; [by apply take_back, length_le_bytes|]. rewrite le_value_bytes by done.
  rewrite <- (app_nil_r (str_bytes s)). eapply read_back_seq; [apply take_back; unfold slen, blen; lia|].
  rewrite String.string_of_list_byte_of_string, Hs. apply read_back_ret.
Qed.
Lemma optional_back {A} (r : section_reader A) (image : A → list byte) o : (∀ a, o = Some a → read_back r (image a) a) →
  read_back (take_optional r) (optional_image image o) o.
Proof.
  intros H. destruct o as [a|]; cbn [optional_image].
  - eapply read_back_seq; [by apply number_back|]. cbn. apply (read_back_map r Some), H. done.
  - rewrite <- (app_nil_r (le_bytes 8 0)). eapply read_back_seq; [by apply number_back|]. apply read_back_ret.
Qed.
Lemma flag_back (b : bool) : read_back read_flag (le_bytes 8 (if b then 1 else 0)) b.
Proof. rewrite <- (app_nil_r (le_bytes 8 _)). eapply read_back_seq; [apply number_back; by destruct b|]. destruct b; apply read_back_ret. Qed.

(** Every text of an entry is shorter than the section. *)
Lemma text_short s (p : list byte) : (blen p ≤ MAX_SECTION_BYTES)%N → (blen (text_image s) ≤ blen p)%N → (slen s < 2 ^ 32)%N.
Proof. rewrite blen_text. unfold field_bytes. change MAX_SECTION_BYTES with 8388608%N. lia. Qed.

Lemma optional_field_back o (p : list byte) : opt_ok str_ok o = true → (blen p ≤ MAX_SECTION_BYTES)%N →
  (blen (optional_image text_image o) ≤ blen p)%N → read_back (take_optional read_field) (optional_image text_image o) o.
Proof.
  intros Ho Hp Hl. apply optional_back. intros s ->. apply field_back; [done|]. apply (text_short s p Hp).
  cbn [optional_image] in Hl. autorewrite with blen in Hl. lia.
Qed.
Lemma optional_number_back o : opt_ok u64_ok o = true → read_back (take_optional read_number) (optional_image (le_bytes 8) o) o.
Proof. intros Ho. apply optional_back. intros n ->. by apply number_back. Qed.
Lemma optional_token_back o : opt_ok u128_ok o = true → read_back (take_optional read_token) (optional_image (le_bytes 16) o) o.
Proof. intros Ho. apply optional_back. intros n ->. by apply token_back. Qed.

Lemma lease_back lease : lease_ok lease = true → (blen (lease_image lease) ≤ MAX_SECTION_BYTES)%N →
  read_back read_lease (lease_image lease) lease.
Proof.
  intros Hl Hp. set (p := lease_image lease) in Hp. assert (blen (lease_image lease) = blen p) as Hb by done.
  unfold lease_ok in Hl. bool_prop. destruct lease as [a b c d e f]. cbn in *. unfold lease_image in *. autorewrite with blen in Hb.
  cbn [slb_state_id slb_pod_id slb_placement_epoch slb_fencing_token slb_generation slb_resource_lease_id] in *.
  repeat (eapply read_back_seq; [first [apply (optional_field_back _ p); [done|done|lia]|by apply optional_number_back|by apply optional_token_back]|]).
  apply (read_back_map (take_optional read_field) (Build_ScopeLeaseBinding a b c d e)). apply (optional_field_back _ p); [done|done|lia].
Qed.

Lemma scope_back id s lease : xs_id s = id → entry_ok s lease → (blen (scope_image id s lease) ≤ MAX_SECTION_BYTES)%N →
  ∃ q, scope_image id s lease = text_image id ++ q ∧ (slen id < 2 ^ 32)%N ∧ read_back (read_scope id) q (s, lease).
Proof.
  intros Hid (H1 & H2 & H3 & H4 & H5 & H6 & H7) Hp. set (p := scope_image id s lease) in Hp.
  assert (blen (scope_image id s lease) = blen p) as Hb by done. unfold scope_image in Hb. autorewrite with blen in Hb.
  assert (slen id < 2 ^ 32)%N as Hsid by (apply (text_short id p Hp); lia).
  eexists. split; [reflexivity|]. split; [done|]. unfold read_scope.
  eapply read_back_seq; [apply (optional_field_back _ p); [done|done|lia]|].
  do 2 (eapply read_back_seq; [apply field_back; [done|apply (text_short _ p Hp); lia]|]).
  eapply read_back_seq; [by apply number_back|]. eapply read_back_seq; [by apply optional_number_back|].
  eapply read_back_seq; [apply number_back; by destruct (xs_state s)|].
  rewrite <- (app_nil_l (le_bytes 8 _ ++ lease_image lease)). eapply read_back_seq.
  { intros ? rest [= <-]. unfold rlift. instantiate (1 := xs_state s). by destruct (xs_state s). }
  eapply read_back_seq; [apply flag_back|].
  pose proof (read_back_map read_lease (λ l, (s, l)) _ _ (lease_back lease H7 ltac:(lia))) as Hm. destruct s. cbn in Hid. subst. exact Hm.
Qed.

Lemma scopes_back l previous scopes : ascending previous l.*1 →
  Forall (λ entry, xs_id entry.2.1 = entry.1 ∧ entry_ok entry.2.1 entry.2.2) l → (blen (scopes_image l) ≤ MAX_SECTION_BYTES)%N →
  read_back (read_scopes (length l) previous scopes) (scopes_image l) (foldl (λ m entry, <[entry.1 := entry.2]> m) scopes l).
Proof.
  revert previous scopes. induction l as [|[id [s lease]] l IH]; intros previous scopes Ha Hok Hp; [apply read_back_ret|].
  apply Forall_cons in Hok as [[Hid Hs] Hok]. destruct Ha as [Hprev Ha]. cbn [fst snd] in *.
  change (scopes_image ((id, (s, lease)) :: l)) with (scope_image id s lease ++ scopes_image l) in *. autorewrite with blen in Hp.
  destruct (scope_back id s lease Hid Hs) as (q & Hq & Hlen & Hb); [lia|]. rewrite Hq, <- app_assoc. cbn [length read_scopes foldl fst snd].
  eapply read_back_seq; [apply field_back; [rewrite <- Hid; apply Hs|done]|].
  replace (match previous with Some last => String.leb id last | None => false end) with false by (by destruct previous).
  eapply read_back_seq; [exact Hb|]. apply IH; [done|done|lia].
Qed.

Lemma insert_all (l : list (string * (ExecutionScope * ScopeLeaseBinding))) (m : CompactedScopes) : NoDup l.*1 →
  foldl (λ m entry, <[entry.1 := entry.2]> m) m l = list_to_map l ∪ m.
Proof.
  revert m. induction l as [|[id x] l IH]; intros m Hd; cbn [foldl]; [cbn [list_to_map foldr]; by rewrite map_empty_union|].
  cbn [fmap list_fmap fst] in Hd. apply NoDup_cons in Hd as [Hn Hd]. rewrite IH by done. cbn [fst snd list_to_map foldr].
  apply not_elem_of_list_to_map in Hn. rewrite <- insert_union_l. symmetry. by rewrite insert_union_r.
Qed.

Lemma count_back {A} (k : N → section_reader A) n q a : (n ≤ MAX_SECTION_ITEMS)%N → (n ≤ blen q)%N → read_back (k n) q a →
  read_back (rseq read_count k) (le_bytes 4 n ++ q) a.
Proof.
  intros Hn Hq Hk p rest Hx. assert (p = le_bytes 4 n ++ q) as -> by congruence. clear Hx. unfold rseq, read_count. rewrite <- app_assoc.
  rewrite (take_back 4 (le_bytes 4 n) (length_le_bytes _ _) _ _ eq_refl). cbn [rbind].
  rewrite le_value_bytes by (change MAX_SECTION_ITEMS with 65536%N in Hn; change (256 ^ N.of_nat 4)%N with 4294967296%N; lia).
  rewrite !(proj2 (N.ltb_ge _ _)) by (autorewrite with blen; lia). cbn [orb]. by apply Hk.
Qed.

Lemma scopes_image_long l : (blen l ≤ blen (scopes_image l))%N.
Proof.
  induction l as [|[id [s lease]] l IH]; [done|].
  change (scopes_image ((id, (s, lease)) :: l)) with (scope_image id s lease ++ scopes_image l).
  unfold scope_image. autorewrite with blen in *. rewrite blen_text. unfold field_bytes. lia.
Qed.

Lemma keys_sorted {A} (l : list (string * A)) : StronglySorted key_le l → StronglySorted String.le l.*1.
Proof. induction 1 as [|x l _ IH Hx]; constructor; [done|]. by apply Forall_fmap. Qed.

Lemma block_back m revision : parts_wf m revision → m ≠ ∅ → map_Forall (λ _ entry, entry_ok entry.1 entry.2) m →
  opt_ok u64_ok revision = true → (N.of_nat (size m) ≤ MAX_SECTION_ITEMS)%N → (blen (block_image m revision) ≤ MAX_SECTION_BYTES)%N →
  read_back decode_scope_block (block_image m revision) (m, revision).
Proof.
  intros [Hr He] Hm Hok Hrev Hsize Hp. unfold block_image in *. autorewrite with blen in Hp. eapply read_back_seq; [by apply take_back|].
  rewrite bool_decide_true by done. cbn [negb]. pose proof (scopes_image_long (btree_list m)) as Hlong.
  assert (blen (btree_list m) = N.of_nat (size m)) as Hlen by (unfold blen; by rewrite btree_list_length).
  apply count_back; [done|autorewrite with blen; lia|].
  assert (size m ≠ 0) as Hz by (intros E; by apply map_size_empty_inv in E). rewrite (proj2 (N.eqb_neq _ _)) by lia.
  rewrite Nat2N.id, <- btree_list_length. eapply read_back_seq.
  { apply scopes_back; [apply sorted_ascending; [|apply btree_list_nodup]| |lia].
    - apply keys_sorted, btree_list_sorted.
    - apply Forall_forall. intros [id [s lease]] Hin%elem_of_btree_list. cbn. split; [by apply (ef_id _ _ _ _ (He _ _ _ Hin))|]. exact (Hok _ _ Hin). }
  rewrite insert_all, btree_list_to_map, map_union_empty by apply btree_list_nodup.
  rewrite <- (app_nil_r (optional_image _ _)). eapply read_back_seq; [by apply optional_number_back|].
  rewrite bool_decide_false by (intros E; by apply Hm, Hr). apply read_back_ret.
Qed.

(** ** What a history of typed records leads to *)

Definition typed_parts (r : ScopeRegistry) : Prop :=
  map_Forall (λ _ entry, entry_ok entry.1 entry.2) (parts r) ∧ opt_ok u64_ok (sr_last_revision r) = true.

Lemma applied_typed e r : scope_event_ok e = true → registry_wf r → admissible e r → typed_parts r → typed_parts (applied e r).
Proof.
  intros He Hw Ha [Hm _]. unfold scope_event_ok in He. bool_prop. split; [|done].
  destruct (sr_scopes r !! sle_scope_id e) as [s|] eqn:Es; [|rewrite (parts_created _ _ Es); by apply map_Forall_insert_2].
  assert (sle_scope_id e ∈ dom (sr_leases r)) as [lease Hle]%elem_of_dom by (rewrite (rw_leases _ Hw); by eapply elem_of_dom_2).
  rewrite (parts_moved _ _ _ _ Es Hle). apply map_Forall_insert_2; [|done].
  apply (Hm (sle_scope_id e) (s, lease)). by rewrite parts_lookup, Es, Hle.
Qed.

Lemma apply_all_typed es r : Forall (λ e, scope_event_ok e = true) es → registry_wf r → typed_parts r → typed_parts (apply_all es r).2.
Proof.
  intros Hes. revert r. induction Hes as [|e es He _ IH]; intros r Hw Ht; cbn [apply_all]; [done|].
  destruct (apply_committed e r) as [r'|] eqn:E; [|done]. apply IH; [by eapply apply_committed_wf|].
  destruct (decide (e ∈ sr_committed r)) as [Hin|Hin].
  - unfold apply_committed in E. rewrite bool_decide_true in E by done. by injection E as <-.
  - rewrite apply_committed_eq in E by done. apply rbind_ok_inv in E as ([] & Hv & [= <-]). apply applied_typed; [done..| |done].
    by apply validate_committed_ok.
Qed.

(** C16: the block of scopes takes exactly the bytes that the registry counted, and is
    read back exactly.  For the registry that any history of records leads to, with at
    least one scope and no more than a section may count: writing the block behind
    what the section holds succeeds exactly when the counted bytes still fit, and
    appends that many bytes; whatever follows them, reading returns the scopes, the
    leases and the revision. *)
Theorem scope_block_exact es out rest : Forall (λ e, scope_event_ok e = true) es →
  let r := (apply_all es ScopeRegistry_default).2 in
  let '(scopes, revision) := compacted_parts r in
  scopes ≠ ∅ → (N.of_nat (size scopes) ≤ MAX_SECTION_ITEMS)%N → (blen out ≤ MAX_SECTION_BYTES)%N →
  if (blen out + sr_snapshot_bytes r <=? MAX_SECTION_BYTES)%N
  then ∃ block, encode_scope_block scopes revision out = Ok (out ++ block) ∧ blen block = sr_snapshot_bytes r ∧
         decode_scope_block (block ++ rest) = Ok ((scopes, revision), rest)
  else encode_scope_block scopes revision out = Err SectionLimit.
Proof.
  intros Hes r. assert (registry_wf r) as Hw by apply apply_all_wf, default_registry_wf.
  assert (typed_parts r) as [Hm Hrev].
  { apply apply_all_typed; [done|apply default_registry_wf|]. split; [|done]. intros id [s lease]. rewrite parts_lookup. cbn. by rewrite lookup_empty. }
  clearbody r. change (compacted_parts r) with (parts r, sr_last_revision r). intros Hne Hsize Hout. pose proof (rw_parts _ Hw) as Hp.
  rewrite (rw_bytes _ Hw), <- (blen_block _ _ Hp Hne), (appends_block _ _ Hsize _ Hout).
  destruct (N.leb_spec (blen out + blen (block_image (parts r) (sr_last_revision r))) MAX_SECTION_BYTES) as [Hle|Hle]; [|done].
  eexists. split; [done|]. split; [done|]. apply block_back; [done..|lia|done].
Qed.

(** ** A history *)

Definition demo_scope (id : string) (parent : option string) : ExecutionScope :=
  mkScope id parent "session" "project" 7 (Some 99%N) Created false.
Definition demo_lease : ScopeLeaseBinding :=
  {| slb_state_id := Some "state"; slb_pod_id := Some "pod"; slb_placement_epoch := Some 1%N; slb_fencing_token := Some (2 ^ 100)%N;
     slb_generation := Some 3%N; slb_resource_lease_id := None |}.
Definition demo_event (id : string) (parent : option string) (previous : option ScopeState) (next : ScopeState) (revision : N) :=
  lifecycle_event (demo_scope id parent) previous next revision demo_lease None.
Definition demo_history : list ScopeLifecycleEvent :=
  [demo_event "root" None None Created 1; demo_event "root" None (Some Created) AdmittedState 1;
   demo_event "child" (Some "root") None Created 2; demo_event "root" None (Some AdmittedState) Started 2].
Definition demo_more : list ScopeLifecycleEvent :=
  [demo_event "child" (Some "root") (Some Created) Cancelled 3; demo_event "child" (Some "root") (Some Cancelled) Released 3].

Lemma scope_compaction_transparent_witness :
  ∃ r', from_compacted_parts (compacted_parts (apply_all demo_history ScopeRegistry_default).2).1
          (compacted_parts (apply_all demo_history ScopeRegistry_default).2).2 = Some (Ok r') ∧
    (scope_replay demo_more r').1 = Ok tt ∧ sr_recovery_required (scope_replay demo_more r').2 = {["root"]} ∧
    is_ok (apply_committed (demo_event "root" None None Created 1) r') = false.
Proof.
  destruct (scope_compaction_transparent demo_history) as (r' & Hr & H & Hold).
  assert (Forall (λ e, e ∉ sr_committed (apply_all demo_history ScopeRegistry_default).2) demo_more) as Hf.
  { apply (bool_decide_eq_true_1 _). vm_compute. reflexivity. }
  rewrite Forall_forall in Hf. specialize (H demo_more Hf).
  exists r'. split; [exact Hr|]. destruct (scope_replay demo_more (apply_all demo_history ScopeRegistry_default).2) as [o a] eqn:Ea.
  destruct (scope_replay demo_more r') as [o' b]. destruct H as (<- & _ & _ & _ & _ & Hrec).
  assert (o = Ok tt) as -> by (change o with (o, a).1; rewrite <- Ea; vm_compute; reflexivity). split; [reflexivity|].
  split; [|apply Hold; apply (bool_decide_eq_true_1 _); vm_compute; reflexivity].
  cbn [snd]. rewrite <- Hrec by reflexivity. change a with (@Ok ScopeError unit tt, a).2. rewrite <- Ea. apply (bool_decide_eq_true_1 _). vm_compute. reflexivity.
Defined.

(** The history is accepted, and the lease that its first record bound is the one of the
    scope after every further history. *)
Lemma scope_registry_wf_witness :
  let r := (scope_replay demo_history ScopeRegistry_default).2 in
  registry_wf r ∧ sr_leases (apply_all demo_more r).2 !! "root" = Some demo_lease.
Proof.
  pose proof (scope_registry_wf demo_history) as H. cbv zeta.
  destruct (scope_replay demo_history ScopeRegistry_default) as [o r] eqn:E. destruct H as (H & Hl & _). cbn [snd].
  split; [exact H|]. apply Hl. change r with (o, r).2. rewrite <- E. vm_compute. reflexivity.
Defined.

Lemma compacted_parts_eq r : compacted_parts r = (parts r, sr_last_revision r).
Proof. done. Qed.

Lemma scope_block_exact_witness :
  ∃ block, encode_scope_block (compacted_parts (apply_all demo_history ScopeRegistry_default).2).1 (Some 2%N) [x2a] = Ok ([x2a] ++ block) ∧
    blen block = 385%N ∧
    decode_scope_block (block ++ [x2b]) = Ok (((compacted_parts (apply_all demo_history ScopeRegistry_default).2).1, Some 2%N), [x2b]).
Proof.
  pose proof (scope_block_exact demo_history [x2a] [x2b]) as H.
  assert (Forall (λ e, scope_event_ok e = true) demo_history) as Hf by (apply (bool_decide_eq_true_1 _); vm_compute; reflexivity).
  specialize (H Hf). cbv zeta in H.
  assert (sr_last_revision (apply_all demo_history ScopeRegistry_default).2 = Some 2%N) as Hrev by (vm_compute; reflexivity).
  assert (sr_snapshot_bytes (apply_all demo_history ScopeRegistry_default).2 = 385%N) as Hbytes by (vm_compute; reflexivity).
  assert ((N.of_nat (size (parts (apply_all demo_history ScopeRegistry_default).2)) <=? MAX_SECTION_ITEMS)%N = true) as Hsize by (vm_compute; reflexivity).
  assert (bool_decide (parts (apply_all demo_history ScopeRegistry_default).2 ≠ ∅) = true) as Hne by (vm_compute; reflexivity).
  rewrite compacted_parts_eq, Hrev, Hbytes in *. cbn [fst]. apply H.
  - exact (bool_decide_eq_true_1 _ Hne).
  - exact (proj1 (N.leb_le _ _) Hsize).
  - apply N.leb_le. vm_compute. reflexivity.
Defined.

Lemma scope_cleanup_exact_witness :
  ∃ r', scope_cleanup 3 "root" (apply_all demo_history ScopeRegistry_default).2 = Some (Ok tt, r') ∧
    ∀ s, sr_scopes (apply_all demo_history ScopeRegistry_default).2 !! "child" = Some s →
      sr_scopes r' !! "child" = Some (sweep s) ∧ xs_state (sweep s) = Released.
Proof.
  assert (size (sr_scopes (apply_all demo_history ScopeRegistry_default).2) = 2) as Hsize by (vm_compute; reflexivity).
  destruct (scope_cleanup_exact (apply_all demo_history ScopeRegistry_default).2 "root") as (r' & H & Hs & _).
  - apply wf_forest, apply_all_wf, default_registry_wf.
  - apply elem_of_dom. apply (bool_decide_eq_true_1 _). vm_compute. reflexivity.
  - rewrite Hsize in H. exists r'. split; [exact H|]. intros s Hc. apply (Hs "child" s Hc).
    apply (swept_child _ _ "root" "child" s); [constructor|exact Hc| |].
    + assert (xs_parent <$> sr_scopes (apply_all demo_history ScopeRegistry_default).2 !! "child" = Some (Some "root")) as Hp by (vm_compute; reflexivity).
      rewrite Hc in Hp. by injection Hp.
    + assert (xs_state <$> sr_scopes (apply_all demo_history ScopeRegistry_default).2 !! "child" = Some Created) as Hp by (vm_compute; reflexivity).
      rewrite Hc in Hp. injection Hp as ->. reflexivity.
Defined.
