(* ===== verification/Policy.v ===== *)
(** * Signed policy bundles: crates/ptr-runtime/src/policy.rs

    The policy of a host as a signed bundle: its canonical bytes and digest, the
    ledger encoding with its reader, the trust store and the verification.  SHA-256
    and the check of an Ed25519 signature are parameters.  The loader that fetches
    over an external HTTP client is not modelled; the one with a given fetch function
    is. *)

From S2P Require Import Prelude Bytes Text Types SemDelta SemHost Digests.
From Stdlib Require Import Lia.
From stdpp Require Import options.

(** ** Data *)

Record ProjectPolicy := mkProject { pp_project : string }.
Record CapabilityPolicy := mkCapability { cp_project : string; cp_capability : string }.
Record PodPolicyBinding := mkBinding {
  pb_project : string;
  pb_pod : string;
  pb_capability : string;
  pb_input_type : string
}.

Record PolicyBundlePayload := mkPayload {
  bp_projects : list ProjectPolicy;
  bp_capabilities : list CapabilityPolicy;
  bp_input_types : list string;
  bp_pod_bindings : list PodPolicyBinding;
  bp_valid_from : Timestamp;
  bp_valid_until : option Timestamp
}.

Record SignedPolicyBundle := mkBundle {
  sb_revision : Revision;
  sb_key_id : string;
  sb_payload : PolicyBundlePayload;
  sb_payload_digest : Digest;
  sb_signature : list byte
}.

Inductive PolicyError :=
| InvalidBundle
| InvalidPayload
| InvalidValidityWindow
| OutsideValidityWindow
| PayloadDigestMismatch
| InvalidSignature
| UnknownKey (key_id : string)
| RevokedKey (key_id : string)
| ConflictingRevision (revision : Revision)
| NonMonotoneRevision (current requested : Revision)
| RevokedRevision (revision : Revision)
| PolicyInvalidEncoding
| InvalidUrl
| PayloadTooLarge
| FetchFailed (message : string).

#[export] Instance ProjectPolicy_eq_dec : EqDecision ProjectPolicy.
Proof. solve_decision. Defined.
#[export] Instance CapabilityPolicy_eq_dec : EqDecision CapabilityPolicy.
Proof. solve_decision. Defined.
#[export] Instance PodPolicyBinding_eq_dec : EqDecision PodPolicyBinding.
Proof. solve_decision. Defined.

Definition MAX_ITEMS : N := 4096.
Definition MAX_STRING_BYTES : N := 4096.
Definition MAX_SIGNATURE_BYTES : N := 4096.
Definition MAX_PAYLOAD_BYTES : N := 4 * 1024 * 1024.

(** ** Order

    The derived order compares the fields one after the other. *)

Fixpoint keys_leb (a b : list string) : bool :=
  match a, b with
  | [], _ => true
  | _ :: _, [] => false
  | x :: a, y :: b => if bool_decide (x = y) then keys_leb a b else String.leb x y
  end.

Definition project_key (p : ProjectPolicy) : list string := [pp_project p].
Definition capability_key (c : CapabilityPolicy) : list string := [cp_project c; cp_capability c].
Definition type_key (t : string) : list string := [t].
Definition binding_key (b : PodPolicyBinding) : list string := [pb_project b; pb_pod b; pb_capability b; pb_input_type b].

Definition le_by {A} (key : A → list string) (x y : A) : Prop := keys_leb (key x) (key y) = true.
#[export] Instance le_by_dec {A} (key : A → list string) : RelDecision (le_by key).
Proof. intros x y. unfold le_by. apply _. Defined.

(** [Vec::dedup]: of equal neighbours the first stays. *)
Fixpoint dedup_from {A} `{EqDecision A} (x : A) (l : list A) : list A :=
  match l with
  | [] => [x]
  | y :: l => if bool_decide (x = y) then dedup_from x l else x :: dedup_from y l
  end.
Definition dedup {A} `{EqDecision A} (l : list A) : list A :=
  match l with
  | [] => []
  | x :: l => dedup_from x l
  end.

Definition sort_dedup {A} `{EqDecision A} (key : A → list string) (l : list A) : list A := dedup (merge_sort (le_by key) l).

(** ** Encoding *)

Definition policy_u32 (value : N) : list byte := le_bytes 4 value.
Definition policy_u64 (value : N) : list byte := le_bytes 8 value.
Definition policy_bytes (value : list byte) : list byte := policy_u32 (blen value) ++ value.
Definition policy_string (value : string) : list byte := policy_u32 (slen value) ++ str_bytes value.

Definition project_bytes (p : ProjectPolicy) : list byte := policy_string (pp_project p).
Definition capability_bytes (c : CapabilityPolicy) : list byte := policy_string (cp_project c) ++ policy_string (cp_capability c).
Definition binding_bytes (b : PodPolicyBinding) : list byte :=
  policy_string (pb_project b) ++ policy_string (pb_pod b) ++ policy_string (pb_capability b) ++ policy_string (pb_input_type b).
Definition policy_list {A} (item : A → list byte) (l : list A) : list byte := policy_u32 (blen l) ++ mjoin (item <$> l).

Definition PAYLOAD_DOMAIN : list byte := str_bytes "PTR-POLICY-PAYLOAD-V1" ++ [x00].
Definition SIGNED_DOMAIN : list byte := str_bytes "PTR-SIGNED-POLICY-V1" ++ [x00].

Definition window_bytes (p : PolicyBundlePayload) : list byte :=
  policy_u64 (bp_valid_from p) ++
  match bp_valid_until p with
  | Some value => [x01] ++ policy_u64 value
  | None => [x00]
  end.

Definition payload_canonical_bytes (p : PolicyBundlePayload) : list byte :=
  let projects := sort_dedup project_key (bp_projects p) in
  let capabilities := sort_dedup capability_key (bp_capabilities p) in
  let input_types := sort_dedup type_key (bp_input_types p) in
  let bindings := sort_dedup binding_key (bp_pod_bindings p) in
  PAYLOAD_DOMAIN ++ window_bytes p ++ policy_list project_bytes projects ++ policy_list capability_bytes capabilities ++
  policy_list policy_string input_types ++ policy_list binding_bytes bindings.

Definition signing_bytes (b : SignedPolicyBundle) : list byte :=
  SIGNED_DOMAIN ++ policy_u64 (sb_revision b) ++ policy_string (sb_key_id b) ++ sb_payload_digest b.

Definition bundle_canonical_bytes (b : SignedPolicyBundle) : list byte :=
  signing_bytes b ++ policy_bytes (payload_canonical_bytes (sb_payload b)) ++ policy_bytes (sb_signature b).

Definition encode_for_ledger (b : SignedPolicyBundle) : list byte := bundle_canonical_bytes b.

(** ** Decoding *)

Definition policy_reader (A : Type) := reader PolicyError A.

Definition policy_take (count : nat) : policy_reader (list byte) := λ rest,
  if (length rest <? count)%nat then Err PolicyInvalidEncoding else Ok (take count rest, drop count rest).
Definition read_policy_u64 : policy_reader N := b <- policy_take 8 ;; rret (le_value b).
Definition policy_length (limit : N) : policy_reader N :=
  b <- policy_take 4 ;;
  if (limit <? le_value b)%N then rfail PolicyInvalidEncoding else rret (le_value b).
Definition policy_count : policy_reader N := policy_length MAX_ITEMS.
Definition read_policy_bytes (limit : N) : policy_reader (list byte) :=
  len <- policy_length limit ;; policy_take (N.to_nat len).
Definition read_policy_string : policy_reader string :=
  len <- policy_length MAX_STRING_BYTES ;;
  b <- policy_take (N.to_nat len) ;;
  if str_ok (bytes_str b) then rret (bytes_str b) else rfail PolicyInvalidEncoding.

Definition read_policy_list {A} (item : policy_reader A) : policy_reader (list A) :=
  count <- policy_count ;; rrepeat (N.to_nat count) item.

Definition read_project : policy_reader ProjectPolicy := project <- read_policy_string ;; rret (mkProject project).
Definition read_capability : policy_reader CapabilityPolicy :=
  project <- read_policy_string ;; capability <- read_policy_string ;; rret (mkCapability project capability).
Definition read_binding : policy_reader PodPolicyBinding :=
  project <- read_policy_string ;; pod <- read_policy_string ;; capability <- read_policy_string ;;
  input_type <- read_policy_string ;; rret (mkBinding project pod capability input_type).

Definition read_until : policy_reader (option Timestamp) :=
  flag <- policy_take 1 ;;
  match flag with
  | [x00] => rret None
  | [x01] => value <- read_policy_u64 ;; rret (Some value)
  | _ => rfail PolicyInvalidEncoding
  end.

Definition read_payload : policy_reader PolicyBundlePayload :=
  domain <- policy_take (length PAYLOAD_DOMAIN) ;;
  if negb (bool_decide (domain = PAYLOAD_DOMAIN)) then rfail PolicyInvalidEncoding
  else
    valid_from <- read_policy_u64 ;;
    valid_until <- read_until ;;
    projects <- read_policy_list read_project ;;
    capabilities <- read_policy_list read_capability ;;
    input_types <- read_policy_list read_policy_string ;;
    pod_bindings <- read_policy_list read_binding ;;
    rret (mkPayload projects capabilities input_types pod_bindings valid_from valid_until).

(** The whole input, with nothing behind. *)
Definition finished {A} (r : policy_reader A) (bytes : list byte) : result PolicyError A :=
  let? (a, rest) := r bytes in
  if negb (bool_decide (rest = [])) then Err PolicyInvalidEncoding else Ok a.

Definition payload_decode (bytes : list byte) : result PolicyError PolicyBundlePayload := finished read_payload bytes.

Definition read_bundle : policy_reader (Revision * string * Digest * list byte * list byte) :=
  domain <- policy_take (length SIGNED_DOMAIN) ;;
  if negb (bool_decide (domain = SIGNED_DOMAIN)) then rfail PolicyInvalidEncoding
  else
    revision <- read_policy_u64 ;;
    key_id <- read_policy_string ;;
    payload_digest <- policy_take 32 ;;
    payload_bytes <- read_policy_bytes MAX_PAYLOAD_BYTES ;;
    signature <- read_policy_bytes MAX_SIGNATURE_BYTES ;;
    rret (revision, key_id, payload_digest, payload_bytes, signature).

Definition decode_for_ledger (bytes : list byte) : result PolicyError SignedPolicyBundle :=
  let? (revision, key_id, payload_digest, payload_bytes, signature) := finished read_bundle bytes in
  let? payload := payload_decode payload_bytes in
  Ok (mkBundle revision key_id payload payload_digest signature).

(** ** Verification *)

Definition any_empty (p : PolicyBundlePayload) : bool :=
  existsb (λ p, bool_decide (pp_project p = "")) (bp_projects p) ||
  existsb (λ c, bool_decide (cp_project c = "") || bool_decide (cp_capability c = "")) (bp_capabilities p) ||
  existsb (λ t, bool_decide (t = "")) (bp_input_types p) ||
  existsb (λ b, bool_decide (pb_project b = "") || bool_decide (pb_pod b = "") || bool_decide (pb_capability b = "") ||
                bool_decide (pb_input_type b = "")) (bp_pod_bindings p).

Definition payload_validate (p : PolicyBundlePayload) : result PolicyError unit :=
  if match bp_valid_until p with Some until => (until <? bp_valid_from p)%N | None => false end then Err InvalidValidityWindow
  else if any_empty p then Err InvalidPayload
  else
    let encoded := payload_canonical_bytes p in
    if (MAX_PAYLOAD_BYTES <? blen encoded)%N then Err PayloadTooLarge
    else match payload_decode encoded with Ok _ => Ok tt | Err _ => Err InvalidPayload end.

Section Verification.
Context (sha256 : list byte → list byte).
(** [VerifyingKey], and its check of a signature on a message. *)
Context (VerifyingKey : Type) (key_verifies : VerifyingKey → list byte → list byte → bool).

Definition payload_digest (p : PolicyBundlePayload) : Digest := sha256 (payload_canonical_bytes p).

Record PolicyTrustStore := mkTrust {
  ts_keys : gmap string VerifyingKey;
  ts_revoked : gset string
}.
Definition trust_insert (key_id : string) (key : VerifyingKey) (t : PolicyTrustStore) : PolicyTrustStore :=
  mkTrust (<[key_id := key]> (ts_keys t)) (ts_revoked t).
Definition trust_revoke (key_id : string) (t : PolicyTrustStore) : PolicyTrustStore :=
  mkTrust (ts_keys t) ({[key_id]} ∪ ts_revoked t).
Definition trust_contains (t : PolicyTrustStore) (key_id : string) : bool :=
  bool_decide (is_Some (ts_keys t !! key_id)) && negb (bool_decide (key_id ∈ ts_revoked t)).

Definition bundle_verify (b : SignedPolicyBundle) (trust : PolicyTrustStore) (now : Timestamp) : result PolicyError unit :=
  if bool_decide (sb_key_id b = "") || (MAX_STRING_BYTES <? slen (sb_key_id b))%N || negb (blen (sb_signature b) =? 64)%N ||
     (sb_revision b =? 0)%N
  then Err InvalidBundle
  else
    payload_validate (sb_payload b) ;?
    if negb (bool_decide (payload_digest (sb_payload b) = sb_payload_digest b)) then Err PayloadDigestMismatch
    else if (now <? bp_valid_from (sb_payload b))%N ||
            match bp_valid_until (sb_payload b) with Some until => (until <? now)%N | None => false end
    then Err OutsideValidityWindow
    else
      let? key := ok_or (ts_keys trust !! sb_key_id b) (UnknownKey (sb_key_id b)) in
      if bool_decide (sb_key_id b ∈ ts_revoked trust) then Err (RevokedKey (sb_key_id b))
      else if negb (length (sb_signature b) =? 64)%nat then Err InvalidSignature
      else if key_verifies key (signing_bytes b) (sb_signature b) then Ok tt else Err InvalidSignature.
End Verification.

(** ** Loading *)

Definition MAX_POLICY_BYTES : N := 4 * 1024 * 1024.

Record HttpPolicyBundleLoader := mkLoader {
  pl_url : string;
  pl_fetch : string → result PolicyError (list byte)
}.

Definition HttpPolicyBundleLoader_new (url : string) (fetch : string → result PolicyError (list byte)) :
    result PolicyError HttpPolicyBundleLoader :=
  if negb (starts_with url "https://" || starts_with url "http://127.0.0.1/" || starts_with url "http://localhost/")
  then Err InvalidUrl else Ok (mkLoader url fetch).

Definition policy_load (l : HttpPolicyBundleLoader) : result PolicyError SignedPolicyBundle :=
  let? bytes := pl_fetch l (pl_url l) in
  if (MAX_POLICY_BYTES <? blen bytes)%N then Err PayloadTooLarge else decode_for_ledger bytes.

(** * What a verified policy bundle guarantees

    The reader accepts exactly what the writer writes within its bounds, every bundle
    that verifies is read back from the ledger, and a signature stands for one policy. *)

(** ** Canonical lists *)

Definition normalize (p : PolicyBundlePayload) : PolicyBundlePayload :=
  mkPayload (sort_dedup project_key (bp_projects p)) (sort_dedup capability_key (bp_capabilities p))
    (sort_dedup type_key (bp_input_types p)) (sort_dedup binding_key (bp_pod_bindings p)) (bp_valid_from p) (bp_valid_until p).

(** The bytes of a payload with its lists as they are. *)
Definition payload_image (p : PolicyBundlePayload) : list byte :=
  PAYLOAD_DOMAIN ++ window_bytes p ++ policy_list project_bytes (bp_projects p) ++ policy_list capability_bytes (bp_capabilities p) ++
  policy_list policy_string (bp_input_types p) ++ policy_list binding_bytes (bp_pod_bindings p).

Lemma canonical_image p : payload_canonical_bytes p = payload_image (normalize p).
Proof. done. Qed.

(** *** The order of the keys *)

Lemma string_leb_le x y : String.leb x y = true ↔ String.le x y.
Proof. unfold String.le. by rewrite Is_true_true. Qed.

Lemma keys_leb_total a b : keys_leb a b = true ∨ keys_leb b a = true.
Proof.
  revert b. induction a as [|x a IH]; intros [|y b]; cbn; auto. destruct (bool_decide_reflect (x = y)) as [->|Hne].
  - rewrite bool_decide_true by done. apply IH.
  - rewrite bool_decide_false by congruence. destruct (String.leb_total x y) as [->| ->]; auto.
Qed.
Lemma keys_leb_antisym a b : keys_leb a b = true → keys_leb b a = true → a = b.
Proof.
  revert b. induction a as [|x a IH]; intros [|y b]; cbn; try done. destruct (bool_decide_reflect (x = y)) as [->|Hne].
  - rewrite bool_decide_true by done. intros. f_equal. by apply IH.
  - rewrite bool_decide_false by congruence. intros H1 H2. destruct Hne. by apply String.leb_antisym.
Qed.
Lemma keys_leb_trans a b c : keys_leb a b = true → keys_leb b c = true → keys_leb a c = true.
Proof.
  revert b c. induction a as [|x a IH]; intros [|y b] [|z c]; cbn; try done.
  destruct (bool_decide_reflect (x = y)) as [->|H1], (bool_decide_reflect (y = z)) as [->|H2]; intros Hxy Hyz;
    rewrite ?bool_decide_true by done; [by eapply IH|by rewrite ?bool_decide_false|by rewrite ?bool_decide_false|].
  rewrite bool_decide_false; [apply string_leb_le; etrans; by apply string_leb_le|].
  intros ->. destruct H1. by apply String.leb_antisym.
Qed.

#[export] Instance le_by_total {A} (key : A → list string) : Total (le_by key).
Proof. intros x y. apply keys_leb_total. Qed.
#[export] Instance le_by_trans {A} (key : A → list string) : Transitive (le_by key).
Proof. intros x y z. apply keys_leb_trans. Qed.

Section SortDedup.
Context {A} `{EqDecision A} (key : A → list string) (key_inj : ∀ x y, key x = key y → x = y).

Lemma dedup_from_spec x l : StronglySorted (le_by key) (x :: l) →
  StronglySorted (le_by key) (dedup_from x l) ∧ NoDup (dedup_from x l) ∧ ∀ y, y ∈ dedup_from x l ↔ y ∈ x :: l.
Proof using key_inj.
  revert x. induction l as [|y l IH]; intros x Hs; cbn [dedup_from]; [split_and!; [done|apply NoDup_singleton|done]|].
  inversion Hs as [|? ? Hs' Hf]; subst. apply Forall_cons in Hf as [Hxy Hf]. inversion Hs' as [|? ? Hs'' Hf']; subst.
  destruct (bool_decide_reflect (x = y)) as [<-|Hne].
  - destruct (IH x) as (I1 & I2 & I3); [by constructor|]. split_and!; [done|done|]. intros z. rewrite I3, !elem_of_cons. tauto.
  - destruct (IH y Hs') as (I1 & I2 & I3). split_and!.
    + constructor; [done|]. apply Forall_forall. intros z [->|Hz]%I3%elem_of_cons; [done|]. rewrite Forall_forall in Hf. by apply Hf.
    + constructor; [|done]. intros [->|Hx]%I3%elem_of_cons; [done|]. apply Hne, key_inj, keys_leb_antisym; [exact Hxy|].
      rewrite Forall_forall in Hf'. by apply Hf'.
    + intros z. rewrite !elem_of_cons, I3, elem_of_cons. tauto.
Qed.

Lemma sort_dedup_spec l :
  StronglySorted (le_by key) (sort_dedup key l) ∧ NoDup (sort_dedup key l) ∧ ∀ x, x ∈ sort_dedup key l ↔ x ∈ l.
Proof using key_inj.
  unfold sort_dedup. assert (∀ x, x ∈ merge_sort (le_by key) l ↔ x ∈ l) as Hin by (intros x; by rewrite merge_sort_Permutation).
  pose proof (StronglySorted_merge_sort (le_by key) l) as Hs. destruct (merge_sort (le_by key) l) as [|x k]; [split_and!; [done|constructor|done]|].
  destruct (dedup_from_spec x k Hs) as (H1 & H2 & H3). cbn [dedup]. split_and!; [done|done|]. intros y. by rewrite H3, Hin.
Qed.

(** A canonical list depends only on the set of its elements. *)
Lemma sort_dedup_set l l' : (∀ x, x ∈ l ↔ x ∈ l') → sort_dedup key l = sort_dedup key l'.
Proof using key_inj.
  intros H. destruct (sort_dedup_spec l) as (S1 & N1 & E1), (sort_dedup_spec l') as (S2 & N2 & E2).
  apply (StronglySorted_unique_strong (le_by key)); [|done|done|].
  - intros x y _ _ H1 H2. by apply key_inj, keys_leb_antisym.
  - apply NoDup_Permutation; [done|done|]. intros x. by rewrite E1, E2.
Qed.
Lemma sort_dedup_idem l : sort_dedup key (sort_dedup key l) = sort_dedup key l.
Proof using key_inj. apply sort_dedup_set. apply sort_dedup_spec. Qed.
End SortDedup.

Lemma project_key_inj x y : project_key x = project_key y → x = y.
Proof. destruct x, y. by intros [= ->]. Qed.
Lemma capability_key_inj x y : capability_key x = capability_key y → x = y.
Proof. destruct x, y. by intros [= -> ->]. Qed.
Lemma type_key_inj x y : type_key x = type_key y → x = y.
Proof. by intros [= ->]. Qed.
Lemma binding_key_inj x y : binding_key x = binding_key y → x = y.
Proof. destruct x, y. by intros [= -> -> -> ->]. Qed.

Lemma normalize_idem p : normalize (normalize p) = normalize p.
Proof.
  unfold normalize. cbn. f_equal; apply sort_dedup_idem; [apply project_key_inj|apply capability_key_inj|apply type_key_inj|apply binding_key_inj].
Qed.

(** The two payloads grant the same. *)
Definition same_policy (p q : PolicyBundlePayload) : Prop :=
  (∀ x, x ∈ bp_projects p ↔ x ∈ bp_projects q) ∧ (∀ x, x ∈ bp_capabilities p ↔ x ∈ bp_capabilities q) ∧
  (∀ x, x ∈ bp_input_types p ↔ x ∈ bp_input_types q) ∧ (∀ x, x ∈ bp_pod_bindings p ↔ x ∈ bp_pod_bindings q) ∧
  bp_valid_from p = bp_valid_from q ∧ bp_valid_until p = bp_valid_until q.

Lemma normalize_iff p q : normalize p = normalize q ↔ same_policy p q.
Proof.
  split.
  - unfold normalize. intros [= H1 H2 H3 H4 H5 H6].
    split_and!; [intros x; rewrite <- (proj2 (proj2 (sort_dedup_spec project_key project_key_inj _))), H1; apply sort_dedup_spec, project_key_inj|
      intros x; rewrite <- (proj2 (proj2 (sort_dedup_spec capability_key capability_key_inj _))), H2; apply sort_dedup_spec, capability_key_inj|
      intros x; rewrite <- (proj2 (proj2 (sort_dedup_spec type_key type_key_inj _))), H3; apply sort_dedup_spec, type_key_inj|
      intros x; rewrite <- (proj2 (proj2 (sort_dedup_spec binding_key binding_key_inj _))), H4; apply sort_dedup_spec, binding_key_inj|done|done].
  - intros (H1 & H2 & H3 & H4 & H5 & H6). unfold normalize. f_equal; [| | | |done|done]; apply sort_dedup_set; try done;
      [apply project_key_inj|apply capability_key_inj|apply type_key_inj|apply binding_key_inj].
Qed.

(** ** The codec *)

Definition Coded {A} (r : policy_reader A) (image : A → list byte) (wf : A → Prop) : Prop := Codec r (λ a, Some (image a)) wf.

Lemma coded_reads {A} {r : policy_reader A} {image wf} a rest : Coded r image wf → wf a → r (image a ++ rest) = Ok (a, rest).
Proof. intros [H _] Ha. by apply (H a Ha). Qed.
Lemma coded_exact {A} {r : policy_reader A} {image wf} bs a rest : Coded r image wf → r bs = Ok (a, rest) → wf a ∧ bs = image a ++ rest.
Proof. intros [_ H] Hr. destruct (H _ _ _ Hr) as (Ha & p & [= <-] & ->). done. Qed.
Lemma coded_intro {A} (r : policy_reader A) image (wf : A → Prop) : (∀ a rest, wf a → r (image a ++ rest) = Ok (a, rest)) →
  (∀ bs a rest, r bs = Ok (a, rest) → wf a ∧ bs = image a ++ rest) → Coded r image wf.
Proof.
  intros H1 H2. constructor; [intros a Ha p rest [= <-]; by apply H1|]. intros bs a rest H. destruct (H2 _ _ _ H) as [Ha ->]. eauto.
Qed.

Lemma coded_take n : Coded (policy_take n) id (λ v, length v = n).
Proof.
  apply coded_intro; unfold policy_take, id.
  - intros v rest <-. rewrite length_app, (proj2 (Nat.ltb_ge _ _)) by lia. by rewrite take_app_length, drop_app_length.
  - intros bs v rest. destruct (Nat.ltb_spec (length bs) n); [done|]. intros [= <- <-]. rewrite length_take, take_drop. split; [lia|done].
Qed.

(** Reading one thing and then another that depends on it. *)
Lemma coded_seq {A B} (r : policy_reader A) (k : A → policy_reader B) image image' (wf : A → Prop) (wf' : B → Prop) (proj : B → A) rest' :
  Coded r image wf → (∀ b, wf' b → wf (proj b)) → (∀ a, wf a → Coded (k a) rest' (λ b, wf' b ∧ proj b = a)) →
  (∀ b, image' b = image (proj b) ++ rest' b) → Coded (rseq r k) image' wf'.
Proof.
  intros Hr Hw Hk Hi. apply coded_intro.
  - intros b rest Hb. unfold rseq. rewrite Hi, <- app_assoc, (coded_reads (proj b) _ Hr) by auto. by apply (coded_reads b rest (Hk (proj b) (Hw b Hb))).
  - intros bs b rest H. apply rseq_ok_inv in H as (a & mid & Ha & H). apply (coded_exact _ _ _ Hr) in Ha as [Ha ->].
    apply (coded_exact _ _ _ (Hk a Ha)) in H as [[Hb <-] ->]. split; [done|]. by rewrite Hi, app_assoc.
Qed.
Lemma coded_ret {A} (a : A) (wf : A → Prop) : (∀ b, wf b ↔ b = a) → Coded (rret a) (λ _, []) wf.
Proof. intros H. apply coded_intro; [intros b rest ->%H; done|]. intros bs b rest [= <- <-]. split; [by apply H|done]. Qed.
Lemma coded_ext {A} (r : policy_reader A) image (wf wf' : A → Prop) : (∀ a, wf a ↔ wf' a) → Coded r image wf → Coded r image wf'.
Proof.
  intros He Hc. apply coded_intro; [intros a rest Ha; apply (coded_reads a rest Hc); by apply He|].
  intros bs a rest H. destruct (coded_exact _ _ _ Hc H) as [Ha ->]. split; [by apply He|done].
Qed.

Lemma coded_u64 : Coded read_policy_u64 policy_u64 (λ n, u64_ok n = true).
Proof.
  apply (coded_seq (policy_take 8) _ id _ (λ v, length v = 8) _ (le_bytes 8) (λ _, [])); [apply coded_take|intros n _; apply length_le_bytes| |].
  - intros v Hv. apply coded_ret. intros n. split.
    + intros [Hn%N.ltb_lt <-]. rewrite le_value_bytes; done.
    + intros ->. split; [|by rewrite <- Hv, le_bytes_value]. pose proof (le_value_lt v) as H. rewrite Hv in H. by apply N.ltb_lt.
  - intros n. by rewrite app_nil_r.
Qed.

Lemma coded_length limit : (limit < 2 ^ 32)%N → Coded (policy_length limit) policy_u32 (λ n, n ≤ limit)%N.
Proof.
  intros Hl. apply (coded_seq (policy_take 4) _ id _ (λ v, length v = 4) _ (le_bytes 4) (λ _, [])); [apply coded_take|intros n _; apply length_le_bytes| |].
  - intros v Hv. assert (∀ n, (n ≤ limit)%N → le_bytes 4 n = v → n = le_value v) as Hn.
    { intros n Hn <-. symmetry. apply le_value_bytes. change (256 ^ N.of_nat 4)%N with (2 ^ 32)%N. lia. }
    destruct (N.ltb_spec limit (le_value v)) as [Hlt|Hge].
    + apply coded_intro; [|done]. intros n rest [Hle Hb]. rewrite <- (Hn n Hle Hb) in Hlt. lia.
    + apply coded_ret. intros n. split; [intros [? ?]; by apply Hn|]. intros ->. split; [done|]. by rewrite <- Hv, le_bytes_value.
  - intros n. by rewrite app_nil_r.
Qed.

Lemma coded_bytes limit : (limit < 2 ^ 32)%N → Coded (read_policy_bytes limit) policy_bytes (λ v, blen v ≤ limit)%N.
Proof.
  intros Hl. apply (coded_seq (policy_length limit) _ policy_u32 _ (λ n, n ≤ limit)%N _ blen id); [by apply coded_length|done| |done].
  intros n Hn. eapply coded_ext; [|apply coded_take]. intros v. unfold blen. split; [intros; split; lia|intros [_ H]; lia].
Qed.

Definition id_ok (s : string) : Prop := str_ok s = true ∧ (slen s ≤ MAX_STRING_BYTES)%N.
Lemma coded_string : Coded read_policy_string policy_string id_ok.
Proof.
  apply (coded_seq (policy_length MAX_STRING_BYTES) _ policy_u32 _ (λ n, n ≤ MAX_STRING_BYTES)%N _ slen str_bytes); [by apply coded_length|by intros s []| |done].
  intros n Hn. apply (coded_seq (policy_take (N.to_nat n)) _ id _ (λ v, length v = N.to_nat n) _ str_bytes (λ _, [])); [apply coded_take| | |].
  - intros s [_ <-]. unfold slen, blen. lia.
  - intros v Hv. destruct (str_ok (bytes_str v)) eqn:E.
    + apply coded_ret. intros s. split; [intros [_ <-]; by rewrite String.string_of_list_byte_of_string|].
      intros ->. assert (str_bytes (bytes_str v) = v) as Hb by apply String.list_byte_of_string_of_list_byte.
      assert (slen (bytes_str v) = n) as Hs by (unfold slen, blen; rewrite Hb; lia). split; [|done]. split; [split; [done|by rewrite Hs]|done].
    + apply coded_intro; [|done]. intros s rest [[[Hs _] _] Hb]. by rewrite <- Hb, String.string_of_list_byte_of_string, Hs in E.
  - intros s. by rewrite app_nil_r.
Qed.

Lemma coded_list {A} (item : policy_reader A) image (wf : A → Prop) : Coded item image wf →
  Coded (read_policy_list item) (policy_list image) (λ l, (blen l ≤ MAX_ITEMS)%N ∧ Forall wf l).
Proof.
  intros Hi. apply (coded_seq policy_count _ policy_u32 _ (λ n, n ≤ MAX_ITEMS)%N _ blen (λ l, mjoin (image <$> l))); [by apply coded_length|by intros l []| |done].
  intros n Hn. assert (∀ l : list A, wseq ((λ a, Some (image a)) <$> l) = Some (mjoin (image <$> l))) as Hw.
  { induction l as [|a l IH]; [done|]. change (wapp (Some (image a)) (wseq ((λ a, Some (image a)) <$> l)) = Some (image a ++ mjoin (image <$> l))). by rewrite IH. }
  apply coded_intro.
  - intros l rest [[_ Hl] <-]. unfold blen. rewrite Nat2N.id. apply (reads_repeat item (λ a, Some (image a)) l); [|apply Hw].
    eapply Forall_impl; [exact Hl|]. intros a Ha. by apply (codec_reads (Codec := Hi)).
  - intros bs l rest H. apply (exact_repeat item (λ a, Some (image a)) wf) in H as ([Hlen Hl] & p & Hp & ->); [|apply (codec_exact (Codec := Hi))].
    rewrite Hw in Hp. injection Hp as <-. split; [|done]. unfold blen in *. split; [split; [lia|done]|lia].
Qed.

Lemma coded_project : Coded read_project project_bytes (λ p, id_ok (pp_project p)).
Proof.
  apply (coded_seq _ _ policy_string _ id_ok _ pp_project (λ _, [])); [apply coded_string|done| |intros p; by rewrite app_nil_r].
  intros x Hx. apply coded_ret. intros []. cbn. naive_solver.
Qed.
Lemma coded_capability : Coded read_capability capability_bytes (λ c, id_ok (cp_project c) ∧ id_ok (cp_capability c)).
Proof.
  apply (coded_seq _ _ policy_string _ id_ok _ cp_project (λ c, policy_string (cp_capability c))); [apply coded_string|by intros c []| |done].
  intros x Hx. apply (coded_seq _ _ policy_string _ id_ok _ cp_capability (λ _, [])); [apply coded_string|naive_solver| |intros c; by rewrite app_nil_r].
  intros y Hy. apply coded_ret. intros []. cbn. naive_solver.
Qed.
Definition policy_binding_ok (b : PodPolicyBinding) : Prop :=
  id_ok (pb_project b) ∧ id_ok (pb_pod b) ∧ id_ok (pb_capability b) ∧ id_ok (pb_input_type b).
Lemma coded_binding : Coded read_binding binding_bytes policy_binding_ok.
Proof.
  unfold policy_binding_ok.
  apply (coded_seq _ _ policy_string _ id_ok _ pb_project (λ b, policy_string (pb_pod b) ++ policy_string (pb_capability b) ++ policy_string (pb_input_type b)));
    [apply coded_string|naive_solver| |done].
  intros x Hx. apply (coded_seq _ _ policy_string _ id_ok _ pb_pod (λ b, policy_string (pb_capability b) ++ policy_string (pb_input_type b)));
    [apply coded_string|naive_solver| |done].
  intros y Hy. apply (coded_seq _ _ policy_string _ id_ok _ pb_capability (λ b, policy_string (pb_input_type b))); [apply coded_string|naive_solver| |done].
  intros z Hz. apply (coded_seq _ _ policy_string _ id_ok _ pb_input_type (λ _, [])); [apply coded_string|naive_solver| |intros b; by rewrite app_nil_r].
  intros w Hw. apply coded_ret. intros []. cbn. naive_solver.
Qed.

Definition until_bytes (o : option Timestamp) : list byte := match o with Some value => [x01] ++ policy_u64 value | None => [x00] end.
Lemma coded_until : Coded read_until until_bytes (λ o, opt_ok u64_ok o = true).
Proof.
  apply (coded_seq (policy_take 1) _ id _ (λ v, length v = 1) _ (λ o : option Timestamp, if o then [x01] else [x00])
           (λ o, if o is Some v then policy_u64 v else [])); [apply coded_take|by intros []| |by intros []].
  intros v Hv. destruct v as [|b [|? ?]]; try discriminate Hv. destruct b; try (by apply coded_intro; [intros [?|] rest [_ [=]]|]).
  - apply coded_intro; [by intros [?|] rest [_ [=]]|]. by intros bs o rest [= <- <-].
  - apply coded_intro.
    + intros [m|] rest [Hm [=]]. unfold rseq. by rewrite (coded_reads m rest coded_u64 Hm).
    + intros bs o rest H. apply rseq_ok_inv in H as (n & mid & Hn & [= <- <-]). by apply (coded_exact _ _ _ coded_u64) in Hn as [Hn ->].
Qed.

Record payload_ok (p : PolicyBundlePayload) : Prop := {
  po_from : u64_ok (bp_valid_from p) = true;
  po_until : opt_ok u64_ok (bp_valid_until p) = true;
  po_projects : (blen (bp_projects p) ≤ MAX_ITEMS)%N ∧ Forall (λ x, id_ok (pp_project x)) (bp_projects p);
  po_capabilities : (blen (bp_capabilities p) ≤ MAX_ITEMS)%N ∧ Forall (λ x, id_ok (cp_project x) ∧ id_ok (cp_capability x)) (bp_capabilities p);
  po_types : (blen (bp_input_types p) ≤ MAX_ITEMS)%N ∧ Forall id_ok (bp_input_types p);
  po_bindings : (blen (bp_pod_bindings p) ≤ MAX_ITEMS)%N ∧ Forall policy_binding_ok (bp_pod_bindings p)
}.

Lemma coded_payload : Coded read_payload payload_image payload_ok.
Proof.
  apply (coded_seq (policy_take (length PAYLOAD_DOMAIN)) _ id _ (λ v, length v = length PAYLOAD_DOMAIN) _ (λ _, PAYLOAD_DOMAIN)
    (λ p, policy_u64 (bp_valid_from p) ++ until_bytes (bp_valid_until p) ++ policy_list project_bytes (bp_projects p) ++ policy_list capability_bytes (bp_capabilities p) ++
          policy_list policy_string (bp_input_types p) ++ policy_list binding_bytes (bp_pod_bindings p)));
    [apply coded_take|done| |].
  2:{ intros p. unfold payload_image, window_bytes. by rewrite <- app_assoc. }
  intros v _. destruct (bool_decide_reflect (v = PAYLOAD_DOMAIN)) as [->|Hne]; cbn [negb];
    [|by apply coded_intro; [intros p rest [_ <-]|]].
  eapply (coded_seq _ _ policy_u64 _ _ _ bp_valid_from); [apply coded_u64|by intros p [[] _]| |reflexivity].
  intros from H1. eapply (coded_seq _ _ until_bytes _ _ _ bp_valid_until); [apply coded_until|by intros p [[[] _] _]| |reflexivity].
  intros bound H2. eapply (coded_seq _ _ (policy_list project_bytes) _ _ _ bp_projects); [apply coded_list, coded_project|by intros p [[[[] _] _] _]| |reflexivity].
  intros projects H3. eapply (coded_seq _ _ (policy_list capability_bytes) _ _ _ bp_capabilities);
    [apply coded_list, coded_capability|by intros p [[[[[] _] _] _] _]| |reflexivity].
  intros capabilities H4. eapply (coded_seq _ _ (policy_list policy_string) _ _ _ bp_input_types);
    [apply coded_list, coded_string|by intros p [[[[[[] _] _] _] _] _]| |reflexivity].
  intros types H5. eapply (coded_seq _ _ (policy_list binding_bytes) _ _ _ bp_pod_bindings (λ _, []));
    [apply coded_list, coded_binding|by intros p [[[[[[[] _] _] _] _] _] _]| |intros p; by rewrite app_nil_r].
  intros bindings H6. apply coded_ret. intros []. cbn. split; [naive_solver|]. intros [= -> -> -> -> -> ->].
  by split_and!.
Qed.

Lemma finished_iff {A} (r : policy_reader A) image (wf : A → Prop) bs a : Coded r image wf →
  finished r bs = Ok a ↔ wf a ∧ bs = image a.
Proof.
  intros Hc. unfold finished. split.
  - intros H. apply rbind_ok_inv in H as ([x rest] & Hr & H). destruct (bool_decide_reflect (rest = [])) as [->|]; [|done]. injection H as <-.
    apply (coded_exact _ _ _ Hc) in Hr as [Hx ->]. by rewrite app_nil_r.
  - intros [Ha ->]. rewrite <- (app_nil_r (image a)), (coded_reads a [] Hc Ha). done.
Qed.

Definition bundle_parts : Type := Revision * string * Digest * list byte * list byte.
Definition parts_image (b : bundle_parts) : list byte :=
  let '(revision, key_id, digest, payload, signature) := b in
  SIGNED_DOMAIN ++ policy_u64 revision ++ policy_string key_id ++ digest ++ policy_bytes payload ++ policy_bytes signature.
Definition parts_ok (b : bundle_parts) : Prop :=
  let '(revision, key_id, digest, payload, signature) := b in
  u64_ok revision = true ∧ id_ok key_id ∧ length digest = 32 ∧ (blen payload ≤ MAX_PAYLOAD_BYTES)%N ∧ (blen signature ≤ MAX_SIGNATURE_BYTES)%N.

Lemma coded_bundle : Coded read_bundle parts_image parts_ok.
Proof.
  apply (coded_seq (policy_take (length SIGNED_DOMAIN)) _ id _ (λ v, length v = length SIGNED_DOMAIN) _ (λ _, SIGNED_DOMAIN)
    (λ b, policy_u64 b.1.1.1.1 ++ policy_string b.1.1.1.2 ++ b.1.1.2 ++ policy_bytes b.1.2 ++ policy_bytes b.2));
    [apply coded_take|done| |by intros [[[[]]]]].
  intros v _. destruct (bool_decide_reflect (v = SIGNED_DOMAIN)) as [->|Hne]; cbn [negb];
    [|by apply coded_intro; [intros p rest [_ <-]|]].
  eapply (coded_seq _ _ policy_u64 _ _ _ (λ b, b.1.1.1.1)); [apply coded_u64|by intros [[[[]]]] [[] _]| |reflexivity].
  intros revision H1. eapply (coded_seq _ _ policy_string _ _ _ (λ b, b.1.1.1.2)); [apply coded_string|by intros [[[[]]]] [[[? []] _] _]| |reflexivity].
  intros key_id H2. eapply (coded_seq _ _ id _ _ _ (λ b, b.1.1.2)); [apply coded_take|by intros [[[[]]]] [[[[? [? []]] _] _] _]| |reflexivity].
  intros digest H3. eapply (coded_seq _ _ policy_bytes _ _ _ (λ b, b.1.2)); [by apply coded_bytes|by intros [[[[]]]] [[[[[? [? [? []]]] _] _] _] _]| |reflexivity].
  intros payload H4. eapply (coded_seq _ _ policy_bytes _ _ _ (λ b, b.2) (λ _, []));
    [by apply coded_bytes|by intros [[[[]]]] [[[[[[? [? [? []]]] _] _] _] _] _]| |intros b; by rewrite app_nil_r].
  intros signature H5. apply coded_ret. intros [[[[]]]]. cbn. split; [naive_solver|]. intros [= -> -> -> -> ->]. by split_and!.
Qed.

(** ** The bytes determine the payload *)

Definition short (s : string) : Prop := (slen s < 2 ^ 32)%N.

Lemma prefix_string : PrefixInj policy_string short.
Proof.
  intros a b r r' Ha Hb H. unfold policy_string, policy_u32 in H. rewrite <- !app_assoc in H.
  apply (prefix_le 4) in H as [Hl H]; [|exact Ha|exact Hb]. apply app_inj_1 in H as [H ?]; [|unfold slen, blen in Hl; lia].
  split; [by apply str_bytes_inj|done].
Qed.
Lemma prefix_project : PrefixInj project_bytes (λ p, short (pp_project p)).
Proof. intros [a] [b] r r' Ha Hb H. apply prefix_string in H as [[= ->] ?]; done. Qed.
Lemma prefix_capability : PrefixInj capability_bytes (λ c, short (cp_project c) ∧ short (cp_capability c)).
Proof.
  intros [a1 a2] [b1 b2] r r' [S1 S2] [T1 T2] H. unfold capability_bytes in H. rewrite <- !app_assoc in H. cbn [cp_project cp_capability] in *.
  apply prefix_string in H as [-> H]; [|done..]. apply prefix_string in H as [-> H]; done.
Qed.
Definition short_binding (b : PodPolicyBinding) : Prop :=
  short (pb_project b) ∧ short (pb_pod b) ∧ short (pb_capability b) ∧ short (pb_input_type b).
Lemma prefix_binding : PrefixInj binding_bytes short_binding.
Proof.
  intros [a1 a2 a3 a4] [b1 b2 b3 b4] r r' (S1 & S2 & S3 & S4) (T1 & T2 & T3 & T4) H. unfold binding_bytes in H. rewrite <- !app_assoc in H.
  cbn [pb_project pb_pod pb_capability pb_input_type] in *. do 3 (apply prefix_string in H as [-> H]; [|done..]).
  apply prefix_string in H as [-> H]; done.
Qed.
Lemma prefix_items {A} (enc : A → list byte) (wf : A → Prop) : PrefixInj enc wf →
  PrefixInj (policy_list enc) (λ l, (blen l < 2 ^ 32)%N ∧ Forall wf l).
Proof.
  intros He a b r r' [Ha Wa] [Hb Wb] H. unfold policy_list, policy_u32 in H. rewrite <- !app_assoc in H.
  apply (prefix_le 4) in H as [Hl H]; [|exact Ha|exact Hb]. apply (prefix_list _ _ He) in H; [done|unfold blen in Hl; lia|done|done].
Qed.
Lemma prefix_until : PrefixInj until_bytes (λ o, opt_ok u64_ok o = true).
Proof.
  intros [a|] [b|] r r' Ha Hb H; cbn [until_bytes app] in H; try discriminate H; [|by injection H as <-].
  apply (f_equal (drop 1)) in H. cbn [drop] in H. apply N.ltb_lt in Ha, Hb. apply (prefix_le 8) in H as [-> ?]; [done|exact Ha|exact Hb].
Qed.

Record wide (p : PolicyBundlePayload) : Prop := {
  wd_from : u64_ok (bp_valid_from p) = true;
  wd_until : opt_ok u64_ok (bp_valid_until p) = true;
  wd_projects : (blen (bp_projects p) < 2 ^ 32)%N ∧ Forall (λ x, short (pp_project x)) (bp_projects p);
  wd_capabilities : (blen (bp_capabilities p) < 2 ^ 32)%N ∧ Forall (λ x, short (cp_project x) ∧ short (cp_capability x)) (bp_capabilities p);
  wd_types : (blen (bp_input_types p) < 2 ^ 32)%N ∧ Forall short (bp_input_types p);
  wd_bindings : (blen (bp_pod_bindings p) < 2 ^ 32)%N ∧ Forall short_binding (bp_pod_bindings p)
}.

Lemma payload_image_inj p q : wide p → wide q → payload_image p = payload_image q → p = q.
Proof.
  intros [P1 P2 P3 P4 P5 P6] [Q1 Q2 Q3 Q4 Q5 Q6] H. unfold payload_image, window_bytes in H. apply app_inv_head in H.
  change (match bp_valid_until p with Some value => [x01] ++ policy_u64 value | None => [x00] end) with (until_bytes (bp_valid_until p)) in H.
  change (match bp_valid_until q with Some value => [x01] ++ policy_u64 value | None => [x00] end) with (until_bytes (bp_valid_until q)) in H.
  rewrite <- !app_assoc in H. apply N.ltb_lt in P1, Q1. apply (prefix_le 8) in H as [E1 H]; [|exact P1|exact Q1].
  apply prefix_until in H as [E2 H]; [|done..]. apply (prefix_items _ _ prefix_project) in H as [E3 H]; [|done..].
  apply (prefix_items _ _ prefix_capability) in H as [E4 H]; [|done..]. apply (prefix_items _ _ prefix_string) in H as [E5 H]; [|done..].
  rewrite <- (app_nil_r (policy_list binding_bytes (bp_pod_bindings p))), <- (app_nil_r (policy_list binding_bytes (bp_pod_bindings q))) in H.
  apply (prefix_items _ _ prefix_binding) in H as [E6 _]; [|done..]. destruct p, q. cbn in *. by subst.
Qed.

(** What is bounded is short, and so is what fits into a small encoding. *)
Lemma id_ok_short s : id_ok s → short s.
Proof. intros [_ H]. unfold short. change MAX_STRING_BYTES with 4096%N in H. lia. Qed.
Lemma payload_ok_wide p : payload_ok p → wide p.
Proof.
  intros [H1 H2 [L3 H3] [L4 H4] [L5 H5] [L6 H6]]. change MAX_ITEMS with 4096%N in *.
  constructor; [done|done|..]; (split; [lia|]); (eapply Forall_impl; [eassumption|]).
  - intros x. apply id_ok_short.
  - intros x []. split; by apply id_ok_short.
  - intros x. apply id_ok_short.
  - intros x (?&?&?&?). split_and!; by apply id_ok_short.
Qed.

Lemma blen_string s : blen (policy_string s) = (4 + slen s)%N.
Proof. unfold policy_string, policy_u32, slen. autorewrite with blen. unfold blen at 1. rewrite length_le_bytes. lia. Qed.
Lemma list_items_long {A} (enc : A → list byte) l : (∀ x, 0 < blen (enc x))%N →
  (blen l ≤ blen (policy_list enc l))%N ∧ Forall (λ x, (blen (enc x) ≤ blen (policy_list enc l))%N) l.
Proof.
  intros Hp. assert ((blen l ≤ blen (mjoin (enc <$> l)))%N ∧ Forall (λ x, (blen (enc x) ≤ blen (mjoin (enc <$> l)))%N) l) as [H1 H2].
  { induction l as [|x l [IH1 IH2]]; [split; [done|constructor]|].
    change (mjoin (enc <$> x :: l)) with (enc x ++ mjoin (enc <$> l)). autorewrite with blen. specialize (Hp x). split; [lia|].
    constructor; [lia|]. eapply Forall_impl; [exact IH2|]. intros y Hy. cbn beta in Hy. autorewrite with blen. lia. }
  unfold policy_list. autorewrite with blen. split; [lia|]. eapply Forall_impl; [exact H2|]. intros y Hy. cbn beta in Hy. autorewrite with blen. lia.
Qed.

Lemma small_wide p : u64_ok (bp_valid_from p) = true → opt_ok u64_ok (bp_valid_until p) = true →
  (blen (payload_image p) ≤ MAX_PAYLOAD_BYTES)%N → wide p.
Proof.
  intros Hf Hu Hb. unfold payload_image in Hb. autorewrite with blen in Hb. change MAX_PAYLOAD_BYTES with 4194304%N in Hb.
  destruct (list_items_long project_bytes (bp_projects p)) as [L1 F1]; [intros; unfold project_bytes; rewrite blen_string; lia|].
  destruct (list_items_long capability_bytes (bp_capabilities p)) as [L2 F2]; [intros; unfold capability_bytes; autorewrite with blen; rewrite !blen_string; lia|].
  destruct (list_items_long policy_string (bp_input_types p)) as [L3 F3]; [intros; rewrite blen_string; lia|].
  destruct (list_items_long binding_bytes (bp_pod_bindings p)) as [L4 F4]; [intros; unfold binding_bytes; autorewrite with blen; rewrite !blen_string; lia|].
  constructor; [done|done|..]; (split; [lia|]); (eapply Forall_impl; [eassumption|]); intros x Hx; cbn beta in Hx;
    unfold project_bytes, capability_bytes, binding_bytes, short_binding, short in *; autorewrite with blen in Hx; rewrite ?blen_string in Hx;
    split_and?; lia.
Qed.

(** ** Validation *)

Definition payload_typed (p : PolicyBundlePayload) : Prop :=
  u64_ok (bp_valid_from p) = true ∧ opt_ok u64_ok (bp_valid_until p) = true.

Lemma payload_decode_iff bs p : payload_decode bs = Ok p ↔ payload_ok p ∧ bs = payload_image p.
Proof. apply finished_iff, coded_payload. Qed.

Lemma canonical_decodes p : payload_typed p → (blen (payload_canonical_bytes p) ≤ MAX_PAYLOAD_BYTES)%N →
  (∃ q, payload_decode (payload_canonical_bytes p) = Ok q) ↔ payload_ok (normalize p).
Proof.
  intros [Hf Hu] Hb. rewrite canonical_image in *. split.
  - intros (q & [Hq E]%payload_decode_iff). assert (normalize p = q) as ->; [|done].
    apply payload_image_inj; [by apply small_wide|by apply payload_ok_wide|done].
  - intros H. exists (normalize p). by apply payload_decode_iff.
Qed.

(** A payload that may be signed: its window is not empty, it names nothing with an
    empty identifier, and what is written of it can be read. *)
Record payload_valid (p : PolicyBundlePayload) : Prop := {
  pv_window : ∀ last, bp_valid_until p = Some last → (bp_valid_from p ≤ last)%N;
  pv_named : any_empty p = false;
  pv_size : (blen (payload_canonical_bytes p) ≤ MAX_PAYLOAD_BYTES)%N;
  pv_readable : payload_ok (normalize p)
}.

Lemma payload_validate_iff p : payload_typed p → payload_validate p = Ok tt ↔ payload_valid p.
Proof.
  intros Ht. unfold payload_validate.
  assert (match bp_valid_until p with Some last => (last <? bp_valid_from p)%N | None => false end = false ↔
    ∀ last, bp_valid_until p = Some last → (bp_valid_from p ≤ last)%N) as Hw.
  { destruct (bp_valid_until p) as [x|]; [|by split]. rewrite N.ltb_ge. naive_solver. }
  destruct (match bp_valid_until p with Some _ => _ | None => _ end) eqn:E1; [by split; [|intros [?%Hw]]|]. apply proj1 in Hw. specialize (Hw eq_refl).
  destruct (any_empty p) eqn:E2; [split; [done|intros []; congruence]|].
  destruct (N.ltb_spec MAX_PAYLOAD_BYTES (blen (payload_canonical_bytes p))) as [Hlt|Hle]; [split; [done|intros []; lia]|].
  pose proof (canonical_decodes p Ht Hle) as Hd. destruct (payload_decode (payload_canonical_bytes p)) as [q|].
  - split; [intros _; constructor; [done..|]|done]. apply Hd. by exists q.
  - split; [done|]. intros [_ _ _ H%Hd]. by destruct H.
Qed.

Section Verify.
Context (sha256 : list byte → list byte) (VerifyingKey : Type) (key_verifies : VerifyingKey → list byte → list byte → bool).
Abbreviation verify := (bundle_verify sha256 VerifyingKey key_verifies).

(** The values of a bundle inhabit their types. *)
Record bundle_typed (b : SignedPolicyBundle) : Prop := {
  bt_revision : u64_ok (sb_revision b) = true;
  bt_key : str_ok (sb_key_id b) = true;
  bt_digest : length (sb_payload_digest b) = 32;
  bt_payload : payload_typed (sb_payload b)
}.

Record bundle_trusted (b : SignedPolicyBundle) (trust : PolicyTrustStore VerifyingKey) (now : Timestamp) : Prop := {
  tr_key_id : sb_key_id b ≠ "" ∧ (slen (sb_key_id b) ≤ MAX_STRING_BYTES)%N;
  tr_revision : sb_revision b ≠ 0%N;
  tr_payload : payload_valid (sb_payload b);
  tr_digest : payload_digest sha256 (sb_payload b) = sb_payload_digest b;
  tr_window : (bp_valid_from (sb_payload b) ≤ now)%N ∧ ∀ last, bp_valid_until (sb_payload b) = Some last → (now ≤ last)%N;
  tr_unrevoked : sb_key_id b ∉ ts_revoked _ trust;
  tr_signature : length (sb_signature b) = 64 ∧
    ∃ key, ts_keys _ trust !! sb_key_id b = Some key ∧ key_verifies key (signing_bytes b) (sb_signature b) = true
}.

(** A policy bundle verifies exactly when it is trusted.  The verification passes
    if and only if the key named is in the trust store and not revoked, its signature
    of 64 bytes covers the revision, the key and the digest of the payload, the digest
    is that of the canonical payload, the time lies in its window, the window is not
    empty, no identifier is empty, and the payload can be read back from the ledger:
    its encoding, the number of items of each list without repetitions and every
    identifier are within their bounds. *)
Lemma policy_verified b trust now : bundle_typed b → verify b trust now = Ok tt ↔ bundle_trusted b trust now.
Proof.
  intros Ht. pose proof (payload_validate_iff _ (bt_payload _ Ht)) as Hv. unfold bundle_verify. split.
  - intros H. destruct (_ || _ || _ || _) eqn:E0; [done|]. bool_prop. apply rbind_ok_inv in H as ([] & Hp%Hv & H).
    destruct (bool_decide_reflect (payload_digest sha256 (sb_payload b) = sb_payload_digest b)) as [Hd|]; [|done]. cbn [negb] in H.
    destruct (_ || _) eqn:E1; [done|]. bool_prop. apply rbind_ok_inv in H as (key & Hk%ok_or_ok_inv & H).
    destruct (bool_decide_reflect (sb_key_id b ∈ ts_revoked _ trust)); [done|].
    destruct (Nat.eqb_spec (length (sb_signature b)) 64); [|done]. cbn [negb] in H. destruct (key_verifies _ _ _) eqn:Es; [|done].
    constructor; [done|done|done|done| |done|eauto]. split; [done|]. intros last Hl. rewrite Hl in *. by apply N.ltb_ge.
  - intros [[K1 K2] R P D [W1 W2] U [S1 (key & S2 & S3)]]. rewrite bool_decide_false by done.
    rewrite (proj2 (N.ltb_ge _ _) K2), (proj2 (N.eqb_neq _ _) R). rewrite (proj2 (N.eqb_eq (blen _) _)) by (unfold blen; by rewrite S1).
    cbn [negb orb]. rewrite (proj2 Hv P). cbn [rbind]. rewrite bool_decide_true by done. cbn [negb]. rewrite (proj2 (N.ltb_ge _ _) W1). cbn [orb].
    replace (match bp_valid_until (sb_payload b) with Some last => (last <? now)%N | None => false end) with false
      by (destruct (bp_valid_until (sb_payload b)); [symmetry; apply N.ltb_ge; auto|done]).
    rewrite S2. cbn [ok_or rbind]. rewrite bool_decide_false by done. by rewrite S1, S3.
Qed.

(** What the ledger holds of a bundle: its lists sorted and without repetitions. *)
Definition stored_bundle (b : SignedPolicyBundle) : SignedPolicyBundle :=
  mkBundle (sb_revision b) (sb_key_id b) (normalize (sb_payload b)) (sb_payload_digest b) (sb_signature b).

Lemma existsb_same {A} (f : A → bool) l l' : (∀ x, x ∈ l ↔ x ∈ l') → existsb f l = existsb f l'.
Proof.
  intros H. apply Bool.eq_iff_eq_true. rewrite !existsb_exists.
  split; intros (x & Hx & Hf); exists x; (split; [|done]); apply list_elem_of_In; apply list_elem_of_In in Hx; by apply H.
Qed.
Lemma normalize_same p : same_policy (normalize p) p.
Proof. apply normalize_iff, normalize_idem. Qed.

Lemma stored_verify b trust now : verify (stored_bundle b) trust now = verify b trust now.
Proof.
  assert (payload_canonical_bytes (normalize (sb_payload b)) = payload_canonical_bytes (sb_payload b)) as Hc by (by rewrite !canonical_image, normalize_idem).
  assert (any_empty (normalize (sb_payload b)) = any_empty (sb_payload b)) as He.
  { destruct (normalize_same (sb_payload b)) as (H1 & H2 & H3 & H4 & _). unfold any_empty. by f_equal; [f_equal; [f_equal|]|]; apply existsb_same. }
  unfold bundle_verify, payload_validate, payload_digest, stored_bundle. cbn [sb_revision sb_key_id sb_payload sb_payload_digest sb_signature].
  by rewrite Hc, He.
Qed.

(** C13: a policy that was accepted survives the ledger.  When a bundle verifies, what
    is written to the ledger is read back as the same bundle with its lists sorted and
    without repetitions: it grants the same, encodes to the same bytes, and verifies
    like the original under every trust store and at every time. *)
Theorem policy_ledger_roundtrip b trust now : bundle_typed b → verify b trust now = Ok tt →
  decode_for_ledger (encode_for_ledger b) = Ok (stored_bundle b) ∧ same_policy (sb_payload (stored_bundle b)) (sb_payload b) ∧
  encode_for_ledger (stored_bundle b) = encode_for_ledger b ∧ ∀ trust' now', verify (stored_bundle b) trust' now' = verify b trust' now'.
Proof.
  intros Ht H. apply policy_verified in H as [[K1 K2] _ [_ _ P3 P4] _ _ _ [S1 _]]; [|done]. split_and!.
  - unfold decode_for_ledger.
    assert (finished read_bundle (encode_for_ledger b) =
      Ok (sb_revision b, sb_key_id b, sb_payload_digest b, payload_canonical_bytes (sb_payload b), sb_signature b)) as ->.
    { apply (finished_iff _ _ _ _ _ coded_bundle). split; [|unfold encode_for_ledger, bundle_canonical_bytes, signing_bytes, parts_image; by rewrite <- !app_assoc].
      destruct Ht as [T1 T2 T3 T4]. split_and!; [done|done|done|done|]. unfold blen. rewrite S1. change MAX_SIGNATURE_BYTES with 4096%N. lia. }
    cbn [rbind]. by rewrite (proj2 (payload_decode_iff (payload_canonical_bytes (sb_payload b)) (normalize (sb_payload b)))).
  - apply normalize_same.
  - assert (payload_canonical_bytes (normalize (sb_payload b)) = payload_canonical_bytes (sb_payload b)) as Hc by (by rewrite !canonical_image, normalize_idem).
    unfold encode_for_ledger, bundle_canonical_bytes, signing_bytes, stored_bundle.
    cbn [sb_revision sb_key_id sb_payload sb_payload_digest sb_signature]. by rewrite Hc.
  - intros. apply stored_verify.
Qed.

(** C15: a signature stands for one policy.  When two bundles verify and what their
    keys signed is the same, they have the same revision and the same key, and they
    grant the same for the same time, or their two canonical payloads are different
    byte strings with the same SHA-256 digest. *)
Theorem policy_signature_binds b b' trust trust' now now' : bundle_typed b → bundle_typed b' →
  verify b trust now = Ok tt → verify b' trust' now' = Ok tt → signing_bytes b = signing_bytes b' →
  sb_revision b = sb_revision b' ∧ sb_key_id b = sb_key_id b' ∧
  (same_policy (sb_payload b) (sb_payload b') ∨
   payload_canonical_bytes (sb_payload b) ≠ payload_canonical_bytes (sb_payload b') ∧
   sha256 (payload_canonical_bytes (sb_payload b)) = sha256 (payload_canonical_bytes (sb_payload b'))).
Proof.
  intros T T' V V' E. apply policy_verified in V as [[_ K] _ [_ _ _ P] D _ _ _]; [|done].
  apply policy_verified in V' as [[_ K'] _ [_ _ _ P'] D' _ _ _]; [|done].
  assert (short (sb_key_id b) ∧ short (sb_key_id b')) as [Hs Hs'] by (unfold short; change MAX_STRING_BYTES with 4096%N in *; split; lia).
  unfold signing_bytes in E. apply app_inv_head in E. pose proof (bt_revision _ T) as R%N.ltb_lt. pose proof (bt_revision _ T') as R'%N.ltb_lt.
  apply (prefix_le 8) in E as [Er E]; [|exact R|exact R']. apply prefix_string in E as [Ek E]; [|done..]. split_and!; [done|done|].
  destruct (decide (payload_canonical_bytes (sb_payload b) = payload_canonical_bytes (sb_payload b'))) as [Ec|Hc].
  - left. apply normalize_iff. rewrite !canonical_image in Ec. apply payload_image_inj; [by apply payload_ok_wide|by apply payload_ok_wide|done].
  - right. split; [done|].
    change (payload_digest sha256 (sb_payload b) = payload_digest sha256 (sb_payload b')). by rewrite D, D', E.
Qed.
End Verify.

(** ** A bundle

    Two projects given out of order and one of them twice, under a key of a trust
    store whose check accepts the signatures of one given byte. *)
Definition sample_hash (x : list byte) : list byte := take 32 (rev x ++ replicate 32 x00).
Definition sample_check (_ : unit) (_ signature : list byte) : bool := bool_decide (signature = replicate 64 x07).
Definition sample_payload : PolicyBundlePayload :=
  mkPayload [mkProject "beta"; mkProject "alpha"; mkProject "beta"] [mkCapability "alpha" "read"] ["text"]
    [mkBinding "alpha" "pod" "read" "text"] 10 (Some 20%N).
Definition sample_bundle : SignedPolicyBundle :=
  mkBundle 3 "root" sample_payload (payload_digest sample_hash sample_payload) (replicate 64 x07).
Definition sample_trust : PolicyTrustStore unit := mkTrust unit {["root" := tt]} ∅.
Lemma sample_typed : bundle_typed sample_bundle.
Proof. constructor; [vm_compute; reflexivity..|]. split; [vm_compute; reflexivity|]. by vm_compute. Qed.
Lemma sample_verifies : bundle_verify sample_hash unit sample_check sample_bundle sample_trust 15 = Ok tt.
Proof. vm_compute. reflexivity. Qed.

Lemma policy_ledger_roundtrip_witness :
  decode_for_ledger (encode_for_ledger sample_bundle) = Ok (stored_bundle sample_bundle) ∧
  bp_projects (sb_payload (stored_bundle sample_bundle)) = [mkProject "alpha"; mkProject "beta"].
Proof.
  split; [|vm_compute; reflexivity].
  exact (proj1 (policy_ledger_roundtrip sample_hash unit sample_check sample_bundle sample_trust 15 sample_typed sample_verifies)).
Defined.

Lemma policy_signature_binds_witness :
  let stored := stored_bundle sample_bundle in
  sb_payload stored ≠ sample_payload ∧ bundle_typed stored ∧
  (same_policy (sb_payload stored) sample_payload ∨
   payload_canonical_bytes (sb_payload stored) ≠ payload_canonical_bytes sample_payload ∧
   sample_hash (payload_canonical_bytes (sb_payload stored)) = sample_hash (payload_canonical_bytes sample_payload)).
Proof.
  assert (bundle_typed (stored_bundle sample_bundle)) as Ht.
  { constructor; [vm_compute; reflexivity..|]. split; [vm_compute; reflexivity|]. by vm_compute. }
  split; [by vm_compute|split; [exact Ht|]].
  assert (bundle_verify sample_hash unit sample_check (stored_bundle sample_bundle) sample_trust 16 = Ok tt) as Hv by (vm_compute; reflexivity).
  exact (proj2 (proj2 (policy_signature_binds sample_hash unit sample_check (stored_bundle sample_bundle) sample_bundle sample_trust sample_trust 16 15
    Ht sample_typed Hv sample_verifies eq_refl))).
Defined.
